(* ===== verification/_CoqProject ===== *)
-Q . S2P
Prelude.v
Strconv.v
Resp.v
RespDecode.v
RespDecodeFacts.v
RespParser.v
ConnMachine.v
ConnMachineFacts.v
GoLib.v
IntSet.v
CompactHash.v
Lzf.v
Float64.v
CompactZSet.v
SkipList.v
SkipListFacts.v
Stream.v
Bitmap.v
HyperLogLog.v
ValueObject.v
ValueFacts.v
ListWaiters.v
Store.v
StoreOps.v
Locks.v
StoreFacts.v
StoreMemory.v
StoreInvariant.v
StoreTheorems.v
StorePlain.v
StoreFrames.v
Rdb.v
RdbFacts.v
FileSys.v
FileReplace.v
RdbSave.v
Clients.v
Slowlog.v
GoText.v
Strfloat.v
Geo.v
Replication.v
Fanout.v
CommandBase.v
Commands.v
Executor.v
ExecutorFacts.v
HandlerFacts.v
ExecutorTheorems.v
TransactionTheorems.v
Aof.v
AofFacts.v
AofWriter.v
AofWriterFacts.v
AofTheorems.v
Config.v
Server.v
ServerRun.v
ServerFacts.v
RewriteFacts.v
RewriteTheorems.v
EventLoop.v
Pollers.v
EventLoopFacts.v
EventLoopTheorems.v
ServerLoop.v
ServerTheorems.v
ServerLife.v
TypeTheorems.v
Keyspace.v
KeyspaceOps.v
KeyspaceCommands.v
KeyspaceReads.v
KeyspaceLog.v
KeyspaceRun.v
KeyspaceReplay.v
KeyspaceSync.v
ReplayTheorems.v
