(* ===== verification/Prelude.v ===== *)
(** * Stash: a verification development

    Stash is a Redis-compatible in-memory key/value server written in Go.  This
    library models its own core logic as executable Rocq functions, translated
    from the files under [src/internal], and proves what makes it correct.

    ** The program

    - [protocol]: RESP values, their encoders, a decoder over a byte buffer (the
      event loop) and a parser over a stream (one goroutine per connection, the
      replication link, AOF replay).
    - [storage]: the sharded keyspace: values of six kinds in general and compact
      encodings, TTLs, approximate memory accounting with LRU eviction, key
      statistics, the queues of blocked pops, snapshots.
    - [command]: decodes and validates requests, queues them inside MULTI, calls
      the store, and says which frames a successful write sends to the
      append-only file and to replicas.
    - [rdb], [aof], replication: persistence and propagation.
    - [server]: registers clients and runs their requests; makes writes durable
      before or after the reply, as the fsync policy asks; feeds replicas and
      follows a master.  A connection is either a goroutine around the stream
      parser or the non-blocking machine of [conn_machine.go], which the event
      loop feeds with what it reads and drains to the socket.

    ** Which file models what

    Foundations:
    - [Prelude]: bytes, machine integers, results, tactics, shared lemmas.
      [Strconv], [Strfloat], [GoLib], [GoText]: what the code calls of
      [strconv] (integers; floats), [sort], [slices] and [strings].  [Float64]:
      binary64 numbers and the (score, member) order.

    Protocol and connections:
    - [Resp]: [types.go], [coerce.go] and [writer.go] of [protocol].
      [RespDecode]: [decode.go], [grammar.go]; [RespDecodeFacts]: its properties.
      [RespParser]: [parser.go].
    - [ConnMachine], [ConnMachineFacts]: [server/conn_machine.go].  The command
      runner, the socket and the text of errors are parameters.

    Storage:
    - [IntSet], [CompactHash], [CompactZSet], [SkipList], [Stream], [Bitmap],
      [HyperLogLog]: the file of that name in [storage] ([SkipList] is
      [zset.go]), each with its refinement lemmas; [SkipListFacts] holds those of
      the skip list.
    - [ValueObject]: [types.go] and [collection_value.go], the tagged value and
      the operations that choose and promote encodings; [ValueFacts]: their
      refinement to maps, sets and ordered maps.
    - [ListWaiters]: [list_waiters.go].
    - [Store]: the state of [store.go] with [shard.go], [stats.go], [memory.go]
      and [eviction.go]; [StoreOps]: the exported operations of [store.go],
      [hash.go], [set.go], [bitmap.go] and [hyperloglog.go].
    - [StoreFacts], [StoreMemory], [StoreInvariant]: the invariant, the two loops
      of the memory accounting, and a small Hoare logic that carries the
      invariant through every operation.  [StoreFrames]: which keys an operation
      leaves alone.  [StoreTheorems], [StorePlain]: what the store promises.
    - [Locks]: the locks each operation takes and what it accesses under them, and
      goroutines that run operations concurrently, one lock step or access at a
      time.

    Persistence:
    - [Lzf], [Rdb], [RdbFacts]: the snapshot format, its encoder and loader.
      [FileSys]: files with a volatile and a durable content, a directory with its
      states since it was last synced, and what of them a crash may leave; every
      system call may fail.
      [FileReplace]: write a temporary file, sync, rename.  [RdbSave]: saving and
      loading a snapshot.
    - [Aof], [AofFacts]: policies, the load loop, the frames of a rewrite.
      [AofWriter], [AofWriterFacts]: the writer with its [bufio] buffer, the
      syncs, and a rewrite with the buffer of commands that arrive during it.
      [AofTheorems]: durability and the atomicity of the swap.  [RewriteFacts],
      [RewriteTheorems]: replaying a rewritten file, from the snapshot through
      the executor back to the keyspace.

    Commands:
    - [Clients]: [client_state.go] and the registries of watchers, channels,
      monitors and connections, as one [Hub].  [Slowlog]: [slowlog.go].
      [Geo]: geohashes.  [Replication]: offsets, the registry of replicas and
      the fan-out of frames to them; [Fanout]: the pool of goroutines that does
      it for many.
    - [CommandBase], [Commands], [Executor]: the context of a handler, every
      handler and validator, the table and the dispatcher.  [ExecutorFacts],
      [HandlerFacts]: the invariant and the frames of every handler;
      [ExecutorTheorems], [TransactionTheorems], [TypeTheorems]: the properties.

    Server:
    - [Config]: [config.go].  [Server], [ServerRun]: [server.go], [handler.go],
      [aof.go], [replication.go], [shutdown.go] and [observability.go] of
      [server]: registration and teardown, the request pipeline, durability,
      start-up, shutdown, the loops of a blocking connection and of the replica
      link.
      [ServerFacts]: their invariant.
    - [EventLoop]: [eventloop.go] over any server that meets the class
      [LoopServer]; [EventLoopFacts], [EventLoopTheorems]: its invariant and
      progress from the laws of that class.  [ServerLoop]: the server of
      [Server] is an instance.  [ServerTheorems]: the composition.
      [Pollers]: the epoll and kqueue pollers behind the loop and the wake-up
      pipe, both instances of one interface.
    - [ServerLife]: [ListenAndServe] in the mode of a goroutine per connection:
      which goroutine may take which step when, from the first accept to the
      teardown.

    The contract of the whole:
    - [Keyspace]: an abstract specification, a finite map from keys to contents
      with deadlines on which a command is a partial function.  [KeyspaceOps]: the
      operations of the store implement it; [KeyspaceCommands], [KeyspaceReads]:
      the commands do, and those that write nothing leave it alone.
    - [KeyspaceLog]: what a log of frames says about a keyspace; [KeyspaceRun]:
      runs of clients leave such a log; [KeyspaceReplay]: reading one back;
      [KeyspaceSync]: the full synchronisation.  [ReplayTheorems]: the properties.

    ** How state and effects are modelled

    A Go struct is a record with the source's fields; a pointer receiver becomes
    an argument and a result.  Skip-list nodes, clients and event-loop
    connections are shared objects: cells addressed by number.  The store is one
    record, and an operation is a state-passing computation over it: it runs
    while the code holds the locks of the shards it touches, so its steps are not
    interleaved with other operations, as [Locks] shows; where the code lets go
    of a lock and checks again ([readKey]), so does the model, and a tick of the
    background sweep comes whole ([evictionTick]) and as the half that follows a
    sample taken earlier ([sweepTick]).  What the code does not
    determine is read from the class [Env]: the clock (one reading per
    [time.Now()]), the seeded hash of a key, the iteration order of Go maps and
    the coin flips of the skip list; [CommandEnv] adds SHA-256, the transcendental
    functions of [math], Unicode tables, the fate of writes to clients and the
    heap statistics.  Where a command waits (BLPOP, WAIT, XREAD
    BLOCK, a snapshot with its hook), a script of pauses says what other clients
    do meanwhile.  Files are read and written through [FS], whose calls fail as a
    script says; the check of the context in the load loop is an argument of
    [LoadFileCtx].  Theorems hold for every environment and script.  Fallible
    functions return [result] with the source's error values.

    int64 arithmetic wraps where the code can reach the bound (stream IDs, INCR,
    durations, hashes); lengths and sizes of data in memory are plain integers.

    ** What the theorems show

    - Protocol: decoding inverts encoding; a verdict on a prefix of the stream is
      final; the byte hint of an incomplete frame is sound; what the stream parser
      accepts the buffer decoder accepts, and conversely for frames no longer than
      a line may be; the two encoders agree.
    - Connection machine: the chunking of the input does not matter; along every
      run requests execute and replies leave in stream order; buffer caps and the
      detach-once rule hold in every reachable state; draining the queue ends and
      executes each event once, in order, up to an error.
    - Values: hashes, sets and sorted sets implement finite maps, finite sets and
      ordered score maps in every encoding, the limits of the compact encodings
      are kept, and the encoding of a sorted set cannot be observed.
    - Store: the invariant of every reachable state; exact key statistics; a
      write is admitted exactly when it fits; the memory counter is exact and
      bounded; deletion across shards is exact; the behaviour of strings, lists,
      hashes, sorted sets, bitmaps and counters on their key; streams stay
      ordered and are read exactly; HyperLogLog merge is union; blocked clients
      are served in order.
    - Locks: no two operations ever race on a shard, the expiration list, the waiter
      queues or the file buffer, what one has locked no other changes, and no
      interleaving of operations deadlocks.
    - Persistence: loading inverts saving; a truncated snapshot is refused; a
      crash during a save or a rewrite leaves the old file or the new one (unless
      a refused rename makes the code remove the old one first); what was
      acknowledged after a sync is replayed, from a file whose bytes and directory
      entry were durable; a torn tail costs only the command it cut; loading a
      rewritten file whose commands the parser can read restores every key with
      its content.
    - Commands: MULTI only queues, EXEC runs the queue as the same requests one
      by one and refuses after a watched key changed (commands of other clients run
      whole, no memory limit); the recursion through EXEC
      ends; unauthenticated clients run nothing; a store operation on a value of
      another kind is refused and changes nothing; the frame of a SET replays to
      the same value.
    - The whole: every command that writes implements the abstract keyspace, error
      branches included, and sends exactly its frame; the frames a run of clients
      leaves, transactions included, restore from the append-only file the
      keyspace of its end; a replica that synchronises and applies what its master
      sends holds the master's keyspace, streams excepted.  These hold on stores
      without a memory limit while no deadline passes, and for runs without BLPOP;
      the log excludes XADD with an automatic ID.  What the conditions leave out is
      shown by example.
    - Server: the invariant of every reachable server state, from startup with what
      it loads and its memory limit on, which includes the store's; under [appendfsync always] the frames of a command are durable
      before its reply; pipelined requests run in order; the connection limit;
      teardown removes a client everywhere.  The fan-out to many replicas does
      under every schedule what the loop does, each peer once.  A cancelled server
      can always finish by its own steps, and its files are closed after everything
      that writes to them has ended.
    - Event loop: no reachable state has work that no poller event, push or
      retry will pick up; pending output is delivered when the socket takes it;
      both hold of the loop over the real server.  The two pollers accept the
      same calls and watch what the loop has on record.
    - Limits found on the way are theorems too; the doc comment before each says
      what happens (wrapping stream IDs and EX values, eviction stopped by an
      empty key, commands behind a torn AOF tail, a failed AOF swap, a pipeline
      that stalls behind a full output buffer, WAIT and late replicas, XADD with
      an automatic ID on replay, a rewritten collection too large to load, writes
      that the append-only file orders differently or repeats because no lock
      spans a command and its append, pops of BLPOP that no log has, a write lost
      between the snapshot of PSYNC and the registration of the replica, an EXEC
      between the write of a watched key and the notice of it, a failed
      accept that waits for a blocked client for ever, and others).

    ** Bounds and fuel

    The decoder recurses on one unit per nesting level (the code's bound of 128)
    and its element loop on the buffer length; bisections and merges on the
    length of what they split; skip-list walks on the number of nodes; the
    eviction loop on the number of keys, one of which each round deletes.  EXEC
    reaches the dispatcher one level deep, and [ExecutorTheorems] shows that more
    depth changes nothing.  The loops over a connection or a replication link
    consume at least a byte of their input per round and take its length; the
    accept and read loops recurse on the list of outcomes of the system call; the
    loop over ready events on the events; a [bufio] write needs at most three
    rounds.  Shortest-float printing stops at the digits of the exact value.  Each is
    shown to be enough where a theorem depends on it: the functions are total and
    the theorems state their results, not merely what holds if there is one.

    ** What is not modelled

    The mutexes of the registries and clients (each guards one map or record, so
    its sections are single steps); the logger; the clocks of tickers and timers
    (that one fires is a step); the creation of descriptors, and sockets beyond
    bytes read, bytes taken and errors (deadlines, TCP options); the recovery from
    a panic; the [flag] package, whose parsed values are arguments of [Config];
    [cmd], which wires the constructors together.  A request of a client is one
    step of the server model; the theorems of [RewriteTheorems] and the examples of
    [ReplayTheorems] on interleavings split it where the code does.  [ServerLife]
    has the goroutine mode only; what its own goroutines can do once the context is
    cancelled is told apart from what peers and the network do.  The event loop has
    its own files.  A run in
    [KeyspaceRun] is one command after the other.  A successful [fsync] is taken to
    make all bytes of the file durable, also those an earlier [fsync] failed to
    write, as POSIX describes it. *)

From stdpp Require Export prelude gmap strings list fin_maps sorting.
From Stdlib Require Export ZArith Lia.
From Stdlib Require Export Strings.Byte.
#[export] Set Default Goal Selector "!".
#[export] Set Warnings "-notation-overridden,-register-all,-clear-no-such-hyp,-level-tolerance".

Open Scope Z_scope.

(** ** Bytes and Go strings

    A Go [string] and a Go [[]byte] are both sequences of bytes here.  *)

#[global] Instance byte_eq_decision : EqDecision byte := byte_eq_dec.

#[global] Instance byte_countable : Countable byte :=
  inj_countable Byte.to_N Byte.of_N Byte.of_to_N.

#[global] Instance byte_inhabited : Inhabited byte := populate x00.

Abbreviation bytes := (list byte).

Definition b2z (b : byte) : Z := Z.of_N (Byte.to_N b).

Definition z2b (z : Z) : byte :=
  match Byte.of_N (Z.to_N (z mod 256)) with Some b => b | None => x00 end.

(** The bytes of a source-code string literal. *)
Definition bs (s : string) : bytes := String.list_byte_of_string s.

Declare Scope go_scope.
Delimit Scope go_scope with go.

Abbreviation CR := x0d.
Abbreviation LF := x0a.

(** Length of a slice as a Go [int]. *)
Definition zlen {A} (l : list A) : Z := Z.of_nat (length l).

(** [l[n:]] and [l[:n]] for an in-range [n]. *)
Definition zdrop {A} (n : Z) (l : list A) : list A := drop (Z.to_nat n) l.
Definition ztake {A} (n : Z) (l : list A) : list A := take (Z.to_nat n) l.

(** ** Machine integers *)

Definition min_int64 : Z := - 2 ^ 63.
Definition max_int64 : Z := 2 ^ 63 - 1.
Definition is_int64 (z : Z) : bool := (min_int64 <=? z) && (z <=? max_int64).
Definition wrap64 (z : Z) : Z := (z + 2 ^ 63) mod 2 ^ 64 - 2 ^ 63.
Definition wrapu64 (z : Z) : Z := z mod 2 ^ 64.

(** ** Results: the value or the error a fallible Go function returns *)

Inductive result (E A : Type) : Type :=
  | Ok (a : A)
  | Err (e : E).
Arguments Ok {E A} a.
Arguments Err {E A} e.

Definition result_bind {E A B} (m : result E A) (k : A → result E B) : result E B :=
  match m with Ok a => k a | Err e => Err e end.

Definition map_err {E F A} (f : E → F) (m : result E A) : result F A :=
  match m with Ok a => Ok a | Err e => Err (f e) end.

Notation "'let?' x ':=' m 'in' k" := (result_bind m (λ x, k))
  (at level 10, x pattern, m at level 100, k at level 200) : go_scope.
Open Scope go_scope.

(** ** Byte-wise lexicographic order, Go's [<] on strings and [bytes.Compare] *)

Fixpoint bytes_ltb (a b : bytes) : bool :=
  match a, b with
  | _, [] => false
  | [], _ :: _ => true
  | x :: a', y :: b' =>
      (b2z x <? b2z y) || ((b2z x =? b2z y) && bytes_ltb a' b')
  end.

(** A boolean strict total order, the contract of a Go comparison function. *)
Class StrictOrderB {A} (ltb : A → A → bool) : Prop := {
  ltb_irrefl : ∀ x, ltb x x = false;
  ltb_trans : ∀ x y z, ltb x y = true → ltb y z = true → ltb x z = true;
  ltb_total : ∀ x y, ltb x y = false → ltb y x = false → x = y
}.

(** ** Tactics of the development *)

(** Split every [if]/[match] in the goal, keeping the equation. *)
Ltac case_all := repeat case_match; simplify_eq.

(** Turn boolean comparisons into propositions. *)
Ltac bool_to_prop :=
  repeat match goal with
  | H : _ && _ = true |- _ => apply andb_true_iff in H as [? ?]
  | H : _ || _ = false |- _ => apply orb_false_iff in H as [? ?]
  | H : negb _ = true |- _ => apply negb_true_iff in H
  | H : negb _ = false |- _ => apply negb_false_iff in H
  | H : (_ <? _) = true |- _ => apply Z.ltb_lt in H
  | H : (_ <? _) = false |- _ => apply Z.ltb_ge in H
  | H : (_ <=? _) = true |- _ => apply Z.leb_le in H
  | H : (_ <=? _) = false |- _ => apply Z.leb_gt in H
  | H : (_ =? _) = true |- _ => apply Z.eqb_eq in H
  | H : (_ =? _) = false |- _ => apply Z.eqb_neq in H
  | H : bool_decide _ = true |- _ => apply bool_decide_eq_true in H
  | H : bool_decide _ = false |- _ => apply bool_decide_eq_false in H
  end.

(** Arithmetic over slice lengths. *)
Ltac len := unfold zlen, ztake, zdrop in *; autorewrite with len in *; lia.

Create Rewrite HintDb len.

(** ** Generic lemmas *)

Lemma b2z_range b : 0 ≤ b2z b < 256.
Proof.
  unfold b2z. pose proof (Byte.to_N_bounded b). lia.
Qed.

Lemma b2z_inj a b : b2z a = b2z b → a = b.
Proof.
  unfold b2z. intros H%N2Z.inj.
  pose proof (Byte.of_to_N a) as Ha. rewrite H, Byte.of_to_N in Ha. congruence.
Qed.

Lemma z2b_b2z b : z2b (b2z b) = b.
Proof.
  unfold z2b. pose proof (b2z_range b). rewrite Z.mod_small by lia.
  unfold b2z. by rewrite N2Z.id, Byte.of_to_N.
Qed.

Lemma b2z_z2b z : b2z (z2b z) = z mod 256.
Proof.
  unfold z2b, b2z. pose proof (Z.mod_pos_bound z 256 ltac:(lia)).
  destruct (Byte.of_N _) as [b|] eqn:E.
  - apply Byte.to_of_N in E. rewrite E. lia.
  - apply Byte.of_N_None_iff in E. lia.
Qed.

Lemma b2z_z2b_small z : 0 ≤ z < 256 → b2z (z2b z) = z.
Proof. intros. rewrite b2z_z2b. apply Z.mod_small. lia. Qed.

Lemma zlen_nonneg {A} (l : list A) : 0 ≤ zlen l.
Proof. unfold zlen. lia. Qed.

Lemma zlen_nil {A} : zlen (@nil A) = 0.
Proof. reflexivity. Qed.

Lemma zlen_cons {A} (x : A) l : zlen (x :: l) = 1 + zlen l.
Proof. unfold zlen. simpl. lia. Qed.

Lemma zlen_app {A} (l k : list A) : zlen (l ++ k) = zlen l + zlen k.
Proof. unfold zlen. rewrite length_app. lia. Qed.

#[export] Hint Rewrite @length_app @length_take @length_drop @length_replicate
  @length_insert @length_fmap @length_rev : len.

Lemma ztake_app_exact {A} (l k : list A) : ztake (zlen l) (l ++ k) = l.
Proof. unfold ztake, zlen. rewrite Nat2Z.id. apply take_app_length. Qed.

Lemma zdrop_app_exact {A} (l k : list A) : zdrop (zlen l) (l ++ k) = k.
Proof. unfold zdrop, zlen. rewrite Nat2Z.id. apply drop_app_length. Qed.

Lemma ztake_app_le {A} n (l k : list A) :
  n ≤ zlen l → ztake n (l ++ k) = ztake n l.
Proof. intros. unfold ztake, zlen in *. apply take_app_le. lia. Qed.

Lemma zdrop_app_le {A} n (l k : list A) :
  n ≤ zlen l → zdrop n (l ++ k) = zdrop n l ++ k.
Proof. intros. unfold zdrop, zlen in *. apply drop_app_le. lia. Qed.

Lemma zlen_zdrop {A} n (l : list A) :
  0 ≤ n ≤ zlen l → zlen (zdrop n l) = zlen l - n.
Proof. intros. unfold zlen, zdrop in *. rewrite length_drop. lia. Qed.

Lemma zlen_ztake {A} n (l : list A) :
  0 ≤ n ≤ zlen l → zlen (ztake n l) = n.
Proof. intros. unfold zlen, ztake in *. rewrite length_take. lia. Qed.

Lemma zdrop_zdrop {A} n m (l : list A) :
  0 ≤ n → 0 ≤ m → zdrop n (zdrop m l) = zdrop (m + n) l.
Proof.
  intros. unfold zdrop. rewrite drop_drop. f_equal. lia.
Qed.

Lemma zdrop_0 {A} (l : list A) : zdrop 0 l = l.
Proof. reflexivity. Qed.

Lemma zdrop_cons {A} n (x : A) l : 0 ≤ n → zdrop (1 + n) (x :: l) = zdrop n l.
Proof.
  intros. unfold zdrop. replace (Z.to_nat (1 + n)) with (S (Z.to_nat n)) by lia.
  reflexivity.
Qed.

Lemma wrap64_id z : min_int64 ≤ z ≤ max_int64 → wrap64 z = z.
Proof.
  unfold min_int64, max_int64, wrap64. intros. rewrite Z.mod_small; lia.
Qed.

Lemma wrap64_range z : min_int64 ≤ wrap64 z ≤ max_int64.
Proof.
  unfold min_int64, max_int64, wrap64.
  pose proof (Z.mod_pos_bound (z + 2 ^ 63) (2 ^ 64)). lia.
Qed.

Lemma is_int64_true z : is_int64 z = true ↔ min_int64 ≤ z ≤ max_int64.
Proof. unfold is_int64. rewrite andb_true_iff, !Z.leb_le. done. Qed.

#[global] Instance bytes_ltb_strict : StrictOrderB bytes_ltb.
Proof.
  split.
  - induction x as [|a x IH]; simpl; [done|].
    rewrite Z.ltb_irrefl, Z.eqb_refl, IH. done.
  - induction x as [|a x IH]; intros [|b y] [|c z]; simpl; try done.
    rewrite !orb_true_iff, !andb_true_iff, !Z.ltb_lt, !Z.eqb_eq.
    intros [?|[? ?]] [?|[? ?]]; try (left; lia).
    right. split; [lia|]. by eapply IH.
  - induction x as [|a x IH]; intros [|b y]; simpl; try done.
    rewrite !orb_false_iff, !andb_false_iff, !Z.ltb_ge, !Z.eqb_neq.
    intros [? H1] [? H2]. assert (a = b) as -> by (apply b2z_inj; lia).
    f_equal. apply IH; [destruct H1 | destruct H2]; try done; lia.
Qed.

Lemma forallb_Forall {A} (f : A → bool) l :
  forallb f l = true ↔ Forall (λ x, f x = true) l.
Proof.
  induction l as [|x l IH]; simpl; [by split|].
  by rewrite andb_true_iff, Forall_cons, IH.
Qed.

Lemma ltb_asym {A} (ltb : A → A → bool) `{!StrictOrderB ltb} x y :
  ltb x y = true → ltb y x = false.
Proof.
  intros H. destruct (ltb y x) eqn:E; [|done].
  pose proof (ltb_trans _ _ _ H E). by rewrite ltb_irrefl in *.
Qed.

Lemma NoDup_snoc {A} (l : list A) x : NoDup (l ++ [x]) ↔ x ∉ l ∧ NoDup l.
Proof. rewrite (Permutation_app_comm l [x]). apply NoDup_cons. Qed.

(** An association list with distinct keys, seen as a map. *)
Section AssocList.
Context `{Countable K} {A : Type}.
Implicit Types (l : list (K * A)).

Lemma assoc_middle l1 l2 k a :
  NoDup (l1 ++ (k, a) :: l2).*1 →
  (list_to_map (l1 ++ (k, a) :: l2) : gmap K A) = <[k := a]> (list_to_map (l1 ++ l2)).
Proof.
  intros Hnd. rewrite (list_to_map_proper (l1 ++ (k, a) :: l2) ((k, a) :: l1 ++ l2)); [done|done|].
  by rewrite Permutation_middle.
Qed.

Lemma assoc_middle_NoDup l1 l2 k a b :
  NoDup (l1 ++ (k, a) :: l2).*1 → NoDup (l1 ++ (k, b) :: l2).*1.
Proof. by rewrite !fmap_app. Qed.

Lemma assoc_middle_notin l1 l2 k a :
  NoDup (l1 ++ (k, a) :: l2).*1 → k ∉ (l1 ++ l2).*1 ∧ NoDup (l1 ++ l2).*1.
Proof.
  rewrite !fmap_app. cbn. rewrite <- Permutation_middle. intros Hnd. by apply NoDup_cons in Hnd.
Qed.

Lemma assoc_overwrite l1 l2 k a b :
  NoDup (l1 ++ (k, a) :: l2).*1 →
  (list_to_map (l1 ++ (k, b) :: l2) : gmap K A) = <[k := b]> (list_to_map (l1 ++ (k, a) :: l2)).
Proof.
  intros Hnd. rewrite (assoc_middle _ _ _ a Hnd), insert_insert_eq.
  apply assoc_middle. by eapply assoc_middle_NoDup.
Qed.

Lemma assoc_delete l1 l2 k a :
  NoDup (l1 ++ (k, a) :: l2).*1 →
  (list_to_map (l1 ++ l2) : gmap K A) = delete k (list_to_map (l1 ++ (k, a) :: l2)).
Proof.
  intros Hnd. rewrite (assoc_middle _ _ _ a Hnd), delete_insert_id; [done|].
  apply not_elem_of_list_to_map_1. by eapply assoc_middle_notin.
Qed.

Lemma assoc_snoc l k a :
  k ∉ l.*1 → (list_to_map (l ++ [(k, a)]) : gmap K A) = <[k := a]> (list_to_map l).
Proof.
  intros Hk. rewrite list_to_map_app, list_to_map_cons, list_to_map_nil, insert_empty.
  rewrite (insert_union_singleton_l (list_to_map l)). apply map_union_comm.
  apply map_disjoint_singleton_r. by apply not_elem_of_list_to_map_1.
Qed.
End AssocList.
