(* ===== verification/Strconv.v ===== *)
(** * Decimal conversion, as the server uses it from [strconv]

    Every package of the server converts between int64 values and decimal text:
    RESP headers, INCR, integer sets, stream IDs, RDB integer encodings.  This
    file models [strconv.FormatInt]/[AppendInt] and [strconv.ParseInt] at base
    10 and bit size 64, whose only observable failure in this code base is a
    non-nil error, hence the [option]. *)

From S2P Require Import Prelude.

(** ** Digits *)

Definition is_digit (b : byte) : bool := (48 <=? b2z b) && (b2z b <=? 57).
Definition digit_val (b : byte) : Z := b2z b - 48.
Definition digit_byte (d : Z) : byte := z2b (48 + d).

(** [uint_digits fuel n acc] prepends the decimal digits of [n]. *)
Fixpoint uint_digits (fuel : nat) (n : Z) (acc : bytes) : bytes :=
  match fuel with
  | O => acc
  | S fuel' =>
      let acc' := digit_byte (n mod 10) :: acc in
      if n <? 10 then acc' else uint_digits fuel' (n / 10) acc'
  end.

(** [strconv.FormatUint(n, 10)]: 20 digits hold every 64-bit value. *)
Definition FormatUint (n : Z) : bytes := uint_digits 20 n [].

(** [strconv.FormatInt(z, 10)]. *)
Definition FormatInt (z : Z) : bytes :=
  if z <? 0 then bs "-" ++ FormatUint (- z) else FormatUint z.

(** The unbounded value of a digit string, [None] on any other byte. *)
Fixpoint parse_digits (acc : Z) (s : bytes) : option Z :=
  match s with
  | [] => Some acc
  | b :: s' => if is_digit b then parse_digits (acc * 10 + digit_val b) s' else None
  end.

(** [strconv.ParseUint(s, 10, 64)] without its final range check. *)
Definition parse_udec (s : bytes) : option Z :=
  match s with [] => None | _ => parse_digits 0 s end.

(** An optional sign and the rest of the text. *)
Definition split_sign (s : bytes) : bool * bytes :=
  match s with
  | b :: s' =>
      if decide (b = "-"%byte) then (true, s')
      else if decide (b = "+"%byte) then (false, s') else (false, s)
  | [] => (false, [])
  end.

(** [strconv.ParseInt(s, 10, 64)]. *)
Definition ParseInt (s : bytes) : option Z :=
  match s with
  | [] => None
  | _ =>
      let '(neg, s') := split_sign s in
      n ← parse_udec s';
      if neg then (if n <=? 2 ^ 63 then Some (- n) else None)
      else (if n <? 2 ^ 63 then Some n else None)
  end.

(** ** Lemmas *)

Lemma digit_byte_val d : 0 ≤ d < 10 → digit_val (digit_byte d) = d.
Proof. intros. unfold digit_val, digit_byte. rewrite b2z_z2b_small; lia. Qed.

Lemma digit_byte_is_digit d : 0 ≤ d < 10 → is_digit (digit_byte d) = true.
Proof.
  intros. unfold is_digit, digit_byte. rewrite b2z_z2b_small by lia.
  apply andb_true_iff. rewrite !Z.leb_le. lia.
Qed.

Lemma is_digit_val b : is_digit b = true → 0 ≤ digit_val b < 10.
Proof. unfold is_digit, digit_val. intros. bool_to_prop. lia. Qed.

Lemma parse_digits_app acc s t :
  parse_digits acc (s ++ t) = (v ← parse_digits acc s; parse_digits v t).
Proof.
  revert acc. induction s as [|b s IH]; intros acc; simpl; [done|].
  destruct (is_digit b); [apply IH | done].
Qed.

Lemma parse_digits_ge acc s n : 0 ≤ acc → parse_digits acc s = Some n → acc ≤ n.
Proof.
  revert acc. induction s as [|b s IH]; intros acc Hacc; simpl; [intros; simplify_eq; lia|].
  destruct (is_digit b) eqn:E; [|done]. apply is_digit_val in E.
  intros H. apply IH in H; lia.
Qed.

Lemma parse_udec_nonneg s n : parse_udec s = Some n → 0 ≤ n.
Proof.
  destruct s as [|b s]; [done|]. unfold parse_udec. by apply parse_digits_ge.
Qed.

(** The digits are produced by long division, so parsing them multiplies back. *)
Lemma uint_digits_parse fuel n acc :
  0 ≤ n < 10 ^ Z.of_nat fuel → (0 < fuel)%nat →
  parse_digits 0 (uint_digits fuel n acc) = (v ← Some n; parse_digits v acc).
Proof.
  revert n acc. induction fuel as [|fuel IH]; intros n acc Hn Hf; [lia|].
  cbn [uint_digits]. destruct (n <? 10) eqn:E; bool_to_prop.
  - simpl. rewrite digit_byte_is_digit, digit_byte_val by (apply Z.mod_pos_bound; lia).
    rewrite Z.mod_small by lia. done.
  - rewrite Nat2Z.inj_succ, Z.pow_succ_r in Hn by lia.
    assert (0 ≤ n / 10 < 10 ^ Z.of_nat fuel)
      by (split; [apply Z.div_pos | apply Z.div_lt_upper_bound]; lia).
    destruct fuel as [|fuel]; [simpl in Hn; lia|].
    rewrite IH by lia. cbn [mbind option_bind parse_digits].
    rewrite digit_byte_is_digit, digit_byte_val by (apply Z.mod_pos_bound; lia).
    replace (n / 10 * 10 + n mod 10) with n by (pose proof (Z.div_mod n 10); lia).
    done.
Qed.

Lemma uint_digits_nonempty fuel n acc : (0 < fuel)%nat → uint_digits fuel n acc ≠ [].
Proof.
  revert n acc. induction fuel as [|fuel IH]; intros n acc Hf; [lia|].
  cbn [uint_digits]. destruct (n <? 10) eqn:E; [done|].
  destruct fuel; [done|]. apply IH. lia.
Qed.

Lemma parse_udec_FormatUint n : 0 ≤ n < 2 ^ 64 → parse_udec (FormatUint n) = Some n.
Proof.
  intros Hn. unfold FormatUint, parse_udec.
  pose proof (uint_digits_nonempty 20 n [] ltac:(lia)) as Hne.
  pose proof (uint_digits_parse 20 n [] ltac:(lia) ltac:(lia)) as Hp.
  cbn [mbind option_bind] in Hp. destruct (uint_digits 20 n []); [done|]. by rewrite Hp.
Qed.

Lemma uint_digits_Forall fuel n acc :
  0 ≤ n → Forall (λ b, is_digit b = true) acc →
  Forall (λ b, is_digit b = true) (uint_digits fuel n acc).
Proof.
  revert n acc. induction fuel as [|fuel IH]; intros n acc Hn Hacc; simpl; [done|].
  assert (Forall (λ b, is_digit b = true) (digit_byte (n mod 10) :: acc)).
  { constructor; [|done]. apply digit_byte_is_digit, Z.mod_pos_bound. lia. }
  destruct (n <? 10); [done|]. apply IH; [apply Z.div_pos; lia | done].
Qed.

Lemma FormatUint_digits n : 0 ≤ n → Forall (λ b, is_digit b = true) (FormatUint n).
Proof. intros. apply uint_digits_Forall; [done | constructor]. Qed.

Lemma split_sign_digits s :
  Forall (λ b, is_digit b = true) s → split_sign s = (false, s).
Proof.
  intros H. destruct s as [|b s]; [done|]. inversion H as [|?? Hb ?]; subst.
  unfold split_sign. by repeat (case_decide; subst; [done|]).
Qed.

Lemma FormatUint_nonempty n : FormatUint n ≠ [].
Proof. apply uint_digits_nonempty. lia. Qed.

(** Formatting an int64 and parsing the text gives the value back. *)
Lemma ParseInt_FormatInt z :
  min_int64 ≤ z ≤ max_int64 → ParseInt (FormatInt z) = Some z.
Proof.
  unfold min_int64, max_int64. intros Hz. unfold FormatInt, ParseInt.
  destruct (z <? 0) eqn:E; bool_to_prop.
  - change (bs "-" ++ FormatUint (- z)) with ("-"%byte :: FormatUint (- z)).
    unfold split_sign. rewrite decide_True by done.
    rewrite parse_udec_FormatUint by lia. cbn [mbind option_bind]. rewrite (proj2 (Z.leb_le _ _)) by lia. f_equal. lia.
  - pose proof (FormatUint_digits z E) as Hd. pose proof (FormatUint_nonempty z) as Hne.
    destruct (FormatUint z) as [|b s] eqn:Es; [done|].
    rewrite split_sign_digits by done. rewrite <- Es, parse_udec_FormatUint by lia.
    cbn [mbind option_bind]. by rewrite (proj2 (Z.ltb_lt _ _)) by lia.
Qed.

Lemma ParseInt_range s z : ParseInt s = Some z → min_int64 ≤ z ≤ max_int64.
Proof.
  unfold ParseInt, min_int64, max_int64. destruct s as [|b s]; [done|].
  destruct (split_sign (b :: s)) as [neg s'].
  destruct (parse_udec s') as [n|] eqn:E; simpl; [|done].
  apply parse_udec_nonneg in E.
  destruct neg; case_match; intros; simplify_eq; bool_to_prop; lia.
Qed.

Lemma FormatInt_inj x y :
  min_int64 ≤ x ≤ max_int64 → min_int64 ≤ y ≤ max_int64 →
  FormatInt x = FormatInt y → x = y.
Proof.
  intros Hx Hy E. pose proof (ParseInt_FormatInt x Hx) as H.
  rewrite E, ParseInt_FormatInt in H by done. congruence.
Qed.

Lemma FormatInt_nonempty z : FormatInt z ≠ [].
Proof. unfold FormatInt. case_match; [done | apply FormatUint_nonempty]. Qed.

(** Decimal text never contains a line terminator. *)
Lemma FormatInt_no_LF z : LF ∉ FormatInt z.
Proof.
  unfold FormatInt. destruct (z <? 0) eqn:E; bool_to_prop.
  - rewrite elem_of_app. intros [H|H]; [vm_compute in H; set_solver|].
    apply (proj1 (Forall_forall _ _) (FormatUint_digits (- z) ltac:(lia))) in H. done.
  - intros H.
    apply (proj1 (Forall_forall _ _) (FormatUint_digits z ltac:(lia))) in H. done.
Qed.
