(* ===== verification/Resp.v ===== *)
(** * RESP values and their encoding

    Models [internal/protocol/types.go], [coerce.go] and [writer.go]: the RESP
    value type, [Encode]/[AppendValue(s)]/[EncodeValues], the size predictors
    [EncodedLen]/[EncodedValuesLen] and the streaming [WriteValue].  A Go
    interface value may be nil, which every encoder rejects: [NilValue]. *)

From S2P Require Import Prelude Strconv.

(** ** Errors of the protocol package

    [Wrapped c e] is [fmt.Errorf("...: %w", e)] at the call site [c]. *)

Inductive errContext :=
  | CtxParseInteger
  | CtxBulkLength
  | CtxBulkPayload
  | CtxBulkCRLF
  | CtxArrayLength
  | CtxArrayElement (i : Z).

Inductive protoError :=
  | ErrIncomplete
  | IncompleteError (Need : Z)
  | ErrMissingCRLF
  | ErrNumSyntax
  | ErrNumRange
  | ErrUnsupportedPrefix (prefix : byte)
  | ErrInvalidBoolean (line : bytes)
  | ErrInvalidNull (line : bytes)
  | ErrInvalidBulkLength (length : Z)
  | ErrBulkTooLong (length : Z)
  | ErrInvalidArrayLength (count : Z)
  | ErrArrayTooLong (count : Z)
  | ErrNesting
  | ErrLineTooLong
  | ErrFrameTooLarge (limit : Z)
  | ErrUnsupportedType
  | ErrNotBytes
  | ErrEOF
  | ErrUnexpectedEOF
  | ErrReader
  | ErrOutOfFuel
  | Wrapped (c : errContext) (e : protoError).

#[global] Instance errContext_eq_dec : EqDecision errContext.
Proof. solve_decision. Defined.
#[global] Instance protoError_eq_dec : EqDecision protoError.
Proof. solve_decision. Defined.

(** The innermost error of a wrap chain, what [errors.Is]/[errors.As] reach. *)
Fixpoint errCause (e : protoError) : protoError :=
  match e with Wrapped _ e' => errCause e' | _ => e end.

(** [errors.Is(err, ErrIncomplete)]; [IncompleteError] unwraps to it. *)
Definition isIncomplete (e : protoError) : bool :=
  match errCause e with ErrIncomplete | IncompleteError _ => true | _ => false end.

(** [errors.As(err, &incomplete)]: the byte hint, when the chain carries one. *)
Definition asIncompleteError (e : protoError) : option Z :=
  match errCause e with IncompleteError n => Some n | _ => None end.

(** ** Values *)

Inductive Value :=
  | SimpleString (value : bytes)
  | ErrorValue (message : bytes)
  | Integer (value : Z)
  | BulkString (data : bytes) (null : bool)
  | TextBulkString (value : bytes) (null : bool)
  | Array (elements : list Value) (null : bool)
  | Boolean (value : bool)
  | Null
  | NilValue.

(** [Bytes]: the coercion of a request element to a command token. *)
Definition Bytes (value : Value) : result protoError bytes :=
  match value with
  | BulkString data null => if null then Err ErrNotBytes else Ok data
  | TextBulkString v null => if null then Err ErrNotBytes else Ok v
  | SimpleString v => Ok v
  | Integer v => Ok (FormatInt v)
  | Boolean b => Ok (if b then bs "1" else bs "0")
  | Null => Err ErrNotBytes
  | ErrorValue _ | Array _ _ | NilValue => Err ErrNotBytes
  end.

(** ** Appending encoders *)

Definition crlf : bytes := [CR; LF].

Definition appendPrefixedStringLine (dst : bytes) (prefix : byte) (value : bytes) : bytes :=
  ((dst ++ [prefix]) ++ value) ++ crlf.

Definition appendPrefixedIntLine (dst : bytes) (prefix : byte) (value : Z) : bytes :=
  ((dst ++ [prefix]) ++ FormatInt value) ++ crlf.

Definition decimalIntLen (value : Z) : Z := zlen (FormatInt value).

Fixpoint appendEncodedValue (dst : bytes) (value : Value) : result protoError bytes :=
  match value with
  | SimpleString v => Ok (appendPrefixedStringLine dst "+"%byte v)
  | ErrorValue m => Ok (appendPrefixedStringLine dst "-"%byte m)
  | Integer v => Ok (appendPrefixedIntLine dst ":"%byte v)
  | BulkString data null =>
      if null then Ok (dst ++ bs "$-1" ++ crlf)
      else Ok ((appendPrefixedIntLine dst "$"%byte (zlen data) ++ data) ++ crlf)
  | TextBulkString v null =>
      if null then Ok (dst ++ bs "$-1" ++ crlf)
      else Ok ((appendPrefixedIntLine dst "$"%byte (zlen v) ++ v) ++ crlf)
  | Array elements null =>
      if null then Ok (dst ++ bs "*-1" ++ crlf)
      else
        (fix loop dst elements :=
           match elements with
           | [] => Ok dst
           | e :: es => let? dst := appendEncodedValue dst e in loop dst es
           end) (appendPrefixedIntLine dst "*"%byte (zlen elements)) elements
  | Boolean b => Ok (dst ++ (if b then bs "#t" else bs "#f") ++ crlf)
  | Null => Ok (dst ++ bs "_" ++ crlf)
  | NilValue => Err ErrUnsupportedType
  end.

(** The element loop of [appendEncodedValue] and the body of [EncodeValues]. *)
Fixpoint appendAll (dst : bytes) (values : list Value) : result protoError bytes :=
  match values with
  | [] => Ok dst
  | v :: vs => let? dst := appendEncodedValue dst v in appendAll dst vs
  end.

Definition AppendValue (dst : bytes) (value : Value) : result protoError bytes :=
  appendEncodedValue dst value.

(** [AppendValues] returns the slice and the error together: on error the
    slice is [dst[:original]]. *)
Fixpoint appendValuesFrom (original : Z) (dst : bytes) (values : list Value)
    : bytes * option protoError :=
  match values with
  | [] => (dst, None)
  | v :: vs =>
      match appendEncodedValue dst v with
      | Err e => (ztake original dst, Some e)
      | Ok next => appendValuesFrom original next vs
      end
  end.

Definition AppendValues (dst : bytes) (values : list Value) : bytes * option protoError :=
  appendValuesFrom (zlen dst) dst values.

Fixpoint EncodedLen (value : Value) : result protoError Z :=
  match value with
  | SimpleString v => Ok (1 + zlen v + 2)
  | ErrorValue m => Ok (1 + zlen m + 2)
  | Integer v => Ok (1 + decimalIntLen v + 2)
  | BulkString data null =>
      if null then Ok (zlen (bs "$-1" ++ crlf))
      else Ok (1 + decimalIntLen (zlen data) + 2 + zlen data + 2)
  | TextBulkString v null =>
      if null then Ok (zlen (bs "$-1" ++ crlf))
      else Ok (1 + decimalIntLen (zlen v) + 2 + zlen v + 2)
  | Array elements null =>
      if null then Ok (zlen (bs "*-1" ++ crlf))
      else
        (fix loop size elements :=
           match elements with
           | [] => Ok size
           | e :: es => let? n := EncodedLen e in loop (size + n) es
           end) (1 + decimalIntLen (zlen elements) + 2) elements
  | Boolean _ => Ok (zlen (bs "#t" ++ crlf))
  | Null => Ok (zlen (bs "_" ++ crlf))
  | NilValue => Err ErrUnsupportedType
  end.

Fixpoint lenAll (size : Z) (values : list Value) : result protoError Z :=
  match values with
  | [] => Ok size
  | v :: vs => let? n := EncodedLen v in lenAll (size + n) vs
  end.

Definition EncodedValuesLen (values : list Value) : result protoError Z := lenAll 0 values.

(** [Encode] sizes the value first, so an unsupported value fails before any
    byte is produced. *)
Definition Encode (value : Value) : result protoError bytes :=
  let? _ := EncodedLen value in appendEncodedValue [] value.

Definition EncodeValues (values : list Value) : result protoError bytes :=
  let? _ := EncodedValuesLen values in appendAll [] values.

(** ** Streaming encoder

    [io.Writer] is an interface: any state [W] with a [Write] that may fail. *)

Section WriteValue.
Context {W : Type} (Write : W → bytes → W * option protoError).

(** Run a sequence of [Write] calls, stopping at the first error. *)
Fixpoint writeSeq (w : W) (chunks : list bytes) : W * option protoError :=
  match chunks with
  | [] => (w, None)
  | c :: cs =>
      match Write w c with
      | (w', Some e) => (w', Some e)
      | (w', None) => writeSeq w' cs
      end
  end.

Definition writePrefixedStringLine (w : W) (prefix : byte) (value : bytes) : W * option protoError :=
  writeSeq w [[prefix]; value; crlf].

Definition writePrefixedIntLine (w : W) (prefix : byte) (value : Z) : W * option protoError :=
  writeSeq w [[prefix]; FormatInt value; crlf].

Fixpoint WriteValue (w : W) (value : Value) : W * option protoError :=
  match value with
  | SimpleString v => writePrefixedStringLine w "+"%byte v
  | ErrorValue m => writePrefixedStringLine w "-"%byte m
  | Integer v => writePrefixedIntLine w ":"%byte v
  | BulkString data null =>
      if null then writeSeq w [bs "$-1" ++ crlf]
      else
        match writePrefixedIntLine w "$"%byte (zlen data) with
        | (w, Some e) => (w, Some e)
        | (w, None) => writeSeq w [data; crlf]
        end
  | TextBulkString v null =>
      if null then writeSeq w [bs "$-1" ++ crlf]
      else
        match writePrefixedIntLine w "$"%byte (zlen v) with
        | (w, Some e) => (w, Some e)
        | (w, None) => writeSeq w [v; crlf]
        end
  | Array elements null =>
      if null then writeSeq w [bs "*-1" ++ crlf]
      else
        match writePrefixedIntLine w "*"%byte (zlen elements) with
        | (w, Some e) => (w, Some e)
        | (w, None) =>
            (fix loop w elements :=
               match elements with
               | [] => (w, None)
               | v :: vs =>
                   match WriteValue w v with
                   | (w, Some e) => (w, Some e)
                   | (w, None) => loop w vs
                   end
               end) w elements
        end
  | Boolean b => writeSeq w [(if b then bs "#t" else bs "#f") ++ crlf]
  | Null => writeSeq w [bs "_" ++ crlf]
  | NilValue => (w, Some ErrUnsupportedType)
  end.

End WriteValue.

(** ** Induction over nested values *)

Section ValueInd.
Variable P : Value → Prop.
Hypothesis HSimple : ∀ v, P (SimpleString v).
Hypothesis HError : ∀ v, P (ErrorValue v).
Hypothesis HInteger : ∀ v, P (Integer v).
Hypothesis HBulk : ∀ d n, P (BulkString d n).
Hypothesis HText : ∀ d n, P (TextBulkString d n).
Hypothesis HArray : ∀ es n, Forall P es → P (Array es n).
Hypothesis HBoolean : ∀ b, P (Boolean b).
Hypothesis HNull : P Null.
Hypothesis HNil : P NilValue.

Fixpoint Value_nested_ind (v : Value) : P v :=
  match v with
  | SimpleString v => HSimple v
  | ErrorValue v => HError v
  | Integer v => HInteger v
  | BulkString d n => HBulk d n
  | TextBulkString d n => HText d n
  | Array es n =>
      HArray es n
        ((fix all (es : list Value) : Forall P es :=
            match es with
            | [] => Forall_nil_2 P
            | e :: es => Forall_cons_2 P e es (Value_nested_ind e) (all es)
            end) es)
  | Boolean b => HBoolean b
  | Null => HNull
  | NilValue => HNil
  end.
End ValueInd.

(** ** Lemmas *)

(** The wire bytes of a value: [appendEncodedValue] onto an empty buffer. *)
Definition wireBytes (v : Value) : bytes :=
  match appendEncodedValue [] v with Ok b => b | Err _ => [] end.

(** No nil interface anywhere inside the value. *)
Fixpoint noNil (v : Value) : bool :=
  match v with
  | NilValue => false
  | Array es null => null || forallb noNil es
  | _ => true
  end.

Lemma appendEncodedValue_array dst es :
  appendEncodedValue dst (Array es false)
  = appendAll (appendPrefixedIntLine dst "*"%byte (zlen es)) es.
Proof.
  simpl. generalize (appendPrefixedIntLine dst "*"%byte (zlen es)).
  induction es as [|e es IH]; intros d; simpl; [done|].
  destruct (appendEncodedValue d e); simpl; [apply IH | done].
Qed.

Lemma EncodedLen_array es :
  EncodedLen (Array es false) = lenAll (1 + decimalIntLen (zlen es) + 2) es.
Proof.
  cbn [EncodedLen]. generalize (1 + decimalIntLen (zlen es) + 2).
  induction es as [|e es IH]; intros d; cbn [lenAll]; [done|].
  destruct (EncodedLen e); cbn [result_bind]; [apply IH | done].
Qed.

(** Encoding appends: the prefix already in the buffer is never changed. *)
Lemma appendEncodedValue_app v : ∀ dst,
  appendEncodedValue dst v = (let? b := appendEncodedValue [] v in Ok (dst ++ b)).
Proof.
  induction v as [?|?|?|? []|? []|es []|[]| |] using Value_nested_ind; intros dst;
    try (simpl; unfold appendPrefixedStringLine, appendPrefixedIntLine;
         simpl; by rewrite <- ?app_assoc).
  rewrite !appendEncodedValue_array. unfold appendPrefixedIntLine. simpl.
  set (hdr := FormatInt _). clearbody hdr.
  enough (∀ d b, appendAll (d ++ b) es = (let? r := appendAll b es in Ok (d ++ r))) as Hall.
  { rewrite <- !(app_assoc dst). simpl. apply (Hall dst). }
  clear dst hdr. induction H as [|e es He Hes IH]; intros d b; simpl; [done|].
  rewrite He, (He b). destruct (appendEncodedValue [] e); simpl; [|done].
  rewrite <- app_assoc. apply IH.
Qed.

Lemma appendAll_app es : ∀ d b,
  appendAll (d ++ b) es = (let? r := appendAll b es in Ok (d ++ r)).
Proof.
  induction es as [|e es IH]; intros d b; simpl; [done|].
  rewrite appendEncodedValue_app, (appendEncodedValue_app e b).
  destruct (appendEncodedValue [] e); simpl; [|done]. rewrite <- app_assoc. apply IH.
Qed.

Lemma appendEncodedValue_ok v dst :
  noNil v = true → appendEncodedValue dst v = Ok (dst ++ wireBytes v).
Proof.
  intros Hn. rewrite appendEncodedValue_app. unfold wireBytes.
  enough (∃ b, appendEncodedValue [] v = Ok b) as [b ->]; [done|].
  revert Hn. induction v as [?|?|?|? []|? []|es []|[]| |] using Value_nested_ind;
    intros Hn; try (simpl; by eauto).
  rewrite appendEncodedValue_array. simpl in Hn. revert Hn.
  generalize (appendPrefixedIntLine [] "*"%byte (zlen es)).
  induction H as [|e es He Hes IH]; intros d Hn; simpl; [eauto|].
  simpl in Hn. apply andb_true_iff in Hn as [Hn1 Hn2].
  rewrite appendEncodedValue_app. destruct (He Hn1) as [b ->]. simpl. by apply IH.
Qed.

Lemma appendAll_ok es dst :
  forallb noNil es = true → appendAll dst es = Ok (dst ++ concat (wireBytes <$> es)).
Proof.
  revert dst. induction es as [|e es IH]; intros dst; simpl; [by rewrite app_nil_r|].
  intros [He Hes]%andb_true_iff. rewrite appendEncodedValue_ok by done. simpl.
  rewrite IH by done. by rewrite app_assoc.
Qed.

Lemma wireBytes_array es :
  forallb noNil es = true →
  wireBytes (Array es false)
  = "*"%byte :: FormatInt (zlen es) ++ crlf ++ concat (wireBytes <$> es).
Proof.
  intros. unfold wireBytes. rewrite appendEncodedValue_array, appendAll_ok by done.
  unfold appendPrefixedIntLine. simpl. by rewrite <- !app_assoc.
Qed.

Lemma zlen_crlf : zlen crlf = 2.
Proof. done. Qed.

(** [EncodedLen] fails exactly where the encoder does, and otherwise predicts
    the number of bytes. *)
Lemma EncodedLen_spec v :
  EncodedLen v = (let? b := appendEncodedValue [] v in Ok (zlen b)).
Proof.
  induction v as [?|?|?|? []|? []|es []|[]| |] using Value_nested_ind; try done;
    try (cbn [EncodedLen appendEncodedValue result_bind];
         unfold appendPrefixedStringLine, appendPrefixedIntLine, decimalIntLen;
         f_equal; rewrite ?zlen_app, ?zlen_crlf, ?zlen_cons, ?zlen_nil; lia).
  rewrite EncodedLen_array, appendEncodedValue_array.
  replace (1 + decimalIntLen (zlen es) + 2)
    with (zlen (appendPrefixedIntLine [] "*"%byte (zlen es)))
    by (unfold appendPrefixedIntLine, decimalIntLen;
        rewrite ?zlen_app, ?zlen_crlf, ?zlen_cons, ?zlen_nil; lia).
  generalize (appendPrefixedIntLine [] "*"%byte (zlen es)).
  induction H as [|e es He Hes IH]; intros d; cbn [lenAll appendAll result_bind]; [done|].
  rewrite He, (appendEncodedValue_app e d).
  destruct (appendEncodedValue [] e); cbn [result_bind]; [|done].
  rewrite <- zlen_app. apply IH.
Qed.

(** The only unsupported value is the nil interface. *)
Lemma appendEncodedValue_noNil v : ∀ dst b, appendEncodedValue dst v = Ok b → noNil v = true.
Proof.
  induction v as [?|?|?|? []|? []|es []|[]| |] using Value_nested_ind; intros dst b Hv; try done.
  rewrite appendEncodedValue_array in Hv. simpl. rewrite forallb_Forall. revert Hv.
  generalize (appendPrefixedIntLine dst "*"%byte (zlen es)).
  induction H as [|e es He Hes IH]; intros d Hv; constructor; cbn [appendAll] in Hv;
    destruct (appendEncodedValue d e) as [d'|] eqn:E; cbn [result_bind] in Hv; try done.
  - by eapply He.
  - by eapply IH.
Qed.

Lemma Encode_ok v : noNil v = true → Encode v = Ok (wireBytes v).
Proof.
  intros. unfold Encode. rewrite EncodedLen_spec, appendEncodedValue_ok by done. done.
Qed.

Lemma wireBytes_cons v : noNil v = true → ∃ c l, wireBytes v = c :: l.
Proof.
  intros Hn. destruct v as [?|?|?|? []|? []|es []|[]| |]; simpl in Hn; try done; try (by eauto).
  rewrite wireBytes_array by done. eauto.
Qed.

Lemma zlen_wireBytes_pos v : noNil v = true → 0 < zlen (wireBytes v).
Proof.
  intros (c & l & ->)%wireBytes_cons. rewrite zlen_cons. pose proof (zlen_nonneg l). lia.
Qed.

(** ** A writer that never fails *)

Definition bufWrite (w : bytes) (chunk : bytes) : bytes * option protoError :=
  (w ++ chunk, None).

Lemma WriteValue_bufWrite v : ∀ w,
  noNil v = true → WriteValue bufWrite w v = (w ++ wireBytes v, None).
Proof.
  induction v as [?|?|?|? []|? []|es []|[]| |] using Value_nested_ind; intros w Hn; try done;
    try (unfold wireBytes, WriteValue, writePrefixedStringLine, writePrefixedIntLine;
         simpl; unfold appendPrefixedStringLine, appendPrefixedIntLine;
         simpl; by rewrite <- ?app_assoc).
  simpl in Hn. rewrite wireBytes_array by done.
  cbn [WriteValue]. unfold writePrefixedIntLine. cbn [writeSeq bufWrite].
  set (hdr := ((w ++ _) ++ _) ++ _).
  transitivity (hdr ++ concat (wireBytes <$> es), @None protoError).
  2: { subst hdr. by rewrite <- !app_assoc. }
  clearbody hdr. revert hdr. induction H as [|e es He Hes IH]; intros d; simpl.
  - by rewrite app_nil_r.
  - simpl in Hn. apply andb_true_iff in Hn as [Hn1 Hn2].
    rewrite He by done. rewrite IH by done. by rewrite app_assoc.
Qed.
