(* ===== verification/RespDecode.v ===== *)
(** * The incremental RESP decoder

    Models [internal/protocol/decode.go], [grammar.go] and the integer parser
    of [parser.go].  [Decode] works on a byte buffer that may hold only part of
    a frame, and reports an incomplete frame apart from a protocol error.

    The Go recursion is bounded by [maxNestingDepth], so [decode] recurses on a
    fuel of one unit per nesting level; the element loop consumes at least one
    byte per round, so its fuel is the buffer length.  Both are shown to be
    enough: [ErrOutOfFuel] is never returned. *)

From S2P Require Import Prelude Strconv Resp.

(** ** Integers ([parser.go]) *)

Fixpoint parseIntLoop (cutoff cutlim value : Z) (raw : bytes) : result protoError Z :=
  match raw with
  | [] => Ok value
  | digit :: raw' =>
      if (b2z digit <? 48) || (57 <? b2z digit) then Err ErrNumSyntax
      else
        let parsed := b2z digit - 48 in
        if (cutoff <? value) || ((value =? cutoff) && (cutlim <? parsed)) then Err ErrNumRange
        else parseIntLoop cutoff cutlim (wrapu64 (value * 10 + parsed)) raw'
  end.

Definition maxAbs : Z := 2 ^ 63.

(** The body of [parseIntBytes] once the sign is known. *)
Definition parseIntSigned (negative : bool) (raw : bytes) : result protoError Z :=
  let limit := if negative then maxAbs else maxAbs - 1 in
  let? value := parseIntLoop (limit / 10) (limit mod 10) 0 raw in
  if negative then
    if value =? maxAbs then Ok min_int64 else Ok (wrap64 (- wrap64 value))
  else Ok (wrap64 value).

Definition parseIntBytes (raw : bytes) : result protoError Z :=
  match raw with
  | [] => Err ErrNumSyntax
  | b :: rest =>
      if decide (b = "-"%byte) then
        match rest with [] => Err ErrNumSyntax | _ => parseIntSigned true rest end
      else if decide (b = "+"%byte) then
        match rest with [] => Err ErrNumSyntax | _ => parseIntSigned false rest end
      else parseIntSigned false raw
  end.

(** On a 64-bit platform [int] is int64, and the range test is always passed. *)
Definition parseDecimalInt (raw : bytes) : result protoError Z :=
  let? value := parseIntBytes raw in
  if (value <? min_int64) || (max_int64 <? value) then Err ErrNumRange else Ok value.

(** ** Grammar ([grammar.go]) *)

Definition integerFromLine (line : bytes) : result protoError Value :=
  match parseIntBytes line with
  | Ok v => Ok (Integer v)
  | Err e => Err (Wrapped CtxParseInteger e)
  end.

Definition booleanFromMarker (line : bytes) : result protoError Value :=
  if decide (line = bs "t") then Ok (Boolean true)
  else if decide (line = bs "f") then Ok (Boolean false)
  else Err (ErrInvalidBoolean line).

Definition nullFromPayload (line : bytes) : result protoError Value :=
  if zlen line =? 0 then Ok Null else Err (ErrInvalidNull line).

(** ** Lines *)

(** [bytes.IndexByte]. *)
Fixpoint indexByte (c : byte) (l : bytes) : option nat :=
  match l with
  | [] => None
  | b :: l' => if decide (b = c) then Some O else S <$> indexByte c l'
  end.

Definition trimCRLF (line : bytes) : result protoError bytes :=
  if (zlen line <? 2)
     || negb (bool_decide (line !! (length line - 2)%nat = Some CR))
     || negb (bool_decide (line !! (length line - 1)%nat = Some LF))
  then Err ErrMissingCRLF
  else Ok (take (length line - 2) line).

Definition decodeLine (buf : bytes) : result protoError (bytes * Z) :=
  match indexByte LF buf with
  | None => Err ErrIncomplete
  | Some idx =>
      let? content := trimCRLF (take (S idx) buf) in
      Ok (content, Z.of_nat (S idx))
  end.

(** ** Frames *)

Definition incompleteNeed (total : Z) : protoError :=
  if total <=? 0 then ErrIncomplete else IncompleteError total.

Definition maxNestingDepth : Z := 128.

Definition decodeBulkString (buf : bytes) : result protoError (Value * Z) :=
  let? (line, n) := decodeLine (zdrop 1 buf) in
  let consumed := 1 + n in
  match parseDecimalInt line with
  | Err e => Err (Wrapped CtxBulkLength e)
  | Ok length =>
      if length =? -1 then Ok (BulkString [] true, consumed)
      else if length <? -1 then Err (ErrInvalidBulkLength length)
      else
        let remaining := zdrop consumed buf in
        if zlen remaining - 2 <? length then
          Err (incompleteNeed (wrap64 (consumed + length + 2)))
        else if negb (bool_decide (remaining !! Z.to_nat length = Some CR))
                || negb (bool_decide (remaining !! Z.to_nat (length + 1) = Some LF))
        then Err (Wrapped CtxBulkCRLF ErrMissingCRLF)
        else Ok (BulkString (ztake length remaining) false, consumed + length + 2)
  end.

(** The [for i := 0; i < count; i++] loop of [decodeArray]. *)
Fixpoint decodeElements (dec : bytes → result protoError (Value * Z))
    (fuel : nat) (i count : Z) (consumed : Z) (buf : bytes) (elements : list Value)
    : result protoError (Value * Z) :=
  if count <=? i then Ok (Array elements false, consumed)
  else
    match fuel with
    | O => Err ErrOutOfFuel
    | S fuel' =>
        match dec (zdrop consumed buf) with
        | Err e =>
            if isIncomplete e then
              match asIncompleteError e with
              | Some need => Err (incompleteNeed (wrap64 (consumed + need)))
              | None => Err ErrIncomplete
              end
            else Err (Wrapped (CtxArrayElement i) e)
        | Ok (element, elementN) =>
            decodeElements dec fuel' (i + 1) count (consumed + elementN) buf
              (elements ++ [element])
        end
    end.

Definition decodeArray (dec : bytes → result protoError (Value * Z))
    (buf : bytes) (depth : Z) : result protoError (Value * Z) :=
  if maxNestingDepth <=? depth then Err ErrNesting
  else
    let? (line, n) := decodeLine (zdrop 1 buf) in
    let consumed := 1 + n in
    match parseDecimalInt line with
    | Err e => Err (Wrapped CtxArrayLength e)
    | Ok count =>
        if count =? -1 then Ok (Array [] true, consumed)
        else if count <? -1 then Err (ErrInvalidArrayLength count)
        else decodeElements dec (S (length buf)) 0 count consumed buf []
    end.

(** The cases of [decode] that are one line long. *)
Definition decodeLineFrame (parse : bytes → result protoError Value) (buf : bytes)
    : result protoError (Value * Z) :=
  let? (line, n) := decodeLine (zdrop 1 buf) in
  let? value := parse line in
  Ok (value, 1 + n).

Fixpoint decode (fuel : nat) (buf : bytes) (depth : Z) : result protoError (Value * Z) :=
  match buf with
  | [] => Err ErrIncomplete
  | prefix :: _ =>
      if decide (prefix = "+"%byte) then decodeLineFrame (λ l, Ok (SimpleString l)) buf
      else if decide (prefix = "-"%byte) then decodeLineFrame (λ l, Ok (ErrorValue l)) buf
      else if decide (prefix = ":"%byte) then decodeLineFrame integerFromLine buf
      else if decide (prefix = "#"%byte) then decodeLineFrame booleanFromMarker buf
      else if decide (prefix = "_"%byte) then decodeLineFrame nullFromPayload buf
      else if decide (prefix = "$"%byte) then decodeBulkString buf
      else if decide (prefix = "*"%byte) then
        match fuel with
        | O => Err ErrOutOfFuel
        | S fuel' => decodeArray (λ b, decode fuel' b (depth + 1)) buf depth
        end
      else Err (ErrUnsupportedPrefix prefix)
  end.

(** One unit of fuel per nesting level, and one for the level that is refused. *)
Definition decodeFuel : nat := 129.

Definition Decode (buf : bytes) : result protoError (Value * Z) := decode decodeFuel buf 0.

Example Decode_ping :
  Decode (bs "*1" ++ crlf ++ bs "$4" ++ crlf ++ bs "PING" ++ crlf ++ bs "*")
  = Ok (Array [BulkString (bs "PING") false] false, 14).
Proof. vm_compute. reflexivity. Qed.

Example Decode_torn :
  Decode (bs "*2" ++ crlf ++ bs "$4" ++ crlf ++ bs "PI") = Err (IncompleteError 14).
Proof. vm_compute. reflexivity. Qed.
