(* ===== verification/RespDecodeFacts.v ===== *)
(** * Properties of the incremental decoder

    What the buffered networking path relies on: decoding inverts encoding,
    a decision taken on a prefix of the stream is never revised when more bytes
    arrive, and the byte hint of an incomplete frame is a sound lower bound. *)

From S2P Require Import Prelude Strconv Resp RespDecode.

(** ** Integers *)

Lemma parseIntLoop_spec limit value raw v :
  0 ≤ value ≤ limit → limit ≤ 2 ^ 63 →
  parseIntLoop (limit / 10) (limit mod 10) value raw = Ok v
  ↔ parse_digits value raw = Some v ∧ v ≤ limit.
Proof.
  intros Hv Hl. revert value Hv. induction raw as [|b raw IH]; intros value Hv; cbn [parseIntLoop parse_digits].
  { split; [intros [= ->]; split; [done | lia] | intros [[= ->] _]; done]. }
  assert (is_digit b = negb ((b2z b <? 48) || (57 <? b2z b))) as -> by (unfold is_digit; lia).
  unfold digit_val. pose proof (b2z_range b).
  destruct ((b2z b <? 48) || (57 <? b2z b)) eqn:E; cbn [negb]; [split; [done | intros [? ?]; done]|].
  bool_to_prop.
  cbn zeta. set (d := b2z b - 48). assert (0 ≤ d < 10) by lia.
  pose proof (Z.div_mod limit 10 ltac:(lia)). pose proof (Z.mod_pos_bound limit 10 ltac:(lia)).
  destruct ((limit / 10 <? value) || ((value =? limit / 10) && (limit mod 10 <? d))) eqn:E.
  - split; [done|]. intros [Hp ?]. apply parse_digits_ge in Hp; lia.
  - assert (value * 10 + d ≤ limit) by lia.
    unfold wrapu64. rewrite (Z.mod_small (_ + _)) by lia. apply IH. lia.
Qed.

Lemma wrap64_small v : 0 ≤ v < 2 ^ 63 → wrap64 v = v.
Proof. intros. apply wrap64_id. unfold min_int64, max_int64. lia. Qed.

Lemma wrap64_opp_small v : 0 ≤ v < 2 ^ 63 → wrap64 (- wrap64 v) = - v.
Proof.
  intros. rewrite (wrap64_small v) by done. apply wrap64_id. unfold min_int64, max_int64. lia.
Qed.

Lemma parseIntSigned_spec neg raw z :
  parseIntSigned neg raw = Ok z
  ↔ ∃ n, parse_digits 0 raw = Some n ∧ z = (if neg then - n else n)
         ∧ n ≤ (if neg then maxAbs else maxAbs - 1).
Proof.
  unfold parseIntSigned. set (limit := if neg then maxAbs else maxAbs - 1).
  assert (0 ≤ limit ≤ 2 ^ 63) by (subst limit; unfold maxAbs; destruct neg; lia).
  assert (∀ n, parse_digits 0 raw = Some n → 0 ≤ n) as Hge
    by (intros n Hn; by apply parse_digits_ge in Hn).
  pose proof (λ v, parseIntLoop_spec limit 0 raw v ltac:(lia) ltac:(lia)) as Hspec.
  assert (∀ n, 0 ≤ n ≤ limit →
    (if neg then if n =? maxAbs then Ok min_int64 else Ok (wrap64 (- wrap64 n))
     else Ok (wrap64 n)) = Ok (E := protoError) (if neg then - n else n)) as Hres.
  { intros n Hn. subst limit. unfold maxAbs, min_int64 in *.
    destruct neg; [case_match|]; bool_to_prop; [by subst | |];
      rewrite ?wrap64_opp_small, ?wrap64_small by lia; done. }
  split.
  - destruct (parseIntLoop _ _ _ _) as [v|] eqn:E; cbn [result_bind]; [|done].
    destruct (proj1 (Hspec v) eq_refl) as [Hp Hle]. pose proof (Hge _ Hp).
    rewrite Hres by lia. intros [= <-]. eauto.
  - intros (n & Hn & -> & Hle). pose proof (Hge _ Hn).
    rewrite (proj2 (Hspec n)) by done. cbn [result_bind]. apply Hres. lia.
Qed.

(** The hand-written integer parser accepts exactly what [strconv.ParseInt]
    accepts, with the same value. *)
Lemma parseIntBytes_ParseInt raw z :
  parseIntBytes raw = Ok z ↔ ParseInt raw = Some z.
Proof.
  unfold parseIntBytes, ParseInt, split_sign. destruct raw as [|b rest]; [done|].
  assert (∀ neg s, s ≠ [] →
    parseIntSigned neg s = Ok z ↔
    (n ← parse_udec s;
     if neg then (if n <=? 2 ^ 63 then Some (- n) else None)
     else (if n <? 2 ^ 63 then Some n else None)) = Some z) as Hs.
  { intros neg s Hne. rewrite parseIntSigned_spec. unfold maxAbs.
    destruct s as [|c s]; [done|]. unfold parse_udec.
    destruct (parse_digits 0 (c :: s)) as [n|] eqn:E; cbn [mbind option_bind].
    - destruct neg; case_match; bool_to_prop;
        (split; [intros (n' & [= <-] & -> & ?); first [done | lia]
                |first [done | intros [= <-]; exists n; split_and!; first [done | lia]]]).
    - split; [intros (n' & ? & ?); done | done]. }
  destruct (decide (b = "-"%byte)); [|destruct (decide (b = "+"%byte))].
  - destruct rest; [done|]. by apply Hs.
  - destruct rest; [done|]. by apply Hs.
  - by apply Hs.
Qed.

Lemma parseDecimalInt_eq raw : parseDecimalInt raw = parseIntBytes raw.
Proof.
  unfold parseDecimalInt. destruct (parseIntBytes raw) as [z|] eqn:E; cbn [result_bind]; [|done].
  apply parseIntBytes_ParseInt, ParseInt_range in E.
  by rewrite (proj2 (orb_false_iff _ _)) by (rewrite !Z.ltb_ge; lia).
Qed.

Lemma parseIntBytes_FormatInt z :
  min_int64 ≤ z ≤ max_int64 → parseIntBytes (FormatInt z) = Ok z.
Proof. intros. by apply parseIntBytes_ParseInt, ParseInt_FormatInt. Qed.

(** ** Lines *)

Lemma indexByte_None c l : indexByte c l = None ↔ c ∉ l.
Proof.
  induction l as [|b l IH]; simpl; [set_solver|].
  destruct (decide (b = c)) as [->|]; [set_solver|].
  destruct (indexByte c l); simpl; set_solver.
Qed.

Lemma indexByte_app c l r : c ∉ l → indexByte c (l ++ c :: r) = Some (length l).
Proof.
  induction l as [|b l IH]; simpl; intros Hc.
  - by rewrite decide_True.
  - rewrite decide_False by set_solver. rewrite IH by set_solver. done.
Qed.

Lemma indexByte_Some c l i :
  indexByte c l = Some i → ∃ p r, l = p ++ c :: r ∧ c ∉ p ∧ i = length p.
Proof.
  revert i. induction l as [|b l IH]; simpl; intros i H; [done|].
  destruct (decide (b = c)) as [->|]; simplify_eq.
  { exists [], l. set_solver. }
  destruct (indexByte c l) as [j|] eqn:E; simplify_eq/=.
  destruct (IH j eq_refl) as (p & r & -> & Hp & ->).
  exists (b :: p), r. set_solver.
Qed.

Lemma trimCRLF_snoc p :
  trimCRLF (p ++ [LF]) = match last p with
                         | Some b => if decide (b = CR) then Ok (take (length p - 1) p) else Err ErrMissingCRLF
                         | None => Err ErrMissingCRLF end.
Proof.
  unfold trimCRLF. destruct p as [|b p _] using rev_ind; [done|].
  rewrite last_snoc, zlen_app, zlen_app. unfold zlen. simpl.
  rewrite !length_app. simpl.
  rewrite (proj2 (Z.ltb_ge _ _)) by lia. simpl.
  replace (length p + 1 + 1 - 2)%nat with (length p) by lia.
  replace (length p + 1 + 1 - 1)%nat with (length p + 1)%nat by lia.
  rewrite <- app_assoc. simpl app. rewrite list_lookup_middle by done.
  rewrite (lookup_app_r p) by lia. replace (length p + 1 - length p)%nat with 1%nat by lia. simpl.
  case_bool_decide; simplify_eq; case_decide; simplify_eq; try done.
  rewrite take_app_length, take_app_le by lia. by rewrite take_ge by lia.
Qed.

Lemma decodeLine_incomplete buf : LF ∉ buf → decodeLine buf = Err ErrIncomplete.
Proof. intros H. unfold decodeLine. by rewrite (proj2 (indexByte_None _ _)). Qed.

Lemma decodeLine_at p r :
  LF ∉ p →
  decodeLine (p ++ LF :: r) = (let? c := trimCRLF (p ++ [LF]) in Ok (c, zlen p + 1)).
Proof.
  intros Hp. unfold decodeLine. rewrite indexByte_app by done.
  replace (take (S (length p)) (p ++ LF :: r)) with (p ++ [LF]).
  - replace (Z.of_nat (S (length p))) with (zlen p + 1) by (unfold zlen; lia). done.
  - rewrite (cons_middle LF p r), app_assoc.
    rewrite take_app_le by (rewrite length_app; simpl; lia).
    rewrite take_ge by (rewrite length_app; simpl; lia). done.
Qed.

Lemma decodeLine_crlf line r :
  LF ∉ line → decodeLine (line ++ crlf ++ r) = Ok (line, zlen line + 2).
Proof.
  intros. replace (line ++ crlf ++ r) with ((line ++ [CR]) ++ LF :: r)
    by (unfold crlf; by rewrite <- app_assoc).
  rewrite decodeLine_at by set_solver. rewrite trimCRLF_snoc, last_snoc, decide_True by done.
  cbn [result_bind]. rewrite length_app, take_app_le by (simpl; lia).
  rewrite take_ge by (simpl; lia). rewrite zlen_app. f_equal. f_equal. unfold zlen. simpl. lia.
Qed.

(** The three outcomes of [decodeLine]. *)
Inductive line_view (buf : bytes) : Prop :=
  | line_torn : LF ∉ buf → line_view buf
  | line_ok line r : buf = line ++ crlf ++ r → LF ∉ line → line_view buf
  | line_bad : (∀ ext, decodeLine (buf ++ ext) = Err ErrMissingCRLF) → line_view buf.

Lemma decodeLine_view buf : line_view buf.
Proof.
  destruct (indexByte LF buf) as [i|] eqn:E.
  2: { apply line_torn. by apply indexByte_None. }
  apply indexByte_Some in E as (p & r & -> & Hp & _).
  destruct p as [|b p _] using rev_ind.
  { apply line_bad. intros ext. rewrite <- app_assoc. simpl app at 2.
    rewrite decodeLine_at by done. done. }
  destruct (decide (b = CR)) as [->|Hb].
  - apply (line_ok _ p r); [by rewrite <- app_assoc | set_solver].
  - apply line_bad. intros ext. rewrite <- (app_assoc _ _ ext).
    change ((LF :: r) ++ ext) with (LF :: (r ++ ext)).
    rewrite decodeLine_at by done. rewrite trimCRLF_snoc, last_snoc, decide_False by done. done.
Qed.

(** ** Stability under extension *)

Definition noFuelErr (e : protoError) : Prop := errCause e ≠ ErrOutOfFuel.

(** What a verdict on [buf] says about every extension [buf ++ ext]. *)
Definition verdict_stable (dec : bytes → result protoError (Value * Z)) (lo : Z) (buf ext : bytes)
    (r r' : result protoError (Value * Z)) : Prop :=
  match r with
  | Ok (v, n) => lo < n ≤ zlen buf ∧ r' = Ok (v, n)
  | Err e =>
      noFuelErr e
      ∧ (isIncomplete e = false → r' = Err e)
      ∧ (isIncomplete e = true → e = ErrIncomplete ∨ ∃ need, 0 < need ∧ e = IncompleteError need)
      ∧ (∀ need, e = IncompleteError need → zlen (buf ++ ext) < need → r' = Err e)
  end.

Definition decoder_stable (dec : bytes → result protoError (Value * Z)) : Prop :=
  ∀ buf ext, verdict_stable dec 0 buf ext (dec buf) (dec (buf ++ ext)).

Lemma wrap64_le z : min_int64 ≤ z → wrap64 z ≤ z.
Proof.
  unfold min_int64, wrap64. intros. pose proof (Z.mod_le (z + 2 ^ 63) (2 ^ 64)). lia.
Qed.

Lemma incompleteNeed_inv total need : incompleteNeed total = IncompleteError need → need = total.
Proof. unfold incompleteNeed. case_match; congruence. Qed.

Lemma incompleteNeed_incomplete total : isIncomplete (incompleteNeed total) = true.
Proof. unfold incompleteNeed. by case_match. Qed.

Lemma incompleteNeed_cases total :
  incompleteNeed total = ErrIncomplete
  ∨ ∃ need, 0 < need ∧ incompleteNeed total = IncompleteError need.
Proof. unfold incompleteNeed. case_match; bool_to_prop; eauto. Qed.

Lemma incompleteNeed_nofuel total : noFuelErr (incompleteNeed total).
Proof. unfold noFuelErr, incompleteNeed. by case_match. Qed.

(** A permanent error that does not depend on the rest of the buffer. *)
Lemma stable_perm dec lo buf ext e :
  noFuelErr e → isIncomplete e = false → verdict_stable dec lo buf ext (Err e) (Err e).
Proof. intros ? Hi. simpl. split_and!; [done..| congruence |]. intros ? ->. done. Qed.

Lemma stable_torn dec lo buf ext r : verdict_stable dec lo buf ext (Err ErrIncomplete) r.
Proof. simpl. unfold noFuelErr. split_and!; try done. eauto. Qed.

#[export] Hint Resolve stable_perm stable_torn : core.

Lemma parseIntLoop_err a b v raw e :
  parseIntLoop a b v raw = Err e → e = ErrNumSyntax ∨ e = ErrNumRange.
Proof.
  revert v. induction raw as [|d raw IH]; intros v; cbn [parseIntLoop]; [done|].
  cbn zeta. repeat case_match; intros; simplify_eq; eauto.
Qed.

Lemma parseIntBytes_err raw e :
  parseIntBytes raw = Err e → e = ErrNumSyntax ∨ e = ErrNumRange.
Proof.
  unfold parseIntBytes, parseIntSigned.
  repeat case_match; intros; simplify_eq; eauto;
    match goal with H : result_bind ?m _ = _ |- _ => destruct m eqn:E; cbn [result_bind] in H end;
    repeat case_match; simplify_eq; by eapply parseIntLoop_err.
Qed.

Lemma decodeLine_zdrop1 (c : byte) (buf : bytes) : zdrop 1 (c :: buf) = buf.
Proof. reflexivity. Qed.

(** A frame header: the line after the prefix byte decides the rest. *)
Lemma decodeHeader_stable dec lo c buf ext (k : bytes → bytes * Z → result protoError (Value * Z)) :
  (∀ line r, buf = line ++ crlf ++ r → LF ∉ line →
     verdict_stable dec lo (c :: buf) ext
       (k (c :: buf) (line, zlen line + 2)) (k (c :: buf ++ ext) (line, zlen line + 2))) →
  verdict_stable dec lo (c :: buf) ext
    (let? p := decodeLine buf in k (c :: buf) p)
    (let? p := decodeLine (buf ++ ext) in k (c :: buf ++ ext) p).
Proof.
  intros Hk. destruct (decodeLine_view buf) as [Ht|line r Hb Hl|Hbad].
  - rewrite (decodeLine_incomplete buf) by done. apply stable_torn.
  - subst buf. rewrite decodeLine_crlf by done.
    rewrite <- !app_assoc, decodeLine_crlf by done. cbn [result_bind].
    rewrite !app_assoc. rewrite <- (app_assoc line). by apply (Hk line r).
  - rewrite Hbad. rewrite <- (app_nil_r buf) at 2. rewrite Hbad. cbn [result_bind].
    by apply stable_perm.
Qed.

Lemma decodeLineFrame_stable parse c buf ext dec :
  (∀ line e, parse line = Err e → noFuelErr e ∧ isIncomplete e = false) →
  verdict_stable dec 0 (c :: buf) ext
    (decodeLineFrame parse (c :: buf)) (decodeLineFrame parse (c :: buf ++ ext)).
Proof.
  intros Hp. unfold decodeLineFrame. rewrite !decodeLine_zdrop1.
  apply (decodeHeader_stable dec 0 c buf ext
    (λ _ '(line, n), let? value := parse line in Ok (value, 1 + n))).
  intros line r Hb Hl. destruct (parse line) as [v|e] eqn:E; cbn [result_bind].
  - split; [|done]. rewrite zlen_cons, Hb, !zlen_app, zlen_crlf.
    pose proof (zlen_nonneg line). pose proof (zlen_nonneg r). lia.
  - destruct (Hp _ _ E). by apply stable_perm.
Qed.

Lemma decodeBulkString_stable dec c buf ext :
  verdict_stable dec 0 (c :: buf) ext
    (decodeBulkString (c :: buf)) (decodeBulkString (c :: buf ++ ext)).
Proof.
  unfold decodeBulkString. rewrite !decodeLine_zdrop1.
  eapply (decodeHeader_stable dec 0 c buf ext (λ b '(line, n), _)).
  intros line r Hb Hl. rewrite parseDecimalInt_eq.
  destruct (parseIntBytes line) as [len|e] eqn:Ep.
  2: { apply parseIntBytes_err in Ep as [-> | ->]; by apply stable_perm. }
  pose proof (zlen_nonneg line). pose proof (zlen_nonneg r). pose proof (zlen_nonneg ext).
  assert (zlen (c :: buf) = 1 + (zlen line + 2) + zlen r) as Hlen
    by (rewrite zlen_cons, Hb, !zlen_app, zlen_crlf; lia).
  destruct (len =? -1) eqn:E1; bool_to_prop; [split; [lia|done]|].
  destruct (len <? -1) eqn:E2; bool_to_prop; [by apply stable_perm|].
  assert (∀ x : bytes, zdrop (1 + (zlen line + 2)) (c :: buf ++ x) = r ++ x) as Hd.
  { intros x. rewrite zdrop_cons by lia. rewrite Hb, <- !app_assoc, app_assoc.
    replace (zlen line + 2) with (zlen (line ++ crlf)) by (rewrite zlen_app, zlen_crlf; lia).
    apply zdrop_app_exact. }
  pose proof (Hd []) as Hd0. rewrite !app_nil_r in Hd0. rewrite Hd, Hd0. cbn zeta.
  destruct (zlen r - 2 <? len) eqn:E3; bool_to_prop.
  - apply parseIntBytes_ParseInt, ParseInt_range in Ep.
    split_and!; [apply incompleteNeed_nofuel | by rewrite incompleteNeed_incomplete
      | intros _; apply incompleteNeed_cases |].
    intros need Hneed%incompleteNeed_inv Hlt. subst need.
    pose proof (wrap64_le (1 + (zlen line + 2) + len + 2)) as Hw.
    unfold min_int64 in Hw. rewrite zlen_app in Hlt.
    by rewrite (proj2 (Z.ltb_lt _ _)) by (rewrite zlen_app; lia).
  - rewrite (proj2 (Z.ltb_ge _ _)) by (rewrite zlen_app; lia).
    unfold zlen in E3. rewrite !lookup_app_l by lia.
    case_match; [by apply stable_perm|].
    rewrite ztake_app_le by (unfold zlen; lia). split; [unfold zlen in *; lia | done].
Qed.

Lemma decodeElements_stable dec (Hd : decoder_stable dec) buf ext count : ∀ f1 f2 i consumed els,
  0 ≤ consumed ≤ zlen buf →
  zlen buf - consumed < Z.of_nat f1 → zlen (buf ++ ext) - consumed < Z.of_nat f2 →
  verdict_stable dec (consumed - 1) buf ext
    (decodeElements dec f1 i count consumed buf els)
    (decodeElements dec f2 i count consumed (buf ++ ext) els).
Proof.
  induction f1 as [|f1 IH]; intros f2 i consumed els Hc Hf1 Hf2; [lia|].
  destruct f2 as [|f2]; [rewrite zlen_app in Hf2; pose proof (zlen_nonneg ext); lia|].
  cbn [decodeElements]. destruct (count <=? i); [split; [lia|done]|].
  rewrite zdrop_app_le by lia.
  pose proof (Hd (zdrop consumed buf) ext) as Hs. unfold verdict_stable in Hs.
  destruct (dec (zdrop consumed buf)) as [[el n]|e].
  - destruct Hs as [Hn ->]. rewrite zlen_zdrop in Hn by lia.
    pose proof (IH f2 (i + 1) (consumed + n) (els ++ [el]) ltac:(lia) ltac:(lia) ltac:(lia)) as H.
    unfold verdict_stable in *.
    destruct (decodeElements dec f1 _ _ _ buf _) as [[v m]|e]; [|done].
    destruct H as [? ->]. split; [lia | done].
  - destruct Hs as (Hnf & Hperm & Hshape & Hneed). destruct (isIncomplete e) eqn:Ei.
    + destruct (Hshape eq_refl) as [-> | (need & Hpos & ->)]; [apply stable_torn|].
      cbn [asIncompleteError errCause].
      split_and!; [apply incompleteNeed_nofuel | by rewrite incompleteNeed_incomplete
        | intros _; apply incompleteNeed_cases |].
      intros need' Hneed'%incompleteNeed_inv Hlt. subst need'.
      pose proof (wrap64_le (consumed + need) ltac:(unfold min_int64; lia)).
      rewrite (Hneed need eq_refl); [done|]. rewrite zlen_app in *. rewrite zlen_zdrop by lia. lia.
    + rewrite Hperm, Ei by done. by apply stable_perm.
Qed.

Lemma decodeArray_stable dec (Hd : decoder_stable dec) c buf ext depth :
  verdict_stable dec 0 (c :: buf) ext
    (decodeArray dec (c :: buf) depth) (decodeArray dec (c :: buf ++ ext) depth).
Proof.
  unfold decodeArray. case_match; [by apply stable_perm|]. rewrite !decodeLine_zdrop1.
  eapply (decodeHeader_stable dec 0 c buf ext (λ b '(line, n), _)).
  intros line r Hb Hl. rewrite parseDecimalInt_eq.
  destruct (parseIntBytes line) as [count|e] eqn:Ep.
  2: { apply parseIntBytes_err in Ep as [-> | ->]; by apply stable_perm. }
  pose proof (zlen_nonneg line). pose proof (zlen_nonneg r). pose proof (zlen_nonneg ext).
  assert (zlen (c :: buf) = 1 + (zlen line + 2) + zlen r) as Hlen
    by (rewrite zlen_cons, Hb, !zlen_app, zlen_crlf; lia).
  destruct (count =? -1) eqn:E1; bool_to_prop; [split; [lia|done]|].
  destruct (count <? -1) eqn:E2; bool_to_prop; [by apply stable_perm|].
  pose proof (decodeElements_stable dec Hd (c :: buf) ext count
    (S (length (c :: buf))) (S (length (c :: buf ++ ext))) 0 (1 + (zlen line + 2)) []
    ltac:(lia) ltac:(unfold zlen; lia) ltac:(unfold zlen; simpl; lia)) as Hst.
  unfold verdict_stable in *. destruct (decodeElements _ _ _ _ _ (c :: buf) _) as [[v n]|e]; [|done].
  destruct Hst as [? Hst]. split; [lia | exact Hst].
Qed.

Lemma decode_stable fuel : ∀ depth,
  129 ≤ depth + Z.of_nat fuel → depth ≤ 128 →
  decoder_stable (λ b, decode fuel b depth).
Proof.
  induction fuel as [|fuel IH]; intros depth Hf Hd buf ext; [lia|].
  destruct buf as [|c buf]; [apply stable_torn|].
  cbn [decode app].
  repeat (case_decide; [apply decodeLineFrame_stable; intros line e; try done|]).
  - unfold integerFromLine. case_match; [done|]. intros [= <-].
    by destruct (parseIntBytes_err _ _ ltac:(eassumption)) as [-> | ->].
  - unfold booleanFromMarker. repeat case_decide; intros; by simplify_eq.
  - unfold nullFromPayload. case_match; intros; by simplify_eq.
  - case_decide; [apply decodeBulkString_stable|].
    case_decide; [|by apply stable_perm].
    destruct (Z_lt_le_dec depth 128).
    + apply decodeArray_stable. apply IH; lia.
    + unfold decodeArray, maxNestingDepth. rewrite (proj2 (Z.leb_le _ _)) by lia.
      by apply stable_perm.
Qed.

Lemma Decode_stable : decoder_stable Decode.
Proof. apply decode_stable; unfold decodeFuel; lia. Qed.

(** ** Decoding inverts encoding *)

(** Values whose wire form is a well-formed frame: one-line payloads hold no
    line feed, integers and lengths fit an int64, and arrays nest at most
    [maxNestingDepth] deep. *)
Fixpoint wireOk (depth : Z) (v : Value) : bool :=
  match v with
  | SimpleString s | ErrorValue s => bool_decide (LF ∉ s)
  | Integer z => is_int64 z
  | BulkString d null | TextBulkString d null => null || (zlen d <=? max_int64)
  | Array es null =>
      (depth <? maxNestingDepth)
      && (null || ((zlen es <=? max_int64) && forallb (wireOk (depth + 1)) es))
  | Boolean _ | Null => true
  | NilValue => false
  end.

(** What a decoder gives back: bulk strings lose their Go representation, and
    a null frame its ignored payload. *)
Fixpoint wireValue (v : Value) : Value :=
  match v with
  | BulkString d null | TextBulkString d null =>
      if null then BulkString [] true else BulkString d false
  | Array es null => if null then Array [] true else Array (wireValue <$> es) false
  | _ => v
  end.

Lemma wireOk_noNil v : ∀ depth, wireOk depth v = true → noNil v = true.
Proof.
  induction v as [?|?|?|? []|? []|es []|[]| |] using Value_nested_ind; intros depth Hv; try done.
  simpl in *. apply andb_true_iff in Hv as [_ Hv]. apply andb_true_iff in Hv as [_ Hv].
  rewrite forallb_Forall, Forall_forall in *. eauto.
Qed.

Lemma parseDecimalInt_zlen {A} (l : list A) :
  zlen l ≤ max_int64 → parseDecimalInt (FormatInt (zlen l)) = Ok (zlen l).
Proof.
  intros. rewrite parseDecimalInt_eq. apply parseIntBytes_FormatInt.
  pose proof (zlen_nonneg l). unfold min_int64. lia.
Qed.

Lemma decodeLineFrame_wire parse c line rest v :
  LF ∉ line → parse line = Ok v →
  decodeLineFrame parse (c :: line ++ crlf ++ rest) = Ok (v, zlen (c :: line ++ crlf)).
Proof.
  intros Hl Hp. unfold decodeLineFrame. rewrite decodeLine_zdrop1, decodeLine_crlf by done.
  cbn [result_bind]. rewrite Hp. cbn [result_bind].
  rewrite zlen_cons, zlen_app, zlen_crlf. done.
Qed.

Lemma header_zdrop (c : byte) line r :
  zdrop (1 + (zlen line + 2)) (c :: line ++ crlf ++ r) = r.
Proof.
  pose proof (zlen_nonneg line). rewrite zdrop_cons by lia. rewrite app_assoc.
  replace (zlen line + 2) with (zlen (line ++ crlf)) by (rewrite zlen_app, zlen_crlf; lia).
  apply zdrop_app_exact.
Qed.

Lemma header_zlen (c : byte) line r :
  zlen (c :: line ++ crlf ++ r) = 1 + (zlen line + 2) + zlen r.
Proof. rewrite zlen_cons, !zlen_app, zlen_crlf. lia. Qed.

(** A bulk string whose length line announces exactly the payload present. *)
Lemma decodeBulkString_body c line data rest :
  LF ∉ line → parseDecimalInt line = Ok (zlen data) →
  decodeBulkString (c :: line ++ crlf ++ data ++ crlf ++ rest)
  = Ok (BulkString data false, 1 + (zlen line + 2) + zlen data + 2).
Proof.
  intros Hl Hd. unfold decodeBulkString. rewrite decodeLine_zdrop1, decodeLine_crlf by done.
  cbn [result_bind]. rewrite Hd. pose proof (zlen_nonneg data).
  rewrite (proj2 (Z.eqb_neq _ _)) by lia. rewrite (proj2 (Z.ltb_ge _ _)) by lia. cbn zeta.
  rewrite header_zdrop.
  rewrite (proj2 (Z.ltb_ge _ _)) by (rewrite !zlen_app, zlen_crlf; pose proof (zlen_nonneg rest); lia).
  assert ((data ++ crlf ++ rest) !! Z.to_nat (zlen data) = Some CR) as ->.
  { unfold zlen. rewrite Nat2Z.id. by rewrite lookup_app_r, Nat.sub_diag by lia. }
  assert ((data ++ crlf ++ rest) !! Z.to_nat (zlen data + 1) = Some LF) as ->.
  { unfold zlen. rewrite lookup_app_r by lia.
    by replace (Z.to_nat (Z.of_nat (length data) + 1) - length data)%nat with 1%nat by lia. }
  rewrite !bool_decide_eq_true_2 by done. cbn [negb orb]. by rewrite ztake_app_exact.
Qed.

Lemma decodeBulkString_wire c data rest :
  zlen data ≤ max_int64 →
  decodeBulkString (c :: FormatInt (zlen data) ++ crlf ++ data ++ crlf ++ rest)
  = Ok (BulkString data false, zlen (c :: FormatInt (zlen data) ++ crlf ++ data ++ crlf)).
Proof.
  intros Hd. rewrite decodeBulkString_body.
  - rewrite header_zlen, zlen_app, zlen_crlf. do 2 f_equal. lia.
  - apply FormatInt_no_LF.
  - by apply parseDecimalInt_zlen.
Qed.

Lemma decodeElements_wire dec es rest : ∀ fuel i pre els,
  Forall (λ e, noNil e = true ∧
            ∀ r, dec (wireBytes e ++ r) = Ok (wireValue e, zlen (wireBytes e))) es →
  (length es < fuel)%nat →
  decodeElements dec fuel i (i + zlen es) (zlen pre)
    (pre ++ concat (wireBytes <$> es) ++ rest) els
  = Ok (Array (els ++ (wireValue <$> es)) false, zlen (pre ++ concat (wireBytes <$> es))).
Proof.
  induction es as [|e es IH]; intros fuel i pre els Hes Hf; simpl in Hf.
  - destruct fuel; [lia|]. cbn [decodeElements].
    rewrite (proj2 (Z.leb_le _ _)) by (unfold zlen; simpl; lia).
    by rewrite !app_nil_r.
  - destruct fuel as [|fuel]; [lia|]. apply Forall_cons in Hes as [[Hn He] Hes].
    cbn [decodeElements].
    rewrite (proj2 (Z.leb_gt _ _)) by (rewrite zlen_cons; pose proof (zlen_nonneg es); lia).
    rewrite zdrop_app_exact. cbn [fmap list_fmap concat]. rewrite <- (app_assoc (wireBytes e)), He.
    rewrite <- zlen_app, (app_assoc pre).
    replace (i + zlen (e :: es)) with ((i + 1) + zlen es) by (rewrite zlen_cons; lia).
    rewrite IH by (done || lia). rewrite <- !app_assoc. done.
Qed.

Lemma wireBytes_count es :
  Forall (λ e, noNil e = true) es → zlen es ≤ zlen (concat (wireBytes <$> es)).
Proof.
  induction 1 as [|e es He Hes IH]; cbn [fmap list_fmap concat]; [done|].
  rewrite zlen_cons, zlen_app. apply zlen_wireBytes_pos in He. lia.
Qed.

Lemma decodeArray_wire dec es depth rest :
  zlen es ≤ max_int64 → depth < maxNestingDepth →
  Forall (λ e, noNil e = true ∧ ∀ r, dec (wireBytes e ++ r) = Ok (wireValue e, zlen (wireBytes e))) es →
  let wire := bs "*" ++ FormatInt (zlen es) ++ crlf ++ concat (wireBytes <$> es) in
  decodeArray dec (wire ++ rest) depth = Ok (Array (wireValue <$> es) false, zlen wire).
Proof.
  intros Hlen Hdep Hes. set (pre := "*"%byte :: FormatInt (zlen es) ++ crlf).
  assert (bs "*" ++ FormatInt (zlen es) ++ crlf ++ concat (wireBytes <$> es) = pre ++ concat (wireBytes <$> es)) as ->
    by (subst pre; by rewrite <- app_comm_cons, <- app_assoc).
  cbn zeta. rewrite <- app_assoc. unfold decodeArray. rewrite (proj2 (Z.leb_gt _ _)) by lia.
  subst pre. rewrite <- app_comm_cons, decodeLine_zdrop1, <- app_assoc, decodeLine_crlf by apply FormatInt_no_LF.
  cbn [result_bind]. rewrite parseDecimalInt_zlen by done. pose proof (zlen_nonneg es).
  rewrite (proj2 (Z.eqb_neq _ _)), (proj2 (Z.ltb_ge _ _)) by lia. rewrite app_assoc, app_comm_cons.
  set (pre := "*"%byte :: FormatInt (zlen es) ++ crlf).
  replace (1 + (zlen (FormatInt (zlen es)) + 2)) with (zlen pre)
    by (subst pre; rewrite zlen_cons, zlen_app, zlen_crlf; lia).
  assert (Forall (λ e, noNil e = true) es) as Hnn by (eapply Forall_impl; [exact Hes|]; by intros ? [? _]).
  pose proof (wireBytes_count es Hnn) as Hcnt. replace (zlen es) with (0 + zlen es) at 1 by lia.
  rewrite decodeElements_wire; [done|done|]. unfold zlen in Hcnt. rewrite !length_app. lia.
Qed.

Lemma decode_wire v : ∀ fuel depth rest,
  wireOk depth v = true → 129 ≤ depth + Z.of_nat fuel → depth ≤ 128 →
  decode fuel (wireBytes v ++ rest) depth = Ok (wireValue v, zlen (wireBytes v)).
Proof.
  induction v as [s|s|z|d []|d []|es []|b| |] using Value_nested_ind;
    intros fuel depth rest Hv Hf Hd; destruct fuel as [|fuel]; try lia; try done.
  - apply bool_decide_eq_true in Hv. unfold wireBytes. cbn [appendEncodedValue].
    unfold appendPrefixedStringLine. simpl app. rewrite <- app_assoc.
    cbn [decode]. rewrite decide_True by done. by apply decodeLineFrame_wire.
  - apply bool_decide_eq_true in Hv. unfold wireBytes. cbn [appendEncodedValue].
    unfold appendPrefixedStringLine. simpl app. rewrite <- app_assoc.
    cbn [decode]. rewrite decide_False, decide_True by done. by apply decodeLineFrame_wire.
  - apply is_int64_true in Hv. unfold wireBytes. cbn [appendEncodedValue].
    unfold appendPrefixedIntLine. simpl app. rewrite <- app_assoc.
    cbn [decode]. rewrite !decide_False, decide_True by done.
    apply decodeLineFrame_wire; [apply FormatInt_no_LF|].
    unfold integerFromLine. by rewrite parseIntBytes_FormatInt.
  - simpl in Hv. apply Z.leb_le in Hv. unfold wireBytes. cbn [appendEncodedValue].
    unfold appendPrefixedIntLine. simpl app. rewrite <- !app_assoc.
    cbn [decode]. rewrite !decide_False, decide_True by done. by apply decodeBulkString_wire.
  - simpl in Hv. apply Z.leb_le in Hv. unfold wireBytes. cbn [appendEncodedValue].
    unfold appendPrefixedIntLine. simpl app. rewrite <- !app_assoc.
    cbn [decode]. rewrite !decide_False, decide_True by done. by apply decodeBulkString_wire.
  - cbn [wireOk] in Hv. apply andb_true_iff in Hv as [Hdep _]. 
    change (wireBytes (Array es true)) with (bs "*-1" ++ crlf). simpl app.
    cbn [decode]. rewrite !decide_False, decide_True by done.
    unfold decodeArray. bool_to_prop. unfold maxNestingDepth in *.
    rewrite (proj2 (Z.leb_gt _ _)) by lia. done.
  - pose proof (wireOk_noNil _ _ Hv) as Hnn. simpl in Hnn.
    cbn [wireOk] in Hv. apply andb_true_iff in Hv as [Hdep Hv]. cbn [orb] in Hv.
    apply andb_true_iff in Hv as [Hlen Hes]. bool_to_prop. unfold maxNestingDepth in *.
    rewrite wireBytes_array by done. rewrite forallb_Forall in Hnn, Hes.
    cbn [decode app]. rewrite !decide_False, decide_True by done.
    rewrite app_comm_cons. change ("*"%byte :: FormatInt (zlen es) ++ crlf ++ concat (wireBytes <$> es)) with
      ((bs "*" ++ FormatInt (zlen es) ++ crlf ++ concat (wireBytes <$> es))).
    apply decodeArray_wire; [done|unfold maxNestingDepth; lia|].
    rewrite Forall_forall in *. intros e He. split; [by apply Hnn|]. intros r.
    apply H; [done | by apply Hes | lia | lia].
  - unfold wireBytes. destruct b; done.
Qed.

(** ** Properties *)

(** C6: every value the server can put on the wire is decoded back from any
    buffer that starts with its encoding, consuming exactly the encoded bytes,
    whose number [EncodedLen] predicts. *)
Theorem Decode_Encode_roundtrip v :
  wireOk 0 v = true →
  ∃ b, Encode v = Ok b ∧ EncodedLen v = Ok (zlen b) ∧
       ∀ rest, Decode (b ++ rest) = Ok (wireValue v, zlen b).
Proof.
  intros Hv. pose proof (wireOk_noNil _ _ Hv) as Hn. exists (wireBytes v). split_and!.
  - by apply Encode_ok.
  - by rewrite EncodedLen_spec, appendEncodedValue_ok.
  - intros rest. apply decode_wire; unfold decodeFuel; first [done | lia].
Qed.

Lemma Decode_Encode_roundtrip_witness :
  ∃ b, Encode (Array [BulkString (bs "GET") false; TextBulkString (bs "k") false] false) = Ok b
    ∧ EncodedLen (Array [BulkString (bs "GET") false; TextBulkString (bs "k") false] false) = Ok (zlen b)
    ∧ ∀ rest, Decode (b ++ rest)
        = Ok (Array [BulkString (bs "GET") false; BulkString (bs "k") false] false, zlen b).
Proof.
  exact (Decode_Encode_roundtrip
    (Array [BulkString (bs "GET") false; TextBulkString (bs "k") false] false) eq_refl).
Defined.

(** C26: a verdict on a partial buffer is final: once a frame or a permanent
    protocol error is reported, no later bytes change it, and a reported frame
    consumes at least one and at most all of the bytes present. *)
Theorem Decode_verdict_final buf ext :
  (∀ v n, Decode buf = Ok (v, n) → 0 < n ≤ zlen buf ∧ Decode (buf ++ ext) = Ok (v, n))
  ∧ (∀ e, Decode buf = Err e → isIncomplete e = false → Decode (buf ++ ext) = Err e).
Proof.
  pose proof (Decode_stable buf ext) as H. unfold verdict_stable in H.
  split; [intros v n E | intros e E Hi]; rewrite E in H; [done|]. by apply H.
Qed.

Lemma Decode_verdict_final_witness :
  Decode (bs "+OK" ++ crlf) = Ok (SimpleString (bs "OK"), 5)
  ∧ Decode ((bs "+OK" ++ crlf) ++ bs "$") = Ok (SimpleString (bs "OK"), 5).
Proof.
  split; [reflexivity|].
  exact (proj2 (proj1 (Decode_verdict_final (bs "+OK" ++ crlf) (bs "$")) _ _ eq_refl)).
Defined.

(** the byte hint of an incomplete frame is a sound lower bound: as long
    as the buffer is shorter than [Need], decoding again gives the very same
    verdict, so deferring the retry loses nothing. *)
Theorem Decode_need_sound buf ext need :
  Decode buf = Err (IncompleteError need) → zlen (buf ++ ext) < need →
  Decode (buf ++ ext) = Err (IncompleteError need).
Proof.
  intros E Hlt. pose proof (Decode_stable buf ext) as H.
  rewrite E in H. destruct H as (_ & _ & _ & H). by apply (H need).
Qed.

Lemma Decode_need_sound_witness :
  Decode ((bs "$5" ++ crlf ++ bs "ab") ++ bs "cd") = Err (IncompleteError 11).
Proof.
  apply (Decode_need_sound (bs "$5" ++ crlf ++ bs "ab") (bs "cd") 11); reflexivity.
Defined.

(** a torn frame is never mistaken for a frame or an error: every proper
    prefix of an encoding is reported as incomplete. *)
Theorem Decode_prefix_incomplete v p q :
  wireOk 0 v = true → q ≠ [] → Encode v = Ok (p ++ q) →
  ∃ e, Decode p = Err e ∧ isIncomplete e = true.
Proof.
  intros Hv Hq He. pose proof (wireOk_noNil _ _ Hv) as Hn.
  rewrite Encode_ok in He by done. injection He as He.
  pose proof (decode_wire v decodeFuel 0 [] Hv ltac:(unfold decodeFuel; lia) ltac:(lia)) as Hw.
  rewrite app_nil_r, He in Hw. change (decode decodeFuel ?b 0) with (Decode b) in Hw.
  pose proof (Decode_stable p q) as H. unfold verdict_stable in H.
  destruct (Decode p) as [[w n]|e].
  - destruct H as [Hle H]. rewrite H in Hw. injection Hw as -> ->. destruct q; [done|].
    rewrite zlen_app, zlen_cons in Hle. pose proof (zlen_nonneg q). lia.
  - destruct (isIncomplete e) eqn:Ei; [by eauto|].
    destruct H as (_ & H & _). rewrite H in Hw by done. done.
Qed.

Lemma Decode_prefix_incomplete_witness :
  ∃ e, Decode (bs "*1" ++ crlf ++ bs "$4" ++ crlf ++ bs "PI") = Err e ∧ isIncomplete e = true.
Proof.
  apply (Decode_prefix_incomplete (Array [BulkString (bs "PING") false] false) _
           (bs "NG" ++ crlf)); [reflexivity | discriminate | reflexivity].
Defined.

(** the decoder is total: on every buffer it returns a frame or one of the
    errors of the Go code, never for lack of recursion fuel. *)
Theorem Decode_total buf : ∀ e, Decode buf = Err e → errCause e ≠ ErrOutOfFuel.
Proof.
  intros e E. pose proof (Decode_stable buf []) as H. rewrite E in H. apply H.
Qed.

Lemma Decode_total_witness : errCause (ErrUnsupportedPrefix "!"%byte) ≠ ErrOutOfFuel.
Proof. exact (Decode_total (bs "!") _ eq_refl). Defined.

(** the allocation-free integer parser agrees with [strconv.ParseInt] on
    every input: same accepted texts, same values. *)
Theorem parseIntBytes_agrees_strconv raw z :
  parseIntBytes raw = Ok z ↔ ParseInt raw = Some z.
Proof. apply parseIntBytes_ParseInt. Qed.

(** the streaming encoder writes byte for byte what [Encode] returns. *)
Theorem WriteValue_agrees_Encode v w b :
  Encode v = Ok b → WriteValue bufWrite w v = (w ++ b, None).
Proof.
  intros He. assert (noNil v = true) as Hn.
  { unfold Encode in He. destruct (EncodedLen v); cbn [result_bind] in He; [|done].
    by eapply appendEncodedValue_noNil. }
  rewrite Encode_ok in He by done. injection He as <-. by apply WriteValue_bufWrite.
Qed.

Lemma WriteValue_agrees_Encode_witness :
  WriteValue bufWrite (bs "x") (Integer 42) = (bs "x" ++ bs ":42" ++ crlf, None).
Proof. apply (WriteValue_agrees_Encode (Integer 42)). reflexivity. Defined.
