(* ===== verification/RespParser.v ===== *)
(** * The streaming RESP parser

    Models [internal/protocol/parser.go]: the [Parser] the goroutine-per-
    connection path, the replication link and AOF replay read frames with.
    The reader is the byte stream still to come plus the error it ends with
    ([io.EOF], or another read error); [bufio.Reader] contributes its 4096-byte
    window, which decides when [ReadSlice] reports [ErrBufferFull].

    The second half relates [Parse] to [Decode]: both networking paths accept
    the same frames. *)

From S2P Require Import Prelude Strconv Resp RespDecode RespDecodeFacts.

Definition maxBulkStringLength : Z := 512 * 1024 * 1024.
Definition maxArrayElements : Z := 1024 * 1024.
Definition maxLineLength : Z := 64 * 1024.
Definition bufioSize : nat := 4096.

Section Parser.

(** The error the underlying reader reports once the stream is exhausted. *)
Variable endErr : protoError.

(** [bufio.Reader.ReadSlice('\n')]. *)
Inductive sliceResult :=
  | SliceLine (line rest : bytes)
  | SliceFull (fragment rest : bytes)
  | SliceErr (err : protoError) (fragment : bytes).

Definition ReadSlice (s : bytes) : sliceResult :=
  match indexByte LF (take bufioSize s) with
  | Some i => SliceLine (take (S i) s) (drop (S i) s)
  | None =>
      if decide (bufioSize ≤ length s)%nat then SliceFull (take bufioSize s) (drop bufioSize s)
      else SliceErr endErr s
  end.

Definition ReadByte (s : bytes) : result protoError byte * bytes :=
  match s with [] => (Err endErr, []) | b :: s' => (Ok b, s') end.

(** [io.ReadFull] of [n] bytes. *)
Definition ReadFull (n : Z) (s : bytes) : result protoError bytes * bytes :=
  if n <=? zlen s then (Ok (ztake n s), zdrop n s)
  else match s with
       | [] => (Err endErr, [])
       | _ => (Err (if decide (endErr = ErrEOF) then ErrUnexpectedEOF else endErr), [])
       end.

(** The [for] loop of [readLineBytes], entered with the first full window. *)
Fixpoint readLineLoop (fuel : nat) (combined s : bytes) : result protoError bytes * bytes :=
  match fuel with
  | O => (Err ErrOutOfFuel, s)
  | S fuel' =>
      match ReadSlice s with
      | SliceLine line rest => (trimCRLF (combined ++ line), rest)
      | SliceErr e _ => (Err e, [])
      | SliceFull fragment rest =>
          if maxLineLength <? zlen (combined ++ fragment) then (Err ErrLineTooLong, rest)
          else readLineLoop fuel' (combined ++ fragment) rest
      end
  end.

(** Sixteen windows exceed the line limit. *)
Definition lineFuel : nat := 17.

Definition readLineBytes (s : bytes) : result protoError bytes * bytes :=
  match ReadSlice s with
  | SliceLine line rest => (trimCRLF line, rest)
  | SliceErr e _ => (Err e, [])
  | SliceFull fragment rest => readLineLoop lineFuel fragment rest
  end.

Definition readLine (s : bytes) : result protoError bytes * bytes := readLineBytes s.

Definition expectCRLF (s : bytes) : result protoError unit * bytes :=
  match ReadByte s with
  | (Err e, s) => (Err e, s)
  | (Ok carriage, s) =>
      match ReadByte s with
      | (Err e, s) => (Err e, s)
      | (Ok newline, s) =>
          if negb (bool_decide (carriage = CR)) || negb (bool_decide (newline = LF))
          then (Err ErrMissingCRLF, s) else (Ok tt, s)
      end
  end.

Definition parseBulkString (s : bytes) : result protoError Value * bytes :=
  match readLineBytes s with
  | (Err e, s) => (Err e, s)
  | (Ok line, s) =>
      match parseDecimalInt line with
      | Err e => (Err (Wrapped CtxBulkLength e), s)
      | Ok length =>
          if length =? -1 then (Ok (BulkString [] true), s)
          else if length <? -1 then (Err (ErrInvalidBulkLength length), s)
          else if maxBulkStringLength <? length then (Err (ErrBulkTooLong length), s)
          else
            match ReadFull length s with
            | (Err e, s) => (Err (Wrapped CtxBulkPayload e), s)
            | (Ok payload, s) =>
                match expectCRLF s with
                | (Err e, s) => (Err (Wrapped CtxBulkCRLF e), s)
                | (Ok _, s) => (Ok (BulkString payload false), s)
                end
            end
      end
  end.

(** The element loop: [count] is at most [maxArrayElements] here, so it is the
    recursion measure. *)
Fixpoint parseElements (parse : bytes → result protoError Value * bytes)
    (count : nat) (i : Z) (elements : list Value) (s : bytes) : result protoError Value * bytes :=
  match count with
  | O => (Ok (Array elements false), s)
  | S count' =>
      match parse s with
      | (Err e, s) => (Err (Wrapped (CtxArrayElement i) e), s)
      | (Ok element, s) => parseElements parse count' (i + 1) (elements ++ [element]) s
      end
  end.

Definition parseArray (parse : bytes → result protoError Value * bytes) (depth : Z) (s : bytes)
    : result protoError Value * bytes :=
  if maxNestingDepth <=? depth then (Err ErrNesting, s)
  else
    match readLineBytes s with
    | (Err e, s) => (Err e, s)
    | (Ok line, s) =>
        match parseDecimalInt line with
        | Err e => (Err (Wrapped CtxArrayLength e), s)
        | Ok count =>
            if count =? -1 then (Ok (Array [] true), s)
            else if count <? -1 then (Err (ErrInvalidArrayLength count), s)
            else if maxArrayElements <? count then (Err (ErrArrayTooLong count), s)
            else parseElements parse (Z.to_nat count) 0 [] s
        end
    end.

(** The one-line cases of [parse]. *)
Definition parseLineFrame (conv : bytes → result protoError Value) (s : bytes)
    : result protoError Value * bytes :=
  match readLineBytes s with
  | (Err e, s) => (Err e, s)
  | (Ok line, s) => (conv line, s)
  end.

Fixpoint parse (fuel : nat) (depth : Z) (s : bytes) : result protoError Value * bytes :=
  match ReadByte s with
  | (Err e, s) => (Err e, s)
  | (Ok prefix, s) =>
      if decide (prefix = "+"%byte) then parseLineFrame (λ l, Ok (SimpleString l)) s
      else if decide (prefix = "-"%byte) then parseLineFrame (λ l, Ok (ErrorValue l)) s
      else if decide (prefix = ":"%byte) then parseLineFrame integerFromLine s
      else if decide (prefix = "#"%byte) then parseLineFrame booleanFromMarker s
      else if decide (prefix = "_"%byte) then parseLineFrame nullFromPayload s
      else if decide (prefix = "$"%byte) then parseBulkString s
      else if decide (prefix = "*"%byte) then
        match fuel with
        | O => (Err ErrOutOfFuel, s)
        | S fuel' => parseArray (parse fuel' (depth + 1)) depth s
        end
      else (Err (ErrUnsupportedPrefix prefix), s)
  end.

Definition Parse (s : bytes) : result protoError Value * bytes := parse decodeFuel 0 s.

(** ** Lines *)

Lemma bufioSize_pos : (0 < bufioSize)%nat.
Proof. unfold bufioSize. lia. Qed.

Lemma ReadSlice_line p r :
  LF ∉ p → (length p < bufioSize)%nat → ReadSlice (p ++ LF :: r) = SliceLine (p ++ [LF]) r.
Proof.
  intros Hp Hl. unfold ReadSlice.
  assert (take bufioSize (p ++ LF :: r) = p ++ LF :: take (bufioSize - length p - 1) r) as ->.
  { rewrite take_app, take_ge by lia. f_equal.
    destruct (bufioSize - length p)%nat eqn:E; [lia|]. simpl. by rewrite Nat.sub_0_r. }
  rewrite indexByte_app by done.
  rewrite (cons_middle LF p r), app_assoc.
  replace (S (length p)) with (length (p ++ [LF])) by (rewrite length_app; simpl; lia).
  by rewrite take_app_length, drop_app_length.
Qed.

Lemma ReadSlice_full p r :
  LF ∉ p → length p = bufioSize → ReadSlice (p ++ r) = SliceFull p r.
Proof.
  intros Hp Hl. unfold ReadSlice. rewrite <- Hl, take_app_length, drop_app_length.
  rewrite (proj2 (indexByte_None _ _)) by done.
  rewrite decide_True by (rewrite length_app; lia). done.
Qed.

(** The only three outcomes of one window. *)
Lemma ReadSlice_view s :
  (∃ p r, s = p ++ LF :: r ∧ LF ∉ p ∧ (length p < bufioSize)%nat ∧ ReadSlice s = SliceLine (p ++ [LF]) r)
  ∨ (∃ p r, s = p ++ r ∧ LF ∉ p ∧ length p = bufioSize ∧ ReadSlice s = SliceFull p r)
  ∨ (LF ∉ s ∧ (length s < bufioSize)%nat ∧ ReadSlice s = SliceErr endErr s).
Proof.
  destruct (indexByte LF (take bufioSize s)) as [i|] eqn:E.
  - left. apply indexByte_Some in E as (p & r & Ht & Hp & _).
    assert (s = p ++ LF :: (r ++ drop bufioSize s)) as Hs.
    { rewrite <- (take_drop bufioSize s) at 1. rewrite Ht, <- app_assoc. done. }
    assert (length p < bufioSize)%nat.
    { pose proof (f_equal length Ht) as Hlen. rewrite length_take, length_app in Hlen.
      cbn [length] in Hlen. lia. }
    exists p, (r ++ drop bufioSize s). split_and!; try done. rewrite Hs at 1. by apply ReadSlice_line.
  - right. apply indexByte_None in E. destruct (decide (bufioSize ≤ length s)%nat).
    + left. exists (take bufioSize s), (drop bufioSize s). rewrite take_drop, length_take.
      split_and!; try done; [lia|]. rewrite <- (take_drop bufioSize s) at 1.
      apply ReadSlice_full; [done|]. rewrite length_take. lia.
    + right. rewrite take_ge in E by lia. split_and!; [done|lia|].
      unfold ReadSlice. rewrite take_ge by lia.
      rewrite (proj2 (indexByte_None _ _)) by done. by rewrite decide_False by lia.
Qed.

Lemma window_split (p : bytes) :
  (bufioSize ≤ length p)%nat → ∃ p1 p2, p = p1 ++ p2 ∧ length p1 = bufioSize.
Proof.
  intros H. exists (take bufioSize p), (drop bufioSize p). rewrite take_drop, length_take. split; [done|lia].
Qed.

Lemma readLineLoop_line fuel : ∀ combined p r,
  LF ∉ p → zlen (combined ++ p) + 1 ≤ maxLineLength →
  (length p < fuel * bufioSize)%nat →
  readLineLoop fuel combined (p ++ LF :: r) = (trimCRLF (combined ++ p ++ [LF]), r).
Proof.
  induction fuel as [|fuel IH]; intros combined p r Hp Hc Hl; [lia|].
  cbn [readLineLoop]. destruct (decide (length p < bufioSize)%nat) as [Hs|Hs].
  { by rewrite ReadSlice_line. }
  destruct (window_split p) as (p1 & p2 & -> & Hl1); [lia|].
  rewrite not_elem_of_app in Hp. destruct Hp as [Hp1 Hp2]. rewrite <- (app_assoc p1).
  rewrite ReadSlice_full by done.
  rewrite (proj2 (Z.ltb_ge _ _)).
  2: { rewrite !zlen_app in *. pose proof (zlen_nonneg p2). lia. }
  rewrite IH; [by rewrite <- !app_assoc | done | by rewrite <- app_assoc |].
  rewrite length_app in Hl. lia.
Qed.

Lemma readLineBytes_crlf line r :
  LF ∉ line → zlen line + 2 ≤ maxLineLength →
  readLineBytes (line ++ crlf ++ r) = (Ok line, r).
Proof.
  intros Hl Hlen.
  replace (line ++ crlf ++ r) with ((line ++ [CR]) ++ LF :: r)
    by (unfold crlf; by rewrite <- app_assoc).
  set (p := line ++ [CR]). assert (LF ∉ p) as Hp by (subst p; set_solver).
  assert (zlen p = zlen line + 1) as Hzp by (subst p; by rewrite zlen_app).
  assert (trimCRLF (p ++ [LF]) = Ok line) as Htrim.
  { rewrite trimCRLF_snoc. subst p. rewrite last_snoc, decide_True by done. f_equal.
    rewrite length_app, take_app_le by (simpl; lia). rewrite take_ge by (simpl; lia). done. }
  clearbody p. unfold readLineBytes.
  destruct (decide (length p < bufioSize)%nat) as [Hs|Hs].
  { rewrite ReadSlice_line by done. by rewrite Htrim. }
  destruct (window_split p) as (p1 & p2 & -> & Hl1); [lia|].
  rewrite not_elem_of_app in Hp. destruct Hp as [Hp1 Hp2]. rewrite <- (app_assoc p1).
  rewrite ReadSlice_full by done.
  rewrite readLineLoop_line; [by rewrite app_assoc, Htrim | done | lia |].
  rewrite zlen_app in Hzp. unfold maxLineLength, bufioSize, lineFuel, zlen in *. lia.
Qed.

Lemma readLineLoop_ok_inv fuel : ∀ combined s line rest,
  LF ∉ combined → readLineLoop fuel combined s = (Ok line, rest) →
  ∃ p, s = p ++ LF :: rest ∧ LF ∉ p ∧ trimCRLF (combined ++ p ++ [LF]) = Ok line.
Proof.
  induction fuel as [|fuel IH]; intros combined s line rest Hc; cbn [readLineLoop]; [done|].
  destruct (ReadSlice_view s) as [(p & r & -> & Hp & _ & ->)|[(p & r & -> & Hp & _ & ->)|(_ & _ & ->)]].
  - intros [= Ht ->]. by eauto.
  - case_match; [done|]. intros Hr. apply IH in Hr as (q & -> & Hq & Ht); [|set_solver].
    exists (p ++ q). rewrite <- !app_assoc in *. split_and!; [done|set_solver|done].
  - done.
Qed.

Lemma readLineBytes_ok_inv s line rest :
  readLineBytes s = (Ok line, rest) → s = line ++ crlf ++ rest ∧ LF ∉ line.
Proof.
  intros H. assert (∃ p, s = p ++ LF :: rest ∧ LF ∉ p ∧ trimCRLF (p ++ [LF]) = Ok line)
    as (p & -> & Hp & Ht).
  { unfold readLineBytes in H.
    destruct (ReadSlice_view s) as [(p & r & -> & Hp & _ & E)|[(p & r & -> & Hp & _ & E)|(_ & _ & E)]];
      rewrite E in H; [| |done].
    - injection H as Ht ->. eauto.
    - apply readLineLoop_ok_inv in H as (q & -> & Hq & Ht); [|done].
      exists (p ++ q). rewrite <- !app_assoc in *. split_and!; [done|set_solver|done]. }
  rewrite trimCRLF_snoc in Ht. destruct p as [|b p _] using rev_ind; [done|].
  rewrite last_snoc in Ht. case_decide; [|done]. subst b. injection Ht as <-.
  rewrite length_app, take_app_le by (simpl; lia). rewrite take_ge by (simpl; lia).
  unfold crlf. rewrite <- app_assoc. set_solver.
Qed.

(** ** Agreement with the incremental decoder *)

(** Every frame the stream parser accepts, the buffer decoder accepts at the
    same place with the same value. *)
Definition accepted_by (dec : bytes → result protoError (Value * Z))
    (s : bytes) (r : result protoError Value * bytes) : Prop :=
  ∀ v rest, r = (Ok v, rest) → ∃ n, dec s = Ok (v, n) ∧ 0 < n ≤ zlen s ∧ rest = zdrop n s.

Lemma parseLineFrame_accepted conv c s :
  accepted_by (decodeLineFrame conv) (c :: s) (parseLineFrame conv s).
Proof.
  intros v rest. unfold parseLineFrame, decodeLineFrame. rewrite decodeLine_zdrop1.
  destruct (readLineBytes s) as [[line|e] r] eqn:E; [|done]. intros [= Hc ->].
  apply readLineBytes_ok_inv in E as [-> Hl]. rewrite decodeLine_crlf by done.
  cbn [result_bind]. rewrite Hc. cbn [result_bind].
  exists (1 + (zlen line + 2)). rewrite header_zdrop, header_zlen.
  pose proof (zlen_nonneg line). pose proof (zlen_nonneg rest). split_and!; [done|lia|lia|done].
Qed.

Lemma ReadFull_ok n s payload rest :
  0 ≤ n → ReadFull n s = (Ok payload, rest) → s = payload ++ rest ∧ zlen payload = n.
Proof.
  intros Hn. unfold ReadFull. case_match; bool_to_prop; [|by case_match].
  intros [= <- <-]. unfold ztake, zdrop. rewrite take_drop. split; [done|]. len.
Qed.

Lemma expectCRLF_ok s rest : expectCRLF s = (Ok tt, rest) → s = crlf ++ rest.
Proof.
  unfold expectCRLF, ReadByte. destruct s as [|a [|b s]]; [done..|].
  case_match eqn:E; [done|]. bool_to_prop. subst. by intros [= ->].
Qed.

Lemma parseBulkString_accepted c s :
  accepted_by decodeBulkString (c :: s) (parseBulkString s).
Proof.
  intros v rest. unfold parseBulkString.
  destruct (readLineBytes s) as [[line|e] r] eqn:E; [|done].
  apply readLineBytes_ok_inv in E as [-> Hl]. pose proof (zlen_nonneg line). pose proof (zlen_nonneg r).
  destruct (parseDecimalInt line) as [n|e] eqn:Ep; [|done].
  destruct (n =? -1) eqn:E1; bool_to_prop.
  { intros [= <- <-]. exists (1 + (zlen line + 2)). rewrite header_zdrop, header_zlen. subst n.
    split_and!; [|lia|lia|done]. unfold decodeBulkString.
    rewrite decodeLine_zdrop1, decodeLine_crlf by done. cbn [result_bind]. by rewrite Ep. }
  case_match; bool_to_prop; [done|]. case_match; bool_to_prop; [done|].
  destruct (ReadFull n r) as [[payload|e] r1] eqn:Er; [|done].
  destruct (expectCRLF r1) as [[[]|e] r2] eqn:Ex; [|done]. intros [= <- <-].
  apply ReadFull_ok in Er as [-> Hp]; [|lia]. apply expectCRLF_ok in Ex as ->.
  rewrite <- Hp in Ep. rewrite decodeBulkString_body by done.
  eexists. split; [done|]. rewrite header_zlen, !zlen_app, zlen_crlf.
  pose proof (zlen_nonneg payload). pose proof (zlen_nonneg r2). split; [lia|].
  replace (_ + zlen payload + 2) with (1 + (zlen line + 2) + zlen (payload ++ crlf))
    by (rewrite zlen_app, zlen_crlf; lia).
  rewrite <- zdrop_zdrop, header_zdrop, app_assoc by (try apply zlen_nonneg; lia).
  by rewrite zdrop_app_exact.
Qed.

Definition parser_accepted (dec : bytes → result protoError (Value * Z))
    (prs : bytes → result protoError Value * bytes) : Prop :=
  ∀ s, accepted_by dec s (prs s).

Lemma parseElements_accepted dec prs (Hp : parser_accepted dec prs) buf : ∀ k fuel i consumed els v rest,
  0 ≤ consumed ≤ zlen buf → zlen buf - consumed < Z.of_nat fuel →
  parseElements prs k i els (zdrop consumed buf) = (Ok v, rest) →
  ∃ n, decodeElements dec fuel i (i + Z.of_nat k) consumed buf els = Ok (v, n)
       ∧ consumed ≤ n ≤ zlen buf ∧ rest = zdrop n buf.
Proof.
  induction k as [|k IH]; intros fuel i consumed els v rest Hc Hf; cbn [parseElements].
  { intros [= <- <-]. exists consumed. destruct fuel; [lia|]. cbn [decodeElements].
    rewrite (proj2 (Z.leb_le _ _)) by lia. split_and!; [done|lia|lia|done]. }
  destruct (prs (zdrop consumed buf)) as [[el|e] r] eqn:E; [|done]. intros H.
  destruct (Hp _ _ _ E) as (m & Hd & Hm & ->). rewrite zlen_zdrop in Hm by lia.
  rewrite zdrop_zdrop in H by lia. destruct fuel as [|fuel]; [lia|]. cbn [decodeElements].
  rewrite (proj2 (Z.leb_gt _ _)) by lia. rewrite Hd.
  apply (IH fuel) in H as (n & Hn & Hle & ->); [|lia|lia].
  exists n. replace (i + Z.of_nat (S k)) with (i + 1 + Z.of_nat k) by lia.
  split_and!; [done|lia|lia|done].
Qed.

Lemma parseArray_accepted dec prs (Hp : parser_accepted dec prs) c depth s :
  accepted_by (λ b, decodeArray dec b depth) (c :: s) (parseArray prs depth s).
Proof.
  intros v rest. unfold parseArray, decodeArray. case_match; [done|].
  destruct (readLineBytes s) as [[line|e] r] eqn:E; [|done].
  apply readLineBytes_ok_inv in E as [-> Hl]. rewrite decodeLine_zdrop1, decodeLine_crlf by done.
  pose proof (zlen_nonneg line). pose proof (zlen_nonneg r). cbn [result_bind].
  destruct (parseDecimalInt line) as [count|e]; [|done].
  destruct (count =? -1) eqn:E1; bool_to_prop.
  { intros [= <- <-]. eexists. rewrite header_zdrop, header_zlen. split_and!; [done|lia|lia|done]. }
  destruct (count <? -1) eqn:E2; bool_to_prop; [done|]. case_match; bool_to_prop; [done|].
  rewrite <- (header_zdrop c line r) at 1. intros Hel.
  apply (parseElements_accepted dec prs Hp _ _ (S (length (c :: line ++ crlf ++ r)))) in Hel
    as (n & Hn & Hle & ->); [|rewrite header_zlen; lia|unfold zlen; lia].
  rewrite Z.add_0_l, Z2Nat.id in Hn by lia. exists n. split_and!; [done|lia|lia|done].
Qed.

Lemma parse_accepted fuel : ∀ depth, parser_accepted (λ b, decode fuel b depth) (parse fuel depth).
Proof.
  induction fuel as [|fuel IH]; intros depth [|c s] v rest; cbn [parse ReadByte decode]; try done;
    (repeat (case_decide; [by apply parseLineFrame_accepted|]));
    (case_decide; [by apply parseBulkString_accepted|]); case_decide; try done.
  intros Ha. apply (parseArray_accepted (λ b, decode fuel b (depth + 1)) _ (IH _) c) in Ha. done.
Qed.

(** Conversely, a frame of at most one line limit that the decoder accepts is
    accepted by the stream parser, whose length limits it cannot exceed. *)
Definition accepts (dec : bytes → result protoError (Value * Z))
    (s : bytes) (r : result protoError Value * bytes) : Prop :=
  ∀ v n, dec s = Ok (v, n) → n ≤ maxLineLength → r = (Ok v, zdrop n s).

Lemma decodeLine_ok_inv s line n :
  decodeLine s = Ok (line, n) →
  LF ∉ line ∧ n = zlen line + 2 ∧ ∃ r, s = line ++ crlf ++ r.
Proof.
  destruct (decodeLine_view s) as [Ht|line' r -> Hl|Hbad].
  - by rewrite decodeLine_incomplete.
  - rewrite decodeLine_crlf by done. intros [= <- <-]. eauto.
  - specialize (Hbad []). rewrite app_nil_r in Hbad. by rewrite Hbad.
Qed.

Lemma parseLineFrame_accepts conv c s :
  accepts (decodeLineFrame conv) (c :: s) (parseLineFrame conv s).
Proof.
  intros v n. unfold parseLineFrame, decodeLineFrame. rewrite decodeLine_zdrop1.
  destruct (decodeLine s) as [[line m]|e] eqn:E; [|done].
  apply decodeLine_ok_inv in E as (Hl & -> & r & ->). cbn [result_bind].
  destruct (conv line) as [w|e] eqn:Ec; [|done]. cbn [result_bind]. intros [= <- <-] Hn.
  rewrite readLineBytes_crlf, header_zdrop, Ec by (done || lia). done.
Qed.

Lemma ReadFull_app payload rest : ReadFull (zlen payload) (payload ++ rest) = (Ok payload, rest).
Proof.
  unfold ReadFull. rewrite zlen_app. pose proof (zlen_nonneg rest).
  rewrite (proj2 (Z.leb_le _ _)) by lia. by rewrite ztake_app_exact, zdrop_app_exact.
Qed.

(** A payload followed by its terminator. *)
Lemma bulk_split len (r : bytes) :
  0 ≤ len ≤ zlen r - 2 → r !! Z.to_nat len = Some CR → r !! Z.to_nat (len + 1) = Some LF →
  ∃ rest, r = ztake len r ++ crlf ++ rest.
Proof.
  intros Hlen H1 H2. exists (zdrop (len + 2) r). unfold ztake, zdrop, crlf.
  rewrite <- (take_drop (Z.to_nat len) r) at 1. f_equal.
  rewrite (drop_S _ _ _ H1). replace (Z.to_nat (len + 1)) with (S (Z.to_nat len)) in H2 by lia.
  rewrite (drop_S _ _ _ H2). simpl. do 3 f_equal. lia.
Qed.

Lemma parseBulkString_accepts c s :
  accepts decodeBulkString (c :: s) (parseBulkString s).
Proof.
  intros v n. unfold decodeBulkString, parseBulkString. rewrite decodeLine_zdrop1.
  destruct (decodeLine s) as [[line m]|e] eqn:E; [|done].
  apply decodeLine_ok_inv in E as (Hl & -> & r & ->). cbn [result_bind].
  destruct (parseDecimalInt line) as [len|e] eqn:Ep; [|done].
  pose proof (zlen_nonneg line). destruct (len =? -1) eqn:E1; bool_to_prop.
  { intros [= <- <-] Hn. rewrite readLineBytes_crlf, Ep, header_zdrop by (done || lia).
    by rewrite (proj2 (Z.eqb_eq _ _)). }
  case_match eqn:E2; bool_to_prop; [done|]. cbn zeta. rewrite header_zdrop.
  case_match eqn:E3; bool_to_prop; [done|]. case_match eqn:E4; [done|]. bool_to_prop.
  intros [= <- <-] Hn. unfold maxLineLength in Hn.
  rewrite readLineBytes_crlf, Ep by (done || unfold maxLineLength; lia).
  rewrite (proj2 (Z.eqb_neq _ _)), (proj2 (Z.ltb_ge len _)) by lia.
  rewrite (proj2 (Z.ltb_ge _ _)) by (unfold maxBulkStringLength; lia).
  destruct (bulk_split len r) as [rest Hr]; [lia|done|done|].
  assert (zlen (ztake len r) = len) as Hz by (apply zlen_ztake; lia).
  set (payload := ztake len r) in *. clearbody payload. subst r len.
  rewrite ReadFull_app. change (expectCRLF (crlf ++ rest)) with (Ok (E := protoError) tt, rest). cbv iota. f_equal.
  replace (_ + zlen payload + 2) with (1 + (zlen line + 2) + zlen (payload ++ crlf))
    by (rewrite zlen_app, zlen_crlf; lia).
  rewrite <- zdrop_zdrop by (try apply zlen_nonneg; lia).
  rewrite header_zdrop, app_assoc.
  by rewrite zdrop_app_exact.
Qed.

Definition parser_accepts (dec : bytes → result protoError (Value * Z))
    (prs : bytes → result protoError Value * bytes) : Prop :=
  ∀ s, accepts dec s (prs s).

Lemma parseElements_accepts dec prs (Hp : parser_accepts dec prs) (Hd : decoder_stable dec) buf :
  ∀ k fuel i consumed els v n,
  0 ≤ consumed ≤ zlen buf →
  decodeElements dec fuel i (i + Z.of_nat k) consumed buf els = Ok (v, n) → n ≤ maxLineLength →
  Z.of_nat k ≤ n - consumed ∧ parseElements prs k i els (zdrop consumed buf) = (Ok v, zdrop n buf).
Proof.
  induction k as [|k IH]; intros fuel i consumed els v n Hc; cbn [parseElements].
  { destruct fuel; cbn [decodeElements]; rewrite (proj2 (Z.leb_le _ _)) by lia;
      intros [= <- <-]; (split; [lia|done]). }
  destruct fuel as [|fuel]; cbn [decodeElements]; rewrite (proj2 (Z.leb_gt _ _)) by lia; [done|].
  destruct (dec (zdrop consumed buf)) as [[el m]|e] eqn:E; [|by repeat case_match].
  pose proof (Hd (zdrop consumed buf) []) as Hs. rewrite E in Hs. destruct Hs as [Hm _].
  rewrite zlen_zdrop in Hm by lia.
  replace (i + Z.of_nat (S k)) with (i + 1 + Z.of_nat k) by lia. intros Hn Hle.
  apply IH in Hn as [Hk Hn]; [|lia|done]. split; [lia|].
  rewrite (Hp _ _ _ E) by lia. rewrite zdrop_zdrop by lia. done.
Qed.

Lemma parseArray_accepts dec prs (Hp : parser_accepts dec prs) (Hd : decoder_stable dec) c depth s :
  accepts (λ b, decodeArray dec b depth) (c :: s) (parseArray prs depth s).
Proof.
  intros v n. unfold parseArray, decodeArray. case_match; [done|]. rewrite decodeLine_zdrop1.
  destruct (decodeLine s) as [[line m]|e] eqn:E; [|done].
  apply decodeLine_ok_inv in E as (Hl & -> & r & ->). cbn [result_bind].
  destruct (parseDecimalInt line) as [count|e] eqn:Ep; [|done]. cbn zeta.
  pose proof (zlen_nonneg line). pose proof (zlen_nonneg r).
  destruct (count =? -1) eqn:E1; bool_to_prop.
  { intros [= <- <-] Hn. rewrite readLineBytes_crlf, Ep, header_zdrop by (done || lia).
    by rewrite (proj2 (Z.eqb_eq _ _)). }
  case_match eqn:E2; bool_to_prop; [done|]. intros Hel Hn.
  replace count with (0 + Z.of_nat (Z.to_nat count)) in Hel at 1 by lia.
  apply (parseElements_accepts dec prs Hp Hd) in Hel as [Hk Hel];
    [|rewrite header_zlen; lia|done].
  rewrite header_zdrop in Hel. unfold maxLineLength in Hn.
  rewrite readLineBytes_crlf, Ep by (done || unfold maxLineLength; lia).
  rewrite (proj2 (Z.eqb_neq _ _)), (proj2 (Z.ltb_ge count _)) by lia.
  rewrite (proj2 (Z.ltb_ge _ _)) by (unfold maxArrayElements; lia). done.
Qed.

Lemma parse_accepts fuel : ∀ depth,
  129 ≤ depth + Z.of_nat fuel → depth ≤ 128 →
  parser_accepts (λ b, decode fuel b depth) (parse fuel depth).
Proof.
  induction fuel as [|fuel IH]; intros depth Hf Hd; [lia|].
  intros [|c s] v n; cbn [parse ReadByte decode]; [done|].
  repeat (case_decide; [by apply parseLineFrame_accepts|]).
  case_decide; [by apply parseBulkString_accepts|]. case_decide; [|done].
  destruct (decide (depth = 128)) as [->|]; [done|].
  intros Ha Hn. pose proof (IH (depth + 1) ltac:(lia) ltac:(lia)) as Hp.
  pose proof (decode_stable fuel (depth + 1) ltac:(lia) ltac:(lia)) as Hst.
  by apply (parseArray_accepts _ _ Hp Hst c depth s v n Ha).
Qed.

(** ** Properties *)

(** C39: the two networking paths agree.  Whatever frame the stream parser
    accepts, the buffer decoder accepts with the same value and leaves the same
    bytes unread; and every frame of at most [maxLineLength] bytes the decoder
    accepts, the stream parser accepts likewise. *)
Theorem Parse_agrees_Decode s v :
  (∀ rest, Parse s = (Ok v, rest) →
     ∃ n, Decode s = Ok (v, n) ∧ 0 < n ≤ zlen s ∧ rest = zdrop n s)
  ∧ (∀ n, Decode s = Ok (v, n) → n ≤ maxLineLength → Parse s = (Ok v, zdrop n s)).
Proof.
  split.
  - intros rest H. by apply (parse_accepted decodeFuel 0) in H.
  - intros n H Hn.
    exact (parse_accepts decodeFuel 0 ltac:(unfold decodeFuel; lia) ltac:(lia) s v n H Hn).
Qed.

End Parser.

Lemma Parse_agrees_Decode_witness :
  Parse ErrEOF (bs ":7" ++ crlf ++ bs "+") = (Ok (Integer 7), bs "+")
  ∧ ∃ n, Decode (bs ":7" ++ crlf ++ bs "+") = Ok (Integer 7, n)
         ∧ 0 < n ≤ zlen (bs ":7" ++ crlf ++ bs "+")
         ∧ bs "+" = zdrop n (bs ":7" ++ crlf ++ bs "+").
Proof.
  split.
  - exact (proj2 (Parse_agrees_Decode ErrEOF (bs ":7" ++ crlf ++ bs "+") (Integer 7)) 4 eq_refl
             ltac:(unfold maxLineLength; lia)).
  - exact (proj1 (Parse_agrees_Decode ErrEOF (bs ":7" ++ crlf ++ bs "+") (Integer 7))
             (bs "+") ltac:(vm_compute; reflexivity)).
Defined.
