(* ===== verification/ConnMachine.v ===== *)
(** * The connection state machine

    Models [internal/server/conn_machine.go]: the non-blocking machine the
    event loop drives for every client.  It buffers input, decodes requests
    ([Feed]), runs them ([ProcessNext], [ProcessPending]), buffers replies
    ([bufferResponses], [BufferEncoded]) and drains them ([Flush]).

    The command runner, the socket and the text of an error are parameters.
    [client.Disconnect] is observed through a call counter. *)

From S2P Require Import Prelude Strconv Resp RespDecode RespDecodeFacts.

Inductive ConnMachineState := ConnStateActive | ConnStateClosing | ConnStateClosed.

#[global] Instance ConnMachineState_eq_dec : EqDecision ConnMachineState.
Proof. solve_decision. Defined.

Definition defaultMaxReadBuffer : Z := 512 * 1024 * 1024.
Definition defaultMaxWriteBuffer : Z := 512 * 1024 * 1024.

(** Errors of the machine; [ErrExternal] stands for what a runner or a socket
    returns. *)
Inductive connError :=
  | ErrConnMachineClosed
  | ErrProtocol (e : protoError)
  | ErrWriteLimit (limit : Z)
  | ErrExternal (code : Z).

#[global] Instance connError_eq_dec : EqDecision connError.
Proof. solve_decision. Defined.

Inductive connEvent :=
  | EvRequest (request : Value)
  | EvProtoErr (protoErr : protoError).

Record ConnMachine := mkConnMachine {
  state : ConnMachineState;
  err : option connError;
  readBuf : bytes;
  resumeAt : Z;
  maxReadBuffer : Z;
  maxWriteBuffer : Z;
  pending : list connEvent;
  writeBuf : bytes;
  writeOff : Z;
  disconnects : nat
}.

Definition NewConnMachine : ConnMachine :=
  mkConnMachine ConnStateActive None [] 0 defaultMaxReadBuffer defaultMaxWriteBuffer [] [] 0 0.

Definition isRequest (event : connEvent) : bool :=
  match event with EvRequest _ => true | EvProtoErr _ => false end.

Definition PendingRequests (m : ConnMachine) : nat := length (List.filter isRequest (pending m)).

Definition PendingOutputBytes (m : ConnMachine) : Z := zlen (writeBuf m) - writeOff m.

Definition HasPendingOutput (m : ConnMachine) : bool := 0 <? PendingOutputBytes m.

(** ** Closing *)

Definition Close (m : ConnMachine) (e : option connError) : ConnMachine :=
  if decide (state m = ConnStateClosed) then m
  else mkConnMachine ConnStateClosed (match err m with None => e | Some e' => Some e' end)
         [] 0 (maxReadBuffer m) (maxWriteBuffer m) [] [] 0 (S (disconnects m)).

Definition enterProtocolError (m : ConnMachine) (e : protoError) : ConnMachine :=
  mkConnMachine ConnStateClosing (Some (ErrProtocol e)) [] 0
    (maxReadBuffer m) (maxWriteBuffer m) (pending m ++ [EvProtoErr e])
    (writeBuf m) (writeOff m) (disconnects m).

(** ** Input *)

(** How the decode loop of [Feed] ends: at an incomplete frame, with the byte
    count to wait for, or at a permanent error. *)
Inductive feedStop :=
  | FeedIncomplete (resumeAt : Z)
  | FeedError (e : protoError).

(** Each round consumes at least one byte, so the buffer length is fuel enough. *)
Fixpoint feedLoop (fuel : nat) (readBuf : bytes) (consumed : Z) (pending : list connEvent)
    : list connEvent * Z * feedStop :=
  match fuel with
  | O => (pending, consumed, FeedError ErrOutOfFuel)
  | S fuel' =>
      match Decode (zdrop consumed readBuf) with
      | Err e =>
          if isIncomplete e then
            (pending, consumed, FeedIncomplete (default 0 (asIncompleteError e)))
          else (pending, consumed, FeedError e)
      | Ok (value, n) => feedLoop fuel' readBuf (consumed + n) (pending ++ [EvRequest value])
      end
  end.

Definition withInput (m : ConnMachine) (buf : bytes) (resume : Z) (evs : list connEvent) : ConnMachine :=
  mkConnMachine (state m) (err m) buf resume (maxReadBuffer m) (maxWriteBuffer m) evs
    (writeBuf m) (writeOff m) (disconnects m).

Definition Feed (m : ConnMachine) (data : bytes) : ConnMachine * option connError :=
  if decide (state m ≠ ConnStateActive) then (m, Some ErrConnMachineClosed)
  else
    let buf := readBuf m ++ data in
    if (0 <? resumeAt m) && (zlen buf <? resumeAt m) then
      (withInput m buf (resumeAt m) (pending m), None)
    else
      match feedLoop (S (length buf)) buf 0 (pending m) with
      | (evs, consumed, FeedError e) =>
          (enterProtocolError (withInput m buf (resumeAt m) evs) e, None)
      | (evs, consumed, FeedIncomplete resume) =>
          let m := withInput m (zdrop consumed buf) resume evs in
          if (maxReadBuffer m <? zlen (readBuf m)) || (maxReadBuffer m <? resumeAt m)
          then (enterProtocolError m (ErrFrameTooLarge (maxReadBuffer m)), None)
          else (m, None)
      end.

(** ** Output *)

Definition withOutput (m : ConnMachine) (buf : bytes) (off : Z) : ConnMachine :=
  mkConnMachine (state m) (err m) (readBuf m) (resumeAt m) (maxReadBuffer m) (maxWriteBuffer m)
    (pending m) buf off (disconnects m).

Definition compactWriteBuf (m : ConnMachine) : ConnMachine :=
  if (writeOff m =? 0) || (writeOff m <? zlen (writeBuf m) `div` 2) then m
  else withOutput m (zdrop (writeOff m) (writeBuf m)) 0.

Definition bufferResponses (m : ConnMachine) (values : list Value) : ConnMachine * option connError :=
  match values with
  | [] => (m, None)
  | _ =>
      let m := compactWriteBuf m in
      match AppendValues (writeBuf m) values with
      | (_, Some e) => (m, Some (ErrProtocol e))
      | (encoded, None) =>
          let m := withOutput m encoded (writeOff m) in
          if maxWriteBuffer m <? PendingOutputBytes m then (m, Some (ErrWriteLimit (maxWriteBuffer m)))
          else (m, None)
      end
  end.

Definition BufferEncoded (m : ConnMachine) (payload : bytes) : ConnMachine * option connError :=
  if decide (state m = ConnStateClosed) then (m, Some ErrConnMachineClosed)
  else if zlen payload =? 0 then (m, None)
  else if maxWriteBuffer m <? PendingOutputBytes m + zlen payload then
    (m, Some (ErrWriteLimit (maxWriteBuffer m)))
  else
    let m := compactWriteBuf m in
    (withOutput m (writeBuf m ++ payload) (writeOff m), None).

(** The socket answers [w.Write] with the number of bytes it took and an
    error; the second component of the result is what reached the socket. *)
Definition flushWrite (m : ConnMachine) (write : bytes → Z * option connError)
    : ConnMachine * bytes * option connError :=
  if writeOff m <? zlen (writeBuf m) then
    let chunk := zdrop (writeOff m) (writeBuf m) in
    let '(n, e) := write chunk in
    let off := writeOff m + n in
    (if zlen (writeBuf m) <=? off then withOutput m [] 0 else withOutput m (writeBuf m) off,
     ztake n chunk, e)
  else (m, [], None).

Definition Flush (m : ConnMachine) (write : bytes → Z * option connError)
    : ConnMachine * bytes * option connError :=
  if decide (state m = ConnStateClosed) then (m, [], Some ErrConnMachineClosed)
  else
    let '(m, sent, e) := flushWrite m write in
    match e with
    | Some e => (m, sent, Some e)
    | None =>
        if bool_decide (state m = ConnStateClosing) && negb (HasPendingOutput m)
           && bool_decide (pending m = [])
        then (Close m None, sent, None)
        else (m, sent, None)
    end.

(** ** Execution *)

Section Runner.

(** The text [err.Error()] gives for a protocol error. *)
Variable errorText : protoError → bytes.

(** The command runner with the state it acts on. *)
Context {RS : Type}.
Variable run : RS → Value → RS * result connError (list Value).

Definition popPending (m : ConnMachine) (rest : list connEvent) : ConnMachine :=
  withInput m (readBuf m) (resumeAt m) rest.

Definition finishResponses (m : ConnMachine) (values : list Value) : ConnMachine * result connError bool :=
  match bufferResponses m values with
  | (m, Some e) => (Close m (Some e), Err e)
  | (m, None) => (m, Ok (bool_decide (pending m ≠ [])))
  end.

Definition ProcessNext (m : ConnMachine) (rs : RS) : ConnMachine * RS * result connError bool :=
  if decide (state m = ConnStateClosed) then (m, rs, Err ErrConnMachineClosed)
  else
    match pending m with
    | [] => (m, rs, Ok false)
    | event :: rest =>
        let m := popPending m rest in
        match event with
        | EvProtoErr e =>
            let '(m, r) := finishResponses m [ErrorValue (bs "ERR " ++ errorText e)] in (m, rs, r)
        | EvRequest request =>
            match run rs request with
            | (rs, Err e) => (Close m (Some e), rs, Err e)
            | (rs, Ok responses) => let '(m, r) := finishResponses m responses in (m, rs, r)
            end
        end
    end.

(** The loop of [ProcessPending]: one event leaves the queue per round. *)
Fixpoint processLoop (fuel : nat) (m : ConnMachine) (rs : RS) : ConnMachine * RS * option connError :=
  match fuel with
  | O => (m, rs, Some (ErrProtocol ErrOutOfFuel))
  | S fuel' =>
      match ProcessNext m rs with
      | (m, rs, Err e) => (m, rs, Some e)
      | (m, rs, Ok true) => processLoop fuel' m rs
      | (m, rs, Ok false) => (m, rs, None)
      end
  end.

Definition ProcessPending (m : ConnMachine) (rs : RS) : ConnMachine * RS * option connError :=
  if decide (state m = ConnStateClosed) then (m, rs, Some ErrConnMachineClosed)
  else processLoop (S (length (pending m))) m rs.

End Runner.
