(* ===== verification/ConnMachineFacts.v ===== *)
(** * Properties of the connection state machine

    [Splits] is the reference reading of a byte stream: its frames, the unread
    rest and why reading stopped.  Against it: [Feed] does not depend on how
    the stream is cut into chunks, and along every run of the machine the
    requests are executed in stream order and the replies leave in that order,
    whatever partial writes and asynchronous pushes are interleaved. *)

From S2P Require Import Prelude Strconv Resp RespDecode RespDecodeFacts ConnMachine.

(** ** The frames of a stream *)

Inductive Splits : bytes → list Value → bytes → protoError → Prop :=
  | Splits_stop s e : Decode s = Err e → Splits s [] s e
  | Splits_frame s v n vs r e :
      Decode s = Ok (v, n) → Splits (zdrop n s) vs r e → Splits s (v :: vs) r e.

Lemma Decode_ok_len s v n : Decode s = Ok (v, n) → 0 < n ≤ zlen s.
Proof. intros E. pose proof (Decode_stable s []) as H. rewrite E in H. apply H. Qed.

Lemma Decode_ok_app s ext v n : Decode s = Ok (v, n) → Decode (s ++ ext) = Ok (v, n).
Proof. intros E. pose proof (Decode_stable s ext) as H. rewrite E in H. apply H. Qed.

Lemma Decode_perm_app s ext e :
  Decode s = Err e → isIncomplete e = false → Decode (s ++ ext) = Err e.
Proof. intros E Hi. pose proof (Decode_stable s ext) as H. rewrite E in H. by apply H. Qed.

Lemma Decode_need_app s ext need :
  Decode s = Err (IncompleteError need) → zlen (s ++ ext) < need →
  Decode (s ++ ext) = Err (IncompleteError need).
Proof.
  intros E Hlt. pose proof (Decode_stable s ext) as H. rewrite E in H.
  destruct H as (_ & _ & _ & H). by apply (H need).
Qed.

Lemma Decode_incomplete_shape s e :
  Decode s = Err e → isIncomplete e = true →
  e = ErrIncomplete ∨ ∃ need, 0 < need ∧ e = IncompleteError need.
Proof.
  intros E Hi. pose proof (Decode_stable s []) as H. rewrite E in H.
  destruct H as (_ & _ & H & _). by apply H.
Qed.

Lemma Splits_total s : ∃ vs r e, Splits s vs r e.
Proof.
  induction s as [s IH] using (induction_ltof1 _ (@length byte)). unfold ltof in IH.
  destruct (Decode s) as [[v n]|e] eqn:E; [|by exists [], s, e; constructor].
  pose proof (Decode_ok_len _ _ _ E) as Hn.
  destruct (IH (zdrop n s)) as (vs & r & e & H).
  { unfold zdrop, zlen in *. rewrite length_drop. lia. }
  exists (v :: vs), r, e. by econstructor.
Qed.

Lemma Splits_det s vs r e vs' r' e' :
  Splits s vs r e → Splits s vs' r' e' → vs = vs' ∧ r = r' ∧ e = e'.
Proof.
  intros H. revert vs' r' e'.
  induction H as [s e E|s v n vs r e E H IH]; intros vs1 r1 e1 H1; destruct H1; try congruence.
  - rewrite E in *. simplify_eq. done.
  - rewrite E in *. simplify_eq. edestruct IH as (-> & -> & ->); done.
Qed.

(** The rest is the tail of the stream where decoding stopped. *)
Lemma Splits_rest s vs r e :
  Splits s vs r e → zlen r ≤ zlen s ∧ r = zdrop (zlen s - zlen r) s ∧ Decode r = Err e.
Proof.
  induction 1 as [s e E|s v n vs r e E H (Hle & Hr & Hd)].
  - by rewrite Z.sub_diag.
  - apply Decode_ok_len in E. rewrite zlen_zdrop in Hle, Hr by lia.
    split_and!; [lia| |done]. rewrite Hr at 1. rewrite zdrop_zdrop by lia. f_equal. lia.
Qed.

Lemma Splits_app s vs r e ext vs' r' e' :
  Splits s vs r e → Splits (r ++ ext) vs' r' e' → Splits (s ++ ext) (vs ++ vs') r' e'.
Proof.
  induction 1 as [s e E|s v n vs r e E H IH]; intros H'; [done|].
  simpl. apply (Splits_frame _ _ n); [by apply Decode_ok_app|].
  apply Decode_ok_len in E. rewrite zdrop_app_le by lia. by apply IH.
Qed.

Lemma feedLoop_Splits s vs r e :
  Splits s vs r e → ∀ fuel buf consumed evs,
  0 ≤ consumed ≤ zlen buf → s = zdrop consumed buf → zlen s < Z.of_nat fuel →
  feedLoop fuel buf consumed evs =
    (evs ++ (EvRequest <$> vs), zlen buf - zlen r,
     if isIncomplete e then FeedIncomplete (default 0 (asIncompleteError e)) else FeedError e).
Proof.
  induction 1 as [s e E|s v n vs r e E H IH]; intros fuel buf consumed evs Hc -> Hf;
    (destruct fuel as [|fuel]; [pose proof (zlen_nonneg (zdrop consumed buf)); lia|]);
    cbn [feedLoop]; rewrite E.
  - rewrite app_nil_r, zlen_zdrop by lia. replace (zlen buf - _) with consumed by lia.
    by case_match.
  - apply Decode_ok_len in E. rewrite zlen_zdrop in E, Hf by lia.
    rewrite (IH fuel buf (consumed + n)).
    + simpl. by rewrite <- app_assoc.
    + lia.
    + by rewrite zdrop_zdrop by lia.
    + rewrite zdrop_zdrop, zlen_zdrop by lia. lia.
Qed.

(** ** Feeding *)

(** The resume point of an idle active machine is the hint of its buffer. *)
Record InputInv (m : ConnMachine) : Prop := {
  inv_resume : ∃ e, Decode (readBuf m) = Err e ∧ isIncomplete e = true
                    ∧ resumeAt m = default 0 (asIncompleteError e);
  inv_readBuf : zlen (readBuf m) ≤ maxReadBuffer m;
  inv_resumeAt : resumeAt m ≤ maxReadBuffer m
}.

(** [Feed] without the deferral: what the frames of buffer and data say. *)
Definition feedSpec (m : ConnMachine) (vs : list Value) (r : bytes) (e : protoError) : ConnMachine :=
  let evs := pending m ++ (EvRequest <$> vs) in
  if isIncomplete e then
    let resume := default 0 (asIncompleteError e) in
    if (maxReadBuffer m <? zlen r) || (maxReadBuffer m <? resume)
    then enterProtocolError (withInput m r resume evs) (ErrFrameTooLarge (maxReadBuffer m))
    else withInput m r resume evs
  else enterProtocolError (withInput m r 0 evs) e.

Lemma Feed_spec m data vs r e :
  state m = ConnStateActive → InputInv m → Splits (readBuf m ++ data) vs r e →
  Feed m data = (feedSpec m vs r e, None).
Proof.
  intros Hs [(e0 & Hd & Hi & Hr) Hb Ha] HS. unfold Feed. rewrite decide_False by (rewrite Hs; tauto).
  destruct ((0 <? resumeAt m) && _) eqn:E.
  - bool_to_prop. destruct (Decode_incomplete_shape _ _ Hd Hi) as [->|(need & Hpos & ->)];
      cbn in Hr; [lia|]. 
    assert (Decode (readBuf m ++ data) = Err (IncompleteError need)) as Hd'
      by (apply Decode_need_app; [done|lia]).
    destruct (Splits_det _ _ _ _ _ _ _ HS (Splits_stop _ _ Hd')) as (-> & -> & ->).
    unfold feedSpec. cbn. rewrite app_nil_r, Hr.
    by rewrite (proj2 (orb_false_iff _ _)) by (rewrite !Z.ltb_ge; lia).
  - destruct (Splits_rest _ _ _ _ HS) as (Hle & Hrest & _).
    rewrite (feedLoop_Splits _ _ _ _ HS) by (try done; unfold zlen; lia).
    unfold feedSpec. destruct (isIncomplete e); [|done].
    cbn zeta. rewrite <- Hrest. cbn. by case_match.
Qed.

Lemma feedSpec_inv m vs r e :
  Decode r = Err e → state m = ConnStateActive → state (feedSpec m vs r e) = ConnStateActive →
  isIncomplete e = true ∧ InputInv (feedSpec m vs r e)
  ∧ feedSpec m vs r e
    = withInput m r (default 0 (asIncompleteError e)) (pending m ++ (EvRequest <$> vs)).
Proof.
  intros Hd Hs. unfold feedSpec. destruct (isIncomplete e) eqn:Ei; [|done]. cbn zeta.
  case_match eqn:E; [done|]. intros _. bool_to_prop. split_and!; [done| |done].
  split; [by exists e | done | done].
Qed.

Lemma Feed_keeps_inv m data m' :
  state m = ConnStateActive → InputInv m → Feed m data = (m', None) →
  state m' = ConnStateActive → InputInv m'.
Proof.
  intros Hs Hi Hf Hs'. destruct (Splits_total (readBuf m ++ data)) as (vs & r & e & HS).
  rewrite (Feed_spec _ _ _ _ _ Hs Hi HS) in Hf. injection Hf as <-.
  apply Splits_rest in HS as (_ & _ & Hd). by apply feedSpec_inv.
Qed.

Lemma InputInv_New : InputInv NewConnMachine.
Proof. split; [by exists ErrIncomplete|done|done]. Qed.

Lemma feedSpec_app m vs1 r1 e1 vs2 r2 e2 :
  feedSpec (withInput m r1 (default 0 (asIncompleteError e1)) (pending m ++ (EvRequest <$> vs1))) vs2 r2 e2
  = feedSpec m (vs1 ++ vs2) r2 e2.
Proof. unfold feedSpec. simpl. by rewrite fmap_app, app_assoc. Qed.

Lemma Feed_split m d1 d2 m1 :
  state m = ConnStateActive → InputInv m → Feed m d1 = (m1, None) → state m1 = ConnStateActive →
  Feed m (d1 ++ d2) = Feed m1 d2.
Proof.
  intros Hs Hi Hf Hs1. pose proof (Feed_keeps_inv _ _ _ Hs Hi Hf Hs1) as Hi1.
  destruct (Splits_total (readBuf m ++ d1)) as (vs1 & r1 & e1 & HS1).
  rewrite (Feed_spec _ _ _ _ _ Hs Hi HS1) in Hf. injection Hf as <-.
  pose proof (Splits_rest _ _ _ _ HS1) as (_ & _ & Hd).
  destruct (feedSpec_inv _ _ _ _ Hd Hs Hs1) as (Hinc & _ & Heq). rewrite Heq in *.
  destruct (Splits_total (r1 ++ d2)) as (vs2 & r2 & e2 & HS2).
  rewrite (Feed_spec _ _ vs2 r2 e2 Hs1 Hi1) by done.
  rewrite (Feed_spec m (d1 ++ d2) (vs1 ++ vs2) r2 e2 Hs Hi), feedSpec_app; [done|].
  rewrite app_assoc. by eapply Splits_app.
Qed.

(** Feeding chunk after chunk, as the event loop does on readable events. *)
Definition feedChunks (m : ConnMachine) (chunks : list bytes) : ConnMachine :=
  foldl (λ m chunk, (Feed m chunk).1) m chunks.

Lemma Feed_no_error m d : state m = ConnStateActive → InputInv m → (Feed m d).2 = None.
Proof.
  intros Hs Hi. destruct (Splits_total (readBuf m ++ d)) as (vs & r & e & HS).
  by rewrite (Feed_spec _ _ _ _ _ Hs Hi HS).
Qed.

Lemma feedChunks_inactive m chunks : state m ≠ ConnStateActive → feedChunks m chunks = m.
Proof.
  intros Hs. induction chunks as [|d chunks IH]; [done|]. cbn [feedChunks foldl].
  unfold Feed at 2. by rewrite decide_True.
Qed.

Lemma feedChunks_join m chunks d :
  state m = ConnStateActive → InputInv m →
  state (feedChunks m (d :: chunks)) = ConnStateActive →
  feedChunks m (d :: chunks) = (Feed m (concat (d :: chunks))).1.
Proof.
  revert m d. induction chunks as [|d1 chunks IH]; intros m d Hs Hi Hfin; cbn [concat].
  { by rewrite app_nil_r. }
  change (feedChunks m (d :: d1 :: chunks)) with (feedChunks (Feed m d).1 (d1 :: chunks)) in *.
  pose proof (Feed_no_error m d Hs Hi) as Hn.
  destruct (Feed m d) as [m1 eo] eqn:Hf. cbn [fst snd] in *. subst eo.
  destruct (decide (state m1 = ConnStateActive)) as [Hs1|Hs1].
  - pose proof (Feed_keeps_inv _ _ _ Hs Hi Hf Hs1) as Hi1.
    by rewrite (IH m1 d1 Hs1 Hi1 Hfin), (Feed_split m d _ m1).
  - rewrite (feedChunks_inactive m1 (d1 :: chunks) Hs1) in Hfin. done.
Qed.

(** ** Output *)

Definition pendingOutput (m : ConnMachine) : bytes := zdrop (writeOff m) (writeBuf m).

Definition OutputInv (m : ConnMachine) : Prop := 0 ≤ writeOff m ≤ zlen (writeBuf m).

Lemma pendingOutput_len m : OutputInv m → zlen (pendingOutput m) = PendingOutputBytes m.
Proof. intros H. by apply zlen_zdrop. Qed.

Lemma compactWriteBuf_spec m :
  OutputInv m →
  OutputInv (compactWriteBuf m) ∧ pendingOutput (compactWriteBuf m) = pendingOutput m
  ∧ ∃ buf off, compactWriteBuf m = withOutput m buf off.
Proof.
  intros H. unfold compactWriteBuf. case_match.
  - split_and!; [done|done|]. exists (writeBuf m), (writeOff m). by destruct m.
  - split_and!; [|done|eauto]. unfold OutputInv. simpl. pose proof (zlen_nonneg (zdrop (writeOff m) (writeBuf m))). lia.
Qed.

Lemma appendValuesFrom_ok values : ∀ original dst b,
  appendValuesFrom original dst values = (b, None) →
  b = dst ++ concat (wireBytes <$> values).
Proof.
  induction values as [|v vs IH]; intros original dst b; cbn [appendValuesFrom].
  { intros [= <-]. by rewrite app_nil_r. }
  destruct (appendEncodedValue dst v) as [d|e] eqn:E; [|done]. intros H.
  apply IH in H as ->. pose proof (appendEncodedValue_noNil _ _ _ E) as Hn.
  rewrite appendEncodedValue_ok in E by done. injection E as <-.
  cbn [fmap list_fmap concat]. by rewrite <- app_assoc.
Qed.

Lemma bufferResponses_shape m values m' e :
  bufferResponses m values = (m', e) → ∃ buf off, m' = withOutput m buf off.
Proof.
  assert (∃ buf off, compactWriteBuf m = withOutput m buf off) as (buf & off & Hc).
  { unfold compactWriteBuf. case_match; [|by eauto]. exists (writeBuf m), (writeOff m). by destruct m. }
  unfold bufferResponses. rewrite Hc. repeat case_match; intros; simplify_eq; eauto.
  exists (writeBuf m'), (writeOff m'). by destruct m'.
Qed.

(** What [bufferResponses] leaves of the machine besides the write buffer. *)
Lemma bufferResponses_ok m values m' :
  OutputInv m → PendingOutputBytes m ≤ maxWriteBuffer m → bufferResponses m values = (m', None) →
  pendingOutput m' = pendingOutput m ++ concat (wireBytes <$> values)
  ∧ OutputInv m' ∧ PendingOutputBytes m' ≤ maxWriteBuffer m'
  ∧ ∃ buf off, m' = withOutput m buf off.
Proof.
  intros Ho Hmax. unfold bufferResponses. destruct values as [|v vs].
  { intros [= <-]. rewrite app_nil_r. split_and!; [done..|].
    exists (writeBuf m), (writeOff m). by destruct m. }
  destruct (compactWriteBuf_spec m Ho) as (Hco & Hcp & buf & off & Hc).
  set (c := compactWriteBuf m) in *. clearbody c. cbn zeta.
  destruct (AppendValues (writeBuf c) (v :: vs)) as [b [e|]] eqn:E; [done|].
  case_match eqn:El; [done|]. intros [= <-]. bool_to_prop.
  apply appendValuesFrom_ok in E as ->. unfold OutputInv in *. split_and!.
  - rewrite <- Hcp. apply (zdrop_app_le (writeOff c)); lia.
  - simpl. lia.
  - cbn [withOutput writeBuf writeOff]. rewrite zlen_app. pose proof (zlen_nonneg (concat (wireBytes <$> v :: vs))). lia.
  - done.
  - subst c. eauto.
Qed.

Lemma BufferEncoded_ok m payload m' :
  OutputInv m → PendingOutputBytes m ≤ maxWriteBuffer m → BufferEncoded m payload = (m', None) →
  pendingOutput m' = pendingOutput m ++ payload
  ∧ OutputInv m' ∧ PendingOutputBytes m' ≤ maxWriteBuffer m'
  ∧ ∃ buf off, m' = withOutput m buf off.
Proof.
  intros Ho Hmax. unfold BufferEncoded. case_decide; [done|]. case_match eqn:E0; bool_to_prop.
  { intros [= <-]. destruct payload; [|done]. rewrite app_nil_r. split_and!; [done..|].
    exists (writeBuf m), (writeOff m). by destruct m. }
  case_match eqn:E1; bool_to_prop; [done|]. intros [= <-].
  destruct (compactWriteBuf_spec m Ho) as (Hco & Hcp & buf & off & Hc).
  pose proof (pendingOutput_len m Ho) as Hl. pose proof (pendingOutput_len _ Hco) as Hl'.
  rewrite Hcp in Hl'. set (c := compactWriteBuf m) in *. clearbody c.
  unfold OutputInv, PendingOutputBytes in *. split_and!.
  - rewrite <- Hcp. apply (zdrop_app_le (writeOff c)); lia.
  - simpl. lia.
  - simpl. rewrite zlen_app. pose proof (zlen_nonneg payload). lia.
  - simpl. rewrite zlen_app. subst c. simpl in *. lia.
  - subst c. eauto.
Qed.

(** The [io.Writer] contract: a write takes between none and all of its bytes. *)
Definition writerOk (write : bytes → Z * option connError) : Prop :=
  ∀ p, 0 ≤ (write p).1 ≤ zlen p.

Lemma flushWrite_ok m write :
  OutputInv m → writerOk write →
  ∃ buf off sent e, let m1 := withOutput m buf off in
    flushWrite m write = (m1, sent, e) ∧ pendingOutput m = sent ++ pendingOutput m1 ∧ OutputInv m1.
Proof.
  intros Ho Hw. unfold flushWrite, OutputInv in *. case_match eqn:El; bool_to_prop.
  - cbn zeta. specialize (Hw (zdrop (writeOff m) (writeBuf m))).
    destruct (write _) as [n e1]. simpl fst in Hw. rewrite zlen_zdrop in Hw by lia.
    case_match eqn:En; bool_to_prop.
    + exists [], 0, (pendingOutput m), e1. split_and!; [|by rewrite app_nil_r|done|done].
      f_equal. f_equal. unfold ztake. apply take_ge.
      unfold pendingOutput, zlen, zdrop in *. rewrite length_drop. lia.
    + exists (writeBuf m), (writeOff m + n), (ztake n (pendingOutput m)), e1.
      split_and!; [done| |simpl; lia|simpl; lia].
      unfold pendingOutput. simpl. rewrite <- zdrop_zdrop by lia. symmetry. apply take_drop.
  - exists (writeBuf m), (writeOff m), [], None. split_and!; [by destruct m|done|simpl;lia|simpl;lia].
Qed.

(** A flush moves a prefix of the pending output to the socket, and may then
    close a closing machine that has nothing left to do. *)
Lemma Flush_ok m write m' sent e :
  state m ≠ ConnStateClosed → OutputInv m → writerOk write → Flush m write = (m', sent, e) →
  ∃ buf off, let m1 := withOutput m buf off in
    pendingOutput m = sent ++ pendingOutput m1 ∧ OutputInv m1
    ∧ (m' = m1 ∨ m' = Close m1 None ∧ e = None ∧ state m = ConnStateClosing
                 ∧ pendingOutput m1 = [] ∧ pending m = []).
Proof.
  intros Hs Ho Hw. unfold Flush. rewrite decide_False by done.
  destruct (flushWrite_ok m write Ho Hw) as (buf & off & snt & e1 & -> & Hp & Ho1).
  cbn zeta. intros H. exists buf, off.
  destruct e1 as [e1|]; [simplify_eq; eauto|].
  case_match eqn:E; simplify_eq; [|by eauto]. split_and!; [done..|]. right.
  bool_to_prop. split_and!; try done.
  match goal with H : HasPendingOutput _ = false |- _ => unfold HasPendingOutput in H; bool_to_prop end.
  rewrite <- pendingOutput_len in * by done.
  destruct (pendingOutput (withOutput m buf off)); [done|]. rewrite zlen_cons in *.
  match goal with H : _ ≤ 0 |- _ => pose proof (zlen_nonneg l); lia end.
Qed.

(** ** Runs of the machine *)

Section Runs.
Variable errorText : protoError → bytes.
Context {RS : Type}.
Variable run : RS → Value → RS * result connError (list Value).

(** What one event answers. *)
Definition eventReply (rs : RS) (ev : connEvent) : RS * result connError (list Value) :=
  match ev with
  | EvProtoErr e => (rs, Ok [ErrorValue (bs "ERR " ++ errorText e)])
  | EvRequest request => run rs request
  end.

Lemma ProcessNext_event m rs ev rest :
  state m ≠ ConnStateClosed → pending m = ev :: rest →
  ProcessNext errorText run m rs =
    match eventReply rs ev with
    | (rs, Err e) => (Close (popPending m rest) (Some e), rs, Err e)
    | (rs, Ok values) => let '(m, r) := finishResponses (popPending m rest) values in (m, rs, r)
    end.
Proof.
  intros Hs Hp. unfold ProcessNext. rewrite decide_False by done. rewrite Hp. by destruct ev.
Qed.

(** One call of the driving loop.  [OpFlush n e]: the socket takes at most [n]
    bytes and answers [e]. *)
Inductive op :=
  | OpFeed (data : bytes)
  | OpNext
  | OpFlush (n : Z) (e : option connError)
  | OpPush (payload : bytes)
  | OpClose (e : option connError).

Inductive chunk := Reply (b : bytes) | Push (b : bytes).

Definition chunkBytes (c : chunk) : bytes := match c with Reply b | Push b => b end.
Definition isReply (c : chunk) : option bytes := match c with Reply b => Some b | Push _ => None end.

(** The machine with what was observed at its boundary: bytes accepted by
    [Feed], events executed, chunks buffered and bytes taken by the socket. *)
Record world := mkWorld {
  wm : ConnMachine;
  wrs : RS;
  fed : bytes;
  executed : list connEvent;
  log : list chunk;
  sent : bytes
}.

Definition socket (n : Z) (e : option connError) (p : bytes) : Z * option connError :=
  (Z.max 0 (Z.min n (zlen p)), e).

Definition execNext (w : world) : world :=
  match ProcessNext errorText run (wm w) (wrs w), pending (wm w) with
  | (m, rs, Ok _), ev :: _ =>
      match eventReply (wrs w) ev with
      | (_, Ok values) =>
          mkWorld m rs (fed w) (executed w ++ [ev]) (log w ++ [Reply (concat (wireBytes <$> values))]) (sent w)
      | (_, Err _) => mkWorld m rs (fed w) (executed w) (log w) (sent w)
      end
  | (m, rs, _), _ => mkWorld m rs (fed w) (executed w) (log w) (sent w)
  end.

Definition exec (w : world) (o : op) : world :=
  match o with
  | OpFeed data =>
      match Feed (wm w) data with
      | (m, None) => mkWorld m (wrs w) (fed w ++ data) (executed w) (log w) (sent w)
      | (m, Some _) => mkWorld m (wrs w) (fed w) (executed w) (log w) (sent w)
      end
  | OpNext => execNext w
  | OpFlush n e =>
      let '(m, s, _) := Flush (wm w) (socket n e) in
      mkWorld m (wrs w) (fed w) (executed w) (log w) (sent w ++ s)
  | OpPush payload =>
      match BufferEncoded (wm w) payload with
      | (m, None) => mkWorld m (wrs w) (fed w) (executed w) (log w ++ [Push payload]) (sent w)
      | (m, Some _) => mkWorld m (wrs w) (fed w) (executed w) (log w) (sent w)
      end
  | OpClose e => mkWorld (Close (wm w) e) (wrs w) (fed w) (executed w) (log w) (sent w)
  end.

Definition initial (rs : RS) : world := mkWorld NewConnMachine rs [] [] [] [].

Definition runOps (rs : RS) (ops : list op) : world := foldl exec (initial rs) ops.

(** The replies of a sequence of events executed one after the other. *)
Inductive Replies : RS → list connEvent → RS → list bytes → Prop :=
  | Replies_nil rs : Replies rs [] rs []
  | Replies_snoc rs0 evs rs bss ev rs' values :
      Replies rs0 evs rs bss → eventReply rs ev = (rs', Ok values) →
      Replies rs0 (evs ++ [ev]) rs' (bss ++ [concat (wireBytes <$> values)]).

(** The events a stream stands for: its frames, then the error that ended it,
    if it was not just incomplete. *)
Definition StreamEvents (limit : Z) (s : bytes) (evs : list connEvent) : Prop :=
  ∃ vs r e, Splits s vs r e ∧
    ((isIncomplete e = true ∧ evs = EvRequest <$> vs)
     ∨ (isIncomplete e = false ∧ evs = (EvRequest <$> vs) ++ [EvProtoErr e])
     ∨ (isIncomplete e = true ∧ evs = (EvRequest <$> vs) ++ [EvProtoErr (ErrFrameTooLarge limit)])).
(** The invariant of a machine: buffers within their caps, the read side at a
    resume point while active, and the client detached exactly on close. *)
Record MachineInv (m : ConnMachine) : Prop := {
  mi_input : state m = ConnStateActive → InputInv m;
  mi_output : OutputInv m;
  mi_cap : PendingOutputBytes m ≤ maxWriteBuffer m;
  mi_limits : maxReadBuffer m = defaultMaxReadBuffer ∧ maxWriteBuffer m = defaultMaxWriteBuffer;
  mi_closing : state m = ConnStateClosing → readBuf m = [] ∧ resumeAt m = 0 ∧ err m ≠ None;
  mi_closed : state m = ConnStateClosed → readBuf m = [] ∧ pending m = [] ∧ writeBuf m = [];
  mi_disconnect : disconnects m = if decide (state m = ConnStateClosed) then 1%nat else O
}.

(** The invariant of a run. *)
Record RunInv (rs0 : RS) (w : world) : Prop := {
  ri_machine : MachineInv (wm w);
  ri_out : ∃ tail, sent w ++ tail = concat (chunkBytes <$> log w)
                   ∧ (state (wm w) ≠ ConnStateClosed → tail = pendingOutput (wm w));
  ri_replies : ∃ rs, Replies rs0 (executed w) rs (omap isReply (log w))
                     ∧ (state (wm w) ≠ ConnStateClosed → rs = wrs w);
  ri_events : ∃ evs rest, StreamEvents defaultMaxReadBuffer (fed w) evs
                     ∧ executed w ++ rest = evs
                     ∧ (state (wm w) ≠ ConnStateClosed → rest = pending (wm w));
  ri_stream : state (wm w) = ConnStateActive →
              ∃ vs e, Splits (fed w) vs (readBuf (wm w)) e ∧ isIncomplete e = true
                      ∧ executed w ++ pending (wm w) = EvRequest <$> vs
}.

Lemma MachineInv_New : MachineInv NewConnMachine.
Proof. split; try done. intros _. apply InputInv_New. Qed.

Lemma Close_state m e : state (Close m e) = ConnStateClosed.
Proof. unfold Close. by case_decide. Qed.

(** Closing restores the invariant even when the output cap was just broken. *)
Lemma Close_withOutput_inv m buf off e :
  MachineInv m → state m ≠ ConnStateClosed → MachineInv (Close (withOutput m buf off) e).
Proof.
  intros [? ? ? Hl ? ? Hd] Hs. rewrite decide_False in Hd by done. unfold Close.
  rewrite decide_False by done. split; try done.
  - cbn. destruct Hl as [_ ->]. done.
  - cbn. by rewrite Hd.
Qed.

Lemma Close_inv m e : MachineInv m → MachineInv (Close m e).
Proof.
  intros Hm. unfold Close. case_decide as Hc; [done|]. destruct Hm as [? ? ? Hl ? ? Hd].
  rewrite decide_False in Hd by done.
  split; try done.
  - cbn. destruct Hl as [_ ->]. done.
  - cbn. by rewrite Hd.
Qed.

Lemma withOutput_inv m buf off :
  MachineInv m → state m ≠ ConnStateClosed → OutputInv (withOutput m buf off) →
  PendingOutputBytes (withOutput m buf off) ≤ maxWriteBuffer m → MachineInv (withOutput m buf off).
Proof.
  intros [Hi ? ? ? ? ? ?] Hs Ho Hc. split; simpl; try done. intros Ha. by destruct (Hi Ha); split.
Qed.

Lemma popPending_inv m rest :
  MachineInv m → state m ≠ ConnStateClosed → MachineInv (popPending m rest).
Proof.
  intros [Hi ? ? ? ? ? ?] Hs. split; simpl; try done. intros Ha. by destruct (Hi Ha); split.
Qed.

Lemma enterProtocolError_inv m buf resume evs e :
  MachineInv m → state m = ConnStateActive →
  MachineInv (enterProtocolError (withInput m buf resume evs) e).
Proof.
  intros [? Ho ? ? ? ? Hd] Hs. rewrite Hs in Hd. by split.
Qed.

Lemma feedSpec_machine m vs r e :
  MachineInv m → state m = ConnStateActive → Decode r = Err e → MachineInv (feedSpec m vs r e).
Proof.
  intros Hm Hs Hr. unfold feedSpec.
  destruct (isIncomplete e) eqn:Ei; [cbn zeta; case_match eqn:El|]; try by apply enterProtocolError_inv.
  destruct Hm as [? Ho ? ? ? ? Hd]. bool_to_prop. split; simpl; try done; [|congruence..].
  intros _. split; simpl; try done. by exists e.
Qed.

(** A machine step that appends [c] to the log and to the pending output. *)
Lemma out_append (snt : bytes) lg c tail :
  snt ++ tail = concat (chunkBytes <$> lg) →
  snt ++ (tail ++ chunkBytes c) = concat (chunkBytes <$> (lg ++ [c])).
Proof.
  intros H. by rewrite fmap_app, concat_app, <- H, <- app_assoc; simpl; rewrite app_nil_r.
Qed.

Lemma exec_feed_inv rs0 w data : RunInv rs0 w → RunInv rs0 (exec w (OpFeed data)).
Proof.
  intros [Hm Ho Hr He Hst]. simpl. destruct (decide (state (wm w) = ConnStateActive)) as [Hs|Hs].
  2: { unfold Feed. rewrite decide_True by done. by split. }
  pose proof (mi_input _ Hm Hs) as Hi. destruct (Hst Hs) as (vs0 & e0 & HS0 & Hi0 & Hev).
  destruct (Splits_total (readBuf (wm w) ++ data)) as (vs & r & e & HS).
  rewrite (Feed_spec _ _ _ _ _ Hs Hi HS).
  destruct (Splits_rest _ _ _ _ HS) as (_ & _ & Hd).
  pose proof (feedSpec_machine _ vs _ _ Hm Hs Hd) as Hm'.
  pose proof (Splits_app _ _ _ _ _ _ _ _ HS0 HS) as HS'.
  destruct (mi_limits _ Hm) as [Hlim _]. rewrite Hs in *.
  assert (pendingOutput (feedSpec (wm w) vs r e) = pendingOutput (wm w)
          ∧ state (feedSpec (wm w) vs r e) ≠ ConnStateClosed) as [Hpo Hns].
  { unfold feedSpec. cbn zeta. repeat case_match; simpl; by rewrite ?Hs. }
  split; simpl; [done| | | |].
  - destruct Ho as (tail & ? & ?). exists tail. by rewrite Hpo; eauto.
  - destruct Hr as (rs & ? & ?). eauto.
  - exists (executed w ++ pending (feedSpec (wm w) vs r e)), (pending (feedSpec (wm w) vs r e)).
    split_and!; [|done|done]. exists (vs0 ++ vs), r, e. split; [done|].
    unfold feedSpec. rewrite fmap_app, <- Hev, <- Hlim, <- !app_assoc. cbn zeta.
    destruct (isIncomplete e); [case_match|]; simpl; rewrite <- ?app_assoc; eauto.
  - intros Ha. destruct (feedSpec_inv _ _ _ _ Hd Hs Ha) as (Hinc & _ & ->). simpl.
    exists (vs0 ++ vs), e. split_and!; [done..|]. by rewrite fmap_app, <- Hev, app_assoc.
Qed.
Lemma close_run_inv rs0 w m rs :
  RunInv rs0 w → MachineInv m → state m = ConnStateClosed →
  RunInv rs0 (mkWorld m rs (fed w) (executed w) (log w) (sent w)).
Proof.
  intros [_ (tail & ? & _) (rs' & ? & _) (evs & rest & ? & ? & _) _] Hm Hs.
  split; simpl; [done| | | |congruence].
  - exists tail. split; [done|congruence].
  - exists rs'. split; [done|congruence].
  - exists evs, rest. split_and!; [done|done|congruence].
Qed.

Lemma same_run_inv rs0 w : RunInv rs0 w →
  RunInv rs0 (mkWorld (wm w) (wrs w) (fed w) (executed w) (log w) (sent w)).
Proof. by destruct w. Qed.

(** A step that only changes the write buffer, moving [snt] to the socket and
    buffering the pushes [new]. *)
Lemma output_run_inv rs0 w buf off snt new :
  RunInv rs0 w → state (wm w) ≠ ConnStateClosed → omap isReply new = [] →
  MachineInv (withOutput (wm w) buf off) →
  pendingOutput (wm w) ++ concat (chunkBytes <$> new) = snt ++ pendingOutput (withOutput (wm w) buf off) →
  RunInv rs0 (mkWorld (withOutput (wm w) buf off) (wrs w) (fed w) (executed w) (log w ++ new) (sent w ++ snt)).
Proof.
  intros [_ (tail & Ht & Htp) Hr He Hst] Hs Hnew Hm Hp. split; simpl; try done.
  - exists (pendingOutput (withOutput (wm w) buf off)). split; [|done].
    rewrite <- app_assoc, <- Hp, app_assoc, fmap_app, concat_app, <- Ht, Htp by done. done.
  - by rewrite omap_app, Hnew, app_nil_r.
Qed.

Lemma exec_flush_inv rs0 w n e : RunInv rs0 w → RunInv rs0 (exec w (OpFlush n e)).
Proof.
  intros Hw. simpl. destruct (Flush (wm w) (socket n e)) as [[m snt] e'] eqn:Hf.
  destruct (decide (state (wm w) = ConnStateClosed)) as [Hc|Hc].
  { unfold Flush in Hf. rewrite decide_True in Hf by done. simplify_eq.
    rewrite app_nil_r. by apply same_run_inv. }
  assert (writerOk (socket n e)) as Hsock.
  { intros p. unfold socket. simpl. pose proof (zlen_nonneg p). lia. }
  pose proof (ri_machine _ _ Hw) as Hm.
  destruct (Flush_ok _ _ _ _ _ Hc (mi_output _ Hm) Hsock Hf) as (buf & off & Hp & Ho & Hcase).
  assert (MachineInv (withOutput (wm w) buf off)) as Hm1.
  { apply withOutput_inv; [done..|]. rewrite <- pendingOutput_len by done.
    pose proof (mi_cap _ Hm) as Hcap. rewrite <- pendingOutput_len in Hcap by apply Hm.
    rewrite Hp, zlen_app in Hcap. pose proof (zlen_nonneg snt). lia. }
  pose proof (output_run_inv rs0 w buf off snt [] Hw Hc eq_refl Hm1) as Hrun.
  simpl in Hrun. rewrite !app_nil_r in Hrun. specialize (Hrun Hp).
  destruct Hcase as [->|(-> & _)]; [done|].
  eapply (close_run_inv _ _ (Close (withOutput (wm w) buf off) None) (wrs w)) in Hrun; [done| |].
  - by apply Close_inv.
  - apply Close_state.
Qed.

Lemma exec_push_inv rs0 w payload : RunInv rs0 w → RunInv rs0 (exec w (OpPush payload)).
Proof.
  intros Hw. simpl. pose proof (ri_machine _ _ Hw) as Hm.
  destruct (BufferEncoded (wm w) payload) as [m [e|]] eqn:E.
  - assert (m = wm w) as ->; [|by apply same_run_inv].
    unfold BufferEncoded in E. repeat case_match; by simplify_eq.
  - assert (state (wm w) ≠ ConnStateClosed) as Hc.
    { unfold BufferEncoded in E. by case_decide. }
    destruct (BufferEncoded_ok _ _ _ (mi_output _ Hm) (mi_cap _ Hm) E)
      as (Hp & Ho & Hcap & buf & off & ->).
    pose proof (output_run_inv rs0 w buf off [] [Push payload] Hw Hc eq_refl) as Hrun.
    rewrite app_nil_r in Hrun. apply Hrun; [by apply withOutput_inv|].
    simpl. by rewrite app_nil_r, Hp.
Qed.

Lemma exec_next_inv rs0 w : RunInv rs0 w → RunInv rs0 (exec w OpNext).
Proof.
  intros Hw. simpl. unfold execNext. pose proof (ri_machine _ _ Hw) as Hm.
  destruct (decide (state (wm w) = ConnStateClosed)) as [Hc|Hc].
  { unfold ProcessNext. rewrite decide_True by done. by apply same_run_inv. }
  destruct (pending (wm w)) as [|ev rest] eqn:Hp.
  { unfold ProcessNext. rewrite decide_False, Hp by done. by apply same_run_inv. }
  rewrite (ProcessNext_event _ _ _ _ Hc Hp).
  pose proof (popPending_inv _ rest Hm Hc) as Hm1.
  destruct (eventReply (wrs w) ev) as [rs' [values|e]] eqn:Er.
  2: { apply close_run_inv; [done| |apply Close_state]. by apply Close_inv. }
  unfold finishResponses. destruct (bufferResponses _ values) as [m [e|]] eqn:Eb.
  { destruct (bufferResponses_shape _ _ _ _ Eb) as (buf & off & ->).
    apply close_run_inv; [done| |apply Close_state]. by apply Close_withOutput_inv. }
  destruct (bufferResponses_ok _ _ _ (mi_output _ Hm1) (mi_cap _ Hm1) Eb)
    as (Hpo & Ho & Hcap & buf & off & ->).
  destruct Hw as [_ (tail & Ht & Htp) (rs & Hr & Hrs) (evs & rest' & He & Hex & Hrest) Hst].
  split; simpl.
  - by apply withOutput_inv.
  - exists (pendingOutput (withOutput (popPending (wm w) rest) buf off)). split; [|done].
    rewrite Hpo. apply (out_append _ _ (Reply _)). rewrite <- Ht, Htp by done. done.
  - exists rs'. split; [|done]. rewrite omap_app. simpl. rewrite Hrs in Hr by done.
    by econstructor.
  - exists evs, rest. split_and!; [done| |done]. by rewrite <- app_assoc, <- Hex, Hrest, Hp.
  - intros Ha. destruct (Hst Ha) as (vs & e & HS & Hi & Hev). exists vs, e.
    split_and!; [done..|]. by rewrite <- app_assoc, <- Hev, Hp.
Qed.

Lemma RunInv_initial rs : RunInv rs (initial rs).
Proof.
  assert (Splits [] [] [] ErrIncomplete) as HS by by constructor.
  split; simpl; [apply MachineInv_New| | | |].
  - by exists [].
  - exists rs. split; [constructor|done].
  - exists [], []. split_and!; [|done|done]. exists [], [], ErrIncomplete. eauto.
  - intros _. by exists [], ErrIncomplete.
Qed.

Lemma runOps_inv rs ops : RunInv rs (runOps rs ops).
Proof.
  unfold runOps. induction ops as [|o ops IH] using rev_ind; [apply RunInv_initial|].
  rewrite foldl_snoc. destruct o as [data| |n e|payload|e].
  - by apply exec_feed_inv.
  - by apply exec_next_inv.
  - by apply exec_flush_inv.
  - by apply exec_push_inv.
  - apply close_run_inv; [done| |apply Close_state]. apply Close_inv, IH.
Qed.
(** [ProcessPending] never runs out of rounds: each takes one event. *)
Lemma ProcessNext_length m rs m' rs' b :
  ProcessNext errorText run m rs = (m', rs', Ok b) →
  (length (pending m') = length (pending m) - 1)%nat ∧ b = bool_decide (pending m' ≠ []).
Proof.
  unfold ProcessNext. case_decide; [done|]. destruct (pending m) as [|ev rest] eqn:Hp.
  { intros [= <- <- <-]. by rewrite Hp. }
  assert (∀ values m1 b1, finishResponses (popPending m rest) values = (m1, Ok b1) →
    pending m1 = rest ∧ b1 = bool_decide (pending m1 ≠ [])) as Hf.
  { intros values m1 b1. unfold finishResponses.
    destruct (bufferResponses _ _) as [m2 [e|]] eqn:E; [done|]. intros [= <- <-].
    apply bufferResponses_shape in E as (buf & off & ->). done. }
  intros Hn. assert (∃ values, finishResponses (popPending m rest) values = (m', Ok b)) as [values Hv].
  { destruct ev; repeat case_match; simplify_eq; eauto. }
  apply Hf in Hv as [-> ->]. simpl. split; [lia|done].
Qed.

Lemma processLoop_drains fuel : ∀ m rs m' rs' e,
  (length (pending m) < fuel)%nat → processLoop errorText run fuel m rs = (m', rs', e) →
  (e = None → pending m' = []) ∧
  (∀ m1 rs1 e1, processLoop errorText run (S fuel) m rs = (m1, rs1, e1) → (m1, rs1, e1) = (m', rs', e)).
Proof.
  induction fuel as [|fuel IH]; intros m rs m' rs' e Hf; [lia|].
  change (processLoop errorText run (S (S fuel)) m rs) with
    (match ProcessNext errorText run m rs with
     | (m, rs, Err e) => (m, rs, Some e)
     | (m, rs, Ok true) => processLoop errorText run (S fuel) m rs
     | (m, rs, Ok false) => (m, rs, None) end).
  cbn [processLoop]. destruct (ProcessNext errorText run m rs) as [[m1 rs1] [b|e1]] eqn:E.
  2: { intros [= <- <- <-]. split; [done|]. by intros ??? [= <- <- <-]. }
  apply ProcessNext_length in E as [Hl Hb]. destruct b.
  - symmetry in Hb. apply bool_decide_eq_true in Hb. intros H. apply IH in H; [done|].
    destruct (pending m1); [done|]. simpl in *. lia.
  - symmetry in Hb. apply bool_decide_eq_false, dec_stable in Hb. intros [= <- <- <-].
    split; [done|]. by intros ??? [= <- <- <-].
Qed.

(** ** Properties *)

(** C28: along every run of the driving loop, whatever way input is cut into
    chunks, output is taken in partial writes and pushes are interleaved: the
    bytes on the socket followed by the pending output are exactly the buffered
    chunks in order, the replies among them are those of the executed events in
    execution order, and executed and pending events together are the events of
    the input stream in stream order. *)
Theorem machine_pipeline_order rs ops :
  let w := runOps rs ops in
  (∃ tail, sent w ++ tail = concat (chunkBytes <$> log w)
           ∧ (state (wm w) ≠ ConnStateClosed → tail = pendingOutput (wm w)))
  ∧ (∃ rs', Replies rs (executed w) rs' (omap isReply (log w))
            ∧ (state (wm w) ≠ ConnStateClosed → rs' = wrs w))
  ∧ (∃ evs rest, StreamEvents defaultMaxReadBuffer (fed w) evs ∧ executed w ++ rest = evs
            ∧ (state (wm w) ≠ ConnStateClosed → rest = pending (wm w))).
Proof. cbn zeta. by destruct (runOps_inv rs ops). Qed.

(** C40: in every reachable state the buffers respect their limits and the
    offset its buffer, a closing machine holds no input, a closed one holds no
    buffers at all, and the client has been detached exactly once if and only
    if the machine is closed. *)
Theorem machine_safe rs ops : MachineInv (wm (runOps rs ops)).
Proof. apply runOps_inv. Qed.

(** The server after the given events, one after the other. *)
Definition runEvents (evs : list connEvent) (rs : RS) : RS := foldl (λ rs ev, (eventReply rs ev).1) rs evs.

Lemma finishResponses_pending m values m' b : finishResponses m values = (m', Ok b) → pending m' = pending m ∧ state m' = state m.
Proof.
  unfold finishResponses, bufferResponses. destruct values as [|v values]; [by intros [= <- _]|]. destruct (AppendValues _ _) as [encoded [e|]]; [done|].
  cbn zeta. destruct (_ <? _); [done|]. intros [= <- _]. unfold compactWriteBuf. by repeat case_match.
Qed.

(** One round executes the first event. *)
Lemma ProcessNext_runs m rs m1 rs1 r : ProcessNext errorText run m rs = (m1, rs1, r) → state m ≠ ConnStateClosed →
  match pending m with
  | [] => m1 = m ∧ rs1 = rs ∧ r = Ok false
  | ev :: rest => rs1 = (eventReply rs ev).1 ∧ (∀ b, r = Ok b → pending m1 = rest ∧ state m1 = state m ∧ b = bool_decide (rest ≠ []))
  end.
Proof.
  unfold ProcessNext. intros H Hs. rewrite decide_False in H by done. destruct (pending m) as [|ev rest] eqn:Ep; [by injection H as <- <- <-|].
  assert (∀ values m2 b, finishResponses (popPending m rest) values = (m2, Ok b) → pending m2 = rest ∧ state m2 = state m ∧ b = bool_decide (rest ≠ [])) as Hf.
  { intros values m2 b Hf. destruct (finishResponses_pending _ _ _ _ Hf) as [H1 H2]. split_and!; [done..|]. unfold finishResponses in Hf.
    destruct (bufferResponses (popPending m rest) values) as [m3 [e|]]; [done|]. injection Hf as <- <-. by rewrite H1. }
  destruct ev as [request|e]; cbn [eventReply].
  - destruct (run rs request) as [rs2 [responses|e]] eqn:Er; cbn [fst].
    + destruct (finishResponses _ _) as [m2 r2] eqn:E2. injection H as <- <- <-. split; [done|]. intros b ->. by eapply Hf.
    + injection H as <- <- <-. by split.
  - destruct (finishResponses _ _) as [m2 r2] eqn:E2. injection H as <- <- <-. split; [done|]. intros b ->. by eapply Hf.
Qed.

(** What a drain that returns [e] has done: the events it executed, those it left. *)
Definition Drained (m : ConnMachine) (rs : RS) (m' : ConnMachine) (rs' : RS) (e : option connError) : Prop :=
  ∃ done rest, pending m = done ++ rest ∧ rs' = runEvents done rs ∧
    match e with
    | None => rest = [] ∧ pending m' = []
    | Some err => ∃ first ev m1, done = first ++ [ev] ∧ pending m1 = ev :: rest ∧ state m1 = state m
        ∧ ProcessNext errorText run m1 (runEvents first rs) = (m', rs', Err err)
    end.

Lemma processLoop_runs fuel : ∀ m rs m' rs' e, (length (pending m) < fuel)%nat → state m ≠ ConnStateClosed →
  processLoop errorText run fuel m rs = (m', rs', e) → Drained m rs m' rs' e.
Proof.
  unfold Drained. induction fuel as [|fuel IH]; intros m rs m' rs' e Hf Hs; [lia|]. cbn [processLoop]. destruct (ProcessNext errorText run m rs) as [[m1 rs1] r] eqn:E.
  pose proof (ProcessNext_runs m rs m1 rs1 r E Hs) as HR. destruct (pending m) as [|ev rest] eqn:Ep.
  { destruct HR as (-> & -> & ->). intros [= <- <- <-]. exists [], []. by split_and!. }
  destruct HR as [-> Hok]. destruct r as [[|]|e1].
  - destruct (Hok true eq_refl) as (H1 & H2 & _). intros H.
    destruct (IH m1 (eventReply rs ev).1 m' rs' e) as (done_ & rest' & Hd & Hr & He); [rewrite H1; cbn [length] in Hf; lia|by rewrite H2|done|].
    exists (ev :: done_), rest'. rewrite <- H1, Hd. split_and!; [done|done|]. destruct e as [err|]; [|done].
    destruct He as (first & ev' & m2 & -> & P1 & P2 & P3). exists (ev :: first), ev', m2. rewrite <- H2. split_and!; done.
  - destruct (Hok false eq_refl) as (H1 & _ & Hb). symmetry in Hb. apply bool_decide_eq_false, dec_stable in Hb. intros [= <- <- <-]. exists [ev], []. rewrite Hb in *. split_and!; done.
  - intros [= <- <- <-]. exists [ev], rest. split_and!; [done|done|]. exists [], ev, m. split_and!; done.
Qed.

(** C15: [ProcessPending] always returns, and what it has done then is definite: it
    has executed a first part of the queue, every event of it once and in order.
    Without an error that is the whole queue, and nothing is left; an error is that
    of executing the last of these events.  A round per queued event is enough:
    with any number of further rounds the result is the same. *)
Theorem ProcessPending_drains m rs m' rs' e :
  state m ≠ ConnStateClosed → ProcessPending errorText run m rs = (m', rs', e) →
  Drained m rs m' rs' e ∧ ∀ extra, processLoop errorText run (S (length (pending m)) + extra) m rs = (m', rs', e).
Proof.
  intros Hc. unfold ProcessPending. rewrite decide_False by done. intros H. split; [eapply processLoop_runs; [|done|exact H]; lia|].
  intros extra. induction extra as [|extra IH]; [by rewrite Nat.add_0_r|].
  rewrite Nat.add_succ_r. destruct (processLoop _ _ (S (_ + _)) _ _) as [[m1 rs1] e1] eqn:E.
  by eapply (processLoop_drains (S (length (pending m)) + extra)); [|exact IH|exact E]; lia.
Qed.
End Runs.

(** C27: feeding a stream chunk by chunk leaves the machine in exactly the
    state that feeding it at once does, as long as no chunk ends the
    connection: deferring re-decoding until [resumeAt] is not observable. *)
Theorem Feed_chunk_invariant d chunks :
  state (feedChunks NewConnMachine (d :: chunks)) = ConnStateActive →
  feedChunks NewConnMachine (d :: chunks) = (Feed NewConnMachine (concat (d :: chunks))).1.
Proof. intros H. apply feedChunks_join; [done|apply InputInv_New|done]. Qed.

Lemma Feed_chunk_invariant_witness :
  feedChunks NewConnMachine [bs "*1" ++ crlf ++ bs "$4"; crlf ++ bs "PI"; bs "NG" ++ crlf ++ bs "*"]
  = (Feed NewConnMachine (bs "*1" ++ crlf ++ bs "$4" ++ crlf ++ bs "PING" ++ crlf ++ bs "*")).1.
Proof.
  exact (Feed_chunk_invariant (bs "*1" ++ crlf ++ bs "$4")
    [crlf ++ bs "PI"; bs "NG" ++ crlf ++ bs "*"] ltac:(vm_compute; reflexivity)).
Defined.

Lemma ProcessPending_drains_witness :
  let m := (Feed NewConnMachine (bs ":1" ++ crlf ++ bs ":2" ++ crlf)).1 in
  let run (rs : list Value) v := (rs ++ [v], Ok [v]) in
  let '(m', rs', e) := ProcessPending (λ _, []) run m [] in
  (e = None ∧ length (pending m) = 2%nat) ∧ Drained (λ _, []) run m [] m' rs' e.
Proof.
  intros m run. destruct (ProcessPending (λ _, []) run m []) as [[m' rs'] e] eqn:E. split; [split; [vm_compute in E; by injection E|vm_compute; reflexivity]|].
  exact (proj1 (ProcessPending_drains (λ _, []) run m [] m' rs' e ltac:(vm_compute; discriminate) E)).
Defined.
