(* ===== verification/GoLib.v ===== *)
(** * The pieces of the Go library the storage layer calls

    [sort.Search] and [slices.BinarySearch] as the bisection they are,
    [slices.Sort] on integers, [strings.Cut], [strings.ToUpper], [strings.Contains]
    of one byte, and the population count of [math/bits]. *)

From S2P Require Import Prelude Strconv.

(** ** Bisection *)

(** The loop [for i < j { h := (i+j)/2; if !f(h) { i = h+1 } else { j = h } }];
    each round shrinks [j - i], so its start value is fuel enough. *)
Fixpoint searchLoop (fuel : nat) (f : nat → bool) (i j : nat) : nat :=
  match fuel with
  | O => i
  | S fuel' =>
      if (i <? j)%nat then
        let h := ((i + j) / 2)%nat in
        if f h then searchLoop fuel' f i h else searchLoop fuel' f (S h) j
      else i
  end.

Definition Search (n : nat) (f : nat → bool) : nat := searchLoop n f 0 n.

(** [slices.BinarySearch] on an int64 slice. *)
Definition BinarySearch (x : list Z) (target : Z) : nat * bool :=
  let i := Search (length x) (λ h, negb (default 0 (x !! h) <? target)) in
  (i, (i <? length x)%nat && (default 0 (x !! i) =? target)).

Definition slicesSort (x : list Z) : list Z := merge_sort Z.le x.

(** ** Strings *)

(** [strings.Cut(s, sep)] for a one-byte separator. *)
Fixpoint Cut (sep : byte) (s : bytes) : option (bytes * bytes) :=
  match s with
  | [] => None
  | b :: s' =>
      if decide (b = sep) then Some ([], s')
      else match Cut sep s' with Some (p, q) => Some (b :: p, q) | None => None end
  end.

Definition containsByte (sep : byte) (s : bytes) : bool := bool_decide (sep ∈ s).

(** [strings.ToUpper] on the ASCII letters, which the option names compared
    with its result consist of. *)
Definition upperByte (b : byte) : byte :=
  if (97 <=? b2z b) && (b2z b <=? 122) then z2b (b2z b - 32) else b.
Definition ToUpper (s : bytes) : bytes := upperByte <$> s.

(** ** Lemmas *)

(** [f] is false below [k] and true from [k] on. *)
Definition threshold (f : nat → bool) (n k : nat) : Prop :=
  (k ≤ n)%nat ∧ (∀ h, (h < k)%nat → f h = false) ∧ (∀ h, (k ≤ h < n)%nat → f h = true).

Lemma searchLoop_threshold f n k fuel : ∀ i j,
  threshold f n k → (i ≤ k ≤ j)%nat → (j ≤ n)%nat → (j - i ≤ fuel)%nat → searchLoop fuel f i j = k.
Proof.
  induction fuel as [|fuel IH]; intros i j Ht Hk Hj Hf; cbn [searchLoop]; [lia|].
  destruct (Nat.ltb_spec i j); [|lia]. cbn zeta.
  pose proof (Nat.div_mod_eq (i + j) 2). pose proof (Nat.mod_upper_bound (i + j) 2 ltac:(lia)).
  set (h := ((i + j) / 2)%nat) in *. destruct Ht as (Hkn & Hlo & Hhi).
  destruct (decide (h < k)%nat).
  - rewrite Hlo by lia. apply IH; [done|lia..].
  - rewrite Hhi by lia. apply IH; [done|lia..].
Qed.

Lemma Search_threshold f n k : threshold f n k → Search n f = k.
Proof. intros Ht. apply (searchLoop_threshold f n); [done|destruct Ht; lia..]. Qed.

(** The cut point of a list that splits at a predicate. *)
Lemma threshold_app {A} (f : A → bool) (d : A) p q :
  Forall (λ x, f x = false) p → Forall (λ x, f x = true) q →
  threshold (λ h, f (default d ((p ++ q) !! h))) (length (p ++ q)) (length p).
Proof.
  rewrite !Forall_lookup. intros Hp Hq. rewrite length_app. split_and!; [lia| |].
  - intros h Hh. rewrite lookup_app_l by lia.
    destruct (lookup_lt_is_Some_2 p h Hh) as [x Hx]. rewrite Hx. by eapply Hp.
  - intros h Hh. rewrite lookup_app_r by lia.
    destruct (lookup_lt_is_Some_2 q (h - length p)) as [x Hx]; [lia|]. rewrite Hx. by eapply Hq.
Qed.

#[global] Instance Zle_total : Total Z.le.
Proof. intros x y. lia. Qed.
#[global] Instance Zle_trans : Transitive Z.le.
Proof. intros x y z. lia. Qed.

Lemma slicesSort_Sorted x : Sorted Z.le (slicesSort x).
Proof. apply Sorted_merge_sort, _. Qed.

Lemma slicesSort_Permutation x : slicesSort x ≡ₚ x.
Proof. apply merge_sort_Permutation. Qed.

(** A strictly sorted list splits at every value. *)
Lemma sorted_split (x : list Z) t :
  StronglySorted Z.lt x →
  ∃ p q, x = p ++ q ∧ Forall (λ y, y < t) p ∧ Forall (λ y, t ≤ y) q
         ∧ (t ∈ x ↔ ∃ q', q = t :: q').
Proof.
  induction 1 as [|a x Hs IH Hall].
  { exists [], []. split_and!; [done..|]. split; [set_solver|]. by intros [? ?]. }
  rewrite Forall_forall in Hall. destruct (decide (a < t)) as [Ha|Ha].
  - destruct IH as (p & q & -> & Hp & Hq & Hin). exists (a :: p), q.
    split_and!; [done|by constructor|done|]. rewrite <- Hin. set_solver by lia.
  - exists [], (a :: x). split_and!; [done|done| |].
    + constructor; [lia|]. rewrite Forall_forall. intros y Hy. specialize (Hall y Hy). lia.
    + rewrite elem_of_cons. split; [|naive_solver].
      intros [->|Hx]; [by eauto|]. specialize (Hall t Hx). lia.
Qed.

Lemma BinarySearch_split p q t :
  Forall (λ y, y < t) p → Forall (λ y, t ≤ y) q →
  BinarySearch (p ++ q) t = (length p, match q with y :: _ => y =? t | [] => false end).
Proof.
  intros Hp Hq. unfold BinarySearch.
  rewrite (Search_threshold _ _ (length p)).
  - rewrite length_app. f_equal. rewrite lookup_app_r, Nat.sub_diag by lia.
    destruct q as [|y q]; simpl; [rewrite (proj2 (Nat.ltb_ge _ _)) by lia; done|].
    by rewrite (proj2 (Nat.ltb_lt _ _)) by lia.
  - apply (threshold_app (λ y, negb (y <? t)) 0).
    + eapply Forall_impl; [exact Hp|]. intros y Hy. simpl in *. lia.
    + eapply Forall_impl; [exact Hq|]. intros y Hy. simpl in *. lia.
Qed.

Lemma Cut_Some sep s p q : Cut sep s = Some (p, q) ↔ s = p ++ sep :: q ∧ sep ∉ p.
Proof.
  revert p q. induction s as [|b s IH]; intros p q; simpl.
  { split; [done|]. intros [? _]. by destruct p. }
  case_decide as Hb.
  - subst b. split.
    + intros [= <- <-]. split; [done|set_solver].
    + intros [H Hn]. destruct p as [|c p]; simplify_eq/=; [done|set_solver].
  - destruct (Cut sep s) as [[p' q']|].
    + split.
      * intros [= <- <-]. destruct (IH p' q') as [H _]. destruct (H eq_refl) as [-> ?].
        split; [done|set_solver].
      * intros [H Hn]. destruct p as [|c p]; simplify_eq/=.
        destruct (IH p q) as [_ H']. specialize (H' ltac:(split; [done|set_solver])). by simplify_eq.
    + split; [done|]. intros [H Hn]. destruct p as [|c p]; simplify_eq/=.
      destruct (IH p q) as [_ H']. by specialize (H' ltac:(split; [done|set_solver])).
Qed.

Lemma Cut_None sep s : Cut sep s = None ↔ sep ∉ s.
Proof.
  induction s as [|b s IH]; simpl; [set_solver|]. case_decide; [set_solver|].
  destruct (Cut sep s) as [[? ?]|]; set_solver.
Qed.
