(* ===== verification/IntSet.v ===== *)
(** * Integer sets

    Models [internal/storage/intset.go]: the sorted int64 slice a set of
    canonical decimal members is stored in.  A method [m] of the Go type is
    [IntSet_m]; nil receivers are the [None] the callers test for.

    The refinement: a well-formed integer set stands for the set of its
    members' texts, and every operation does to the slice what the
    corresponding set operation does to that set. *)

From S2P Require Import Prelude Strconv GoLib.

Definition intSetMaxEntries : Z := 512.

Record IntSet := mkIntSet { values : list Z }.

(** Only the canonical rendering of an int64 is admitted: [007] is not. *)
Definition parseIntSetMember (member : bytes) : option Z :=
  match ParseInt member with
  | None => None
  | Some value => if decide (FormatInt value = member) then Some value else None
  end.

Fixpoint parseIntSetMembers (members : list bytes) : option (list Z) :=
  match members with
  | [] => Some []
  | member :: members' =>
      value ← parseIntSetMember member;
      vs ← parseIntSetMembers members';
      Some (value :: vs)
  end.

(** The loop of [compactUniqueInts]; [last] is [values[write-1]]. *)
Fixpoint compactLoop (last : Z) (rest : list Z) : list Z :=
  match rest with
  | [] => [last]
  | value :: rest' => if value =? last then compactLoop last rest' else last :: compactLoop value rest'
  end.

Definition compactUniqueInts (values : list Z) : list Z :=
  match values with [] => [] | v :: rest => compactLoop v rest end.

Definition newIntSet (members : list bytes) : option IntSet :=
  vs ← parseIntSetMembers members;
  Some (mkIntSet (compactUniqueInts (slicesSort vs))).

Definition cloneIntSet (src : option IntSet) : option IntSet := src.

Definition IntSet_len (s : IntSet) : Z := zlen (values s).

(** The merge loop of [addMany], with the number of members that were new. *)
Fixpoint mergeLoop (xs : list Z) : list Z → list Z * Z :=
  fix go (ys : list Z) : list Z * Z :=
    match xs, ys with
    | lhs :: xs', rhs :: ys' =>
        if lhs <? rhs then let '(m, a) := mergeLoop xs' ys in (lhs :: m, a)
        else if rhs <? lhs then let '(m, a) := go ys' in (rhs :: m, a + 1)
        else let '(m, a) := mergeLoop xs' ys' in (lhs :: m, a)
    | _, [] => (xs, 0)
    | [], _ => (ys, zlen ys)
    end.

Definition IntSet_addMany (s : IntSet) (members : list bytes) : option (IntSet * Z) :=
  vs ← parseIntSetMembers members;
  match vs with
  | [] => Some (s, 0)
  | _ =>
      let vs := compactUniqueInts (slicesSort vs) in
      match values s with
      | [] => Some (mkIntSet vs, zlen vs)
      | _ => let '(merged, added) := mergeLoop (values s) vs in Some (mkIntSet merged, added)
      end
  end.

Definition IntSet_contains (s : IntSet) (member : bytes) : bool :=
  match parseIntSetMember member with
  | None => false
  | Some value => (BinarySearch (values s) value).2
  end.

(** [slices.Delete(s.values, index, index+1)] is stdpp's [delete]. *)
Definition IntSet_remove (s : IntSet) (member : bytes) : IntSet * bool :=
  match parseIntSetMember member with
  | None => (s, false)
  | Some value =>
      let '(index, exists_) := BinarySearch (values s) value in
      if exists_ then (mkIntSet (delete index (values s)), true) else (s, false)
  end.

Definition IntSet_members (s : IntSet) : list bytes := FormatInt <$> values s.

Definition IntSet_generalSet (s : IntSet) : gset bytes := list_to_set (FormatInt <$> values s).

(** ** Invariant *)

Record IntSetWf (s : IntSet) : Prop := {
  wf_sorted : StronglySorted Z.lt (values s);
  wf_range : Forall (λ z, min_int64 ≤ z ≤ max_int64) (values s)
}.

(** ** Lemmas *)

Lemma parseIntSetMember_Some m v :
  parseIntSetMember m = Some v ↔ m = FormatInt v ∧ min_int64 ≤ v ≤ max_int64.
Proof.
  unfold parseIntSetMember. split.
  - destruct (ParseInt m) eqn:E; [|done]. case_decide; [|done]. intros [= <-].
    split; [done|]. by eapply ParseInt_range.
  - intros [-> Hr]. rewrite ParseInt_FormatInt by done. by rewrite decide_True.
Qed.

Lemma parseIntSetMembers_Some ms vs :
  parseIntSetMembers ms = Some vs → ms = FormatInt <$> vs ∧ Forall (λ z, min_int64 ≤ z ≤ max_int64) vs.
Proof.
  revert vs. induction ms as [|m ms IH]; simpl; intros vs; [intros [= <-]; done|].
  destruct (parseIntSetMember m) eqn:E; [|done]. simpl.
  destruct (parseIntSetMembers ms) eqn:E'; [|done]. intros [= <-].
  apply parseIntSetMember_Some in E as [-> ?]. destruct (IH _ eq_refl) as [-> ?]. by split; [|constructor].
Qed.

Lemma parseIntSetMembers_None ms :
  parseIntSetMembers ms = None → ∃ m, m ∈ ms ∧ parseIntSetMember m = None.
Proof.
  induction ms as [|m ms IH]; simpl; [done|].
  destruct (parseIntSetMember m) eqn:E; simpl; [|intros _; exists m; set_solver].
  destruct (parseIntSetMembers ms); simpl; [done|]. intros _.
  destruct IH as (m' & ? & ?); [done|]. exists m'. set_solver.
Qed.

Lemma compactLoop_spec rest : ∀ last,
  Sorted Z.le (last :: rest) →
  StronglySorted Z.lt (compactLoop last rest)
  ∧ (∀ x, x ∈ compactLoop last rest ↔ x ∈ last :: rest).
Proof.
  induction rest as [|v rest IH]; intros last Hs; cbn [compactLoop].
  { split; [by repeat constructor|done]. }
  apply Sorted_inv in Hs as [Hs Hh]. apply HdRel_inv in Hh.
  destruct (v =? last) eqn:E; bool_to_prop.
  - subst v. destruct (IH last Hs) as [H1 H2]. split; [done|]. intros x. rewrite H2. set_solver.
  - destruct (IH v Hs) as [H1 H2]. split; [|intros x; rewrite elem_of_cons, H2; set_solver].
    constructor; [done|]. rewrite Forall_forall. intros x Hx. apply H2 in Hx.
    apply Sorted_StronglySorted in Hs; [|intros ?; lia]. inversion Hs as [|? ? ? Hall]; subst.
    rewrite Forall_forall in Hall. rewrite elem_of_cons in Hx.
    destruct Hx as [->|Hx]; [lia|]. specialize (Hall x Hx). simpl in Hall. lia.
Qed.

(** Sorting and compacting keeps the elements and makes them strictly sorted. *)
Lemma compactUniqueInts_spec vs :
  StronglySorted Z.lt (compactUniqueInts (slicesSort vs))
  ∧ (∀ x, x ∈ compactUniqueInts (slicesSort vs) ↔ x ∈ vs).
Proof.
  pose proof (slicesSort_Sorted vs) as Hs. pose proof (slicesSort_Permutation vs) as Hp.
  assert (∀ x, x ∈ slicesSort vs ↔ x ∈ vs) as He by (intros x; by rewrite Hp).
  destruct (slicesSort vs) as [|v rest]; simpl.
  - split; [constructor|]. done.
  - destruct (compactLoop_spec rest v Hs) as [H1 H2]. split; [done|]. intros x. by rewrite H2.
Qed.

Lemma mergeLoop_cons x xs y ys :
  mergeLoop (x :: xs) (y :: ys) =
    if x <? y then let '(m, a) := mergeLoop xs (y :: ys) in (x :: m, a)
    else if y <? x then let '(m, a) := mergeLoop (x :: xs) ys in (y :: m, a + 1)
    else let '(m, a) := mergeLoop xs ys in (x :: m, a).
Proof. reflexivity. Qed.

Lemma mergeLoop_spec xs : ∀ ys,
  StronglySorted Z.lt xs → StronglySorted Z.lt ys →
  StronglySorted Z.lt (mergeLoop xs ys).1
  ∧ (∀ x, x ∈ (mergeLoop xs ys).1 ↔ x ∈ xs ∨ x ∈ ys)
  ∧ zlen (mergeLoop xs ys).1 = zlen xs + (mergeLoop xs ys).2.
Proof.
  induction xs as [|x xs IHx]; intros ys Hx Hy.
  { destruct ys; simpl; split_and!; try done; set_solver. }
  induction ys as [|y ys IHy].
  { simpl. split_and!; [done|set_solver|lia]. }
  inversion Hx as [|? ? Hx' Hxa]; subst. inversion Hy as [|? ? Hy' Hya]; subst.
  rewrite Forall_forall in Hxa, Hya. rewrite mergeLoop_cons.
  destruct (x <? y) eqn:E1; [|destruct (y <? x) eqn:E2]; bool_to_prop.
  - destruct (IHx (y :: ys) Hx' Hy) as (H1 & H2 & H3).
    destruct (mergeLoop xs (y :: ys)) as [m a]. cbn [fst snd] in *. split_and!; [|intros z; rewrite !elem_of_cons, H2, ?elem_of_cons; tauto|rewrite !zlen_cons; lia].
    constructor; [done|]. rewrite Forall_forall. intros z [Hz|Hz]%H2; [by apply Hxa|].
    apply elem_of_cons in Hz as [->|Hz]; [done|]. specialize (Hya z Hz). lia.
  - destruct (IHy Hy') as (H1 & H2 & H3).
    destruct (mergeLoop (x :: xs) ys) as [m a]. cbn [fst snd] in *. split_and!; [|intros z; rewrite !elem_of_cons, H2, ?elem_of_cons; tauto|rewrite !zlen_cons in *; lia].
    constructor; [done|]. rewrite Forall_forall. intros z [Hz|Hz]%H2; [|by apply Hya].
    apply elem_of_cons in Hz as [->|Hz]; [done|]. specialize (Hxa z Hz). lia.
  - assert (x = y) as -> by lia. destruct (IHx ys Hx' Hy') as (H1 & H2 & H3).
    destruct (mergeLoop xs ys) as [m a]. cbn [fst snd] in *. split_and!; [|intros z; rewrite !elem_of_cons, H2, ?elem_of_cons; tauto|rewrite !zlen_cons; lia].
    constructor; [done|]. rewrite Forall_forall. intros z [Hz|Hz]%H2; [by apply Hxa|by apply Hya].
Qed.

(** ** Refinement to sets of texts *)

Lemma elem_of_generalSet s m :
  m ∈ IntSet_generalSet s ↔ ∃ v, m = FormatInt v ∧ v ∈ values s.
Proof. unfold IntSet_generalSet. rewrite elem_of_list_to_set, list_elem_of_fmap. done. Qed.

Lemma elem_of_generalSet_Format s v :
  IntSetWf s → min_int64 ≤ v ≤ max_int64 → FormatInt v ∈ IntSet_generalSet s ↔ v ∈ values s.
Proof.
  intros [_ Hr] Hv. rewrite elem_of_generalSet. rewrite Forall_forall in Hr. split; [|by eauto].
  intros (w & Hf & Hw). apply FormatInt_inj in Hf; [by subst|done|by apply Hr].
Qed.

Lemma sorted_NoDup vs : StronglySorted Z.lt vs → NoDup vs.
Proof.
  induction 1 as [|v vs Hs IH Hall]; constructor; [|done].
  rewrite Forall_forall in Hall. intros Hin. specialize (Hall v Hin). lia.
Qed.

Lemma generalSet_size s : IntSetWf s → Z.of_nat (size (IntSet_generalSet s)) = IntSet_len s.
Proof.
  intros [Hs Hr]. unfold IntSet_generalSet, IntSet_len, zlen.
  rewrite size_list_to_set, length_fmap; [done|].
  apply NoDup_fmap_2_strong; [|by apply sorted_NoDup].
  rewrite Forall_forall in Hr. intros x y Hx Hy. apply FormatInt_inj; by apply Hr.
Qed.

Lemma IntSetWf_of vs :
  StronglySorted Z.lt vs → (∀ x, x ∈ vs → min_int64 ≤ x ≤ max_int64) → IntSetWf (mkIntSet vs).
Proof. intros Hs Hr. split; [done|]. by rewrite Forall_forall. Qed.

Lemma newIntSet_spec members s :
  newIntSet members = Some s → IntSetWf s ∧ IntSet_generalSet s = list_to_set members.
Proof.
  unfold newIntSet. destruct (parseIntSetMembers members) as [vs|] eqn:E; [|done].
  intros [= <-]. apply parseIntSetMembers_Some in E as [-> Hr].
  destruct (compactUniqueInts_spec vs) as [Hs He]. rewrite Forall_forall in Hr. split.
  - apply IntSetWf_of; [done|]. intros x Hx. by apply Hr, He.
  - apply set_eq. intros m. rewrite elem_of_generalSet, elem_of_list_to_set, list_elem_of_fmap.
    simpl. by setoid_rewrite He.
Qed.

Lemma IntSet_addMany_spec s members s' added :
  IntSetWf s → IntSet_addMany s members = Some (s', added) →
  IntSetWf s' ∧ IntSet_generalSet s' = IntSet_generalSet s ∪ list_to_set members
  ∧ IntSet_len s' = IntSet_len s + added.
Proof.
  intros Hwf. unfold IntSet_addMany. destruct (parseIntSetMembers members) as [vs|] eqn:E; [|done].
  apply parseIntSetMembers_Some in E as [-> Hr]. simpl. destruct vs as [|v vs'].
  { intros [= <- <-]. split_and!; [done|by cbn; rewrite (right_id_L ∅ (∪))|lia]. }
  set (vs := v :: vs') in *. clearbody vs. destruct (compactUniqueInts_spec vs) as [Hs He].
  set (cs := compactUniqueInts (slicesSort vs)) in *. clearbody cs. rewrite Forall_forall in Hr.
  assert (∃ merged, (match values s with [] => Some (mkIntSet cs, zlen cs)
      | _ => let '(merged, added) := mergeLoop (values s) cs in Some (mkIntSet merged, added) end)
      = Some (mkIntSet merged, (mergeLoop (values s) cs).2)
      ∧ merged = (mergeLoop (values s) cs).1) as (merged & -> & ->).
  { destruct (values s); [destruct cs; simpl; by eauto|].
    destruct (mergeLoop _ cs). by eauto. }
  intros [= <- <-]. destruct Hwf as [Hss Hsr].
  destruct (mergeLoop_spec (values s) cs Hss Hs) as (H1 & H2 & H3). rewrite Forall_forall in Hsr.
  split_and!; [|  |done].
  - apply IntSetWf_of; [done|]. intros x [Hx|Hx]%H2; [by apply Hsr|by apply Hr, He].
  - apply set_eq. intros m. rewrite elem_of_union, !elem_of_generalSet, elem_of_list_to_set, list_elem_of_fmap.
    simpl. setoid_rewrite H2. setoid_rewrite He. split.
    + intros (w & -> & [Hw|Hw]); eauto.
    + intros [(w & -> & Hw)|(w & -> & Hw)]; eauto.
Qed.

Lemma IntSet_contains_spec s m :
  IntSetWf s → IntSet_contains s m = bool_decide (m ∈ IntSet_generalSet s).
Proof.
  intros Hwf. unfold IntSet_contains. destruct (parseIntSetMember m) as [v|] eqn:E.
  - apply parseIntSetMember_Some in E as [-> Hv].
    destruct (sorted_split (values s) v (wf_sorted _ Hwf)) as (p & q & Hpq & Hp & Hq & Hin).
    rewrite Hpq, BinarySearch_split by done. simpl.
    apply eq_bool_prop_intro. rewrite bool_decide_spec, elem_of_generalSet_Format, Hin by done.
    destruct q as [|y q]; [split; [done|by intros [? ?]]|].
    rewrite Is_true_true, Z.eqb_eq. naive_solver.
  - symmetry. apply bool_decide_eq_false. rewrite elem_of_generalSet. intros (v & -> & Hv).
    rewrite (proj2 (parseIntSetMember_Some _ v)) in E; [done|]. split; [done|].
    pose proof (wf_range _ Hwf) as Hr. rewrite Forall_forall in Hr. by apply Hr.
Qed.

Lemma generalSet_minus s m :
  m ∉ IntSet_generalSet s → IntSet_generalSet s = IntSet_generalSet s ∖ {[m]}.
Proof. intros Hm. apply set_eq. intros x. rewrite elem_of_difference, elem_of_singleton. naive_solver. Qed.

Lemma sorted_delete_middle p v q :
  StronglySorted Z.lt (p ++ v :: q) →
  StronglySorted Z.lt (p ++ q) ∧ (∀ x, x ∈ p ++ q ↔ x ∈ p ++ v :: q ∧ x ≠ v).
Proof.
  intros Hs. pose proof (sorted_NoDup _ Hs) as Hnd. split.
  - induction p as [|a p IH]; simpl in *; [by inversion Hs|].
    inversion Hs as [|? ? Hs' Hall]; inversion Hnd; subst. constructor; [by apply IH|].
    rewrite Forall_app, Forall_cons in *. tauto.
  - intros x. apply NoDup_app in Hnd as (_ & Hd & Hnd). inversion Hnd; subst.
    rewrite !elem_of_app, elem_of_cons. specialize (Hd v). rewrite elem_of_cons in Hd. naive_solver.
Qed.

Lemma IntSet_remove_spec s m s' b :
  IntSetWf s → IntSet_remove s m = (s', b) →
  IntSetWf s' ∧ IntSet_generalSet s' = IntSet_generalSet s ∖ {[m]}
  ∧ b = bool_decide (m ∈ IntSet_generalSet s).
Proof.
  intros Hwf. pose proof (IntSet_contains_spec s m Hwf) as Hc.
  assert (s' = s → b = false → false = bool_decide (m ∈ IntSet_generalSet s) →
    IntSetWf s' ∧ IntSet_generalSet s' = IntSet_generalSet s ∖ {[m]}
    ∧ b = bool_decide (m ∈ IntSet_generalSet s)) as Habs.
  { intros -> -> Hb. symmetry in Hb. split_and!; [done| |by rewrite Hb].
    apply generalSet_minus. by apply bool_decide_eq_false in Hb. }
  unfold IntSet_remove, IntSet_contains in *. destruct (parseIntSetMember m) as [v|] eqn:E.
  2: { intros [= <- <-]. by apply Habs. }
  apply parseIntSetMember_Some in E as [-> Hv].
  destruct (sorted_split (values s) v (wf_sorted _ Hwf)) as (p & q & Hpq & Hp & Hq & _).
  pose proof (wf_sorted _ Hwf) as Hs. pose proof (wf_range _ Hwf) as Hr.
  rewrite Hpq in Hc, Hs, Hr |- *. rewrite BinarySearch_split in * by done. cbn [fst snd] in *.
  destruct q as [|y q]; [intros [= <- <-]; by apply Habs|].
  destruct (y =? v) eqn:E; bool_to_prop; [|intros [= <- <-]; by apply Habs].
  subst y. intros [= <- <-]. destruct (sorted_delete_middle _ _ _ Hs) as [Hs' He].
  rewrite delete_middle. rewrite Forall_forall in Hr. split_and!; [| |done].
  - apply IntSetWf_of; [done|]. intros x Hx. by apply Hr, He.
  - apply set_eq. intros m. rewrite elem_of_difference, elem_of_singleton, !elem_of_generalSet.
    simpl. setoid_rewrite He. rewrite Hpq. split.
    + intros (w & -> & Hw & Hne). split; [by eauto|]. intros Hf. apply FormatInt_inj in Hf; auto.
    + intros [(w & -> & Hw) Hne]. exists w. split_and!; [done|done|]. by intros ->.
Qed.
