(* ===== verification/CompactHash.v ===== *)
(** * Compact hashes

    Models [internal/storage/compact_hash.go]: a small hash kept as one byte
    arena plus an entry table of offsets.  Overwriting a value that fits is done
    in place, leaving slack behind it; a longer one rebuilds the arena.

    The refinement: [CompactHash_all] is an association list with distinct
    fields, and [set]/[get]/[del] act on it as on a map.  It rests on a layout
    invariant, entries in arena order without overlap, which is what makes the
    in-place overwrite safe. *)

From S2P Require Import Prelude Strconv GoLib.

Definition compactHashMaxEntries : Z := 8.
Definition compactHashMaxStringSize : Z := 64.

Record compactHashEntry := mkEntry {
  fieldStart : nat;
  fieldLen : nat;
  valueStart : nat;
  valueLen : nat
}.

Record CompactHash := mkCompactHash {
  entries : list compactHashEntry;
  arena : bytes
}.

(** [HashFieldValue] pairs. *)
Abbreviation HashFieldValue := (bytes * bytes)%type.

(** [arena[start : start+len]]. *)
Definition slice (arena : bytes) (start len : nat) : bytes := take len (drop start arena).

(** [copy(arena[start:], src)] for a source that fits. *)
Definition copyAt (arena : bytes) (start : nat) (src : bytes) : bytes :=
  take start arena ++ src ++ drop (start + length src) arena.

Definition CompactHash_field (h : CompactHash) (entry : compactHashEntry) : bytes :=
  slice (arena h) (fieldStart entry) (fieldLen entry).

Definition CompactHash_value (h : CompactHash) (entry : compactHashEntry) : bytes :=
  slice (arena h) (valueStart entry) (valueLen entry).

Definition CompactHash_fieldEqual (h : CompactHash) (entry : compactHashEntry) (field : bytes) : bool :=
  (fieldLen entry =? length field)%nat && bool_decide (CompactHash_field h entry = field).

Definition CompactHash_len (h : CompactHash) : Z := zlen (entries h).

(** The first entry of the table that holds [field], with its index. *)
Fixpoint findEntry (h : CompactHash) (field : bytes) (es : list compactHashEntry) (i : nat)
    : option (nat * compactHashEntry) :=
  match es with
  | [] => None
  | entry :: es' =>
      if CompactHash_fieldEqual h entry field then Some (i, entry) else findEntry h field es' (S i)
  end.

Definition CompactHash_get (h : CompactHash) (field : bytes) : option bytes :=
  match findEntry h field (entries h) 0 with
  | Some (_, entry) => Some (CompactHash_value h entry)
  | None => None
  end.

Definition CompactHash_all (h : CompactHash) : list HashFieldValue :=
  (λ entry, (CompactHash_field h entry, CompactHash_value h entry)) <$> entries h.

Definition emptyCompactHash : CompactHash := mkCompactHash [] [].

(** The pairs [rebuild] writes to the fresh arena: the replacements, then every
    entry but the skipped one. *)
Definition rebuildPairs (h : CompactHash) (skip : nat) (replacements : list HashFieldValue)
    : list HashFieldValue :=
  replacements ++ delete skip (CompactHash_all h).

(** [set], [rebuild] and [newCompactHash] call each other.  A rebuild sets
    distinct fields on an empty hash and never grows one, so one level of
    recursion is all there is: [setFuel] says it explicitly. *)
Fixpoint setFuel (fuel : nat) (h : CompactHash) (field value : bytes) : CompactHash * bool :=
  match findEntry h field (entries h) 0 with
  | Some (i, entry) =>
      if (length value <=? valueLen entry)%nat then
        (mkCompactHash
           (<[i := mkEntry (fieldStart entry) (fieldLen entry) (valueStart entry) (length value)]> (entries h))
           (copyAt (arena h) (valueStart entry) value), false)
      else
        match fuel with
        | O => (h, false)
        | S fuel' =>
            (foldl (λ h '(f, v), (setFuel fuel' h f v).1) emptyCompactHash
               (rebuildPairs h i [(field, value)]), false)
        end
  | None =>
      let fieldStart := length (arena h) in
      let arena1 := arena h ++ field in
      let valueStart := length arena1 in
      (mkCompactHash (entries h ++ [mkEntry fieldStart (length field) valueStart (length value)])
         (arena1 ++ value), true)
  end.

Definition CompactHash_set (h : CompactHash) (field value : bytes) : CompactHash * bool :=
  setFuel 1 h field value.

Definition newCompactHash (pairs : list HashFieldValue) : CompactHash :=
  foldl (λ h '(f, v), (CompactHash_set h f v).1) emptyCompactHash pairs.

Definition CompactHash_rebuild (h : CompactHash) (skip : nat) (replacements : list HashFieldValue) : CompactHash :=
  newCompactHash (rebuildPairs h skip replacements).

Definition cloneCompactHash (src : option CompactHash) : option CompactHash := src.

Definition CompactHash_del (h : CompactHash) (field : bytes) : CompactHash * bool :=
  match findEntry h field (entries h) 0 with
  | Some (i, _) => (CompactHash_rebuild h i [], true)
  | None => (h, false)
  end.

Example CompactHash_overwrite :
  let h := newCompactHash [(bs "a", bs "long"); (bs "b", bs "2")] in
  let h1 := (CompactHash_set h (bs "a") (bs "x")).1 in
  let h2 := (CompactHash_set h1 (bs "b") (bs "longer")).1 in
  (CompactHash_all h1, arena h1, CompactHash_all h2)
  = ([(bs "a", bs "x"); (bs "b", bs "2")], bs "axongb2", [(bs "b", bs "longer"); (bs "a", bs "x")]).
Proof. vm_compute. reflexivity. Qed.

(** ** The layout invariant *)

(** Entries follow each other in the arena from [from] on, each field directly
    before its value, slack allowed after the value. *)
Fixpoint layout (from : nat) (es : list compactHashEntry) (n : nat) : Prop :=
  match es with
  | [] => (from ≤ n)%nat
  | e :: es' =>
      (from ≤ fieldStart e)%nat ∧ valueStart e = (fieldStart e + fieldLen e)%nat
      ∧ layout (valueStart e + valueLen e) es' n
  end.

Record CompactHashWf (h : CompactHash) : Prop := {
  wf_layout : layout 0 (entries h) (length (arena h));
  wf_fields : NoDup (CompactHash_all h).*1
}.

(** ** Lemmas *)

Lemma layout_le from es n : layout from es n → (from ≤ n)%nat.
Proof.
  revert from. induction es as [|e es IH]; simpl; intros from; [done|].
  intros (? & -> & H). apply IH in H. lia.
Qed.

Lemma layout_weaken from from' es n : (from' ≤ from)%nat → layout from es n → layout from' es n.
Proof. destruct es; simpl; [lia|]. intros ? (? & ? & ?). split_and!; [lia|done|done]. Qed.

Lemma layout_grow from es n n' : layout from es n → (n ≤ n')%nat → layout from es n'.
Proof. revert from. induction es as [|e es IH]; simpl; intros from; [lia|]. naive_solver. Qed.

Lemma layout_snoc from es n e :
  layout from es n → fieldStart e = n → valueStart e = (fieldStart e + fieldLen e)%nat →
  layout from (es ++ [e]) (valueStart e + valueLen e).
Proof.
  revert from. induction es as [|a es IH]; simpl; intros from.
  - intros ? -> ->. split_and!; lia.
  - intros (? & ? & ?) ? ?. split_and!; [done|done|by apply IH].
Qed.

(** Reading at or before the end of the arena is not affected by appending. *)
Lemma slice_app a b s l : (s + l ≤ length a)%nat → slice (a ++ b) s l = slice a s l.
Proof. intros. unfold slice. rewrite drop_app_le, take_app_le by (rewrite ?length_drop; lia). done. Qed.

Lemma slice_length a s l : (s + l ≤ length a)%nat → length (slice a s l) = l.
Proof. intros. unfold slice. rewrite length_take, length_drop. lia. Qed.

Lemma layout_bounds from es n e :
  layout from es n → e ∈ es →
  (from ≤ fieldStart e)%nat ∧ valueStart e = (fieldStart e + fieldLen e)%nat
  ∧ (valueStart e + valueLen e ≤ n)%nat.
Proof.
  revert from. induction es as [|a es IH]; simpl; intros from; [set_solver|].
  intros (H1 & H2 & H3) [->|He]%elem_of_cons.
  - split_and!; [done|done|]. by apply layout_le in H3.
  - destruct (IH _ H3 He) as (? & ? & ?). split_and!; [lia|done|done].
Qed.

Lemma layout_app from l1 e l2 n :
  layout from (l1 ++ e :: l2) n →
  (∀ e', e' ∈ l1 → valueStart e' = (fieldStart e' + fieldLen e')%nat
                   ∧ (valueStart e' + valueLen e' ≤ fieldStart e)%nat)
  ∧ valueStart e = (fieldStart e + fieldLen e)%nat ∧ (valueStart e + valueLen e ≤ n)%nat
  ∧ (∀ e', e' ∈ l2 → valueStart e' = (fieldStart e' + fieldLen e')%nat
                     ∧ (valueStart e + valueLen e ≤ fieldStart e')%nat
                     ∧ (valueStart e' + valueLen e' ≤ n)%nat).
Proof.
  revert from. induction l1 as [|a l1 IH]; simpl; intros from (H1 & H2 & H3).
  - split_and!; [set_solver|done|by apply layout_le in H3|].
    intros e' He. destruct (layout_bounds _ _ _ _ H3 He) as (? & ? & ?). done.
  - destruct (IH _ H3) as (Ha & ? & ? & ?). split_and!; [|done|done|done].
    intros e' [->|He]%elem_of_cons; [|by apply Ha]. split; [done|].
    destruct (layout_bounds _ _ _ e H3) as (? & _); [set_solver|]. done.
Qed.

Lemma layout_shrink from l1 e l2 n len :
  layout from (l1 ++ e :: l2) n → (len ≤ valueLen e)%nat →
  layout from (l1 ++ mkEntry (fieldStart e) (fieldLen e) (valueStart e) len :: l2) n.
Proof.
  revert from. induction l1 as [|a l1 IH]; simpl; intros from (H1 & H2 & H3) Hlen.
  - split_and!; [done|done|]. eapply layout_weaken; [|done]. lia.
  - split_and!; [done|done|]. by apply IH.
Qed.

Lemma copyAt_length a s src : (s + length src ≤ length a)%nat → length (copyAt a s src) = length a.
Proof. intros. unfold copyAt. rewrite !length_app, length_take, length_drop. lia. Qed.

Lemma copyAt_before a s src p l :
  (s + length src ≤ length a)%nat → (p + l ≤ s)%nat → slice (copyAt a s src) p l = slice a p l.
Proof.
  intros. unfold copyAt. rewrite slice_app by (rewrite length_take; lia).
  rewrite <- (take_drop s a) at 2. by rewrite slice_app by (rewrite length_take; lia).
Qed.

Lemma copyAt_after a s src p l :
  (s + length src ≤ p)%nat → (p + l ≤ length a)%nat → slice (copyAt a s src) p l = slice a p l.
Proof.
  intros. unfold slice, copyAt. f_equal. rewrite app_assoc, drop_app_ge.
  - rewrite length_app, length_take, drop_drop. f_equal. lia.
  - rewrite length_app, length_take. lia.
Qed.

Lemma copyAt_at a s src : (s + length src ≤ length a)%nat → slice (copyAt a s src) s (length src) = src.
Proof.
  intros. unfold slice, copyAt. rewrite drop_app_ge by (rewrite length_take; lia).
  rewrite length_take. replace (s - s `min` length a)%nat with O by lia.
  change (drop 0 ?l) with l. by rewrite take_app_length.
Qed.

(** A well-formed entry compares by its field. *)
Lemma fieldEqual_spec h e f :
  CompactHashWf h → e ∈ entries h →
  CompactHash_fieldEqual h e f = bool_decide (CompactHash_field h e = f).
Proof.
  intros [Hl _] He. unfold CompactHash_fieldEqual. case_bool_decide as Hf; [|by rewrite andb_false_r].
  rewrite andb_true_r. apply Nat.eqb_eq. subst f. unfold CompactHash_field.
  destruct (layout_bounds _ _ _ _ Hl He) as (_ & ? & ?). symmetry. apply slice_length. lia.
Qed.

Definition pairOf (h : CompactHash) (e : compactHashEntry) : HashFieldValue :=
  (CompactHash_field h e, CompactHash_value h e).

(** The two outcomes of the lookup loop. *)
Lemma findEntry_view h f :
  CompactHashWf h →
  (∃ l1 e l2, entries h = l1 ++ e :: l2 ∧ CompactHash_field h e = f
     ∧ findEntry h f (entries h) 0 = Some (length l1, e))
  ∨ (f ∉ (CompactHash_all h).*1 ∧ findEntry h f (entries h) 0 = None).
Proof.
  intros Hwf.
  assert (∀ es i, (∀ e, e ∈ es → e ∈ entries h) →
    (∃ l1 e l2, es = l1 ++ e :: l2 ∧ CompactHash_field h e = f
       ∧ findEntry h f es i = Some ((i + length l1)%nat, e))
    ∨ (f ∉ (pairOf h <$> es).*1 ∧ findEntry h f es i = None)) as H.
  { induction es as [|e es IH]; intros i Hin; [right; split; [set_solver|done]|]. cbn [findEntry].
    rewrite fieldEqual_spec by (done || set_solver). case_bool_decide as Hf.
    - left. exists [], e, es. by rewrite Nat.add_0_r.
    - destruct (IH (S i)) as [(l1 & e' & l2 & -> & ? & ->)|[? ->]]; [set_solver| |].
      + left. exists (e :: l1), e', l2. split_and!; [done|done|]. simpl. do 2 f_equal. lia.
      + right. split; [|done]. cbn. apply not_elem_of_cons. split; [|done]. by intros ->. }
  apply (H (entries h) 0%nat). done.
Qed.

Lemma all_app h es1 es2 a :
  arena h = a → CompactHash_all (mkCompactHash (es1 ++ es2) a)
  = (pairOf h <$> es1) ++ (pairOf h <$> es2).
Proof. intros <-. unfold CompactHash_all. cbn. by rewrite fmap_app. Qed.

(** Appending a new field. *)
Lemma append_spec h f v :
  CompactHashWf h → f ∉ (CompactHash_all h).*1 →
  let h' := mkCompactHash
    (entries h ++ [mkEntry (length (arena h)) (length f) (length (arena h ++ f)) (length v)])
    ((arena h ++ f) ++ v) in
  CompactHashWf h' ∧ CompactHash_all h' = CompactHash_all h ++ [(f, v)].
Proof.
  intros [Hl Hnd] Hf h'. assert (CompactHash_all h' = CompactHash_all h ++ [(f, v)]) as Hall.
  { unfold CompactHash_all, h'. cbn. rewrite fmap_app. f_equal.
    - apply list_fmap_ext. intros i e He. apply list_elem_of_lookup_2 in He.
      destruct (layout_bounds _ _ _ _ Hl He) as (_ & ? & ?).
      unfold CompactHash_field, CompactHash_value. cbn.
      rewrite <- app_assoc, !slice_app by lia. done.
    - cbn. unfold CompactHash_field, CompactHash_value, slice. cbn. f_equal. f_equal.
      + by rewrite <- app_assoc, drop_app_length, take_app_length.
      + rewrite drop_app_length. apply take_ge. done. }
  split; [|done]. split.
  - unfold h'. cbn [entries arena]. rewrite (length_app (arena h ++ f) v).
    apply (layout_snoc 0 _ (length (arena h)) (mkEntry (length (arena h)) (length f) (length (arena h ++ f)) (length v))); cbn;
      [done|done|by rewrite length_app].
  - rewrite Hall, fmap_app. cbn. by apply NoDup_snoc.
Qed.

Lemma fmap_pairOf_ext h h1 (es : list compactHashEntry) :
  (∀ e, e ∈ es → pairOf h e = pairOf h1 e) → pairOf h <$> es = pairOf h1 <$> es.
Proof. intros H. apply list_fmap_ext. intros i e He. by apply H, (list_elem_of_lookup_2 _ i). Qed.

(** Overwriting a value that fits, in place. *)
Lemma overwrite_spec h l1 e l2 v :
  CompactHashWf h → entries h = l1 ++ e :: l2 → (length v ≤ valueLen e)%nat →
  let h' := mkCompactHash
    (<[length l1 := mkEntry (fieldStart e) (fieldLen e) (valueStart e) (length v)]> (entries h))
    (copyAt (arena h) (valueStart e) v) in
  CompactHashWf h'
  ∧ CompactHash_all h' = (pairOf h <$> l1) ++ (CompactHash_field h e, v) :: (pairOf h <$> l2).
Proof.
  intros [Hl Hnd] He Hlen. rewrite He in *. cbn zeta. rewrite insert_app_r_alt, Nat.sub_diag by done.
  cbn [insert list_insert]. set (e' := mkEntry _ _ _ _).
  set (h' := mkCompactHash _ _).
  destruct (layout_app _ _ _ _ _ Hl) as (H1 & H2 & H3 & H4).
  assert (CompactHash_all h' = (pairOf h <$> l1) ++ (CompactHash_field h e, v) :: (pairOf h <$> l2)) as Hall.
  { unfold CompactHash_all. fold (pairOf h'). unfold h' at 2. cbn [entries].
    rewrite fmap_app, fmap_cons. f_equal; [|f_equal].
    - apply fmap_pairOf_ext. intros a Ha. destruct (H1 a Ha). unfold pairOf, CompactHash_field, CompactHash_value, h'. cbn [arena fieldStart fieldLen valueStart valueLen].
      rewrite !copyAt_before by lia. done.
    - unfold pairOf, CompactHash_field, CompactHash_value, h', e'. cbn [arena fieldStart fieldLen valueStart valueLen].
      rewrite copyAt_before, copyAt_at by lia. done.
    - apply fmap_pairOf_ext. intros a Ha. destruct (H4 a Ha) as (? & ? & ?).
      unfold pairOf, CompactHash_field, CompactHash_value, h'. cbn [arena fieldStart fieldLen valueStart valueLen].
      rewrite !copyAt_after by lia. done. }
  split; [|done]. split.
  - unfold h', e'. cbn [entries arena]. rewrite copyAt_length by lia. by apply layout_shrink.
  - rewrite Hall. unfold CompactHash_all in Hnd. rewrite He in Hnd. fold (pairOf h) in Hnd.
    rewrite fmap_app, fmap_cons in Hnd. by eapply assoc_middle_NoDup.
Qed.

Lemma emptyCompactHash_wf : CompactHashWf emptyCompactHash.
Proof. split; [cbn; lia|constructor]. Qed.

(** Setting fields that are not there yet only appends. *)
Lemma foldl_set_spec fuel pairs : ∀ h,
  CompactHashWf h → NoDup ((CompactHash_all h).*1 ++ pairs.*1) →
  let h' := foldl (λ h '(f, v), (setFuel fuel h f v).1) h pairs in
  CompactHashWf h' ∧ CompactHash_all h' = CompactHash_all h ++ pairs.
Proof.
  induction pairs as [|[f v] pairs IH]; intros h Hwf Hnd; cbn [foldl]; [by rewrite app_nil_r|].
  cbn [fmap list_fmap fst] in Hnd.
  assert (f ∉ (CompactHash_all h).*1) as Hf.
  { apply NoDup_app in Hnd as (_ & Hd & _). intros Hin. apply (Hd f Hin). set_solver. }
  assert (setFuel fuel h f v = (mkCompactHash
    (entries h ++ [mkEntry (length (arena h)) (length f) (length (arena h ++ f)) (length v)])
    ((arena h ++ f) ++ v), true)) as ->.
  { destruct (findEntry_view h f Hwf) as [(l1 & e & l2 & He & Hfe & _)|[_ Hnone]].
    - exfalso. apply Hf. unfold CompactHash_all. rewrite He, !fmap_app. cbn. set_solver.
    - destruct fuel; cbn [setFuel]; by rewrite Hnone. }
  destruct (append_spec h f v Hwf Hf) as [Hwf' Hall]. cbn [fst].
  destruct (IH _ Hwf') as [Hwf'' Hall''].
  - rewrite Hall, fmap_app, <- app_assoc. done.
  - cbn zeta. split; [done|]. rewrite Hall'', Hall, <- app_assoc. done.
Qed.

Lemma all_split h l1 e l2 :
  entries h = l1 ++ e :: l2 → CompactHash_all h = (pairOf h <$> l1) ++ pairOf h e :: (pairOf h <$> l2).
Proof. intros He. unfold CompactHash_all. fold (pairOf h). rewrite He, fmap_app. done. Qed.

Lemma delete_all h l1 e l2 :
  entries h = l1 ++ e :: l2 →
  delete (length l1) (CompactHash_all h) = (pairOf h <$> l1) ++ (pairOf h <$> l2).
Proof.
  intros He. rewrite (all_split _ _ _ _ He), <- (length_fmap (pairOf h) l1). apply delete_middle.
Qed.

(** ** Refinement to maps *)

Definition CompactHash_map (h : CompactHash) : gmap bytes bytes := list_to_map (CompactHash_all h).

Lemma CompactHash_get_spec h f : CompactHashWf h → CompactHash_get h f = CompactHash_map h !! f.
Proof.
  intros Hwf. unfold CompactHash_get, CompactHash_map.
  destruct (findEntry_view h f Hwf) as [(l1 & e & l2 & He & Hfe & ->)|[Hn ->]].
  - symmetry. apply elem_of_list_to_map_1; [apply Hwf|].
    rewrite (all_split _ _ _ _ He). unfold pairOf at 2. rewrite Hfe. set_solver.
  - symmetry. by apply not_elem_of_list_to_map_1.
Qed.

(** A field that is present, and the entries around it. *)
Lemma found_spec h l1 e l2 f :
  CompactHashWf h → entries h = l1 ++ e :: l2 → CompactHash_field h e = f →
  let p1 := pairOf h <$> l1 in let p2 := pairOf h <$> l2 in
  CompactHash_all h = p1 ++ (f, CompactHash_value h e) :: p2
  ∧ NoDup (p1 ++ (f, CompactHash_value h e) :: p2).*1
  ∧ is_Some (CompactHash_map h !! f)
  ∧ delete (length l1) (CompactHash_all h) = p1 ++ p2.
Proof.
  intros [_ Hnd] He Hf. pose proof (all_split _ _ _ _ He) as Hall. cbn zeta.
  unfold pairOf at 2 in Hall. rewrite Hf in Hall. rewrite Hall in Hnd.
  split_and!; [done|done| |by apply delete_all in He].
  unfold CompactHash_map. rewrite Hall, (assoc_middle _ _ _ _ Hnd), lookup_insert_eq. done.
Qed.

Lemma setFuel_succ fuel h field value :
  setFuel (S fuel) h field value =
  match findEntry h field (entries h) 0 with
  | Some (i, entry) =>
      if (length value <=? valueLen entry)%nat then
        (mkCompactHash
           (<[i := mkEntry (fieldStart entry) (fieldLen entry) (valueStart entry) (length value)]> (entries h))
           (copyAt (arena h) (valueStart entry) value), false)
      else (foldl (λ h '(f, v), (setFuel fuel h f v).1) emptyCompactHash
              (rebuildPairs h i [(field, value)]), false)
  | None =>
      (mkCompactHash (entries h ++ [mkEntry (length (arena h)) (length field) (length (arena h ++ field)) (length value)])
         ((arena h ++ field) ++ value), true)
  end.
Proof. reflexivity. Qed.

Lemma CompactHash_set_spec h f v h' b :
  CompactHashWf h → CompactHash_set h f v = (h', b) →
  CompactHashWf h' ∧ CompactHash_map h' = <[f := v]> (CompactHash_map h)
  ∧ b = bool_decide (CompactHash_map h !! f = None).
Proof.
  intros Hwf. unfold CompactHash_set. rewrite setFuel_succ.
  destruct (findEntry_view h f Hwf) as [(l1 & e & l2 & He & Hfe & ->)|[Hn ->]].
  - destruct (found_spec _ _ _ _ _ Hwf He Hfe) as (Hall & Hnd & Hsome & Hdel).
    assert (false = bool_decide (CompactHash_map h !! f = None)) as Hb.
    { symmetry. apply bool_decide_eq_false. by destruct Hsome as [? ->]. }
    case_match eqn:El; intros [<- <-]%pair_equal_spec.
    + apply Nat.leb_le in El. destruct (overwrite_spec h l1 e l2 v Hwf He El) as [Hwf' Hall'].
      split_and!; [done| |done]. unfold CompactHash_map. rewrite Hall', Hall, Hfe.
      by apply assoc_overwrite.
    + destruct (assoc_middle_notin _ _ _ _ Hnd) as [Hni Hnd'].
      destruct (foldl_set_spec 0 (rebuildPairs h (length l1) [(f, v)]) emptyCompactHash emptyCompactHash_wf)
        as [Hwf' Hall'].
      { unfold rebuildPairs. rewrite Hdel. cbn. by apply NoDup_cons. }
      split_and!; [exact Hwf'| |done]. unfold CompactHash_map. rewrite Hall'. unfold rebuildPairs.
      rewrite Hdel, Hall. cbn. rewrite (assoc_middle _ _ _ _ Hnd), insert_insert_eq. done.
  - intros [= <- <-]. destruct (append_spec h f v Hwf Hn) as [Hwf' Hall].
    split_and!; [done| |].
    + unfold CompactHash_map. rewrite Hall. by apply assoc_snoc.
    + symmetry. apply bool_decide_eq_true. by apply not_elem_of_list_to_map_1.
Qed.

Lemma CompactHash_del_spec h f h' b :
  CompactHashWf h → CompactHash_del h f = (h', b) →
  CompactHashWf h' ∧ CompactHash_map h' = delete f (CompactHash_map h)
  ∧ b = bool_decide (is_Some (CompactHash_map h !! f)).
Proof.
  intros Hwf. unfold CompactHash_del.
  destruct (findEntry_view h f Hwf) as [(l1 & e & l2 & He & Hfe & ->)|[Hn ->]]; intros [= <- <-].
  - destruct (found_spec _ _ _ _ _ Hwf He Hfe) as (Hall & Hnd & Hsome & Hdel).
    destruct (foldl_set_spec 1 (rebuildPairs h (length l1) []) emptyCompactHash emptyCompactHash_wf)
      as [Hwf' Hall'].
    { unfold rebuildPairs. rewrite Hdel. by destruct (assoc_middle_notin _ _ _ _ Hnd). }
    split_and!; [exact Hwf'| |symmetry; by apply bool_decide_eq_true].
    unfold CompactHash_map, CompactHash_rebuild, newCompactHash, CompactHash_set. rewrite Hall'.
    unfold rebuildPairs. rewrite Hdel, Hall. cbn. by apply assoc_delete.
  - split_and!; [done| |].
    + symmetry. apply delete_id. by apply not_elem_of_list_to_map_1.
    + symmetry. apply bool_decide_eq_false. unfold CompactHash_map.
      rewrite (not_elem_of_list_to_map_1 _ _ Hn). by intros [? ?].
Qed.

Lemma CompactHash_len_spec h : CompactHashWf h → CompactHash_len h = Z.of_nat (size (CompactHash_map h)).
Proof.
  intros [_ Hnd]. unfold CompactHash_len, CompactHash_map. rewrite map_size_list_to_map by done.
  unfold CompactHash_all. by rewrite length_fmap.
Qed.
