(* ===== verification/Lzf.v ===== *)
(** * LZF decompression

    Models [decompressLZF], [decodeLZFLiteral] and [decodeLZFMatch] of
    [internal/rdb/loader.go]: the decoder of compressed RDB strings, over an
    output buffer that is allocated once and filled from the left.

    The reference is the token stream an LZF compressor emits: literal runs and
    back-references.  The decoder inverts the encoding of every valid stream, and
    accepts nothing else. *)

From S2P Require Import Prelude Strconv CompactHash.

Inductive lzfError :=
  | LzfTruncatedLiteral
  | LzfLiteralTooLong
  | LzfTruncatedMatchLength
  | LzfTruncatedMatchOffset
  | LzfInvalidReference
  | LzfMatchTooLong
  | LzfLengthMismatch (got want : Z)
  | LzfOutOfFuel.

(** [input[i]] of an index the code has checked. *)
Definition byteAtZ (input : bytes) (i : Z) : Z := b2z (default x00 (input !! Z.to_nat i)).

(** The positions after the literal, and the output with it copied in. *)
Definition decodeLZFLiteral (input output : bytes) (inputPos outputPos control : Z)
    : result lzfError (Z * Z * bytes) :=
  let literalLength := control + 1 in
  if zlen input <? inputPos + literalLength then Err LzfTruncatedLiteral
  else if zlen output <? outputPos + literalLength then Err LzfLiteralTooLong
  else
    Ok (inputPos + literalLength, outputPos + literalLength,
        copyAt output (Z.to_nat outputPos) (ztake literalLength (zdrop inputPos input))).

(** [for i := 0; i < matchLength; i++ { output[outputPos] = output[reference+i]; outputPos++ }]. *)
Fixpoint copyMatch (n : nat) (output : bytes) (reference outputPos : Z) : bytes :=
  match n with
  | O => output
  | S n' =>
      copyMatch n' (<[Z.to_nat outputPos := default x00 (output !! Z.to_nat reference)]> output)
        (reference + 1) (outputPos + 1)
  end.

Definition decodeLZFMatch (input output : bytes) (inputPos outputPos control : Z)
    : result lzfError (Z * Z * bytes) :=
  let matchLength := Z.shiftr control 5 in
  let? (matchLength, inputPos) :=
    if matchLength =? 7 then
      if zlen input <=? inputPos then Err LzfTruncatedMatchLength
      else Ok (matchLength + byteAtZ input inputPos, inputPos + 1)
    else Ok (matchLength, inputPos) in
  if zlen input <=? inputPos then Err LzfTruncatedMatchOffset
  else
    let reference := outputPos - Z.shiftl (Z.land control 31) 8 - byteAtZ input inputPos - 1 in
    let inputPos := inputPos + 1 in
    let matchLength := matchLength + 2 in
    if reference <? 0 then Err LzfInvalidReference
    else if zlen output <? outputPos + matchLength then Err LzfMatchTooLong
    else Ok (inputPos, outputPos + matchLength, copyMatch (Z.to_nat matchLength) output reference outputPos).

(** The loop consumes at least one byte per round. *)
Fixpoint decompressLoop (fuel : nat) (input output : bytes) (ip op : Z) : result lzfError bytes :=
  match fuel with
  | O => Err LzfOutOfFuel
  | S fuel' =>
      if ip <? zlen input then
        let control := byteAtZ input ip in
        let ip := ip + 1 in
        let? (ip, op, output) :=
          if control <? 32 then decodeLZFLiteral input output ip op control
          else decodeLZFMatch input output ip op control in
        decompressLoop fuel' input output ip op
      else if op =? zlen output then Ok output
      else Err (LzfLengthMismatch op (zlen output))
  end.

Definition decompressLZF (input : bytes) (outputLength : Z) : result lzfError bytes :=
  decompressLoop (S (length input)) input (replicate (Z.to_nat outputLength) x00) 0 0.

(** ** Token streams *)

Inductive lzfToken :=
  | Literal (run : bytes)
  | Match (distance matchLen : Z).

(** The bytes of a token; the low byte of the distance comes last. *)
Definition encodeToken (t : lzfToken) : bytes :=
  match t with
  | Literal run => z2b (zlen run - 1) :: run
  | Match d n =>
      let hi := (d - 1) / 256 in
      let lo := z2b ((d - 1) mod 256) in
      if n <? 9 then [z2b ((n - 2) * 32 + hi); lo] else [z2b (7 * 32 + hi); z2b (n - 9); lo]
  end.

(** [n] bytes starting [d] before the end, the match possibly overlapping itself. *)
Fixpoint extend (n : nat) (out : bytes) (d : nat) : bytes :=
  match n with O => out | S n' => extend n' (out ++ [default x00 (out !! (length out - d)%nat)]) d end.

Definition expandToken (out : bytes) (t : lzfToken) : bytes :=
  match t with
  | Literal run => out ++ run
  | Match d n => extend (Z.to_nat n) out (Z.to_nat d)
  end.

Definition validToken (out : bytes) (t : lzfToken) : bool :=
  match t with
  | Literal run => (1 <=? zlen run) && (zlen run <=? 32)
  | Match d n => (1 <=? d) && (d <=? 8192) && (d <=? zlen out) && (3 <=? n) && (n <=? 264)
  end.

Fixpoint validTokens (out : bytes) (ts : list lzfToken) : bool :=
  match ts with [] => true | t :: ts' => validToken out t && validTokens (expandToken out t) ts' end.

Definition encodeTokens (ts : list lzfToken) : bytes := concat (encodeToken <$> ts).
Definition expandTokens (ts : list lzfToken) : bytes := foldl expandToken [] ts.

Example lzf_demo :
  decompressLZF (encodeTokens [Literal (bs "abc"); Match 3 7; Literal (bs "!")]) 11 = Ok (bs "abcabcabca!").
Proof. vm_compute. reflexivity. Qed.

(** ** One round of the decoder *)

Definition zeros (k : nat) : bytes := replicate k x00.

(** The two cases of the loop body, after the control byte was read. *)
Definition lzfStep (input output : bytes) (ip op : Z) : result lzfError (Z * Z * bytes) :=
  let control := byteAtZ input ip in
  if control <? 32 then decodeLZFLiteral input output (ip + 1) op control
  else decodeLZFMatch input output (ip + 1) op control.

Lemma byteAtZ_app (p : bytes) b (q : bytes) : byteAtZ (p ++ b :: q) (zlen p) = b2z b.
Proof. unfold byteAtZ, zlen. by rewrite Nat2Z.id, lookup_app_r, Nat.sub_diag by lia. Qed.

Lemma length_extend n : ∀ out d, length (extend n out d) = (length out + n)%nat.
Proof. induction n as [|n IH]; intros out d; cbn [extend]; [lia|]. rewrite IH, length_app. cbn. lia. Qed.

Lemma copyMatch_extend n : ∀ out k d,
  (1 ≤ d ≤ length out)%nat → (n ≤ k)%nat →
  copyMatch n (out ++ zeros k) (zlen out - Z.of_nat d) (zlen out) = extend n out d ++ zeros (k - n).
Proof.
  induction n as [|n IH]; intros out k d Hd Hk; cbn [copyMatch extend]; [by rewrite Nat.sub_0_r|].
  destruct k as [|k]; [lia|]. replace (S k - S n)%nat with (k - n)%nat by lia. unfold zlen in *.
  rewrite lookup_app_l by lia. replace (Z.to_nat (Z.of_nat (length out) - Z.of_nat d)) with (length out - d)%nat by lia.
  rewrite Nat2Z.id, insert_app_r_alt, Nat.sub_diag by lia. cbn [zeros replicate].
  set (b := default x00 (out !! (length out - d)%nat)).
  change (<[0%nat:=b]> (x00 :: replicate k x00)) with ([b] ++ zeros k). rewrite app_assoc.
  rewrite <- (IH (out ++ [b]) k d) by (rewrite ?length_app; cbn; lia). rewrite length_app. cbn [length].
  f_equal; lia.
Qed.

Lemma length_expandToken out t : validToken out t = true → length (expandToken out t) = (length out +
  match t with Literal run => length run | Match _ n => Z.to_nat n end)%nat.
Proof. destruct t; intros _; cbn [expandToken]; [by rewrite length_app|apply length_extend]. Qed.

Lemma match_control d n :
  1 ≤ d ≤ 8192 → 3 ≤ n ≤ 264 →
  let l := if n <? 9 then n - 2 else 7 in
  let c := l * 32 + (d - 1) / 256 in
  32 ≤ c < 256 ∧ Z.shiftr c 5 = l ∧ Z.land c 31 = (d - 1) / 256.
Proof.
  intros Hd Hn l c. assert (1 ≤ l ≤ 7) as Hl by (subst l; destruct (Z.ltb_spec n 9); lia).
  assert (0 ≤ (d - 1) / 256 < 32) as Hh by (split; [apply Z.div_pos|apply Z.div_lt_upper_bound]; lia).
  split; [subst c; lia|]. rewrite Z.shiftr_div_pow2 by lia. change 31 with (Z.ones 5). rewrite Z.land_ones by lia.
  change (2 ^ 5) with 32. subst c. rewrite Z.div_add_l, Z.div_small, Z.add_0_r, Z.add_comm, Z.mod_add, Z.mod_small; lia.
Qed.

Lemma ztake_zdrop_mid (p run q : bytes) : ztake (zlen run) (zdrop (zlen p) (p ++ run ++ q)) = run.
Proof. by rewrite zdrop_app_exact, ztake_app_exact. Qed.

(** A valid token that fits is decoded. *)
Definition stepsTo p out k t q : Prop :=
  lzfStep (p ++ encodeToken t ++ q) (out ++ zeros k) (zlen p) (zlen out)
  = Ok (zlen (p ++ encodeToken t), zlen (expandToken out t),
        expandToken out t ++ zeros (length out + k - length (expandToken out t))).

Lemma lzfStep_literal p out k run q :
  validToken out (Literal run) = true → (length (expandToken out (Literal run)) ≤ length out + k)%nat →
  stepsTo p out k (Literal run) q.
Proof.
  intros Hv Hfit. unfold stepsTo. rewrite (length_expandToken out _ Hv) in *. unfold lzfStep. cbn [encodeToken expandToken validToken] in *.
  bool_to_prop. cbn [app]. rewrite byteAtZ_app, b2z_z2b_small by lia. rewrite (proj2 (Z.ltb_lt _ _)) by lia.
  unfold decodeLZFLiteral. replace (zlen run - 1 + 1) with (zlen run) by lia.
  replace (zlen p + 1) with (zlen (p ++ [z2b (zlen run - 1)])) by (rewrite zlen_app; done).
  change (z2b (zlen run - 1) :: run ++ q) with ([z2b (zlen run - 1)] ++ run ++ q). rewrite (app_assoc p).
  rewrite ztake_zdrop_mid. unfold copyAt, zlen in *.
  do 2 rewrite (proj2 (Z.ltb_ge _ _)) by (unfold zeros; rewrite ?length_app, ?length_replicate; cbn; lia).
  rewrite Nat2Z.id, take_app_length, drop_app_ge by lia.
  apply (f_equal Ok), (f_equal2 pair); [apply (f_equal2 pair); rewrite ?length_app; cbn; lia|]. rewrite <- app_assoc. f_equal. f_equal. unfold zeros.
  rewrite drop_replicate. f_equal. lia.
Qed.

Lemma lzfStep_match p out k d n q :
  validToken out (Match d n) = true → (length (expandToken out (Match d n)) ≤ length out + k)%nat →
  stepsTo p out k (Match d n) q.
Proof.
  intros Hv Hfit. unfold stepsTo. rewrite (length_expandToken out _ Hv) in *. unfold lzfStep. cbn [encodeToken expandToken validToken] in *.
  bool_to_prop. destruct (match_control d n ltac:(lia) ltac:(lia)) as (Hc & Hs & Hl). cbn zeta in *.
  set (c := (if n <? 9 then n - 2 else 7) * 32 + (d - 1) / 256) in *.
  assert (∃ mid, (if n <? 9 then [z2b ((n - 2) * 32 + (d - 1) / 256); z2b ((d - 1) mod 256)]
      else [z2b (7 * 32 + (d - 1) / 256); z2b (n - 9); z2b ((d - 1) mod 256)]) = z2b c :: mid ++ [z2b ((d - 1) mod 256)]
      ∧ mid = if n <? 9 then [] else [z2b (n - 9)]) as (mid & -> & Hmid).
  { exists (if n <? 9 then [] else [z2b (n - 9)]). split; [|done]. subst c. by destruct (n <? 9). }
  cbn [app]. rewrite byteAtZ_app, b2z_z2b_small by lia. rewrite (proj2 (Z.ltb_ge _ _)) by lia.
  unfold decodeLZFMatch. rewrite Hs, Hl.
  assert (zlen p + 1 = zlen (p ++ [z2b c])) as -> by (rewrite zlen_app; done).
  change (z2b c :: (mid ++ [z2b ((d - 1) mod 256)]) ++ q) with ([z2b c] ++ (mid ++ [z2b ((d - 1) mod 256)]) ++ q).
  rewrite (app_assoc p [z2b c]). set (p' := p ++ [z2b c]).
  assert ((if (if n <? 9 then n - 2 else 7) =? 7
     then if zlen (p' ++ (mid ++ [z2b ((d - 1) mod 256)]) ++ q) <=? zlen p' then Err LzfTruncatedMatchLength
          else Ok ((if n <? 9 then n - 2 else 7) + byteAtZ (p' ++ (mid ++ [z2b ((d - 1) mod 256)]) ++ q) (zlen p'), zlen p' + 1)
     else Ok (if n <? 9 then n - 2 else 7, zlen p')) = Ok (n - 2, zlen (p' ++ mid))) as ->.
  { subst mid. destruct (Z.ltb_spec n 9).
    - rewrite (proj2 (Z.eqb_neq _ _)) by lia. by rewrite app_nil_r.
    - cbn [Z.eqb Pos.eqb]. rewrite (proj2 (Z.leb_gt _ _)) by (unfold zlen; rewrite !length_app; cbn; lia).
      cbn [app]. rewrite byteAtZ_app, b2z_z2b_small by lia.
      apply (f_equal Ok), (f_equal2 pair); [lia|by rewrite (zlen_app p' [_])]. }
  cbn [result_bind]. rewrite <- (app_assoc mid), (app_assoc p' mid). cbn [app].
  rewrite (proj2 (Z.leb_gt _ _)) by (rewrite (zlen_app (p' ++ mid)), zlen_cons; pose proof (zlen_nonneg q); lia).
  pose proof (Z.mod_pos_bound (d - 1) 256 ltac:(lia)) as Hmod. pose proof (Z.div_mod (d - 1) 256 ltac:(lia)) as Hdm.
  rewrite byteAtZ_app, b2z_z2b_small, Z.shiftl_mul_pow2 by lia. change (2 ^ 8) with 256.
  replace (zlen out - (d - 1) / 256 * 256 - (d - 1) mod 256 - 1) with (zlen out - Z.of_nat (Z.to_nat d)) by lia.
  replace (n - 2 + 2) with n by lia. unfold zlen in *.
  do 2 rewrite (proj2 (Z.ltb_ge _ _)) by (unfold zeros; rewrite ?length_app, ?length_replicate; lia).
  rewrite (copyMatch_extend _ out k (Z.to_nat d)) by lia. rewrite length_extend.
  apply (f_equal Ok), (f_equal2 pair); [apply (f_equal2 pair)|].
  + unfold p'. rewrite !length_app. cbn. rewrite length_app. cbn. lia.
  + lia.
  + f_equal. f_equal. lia.
Qed.

Lemma lzfStep_complete p out k t q :
  validToken out t = true → (length (expandToken out t) ≤ length out + k)%nat → stepsTo p out k t q.
Proof. destruct t; [apply lzfStep_literal|apply lzfStep_match]. Qed.

(** The first bytes of the input spell a valid token that fits. *)
Definition startsToken (c : byte) (rest out : bytes) (k : nat) : Prop :=
  ∃ t q, c :: rest = encodeToken t ++ q ∧ validToken out t = true ∧ (length (expandToken out t) ≤ length out + k)%nat.

Lemma literal_sound p c rest out k r :
  b2z c < 32 → decodeLZFLiteral (p ++ c :: rest) (out ++ zeros k) (zlen p + 1) (zlen out) (b2z c) = Ok r →
  startsToken c rest out k.
Proof.
  intros Hlit. unfold decodeLZFLiteral. pose proof (b2z_range c) as Hc.
  destruct (zlen (p ++ c :: rest) <? _) eqn:E1; [done|]. apply Z.ltb_ge in E1. rewrite zlen_app, zlen_cons in E1.
  destruct (zlen (out ++ zeros k) <? _) eqn:E2; [done|]. apply Z.ltb_ge in E2. intros _.
  exists (Literal (ztake (b2z c + 1) rest)), (zdrop (b2z c + 1) rest).
  assert (zlen (ztake (b2z c + 1) rest) = b2z c + 1) as Hl by (apply zlen_ztake; lia).
  rewrite length_expandToken; cbn [encodeToken validToken]; rewrite ?Hl; [|apply andb_true_intro; split; lia].
  split_and!; [|apply andb_true_intro; split; lia|unfold zlen, zeros in *; rewrite length_app, length_replicate in E2; lia].
  replace (b2z c + 1 - 1) with (b2z c) by lia. rewrite z2b_b2z. cbn [app]. unfold ztake, zdrop. by rewrite take_drop.
Qed.

Lemma match_starts c out k hi l n lo q mid :
  b2z c = l * 32 + hi → 0 ≤ hi < 32 → mid = (if n <? 9 then [] else [z2b (n - 9)]) →
  l = (if n <? 9 then n - 2 else 7) → 3 ≤ n ≤ 264 → hi * 256 + b2z lo + 1 ≤ zlen out → zlen out + n ≤ zlen (out ++ zeros k) →
  startsToken c (mid ++ lo :: q) out k.
Proof.
  intros Hcc Hhi Hmid Hln Hn Hd Hfit. pose proof (b2z_range lo) as Hlo.
  exists (Match (hi * 256 + b2z lo + 1) n), q.
  assert (validToken out (Match (hi * 256 + b2z lo + 1) n) = true) as Hv
    by (cbn [validToken]; repeat (apply andb_true_intro; split); lia).
  split_and!; [|done|rewrite length_expandToken by done; unfold zlen, zeros in *; rewrite length_app, length_replicate in Hfit; lia].
  cbn [encodeToken]. replace (hi * 256 + b2z lo + 1 - 1) with (hi * 256 + b2z lo) by lia.
  assert ((hi * 256 + b2z lo) / 256 = hi ∧ (hi * 256 + b2z lo) mod 256 = b2z lo) as [-> ->]
    by (Z.div_mod_to_equations; lia). rewrite z2b_b2z.
  rewrite Hmid. destruct (n <? 9).
  - replace ((n - 2) * 32 + hi) with (b2z c) by lia. by rewrite z2b_b2z.
  - replace (7 * 32 + hi) with (b2z c) by lia. by rewrite z2b_b2z.
Qed.

Lemma byteAtZ_after p q b rest i : i = zlen p + zlen q → byteAtZ (p ++ q ++ b :: rest) i = b2z b.
Proof. intros ->. by rewrite <-zlen_app, app_assoc, byteAtZ_app. Qed.

Lemma match_sound p c rest out k r :
  32 ≤ b2z c → decodeLZFMatch (p ++ c :: rest) (out ++ zeros k) (zlen p + 1) (zlen out) (b2z c) = Ok r →
  startsToken c rest out k.
Proof.
  intros Hmat. pose proof (b2z_range c) as Hc.
  unfold decodeLZFMatch. rewrite Z.shiftr_div_pow2 by lia. change 31 with (Z.ones 5). rewrite Z.land_ones by lia.
  change (2 ^ 5) with 32. set (l := b2z c / 32). set (hi := b2z c mod 32).
  assert (b2z c = l * 32 + hi ∧ 1 ≤ l ≤ 7 ∧ 0 ≤ hi < 32) as (Hcc & Hl & Hhi).
  { subst l hi. pose proof (Z.div_mod (b2z c) 32 ltac:(lia)). pose proof (Z.mod_pos_bound (b2z c) 32 ltac:(lia)).
    split_and!; lia. }
  destruct (Z.eqb_spec l 7) as [Hl7|Hl7].
  - destruct (_ <=? zlen p + 1) eqn:E1; [done|]. cbn [result_bind]. destruct (_ <=? zlen p + 1 + 1) eqn:E2; [done|].
    apply Z.leb_gt in E2. rewrite zlen_app, zlen_cons in E2.
    destruct rest as [|b [|lo q]]; [unfold zlen in E2; cbn in E2; lia..|].
    rewrite (byteAtZ_after p [c] b (lo :: q) (zlen p + 1) : _ → byteAtZ (p ++ c :: b :: lo :: q) _ = _) by done.
    rewrite (byteAtZ_after p [c; b] lo q : ∀ i, _ → byteAtZ (p ++ c :: b :: lo :: q) i = _) by (unfold zlen; cbn; lia).
    rewrite Z.shiftl_mul_pow2 by lia. change (2 ^ 8) with 256. pose proof (b2z_range b).
    destruct (Z.ltb_spec (zlen out - hi * 256 - b2z lo - 1) 0); [done|].
    destruct (Z.ltb_spec (zlen (out ++ zeros k)) (zlen out + (l + b2z b + 2))); [done|]. intros _.
    apply (match_starts c out k hi l (9 + b2z b) lo q [b]); try lia; rewrite (proj2 (Z.ltb_ge _ _)) by lia; [|done].
    replace (9 + b2z b - 9) with (b2z b) by lia. by rewrite z2b_b2z.
  - cbn [result_bind]. destruct (_ <=? zlen p + 1) eqn:E2; [done|].
    apply Z.leb_gt in E2. rewrite zlen_app, zlen_cons in E2.
    destruct rest as [|lo q]; [unfold zlen in E2; cbn in E2; lia|].
    rewrite (byteAtZ_after p [c] lo q : ∀ i, _ → byteAtZ (p ++ c :: lo :: q) i = _) by done. rewrite Z.shiftl_mul_pow2 by lia. change (2 ^ 8) with 256.
    destruct (Z.ltb_spec (zlen out - hi * 256 - b2z lo - 1) 0); [done|].
    destruct (Z.ltb_spec (zlen (out ++ zeros k)) (zlen out + (l + 2))); [done|]. intros _.
    apply (match_starts c out k hi l (l + 2) lo q []); try lia; rewrite (proj2 (Z.ltb_lt _ _)) by lia; [done|lia].
Qed.

(** What the decoder accepts starts with a valid token. *)
Lemma lzfStep_sound p c rest out k r :
  lzfStep (p ++ c :: rest) (out ++ zeros k) (zlen p) (zlen out) = Ok r → startsToken c rest out k.
Proof.
  unfold lzfStep. rewrite byteAtZ_app. destruct (Z.ltb_spec (b2z c) 32); [by eapply literal_sound|by eapply match_sound].
Qed.

Lemma encodeToken_nonempty t : (1 ≤ length (encodeToken t))%nat.
Proof. destruct t as [run|d n]; cbn; [lia|]. case_match; cbn; lia. Qed.

Lemma expandTokens_grow ts : ∀ out, (length out ≤ length (foldl expandToken out ts))%nat.
Proof.
  induction ts as [|t ts IH]; intros out; cbn [foldl]; [done|]. etrans; [|apply IH].
  destruct t as [run|d n]; cbn [expandToken]; [rewrite length_app|rewrite length_extend]; lia.
Qed.

Lemma decompressLoop_spec fuel : ∀ p rest out k final,
  (length rest < fuel)%nat →
  decompressLoop fuel (p ++ rest) (out ++ zeros k) (zlen p) (zlen out) = Ok final
  ↔ ∃ ts, rest = encodeTokens ts ∧ validTokens out ts = true ∧ final = foldl expandToken out ts
      ∧ length final = (length out + k)%nat.
Proof.
  induction fuel as [|fuel IH]; intros p rest out k final Hf; [lia|]. cbn [decompressLoop].
  destruct rest as [|c rest].
  - rewrite app_nil_r, Z.ltb_irrefl. unfold zlen at 1 2, zeros. rewrite length_app, length_replicate. split.
    + destruct (Z.eqb_spec (Z.of_nat (length out)) (Z.of_nat (length out + k))); [|done].
      assert (k = O) as -> by lia. cbn [replicate]. rewrite app_nil_r. intros [= <-]. exists []. split_and!; (done || lia).
    + intros (ts & He & _ & -> & Hl). destruct ts as [|t ts]; cbn [foldl] in *.
      * assert (k = O) as -> by lia. rewrite Nat.add_0_r, Z.eqb_refl. cbn. by rewrite app_nil_r.
      * apply (f_equal length) in He. unfold encodeTokens in He. cbn in He. rewrite length_app in He.
        pose proof (encodeToken_nonempty t). lia.
  - rewrite (proj2 (Z.ltb_lt _ _)) by (rewrite zlen_app, zlen_cons; pose proof (zlen_nonneg rest); lia).
    change (if byteAtZ (p ++ c :: rest) (zlen p) <? 32 then _ else _)
      with (lzfStep (p ++ c :: rest) (out ++ zeros k) (zlen p) (zlen out)).
    assert (∀ t q, c :: rest = encodeToken t ++ q → validToken out t = true → (length (expandToken out t) ≤ length out + k)%nat →
      (let? (ip, op, output) := lzfStep (p ++ c :: rest) (out ++ zeros k) (zlen p) (zlen out) in
       decompressLoop fuel (p ++ c :: rest) output ip op) = Ok final ↔
      ∃ ts, q = encodeTokens ts ∧ validTokens (expandToken out t) ts = true
        ∧ final = foldl expandToken (expandToken out t) ts ∧ length final = (length out + k)%nat) as Hstep.
    { intros t q Heq Hv Hfit. rewrite Heq, (lzfStep_complete p out k t q Hv Hfit). cbn [result_bind].
      rewrite app_assoc, IH.
      - by replace (length (expandToken out t) + (length out + k - length (expandToken out t)))%nat with (length out + k)%nat by lia.
      - apply (f_equal length) in Heq. rewrite length_app in Heq. cbn in Heq, Hf. pose proof (encodeToken_nonempty t). lia. }
    split.
    + destruct (lzfStep _ _ _ _) as [r|] eqn:E; [|done].
      destruct (lzfStep_sound _ _ _ _ _ _ E) as (t & q & Heq & Hv & Hfit).
      intros H. apply (Hstep t q Heq Hv Hfit) in H as (ts & -> & Hvs & -> & Hl).
      exists (t :: ts). cbn [validTokens foldl]. rewrite Hv, Heq. by split_and!.
    + intros (ts & Heq & Hvs & -> & Hl). destruct ts as [|t ts]; [done|]. cbn [validTokens foldl] in *. bool_to_prop.
      apply (Hstep t (encodeTokens ts)); try done; [|by exists ts].
      pose proof (expandTokens_grow ts (expandToken out t)). lia.
Qed.

(** The LZF decoder accepts exactly the encodings of valid token streams of the
    declared length, and returns what they expand to; it runs off neither
    buffer. *)
Theorem decompressLZF_exact input n out :
  0 ≤ n →
  decompressLZF input n = Ok out
  ↔ ∃ ts, input = encodeTokens ts ∧ validTokens [] ts = true ∧ out = expandTokens ts ∧ zlen out = n.
Proof.
  intros Hn. unfold decompressLZF.
  change (replicate (Z.to_nat n) x00) with ([] ++ zeros (Z.to_nat n)). change input with ([] ++ input) at 2.
  change 0 with (zlen (@nil byte)) at 1. change 0 with (zlen (@nil byte)).
  rewrite decompressLoop_spec by lia. cbn [length]. unfold zlen. split; intros (ts & ? & ? & ? & ?); exists ts; split_and!; (done || lia).
Qed.

Lemma decompressLZF_exact_witness :
  0 ≤ 6 ∧ (decompressLZF (encodeTokens [Literal (bs "ab"); Match 2 4]) 6 = Ok (bs "ababab")
    ↔ ∃ ts, encodeTokens [Literal (bs "ab"); Match 2 4] = encodeTokens ts ∧ validTokens [] ts = true
        ∧ bs "ababab" = expandTokens ts ∧ zlen (bs "ababab") = 6).
Proof. split; [lia|apply (decompressLZF_exact (encodeTokens [Literal (bs "ab"); Match 2 4]) 6 (bs "ababab")); lia]. Defined.
