(* ===== verification/Float64.v ===== *)
(** * Scores: IEEE-754 doubles and the (score, member) order

    A Go [float64] is a [spec_float] of the Standard Library; [<], [>] and [==]
    are its comparisons, false as soon as a NaN is involved.  Sorted sets order
    entries by score, ties broken by member bytes ([zsetLess] of zset.go and the
    comparison function of compact_zset.go); away from NaN, which the command
    layer rejects, this is a strict order that decides any two entries with
    different members. *)

From Stdlib Require Export SpecFloat.
From S2P Require Import Prelude.

Abbreviation float64 := spec_float.

#[global] Instance float64_eq_dec : EqDecision float64.
Proof. solve_decision. Defined.

Definition flt (x y : float64) : bool := SFltb x y.
Definition fgt (x y : float64) : bool := SFltb y x.
Definition feq (x y : float64) : bool := SFeqb x y.

Definition isNaN (x : float64) : bool := match x with S754_nan => true | _ => false end.

(** The double with the value of a small integer. *)
Definition floatOfZ (z : Z) : float64 := binary_normalize 53 1024 z 0 false.

(** [bytes.Compare] is negative. *)
Definition bytesLess (a b : bytes) : bool := bytes_ltb a b.

(** [zsetLess]. *)
Definition zsetLess (leftScore : float64) (leftMember : bytes)
    (rightScore : float64) (rightMember : bytes) : bool :=
  if negb (feq leftScore rightScore) then flt leftScore rightScore
  else bytesLess leftMember rightMember.

(** ** Lemmas *)

(** Scores embed in lexicographically ordered integer triples. *)
Definition fkey (x : float64) : Z * Z * Z :=
  match x with
  | S754_infinity true => (-2, 0, 0)
  | S754_finite true m e => (-1, - e, - Zpos m)
  | S754_zero _ | S754_nan => (0, 0, 0)
  | S754_finite false m e => (1, e, Zpos m)
  | S754_infinity false => (2, 0, 0)
  end.

Definition triple_lt (a b : Z * Z * Z) : Prop :=
  let '(a1, a2, a3) := a in let '(b1, b2, b3) := b in
  a1 < b1 ∨ (a1 = b1 ∧ (a2 < b2 ∨ (a2 = b2 ∧ a3 < b3))).

Lemma SFcompare_key x y :
  isNaN x = false → isNaN y = false →
  ∃ c, SFcompare x y = Some c ∧
    match c with Lt => triple_lt (fkey x) (fkey y) | Gt => triple_lt (fkey y) (fkey x)
               | Eq => fkey x = fkey y end.
Proof.
  destruct x as [[]|[]| |[] m1 e1]; try done; destruct y as [[]|[]| |[] m2 e2]; try done;
    intros _ _; (eexists; split; [reflexivity|]); cbn; try lia; try done.
  - destruct (Z.compare_spec e1 e2) as [->|?|?]; cbn; [|lia|lia].
    change (Pos.compare_cont Eq m1 m2) with (Pos.compare m1 m2).
    destruct (Pos.compare_spec m1 m2); subst; cbn; [done|lia|lia].
  - destruct (Z.compare_spec e1 e2) as [->|?|?]; cbn; [|lia|lia].
    change (Pos.compare_cont Eq m1 m2) with (Pos.compare m1 m2).
    destruct (Pos.compare_spec m1 m2); subst; cbn; [done|lia|lia].
Qed.

Lemma triple_lt_irrefl a : ¬ triple_lt a a.
Proof. destruct a as [[? ?] ?]. cbn. lia. Qed.

Lemma triple_lt_trans a b c : triple_lt a b → triple_lt b c → triple_lt a c.
Proof. destruct a as [[? ?] ?], b as [[? ?] ?], c as [[? ?] ?]. cbn. lia. Qed.

Lemma flt_key x y :
  isNaN x = false → isNaN y = false → flt x y = true ↔ triple_lt (fkey x) (fkey y).
Proof.
  intros Hx Hy. destruct (SFcompare_key x y Hx Hy) as (c & Hc & H). unfold flt, SFltb. rewrite Hc.
  destruct c; split; try done; intros H'; exfalso.
  - rewrite H in H'. by apply triple_lt_irrefl in H'.
  - by eapply triple_lt_irrefl, triple_lt_trans.
Qed.

Lemma feq_key x y :
  isNaN x = false → isNaN y = false → feq x y = true ↔ fkey x = fkey y.
Proof.
  intros Hx Hy. destruct (SFcompare_key x y Hx Hy) as (c & Hc & H). unfold feq, SFeqb. rewrite Hc.
  destruct c; split; try done; intros H'; exfalso; rewrite H' in H; by apply triple_lt_irrefl in H.
Qed.

Lemma triple_lt_total a b : a ≠ b → triple_lt a b ∨ triple_lt b a.
Proof.
  destruct a as [[a1 a2] a3], b as [[b1 b2] b3]. cbn. intros Hne.
  destruct (decide (a1 = b1)), (decide (a2 = b2)), (decide (a3 = b3)); subst; try done; lia.
Qed.

(** ** The order of sorted-set entries *)

Abbreviation scored := (bytes * float64)%type.

Definition entryLess (a b : scored) : bool := zsetLess a.2 a.1 b.2 b.1.

Definition scoreOk (a : scored) : Prop := isNaN a.2 = false.

Lemma entryLess_spec a b :
  scoreOk a → scoreOk b →
  entryLess a b = true ↔
    triple_lt (fkey a.2) (fkey b.2) ∨ (fkey a.2 = fkey b.2 ∧ bytes_ltb a.1 b.1 = true).
Proof.
  intros Ha Hb. unfold entryLess, zsetLess, bytesLess.
  destruct (feq a.2 b.2) eqn:E; cbn [negb].
  - apply feq_key in E; [|done|done]. rewrite E. split; [by right|].
    intros [H|[_ H]]; [by apply triple_lt_irrefl in H|done].
  - rewrite flt_key by done. split; [by left|]. intros [H|[H _]]; [done|].
    apply feq_key in H; [|done|done]. congruence.
Qed.

Lemma entryLess_irrefl a : scoreOk a → entryLess a a = false.
Proof.
  intros Ha. destruct (entryLess a a) eqn:E; [|done]. apply entryLess_spec in E; [|done|done].
  destruct E as [E|[_ E]]; [by apply triple_lt_irrefl in E|]. by rewrite ltb_irrefl in E.
Qed.

Lemma entryLess_trans a b c :
  scoreOk a → scoreOk b → scoreOk c →
  entryLess a b = true → entryLess b c = true → entryLess a c = true.
Proof.
  intros Ha Hb Hc. rewrite !entryLess_spec by done.
  intros [H1|[H1 H1']] [H2|[H2 H2']].
  - left. by eapply triple_lt_trans.
  - left. by rewrite <- H2.
  - left. by rewrite H1.
  - right. split; [congruence|]. by eapply ltb_trans.
Qed.

(** Two entries with different members are always ordered. *)
Lemma entryLess_total a b :
  scoreOk a → scoreOk b → a.1 ≠ b.1 → entryLess a b = true ∨ entryLess b a = true.
Proof.
  intros Ha Hb Hne. rewrite !entryLess_spec by done.
  destruct (decide (fkey a.2 = fkey b.2)) as [He|He].
  - destruct (bytes_ltb a.1 b.1) eqn:E1; [by left; right|].
    destruct (bytes_ltb b.1 a.1) eqn:E2; [by right; right|].
    exfalso. apply Hne. by apply ltb_total.
  - destruct (triple_lt_total _ _ He); [by left; left|by right; left].
Qed.

Lemma entryLess_asym a b :
  scoreOk a → scoreOk b → entryLess a b = true → entryLess b a = false.
Proof.
  intros Ha Hb H. destruct (entryLess b a) eqn:E; [|done].
  pose proof (entryLess_trans a b a Ha Hb Ha H E) as H'. by rewrite entryLess_irrefl in H'.
Qed.

(** [ZSetOrdered]: strictly ascending in the entry order. *)
Abbreviation ZSetOrdered := (StronglySorted (λ a b, entryLess a b = true)).

(** A set of entries has one ordering. *)
Lemma ordered_unique (l1 l2 : list scored) :
  Forall scoreOk l1 → l1 ≡ₚ l2 → ZSetOrdered l1 → ZSetOrdered l2 → l1 = l2.
Proof.
  revert l2. induction l1 as [|a l1 IH]; intros l2 Hok Hp H1 H2.
  { by apply Permutation_nil_l in Hp. }
  destruct l2 as [|b l2]; [by apply Permutation_nil_r in Hp|].
  assert (Forall scoreOk (b :: l2)) as Hok2 by (by rewrite <- Hp).
  inversion H1 as [|? ? H1' Ha]; inversion H2 as [|? ? H2' Hb]; subst.
  apply Forall_cons in Hok as [Hoka Hok]. apply Forall_cons in Hok2 as [Hokb Hok2].
  assert (a = b) as ->.
  { assert (a ∈ b :: l2) as [->|Hain]%elem_of_cons by (rewrite <- Hp; set_solver); [done|].
    assert (b ∈ a :: l1) as [->|Hbin]%elem_of_cons by (rewrite Hp; set_solver); [done|].
    rewrite Forall_forall in Ha, Hb. specialize (Ha b Hbin). specialize (Hb a Hain).
    apply entryLess_asym in Ha; [|done|done]. simpl in *. congruence. }
  f_equal. apply IH; try done. by apply Permutation_cons_inv in Hp.
Qed.
