(* ===== verification/CompactZSet.v ===== *)
(** * Compact sorted sets

    Models [internal/storage/compact_zset.go] and the score ranges of
    [types.go]: a small sorted set kept as a member arena and an entry table
    sorted by score and member.  The table is re-sorted after every change, so
    reading it in order is reading the sorted set. *)

From S2P Require Import Prelude Strconv GoLib Float64 CompactHash.

Definition compactZSetMaxEntries : Z := 8.
Definition compactZSetMaxMemberLen : Z := 64.

(** ** Score ranges ([types.go]) *)

Record ScoreRange := mkScoreRange {
  Min : float64;
  Max : float64;
  MinExclusive : bool;
  MaxExclusive : bool
}.

Definition belowMin (r : ScoreRange) (score : float64) : bool :=
  flt score (Min r) || (MinExclusive r && feq score (Min r)).

Definition aboveMax (r : ScoreRange) (score : float64) : bool :=
  fgt score (Max r) || (MaxExclusive r && feq score (Max r)).

(** ** The compact encoding *)

Record compactZSetEntry := mkZEntry {
  memberStart : nat;
  memberLen : nat;
  score : float64
}.

Record CompactZSet := mkCompactZSet {
  zentries : list compactZSetEntry;
  zarena : bytes
}.

Definition CompactZSet_memberBytes (s : CompactZSet) (entry : compactZSetEntry) : bytes :=
  slice (zarena s) (memberStart entry) (memberLen entry).

Definition CompactZSet_member (s : CompactZSet) (entry : compactZSetEntry) : bytes :=
  CompactZSet_memberBytes s entry.

Definition CompactZSet_memberEqual (s : CompactZSet) (entry : compactZSetEntry) (member : bytes) : bool :=
  bool_decide (CompactZSet_memberBytes s entry = member).

Definition CompactZSet_len (s : CompactZSet) : Z := zlen (zentries s).

(** [bytes.Compare]. *)
Definition bytesCompare (a b : bytes) : comparison :=
  if bytes_ltb a b then Lt else if bytes_ltb b a then Gt else Eq.

(** The comparison function handed to [slices.SortFunc]. *)
Definition compareEntries (s : CompactZSet) (lhs rhs : compactZSetEntry) : comparison :=
  if flt (score lhs) (score rhs) then Lt
  else if fgt (score lhs) (score rhs) then Gt
  else bytesCompare (CompactZSet_memberBytes s lhs) (CompactZSet_memberBytes s rhs).

Definition notGreater (s : CompactZSet) (lhs rhs : compactZSetEntry) : Prop :=
  compareEntries s lhs rhs ≠ Gt.

#[global] Instance notGreater_dec s : RelDecision (notGreater s).
Proof. intros l r. unfold notGreater. solve_decision. Defined.

(** [slices.SortFunc]: no two entries compare equal, so every sorting algorithm
    gives the result of this one ([sort_unique]). *)
Definition CompactZSet_sort (s : CompactZSet) : CompactZSet :=
  mkCompactZSet (merge_sort (notGreater s) (zentries s)) (zarena s).

Fixpoint findMember (s : CompactZSet) (member : bytes) (es : list compactZSetEntry) (i : nat)
    : option (nat * compactZSetEntry) :=
  match es with
  | [] => None
  | entry :: es' =>
      if CompactZSet_memberEqual s entry member then Some (i, entry) else findMember s member es' (S i)
  end.

Definition CompactZSet_add (s : CompactZSet) (member : bytes) (sc : float64) : CompactZSet * bool :=
  match findMember s member (zentries s) 0 with
  | Some (i, entry) =>
      if feq (score entry) sc then (s, false)
      else (CompactZSet_sort (mkCompactZSet
              (<[i := mkZEntry (memberStart entry) (memberLen entry) sc]> (zentries s)) (zarena s)), false)
  | None =>
      let start := length (zarena s) in
      (CompactZSet_sort (mkCompactZSet (zentries s ++ [mkZEntry start (length member) sc])
         (zarena s ++ member)), true)
  end.

Definition emptyCompactZSet : CompactZSet := mkCompactZSet [] [].

Definition newCompactZSet (entries : list scored) : CompactZSet :=
  foldl (λ s '(m, sc), (CompactZSet_add s m sc).1) emptyCompactZSet entries.

Definition cloneCompactZSet (src : option CompactZSet) : option CompactZSet := src.

Definition CompactZSet_score (s : CompactZSet) (member : bytes) : option float64 :=
  match findMember s member (zentries s) 0 with
  | Some (_, entry) => Some (score entry)
  | None => None
  end.

Definition rangeEntry (s : CompactZSet) (entry : compactZSetEntry) : scored :=
  (CompactZSet_member s entry, score entry).

Definition CompactZSet_rangeByRank (s : CompactZSet) (start stop : Z) : list scored :=
  if (start <? 0) || (stop <? start) || (zlen (zentries s) <=? start) then []
  else
    let stop := if zlen (zentries s) <=? stop then zlen (zentries s) - 1 else stop in
    rangeEntry s <$> ztake (stop + 1 - start) (zdrop start (zentries s)).

Fixpoint rangeByScoreLoop (s : CompactZSet) (r : ScoreRange) (es : list compactZSetEntry) : list scored :=
  match es with
  | [] => []
  | entry :: es' =>
      if aboveMax r (score entry) then []
      else if negb (belowMin r (score entry)) then rangeEntry s entry :: rangeByScoreLoop s r es'
      else rangeByScoreLoop s r es'
  end.

Definition CompactZSet_rangeByScore (s : CompactZSet) (r : ScoreRange) : list scored :=
  rangeByScoreLoop s r (zentries s).

Example CompactZSet_reorder :
  let s := newCompactZSet [(bs "b", floatOfZ 2); (bs "a", floatOfZ 2); (bs "c", floatOfZ 1)] in
  let s' := (CompactZSet_add s (bs "c") (floatOfZ 3)).1 in
  (fst <$> CompactZSet_rangeByRank s 0 9, fst <$> CompactZSet_rangeByRank s' 1 2)
  = ([bs "c"; bs "a"; bs "b"], [bs "b"; bs "c"]).
Proof. vm_compute. reflexivity. Qed.

(** ** The invariant *)

(** The members with their scores, in table order. *)
Definition CompactZSet_list (s : CompactZSet) : list scored := rangeEntry s <$> zentries s.

Record CompactZSetWf (s : CompactZSet) : Prop := {
  zwf_bounds : Forall (λ e, memberStart e + memberLen e ≤ length (zarena s))%nat (zentries s);
  zwf_members : NoDup (CompactZSet_list s).*1;
  zwf_scores : Forall scoreOk (CompactZSet_list s);
  zwf_ordered : ZSetOrdered (CompactZSet_list s)
}.

(** ** Sorting *)

Lemma bytesCompare_Gt a b : bytesCompare a b = Gt ↔ bytes_ltb b a = true.
Proof.
  unfold bytesCompare. destruct (bytes_ltb a b) eqn:E1, (bytes_ltb b a) eqn:E2; try done.
  pose proof (ltb_asym bytes_ltb _ _ E1). congruence.
Qed.

Lemma notGreater_total s : Total (notGreater s).
Proof.
  intros l r. unfold notGreater, compareEntries, fgt, flt.
  destruct (SFltb (score l) (score r)) eqn:E1; [by left|].
  destruct (SFltb (score r) (score l)) eqn:E2; [by right|].
  destruct (decide (bytesCompare (CompactZSet_memberBytes s l) (CompactZSet_memberBytes s r) = Gt)) as [H|H];
    [right|by left].
  rewrite bytesCompare_Gt in *. pose proof (ltb_asym bytes_ltb _ _ H). congruence.
Qed.

(** The comparison function agrees with the entry order of [zset.go]. *)
Lemma notGreater_less s l r :
  scoreOk (rangeEntry s l) → scoreOk (rangeEntry s r) →
  CompactZSet_memberBytes s l ≠ CompactZSet_memberBytes s r →
  notGreater s l r → entryLess (rangeEntry s l) (rangeEntry s r) = true.
Proof.
  intros Hl Hr Hne Hng. destruct (entryLess_total _ _ Hl Hr Hne) as [H|H]; [done|exfalso].
  apply Hng. apply entryLess_spec in H; [|done|done]. unfold compareEntries, scoreOk, rangeEntry, fgt in *.
  cbn [fst snd] in *. rewrite <- flt_key in H by done.
  destruct H as [H|[He Hb]].
  - unfold flt in *. destruct (SFltb (score l) (score r)) eqn:E; [|by rewrite H].
    apply flt_key in E, H; try done. by destruct (triple_lt_irrefl (fkey (score l))); eapply triple_lt_trans.
  - assert (∀ x y, isNaN x = false → isNaN y = false → fkey x = fkey y → SFltb x y = false) as Hn.
    { intros x y Hx Hy Hk. destruct (SFltb x y) eqn:E; [|done]. apply flt_key in E; [|done|done].
      rewrite Hk in E. by apply triple_lt_irrefl in E. }
    unfold flt. rewrite !Hn by (done || by symmetry). by apply bytesCompare_Gt.
Qed.

(** A chain of entries with distinct members is strictly ordered. *)
Lemma chain_ordered (l : list scored) :
  Forall scoreOk l → Sorted (λ a b, entryLess a b = true) l → ZSetOrdered l.
Proof.
  intros Hok Hs. induction Hs as [|a l Hs IH Hhd]; [constructor|].
  apply Forall_cons in Hok as [Ha Hok]. specialize (IH Hok). constructor; [done|].
  destruct l as [|b l]; [done|]. apply HdRel_inv in Hhd. inversion IH as [|? ? _ Hb]; subst.
  constructor; [done|]. apply Forall_cons in Hok as [Hbok Hok]. rewrite Forall_forall in *.
  intros c Hc. eapply (entryLess_trans a b c); [done|done|by apply Hok|done|by apply Hb].
Qed.

Lemma Sorted_fmap_notGreater s es :
  Forall scoreOk (rangeEntry s <$> es) → NoDup (rangeEntry s <$> es).*1 →
  Sorted (notGreater s) es → Sorted (λ a b, entryLess a b = true) (rangeEntry s <$> es).
Proof.
  intros Hok Hnd Hs. induction Hs as [|e es Hs IH Hhd]; [constructor|].
  rewrite !fmap_cons in *. apply Forall_cons in Hok as [He Hok]. apply NoDup_cons in Hnd as [Hni Hnd].
  constructor; [by apply IH|]. destruct es as [|e' es]; [constructor|].
  apply HdRel_inv in Hhd. rewrite !fmap_cons in *. constructor. apply notGreater_less; try done.
  - by apply Forall_cons in Hok as [? _].
  - intros Heq. apply Hni. cbn. rewrite elem_of_cons. by left.
Qed.

Lemma sort_list_Permutation s : CompactZSet_list (CompactZSet_sort s) ≡ₚ CompactZSet_list s.
Proof.
  unfold CompactZSet_list, CompactZSet_sort. cbn. apply fmap_Permutation, merge_sort_Permutation.
Qed.

(** Sorting establishes the invariant. *)
Lemma sort_wf s :
  Forall (λ e, memberStart e + memberLen e ≤ length (zarena s))%nat (zentries s) →
  NoDup (CompactZSet_list s).*1 → Forall scoreOk (CompactZSet_list s) →
  CompactZSetWf (CompactZSet_sort s).
Proof.
  intros Hb Hnd Hok. pose proof (sort_list_Permutation s) as Hp. split.
  - unfold CompactZSet_sort. cbn. by rewrite merge_sort_Permutation.
  - by rewrite Hp.
  - by rewrite Hp.
  - apply chain_ordered; [by rewrite Hp|]. unfold CompactZSet_list. rewrite <- Hp in Hnd, Hok.
    apply Sorted_fmap_notGreater; [exact Hok|exact Hnd|]. cbn.
    change (notGreater (CompactZSet_sort s)) with (notGreater s).
    apply Sorted_merge_sort, notGreater_total.
Qed.

(** The result of sorting is the only ordered arrangement, whatever algorithm
    [slices.SortFunc] uses. *)
Lemma sort_unique s l :
  Forall (λ e, memberStart e + memberLen e ≤ length (zarena s))%nat (zentries s) →
  NoDup (CompactZSet_list s).*1 → Forall scoreOk (CompactZSet_list s) →
  l ≡ₚ CompactZSet_list s → ZSetOrdered l → l = CompactZSet_list (CompactZSet_sort s).
Proof.
  intros Hb Hnd Hok Hp Ho. apply ordered_unique; [by rewrite Hp| |done|by apply sort_wf].
  by rewrite Hp, sort_list_Permutation.
Qed.

(** ** What a sorted set promises

    Both encodings stand for an ordered list of scored members.  [zadd] is the
    effect of adding a member on the map from members to scores: an equal score,
    in the sense of [==], leaves the stored one. *)

Definition zadd (m : gmap bytes float64) (member : bytes) (sc : float64) : gmap bytes float64 :=
  match m !! member with
  | Some old => if feq old sc then m else <[member := sc]> m
  | None => <[member := sc]> m
  end.

Definition rankSlice (l : list scored) (start stop : Z) : list scored :=
  if (start <? 0) || (stop <? start) || (zlen l <=? start) then []
  else ztake (Z.min stop (zlen l - 1) + 1 - start) (zdrop start l).

Definition inRange (r : ScoreRange) (e : scored) : bool := negb (belowMin r e.2) && negb (aboveMax r e.2).

Definition scoreSlice (l : list scored) (r : ScoreRange) : list scored := List.filter (inRange r) l.

(** ** Refinement *)

Definition CompactZSet_map (s : CompactZSet) : gmap bytes float64 := list_to_map (CompactZSet_list s).

Lemma findMember_view s m :
  (∃ l1 e l2, zentries s = l1 ++ e :: l2 ∧ CompactZSet_memberBytes s e = m
     ∧ findMember s m (zentries s) 0 = Some (length l1, e))
  ∨ (m ∉ (CompactZSet_list s).*1 ∧ findMember s m (zentries s) 0 = None).
Proof.
  assert (∀ es i,
    (∃ l1 e l2, es = l1 ++ e :: l2 ∧ CompactZSet_memberBytes s e = m
       ∧ findMember s m es i = Some ((i + length l1)%nat, e))
    ∨ (m ∉ (rangeEntry s <$> es).*1 ∧ findMember s m es i = None)) as H; [|by apply (H _ O)].
  induction es as [|e es IH]; intros i; [right; split; [set_solver|done]|]. cbn [findMember].
  unfold CompactZSet_memberEqual. case_bool_decide as Hf.
  - left. exists [], e, es. by rewrite Nat.add_0_r.
  - destruct (IH (S i)) as [(l1 & e' & l2 & -> & ? & ->)|[? ->]].
    + left. exists (e :: l1), e', l2. split_and!; [done|done|]. simpl. do 2 f_equal. lia.
    + right. split; [|done]. cbn. apply not_elem_of_cons. split; [|done]. by intros ->.
Qed.

Lemma zlist_split s l1 e l2 m :
  zentries s = l1 ++ e :: l2 → CompactZSet_memberBytes s e = m →
  CompactZSet_list s = (rangeEntry s <$> l1) ++ (m, score e) :: (rangeEntry s <$> l2).
Proof.
  intros He Hm. unfold CompactZSet_list. rewrite He, fmap_app, fmap_cons.
  unfold rangeEntry at 2, CompactZSet_member. by rewrite Hm.
Qed.

Lemma CompactZSet_score_spec s m :
  CompactZSetWf s → CompactZSet_score s m = CompactZSet_map s !! m.
Proof.
  intros Hwf. unfold CompactZSet_score, CompactZSet_map.
  destruct (findMember_view s m) as [(l1 & e & l2 & He & Hm & ->)|[Hn ->]]; symmetry.
  - apply elem_of_list_to_map_1; [apply Hwf|]. rewrite (zlist_split _ _ _ _ _ He Hm). set_solver.
  - by apply not_elem_of_list_to_map_1.
Qed.

Lemma CompactZSet_len_spec s : CompactZSetWf s → CompactZSet_len s = Z.of_nat (size (CompactZSet_map s)).
Proof.
  intros Hwf. unfold CompactZSet_len, CompactZSet_map.
  rewrite map_size_list_to_map by apply Hwf. unfold CompactZSet_list. by rewrite length_fmap.
Qed.

Lemma sort_map s :
  NoDup (CompactZSet_list s).*1 → CompactZSet_map (CompactZSet_sort s) = CompactZSet_map s.
Proof.
  intros Hnd. symmetry. apply list_to_map_proper; [done|]. symmetry. apply sort_list_Permutation.
Qed.

Lemma CompactZSet_add_spec s m sc s' b :
  CompactZSetWf s → isNaN sc = false → CompactZSet_add s m sc = (s', b) →
  CompactZSetWf s' ∧ CompactZSet_map s' = zadd (CompactZSet_map s) m sc
  ∧ b = bool_decide (CompactZSet_map s !! m = None).
Proof.
  intros Hwf Hsc. unfold CompactZSet_add, zadd. rewrite <- (CompactZSet_score_spec s m Hwf).
  unfold CompactZSet_score. pose proof Hwf as [Hb Hnd Hok Ho].
  destruct (findMember_view s m) as [(l1 & e & l2 & He & Hm & ->)|[Hn ->]].
  - destruct (feq (score e) sc) eqn:E; intros [= <- <-]; [done|].
    pose proof (zlist_split _ _ _ _ _ He Hm) as Hl. rewrite Hl in Hnd, Hok.
    set (s1 := mkCompactZSet _ _).
    assert (CompactZSet_list s1 = (rangeEntry s <$> l1) ++ (m, sc) :: (rangeEntry s <$> l2)) as Hl1.
    { apply (zlist_split s1 l1 (mkZEntry (memberStart e) (memberLen e) sc) l2); [|exact Hm].
      unfold s1. cbn [zentries]. rewrite He, insert_app_r_alt, Nat.sub_diag by done. done. }
    assert (NoDup (CompactZSet_list s1).*1) as Hnd1
      by (rewrite Hl1; by eapply assoc_middle_NoDup).
    split_and!; [| |done].
    + apply sort_wf; [|done|].
      * unfold s1. cbn [zarena zentries]. rewrite He in Hb |- *.
        rewrite insert_app_r_alt, Nat.sub_diag by done. cbn [insert list_insert].
        rewrite Forall_app, Forall_cons in *. done.
      * rewrite Hl1. rewrite Forall_app, Forall_cons in *. naive_solver.
    + rewrite sort_map by done. unfold CompactZSet_map. rewrite Hl1, Hl. by apply assoc_overwrite.
  - intros [= <- <-]. set (s1 := mkCompactZSet _ _).
    assert (CompactZSet_list s1 = CompactZSet_list s ++ [(m, sc)]) as Hl1.
    { unfold CompactZSet_list, s1. cbn [zentries]. rewrite fmap_app. f_equal.
      - apply list_fmap_ext. intros i e He. apply list_elem_of_lookup_2 in He.
        rewrite Forall_forall in Hb. specialize (Hb e He). unfold rangeEntry, CompactZSet_member, CompactZSet_memberBytes.
        cbn [zarena]. by rewrite slice_app.
      - cbn. unfold rangeEntry, CompactZSet_member, CompactZSet_memberBytes, slice. cbn [zarena memberStart memberLen score].
        by rewrite drop_app_length, take_ge. }
    assert (NoDup (CompactZSet_list s1).*1) as Hnd1
      by (rewrite Hl1, fmap_app; by apply NoDup_snoc).
    split_and!; [| |done].
    + apply sort_wf; [|done|].
      * unfold s1. cbn [zarena zentries]. rewrite length_app, Forall_app, Forall_singleton. split.
        -- eapply Forall_impl; [exact Hb|]. intros. simpl in *. lia.
        -- cbn. lia.
      * rewrite Hl1, Forall_app, Forall_singleton. done.
    + rewrite sort_map by done. unfold CompactZSet_map. rewrite Hl1. by apply assoc_snoc.
Qed.

Lemma CompactZSet_rangeByRank_spec s start stop :
  CompactZSet_rangeByRank s start stop = rankSlice (CompactZSet_list s) start stop.
Proof.
  unfold CompactZSet_rangeByRank, rankSlice, CompactZSet_list. 
  assert (zlen (rangeEntry s <$> zentries s) = zlen (zentries s)) as -> by (unfold zlen; by rewrite length_fmap).
  destruct (_ || _); [done|]. cbn zeta. unfold ztake, zdrop. rewrite fmap_take, fmap_drop.
  do 3 f_equal. case_match; bool_to_prop; lia.
Qed.

(** Away from NaN, scores that grow keep an upper bound exceeded. *)
Lemma aboveMax_mono r a b :
  isNaN a = false → isNaN b = false → (fkey a = fkey b ∨ triple_lt (fkey a) (fkey b)) →
  aboveMax r a = true → aboveMax r b = true.
Proof.
  intros Ha Hb Hab. unfold aboveMax, fgt. rewrite !orb_true_iff, !andb_true_iff.
  destruct (isNaN (Max r)) eqn:Hm.
  { destruct (Max r); try done. destruct a; naive_solver. }
  change SFltb with flt. rewrite !flt_key, !feq_key by done. intros [H|[He H]].
  - left. destruct Hab as [<-|Hab]; [done|]. by eapply triple_lt_trans.
  - destruct Hab as [Hab|Hab]; [right; split; [done|congruence]|]. left. by rewrite <- H.
Qed.

(** A scan that stops at the first score above the range. *)
Fixpoint scan (r : ScoreRange) (l : list scored) : list scored :=
  match l with
  | [] => []
  | e :: l' =>
      if aboveMax r e.2 then [] else if negb (belowMin r e.2) then e :: scan r l' else scan r l'
  end.

(** On an ordered list it selects exactly the entries in the range. *)
Lemma scan_slice r l : Forall scoreOk l → ZSetOrdered l → scan r l = scoreSlice l r.
Proof.
  unfold scoreSlice. induction l as [|e l IH]; intros Hok Ho; [done|]. cbn [scan List.filter].
  apply Forall_cons in Hok as [He Hok]. inversion Ho as [|? ? Ho' Hall]; subst. unfold inRange at 1.
  destruct (aboveMax r e.2) eqn:Ea; cbn [negb].
  - rewrite andb_false_r. symmetry. clear IH Ho Ho'. rewrite Forall_forall in Hall, Hok.
    induction l as [|x l IH]; [done|]. cbn [List.filter]. unfold inRange at 1.
    assert (aboveMax r x.2 = true) as ->.
    { eapply (aboveMax_mono r e.2); [exact He|apply Hok; set_solver| |done].
      pose proof (Hall x ltac:(set_solver)) as Hx.
      apply entryLess_spec in Hx; [|done|apply Hok; set_solver]. naive_solver. }
    rewrite andb_false_r. apply IH; intros; [apply Hok|apply Hall]; set_solver.
  - rewrite andb_true_r. destruct (belowMin r e.2); cbn [negb]; [by apply IH|].
    f_equal. by apply IH.
Qed.

Lemma CompactZSet_rangeByScore_spec s r :
  CompactZSetWf s → CompactZSet_rangeByScore s r = scoreSlice (CompactZSet_list s) r.
Proof.
  intros [_ _ Hok Ho]. rewrite <- scan_slice by done. unfold CompactZSet_rangeByScore, CompactZSet_list.
  clear Hok Ho. induction (zentries s) as [|e es IH]; [done|]. cbn [rangeByScoreLoop fmap list_fmap scan].
  cbn [rangeEntry snd]. rewrite IH. done.
Qed.

Lemma emptyCompactZSet_wf : CompactZSetWf emptyCompactZSet.
Proof. split; constructor. Qed.
