(* ===== verification/SkipList.v ===== *)
(** * The skip list behind large sorted sets

    Models [internal/storage/zset.go].  Nodes live in a heap of numbered cells,
    cell 0 being the header; forward and backward pointers are cell numbers.
    The coin flips of [randomZSetLevel] come from an arbitrary sequence.

    A pointer the code dereferences is always valid here; [getNode] and
    [getLevel] give a dummy otherwise, where Go would panic. *)

From S2P Require Import Prelude Strconv GoLib Float64 CompactHash CompactZSet.

Definition zsetMaxLevel : nat := 16.

Record zsetLevel := mkLevel {
  forward : option nat;
  span : Z
}.

Record zsetNode := mkNode {
  member : bytes;
  nscore : float64;
  backward : option nat;
  levels : list zsetLevel
}.

Record zsetSkipList := mkSkipList {
  heap : gmap nat zsetNode;
  next : nat;
  tail : option nat;
  level : nat;
  slength : Z
}.

Definition header : nat := 0.

Record SortedSet := mkSortedSet {
  index : gmap bytes float64;
  order : zsetSkipList;
  flips : nat
}.

(** The outcomes of [rand.Float64() < zsetP]; a set remembers how many it used. *)
Class Coins := coin : nat → bool.

(** ** Memory *)

Abbreviation Heap := (gmap nat zsetNode).

Definition getNode (h : Heap) (x : nat) : zsetNode := default (mkNode [] (S754_zero false) None []) (h !! x).

Definition getLevel (h : Heap) (x i : nat) : zsetLevel := default (mkLevel None 0) (levels (getNode h x) !! i).

Definition setLevel (h : Heap) (x i : nat) (l : zsetLevel) : Heap :=
  alter (λ n, mkNode (member n) (nscore n) (backward n) (<[i := l]> (levels n))) x h.

Definition setBackward (h : Heap) (x : nat) (b : option nat) : Heap :=
  alter (λ n, mkNode (member n) (nscore n) b (levels n)) x h.

Definition newZSetSkipList : zsetSkipList :=
  mkSkipList {[ header := mkNode [] (S754_zero false) None (replicate zsetMaxLevel (mkLevel None 0)) ]}
    1 None 1 0.

(** ** Searching *)

(** [for next := x.levels[i].forward; next != nil && before(next); ...]: moves
    along level [i], adding spans to [rank].  The list is acyclic, so its
    length bounds the rounds. *)
Fixpoint advance (fuel : nat) (h : Heap) (before : zsetNode → bool) (i x : nat) (rank : Z) : nat * Z :=
  match fuel with
  | O => (x, rank)
  | S fuel' =>
      match forward (getLevel h x i) with
      | Some nx =>
          if before (getNode h nx) then advance fuel' h before i nx (rank + span (getLevel h x i))
          else (x, rank)
      | None => (x, rank)
      end
  end.

(** [for i := level - 1; i >= 0; i--]: the pairs ([update[i]], [rank[i]]), with
    index 0 first. *)
Fixpoint descend (fuel : nat) (h : Heap) (before : zsetNode → bool) (i x : nat) (rank : Z)
    (acc : list (nat * Z)) : list (nat * Z) :=
  match i with
  | O => acc
  | S i' =>
      let '(x', r') := advance fuel h before i' x rank in
      descend fuel h before i' x' r' ((x', r') :: acc)
  end.

Definition searchPath (sl : zsetSkipList) (before : zsetNode → bool) : list (nat * Z) :=
  descend (S (Z.to_nat (slength sl))) (heap sl) before (level sl) header 0 [].

Definition updateAt (u : list (nat * Z)) (i : nat) : nat := (default (header, 0) (u !! i)).1.
Definition rankAt (u : list (nat * Z)) (i : nat) : Z := (default (header, 0) (u !! i)).2.

(** ** Levels of new nodes *)

Fixpoint randomLevelLoop {C : Coins} (fuel lv flips : nat) : nat * nat :=
  match fuel with
  | O => (lv, flips)
  | S fuel' =>
      if (lv <? zsetMaxLevel)%nat then
        if coin flips then randomLevelLoop fuel' (S lv) (S flips) else (lv, S flips)
      else (lv, flips)
  end.

Definition randomZSetLevel {C : Coins} (flips : nat) : nat * nat := randomLevelLoop zsetMaxLevel 1 flips.

(** ** Insertion *)

(** [for i := sl.level; i < level; i++]: new levels start at the header. *)
Definition raiseLevels (sl : zsetSkipList) (u : list (nat * Z)) (lv : nat) : Heap * list (nat * Z) :=
  foldl (λ '(h, u) i, (setLevel h header i (mkLevel (forward (getLevel h header i)) (slength sl)), u ++ [(header, 0)]))
    (heap sl, u) (seq (level sl) (lv - level sl)).

(** [for i := 0; i < level; i++]: splice [x] in after [update[i]]. *)
Definition linkLevels (u : list (nat * Z)) (x : nat) (idx : list nat) (h : Heap) : Heap :=
  foldl (λ h i,
    let up := getLevel h (updateAt u i) i in
    let d := rankAt u 0 - rankAt u i in
    setLevel (setLevel h x i (mkLevel (forward up) (span up - d))) (updateAt u i) i (mkLevel (Some x) (d + 1)))
    h idx.

(** [for i := level; i < sl.level; i++ { update[i].levels[i].span++ }]. *)
Definition bumpSpans (u : list (nat * Z)) (idx : list nat) (h : Heap) : Heap :=
  foldl (λ h i,
    let up := getLevel h (updateAt u i) i in
    setLevel h (updateAt u i) i (mkLevel (forward up) (span up + 1))) h idx.

Definition lessNode (sc : float64) (m : bytes) (n : zsetNode) : bool := zsetLess (nscore n) (member n) sc m.

Definition SkipList_insert (sl : zsetSkipList) (lv : nat) (sc : float64) (m : bytes) : zsetSkipList :=
  let u := searchPath sl (lessNode sc m) in
  let '(h, u) := raiseLevels sl u lv in
  let newLevel := Nat.max (level sl) lv in
  let x := next sl in
  let h := <[x := mkNode m sc None (replicate lv (mkLevel None 0))]> h in
  let h := linkLevels u x (seq 0 lv) h in
  let h := bumpSpans u (seq lv (newLevel - lv)) h in
  let h := setBackward h x (if decide (updateAt u 0 = header) then None else Some (updateAt u 0)) in
  match forward (getLevel h x 0) with
  | Some nx => mkSkipList (setBackward h nx (Some x)) (S x) (tail sl) newLevel (slength sl + 1)
  | None => mkSkipList h (S x) (Some x) newLevel (slength sl + 1)
  end.

(** ** Deletion *)

Definition unlinkLevels (u : list (nat * Z)) (node : nat) (idx : list nat) (h : Heap) : Heap :=
  foldl (λ h i,
    let up := getLevel h (updateAt u i) i in
    if decide (forward up = Some node) then
      setLevel h (updateAt u i) i
        (mkLevel (forward (getLevel h node i)) (span up + (span (getLevel h node i) - 1)))
    else setLevel h (updateAt u i) i (mkLevel (forward up) (span up - 1))) h idx.

(** [for sl.level > 1 && header.levels[sl.level-1].forward == nil { sl.level-- }]. *)
Fixpoint lowerLevel (h : Heap) (lv : nat) : nat :=
  match lv with
  | S (S lv' as l) => match forward (getLevel h header l) with None => lowerLevel h l | Some _ => lv end
  | _ => lv
  end.

(** The unlinked cell is left to the garbage collector. *)
Definition SkipList_deleteNode (sl : zsetSkipList) (node : nat) (u : list (nat * Z)) : zsetSkipList :=
  let h := unlinkLevels u node (seq 0 (level sl)) (heap sl) in
  let '(h, tl) :=
    match forward (getLevel h node 0) with
    | Some nx => (setBackward h nx (backward (getNode h node)), tail sl)
    | None => (h, backward (getNode h node))
    end in
  mkSkipList h (next sl) tl (lowerLevel h (level sl)) (slength sl - 1).

Definition SkipList_delete (sl : zsetSkipList) (sc : float64) (m : bytes) : zsetSkipList * bool :=
  let u := searchPath sl (lessNode sc m) in
  match forward (getLevel (heap sl) (updateAt u 0) 0) with
  | None => (sl, false)
  | Some x =>
      if negb (feq (nscore (getNode (heap sl) x)) sc) || negb (bool_decide (member (getNode (heap sl) x) = m))
      then (sl, false)
      else (SkipList_deleteNode sl x u, true)
  end.

(** ** Queries *)

Definition firstInScoreRange (sl : zsetSkipList) (r : ScoreRange) : option nat :=
  let u := searchPath sl (λ n, belowMin r (nscore n)) in
  forward (getLevel (heap sl) (updateAt u 0) 0).

(** The inner loop of [getByRank]. *)
Fixpoint advanceRank (fuel : nat) (h : Heap) (rank : Z) (i x : nat) (traversed : Z) : nat * Z :=
  match fuel with
  | O => (x, traversed)
  | S fuel' =>
      match forward (getLevel h x i) with
      | Some nx =>
          if traversed + span (getLevel h x i) <=? rank
          then advanceRank fuel' h rank i nx (traversed + span (getLevel h x i))
          else (x, traversed)
      | None => (x, traversed)
      end
  end.

Fixpoint rankLoop (fuel : nat) (h : Heap) (rank : Z) (i x : nat) (traversed : Z) : option nat :=
  match i with
  | O => None
  | S i' =>
      let '(x', t') := advanceRank fuel h rank i' x traversed in
      if t' =? rank then Some x' else rankLoop fuel h rank i' x' t'
  end.

Definition getByRank (sl : zsetSkipList) (rank : Z) : option nat :=
  if (rank <=? 0) || (slength sl <? rank) then None
  else rankLoop (S (Z.to_nat (slength sl))) (heap sl) rank (level sl) header 0.

(** ** Sorted sets *)

Definition newSortedSet : SortedSet := mkSortedSet ∅ newZSetSkipList 0.

Definition SortedSet_len (s : SortedSet) : Z := Z.of_nat (size (index s)).

Definition SortedSet_insert {C : Coins} (s : SortedSet) (sl : zsetSkipList) (m : bytes) (sc : float64) : SortedSet :=
  let '(lv, fl) := randomZSetLevel (flips s) in
  mkSortedSet (<[m := sc]> (index s)) (SkipList_insert sl lv sc m) fl.

Definition SortedSet_add {C : Coins} (s : SortedSet) (m : bytes) (sc : float64) : SortedSet * bool :=
  match index s !! m with
  | Some current =>
      if feq current sc then (s, false)
      else (SortedSet_insert s (SkipList_delete (order s) current m).1 m sc, false)
  | None => (SortedSet_insert s (order s) m sc, true)
  end.

Definition SortedSet_score (s : SortedSet) (m : bytes) : option float64 := index s !! m.

(** [n] steps along level 0, collecting the entries. *)
Fixpoint walkForward (h : Heap) (n : nat) (x : option nat) : list scored :=
  match n, x with
  | S n', Some x =>
      (member (getNode h x), nscore (getNode h x)) :: walkForward h n' (forward (getLevel h x 0))
  | _, _ => []
  end.

Definition SortedSet_rangeByRank (s : SortedSet) (start stop : Z) : list scored :=
  if (start <? 0) || (stop <? start) || (slength (order s) <=? start) then []
  else
    let stop := if slength (order s) <=? stop then slength (order s) - 1 else stop in
    match getByRank (order s) (start + 1) with
    | None => []
    | Some x => walkForward (heap (order s)) (Z.to_nat (stop - start + 1)) (Some x)
    end.

(** The loop of [rangeByScore]; every node is visited at most once. *)
Fixpoint scoreLoop (h : Heap) (r : ScoreRange) (fuel : nat) (x : option nat) : list scored :=
  match fuel, x with
  | S fuel', Some x =>
      if aboveMax r (nscore (getNode h x)) then []
      else (member (getNode h x), nscore (getNode h x))
           :: scoreLoop h r fuel' (forward (getLevel h x 0))
  | _, _ => []
  end.

Definition SortedSet_rangeByScore (s : SortedSet) (r : ScoreRange) : list scored :=
  scoreLoop (heap (order s)) r (S (Z.to_nat (slength (order s)))) (firstInScoreRange (order s) r).

(** The level-0 walk of [cloneSortedSet]. *)
Definition SortedSet_walk (s : SortedSet) : list scored :=
  walkForward (heap (order s)) (Z.to_nat (slength (order s))) (forward (getLevel (heap (order s)) header 0)).

Definition addAll {C : Coins} (s : SortedSet) (l : list scored) : SortedSet :=
  foldl (λ s '(m, sc), (SortedSet_add s m sc).1) s l.

Definition cloneSortedSet {C : Coins} (src : SortedSet) : SortedSet := addAll newSortedSet (SortedSet_walk src).

Example SkipList_demo :
  let C : Coins := λ n, (n mod 3 =? 0)%nat in
  let s := addAll newSortedSet
    [(bs "a", floatOfZ 5); (bs "b", floatOfZ 1); (bs "c", floatOfZ 3); (bs "d", floatOfZ 4); (bs "a", floatOfZ 2)] in
  (fst <$> SortedSet_walk s, fst <$> SortedSet_rangeByRank s 1 2,
   fst <$> SortedSet_rangeByScore s (mkScoreRange (floatOfZ 2) (floatOfZ 4) true false),
   fst <$> SortedSet_walk (cloneSortedSet s))
  = ([bs "b"; bs "a"; bs "c"; bs "d"], [bs "a"; bs "c"], [bs "c"; bs "d"], [bs "b"; bs "a"; bs "c"; bs "d"]).
Proof. vm_compute. reflexivity. Qed.
