(* ===== verification/SkipListFacts.v ===== *)
(** * Correctness of the skip list

    [Rep sl L] says that the heap of [sl] represents the node sequence [L]: on
    every level a node points to the next node that reaches that level, its span
    is the distance in [L], and the backward chain and the tail mirror [L].
    Insertion and deletion transform [L] as list insertion and deletion do,
    whatever the coin flips; the queries read off [L].  Sorted sets thus
    implement the ordered-list contract of [CompactZSet.v]. *)

From S2P Require Import Prelude Strconv GoLib Float64 CompactHash CompactZSet SkipList.

(** ** Memory *)

Definition height (h : Heap) (x : nat) : nat := length (levels (getNode h x)).

Definition entryOf (h : Heap) (x : nat) : scored := (member (getNode h x), nscore (getNode h x)).

Lemma getNode_setLevel h x i l y :
  getNode (setLevel h x i l) y =
    if decide (y = x) then
      match h !! x with
      | Some n => mkNode (member n) (nscore n) (backward n) (<[i := l]> (levels n))
      | None => getNode h y end
    else getNode h y.
Proof.
  unfold getNode, setLevel. case_decide as Hy.
  - subst y. rewrite lookup_alter_eq. by destruct (h !! x).
  - by rewrite lookup_alter_ne.
Qed.

Lemma getNode_setBackward h x b y :
  getNode (setBackward h x b) y =
    if decide (y = x) then
      match h !! x with
      | Some n => mkNode (member n) (nscore n) b (levels n)
      | None => getNode h y end
    else getNode h y.
Proof.
  unfold getNode, setBackward. case_decide as Hy.
  - subst y. rewrite lookup_alter_eq. by destruct (h !! x).
  - by rewrite lookup_alter_ne.
Qed.

Ltac heap_cases :=
  repeat first
    [ rewrite getNode_setLevel | rewrite getNode_setBackward
    | case_decide; subst
    | match goal with |- context [match ?h !! ?x with _ => _ end] => destruct (h !! x) eqn:? end ].

(** What an update of one field leaves alone. *)
Lemma height_setLevel h x i l y : height (setLevel h x i l) y = height h y.
Proof.
  unfold height. heap_cases; cbn; try done. unfold getNode.
  match goal with H : _ !! _ = Some _ |- _ => rewrite H end. cbn. by rewrite length_insert.
Qed.

Lemma entryOf_setLevel h x i l y : entryOf (setLevel h x i l) y = entryOf h y.
Proof.
  unfold entryOf. heap_cases; cbn; try done. unfold getNode.
  by match goal with H : _ !! _ = Some _ |- _ => rewrite H end.
Qed.

Lemma backward_setLevel h x i l y : backward (getNode (setLevel h x i l) y) = backward (getNode h y).
Proof.
  heap_cases; cbn; try done. unfold getNode.
  by match goal with H : _ !! _ = Some _ |- _ => rewrite H end.
Qed.

Lemma alloc_setLevel h x i l y : is_Some (setLevel h x i l !! y) ↔ is_Some (h !! y).
Proof. unfold setLevel. by rewrite lookup_alter_is_Some. Qed.

Lemma levels_setBackward h x b y : levels (getNode (setBackward h x b) y) = levels (getNode h y).
Proof.
  heap_cases; cbn; try done. unfold getNode.
  by match goal with H : _ !! _ = Some _ |- _ => rewrite H end.
Qed.

Lemma getLevel_setBackward h x b y i : getLevel (setBackward h x b) y i = getLevel h y i.
Proof. unfold getLevel. by rewrite levels_setBackward. Qed.

Lemma height_setBackward h x b y : height (setBackward h x b) y = height h y.
Proof. unfold height. by rewrite levels_setBackward. Qed.

Lemma entryOf_setBackward h x b y : entryOf (setBackward h x b) y = entryOf h y.
Proof.
  unfold entryOf. heap_cases; cbn; try done. unfold getNode.
  by match goal with H : _ !! _ = Some _ |- _ => rewrite H end.
Qed.

Lemma alloc_setBackward h x b y : is_Some (setBackward h x b !! y) ↔ is_Some (h !! y).
Proof. unfold setBackward. by rewrite lookup_alter_is_Some. Qed.

Lemma backward_setBackward h x b y :
  is_Some (h !! x) →
  backward (getNode (setBackward h x b) y) = if decide (y = x) then b else backward (getNode h y).
Proof. intros [n Hn]. rewrite getNode_setBackward, Hn. by case_decide. Qed.

Lemma height_alloc h x i : (i < height h x)%nat → is_Some (h !! x).
Proof. unfold height, getNode. destruct (h !! x); [by eauto|]. cbn. lia. Qed.

Lemma getLevel_setLevel_eq h x i l : (i < height h x)%nat → getLevel (setLevel h x i l) x i = l.
Proof.
  intros Hi. destruct (height_alloc _ _ _ Hi) as [n Hn]. unfold getLevel.
  rewrite getNode_setLevel, decide_True, Hn by done. cbn.
  unfold height, getNode in Hi. rewrite Hn in Hi. by rewrite list_lookup_insert_eq.
Qed.

Lemma getLevel_setLevel_ne h x i l y j : (y, j) ≠ (x, i) → getLevel (setLevel h x i l) y j = getLevel h y j.
Proof.
  intros Hne. unfold getLevel. rewrite getNode_setLevel. case_decide as Hy; [|done]. subst y.
  destruct (h !! x) as [n|] eqn:Hn; [|done]. cbn. rewrite list_lookup_insert_ne by congruence.
  unfold getNode. by rewrite Hn.
Qed.

(** ** Levels of a node sequence *)

Fixpoint nextAt (h : Heap) (i : nat) (rest : list nat) : option (nat * Z) :=
  match rest with
  | [] => None
  | y :: ys =>
      if (i <? height h y)%nat then Some (y, 1)
      else match nextAt h i ys with Some (z, d) => Some (z, d + 1) | None => None end
  end.

Definition levelSpec (h : Heap) (i : nat) (rest : list nat) : zsetLevel :=
  match nextAt h i rest with
  | Some (y, d) => mkLevel (Some y) d
  | None => mkLevel None (zlen rest)
  end.

Definition below (h : Heap) (i : nat) (l : list nat) : Prop := Forall (λ y, height h y ≤ i)%nat l.

Lemma nextAt_None h i l : nextAt h i l = None ↔ below h i l.
Proof.
  unfold below. induction l as [|y l IH]; cbn [nextAt app]; [by split|]. rewrite Forall_cons.
  destruct (Nat.ltb_spec i (height h y)); [split; [done|intros [? _]; lia]|].
  destruct (nextAt h i l) as [[z d]|]; [|naive_solver].
  split; [done|]. intros [_ H']. by apply IH in H'.
Qed.

Lemma nextAt_Some h i l y d :
  nextAt h i l = Some (y, d) →
  ∃ a b, l = a ++ y :: b ∧ below h i a ∧ (i < height h y)%nat ∧ d = zlen a + 1.
Proof.
  revert y d. induction l as [|x l IH]; cbn [nextAt app]; intros y d; [done|].
  destruct (Nat.ltb_spec i (height h x)).
  - intros [= <- <-]. exists [], l. by repeat constructor.
  - destruct (nextAt h i l) as [[z e]|]; [|done]. intros [= <- <-].
    destruct (IH z e eq_refl) as (a & b & -> & Ha & Hz & ->). exists (x :: a), b.
    split_and!; [done|by constructor|done|by rewrite zlen_cons; lia].
Qed.

Lemma nextAt_app h i m r :
  nextAt h i (m ++ r) =
    match nextAt h i m with
    | Some p => Some p
    | None => match nextAt h i r with Some (y, d) => Some (y, d + zlen m) | None => None end
    end.
Proof.
  induction m as [|x m IH]; cbn [app nextAt].
  - destruct (nextAt h i r) as [[y d]|]; [|done]. by rewrite zlen_nil, Z.add_0_r.
  - destruct (i <? height h x)%nat; [done|]. rewrite IH. destruct (nextAt h i m) as [[? ?]|]; [done|].
    destruct (nextAt h i r) as [[y d]|]; [|done]. rewrite zlen_cons. do 2 f_equal. lia.
Qed.

Lemma levelSpec_below h i m r :
  below h i m →
  levelSpec h i (m ++ r) = mkLevel (forward (levelSpec h i r)) (span (levelSpec h i r) + zlen m).
Proof.
  intros Hm. unfold levelSpec. rewrite nextAt_app. apply nextAt_None in Hm. rewrite Hm.
  destruct (nextAt h i r) as [[y d]|]; cbn [forward span]; [done|]. rewrite zlen_app. f_equal. lia.
Qed.

Lemma levelSpec_hit h i m y r r' :
  (i < height h y)%nat → levelSpec h i (m ++ y :: r) = levelSpec h i (m ++ y :: r').
Proof.
  intros Hy. unfold levelSpec. rewrite !nextAt_app. destruct (nextAt h i m) as [[? ?]|]; [done|].
  cbn [nextAt]. by rewrite (proj2 (Nat.ltb_lt _ _)).
Qed.

Lemma nextAt_ext h h' i l :
  (∀ y, y ∈ l → height h' y = height h y) → nextAt h' i l = nextAt h i l.
Proof.
  induction l as [|y l IH]; cbn [nextAt]; [done|]. intros H. rewrite (H y), IH by set_solver. done.
Qed.

Lemma levelSpec_ext h h' i l :
  (∀ y, y ∈ l → height h' y = height h y) → levelSpec h' i l = levelSpec h i l.
Proof. intros H. unfold levelSpec. by rewrite (nextAt_ext h h'). Qed.

(** ** The representation *)

Record Rep (sl : zsetSkipList) (L : list nat) : Prop := {
  rep_nodup : NoDup (header :: L);
  rep_alloc : ∀ x, x ∈ header :: L → is_Some (heap sl !! x);
  rep_fresh : ∀ x, (next sl ≤ x)%nat → heap sl !! x = None;
  rep_header : height (heap sl) header = zsetMaxLevel;
  rep_heights : ∀ x, x ∈ L → (1 ≤ height (heap sl) x ≤ level sl)%nat;
  rep_level : (1 ≤ level sl ≤ zsetMaxLevel)%nat;
  rep_length : slength sl = zlen L;
  rep_links : ∀ pre x rest i, header :: L = pre ++ x :: rest → (i < height (heap sl) x)%nat →
    forward (getLevel (heap sl) x i) = forward (levelSpec (heap sl) i rest)
    ∧ ((i < level sl)%nat → span (getLevel (heap sl) x i) = span (levelSpec (heap sl) i rest));
  rep_back : ∀ pre x rest, L = pre ++ x :: rest → backward (getNode (heap sl) x) = last pre;
  rep_tail : tail sl = last L
}.

Lemma Rep_new : Rep newZSetSkipList [].
Proof.
  assert (heap newZSetSkipList !! header = Some (mkNode [] (S754_zero false) None (replicate zsetMaxLevel (mkLevel None 0)))) as Hh
    by apply lookup_singleton_eq.
  split; try done.
  - apply NoDup_singleton.
  - intros x ->%list_elem_of_singleton. by rewrite Hh.
  - intros x Hx. apply lookup_singleton_ne. unfold header. cbn in Hx. lia.
  - intros x Hx. set_solver.
  - cbn. unfold zsetMaxLevel. lia.
  - intros pre x rest i Heq Hi. destruct pre as [|? [|? ?]]; [injection Heq as <- <-|done|done].
    unfold getLevel, getNode. rewrite Hh. cbn [from_option levels id].
    destruct (decide (i < zsetMaxLevel)%nat).
    + rewrite lookup_replicate_2 by done. done.
    + rewrite lookup_ge_None_2 by (rewrite length_replicate; lia). done.
  - intros pre x rest Heq. by destruct pre.
Qed.

(** ** Searching *)

(** Splitting the sequence at a node: what is left of it stays a prefix. *)
Lemma header_split (A : list nat) pre x mid :
  header :: A = pre ++ x :: mid → ∀ y, y ∈ mid → y ∈ A.
Proof.
  intros H y Hy. destruct pre as [|z pre]; injection H as _ ->; set_solver.
Qed.

Lemma rank_mid (A : list nat) pre x mid : header :: A = pre ++ x :: mid → zlen A = zlen pre + zlen mid.
Proof. intros Heq. pose proof (f_equal length Heq) as Hl. rewrite length_app in Hl. cbn in Hl. unfold zlen. lia. Qed.

(** The last node of [header :: A] that reaches level [i], and its rank. *)
Definition PathAt (h : Heap) (A : list nat) (i x : nat) (r : Z) : Prop :=
  ∃ pre mid, header :: A = pre ++ x :: mid ∧ (i < height h x)%nat ∧ below h i mid ∧ r = zlen pre.

Definition Path (h : Heap) (A : list nat) (u : list (nat * Z)) (n : nat) : Prop :=
  length u = n ∧ ∀ i, (i < n)%nat → PathAt h A i (updateAt u i) (rankAt u i).

Lemma split_whole (A B : list nat) pre x mid : header :: A = pre ++ x :: mid → header :: A ++ B = pre ++ x :: (mid ++ B).
Proof. intros H. rewrite app_comm_cons, H, <- app_assoc. done. Qed.

Section Search.
Context (sl : zsetSkipList) (A B : list nat) (HR : Rep sl (A ++ B)).
Context (before : zsetNode → bool).
Context (HA : ∀ x, x ∈ A → before (getNode (heap sl) x) = true).
Context (HB : ∀ x, x ∈ B → before (getNode (heap sl) x) = false).
Local Abbreviation h := (heap sl).

Lemma advance_spec fuel : ∀ pre x mid i,
  header :: A = pre ++ x :: mid → (i < level sl)%nat → (i < height h x)%nat → (length mid < fuel)%nat →
  ∃ x' r', advance fuel h before i x (zlen pre) = (x', r') ∧ PathAt h A i x' r'.
Proof.
  induction fuel as [|fuel IH]; intros pre x mid i Heq Hi Hh Hf; [lia|]. cbn [advance].
  destruct (rep_links _ _ HR _ _ _ i (split_whole A B _ _ _ Heq) Hh) as [-> Hsp].
  rewrite (Hsp Hi). unfold levelSpec. rewrite nextAt_app.
  destruct (nextAt h i mid) as [[y d]|] eqn:E.
  - apply nextAt_Some in E as (a & b & -> & Ha & Hy & ->). cbn [forward span].
    rewrite HA by (eapply header_split; [exact Heq|set_solver]).
    replace (zlen pre + (zlen a + 1)) with (zlen (pre ++ x :: a)) by (rewrite zlen_app, zlen_cons; lia).
    apply (IH _ _ b); [by rewrite <- app_assoc, Heq|done|done|].
    rewrite length_app in Hf. cbn in Hf. lia.
  - assert (PathAt h A i x (zlen pre)) as Hp.
    { exists pre, mid. apply nextAt_None in E. done. }
    destruct (nextAt h i B) as [[y d]|] eqn:E'; cbn [forward span]; [|by eauto].
    apply nextAt_Some in E' as (a & b & HBs & _). rewrite HB by (rewrite HBs; set_solver). eauto.
Qed.

Lemma descend_spec fuel i : ∀ pre x mid acc,
  header :: A = pre ++ x :: mid → (i ≤ level sl)%nat → (i ≤ height h x)%nat → (length A < fuel)%nat →
  ∃ u, descend fuel h before i x (zlen pre) acc = u ++ acc ∧ Path h A u i.
Proof.
  induction i as [|i IH]; intros pre x mid acc Heq Hi Hh Hf; cbn [descend].
  { exists []. split; [done|]. split; [done|lia]. }
  destruct (advance_spec fuel pre x mid i Heq) as (x' & r' & -> & Hp); [lia|lia| |].
  { pose proof (f_equal length Heq) as Hl. rewrite length_app in Hl. cbn in Hl. lia. }
  destruct Hp as (pre' & mid' & Heq' & Hh' & Hb' & ->).
  destruct (IH pre' x' mid' ((x', zlen pre') :: acc) Heq') as (u & -> & Hu); [lia|lia|done|].
  exists (u ++ [(x', zlen pre')]). split; [by rewrite <- app_assoc|].
  destruct Hu as [Hlen Hu]. split; [rewrite length_app; cbn; lia|].
  intros j Hj. unfold updateAt, rankAt in *. destruct (decide (j < i)%nat) as [Hji|Hji].
  - rewrite lookup_app_l by lia. by apply Hu.
  - assert (j = i) as -> by lia. rewrite lookup_app_r, Hlen, Nat.sub_diag by lia. cbn.
    by exists pre', mid'.
Qed.

Lemma searchPath_spec : Path h A (searchPath sl before) (level sl).
Proof.
  unfold searchPath. destruct (descend_spec (S (Z.to_nat (slength sl))) (level sl) [] header A [])
    as (u & Hu & Hp); [done|done| | |].
  - rewrite (rep_header _ _ HR). apply HR.
  - rewrite (rep_length _ _ HR). unfold zlen. rewrite length_app. lia.
  - change (zlen (@nil nat)) with 0 in Hu. by rewrite Hu, app_nil_r.
Qed.

End Search.

(** Level 0 leads to the end of [A]. *)
Lemma path_zero sl A B u n :
  Rep sl (A ++ B) → Path (heap sl) A u n → (0 < n)%nat → last (header :: A) = Some (updateAt u 0) ∧ rankAt u 0 = zlen A.
Proof.
  intros HR [_ Hu] Hn. destruct (Hu 0%nat Hn) as (pre & mid & Heq & _ & Hb & ->).
  destruct mid as [|y mid].
  - split; [by rewrite Heq, last_snoc|]. pose proof (f_equal length Heq) as Hl.
    rewrite length_app in Hl. cbn in Hl. unfold zlen. lia.
  - exfalso. apply Forall_cons in Hb as [Hb _].
    assert (y ∈ A) as Hy by (eapply header_split; [exact Heq|set_solver]).
    pose proof (rep_heights _ _ HR y ltac:(set_solver)). lia.
Qed.

(** The node after [A] is the first of [B]. *)
Lemma path_next sl A B u n :
  Rep sl (A ++ B) → Path (heap sl) A u n → (0 < n)%nat → forward (getLevel (heap sl) (updateAt u 0) 0) = head B.
Proof.
  intros HR [_ Hu] Hn. destruct (Hu 0%nat Hn) as (pre & mid & Heq & Hh & Hb & _).
  destruct (rep_links _ _ HR _ _ _ 0%nat (split_whole A B _ _ _ Heq) Hh) as [-> _].
  rewrite levelSpec_below by done. cbn [forward]. unfold levelSpec.
  destruct B as [|y B']; [done|]. cbn [nextAt].
  pose proof (rep_heights _ _ HR y ltac:(set_solver)).
  by rewrite (proj2 (Nat.ltb_lt _ _)) by lia.
Qed.


(** ** Loops over the levels *)

(** Two heaps that differ in levels only. *)
Record SameShape (h h' : Heap) : Prop := {
  same_height : ∀ y, height h' y = height h y;
  same_entry : ∀ y, entryOf h' y = entryOf h y;
  same_backward : ∀ y, backward (getNode h' y) = backward (getNode h y);
  same_alloc : ∀ y, is_Some (h' !! y) ↔ is_Some (h !! y)
}.

Lemma SameShape_refl h : SameShape h h.
Proof. by split. Qed.

Lemma SameShape_trans h1 h2 h3 : SameShape h1 h2 → SameShape h2 h3 → SameShape h1 h3.
Proof. intros [? ? ? H1] [? ? ? H2]. split; intros y; [congruence..|by rewrite H2]. Qed.

Lemma SameShape_setLevel h x i l : SameShape h (setLevel h x i l).
Proof.
  split; intros y;
    [apply height_setLevel|apply entryOf_setLevel|apply backward_setLevel|apply alloc_setLevel].
Qed.

#[local] Hint Resolve SameShape_refl SameShape_setLevel : core.

(** A loop whose round [i] touches level [i] only, and looks at nothing else. *)
Section LevelLoop.
Context (step : Heap → nat → Heap).
Context (Hshape : ∀ h i, SameShape h (step h i)).
Context (Hother : ∀ h i y j, j ≠ i → getLevel (step h i) y j = getLevel h y j).
Context (Hlocal : ∀ h h' i, (∀ y, height h' y = height h y) → (∀ y, getLevel h' y i = getLevel h y i) →
  ∀ y, getLevel (step h' i) y i = getLevel (step h i) y i).

Lemma loop_shape idx h : SameShape h (foldl step h idx).
Proof.
  induction idx as [|i idx IH] using rev_ind; [done|]. rewrite foldl_snoc.
  by eapply SameShape_trans.
Qed.

Lemma loop_level idx h y j :
  NoDup idx →
  getLevel (foldl step h idx) y j = if decide (j ∈ idx) then getLevel (step h j) y j else getLevel h y j.
Proof.
  revert y j. induction idx as [|i idx IH] using rev_ind; intros y j Hnd; [done|].
  apply NoDup_snoc in Hnd as [Hni Hnd]. rewrite foldl_snoc.
  destruct (decide (j = i)) as [->|Hne].
  - rewrite (decide_True (P := i ∈ idx ++ [i])) by set_solver.
    apply Hlocal; [apply loop_shape|]. intros z. by rewrite IH, decide_False.
  - rewrite Hother, IH by done. destruct (decide (j ∈ idx)).
    + by rewrite decide_True by set_solver.
    + by rewrite decide_False by set_solver.
Qed.
End LevelLoop.

(** [setLevel] as a round of such a loop. *)
Lemma setLevel_cases h x i l y :
  getLevel (setLevel h x i l) y i =
    if decide (y = x ∧ (i < height h x)%nat) then l else getLevel h y i.
Proof.
  case_decide as Hc; [destruct Hc as [-> ?]; by apply getLevel_setLevel_eq|].
  destruct (decide (y = x)) as [->|Hne]; [|by rewrite getLevel_setLevel_ne by congruence].
  unfold getLevel. rewrite getNode_setLevel, decide_True by done.
  destruct (h !! x) as [n|] eqn:Hn; [|done]. cbn.
  assert (length (levels n) ≤ i)%nat as Hlen.
  { unfold height, getNode in Hc. rewrite Hn in Hc. cbn in Hc. lia. }
  rewrite list_insert_ge by done. unfold getNode. by rewrite Hn.
Qed.

Ltac level_loop :=
  intros; cbn zeta;
  repeat first
    [ rewrite setLevel_cases | rewrite height_setLevel
    | match goal with H : ∀ y, height _ y = height _ y |- _ => rewrite !H end
    | match goal with H : ∀ y, getLevel _ y _ = getLevel _ y _ |- _ => rewrite !H end ];
  done.

Definition linkStep (u : list (nat * Z)) (x : nat) (h : Heap) (i : nat) : Heap :=
  let up := getLevel h (updateAt u i) i in
  let d := rankAt u 0 - rankAt u i in
  setLevel (setLevel h x i (mkLevel (forward up) (span up - d))) (updateAt u i) i (mkLevel (Some x) (d + 1)).

Lemma linkLevels_shape u x idx h : SameShape h (linkLevels u x idx h).
Proof.
  apply (loop_shape (linkStep u x)). intros. unfold linkStep. cbn zeta.
  eapply SameShape_trans; apply SameShape_setLevel.
Qed.

Lemma linkLevels_level u x idx h y j :
  NoDup idx →
  getLevel (linkLevels u x idx h) y j
  = if decide (j ∈ idx) then getLevel (linkStep u x h j) y j else getLevel h y j.
Proof.
  apply (loop_level (linkStep u x)).
  - intros. unfold linkStep. cbn zeta. eapply SameShape_trans; apply SameShape_setLevel.
  - intros. unfold linkStep. cbn zeta. by rewrite !getLevel_setLevel_ne by congruence.
  - unfold linkStep. level_loop.
Qed.

Definition bumpStep (u : list (nat * Z)) (h : Heap) (i : nat) : Heap :=
  let up := getLevel h (updateAt u i) i in
  setLevel h (updateAt u i) i (mkLevel (forward up) (span up + 1)).

Lemma bumpSpans_shape u idx h : SameShape h (bumpSpans u idx h).
Proof. apply (loop_shape (bumpStep u)). intros. apply SameShape_setLevel. Qed.

Lemma bumpSpans_level u idx h y j :
  NoDup idx →
  getLevel (bumpSpans u idx h) y j = if decide (j ∈ idx) then getLevel (bumpStep u h j) y j else getLevel h y j.
Proof.
  apply (loop_level (bumpStep u)).
  - intros. apply SameShape_setLevel.
  - intros. apply getLevel_setLevel_ne. congruence.
  - unfold bumpStep. level_loop.
Qed.

Definition unlinkStep (u : list (nat * Z)) (node : nat) (h : Heap) (i : nat) : Heap :=
  let up := getLevel h (updateAt u i) i in
  if decide (forward up = Some node) then
    setLevel h (updateAt u i) i
      (mkLevel (forward (getLevel h node i)) (span up + (span (getLevel h node i) - 1)))
  else setLevel h (updateAt u i) i (mkLevel (forward up) (span up - 1)).

Lemma unlinkLevels_shape u x idx h : SameShape h (unlinkLevels u x idx h).
Proof.
  apply (loop_shape (unlinkStep u x)). intros. unfold unlinkStep. cbn zeta.
  case_decide; apply SameShape_setLevel.
Qed.

Lemma unlinkLevels_level u x idx h y j :
  NoDup idx →
  getLevel (unlinkLevels u x idx h) y j
  = if decide (j ∈ idx) then getLevel (unlinkStep u x h j) y j else getLevel h y j.
Proof.
  apply (loop_level (unlinkStep u x)).
  - intros. unfold unlinkStep. cbn zeta. case_decide; apply SameShape_setLevel.
  - intros. unfold unlinkStep. cbn zeta. case_decide; apply getLevel_setLevel_ne; congruence.
  - intros h0 h1 i Hh Hl y0. unfold unlinkStep. cbn zeta. rewrite !Hl.
    case_decide; rewrite !setLevel_cases, Hh, Hl; done.
Qed.

(** ** Insertion *)

Lemma below_shape h h' i l : SameShape h h' → below h i l → below h' i l.
Proof. intros Hs. unfold below. rewrite !Forall_forall. intros H y Hy. rewrite (same_height _ _ Hs). by apply H. Qed.

Lemma Path_shape h h' A u n : SameShape h h' → Path h A u n → Path h' A u n.
Proof.
  intros Hs [Hl Hu]. split; [done|]. intros i Hi. destruct (Hu i Hi) as (pre & mid & ? & ? & ? & ?).
  exists pre, mid. rewrite (same_height _ _ Hs). split_and!; [done|done|by eapply below_shape|done].
Qed.

Lemma levelSpec_shape h h' i l : SameShape h h' → levelSpec h' i l = levelSpec h i l.
Proof. intros Hs. apply levelSpec_ext. intros y _. apply Hs. Qed.

Definition raiseStep (len : Z) (h : Heap) (i : nat) : Heap :=
  setLevel h header i (mkLevel (forward (getLevel h header i)) len).

Lemma raiseLevels_eq sl u lv :
  raiseLevels sl u lv =
    (foldl (raiseStep (slength sl)) (heap sl) (seq (level sl) (lv - level sl)),
     u ++ replicate (lv - level sl) (header, 0)).
Proof.
  unfold raiseLevels. generalize (lv - level sl)%nat as n. intros n. generalize (level sl) as s.
  generalize (heap sl) as h. induction n as [|n IH]; intros h s.
  { cbn. by rewrite app_nil_r. }
  rewrite seq_S, !foldl_snoc, IH. rewrite replicate_S_end, app_assoc. done.
Qed.

Lemma raise_level h len idx y j :
  NoDup idx →
  getLevel (foldl (raiseStep len) h idx) y j
  = if decide (j ∈ idx) then getLevel (raiseStep len h j) y j else getLevel h y j.
Proof.
  apply loop_level.
  - intros. apply SameShape_setLevel.
  - intros. apply getLevel_setLevel_ne. congruence.
  - unfold raiseStep. level_loop.
Qed.

Lemma tall_level sl L i : Rep sl L → (level sl ≤ i)%nat → below (heap sl) i L.
Proof.
  intros HR Hi. unfold below. rewrite Forall_forall. intros x Hx.
  pose proof (rep_heights _ _ HR x Hx). lia.
Qed.

Lemma tall_tail sl A B pre x mid i :
  Rep sl (A ++ B) → header :: A = pre ++ x :: mid → (level sl ≤ i)%nat → below (heap sl) i (mid ++ B).
Proof.
  intros HR Heq Hi. pose proof (tall_level _ _ i HR Hi) as Hb. unfold below in *. rewrite Forall_app in *.
  destruct Hb as [HbA HbB]. split; [|done]. rewrite Forall_forall in *. intros y Hy.
  apply HbA. by eapply header_split.
Qed.

(** Raising the level of the list before an insertion keeps the representation. *)
Lemma raise_rep sl A B u lv :
  Rep sl (A ++ B) → Path (heap sl) A u (level sl) → (lv ≤ zsetMaxLevel)%nat →
  let '(h1, u1) := raiseLevels sl u lv in
  let sl1 := mkSkipList h1 (next sl) (tail sl) (Nat.max (level sl) lv) (slength sl) in
  Rep sl1 (A ++ B) ∧ Path h1 A u1 (Nat.max (level sl) lv) ∧ SameShape (heap sl) h1.
Proof.
  intros HR Hu Hlv. rewrite raiseLevels_eq. set (idx := seq (level sl) (lv - level sl)).
  set (h1 := foldl _ _ _). assert (SameShape (heap sl) h1) as Hs.
  { apply loop_shape. intros. apply SameShape_setLevel. }
  assert (∀ j, j ∈ idx ↔ level sl ≤ j < lv)%nat as Hidx by (intros j; unfold idx; rewrite elem_of_seq; lia).
  pose proof (rep_level _ _ HR) as Hl.
  split_and!; [|  |done].
  - destruct HR as [? ? Hfr Hhd Hht _ Hlen Hlk Hbk Htl].
    split; cbn [heap next tail level slength]; try done.
    + intros x Hx. by apply Hs; auto.
    + intros x Hx. apply eq_None_not_Some. rewrite (same_alloc _ _ Hs), Hfr by done. by intros [? ?].
    + by rewrite (same_height _ _ Hs).
    + intros x Hx. rewrite (same_height _ _ Hs). specialize (Hht x Hx). lia.
    + lia.
    + intros pre x rest i Heq Hi. rewrite (same_height _ _ Hs) in Hi.
      destruct (Hlk pre x rest i Heq Hi) as [Hf Hsp].
      rewrite (levelSpec_shape (heap sl) h1) by done. unfold h1. rewrite raise_level by apply NoDup_seq.
      case_decide as Hin; [|split; [done|]; intros ?; apply Hsp; rewrite Hidx in Hin; lia].
      apply Hidx in Hin. unfold raiseStep. rewrite setLevel_cases. case_decide as Hc.
      * destruct Hc as [-> _]. cbn [forward span]. split; [done|]. intros _.
        assert (pre = [] ∧ rest = A ++ B) as [-> ->].
        { destruct pre as [|z pre]; [by injection Heq as <-|]. exfalso. injection Heq as <- Heq.
          assert (header ∈ A ++ B) by (rewrite Heq; set_solver).
          by match goal with H : NoDup (header :: _) |- _ => apply NoDup_cons in H as [? _] end. }
        assert (below (heap sl) i (A ++ B)) as Hbl.
        { unfold below. rewrite Forall_forall. intros y Hy. specialize (Hht y Hy). lia. }
        apply nextAt_None in Hbl. unfold levelSpec. by rewrite Hbl.
      * exfalso. assert (x ∈ header :: A ++ B) as Hx by (rewrite Heq; set_solver).
        apply elem_of_cons in Hx as [->|Hx]; [by apply Hc|]. specialize (Hht x Hx). lia.
    + intros pre x rest Heq. rewrite (same_backward _ _ Hs). by eapply Hbk.
  - apply (Path_shape (heap sl)); [done|]. destruct Hu as [Hul Hu].
    split; [rewrite length_app, length_replicate; lia|]. intros i Hi. unfold updateAt, rankAt in *.
    destruct (decide (i < level sl)%nat) as [Hil|Hil].
    + rewrite lookup_app_l by lia. by apply Hu.
    + rewrite lookup_app_r, lookup_replicate_2 by lia. exists [], A. cbn [default fst snd app].
      split_and!; [done| | |done].
      * change (i < height (heap sl) header)%nat. rewrite (rep_header _ _ HR). lia.
      * pose proof (tall_level _ _ i HR ltac:(lia)) as Hb. unfold below in Hb. rewrite Forall_app in Hb. apply Hb.
Qed.

(** Splicing a node in, once the list is tall enough. *)
Section Splice.
Context (sl : zsetSkipList) (A B : list nat) (HR : Rep sl (A ++ B)).
Context (u : list (nat * Z)) (Hu : Path (heap sl) A u (level sl)).
Context (lv : nat) (Hlv : (1 ≤ lv ≤ level sl)%nat) (m : bytes) (sc : float64).
Local Abbreviation h := (heap sl).
Local Abbreviation n := (next sl).

Definition spliceCell : Heap := <[n := mkNode m sc None (replicate lv (mkLevel None 0))]> h.
Definition splice : Heap := bumpSpans u (seq lv (level sl - lv)) (linkLevels u n (seq 0 lv) spliceCell).

Lemma next_fresh x : x ∈ header :: A ++ B → x ≠ n.
Proof.
  intros Hx ->. destruct (rep_alloc _ _ HR _ Hx) as [? Ha].
  by rewrite (rep_fresh _ _ HR) in Ha.
Qed.

Lemma upd_in i : (i < level sl)%nat → updateAt u i ∈ header :: A.
Proof. intros Hi. destruct Hu as [_ H]. destruct (H i Hi) as (pre & mid & -> & _). set_solver. Qed.

Lemma upd_fresh i : (i < level sl)%nat → updateAt u i ≠ n.
Proof. intros Hi. apply next_fresh. pose proof (upd_in i Hi). set_solver. Qed.

Lemma upd_height i : (i < level sl)%nat → (i < height h (updateAt u i))%nat.
Proof. intros Hi. destruct Hu as [_ H]. destruct (H i Hi) as (pre & mid & _ & ? & _). done. Qed.

Lemma getNode_cell y : y ≠ n → getNode spliceCell y = getNode h y.
Proof. intros Hy. unfold getNode, spliceCell. by rewrite lookup_insert_ne. Qed.

Lemma getNode_new : getNode spliceCell n = mkNode m sc None (replicate lv (mkLevel None 0)).
Proof. unfold getNode, spliceCell. by rewrite lookup_insert_eq. Qed.

Lemma getLevel_cell y i : y ≠ n → getLevel spliceCell y i = getLevel h y i.
Proof. intros Hy. unfold getLevel. by rewrite getNode_cell. Qed.

Lemma height_cell y : height spliceCell y = if decide (y = n) then lv else height h y.
Proof.
  unfold height. case_decide as Hy; [|by rewrite getNode_cell].
  subst y. rewrite getNode_new. cbn. apply length_replicate.
Qed.

Lemma splice_shape : SameShape spliceCell splice.
Proof. eapply SameShape_trans; [apply linkLevels_shape|apply bumpSpans_shape]. Qed.

Lemma height_splice y : height splice y = if decide (y = n) then lv else height h y.
Proof. rewrite (same_height _ _ splice_shape). apply height_cell. Qed.

(** The levels after splicing: of the new node, of the nodes before it and of
    all others. *)
Lemma splice_new i :
  (i < lv)%nat →
  getLevel splice n i = mkLevel (forward (getLevel h (updateAt u i) i))
                          (span (getLevel h (updateAt u i) i) - (rankAt u 0 - rankAt u i)).
Proof.
  intros Hi. unfold splice. rewrite bumpSpans_level, decide_False by (try apply NoDup_seq; rewrite elem_of_seq; lia).
  rewrite linkLevels_level, decide_True by (try apply NoDup_seq; rewrite elem_of_seq; lia).
  unfold linkStep. cbn zeta. pose proof (upd_fresh i ltac:(lia)) as Hne.
  rewrite !setLevel_cases, (getLevel_cell (updateAt u i)) by done.
  rewrite decide_False by (intros [? _]; congruence).
  rewrite decide_True by (rewrite height_cell, decide_True by done; split; [done|lia]). done.
Qed.

Lemma splice_old y i :
  y ≠ n →
  getLevel splice y i =
    if decide (y = updateAt u i ∧ (i < level sl)%nat) then
      if decide (i < lv)%nat then mkLevel (Some n) (rankAt u 0 - rankAt u i + 1)
      else mkLevel (forward (getLevel h y i)) (span (getLevel h y i) + 1)
    else getLevel h y i.
Proof.
  intros Hy. unfold splice. rewrite bumpSpans_level by apply NoDup_seq.
  assert (i ∈ seq 0 lv ↔ i < lv)%nat as Hin by (rewrite elem_of_seq; lia).
  assert (getLevel (linkLevels u n (seq 0 lv) spliceCell) y i =
    if decide (y = updateAt u i ∧ (i < lv)%nat) then mkLevel (Some n) (rankAt u 0 - rankAt u i + 1)
    else getLevel h y i) as Hlink.
  { rewrite linkLevels_level by apply NoDup_seq. case_decide as Hi.
    - rewrite Hin in Hi. unfold linkStep. cbn zeta. rewrite !setLevel_cases, (getLevel_cell y) by done.
      rewrite height_setLevel, height_cell, (decide_False (P := updateAt u i = n)) by (apply upd_fresh; lia).
      pose proof (upd_height i ltac:(lia)).
      rewrite (decide_False (P := y = n ∧ _)) by (by intros [? _]).
      destruct (decide (y = updateAt u i)).
      + by rewrite !decide_True by tauto.
      + by rewrite !decide_False by tauto.
    - rewrite decide_False by (rewrite <- Hin; tauto). by apply getLevel_cell. }
  destruct (decide (i ∈ seq lv (level sl - lv))) as [Hb|Hb]; rewrite elem_of_seq in Hb.
  - unfold bumpStep. cbn zeta. rewrite setLevel_cases.
    rewrite (same_height _ _ (linkLevels_shape u n (seq 0 lv) spliceCell)), height_cell.
    rewrite (decide_False (P := updateAt u i = n)) by (apply upd_fresh; lia).
    pose proof (upd_height i ltac:(lia)).
    destruct (decide (y = updateAt u i)) as [->|Hne].
    + rewrite (decide_True (P := _ = _ ∧ _)) by done. rewrite Hlink.
      rewrite (decide_False (P := _ = _ ∧ (i < lv)%nat)) by lia. rewrite decide_True by (split; [done|lia]).
      by rewrite decide_False by lia.
    + rewrite !decide_False by (by intros [? _]). by rewrite Hlink, decide_False by (by intros [? _]).
  - rewrite Hlink. destruct (decide (i < lv)%nat).
    + destruct (decide (y = updateAt u i)).
      * by rewrite !decide_True by (split; [done|lia]).
      * by rewrite !decide_False by (by intros [? _]).
    + rewrite decide_False by lia. rewrite decide_False by (intros [_ ?]; lia). done.
Qed.

(** Where a node stands in the spliced sequence. *)
Lemma splice_position pre x rest :
  header :: A ++ n :: B = pre ++ x :: rest →
  (∃ mid, header :: A = pre ++ x :: mid ∧ rest = mid ++ n :: B)
  ∨ (pre = header :: A ∧ x = n ∧ rest = B)
  ∨ (∃ b, pre = header :: A ++ n :: b ∧ B = b ++ x :: rest).
Proof.
  rewrite app_comm_cons. intros [(k & Hk1 & Hk2)|(k & Hk1 & Hk2)]%app_eq_inv.
  - destruct k as [|y k]; cbn in Hk2; injection Hk2 as -> ->.
    + rewrite app_nil_r in Hk1. right. left. done.
    + left. by exists k.
  - destruct k as [|y k]; cbn in Hk2; injection Hk2 as -> Hk2.
    + rewrite app_nil_r in Hk1. right. left. done.
    + right. right. exists k. split; [|done]. by rewrite Hk1.
Qed.

(** A node before the gap is the last of its level, or has one behind it. *)
Lemma path_position pre x mid i :
  header :: A = pre ++ x :: mid → (i < height h x)%nat → (i < level sl)%nat →
  (x = updateAt u i ∧ rankAt u i = zlen pre ∧ below h i mid)
  ∨ (x ≠ updateAt u i ∧ ∃ m1 m2, mid = m1 ++ updateAt u i :: m2).
Proof.
  intros Heq Hx Hi. destruct Hu as [_ Hp]. destruct (Hp i Hi) as (pre' & mid' & Heq' & Hh' & Hb & Hr).
  assert (NoDup (header :: A)) as Hnd.
  { pose proof (rep_nodup _ _ HR) as H. rewrite app_comm_cons in H. by apply NoDup_app in H as [? _]. }
  pose proof Heq' as Heq2. rewrite Heq in Heq2.
  apply app_eq_inv in Heq2 as [(k & Hk1 & Hk2)|(k & Hk1 & Hk2)]; destruct k as [|y k];
    cbn in Hk2; injection Hk2 as Hy Hk2.
  - left. rewrite app_nil_r in Hk1. subst. by split_and!.
  - exfalso. subst mid'. unfold below in Hb. rewrite Forall_app, Forall_cons in Hb. lia.
  - left. rewrite app_nil_r in Hk1. subst. by split_and!.
  - right. split; [|by exists k, mid'; rewrite Hk2]. intros ->. rewrite Heq in Hnd.
    rewrite Hk2 in Hnd. apply NoDup_app in Hnd as (_ & _ & Hnd). apply NoDup_cons in Hnd as [Hnd _]. set_solver.
Qed.

Lemma levelSpec_splice i l : n ∉ l → levelSpec splice i l = levelSpec h i l.
Proof.
  intros Hn. apply levelSpec_ext. intros y Hy. rewrite height_splice, decide_False; [done|].
  by intros ->.
Qed.

Lemma below_splice i l : n ∉ l → below h i l → below splice i l.
Proof.
  unfold below. rewrite !Forall_forall. intros Hn Hb y Hy. rewrite height_splice, decide_False; [by apply Hb|].
  by intros ->.
Qed.

Lemma n_notin_AB : n ∉ header :: A ++ B.
Proof. intros Hn. by apply (next_fresh n). Qed.

Lemma path_rank0 : rankAt u 0 = zlen A.
Proof. apply (path_zero sl A B u (level sl) HR Hu). pose proof (rep_level _ _ HR). lia. Qed.

(** What a node in front of the gap sees after the splice. *)
Lemma levelSpec_new i :
  levelSpec splice i (n :: B) =
    if decide (i < lv)%nat then mkLevel (Some n) 1
    else mkLevel (forward (levelSpec h i B)) (span (levelSpec h i B) + 1).
Proof.
  pose proof n_notin_AB as Hn. case_decide as Hi.
  - unfold levelSpec. cbn [nextAt]. by rewrite height_splice, decide_True, (proj2 (Nat.ltb_lt _ _)).
  - change (n :: B) with ([n] ++ B). rewrite levelSpec_below, levelSpec_splice by
      (try (unfold below; rewrite Forall_singleton, height_splice, decide_True by done; lia); set_solver).
    done.
Qed.

Lemma splice_links pre x rest i :
  header :: A ++ n :: B = pre ++ x :: rest → (i < height splice x)%nat →
  forward (getLevel splice x i) = forward (levelSpec splice i rest)
  ∧ ((i < level sl)%nat → span (getLevel splice x i) = span (levelSpec splice i rest)).
Proof.
  intros Heq Hx. pose proof n_notin_AB as Hn. pose proof (rep_nodup _ _ HR) as Hnd.
  pose proof (levelSpec_new i) as HnB.
  apply splice_position in Heq as [(mid & Heq & ->)|[(-> & -> & ->)|(b & -> & HB)]].
  - assert (x ≠ n ∧ n ∉ mid) as [Hxn Hmn].
    { assert (n ∉ pre ++ x :: mid) by (rewrite <- Heq; set_solver). set_solver. }
    rewrite height_splice, decide_False in Hx by done.
    destruct (rep_links _ _ HR _ _ _ i (split_whole A B _ _ _ Heq) Hx) as [Hf Hsp].
    rewrite splice_old by done. destruct (decide (i < level sl)%nat) as [Hi|Hi].
    + specialize (Hsp Hi). destruct (path_position _ _ _ i Heq Hx Hi) as [(-> & Hr & Hb)|(Hne & m1 & m2 & ->)].
      * rewrite (decide_True (P := _ ∧ _)) by done. rewrite levelSpec_below in Hf, Hsp by done.
        rewrite levelSpec_below, HnB by (by apply below_splice). cbn [forward span] in *.
        rewrite path_rank0, Hr. pose proof (rank_mid A _ _ _ Heq).
        destruct (decide (i < lv)%nat); cbn [forward span]; (split; [done|intros _; lia]).
      * rewrite (decide_False (P := _ ∧ _)) by tauto. rewrite Hf, Hsp.
        rewrite <- !app_assoc. cbn [app].
        assert (i < height splice (updateAt u i))%nat.
        { rewrite height_splice, decide_False by (by apply upd_fresh). by apply upd_height. }
        rewrite (levelSpec_hit splice i m1 _ (m2 ++ n :: B) (m2 ++ B)) by done.
        rewrite levelSpec_splice; [done|]. set_solver.
    + rewrite (decide_False (P := _ ∧ _)) by tauto. split; [|lia]. rewrite Hf.
      pose proof (tall_tail _ A B _ _ _ i HR Heq ltac:(lia)) as Hbl.
      unfold below in Hbl. rewrite Forall_app in Hbl. destruct Hbl as [Hb1 Hb2].
      rewrite !levelSpec_below, HnB by (done || by apply below_splice). cbn [forward].
      rewrite decide_False by lia. done.
  - rewrite height_splice, decide_True in Hx by done. rewrite splice_new by done.
    rewrite levelSpec_splice by set_solver.
    destruct Hu as [_ Hp]. destruct (Hp i ltac:(lia)) as (pre & mid & Heq & Hh & Hb & Hr).
    destruct (rep_links _ _ HR _ _ _ i (split_whole A B _ _ _ Heq) Hh) as [Hf Hsp].
    rewrite levelSpec_below in Hf, Hsp by done. cbn [forward span] in *. split; [done|]. intros Hi.
    rewrite (Hsp Hi), path_rank0, Hr. pose proof (rank_mid A _ _ _ Heq). lia.
  - assert (x ≠ n ∧ n ∉ rest) as [Hxn Hrn] by (subst B; set_solver).
    rewrite height_splice, decide_False in Hx by done. rewrite splice_old by done.
    rewrite (decide_False (P := _ ∧ _)).
    2: { intros [-> Hi]. pose proof (upd_in i Hi) as Hin. rewrite app_comm_cons in Hnd.
         apply NoDup_app in Hnd as (_ & Hd & _). apply (Hd _ Hin). rewrite HB. set_solver. }
    rewrite levelSpec_splice by done. apply (rep_links _ _ HR (header :: A ++ b)); [|done].
    rewrite HB, <- app_comm_cons, <- app_assoc. done.
Qed.

Lemma splice_next : forward (getLevel splice n 0) = head B.
Proof.
  pose proof n_notin_AB as Hn. destruct (splice_links (header :: A) n B 0 eq_refl) as [-> _].
  { rewrite height_splice, decide_True by done. lia. }
  rewrite levelSpec_splice by set_solver. unfold levelSpec. destruct B as [|y B']; [done|]. cbn [nextAt].
  pose proof (rep_heights _ _ HR y ltac:(set_solver)). by rewrite (proj2 (Nat.ltb_lt _ _)) by lia.
Qed.
End Splice.

(** Setting backward pointers does not disturb the rest. *)
Lemma last_cons_header (A : list nat) x :
  last (header :: A) = Some x → header ∉ A → last A = if decide (x = header) then None else Some x.
Proof.
  intros Hl Hh. destruct A as [|y A _] using rev_ind.
  - cbn in Hl. injection Hl as <-. by rewrite decide_True.
  - rewrite app_comm_cons, last_snoc in Hl. injection Hl as <-. rewrite last_snoc.
    rewrite decide_False; [done|]. intros ->. set_solver.
Qed.

Lemma snoc_view (A B pre rest : list nat) x y :
  A ++ y :: B = pre ++ x :: rest →
  (∃ mid, A = pre ++ x :: mid) ∨ (x = y ∧ pre = A) ∨ (∃ b, pre = A ++ y :: b ∧ B = b ++ x :: rest).
Proof.
  intros [(k & Hk1 & Hk2)|(k & Hk1 & Hk2)]%app_eq_inv; destruct k as [|z k]; cbn in Hk2; injection Hk2 as -> Hk2.
  - right. left. rewrite app_nil_r in Hk1. done.
  - left. by exists k.
  - right. left. rewrite app_nil_r in Hk1. done.
  - right. right. by exists k; rewrite Hk1.
Qed.

(** Backward links after an insertion, from those before it. *)
Lemma backlinks_insert (bk bk' : nat → option nat) (A B : list nat) n :
  NoDup (A ++ B) → n ∉ A ++ B →
  (∀ pre x rest, A ++ B = pre ++ x :: rest → bk x = last pre) →
  (∀ y, y ∈ n :: A ++ B → bk' y = if decide (y = n) then last A else if decide (head B = Some y) then Some n else bk y) →
  ∀ pre x rest, A ++ n :: B = pre ++ x :: rest → bk' x = last pre.
Proof.
  intros Hnd Hn Hbk Hback pre x rest Heq.
  assert (x ∈ n :: A ++ B) as Hx.
  { assert (x ∈ A ++ n :: B) by (rewrite Heq; set_solver). set_solver. }
  rewrite (Hback x Hx). apply NoDup_app in Hnd as (HndA & Hd & HndB).
  destruct (snoc_view _ _ _ _ _ _ Heq) as [(mid & HA)|[(-> & ->)|(b & -> & HB)]].
  - assert (x ∈ A) as HxA by (rewrite HA; set_solver).
    rewrite decide_False by set_solver. rewrite decide_False.
    2: { intros Hhb. apply (Hd x HxA). destruct B; [done|]. injection Hhb as ->. set_solver. }
    apply (Hbk pre x (mid ++ B)). by rewrite HA, <- app_assoc.
  - by rewrite decide_True.
  - rewrite decide_False by (subst B; set_solver). destruct b as [|y b].
    + rewrite decide_True by (by rewrite HB). by rewrite last_snoc.
    + rewrite decide_False.
      2: { rewrite HB. cbn. intros [= ->]. rewrite HB in HndB. apply NoDup_cons in HndB as [? _]. set_solver. }
      rewrite (Hbk (A ++ y :: b) x rest) by (by rewrite HB, <- app_assoc).
      by rewrite !last_app_cons.
Qed.

Lemma finish_insert sl A B u lv m sc h6 tl :
  Rep sl (A ++ B) → Path (heap sl) A u (level sl) → (1 ≤ lv ≤ level sl)%nat →
  let n := next sl in
  (∀ y, levels (getNode h6 y) = levels (getNode (splice sl u lv m sc) y)) →
  (∀ y, entryOf h6 y = entryOf (splice sl u lv m sc) y) →
  (∀ y, is_Some (h6 !! y) ↔ is_Some (splice sl u lv m sc !! y)) →
  (∀ y, y ∈ n :: A ++ B → backward (getNode h6 y) =
     if decide (y = n) then last A
     else if decide (head B = Some y) then Some n else backward (getNode (heap sl) y)) →
  tl = last (A ++ n :: B) →
  Rep (mkSkipList h6 (S n) tl (level sl) (slength sl + 1)) (A ++ n :: B)
  ∧ (∀ y, y ∈ A ++ B → entryOf h6 y = entryOf (heap sl) y) ∧ entryOf h6 n = (m, sc).
Proof.
  intros HR Hu Hlv n Hlev Hent Hal Hback ->. pose proof (n_notin_AB sl A B HR) as Hn. fold n in Hn.
  assert (∀ y, height h6 y = height (splice sl u lv m sc) y) as Hht by (intros y; unfold height; by rewrite Hlev).
  pose proof (height_splice sl u lv m sc) as Hsp.
  pose proof (splice_shape sl u lv m sc) as Hshape.
  assert (∀ y, entryOf h6 y = if decide (y = n) then (m, sc) else entryOf (heap sl) y) as Hent'.
  { intros y. rewrite Hent, (same_entry _ _ Hshape). unfold entryOf. case_decide as Hy.
    - subst y. by rewrite getNode_new.
    - by rewrite getNode_cell. }
  split_and!.
  - pose proof HR as [Hnd Hall Hfr Hhd Hhts Hlvl Hlen _ Hbk _].
    split; cbn [heap next tail level slength]; try done.
    + apply NoDup_cons in Hnd as [Hh Hnd]. apply NoDup_cons. split; [set_solver|].
      rewrite <- Permutation_middle. apply NoDup_cons. split; [set_solver|done].
    + intros x Hx. rewrite Hal, (same_alloc _ _ Hshape). unfold spliceCell. rewrite lookup_insert_is_Some.
      destruct (decide (n = x)); [by left|]. right. split; [done|]. apply Hall. set_solver.
    + intros x Hx. apply eq_None_not_Some. rewrite Hal, (same_alloc _ _ Hshape). unfold spliceCell.
      rewrite lookup_insert_ne by (unfold n in Hx; lia). rewrite Hfr by (unfold n in Hx; lia). by intros [? ?].
    + rewrite Hht, Hsp, decide_False by set_solver. done.
    + intros x Hx. rewrite Hht, Hsp. case_decide; [lia|]. apply Hhts. set_solver.
    + rewrite Hlen. unfold zlen. rewrite !length_app. cbn. lia.
    + intros pre x rest i Heq Hi. rewrite Hht in Hi.
      assert (getLevel h6 x i = getLevel (splice sl u lv m sc) x i) as -> by (unfold getLevel; by rewrite Hlev).
      rewrite (levelSpec_ext (splice sl u lv m sc) h6) by (intros; apply Hht).
      by apply (splice_links sl A B HR u Hu lv Hlv m sc pre x rest i).
    + apply NoDup_cons in Hnd as [_ Hnd]. by apply (backlinks_insert (λ y, backward (getNode (heap sl) y))); [|set_solver|..].
  - intros y Hy. rewrite Hent', decide_False; [done|]. set_solver.
  - by rewrite Hent', decide_True.
Qed.

(** The end of [insert]: the backward links around the new node. *)
Lemma attach_rep sl A B u lv m sc :
  Rep sl (A ++ B) → Path (heap sl) A u (level sl) → (1 ≤ lv ≤ level sl)%nat →
  let n := next sl in
  let h5 := setBackward (splice sl u lv m sc) n (last A) in
  let '(h6, tl) := match head B with Some nx => (setBackward h5 nx (Some n), tail sl) | None => (h5, Some n) end in
  Rep (mkSkipList h6 (S n) tl (level sl) (slength sl + 1)) (A ++ n :: B)
  ∧ (∀ y, y ∈ A ++ B → entryOf h6 y = entryOf (heap sl) y) ∧ entryOf h6 n = (m, sc).
Proof.
  intros HR Hu Hlv n h5. set (h4 := splice sl u lv m sc) in *. pose proof (n_notin_AB sl A B HR) as Hn. fold n in Hn.
  assert (∀ y, y ∈ n :: A ++ B → is_Some (h4 !! y)) as Hal.
  { intros y Hy. unfold h4. rewrite (same_alloc _ _ (splice_shape sl u lv m sc)). unfold spliceCell. rewrite lookup_insert_is_Some.
    destruct (decide (n = y)); [by left|right]. split; [done|]. apply (rep_alloc _ _ HR). set_solver. }
  assert (∀ y, y ∈ A ++ B → backward (getNode h4 y) = backward (getNode (heap sl) y)) as Hb4.
  { intros y Hy. unfold h4. rewrite (same_backward _ _ (splice_shape sl u lv m sc)). by rewrite getNode_cell by set_solver. }
  destruct B as [|nx B']; cbn [head]; apply (finish_insert sl A _ u lv m sc); try done; unfold h5.
  - intros. by rewrite levels_setBackward.
  - intros. by rewrite entryOf_setBackward.
  - intros. by rewrite alloc_setBackward.
  - intros y Hy. rewrite backward_setBackward by (apply Hal; set_solver). fold n. destruct (decide (y = n)); [done|].
    rewrite decide_False by done. apply Hb4. set_solver.
  - by rewrite last_snoc.
  - intros. by rewrite !levels_setBackward.
  - intros. by rewrite !entryOf_setBackward.
  - intros. by rewrite !alloc_setBackward.
  - intros y Hy. rewrite !backward_setBackward by (rewrite ?alloc_setBackward; apply Hal; set_solver). fold n.
    assert (nx ≠ n) as Hnx by set_solver. destruct (decide (y = nx)) as [->|Hne].
    + by rewrite (decide_False (P := nx = n)), decide_True by done.
    + destruct (decide (y = n)); [done|]. cbn [head]. rewrite decide_False by congruence. apply Hb4. set_solver.
  - rewrite (rep_tail _ _ HR). by rewrite !last_app_cons.
Qed.

Lemma insert_rep sl A B lv sc m :
  Rep sl (A ++ B) → (1 ≤ lv ≤ zsetMaxLevel)%nat →
  (∀ x, x ∈ A → lessNode sc m (getNode (heap sl) x) = true) →
  (∀ x, x ∈ B → lessNode sc m (getNode (heap sl) x) = false) →
  let sl' := SkipList_insert sl lv sc m in
  Rep sl' (A ++ next sl :: B)
  ∧ (∀ y, y ∈ A ++ B → entryOf (heap sl') y = entryOf (heap sl) y) ∧ entryOf (heap sl') (next sl) = (m, sc).
Proof.
  intros HR Hlv HA HB. unfold SkipList_insert.
  pose proof (searchPath_spec sl A B HR _ HA HB) as Hu0. cbn zeta.
  pose proof (raise_rep sl A B (searchPath sl (lessNode sc m)) lv HR Hu0 ltac:(lia)) as Hraise.
  destruct (raiseLevels sl (searchPath sl (lessNode sc m)) lv) as [h1 u].
  cbn zeta in Hraise. destruct Hraise as (HR1 & Hu & Hs1).
  set (sl1 := mkSkipList h1 (next sl) (tail sl) (Nat.max (level sl) lv) (slength sl)) in *.
  change (bumpSpans u _ _) with (splice sl1 u lv m sc).
  assert (1 ≤ lv ≤ level sl1)%nat as Hlv1 by (cbn; lia). pose proof (rep_level _ _ HR1) as Hl1.
  pose proof (splice_next sl1 A B HR1 u Hu lv Hlv1 m sc) as Hfw. change (next sl1) with (next sl) in Hfw.
  destruct (path_zero sl1 A B u _ HR1 Hu ltac:(lia)) as [Hlast _].
  pose proof (rep_nodup _ _ HR) as Hnd. apply NoDup_cons in Hnd as [Hh _].
  rewrite <- (last_cons_header A (updateAt u 0)) by (done || set_solver). rewrite getLevel_setBackward, Hfw.
  pose proof (attach_rep sl1 A B u lv m sc HR1 Hu Hlv1) as Hatt. cbn zeta in Hatt.
  change (next sl1) with (next sl) in Hatt. change (tail sl1) with (tail sl) in Hatt. change (slength sl1) with (slength sl) in Hatt.
  destruct (head B); destruct Hatt as (Hr & He & Hen); cbn [heap]; (split_and!; [done| |done]);
    intros y Hy; rewrite He by done; apply Hs1.
Qed.

(** ** Deletion *)

Section Unlink.
Context (sl : zsetSkipList) (A B : list nat) (x : nat) (HR : Rep sl (A ++ x :: B)).
Context (u : list (nat * Z)) (Hu : Path (heap sl) A u (level sl)).
Local Abbreviation h := (heap sl).

Lemma level_one : (1 ≤ 1 ≤ level sl)%nat.
Proof. pose proof (rep_level _ _ HR). lia. Qed.

Definition unlinked : Heap := unlinkLevels u x (seq 0 (level sl)) h.

Lemma unlinked_shape : SameShape h unlinked.
Proof. apply unlinkLevels_shape. Qed.

Lemma unlinked_level y i :
  getLevel unlinked y i =
    if decide (y = updateAt u i ∧ (i < level sl)%nat) then
      if decide (forward (getLevel h y i) = Some x) then
        mkLevel (forward (getLevel h x i)) (span (getLevel h y i) + (span (getLevel h x i) - 1))
      else mkLevel (forward (getLevel h y i)) (span (getLevel h y i) - 1)
    else getLevel h y i.
Proof.
  unfold unlinked. rewrite unlinkLevels_level by apply NoDup_seq.
  assert (i ∈ seq 0 (level sl) ↔ i < level sl)%nat as Hin by (rewrite elem_of_seq; lia).
  destruct (decide (i < level sl)%nat) as [Hi|Hi].
  - rewrite decide_True by (by apply Hin). pose proof (upd_height sl A u Hu i Hi).
    unfold unlinkStep. cbn zeta. destruct (decide (y = updateAt u i)) as [->|Hne].
    + rewrite (decide_True (P := _ = _ ∧ _)) by done. case_decide; by rewrite setLevel_cases, decide_True by done.
    + rewrite (decide_False (P := _ = _ ∧ _)) by tauto. case_decide; by rewrite setLevel_cases, decide_False by tauto.
  - rewrite decide_False by (by rewrite Hin). by rewrite decide_False by tauto.
Qed.

Lemma unlinked_links pre y rest i :
  header :: A ++ B = pre ++ y :: rest → (i < height h y)%nat →
  forward (getLevel unlinked y i) = forward (levelSpec h i rest)
  ∧ ((i < level sl)%nat → span (getLevel unlinked y i) = span (levelSpec h i rest)).
Proof.
  intros Heq Hy. pose proof (rep_nodup _ _ HR) as Hnd. rewrite app_comm_cons in Hnd.
  apply NoDup_app in Hnd as (HndA & Hd & HndB). apply NoDup_cons in HndB as [HxB HndB].
  assert ((∃ mid, header :: A = pre ++ y :: mid ∧ rest = mid ++ B) ∨ ∃ b, pre = header :: A ++ b ∧ B = b ++ y :: rest)
    as [(mid & HA & ->)|(b & -> & HB)].
  { rewrite app_comm_cons in Heq. apply app_eq_inv in Heq as [(k & Hk1 & Hk2)|(k & Hk1 & Hk2)].
    - destruct k as [|z k]; cbn in Hk2; [|injection Hk2 as <- ->; left; by exists k].
      right. exists []. rewrite !app_nil_r in *. by rewrite Hk2, Hk1.
    - right. by exists k. }
  - destruct (rep_links _ _ HR _ _ _ i (split_whole A (x :: B) _ _ _ HA) Hy) as [Hf Hsp].
    rewrite unlinked_level. destruct (decide (i < level sl)%nat) as [Hi|Hi].
    + specialize (Hsp Hi). destruct (path_position sl A (x :: B) HR u Hu 1 level_one _ _ _ i HA Hy Hi)
        as [(-> & _ & Hb)|(Hne & m1 & m2 & ->)].
      * rewrite (decide_True (P := _ ∧ _)) by done. rewrite levelSpec_below in Hf, Hsp by done.
        rewrite levelSpec_below by done. cbn [forward span] in *.
        destruct (decide (i < height h x)%nat) as [Hx|Hx].
        -- assert (levelSpec h i (x :: B) = mkLevel (Some x) 1) as HxB'.
           { unfold levelSpec. cbn [nextAt]. by rewrite (proj2 (Nat.ltb_lt _ _)). }
           rewrite HxB' in Hf, Hsp. cbn [forward span] in Hf, Hsp. rewrite decide_True by done.
           destruct (rep_links _ _ HR (header :: A) x B i eq_refl Hx) as [Hfx Hspx]. specialize (Hspx Hi).
           cbn [forward span]. split; [done|]. intros _. lia.
        -- assert (below h i [x]) as Hbx by (unfold below; rewrite Forall_singleton; lia).
           change (x :: B) with ([x] ++ B) in Hf, Hsp. rewrite levelSpec_below in Hf, Hsp by done.
           cbn [forward span] in Hf, Hsp. change (zlen [x]) with 1 in Hsp. rewrite decide_False.
           ++ cbn [forward span]. split; [done|]. intros _. lia.
           ++ rewrite Hf. unfold levelSpec. destruct (nextAt h i B) as [[z d]|] eqn:E; cbn [forward]; [|done].
              apply nextAt_Some in E as (a & b & -> & _). intros [= ->]. apply HxB. set_solver.
      * rewrite (decide_False (P := _ ∧ _)) by tauto. rewrite Hf, Hsp, <- !app_assoc. cbn [app].
        pose proof (upd_height sl A u Hu i Hi).
        by rewrite (levelSpec_hit h i m1 _ (m2 ++ x :: B) (m2 ++ B)) by done.
    + rewrite (decide_False (P := _ ∧ _)) by tauto. split; [|lia]. rewrite Hf.
      pose proof (tall_tail _ A (x :: B) _ _ _ i HR HA ltac:(lia)) as Hbl.
      unfold below in Hbl. rewrite Forall_app, Forall_cons in Hbl. destruct Hbl as (Hb1 & Hb2 & Hb3).
      change (x :: B) with ([x] ++ B). rewrite !levelSpec_below by (done || unfold below; by rewrite Forall_singleton).
      done.
  - rewrite unlinked_level. rewrite (decide_False (P := _ ∧ _)).
    + apply (rep_links _ _ HR (header :: A ++ x :: b)); [|done]. rewrite HB, <- app_comm_cons, <- app_assoc. done.
    + intros [-> Hi]. pose proof (upd_in sl A (x :: B) HR u Hu 1 level_one i Hi) as Hin. apply (Hd _ Hin). rewrite HB. set_solver.
Qed.

Lemma lowerLevel_spec h' lv :
  (1 ≤ lv)%nat →
  (1 ≤ lowerLevel h' lv ≤ lv)%nat
  ∧ ∀ i, (lowerLevel h' lv ≤ i < lv)%nat → forward (getLevel h' header i) = None.
Proof.
  induction lv as [|[|lv] IH]; intros Hlv; [lia|cbn [lowerLevel]; split; [lia|intros ? ?; lia]|].
  change (lowerLevel h' (S (S lv))) with
    (match forward (getLevel h' header (S lv)) with None => lowerLevel h' (S lv) | Some _ => S (S lv) end).
  destruct (forward (getLevel h' header (S lv))) as [z|] eqn:E; [split; [lia|intros ? ?; lia]|].
  destruct IH as [Hle IH]; [lia|]. split; [lia|]. intros i Hi.
  destruct (decide (i = S lv)) as [->|]; [done|]. apply IH. lia.
Qed.
End Unlink.

Lemma finish_delete sl A B x u h2 tl :
  Rep sl (A ++ x :: B) → Path (heap sl) A u (level sl) →
  (∀ y, levels (getNode h2 y) = levels (getNode (unlinked sl x u) y)) →
  (∀ y, entryOf h2 y = entryOf (heap sl) y) →
  (∀ y, is_Some (h2 !! y) ↔ is_Some (heap sl !! y)) →
  (∀ y, y ∈ A ++ B → backward (getNode h2 y) =
     if decide (head B = Some y) then last A else backward (getNode (heap sl) y)) →
  tl = last (A ++ B) →
  Rep (mkSkipList h2 (next sl) tl (lowerLevel h2 (level sl)) (slength sl - 1)) (A ++ B).
Proof.
  intros HR Hu Hlev Hent Hal Hback ->.
  assert (∀ y i, getLevel h2 y i = getLevel (unlinked sl x u) y i) as Hgl
    by (intros; unfold getLevel; by rewrite Hlev).
  assert (∀ y, height h2 y = height (heap sl) y) as Hht.
  { intros y. unfold height. rewrite Hlev. apply (same_height _ _ (unlinked_shape sl x u)). }
  pose proof (unlinked_links sl A B x HR u Hu) as Hlinks.
  pose proof (rep_level _ _ HR) as Hlvl. destruct (lowerLevel_spec h2 (level sl)) as [Hlow Hnone]; [lia|].
  pose proof HR as [Hnd Hall Hfr Hhd Hhts _ Hlen _ Hbk _].
  pose proof Hnd as Hnd'. apply NoDup_cons in Hnd' as [Hh Hnd'].
  pose proof Hnd' as HndAB. rewrite <- Permutation_middle in HndAB. apply NoDup_cons in HndAB as [Hx HndAB].
  split; cbn [heap next tail level slength]; try done.
  - apply NoDup_cons. split; [set_solver|done].
  - intros y Hy. apply Hal, Hall. set_solver.
  - intros y Hy. apply eq_None_not_Some. rewrite Hal, Hfr by done. by intros [? ?].
  - by rewrite Hht.
  - intros y Hy. rewrite Hht. destruct (Hhts y ltac:(set_solver)) as [Hy1 Hy2]. split; [done|].
    destruct (decide (height (heap sl) y ≤ lowerLevel h2 (level sl))%nat) as [|Hgt]; [done|exfalso].
    set (i := lowerLevel h2 (level sl)) in *.
    assert (forward (getLevel h2 header i) = None) as Hn by (apply Hnone; lia).
    rewrite Hgl in Hn. destruct (Hlinks [] header (A ++ B) i eq_refl) as [Hf _]; [rewrite Hhd; lia|].
    rewrite Hf in Hn. unfold levelSpec in Hn. destruct (nextAt (heap sl) i (A ++ B)) as [[? ?]|] eqn:E; [done|].
    apply nextAt_None in E. unfold below in E. rewrite Forall_forall in E. specialize (E y Hy). simpl in E. lia.
  - lia.
  - rewrite Hlen. unfold zlen. rewrite !length_app. cbn. lia.
  - intros pre y rest i Heq Hi. rewrite Hht in Hi. rewrite Hgl, (levelSpec_ext (heap sl) h2) by (intros; apply Hht).
    destruct (Hlinks pre y rest i Heq Hi) as [Hf Hsp]. split; [done|]. intros ?. apply Hsp. lia.
  - intros pre y rest Heq. rewrite (Hback y) by (rewrite Heq; set_solver).
    apply NoDup_app in HndAB as (HndA & Hd & HndB).
    apply app_eq_inv in Heq as [(k & Hk1 & Hk2)|(k & Hk1 & Hk2)].
    + destruct k as [|z k]; cbn in Hk2.
      * rewrite app_nil_r in Hk1. subst. by rewrite decide_True.
      * injection Hk2 as <- ->. rewrite decide_False.
        -- apply (Hbk pre y (k ++ x :: B)). by rewrite Hk1, <- app_assoc.
        -- intros Hhb. apply (Hd y); [rewrite Hk1; set_solver|]. destruct B; [done|]. injection Hhb as ->. set_solver.
    + destruct k as [|z k]; cbn in Hk2.
      * rewrite app_nil_r in Hk1. subst. by rewrite decide_True.
      * rewrite Hk2 in *. cbn [head]. rewrite decide_False.
        -- rewrite (Hbk (A ++ x :: z :: k) y rest) by (by rewrite <- app_assoc). rewrite Hk1.
           by rewrite !last_app_cons.
        -- intros [= ->]. apply NoDup_cons in HndB as [? _]. set_solver.
Qed.

Lemma delete_rep sl A B x sc m :
  Rep sl (A ++ x :: B) →
  (∀ y, y ∈ A → lessNode sc m (getNode (heap sl) y) = true) →
  (∀ y, y ∈ x :: B → lessNode sc m (getNode (heap sl) y) = false) →
  feq (nscore (getNode (heap sl) x)) sc = true → member (getNode (heap sl) x) = m →
  ∃ sl', SkipList_delete sl sc m = (sl', true) ∧ Rep sl' (A ++ B)
         ∧ (∀ y, entryOf (heap sl') y = entryOf (heap sl) y).
Proof.
  intros HR HA HB Hsc Hm. unfold SkipList_delete.
  pose proof (searchPath_spec sl A (x :: B) HR _ HA HB) as Hu. set (u := searchPath _ _) in *. clearbody u.
  pose proof (rep_level _ _ HR) as Hlvl. cbn zeta. rewrite (path_next sl A (x :: B) u _ HR Hu) by lia.
  cbn [head]. rewrite Hsc, bool_decide_eq_true_2 by done. cbn [negb orb].
  eexists. split; [reflexivity|]. unfold SkipList_deleteNode. change (unlinkLevels u x _ _) with (unlinked sl x u).
  pose proof (unlinked_shape sl x u) as Hs. pose proof (rep_nodup _ _ HR) as Hnd.
  rewrite app_comm_cons in Hnd. apply NoDup_app in Hnd as (_ & Hd & HndB).
  pose proof (rep_heights _ _ HR x ltac:(set_solver)) as Hhx.
  assert (forward (getLevel (unlinked sl x u) x 0) = head B) as Hfw.
  { rewrite (unlinked_level sl A x u Hu). rewrite (decide_False (P := _ ∧ _)).
    - destruct (rep_links _ _ HR (header :: A) x B 0%nat eq_refl) as [-> _]; [lia|].
      unfold levelSpec. destruct B as [|y B']; [done|]. cbn [nextAt].
      pose proof (rep_heights _ _ HR y ltac:(set_solver)). by rewrite (proj2 (Nat.ltb_lt _ _)) by lia.
    - intros [Hux _]. pose proof (upd_in sl A (x :: B) HR u Hu 1 ltac:(lia) 0 ltac:(lia)) as Hin.
      rewrite <- Hux in Hin. apply (Hd x Hin). set_solver. }
  assert (backward (getNode (unlinked sl x u) x) = last A) as Hbx.
  { rewrite (same_backward _ _ Hs). by apply (rep_back _ _ HR A x B). }
  rewrite Hfw, Hbx. destruct B as [|nx B']; cbn [head]; cbn [heap].
  - split; [|intros; apply Hs]. apply (finish_delete sl A [] x u); try done.
    + intros. apply Hs.
    + intros. apply Hs.
    + intros y Hy. rewrite decide_False by done. apply Hs.
    + by rewrite app_nil_r.
  - split; [|intros; rewrite entryOf_setBackward; apply Hs]. apply (finish_delete sl A (nx :: B') x u); try done.
    + intros. by rewrite levels_setBackward.
    + intros. rewrite entryOf_setBackward. apply Hs.
    + intros. rewrite alloc_setBackward. apply Hs.
    + intros y Hy. rewrite backward_setBackward by (apply Hs, (rep_alloc _ _ HR); set_solver).
      cbn [head]. destruct (decide (y = nx)) as [->|Hne]; [by rewrite decide_True|].
      rewrite decide_False by congruence. apply Hs.
    + rewrite (rep_tail _ _ HR). by rewrite !last_app_cons.
Qed.

(** ** Queries *)

Lemma next_zero sl L a x b :
  Rep sl L → header :: L = a ++ x :: b → forward (getLevel (heap sl) x 0) = head b.
Proof.
  intros HR Heq. destruct (rep_links _ _ HR a x b 0%nat Heq) as [-> _].
  - assert (x ∈ header :: L) as [->|Hx]%elem_of_cons by (rewrite Heq; set_solver).
    + rewrite (rep_header _ _ HR). unfold zsetMaxLevel. lia.
    + pose proof (rep_heights _ _ HR x Hx). lia.
  - unfold levelSpec. destruct b as [|y b]; [done|]. cbn [nextAt].
    assert (y ∈ L) as Hy by (eapply header_split; [exact Heq|set_solver]).
    pose proof (rep_heights _ _ HR y Hy). by rewrite (proj2 (Nat.ltb_lt _ _)) by lia.
Qed.

Lemma walkForward_spec sl L k : ∀ a b,
  Rep sl L → L = a ++ b → walkForward (heap sl) k (head b) = take k (entryOf (heap sl) <$> b).
Proof.
  induction k as [|k IH]; intros a b HR Heq; [done|]. destruct b as [|x b]; [done|].
  cbn [walkForward head fmap list_fmap take]. f_equal.
  rewrite (next_zero sl L (header :: a) x b HR) by (by rewrite Heq).
  apply (IH (a ++ [x])); [done|]. by rewrite <- app_assoc.
Qed.

Section Rank.
Context (sl : zsetSkipList) (A B : list nat) (HR : Rep sl (A ++ B)).
Local Abbreviation h := (heap sl).

Lemma advanceRank_spec fuel : ∀ pre x mid i,
  header :: A = pre ++ x :: mid → (i < level sl)%nat → (i < height h x)%nat → (length mid < fuel)%nat →
  ∃ x' r', advanceRank fuel h (zlen A) i x (zlen pre) = (x', r') ∧ PathAt h A i x' r'.
Proof.
  induction fuel as [|fuel IH]; intros pre x mid i Heq Hi Hh Hf; [lia|]. cbn [advanceRank].
  destruct (rep_links _ _ HR _ _ _ i (split_whole A B _ _ _ Heq) Hh) as [-> Hsp].
  rewrite (Hsp Hi). unfold levelSpec. rewrite nextAt_app. pose proof (rank_mid A _ _ _ Heq) as Hrm.
  destruct (nextAt h i mid) as [[y d]|] eqn:E.
  - apply nextAt_Some in E as (a & b & -> & Ha & Hy & ->). cbn [forward span].
    rewrite zlen_app, zlen_cons in Hrm. pose proof (zlen_nonneg b).
    rewrite (proj2 (Z.leb_le _ _)) by lia.
    replace (zlen pre + (zlen a + 1)) with (zlen (pre ++ x :: a)) by (rewrite zlen_app, zlen_cons; lia).
    apply (IH _ _ b); [by rewrite <- app_assoc, Heq|done|done|].
    rewrite length_app in Hf. cbn in Hf. lia.
  - assert (PathAt h A i x (zlen pre)) as Hp.
    { exists pre, mid. apply nextAt_None in E. done. }
    destruct (nextAt h i B) as [[y d]|] eqn:E'; cbn [forward span]; [|by eauto].
    apply nextAt_Some in E' as (a & b & _ & _ & _ & ->). pose proof (zlen_nonneg a).
    rewrite (proj2 (Z.leb_gt _ _)) by lia. eauto.
Qed.

Lemma rankLoop_spec fuel i : ∀ pre x mid,
  header :: A = pre ++ x :: mid → (1 ≤ i ≤ level sl)%nat → (i ≤ height h x)%nat → (length A < fuel)%nat →
  rankLoop fuel h (zlen A) i x (zlen pre) = last (header :: A).
Proof.
  induction i as [|i IH]; intros pre x mid Heq Hi Hh Hf; [lia|]. cbn [rankLoop].
  destruct (advanceRank_spec fuel pre x mid i Heq) as (x' & r' & -> & Hp); [lia|lia| |].
  { pose proof (f_equal length Heq) as Hl. rewrite length_app in Hl. cbn in Hl. lia. }
  destruct Hp as (pre' & mid' & Heq' & Hh' & Hb' & ->). pose proof (rank_mid A _ _ _ Heq') as Hrm.
  case_match eqn:E; bool_to_prop.
  - destruct mid' as [|y mid']; [by rewrite Heq', last_snoc|]. rewrite zlen_cons in Hrm.
    pose proof (zlen_nonneg mid'). lia.
  - destruct i as [|i].
    + exfalso. destruct mid' as [|y mid']; [rewrite zlen_nil in Hrm; lia|].
      apply Forall_cons in Hb' as [Hb' _].
      assert (y ∈ A) as Hy by (eapply header_split; [exact Heq'|set_solver]).
      pose proof (rep_heights _ _ HR y ltac:(set_solver)). lia.
    + apply (IH pre' x' mid'); [done|lia|lia|done].
Qed.

Lemma getByRank_spec : A ≠ [] → getByRank sl (zlen A) = last A.
Proof.
  intros HA. unfold getByRank. rewrite (rep_length _ _ HR), zlen_app.
  assert (0 < zlen A ∧ last (header :: A) = last A) as [Hpos Hlast].
  { clear HR. destruct A as [|a A']; [done|]. rewrite zlen_cons. pose proof (zlen_nonneg A'). split; [lia|done]. }
  pose proof (zlen_nonneg B). rewrite (proj2 (Z.leb_gt _ _)), (proj2 (Z.ltb_ge _ _)) by lia. cbn [orb].
  pose proof (rep_level _ _ HR).
  pose proof (rankLoop_spec (S (Z.to_nat (zlen A + zlen B))) (level sl) [] header A eq_refl) as Hloop.
  change (zlen (@nil nat)) with 0 in Hloop. rewrite Hloop; [done|lia| |].
  - rewrite (rep_header _ _ HR). lia.
  - unfold zlen. lia.
Qed.
End Rank.

(** ** Sorted sets *)

Definition entriesOf (sl : zsetSkipList) (L : list nat) : list scored := entryOf (heap sl) <$> L.

(** A well-formed sorted set: the skip list holds the index, in order. *)
Definition SortedSetWf (s : SortedSet) : Prop :=
  ∃ L, Rep (order s) L
    ∧ NoDup (entriesOf (order s) L).*1 ∧ Forall scoreOk (entriesOf (order s) L)
    ∧ ZSetOrdered (entriesOf (order s) L) ∧ index s = list_to_map (entriesOf (order s) L).

Definition SortedSet_list (s : SortedSet) : list scored := SortedSet_walk s.

Lemma SortedSet_list_eq s L : Rep (order s) L → SortedSet_list s = entriesOf (order s) L.
Proof.
  intros HR. unfold SortedSet_list, SortedSet_walk.
  rewrite (next_zero _ _ [] header L HR eq_refl), (walkForward_spec _ L _ [] L HR eq_refl).
  apply take_ge. rewrite (rep_length _ _ HR). unfold entriesOf. rewrite length_fmap. unfold zlen. lia.
Qed.

(** What a well-formed sorted set promises about its contents. *)
Lemma SortedSetWf_list s :
  SortedSetWf s →
  NoDup (SortedSet_list s).*1 ∧ Forall scoreOk (SortedSet_list s) ∧ ZSetOrdered (SortedSet_list s)
  ∧ index s = list_to_map (SortedSet_list s).
Proof. intros (L & HR & ?). by rewrite (SortedSet_list_eq s L HR). Qed.

Lemma newSortedSet_wf : SortedSetWf newSortedSet.
Proof. exists []. split_and!; [apply Rep_new|constructor..|done]. Qed.

(** Splitting an ordered list at an entry. *)
Lemma ordered_split (l : list scored) (e : scored) :
  Forall scoreOk l → scoreOk e → ZSetOrdered l →
  ∃ p q, l = p ++ q ∧ Forall (λ a, entryLess a e = true) p ∧ Forall (λ a, entryLess a e = false) q.
Proof.
  intros Hok He Ho. induction Ho as [|a l Ho IH Hall]; [by exists [], []|].
  apply Forall_cons in Hok as [Ha Hok]. destruct (entryLess a e) eqn:E.
  - destruct (IH Hok) as (p & q & -> & Hp & Hq). exists (a :: p), q. by repeat constructor.
  - exists [], (a :: l). split_and!; [done|constructor|]. constructor; [done|].
    rewrite Forall_forall in *. intros b Hb. destruct (entryLess b e) eqn:E'; [|done].
    rewrite (entryLess_trans a b e) in E; [done|done|by apply Hok|done|by apply Hall|done].
Qed.

(** Inserting an entry between the smaller and the greater ones keeps order. *)
Lemma ordered_insert p q (e : scored) :
  Forall scoreOk (p ++ q) → scoreOk e → e.1 ∉ (p ++ q).*1 → ZSetOrdered (p ++ q) →
  Forall (λ a, entryLess a e = true) p → Forall (λ a, entryLess a e = false) q →
  ZSetOrdered (p ++ e :: q).
Proof.
  intros Hok He Hn Ho Hp Hq. induction p as [|a p IH]; cbn [app] in *.
  - constructor; [done|]. rewrite Forall_forall in *. intros b Hb.
    destruct (entryLess_total e b) as [H|H]; [done|by apply Hok| |done|].
    + intros Heq. apply Hn. rewrite Heq. by apply list_elem_of_fmap_2.
    + specialize (Hq b Hb). simpl in Hq. congruence.
  - inversion Ho as [|? ? Ho' Hall]; subst. apply Forall_cons in Hok as [Ha Hok].
    apply Forall_cons in Hp as [Hae Hp]. cbn in Hn. apply not_elem_of_cons in Hn as [_ Hn].
    constructor; [by apply IH|]. rewrite Forall_app, Forall_cons in *. tauto.
Qed.

Lemma ordered_remove (p q : list scored) e : ZSetOrdered (p ++ e :: q) → ZSetOrdered (p ++ q).
Proof.
  induction p as [|a p IH]; cbn [app]; intros Ho; inversion Ho as [|? ? Ho' Hall]; subst; [done|].
  constructor; [by apply IH|]. rewrite Forall_app, Forall_cons in *. tauto.
Qed.

Lemma ordered_around (p q : list scored) e :
  ZSetOrdered (p ++ e :: q) →
  Forall (λ a, entryLess a e = true) p ∧ Forall (λ a, entryLess e a = true) q.
Proof.
  induction p as [|a p IH]; cbn [app]; intros Ho; inversion Ho as [|? ? Ho' Hall]; subst; [by split|].
  destruct (IH Ho') as [Hp Hq]. split; [|done]. constructor; [|done].
  rewrite Forall_app, Forall_cons in Hall. tauto.
Qed.

(** Inserting a member that is not there. *)
Lemma SortedSet_insert_spec {C : Coins} s sl m sc L :
  Rep sl L → NoDup (entriesOf sl L).*1 → Forall scoreOk (entriesOf sl L) → ZSetOrdered (entriesOf sl L) →
  m ∉ (entriesOf sl L).*1 → isNaN sc = false → <[m := sc]> (index s) = <[m := sc]> (list_to_map (entriesOf sl L)) →
  SortedSetWf (SortedSet_insert s sl m sc) ∧ index (SortedSet_insert s sl m sc) = <[m := sc]> (index s).
Proof.
  intros HR Hnd Hok Ho Hm Hsc Hidx. unfold SortedSet_insert.
  destruct (randomZSetLevel (flips s)) as [lv fl] eqn:Elv.
  assert (1 ≤ lv ≤ zsetMaxLevel)%nat as Hlv.
  { unfold randomZSetLevel in Elv.
    assert (∀ fuel a f, (1 ≤ a ≤ zsetMaxLevel)%nat → (1 ≤ (randomLevelLoop fuel a f).1 ≤ zsetMaxLevel)%nat) as H.
    { induction fuel as [|fuel IH]; intros a f Ha; cbn [randomLevelLoop]; [done|].
      destruct (Nat.ltb_spec a zsetMaxLevel); [|done]. destruct (coin f); [apply IH; lia|done]. }
    specialize (H zsetMaxLevel 1%nat (flips s)). rewrite Elv in H. apply H. unfold zsetMaxLevel. lia. }
  split; [|done].
  destruct (ordered_split (entriesOf sl L) (m, sc) Hok Hsc Ho) as (p & q & Hpq & Hp & Hq).
  unfold entriesOf in Hpq. apply fmap_app_inv in Hpq as (A & B & -> & -> & HAB). subst L.
  assert (∀ x, x ∈ A → lessNode sc m (getNode (heap sl) x) = true) as HA.
  { intros x Hx. rewrite Forall_fmap, Forall_forall in Hp. exact (Hp x Hx). }
  assert (∀ x, x ∈ B → lessNode sc m (getNode (heap sl) x) = false) as HB.
  { intros x Hx. rewrite Forall_fmap, Forall_forall in Hq. exact (Hq x Hx). }
  destruct (insert_rep sl A B lv sc m HR Hlv HA HB) as (HR' & He & Hen).
  exists (A ++ next sl :: B). cbn [order index]. set (sl' := SkipList_insert sl lv sc m) in *.
  assert (entriesOf sl' (A ++ next sl :: B) = (entryOf (heap sl) <$> A) ++ (m, sc) :: (entryOf (heap sl) <$> B)) as Hents.
  { unfold entriesOf. rewrite fmap_app, fmap_cons, Hen. f_equal; [|f_equal];
      apply list_fmap_ext; intros i x Hx; apply He, elem_of_app; [left|right]; by eapply list_elem_of_lookup_2. }
  unfold entriesOf in Hnd, Hok, Ho, Hm, Hidx. rewrite fmap_app in Hnd, Hok, Ho, Hm, Hidx. rewrite !Hents.
  assert (NoDup ((entryOf (heap sl) <$> A) ++ (m, sc) :: (entryOf (heap sl) <$> B)).*1) as Hnd'.
  { rewrite fmap_app, fmap_cons, <- Permutation_middle, <- fmap_app. by apply NoDup_cons. }
  split_and!; [done|done| | |].
  - rewrite Forall_app, Forall_cons in *. naive_solver.
  - by apply ordered_insert.
  - rewrite (assoc_middle _ _ _ _ Hnd'). exact Hidx.
Qed.

(** Deleting a present member from the skip list. *)
Lemma SkipList_delete_spec sl L m cur :
  Rep sl L → NoDup (entriesOf sl L).*1 → Forall scoreOk (entriesOf sl L) → ZSetOrdered (entriesOf sl L) →
  (list_to_map (entriesOf sl L) : gmap bytes float64) !! m = Some cur →
  ∃ sl' A x B, L = A ++ x :: B ∧ entryOf (heap sl) x = (m, cur)
    ∧ SkipList_delete sl cur m = (sl', true) ∧ Rep sl' (A ++ B)
    ∧ entriesOf sl' (A ++ B) = (entryOf (heap sl) <$> A) ++ (entryOf (heap sl) <$> B).
Proof.
  intros HR Hnd Hok Ho Hm. apply elem_of_list_to_map_2 in Hm. unfold entriesOf in *.
  apply list_elem_of_split in Hm as (p & q & Hpq). pose proof Hpq as Hpq'.
  apply fmap_app_inv in Hpq as (A & B' & -> & HB' & ->). symmetry in HB'.
  destruct B' as [|x B]; [done|]. rewrite fmap_cons in HB'.
  pose proof (inj Some _ _ (f_equal head HB')) as Hx. apply (f_equal (@List.tl _)) in HB'. cbn in HB'. subst q.
  rewrite Hpq' in *. destruct (ordered_around _ _ _ Ho) as [HA HB].
  apply Forall_app in Hok as [HokA HokB]. apply Forall_cons in HokB as [Hokx HokB].
  destruct (delete_rep sl A B x cur m HR) as (sl' & Hdel & HR' & He).
  - intros y Hy. rewrite Forall_fmap, Forall_forall in HA. exact (HA y Hy).
  - intros y [->|Hy]%elem_of_cons.
    + change (entryLess (entryOf (heap sl) x) (m, cur) = false). rewrite Hx. by apply entryLess_irrefl.
    + change (entryLess (entryOf (heap sl) y) (m, cur) = false).
      rewrite Forall_fmap, Forall_forall in HB, HokB. apply entryLess_asym; [done|by apply HokB|by apply HB].
  - rewrite (f_equal snd Hx : nscore _ = cur). by apply feq_key.
  - exact (f_equal fst Hx).
  - exists sl', A, x, B. split_and!; [done|done|done|done|].
    rewrite fmap_app. f_equal; apply list_fmap_ext; intros; apply He.
Qed.

Lemma SortedSet_add_spec {C : Coins} s m sc s' b :
  SortedSetWf s → isNaN sc = false → SortedSet_add s m sc = (s', b) →
  SortedSetWf s' ∧ index s' = zadd (index s) m sc ∧ b = bool_decide (index s !! m = None).
Proof.
  intros Hwf Hsc. pose proof Hwf as (L & HR & Hnd & Hok & Ho & Hidx). unfold SortedSet_add, zadd.
  destruct (index s !! m) as [cur|] eqn:Em.
  - destruct (feq cur sc) eqn:Ef; intros [= <- <-]; [done|].
    rewrite Hidx in Em.
    destruct (SkipList_delete_spec _ _ _ _ HR Hnd Hok Ho Em) as (sl' & A & x & B & -> & Hx & -> & HR' & He).
    cbn [fst]. unfold entriesOf in Hnd, Hok, Ho, Hidx. rewrite fmap_app, fmap_cons, Hx in Hnd, Hok, Ho, Hidx.
    destruct (assoc_middle_notin _ _ _ _ Hnd) as [Hni Hnd'].
    destruct (SortedSet_insert_spec s sl' m sc (A ++ B) HR') as [Hw Hi]; rewrite ?He; try done.
    + rewrite Forall_app, Forall_cons in *. tauto.
    + by eapply ordered_remove.
    + rewrite Hidx, (assoc_middle _ _ _ _ Hnd), insert_insert_eq. done.
  - intros [= <- <-]. destruct (SortedSet_insert_spec s (order s) m sc L HR) as [Hw Hi]; try done.
    + rewrite Hidx in Em. by apply not_elem_of_list_to_map_2.
    + by rewrite Hidx.
Qed.

Lemma SortedSet_len_spec s : SortedSetWf s → SortedSet_len s = zlen (SortedSet_list s).
Proof.
  intros Hwf. destruct (SortedSetWf_list s Hwf) as (Hnd & _ & _ & Hi). unfold SortedSet_len, zlen.
  rewrite Hi, map_size_list_to_map by done. done.
Qed.

Lemma SortedSet_rangeByRank_spec s start stop :
  SortedSetWf s → SortedSet_rangeByRank s start stop = rankSlice (SortedSet_list s) start stop.
Proof.
  intros (L & HR & _). rewrite (SortedSet_list_eq _ _ HR). unfold SortedSet_rangeByRank, rankSlice.
  assert (zlen (entriesOf (order s) L) = zlen L) as -> by (unfold zlen, entriesOf; by rewrite length_fmap).
  rewrite (rep_length _ _ HR). destruct (_ || _) eqn:E; [done|]. bool_to_prop. cbn zeta.
  assert (∃ A x B, L = A ++ x :: B ∧ zlen A = start) as (A & x & B & -> & HA).
  { destruct (lookup_lt_is_Some_2 L (Z.to_nat start)) as [x Hx]; [unfold zlen in *; lia|].
    exists (take (Z.to_nat start) L), x, (drop (S (Z.to_nat start)) L).
    split; [by rewrite take_drop_middle|]. apply lookup_lt_Some in Hx. unfold zlen. rewrite length_take. lia. }
  assert (getByRank (order s) (start + 1) = Some x) as ->.
  { replace (start + 1) with (zlen (A ++ [x])) by (rewrite zlen_app, HA; done).
    rewrite (getByRank_spec _ (A ++ [x]) B).
    - apply last_snoc.
    - by rewrite <- app_assoc.
    - by destruct A. }
  rewrite (walkForward_spec _ _ _ A (x :: B) HR eq_refl : walkForward _ _ (Some x) = _).
  unfold entriesOf. rewrite fmap_app.
  assert (zlen (entryOf (heap (order s)) <$> A) = start) as Hz by (unfold zlen; by rewrite length_fmap).
  assert (∀ k, zdrop start ((entryOf (heap (order s)) <$> A) ++ k) = k) as -> by (intros k; rewrite <- Hz; apply zdrop_app_exact).
  unfold ztake. f_equal. case_match; bool_to_prop; lia.
Qed.

Lemma belowMin_mono r a b :
  isNaN a = false → isNaN b = false → (fkey a = fkey b ∨ triple_lt (fkey a) (fkey b)) →
  belowMin r b = true → belowMin r a = true.
Proof.
  intros Ha Hb Hab. unfold belowMin. rewrite !orb_true_iff, !andb_true_iff.
  destruct (isNaN (Min r)) eqn:Hm.
  { destruct (Min r); try done. destruct b; naive_solver. }
  rewrite !flt_key, !feq_key by done. intros [H|[He H]].
  - left. destruct Hab as [->|Hab]; [done|]. by eapply triple_lt_trans.
  - destruct Hab as [Hab|Hab]; [right; split; [done|congruence]|]. left. by rewrite <- H.
Qed.

(** The entries below a range are a prefix. *)
Lemma below_split r (l : list scored) :
  Forall scoreOk l → ZSetOrdered l →
  ∃ p q, l = p ++ q ∧ Forall (λ e, belowMin r e.2 = true) p ∧ Forall (λ e, belowMin r e.2 = false) q.
Proof.
  intros Hok Ho. induction Ho as [|a l Ho IH Hall]; [by exists [], []|].
  apply Forall_cons in Hok as [Ha Hok]. destruct (belowMin r a.2) eqn:E.
  - destruct (IH Hok) as (p & q & -> & Hp & Hq). exists (a :: p), q. by repeat constructor.
  - exists [], (a :: l). split_and!; [done|constructor|]. constructor; [done|].
    rewrite Forall_forall in *. intros b Hb. destruct (belowMin r b.2) eqn:E'; [|done].
    specialize (Hall b Hb). apply entryLess_spec in Hall; [|done|by apply Hok].
    rewrite (belowMin_mono r a.2 b.2) in E; [done|done|by apply Hok|naive_solver|done].
Qed.

Lemma scoreLoop_spec sl L r fuel : ∀ a b,
  Rep sl L → L = a ++ b → (length b ≤ fuel)%nat → Forall (λ e, belowMin r e.2 = false) (entryOf (heap sl) <$> b) →
  scoreLoop (heap sl) r fuel (head b) = scan r (entryOf (heap sl) <$> b).
Proof.
  induction fuel as [|fuel IH]; intros a b HR Heq Hf Hb; destruct b as [|x b]; cbn in Hf; [done|lia|done|].
  cbn [scoreLoop head fmap list_fmap scan] in *. apply Forall_cons in Hb as [Hx Hb]. cbn [snd entryOf] in *.
  rewrite Hx. cbn [negb]. destruct (aboveMax r _); [done|]. f_equal.
  rewrite (next_zero sl L (header :: a) x b HR) by (by rewrite Heq).
  apply (IH (a ++ [x])); [done|by rewrite <- app_assoc|lia|done].
Qed.

Lemma SortedSet_rangeByScore_spec s r :
  SortedSetWf s → SortedSet_rangeByScore s r = scoreSlice (SortedSet_list s) r.
Proof.
  intros (L & HR & _ & Hok & Ho & _). rewrite (SortedSet_list_eq _ _ HR).
  destruct (below_split r (entriesOf (order s) L) Hok Ho) as (p & q & Hpq & Hp & Hq).
  unfold SortedSet_rangeByScore, firstInScoreRange. unfold entriesOf in *. rewrite Hpq in Hok, Ho |- *.
  apply fmap_app_inv in Hpq as (A & B & -> & -> & ->).
  assert (Path (heap (order s)) A (searchPath (order s) (λ n, belowMin r (nscore n))) (level (order s))) as Hu.
  { apply (searchPath_spec _ A B HR); intros x Hx.
    - rewrite Forall_fmap, Forall_forall in Hp. exact (Hp x Hx).
    - rewrite Forall_fmap, Forall_forall in Hq. exact (Hq x Hx). }
  cbn zeta. rewrite (path_next _ A B _ _ HR Hu) by (pose proof (rep_level _ _ HR); lia).
  rewrite (scoreLoop_spec _ (A ++ B) r _ A B HR eq_refl); [|rewrite (rep_length _ _ HR); unfold zlen; rewrite length_app; lia|done].
  apply Forall_app in Hok as [_ Hok]. rewrite scan_slice by (done || by apply StronglySorted_app_1_r in Ho).
  unfold scoreSlice. rewrite List.filter_app.
  assert (List.filter (inRange r) (entryOf (heap (order s)) <$> A) = []) as ->; [|done].
  induction (entryOf (heap (order s)) <$> A) as [|e l IH]; [done|]. apply Forall_cons in Hp as [He Hp].
  cbn [List.filter]. unfold inRange at 1. rewrite He. cbn [negb andb]. apply IH; [|done].
  cbn [app] in Ho. by inversion Ho.
Qed.

(** The order of a sorted set is determined by its index. *)
Lemma SortedSet_list_Permutation s : SortedSetWf s → SortedSet_list s ≡ₚ map_to_list (index s).
Proof.
  intros Hwf. destruct (SortedSetWf_list s Hwf) as (Hnd & _ & _ & ->).
  symmetry. by apply map_to_list_to_map.
Qed.

Lemma SortedSet_list_unique s s' :
  SortedSetWf s → SortedSetWf s' → index s = index s' → SortedSet_list s = SortedSet_list s'.
Proof.
  intros H1 H2 Heq. destruct (SortedSetWf_list s H1) as (_ & Hok & Ho & _).
  destruct (SortedSetWf_list s' H2) as (_ & _ & Ho' & _).
  apply ordered_unique; [done| |done|done].
  by rewrite (SortedSet_list_Permutation s H1), (SortedSet_list_Permutation s' H2), Heq.
Qed.

(** Adding entries one after the other. *)
Definition zaddAll (m : gmap bytes float64) (l : list scored) : gmap bytes float64 :=
  foldl (λ m '(k, sc), zadd m k sc) m l.

Lemma addAll_spec {C : Coins} l : ∀ s,
  SortedSetWf s → Forall scoreOk l → SortedSetWf (addAll s l) ∧ index (addAll s l) = zaddAll (index s) l.
Proof.
  induction l as [|[m sc] l IH]; intros s Hwf Hok; [done|]. apply Forall_cons in Hok as [Hsc Hok].
  cbn [addAll zaddAll foldl]. destruct (SortedSet_add s m sc) as [s1 b] eqn:E.
  destruct (SortedSet_add_spec s m sc s1 b Hwf Hsc E) as (Hwf1 & Hi & _). cbn [fst].
  rewrite <- Hi. by apply IH.
Qed.

Lemma zaddAll_fresh l : ∀ (l0 : list scored),
  NoDup (l0 ++ l).*1 → zaddAll (list_to_map l0) l = list_to_map (l0 ++ l).
Proof.
  induction l as [|[m sc] l IH]; intros l0 Hnd; [by rewrite app_nil_r|].
  cbn [zaddAll foldl]. assert (m ∉ l0.*1) as Hm.
  { rewrite fmap_app in Hnd. apply NoDup_app in Hnd as (_ & Hd & _). intros Hin. apply (Hd m Hin). cbn. set_solver. }
  unfold zadd at 2. rewrite (not_elem_of_list_to_map_1 _ _ Hm), <- assoc_snoc by done.
  rewrite (cons_middle (m, sc) l0 l), app_assoc in *. by apply IH.
Qed.

Lemma cloneSortedSet_spec {C : Coins} s :
  SortedSetWf s →
  SortedSetWf (cloneSortedSet s) ∧ index (cloneSortedSet s) = index s
  ∧ SortedSet_list (cloneSortedSet s) = SortedSet_list s.
Proof.
  intros Hwf. destruct (SortedSetWf_list s Hwf) as (Hnd & Hok & _ & Hi).
  destruct (addAll_spec (SortedSet_walk s) newSortedSet newSortedSet_wf Hok) as [Hwf' Hi'].
  change (index newSortedSet) with (list_to_map [] : gmap bytes float64) in Hi'.
  rewrite zaddAll_fresh in Hi' by done. cbn [app] in Hi'.
  assert (index (cloneSortedSet s) = index s) as Heq by (rewrite Hi; exact Hi').
  split_and!; [done|done|]. by apply SortedSet_list_unique.
Qed.
