(* ===== verification/Stream.v ===== *)
(** * Streams

    Models [internal/storage/stream.go]: the append-only list of entries behind
    XADD/XREAD, with explicit and automatic IDs.  IDs are pairs of int64; the
    automatic sequence number is incremented with Go's wrapping addition. *)

From S2P Require Import Prelude Strconv GoLib.

Inductive streamError := ErrInvalidStreamID | ErrStreamIDTooSmall.

Record streamID := mkStreamID { milliseconds : Z; sequence : Z }.

#[global] Instance streamID_eq_dec : EqDecision streamID.
Proof. solve_decision. Defined.

Record streamRecord := mkStreamRecord {
  sid : streamID;
  idText : bytes;
  svalues : list bytes
}.

Record StreamValue := mkStreamValue {
  sentries : list streamRecord;
  lastID : streamID;
  hasEntries : bool
}.

(** [StreamEntry] of [types.go]. *)
Record StreamEntry := mkStreamEntry { ID : bytes; Values : list bytes }.

Definition newStream : StreamValue := mkStreamValue [] (mkStreamID 0 0) false.

(** The records are immutable values here, so the deep copy is the stream. *)
Definition cloneStreamValue (src : StreamValue) : StreamValue := src.

Definition streamID_String (id : streamID) : bytes :=
  FormatInt (milliseconds id) ++ bs "-" ++ FormatInt (sequence id).

(** The sign of [compareStreamIDs]. *)
Definition compareStreamIDs (lhs rhs : streamID) : Z :=
  if milliseconds lhs <? milliseconds rhs then -1
  else if milliseconds rhs <? milliseconds lhs then 1
  else if sequence lhs <? sequence rhs then -1
  else if sequence rhs <? sequence lhs then 1
  else 0.

Definition parseNonNegativeStreamInt (raw : bytes) : result streamError Z :=
  match ParseInt raw with
  | None => Err ErrInvalidStreamID
  | Some value => if value <? 0 then Err ErrInvalidStreamID else Ok value
  end.

Definition parseStreamAddID (raw : bytes) : result streamError streamID :=
  match Cut "-"%byte raw with
  | None => Err ErrInvalidStreamID
  | Some (millisecondsPart, sequencePart) =>
      if (zlen millisecondsPart =? 0) || (zlen sequencePart =? 0) || containsByte "-"%byte sequencePart
      then Err ErrInvalidStreamID
      else
        let? ms := parseNonNegativeStreamInt millisecondsPart in
        let? seq := parseNonNegativeStreamInt sequencePart in
        Ok (mkStreamID ms seq)
  end.

Definition parseStreamReadID (raw : bytes) (latest : streamID) : result streamError streamID :=
  if decide (raw = bs "$") then Ok latest
  else
    match Cut "-"%byte raw with
    | None => let? ms := parseNonNegativeStreamInt raw in Ok (mkStreamID ms 0)
    | Some _ => parseStreamAddID raw
    end.

Definition ValidateXAddID (raw : bytes) : option streamError :=
  if decide (raw = bs "*") then None
  else match parseStreamAddID raw with Ok _ => None | Err e => Some e end.

Definition ValidateXReadID (raw : bytes) : option streamError :=
  if decide (raw = bs "$") then None
  else
    match Cut "-"%byte raw with
    | None => match parseNonNegativeStreamInt raw with Ok _ => None | Err e => Some e end
    | Some _ => match parseStreamAddID raw with Ok _ => None | Err e => Some e end
    end.

Definition nextAutoID (s : StreamValue) (nowMillis : Z) : streamID :=
  if negb (hasEntries s) then mkStreamID nowMillis 0
  else if nowMillis <? milliseconds (lastID s) then
    mkStreamID (milliseconds (lastID s)) (wrap64 (sequence (lastID s) + 1))
  else if nowMillis =? milliseconds (lastID s) then
    mkStreamID nowMillis (wrap64 (sequence (lastID s) + 1))
  else mkStreamID nowMillis 0.

Definition Stream_add (s : StreamValue) (rawID : bytes) (values : list bytes) (nowMillis : Z)
    : result streamError (StreamValue * bytes) :=
  let? id :=
    if decide (rawID = bs "*") then Ok (nextAutoID s nowMillis)
    else
      let? id := parseStreamAddID rawID in
      if hasEntries s && (compareStreamIDs id (lastID s) <=? 0) then Err ErrStreamIDTooSmall else Ok id in
  let text := streamID_String id in
  Ok (mkStreamValue (sentries s ++ [mkStreamRecord id text values]) id true, text).

Definition streamEntry (record : streamRecord) : StreamEntry := mkStreamEntry (idText record) (svalues record).

Definition Stream_entriesAfter (s : StreamValue) (rawID : bytes) : result streamError (list StreamEntry) :=
  match sentries s with
  | [] => Ok []
  | r0 :: _ =>
      let? after := parseStreamReadID rawID (lastID s) in
      let start := Search (length (sentries s))
        (λ i, 0 <? compareStreamIDs (sid (default r0 (sentries s !! i))) after) in
      Ok (streamEntry <$> drop start (sentries s))
  end.

(** ** The order of IDs *)

Definition idLess (a b : streamID) : Prop :=
  milliseconds a < milliseconds b ∨ (milliseconds a = milliseconds b ∧ sequence a < sequence b).

Lemma compareStreamIDs_spec a b :
  (compareStreamIDs a b = -1 ∧ idLess a b) ∨ (compareStreamIDs a b = 1 ∧ idLess b a)
  ∨ (compareStreamIDs a b = 0 ∧ a = b).
Proof.
  unfold compareStreamIDs, idLess. destruct a as [m1 s1], b as [m2 s2]; cbn.
  repeat case_match; bool_to_prop; try (left; split; [done|lia]); try (right; left; split; [done|lia]).
  right. right. split; [done|]. f_equal; lia.
Qed.

Lemma idLess_trans a b c : idLess a b → idLess b c → idLess a c.
Proof. unfold idLess. lia. Qed.

Lemma idLess_irrefl a : ¬ idLess a a.
Proof. unfold idLess. lia. Qed.

Lemma compare_pos a b : (0 <? compareStreamIDs a b) = true ↔ idLess b a.
Proof.
  destruct (compareStreamIDs_spec a b) as [[-> H]|[[-> H]|[-> ->]]]; split; try done.
  - intros H'. destruct (idLess_irrefl a). by eapply idLess_trans.
  - intros H'. by destruct (idLess_irrefl b).
Qed.

(** ** Invariant *)

Definition idOk (id : streamID) : Prop :=
  0 ≤ milliseconds id ≤ max_int64 ∧ 0 ≤ sequence id ≤ max_int64.

Record StreamWf (s : StreamValue) : Prop := {
  swf_sorted : StronglySorted (λ a b, idLess (sid a) (sid b)) (sentries s);
  swf_last : hasEntries s = true → ∃ r, last (sentries s) = Some r ∧ sid r = lastID s;
  swf_has : hasEntries s = bool_decide (sentries s ≠ []);
  swf_text : Forall (λ r, idText r = streamID_String (sid r) ∧ idOk (sid r)) (sentries s)
}.

Lemma newStream_wf : StreamWf newStream.
Proof. split; [constructor|done|done|constructor]. Qed.

Lemma last_sorted s r x :
  StronglySorted (λ a b, idLess (sid a) (sid b)) s → last s = Some r → x ∈ s → x = r ∨ idLess (sid x) (sid r).
Proof.
  intros Hs Hl Hx. apply last_Some in Hl as [l ->]. apply elem_of_app in Hx as [Hx|Hx%list_elem_of_singleton]; [|by left].
  right. rewrite StronglySorted_app in Hs. destruct Hs as (H & _). apply (H x r Hx). set_solver.
Qed.

Lemma parseNonNegative_ok raw v : parseNonNegativeStreamInt raw = Ok v → 0 ≤ v ≤ max_int64.
Proof.
  unfold parseNonNegativeStreamInt. destruct (ParseInt raw) eqn:E; [|done]. case_match; bool_to_prop; [done|].
  intros [= <-]. apply ParseInt_range in E. lia.
Qed.

Lemma parseStreamAddID_ok raw id : parseStreamAddID raw = Ok id → idOk id.
Proof.
  unfold parseStreamAddID. destruct (Cut _ _) as [[p q]|]; [|done]. case_match; [done|].
  destruct (parseNonNegativeStreamInt p) eqn:E1; [|done]. destruct (parseNonNegativeStreamInt q) eqn:E2; [|done].
  cbn. intros [= <-]. split; by eapply parseNonNegative_ok.
Qed.

(** The rendering of an ID is read back. *)
Lemma FormatInt_no_minus z : 0 ≤ z → "-"%byte ∉ FormatInt z.
Proof.
  intros Hz Hin. unfold FormatInt in Hin. rewrite (proj2 (Z.ltb_ge _ _)) in Hin by lia.
  pose proof (FormatUint_digits z Hz) as Hd. rewrite Forall_forall in Hd. by specialize (Hd _ Hin).
Qed.

Lemma zlen_FormatInt z : (zlen (FormatInt z) =? 0) = false.
Proof.
  apply Z.eqb_neq. pose proof (FormatInt_nonempty z). unfold zlen. destruct (FormatInt z); [done|]. cbn. lia.
Qed.

Lemma parse_String id : idOk id → parseStreamAddID (streamID_String id) = Ok id.
Proof.
  destruct id as [ms sq]. intros [Hm Hs]. cbn in *. unfold parseStreamAddID, streamID_String. cbn [milliseconds sequence].
  rewrite (proj2 (Cut_Some _ _ (FormatInt ms) (FormatInt sq))) by (split; [done|apply FormatInt_no_minus; lia]).
  rewrite !zlen_FormatInt. unfold containsByte. rewrite bool_decide_eq_false_2 by (apply FormatInt_no_minus; lia).
  cbn [orb]. unfold parseNonNegativeStreamInt.
  rewrite !ParseInt_FormatInt by (unfold min_int64; lia).
  rewrite !(proj2 (Z.ltb_ge _ _)) by lia. done.
Qed.

(** ** Operations *)

(** The automatic ID exceeds the last one unless its sequence is exhausted. *)
Lemma nextAutoID_spec s now :
  StreamWf s → 0 ≤ now ≤ max_int64 → sequence (lastID s) < max_int64 →
  idOk (nextAutoID s now) ∧ (hasEntries s = true → idLess (lastID s) (nextAutoID s now)).
Proof.
  intros Hwf Hnow Hseq. unfold nextAutoID. destruct (hasEntries s) eqn:Eh; cbn [negb].
  2: { split; [|done]. unfold idOk, max_int64 in *. cbn. lia. }
  destruct (swf_last _ Hwf Eh) as (r & Hr & Hid).
  assert (idOk (lastID s)) as [Hm Hs].
  { rewrite <- Hid. pose proof (swf_text _ Hwf) as Ht. rewrite Forall_forall in Ht.
    apply (Ht r). apply last_Some in Hr as [l ->]. set_solver. }
  rewrite wrap64_id by (unfold min_int64, max_int64 in *; lia). unfold idOk, idLess.
  repeat case_match; bool_to_prop; cbn; unfold max_int64 in *; lia.
Qed.

Lemma Stream_append_wf s id values :
  StreamWf s → idOk id → (hasEntries s = true → idLess (lastID s) id) →
  StreamWf (mkStreamValue (sentries s ++ [mkStreamRecord id (streamID_String id) values]) id true).
Proof.
  intros Hwf Hok Hless. split; cbn.
  - rewrite StronglySorted_app. split_and!; [|apply Hwf|by repeat constructor].
    intros x y Hx ->%list_elem_of_singleton. cbn.
    assert (hasEntries s = true) as Hh.
    { rewrite (swf_has _ Hwf). apply bool_decide_eq_true. intros H. rewrite H in Hx. set_solver. }
    destruct (swf_last _ Hwf Hh) as (r & Hr & Hid). specialize (Hless Hh). rewrite <- Hid in Hless.
    destruct (last_sorted _ _ _ (swf_sorted _ Hwf) Hr Hx) as [->|Hl]; [done|by eapply idLess_trans].
  - intros _. eexists. by rewrite last_snoc.
  - symmetry. apply bool_decide_eq_true. by destruct (sentries s).
  - rewrite Forall_app, Forall_singleton. split; [apply Hwf|done].
Qed.

Lemma Stream_add_cases s rawID values now s' text :
  Stream_add s rawID values now = Ok (s', text) →
  ∃ id, s' = mkStreamValue (sentries s ++ [mkStreamRecord id (streamID_String id) values]) id true
    ∧ text = streamID_String id
    ∧ ((rawID = bs "*" ∧ id = nextAutoID s now)
       ∨ (parseStreamAddID rawID = Ok id ∧ (hasEntries s = true → idLess (lastID s) id))).
Proof.
  unfold Stream_add. case_decide as Hr; cbn [result_bind].
  - intros [= <- <-]. eexists. split_and!; [done|done|by left].
  - destruct (parseStreamAddID rawID) as [id|e] eqn:E; cbn [result_bind]; [|done].
    case_match eqn:Ec; cbn [result_bind]; [done|]. intros [= <- <-]. exists id. split_and!; [done|done|].
    right. split; [done|]. intros Hh. rewrite Hh in Ec. cbn in Ec. bool_to_prop.
    destruct (compareStreamIDs_spec id (lastID s)) as [[H _]|[[_ H]|[H _]]]; [lia|done|lia].
Qed.

(** XREAD returns exactly the entries above the requested ID. *)
Lemma Search_after (l : list streamRecord) r0 after :
  StronglySorted (λ a b, idLess (sid a) (sid b)) l →
  drop (Search (length l) (λ i, 0 <? compareStreamIDs (sid (default r0 (l !! i))) after)) l
  = filter (λ r, (0 <? compareStreamIDs (sid r) after) = true) l.
Proof.
  intros Hs. set (f := λ r, 0 <? compareStreamIDs (sid r) after).
  assert (∃ p q, l = p ++ q ∧ Forall (λ r, f r = false) p ∧ Forall (λ r, f r = true) q) as (p & q & -> & Hp & Hq).
  { clear r0. induction Hs as [|r l Hs IH Hall]; [by exists [], []|]. destruct (f r) eqn:E.
    - exists [], (r :: l). split_and!; [done|constructor|]. constructor; [done|].
      rewrite Forall_forall in *. intros x Hx. apply compare_pos. apply compare_pos in E.
      eapply idLess_trans; [exact E|by apply Hall].
    - destruct IH as (p & q & -> & ? & ?). exists (r :: p), q. by repeat constructor. }
  rewrite (Search_threshold _ _ (length p)) by (by apply (threshold_app f r0)).
  rewrite drop_app_length, filter_app.
  assert (filter (λ r, f r = true) p = []) as Hfp.
  { clear -Hp. induction Hp as [|r p Hr Hp IH]; [done|].
    rewrite filter_cons_False; [done|]. by rewrite Hr. }
  assert (filter (λ r, f r = true) q = q) as Hfq.
  { clear -Hq. induction Hq as [|r q Hr Hq IH]; [done|]. rewrite filter_cons_True by done. by rewrite IH. }
  change (q = filter (λ r, f r = true) p ++ filter (λ r, f r = true) q). by rewrite Hfp, Hfq.
Qed.

(** ** Properties *)

(** XADD keeps a stream ordered: a successful add appends exactly one
    record, whose ID exceeds every earlier one and whose text is the ID's
    rendering, which parses back to it.  The automatic sequence must not be
    exhausted. *)
Theorem Stream_add_ordered s rawID values now s' text :
  StreamWf s → 0 ≤ now ≤ max_int64 → sequence (lastID s) < max_int64 →
  Stream_add s rawID values now = Ok (s', text) →
  StreamWf s' ∧ parseStreamAddID text = Ok (lastID s')
  ∧ sentries s' = sentries s ++ [mkStreamRecord (lastID s') text values]
  ∧ (∀ r, r ∈ sentries s → idLess (sid r) (lastID s')).
Proof.
  intros Hwf Hnow Hseq Hadd. apply Stream_add_cases in Hadd as (id & -> & -> & Hcase). cbn.
  assert (idOk id ∧ (hasEntries s = true → idLess (lastID s) id)) as [Hok Hless].
  { destruct Hcase as [[_ ->]|[Hp Hl]]; [by apply nextAutoID_spec|]. split; [by eapply parseStreamAddID_ok|done]. }
  pose proof (Stream_append_wf s id values Hwf Hok Hless) as Hwf'. split_and!; [done|by apply parse_String|done|].
  intros r Hr. pose proof (swf_sorted _ Hwf') as Hs. cbn in Hs. rewrite StronglySorted_app in Hs.
  destruct Hs as (H & _). apply (H r (mkStreamRecord id (streamID_String id) values) Hr). set_solver.
Qed.

Lemma Stream_add_ordered_witness :
  ∃ s', Stream_add newStream (bs "*") [bs "f"; bs "v"] 7 = Ok (s', bs "7-0") ∧ StreamWf s'.
Proof.
  eexists. split; [reflexivity|].
  refine (proj1 (Stream_add_ordered newStream (bs "*") [bs "f"; bs "v"] 7 _ (bs "7-0") newStream_wf _ _ eq_refl)).
  - unfold max_int64. lia.
  - cbn. unfold max_int64. lia.
Defined.

(** XREAD returns exactly the entries whose ID is above the given one, in
    stream order: the binary search misses none and admits none. *)
Theorem Stream_entriesAfter_exact s rawID after :
  StreamWf s → sentries s ≠ [] → parseStreamReadID rawID (lastID s) = Ok after →
  Stream_entriesAfter s rawID
  = Ok (streamEntry <$> filter (λ r, (0 <? compareStreamIDs (sid r) after) = true) (sentries s)).
Proof.
  intros Hwf Hne Hp. unfold Stream_entriesAfter. destruct (sentries s) as [|r0 l] eqn:E; [done|].
  rewrite Hp. cbn [result_bind]. rewrite <- E, Search_after by apply Hwf. done.
Qed.

Lemma Stream_entriesAfter_exact_witness :
  Stream_entriesAfter
    (mkStreamValue [mkStreamRecord (mkStreamID 7 0) (bs "7-0") [bs "f"; bs "v"]] (mkStreamID 7 0) true) (bs "6")
  = Ok [mkStreamEntry (bs "7-0") [bs "f"; bs "v"]].
Proof.
  rewrite (Stream_entriesAfter_exact _ (bs "6") (mkStreamID 6 0)); [reflexivity| |done|reflexivity].
  split; cbn; [by repeat constructor|by eexists|done|].
  repeat constructor; cbn; unfold max_int64; lia.
Defined.

(** the exhausted sequence.  After an explicit ID with the largest sequence
    number, XADD with [*] in the same millisecond wraps to a negative sequence:
    the add succeeds with an ID below the last one, and the stream is no longer
    ordered. *)
Theorem Stream_add_wraps :
  ∃ s s', StreamWf s
    ∧ Stream_add s (bs "*") [bs "f"; bs "v"] 5 = Ok (s', bs "5--9223372036854775808")
    ∧ idLess (lastID s') (lastID s) ∧ ¬ StreamWf s'.
Proof.
  set (s := mkStreamValue [mkStreamRecord (mkStreamID 5 max_int64) (bs "5-9223372036854775807") []] (mkStreamID 5 max_int64) true).
  assert (StreamWf s) as Hwf.
  { split; cbn; [by repeat constructor|by eexists|done|].
    rewrite Forall_singleton. split; [reflexivity|]. unfold idOk. cbn. unfold max_int64. lia. }
  assert (∃ s', Stream_add s (bs "*") [bs "f"; bs "v"] 5 = Ok (s', bs "5--9223372036854775808")
                ∧ lastID s' = mkStreamID 5 min_int64 ∧ (sid <$> sentries s') = [mkStreamID 5 max_int64; mkStreamID 5 min_int64])
    as (s' & Hadd & Hlast & Hids) by (eexists; split; [vm_compute; reflexivity|split; reflexivity]).
  exists s, s'. split_and!; [done|done| |].
  - rewrite Hlast. right. cbn. unfold min_int64, max_int64. lia.
  - intros [Hs _ _ _]. destruct (sentries s') as [|a [|b [|? ?]]]; cbn in Hids; try discriminate Hids. injection Hids as Ha Hb.
    inversion Hs as [|? ? _ Hall]; subst. apply Forall_cons in Hall as [Hl _]. rewrite Ha, Hb in Hl.
    unfold idLess in Hl. cbn in Hl. unfold min_int64, max_int64 in Hl. lia.
Qed.
