(* ===== verification/Bitmap.v ===== *)
(** * Bitmaps

    Models the pure part of [internal/storage/bitmap.go]: the bit operations
    SETBIT, GETBIT and BITCOUNT perform on a string payload.  Bit 0 of a payload
    is the most significant bit of its first byte. *)

From S2P Require Import Prelude Strconv GoLib.

Definition MaxBitmapOffset : Z := 2 ^ 32 - 1.

(** [true] when the argument is valid; the error is [ErrValueNotInteger]. *)
Definition validateBitmapOffset (offset : Z) : bool := negb ((offset <? 0) || (MaxBitmapOffset <? offset)).

Definition validateBitmapArguments (offset bit : Z) : bool :=
  validateBitmapOffset offset && negb (negb (bit =? 0) && negb (bit =? 1)).

(** [byte(1 << uint(7-(offset%8)))]. *)
Definition bitMask (offset : Z) : Z := Z.shiftl 1 (7 - offset mod 8).

Definition byteAt (data : bytes) (i : Z) : Z := b2z (default x00 (data !! Z.to_nat i)).

Definition bitAt (data : bytes) (offset : Z) : Z :=
  let byteIndex := offset / 8 in
  if zlen data <=? byteIndex then 0
  else if Z.land (byteAt data byteIndex) (bitMask offset) =? 0 then 0 else 1.

(** [*dst |= mask] or [*dst &^= mask]. *)
Definition setBitInByte (dst mask bit : Z) : Z :=
  if bit =? 1 then Z.lor dst mask else Z.ldiff dst mask.

(** [setBitInByte(&payload[byteIndex], mask, bit)]. *)
Definition setBitInPayload (payload : bytes) (offset bit : Z) : bytes :=
  let byteIndex := offset / 8 in
  <[Z.to_nat byteIndex := z2b (setBitInByte (byteAt payload byteIndex) (bitMask offset) bit)]> payload.

(** [make([]byte, length)] filled with [copy(payload, data)]. *)
Definition zeroPad (length : Z) (data : bytes) : bytes :=
  data ++ replicate (Z.to_nat (length - zlen data)) x00.

(** [bits.OnesCount8]. *)
Definition OnesCount8 (b : Z) : Z :=
  foldr (λ i acc, acc + Z.b2z (Z.testbit b i)) 0 [0; 1; 2; 3; 4; 5; 6; 7].

(** The range of BITCOUNT; [None] bounds are nil pointers. *)
Definition normalizeBitmapRange (length : Z) (start end_ : option Z) : option (Z * Z) :=
  match start, end_ with
  | Some from, Some to =>
      let from := if from <? 0 then length + from else from in
      let to := if to <? 0 then length + to else to in
      let from := if from <? 0 then 0 else from in
      if (to <? 0) || (length <=? from) || (to <? from) then None
      else Some (from, if length <=? to then length - 1 else to)
  | _, _ => Some (0, length - 1)
  end.

Definition countBits (data : bytes) (start end_ : option Z) : Z :=
  if zlen data =? 0 then 0
  else
    match normalizeBitmapRange (zlen data) start end_ with
    | None => 0
    | Some (from, to) =>
        foldl (λ count b, count + OnesCount8 (b2z b)) 0 (ztake (to + 1 - from) (zdrop from data))
    end.

(** ** Lemmas *)

Lemma bitMask_testbit offset k :
  Z.testbit (bitMask offset) k = bool_decide (k = 7 - offset mod 8).
Proof.
  unfold bitMask. pose proof (Z.mod_pos_bound offset 8 ltac:(lia)).
  rewrite Z.shiftl_1_l, Z.pow2_bits_eqb by lia. case_bool_decide; [apply Z.eqb_eq|apply Z.eqb_neq]; lia.
Qed.

Lemma land_mask b offset :
  (Z.land b (bitMask offset) =? 0) = negb (Z.testbit b (7 - offset mod 8)).
Proof.
  destruct (Z.testbit b (7 - offset mod 8)) eqn:E; cbn [negb].
  - apply Z.eqb_neq. intros H. apply (f_equal (λ z, Z.testbit z (7 - offset mod 8))) in H.
    rewrite Z.land_spec, bitMask_testbit, bool_decide_eq_true_2, E, Z.testbit_0_l in H by done. done.
  - apply Z.eqb_eq, Z.bits_inj'. intros k _. rewrite Z.land_spec, bitMask_testbit, Z.testbit_0_l.
    case_bool_decide; [by subst; rewrite E|apply andb_false_r].
Qed.

(** The bit as a boolean. *)
Lemma bitAt_testbit data offset :
  0 ≤ offset → bitAt data offset = Z.b2z (Z.testbit (byteAt data (offset / 8)) (7 - offset mod 8)).
Proof.
  intros Ho. unfold bitAt. cbn zeta. rewrite land_mask. case_match eqn:E; bool_to_prop.
  - unfold byteAt. rewrite lookup_ge_None_2 by (unfold zlen in E; lia). cbn. by rewrite Z.testbit_0_l.
  - by destruct (Z.testbit _ _).
Qed.

Lemma setBitInByte_testbit b offset bit k :
  bit = 0 ∨ bit = 1 →
  Z.testbit (setBitInByte b (bitMask offset) bit) k =
    if bool_decide (k = 7 - offset mod 8) then (bit =? 1) else Z.testbit b k.
Proof.
  intros Hb. unfold setBitInByte. case_match eqn:E; bool_to_prop.
  - rewrite Z.lor_spec, bitMask_testbit. case_bool_decide; [apply orb_true_r|apply orb_false_r].
  - rewrite Z.ldiff_spec, bitMask_testbit. case_bool_decide; cbn; [apply andb_false_r|apply andb_true_r].
Qed.

Lemma setBitInByte_range b offset bit : 0 ≤ b < 256 → bit = 0 ∨ bit = 1 → 0 ≤ setBitInByte b (bitMask offset) bit < 256.
Proof.
  intros Hb Hbit. pose proof (Z.mod_pos_bound offset 8 ltac:(lia)). change 256 with (2 ^ 8) in *.
  assert (∀ k, 8 ≤ k → Z.testbit (setBitInByte b (bitMask offset) bit) k = false) as Hhi.
  { intros k Hk. rewrite setBitInByte_testbit by done. rewrite bool_decide_eq_false_2 by lia.
    rewrite <- (Z.mod_small b (2 ^ 8)) by done. by apply Z.mod_pow2_bits_high. }
  assert (0 ≤ setBitInByte b (bitMask offset) bit) as Hpos.
  { unfold setBitInByte. case_match; [apply Z.lor_nonneg|apply Z.ldiff_nonneg]; [split|left]; try lia.
    unfold bitMask. apply Z.shiftl_nonneg. lia. }
  split; [done|]. destruct (Z.eq_dec (setBitInByte b (bitMask offset) bit) 0) as [->|Hne]; [lia|].
  apply Z.log2_lt_pow2; [lia|]. destruct (Z_lt_le_dec (Z.log2 (setBitInByte b (bitMask offset) bit)) 8) as [|Hge]; [done|].
  pose proof (Z.bit_log2 (setBitInByte b (bitMask offset) bit) ltac:(lia)) as Hl. rewrite Hhi in Hl by done. done.
Qed.

Lemma byteAt_range data i : 0 ≤ byteAt data i < 256.
Proof. apply b2z_range. Qed.

Lemma byteAt_setBit payload offset bit i :
  0 ≤ offset → 0 ≤ i → offset / 8 < zlen payload → bit = 0 ∨ bit = 1 →
  byteAt (setBitInPayload payload offset bit) i =
    if decide (i = offset / 8) then setBitInByte (byteAt payload i) (bitMask offset) bit else byteAt payload i.
Proof.
  intros Ho Hi Hlen Hbit. unfold setBitInPayload, byteAt at 1. cbn zeta.
  pose proof (Z.div_pos offset 8 Ho ltac:(lia)). case_decide as Hd.
  - subst i. rewrite list_lookup_insert_eq by (unfold zlen in Hlen; lia). cbn.
    apply b2z_z2b_small, setBitInByte_range; [apply byteAt_range|done].
  - rewrite list_lookup_insert_ne by lia. done.
Qed.

Lemma byteAt_zeroPad n data i : 0 ≤ i → byteAt (zeroPad n data) i = byteAt data i.
Proof.
  intros Hi. unfold byteAt, zeroPad. destruct (decide (Z.to_nat i < length data)%nat).
  - by rewrite lookup_app_l.
  - rewrite lookup_app_r, (lookup_ge_None_2 data) by lia.
    destruct (replicate _ _ !! _) eqn:E; [|done]. apply lookup_replicate in E as [-> _]. done.
Qed.

Lemma zlen_zeroPad n data : zlen data ≤ n → zlen (zeroPad n data) = n.
Proof. intros. unfold zeroPad. rewrite zlen_app. unfold zlen in *. rewrite length_replicate. lia. Qed.

(** Setting a bit changes that bit and no other. *)
Lemma bitAt_setBit payload offset bit o :
  0 ≤ offset → 0 ≤ o → offset / 8 < zlen payload → bit = 0 ∨ bit = 1 →
  bitAt (setBitInPayload payload offset bit) o = if decide (o = offset) then bit else bitAt payload o.
Proof.
  intros Ho Ho' Hlen Hbit. rewrite !bitAt_testbit by done.
  pose proof (Z.div_pos o 8 Ho' ltac:(lia)). rewrite byteAt_setBit by done.
  pose proof (Z.div_mod o 8 ltac:(lia)). pose proof (Z.div_mod offset 8 ltac:(lia)).
  case_decide as Hd.
  - rewrite setBitInByte_testbit by done. case_bool_decide as Hk.
    + rewrite decide_True by lia. by destruct Hbit as [-> | ->].
    + rewrite decide_False by (intros ->; lia). done.
  - rewrite decide_False by (intros ->; lia). done.
Qed.

(** ** Counting *)

(** BITCOUNT over a whole payload, bit by bit. *)
Definition bitSum (data : bytes) : Z :=
  foldr (λ o acc, bitAt data o + acc) 0 (Z.of_nat <$> seq 0 (8 * length data)).

Lemma OnesCount8_bits b (rest : bytes) :
  OnesCount8 (b2z b) = foldr (λ o acc, bitAt (b :: rest) o + acc) 0 (Z.of_nat <$> seq 0 8).
Proof.
  cbn [seq fmap list_fmap foldr]. rewrite !bitAt_testbit by lia. unfold OnesCount8. cbn [foldr].
  change (byteAt (b :: rest) (Z.of_nat 0 / 8)) with (b2z b).
  repeat match goal with |- context [byteAt (b :: rest) ?i] => change (byteAt (b :: rest) i) with (b2z b) end.
  repeat match goal with |- context [7 - ?i mod 8] => let r := eval vm_compute in (7 - i mod 8) in change (7 - i mod 8) with r end.
  lia.
Qed.

Lemma foldl_count_acc l acc :
  foldl (λ count b, count + OnesCount8 (b2z b)) acc l = acc + foldl (λ count b, count + OnesCount8 (b2z b)) 0 l.
Proof.
  revert acc. induction l as [|b l IH]; intros acc; cbn [foldl]; [lia|]. rewrite IH, (IH (0 + _)). lia.
Qed.

Lemma foldr_bit_acc data l acc :
  foldr (λ o acc, bitAt data o + acc) acc l = foldr (λ o acc, bitAt data o + acc) 0 l + acc.
Proof. induction l as [|o l IH]; cbn; [lia|]. rewrite IH. lia. Qed.

Lemma bitAt_shift b data o : 0 ≤ o → bitAt (b :: data) (8 + o) = bitAt data o.
Proof.
  intros Ho. rewrite !bitAt_testbit by lia.
  replace ((8 + o) / 8) with (1 + o / 8) by (replace (8 + o) with (1 * 8 + o) by lia; by rewrite Z.div_add_l).
  replace ((8 + o) mod 8) with (o mod 8) by (replace (8 + o) with (o + 1 * 8) by lia; by rewrite Z.mod_add).
  unfold byteAt. pose proof (Z.div_pos o 8 Ho ltac:(lia)).
  replace (Z.to_nat (1 + o / 8)) with (S (Z.to_nat (o / 8))) by lia. done.
Qed.

Lemma countBits_whole data : countBits data None None = bitSum data.
Proof.
  unfold countBits. assert (∀ l, foldl (λ count b, count + OnesCount8 (b2z b)) 0 l = bitSum l) as H.
  { induction l as [|b l IH]; [done|]. cbn [foldl]. rewrite foldl_count_acc, IH, (OnesCount8_bits b l).
    unfold bitSum. replace (8 * length (b :: l))%nat with (8 + 8 * length l)%nat by (cbn; lia).
    rewrite seq_app, fmap_app, foldr_app, (foldr_bit_acc _ _ (foldr _ _ _)). f_equal.
    rewrite <- (fmap_add_seq 8 0), <- list_fmap_compose.
    induction (seq 0 (8 * length l)) as [|o os IHo]; [done|]. cbn [fmap list_fmap foldr].
    rewrite IHo. f_equal. unfold compose. rewrite <- (bitAt_shift b l) by lia. f_equal. lia. }
  case_match eqn:E; bool_to_prop.
  - destruct data; [done|]. rewrite zlen_cons in E. pose proof (zlen_nonneg data). lia.
  - cbn [normalizeBitmapRange]. rewrite <- H. f_equal. rewrite zdrop_0. unfold ztake. apply take_ge. unfold zlen. lia.
Qed.

(** The bits of a byte range, inclusive bounds. *)
Lemma countBits_range data from to :
  0 ≤ from ≤ to → to < zlen data →
  countBits data (Some from) (Some to) = bitSum (ztake (to + 1 - from) (zdrop from data)).
Proof.
  intros Hf Ht. unfold countBits. cbn [normalizeBitmapRange].
  rewrite !(proj2 (Z.eqb_neq _ _)), !(proj2 (Z.ltb_ge from 0)), !(proj2 (Z.ltb_ge to 0)),
    (proj2 (Z.leb_gt _ _)), (proj2 (Z.ltb_ge to from)), (proj2 (Z.leb_gt (zlen data) to)) by lia.
  cbn [orb]. rewrite <- countBits_whole. unfold countBits.
  pose proof (zlen_ztake (to + 1 - from) (zdrop from data)) as Hl.
  rewrite zlen_zdrop in Hl by lia. specialize (Hl ltac:(lia)). rewrite Hl.
  rewrite (proj2 (Z.eqb_neq _ _)) by lia. cbn [normalizeBitmapRange]. f_equal.
  rewrite zdrop_0. set (d := ztake (to + 1 - from) (zdrop from data)) in *. symmetry.
  apply take_ge. unfold zlen in Hl. lia.
Qed.
