(* ===== verification/HyperLogLog.v ===== *)
(** * HyperLogLog

    Models the payload operations of [internal/storage/hyperloglog.go]: the
    dense layout and its validation, the hash of an element (FNV-1a followed by
    the MurmurHash3 finalizer, in wrap-around 64-bit arithmetic), the register
    update of PFADD, the register-wise maximum of a multi-key PFCOUNT, and the
    estimator over IEEE doubles.  The logarithm of the Go math library, whose
    value the estimator uses for small cardinalities, is an argument. *)

From S2P Require Import Prelude Float64 Bitmap.

Definition hllIndexBits : Z := 14.
Definition hllRegisterCount : Z := Z.shiftl 1 hllIndexBits.
Definition hllHeaderSize : Z := 16.
Definition hllValueSize : Z := hllHeaderSize + hllRegisterCount.
Definition hllDenseEncoding : Z := 1.
Definition hllMaxRank : Z := 64 - hllIndexBits + 1.
Definition hllMagic : bytes := bs "RHLL".

(** [make([]byte, n)]. *)
Definition makeBytes (n : Z) : bytes := replicate (Z.to_nat n) x00.

Definition newHyperLogLogPayload : bytes :=
  let payload := makeBytes hllValueSize in
  let payload := hllMagic ++ zdrop (zlen hllMagic) payload in
  <[length hllMagic := z2b hllDenseEncoding]> payload.

(** The registers of a valid payload; [None] is [ErrNotHyperLogLog]. *)
Definition hyperLogLogRegisters (data : bytes) : option bytes :=
  if negb (zlen data =? hllValueSize)
     || negb (bool_decide (ztake (zlen hllMagic) data = hllMagic))
     || negb (byteAt data (zlen hllMagic) =? hllDenseEncoding) then None
  else
    let registers := zdrop hllHeaderSize data in
    if existsb (λ rank, hllMaxRank <? b2z rank) registers then None else Some registers.

(** [hash/fnv]: the 64-bit FNV-1a sum. *)
Definition fnvOffset : Z := 14695981039346656037.
Definition fnvPrime : Z := 1099511628211.
Definition fnv64a (element : bytes) : Z :=
  foldl (λ h b, wrapu64 (Z.lxor h (b2z b) * fnvPrime)) fnvOffset element.

Definition mix64 (sum : Z) : Z :=
  let sum := Z.lxor sum (Z.shiftr sum 33) in
  let sum := wrapu64 (sum * 0xff51afd7ed558ccd) in
  let sum := Z.lxor sum (Z.shiftr sum 33) in
  let sum := wrapu64 (sum * 0xc4ceb9fe1a85ec53) in
  Z.lxor sum (Z.shiftr sum 33).

(** [bits.LeadingZeros64]. *)
Definition LeadingZeros64 (x : Z) : Z := if x =? 0 then 64 else 63 - Z.log2 x.

Definition hyperLogLogPosition (element : bytes) : Z * Z :=
  let sum := mix64 (fnv64a element) in
  let index := Z.shiftr sum (64 - hllIndexBits) in
  let rank := LeadingZeros64 (wrapu64 (Z.shiftl sum hllIndexBits)) + 1 in
  (index, if hllMaxRank <? rank then hllMaxRank else rank).

(** [if registers[index] < rank { registers[index] = rank; changed = 1 }]. *)
Definition updateRegister (st : bytes * Z) (element : bytes) : bytes * Z :=
  let '(registers, changed) := st in
  let '(index, rank) := hyperLogLogPosition element in
  if byteAt registers index <? rank then (<[Z.to_nat index := z2b rank]> registers, 1)
  else (registers, changed).

(** The registers after the loop, and whether any changed. *)
Definition updateHyperLogLogRegisters (registers : bytes) (elements : list bytes) : bytes * Z :=
  foldl updateRegister (registers, 0) elements.

(** The in-place update of [payload[hllHeaderSize:]]. *)
Definition updatePayload (payload : bytes) (elements : list bytes) : bytes * Z :=
  let '(registers, changed) := updateHyperLogLogRegisters (zdrop hllHeaderSize payload) elements in
  (ztake hllHeaderSize payload ++ registers, changed).

(** The loop of [mergeHyperLogLogRegisters]. *)
Definition mergeRegisters (merged registers : bytes) : bytes :=
  zip_with (λ m rank, if b2z m <? b2z rank then rank else m) merged registers.

(** ** The estimator *)

Definition fadd (x y : float64) : float64 := SFadd 53 1024 x y.
Definition fmul (x y : float64) : float64 := SFmul 53 1024 x y.
Definition fdiv (x y : float64) : float64 := SFdiv 53 1024 x y.
(** [x <= y] on doubles. *)
Definition fle (x y : float64) : bool := SFleb x y.

(** [int64(math.Round(x))]: half away from zero. *)
Definition roundToInt (x : float64) : Z :=
  match x with
  | S754_finite s m e =>
      let v := if 0 <=? e then Zpos m * 2 ^ e else (2 * Zpos m + 2 ^ (- e)) / (2 * 2 ^ (- e)) in
      if s then - v else v
  | _ => 0
  end.

(** [math.Ldexp(1, -rank)]. *)
Definition hllRankReciprocal (rank : Z) : float64 := S754_finite false 4503599627370496 (-52 - rank).

(** The constants 0.7213, 1.079 and 2.5. *)
Definition c_0_7213 : float64 := S754_finite false 6496892822444678 (-53).
Definition c_1_079 : float64 := S754_finite false 4859383997932765 (-52).
Definition c_2_5 : float64 := S754_finite false 5629499534213120 (-51).

Definition hyperLogLogEstimate (Log : float64 → float64) (registers : bytes) : Z :=
  let m := floatOfZ hllRegisterCount in
  let alpha := fdiv c_0_7213 (fadd (floatOfZ 1) (fdiv c_1_079 m)) in
  let '(sum, zeros) :=
    foldl (λ st rank,
      let '(sum, zeros) := st in
      (fadd sum (hllRankReciprocal (b2z rank)), if b2z rank =? 0 then zeros + 1 else zeros))
      (floatOfZ 0, 0) registers in
  let estimate := fdiv (fmul (fmul alpha m) m) sum in
  let estimate :=
    if fle estimate (fmul c_2_5 m) && (0 <? zeros) then fmul m (Log (fdiv m (floatOfZ zeros)))
    else estimate in
  if fle (floatOfZ max_int64) estimate then max_int64 else roundToInt estimate.

(** ** Lemmas: the position of an element *)

Lemma wrapu64_range z : 0 ≤ wrapu64 z < 2 ^ 64.
Proof. unfold wrapu64. apply Z.mod_pos_bound. lia. Qed.

Lemma lxor_range n a b : 0 ≤ n → 0 ≤ a < 2 ^ n → 0 ≤ b < 2 ^ n → 0 ≤ Z.lxor a b < 2 ^ n.
Proof.
  intros Hn Ha Hb. assert (0 ≤ Z.lxor a b) as Hpos by (apply Z.lxor_nonneg; lia). split; [done|].
  destruct (Z.eq_dec (Z.lxor a b) 0) as [->|Hne]; [lia|]. apply Z.log2_lt_pow2; [lia|].
  eapply Z.le_lt_trans; [apply Z.log2_lxor; lia|].
  destruct (Z.eq_dec n 0) as [->|]; [assert (a = 0) as -> by lia; assert (b = 0) as -> by lia; done|].
  apply Z.max_lub_lt.
  - destruct (Z.eq_dec a 0) as [->|]; [cbn; lia|]. apply Z.log2_lt_pow2; lia.
  - destruct (Z.eq_dec b 0) as [->|]; [cbn; lia|]. apply Z.log2_lt_pow2; lia.
Qed.

Lemma shiftr_range n a k : 0 ≤ k → 0 ≤ a < 2 ^ n → 0 ≤ Z.shiftr a k < 2 ^ n.
Proof.
  intros Hk Ha. rewrite Z.shiftr_div_pow2 by done. assert (0 < 2 ^ k) by (apply Z.pow_pos_nonneg; lia).
  split; [apply Z.div_pos; lia|]. eapply Z.le_lt_trans; [apply Z.div_le_upper_bound with (q := a)|]; [done|nia|lia].
Qed.

Lemma mix64_range x : 0 ≤ mix64 x < 2 ^ 64.
Proof.
  unfold mix64. cbn zeta. apply lxor_range; [lia|apply wrapu64_range|].
  apply shiftr_range; [lia|apply wrapu64_range].
Qed.

(** The index is a register and the rank is a rank. *)
Lemma position_bounds element :
  0 ≤ (hyperLogLogPosition element).1 < hllRegisterCount ∧ 1 ≤ (hyperLogLogPosition element).2 ≤ hllMaxRank.
Proof.
  unfold hyperLogLogPosition. cbn zeta. cbn [fst snd]. pose proof (mix64_range (fnv64a element)) as Hm.
  set (sum := mix64 _) in *. change hllRegisterCount with (2 ^ 14). change (64 - hllIndexBits) with 50.
  split.
  - rewrite Z.shiftr_div_pow2 by lia. split; [apply Z.div_pos; lia|]. apply Z.div_lt_upper_bound; lia.
  - pose proof (wrapu64_range (Z.shiftl sum hllIndexBits)) as Hw. set (w := wrapu64 _) in *.
    change hllMaxRank with 51. unfold LeadingZeros64. destruct (Z.eqb_spec w 0) as [Hz|Hne]; [change (51 <? 64 + 1) with true; cbn [negb]; lia|].
    assert (Z.log2 w < 64) by (apply Z.log2_lt_pow2; lia). pose proof (Z.log2_nonneg w).
    case_match eqn:E; bool_to_prop; lia.
Qed.

(** ** Lemmas: registers *)

(** The largest rank among the elements that hash to a register. *)
Definition maxRank (elements : list bytes) (i : Z) : Z :=
  foldr (λ e acc, if decide ((hyperLogLogPosition e).1 = i) then Z.max (hyperLogLogPosition e).2 acc else acc) 0 elements.

Lemma maxRank_app es1 es2 i : maxRank (es1 ++ es2) i = Z.max (maxRank es1 i) (maxRank es2 i).
Proof.
  assert (∀ es, 0 ≤ maxRank es i) as Hpos.
  { induction es as [|e es IH]; cbn [maxRank foldr]; [done|]. unfold maxRank in IH. case_decide; lia. }
  induction es1 as [|e es1 IH]; cbn [app]; [specialize (Hpos es2); cbn; lia|].
  change (maxRank (e :: ?l) i) with (if decide ((hyperLogLogPosition e).1 = i) then Z.max (hyperLogLogPosition e).2 (maxRank l i) else maxRank l i).
  cbn [maxRank foldr]. case_decide; [|exact IH]. change (foldr _ 0 es1) with (maxRank es1 i).
  change (foldr _ 0 (es1 ++ es2)) with (maxRank (es1 ++ es2) i). rewrite IH. lia.
Qed.

Lemma maxRank_bound es i : 0 ≤ maxRank es i ≤ hllMaxRank.
Proof.
  induction es as [|e es IH]; [done|]. cbn [maxRank foldr]. pose proof (position_bounds e). unfold maxRank in IH.
  case_decide; lia.
Qed.

(** [maxRank] is the least upper bound of the ranks, so only the set matters. *)
Lemma maxRank_le es i r :
  0 ≤ r → maxRank es i ≤ r ↔ ∀ e, e ∈ es → (hyperLogLogPosition e).1 = i → (hyperLogLogPosition e).2 ≤ r.
Proof.
  intros Hr. induction es as [|e es IH].
  { split; [|done]. intros _ e He. by apply elem_of_nil in He. }
  cbn [maxRank foldr]. change (foldr _ 0 es) with (maxRank es i). split.
  - intros H x Hx Hi. apply elem_of_cons in Hx as [-> |Hx].
    + rewrite decide_True in H by done. lia.
    + apply IH; [case_decide; lia|done|done].
  - intros H. assert (maxRank es i ≤ r) by (apply IH; intros; apply H; [by apply elem_of_cons; right|done]).
    case_decide; [|done]. apply Z.max_lub; [|done]. apply H; [by apply elem_of_cons; left|done].
Qed.

Lemma maxRank_set es1 es2 i : (∀ e, e ∈ es1 ↔ e ∈ es2) → maxRank es1 i = maxRank es2 i.
Proof.
  intros H. apply Z.le_antisymm; apply maxRank_le; try apply maxRank_bound; intros e He Hi.
  - apply (maxRank_le es2 i); [apply maxRank_bound|done|by apply H|done].
  - apply (maxRank_le es1 i); [apply maxRank_bound|done|by apply H|done].
Qed.

Lemma updateRegister_spec regs changed e :
  zlen regs = hllRegisterCount →
  zlen (updateRegister (regs, changed) e).1 = hllRegisterCount ∧
  ∀ i, 0 ≤ i < hllRegisterCount →
    byteAt (updateRegister (regs, changed) e).1 i = Z.max (byteAt regs i) (maxRank [e] i).
Proof.
  intros Hlen. pose proof (position_bounds e) as [Hi Hr]. unfold updateRegister. cbn [maxRank foldr].
  destruct (hyperLogLogPosition e) as [index rank]. cbn [fst snd] in *. change hllMaxRank with 51 in Hr.
  case_match eqn:E; bool_to_prop; cbn [fst]; (split; [unfold zlen in *; rewrite ?length_insert; done|]); intros i Hir.
  - unfold byteAt in *. destruct (decide (index = i)) as [->|Hne].
    + rewrite list_lookup_insert_eq by (unfold zlen in Hlen; lia). cbn [from_option id]. rewrite b2z_z2b_small by lia. lia.
    + rewrite list_lookup_insert_ne by lia. pose proof (b2z_range (default x00 (regs !! Z.to_nat i))). lia.
  - pose proof (byteAt_range regs i). case_decide; [subst|]; lia.
Qed.

Lemma update_loop_spec es : ∀ regs changed,
  zlen regs = hllRegisterCount →
  zlen (foldl updateRegister (regs, changed) es).1 = hllRegisterCount ∧
  ∀ i, 0 ≤ i < hllRegisterCount →
    byteAt (foldl updateRegister (regs, changed) es).1 i = Z.max (byteAt regs i) (maxRank es i).
Proof.
  induction es as [|e es IH]; intros regs changed Hlen; cbn [foldl].
  { split; [done|]. intros i _. cbn [maxRank foldr fst]. pose proof (byteAt_range regs i). lia. }
  destruct (updateRegister_spec regs changed e Hlen) as [Hlen' Hreg].
  destruct (updateRegister (regs, changed) e) as [regs' changed']. cbn [fst] in *.
  destruct (IH regs' changed' Hlen') as [IH1 IH2]. split; [done|]. intros i Hi.
  rewrite IH2, Hreg by done. change (e :: es) with ([e] ++ es). rewrite maxRank_app. lia.
Qed.

Lemma update_spec regs es :
  zlen regs = hllRegisterCount →
  zlen (updateHyperLogLogRegisters regs es).1 = hllRegisterCount ∧
  ∀ i, 0 ≤ i < hllRegisterCount →
    byteAt (updateHyperLogLogRegisters regs es).1 i = Z.max (byteAt regs i) (maxRank es i).
Proof. apply update_loop_spec. Qed.

(** Registers are determined by their values. *)
Lemma registers_ext r1 r2 n :
  zlen r1 = n → zlen r2 = n → (∀ i, 0 ≤ i < n → byteAt r1 i = byteAt r2 i) → r1 = r2.
Proof.
  intros H1 H2 H. apply list_eq_same_length with (n := length r1); [unfold zlen in *; lia|done|].
  intros k x y Hk Hx Hy. apply b2z_inj. specialize (H (Z.of_nat k)). unfold byteAt in H.
  rewrite Nat2Z.id, Hx, Hy in H. apply H. unfold zlen in *. lia.
Qed.

Lemma mergeRegisters_spec m r :
  zlen m = hllRegisterCount → zlen r = hllRegisterCount →
  zlen (mergeRegisters m r) = hllRegisterCount ∧
  ∀ i, 0 ≤ i < hllRegisterCount → byteAt (mergeRegisters m r) i = Z.max (byteAt m i) (byteAt r i).
Proof.
  intros Hm Hr. unfold zlen, mergeRegisters in *. split; [rewrite length_zip_with_l_eq; lia|].
  intros i Hi. unfold byteAt. rewrite lookup_zip_with.
  destruct (lookup_lt_is_Some_2 m (Z.to_nat i)) as [x Hx]; [lia|].
  destruct (lookup_lt_is_Some_2 r (Z.to_nat i)) as [y Hy]; [lia|].
  rewrite Hx, Hy. cbn. case_match eqn:E; bool_to_prop; lia.
Qed.

(** ** Lemmas: payloads *)

(** A payload PFADD and PFCOUNT accept. *)
Definition HllWf (payload : bytes) : Prop := is_Some (hyperLogLogRegisters payload).

Lemma hyperLogLogRegisters_Some data regs :
  hyperLogLogRegisters data = Some regs ↔
  zlen data = hllValueSize ∧ ztake (zlen hllMagic) data = hllMagic ∧ byteAt data (zlen hllMagic) = hllDenseEncoding
  ∧ regs = zdrop hllHeaderSize data ∧ Forall (λ b, b2z b ≤ hllMaxRank) regs.
Proof.
  unfold hyperLogLogRegisters. split.
  - case_match eqn:E; [done|]. bool_to_prop. case_match eqn:E2; [done|]. intros [= <-].
    split_and!; try done. apply Forall_forall. intros b Hb. apply Z.nlt_ge. intros Hlt.
    apply not_true_iff_false in E2. apply E2. apply existsb_exists. exists b.
    split; [by apply list_elem_of_In|by apply Z.ltb_lt].
  - intros (H1 & H2 & H3 & -> & H5). rewrite H1, H2, H3, Z.eqb_refl, bool_decide_eq_true_2, Z.eqb_refl by done. cbn [negb orb].
    case_match eqn:E; [|done]. apply existsb_exists in E as (b & Hb & Hlt). apply list_elem_of_In in Hb.
    rewrite Forall_forall in H5. specialize (H5 b Hb). bool_to_prop. lia.
Qed.

Lemma new_payload_wf :
  HllWf newHyperLogLogPayload ∧ zdrop hllHeaderSize newHyperLogLogPayload = makeBytes hllRegisterCount.
Proof. split; [eexists|]; vm_compute; reflexivity. Qed.

Lemma byteAt_makeBytes n i : byteAt (makeBytes n) i = 0.
Proof.
  unfold byteAt, makeBytes. destruct (replicate _ _ !! _) eqn:E; [|done]. by apply lookup_replicate in E as [-> _].
Qed.

(** The update of a valid payload is valid and leaves the header alone. *)
Lemma updatePayload_wf data regs es :
  hyperLogLogRegisters data = Some regs →
  hyperLogLogRegisters (updatePayload data es).1 = Some (updateHyperLogLogRegisters regs es).1
  ∧ zlen (updatePayload data es).1 = zlen data.
Proof.
  intros (Hlen & Hmagic & Henc & -> & Hranks)%hyperLogLogRegisters_Some. unfold updatePayload.
  set (regs := zdrop hllHeaderSize data) in *.
  assert (zlen regs = hllRegisterCount) as Hrl by (unfold regs; rewrite zlen_zdrop, Hlen; [done|rewrite Hlen; done]).
  destruct (update_spec regs es Hrl) as [Hul Hu].
  destruct (updateHyperLogLogRegisters regs es) as [regs' changed] eqn:Eu. cbn [fst snd] in *.
  assert (zlen (ztake hllHeaderSize data) = hllHeaderSize) as Hh by (apply zlen_ztake; rewrite Hlen; done).
  assert (zlen (ztake hllHeaderSize data ++ regs') = zlen data) as Hl by (rewrite zlen_app, Hh, Hul, Hlen; done).
  split; [|done]. apply hyperLogLogRegisters_Some. split_and!.
  - by rewrite Hl.
  - rewrite ztake_app_le by (rewrite Hh; done). rewrite <- Hmagic at 2. unfold ztake. rewrite take_take. f_equal.
  - rewrite <- Henc. unfold byteAt. change (Z.to_nat (zlen hllMagic)) with 4%nat.
    assert (length (ztake hllHeaderSize data) = 16%nat) as Hh' by (unfold zlen in Hh; change hllHeaderSize with 16 in *; lia).
    rewrite lookup_app_l by lia.
    unfold ztake. rewrite lookup_take_lt; [done|]. change hllHeaderSize with 16. lia.
  - rewrite <- Hh at 1. by rewrite zdrop_app_exact.
  - apply Forall_lookup. intros k b Hb. pose proof (lookup_lt_Some _ _ _ Hb) as Hk.
    specialize (Hu (Z.of_nat k)). unfold byteAt at 1 in Hu. rewrite Nat2Z.id, Hb in Hu. cbn [from_option id] in Hu.
    rewrite Hu by (unfold zlen in Hul; lia). apply Z.max_lub; [|apply maxRank_bound].
    unfold byteAt. rewrite Nat2Z.id. rewrite Forall_lookup in Hranks.
    destruct (regs !! k) eqn:E; [by eapply Hranks|]. cbn. done.
Qed.

(** ** Theorems *)

(** The registers of a fresh HyperLogLog after adding elements. *)
Definition registersOf (es : list bytes) : bytes := (updateHyperLogLogRegisters (makeBytes hllRegisterCount) es).1.

Lemma zlen_makeBytes n : 0 ≤ n → zlen (makeBytes n) = n.
Proof. intros. unfold zlen, makeBytes. rewrite length_replicate. lia. Qed.

Lemma registersOf_spec es :
  zlen (registersOf es) = hllRegisterCount ∧ ∀ i, 0 ≤ i < hllRegisterCount → byteAt (registersOf es) i = maxRank es i.
Proof.
  destruct (update_spec (makeBytes hllRegisterCount) es) as [H1 H2]; [by apply zlen_makeBytes|]. split; [done|].
  intros i Hi. unfold registersOf. rewrite H2, byteAt_makeBytes by done. pose proof (maxRank_bound es i). lia.
Qed.

(** A HyperLogLog records the set of its elements and merging is union: the
    register-wise maximum of two HyperLogLogs equals the registers of any sequence
    with the elements of both, whatever the order and the repetitions.  So PFADD
    is idempotent and commutative, and PFCOUNT of several keys sees their union. *)
Theorem hll_merge_is_union es1 es2 es :
  (∀ e, e ∈ es ↔ e ∈ es1 ∨ e ∈ es2) → mergeRegisters (registersOf es1) (registersOf es2) = registersOf es.
Proof.
  intros Hset. destruct (registersOf_spec es1) as [L1 R1]. destruct (registersOf_spec es2) as [L2 R2].
  destruct (registersOf_spec es) as [L R]. destruct (mergeRegisters_spec _ _ L1 L2) as [Lm Rm].
  apply (registers_ext _ _ hllRegisterCount Lm L). intros i Hi. rewrite Rm, R1, R2, R, <- maxRank_app by done.
  apply maxRank_set. intros e. rewrite elem_of_app, Hset. done.
Qed.

Lemma hll_merge_is_union_witness :
  mergeRegisters (registersOf [bs "a"; bs "b"]) (registersOf [bs "b"; bs "c"]) = registersOf [bs "c"; bs "a"; bs "b"; bs "c"].
Proof.
  apply (hll_merge_is_union [bs "a"; bs "b"] [bs "b"; bs "c"] [bs "c"; bs "a"; bs "b"; bs "c"]).
  intros e. rewrite !elem_of_cons, elem_of_nil. tauto.
Defined.

(** PFADD on a stored value keeps it a valid HyperLogLog of the same size: the
    header, the length and the register bounds survive, so the write cannot change
    the memory the key accounts for; and a fresh payload is valid and empty. *)
Theorem hll_layout_stable data regs es :
  hyperLogLogRegisters data = Some regs →
  hyperLogLogRegisters (updatePayload data es).1 = Some (updateHyperLogLogRegisters regs es).1
  ∧ zlen (updatePayload data es).1 = zlen data
  ∧ hyperLogLogRegisters newHyperLogLogPayload = Some (makeBytes hllRegisterCount).
Proof.
  intros H. destruct (updatePayload_wf data regs es H) as [H1 H2]. split_and!; [done|done|].
  destruct new_payload_wf as [[r Hr] Hd]. rewrite Hr. f_equal. apply hyperLogLogRegisters_Some in Hr as (_ & _ & _ & -> & _). exact Hd.
Qed.

Lemma hll_layout_stable_witness : zlen (updatePayload newHyperLogLogPayload [bs "x"]).1 = hllValueSize.
Proof.
  destruct (hll_layout_stable newHyperLogLogPayload (makeBytes hllRegisterCount) [bs "x"]) as (_ & H & _);
    [vm_compute; reflexivity|]. rewrite H. vm_compute. reflexivity.
Defined.
