(* ===== verification/ValueObject.v ===== *)
(** * Stored values

    Models [internal/storage/types.go] (the tagged union [ValueObject], its
    accessors and constructors) and [internal/storage/collection_value.go] (the
    operations on hashes, sorted sets and sets, which choose between a compact
    and a general encoding and upgrade from one to the other).

    A method receiver is a value here and never nil: the store hands its
    callbacks the values it holds, and the nil tests of the methods are not
    reached.  A method that changes its receiver returns the changed value. *)

From S2P Require Import Prelude Strconv GoLib IntSet CompactHash Float64 CompactZSet SkipList Stream.

Inductive storeError :=
  | ErrSyntax | ErrInvalidExpireTime | ErrStream (e : streamError) | ErrValueNotInteger
  | ErrWrongType | ErrNotHyperLogLog | ErrMemoryLimitExceeded | errInvalidValueObjectState.

Inductive ValueKind :=
  | ValueKindString | ValueKindList | ValueKindZSet | ValueKindStream | ValueKindHash | ValueKindSet.

#[global] Instance ValueKind_eq_dec : EqDecision ValueKind.
Proof. solve_decision. Defined.

Inductive ValueEncoding := ValueEncodingGeneral | ValueEncodingCompact.

(** Pointers and maps are options: [None] is nil. *)
Record ValueObject := mkValue {
  vString : bytes;
  vList : list bytes;
  vZSet : option SortedSet;
  vCompactZSet : option CompactZSet;
  ZSetEncoding : ValueEncoding;
  vStream : option StreamValue;
  vHash : option (gmap bytes bytes);
  vCompactHash : option CompactHash;
  HashEncoding : ValueEncoding;
  vSet : option (gset bytes);
  vIntSet : option IntSet;
  SetEncoding : ValueEncoding;
  ExpiresAt : Z;
  LastAccessedAt : Z;
  Kind : ValueKind
}.

(** The zero value of the struct, with the fields every constructor sets. *)
Definition zeroValue (expiresAt now : Z) (kind : ValueKind) : ValueObject :=
  mkValue [] [] None None ValueEncodingGeneral None None None ValueEncodingGeneral
    None None ValueEncodingGeneral expiresAt now kind.

(** The order in which a [range] loop visits a Go map: every entry once, in an
    order the language leaves open. *)
Class MapOrder := {
  mapOrder : ∀ {A : Type}, gmap bytes A → list (bytes * A);
  setOrder : gset bytes → list bytes;
  mapOrder_perm : ∀ {A : Type} (m : gmap bytes A), mapOrder m ≡ₚ map_to_list m;
  setOrder_perm : ∀ X, setOrder X ≡ₚ elements X
}.

(** [for _, x := range xs { if op(x) { n++ } }]. *)
Definition countLoop {T E} (op : T → E → T * bool) (s : T) (xs : list E) : T * Z :=
  foldl (λ '(s, n) x, let '(s', b) := op s x in (s', if b then n + 1 else n)) (s, 0) xs.

(** ** types.go *)

Definition touch (v : ValueObject) (now : Z) : ValueObject :=
  mkValue (vString v) (vList v) (vZSet v) (vCompactZSet v) (ZSetEncoding v) (vStream v) (vHash v)
    (vCompactHash v) (HashEncoding v) (vSet v) (vIntSet v) (SetEncoding v) (ExpiresAt v) now (Kind v).

Definition lastAccessed (v : ValueObject) : Z := LastAccessedAt v.

Definition setString (v : ValueObject) (data : bytes) : ValueObject :=
  mkValue data (vList v) (vZSet v) (vCompactZSet v) (ZSetEncoding v) (vStream v) (vHash v)
    (vCompactHash v) (HashEncoding v) (vSet v) (vIntSet v) (SetEncoding v) (ExpiresAt v) (LastAccessedAt v) (Kind v).

Definition setList (v : ValueObject) (items : list bytes) : ValueObject :=
  mkValue (vString v) items (vZSet v) (vCompactZSet v) (ZSetEncoding v) (vStream v) (vHash v)
    (vCompactHash v) (HashEncoding v) (vSet v) (vIntSet v) (SetEncoding v) (ExpiresAt v) (LastAccessedAt v) (Kind v).

(** The fields [ZSet], [CompactZSet] and [ZSetEncoding]. *)
Definition setZSet (v : ValueObject) (z : option SortedSet) (c : option CompactZSet) (e : ValueEncoding) : ValueObject :=
  mkValue (vString v) (vList v) z c e (vStream v) (vHash v)
    (vCompactHash v) (HashEncoding v) (vSet v) (vIntSet v) (SetEncoding v) (ExpiresAt v) (LastAccessedAt v) (Kind v).

(** The fields [Hash], [CompactHash] and [HashEncoding]. *)
Definition setHash (v : ValueObject) (h : option (gmap bytes bytes)) (c : option CompactHash) (e : ValueEncoding) : ValueObject :=
  mkValue (vString v) (vList v) (vZSet v) (vCompactZSet v) (ZSetEncoding v) (vStream v) h
    c e (vSet v) (vIntSet v) (SetEncoding v) (ExpiresAt v) (LastAccessedAt v) (Kind v).

(** The fields [Set], [IntSet] and [SetEncoding]. *)
Definition setSet (v : ValueObject) (g : option (gset bytes)) (i : option IntSet) (e : ValueEncoding) : ValueObject :=
  mkValue (vString v) (vList v) (vZSet v) (vCompactZSet v) (ZSetEncoding v) (vStream v) (vHash v)
    (vCompactHash v) (HashEncoding v) g i e (ExpiresAt v) (LastAccessedAt v) (Kind v).

(** The constructors; [now] is the clock reading of [LastAccessedAt]. *)
Definition newOwnedStringValue (now : Z) (data : bytes) (expiresAt : Z) : ValueObject :=
  setString (zeroValue expiresAt now ValueKindString) data.
Definition newStringValue (now : Z) (data : bytes) (expiresAt : Z) : ValueObject :=
  newOwnedStringValue now data expiresAt.
Definition newListValue (now : Z) (items : list bytes) (expiresAt : Z) : ValueObject :=
  setList (zeroValue expiresAt now ValueKindList) items.
Definition newZSetValue (now : Z) (set : SortedSet) (expiresAt : Z) : ValueObject :=
  setZSet (zeroValue expiresAt now ValueKindZSet) (Some set) None ValueEncodingGeneral.
Definition newCompactZSetValue (now : Z) (set : CompactZSet) (expiresAt : Z) : ValueObject :=
  setZSet (zeroValue expiresAt now ValueKindZSet) None (Some set) ValueEncodingCompact.
Definition newStreamValue (now : Z) (stream : StreamValue) (expiresAt : Z) : ValueObject :=
  mkValue [] [] None None ValueEncodingGeneral (Some stream) None None ValueEncodingGeneral
    None None ValueEncodingGeneral expiresAt now ValueKindStream.
Definition newHashValue (now : Z) (fields : gmap bytes bytes) (expiresAt : Z) : ValueObject :=
  setHash (zeroValue expiresAt now ValueKindHash) (Some fields) None ValueEncodingGeneral.
Definition newCompactHashValue (now : Z) (hash : CompactHash) (expiresAt : Z) : ValueObject :=
  setHash (zeroValue expiresAt now ValueKindHash) None (Some hash) ValueEncodingCompact.
Definition newSetValue (now : Z) (members : gset bytes) (expiresAt : Z) : ValueObject :=
  setSet (zeroValue expiresAt now ValueKindSet) (Some members) None ValueEncodingGeneral.
Definition newIntSetValue (now : Z) (members : IntSet) (expiresAt : Z) : ValueObject :=
  setSet (zeroValue expiresAt now ValueKindSet) None (Some members) ValueEncodingCompact.

(** The kind test every accessor starts with. *)
Definition ofKind {A} (v : ValueObject) (kind : ValueKind) (k : result storeError A) : result storeError A :=
  if decide (Kind v = kind) then k else Err ErrWrongType.

(** The test of a payload pointer. *)
Definition payload {P A} (p : option P) (k : P → result storeError A) : result storeError A :=
  match p with Some p => k p | None => Err errInvalidValueObjectState end.

Definition value_StringValue (v : ValueObject) : result storeError bytes := ofKind v ValueKindString (Ok (vString v)).
Definition value_ListValue (v : ValueObject) : result storeError (list bytes) := ofKind v ValueKindList (Ok (vList v)).
Definition value_StreamValue (v : ValueObject) : result storeError StreamValue := ofKind v ValueKindStream (payload (vStream v) Ok).

Definition value_ZSetValue {C : Coins} (v : ValueObject) : result storeError SortedSet :=
  ofKind v ValueKindZSet
    match ZSetEncoding v with
    | ValueEncodingCompact =>
        payload (vCompactZSet v) (λ c, Ok (addAll newSortedSet (CompactZSet_rangeByRank c 0 (CompactZSet_len c - 1))))
    | ValueEncodingGeneral => payload (vZSet v) Ok
    end.

Definition value_HashValue (v : ValueObject) : result storeError (gmap bytes bytes) :=
  ofKind v ValueKindHash
    match HashEncoding v with
    | ValueEncodingCompact =>
        payload (vCompactHash v) (λ c, Ok (foldl (λ fields '(f, raw), <[f := raw]> fields) ∅ (CompactHash_all c)))
    | ValueEncodingGeneral => payload (vHash v) Ok
    end.

Definition value_SetValue (v : ValueObject) : result storeError (gset bytes) :=
  ofKind v ValueKindSet
    match SetEncoding v with
    | ValueEncodingCompact => payload (vIntSet v) (λ s, Ok (IntSet_generalSet s))
    | ValueEncodingGeneral => payload (vSet v) Ok
    end.

(** ** collection_value.go: hashes *)

Definition hashLen (v : ValueObject) : result storeError Z :=
  ofKind v ValueKindHash
    match HashEncoding v with
    | ValueEncodingCompact => payload (vCompactHash v) (λ c, Ok (CompactHash_len c))
    | ValueEncodingGeneral => payload (vHash v) (λ h, Ok (Z.of_nat (size h)))
    end.

Definition hashGet (v : ValueObject) (field : bytes) : result storeError (option bytes) :=
  ofKind v ValueKindHash
    match HashEncoding v with
    | ValueEncodingCompact => payload (vCompactHash v) (λ c, Ok (CompactHash_get c field))
    | ValueEncodingGeneral => payload (vHash v) (λ h, Ok (h !! field))
    end.

(** [if _, exists := hash[pair.Field]; !exists { added++ }; hash[pair.Field] = pair.Value]. *)
Definition putField (hash : gmap bytes bytes) (pr : HashFieldValue) : gmap bytes bytes * bool :=
  (<[pr.1 := pr.2]> hash, bool_decide (hash !! pr.1 = None)).

Definition hashSetGeneral (hash : gmap bytes bytes) (pairs : list HashFieldValue) : gmap bytes bytes * Z :=
  countLoop putField hash pairs.

Definition pairFits (pr : HashFieldValue) : bool :=
  negb ((compactHashMaxStringSize <? zlen pr.1) || (compactHashMaxStringSize <? zlen pr.2)).

(** The loop of [compactHashCanSet]. *)
Fixpoint canSetLoop (hash : CompactHash) (projectedLen : Z) (newFields : gset bytes) (pairs : list HashFieldValue) : bool :=
  match pairs with
  | [] => true
  | pr :: pairs' =>
      if negb (pairFits pr) then false
      else
        match CompactHash_get hash pr.1 with
        | Some _ => canSetLoop hash projectedLen newFields pairs'
        | None =>
            if decide (pr.1 ∈ newFields) then canSetLoop hash projectedLen newFields pairs'
            else if compactHashMaxEntries <? projectedLen + 1 then false
            else canSetLoop hash (projectedLen + 1) ({[ pr.1 ]} ∪ newFields) pairs'
        end
  end.

Definition compactHashCanSet (hash : CompactHash) (pairs : list HashFieldValue) : bool :=
  canSetLoop hash (CompactHash_len hash) ∅ pairs.

Definition compactHashGeneralMap (hash : CompactHash) : gmap bytes bytes :=
  foldl (λ fields entry, <[CompactHash_field hash entry := CompactHash_value hash entry]> fields) ∅ (entries hash).

Definition upgradeCompactHash (v : ValueObject) (c : CompactHash) : ValueObject :=
  setHash v (Some (compactHashGeneralMap c)) None ValueEncodingGeneral.

(** The part of [hashSet] after the encoding test, which its recursive call
    after an upgrade comes back to. *)
Definition hashSetUpgraded (v : ValueObject) (pairs : list HashFieldValue) : ValueObject * result storeError Z :=
  match vHash v with
  | None => (v, Err errInvalidValueObjectState)
  | Some h =>
      let '(h', added) := hashSetGeneral h pairs in
      (setHash v (Some h') (vCompactHash v) (HashEncoding v), Ok added)
  end.

Definition hashSet (v : ValueObject) (pairs : list HashFieldValue) : ValueObject * result storeError Z :=
  if negb (bool_decide (Kind v = ValueKindHash)) then (v, Err ErrWrongType)
  else
    match HashEncoding v with
    | ValueEncodingCompact =>
        match vCompactHash v with
        | None => (v, Err errInvalidValueObjectState)
        | Some c =>
            if negb (compactHashCanSet c pairs) then hashSetUpgraded (upgradeCompactHash v c) pairs
            else
              let '(c', added) := countLoop (λ c pr, CompactHash_set c pr.1 pr.2) c pairs in
              (setHash v (vHash v) (Some c') ValueEncodingCompact, Ok added)
        end
    | ValueEncodingGeneral => hashSetUpgraded v pairs
    end.

(** [if _, exists := v.Hash[field]; exists { delete(v.Hash, field); removed++ }]. *)
Definition dropField (hash : gmap bytes bytes) (field : bytes) : gmap bytes bytes * bool :=
  match hash !! field with Some _ => (delete field hash, true) | None => (hash, false) end.

Definition hashDel (v : ValueObject) (fields : list bytes) : ValueObject * result storeError Z :=
  if negb (bool_decide (Kind v = ValueKindHash)) then (v, Err ErrWrongType)
  else
    match HashEncoding v with
    | ValueEncodingCompact =>
        match vCompactHash v with
        | None => (v, Err errInvalidValueObjectState)
        | Some c =>
            let '(c', removed) := countLoop CompactHash_del c fields in
            (setHash v (vHash v) (Some c') ValueEncodingCompact, Ok removed)
        end
    | ValueEncodingGeneral =>
        match vHash v with
        | None => (v, Err errInvalidValueObjectState)
        | Some h =>
            let '(h', removed) := countLoop dropField h fields in
            (setHash v (Some h') (vCompactHash v) ValueEncodingGeneral, Ok removed)
        end
    end.

Section Iteration.
Context {MO : MapOrder} {C : Coins}.

Definition hashEntries (v : ValueObject) : result storeError (list HashFieldValue) :=
  ofKind v ValueKindHash
    match HashEncoding v with
    | ValueEncodingCompact => payload (vCompactHash v) (λ c, Ok (CompactHash_all c))
    | ValueEncodingGeneral => payload (vHash v) (λ h, Ok (mapOrder h))
    end.

(** The copies of a value: a clone is equal to what it copies. *)
Definition cloneHashValue (now : Z) (v : ValueObject) (expiresAt : Z) : result storeError ValueObject :=
  ofKind v ValueKindHash
    match HashEncoding v with
    | ValueEncodingCompact => payload (cloneCompactHash (vCompactHash v)) (λ c, Ok (newCompactHashValue now c expiresAt))
    | ValueEncodingGeneral =>
        payload (vHash v) (λ h, Ok (newHashValue now (foldl (λ fields '(f, raw), <[f := raw]> fields) ∅ (mapOrder h)) expiresAt))
    end.

Definition hashMapForPairs (pairs : list HashFieldValue) : gmap bytes bytes * bool :=
  foldl (λ '(fields, compactEligible) pr,
    (<[pr.1 := pr.2]> fields, if pairFits pr then compactEligible else false)) (∅, true) pairs.

Definition newCompactHashFromMap (fields : gmap bytes bytes) : CompactHash :=
  foldl (λ hash '(field, value), (CompactHash_set hash field value).1) emptyCompactHash (mapOrder fields).

Definition newHashValueForPairs (now : Z) (pairs : list HashFieldValue) (expiresAt : Z) : ValueObject :=
  let '(fields, compactEligible) := hashMapForPairs pairs in
  if compactEligible && (Z.of_nat (size fields) <=? compactHashMaxEntries)
  then newCompactHashValue now (newCompactHashFromMap fields) expiresAt
  else newHashValue now fields expiresAt.

(** ** Sorted sets *)

Definition zsetLen (v : ValueObject) : result storeError Z :=
  ofKind v ValueKindZSet
    match ZSetEncoding v with
    | ValueEncodingCompact => payload (vCompactZSet v) (λ c, Ok (CompactZSet_len c))
    | ValueEncodingGeneral => payload (vZSet v) (λ s, Ok (SortedSet_len s))
    end.

Definition zsetAddGeneral (set : SortedSet) (zs : list scored) : SortedSet * Z :=
  countLoop (λ s e, SortedSet_add s e.1 e.2) set zs.

Definition compactZSetContains (set : CompactZSet) (member : bytes) : bool :=
  existsb (λ entry, CompactZSet_memberEqual set entry member) (zentries set).

Fixpoint canAddLoop (set : CompactZSet) (projectedLen : Z) (newMembers : gset bytes) (zs : list scored) : bool :=
  match zs with
  | [] => true
  | entry :: zs' =>
      if compactZSetMaxMemberLen <? zlen entry.1 then false
      else if compactZSetContains set entry.1 then canAddLoop set projectedLen newMembers zs'
      else if decide (entry.1 ∈ newMembers) then canAddLoop set projectedLen newMembers zs'
      else if compactZSetMaxEntries <? projectedLen + 1 then false
      else canAddLoop set (projectedLen + 1) ({[ entry.1 ]} ∪ newMembers) zs'
  end.

Definition compactZSetCanAdd (set : CompactZSet) (zs : list scored) : bool :=
  canAddLoop set (CompactZSet_len set) ∅ zs.

Definition compactZSetGeneralSet (compact : CompactZSet) : SortedSet :=
  foldl (λ set entry, (SortedSet_add set (CompactZSet_member compact entry) (score entry)).1)
    newSortedSet (zentries compact).

Definition upgradeCompactZSet (v : ValueObject) (c : CompactZSet) : ValueObject :=
  setZSet v (Some (compactZSetGeneralSet c)) None ValueEncodingGeneral.

Definition zsetAddUpgraded (v : ValueObject) (zs : list scored) : ValueObject * result storeError Z :=
  match vZSet v with
  | None => (v, Err errInvalidValueObjectState)
  | Some s =>
      let '(s', added) := zsetAddGeneral s zs in
      (setZSet v (Some s') (vCompactZSet v) (ZSetEncoding v), Ok added)
  end.

Definition zsetAdd (v : ValueObject) (zs : list scored) : ValueObject * result storeError Z :=
  if negb (bool_decide (Kind v = ValueKindZSet)) then (v, Err ErrWrongType)
  else
    match ZSetEncoding v with
    | ValueEncodingCompact =>
        match vCompactZSet v with
        | None => (v, Err errInvalidValueObjectState)
        | Some c =>
            if negb (compactZSetCanAdd c zs) then zsetAddUpgraded (upgradeCompactZSet v c) zs
            else
              let '(c', added) := countLoop (λ c e, CompactZSet_add c e.1 e.2) c zs in
              (setZSet v (vZSet v) (Some c') ValueEncodingCompact, Ok added)
        end
    | ValueEncodingGeneral => zsetAddUpgraded v zs
    end.

Definition zsetScore (v : ValueObject) (member : bytes) : result storeError (option float64) :=
  ofKind v ValueKindZSet
    match ZSetEncoding v with
    | ValueEncodingCompact => payload (vCompactZSet v) (λ c, Ok (CompactZSet_score c member))
    | ValueEncodingGeneral => payload (vZSet v) (λ s, Ok (SortedSet_score s member))
    end.

Definition zsetRangeByRank (v : ValueObject) (start stop : Z) : result storeError (list scored) :=
  ofKind v ValueKindZSet
    match ZSetEncoding v with
    | ValueEncodingCompact => payload (vCompactZSet v) (λ c, Ok (CompactZSet_rangeByRank c start stop))
    | ValueEncodingGeneral => payload (vZSet v) (λ s, Ok (SortedSet_rangeByRank s start stop))
    end.

Definition zsetRangeByScore (v : ValueObject) (scoreRange : ScoreRange) : result storeError (list scored) :=
  ofKind v ValueKindZSet
    match ZSetEncoding v with
    | ValueEncodingCompact => payload (vCompactZSet v) (λ c, Ok (CompactZSet_rangeByScore c scoreRange))
    | ValueEncodingGeneral => payload (vZSet v) (λ s, Ok (SortedSet_rangeByScore s scoreRange))
    end.

Definition cloneZSetValue (now : Z) (v : ValueObject) (expiresAt : Z) : result storeError ValueObject :=
  ofKind v ValueKindZSet
    match ZSetEncoding v with
    | ValueEncodingCompact => payload (cloneCompactZSet (vCompactZSet v)) (λ c, Ok (newCompactZSetValue now c expiresAt))
    | ValueEncodingGeneral => payload (vZSet v) (λ s, Ok (newZSetValue now (cloneSortedSet s) expiresAt))
    end.

Definition zsetMapForEntries (zs : list scored) : gmap bytes float64 * bool :=
  foldl (λ '(members, compactEligible) entry,
    (<[entry.1 := entry.2]> members, if compactZSetMaxMemberLen <? zlen entry.1 then false else compactEligible))
    (∅, true) zs.

Definition newCompactZSetFromMap (members : gmap bytes float64) : CompactZSet :=
  foldl (λ set '(m, sc), (CompactZSet_add set m sc).1) emptyCompactZSet (mapOrder members).

Definition newSortedSetFromMap (members : gmap bytes float64) : SortedSet :=
  foldl (λ set '(m, sc), (SortedSet_add set m sc).1) newSortedSet (mapOrder members).

Definition newZSetValueForEntries (now : Z) (zs : list scored) (expiresAt : Z) : ValueObject :=
  let '(members, compactEligible) := zsetMapForEntries zs in
  if compactEligible && (Z.of_nat (size members) <=? compactZSetMaxEntries)
  then newCompactZSetValue now (newCompactZSetFromMap members) expiresAt
  else newZSetValue now (newSortedSetFromMap members) expiresAt.

(** ** Sets *)

Definition setLen (v : ValueObject) : result storeError Z :=
  ofKind v ValueKindSet
    match SetEncoding v with
    | ValueEncodingCompact => payload (vIntSet v) (λ s, Ok (IntSet_len s))
    | ValueEncodingGeneral => payload (vSet v) (λ s, Ok (Z.of_nat (size s)))
    end.

Definition putMember (set : gset bytes) (member : bytes) : gset bytes * bool :=
  if decide (member ∈ set) then (set, false) else ({[ member ]} ∪ set, true).

Definition mustAddSetMembers (set : gset bytes) (members : list bytes) : gset bytes * Z :=
  countLoop putMember set members.

Definition setAdd (v : ValueObject) (members : list bytes) : ValueObject * result storeError Z :=
  if negb (bool_decide (Kind v = ValueKindSet)) then (v, Err ErrWrongType)
  else
    match SetEncoding v with
    | ValueEncodingCompact =>
        match vIntSet v with
        | None => (v, Err errInvalidValueObjectState)
        | Some s =>
            match IntSet_addMany s members with
            | None =>
                let '(set, added) := mustAddSetMembers (IntSet_generalSet s) members in
                (setSet v (Some set) None ValueEncodingGeneral, Ok added)
            | Some (s', added) =>
                if intSetMaxEntries <? IntSet_len s'
                then (setSet v (Some (IntSet_generalSet s')) None ValueEncodingGeneral, Ok added)
                else (setSet v (vSet v) (Some s') ValueEncodingCompact, Ok added)
            end
        end
    | ValueEncodingGeneral =>
        match vSet v with
        | None => (v, Err errInvalidValueObjectState)
        | Some set =>
            let '(set', added) := mustAddSetMembers set members in
            (setSet v (Some set') (vIntSet v) ValueEncodingGeneral, Ok added)
        end
    end.

Definition setContains (v : ValueObject) (member : bytes) : result storeError bool :=
  ofKind v ValueKindSet
    match SetEncoding v with
    | ValueEncodingCompact => payload (vIntSet v) (λ s, Ok (IntSet_contains s member))
    | ValueEncodingGeneral => payload (vSet v) (λ s, Ok (bool_decide (member ∈ s)))
    end.

Definition dropMember (set : gset bytes) (member : bytes) : gset bytes * bool :=
  if decide (member ∈ set) then (set ∖ {[ member ]}, true) else (set, false).

Definition setRemove (v : ValueObject) (members : list bytes) : ValueObject * result storeError Z :=
  if negb (bool_decide (Kind v = ValueKindSet)) then (v, Err ErrWrongType)
  else
    match SetEncoding v with
    | ValueEncodingCompact =>
        match vIntSet v with
        | None => (v, Err errInvalidValueObjectState)
        | Some s =>
            let '(s', removed) := countLoop IntSet_remove s members in
            (setSet v (vSet v) (Some s') ValueEncodingCompact, Ok removed)
        end
    | ValueEncodingGeneral =>
        match vSet v with
        | None => (v, Err errInvalidValueObjectState)
        | Some set =>
            let '(set', removed) := countLoop dropMember set members in
            (setSet v (Some set') (vIntSet v) ValueEncodingGeneral, Ok removed)
        end
    end.

Definition setMembers (v : ValueObject) : result storeError (list bytes) :=
  ofKind v ValueKindSet
    match SetEncoding v with
    | ValueEncodingCompact => payload (vIntSet v) (λ s, Ok (IntSet_members s))
    | ValueEncodingGeneral => payload (vSet v) (λ s, Ok (setOrder s))
    end.

Definition cloneSetValue (now : Z) (v : ValueObject) (expiresAt : Z) : result storeError ValueObject :=
  ofKind v ValueKindSet
    match SetEncoding v with
    | ValueEncodingCompact => payload (cloneIntSet (vIntSet v)) (λ s, Ok (newIntSetValue now s expiresAt))
    | ValueEncodingGeneral =>
        payload (vSet v) (λ s, Ok (newSetValue now (foldl (λ members m, {[ m ]} ∪ members) ∅ (setOrder s)) expiresAt))
    end.

Definition newSetValueForMembers (now : Z) (members : list bytes) (expiresAt : Z) : ValueObject :=
  match newIntSet members with
  | Some set =>
      if IntSet_len set <=? intSetMaxEntries then newIntSetValue now set expiresAt
      else newSetValue now (mustAddSetMembers ∅ members).1 expiresAt
  | None => newSetValue now (mustAddSetMembers ∅ members).1 expiresAt
  end.
End Iteration.

(** One order a Go map may be visited in. *)
Definition listOrder : MapOrder :=
  {| mapOrder := λ A m, map_to_list m; setOrder := elements;
     mapOrder_perm := λ A m, reflexivity (map_to_list m); setOrder_perm := λ X, reflexivity (elements X) |}.
