(* ===== verification/ValueFacts.v ===== *)
(** * Stored values: encodings are unobservable

    A hash, sorted set or set stands for a finite map or set whatever its
    encoding.  [hashAbs], [zsetAbs] and [setAbs] read that contents off a value;
    every operation of [collection_value.go] is characterised by its effect on
    it, the limits of the compact encodings are part of the invariant, and two
    values with the same contents cannot be told apart. *)

From S2P Require Import Prelude Strconv GoLib IntSet CompactHash Float64 CompactZSet SkipList SkipListFacts Stream.
From S2P Require Import ValueObject.

(** ** Counting loops *)

Section CountLoop.
Context {T E A : Type} (wf : T → Prop) (ok : E → Prop) (abs : T → A) (upd : A → E → A) (sz : A → Z) (d : Z).
Context (op : T → E → T * bool).
Context (Hop : ∀ s x s' b, wf s → ok x → op s x = (s', b) →
  wf s' ∧ abs s' = upd (abs s) x ∧ sz (abs s') = sz (abs s) + if b then d else 0).

Lemma countLoop_from xs : ∀ s n s' n',
  wf s → Forall ok xs →
  foldl (λ '(s, n) x, let '(s', b) := op s x in (s', if b then n + 1 else n)) (s, n) xs = (s', n') →
  wf s' ∧ abs s' = foldl upd (abs s) xs ∧ sz (abs s') = sz (abs s) + d * (n' - n).
Proof.
  induction xs as [|x xs IH]; intros s n s' n' Hwf Hok; cbn [foldl].
  { intros [= <- <-]. split_and!; [done|done|lia]. }
  apply Forall_cons in Hok as [Hx Hok]. destruct (op s x) as [s1 b] eqn:E1.
  destruct (Hop _ _ _ _ Hwf Hx E1) as (Hwf1 & Habs & Hsz). intros Heq.
  destruct (IH _ _ _ _ Hwf1 Hok Heq) as (? & -> & ->). rewrite Habs in *. split_and!; [done|done|].
  destruct b; lia.
Qed.

Lemma countLoop_spec xs s s' n :
  wf s → Forall ok xs → countLoop op s xs = (s', n) →
  wf s' ∧ abs s' = foldl upd (abs s) xs ∧ sz (abs s') = sz (abs s) + d * n.
Proof.
  intros Hwf Hok Heq. destruct (countLoop_from xs s 0 s' n Hwf Hok Heq) as (? & ? & ->).
  split_and!; [done|done|lia].
Qed.
End CountLoop.

(** ** Admission to a compact encoding *)

(** The shape [compactHashCanSet] and [compactZSetCanAdd] share. *)
Fixpoint capLoop {E} (fits : E → bool) (key : E → bytes) (present : bytes → bool) (max n : Z)
    (new : gset bytes) (xs : list E) : bool :=
  match xs with
  | [] => true
  | x :: xs' =>
      if negb (fits x) then false
      else if present (key x) then capLoop fits key present max n new xs'
      else if decide (key x ∈ new) then capLoop fits key present max n new xs'
      else if max <? n + 1 then false
      else capLoop fits key present max (n + 1) ({[ key x ]} ∪ new) xs'
  end.

Lemma capLoop_spec {E} (fits : E → bool) (key : E → bytes) (present : bytes → bool) (max : Z) (D : gset bytes) (xs : list E) : ∀ n (new : gset bytes),
  (∀ k, present k = bool_decide (k ∈ D)) → D ## new → n = Z.of_nat (size (D ∪ new)) → n ≤ max →
  capLoop fits key present max n new xs = true ↔
  Forall (λ x, fits x = true) xs ∧ Z.of_nat (size (D ∪ new ∪ list_to_set (key <$> xs))) ≤ max.
Proof.
  induction xs as [|x xs IH]; intros n new Hp Hd Hn Hmax; cbn [capLoop fmap list_fmap list_to_set].
  { rewrite (right_id_L ∅ (∪)). subst n. split; [by intros _|done]. }
  rewrite Forall_cons. destruct (fits x) eqn:Ef; cbn [negb]; [|split; [done|by intros [[? _] _]]].
  rewrite Hp. destruct (decide (key x ∈ D ∪ new)) as [Hin|Hni].
  - replace (D ∪ new ∪ ({[key x]} ∪ list_to_set (key <$> xs))) with (D ∪ new ∪ list_to_set (key <$> xs))
      by (rewrite (assoc_L (∪)), <- (assoc_L (∪) D), (comm_L (∪) new), (assoc_L (∪)); set_solver).
    assert (capLoop fits key present max n new xs = true ↔ (true = true ∧ Forall (λ x, fits x = true) xs)
      ∧ Z.of_nat (size (D ∪ new ∪ list_to_set (key <$> xs))) ≤ max) as H by (rewrite IH by done; tauto).
    case_bool_decide; [exact H|]. rewrite decide_True by set_solver. exact H.
  - rewrite bool_decide_eq_false_2, decide_False by set_solver.
    assert (size ({[key x]} ∪ (D ∪ new)) = S (size (D ∪ new))) as Hs
      by (rewrite size_union, size_singleton by set_solver; lia).
    destruct (Z.ltb_spec max (n + 1)).
    + split; [done|]. intros [_ Hle]. exfalso.
      assert (size ({[key x]} ∪ (D ∪ new)) ≤ size (D ∪ new ∪ ({[key x]} ∪ list_to_set (key <$> xs))))%nat
        by (apply subseteq_size; set_solver). lia.
    + rewrite (IH (n + 1) ({[key x]} ∪ new)); [|done|set_solver| |lia].
      * replace (D ∪ ({[key x]} ∪ new) ∪ list_to_set (key <$> xs))
          with (D ∪ new ∪ ({[key x]} ∪ list_to_set (key <$> xs))) by set_solver. tauto.
      * replace (D ∪ ({[key x]} ∪ new)) with ({[key x]} ∪ (D ∪ new)) by set_solver. lia.
Qed.

(** ** Contents and invariant *)

Definition hashAbs (v : ValueObject) : gmap bytes bytes :=
  match HashEncoding v with
  | ValueEncodingCompact => default ∅ (CompactHash_map <$> vCompactHash v)
  | ValueEncodingGeneral => default ∅ (vHash v)
  end.

Definition zsetAbs (v : ValueObject) : gmap bytes float64 :=
  match ZSetEncoding v with
  | ValueEncodingCompact => default ∅ (CompactZSet_map <$> vCompactZSet v)
  | ValueEncodingGeneral => default ∅ (index <$> vZSet v)
  end.

Definition setAbs (v : ValueObject) : gset bytes :=
  match SetEncoding v with
  | ValueEncodingCompact => default ∅ (IntSet_generalSet <$> vIntSet v)
  | ValueEncodingGeneral => default ∅ (vSet v)
  end.

(** A compact hash holds at most 8 fields of at most 64 bytes. *)
Definition HashWf (v : ValueObject) : Prop :=
  match HashEncoding v with
  | ValueEncodingCompact => ∃ c, vCompactHash v = Some c ∧ CompactHashWf c
      ∧ Z.of_nat (size (CompactHash_map c)) ≤ compactHashMaxEntries
      ∧ map_Forall (λ f raw, pairFits (f, raw) = true) (CompactHash_map c)
  | ValueEncodingGeneral => is_Some (vHash v)
  end.

Definition memberFits (m : bytes) : Prop := zlen m ≤ compactZSetMaxMemberLen.

Definition ZSetWf (v : ValueObject) : Prop :=
  match ZSetEncoding v with
  | ValueEncodingCompact => ∃ c, vCompactZSet v = Some c ∧ CompactZSetWf c
      ∧ Z.of_nat (size (CompactZSet_map c)) ≤ compactZSetMaxEntries
      ∧ map_Forall (λ m _, memberFits m) (CompactZSet_map c)
  | ValueEncodingGeneral => ∃ s, vZSet v = Some s ∧ SortedSetWf s
  end.

(** An integer set holds at most 512 members. *)
Definition SetWf (v : ValueObject) : Prop :=
  match SetEncoding v with
  | ValueEncodingCompact => ∃ s, vIntSet v = Some s ∧ IntSetWf s ∧ IntSet_len s ≤ intSetMaxEntries
  | ValueEncodingGeneral => is_Some (vSet v)
  end.

Definition ValueWf (v : ValueObject) : Prop :=
  match Kind v with
  | ValueKindString | ValueKindList => True
  | ValueKindHash => HashWf v
  | ValueKindZSet => ZSetWf v
  | ValueKindSet => SetWf v
  | ValueKindStream => is_Some (vStream v)
  end.

(** ** Hashes *)

Definition hashUpd (m : gmap bytes bytes) (pairs : list HashFieldValue) : gmap bytes bytes :=
  foldl (λ m p, <[p.1 := p.2]> m) m pairs.
Definition hashDrop (m : gmap bytes bytes) (fields : list bytes) : gmap bytes bytes :=
  foldl (λ m f, delete f m) m fields.

Definition msize {A} (m : gmap bytes A) : Z := Z.of_nat (size m).

Lemma msize_insert {A} (m : gmap bytes A) k a :
  msize (<[k := a]> m) = msize m + if bool_decide (m !! k = None) then 1 else 0.
Proof.
  unfold msize. case_bool_decide as H.
  - rewrite map_size_insert_None by done. lia.
  - destruct (m !! k) eqn:E; [|done]. rewrite map_size_insert_Some by eauto. lia.
Qed.

Lemma msize_delete {A} (m : gmap bytes A) k :
  msize (delete k m) = msize m + if bool_decide (is_Some (m !! k)) then -1 else 0.
Proof.
  unfold msize. case_bool_decide as H.
  - destruct H as [a Ha]. pose proof (map_size_insert_None k a (delete k m) (lookup_delete_eq m k)) as Hs.
    rewrite insert_delete_id in Hs by done. lia.
  - apply eq_None_not_Some in H. rewrite delete_id by done. lia.
Qed.

Lemma foldl_insert_dom {A B} (key : B → bytes) (f : gmap bytes A → B → gmap bytes A) xs : ∀ m,
  (∀ m x, dom (f m x) = {[ key x ]} ∪ dom m) → dom (foldl f m xs) = dom m ∪ list_to_set (key <$> xs).
Proof.
  induction xs as [|x xs IH]; intros m Hf; cbn [foldl fmap list_fmap list_to_set]; [by rewrite (right_id_L ∅ (∪))|].
  rewrite IH, Hf by done. rewrite (comm_L (∪) {[key x]}), (assoc_L (∪)). done.
Qed.

Lemma hashUpd_dom m pairs : dom (hashUpd m pairs) = dom m ∪ list_to_set pairs.*1.
Proof. apply foldl_insert_dom. intros. apply dom_insert_L. Qed.

Lemma hashUpd_Forall (P : bytes → bytes → Prop) pairs : ∀ m,
  map_Forall P m → Forall (λ p, P p.1 p.2) pairs → map_Forall P (hashUpd m pairs).
Proof.
  induction pairs as [|p pairs IH]; intros m Hm Hp; [done|]. apply Forall_cons in Hp as [Hx Hp].
  cbn [hashUpd foldl]. apply IH; [by apply map_Forall_insert_2|done].
Qed.

Lemma hashDrop_Forall (P : bytes → bytes → Prop) fields : ∀ m,
  map_Forall P m → map_Forall P (hashDrop m fields).
Proof.
  induction fields as [|f fields IH]; intros m Hm; [done|]. cbn [hashDrop foldl].
  apply IH. by apply map_Forall_delete.
Qed.

Lemma putLoop_spec h pairs h' n :
  hashSetGeneral h pairs = (h', n) → h' = hashUpd h pairs ∧ n = msize h' - msize h.
Proof.
  intros H. destruct (countLoop_spec (λ _, True) (λ _, True) id (λ m p, <[p.1 := p.2]> m) msize 1 putField)
    with (xs := pairs) (s := h) (s' := h') (n := n) as (_ & H1 & H2); [|done|by apply Forall_true|done|].
  - intros s x s' b _ _ Hput. unfold putField in Hput. apply pair_equal_spec in Hput as [<- <-].
    split_and!; [done|done|apply msize_insert].
  - split; [done|]. unfold id in *. lia.
Qed.

Lemma setLoop_spec c pairs c' n :
  CompactHashWf c → countLoop (λ c p, CompactHash_set c p.1 p.2) c pairs = (c', n) →
  CompactHashWf c' ∧ CompactHash_map c' = hashUpd (CompactHash_map c) pairs
  ∧ n = msize (CompactHash_map c') - msize (CompactHash_map c).
Proof.
  intros Hwf H. destruct (countLoop_spec CompactHashWf (λ _, True) CompactHash_map
    (λ m p, <[p.1 := p.2]> m) msize 1 (λ c p, CompactHash_set c p.1 p.2))
    with (xs := pairs) (s := c) (s' := c') (n := n) as (Hwf' & H1 & H2); [|done|by apply Forall_true|done|].
  - intros s x s' b Hs _ Hset. destruct (CompactHash_set_spec _ _ _ _ _ Hs Hset) as (? & Hm & ->).
    split_and!; [done|done|]. rewrite Hm. apply msize_insert.
  - split_and!; [done|done|lia].
Qed.

Lemma delLoop_spec c fields c' n :
  CompactHashWf c → countLoop CompactHash_del c fields = (c', n) →
  CompactHashWf c' ∧ CompactHash_map c' = hashDrop (CompactHash_map c) fields
  ∧ n = msize (CompactHash_map c) - msize (CompactHash_map c').
Proof.
  intros Hwf H. destruct (countLoop_spec CompactHashWf (λ _, True) CompactHash_map
    (λ m f, delete f m) msize (-1) CompactHash_del)
    with (xs := fields) (s := c) (s' := c') (n := n) as (Hwf' & H1 & H2); [|done|by apply Forall_true|done|].
  - intros s x s' b Hs _ Hset. destruct (CompactHash_del_spec _ _ _ _ Hs Hset) as (? & Hm & ->).
    split_and!; [done|done|]. rewrite Hm. apply msize_delete.
  - split_and!; [done|done|lia].
Qed.

Lemma dropLoop_spec h fields h' n :
  countLoop dropField h fields = (h', n) → h' = hashDrop h fields ∧ n = msize h - msize h'.
Proof.
  intros H. destruct (countLoop_spec (λ _, True) (λ _, True) id (λ m f, delete f m) msize (-1) dropField)
    with (xs := fields) (s := h) (s' := h') (n := n) as (_ & H1 & H2); [|done|by apply Forall_true|done|].
  - intros s x s' b _ _ Hput. unfold dropField in Hput. unfold id. pose proof (msize_delete s x) as Hd.
    destruct (s !! x) eqn:E; apply pair_equal_spec in Hput as [<- <-].
    + rewrite bool_decide_eq_true_2 in Hd by done. by split_and!.
    + rewrite bool_decide_eq_false_2 in Hd by (by intros [? ?]). rewrite delete_id in * by done. by split_and!.
  - split; [done|]. unfold id in *. lia.
Qed.

Lemma compactHashCanSet_spec c pairs :
  CompactHashWf c → msize (CompactHash_map c) ≤ compactHashMaxEntries →
  compactHashCanSet c pairs = true ↔
  Forall (λ p, pairFits p = true) pairs ∧ msize (hashUpd (CompactHash_map c) pairs) ≤ compactHashMaxEntries.
Proof.
  intros Hwf Hmax.
  assert (∀ n new, canSetLoop c n new pairs
    = capLoop pairFits fst (λ f, bool_decide (is_Some (CompactHash_get c f))) compactHashMaxEntries n new pairs) as Heq.
  { induction pairs as [|p pairs IH]; intros n new; [done|]. cbn [canSetLoop capLoop].
    rewrite !IH. destruct (negb (pairFits p)); [done|].
    destruct (CompactHash_get c p.1); [rewrite bool_decide_eq_true_2 by done|rewrite bool_decide_eq_false_2 by (by intros [? ?])]; done. }
  unfold compactHashCanSet. rewrite Heq, (capLoop_spec _ _ _ _ (dom (CompactHash_map c))).
  - unfold msize. rewrite (right_id_L ∅ (∪)), <- hashUpd_dom, size_dom. done.
  - intros k. rewrite CompactHash_get_spec by done. apply bool_decide_ext. by rewrite elem_of_dom.
  - set_solver.
  - rewrite CompactHash_len_spec by done. by rewrite (right_id_L ∅ (∪)), size_dom.
  - rewrite CompactHash_len_spec by done. exact Hmax.
Qed.

Lemma foldl_insert_list {A B} (l : list B) (k : B → bytes) (a : B → A) : ∀ m : gmap bytes A,
  NoDup (k <$> l) → (∀ x, x ∈ l → m !! k x = None) →
  foldl (λ m x, <[k x := a x]> m) m l = list_to_map ((λ x, (k x, a x)) <$> l) ∪ m.
Proof.
  induction l as [|x l IH]; intros m Hnd Hm; cbn [foldl fmap list_fmap].
  { by rewrite list_to_map_nil, map_empty_union. }
  apply NoDup_cons in Hnd as [Hx Hnd]. rewrite IH; [|done|].
  - rewrite list_to_map_cons, <- insert_union_l. symmetry. apply insert_union_r.
    apply not_elem_of_list_to_map_1. rewrite <- list_fmap_compose. done.
  - intros y Hy. rewrite lookup_insert_ne; [apply Hm; by right|].
    intros Heq. apply Hx. rewrite Heq. by apply list_elem_of_fmap_2.
Qed.

Lemma compactHashGeneralMap_spec c : CompactHashWf c → compactHashGeneralMap c = CompactHash_map c.
Proof.
  intros [_ Hnd]. unfold compactHashGeneralMap, CompactHash_map, CompactHash_all.
  rewrite (foldl_insert_list (entries c) (CompactHash_field c) (CompactHash_value c)); [apply (right_id_L ∅ (∪))| |done].
  unfold CompactHash_all in Hnd. by rewrite <- list_fmap_compose in Hnd.
Qed.

(** Close [∃ v', (v, r) = (v', Ok (.. v' ..)) ∧ ..] with the value at hand. *)
Ltac take_value He :=
  eexists; split;
  [apply pair_equal_spec; split; [reflexivity|cbn; rewrite ?He; cbn; done]
  |cbn; rewrite ?He; cbn].

(** HSET on a hash value: the contents it leaves and the count it returns. *)
Lemma hashSet_spec v pairs :
  Kind v = ValueKindHash → HashWf v →
  ∃ v', hashSet v pairs = (v', Ok (msize (hashAbs v') - msize (hashAbs v)))
    ∧ hashAbs v' = hashUpd (hashAbs v) pairs ∧ HashWf v' ∧ Kind v' = ValueKindHash ∧ ExpiresAt v' = ExpiresAt v
    ∧ LastAccessedAt v' = LastAccessedAt v.
Proof.
  intros Hk Hwf. unfold hashSet, HashWf, hashAbs in *. rewrite bool_decide_eq_true_2 by done. cbn [negb].
  destruct (HashEncoding v) eqn:He.
  - destruct Hwf as [h Hh]. unfold hashSetUpgraded. rewrite Hh.
    destruct (hashSetGeneral h pairs) as [h' n] eqn:E. apply putLoop_spec in E as [-> ->].
    take_value He. split_and!; eauto.
  - destruct Hwf as (c & Hc & Hcwf & Hmax & Hfit). rewrite Hc. cbn [fmap option_fmap option_map from_option id].
    pose proof (compactHashCanSet_spec c pairs Hcwf Hmax) as Hcan.
    destruct (compactHashCanSet c pairs); cbn [negb].
    + destruct Hcan as [Hcan _]. specialize (Hcan eq_refl) as [Hp Hle].
      destruct (countLoop _ c pairs) as [c' n] eqn:E. apply setLoop_spec in E as (Hcwf' & Hm & ->); [|done].
      take_value He. rewrite Hm. split_and!; try done. exists c'. rewrite Hm. split_and!; try done.
      apply hashUpd_Forall; [done|]. eapply Forall_impl; [exact Hp|]. by intros [? ?].
    + unfold hashSetUpgraded, upgradeCompactHash. cbn. rewrite (compactHashGeneralMap_spec c Hcwf).
      destruct (hashSetGeneral _ pairs) as [h' n] eqn:E. apply putLoop_spec in E as [-> ->].
      take_value He. split_and!; eauto.
Qed.

Lemma hashDrop_size fields : ∀ m, msize (hashDrop m fields) ≤ msize m.
Proof.
  induction fields as [|f fields IH]; intros m; cbn [hashDrop foldl]; [done|].
  specialize (IH (delete f m)). unfold hashDrop in IH. rewrite msize_delete in IH. case_bool_decide; lia.
Qed.

(** HDEL on a hash value. *)
Lemma hashDel_spec v fields :
  Kind v = ValueKindHash → HashWf v →
  ∃ v', hashDel v fields = (v', Ok (msize (hashAbs v) - msize (hashAbs v')))
    ∧ hashAbs v' = hashDrop (hashAbs v) fields ∧ HashWf v' ∧ Kind v' = ValueKindHash ∧ ExpiresAt v' = ExpiresAt v
    ∧ LastAccessedAt v' = LastAccessedAt v.
Proof.
  intros Hk Hwf. unfold hashDel, HashWf, hashAbs in *. rewrite bool_decide_eq_true_2 by done. cbn [negb].
  destruct (HashEncoding v) eqn:He.
  - destruct Hwf as [h Hh]. rewrite Hh.
    destruct (countLoop dropField h fields) as [h' n] eqn:E. apply dropLoop_spec in E as [-> ->].
    take_value He. split_and!; eauto.
  - destruct Hwf as (c & Hc & Hcwf & Hmax & Hfit). rewrite Hc. cbn [fmap option_fmap option_map from_option id].
    destruct (countLoop _ c fields) as [c' n] eqn:E. apply delLoop_spec in E as (Hcwf' & Hm & ->); [|done].
    take_value He. rewrite Hm. split_and!; try done. exists c'. rewrite Hm. split_and!; try done.
    + pose proof (hashDrop_size fields (CompactHash_map c)) as Hs. unfold msize in Hs. lia.
    + by apply hashDrop_Forall.
Qed.

(** The reads of a hash value. *)
Lemma hashLen_spec v : Kind v = ValueKindHash → HashWf v → hashLen v = Ok (msize (hashAbs v)).
Proof.
  intros Hk Hwf. unfold hashLen, ofKind, HashWf, hashAbs in *. rewrite decide_True by done.
  destruct (HashEncoding v); [by destruct Hwf as [h ->]|]. destruct Hwf as (c & -> & Hc & _). cbn.
  by rewrite CompactHash_len_spec.
Qed.

Lemma hashGet_spec v f : Kind v = ValueKindHash → HashWf v → hashGet v f = Ok (hashAbs v !! f).
Proof.
  intros Hk Hwf. unfold hashGet, ofKind, HashWf, hashAbs in *. rewrite decide_True by done.
  destruct (HashEncoding v); [by destruct Hwf as [h ->]|]. destruct Hwf as (c & -> & Hc & _). cbn.
  by rewrite CompactHash_get_spec.
Qed.

Lemma hashEntries_spec {MO : MapOrder} v :
  Kind v = ValueKindHash → HashWf v → ∃ es, hashEntries v = Ok es ∧ es ≡ₚ map_to_list (hashAbs v).
Proof.
  intros Hk Hwf. unfold hashEntries, ofKind, HashWf, hashAbs in *. rewrite decide_True by done.
  destruct (HashEncoding v); [destruct Hwf as [h ->]|destruct Hwf as (c & -> & [_ Hnd] & _)]; cbn.
  - eexists. split; [done|apply mapOrder_perm].
  - eexists. split; [done|]. unfold CompactHash_map. by rewrite map_to_list_to_map.
Qed.

(** ** Sorted sets *)

(** What the sorted-set value needs of an implementation of sorted sets; the
    packed and the skip-list representation both provide it. *)
Class ZSetImpl (T : Type) := {
  impl_wf : T → Prop;
  impl_map : T → gmap bytes float64;
  impl_list : T → list scored;
  impl_add : T → bytes → float64 → T * bool;
  impl_add_spec : ∀ s m sc s' b, impl_wf s → isNaN sc = false → impl_add s m sc = (s', b) →
    impl_wf s' ∧ impl_map s' = zadd (impl_map s) m sc ∧ b = bool_decide (impl_map s !! m = None);
  impl_list_perm : ∀ s, impl_wf s → impl_list s ≡ₚ map_to_list (impl_map s);
  impl_list_ok : ∀ s, impl_wf s → Forall scoreOk (impl_list s) ∧ ZSetOrdered (impl_list s)
}.

#[global, refine] Instance compact_ZSetImpl : ZSetImpl CompactZSet := {
  impl_wf := CompactZSetWf; impl_map := CompactZSet_map; impl_list := CompactZSet_list; impl_add := CompactZSet_add
}.
Proof.
  - intros. by eapply CompactZSet_add_spec.
  - intros s [_ Hnd _ _]. unfold CompactZSet_map. by rewrite map_to_list_to_map.
  - by intros s [_ _ ? ?].
Defined.

#[global, refine] Instance skip_ZSetImpl {C : Coins} : ZSetImpl SortedSet := {
  impl_wf := SortedSetWf; impl_map := index; impl_list := SortedSet_list; impl_add := SortedSet_add
}.
Proof.
  - intros. by eapply SortedSet_add_spec.
  - intros s Hwf. by apply SortedSet_list_Permutation.
  - intros s Hwf. destruct (SortedSetWf_list s Hwf) as (_ & ? & ? & _). done.
Defined.

Section ZSetImpl.
Context {T : Type} {I : ZSetImpl T}.

Lemma msize_zadd m k sc : msize (zadd m k sc) = msize m + if bool_decide (m !! k = None) then 1 else 0.
Proof.
  unfold zadd. pose proof (msize_insert m k sc) as Hi. destruct (m !! k) eqn:E; [|done].
  destruct (feq _ _); [|done]. rewrite bool_decide_eq_false_2 by done. lia.
Qed.

Lemma impl_addLoop_spec s zs s' n :
  impl_wf s → Forall scoreOk zs → countLoop (λ s e, impl_add s e.1 e.2) s zs = (s', n) →
  impl_wf s' ∧ impl_map s' = zaddAll (impl_map s) zs ∧ n = msize (impl_map s') - msize (impl_map s).
Proof.
  intros Hwf Hok H. destruct (countLoop_spec impl_wf scoreOk impl_map (λ m e, zadd m e.1 e.2) msize 1
    (λ s e, impl_add s e.1 e.2)) with (xs := zs) (s := s) (s' := s') (n := n) as (Hwf' & H1 & H2); [|done..|].
  - intros s0 [m sc] s1 b Hs Hx Hadd. destruct (impl_add_spec _ _ _ _ _ Hs Hx Hadd) as (? & Hm & ->).
    split_and!; [done|done|]. rewrite Hm. apply msize_zadd.
  - split_and!; [done| |lia]. rewrite H1. unfold zaddAll. generalize (impl_map s). clear.
    induction zs as [|[k sc] zs IH]; intros m; [done|]. apply IH.
Qed.

Lemma impl_addAll_spec zs : ∀ s,
  impl_wf s → Forall scoreOk zs →
  let s' := foldl (λ s '(m, sc), (impl_add s m sc).1) s zs in
  impl_wf s' ∧ impl_map s' = zaddAll (impl_map s) zs.
Proof.
  induction zs as [|[m sc] zs IH]; intros s Hwf Hok; [done|]. apply Forall_cons in Hok as [Hsc Hok].
  cbn [foldl zaddAll]. destruct (impl_add s m sc) as [s1 b] eqn:E.
  destruct (impl_add_spec _ _ _ _ _ Hwf Hsc E) as (Hwf1 & Hm & _). cbn [fst snd] in *. rewrite <- Hm. by apply IH.
Qed.

(** Adding to an empty set the entries of a map, in any order. *)
Lemma impl_fromMap (MO : MapOrder) (s0 : T) (m : gmap bytes float64) :
  impl_wf s0 → impl_map s0 = ∅ → map_Forall (λ _ sc, isNaN sc = false) m →
  let s := foldl (λ s '(k, sc), (impl_add s k sc).1) s0 (mapOrder m) in
  impl_wf s ∧ impl_map s = m.
Proof.
  intros Hwf He Hok. pose proof (mapOrder_perm m) as Hp. destruct (impl_addAll_spec (mapOrder m) s0 Hwf) as [H1 H2].
  - rewrite Hp. apply Forall_forall. intros [k sc] Hin. apply elem_of_map_to_list in Hin. by eapply Hok.
  - cbn zeta. split; [done|]. rewrite H2, He. change ∅ with (list_to_map [] : gmap bytes float64).
    assert (NoDup (mapOrder m).*1) as Hnd by (rewrite Hp; apply NoDup_fst_map_to_list).
    rewrite zaddAll_fresh by done. cbn [app].
    rewrite (list_to_map_proper (mapOrder m) (map_to_list m)) by done. apply list_to_map_to_list.
Qed.
End ZSetImpl.

(** The contents in the order ZRANGE returns it, which the map determines. *)
Lemma impl_list_unique {T U} {I : ZSetImpl T} {J : ZSetImpl U} (s : T) (u : U) :
  impl_wf s → impl_wf u → impl_map s = impl_map u → impl_list s = impl_list u.
Proof.
  intros Hs Hu Heq. destruct (impl_list_ok s Hs) as [Hok Ho]. destruct (impl_list_ok u Hu) as [_ Ho'].
  apply ordered_unique; [done| |done|done]. by rewrite (impl_list_perm s Hs), (impl_list_perm u Hu), Heq.
Qed.

Definition zsetList (v : ValueObject) : list scored :=
  match ZSetEncoding v with
  | ValueEncodingCompact => default [] (CompactZSet_list <$> vCompactZSet v)
  | ValueEncodingGeneral => default [] (SortedSet_list <$> vZSet v)
  end.

Section ZSetValue.
Context {C : Coins}.

(** The ordered entries are the members with their scores. *)
Lemma zsetList_perm v : ZSetWf v → zsetList v ≡ₚ map_to_list (zsetAbs v).
Proof.
  unfold ZSetWf, zsetList, zsetAbs. destruct (ZSetEncoding v).
  - intros (s & -> & Hs). apply (@impl_list_perm _ skip_ZSetImpl s Hs).
  - intros (c & -> & Hc & _). apply (@impl_list_perm _ compact_ZSetImpl c Hc).
Qed.

Lemma zsetList_unique v1 v2 : ZSetWf v1 → ZSetWf v2 → zsetAbs v1 = zsetAbs v2 → zsetList v1 = zsetList v2.
Proof.
  unfold ZSetWf, zsetList, zsetAbs. destruct (ZSetEncoding v1), (ZSetEncoding v2).
  - intros (s1 & -> & H1) (s2 & -> & H2). by apply (impl_list_unique (I := skip_ZSetImpl) (J := skip_ZSetImpl)).
  - intros (s1 & -> & H1) (s2 & -> & H2 & _). by apply (impl_list_unique (I := skip_ZSetImpl) (J := compact_ZSetImpl)).
  - intros (s1 & -> & H1 & _) (s2 & -> & H2). by apply (impl_list_unique (I := compact_ZSetImpl) (J := skip_ZSetImpl)).
  - intros (s1 & -> & H1 & _) (s2 & -> & H2 & _). by apply (impl_list_unique (I := compact_ZSetImpl) (J := compact_ZSetImpl)).
Qed.

Lemma zsetList_length v : ZSetWf v → zlen (zsetList v) = msize (zsetAbs v).
Proof. intros Hwf. unfold zlen, msize. rewrite (zsetList_perm v Hwf). by rewrite length_map_to_list. Qed.

Lemma zsetLen_spec v : Kind v = ValueKindZSet → ZSetWf v → zsetLen v = Ok (msize (zsetAbs v)).
Proof.
  intros Hk Hwf. unfold zsetLen, ofKind, ZSetWf, zsetAbs in *. rewrite decide_True by done.
  destruct (ZSetEncoding v); [by destruct Hwf as (s & -> & Hs)|].
  destruct Hwf as (c & -> & Hc & _). cbn. by rewrite CompactZSet_len_spec.
Qed.

Lemma zsetScore_spec v m : Kind v = ValueKindZSet → ZSetWf v → zsetScore v m = Ok (zsetAbs v !! m).
Proof.
  intros Hk Hwf. unfold zsetScore, ofKind, ZSetWf, zsetAbs in *. rewrite decide_True by done.
  destruct (ZSetEncoding v); [by destruct Hwf as (s & -> & Hs)|].
  destruct Hwf as (c & -> & Hc & _). cbn. by rewrite CompactZSet_score_spec.
Qed.

Lemma zsetRangeByRank_spec v start stop :
  Kind v = ValueKindZSet → ZSetWf v → zsetRangeByRank v start stop = Ok (rankSlice (zsetList v) start stop).
Proof.
  intros Hk Hwf. unfold zsetRangeByRank, ofKind, ZSetWf, zsetList in *. rewrite decide_True by done.
  destruct (ZSetEncoding v).
  - destruct Hwf as (s & -> & Hs). cbn [payload fmap option_fmap option_map from_option id].
    by rewrite SortedSet_rangeByRank_spec.
  - destruct Hwf as (c & -> & Hc & _). cbn [payload fmap option_fmap option_map from_option id].
    by rewrite CompactZSet_rangeByRank_spec.
Qed.

Lemma zsetRangeByScore_spec v r :
  Kind v = ValueKindZSet → ZSetWf v → zsetRangeByScore v r = Ok (scoreSlice (zsetList v) r).
Proof.
  intros Hk Hwf. unfold zsetRangeByScore, ofKind, ZSetWf, zsetList in *. rewrite decide_True by done.
  destruct (ZSetEncoding v).
  - destruct Hwf as (s & -> & Hs). cbn [payload fmap option_fmap option_map from_option id].
    by rewrite SortedSet_rangeByScore_spec.
  - destruct Hwf as (c & -> & Hc & _). cbn [payload fmap option_fmap option_map from_option id].
    by rewrite CompactZSet_rangeByScore_spec.
Qed.

Lemma zadd_dom m k sc : dom (zadd m k sc) = {[ k ]} ∪ dom m.
Proof.
  unfold zadd. destruct (m !! k) eqn:E; [|apply dom_insert_L]. destruct (feq _ _); [|apply dom_insert_L].
  apply elem_of_dom_2 in E. set_solver.
Qed.

Lemma zaddAll_dom m zs : dom (zaddAll m zs) = dom m ∪ list_to_set zs.*1.
Proof. apply foldl_insert_dom. intros m' [k sc]. apply zadd_dom. Qed.

Lemma map_Forall_dom {A} (P : bytes → Prop) (m : gmap bytes A) :
  map_Forall (λ k _, P k) m ↔ ∀ k, k ∈ dom m → P k.
Proof.
  split; intros H k.
  - intros [a Ha]%elem_of_dom. by eapply H.
  - intros a Ha. apply H. by apply elem_of_dom_2 in Ha.
Qed.

Lemma compactZSetContains_spec c m :
  CompactZSetWf c → compactZSetContains c m = bool_decide (m ∈ dom (CompactZSet_map c)).
Proof.
  intros Hwf. assert (bool_decide (m ∈ dom (CompactZSet_map c)) = bool_decide (m ∈ (CompactZSet_list c).*1)) as ->.
  { apply bool_decide_ext. unfold CompactZSet_map. rewrite dom_list_to_map_L, elem_of_list_to_set. done. }
  unfold compactZSetContains, CompactZSet_list. rewrite <- list_fmap_compose.
  apply eq_bool_prop_intro. rewrite bool_decide_spec, Is_true_true, existsb_exists, list_elem_of_fmap.
  split.
  - intros (e & He & Heq). exists e. apply list_elem_of_In in He. split; [|done]. unfold compose, rangeEntry. cbn [fst].
    unfold CompactZSet_memberEqual in Heq. bool_to_prop. symmetry. done.
  - intros (e & -> & He). exists e. split; [by apply list_elem_of_In|]. unfold compose, rangeEntry. cbn [fst].
    unfold CompactZSet_memberEqual. apply bool_decide_eq_true_2. done.
Qed.

Lemma compactZSetCanAdd_spec c zs :
  CompactZSetWf c → msize (CompactZSet_map c) ≤ compactZSetMaxEntries →
  compactZSetCanAdd c zs = true ↔
  Forall (λ e, memberFits e.1) zs ∧ msize (zaddAll (CompactZSet_map c) zs) ≤ compactZSetMaxEntries.
Proof.
  intros Hwf Hmax.
  assert (∀ n new, canAddLoop c n new zs
    = capLoop (λ e, negb (compactZSetMaxMemberLen <? zlen e.1)) fst (compactZSetContains c) compactZSetMaxEntries n new zs) as Heq.
  { induction zs as [|e zs IH]; intros n new; [done|]. cbn [canAddLoop capLoop].
    rewrite negb_involutive, !IH. done. }
  unfold compactZSetCanAdd. rewrite Heq, (capLoop_spec _ _ _ _ (dom (CompactZSet_map c))).
  - unfold msize. rewrite (right_id_L ∅ (∪)), <- zaddAll_dom, size_dom. apply and_iff_compat_r.
    apply Forall_iff. intros e. unfold memberFits. rewrite negb_true_iff, Z.ltb_ge. done.
  - intros k. by apply compactZSetContains_spec.
  - set_solver.
  - rewrite CompactZSet_len_spec by done. by rewrite (right_id_L ∅ (∪)), size_dom.
  - rewrite CompactZSet_len_spec by done. exact Hmax.
Qed.

Lemma compactZSetGeneralSet_spec c :
  CompactZSetWf c → SortedSetWf (compactZSetGeneralSet c) ∧ index (compactZSetGeneralSet c) = CompactZSet_map c.
Proof.
  intros Hwf.
  assert (compactZSetGeneralSet c = addAll newSortedSet (CompactZSet_list c)) as ->.
  { unfold compactZSetGeneralSet, addAll, CompactZSet_list. generalize newSortedSet.
    induction (zentries c) as [|e es IH]; intros s; [done|]. cbn [foldl fmap list_fmap]. by rewrite IH. }
  pose proof Hwf as [_ Hnd Hok _]. destruct (addAll_spec (CompactZSet_list c) newSortedSet newSortedSet_wf Hok) as [H1 H2].
  split; [done|]. rewrite H2. change (index newSortedSet) with (list_to_map [] : gmap bytes float64).
  by rewrite zaddAll_fresh.
Qed.

(** ZADD on a sorted-set value. *)
Lemma zsetAdd_spec v zs :
  Kind v = ValueKindZSet → ZSetWf v → Forall scoreOk zs →
  ∃ v', zsetAdd v zs = (v', Ok (msize (zsetAbs v') - msize (zsetAbs v)))
    ∧ zsetAbs v' = zaddAll (zsetAbs v) zs ∧ ZSetWf v' ∧ Kind v' = ValueKindZSet ∧ ExpiresAt v' = ExpiresAt v
    ∧ LastAccessedAt v' = LastAccessedAt v.
Proof.
  intros Hk Hwf Hok. unfold zsetAdd, ZSetWf, zsetAbs in *. rewrite bool_decide_eq_true_2 by done. cbn [negb].
  destruct (ZSetEncoding v) eqn:He.
  - destruct Hwf as (s & Hs & Hswf). unfold zsetAddUpgraded. rewrite Hs.
    destruct (zsetAddGeneral s zs) as [s' n] eqn:E.
    apply (impl_addLoop_spec (I := skip_ZSetImpl)) in E as (Hwf' & Hm & ->); [|done..].
    take_value He. split_and!; eauto.
  - destruct Hwf as (c & Hc & Hcwf & Hmax & Hfit). rewrite Hc. cbn [fmap option_fmap option_map from_option id].
    pose proof (compactZSetCanAdd_spec c zs Hcwf Hmax) as Hcan.
    destruct (compactZSetCanAdd c zs); cbn [negb].
    + destruct Hcan as [Hcan _]. specialize (Hcan eq_refl) as [Hp Hle].
      destruct (countLoop _ c zs) as [c' n] eqn:E.
      apply (impl_addLoop_spec (I := compact_ZSetImpl)) in E as (Hcwf' & Hm & ->); [|done..].
      cbn in Hm. take_value He. rewrite Hm. split_and!; try done. exists c'. rewrite Hm. split_and!; try done.
      apply map_Forall_dom. intros k. rewrite zaddAll_dom, elem_of_union, elem_of_list_to_set, list_elem_of_fmap.
      intros [Hin|(e & -> & Hin)]; [by eapply map_Forall_dom in Hfit|]. rewrite Forall_forall in Hp. by apply Hp.
    + unfold zsetAddUpgraded, upgradeCompactZSet. cbn [vZSet setZSet].
      destruct (compactZSetGeneralSet_spec c Hcwf) as [Hg Hgm].
      destruct (zsetAddGeneral _ zs) as [s' n] eqn:E.
      apply (impl_addLoop_spec (I := skip_ZSetImpl)) in E as (Hwf' & Hm & ->); [|done..].
      cbn in Hm, Hwf'. rewrite Hgm in Hm. cbn [impl_map skip_ZSetImpl]. rewrite Hgm. take_value He. split_and!; eauto.
Qed.
End ZSetValue.

(** ** Sets *)

Definition ssize (X : gset bytes) : Z := Z.of_nat (size X).

Lemma foldl_union ms : ∀ X : gset bytes, foldl (λ X m, {[ m ]} ∪ X) X ms = X ∪ list_to_set ms.
Proof.
  induction ms as [|m ms IH]; intros X; cbn [foldl list_to_set]; [by rewrite (right_id_L ∅ (∪))|].
  rewrite IH, (comm_L (∪) {[m]}), (assoc_L (∪)). done.
Qed.

Lemma foldl_difference ms : ∀ X : gset bytes, foldl (λ X m, X ∖ {[ m ]}) X ms = X ∖ list_to_set ms.
Proof.
  induction ms as [|m ms IH]; intros X; cbn [foldl list_to_set]; [by rewrite difference_empty_L|].
  rewrite IH, difference_difference_l_L. done.
Qed.

Lemma ssize_add X m : ssize ({[ m ]} ∪ X) = ssize X + if decide (m ∈ X) then 0 else 1.
Proof.
  unfold ssize. case_decide as H.
  - replace ({[m]} ∪ X) with X; [lia|]. apply set_eq. intros x. rewrite elem_of_union, elem_of_singleton. naive_solver.
  - rewrite size_union, size_singleton; [lia|]. apply disjoint_singleton_l. done.
Qed.

Lemma ssize_remove X m : ssize (X ∖ {[ m ]}) = ssize X + if decide (m ∈ X) then -1 else 0.
Proof.
  unfold ssize. case_decide as H.
  - assert (size ({[m]} ∪ (X ∖ {[m]})) = S (size (X ∖ {[m]}))) as Hs.
    { rewrite size_union, size_singleton; [done|]. apply disjoint_singleton_l. intros [_ Hn]%elem_of_difference. by apply Hn, elem_of_singleton. }
    rewrite <- union_difference_singleton_L in Hs by done. lia.
  - replace (X ∖ {[m]}) with X; [lia|]. apply set_eq. intros x. rewrite elem_of_difference, elem_of_singleton. naive_solver.
Qed.

Lemma mustAddSetMembers_spec X ms X' n :
  mustAddSetMembers X ms = (X', n) → X' = X ∪ list_to_set ms ∧ n = ssize X' - ssize X.
Proof.
  intros H. destruct (countLoop_spec (λ _, True) (λ _, True) id (λ X m, {[ m ]} ∪ X) ssize 1 putMember)
    with (xs := ms) (s := X) (s' := X') (n := n) as (_ & H1 & H2); [|done|by apply Forall_true|done|].
  - intros s x s' b _ _ Hput. unfold putMember in Hput. unfold id. pose proof (ssize_add s x) as Hs.
    case_decide as Hin; apply pair_equal_spec in Hput as [<- <-]; [|by split_and!].
    replace ({[x]} ∪ s) with s in Hs |- *; [by split_and!; [| |lia]|].
    apply set_eq. intros y. rewrite elem_of_union, elem_of_singleton. naive_solver.
  - unfold id in *. rewrite foldl_union in H1. split; [done|lia].
Qed.

Lemma dropMembers_spec X ms X' n :
  countLoop dropMember X ms = (X', n) → X' = X ∖ list_to_set ms ∧ n = ssize X - ssize X'.
Proof.
  intros H. destruct (countLoop_spec (λ _, True) (λ _, True) id (λ X m, X ∖ {[ m ]}) ssize (-1) dropMember)
    with (xs := ms) (s := X) (s' := X') (n := n) as (_ & H1 & H2); [|done|by apply Forall_true|done|].
  - intros s x s' b _ _ Hput. unfold dropMember in Hput. unfold id. pose proof (ssize_remove s x) as Hs.
    case_decide as Hin; apply pair_equal_spec in Hput as [<- <-]; [by split_and!|].
    replace (s ∖ {[x]}) with s in Hs |- *; [by split_and!; [| |lia]|].
    apply set_eq. intros y. rewrite elem_of_difference, elem_of_singleton. naive_solver.
  - unfold id in *. rewrite foldl_difference in H1. split; [done|lia].
Qed.

Lemma removeLoop_spec s ms s' n :
  IntSetWf s → countLoop IntSet_remove s ms = (s', n) →
  IntSetWf s' ∧ IntSet_generalSet s' = IntSet_generalSet s ∖ list_to_set ms
  ∧ n = ssize (IntSet_generalSet s) - ssize (IntSet_generalSet s').
Proof.
  intros Hwf H. destruct (countLoop_spec IntSetWf (λ _, True) IntSet_generalSet (λ X m, X ∖ {[ m ]}) ssize (-1) IntSet_remove)
    with (xs := ms) (s := s) (s' := s') (n := n) as (Hwf' & H1 & H2); [|done|by apply Forall_true|done|].
  - intros s0 x s1 b Hs _ Hrem. destruct (IntSet_remove_spec _ _ _ _ Hs Hrem) as (? & Hm & ->).
    split_and!; [done|done|]. rewrite Hm, ssize_remove. by case_bool_decide; case_decide.
  - rewrite foldl_difference in H1. split_and!; [done|done|lia].
Qed.

Section SetValue.
Context {MO : MapOrder}.

Lemma setLen_spec v : Kind v = ValueKindSet → SetWf v → setLen v = Ok (ssize (setAbs v)).
Proof.
  intros Hk Hwf. unfold setLen, ofKind, SetWf, setAbs in *. rewrite decide_True by done.
  destruct (SetEncoding v); [by destruct Hwf as [s ->]|]. destruct Hwf as (s & -> & Hs & _).
  cbn [payload fmap option_fmap option_map from_option id]. unfold ssize. by rewrite generalSet_size.
Qed.

Lemma setContains_spec v m : Kind v = ValueKindSet → SetWf v → setContains v m = Ok (bool_decide (m ∈ setAbs v)).
Proof.
  intros Hk Hwf. unfold setContains, ofKind, SetWf, setAbs in *. rewrite decide_True by done.
  destruct (SetEncoding v); [by destruct Hwf as [s ->]|]. destruct Hwf as (s & -> & Hs & _).
  cbn [payload fmap option_fmap option_map from_option id]. by rewrite IntSet_contains_spec.
Qed.

Lemma setMembers_spec v :
  Kind v = ValueKindSet → SetWf v → ∃ ms, setMembers v = Ok ms ∧ ms ≡ₚ elements (setAbs v).
Proof.
  intros Hk Hwf. unfold setMembers, ofKind, SetWf, setAbs in *. rewrite decide_True by done.
  destruct (SetEncoding v); [destruct Hwf as [s ->]|destruct Hwf as (s & -> & Hs & _)];
    cbn [payload fmap option_fmap option_map from_option id]; eexists; (split; [done|]).
  - apply setOrder_perm.
  - unfold IntSet_members, IntSet_generalSet. rewrite elements_list_to_set; [done|].
    destruct Hs as [Hsort Hr]. apply NoDup_fmap_2_strong; [|by apply sorted_NoDup].
    rewrite Forall_forall in Hr. intros x y Hx Hy. apply FormatInt_inj; by apply Hr.
Qed.

(** SADD on a set value. *)
Lemma setAdd_spec v ms :
  Kind v = ValueKindSet → SetWf v →
  ∃ v', setAdd v ms = (v', Ok (ssize (setAbs v') - ssize (setAbs v)))
    ∧ setAbs v' = setAbs v ∪ list_to_set ms ∧ SetWf v' ∧ Kind v' = ValueKindSet ∧ ExpiresAt v' = ExpiresAt v
    ∧ LastAccessedAt v' = LastAccessedAt v.
Proof.
  intros Hk Hwf. unfold setAdd, SetWf, setAbs in *. rewrite bool_decide_eq_true_2 by done. cbn [negb].
  destruct (SetEncoding v) eqn:He.
  - destruct Hwf as [X HX]. rewrite HX. destruct (mustAddSetMembers X ms) as [X' n] eqn:E.
    apply mustAddSetMembers_spec in E as [-> ->]. take_value He. split_and!; eauto.
  - destruct Hwf as (s & Hs & Hswf & Hmax). rewrite Hs. cbn [fmap option_fmap option_map from_option id].
    destruct (IntSet_addMany s ms) as [[s' n]|] eqn:E.
    + apply IntSet_addMany_spec in E as (Hwf' & Hu & Hlen); [|done].
      assert (n = ssize (IntSet_generalSet s') - ssize (IntSet_generalSet s)) as ->
        by (unfold ssize; rewrite !generalSet_size by done; lia).
      destruct (Z.ltb_spec intSetMaxEntries (IntSet_len s')).
      * take_value He. split_and!; eauto.
      * take_value He. split_and!; try done. by exists s'.
    + destruct (mustAddSetMembers _ ms) as [X' n] eqn:E2. apply mustAddSetMembers_spec in E2 as [-> ->].
      take_value He. split_and!; eauto.
Qed.

(** SREM on a set value. *)
Lemma setRemove_spec v ms :
  Kind v = ValueKindSet → SetWf v →
  ∃ v', setRemove v ms = (v', Ok (ssize (setAbs v) - ssize (setAbs v')))
    ∧ setAbs v' = setAbs v ∖ list_to_set ms ∧ SetWf v' ∧ Kind v' = ValueKindSet ∧ ExpiresAt v' = ExpiresAt v
    ∧ LastAccessedAt v' = LastAccessedAt v.
Proof.
  intros Hk Hwf. unfold setRemove, SetWf, setAbs in *. rewrite bool_decide_eq_true_2 by done. cbn [negb].
  destruct (SetEncoding v) eqn:He.
  - destruct Hwf as [X HX]. rewrite HX. destruct (countLoop dropMember X ms) as [X' n] eqn:E.
    apply dropMembers_spec in E as [-> ->]. take_value He. split_and!; eauto.
  - destruct Hwf as (s & Hs & Hswf & Hmax). rewrite Hs. cbn [fmap option_fmap option_map from_option id].
    destruct (countLoop IntSet_remove s ms) as [s' n] eqn:E. apply removeLoop_spec in E as (Hwf' & Hd & ->); [|done].
    take_value He. split_and!; try done. exists s'. split_and!; [done|done|].
    rewrite <- generalSet_size, Hd in * by done.
    assert (size (IntSet_generalSet s ∖ list_to_set ms) ≤ size (IntSet_generalSet s))%nat
      by (apply subseteq_size, subseteq_difference_l; done). lia.
Qed.
End SetValue.

(** ** New values and copies *)

Section NewValues.
Context {MO : MapOrder} {C : Coins}.

Lemma mapOrder_rebuild {A} (m : gmap bytes A) :
  foldl (λ fields '(f, raw), <[f := raw]> fields) ∅ (mapOrder m) = m.
Proof.
  pose proof (mapOrder_perm m) as Hp.
  assert (NoDup (mapOrder m).*1) as Hnd by (rewrite Hp; apply NoDup_fst_map_to_list).
  assert (foldl (λ fields '(f, raw), <[f := raw]> fields) ∅ (mapOrder m)
    = foldl (λ fields (p : bytes * A), <[p.1 := p.2]> fields) ∅ (mapOrder m)) as ->.
  { clear. generalize (∅ : gmap bytes A). induction (mapOrder m) as [|[f raw] l IH]; intros m0; [done|]. apply IH. }
  rewrite (foldl_insert_list (mapOrder m) fst snd) by done. rewrite map_union_empty.
  assert ((λ x : bytes * A, (x.1, x.2)) <$> mapOrder m = mapOrder m) as ->.
  { clear. induction (mapOrder m) as [|[f raw] l IH]; [done|]. cbn [fmap list_fmap]. by f_equal. }
  rewrite (list_to_map_proper (mapOrder m) (map_to_list m)) by done. apply list_to_map_to_list.
Qed.

Lemma setOrder_rebuild (X : gset bytes) : foldl (λ members m, {[ m ]} ∪ members) ∅ (setOrder X) = X.
Proof.
  rewrite foldl_union, (left_id_L ∅ (∪)). apply set_eq. intros x.
  by rewrite elem_of_list_to_set, setOrder_perm, elem_of_elements.
Qed.

Lemma mapForPairs_from pairs : ∀ (m : gmap bytes bytes) b,
  foldl (λ '(fields, compactEligible) (p : HashFieldValue),
    (<[p.1 := p.2]> fields, if pairFits p then compactEligible else false)) (m, b) pairs
  = (hashUpd m pairs, forallb pairFits pairs && b).
Proof.
  induction pairs as [|p pairs IH]; intros m b; [done|]. cbn [foldl forallb hashUpd].
  rewrite IH. f_equal. destruct (pairFits p), b; by rewrite ?andb_false_r.
Qed.

Lemma newCompactHashFromMap_spec m :
  CompactHashWf (newCompactHashFromMap m) ∧ CompactHash_map (newCompactHashFromMap m) = m.
Proof.
  assert (∀ l c, CompactHashWf c →
    let c' := foldl (λ hash '(f, raw), (CompactHash_set hash f raw).1) c l in
    CompactHashWf c' ∧ CompactHash_map c' = foldl (λ fields '(f, raw), <[f := raw]> fields) (CompactHash_map c) l) as H.
  { induction l as [|[f raw] l IH]; intros c Hc; [done|]. cbn [foldl]. destruct (CompactHash_set c f raw) as [c1 b] eqn:E.
    destruct (CompactHash_set_spec _ _ _ _ _ Hc E) as (Hc1 & <- & _). by apply IH. }
  destruct (H (mapOrder m) emptyCompactHash emptyCompactHash_wf) as [H1 H2]. split; [exact H1|].
  unfold newCompactHashFromMap. rewrite H2. apply (mapOrder_rebuild m).
Qed.

Lemma newHashValueForPairs_spec now pairs e :
  let v := newHashValueForPairs now pairs e in
  Kind v = ValueKindHash ∧ HashWf v ∧ hashAbs v = hashUpd ∅ pairs ∧ ExpiresAt v = e ∧ LastAccessedAt v = now.
Proof.
  unfold newHashValueForPairs, hashMapForPairs. rewrite mapForPairs_from, andb_true_r.
  destruct (forallb pairFits pairs && _) eqn:Ec; cbn; [|split_and!; eauto; eexists; done].
  bool_to_prop. destruct (newCompactHashFromMap_spec (hashUpd ∅ pairs)) as [H1 H2].
  split_and!; try done. eexists. rewrite H2. split_and!; try done.
  apply hashUpd_Forall; [apply map_Forall_empty|]. apply forallb_Forall in H. eapply Forall_impl; [exact H|]. by intros [? ?].
Qed.

Lemma cloneHashValue_spec now v e :
  Kind v = ValueKindHash → HashWf v →
  ∃ v', cloneHashValue now v e = Ok v' ∧ Kind v' = ValueKindHash ∧ HashWf v' ∧ hashAbs v' = hashAbs v
    ∧ ExpiresAt v' = e ∧ LastAccessedAt v' = now.
Proof.
  intros Hk Hwf. unfold cloneHashValue, ofKind, HashWf, hashAbs in *. rewrite decide_True by done.
  destruct (HashEncoding v).
  - destruct Hwf as [h ->]. eexists. split; [done|]. rewrite (mapOrder_rebuild h). cbn. split_and!; eauto.
  - destruct Hwf as (c & -> & Hc). eexists. split; [done|]. cbn. split_and!; eauto.
Qed.

Definition zsetUpd (m : gmap bytes float64) (zs : list scored) : gmap bytes float64 :=
  foldl (λ m e, <[e.1 := e.2]> m) m zs.

Lemma mapForEntries_from zs : ∀ (m : gmap bytes float64) b,
  foldl (λ '(members, compactEligible) (e : scored),
    (<[e.1 := e.2]> members, if compactZSetMaxMemberLen <? zlen e.1 then false else compactEligible)) (m, b) zs
  = (zsetUpd m zs, forallb (λ e, zlen e.1 <=? compactZSetMaxMemberLen) zs && b).
Proof.
  induction zs as [|e zs IH]; intros m b; [done|]. cbn [foldl forallb zsetUpd]. rewrite IH. f_equal.
  destruct (Z.ltb_spec compactZSetMaxMemberLen (zlen e.1)).
  - rewrite (proj2 (Z.leb_gt _ _)) by lia. by rewrite andb_false_r.
  - rewrite (proj2 (Z.leb_le _ _)) by lia. done.
Qed.

Lemma zsetUpd_dom m zs : dom (zsetUpd m zs) = dom m ∪ list_to_set zs.*1.
Proof. apply foldl_insert_dom. intros. apply dom_insert_L. Qed.

Lemma zsetUpd_ok zs : ∀ m : gmap bytes float64,
  map_Forall (λ _ sc, isNaN sc = false) m → Forall scoreOk zs → map_Forall (λ _ sc, isNaN sc = false) (zsetUpd m zs).
Proof.
  induction zs as [|e zs IH]; intros m Hm Hok; [done|]. apply Forall_cons in Hok as [He Hok].
  cbn [zsetUpd foldl]. apply IH; [by apply map_Forall_insert_2|done].
Qed.

Lemma newZSetValueForEntries_spec now zs e :
  Forall scoreOk zs →
  let v := newZSetValueForEntries now zs e in
  Kind v = ValueKindZSet ∧ ZSetWf v ∧ zsetAbs v = zsetUpd ∅ zs ∧ ExpiresAt v = e ∧ LastAccessedAt v = now.
Proof.
  intros Hok. unfold newZSetValueForEntries, zsetMapForEntries. rewrite mapForEntries_from, andb_true_r.
  pose proof (zsetUpd_ok zs ∅ (map_Forall_empty _) Hok) as Hm.
  destruct (forallb _ zs && _) eqn:Ec; cbn zeta.
  - bool_to_prop. destruct (impl_fromMap (I := compact_ZSetImpl) MO emptyCompactZSet (zsetUpd ∅ zs) emptyCompactZSet_wf eq_refl Hm) as [H1 H2].
    change (CompactZSet_map (newCompactZSetFromMap (zsetUpd ∅ zs)) = zsetUpd ∅ zs) in H2.
    split_and!; try done. eexists. split; [done|]. rewrite H2. split_and!; try done.
    apply map_Forall_dom. intros k. rewrite zsetUpd_dom, dom_empty_L, (left_id_L ∅ (∪)), elem_of_list_to_set, list_elem_of_fmap.
    intros (x & -> & Hx). apply forallb_Forall in H. rewrite Forall_forall in H. specialize (H x Hx). unfold memberFits. lia.
  - destruct (impl_fromMap (I := skip_ZSetImpl) MO newSortedSet (zsetUpd ∅ zs) newSortedSet_wf eq_refl Hm) as [H1 H2].
    split_and!; try done. eexists. by split.
Qed.

Lemma cloneZSetValue_spec now v e :
  Kind v = ValueKindZSet → ZSetWf v →
  ∃ v', cloneZSetValue now v e = Ok v' ∧ Kind v' = ValueKindZSet ∧ ZSetWf v' ∧ zsetAbs v' = zsetAbs v
    ∧ ExpiresAt v' = e ∧ LastAccessedAt v' = now.
Proof.
  intros Hk Hwf. unfold cloneZSetValue, ofKind, ZSetWf, zsetAbs in *. rewrite decide_True by done.
  destruct (ZSetEncoding v).
  - destruct Hwf as (s & -> & Hs). destruct (cloneSortedSet_spec s Hs) as (H1 & H2 & _).
    eexists. split; [done|]. cbn. split_and!; eauto.
  - destruct Hwf as (c & -> & Hc). eexists. split; [done|]. cbn. split_and!; eauto.
Qed.

Lemma newSetValueForMembers_spec now ms e :
  let v := newSetValueForMembers now ms e in
  Kind v = ValueKindSet ∧ SetWf v ∧ setAbs v = list_to_set ms ∧ ExpiresAt v = e ∧ LastAccessedAt v = now.
Proof.
  unfold newSetValueForMembers. destruct (mustAddSetMembers ∅ ms) as [X n] eqn:E.
  apply mustAddSetMembers_spec in E as [-> _]. rewrite (left_id_L ∅ (∪)).
  destruct (newIntSet ms) as [s|] eqn:Es; [|cbn; split_and!; eauto; eexists; done].
  apply newIntSet_spec in Es as [Hs Hm]. destruct (Z.leb_spec (IntSet_len s) intSetMaxEntries).
  - split_and!; try done. eexists. done.
  - cbn. split_and!; eauto; eexists; done.
Qed.

Lemma cloneSetValue_spec now v e :
  Kind v = ValueKindSet → SetWf v →
  ∃ v', cloneSetValue now v e = Ok v' ∧ Kind v' = ValueKindSet ∧ SetWf v' ∧ setAbs v' = setAbs v
    ∧ ExpiresAt v' = e ∧ LastAccessedAt v' = now.
Proof.
  intros Hk Hwf. unfold cloneSetValue, ofKind, SetWf, setAbs in *. rewrite decide_True by done.
  destruct (SetEncoding v).
  - destruct Hwf as [X ->]. eexists. split; [done|]. rewrite setOrder_rebuild. cbn. split_and!; eauto.
  - destruct Hwf as (s & -> & Hs). eexists. split; [done|]. cbn. split_and!; eauto.
Qed.
End NewValues.

(** ** Theorems *)

(** C33: A hash value is a finite map, whatever its encoding: reads agree with the
    map, HSET overwrites the pairs in order and counts the new fields, HDEL
    removes and counts the removed ones, and both keep the value well formed, the
    limits of the compact encoding (8 fields of at most 64 bytes) included. *)
Theorem hash_value_refines_map (MO : MapOrder) v pairs fields f :
  Kind v = ValueKindHash → HashWf v →
  hashGet v f = Ok (hashAbs v !! f) ∧ hashLen v = Ok (msize (hashAbs v))
  ∧ (∃ es, hashEntries v = Ok es ∧ es ≡ₚ map_to_list (hashAbs v))
  ∧ (∃ v', hashSet v pairs = (v', Ok (msize (hashUpd (hashAbs v) pairs) - msize (hashAbs v)))
       ∧ hashAbs v' = hashUpd (hashAbs v) pairs ∧ HashWf v' ∧ Kind v' = ValueKindHash)
  ∧ (∃ v', hashDel v fields = (v', Ok (msize (hashAbs v) - msize (hashDrop (hashAbs v) fields)))
       ∧ hashAbs v' = hashDrop (hashAbs v) fields ∧ HashWf v' ∧ Kind v' = ValueKindHash).
Proof.
  intros Hk Hwf. split_and!; [by apply hashGet_spec|by apply hashLen_spec|by apply hashEntries_spec|..].
  - destruct (hashSet_spec v pairs Hk Hwf) as (v' & Hv & Ha & ? & ? & _). exists v'. rewrite Hv, Ha. done.
  - destruct (hashDel_spec v fields Hk Hwf) as (v' & Hv & Ha & ? & ? & _). exists v'. rewrite Hv, Ha. done.
Qed.

Lemma hash_value_refines_map_witness :
  let v := @newHashValueForPairs listOrder 0 [(bs "a", bs "1"); (bs "b", bs "2")] 0 in
  hashGet v (bs "a") = Ok (Some (bs "1"))
  ∧ ∃ v', hashSet v [(bs "b", bs "3"); (bs "c", bs "4")] = (v', Ok 1) ∧ HashWf v'.
Proof.
  intros v. destruct (@newHashValueForPairs_spec listOrder 0 [(bs "a", bs "1"); (bs "b", bs "2")] 0) as (Hk & Hwf & Ha & _).
  destruct (hash_value_refines_map listOrder v [(bs "b", bs "3"); (bs "c", bs "4")] [] (bs "a") Hk Hwf)
    as (Hg & _ & _ & (v' & Hs & _ & Hw & _) & _).
  change v with (@newHashValueForPairs listOrder 0 [(bs "a", bs "1"); (bs "b", bs "2")] 0) in Hg, Hs.
  rewrite Ha in Hg, Hs. split; [exact Hg|]. exists v'. split; [exact Hs|exact Hw].
Defined.

(** C34: A set value is a finite set, whatever its encoding, and the integer
    encoding holds at most 512 members. *)
Theorem set_value_refines_set (MO : MapOrder) v ms m :
  Kind v = ValueKindSet → SetWf v →
  setContains v m = Ok (bool_decide (m ∈ setAbs v)) ∧ setLen v = Ok (ssize (setAbs v))
  ∧ (∃ l, setMembers v = Ok l ∧ l ≡ₚ elements (setAbs v))
  ∧ (∃ v', setAdd v ms = (v', Ok (ssize (setAbs v ∪ list_to_set ms) - ssize (setAbs v)))
       ∧ setAbs v' = setAbs v ∪ list_to_set ms ∧ SetWf v' ∧ Kind v' = ValueKindSet)
  ∧ (∃ v', setRemove v ms = (v', Ok (ssize (setAbs v) - ssize (setAbs v ∖ list_to_set ms)))
       ∧ setAbs v' = setAbs v ∖ list_to_set ms ∧ SetWf v' ∧ Kind v' = ValueKindSet).
Proof.
  intros Hk Hwf. split_and!; [by apply setContains_spec|by apply setLen_spec|by apply setMembers_spec|..].
  - destruct (setAdd_spec v ms Hk Hwf) as (v' & Hv & Ha & ? & ? & _). exists v'. rewrite Hv, Ha. done.
  - destruct (setRemove_spec v ms Hk Hwf) as (v' & Hv & Ha & ? & ? & _). exists v'. rewrite Hv, Ha. done.
Qed.

Lemma set_value_refines_set_witness :
  let v := newSetValueForMembers 0 [bs "10"; bs "7"; bs "10"] 0 in
  setContains v (bs "7") = Ok true
  ∧ ∃ v', setAdd v [bs "7"; bs "x"] = (v', Ok 1) ∧ SetWf v'.
Proof.
  intros v. destruct (newSetValueForMembers_spec 0 [bs "10"; bs "7"; bs "10"] 0) as (Hk & Hwf & Ha & _).
  destruct (set_value_refines_set listOrder v [bs "7"; bs "x"] (bs "7") Hk Hwf)
    as (Hg & _ & _ & (v' & Hs & _ & Hw & _) & _).
  change v with (newSetValueForMembers 0 [bs "10"; bs "7"; bs "10"] 0) in Hg, Hs.
  rewrite Ha in Hg, Hs. split; [exact Hg|]. exists v'. split; [exact Hs|exact Hw].
Defined.

(** C32: A sorted-set value is a map from members to scores listed by (score,
    member), whatever its encoding and whatever the coins of the skip list: ZADD
    updates the map and counts the new members, ZSCORE reads it, rank and score
    ranges are slices of the one ordered list of its entries. *)
Theorem zset_value_refines_map (C : Coins) v zs m start stop r :
  Kind v = ValueKindZSet → ZSetWf v → Forall scoreOk zs →
  zsetScore v m = Ok (zsetAbs v !! m) ∧ zsetLen v = Ok (msize (zsetAbs v))
  ∧ zsetList v ≡ₚ map_to_list (zsetAbs v) ∧ ZSetOrdered (zsetList v)
  ∧ zsetRangeByRank v start stop = Ok (rankSlice (zsetList v) start stop)
  ∧ zsetRangeByScore v r = Ok (scoreSlice (zsetList v) r)
  ∧ (∃ v', zsetAdd v zs = (v', Ok (msize (zaddAll (zsetAbs v) zs) - msize (zsetAbs v)))
       ∧ zsetAbs v' = zaddAll (zsetAbs v) zs ∧ ZSetWf v' ∧ Kind v' = ValueKindZSet).
Proof.
  intros Hk Hwf Hok.
  split_and!; [by apply zsetScore_spec|by apply zsetLen_spec|by apply zsetList_perm| |by apply zsetRangeByRank_spec
    |by apply zsetRangeByScore_spec|].
  - unfold ZSetWf, zsetList in *. destruct (ZSetEncoding v).
    + destruct Hwf as (s & -> & Hs). by apply SortedSetWf_list.
    + destruct Hwf as (c & -> & [_ _ _ Ho] & _). done.
  - destruct (zsetAdd_spec v zs Hk Hwf Hok) as (v' & Hv & Ha & ? & ? & _). exists v'. rewrite Hv, Ha. done.
Qed.

(** Nine members, one more than the compact encoding takes. *)
Definition nineMembers : list scored :=
  (λ i, (FormatInt (Z.of_nat i), floatOfZ (100 - Z.of_nat i))) <$> seq 0 9.

Lemma zset_value_refines_map_witness :
  let C : Coins := λ n, (n mod 3 =? 0)%nat in
  let v := @newZSetValueForEntries listOrder C 0 (take 8 nineMembers) 0 in
  ZSetEncoding v = ValueEncodingCompact
  ∧ zsetScore v (bs "3") = Ok (Some (floatOfZ 97))
  ∧ ∃ v', zsetAdd v nineMembers = (v', Ok 1) ∧ ZSetEncoding v' = ValueEncodingGeneral ∧ ZSetWf v'.
Proof.
  intros C v. assert (Forall scoreOk nineMembers) as Hok by (repeat constructor).
  assert (Forall scoreOk (take 8 nineMembers)) as Hok8 by (repeat constructor).
  destruct (@newZSetValueForEntries_spec listOrder C 0 (take 8 nineMembers) 0 Hok8) as (Hk & Hwf & Ha & _).
  destruct (zset_value_refines_map C v nineMembers (bs "3") 0 0 (mkScoreRange (floatOfZ 0) (floatOfZ 1) false false) Hk Hwf Hok)
    as (Hg & _ & _ & _ & _ & _ & v' & Hs & _ & Hw & _).
  split; [vm_compute; reflexivity|]. split.
  - rewrite Hg. unfold v. rewrite Ha. vm_compute. reflexivity.
  - exists v'. split_and!; [| |exact Hw].
    + etransitivity; [exact Hs|]. apply pair_equal_spec. split; [reflexivity|]. unfold v. rewrite Ha. vm_compute. reflexivity.
    + apply (f_equal fst) in Hs. cbn [fst] in Hs. rewrite <- Hs. vm_compute. reflexivity.
Defined.

(** The encoding of a sorted set is unobservable: two values with the same
    members and scores, one packed and one a skip list say, answer every read
    alike and stay indistinguishable after any ZADD. *)
Theorem zset_encoding_unobservable (C : Coins) v1 v2 zs :
  Kind v1 = ValueKindZSet → Kind v2 = ValueKindZSet → ZSetWf v1 → ZSetWf v2 →
  zsetAbs v1 = zsetAbs v2 → Forall scoreOk zs →
  zsetLen v1 = zsetLen v2 ∧ (∀ m, zsetScore v1 m = zsetScore v2 m)
  ∧ (∀ start stop, zsetRangeByRank v1 start stop = zsetRangeByRank v2 start stop)
  ∧ (∀ r, zsetRangeByScore v1 r = zsetRangeByScore v2 r)
  ∧ (zsetAdd v1 zs).2 = (zsetAdd v2 zs).2
  ∧ zsetAbs (zsetAdd v1 zs).1 = zsetAbs (zsetAdd v2 zs).1.
Proof.
  intros Hk1 Hk2 Hw1 Hw2 Ha Hok. pose proof (zsetList_unique v1 v2 Hw1 Hw2 Ha) as Hl.
  destruct (zsetAdd_spec v1 zs Hk1 Hw1 Hok) as (v1' & Hv1 & Ha1 & _).
  destruct (zsetAdd_spec v2 zs Hk2 Hw2 Hok) as (v2' & Hv2 & Ha2 & _). rewrite Hv1, Hv2, !zsetLen_spec by done. cbn [fst snd].
  split_and!; [by rewrite Ha|intros|intros|intros|by rewrite Ha1, Ha2, Ha|by rewrite Ha1, Ha2, Ha].
  - by rewrite !zsetScore_spec, Ha.
  - by rewrite !zsetRangeByRank_spec, Hl.
  - by rewrite !zsetRangeByScore_spec, Hl.
Qed.

Lemma zset_encoding_unobservable_witness :
  let C : Coins := λ n, (n mod 2 =? 0)%nat in
  let v1 := @newZSetValueForEntries listOrder C 0 (take 3 nineMembers) 0 in
  let v2 := newZSetValue 0 (addAll newSortedSet (take 3 nineMembers)) 0 in
  zsetRangeByRank v1 0 (-1) = zsetRangeByRank v2 0 (-1).
Proof.
  intros C v1 v2. assert (Forall scoreOk (take 3 nineMembers)) as Hok by (repeat constructor).
  destruct (@newZSetValueForEntries_spec listOrder C 0 (take 3 nineMembers) 0 Hok) as (Hk & Hwf & Ha & _).
  destruct (addAll_spec (take 3 nineMembers) newSortedSet newSortedSet_wf Hok) as [Hs Hi].
  assert (ZSetWf v2) as Hw2 by (exists (addAll newSortedSet (take 3 nineMembers)); split; [reflexivity|exact Hs]).
  assert (zsetAbs v1 = zsetAbs v2) as Heq.
  { unfold v1. rewrite Ha. change (zsetAbs v2) with (index (addAll newSortedSet (take 3 nineMembers))). rewrite Hi.
    apply (bool_decide_unpack _). vm_compute. exact I. }
  exact (proj1 (proj2 (proj2 (zset_encoding_unobservable C v1 v2 (take 3 nineMembers) Hk eq_refl Hwf Hw2 Heq Hok))) 0 (-1)).
Defined.
