(* ===== verification/ListWaiters.v ===== *)
(** * Waiters of blocking list pops

    Models [internal/storage/list_waiters.go]: per key, a queue of the channels
    of the clients blocked on it.  A channel is a number and holds at most one
    token ([make(chan struct{}, 1)]); [tokens] are the channels that hold one.
    A [list.Element] is identified with the channel it carries, which is pushed
    once. *)

From S2P Require Import Prelude.

Record waiterQueue := mkQueue {
  qorder : list nat;
  qindex : gset nat
}.

Record listWaiters := mkWaiters {
  waiters : gmap bytes waiterQueue;
  nextChan : nat;
  tokens : gset nat
}.

Definition newListWaiters : listWaiters := mkWaiters ∅ 0 ∅.

Definition subscribe (w : listWaiters) (key : bytes) : listWaiters * nat :=
  let queue := default (mkQueue [] ∅) (waiters w !! key) in
  let ch := nextChan w in
  (mkWaiters (<[key := mkQueue (qorder queue ++ [ch]) ({[ ch ]} ∪ qindex queue)]> (waiters w)) (S ch) (tokens w), ch).

(** [queue.order.Remove(element)] of the element that carries [ch]. *)
Definition removeChan (ch : nat) (order : list nat) : list nat := filter (λ c, c ≠ ch) order.

Definition putQueue (w : listWaiters) (key : bytes) (queue : waiterQueue) (toks : gset nat) : listWaiters :=
  mkWaiters (if decide (qorder queue = []) then delete key (waiters w) else <[key := queue]> (waiters w)) (nextChan w) toks.

Definition unsubscribe (w : listWaiters) (key : bytes) (ch : nat) : listWaiters :=
  match waiters w !! key with
  | None => w
  | Some queue =>
      if negb (bool_decide (ch ∈ qindex queue)) then w
      else putQueue w key (mkQueue (removeChan ch (qorder queue)) (qindex queue ∖ {[ ch ]})) (tokens w)
  end.

(** The non-blocking send leaves a channel that already holds a token alone. *)
Definition notifyOne (w : listWaiters) (key : bytes) : listWaiters :=
  match waiters w !! key with
  | None => w
  | Some queue =>
      match qorder queue with
      | [] => w
      | ch :: rest => putQueue w key (mkQueue rest (qindex queue ∖ {[ ch ]})) ({[ ch ]} ∪ tokens w)
      end
  end.

(** ** Invariant *)

Record QueueWf (w : listWaiters) (queue : waiterQueue) : Prop := {
  q_index : qindex queue = list_to_set (qorder queue);
  q_nodup : NoDup (qorder queue);
  q_nonempty : qorder queue ≠ [];
  q_fresh : Forall (λ ch, (ch < nextChan w)%nat ∧ ch ∉ tokens w) (qorder queue)
}.

Record WaitersWf (w : listWaiters) : Prop := {
  w_queues : map_Forall (λ _, QueueWf w) (waiters w);
  w_tokens : ∀ ch, ch ∈ tokens w → (ch < nextChan w)%nat;
  w_disjoint : ∀ k1 k2 q1 q2 ch, waiters w !! k1 = Some q1 → waiters w !! k2 = Some q2 →
    ch ∈ qorder q1 → ch ∈ qorder q2 → k1 = k2
}.

(** The clients waiting for a key, longest first. *)
Definition waiting (w : listWaiters) (key : bytes) : list nat := default [] (qorder <$> waiters w !! key).

Lemma newListWaiters_wf : WaitersWf newListWaiters.
Proof. split; cbn; [apply map_Forall_empty|set_solver|]. by intros ????? ?%lookup_empty_Some. Qed.

Lemma subscribe_wf w key : WaitersWf w → WaitersWf (subscribe w key).1.
Proof.
  intros [Hq Ht Hd]. unfold subscribe. cbn [fst].
  set (q := default _ _). assert (qindex q = list_to_set (qorder q) ∧ NoDup (qorder q)
    ∧ Forall (λ ch, (ch < nextChan w)%nat ∧ ch ∉ tokens w) (qorder q)) as (Hi & Hnd & Hf).
  { unfold q. destruct (waiters w !! key) as [q0|] eqn:E; cbn.
    - destruct (Hq _ _ E). done.
    - split_and!; [done|constructor|constructor]. }
  assert (nextChan w ∉ qorder q) as Hn.
  { intros Hin. rewrite Forall_forall in Hf. specialize (Hf _ Hin). lia. }
  split; cbn.
  - apply map_Forall_insert_2.
    + split; cbn.
      * rewrite Hi, list_to_set_app_L. cbn. rewrite (right_id_L ∅ (∪)). apply (comm_L (∪)).
      * by apply NoDup_snoc.
      * by destruct (qorder q).
      * apply Forall_app. split.
        -- eapply Forall_impl; [exact Hf|]. intros ch [? ?]. split; [lia|done].
        -- apply Forall_singleton. split; [lia|]. intros Hin. specialize (Ht _ Hin). lia.
    + intros k q' Hk. destruct (Hq _ _ Hk) as [? ? ? Hfr]. split; try done.
      eapply Forall_impl; [exact Hfr|]. cbn. intros ch [? ?]. split; [lia|done].
  - intros ch Hch. specialize (Ht ch Hch). lia.
  - assert (∀ k q0 ch, waiters w !! k = Some q0 → ch ∈ qorder q0 → ch ∈ qorder q ++ [nextChan w] → k = key) as Hcross.
    { intros k q0 ch Hk Hch Hin. apply elem_of_app in Hin as [Hin|Hin%list_elem_of_singleton].
      - unfold q in Hin. destruct (waiters w !! key) as [q1|] eqn:E; cbn in Hin; [by eapply Hd|].
        by apply elem_of_nil in Hin.
      - subst ch. destruct (Hq _ _ Hk) as [_ _ _ Hfr]. rewrite Forall_forall in Hfr. specialize (Hfr _ Hch). lia. }
    intros k1 k2 q1 q2 ch H1 H2 Hc1 Hc2.
    apply lookup_insert_Some in H1 as [[<- <-]|[Hne1 H1]]; apply lookup_insert_Some in H2 as [[<- <-]|[Hne2 H2]]; try done.
    + symmetry. by eapply Hcross.
    + by eapply Hcross.
    + by eapply Hd.
Qed.

(** Taking a channel out of its queue, with or without a token. *)
Lemma putQueue_wf w key queue order ch toks :
  WaitersWf w → waiters w !! key = Some queue → ch ∈ qorder queue →
  NoDup order → (∀ c, c ∈ order ↔ c ∈ qorder queue ∧ c ≠ ch) → toks ⊆ {[ ch ]} ∪ tokens w →
  WaitersWf (putQueue w key (mkQueue order (qindex queue ∖ {[ ch ]})) toks).
Proof.
  intros [Hq Ht Hd] Hk Hch Hnd Hord Htok. pose proof (Hq _ _ Hk) as [Hqi Hqnd Hqne Hqf]. rewrite Forall_forall in Hqf.
  assert (∀ k q, k ≠ key → waiters w !! k = Some q →
    QueueWf (mkWaiters (waiters w) (nextChan w) toks) q) as Hother.
  { intros k q Hne Hkq. destruct (Hq _ _ Hkq) as [Hi Hn He Hf]. split; try done. rewrite Forall_forall in Hf |- *.
    cbn. intros c Hc. destruct (Hf c Hc) as [? Hnt]. split; [done|]. intros Hin. apply Htok, elem_of_union in Hin as [Hin|Hin]; [|done].
    apply elem_of_singleton in Hin as ->. apply Hne. by eapply (Hd k key q queue ch). }
  unfold putQueue. cbn [qorder]. split; cbn.
  - intros k q Hkq. case_decide as Hemp.
    + apply lookup_delete_Some in Hkq as [Hne Hkq]. by destruct (Hother k q (not_eq_sym Hne) Hkq).
    + apply lookup_insert_Some in Hkq as [[<- <-]|[Hne Hkq]]; [|by destruct (Hother k q (not_eq_sym Hne) Hkq)].
      split; cbn; [|done|done|].
      * rewrite Hqi. apply set_eq. intros c. rewrite elem_of_difference, elem_of_singleton, !elem_of_list_to_set, Hord. done.
      * apply Forall_forall. intros c [Hc Hne]%Hord. destruct (Hqf c Hc) as [? Hnt]. split; [done|].
        intros Hin. apply Htok, elem_of_union in Hin as [Hin%elem_of_singleton|Hin]; done.
  - intros c Hc. apply Htok, elem_of_union in Hc as [->%elem_of_singleton|Hc]; [by apply Hqf|by apply Ht].
  - assert (∀ k q, (if decide (order = []) then delete key (waiters w)
        else <[key := mkQueue order (qindex queue ∖ {[ch]})]> (waiters w)) !! k = Some q →
      ∃ q', waiters w !! k = Some q' ∧ ∀ c, c ∈ qorder q → c ∈ qorder q') as Hsub.
    { intros k q. case_decide.
      - intros [_ ?]%lookup_delete_Some. by exists q.
      - intros [[<- <-]|[_ ?]]%lookup_insert_Some; [|by exists q]. exists queue. split; [done|]. cbn. intros c Hc. by apply Hord in Hc as [? _]. }
    intros k1 k2 q1 q2 c H1 H2 Hc1 Hc2. apply Hsub in H1 as (q1' & H1 & Hs1). apply Hsub in H2 as (q2' & H2 & Hs2).
    eapply (Hd k1 k2 q1' q2' c); auto.
Qed.

Lemma unsubscribe_wf w key ch : WaitersWf w → WaitersWf (unsubscribe w key ch).
Proof.
  intros Hwf. unfold unsubscribe. destruct (waiters w !! key) as [queue|] eqn:E; [|done].
  case_bool_decide as Hin; cbn [negb]; [|done]. pose proof (w_queues _ Hwf _ _ E) as [Hi Hnd _ _].
  rewrite Hi, elem_of_list_to_set in Hin. eapply putQueue_wf; try done.
  - by apply NoDup_filter.
  - intros c. unfold removeChan. rewrite list_elem_of_filter. tauto.
  - apply union_subseteq_r.
Qed.

Lemma notifyOne_wf w key : WaitersWf w → WaitersWf (notifyOne w key).
Proof.
  intros Hwf. unfold notifyOne. destruct (waiters w !! key) as [queue|] eqn:E; [|done].
  destruct (qorder queue) as [|ch rest] eqn:Eq; [done|]. pose proof (w_queues _ Hwf _ _ E) as [_ Hnd _ _].
  rewrite Eq in Hnd. apply NoDup_cons in Hnd as [Hni Hnd]. eapply putQueue_wf; try done.
  - rewrite Eq. by left.
  - intros c. rewrite Eq, elem_of_cons. split; [intros Hc; split; [by right|]; by intros ->|]. by intros [[->|?] ?].
Qed.

(** ** Runs *)

Inductive waiterOp := OpSubscribe (key : bytes) | OpUnsubscribe (key : bytes) (ch : nat) | OpNotify (key : bytes).

Definition waiterStep (w : listWaiters) (op : waiterOp) : listWaiters :=
  match op with
  | OpSubscribe key => (subscribe w key).1
  | OpUnsubscribe key ch => unsubscribe w key ch
  | OpNotify key => notifyOne w key
  end.

Definition waiterRun (ops : list waiterOp) : listWaiters := foldl waiterStep newListWaiters ops.

Lemma waiterRun_wf ops : WaitersWf (waiterRun ops).
Proof.
  unfold waiterRun. pose proof newListWaiters_wf as Hwf. revert Hwf. generalize newListWaiters.
  induction ops as [|[] ops IH]; intros w Hwf; cbn [foldl waiterStep]; [done|..]; apply IH;
    auto using subscribe_wf, unsubscribe_wf, notifyOne_wf.
Qed.

Lemma putQueue_waiting w key order idx toks k :
  waiting (putQueue w key (mkQueue order idx) toks) k = if decide (k = key) then order else waiting w k.
Proof.
  unfold waiting, putQueue. cbn. case_decide as He; case_decide as Hk; subst.
  - by rewrite lookup_delete_eq.
  - by rewrite lookup_delete_ne.
  - by rewrite lookup_insert_eq.
  - by rewrite lookup_insert_ne.
Qed.

(** Blocked clients are served first come, first served, and nobody is woken
    twice or after leaving: in every reachable state a subscription joins the end
    of its key's queue, cancelling removes just that client, and a push wakes the
    longest-waiting client of that key, takes it off the queue and touches no
    other; a client that was woken is on no queue any more. *)
Theorem waiters_fifo ops key :
  let w := waiterRun ops in
  waiting (subscribe w key).1 key = waiting w key ++ [(subscribe w key).2]
  ∧ (∀ ch, waiting (unsubscribe w key ch) key = filter (λ c, c ≠ ch) (waiting w key))
  ∧ waiting (notifyOne w key) key = List.tl (waiting w key)
  ∧ tokens (notifyOne w key) = match waiting w key with ch :: _ => {[ ch ]} ∪ tokens w | [] => tokens w end
  ∧ (∀ k, k ≠ key → waiting (notifyOne w key) k = waiting w k)
  ∧ (∀ k ch, ch ∈ tokens w → ch ∉ waiting w k).
Proof.
  intros w. pose proof (waiterRun_wf ops) as Hwf. fold w in Hwf. split_and!.
  - unfold waiting, subscribe. cbn [fst snd waiters]. rewrite lookup_insert_eq. cbn. by destruct (waiters w !! key).
  - intros ch. unfold unsubscribe. destruct (waiters w !! key) as [queue|] eqn:E; [|unfold waiting; by rewrite E].
    assert (waiting w key = qorder queue) as Hw by (unfold waiting; by rewrite E).
    case_bool_decide as Hin; cbn [negb].
    + rewrite putQueue_waiting, decide_True, Hw by done. done.
    + rewrite (q_index _ _ (w_queues _ Hwf _ _ E)), elem_of_list_to_set in Hin. rewrite Hw. symmetry.
      clear -Hin. induction (qorder queue) as [|c l IH]; [done|]. rewrite filter_cons.
      rewrite decide_True by (intros ->; apply Hin; by left). f_equal. apply IH. intros ?. apply Hin. by right.
  - unfold notifyOne. destruct (waiters w !! key) as [queue|] eqn:E; [|unfold waiting; by rewrite E].
    assert (waiting w key = qorder queue) as Hw by (unfold waiting; by rewrite E).
    destruct (qorder queue) as [|ch rest]; [by rewrite Hw|]. by rewrite putQueue_waiting, decide_True, Hw.
  - unfold notifyOne, waiting. destruct (waiters w !! key) as [queue|]; [|done]. cbn. by destruct (qorder queue).
  - intros k Hne. unfold notifyOne. destruct (waiters w !! key) as [queue|] eqn:E; [|done].
    destruct (qorder queue) as [|ch rest]; [done|]. by rewrite putQueue_waiting, decide_False.
  - intros k ch Hch Hin. unfold waiting in Hin. destruct (waiters w !! k) as [queue|] eqn:E; [|by apply elem_of_nil in Hin].
    pose proof (q_fresh _ _ (w_queues _ Hwf _ _ E)) as Hf. rewrite Forall_forall in Hf. by destruct (Hf ch Hin).
Qed.
