(* ===== verification/Store.v ===== *)
(** * The store: state, accounting, eviction and key access

    Models [shard.go], [stats.go], [memory.go], [eviction.go] and the state of
    [store.go] in [internal/storage].  The store is a record; an operation is a
    state-passing computation ([M]) over it, run as one step: every operation
    takes the locks of the shards it touches, and [readKey] alone gives one up
    before it takes another, to reclaim an expired key after checking it again.

    Clock readings come one after the other from [clock] (nanoseconds), and the
    store counts them in [ticks]: each call of [time.Now()] is one reading, so
    an operation may see time pass between two of them.  Sizes are sums of
    lengths of data held in memory and are not wrapped. *)

From S2P Require Import Prelude Strconv GoLib IntSet CompactHash Float64 CompactZSet SkipList Stream ValueObject.
From S2P Require Import ListWaiters.

(** What the store takes from outside: the order of map iteration, the coins of
    the skip lists, the seeded hash [maphash.String] and the clock. *)
Class Env := {
  env_order :: MapOrder;
  env_coins :: Coins;
  seedHash : bytes → Z;
  clock : nat → Z
}.

Definition defaultShardCount : Z := 256.
Definition defaultSampleSize : Z := 20.
Definition keyStatsKinds : list ValueKind :=
  [ValueKindString; ValueKindList; ValueKindHash; ValueKindSet; ValueKindZSet; ValueKindStream].

(** [Shard]: its data; the lock is implicit. *)
Abbreviation Shard := (gmap bytes ValueObject).

Record Store := mkStore {
  shards : list Shard;
  storeWaiters : listWaiters;
  (** [expirationListener]: set or nil, and the batches it was called with. *)
  hasListener : bool;
  published : list (list bytes);
  pendingExpired : list bytes;
  usedMemory : Z;
  keyKindCounts : list Z;
  maxMemory : Z;
  memoryEvictionSampleSize : Z;
  ticks : nat
}.

(** ** State-passing computations *)

Definition M (A : Type) : Type := Store → A * Store.
Definition ret {A} (a : A) : M A := λ s, (a, s).
Definition bind {A B} (m : M A) (k : A → M B) : M B := λ s, let '(a, s') := m s in k a s'.
Definition modify (f : Store → Store) : M unit := λ s, (tt, f s).
Definition gets {A} (f : Store → A) : M A := λ s, (f s, s).

Notation "'let!' x ':=' m 'in' k" := (bind m (λ x, k))
  (at level 10, x pattern, m at level 100, k at level 200) : go_scope.
Notation "m ';;' k" := (bind m (λ _, k)) (at level 100, k at level 200, right associativity) : go_scope.

(** Continue with the value of a call, or return its error. *)
Definition bindR {E A B} (m : M (result E A)) (k : A → M (result E B)) : M (result E B) :=
  bind m (λ r, match r with Ok a => k a | Err e => ret (Err e) end).
Notation "'let!?' x ':=' m 'in' k" := (bindR m (λ x, k))
  (at level 10, x pattern, m at level 100, k at level 200) : go_scope.

(** ** Field updates *)

Definition setShards (sh : list Shard) (s : Store) : Store :=
  mkStore sh (storeWaiters s) (hasListener s) (published s) (pendingExpired s) (usedMemory s)
    (keyKindCounts s) (maxMemory s) (memoryEvictionSampleSize s) (ticks s).
Definition setWaiters (w : listWaiters) (s : Store) : Store :=
  mkStore (shards s) w (hasListener s) (published s) (pendingExpired s) (usedMemory s)
    (keyKindCounts s) (maxMemory s) (memoryEvictionSampleSize s) (ticks s).
Definition setPublished (p : list (list bytes)) (pe : list bytes) (s : Store) : Store :=
  mkStore (shards s) (storeWaiters s) (hasListener s) p pe (usedMemory s)
    (keyKindCounts s) (maxMemory s) (memoryEvictionSampleSize s) (ticks s).
Definition setUsed (u : Z) (s : Store) : Store :=
  mkStore (shards s) (storeWaiters s) (hasListener s) (published s) (pendingExpired s) u
    (keyKindCounts s) (maxMemory s) (memoryEvictionSampleSize s) (ticks s).
Definition setCounts (c : list Z) (s : Store) : Store :=
  mkStore (shards s) (storeWaiters s) (hasListener s) (published s) (pendingExpired s) (usedMemory s)
    c (maxMemory s) (memoryEvictionSampleSize s) (ticks s).
Definition setLimits (limit sample : Z) (s : Store) : Store :=
  mkStore (shards s) (storeWaiters s) (hasListener s) (published s) (pendingExpired s) (usedMemory s)
    (keyKindCounts s) limit sample (ticks s).
Definition setListener (b : bool) (s : Store) : Store :=
  mkStore (shards s) (storeWaiters s) b (published s) (pendingExpired s) (usedMemory s)
    (keyKindCounts s) (maxMemory s) (memoryEvictionSampleSize s) (ticks s).
Definition tick (s : Store) : Store :=
  mkStore (shards s) (storeWaiters s) (hasListener s) (published s) (pendingExpired s) (usedMemory s)
    (keyKindCounts s) (maxMemory s) (memoryEvictionSampleSize s) (S (ticks s)).

Definition newShards (count : Z) : list Shard :=
  replicate (Z.to_nat (if count <=? 0 then defaultShardCount else count)) ∅.

Definition storeOfShards (sh : list Shard) : Store :=
  mkStore sh newListWaiters false [] [] 0 (replicate 6 0) 0 0 0.

Definition NewStore : Store := storeOfShards (newShards defaultShardCount).

Definition SetExpirationListener (listener : bool) : M unit := modify (setListener listener).

Section Env.
Context {E : Env}.

(** [time.Now().UnixNano()] and [time.Now().UnixMilli()]. *)
Definition nowNano : M Z := λ s, (clock (ticks s), tick s).
Definition nowMilli : M Z := λ s, (clock (ticks s) / 1000000, tick s).

(** ** Shards *)

Definition shardIndex (s : Store) (key : bytes) : nat := Z.to_nat (seedHash key mod zlen (shards s)).

Definition shardAt (s : Store) (i : nat) : Shard := default ∅ (shards s !! i).

(** [s.shardForKey(key).data[key]]. *)
Definition lookupKey (s : Store) (key : bytes) : option ValueObject := shardAt s (shardIndex s key) !! key.

Definition putShard (i : nat) (data : Shard) (s : Store) : Store := setShards (<[i := data]> (shards s)) s.

(** A change of the value stored under a key, where it lies. *)
Definition updateInPlace (key : bytes) (v : ValueObject) (s : Store) : Store :=
  let i := shardIndex s key in putShard i (<[key := v]> (shardAt s i)) s.

Definition isExpired (v : ValueObject) (now : Z) : bool := (0 <? ExpiresAt v) && (ExpiresAt v <? now).

(** ** stats.go *)

Fixpoint kindIndexLoop (kind : ValueKind) (kinds : list ValueKind) (i : nat) : option nat :=
  match kinds with
  | [] => None
  | candidate :: kinds' => if decide (kind = candidate) then Some i else kindIndexLoop kind kinds' (S i)
  end.
Definition keyStatsKindIndex (kind : ValueKind) : option nat := kindIndexLoop kind keyStatsKinds 0.

Definition adjustKeyKindCount (value : option ValueObject) (delta : Z) (s : Store) : Store :=
  match value with
  | None => s
  | Some v =>
      match keyStatsKindIndex (Kind v) with
      | Some i => setCounts (alter (Z.add delta) i (keyKindCounts s)) s
      | None => s
      end
  end.

Definition setKeyLocked (shard : nat) (key : bytes) (value : ValueObject) (s : Store) : Store :=
  let previous := shardAt s shard !! key in
  let s :=
    if match previous with None => true | Some p => negb (bool_decide (Kind p = Kind value)) end
    then adjustKeyKindCount (Some value) 1 (adjustKeyKindCount previous (-1) s)
    else s in
  putShard shard (<[key := value]> (shardAt s shard)) s.

Definition removeKeyLocked (shard : nat) (key : bytes) (s : Store) : Store :=
  let s := adjustKeyKindCount (shardAt s shard !! key) (-1) s in
  putShard shard (delete key (shardAt s shard)) s.

Record KeyStats := mkKeyStats { TotalKeys : Z; ByKind : list (ValueKind * Z) }.

Definition store_KeyStats (s : Store) : KeyStats :=
  mkKeyStats (foldl Z.add 0 (take 6 (keyKindCounts s))) (zip keyStatsKinds (keyKindCounts s)).

Definition countKind (counts : list Z) (v : ValueObject) : list Z :=
  match keyStatsKindIndex (Kind v) with Some i => alter (Z.add 1) i counts | None => counts end.

Definition recalculateKeyStatsLocked (s : Store) : Store :=
  setCounts (foldl (λ counts (shard : Shard), foldl countKind counts (mapOrder shard).*2) (replicate 6 0) (shards s)) s.

(** ** Expired keys and their listener *)

Definition noteExpiredKeysLocked (keys : list bytes) (s : Store) : Store :=
  match keys with [] => s | _ => setPublished (published s) (pendingExpired s ++ keys) s end.

Definition publishExpiredKeys (s : Store) : Store :=
  match pendingExpired s with
  | [] => s
  | pending => setPublished (if hasListener s then published s ++ [pending] else published s) [] s
  end.

(** ** memory.go: sizes *)

Definition approxValueObjectOverhead : Z := 48.
Definition approxCollectionOverhead : Z := 32.
Definition approxListEntryOverhead : Z := 16.
Definition approxHashEntryOverhead : Z := 24.
Definition approxSetEntryOverhead : Z := 16.
Definition approxZSetEntryOverhead : Z := 24.
Definition approxStreamEntryOverhead : Z := 32.

Definition sumZ (l : list Z) : Z := foldl Z.add 0 l.

Definition approximateBaseValueObjectSize (key : bytes) (expiresAt : Z) : Z :=
  approxValueObjectOverhead + zlen key + (if 0 <? expiresAt then 8 else 0).

Definition approximateStringValueObjectSize (key : bytes) (length expiresAt : Z) : Z :=
  approximateBaseValueObjectSize key expiresAt + length.

Definition approximateValueSize (key : bytes) (v : ValueObject) : Z :=
  let base := approximateBaseValueObjectSize key (ExpiresAt v) in
  match Kind v with
  | ValueKindString => approximateStringValueObjectSize key (zlen (vString v)) (ExpiresAt v)
  | ValueKindList => base + (approxCollectionOverhead + zlen (vList v) * approxListEntryOverhead) + sumZ (zlen <$> vList v)
  | ValueKindHash =>
      base + approxCollectionOverhead +
      match HashEncoding v with
      | ValueEncodingCompact =>
          match vCompactHash v with
          | Some c => zlen (entries c) * approxHashEntryOverhead + zlen (arena c)
          | None => 0
          end
      | ValueEncodingGeneral =>
          let h := default ∅ (vHash v) in
          Z.of_nat (size h) * approxHashEntryOverhead + sumZ ((λ '(f, raw), zlen f + zlen raw) <$> mapOrder h)
      end
  | ValueKindSet =>
      base + approxCollectionOverhead +
      match SetEncoding v with
      | ValueEncodingCompact => match vIntSet v with Some c => IntSet_len c * 8 | None => 0 end
      | ValueEncodingGeneral =>
          let X := default ∅ (vSet v) in
          Z.of_nat (size X) * approxSetEntryOverhead + sumZ (zlen <$> setOrder X)
      end
  | ValueKindZSet =>
      base + approxCollectionOverhead +
      match ZSetEncoding v with
      | ValueEncodingCompact =>
          match vCompactZSet v with
          | Some c => zlen (zentries c) * approxZSetEntryOverhead + zlen (zarena c)
          | None => 0
          end
      | ValueEncodingGeneral =>
          match vZSet v with
          | Some z => Z.of_nat (size (index z)) * approxZSetEntryOverhead + sumZ ((λ p : bytes * float64, zlen p.1) <$> mapOrder (index z))
          | None => 0
          end
      end
  | ValueKindStream =>
      base + approxCollectionOverhead +
      match vStream v with
      | Some st => zlen (sentries st) * approxStreamEntryOverhead
          + sumZ ((λ r, zlen (idText r) + sumZ (zlen <$> svalues r)) <$> sentries st)
      | None => 0
      end
  end.

(** [approximateValueObjectSize], 0 for a nil value. *)
Definition approximateValueObjectSize (key : bytes) (value : option ValueObject) : Z :=
  match value with None => 0 | Some v => approximateValueSize key v end.

Definition maxMemoryEnabled (s : Store) : bool := 0 <? maxMemory s.

(** ** memory.go: deletion *)

Definition deleteKeyWithSizeLocked (shard : nat) (key : bytes) (size : Z) (s : Store) : bool * Store :=
  match shardAt s shard !! key with
  | None => (false, s)
  | Some _ =>
      let s := if maxMemoryEnabled s then setUsed (usedMemory s - size) s else s in
      (true, removeKeyLocked shard key s)
  end.

Definition deleteKeyLocked (shard : nat) (key : bytes) (s : Store) : bool * Store :=
  match shardAt s shard !! key with
  | None => (false, s)
  | Some v =>
      deleteKeyWithSizeLocked shard key (if maxMemoryEnabled s then approximateValueSize key v else 0) s
  end.

Definition prepareExistingValueLocked (key : bytes) (now : Z) : M (option ValueObject) := λ s,
  match lookupKey s key with
  | Some v => if isExpired v now then (None, (deleteKeyLocked (shardIndex s key) key s).2) else (Some v, s)
  | None => (None, s)
  end.

Definition dropIfStillExpired (key : bytes) : M unit :=
  let! value := gets (λ s, lookupKey s key) in
  match value with
  | Some v =>
      let! now := nowMilli in
      if isExpired v now then modify (λ s, (deleteKeyLocked (shardIndex s key) key s).2) else ret tt
  | None => ret tt
  end.

(** ** memory.go: accounting and eviction *)

(** One key of the loop of [recalculateUsedMemoryLocked]. *)
Definition recalcKey (now : Z) (shard : nat) (st : Store * Z * list bytes) (entry : bytes * ValueObject)
    : Store * Z * list bytes :=
  let '(s, used, expired) := st in
  let '(key, v) := entry in
  if isExpired v now then (removeKeyLocked shard key s, used, expired ++ [key])
  else (s, used + approximateValueSize key v, expired).

Definition recalcShard (now : Z) (st : Store * Z * list bytes) (shard : nat) : Store * Z * list bytes :=
  foldl (recalcKey now shard) st (mapOrder (shardAt st.1.1 shard)).

Definition recalculateUsedMemoryLocked (now : Z) (s : Store) : Z * Store :=
  let '(s, used, expired) := foldl (recalcShard now) (s, 0, []) (seq 0 (length (shards s))) in
  (used, noteExpiredKeysLocked expired (setUsed used s)).

Definition totalEvictableMemoryLocked (s : Store) (protected : gset bytes) : Z :=
  foldl (λ total (shard : Shard),
    foldl (λ total '(key, v), if decide (key ∈ protected) then total else total + approximateValueSize key v)
      total (mapOrder shard)) 0 (shards s).

(** The keys of consecutive shards from [start] on, until there are [limit]. *)
Definition collectKeys (s : Store) (start limit : Z) : list bytes :=
  foldl (λ keys offset,
    if zlen keys <? limit
    then let i := Z.to_nat (Z.rem (start + Z.of_nat offset) (zlen (shards s))) in
         keys ++ ztake (limit - zlen keys) (mapOrder (shardAt s i)).*1
    else keys) [] (seq 0 (length (shards s))).

Definition sampleKeysLocked (limit : Z) : M (list bytes) :=
  if limit <=? 0 then ret []
  else
    let! nano := nowNano in
    gets (λ s, collectKeys s (Z.rem nano (zlen (shards s))) limit).

Definition maxInt64Value : Z := max_int64.

(** [if accessedAt < stalestAt { stalestAt = accessedAt; stalestKey = key }]. *)
Definition stalest (protected : gset bytes) (st : bytes * Z) (entry : bytes * ValueObject) : bytes * Z :=
  let '(stalestKey, stalestAt) := st in
  let '(key, v) := entry in
  if decide (key ∈ protected) then st
  else if lastAccessed v <? stalestAt then (key, lastAccessed v) else st.

Definition sampledStalest (s : Store) (protected : gset bytes) (sampled : list bytes) : bytes * Z :=
  foldl (λ st key, match lookupKey s key with Some v => stalest protected st (key, v) | None => st end)
    ([], maxInt64Value) sampled.

Definition findStalestCandidateLocked (protected : gset bytes) : M bytes :=
  let! limit := gets memoryEvictionSampleSize in
  let! sampled := sampleKeysLocked limit in
  gets (λ s,
    let st := sampledStalest s protected sampled in
    if negb (bool_decide (st.1 = [])) then st.1
    else (foldl (λ st (shard : Shard), foldl (stalest protected) st (mapOrder shard)) st (shards s)).1).

(** The keys still there bound the rounds: each one deletes a key or ends the
    loop. *)
Fixpoint evictLoop (fuel : nat) (targetUsed : Z) (protected : gset bytes) (evicted : list bytes) : M (list bytes) :=
  match fuel with
  | O => ret evicted
  | S fuel' =>
      let! used := gets usedMemory in
      if used <=? targetUsed then ret evicted
      else
        let! candidate := findStalestCandidateLocked protected in
        if decide (candidate = []) then ret evicted
        else
          let! deleted := λ s, deleteKeyLocked (shardIndex s candidate) candidate s in
          evictLoop fuel' targetUsed protected (if deleted then evicted ++ [candidate] else evicted)
  end.

Definition totalKeyCountLocked (s : Store) : Z := foldl (λ total (shard : Shard), total + Z.of_nat (size shard)) 0 (shards s).

Definition evictUntilMemoryAtOrBelowLocked (targetUsed : Z) (protected : gset bytes)
    : M (result storeError (list bytes)) :=
  let! keys := gets totalKeyCountLocked in
  let! evicted := evictLoop (S (Z.to_nat keys)) targetUsed protected [] in
  let! used := gets usedMemory in
  if targetUsed <? used then ret (Err ErrMemoryLimitExceeded) else ret (Ok evicted).

Definition ensureMemoryAvailableLocked (delta : Z) (protected : gset bytes) : M (result storeError (list bytes)) :=
  let! enabled := gets maxMemoryEnabled in
  if negb enabled || (delta <=? 0) then ret (Ok [])
  else
    let! now := nowMilli in
    let! current := recalculateUsedMemoryLocked now in
    let! limit := gets maxMemory in
    let targetUsed := limit - delta in
    if targetUsed <? 0 then ret (Err ErrMemoryLimitExceeded)
    else if current <=? targetUsed then ret (Ok [])
    else
      let! evictable := gets (λ s, totalEvictableMemoryLocked s protected) in
      if targetUsed <? current - evictable then ret (Err ErrMemoryLimitExceeded)
      else evictUntilMemoryAtOrBelowLocked targetUsed protected.

(** [protectedKeys(key)]. *)
Definition protectedKeys (keys : list bytes) : gset bytes := list_to_set keys.

Definition commitValueWithEvictionLocked (key : bytes) (oldValue : option ValueObject) (newValue : ValueObject)
    : M (result storeError (list bytes)) :=
  let oldSize := approximateValueObjectSize key oldValue in
  let newSize := approximateValueObjectSize key (Some newValue) in
  let!? evicted := ensureMemoryAvailableLocked (newSize - oldSize) (protectedKeys [key]) in
  modify (λ s, setKeyLocked (shardIndex s key) key newValue s);;
  modify (λ s, setUsed (usedMemory s + (newSize - oldSize)) s);;
  ret (Ok evicted).

Definition commitStringWithEvictionLocked (key : bytes) (oldValue : option ValueObject) (length expiresAt now : Z)
    (fill : bytes → bytes) : M (result storeError (list bytes)) :=
  let oldSize := approximateValueObjectSize key oldValue in
  let newSize := approximateStringValueObjectSize key length expiresAt in
  let!? evicted := ensureMemoryAvailableLocked (newSize - oldSize) (protectedKeys [key]) in
  let payload := fill (replicate (Z.to_nat length) x00) in
  let! stamp := nowMilli in
  let newValue := touch (newOwnedStringValue stamp payload expiresAt) now in
  modify (λ s, setKeyLocked (shardIndex s key) key newValue s);;
  modify (λ s, setUsed (usedMemory s + (newSize - oldSize)) s);;
  ret (Ok evicted).

Definition ConfigureMaxMemory (limit sampleSize : Z) : M unit :=
  let limit := if limit <? 0 then 0 else limit in
  let sampleSize := if sampleSize <=? 0 then defaultSampleSize else sampleSize in
  modify (setLimits limit sampleSize);;
  (if 0 <? limit then let! now := nowMilli in let! _ := recalculateUsedMemoryLocked now in ret tt
   else modify (setUsed 0));;
  modify publishExpiredKeys.

Definition EnforceMaxMemory : M (result storeError (list bytes)) :=
  let! enabled := gets maxMemoryEnabled in
  if negb enabled then ret (Ok [])
  else
    let! limit := gets maxMemory in
    let! now := nowMilli in
    let! _ := recalculateUsedMemoryLocked now in
    let! used := gets usedMemory in
    let! r := (if used <=? limit then ret (Ok []) else evictUntilMemoryAtOrBelowLocked limit ∅) in
    modify publishExpiredKeys;;
    ret r.

(** ** shard.go: access to one key *)

(** [fn] runs on the live value; [Ok None] is not found. *)
Definition readKey {T} (key : bytes) (fn : ValueObject → result storeError T) : M (result storeError (option T)) :=
  let! now := nowMilli in
  let! value := gets (λ s, lookupKey s key) in
  match value with
  | None => ret (Ok None)
  | Some v =>
      if isExpired v now then dropIfStillExpired key;; ret (Ok None)
      else
        match fn v with
        | Err e => ret (Err e)
        | Ok r => modify (updateInPlace key (touch v now));; ret (Ok (Some r))
        end
  end.

Record keyWrite := mkKeyWrite {
  wkey : bytes;
  wcurrent : option ValueObject;
  wnow : Z;
  waccounting : bool
}.

Definition commit (w : keyWrite) (newValue : ValueObject) : M (result storeError (list bytes)) :=
  if waccounting w then commitValueWithEvictionLocked (wkey w) (wcurrent w) newValue
  else modify (λ s, setKeyLocked (shardIndex s (wkey w)) (wkey w) newValue s);; ret (Ok []).

Definition commitString (w : keyWrite) (length expiresAt : Z) (fill : bytes → bytes) : M (result storeError (list bytes)) :=
  if waccounting w then commitStringWithEvictionLocked (wkey w) (wcurrent w) length expiresAt (wnow w) fill
  else
    let payload := fill (replicate (Z.to_nat length) x00) in
    let! stamp := nowMilli in
    commit w (touch (newOwnedStringValue stamp payload expiresAt) (wnow w)).

Definition writeKey {T} (key : bytes) (fn : keyWrite → M (result storeError (T * list bytes)))
    : M (result storeError (T * list bytes)) :=
  let! now := nowMilli in
  let! accounting := gets maxMemoryEnabled in
  let! current := prepareExistingValueLocked key now in
  let! r := fn (mkKeyWrite key current now accounting) in
  (if accounting then modify publishExpiredKeys else ret tt);;
  ret r.

(** ** Keys by shard *)

(** [groupKeysByShard]: a counting sort; [next] are the write positions. *)
Record shardKeyGroups := mkGroups { gcounts : list nat; goffsets : list nat; gkeys : list bytes }.

Definition groupCounts (index : bytes → nat) (shardCount : nat) (keys : list bytes) : list nat :=
  foldl (λ counts key, alter S (index key) counts) (replicate shardCount O) keys.

Definition groupOffsets (counts : list nat) : list nat :=
  (foldl (λ '(offsets, total) count, (offsets ++ [total], (total + count)%nat)) ([], O) counts).1.

Definition placeKey (index : bytes → nat) (st : list bytes * list nat) (key : bytes) : list bytes * list nat :=
  let '(grouped, next) := st in
  let pos := default O (next !! index key) in
  (<[pos := key]> grouped, <[index key := S pos]> next).

Definition groupKeysByShard (s : Store) (keys : list bytes) : shardKeyGroups :=
  let counts := groupCounts (shardIndex s) (length (shards s)) keys in
  let offsets := groupOffsets counts in
  mkGroups counts offsets (foldl (placeKey (shardIndex s)) (replicate (length keys) [], offsets) keys).1.

Definition keysForShard (g : shardKeyGroups) (shardID : nat) : list bytes :=
  let count := default O (gcounts g !! shardID) in
  let start := default O (goffsets g !! shardID) in
  take count (drop start (gkeys g)).

(** ** eviction.go: one pass of the background sweep *)

Definition snapshotKeys (limit : Z) : M (list bytes) := sampleKeysLocked limit.

(** [value, ok := shard.data[key]; if ok && isExpired(value, now) { delete }]. *)
Definition sweepKey (now : Z) (shard : nat) (st : list bytes * Store) (key : bytes) : list bytes * Store :=
  let '(expired, s) := st in
  match shardAt s shard !! key with
  | Some v => if isExpired v now then (expired ++ [key], (deleteKeyLocked shard key s).2) else st
  | None => st
  end.

Definition sweepShard (now : Z) (g : shardKeyGroups) (st : list bytes * Store) (shardID : nat) : list bytes * Store :=
  if decide (default O (gcounts g !! shardID) = O) then st
  else foldl (sweepKey now shardID) st (keysForShard g shardID).

(** [evictExpiredSample] once its sample is taken, under the locks of its shards. *)
Definition sweepSample (now : Z) (keys : list bytes) : M (list bytes) :=
  match keys with
  | [] => ret []
  | [key] => λ s,
      match lookupKey s key with
      | Some v =>
          if isExpired v now then ([key], noteExpiredKeysLocked [key] (deleteKeyLocked (shardIndex s key) key s).2)
          else ([], s)
      | None => ([], s)
      end
  | _ => λ s,
      let g := groupKeysByShard s keys in
      let '(expired, s) := foldl (sweepShard now g) ([], s) (seq 0 (length (gcounts g))) in
      (expired, noteExpiredKeysLocked expired s)
  end.

Definition evictExpiredSample (now sampleSize : Z) : M (list bytes) :=
  let! keys := snapshotKeys sampleSize in sweepSample now keys.

(** One tick of the background loop of [StartEviction].  The sample, the sweep and
    the publication take their locks one after the other: [evictionTick] is a tick
    nobody interrupts, [sweepTick] what is left of one once the clock is read and
    the sample taken, when other operations may have run in between. *)
Definition sweepTick (now : Z) (keys : list bytes) : M unit :=
  let! expired := sweepSample now keys in
  match expired with [] => ret tt | _ => modify publishExpiredKeys end.
Definition evictionTick (sampleSize : Z) : M unit :=
  let! now := nowMilli in
  let! keys := snapshotKeys (if sampleSize <=? 0 then defaultSampleSize else sampleSize) in
  sweepTick now keys.

End Env.
