(* ===== verification/StoreOps.v ===== *)
(** * The operations of the store

    One definition per exported operation of [store.go], [hash.go], [set.go],
    [bitmap.go] and [hyperloglog.go] in [internal/storage], over the state and
    the key access of [Store].  Every constructor of a value reads the clock for
    its access stamp, as in the source.  A result carries what the operation
    returns next to a nil error; nil and empty slices are not told apart. *)

From S2P Require Import Prelude Strconv GoLib IntSet CompactHash Float64 CompactZSet SkipList Stream Bitmap.
From S2P Require Import HyperLogLog ValueObject ListWaiters Store.

Section Ops.
Context {E : Env}.

(** ** Strings *)

Definition Set_ (key value : bytes) (expiresAt : Z) : M (result storeError (list bytes)) :=
  let!? (_, evicted) := writeKey key (λ w,
    let! stamp := nowMilli in
    let!? evicted := commit w (newStringValue stamp value expiresAt) in
    ret (Ok (tt, evicted))) in
  ret (Ok evicted).

(** [fn] on the string payload, [Ok None] when the key is not there. *)
Definition withStringValue {T} (key : bytes) (fn : bytes → result storeError T) : M (result storeError (option T)) :=
  readKey key (λ v, let? data := value_StringValue v in fn data).

Definition Get (key : bytes) : M (result storeError (option bytes)) := withStringValue key Ok.

Definition Delete (key : bytes) : M bool :=
  let! value := gets (λ s, lookupKey s key) in
  match value with
  | None => ret false
  | Some v =>
      let! now := nowMilli in
      let! _ := (λ s, deleteKeyLocked (shardIndex s key) key s) in
      ret (negb (isExpired v now))
  end.

(** One key of the loop of [DeleteMany]. *)
Definition deleteOne (now : Z) (shard : nat) (st : list bytes * Store) (key : bytes) : list bytes * Store :=
  let '(removed, s) := st in
  match shardAt s shard !! key with
  | None => st
  | Some v =>
      if isExpired v now then (removed, (deleteKeyLocked shard key s).2)
      else (removed ++ [key], (deleteKeyLocked shard key s).2)
  end.

Definition DeleteMany (keys : list bytes) : M (list bytes) :=
  match keys with
  | [] => ret []
  | [key] => let! ok := Delete key in ret (if ok then [key] else [])
  | _ =>
      let! g := gets (λ s, groupKeysByShard s keys) in
      let! now := nowMilli in
      λ s, foldl (λ st shardID,
             if decide (default O (gcounts g !! shardID) = O) then st
             else foldl (deleteOne now shardID) st (keysForShard g shardID))
           ([], s) (seq 0 (length (gcounts g)))
  end.

Definition Increment (key : bytes) : M (result storeError (Z * list bytes)) :=
  writeKey key (λ w,
    match wcurrent w with
    | None =>
        let! stamp := nowMilli in
        let!? evicted := commit w (newOwnedStringValue stamp (bs "1") 0) in
        ret (Ok (1, evicted))
    | Some current =>
        match value_StringValue current with
        | Err e => ret (Err e)
        | Ok currentValue =>
            match ParseInt currentValue with
            | None => ret (Err ErrValueNotInteger)
            | Some parsed =>
                if parsed =? max_int64 then ret (Err ErrValueNotInteger)
                else
                  let parsed := parsed + 1 in
                  let next := FormatInt parsed in
                  if negb (waccounting w) then
                    modify (updateInPlace (wkey w) (touch (setString current next) (wnow w)));;
                    ret (Ok (parsed, []))
                  else
                    let! stamp := nowMilli in
                    let newValue := touch (newOwnedStringValue stamp next (ExpiresAt current)) (wnow w) in
                    let!? evicted := commit w newValue in
                    ret (Ok (parsed, evicted))
            end
        end
    end).

(** ** Lists *)

(** The slice after the push; LPUSH pushes its values one after the other. *)
Definition pushed (list_ values : list bytes) (lft : bool) : list bytes :=
  if lft then rev values ++ list_ else list_ ++ values.

Definition pushList (key : bytes) (values : list bytes) (lft : bool) : M (result storeError (Z * list bytes)) :=
  if zlen values =? 0 then ret (Err ErrSyntax)
  else
    let!? (length, evicted) := writeKey key (λ w,
      match (match wcurrent w with
             | None => Ok ([], 0)
             | Some current => let? l := value_ListValue current in Ok (l, ExpiresAt current)
             end) with
      | Err e => ret (Err e)
      | Ok (l, expiresAt) =>
          let l := pushed l values lft in
          let! stamp := nowMilli in
          let!? evicted := commit w (newListValue stamp l expiresAt) in
          ret (Ok (zlen l, evicted))
      end) in
    modify (λ s, setWaiters (notifyOne (storeWaiters s) key) s);;
    ret (Ok (length, evicted)).

Definition LeftPush (key : bytes) (values : list bytes) := pushList key values true.
Definition RightPush (key : bytes) (values : list bytes) := pushList key values false.

(** The start all removals from a collection share: the live value under the
    key, dropped if it has expired.  The clock is read only when a value is
    there. *)
Definition liveForUpdate (key : bytes) : M (option ValueObject) := λ s,
  match lookupKey s key with
  | None => (None, s)
  | Some v =>
      let '(now, s) := nowMilli s in
      if isExpired v now then (None, (deleteKeyLocked (shardIndex s key) key s).2) else (Some v, s)
  end.

(** The end they share: the shrunk value [v'] is stored where it lies, or the
    key is deleted when nothing is left, and the memory it freed is counted.
    [v] is the value before the removal, which [oldSize] was taken of. *)
Definition finishShrink (key : bytes) (v v' : ValueObject) (empty : bool) : M unit := λ s,
  let accounting := maxMemoryEnabled s in
  let oldSize := if accounting then approximateValueSize key v else 0 in
  let s := updateInPlace key v' s in
  if empty then (tt, (deleteKeyWithSizeLocked (shardIndex s key) key oldSize s).2)
  else
    (tt, if accounting then setUsed (usedMemory s + (approximateValueSize key v' - oldSize)) s else s).

(** The body of the list pops: [take] splits a non-empty list into what is
    returned and what stays. *)
Definition popWith {T} (key : bytes) (take : list bytes → T * list bytes) : M (result storeError (option T)) :=
  let! value := liveForUpdate key in
  match value with
  | None => ret (Ok None)
  | Some v =>
      match value_ListValue v with
      | Err e => ret (Err e)
      | Ok l =>
          if zlen l =? 0 then
            let! _ := (λ s, deleteKeyLocked (shardIndex s key) key s) in
            ret (Ok None)
          else
            let '(item, rest) := take l in
            let! stamp := nowMilli in
            finishShrink key v (touch (setList v rest) stamp) (zlen rest =? 0);;
            ret (Ok (Some item))
      end
  end.

(** [list[0]] and [list[1:]]; [list[last]] and [list[:last]]. *)
Definition LeftPop (key : bytes) : M (result storeError (option bytes)) :=
  popWith key (λ l, (default [] (l !! O), zdrop 1 l)).
Definition RightPop (key : bytes) : M (result storeError (option bytes)) :=
  popWith key (λ l, (default [] (l !! (length l - 1)%nat), ztake (zlen l - 1) l)).

Definition popN (key : bytes) (count : Z) (lft : bool) : M (result storeError (option (list bytes))) :=
  if count <? 0 then ret (Err ErrSyntax)
  else
    popWith key (λ l,
      let n := if count <? zlen l then count else zlen l in
      if lft then (ztake n l, zdrop n l)
      else ((λ i, default [] (l !! (length l - 1 - i)%nat)) <$> seq 0 (Z.to_nat n), ztake (zlen l - n) l)).

Definition LeftPopN (key : bytes) (count : Z) := popN key count true.
Definition RightPopN (key : bytes) (count : Z) := popN key count false.

Definition normalizeListIndex (length index : Z) : Z :=
  let index := if index <? 0 then index + length else index in
  if index <? 0 then -1 else if length <=? index then length else index.

Definition normalizeListRange (length start stop : Z) : option (Z * Z) :=
  if length =? 0 then None
  else
    let from := normalizeListIndex length start in
    let to := normalizeListIndex length stop in
    let from := if from <? 0 then 0 else from in
    if to <? 0 then None
    else if length <=? from then None
    else
      let to := if length <=? to then length - 1 else to in
      if to <? from then None else Some (from, to).

Definition ListRange (key : bytes) (start stop : Z) : M (result storeError (list bytes)) :=
  let!? values := readKey key (λ v,
    let? l := value_ListValue v in
    match normalizeListRange (zlen l) start stop with
    | None => Ok []
    | Some (from, to) => Ok (ztake (to + 1 - from) (zdrop from l))
    end) in
  ret (Ok (default [] values)).

(** ** Collections behind [hashSet], [setAdd] and [zsetAdd] *)

(** What HSET, SADD and ZADD do with a value: change a copy of it while
    accounting and the value itself otherwise, or make a new one.  [clone],
    [add], [fresh] and [len] are the operations of the kind. *)
Definition addTo (key : bytes)
    (clone : Z → ValueObject → Z → result storeError ValueObject)
    (add : ValueObject → ValueObject * result storeError Z)
    (fresh : Z → ValueObject) (len : ValueObject → result storeError Z)
    : M (result storeError (Z * list bytes)) :=
  writeKey key (λ w,
    let!? (newValue, added) :=
      match wcurrent w with
      | Some current =>
          let!? newValue :=
            (if waccounting w then
               let! stamp := nowMilli in ret (clone stamp current (ExpiresAt current))
             else ret (Ok current)) in
          let '(newValue, added) := add newValue in
          ret (let? n := added in Ok (newValue, n))
      | None =>
          let! stamp := nowMilli in
          let newValue := fresh stamp in
          ret (let? newLen := len newValue in Ok (newValue, newLen))
      end in
    let newValue := touch newValue (wnow w) in
    let!? evicted := commit w newValue in
    ret (Ok (added, evicted))).

(** What HDEL and SREM do: [remove] and [len] are the operations of the kind. *)
Definition removeFrom (key : bytes) (remove : ValueObject → ValueObject * result storeError Z)
    (len : ValueObject → result storeError Z) (secondReading : bool) : M (result storeError Z) := λ s,
  match lookupKey s key with
  | None => (Ok 0, if secondReading then s else tick s)
  | Some v =>
      let '(now, s) := nowMilli s in
      if isExpired v now then (Ok 0, (deleteKeyLocked (shardIndex s key) key s).2)
      else
        let '(v', removed) := remove v in
        match removed with
        | Err e => (Err e, s)
        | Ok removed =>
            let '(stamp, s) := (if secondReading then nowMilli else ret now) s in
            let v' := touch v' stamp in
            match len v' with
            | Err e => (Err e, updateInPlace key v' s)
            | Ok n => let '(_, s) := finishShrink key v v' (n =? 0) s in (Ok removed, s)
            end
        end
  end.

(** ** Hashes *)

Definition HSet (key : bytes) (pairs : list HashFieldValue) : M (result storeError (Z * list bytes)) :=
  if zlen pairs =? 0 then ret (Err ErrSyntax)
  else addTo key cloneHashValue (λ v, hashSet v pairs) (λ stamp, newHashValueForPairs stamp pairs 0) hashLen.

Definition HGet (key field : bytes) : M (result storeError (option bytes)) :=
  let!? r := readKey key (λ v, hashGet v field) in
  ret (Ok (mjoin r)).

Definition HDel (key : bytes) (fields : list bytes) : M (result storeError Z) :=
  if zlen fields =? 0 then ret (Err ErrSyntax)
  else removeFrom key (λ v, hashDel v fields) hashLen true.

Definition HGetAll (key : bytes) : M (result storeError (list HashFieldValue)) :=
  let!? r := readKey key hashEntries in
  ret (Ok (default [] r)).

(** ** Sets *)

Definition SAdd (key : bytes) (members : list bytes) : M (result storeError (Z * list bytes)) :=
  if zlen members =? 0 then ret (Err ErrSyntax)
  else addTo key cloneSetValue (λ v, setAdd v members) (λ stamp, newSetValueForMembers stamp members 0) setLen.

Definition SIsMember (key member : bytes) : M (result storeError bool) :=
  let!? r := readKey key (λ v, setContains v member) in
  ret (Ok (default false r)).

Definition SRem (key : bytes) (members : list bytes) : M (result storeError Z) :=
  if zlen members =? 0 then ret (Err ErrSyntax)
  else removeFrom key (λ v, setRemove v members) setLen false.

Definition SMembers (key : bytes) : M (result storeError (list bytes)) :=
  let!? r := readKey key setMembers in
  ret (Ok (default [] r)).

(** ** Sorted sets *)

Definition ZAdd (key : bytes) (zs : list scored) : M (result storeError (Z * list bytes)) :=
  if zlen zs =? 0 then ret (Err ErrSyntax)
  else addTo key cloneZSetValue (λ v, zsetAdd v zs) (λ stamp, newZSetValueForEntries stamp zs 0) zsetLen.

(** The scores found; a missing key has none of the members. *)
Fixpoint scoresLoop (v : ValueObject) (members : list bytes) : result storeError (list (option float64)) :=
  match members with
  | [] => Ok []
  | member :: members' =>
      let? score := zsetScore v member in
      let? scores := scoresLoop v members' in
      Ok (score :: scores)
  end.

Definition ZScores (key : bytes) (members : list bytes) : M (result storeError (list (option float64))) :=
  let!? r := readKey key (λ v, scoresLoop v members) in
  ret (Ok (default (replicate (length members) None) r)).

Definition ZRange (key : bytes) (start stop : Z) : M (result storeError (list scored)) :=
  let!? r := readKey key (λ v,
    let? setLen := zsetLen v in
    match normalizeListRange setLen start stop with
    | None => Ok []
    | Some (from, to) => zsetRangeByRank v from to
    end) in
  ret (Ok (default [] r)).

Fixpoint rangesLoop (v : ValueObject) (scoreRanges : list ScoreRange) : result storeError (list scored) :=
  match scoreRanges with
  | [] => Ok []
  | scoreRange :: scoreRanges' =>
      let? ranged := zsetRangeByScore v scoreRange in
      let? es := rangesLoop v scoreRanges' in
      Ok (ranged ++ es)
  end.

Definition ZRangeByScores (key : bytes) (scoreRanges : list ScoreRange) : M (result storeError (list scored)) :=
  let!? r := readKey key (λ v, rangesLoop v scoreRanges) in
  ret (Ok (default [] r)).

(** ** Streams *)

Definition XAdd (key rawID : bytes) (values : list bytes) : M (result storeError (bytes * list bytes)) :=
  if (zlen values =? 0) || negb (zlen values mod 2 =? 0) then ret (Err ErrSyntax)
  else
    writeKey key (λ w,
      match (match wcurrent w with
             | Some current =>
                 let? existing := value_StreamValue current in
                 Ok (if waccounting w then cloneStreamValue existing else existing, ExpiresAt current)
             | None => Ok (newStream, 0)
             end) with
      | Err e => ret (Err e)
      | Ok (stream, expiresAt) =>
          match Stream_add stream rawID values (wnow w) with
          | Err e => ret (Err (ErrStream e))
          | Ok (stream, id) =>
              let! stamp := nowMilli in
              let newValue := touch (newStreamValue stamp stream expiresAt) (wnow w) in
              let!? evicted := commit w newValue in
              ret (Ok (id, evicted))
          end
      end).

Definition XRead (key rawID : bytes) : M (result storeError (list StreamEntry)) :=
  let!? r := readKey key (λ v,
    let? stream := value_StreamValue v in
    map_err ErrStream (Stream_entriesAfter stream rawID)) in
  ret (Ok (default [] r)).

(** ** Bitmaps *)

Definition GetBit (key : bytes) (offset : Z) : M (result storeError (option Z)) :=
  if negb (validateBitmapOffset offset) then ret (Err ErrValueNotInteger)
  else readKey key (λ v, let? data := value_StringValue v in Ok (bitAt data offset)).

(** [copy(payload, data)]. *)
Definition copyInto (payload data : bytes) : bytes := take (length payload) data ++ drop (length data) payload.

Definition SetBit (key : bytes) (offset bit : Z) : M (result storeError (Z * list bytes)) :=
  if negb (validateBitmapArguments offset bit) then ret (Err ErrValueNotInteger)
  else
    writeKey key (λ w,
      match (match wcurrent w with
             | Some current => let? data := value_StringValue current in Ok (data, ExpiresAt current)
             | None => Ok ([], 0)
             end) with
      | Err e => ret (Err e)
      | Ok (data, expiresAt) =>
          let previous := bitAt data offset in
          let byteIndex := offset / 8 in
          match wcurrent w with
          | Some current =>
              if (byteIndex <? zlen data) && negb (waccounting w) then
                modify (updateInPlace (wkey w) (touch (setString current (setBitInPayload data offset bit)) (wnow w)));;
                ret (Ok (previous, []))
              else
                let!? evicted := commitString w (Z.max (byteIndex + 1) (zlen data)) expiresAt
                  (λ payload, setBitInPayload (copyInto payload data) offset bit) in
                ret (Ok (previous, evicted))
          | None =>
              let!? evicted := commitString w (Z.max (byteIndex + 1) (zlen data)) expiresAt
                (λ payload, setBitInPayload (copyInto payload data) offset bit) in
              ret (Ok (previous, evicted))
          end
      end).

Definition BitCount (key : bytes) (start end_ : option Z) : M (result storeError (option Z)) :=
  readKey key (λ v, let? data := value_StringValue v in Ok (countBits data start end_)).

(** ** HyperLogLog *)

Definition PFAdd (key : bytes) (elements : list bytes) : M (result storeError (Z * list bytes)) :=
  writeKey key (λ w,
    match wcurrent w with
    | None =>
        let payload := (updatePayload newHyperLogLogPayload elements).1 in
        let! stamp := nowMilli in
        let newValue := touch (newOwnedStringValue stamp payload 0) (wnow w) in
        let!? evicted := commit w newValue in
        ret (Ok (1, evicted))
    | Some current =>
        match value_StringValue current with
        | Err e => ret (Err e)
        | Ok data =>
            match hyperLogLogRegisters data with
            | None => ret (Err ErrNotHyperLogLog)
            | Some _ =>
                let '(data', changed) := updatePayload data elements in
                modify (updateInPlace (wkey w) (touch (setString current data') (wnow w)));;
                ret (Ok (changed, []))
            end
        end
    end).

Definition mergeHyperLogLogRegisters (key merged : bytes) : M (result storeError bytes) :=
  let!? r := withStringValue key (λ data,
    match hyperLogLogRegisters data with
    | None => Err ErrNotHyperLogLog
    | Some registers => Ok (mergeRegisters merged registers)
    end) in
  ret (Ok (default merged r)).

Fixpoint mergeLoop (keys : list bytes) (merged : bytes) : M (result storeError bytes) :=
  match keys with
  | [] => ret (Ok merged)
  | key :: keys' => let!? merged := mergeHyperLogLogRegisters key merged in mergeLoop keys' merged
  end.

Definition PFCount (Log : float64 → float64) (keys : list bytes) : M (result storeError Z) :=
  let!? merged := mergeLoop keys (makeBytes hllRegisterCount) in
  ret (Ok (hyperLogLogEstimate Log merged)).

(** ** Waiters and the whole keyspace *)

Definition SubscribeListPush (key : bytes) : M nat := λ s,
  let '(w, ch) := subscribe (storeWaiters s) key in (ch, setWaiters w s).
Definition UnsubscribeListPush (key : bytes) (ch : nat) : M unit :=
  modify (λ s, setWaiters (unsubscribe (storeWaiters s) key ch) s).

Definition Len : M Z := gets totalKeyCountLocked.

Record StringSnapshotEntry := mkStringSnapshot { ssKey : bytes; ssValue : bytes; ssExpiresAt : Z }.
Record StringSnapshotStats := mkStringStats {
  ssTotalKeys : Z; ssExportedKeys : Z; ssSkippedExpiredKeys : Z; ssSkippedUnsupportedKeys : Z }.

Definition snapshotString (now : Z) (st : list StringSnapshotEntry * StringSnapshotStats) (entry : bytes * ValueObject)
    : list StringSnapshotEntry * StringSnapshotStats :=
  let '(es, stats) := st in
  let '(key, v) := entry in
  if isExpired v now then
    (es, mkStringStats (ssTotalKeys stats) (ssExportedKeys stats) (ssSkippedExpiredKeys stats + 1) (ssSkippedUnsupportedKeys stats))
  else if negb (bool_decide (Kind v = ValueKindString)) then
    (es, mkStringStats (ssTotalKeys stats) (ssExportedKeys stats) (ssSkippedExpiredKeys stats) (ssSkippedUnsupportedKeys stats + 1))
  else
    (es ++ [mkStringSnapshot key (vString v) (ExpiresAt v)],
     mkStringStats (ssTotalKeys stats) (ssExportedKeys stats + 1) (ssSkippedExpiredKeys stats) (ssSkippedUnsupportedKeys stats)).

Definition SnapshotStrings : M (list StringSnapshotEntry * StringSnapshotStats) :=
  let! now := nowMilli in
  gets (λ s,
    foldl (λ st (shard : Shard),
      foldl (snapshotString now)
        (st.1, mkStringStats (ssTotalKeys st.2 + Z.of_nat (size shard)) (ssExportedKeys st.2)
                 (ssSkippedExpiredKeys st.2) (ssSkippedUnsupportedKeys st.2))
        (mapOrder shard)) ([], mkStringStats 0 0 0 0) (shards s)).

(** [SnapshotEntry]: the field of the kind is set, the others are nil. *)
Inductive snapshotPayload :=
  | SnapString (data : bytes) | SnapList (items : list bytes) | SnapZSet (es : list scored)
  | SnapStream (es : list StreamEntry) | SnapHash (pairs : list HashFieldValue) | SnapSet (members : list bytes).
Record SnapshotEntry := mkSnapshot { snKey : bytes; snExpiresAt : Z; snPayload : snapshotPayload }.
Record SnapshotStats := mkSnapshotStats { snTotalKeys : Z; snExportedKeys : Z; snSkippedExpiredKeys : Z }.

(** The payload of a value; [None] where the loop continues with the next key. *)
Definition snapshotValue (v : ValueObject) : option snapshotPayload :=
  match Kind v with
  | ValueKindString => Some (SnapString (vString v))
  | ValueKindList => Some (SnapList (vList v))
  | ValueKindZSet =>
      match zsetLen v with
      | Err _ => None
      | Ok setLen =>
          if 0 <? setLen then
            match zsetRangeByRank v 0 (setLen - 1) with Ok es => Some (SnapZSet es) | Err _ => None end
          else Some (SnapZSet [])
      end
  | ValueKindStream => Some (SnapStream (match vStream v with Some st => streamEntry <$> sentries st | None => [] end))
  | ValueKindHash => match hashEntries v with Ok es => Some (SnapHash es) | Err _ => None end
  | ValueKindSet =>
      match SetEncoding v with
      | ValueEncodingCompact => match setMembers v with Ok ms => Some (SnapSet ms) | Err _ => None end
      | ValueEncodingGeneral => match vSet v with None => None | Some X => Some (SnapSet (setOrder X)) end
      end
  end.

Definition snapshotKey (now : Z) (st : list SnapshotEntry * SnapshotStats) (entry : bytes * ValueObject)
    : list SnapshotEntry * SnapshotStats :=
  let '(es, stats) := st in
  let '(key, v) := entry in
  if isExpired v now then
    (es, mkSnapshotStats (snTotalKeys stats) (snExportedKeys stats) (snSkippedExpiredKeys stats + 1))
  else
    match snapshotValue v with
    | None => st
    | Some p => (es ++ [mkSnapshot key (ExpiresAt v) p],
                 mkSnapshotStats (snTotalKeys stats) (snExportedKeys stats + 1) (snSkippedExpiredKeys stats))
    end.

Definition snapshotAllLocked (now : Z) (s : Store) : list SnapshotEntry * SnapshotStats :=
  foldl (λ st (shard : Shard),
    foldl (snapshotKey now)
      (st.1, mkSnapshotStats (snTotalKeys st.2 + Z.of_nat (size shard)) (snExportedKeys st.2) (snSkippedExpiredKeys st.2))
      (mapOrder shard)) ([], mkSnapshotStats 0 0 0) (shards s).

Definition SnapshotAll : M (list SnapshotEntry * SnapshotStats) :=
  let! now := nowMilli in gets (snapshotAllLocked now).

Definition ReplaceWith (other : Store) : M unit :=
  modify (λ s,
    let replacement :=
      foldl (λ repl (shard : Shard),
        foldl (λ repl '(key, v), alter (<[key := v]>) (shardIndex s key) repl) repl (mapOrder shard))
        (newShards (zlen (shards s))) (shards other) in
    recalculateKeyStatsLocked (setShards replacement s));;
  let! enabled := gets maxMemoryEnabled in
  (if enabled then let! now := nowMilli in let! _ := recalculateUsedMemoryLocked now in ret tt else ret tt);;
  modify publishExpiredKeys.

(** ** Expiry arguments *)

(** [now] is the clock reading in nanoseconds.  A [time.Duration] is an int64 of
    nanoseconds, and its product wraps. *)
Definition ParseExpiryMillis (now : Z) (args : list bytes) : result storeError Z :=
  match args with
  | [] => Ok 0
  | [unit; amount] =>
      match ParseInt amount with
      | None => Err ErrInvalidExpireTime
      | Some value =>
          if value <=? 0 then Err ErrInvalidExpireTime
          else if decide (ToUpper unit = bs "EX") then Ok ((now + wrap64 (value * 1000000000)) / 1000000)
          else if decide (ToUpper unit = bs "PX") then Ok ((now + wrap64 (value * 1000000)) / 1000000)
          else if decide (ToUpper unit = bs "PXAT") then Ok value
          else Err ErrSyntax
      end
  | _ => Err ErrSyntax
  end.

End Ops.
