(* ===== verification/Locks.v ===== *)
(** * The locks of the store

    Models the locking side of [internal/storage]: which locks every operation of
    the store takes and in which order ([shard.go], [store.go], [memory.go],
    [eviction.go], [list_waiters.go]), with the append-only file's mutex, which a
    snapshot takes under the shard locks.  Elsewhere an operation is one step
    between its first lock and its last unlock; here goroutines run concurrently,
    one lock operation or one access to guarded data at a time, and the theorems
    show that no two accesses race, that what a goroutine has locked stays as it
    is, and that nobody waits forever.

    The data behind lock [i] is one cell, [i]: the map of a shard, the keys waiting
    for the expiration listener, the queues of waiters, the buffer of the file.
    Access stamps, counters and limits are atomics in the code and left out.

    A [sync.RWMutex] makes a writer announce itself first: announced, it keeps new
    readers and writers out and waits for the readers inside to leave. *)

From S2P Require Import Prelude Store.

(** ** Goroutines and locks *)

Inductive action :=
  | ALock (i : nat) | AUnlock (i : nat) | ARLock (i : nat) | ARUnlock (i : nat)
  | AGet (i : nat)                 (* read the data behind lock [i] *)
  | APut (i : nat).                (* read or change it *)

(** The locks held, [true] for writing; whether the goroutine has announced the
    write lock it takes next; what is left to do. *)
Record goroutine := mkG { held : list (nat * bool); announced : bool; todo : list action }.

Definition writing (i : nat) (g : goroutine) : bool := bool_decide ((i, true) ∈ held g).
Definition reading (i : nat) (g : goroutine) : bool := bool_decide ((i, false) ∈ held g).
Definition waiting (i : nat) (g : goroutine) : bool :=
  announced g && match todo g with ALock j :: _ => bool_decide (i = j) | _ => false end.
Definition claimed (i : nat) (g : goroutine) : bool := writing i g || waiting i g.

Definition release (p : nat * bool) (h : list (nat * bool)) : list (nat * bool) := filter (λ q, q ≠ p) h.

(** One step of goroutine [t]; [None] while it blocks.  Nothing but the program
    itself keeps an access behind its lock. *)
Definition advance (gs : list goroutine) (t : nat) : option (list goroutine) :=
  match gs !! t with
  | None => None
  | Some g =>
      match todo g with
      | [] => None
      | ALock i :: rest =>
          if announced g then
            if existsb (reading i) gs then None else Some (<[t := mkG ((i, true) :: held g) false rest]> gs)
          else if existsb (claimed i) gs then None
          else Some (<[t := mkG (held g) true (ALock i :: rest)]> gs)
      | ARLock i :: rest =>
          if existsb (claimed i) gs then None else Some (<[t := mkG ((i, false) :: held g) false rest]> gs)
      | AUnlock i :: rest => Some (<[t := mkG (release (i, true) (held g)) false rest]> gs)
      | ARUnlock i :: rest => Some (<[t := mkG (release (i, false) (held g)) false rest]> gs)
      | (AGet _ | APut _) :: rest => Some (<[t := mkG (held g) false rest]> gs)
      end
  end.

Inductive reaches : list goroutine → list goroutine → Prop :=
  | ReachesHere gs : reaches gs gs
  | ReachesStep gs gs1 gs2 t : reaches gs gs1 → advance gs1 t = Some gs2 → reaches gs gs2.

(** ** What each operation locks *)

Section Scripts.
(** The shards are locks [0] to [n - 1]. *)
Context (n : nat).

Definition readLockAllShards : list action := ARLock <$> seq 0 n.
Definition readUnlockAllShards : list action := ARUnlock <$> reverse (seq 0 n).
Definition writeLockAllShards : list action := ALock <$> seq 0 n.
Definition writeUnlockAllShards : list action := AUnlock <$> reverse (seq 0 n).

(** The shards with a key in the group. *)
Definition occupied (g : shardKeyGroups) : list nat :=
  filter (λ shardID, default O (gcounts g !! shardID) ≠ O) (seq 0 (length (gcounts g))).
Definition shardKeyGroups_lock (g : shardKeyGroups) : list action := ALock <$> occupied g.
Definition shardKeyGroups_unlock (g : shardKeyGroups) : list action := AUnlock <$> reverse (occupied g).

Definition expirationMu : nat := n.
Definition waitersMu : nat := S n.
Definition writerMu : nat := S (S n).
Definition critical (mu : nat) : list action := [ALock mu; APut mu; AUnlock mu].

(** The bodies of sections: what they read, and what they may change. *)
Definition getAll (l : list nat) : list action := AGet <$> l.
Definition putAll (l : list nat) : list action := APut <$> l.

(** [noteExpiredKeysLocked], as often as the section calls it with keys. *)
Definition noteExpired (times : nat) : list action := mjoin (replicate times (critical expirationMu)).
Definition publishExpired : list action := critical expirationMu.

(** The body of a section over all shards: it sweeps expired keys and evicts. *)
Definition sweepShards (times : nat) : list action := putAll (seq 0 n) ++ noteExpired times ++ putAll (seq 0 n).

(** [readKey]; [expired] is the branch that goes on to [dropIfStillExpired]. *)
Definition readKeyLocks (shard : nat) (expired : bool) : list action :=
  [ARLock shard; AGet shard; ARUnlock shard] ++ (if expired then critical shard else []).

(** [writeKey]: every shard while memory is accounted for. *)
Definition writeKeyLocks (shard : nat) (accounting : bool) (noted : nat) : list action :=
  if accounting then writeLockAllShards ++ sweepShards noted ++ writeUnlockAllShards ++ publishExpired
  else critical shard.

(** [snapshotKeys] visits the shards one by one, from a random start. *)
Definition snapshotKeysLocks (visited : list nat) : list action := i ← visited; [ARLock i; AGet i; ARUnlock i].

(** [evictExpiredSample], by the number of keys sampled, and the publication. *)
Definition evictSampleLocks (visited : list nat) (sampled : option (nat + shardKeyGroups)) (noted : nat) : list action :=
  snapshotKeysLocks visited ++
  match sampled with
  | None => []
  | Some (inl shard) => ALock shard :: (APut shard :: noteExpired noted) ++ [AUnlock shard]
  | Some (inr g) => shardKeyGroups_lock g ++ (putAll (occupied g) ++ noteExpired noted) ++ shardKeyGroups_unlock g
  end ++ (if decide (noted = O) then [] else publishExpired).

(** The operations, with the branch each takes. *)
Inductive lockOp :=
  | LReadKey (shard : nat) (expired : bool)                                  (* every single-key read *)
  | LWriteKey (shard : nat) (accounting : bool) (noted : nat)                (* every single-key write *)
  | LPush (shard : nat) (accounting : bool) (noted : nat)                    (* pushList: the write, then notifyOne *)
  | LShard (shard : nat)                                                     (* Delete, the pops, HDel, SRem *)
  | LDeleteMany (g : shardKeyGroups)
  | LEvict (visited : list nat) (sampled : option (nat + shardKeyGroups)) (noted : nat)
  | LReadAll                                                                 (* Len, SnapshotStrings, SnapshotAll *)
  | LWriteBarrier                                                            (* SnapshotAllWithWriteBarrier *)
  | LWriteAll (noted : nat)                                                  (* ConfigureMaxMemory, EnforceMaxMemory, ReplaceWith *)
  | LWaiters                                                                 (* subscribe, unsubscribe *)
  | LListener                                                                (* SetExpirationListener *)
  | LAppend.                                                                 (* the append-only file writer *)

Definition script (op : lockOp) : list action :=
  match op with
  | LReadKey shard expired => readKeyLocks shard expired
  | LWriteKey shard accounting noted => writeKeyLocks shard accounting noted
  | LPush shard accounting noted => writeKeyLocks shard accounting noted ++ critical waitersMu
  | LShard shard => critical shard
  | LDeleteMany g => shardKeyGroups_lock g ++ putAll (occupied g) ++ shardKeyGroups_unlock g
  | LEvict visited sampled noted => evictSampleLocks visited sampled noted
  | LReadAll => readLockAllShards ++ getAll (seq 0 n) ++ readUnlockAllShards
  | LWriteBarrier => writeLockAllShards ++ (getAll (seq 0 n) ++ critical writerMu) ++ writeUnlockAllShards
  | LWriteAll noted => writeLockAllShards ++ sweepShards noted ++ writeUnlockAllShards ++ publishExpired
  | LWaiters => critical waitersMu
  | LListener => critical expirationMu
  | LAppend => critical writerMu
  end.

(** Shards are shards, and groups are over all of them. *)
Definition opInRange (op : lockOp) : bool :=
  match op with
  | LReadKey shard _ | LWriteKey shard _ _ | LPush shard _ _ | LShard shard => (shard <? n)%nat
  | LDeleteMany g => (length (gcounts g) =? n)%nat
  | LEvict visited sampled _ =>
      forallb (λ i, (i <? n)%nat) visited &&
      match sampled with None => true | Some (inl shard) => (shard <? n)%nat | Some (inr g) => (length (gcounts g) =? n)%nat end
  | _ => true
  end.

(** Goroutines that run a program of operations each. *)
Definition start (programs : list (list lockOp)) : list goroutine := (λ ops, mkG [] false (ops ≫= script)) <$> programs.
End Scripts.

(** ** The discipline: locks in ascending order, accesses behind their lock,
    everything given back *)

Definition below (i : nat) (h : list (nat * bool)) : bool := forallb (λ p, (p.1 <? i)%nat) h.

Fixpoint disciplined (h : list (nat * bool)) (todo : list action) : bool :=
  match todo with
  | [] => bool_decide (h = [])
  | ALock i :: rest => below i h && disciplined ((i, true) :: h) rest
  | ARLock i :: rest => below i h && disciplined ((i, false) :: h) rest
  | AUnlock i :: rest => bool_decide ((i, true) ∈ h) && disciplined (release (i, true) h) rest
  | ARUnlock i :: rest => bool_decide ((i, false) ∈ h) && disciplined (release (i, false) h) rest
  | AGet i :: rest => bool_decide ((i, true) ∈ h ∨ (i, false) ∈ h) && disciplined h rest
  | APut i :: rest => bool_decide ((i, true) ∈ h) && disciplined h rest
  end.

Lemma below_elem i h j w : below i h = true → (j, w) ∈ h → (j < i)%nat.
Proof. unfold below. rewrite forallb_forall. intros H Hin. apply list_elem_of_In in Hin. apply Nat.ltb_lt, (H _ Hin). Qed.

Lemma below_mono i j h : (i ≤ j)%nat → below i h = true → below j h = true.
Proof. unfold below. rewrite !forallb_forall. intros Hij H p Hp. apply Nat.ltb_lt. specialize (H p Hp). apply Nat.ltb_lt in H. lia. Qed.

Lemma release_fresh i w h : below i h = true → release (i, w) ((i, w) :: h) = h.
Proof.
  intros H. unfold release. rewrite filter_cons_False by (intros Hn; by apply Hn).
  assert (∀ p, p ∈ h → p ≠ (i, w)) as Hne.
  { intros [j w'] Hin [= -> ->]. pose proof (below_elem _ _ _ _ H Hin). lia. }
  clear H. induction h as [|p h IH]; [done|]. rewrite filter_cons_True by (apply Hne; by left). f_equal. apply IH. intros q Hq. apply Hne. by right.
Qed.

Lemma elem_of_release p q h : q ∈ release p h ↔ q ∈ h ∧ q ≠ p.
Proof. unfold release. rewrite list_elem_of_filter. tauto. Qed.

(** A stretch of script that runs with the locks [L] held, only takes locks from
    [b] on and gives them back. *)
Definition Balanced (L : list (nat * bool)) (b : nat) (sc : list action) : Prop :=
  ∀ h rest, L ⊆ h → below b h = true → disciplined h rest = true → disciplined h (sc ++ rest) = true.

Lemma Balanced_nil L b : Balanced L b [].
Proof. by intros h rest _ _ H. Qed.

Lemma Balanced_app L b sc sc' : Balanced L b sc → Balanced L b sc' → Balanced L b (sc ++ sc').
Proof. intros H H' h rest HL Hb Hr. rewrite <- app_assoc. apply H; [done..|]. by apply H'. Qed.

Lemma Balanced_weaken L L' b b' sc : L' ⊆ L → (b ≤ b')%nat → Balanced L' b' sc → Balanced L b sc.
Proof. intros HL Hb H h rest Hh Hlt Hr. apply H; [by etrans|by eapply below_mono|done]. Qed.

Lemma Balanced_put L b l : (λ i, (i, true)) <$> l ⊆ L → Balanced L b (putAll l).
Proof.
  intros Hl h rest HL _ Hr. unfold putAll. induction l as [|i l IH]; [done|]. cbn [fmap list_fmap app disciplined]. rewrite bool_decide_eq_true_2.
  - cbn [andb]. apply IH. intros x Hx. apply Hl. by right.
  - apply HL, Hl. by left.
Qed.
Lemma Balanced_get L b l : (∀ i, i ∈ l → (i, true) ∈ L ∨ (i, false) ∈ L) → Balanced L b (getAll l).
Proof.
  intros Hl h rest HL _ Hr. unfold getAll. induction l as [|i l IH]; [done|]. cbn [fmap list_fmap app disciplined]. rewrite bool_decide_eq_true_2.
  - cbn [andb]. apply IH. intros x Hx. apply Hl. by right.
  - destruct (Hl i) as [Hi|Hi]; [by left|left|right]; by apply HL.
Qed.

(** Taking and giving back a lock for writing or reading. *)
Definition take_ (w : bool) (i : nat) : action := if w then ALock i else ARLock i.
Definition give (w : bool) (i : nat) : action := if w then AUnlock i else ARUnlock i.

Lemma Balanced_section w L b i body : (b ≤ i)%nat → Balanced ((i, w) :: L) (S i) body → Balanced L b (take_ w i :: body ++ [give w i]).
Proof.
  intros Hb Hbody h rest HL Hh Hr. assert (below i h = true) as Hi by by eapply below_mono.
  assert (below i h && disciplined ((i, w) :: h) (body ++ give w i :: rest) = true) as H; [|cbn [app]; rewrite <- app_assoc; by destruct w].
  rewrite Hi. cbn [andb]. apply Hbody.
  - set_solver.
  - cbn [below forallb fst]. rewrite (proj2 (Nat.ltb_lt i (S i))) by lia. apply (below_mono i); [lia|done].
  - assert (bool_decide ((i, w) ∈ (i, w) :: h) && disciplined (release (i, w) ((i, w) :: h)) rest = true) as H; [|by destruct w].
    rewrite bool_decide_eq_true_2 by by left. by rewrite release_fresh.
Qed.

Lemma Balanced_sections w l : ∀ L b b' body, StronglySorted Nat.lt l → Forall (λ i, (b ≤ i < b')%nat) l → (b ≤ b')%nat →
  Balanced (((λ i, (i, w)) <$> l) ++ L) b' body → Balanced L b ((take_ w <$> l) ++ body ++ (give w <$> reverse l)).
Proof.
  induction l as [|i l IH]; intros L b b' body Hs Hr Hb Hbody.
  - cbn [fmap list_fmap app reverse] in *. rewrite app_nil_r. by eapply Balanced_weaken; [| |exact Hbody].
  - apply StronglySorted_inv in Hs as [Hs Hall]. apply Forall_cons in Hr as [Hi Hr].
    replace ((take_ w <$> i :: l) ++ body ++ (give w <$> reverse (i :: l)))
      with (take_ w i :: ((take_ w <$> l) ++ body ++ (give w <$> reverse l)) ++ [give w i])
      by (rewrite reverse_cons, fmap_app; cbn [fmap list_fmap app]; by rewrite <- !app_assoc).
    apply Balanced_section; [lia|]. apply (IH ((i, w) :: L) (S i) b'); [done| |lia|].
    + rewrite Forall_forall in *. intros j Hj. specialize (Hall j Hj). specialize (Hr j Hj). unfold Nat.lt in *. lia.
    + eapply Balanced_weaken; [| |exact Hbody]; [|done]. cbn [fmap list_fmap]. intros x Hx. rewrite elem_of_app, elem_of_cons. cbn [app] in Hx. rewrite elem_of_cons, elem_of_app in Hx. tauto.
Qed.

Lemma sorted_seq k : ∀ i, StronglySorted Nat.lt (seq i k).
Proof.
  induction k as [|k IH]; intros i; cbn [seq]; constructor; [apply IH|]. apply Forall_forall. intros j Hj. apply elem_of_seq in Hj. unfold Nat.lt. lia.
Qed.

Lemma sorted_filter (P : nat → Prop) `{∀ x, Decision (P x)} l : StronglySorted Nat.lt l → StronglySorted Nat.lt (filter P l).
Proof.
  induction 1 as [|i l Hs IH Hall]; [constructor|]. rewrite filter_cons. case_decide; [|done]. constructor; [done|].
  rewrite Forall_forall in *. intros j Hj. apply list_elem_of_filter in Hj as [_ Hj]. by apply Hall.
Qed.

(** ** Every operation is disciplined *)

Section Disciplined.
Context (n : nat).

Lemma Balanced_critical L b mu : (b ≤ mu)%nat → Balanced L b (critical mu).
Proof. intros Hb. apply (Balanced_section true L b mu [APut mu]); [done|]. apply (Balanced_put _ _ [mu]). set_solver. Qed.

Lemma Balanced_note L times : Balanced L n (noteExpired n times).
Proof.
  unfold noteExpired. induction times as [|times IH]; [apply Balanced_nil|]. cbn [replicate mjoin list_join].
  apply Balanced_app; [|done]. by apply Balanced_critical.
Qed.

Lemma all_shards : Forall (λ i, (0 ≤ i < n)%nat) (seq 0 n).
Proof. apply Forall_forall. intros i Hi. apply elem_of_seq in Hi. lia. Qed.

Lemma Balanced_writeAll body : Balanced ((λ i, (i, true)) <$> seq 0 n) n body → Balanced [] 0 (writeLockAllShards n ++ body ++ writeUnlockAllShards n).
Proof. intros Hb. apply (Balanced_sections true _ [] 0 n); [apply sorted_seq|apply all_shards|lia|by rewrite app_nil_r]. Qed.

Lemma Balanced_readAll : Balanced [] 0 (readLockAllShards n ++ getAll (seq 0 n) ++ readUnlockAllShards n).
Proof.
  apply (Balanced_sections false _ [] 0 n); [apply sorted_seq|apply all_shards|lia|]. apply Balanced_get. intros i Hi. right. rewrite app_nil_r.
  apply list_elem_of_fmap. by exists i.
Qed.

Lemma Balanced_groups g body : length (gcounts g) = n → Balanced ((λ i, (i, true)) <$> occupied g) n body →
  Balanced [] 0 (shardKeyGroups_lock g ++ body ++ shardKeyGroups_unlock g).
Proof.
  intros Hg Hb. apply (Balanced_sections true _ [] 0 n); [apply sorted_filter, sorted_seq| |lia|by rewrite app_nil_r].
  apply Forall_forall. intros i Hi. unfold occupied in Hi. apply list_elem_of_filter in Hi as [_ Hi]. apply elem_of_seq in Hi. lia.
Qed.

Lemma Balanced_readSection i : Balanced [] 0 [ARLock i; AGet i; ARUnlock i].
Proof. apply (Balanced_section false [] 0 i [AGet i]); [lia|]. apply (Balanced_get _ _ [i]). intros j ->%list_elem_of_singleton. right. by left. Qed.

Lemma Balanced_readKey shard expired : Balanced [] 0 (readKeyLocks shard expired).
Proof.
  unfold readKeyLocks. apply Balanced_app; [apply Balanced_readSection|]. destruct expired; [apply Balanced_critical; lia|apply Balanced_nil].
Qed.

Lemma Balanced_sweepShards noted : Balanced ((λ i, (i, true)) <$> seq 0 n) n (sweepShards n noted).
Proof. unfold sweepShards. repeat apply Balanced_app; [by apply Balanced_put|apply Balanced_note|by apply Balanced_put]. Qed.

Lemma Balanced_sweepAll noted :
  Balanced [] 0 (writeLockAllShards n ++ sweepShards n noted ++ writeUnlockAllShards n ++ publishExpired n).
Proof.
  rewrite !app_assoc. apply Balanced_app; [rewrite <- app_assoc; apply Balanced_writeAll, Balanced_sweepShards|].
  apply Balanced_critical. unfold expirationMu. lia.
Qed.

Lemma Balanced_writeKey shard accounting noted : Balanced [] 0 (writeKeyLocks n shard accounting noted).
Proof. destruct accounting; [apply Balanced_sweepAll|apply Balanced_critical; lia]. Qed.

Lemma Balanced_evict visited sampled noted : opInRange n (LEvict visited sampled noted) = true → Balanced [] 0 (evictSampleLocks n visited sampled noted).
Proof.
  cbn [opInRange]. intros [_ Hs]%andb_true_iff. unfold evictSampleLocks. apply Balanced_app; [|apply Balanced_app].
  - unfold snapshotKeysLocks. induction visited as [|i visited IH]; [apply Balanced_nil|]. cbn [mbind list_bind].
    apply Balanced_app; [apply Balanced_readSection|done].
  - destruct sampled as [[shard|g]|]; [| |apply Balanced_nil].
    + apply Nat.ltb_lt in Hs. apply (Balanced_section true [] 0 shard (APut shard :: noteExpired n noted)); [lia|]. apply (Balanced_app _ _ [APut shard]).
      * apply (Balanced_put _ _ [shard]). set_solver.
      * eapply Balanced_weaken; [| |apply (Balanced_note [])]; [set_solver|lia].
    + apply Nat.eqb_eq in Hs. apply Balanced_groups; [done|]. apply Balanced_app; [by apply Balanced_put|apply Balanced_note].
  - case_decide; [apply Balanced_nil|apply Balanced_critical; lia].
Qed.

Lemma script_balanced op : opInRange n op = true → Balanced [] 0 (script n op).
Proof.
  destruct op as [shard expired|shard accounting noted|shard accounting noted|shard|g|visited sampled noted| | |noted| | |]; intros Hop; cbn [script].
  - apply Balanced_readKey.
  - apply Balanced_writeKey.
  - apply Balanced_app; [apply Balanced_writeKey|apply Balanced_critical; lia].
  - apply Balanced_critical. lia.
  - apply Nat.eqb_eq in Hop. apply Balanced_groups; [done|by apply Balanced_put].
  - by apply Balanced_evict.
  - apply Balanced_readAll.
  - apply Balanced_writeAll, Balanced_app; [|apply Balanced_critical; unfold writerMu; lia]. apply Balanced_get. intros i Hi. left. apply list_elem_of_fmap. by exists i.
  - apply Balanced_sweepAll.
  - apply Balanced_critical. lia.
  - apply Balanced_critical. lia.
  - apply Balanced_critical. lia.
Qed.

Lemma program_disciplined ops : Forall (λ op, opInRange n op = true) ops → disciplined [] (ops ≫= script n) = true.
Proof.
  intros Hops. assert (Balanced [] 0 (ops ≫= script n)) as H.
  { induction Hops as [|op ops Hop Hops IH]; [apply Balanced_nil|]. cbn [mbind list_bind]. apply Balanced_app; [by apply script_balanced|done]. }
  specialize (H [] []). rewrite app_nil_r in H. by apply H.
Qed.
End Disciplined.

(** ** The invariant *)

Definition holding (i : nat) (g : goroutine) : bool := writing i g || reading i g.

Record LocksInv (gs : list goroutine) : Prop := {
  li_disc : ∀ t g, gs !! t = Some g → disciplined (held g) (todo g) = true;
  li_ann : ∀ t g, gs !! t = Some g → announced g = true → ∃ i rest, todo g = ALock i :: rest;
  (** a writer is alone *)
  li_excl : ∀ t t' g g' i, gs !! t = Some g → gs !! t' = Some g' → t ≠ t' → writing i g = true → holding i g' = false;
  (** and so is an announced one, but for readers *)
  li_wait : ∀ t t' g g' i, gs !! t = Some g → gs !! t' = Some g' → t ≠ t' → waiting i g = true → claimed i g' = false
}.

Lemma existsb_none (P : goroutine → bool) gs t g : existsb P gs = false → gs !! t = Some g → P g = false.
Proof.
  intros H Ht. destruct (P g) eqn:E; [|done]. assert (existsb P gs = true) as H'; [|congruence].
  apply existsb_exists. exists g. split; [|done]. by eapply list_elem_of_In, list_elem_of_lookup_2.
Qed.

Lemma writing_cons i j w h a td : writing i (mkG ((j, w) :: h) a td) = (bool_decide (i = j) && w) || writing i (mkG h a td).
Proof.
  unfold writing. cbn [held]. apply eq_bool_prop_intro. rewrite orb_True, andb_True, !bool_decide_spec, elem_of_cons. destruct w; naive_solver.
Qed.

Lemma reading_cons i j w h a td : reading i (mkG ((j, w) :: h) a td) = (bool_decide (i = j) && negb w) || reading i (mkG h a td).
Proof.
  unfold reading. cbn [held]. apply eq_bool_prop_intro. rewrite orb_True, andb_True, !bool_decide_spec, elem_of_cons. destruct w; naive_solver.
Qed.

(** Replacing one goroutine: the pairwise clauses only need checking against the others. *)
Lemma LocksInv_update gs t g g' :
  LocksInv gs → gs !! t = Some g →
  disciplined (held g') (todo g') = true → (announced g' = true → ∃ i rest, todo g' = ALock i :: rest) →
  (∀ t2 g2 i, gs !! t2 = Some g2 → t2 ≠ t →
    (writing i g' = true → holding i g2 = false) ∧ (writing i g2 = true → holding i g' = false)
    ∧ (waiting i g' = true → claimed i g2 = false) ∧ (waiting i g2 = true → claimed i g' = false)) →
  LocksInv (<[t := g']> gs).
Proof.
  intros [I1 I2 I3 I4] Ht Hd Ha Hp.
  assert (∀ t1 g1, <[t := g']> gs !! t1 = Some g1 → (t1 = t ∧ g1 = g') ∨ (t1 ≠ t ∧ gs !! t1 = Some g1)) as Hl.
  { intros t1 g1 H1. apply list_lookup_insert_Some in H1 as [(-> & <- & _)|(Hne & H1)]; [by left|by right]. }
  split.
  - intros t1 g1 [[-> ->]|[_ H1]]%Hl; [done|by eapply I1].
  - intros t1 g1 [[-> ->]|[_ H1]]%Hl; [done|by eapply I2].
  - intros t1 t2 g1 g2 i [[-> ->]|[Hn1 H1]]%Hl [[-> ->]|[Hn2 H2]]%Hl Hne; [done|by apply (Hp t2)|by apply (Hp t1)|by eapply I3].
  - intros t1 t2 g1 g2 i [[-> ->]|[Hn1 H1]]%Hl [[-> ->]|[Hn2 H2]]%Hl Hne; [done|by apply (Hp t2)|by apply (Hp t1)|by eapply I4].
Qed.

Lemma claimed_false i g : claimed i g = false ↔ writing i g = false ∧ waiting i g = false.
Proof. unfold claimed. apply orb_false_iff. Qed.
Lemma holding_false i g : holding i g = false ↔ writing i g = false ∧ reading i g = false.
Proof. unfold holding. apply orb_false_iff. Qed.

Lemma waiting_false i g : announced g = false → waiting i g = false.
Proof. unfold waiting. by intros ->. Qed.

(** Announcing. *)
Lemma announce_inv gs t g i rest : LocksInv gs → gs !! t = Some g → todo g = ALock i :: rest → announced g = false →
  existsb (claimed i) gs = false → LocksInv (<[t := mkG (held g) true (ALock i :: rest)]> gs).
Proof.
  intros HI Ht Htodo Ha Hfree. pose proof (li_disc _ HI t g Ht) as Hd. rewrite Htodo in Hd.
  apply (LocksInv_update gs t g); [done|done|done|by eexists _, _|].
  intros t2 g2 j H2 Hne. pose proof (existsb_none _ _ _ _ Hfree H2) as Hc.
  assert (writing j (mkG (held g) true (ALock i :: rest)) = writing j g) as -> by done.
  assert (holding j (mkG (held g) true (ALock i :: rest)) = holding j g) as -> by done.
  split_and!.
  - intros Hw. by eapply (li_excl _ HI t t2).
  - intros Hw. by eapply (li_excl _ HI t2 t).
  - unfold waiting at 1. cbn. intros ->%bool_decide_eq_true. done.
  - intros Hw. apply claimed_false. pose proof (li_wait _ HI t2 t g2 g j H2 Ht Hne Hw) as [Hw1 _]%claimed_false. split; [done|].
    unfold waiting. cbn. apply bool_decide_eq_false. intros ->. apply claimed_false in Hc as [_ Hc]. congruence.
Qed.

(** Getting the lock that was announced. *)
Lemma lock_inv gs t g i rest : LocksInv gs → gs !! t = Some g → todo g = ALock i :: rest → announced g = true →
  existsb (reading i) gs = false → LocksInv (<[t := mkG ((i, true) :: held g) false rest]> gs).
Proof.
  intros HI Ht Htodo Ha Hfree. pose proof (li_disc _ HI t g Ht) as Hd. rewrite Htodo in Hd. cbn [disciplined] in Hd. apply andb_true_iff in Hd as [_ Hd].
  apply (LocksInv_update gs t g); [done|done|done|done|].
  assert (waiting i g = true) as Hwait by (unfold waiting; rewrite Ha, Htodo; cbn; by apply bool_decide_eq_true).
  intros t2 g2 j H2 Hne. pose proof (existsb_none _ _ _ _ Hfree H2) as Hr.
  pose proof (li_wait _ HI t t2 g g2 i Ht H2 ltac:(done) Hwait) as [Hw2 Hwt2]%claimed_false.
  set (g' := mkG ((i, true) :: held g) false rest).
  assert (writing j g' = bool_decide (j = i) || writing j g) as Hw' by (unfold g'; rewrite writing_cons; by rewrite ?andb_true_r, ?andb_false_r).
  assert (reading j g' = reading j g) as Hr' by (unfold g'; rewrite reading_cons; cbn [negb]; by rewrite ?andb_true_r, ?andb_false_r).
  unfold holding, claimed. rewrite Hw', Hr', (waiting_false j g'), !orb_false_r by done.
  destruct (decide (j = i)) as [->|Hji].
  - rewrite bool_decide_eq_true_2 by done. cbn [orb]. rewrite Hw2, Hr, Hwt2. done.
  - rewrite bool_decide_eq_false_2 by done. cbn [orb]. split_and!; [|intros Hw|done|intros Hw].
    + intros Hw. by eapply (li_excl _ HI t t2).
    + by eapply (li_excl _ HI t2 t).
    + by pose proof (li_wait _ HI t2 t g2 g j H2 Ht Hne Hw) as [? _]%claimed_false.
Qed.

Lemma rlock_inv gs t g i rest : LocksInv gs → gs !! t = Some g → todo g = ARLock i :: rest →
  existsb (claimed i) gs = false → LocksInv (<[t := mkG ((i, false) :: held g) false rest]> gs).
Proof.
  intros HI Ht Htodo Hfree. pose proof (li_disc _ HI t g Ht) as Hd. rewrite Htodo in Hd. cbn [disciplined] in Hd. apply andb_true_iff in Hd as [_ Hd].
  apply (LocksInv_update gs t g); [done|done|done|done|].
  intros t2 g2 j H2 Hne. pose proof (existsb_none _ _ _ _ Hfree H2) as [Hw2 Hwt2]%claimed_false.
  set (g' := mkG ((i, false) :: held g) false rest).
  assert (writing j g' = writing j g) as Hw' by (unfold g'; rewrite writing_cons; by rewrite ?andb_true_r, ?andb_false_r).
  assert (reading j g' = bool_decide (j = i) || reading j g) as Hr' by (unfold g'; rewrite reading_cons; cbn [negb]; by rewrite ?andb_true_r, ?andb_false_r).
  unfold holding, claimed. rewrite Hw', Hr', (waiting_false j g'), !orb_false_r by done.
  split_and!; [|intros Hw|done|intros Hw].
  - intros Hw. by eapply (li_excl _ HI t t2).
  - pose proof (li_excl _ HI t2 t g2 g j H2 Ht Hne Hw) as [? ?]%holding_false. apply orb_false_iff. split; [done|]. apply orb_false_iff. split; [|done].
    apply bool_decide_eq_false. intros ->. congruence.
  - by pose proof (li_wait _ HI t2 t g2 g j H2 Ht Hne Hw) as [? _]%claimed_false.
Qed.

Lemma release_inv gs t g w i rest : LocksInv gs → gs !! t = Some g → todo g = give w i :: rest →
  LocksInv (<[t := mkG (release (i, w) (held g)) false rest]> gs).
Proof.
  intros HI Ht Htodo. pose proof (li_disc _ HI t g Ht) as Hd. rewrite Htodo in Hd.
  assert (disciplined (release (i, w) (held g)) rest = true) as Hd' by (destruct w; cbn [give disciplined] in Hd; by apply andb_true_iff in Hd as [_ Hd]).
  apply (LocksInv_update gs t g); [done|done|done|done|].
  intros t2 g2 j H2 Hne. set (g' := mkG _ false rest).
  assert (∀ k, writing k g' = true → writing k g = true) as Hw'.
  { intros k. unfold writing, g'. cbn [held]. rewrite !bool_decide_eq_true, elem_of_release. tauto. }
  assert (∀ k, reading k g' = true → reading k g = true) as Hr'.
  { intros k. unfold reading, g'. cbn [held]. rewrite !bool_decide_eq_true, elem_of_release. tauto. }
  assert (∀ a b : bool, (a = true → b = true) → b = false → a = false) as Hc by (intros [] []; naive_solver).
  split_and!; [|intros Hw|by rewrite waiting_false|intros Hw].
  - intros Hw. eapply (li_excl _ HI t t2); [done..|by apply Hw'].
  - pose proof (li_excl _ HI t2 t g2 g j H2 Ht Hne Hw) as [? ?]%holding_false. apply holding_false. split; [by apply (Hc _ _ (Hw' j))|by apply (Hc _ _ (Hr' j))].
  - pose proof (li_wait _ HI t2 t g2 g j H2 Ht Hne Hw) as [? _]%claimed_false. apply claimed_false. split; [by apply (Hc _ _ (Hw' j))|by apply waiting_false].
Qed.

Lemma access_inv gs t g a rest : LocksInv gs → gs !! t = Some g → todo g = a :: rest → disciplined (held g) rest = true →
  LocksInv (<[t := mkG (held g) false rest]> gs).
Proof.
  intros HI Ht Htodo Hd. apply (LocksInv_update gs t g); [done..|]. intros t2 g2 j H2 Hne.
  assert (writing j (mkG (held g) false rest) = writing j g) as -> by done. assert (holding j (mkG (held g) false rest) = holding j g) as -> by done.
  split_and!; [|intros Hw|by rewrite waiting_false|intros Hw].
  - intros Hw. by eapply (li_excl _ HI t t2).
  - by eapply (li_excl _ HI t2 t).
  - pose proof (li_wait _ HI t2 t g2 g j H2 Ht Hne Hw) as [? _]%claimed_false. apply claimed_false. split; [done|by apply waiting_false].
Qed.

Lemma advance_inv gs t gs' : LocksInv gs → advance gs t = Some gs' → LocksInv gs'.
Proof.
  intros HI. unfold advance. destruct (gs !! t) as [g|] eqn:Ht; [|done]. pose proof (li_disc _ HI t g Ht) as Hd.
  destruct (todo g) as [|[i|i|i|i|i|i] rest] eqn:Htodo; [done| | | | | |].
  - destruct (announced g) eqn:Ha.
    + destruct (existsb _ gs) eqn:Hf; [done|]. intros [= <-]. by apply lock_inv.
    + destruct (existsb _ gs) eqn:Hf; [done|]. intros [= <-]. by apply announce_inv.
  - intros [= <-]. by apply (release_inv gs t g true).
  - destruct (existsb _ gs) eqn:Hf; [done|]. intros [= <-]. by apply rlock_inv.
  - intros [= <-]. by apply (release_inv gs t g false).
  - intros [= <-]. cbn [disciplined] in Hd. apply andb_true_iff in Hd as [_ Hd]. by eapply access_inv.
  - intros [= <-]. cbn [disciplined] in Hd. apply andb_true_iff in Hd as [_ Hd]. by eapply access_inv.
Qed.

Lemma start_inv n programs : Forall (Forall (λ op, opInRange n op = true)) programs → LocksInv (start n programs).
Proof.
  intros Hp. assert (∀ t g, start n programs !! t = Some g → held g = [] ∧ announced g = false ∧ disciplined [] (todo g) = true) as H.
  { unfold start. intros t g Ht. rewrite list_lookup_fmap in Ht. destruct (programs !! t) as [ops|] eqn:E; [|done]. injection Ht as <-.
    split_and!; [done..|]. cbn [todo]. apply program_disciplined. by eapply Forall_lookup_1. }
  split.
  - intros t g (Hh & _ & Hd)%H. by rewrite Hh.
  - intros t g (_ & Ha & _)%H. by rewrite Ha.
  - intros t t' g g' i (Hh & _)%H _ _. unfold writing. rewrite Hh. by intros []%bool_decide_eq_true%elem_of_nil.
  - intros t t' g g' i (_ & Ha & _)%H _ _. by rewrite waiting_false.
Qed.

Lemma reaches_inv gs gs' : LocksInv gs → reaches gs gs' → LocksInv gs'.
Proof. intros HI. induction 1; [done|]. eapply advance_inv; [by apply IHreaches|done]. Qed.

(** ** Progress *)

Definition lockIndex (a : action) : nat := match a with ALock i | AUnlock i | ARLock i | ARUnlock i | AGet i | APut i => i end.

(** The lock a goroutine takes next. *)
Definition target (g : goroutine) : option nat :=
  match todo g with ALock i :: _ | ARLock i :: _ => Some i | _ => None end.

Definition stuck (gs : list goroutine) : Prop := ∀ t, advance gs t = None.

Section Stuck.
Context (gs : list goroutine) (HI : LocksInv gs) (Hstuck : stuck gs).

(** In a stuck state a goroutine with something to do waits for a lock above all it holds. *)
Lemma stuck_target t g : gs !! t = Some g → todo g ≠ [] → ∃ i, target g = Some i ∧ below i (held g) = true.
Proof.
  intros Ht Hne. pose proof (Hstuck t) as Hs. pose proof (li_disc _ HI t g Ht) as Hd. unfold advance in Hs. rewrite Ht in Hs. unfold target.
  destruct (todo g) as [|[i|i|i|i|i|i] rest]; [done| |done| |done|done|done]; cbn [disciplined] in Hd; apply andb_true_iff in Hd as [Hb _]; by exists i.
Qed.

Lemma holder_next t g i : gs !! t = Some g → holding i g = true → ∃ j, target g = Some j ∧ (i < j)%nat.
Proof.
  intros Ht Hh. assert (∃ w, (i, w) ∈ held g) as [w Hin].
  { unfold holding, writing, reading in Hh. apply orb_true_iff in Hh as [?%bool_decide_eq_true|?%bool_decide_eq_true]; by eexists. }
  destruct (stuck_target t g Ht) as (j & Hj & Hb).
  - intros Hn. pose proof (li_disc _ HI t g Ht) as Hd. rewrite Hn in Hd. cbn in Hd. apply bool_decide_eq_true in Hd. rewrite Hd in Hin. by apply elem_of_nil in Hin.
  - exists j. split; [done|]. by eapply below_elem.
Qed.

Lemma existsb_some (P : goroutine → bool) : existsb P gs = true → ∃ t g, gs !! t = Some g ∧ P g = true.
Proof. intros (g & Hin & HP)%existsb_exists. apply list_elem_of_In, list_elem_of_lookup in Hin as [t Ht]. by exists t, g. Qed.

(** An announced writer is kept out by a reader, who waits further up. *)
Lemma waiting_next t g i : gs !! t = Some g → waiting i g = true → ∃ t' g' j, gs !! t' = Some g' ∧ target g' = Some j ∧ (i < j)%nat.
Proof.
  intros Ht Hw. unfold waiting in Hw. apply andb_true_iff in Hw as [Ha Hw]. pose proof (Hstuck t) as Hs. unfold advance in Hs. rewrite Ht in Hs.
  destruct (todo g) as [|[j|j|j|j|j|j] rest]; try done. apply bool_decide_eq_true in Hw as <-. rewrite Ha in Hs.
  destruct (existsb (reading i) gs) eqn:Hr; [|done]. apply existsb_some in Hr as (t' & g' & Ht' & Hr').
  destruct (holder_next t' g' i Ht') as (j & Hj & Hij); [unfold holding; rewrite Hr'; apply orb_true_r|]. by exists t', g', j.
Qed.

Lemma claimed_next t g i : gs !! t = Some g → claimed i g = true → ∃ t' g' j, gs !! t' = Some g' ∧ target g' = Some j ∧ (i < j)%nat.
Proof.
  intros Ht [Hw|Hw]%orb_true_iff; [|by eapply waiting_next].
  destruct (holder_next t g i Ht) as (j & Hj & Hij); [unfold holding; by rewrite Hw|]. by exists t, g, j.
Qed.

Lemma blocked_next t g i : gs !! t = Some g → target g = Some i → ∃ t' g' j, gs !! t' = Some g' ∧ target g' = Some j ∧ (i < j)%nat.
Proof.
  intros Ht Htar. pose proof (Hstuck t) as Hs. unfold advance in Hs. rewrite Ht in Hs. unfold target in Htar.
  destruct (todo g) as [|[j|j|j|j|j|j] rest] eqn:Htodo; try done; injection Htar as <-.
  - destruct (announced g) eqn:Ha.
    + apply (waiting_next t g j Ht). unfold waiting. rewrite Ha, Htodo. by apply bool_decide_eq_true.
    + destruct (existsb (claimed j) gs) eqn:Hc; [|done]. apply existsb_some in Hc as (t' & g' & Ht' & Hc). by eapply claimed_next.
  - destruct (existsb (claimed j) gs) eqn:Hc; [|done]. apply existsb_some in Hc as (t' & g' & Ht' & Hc). by eapply claimed_next.
Qed.

(** Waiting goes up for ever, but there is a highest lock. *)
Lemma stuck_finished t g : gs !! t = Some g → todo g = [].
Proof.
  intros Ht. destruct (decide (todo g = [])) as [|Hne]; [done|]. exfalso.
  destruct (stuck_target t g Ht Hne) as (i & Hi & _). clear Hne.
  set (top := max_list (g ← gs; lockIndex <$> todo g)).
  assert (∀ t g i, gs !! t = Some g → target g = Some i → (i ≤ top)%nat) as Htop.
  { intros t0 g0 i0 Ht0 Hi0. apply max_list_elem_of_le. apply list_elem_of_bind. exists g0. split; [|by eapply list_elem_of_lookup_2].
    unfold target in Hi0. destruct (todo g0) as [|[j|j|j|j|j|j] rest]; try done; injection Hi0 as <-; by left. }
  assert (∀ k t g i, gs !! t = Some g → target g = Some i → (top - i ≤ k)%nat → False) as Hno; [|by eapply Hno].
  clear t g Ht i Hi. induction k as [|k IH]; intros t g i Ht Hi Hk; destruct (blocked_next t g i Ht Hi) as (t' & g' & j & Ht' & Hj & Hij);
    pose proof (Htop t' g' j Ht' Hj); [lia|]. eapply (IH t' g' j); [done|done|lia].
Qed.
End Stuck.

(** ** Termination *)

(** Lock operations left; taking a write lock is two. *)
Definition effort (g : goroutine) : nat := 2 * length (todo g) - (if announced g then 1 else 0).
Definition work (gs : list goroutine) : nat := sum_list_with effort gs.

Lemma work_insert gs t g g' : gs !! t = Some g → (effort g' < effort g)%nat → (work (<[t := g']> gs) < work gs)%nat.
Proof.
  unfold work. revert t. induction gs as [|g0 gs IH]; intros [|t] Ht Hlt; [done|done|injection Ht as ->; cbn [insert list_insert sum_list_with]; lia|].
  specialize (IH t Ht Hlt). change (<[S t := g']> (g0 :: gs)) with (g0 :: <[t := g']> gs). cbn [sum_list_with].
  apply Nat.add_lt_mono_l. exact IH.
Qed.

Lemma advance_work gs t gs' : advance gs t = Some gs' → (work gs' < work gs)%nat.
Proof.
  unfold advance. destruct (gs !! t) as [g|] eqn:Ht; [|done]. destruct (todo g) as [|[i|i|i|i|i|i] rest] eqn:Htodo; [done| | | | | |];
    destruct (announced g) eqn:Ha; try (destruct (existsb _ gs); [done|]); intros [= <-]; (apply (work_insert _ _ g); [done|]);
    unfold effort; rewrite Htodo, Ha; cbn [todo announced length]; lia.
Qed.

Definition finished (g : goroutine) : Prop := todo g = [] ∧ held g = [].

Lemma finished_stuck gs : LocksInv gs → stuck gs → Forall finished gs.
Proof.
  intros HI Hs. apply Forall_forall. intros g [t Ht]%list_elem_of_lookup. pose proof (stuck_finished gs HI Hs t g Ht) as Hn. split; [done|].
  pose proof (li_disc _ HI t g Ht) as Hd. rewrite Hn in Hd. by apply bool_decide_eq_true in Hd.
Qed.

Lemma stuck_dec gs : stuck gs ∨ ∃ t gs', advance gs t = Some gs'.
Proof.
  destruct (decide (Forall (λ t, advance gs t = None) (seq 0 (length gs)))) as [Hall|Hn].
  - left. intros t. destruct (decide (t < length gs)%nat) as [Hl|Hl].
    + rewrite Forall_forall in Hall. apply Hall, elem_of_seq. lia.
    + unfold advance. by rewrite lookup_ge_None_2 by lia.
  - right. apply not_Forall_Exists in Hn; [|intros t; apply _]. apply Exists_exists in Hn as (t & _ & Ht).
    destruct (advance gs t) as [gs'|] eqn:E; [by exists t, gs'|done].
Qed.

Lemma reaches_trans gs gs1 gs2 : reaches gs gs1 → reaches gs1 gs2 → reaches gs gs2.
Proof. intros H. induction 1; [done|]. econstructor; [by apply IHreaches|done]. Qed.

Lemma can_finish gs : LocksInv gs → ∃ gs', reaches gs gs' ∧ Forall finished gs'.
Proof.
  induction gs as [gs IH] using (well_founded_induction (Wf_nat.well_founded_ltof _ work)). intros HI.
  destruct (stuck_dec gs) as [Hs|(t & gs1 & H1)].
  - exists gs. split; [constructor|by apply finished_stuck].
  - destruct (IH gs1) as (gs' & H2 & H3); [by eapply advance_work|by eapply advance_inv|]. exists gs'. split; [|done].
    eapply reaches_trans; [|done]. econstructor; [constructor|done].
Qed.

(** ** Theorems *)

(** C21: The locks of the store never deadlock.  Any number of goroutines run any
    operations of the store, snapshots with the write barrier and appends to the
    file among them.  In every state they can reach, all are finished and hold
    nothing, or one of them can go on; every step leaves less to do, so every
    schedule ends, and from every state all of them can finish. *)
Theorem store_locks_no_deadlock n programs gs :
  Forall (Forall (λ op, opInRange n op = true)) programs → reaches (start n programs) gs →
  (Forall finished gs ∨ ∃ t gs', advance gs t = Some gs')
  ∧ (∀ t gs', advance gs t = Some gs' → (work gs' < work gs)%nat)
  ∧ ∃ gs', reaches gs gs' ∧ Forall finished gs'.
Proof.
  intros Hp Hr. assert (LocksInv gs) as HI by (eapply reaches_inv; [by apply start_inv|done]). split_and!.
  - destruct (stuck_dec gs) as [Hs|Hs]; [left; by apply finished_stuck|by right].
  - intros t gs'. apply advance_work.
  - by apply can_finish.
Qed.

(** DEL of keys in shards 1 and 3, a read that finds an expired key, a rewrite's
    snapshot, a sweep, and a client that appends. *)
Definition demoGroups : shardKeyGroups := mkGroups [0; 1; 0; 2]%nat [0; 0; 1; 1]%nat [bs "a"; bs "b"; bs "c"].
Definition demoPrograms : list (list lockOp) :=
  [[LDeleteMany demoGroups; LReadKey 1 true]; [LWriteBarrier; LAppend]; [LEvict [2; 3; 0] (Some (inr demoGroups)) 1; LReadAll]]%nat.

(** The goroutines step in the given order. *)
Definition schedule (ts : list nat) (gs : list goroutine) : list goroutine :=
  foldl (λ gs t, default gs (advance gs t)) gs ts.

Lemma schedule_reaches ts : ∀ gs, reaches gs (schedule ts gs).
Proof.
  induction ts as [|t ts IH]; intros gs; [constructor|]. cbn [schedule foldl]. destruct (advance gs t) as [gs1|] eqn:E; [|apply IH].
  eapply reaches_trans; [|apply IH]. econstructor; [constructor|done].
Qed.

Lemma store_locks_no_deadlock_witness :
  let gs := schedule [0; 0; 1; 1; 0; 2; 2; 1]%nat (start 4 demoPrograms) in
  existsb (λ g, bool_decide (announced g = true)) gs = true ∧ ∃ gs', reaches gs gs' ∧ Forall finished gs'.
Proof.
  intros gs. split; [vm_compute; reflexivity|].
  refine (proj2 (proj2 (store_locks_no_deadlock 4 demoPrograms gs _ _))).
  - repeat constructor.
  - apply schedule_reaches.
Defined.

(** The cell a goroutine is about to access, [true] to change it. *)
Definition accesses (i : nat) (g : goroutine) : option bool :=
  match todo g with
  | AGet j :: _ => if decide (i = j) then Some false else None
  | APut j :: _ => if decide (i = j) then Some true else None
  | _ => None
  end.

(** An access is behind its lock: programs are disciplined. *)
Lemma access_locked gs t g i w : LocksInv gs → gs !! t = Some g → accesses i g = Some w → if w then writing i g = true else holding i g = true.
Proof.
  intros HI Ht Ha. pose proof (li_disc _ HI t g Ht) as Hd. unfold accesses in Ha. destruct (todo g) as [|[j|j|j|j|j|j] rest]; try done; case_decide as Hij; try done; subst j; injection Ha as <-;
    cbn [disciplined] in Hd; apply andb_true_iff in Hd as [Hd%bool_decide_eq_true _].
  - unfold holding, writing, reading. apply orb_true_iff. destruct Hd as [Hd|Hd]; [left|right]; by apply bool_decide_eq_true.
  - by apply bool_decide_eq_true.
Qed.

(** C22: The operations of the store do not race, and their sections are atomic.
    Any number of goroutines run any operations.  In every state they can reach,
    no two of them are about to access the same shard, expiration list, waiter
    queue or file buffer, unless both only read; and while a goroutine holds the
    lock of one, even for reading, no other is about to change it, so what an
    operation finds between its lock and its unlock is changed by nobody else. *)
Theorem store_sections_race_free n programs gs t t' g g' i :
  Forall (Forall (λ op, opInRange n op = true)) programs → reaches (start n programs) gs →
  gs !! t = Some g → gs !! t' = Some g' → t ≠ t' →
  (∀ w w', accesses i g = Some w → accesses i g' = Some w' → w = false ∧ w' = false)
  ∧ (holding i g' = true → accesses i g ≠ Some true)
  ∧ (writing i g' = true → accesses i g = None).
Proof.
  intros Hp Hr Ht Ht' Hne. assert (LocksInv gs) as HI by (eapply reaches_inv; [by apply start_inv|done]).
  assert (∀ w, accesses i g = Some w → if w then holding i g' = false else writing i g' = false) as Halone.
  { intros w Ha. pose proof (access_locked gs t g i w HI Ht Ha) as Hl. destruct w; [by eapply (li_excl _ HI t t')|].
    destruct (writing i g') eqn:Hw; [|done]. rewrite (li_excl _ HI t' t g' g i) in Hl; congruence. }
  split_and!.
  - intros w w' Ha Ha'. pose proof (Halone w Ha) as H1. pose proof (access_locked gs t' g' i w' HI Ht' Ha') as H2.
    destruct w, w'; try done; try congruence. unfold holding in H1. rewrite H2 in H1. discriminate.
  - intros Hh Ha. apply Halone in Ha. congruence.
  - intros Hw. destruct (accesses i g) as [w|] eqn:Ha; [|done]. specialize (Halone w eq_refl). destruct w; [|congruence].
    unfold holding in Halone. rewrite Hw in Halone. discriminate.
Qed.

(** The delete is inside its section over shards 1 and 3 while the sweep reads
    shard 2 and the snapshot waits. *)
Lemma store_sections_race_free_witness :
  let gs := schedule [0; 0; 2; 1; 1; 0; 0]%nat (start 4 demoPrograms) in
  ∃ g0 g1 g2, gs !! 0%nat = Some g0 ∧ gs !! 1%nat = Some g1 ∧ gs !! 2%nat = Some g2
    ∧ accesses 1 g0 = Some true ∧ accesses 2 g2 = Some false ∧ accesses 1 g2 ≠ Some true ∧ accesses 3 g1 = None.
Proof.
  intros gs. assert (∃ g0 g1 g2, gs !! 0%nat = Some g0 ∧ gs !! 1%nat = Some g1 ∧ gs !! 2%nat = Some g2
    ∧ accesses 1 g0 = Some true ∧ accesses 2 g2 = Some false ∧ holding 1 g0 = true ∧ writing 3 g0 = true) as (g0 & g1 & g2 & H0 & H1 & H2 & A0 & A2 & L1 & L3)
    by (eexists _, _, _; split_and!; [vm_compute; reflexivity..]).
  exists g0, g1, g2. split; [exact H0|]. split; [exact H1|]. split; [exact H2|]. split; [exact A0|]. split; [exact A2|]. split.
  - apply (store_sections_race_free 4 demoPrograms gs 2 0 g2 g0 1); [repeat constructor|apply schedule_reaches|exact H2|exact H0|discriminate|exact L1].
  - apply (store_sections_race_free 4 demoPrograms gs 1 0 g1 g0 3); [repeat constructor|apply schedule_reaches|exact H1|exact H0|discriminate|exact L3].
Defined.
