(* ===== verification/StoreFacts.v ===== *)
(** * The store: invariants of its bookkeeping

    The invariant [StoreInv]: every key lies in the shard its hash names, the
    key-kind counters are the numbers of keys of each kind, every stored value
    is well formed and no stored collection is empty.  Totals over the keyspace
    ([stotal]) are tracked through the primitive updates, the recalculation of
    the used memory and the eviction loop. *)

From S2P Require Import Prelude Strconv GoLib IntSet CompactHash Float64 CompactZSet SkipList SkipListFacts Stream.
From S2P Require Import ValueObject ValueFacts ListWaiters Store.

Abbreviation vsize := approximateValueSize.

(** ** Totals over the keyspace *)

Definition mtotal (f : bytes → ValueObject → Z) (m : Shard) : Z :=
  foldr (λ p acc, f p.1 p.2 + acc) 0 (map_to_list m).

Definition stotal (f : bytes → ValueObject → Z) (s : Store) : Z :=
  foldr (λ m acc, mtotal f m + acc) 0 (shards s).

(** Folding additions over any permutation of the entries. *)
Lemma foldr_add_perm {A} (f : A → Z) (l1 l2 : list A) :
  l1 ≡ₚ l2 → foldr (λ p acc, f p + acc) 0 l1 = foldr (λ p acc, f p + acc) 0 l2.
Proof. induction 1; cbn; lia. Qed.

Lemma foldl_add_foldr {A} (f : A → Z) (l : list A) : ∀ acc,
  foldl (λ acc p, acc + f p) acc l = acc + foldr (λ p acc, f p + acc) 0 l.
Proof. induction l as [|x l IH]; intros acc; cbn; [lia|]. rewrite IH. lia. Qed.

Definition fOpt (f : bytes → ValueObject → Z) (k : bytes) (v : option ValueObject) : Z :=
  match v with Some v => f k v | None => 0 end.

Lemma mtotal_delete f m k : mtotal f (delete k m) = mtotal f m - fOpt f k (m !! k).
Proof.
  unfold mtotal, fOpt. destruct (m !! k) as [v|] eqn:E.
  - rewrite (foldr_add_perm (λ p, f p.1 p.2) (map_to_list m) ((k, v) :: map_to_list (delete k m))).
    + cbn. lia.
    + symmetry. by apply map_to_list_delete.
  - rewrite delete_id by done. lia.
Qed.

Lemma mtotal_insert f m k v : mtotal f (<[k := v]> m) = mtotal f m - fOpt f k (m !! k) + f k v.
Proof.
  rewrite <- insert_delete_eq, <- mtotal_delete. unfold mtotal.
  rewrite (foldr_add_perm (λ p, f p.1 p.2) _ ((k, v) :: map_to_list (delete k m))); [cbn; lia|].
  apply map_to_list_insert, lookup_delete_eq.
Qed.

Lemma mtotal_order (f : bytes → ValueObject → Z) (m : Shard) (l : list (bytes * ValueObject)) :
  l ≡ₚ map_to_list m → foldr (λ p acc, f p.1 p.2 + acc) 0 l = mtotal f m.
Proof. apply (foldr_add_perm (λ p, f p.1 p.2)). Qed.

Section Facts.
Context {E : Env}.
Implicit Types (s : Store) (f : bytes → ValueObject → Z).

Lemma stotal_putShard f i m s :
  (i < length (shards s))%nat → stotal f (putShard i m s) = stotal f s - mtotal f (shardAt s i) + mtotal f m.
Proof.
  unfold stotal, putShard, shardAt. cbn [shards setShards]. generalize (shards s). intros l. revert i.
  induction l as [|m0 l IH]; intros i Hi; cbn in Hi; [lia|]. destruct i as [|i].
  - change (<[0%nat := m]> (m0 :: l)) with (m :: l). change ((m0 :: l) !! 0%nat) with (Some m0). cbn [foldr from_option id]. lia.
  - change (<[S i := m]> (m0 :: l)) with (m0 :: <[i := m]> l). change ((m0 :: l) !! S i) with (l !! i). cbn [foldr].
    rewrite IH by lia. lia.
Qed.

Lemma shardAt_putShard i j m s :
  (i < length (shards s))%nat → shardAt (putShard i m s) j = if decide (j = i) then m else shardAt s j.
Proof.
  intros Hi. unfold shardAt, putShard. cbn [shards setShards]. case_decide as Hj.
  - subst. by rewrite list_lookup_insert_eq.
  - by rewrite list_lookup_insert_ne.
Qed.

(** ** The invariant *)

(** What may be stored: a well-formed value, and no empty collection. *)
Definition GoodValue (v : ValueObject) : Prop :=
  ValueWf v ∧
  match Kind v with
  | ValueKindString | ValueKindStream => True
  | ValueKindList => vList v ≠ []
  | ValueKindHash => hashAbs v ≠ ∅
  | ValueKindSet => setAbs v ≠ ∅
  | ValueKindZSet => zsetAbs v ≠ ∅
  end.

Definition isKind (kind : ValueKind) (_ : bytes) (v : ValueObject) : Z := if decide (Kind v = kind) then 1 else 0.

Record StoreInv s : Prop := {
  si_len : (0 < length (shards s))%nat;
  si_place : ∀ i k, is_Some (shardAt s i !! k) → i = shardIndex s k;
  si_counts : keyKindCounts s = (λ kind, stotal (isKind kind) s) <$> keyStatsKinds;
  si_vals : ∀ i k v, shardAt s i !! k = Some v → GoodValue v;
  si_waiters : WaitersWf (storeWaiters s)
}.

Lemma shardIndex_lt s k : (0 < length (shards s))%nat → (shardIndex s k < length (shards s))%nat.
Proof.
  intros Hl. unfold shardIndex, zlen. pose proof (Z.mod_pos_bound (seedHash k) (Z.of_nat (length (shards s)))). lia.
Qed.

Lemma shardIndex_shards s s' k : length (shards s') = length (shards s) → shardIndex s' k = shardIndex s k.
Proof. intros H. unfold shardIndex, zlen. by rewrite H. Qed.

Lemma shards_putShard i m s : length (shards (putShard i m s)) = length (shards s).
Proof. apply length_insert. Qed.

(** *** Counters *)

Lemma adjust_shards v d s : shards (adjustKeyKindCount v d s) = shards s.
Proof. destruct v as [v|]; cbn [adjustKeyKindCount]; [|done]. by destruct (keyStatsKindIndex (Kind v)). Qed.

Lemma keyStatsKindIndex_spec kind :
  ∃ i, keyStatsKindIndex kind = Some i ∧ keyStatsKinds !! i = Some kind
    ∧ ∀ j kind', keyStatsKinds !! j = Some kind' → kind' = kind → j = i.
Proof.
  destruct kind; (eexists; split; [reflexivity|]; split; [reflexivity|]);
    intros j kind' Hj ->; do 6 (destruct j as [|j]; [cbn in Hj; first [reflexivity | discriminate Hj]|]); discriminate Hj.
Qed.

Lemma adjust_counts v d s (g : ValueKind → Z) :
  keyKindCounts s = g <$> keyStatsKinds →
  keyKindCounts (adjustKeyKindCount v d s)
  = (λ kind, g kind + d * fOpt (isKind kind) [] v) <$> keyStatsKinds.
Proof.
  intros Hg. destruct v as [v|]; cbn [adjustKeyKindCount fOpt].
  - destruct (keyStatsKindIndex_spec (Kind v)) as (i & -> & Hi & Huniq). cbn [keyKindCounts setCounts]. rewrite Hg.
    apply list_eq. intros j. rewrite list_lookup_fmap. destruct (decide (i = j)) as [->|Hne].
    + rewrite list_lookup_alter_eq, list_lookup_fmap, Hi. cbn. unfold isKind. rewrite decide_True by done. f_equal. lia.
    + rewrite list_lookup_alter_ne, list_lookup_fmap by done. destruct (keyStatsKinds !! j) as [kind|] eqn:Ej; [|done].
      cbn. unfold isKind. rewrite decide_False; [f_equal; lia|]. intros Heq. apply Hne. symmetry. by eapply Huniq.
  - rewrite Hg. apply list_fmap_ext. intros. lia.
Qed.

(** *** Primitive updates *)

(** The other fields of the store but the clock, which no keyspace update touches. *)
Definition sameRest s s' : Prop :=
  length (shards s') = length (shards s) ∧ maxMemory s' = maxMemory s
  ∧ storeWaiters s' = storeWaiters s ∧ memoryEvictionSampleSize s' = memoryEvictionSampleSize s
  ∧ hasListener s' = hasListener s ∧ published s' = published s.

#[global] Instance sameRest_preorder : PreOrder sameRest.
Proof. split; unfold sameRest; [by intros s|]. intros s1 s2 s3. naive_solver congruence. Qed.

Lemma adjust_rest v d s :
  sameRest s (adjustKeyKindCount v d s) ∧ usedMemory (adjustKeyKindCount v d s) = usedMemory s
  ∧ pendingExpired (adjustKeyKindCount v d s) = pendingExpired s.
Proof. destruct v as [v|]; cbn [adjustKeyKindCount]; [|done]. by destruct (keyStatsKindIndex (Kind v)). Qed.

Lemma shardAt_adjust v d s i : shardAt (adjustKeyKindCount v d s) i = shardAt s i.
Proof. unfold shardAt. by rewrite adjust_shards. Qed.

Lemma setKeyLocked_shards i k v s :
  shards (setKeyLocked i k v s) = <[i := <[k := v]> (shardAt s i)]> (shards s).
Proof. unfold setKeyLocked. cbn zeta. case_match; cbn [putShard setShards shards]; by rewrite ?shardAt_adjust, ?adjust_shards. Qed.

Lemma removeKeyLocked_shards i k s :
  shards (removeKeyLocked i k s) = <[i := delete k (shardAt s i)]> (shards s).
Proof. unfold removeKeyLocked. cbn zeta. cbn [putShard setShards shards]. by rewrite shardAt_adjust, adjust_shards. Qed.

Lemma setKeyLocked_rest i k v s :
  sameRest s (setKeyLocked i k v s) ∧ usedMemory (setKeyLocked i k v s) = usedMemory s
  ∧ pendingExpired (setKeyLocked i k v s) = pendingExpired s.
Proof.
  unfold setKeyLocked. cbn zeta.
  pose proof (adjust_rest (shardAt s i !! k) (-1) s) as (H1 & H2 & H3).
  pose proof (adjust_rest (Some v) 1 (adjustKeyKindCount (shardAt s i !! k) (-1) s)) as (H4 & H5 & H6).
  unfold sameRest in *. case_match; cbn [putShard setShards shards maxMemory ticks storeWaiters memoryEvictionSampleSize
    hasListener published usedMemory pendingExpired]; rewrite length_insert; naive_solver congruence.
Qed.

Lemma setKeyLocked_ticks i k v s : ticks (setKeyLocked i k v s) = ticks s.
Proof.
  unfold setKeyLocked, adjustKeyKindCount. cbn zeta. case_match; [|done]. cbn [putShard setShards ticks].
  destruct (shardAt s i !! k) as [v0|]; repeat case_match; done.
Qed.

Lemma removeKeyLocked_rest i k s :
  sameRest s (removeKeyLocked i k s) ∧ usedMemory (removeKeyLocked i k s) = usedMemory s
  ∧ pendingExpired (removeKeyLocked i k s) = pendingExpired s.
Proof.
  unfold removeKeyLocked. cbn zeta. pose proof (adjust_rest (shardAt s i !! k) (-1) s) as (H1 & H2 & H3).
  unfold sameRest in *. cbn [putShard setShards shards maxMemory ticks storeWaiters memoryEvictionSampleSize
    hasListener published usedMemory pendingExpired]. rewrite length_insert. naive_solver congruence.
Qed.

Lemma stotal_shards f s s' : shards s = shards s' → stotal f s = stotal f s'.
Proof. unfold stotal. by intros ->. Qed.

Lemma stotal_setKey f i k v s :
  (i < length (shards s))%nat →
  stotal f (setKeyLocked i k v s) = stotal f s - fOpt f k (shardAt s i !! k) + f k v.
Proof.
  intros Hi. rewrite (stotal_shards f _ (putShard i (<[k := v]> (shardAt s i)) s)) by apply setKeyLocked_shards.
  rewrite stotal_putShard, mtotal_insert by done. lia.
Qed.

Lemma stotal_removeKey f i k s :
  (i < length (shards s))%nat → stotal f (removeKeyLocked i k s) = stotal f s - fOpt f k (shardAt s i !! k).
Proof.
  intros Hi. rewrite (stotal_shards f _ (putShard i (delete k (shardAt s i)) s)) by apply removeKeyLocked_shards.
  rewrite stotal_putShard, mtotal_delete by done. lia.
Qed.

Lemma shardAt_setKey i k v s j :
  (i < length (shards s))%nat →
  shardAt (setKeyLocked i k v s) j = if decide (j = i) then <[k := v]> (shardAt s i) else shardAt s j.
Proof.
  intros Hi. rewrite <- (shardAt_putShard i j _ s Hi). unfold shardAt. by rewrite setKeyLocked_shards.
Qed.

Lemma shardAt_removeKey i k s j :
  (i < length (shards s))%nat →
  shardAt (removeKeyLocked i k s) j = if decide (j = i) then delete k (shardAt s i) else shardAt s j.
Proof.
  intros Hi. rewrite <- (shardAt_putShard i j _ s Hi). unfold shardAt. by rewrite removeKeyLocked_shards.
Qed.

Lemma setKeyLocked_counts i k v s :
  (i < length (shards s))%nat →
  keyKindCounts s = (λ kind, stotal (isKind kind) s) <$> keyStatsKinds →
  keyKindCounts (setKeyLocked i k v s) = (λ kind, stotal (isKind kind) (setKeyLocked i k v s)) <$> keyStatsKinds.
Proof.
  intros Hi Hc. transitivity ((λ kind, stotal (isKind kind) s - fOpt (isKind kind) k (shardAt s i !! k) + isKind kind k v) <$> keyStatsKinds);
    [|apply list_fmap_ext; intros; by rewrite stotal_setKey].
  unfold setKeyLocked. cbn zeta. destruct (shardAt s i !! k) as [p|] eqn:Ep.
  - case_bool_decide as Hk; cbn [negb putShard setShards keyKindCounts fOpt].
    + rewrite Hc. apply list_fmap_ext. intros j kind _. unfold isKind. rewrite Hk. lia.
    + rewrite (adjust_counts _ _ _ _ (adjust_counts _ _ _ _ Hc)). apply list_fmap_ext. intros j kind _.
      cbn [fOpt]. unfold isKind. lia.
  - cbn [negb putShard setShards keyKindCounts fOpt].
    rewrite (adjust_counts _ _ _ _ (adjust_counts _ _ _ _ Hc)). apply list_fmap_ext. intros j kind _. cbn [fOpt]. unfold isKind. lia.
Qed.

Lemma removeKeyLocked_counts i k s :
  (i < length (shards s))%nat →
  keyKindCounts s = (λ kind, stotal (isKind kind) s) <$> keyStatsKinds →
  keyKindCounts (removeKeyLocked i k s) = (λ kind, stotal (isKind kind) (removeKeyLocked i k s)) <$> keyStatsKinds.
Proof.
  intros Hi Hc. transitivity ((λ kind, stotal (isKind kind) s - fOpt (isKind kind) k (shardAt s i !! k)) <$> keyStatsKinds);
    [|apply list_fmap_ext; intros; by rewrite stotal_removeKey].
  unfold removeKeyLocked. cbn zeta. cbn [putShard setShards keyKindCounts].
  rewrite (adjust_counts _ _ _ _ Hc). apply list_fmap_ext. intros j kind _.
  destruct (shardAt s i !! k) as [p|]; cbn [fOpt]; unfold isKind; lia.
Qed.

Lemma setKeyLocked_inv k v s :
  StoreInv s → GoodValue v → StoreInv (setKeyLocked (shardIndex s k) k v s).
Proof.
  intros [Hl Hp Hc Hv Hw] Hg. pose proof (shardIndex_lt s k Hl) as Hi.
  destruct (setKeyLocked_rest (shardIndex s k) k v s) as [(Hlen & _ & Hww & _) _]. split.
  - by rewrite Hlen.
  - intros j k'. rewrite (shardIndex_shards s (setKeyLocked _ k v s)) by done. rewrite shardAt_setKey by done. case_decide as Hj; [subst j|by apply Hp].
    intros [x Hx]. apply lookup_insert_Some in Hx as [[<- _]|[_ Hx]]; [done|by apply Hp; eauto].
  - by apply setKeyLocked_counts.
  - intros j k' x. rewrite shardAt_setKey by done. case_decide as Hj; [subst j|by apply Hv].
    intros [[_ <-]|[_ Hx]]%lookup_insert_Some; [done|by eapply Hv].
  - by rewrite Hww.
Qed.

Lemma removeKeyLocked_inv i k s : (i < length (shards s))%nat → StoreInv s → StoreInv (removeKeyLocked i k s).
Proof.
  intros Hi [Hl Hp Hc Hv Hw]. destruct (removeKeyLocked_rest i k s) as [(Hlen & _ & Hww & _) _]. split.
  - by rewrite Hlen.
  - intros j k'. rewrite (shardIndex_shards s (removeKeyLocked i k s)) by done. rewrite shardAt_removeKey by done. case_decide as Hj; [subst j|by apply Hp].
    intros [x Hx]. apply lookup_delete_Some in Hx as [_ Hx]. by apply Hp; eauto.
  - by apply removeKeyLocked_counts.
  - intros j k' x. rewrite shardAt_removeKey by done. case_decide as Hj; [subst j|by apply Hv].
    intros [_ Hx]%lookup_delete_Some. by eapply Hv.
  - by rewrite Hww.
Qed.

(** *** One key *)

(** While memory is accounted for, the counter is the size of the keyspace. *)
Definition Accounted s : Prop := maxMemoryEnabled s = true → usedMemory s = stotal vsize s.

Lemma lookupKey_setKey k v s k' :
  (0 < length (shards s))%nat →
  lookupKey (setKeyLocked (shardIndex s k) k v s) k' = if decide (k' = k) then Some v else lookupKey s k'.
Proof.
  intros Hl. unfold lookupKey. rewrite (shardIndex_shards s (setKeyLocked _ k v s)) by apply setKeyLocked_rest.
  rewrite shardAt_setKey by by apply shardIndex_lt. destruct (decide (k' = k)) as [->|Hk].
  - by rewrite decide_True, lookup_insert_eq.
  - case_decide as Hi; [|done]. rewrite lookup_insert_ne by done. by rewrite <- Hi.
Qed.

Lemma lookupKey_removeKey k s k' :
  (0 < length (shards s))%nat →
  lookupKey (removeKeyLocked (shardIndex s k) k s) k' = if decide (k' = k) then None else lookupKey s k'.
Proof.
  intros Hl. unfold lookupKey. rewrite (shardIndex_shards s (removeKeyLocked _ k s)) by apply removeKeyLocked_rest.
  rewrite shardAt_removeKey by by apply shardIndex_lt. destruct (decide (k' = k)) as [->|Hk].
  - by rewrite decide_True, lookup_delete_eq.
  - case_decide as Hi; [|done]. rewrite lookup_delete_ne by done. by rewrite <- Hi.
Qed.

(** The effect of deleting the key [k] and counting [size] bytes as freed. *)
Record Deleted (k : bytes) (size : Z) s s' : Prop := {
  del_inv : StoreInv s';
  del_rest : sameRest s s';
  del_pending : pendingExpired s' = pendingExpired s;
  del_lookup : ∀ k', lookupKey s' k' = if decide (k' = k) then None else lookupKey s k';
  del_total : ∀ f, stotal f s' = stotal f s - fOpt f k (lookupKey s k);
  del_used : usedMemory s' = usedMemory s - if maxMemoryEnabled s then size else 0
}.

Lemma deleteKeyWithSizeLocked_spec k size s v :
  StoreInv s → lookupKey s k = Some v →
  ∃ s', deleteKeyWithSizeLocked (shardIndex s k) k size s = (true, s') ∧ Deleted k size s s'.
Proof.
  intros Hinv Hk. pose proof (si_len _ Hinv) as Hl. pose proof (shardIndex_lt s k Hl) as Hi.
  unfold deleteKeyWithSizeLocked. change (shardAt s (shardIndex s k) !! k) with (lookupKey s k). rewrite Hk.
  eexists. split; [reflexivity|]. set (s0 := if maxMemoryEnabled s then _ else s).
  assert (StoreInv s0 ∧ sameRest s s0 ∧ shards s0 = shards s ∧ pendingExpired s0 = pendingExpired s
    ∧ usedMemory s0 = usedMemory s - (if maxMemoryEnabled s then size else 0)) as (H0 & Hr & Hsh & Hpe & Hu).
  { unfold s0. destruct (maxMemoryEnabled s); split_and!; try done; [|lia]. by destruct Hinv. }
  assert (shardIndex s0 k = shardIndex s k) as Hix by (apply shardIndex_shards; by rewrite Hsh).
  assert (∀ k', lookupKey s0 k' = lookupKey s k') as Hlk by (intros; unfold lookupKey, shardAt, shardIndex; by rewrite Hsh).
  destruct (removeKeyLocked_rest (shardIndex s k) k s0) as (Hr1 & Hu1 & Hp1). split.
  - apply removeKeyLocked_inv; [by rewrite Hsh|done].
  - by etransitivity.
  - by rewrite Hp1, Hpe.
  - intros k'. rewrite <- Hix, lookupKey_removeKey by (by rewrite Hsh). by rewrite Hlk.
  - intros f. rewrite stotal_removeKey by (by rewrite Hsh). rewrite (stotal_shards f s0 s) by done.
    rewrite <- Hix. change (shardAt s0 (shardIndex s0 k) !! k) with (lookupKey s0 k). by rewrite Hlk.
  - by rewrite Hu1, Hu.
Qed.

Lemma deleteKeyLocked_Some k s v :
  StoreInv s → lookupKey s k = Some v →
  ∃ s', deleteKeyLocked (shardIndex s k) k s = (true, s') ∧ Deleted k (vsize k v) s s'.
Proof.
  intros Hinv Hk. unfold deleteKeyLocked. change (shardAt s (shardIndex s k) !! k) with (lookupKey s k). rewrite Hk.
  destruct (deleteKeyWithSizeLocked_spec k (if maxMemoryEnabled s then vsize k v else 0) s v Hinv Hk) as (s' & Heq & [? ? ? ? ? Hu]).
  exists s'. split; [done|]. split; try done. rewrite Hu. by destruct (maxMemoryEnabled s).
Qed.

Lemma deleteKeyLocked_None k s : lookupKey s k = None → deleteKeyLocked (shardIndex s k) k s = (false, s).
Proof. intros H. unfold deleteKeyLocked. change (shardAt s (shardIndex s k) !! k) with (lookupKey s k). by rewrite H. Qed.

Lemma sameRest_enabled s s' : sameRest s s' → maxMemoryEnabled s' = maxMemoryEnabled s.
Proof. intros (_ & H & _). unfold maxMemoryEnabled. by rewrite H. Qed.

Lemma Deleted_accounted k s s' v :
  lookupKey s k = Some v → Deleted k (vsize k v) s s' → Accounted s → Accounted s'.
Proof.
  intros Hk [_ Hr _ _ Ht Hu] Ha. unfold Accounted in *. rewrite (sameRest_enabled _ _ Hr), Hu, Ht, Hk. cbn [fOpt].
  intros He. rewrite He, Ha by done. lia.
Qed.

(** The effect of changing the value under [k] where it lies. *)
Record Updated (k : bytes) (v : ValueObject) s s' : Prop := {
  upd_inv : StoreInv s';
  upd_rest : sameRest s s';
  upd_pending : pendingExpired s' = pendingExpired s;
  upd_lookup : ∀ k', lookupKey s' k' = if decide (k' = k) then Some v else lookupKey s k';
  upd_total : ∀ f, stotal f s' = stotal f s - fOpt f k (lookupKey s k) + f k v;
  upd_used : usedMemory s' = usedMemory s
}.

Lemma updateInPlace_spec k v v0 s :
  StoreInv s → lookupKey s k = Some v0 → Kind v = Kind v0 → GoodValue v → Updated k v s (updateInPlace k v s).
Proof.
  intros Hinv Hk Hkind Hg.
  assert (updateInPlace k v s = setKeyLocked (shardIndex s k) k v s) as ->.
  { unfold updateInPlace, setKeyLocked. cbn zeta. change (shardAt s (shardIndex s k) !! k) with (lookupKey s k).
    rewrite Hk, bool_decide_eq_true_2 by done. done. }
  pose proof (si_len _ Hinv) as Hl. destruct (setKeyLocked_rest (shardIndex s k) k v s) as (? & ? & ?). split; try done.
  - by apply setKeyLocked_inv.
  - intros. by apply lookupKey_setKey.
  - intros. apply stotal_setKey. by apply shardIndex_lt.
Qed.

Lemma setKeyLocked_spec k v s :
  StoreInv s → GoodValue v → Updated k v s (setKeyLocked (shardIndex s k) k v s).
Proof.
  intros Hinv Hg. pose proof (si_len _ Hinv) as Hl. destruct (setKeyLocked_rest (shardIndex s k) k v s) as (? & ? & ?). split; try done.
  - by apply setKeyLocked_inv.
  - intros. by apply lookupKey_setKey.
  - intros. apply stotal_setKey. by apply shardIndex_lt.
Qed.
End Facts.
