(* ===== verification/StoreMemory.v ===== *)
(** * The store: recalculation and eviction

    What the two loops of [memory.go] do: [recalculateUsedMemoryLocked] drops
    exactly the expired keys, queues them for the listener and sets the counter
    to the size of what is left; the eviction loop deletes unprotected keys,
    keeps the counter exact, terminates, and succeeds only at or below its
    target. *)

From S2P Require Import Prelude Strconv GoLib IntSet CompactHash Float64 CompactZSet SkipList SkipListFacts Stream.
From S2P Require Import ValueObject ValueFacts ListWaiters Store StoreFacts.

Section Memory.
Context {E : Env}.
Implicit Types (s : Store) (f : bytes → ValueObject → Z).

Definition live (now : Z) (v : option ValueObject) : option ValueObject :=
  match v with Some v => if isExpired v now then None else Some v | None => None end.

(** ** Sizes *)

Lemma sumZ_nonneg l : Forall (λ z, 0 ≤ z) l → 0 ≤ sumZ l.
Proof.
  intros H. unfold sumZ. assert (∀ acc, 0 ≤ acc → 0 ≤ foldl Z.add acc l) as Ha; [|by apply Ha].
  induction H as [|z l Hz H IH]; intros acc Hacc; cbn; [done|]. apply IH. lia.
Qed.

Lemma sumZ_fmap_nonneg {A} (g : A → Z) l : (∀ a, 0 ≤ g a) → 0 ≤ sumZ (g <$> l).
Proof. intros H. apply sumZ_nonneg, Forall_fmap, Forall_true. intros a. apply H. Qed.

Lemma vsize_nonneg k v : 0 ≤ vsize k v.
Proof.
  assert (∀ (l : list bytes), 0 ≤ sumZ (zlen <$> l)) as Hs by (intros; apply sumZ_fmap_nonneg; intros; apply zlen_nonneg).
  assert (∀ m : gmap bytes bytes, 0 ≤ sumZ ((λ '(f, raw), zlen f + zlen raw) <$> mapOrder m)) as Hh.
  { intros m. apply sumZ_fmap_nonneg. intros [f raw]. pose proof (zlen_nonneg f). pose proof (zlen_nonneg raw). lia. }
  assert (∀ m : gmap bytes float64, 0 ≤ sumZ ((λ p : bytes * float64, zlen p.1) <$> mapOrder m)) as Hz.
  { intros m. apply sumZ_fmap_nonneg. intros. apply zlen_nonneg. }
  assert (∀ l, 0 ≤ sumZ ((λ r, zlen (idText r) + sumZ (zlen <$> svalues r)) <$> l)) as Hst.
  { intros l. apply sumZ_fmap_nonneg. intros r. pose proof (zlen_nonneg (idText r)). specialize (Hs (svalues r)). lia. }
  assert (0 ≤ approximateBaseValueObjectSize k (ExpiresAt v)) as Hb.
  { unfold approximateBaseValueObjectSize, approxValueObjectOverhead. pose proof (zlen_nonneg k). case_match; lia. }
  assert (∀ {A} (l : list A), 0 ≤ zlen l) as Hn by (intros; apply zlen_nonneg).
  unfold vsize, approximateStringValueObjectSize, approxCollectionOverhead, approxListEntryOverhead, approxHashEntryOverhead,
    approxSetEntryOverhead, approxZSetEntryOverhead, approxStreamEntryOverhead, IntSet_len. cbn zeta.
  destruct (Kind v).
  - specialize (Hn _ (vString v)). lia.
  - specialize (Hn _ (vList v)). specialize (Hs (vList v)). lia.
  - destruct (ZSetEncoding v); case_match; try lia.
    + match goal with |- context [mapOrder (index ?z)] => specialize (Hz (index z)) end. lia.
    + match goal with c : CompactZSet |- _ => pose proof (Hn _ (zentries c)); pose proof (Hn _ (zarena c)) end. lia.
  - case_match; try lia. match goal with st : StreamValue |- _ => specialize (Hst (sentries st)); pose proof (Hn _ (sentries st)) end. lia.
  - destruct (HashEncoding v); [specialize (Hh (default ∅ (vHash v))); lia|]. case_match; try lia.
    match goal with c : CompactHash |- _ => pose proof (Hn _ (entries c)); pose proof (Hn _ (arena c)) end. lia.
  - destruct (SetEncoding v); [specialize (Hs (setOrder (default ∅ (vSet v)))); lia|]. case_match; try lia.
    match goal with c : IntSet |- _ => pose proof (Hn _ (values c)) end. lia.
Qed.

(** ** Recalculation *)

Definition removeMany (i : nat) (ks : list bytes) s : Store := foldl (λ s k, removeKeyLocked i k s) s ks.

Abbreviation sumBy g l := (foldr (λ p acc, g p + acc) 0 l).

Lemma recalcKey_fold now i l : ∀ s u ex,
  let dead := filter (λ p, isExpired p.2 now = true) l in
  foldl (recalcKey now i) (s, u, ex) l
  = (removeMany i dead.*1 s,
     u + (sumBy (λ p : bytes * ValueObject, vsize p.1 p.2) l - sumBy (λ p : bytes * ValueObject, vsize p.1 p.2) dead),
     ex ++ dead.*1).
Proof.
  induction l as [|[k v] l IH]; intros s u ex dead; [unfold dead; cbn; by rewrite app_nil_r, Z.add_0_r|].
  cbn [foldl recalcKey]. unfold dead. rewrite filter_cons. cbn [snd]. destruct (isExpired v now) eqn:Ex.
  - rewrite decide_True by done. cbn zeta in IH. rewrite IH. cbn [removeMany foldl fmap list_fmap fst foldr snd].
    rewrite <- app_assoc. cbn [app]. f_equal. f_equal. lia.
  - rewrite decide_False by done. cbn zeta in IH. rewrite IH. cbn [foldr fst snd]. f_equal. f_equal. lia.
Qed.

Lemma removeMany_spec i ks : ∀ s,
  (i < length (shards s))%nat → StoreInv s →
  StoreInv (removeMany i ks s) ∧ sameRest s (removeMany i ks s)
  ∧ usedMemory (removeMany i ks s) = usedMemory s ∧ pendingExpired (removeMany i ks s) = pendingExpired s
  ∧ (∀ j k, shardAt (removeMany i ks s) j !! k = if decide (j = i ∧ k ∈ ks) then None else shardAt s j !! k).
Proof.
  induction ks as [|k0 ks IH]; intros s Hi Hinv; cbn [removeMany foldl].
  { split_and!; try done. intros j k. rewrite decide_False; [done|]. by intros [_ ?%elem_of_nil]. }
  destruct (removeKeyLocked_rest i k0 s) as (Hr & Hu & Hp). pose proof Hr as (Hlen & _).
  destruct (IH (removeKeyLocked i k0 s)) as (H1 & H2 & H3 & H4 & H5); [by rewrite Hlen|by apply removeKeyLocked_inv|].
  split_and!; [done|by etransitivity|by rewrite <- Hu|by rewrite <- Hp|].
  intros j k. unfold removeMany in H5. rewrite H5, shardAt_removeKey by done.
  destruct (decide (j = i)) as [->|Hj].
  - destruct (decide (k = k0)) as [->|Hk].
    + rewrite lookup_delete_eq. rewrite (decide_True (P := i = i ∧ k0 ∈ k0 :: ks)); [by case_decide|]. split; [done|by left].
    + rewrite lookup_delete_ne by done. apply decide_ext. rewrite elem_of_cons. naive_solver.
  - rewrite !decide_False by naive_solver. done.
Qed.

Lemma removeMany_total f i dead : ∀ s,
  (i < length (shards s))%nat → NoDup dead.*1 →
  (∀ p, p ∈ dead → shardAt s i !! p.1 = Some p.2) →
  stotal f (removeMany i dead.*1 s) = stotal f s - sumBy (λ p : bytes * ValueObject, f p.1 p.2) dead.
Proof.
  induction dead as [|[k v] dead IH]; intros s Hi Hnd Hin; cbn [removeMany fmap list_fmap foldl foldr fst snd]; [lia|].
  cbn [fmap list_fmap fst] in Hnd. apply NoDup_cons in Hnd as [Hk Hnd].
  destruct (removeKeyLocked_rest i k s) as ((Hlen & _) & _).
  unfold removeMany in IH. rewrite IH; [|by rewrite Hlen|done|].
  - rewrite stotal_removeKey by done. pose proof (Hin (k, v) ltac:(by left)) as Hkv. cbn [fst snd] in Hkv. rewrite Hkv. cbn [fOpt]. lia.
  - intros p Hp. rewrite shardAt_removeKey, decide_True by done. rewrite lookup_delete_ne; [apply Hin; by right|].
    intros ->. apply Hk. by apply list_elem_of_fmap_2.
Qed.

(** One shard of the recalculation. *)
Lemma recalcShard_spec now i s u ex s' u' ex' :
  (i < length (shards s))%nat → StoreInv s → recalcShard now (s, u, ex) i = (s', u', ex') →
  StoreInv s' ∧ sameRest s s' ∧ pendingExpired s' = pendingExpired s
  ∧ u' - stotal vsize s' = u - stotal vsize s + mtotal vsize (shardAt s i)
  ∧ (∀ j k, shardAt s' j !! k = if decide (j = i) then live now (shardAt s i !! k) else shardAt s j !! k)
  ∧ ∃ dead, ex' = ex ++ dead ∧ NoDup dead
      ∧ ∀ k, k ∈ dead ↔ ∃ v, shardAt s i !! k = Some v ∧ isExpired v now = true.
Proof.
  intros Hi Hinv. unfold recalcShard. cbn [fst]. pose proof (mapOrder_perm (shardAt s i)) as Hp.
  set (l := mapOrder (shardAt s i)) in *. rewrite recalcKey_fold. set (dead := filter _ l).
  intros [= <- <- <-].
  assert (NoDup l.*1) as Hndl by (rewrite Hp; apply NoDup_fst_map_to_list).
  assert (∀ k v, (k, v) ∈ l ↔ shardAt s i !! k = Some v) as Hl by (intros; by rewrite Hp, elem_of_map_to_list).
  assert (∀ p, p ∈ dead → shardAt s i !! p.1 = Some p.2) as Hd.
  { intros [k v] Hpd. apply list_elem_of_filter in Hpd as [_ ?]. by apply Hl. }
  assert (NoDup dead.*1) as Hndd.
  { eapply sublist_NoDup; [exact Hndl|]. apply fmap_sublist. apply sublist_filter. }
  assert (∀ k, k ∈ dead.*1 ↔ ∃ v, shardAt s i !! k = Some v ∧ isExpired v now = true) as Hdead.
  { intros k. rewrite list_elem_of_fmap. unfold dead. split.
    - intros ([k' v] & -> & [He Hin]%list_elem_of_filter). exists v. split; [by apply Hl|done].
    - intros (v & Hv & He). exists (k, v). split; [done|]. apply list_elem_of_filter. split; [done|by apply Hl]. }
  destruct (removeMany_spec i dead.*1 s Hi Hinv) as (H1 & H2 & H3 & H4 & H5). split_and!; try done.
  - rewrite (removeMany_total vsize i dead s Hi Hndd Hd). rewrite (mtotal_order vsize _ l Hp). lia.
  - intros j k. rewrite H5. destruct (decide (j = i)) as [->|Hj]; [|rewrite decide_False by naive_solver; done].
    unfold live. destruct (shardAt s i !! k) as [v|] eqn:Ek; [|by case_decide].
    destruct (isExpired v now) eqn:Ee.
    + rewrite decide_True; [done|]. split; [done|]. apply Hdead. eauto.
    + rewrite decide_False; [done|]. intros [_ (v' & Hv' & He')%Hdead]. congruence.
  - exists dead.*1. done.
Qed.

Record Recalculated (now : Z) s s' : Prop := {
  rec_inv : StoreInv s';
  rec_rest : sameRest s s';
  rec_used : usedMemory s' = stotal vsize s';
  rec_lookup : ∀ k, lookupKey s' k = live now (lookupKey s k);
  rec_pending : ∃ dead, pendingExpired s' = pendingExpired s ++ dead ∧ NoDup dead
    ∧ ∀ k, k ∈ dead ↔ ∃ v, lookupKey s k = Some v ∧ isExpired v now = true
}.

(** The loop invariant after the first [n] shards. *)
Lemma recalc_loop now s n :
  StoreInv s → (n ≤ length (shards s))%nat →
  ∃ s' u ex, foldl (recalcShard now) (s, 0, []) (seq 0 n) = (s', u, ex)
  ∧ StoreInv s' ∧ sameRest s s' ∧ pendingExpired s' = pendingExpired s
  ∧ u - stotal vsize s' = sumBy (mtotal vsize) (take n (shards s)) - stotal vsize s
  ∧ (∀ j k, shardAt s' j !! k = if decide (j < n)%nat then live now (shardAt s j !! k) else shardAt s j !! k)
  ∧ NoDup ex
  ∧ ∀ k, k ∈ ex ↔ ∃ j v, (j < n)%nat ∧ shardAt s j !! k = Some v ∧ isExpired v now = true.
Proof.
  intros Hinv. induction n as [|n IH]; intros Hn.
  { exists s, 0, []. cbn [seq foldl take foldr]. split_and!; [done|done|reflexivity|done|done|intros; by rewrite decide_False by lia|constructor|].
    intros k. split; [by intros ?%elem_of_nil|]. intros (j & v & ? & _). lia. }
  destruct IH as (s1 & u1 & ex1 & Heq & Hinv1 & Hr1 & Hp1 & Hu1 & Hs1 & Hnd1 & Hex1); [lia|].
  rewrite seq_S, foldl_app, Heq. cbn [foldl Nat.add]. destruct (recalcShard now (s1, u1, ex1) n) as [[s2 u2] ex2] eqn:E2.
  pose proof Hr1 as (Hlen1 & _). apply recalcShard_spec in E2 as (Hinv2 & Hr2 & Hp2 & Hu2 & Hs2 & dead & -> & Hndd & Hdd); [|by rewrite Hlen1|done].
  assert (∀ k, shardAt s1 n !! k = shardAt s n !! k) as Hn1 by (intros; rewrite Hs1, decide_False by lia; done).
  assert (shardAt s1 n = shardAt s n) as Hn1' by (by apply map_eq).
  exists s2, u2, (ex1 ++ dead). split_and!; try done.
  - by etransitivity.
  - by rewrite Hp2.
  - rewrite Hu2, Hn1'. destruct (lookup_lt_is_Some_2 (shards s) n) as [m Hm]; [lia|].
    rewrite (take_S_r _ _ _ Hm), foldr_app. cbn [foldr]. unfold shardAt at 1. rewrite Hm. cbn [from_option id].
    assert (∀ l z, foldr (λ p acc, mtotal vsize p + acc) z l = sumBy (mtotal vsize) l + z) as Hz
      by (intros l z; induction l as [|x l IHl]; cbn; [lia|]; rewrite IHl; lia).
    rewrite Hz. lia.
  - intros j k. rewrite Hs2. destruct (decide (j = n)) as [->|Hj].
    + rewrite (decide_True (P := (n < S n)%nat)) by lia. by rewrite Hn1.
    + rewrite Hs1. apply decide_ext. lia.
  - apply NoDup_app. split_and!; [done| |done]. intros k (j & v & Hj & Hv & _)%Hex1 (v' & Hv' & _)%Hdd.
    rewrite Hn1 in Hv'. assert (j = n) by (transitivity (shardIndex s k); [|symmetry]; apply (si_place _ Hinv); eauto). lia.
  - intros k. rewrite elem_of_app, Hex1, Hdd. setoid_rewrite Hn1. split.
    + intros [(j & v & ? & ? & ?)|(v & ? & ?)]; [exists j, v|exists n, v]; split_and!; try done; lia.
    + intros (j & v & Hj & Hv & He). destruct (decide (j = n)) as [->|]; [right; eauto|left].
      exists j, v. split_and!; [lia|done|done].
Qed.

Lemma recalculate_spec now s :
  StoreInv s → ∃ s', recalculateUsedMemoryLocked now s = (stotal vsize s', s') ∧ Recalculated now s s'.
Proof.
  intros Hinv. destruct (recalc_loop now s (length (shards s)) Hinv) as
    (s1 & u & ex & Heq & Hinv1 & Hr1 & Hp1 & Hu1 & Hs1 & Hnd & Hex); [lia|].
  unfold recalculateUsedMemoryLocked. rewrite Heq.
  assert (u = stotal vsize s1) as ->.
  { rewrite firstn_all in Hu1. unfold stotal at 2 in Hu1. lia. }
  set (s' := noteExpiredKeysLocked ex (setUsed (stotal vsize s1) s1)).
  assert (shards s' = shards s1 ∧ usedMemory s' = stotal vsize s1 ∧ pendingExpired s' = pendingExpired s1 ++ ex
    ∧ sameRest s1 s' ∧ keyKindCounts s' = keyKindCounts s1) as (Hsh & Hus & Hpe & Hre & Hkc).
  { unfold s', noteExpiredKeysLocked. destruct ex; cbn; [by rewrite app_nil_r|done]. }
  assert (stotal vsize s' = stotal vsize s1) as Ht by (by apply stotal_shards).
  exists s'. rewrite Ht. split; [done|]. split.
  - pose proof Hre as (_ & _ & Hw & _). destruct Hinv1 as [A1 A2 A3 A4 A5]. unfold shardAt, shardIndex in *.
    split; unfold shardAt, shardIndex; rewrite ?Hsh, ?Hkc, ?Hw; try done.
    rewrite A3. apply list_fmap_ext. intros. symmetry. by apply stotal_shards.
  - by etransitivity.
  - by rewrite Hus, Ht.
  - intros k. pose proof (si_len _ Hinv) as Hl. pose proof Hr1 as (Hlen1 & _).
    assert (lookupKey s' k = lookupKey s1 k) as -> by (unfold lookupKey, shardAt, shardIndex; by rewrite Hsh).
    unfold lookupKey. rewrite (shardIndex_shards s s1) by done. rewrite Hs1, decide_True; [done|by apply shardIndex_lt].
  - exists ex. rewrite Hpe, Hp1. split_and!; try done. intros k. rewrite Hex. unfold lookupKey. split.
    + intros (j & v & _ & Hv & He). exists v. assert (j = shardIndex s k) as <- by (apply (si_place _ Hinv); eauto). done.
    + intros (v & Hv & He). exists (shardIndex s k), v. split_and!; try done. apply shardIndex_lt, Hinv.
Qed.

(** ** Eviction *)

Lemma tick_inv s : StoreInv s → StoreInv (tick s).
Proof. by intros [? ? ? ? ?]. Qed.

Section Eviction.
Context (protected : gset bytes).

Lemma stalest_fold l : ∀ st,
  let st' := foldl (stalest protected) st l in
  (st' = st ∨ ∃ v, (st'.1, v) ∈ l ∧ st'.1 ∉ protected)
  ∧ st'.2 ≤ st.2 ∧ ∀ k v, (k, v) ∈ l → k ∉ protected → st'.2 ≤ lastAccessed v.
Proof.
  induction l as [|[k v] l IH]; intros st; cbn [foldl].
  { split_and!; [by left|done|]. by intros k v ?%elem_of_nil. }
  destruct (IH (stalest protected st (k, v))) as (H1 & H2 & H3). cbn zeta.
  set (st' := foldl _ _ l) in *.
  assert ((stalest protected st (k, v) = st ∨ stalest protected st (k, v) = (k, lastAccessed v) ∧ k ∉ protected)
    ∧ (stalest protected st (k, v)).2 ≤ st.2 ∧ (k ∉ protected → (stalest protected st (k, v)).2 ≤ lastAccessed v)) as (G1 & G2 & G3).
  { unfold stalest. destruct st as [sk sa]. cbn [snd]. case_decide; [split_and!; [by left|done|done]|].
    case_match eqn:Elt; bool_to_prop; cbn [snd]; (split_and!; [auto|lia|intros; lia]). }
  split_and!; [|lia|].
  - destruct H1 as [H1|(v' & Hin & Hp)]; [|right; exists v'; split; [by right|done]].
    destruct G1 as [G1|[G1 Hp]]; [left; by rewrite H1|]. right. exists v. rewrite H1, G1. cbn [fst]. split; [by left|done].
  - intros k' v' [Heq|Hin]%elem_of_cons Hp; [|by eapply H3]. apply pair_equal_spec in Heq as [-> ->]. specialize (G3 Hp). lia.
Qed.

(** The entries of the whole keyspace in the order of a scan. *)
Definition scanOrder s : list (bytes * ValueObject) := mjoin (mapOrder <$> shards s).

Lemma elem_of_scanOrder s k v : StoreInv s → (k, v) ∈ scanOrder s ↔ lookupKey s k = Some v.
Proof.
  intros Hinv. unfold scanOrder. rewrite list_elem_of_join. setoid_rewrite list_elem_of_fmap. split.
  - intros (l & Hkv & m & -> & Hm). rewrite mapOrder_perm, elem_of_map_to_list in Hkv.
    apply list_elem_of_lookup in Hm as [i Hi]. assert (shardAt s i = m) as Hs by (unfold shardAt; by rewrite Hi).
    rewrite <- Hs in Hkv. unfold lookupKey. assert (i = shardIndex s k) as <- by (apply (si_place _ Hinv); eauto). done.
  - intros Hk. unfold lookupKey, shardAt in Hk. destruct (shards s !! shardIndex s k) as [m|] eqn:Em; cbn in Hk; [|done].
    exists (mapOrder m). split; [by rewrite mapOrder_perm, elem_of_map_to_list|]. exists m. split; [done|].
    by apply list_elem_of_lookup_2 in Em.
Qed.

Lemma scan_foldl s st :
  foldl (λ st (shard : Shard), foldl (stalest protected) st (mapOrder shard)) st (shards s)
  = foldl (stalest protected) st (scanOrder s).
Proof.
  unfold scanOrder. revert st. induction (shards s) as [|m l IH]; intros st; [done|].
  cbn [foldl fmap list_fmap mjoin list_join]. by rewrite IH, foldl_app.
Qed.

Lemma sampled_foldl s sampled :
  sampledStalest s protected sampled
  = foldl (stalest protected) ([], maxInt64Value) (omap (λ k, (k,.) <$> lookupKey s k) sampled).
Proof.
  unfold sampledStalest. generalize (([], maxInt64Value) : bytes * Z). induction sampled as [|k l IH]; intros st; [done|].
  cbn [foldl omap list_omap]. destruct (lookupKey s k) as [v|]; cbn [fmap option_fmap option_map foldl]; apply IH.
Qed.

(** No candidate, although unprotected keys can be seen: none is left, or the
    empty key is stored. *)
Definition Exhausted s : Prop :=
  (∃ v, lookupKey s [] = Some v ∧ [] ∉ protected)
  ∨ ∀ k v, lookupKey s k = Some v → k ∉ protected → maxInt64Value ≤ lastAccessed v.

Lemma findStalest_spec s :
  StoreInv s →
  ∃ c s', findStalestCandidateLocked protected s = (c, s') ∧ (s' = s ∨ s' = tick s)
    ∧ (c ≠ [] → c ∉ protected ∧ is_Some (lookupKey s c))
    ∧ (c = [] → Exhausted s).
Proof.
  intros Hinv. unfold findStalestCandidateLocked, bind, gets. cbn beta iota.
  assert (∃ sampled s', sampleKeysLocked (memoryEvictionSampleSize s) s = (sampled, s') ∧ (s' = s ∨ s' = tick s)) as (sampled & s' & -> & Hs').
  { unfold sampleKeysLocked, ret, bind, nowNano, gets. destruct (_ <=? 0); eauto. }
  assert (StoreInv s' ∧ ∀ k, lookupKey s' k = lookupKey s k) as [Hinv' Hlk].
  { destruct Hs' as [-> | ->]; [done|]. split; [by apply tick_inv|done]. }
  eexists _, s'. split; [reflexivity|]. split; [done|]. rewrite scan_foldl, sampled_foldl.
  set (l := omap _ sampled). pose proof (stalest_fold l ([], maxInt64Value)) as (A1 & A2 & A3).
  set (st := foldl _ _ l) in *. cbn [snd] in A2.
  assert (∀ k v, (k, v) ∈ l → lookupKey s k = Some v) as Hl.
  { intros k v (k0 & Hin & Heq)%list_elem_of_omap. rewrite Hlk in Heq. destruct (lookupKey s k0) as [v0|] eqn:E0; [|done].
    cbn in Heq. injection Heq as -> ->. done. }
  pose proof (stalest_fold (scanOrder s') st) as (B1 & B2 & B3). set (st' := foldl _ st (scanOrder s')) in *.
  assert (∀ k v, (k, v) ∈ scanOrder s' ↔ lookupKey s k = Some v) as Hscan.
  { intros k v. rewrite elem_of_scanOrder by done. by rewrite Hlk. }
  case_bool_decide as Hst; cbn [negb].
  - split.
    + intros Hne. destruct B1 as [B1|(v & Hin & Hp)]; [by rewrite B1 in Hne|]. apply Hscan in Hin. eauto.
    + intros Heq. destruct B1 as [B1|(v & Hin & Hp)].
      * destruct A1 as [A1|(v & Hin & Hp)].
        -- right. intros k v Hk Hp. apply Hscan in Hk. specialize (B3 k v Hk Hp). rewrite B1, A1 in B3. exact B3.
        -- left. rewrite Hst in Hin, Hp. apply Hl in Hin. eauto.
      * left. rewrite Heq in Hin, Hp. apply Hscan in Hin. eauto.
  - split; [|done]. intros _. destruct A1 as [A1|(v & Hin & Hp)]; [by rewrite A1 in Hst|]. apply Hl in Hin. eauto.
Qed.

(** Keys removed one after the other, all unprotected. *)
Record Evicted s (ks : list bytes) s' : Prop := {
  ev_inv : StoreInv s';
  ev_rest : sameRest s s';
  ev_pending : pendingExpired s' = pendingExpired s;
  ev_lookup : ∀ k, lookupKey s' k = if decide (k ∈ ks) then None else lookupKey s k;
  ev_keys : ∀ k, k ∈ ks → k ∉ protected ∧ is_Some (lookupKey s k);
  ev_accounted : Accounted s → Accounted s';
  ev_protected : stotal (λ k v, if decide (k ∈ protected) then vsize k v else 0) s'
    = stotal (λ k v, if decide (k ∈ protected) then vsize k v else 0) s;
  ev_count : stotal (λ _ _, 1) s' = stotal (λ _ _, 1) s - zlen ks
}.

Lemma Evicted_refl s s' :
  StoreInv s' → shards s' = shards s → sameRest s s' → pendingExpired s' = pendingExpired s → usedMemory s' = usedMemory s →
  Evicted s [] s'.
Proof.
  intros Hinv Hsh Hr Hp Hu. assert (∀ f, stotal f s' = stotal f s) as Ht by (intros; by apply stotal_shards).
  split; try done.
  - intros k. rewrite decide_False by (by intros ?%elem_of_nil). unfold lookupKey, shardAt, shardIndex. by rewrite Hsh.
  - by intros k ?%elem_of_nil.
  - unfold Accounted. by rewrite (sameRest_enabled _ _ Hr), Hu, Ht.
  - rewrite Ht. change (zlen (@nil bytes)) with 0. lia.
Qed.

Lemma Evicted_step s c v s1 ks s2 :
  lookupKey s c = Some v → c ∉ protected → Deleted c (vsize c v) s s1 → Evicted s1 ks s2 → Evicted s (c :: ks) s2.
Proof.
  intros Hc Hp Hd [E1 E2 E3 E4 E5 E6 E7 E8]. pose proof Hd as [D1 D2 D3 D4 D5 D6]. split; try done.
  - by etransitivity.
  - by rewrite E3.
  - intros k. rewrite E4, D4. destruct (decide (k = c)) as [->|Hne].
    + rewrite (decide_True (P := c ∈ c :: ks)) by (by left). by case_decide.
    + apply decide_ext. rewrite elem_of_cons. naive_solver.
  - intros k [->|Hk]%elem_of_cons; [by rewrite Hc; eauto|]. destruct (E5 k Hk) as [? Hs]. split; [done|].
    rewrite D4 in Hs. case_decide; [by destruct Hs|done].
  - intros Ha. apply E6. by eapply Deleted_accounted.
  - rewrite E7, D5, Hc. cbn [fOpt]. rewrite decide_False by done. lia.
  - rewrite E8, D5, Hc, zlen_cons. cbn [fOpt]. lia.
Qed.

Lemma Evicted_pre s0 s ks s' :
  shards s = shards s0 → sameRest s0 s → pendingExpired s = pendingExpired s0 → usedMemory s = usedMemory s0 →
  Evicted s ks s' → Evicted s0 ks s'.
Proof.
  intros Hsh Hr Hp Hu [E1 E2 E3 E4 E5 E6 E7 E8].
  assert (∀ f, stotal f s = stotal f s0) as Ht by (intros; by apply stotal_shards).
  assert (∀ k, lookupKey s k = lookupKey s0 k) as Hlk by (intros; unfold lookupKey, shardAt, shardIndex; by rewrite Hsh).
  split; try done.
  - by etransitivity.
  - by rewrite E3.
  - intros k. by rewrite E4, Hlk.
  - intros k Hk. rewrite <- Hlk. by apply E5.
  - intros Ha. apply E6. unfold Accounted in *. by rewrite (sameRest_enabled _ _ Hr), Hu, Ht.
  - by rewrite E7, Ht.
  - by rewrite E8, Ht.
Qed.

Lemma stotal_one_nonneg s : 0 ≤ stotal (λ _ _, 1) s.
Proof.
  unfold stotal, mtotal. induction (shards s) as [|m l IH]; cbn; [done|].
  assert (∀ (l : list (bytes * ValueObject)), 0 ≤ foldr (λ _ acc, 1 + acc) 0 l) as H by (induction l0; cbn -[Z.add]; lia).
  specialize (H (map_to_list m)). lia.
Qed.

(** The loop runs until it has reached its target or has no candidate left;
    the number of keys is fuel enough. *)
Lemma evictLoop_spec target fuel : ∀ s evicted,
  StoreInv s → stotal (λ _ _, 1) s < Z.of_nat fuel →
  ∃ ks s', evictLoop fuel target protected evicted s = (evicted ++ ks, s') ∧ Evicted s ks s'
    ∧ (usedMemory s' ≤ target ∨ Exhausted s').
Proof.
  induction fuel as [|fuel IH]; intros s evicted Hinv Hf; [pose proof (stotal_one_nonneg s); lia|].
  cbn [evictLoop]. unfold bind at 1, gets at 1. cbn beta iota.
  destruct (Z.leb_spec (usedMemory s) target).
  { exists [], s. rewrite app_nil_r. split_and!; [done|by apply Evicted_refl|by left]. }
  unfold bind at 1. destruct (findStalest_spec s Hinv) as (c & s1 & -> & Hs1 & Hc & Hn).
  assert (StoreInv s1 ∧ shards s1 = shards s ∧ sameRest s s1 ∧ pendingExpired s1 = pendingExpired s ∧ usedMemory s1 = usedMemory s) as (Hinv1 & Hsh & Hr & Hpe & Hu).
  { destruct Hs1 as [-> | ->]; [done|]. split_and!; try done. by apply tick_inv. }
  assert (∀ k, lookupKey s1 k = lookupKey s k) as Hlk by (intros; unfold lookupKey, shardAt, shardIndex; by rewrite Hsh).
  case_decide as Hce.
  { exists [], s1. rewrite app_nil_r. split_and!; [done|by apply Evicted_refl|right].
    destruct (Hn Hce) as [(v & Hv & Hv')|Hall]; [left; exists v; by rewrite Hlk|right].
    intros k v Hk. rewrite Hlk in Hk. by apply Hall. }
  destruct (Hc Hce) as [Hp [v Hv]]. rewrite <- Hlk in Hv.
  unfold bind at 1. destruct (deleteKeyLocked_Some c s1 v Hinv1 Hv) as (s2 & -> & Hd).
  destruct (IH s2 (evicted ++ [c]) (del_inv _ _ _ _ Hd)) as (ks & s3 & Heq & Hev & Hend).
  { rewrite (del_total _ _ _ _ Hd), Hv. cbn [fOpt]. rewrite (stotal_shards _ s1 s) by done. lia. }
  exists (c :: ks), s3. rewrite Heq, <- app_assoc. split_and!; [done| |done].
  eapply Evicted_pre; [exact Hsh|done|done|done|]. by eapply Evicted_step.
Qed.

Lemma totalKeyCount_stotal s : totalKeyCountLocked s = stotal (λ _ _, 1) s.
Proof.
  unfold totalKeyCountLocked, stotal.
  rewrite (foldl_add_foldr (λ shard : Shard, Z.of_nat (size shard))). rewrite Z.add_0_l.
  induction (shards s) as [|m l IH]; [done|]. cbn [foldr]. rewrite IH. f_equal. unfold mtotal.
  rewrite <- length_map_to_list. induction (map_to_list m) as [|p l' IH']; [done|]. cbn [foldr length]. rewrite <- IH'. lia.
Qed.

Lemma evictUntil_spec target s :
  StoreInv s →
  ∃ ks s', Evicted s ks s' ∧
    ((evictUntilMemoryAtOrBelowLocked target protected s = (Ok ks, s') ∧ usedMemory s' ≤ target)
     ∨ (evictUntilMemoryAtOrBelowLocked target protected s = (Err ErrMemoryLimitExceeded, s')
        ∧ target < usedMemory s' ∧ Exhausted s')).
Proof.
  intros Hinv. unfold evictUntilMemoryAtOrBelowLocked, bind, gets. cbn beta iota.
  destruct (evictLoop_spec target (S (Z.to_nat (totalKeyCountLocked s))) s [] Hinv) as (ks & s' & -> & Hev & Hend).
  { rewrite totalKeyCount_stotal. pose proof (stotal_one_nonneg s). lia. }
  exists ks, s'. split; [done|]. cbn [app]. destruct (Z.ltb_spec target (usedMemory s')).
  - right. split_and!; [done|done|]. destruct Hend; [lia|done].
  - left. done.
Qed.

Lemma totalEvictable_stotal s :
  totalEvictableMemoryLocked s protected
  = stotal vsize s - stotal (λ k v, if decide (k ∈ protected) then vsize k v else 0) s.
Proof.
  unfold totalEvictableMemoryLocked, stotal.
  set (g := λ k v, if decide (k ∈ protected) then vsize k v else 0).
  assert (∀ l acc, foldl (λ total '(key, v), if decide (key ∈ protected) then total else total + vsize key v) acc l
    = acc + (sumBy (λ p : bytes * ValueObject, vsize p.1 p.2) l - sumBy (λ p : bytes * ValueObject, g p.1 p.2) l)) as Hl.
  { induction l as [|[k v] l IH]; intros acc; cbn [foldl foldr fst snd]; [lia|]. rewrite IH. unfold g at 2. case_decide; lia. }
  assert (∀ ms acc, foldl (λ total (shard : Shard),
      foldl (λ total '(key, v), if decide (key ∈ protected) then total else total + vsize key v) total (mapOrder shard)) acc ms
    = acc + (sumBy (mtotal vsize) ms - sumBy (mtotal g) ms)) as H.
  { induction ms as [|m ms IH]; intros acc; cbn [foldl foldr]; [lia|]. rewrite IH, Hl.
    rewrite !(mtotal_order _ m) by apply mapOrder_perm. lia. }
  rewrite H. lia.
Qed.
End Eviction.
End Memory.
