(* ===== verification/StoreInvariant.v ===== *)
(** * The store: every operation keeps the invariant

    A small Hoare logic over the store's state-passing computations, and
    [StoreInv] through every operation of [StoreOps]: placement of keys in their
    shards, exact key-kind counters, well-formed values, no empty collection. *)

From S2P Require Import Prelude Strconv GoLib IntSet CompactHash Float64 CompactZSet SkipList SkipListFacts Stream.
From S2P Require Import Bitmap HyperLogLog ValueObject ValueFacts ListWaiters Store StoreOps StoreFacts StoreMemory.

(** [P] before, [Q] of the result and the state after. *)
Definition triple {A} (P : Store → Prop) (m : M A) (Q : A → Store → Prop) : Prop :=
  ∀ s, P s → Q (m s).1 (m s).2.

Section Logic.
Context {E : Env}.

Lemma triple_ret {A} (a : A) (Q : A → Store → Prop) : triple (Q a) (ret a) Q.
Proof. by intros s H. Qed.

Lemma triple_bind {A B} P (m : M A) (k : A → M B) Q R :
  triple P m Q → (∀ a, triple (Q a) (k a) R) → triple P (bind m k) R.
Proof.
  intros Hm Hk s Hs. specialize (Hm s Hs). unfold bind. destruct (m s) as [a s'] eqn:Em.
  exact (Hk a s' Hm).
Qed.

Lemma triple_gets {A} (f : Store → A) (P : Store → Prop) : triple P (gets f) (λ a s, P s ∧ a = f s).
Proof. by intros s H. Qed.

Lemma triple_modify f P (Q : unit → Store → Prop) : (∀ s, P s → Q tt (f s)) → triple P (modify f) Q.
Proof. intros H s Hs. by apply H. Qed.

Lemma triple_weaken {A} P P' (m : M A) (Q Q' : A → Store → Prop) :
  triple P m Q → (∀ s, P' s → P s) → (∀ a s, Q a s → Q' a s) → triple P' m Q'.
Proof. intros H HP HQ s Hs. apply HQ, H, HP, Hs. Qed.

(** The computation keeps the invariant. *)
Definition Keeps {A} (m : M A) : Prop := triple StoreInv m (λ _, StoreInv).

Lemma Keeps_ret {A} (a : A) : Keeps (ret a).
Proof. by intros s H. Qed.
Lemma Keeps_gets {A} (f : Store → A) : Keeps (gets f).
Proof. by intros s H. Qed.
Lemma Keeps_modify f : (∀ s, StoreInv s → StoreInv (f s)) → Keeps (modify f).
Proof. intros H s Hs. by apply H. Qed.
Lemma Keeps_bind {A B} (m : M A) (k : A → M B) : Keeps m → (∀ a, Keeps (k a)) → Keeps (bind m k).
Proof. intros Hm Hk. by eapply triple_bind. Qed.
Lemma Keeps_bindR {X A B} (m : M (result X A)) (k : A → M (result X B)) : Keeps m → (∀ a, Keeps (k a)) → Keeps (bindR m k).
Proof. intros Hm Hk. apply Keeps_bind; [done|]. intros []; [done|apply Keeps_ret]. Qed.
Lemma Keeps_now : Keeps nowMilli.
Proof. intros s H. by apply tick_inv. Qed.

(** Fields outside the keyspace. *)
Lemma StoreInv_frame s s' :
  StoreInv s → shards s' = shards s → keyKindCounts s' = keyKindCounts s → WaitersWf (storeWaiters s') → StoreInv s'.
Proof.
  intros [H1 H2 H3 H4 H5] Hsh Hc Hw. unfold shardAt, shardIndex in *.
  split; unfold shardAt, shardIndex; rewrite ?Hsh, ?Hc; try done.
  rewrite H3. apply list_fmap_ext. intros. symmetry. by apply stotal_shards.
Qed.

Lemma publish_inv s : StoreInv s → StoreInv (publishExpiredKeys s).
Proof.
  intros H. eapply StoreInv_frame; [exact H|..]; unfold publishExpiredKeys; destruct (pendingExpired s); try done; apply H.
Qed.

Lemma note_inv ks s : StoreInv s → StoreInv (noteExpiredKeysLocked ks s).
Proof. intros H. unfold noteExpiredKeysLocked. destruct ks; [done|]. eapply StoreInv_frame; [exact H|done|done|apply H]. Qed.

Lemma delete_inv k s : StoreInv s → StoreInv (deleteKeyLocked (shardIndex s k) k s).2.
Proof.
  intros H. destruct (lookupKey s k) as [v|] eqn:Ek.
  - destruct (deleteKeyLocked_Some k s v H Ek) as (s' & -> & Hd). apply Hd.
  - by rewrite (deleteKeyLocked_None k s Ek).
Qed.

Lemma lookup_good s k v : StoreInv s → lookupKey s k = Some v → GoodValue v.
Proof. intros H. apply (si_vals _ H). Qed.

(** ** Memory *)

Lemma Keeps_ensure delta prot : Keeps (ensureMemoryAvailableLocked delta prot).
Proof.
  unfold ensureMemoryAvailableLocked. apply Keeps_bind; [apply Keeps_gets|]. intros enabled.
  destruct (_ || _); [apply Keeps_ret|]. apply Keeps_bind; [apply Keeps_now|]. intros now.
  apply Keeps_bind.
  { intros s Hs. destruct (recalculate_spec now s Hs) as (s' & -> & Hr). apply Hr. }
  intros current. apply Keeps_bind; [apply Keeps_gets|]. intros limit. cbn zeta.
  destruct (_ <? 0); [apply Keeps_ret|]. destruct (_ <=? _); [apply Keeps_ret|].
  apply Keeps_bind; [apply Keeps_gets|]. intros ev. destruct (_ <? _); [apply Keeps_ret|].
  intros s Hs. destruct (evictUntil_spec prot (limit - delta) s Hs) as (ks & s' & Hev & [[-> _]|[-> _]]); apply Hev.
Qed.

Lemma Keeps_setKey key v : GoodValue v → Keeps (modify (λ s, setKeyLocked (shardIndex s key) key v s)).
Proof. intros Hg. apply Keeps_modify. intros s Hs. by apply setKeyLocked_inv. Qed.

Lemma Keeps_setUsed f : Keeps (modify (λ s, setUsed (f s) s)).
Proof. apply Keeps_modify. intros s Hs. eapply StoreInv_frame; [exact Hs|done|done|apply Hs]. Qed.

Lemma Keeps_commit w v : GoodValue v → Keeps (commit w v).
Proof.
  intros Hg. unfold commit. destruct (waccounting w).
  - unfold commitValueWithEvictionLocked. cbn zeta. apply Keeps_bindR; [apply Keeps_ensure|]. intros ev.
    apply Keeps_bind; [by apply Keeps_setKey|]. intros _. apply Keeps_bind; [apply Keeps_setUsed|]. intros _. apply Keeps_ret.
  - apply Keeps_bind; [by apply Keeps_setKey|]. intros _. apply Keeps_ret.
Qed.

Lemma GoodString v : Kind v = ValueKindString → GoodValue v.
Proof. intros H. unfold GoodValue, ValueWf. by rewrite H. Qed.

Lemma Keeps_commitString w len e fill : Keeps (commitString w len e fill).
Proof.
  unfold commitString. destruct (waccounting w).
  - unfold commitStringWithEvictionLocked. cbn zeta. apply Keeps_bindR; [apply Keeps_ensure|]. intros ev.
    apply Keeps_bind; [apply Keeps_now|]. intros stamp. apply Keeps_bind; [by apply Keeps_setKey, GoodString|]. intros _.
    apply Keeps_bind; [apply Keeps_setUsed|]. intros _. apply Keeps_ret.
  - cbn zeta. apply Keeps_bind; [apply Keeps_now|]. intros stamp. by apply Keeps_commit, GoodString.
Qed.

(** ** Key access *)

(** What a write's body may assume. *)
Definition WritePre (w : keyWrite) (s : Store) : Prop :=
  StoreInv s ∧ lookupKey s (wkey w) = wcurrent w ∧ maxMemoryEnabled s = waccounting w.

Lemma Keeps_prepare key now : Keeps (prepareExistingValueLocked key now).
Proof.
  intros s Hs. unfold prepareExistingValueLocked. destruct (lookupKey s key) as [v|] eqn:Ek; [|done].
  destruct (isExpired v now); [|done]. by apply delete_inv.
Qed.

Lemma prepare_spec key now s :
  StoreInv s →
  ∃ s', prepareExistingValueLocked key now s = (live now (lookupKey s key), s')
    ∧ StoreInv s' ∧ sameRest s s' ∧ pendingExpired s' = pendingExpired s ∧ ticks s' = ticks s
    ∧ (∀ k, lookupKey s' k = if decide (k = key) then live now (lookupKey s key) else lookupKey s k)
    ∧ (Accounted s → Accounted s')
    ∧ (maxMemoryEnabled s = false → usedMemory s' = usedMemory s).
Proof.
  intros Hs. unfold prepareExistingValueLocked. destruct (lookupKey s key) as [v|] eqn:Ek; cbn [live].
  - destruct (isExpired v now).
    + destruct (deleteKeyLocked_Some key s v Hs Ek) as (s' & Heq & Hd). rewrite Heq. exists s'. pose proof Hd as [D1 D2 D3 D4 D5 D6].
      split_and!; try done.
      * assert (ticks (deleteKeyLocked (shardIndex s key) key s).2 = ticks s) as Ht.
        { unfold deleteKeyLocked, deleteKeyWithSizeLocked. change (shardAt s (shardIndex s key) !! key) with (lookupKey s key). rewrite Ek.
          cbn [snd]. unfold removeKeyLocked. cbn zeta. cbn [putShard setShards ticks].
          assert (∀ o d s0, ticks (adjustKeyKindCount o d s0) = ticks s0) as Ha.
          { intros [x|] d s0; cbn [adjustKeyKindCount]; [|done]. by destruct (keyStatsKindIndex _). }
          rewrite Ha. by destruct (maxMemoryEnabled s). }
        by rewrite Heq in Ht.
      * intros Ha. by eapply Deleted_accounted.
      * intros He. rewrite D6, He. lia.
    + exists s. split_and!; try done. intros k. case_decide; [by subst|done].
  - exists s. split_and!; try done. intros k. case_decide; [by subst|done].
Qed.

Lemma Keeps_writeKey {T} key (fn : keyWrite → M (result storeError (T * list bytes))) :
  (∀ w, wkey w = key → triple (WritePre w) (fn w) (λ _, StoreInv)) → Keeps (writeKey key fn).
Proof.
  intros Hfn s Hs. unfold writeKey, bind at 1, nowMilli. set (now := clock (ticks s) / 1000000).
  unfold bind at 1, gets. unfold bind at 1.
  destruct (prepare_spec key now (tick s) (tick_inv s Hs)) as (s1 & -> & Hs1 & Hr1 & _ & _ & Hl1 & _).
  pose proof (sameRest_enabled _ _ Hr1) as Hen.
  set (w := mkKeyWrite key _ now _). unfold bind at 1.
  assert (WritePre w s1) as Hpre.
  { split_and!; [done| |done]. unfold w. cbn [wkey wcurrent]. rewrite Hl1. by rewrite decide_True. }
  pose proof (Hfn w eq_refl s1 Hpre) as H2. destruct (fn w s1) as [r s2]. cbn [snd] in H2.
  unfold bind, ret, modify. destruct (maxMemoryEnabled (tick s)); cbn [snd fst]; [by apply publish_inv|done].
Qed.

Lemma touch_good v now : GoodValue v → GoodValue (touch v now).
Proof. done. Qed.

Lemma Keeps_readKey {T} key (fn : ValueObject → result storeError T) : Keeps (readKey key fn).
Proof.
  intros s Hs. unfold readKey, bind at 1, nowMilli. set (now := clock (ticks s) / 1000000). unfold bind at 1, gets.
  pose proof (tick_inv s Hs) as Ht. destruct (lookupKey (tick s) key) as [v|] eqn:Ek; [|done].
  destruct (isExpired v now) eqn:Ex.
  - unfold bind at 1, dropIfStillExpired, bind at 1, gets. rewrite Ek. unfold bind, nowMilli.
    pose proof (tick_inv _ Ht) as Ht2. destruct (isExpired v (clock _ / _)); cbn [modify ret fst snd]; [|done]. by apply delete_inv.
  - destruct (fn v) as [r|e]; [|done]. unfold bind, modify, ret. cbn [snd fst].
    apply (upd_inv _ _ _ _ (updateInPlace_spec key (touch v now) v (tick s) Ht Ek eq_refl (touch_good v now (lookup_good _ _ _ Ht Ek)))).
Qed.

(** An in-place change of the current value, by a write that is not accounted. *)
Lemma keeps_inplace w current v {T} (r : T) :
  wcurrent w = Some current → Kind v = Kind current → GoodValue v →
  triple (WritePre w) (modify (updateInPlace (wkey w) v);; ret r) (λ _, StoreInv).
Proof.
  intros Hc Hk Hg s (Hs & Hl & _). cbn. rewrite Hc in Hl. by apply (upd_inv _ _ _ _ (updateInPlace_spec _ _ current s Hs Hl Hk Hg)).
Qed.

Lemma keeps_weak {A} w (m : M A) : Keeps m → triple (WritePre w) m (λ _, StoreInv).
Proof. intros H s (Hs & _). by apply H. Qed.

(** ** Shrinking a collection *)

Lemma liveForUpdate_spec key s :
  StoreInv s →
  ∃ o s', liveForUpdate key s = (o, s') ∧ StoreInv s' ∧ sameRest s s' ∧ lookupKey s' key = o
    ∧ (∀ k, k ≠ key → lookupKey s' k = lookupKey s k)
    ∧ o = live (clock (ticks s) / 1000000) (lookupKey s key) ∧ (Accounted s → Accounted s').
Proof.
  intros Hs. unfold liveForUpdate. destruct (lookupKey s key) as [v|] eqn:Ek; [|exists None, s; done].
  unfold nowMilli. set (now := clock (ticks s) / 1000000). cbn [live]. pose proof (tick_inv s Hs) as Ht. destruct (isExpired v now).
  - destruct (deleteKeyLocked_Some key (tick s) v Ht Ek) as (s' & -> & Hd). cbn [snd]. pose proof Hd as [D1 D2 D3 D4 D5 D6].
    exists None, s'. split_and!; try done.
    + rewrite D4. by rewrite decide_True.
    + intros k Hne. rewrite D4. by rewrite decide_False.
    + intros Ha. by eapply (Deleted_accounted key (tick s)).
  - by exists (Some v), (tick s).
Qed.

(** Deleting a key whose value was just changed deletes the key. *)
Lemma finishShrink_empty key v v' s :
  StoreInv s → lookupKey s key = Some v → Kind v' = Kind v →
  (finishShrink key v v' true s).2
  = (deleteKeyWithSizeLocked (shardIndex s key) key (if maxMemoryEnabled s then vsize key v else 0) s).2.
Proof.
  intros Hs Hk Hkind. unfold finishShrink. cbn zeta. cbn [snd].
  assert (shardIndex (updateInPlace key v' s) key = shardIndex s key) as Hix.
  { apply shardIndex_shards. unfold updateInPlace. cbn zeta. apply shards_putShard. }
  rewrite Hix. set (i := shardIndex s key). pose proof (shardIndex_lt s key (si_len _ Hs)) as Hi. fold i in Hi.
  assert (shardAt (updateInPlace key v' s) i = <[key := v']> (shardAt s i)) as Hat.
  { unfold updateInPlace. cbn zeta. fold i. by rewrite shardAt_putShard, decide_True. }
  change (lookupKey s key) with (shardAt s i !! key) in Hk.
  unfold deleteKeyWithSizeLocked. rewrite Hat, lookup_insert_eq, Hk. cbn [snd].
  unfold removeKeyLocked. cbn zeta.
  assert (∀ b : bool, shardAt (if b then setUsed (usedMemory (updateInPlace key v' s) - (if maxMemoryEnabled s then vsize key v else 0)) (updateInPlace key v' s) else updateInPlace key v' s) i = <[key := v']> (shardAt s i)) as Hat'
    by (intros []; exact Hat).
  change (maxMemoryEnabled (updateInPlace key v' s)) with (maxMemoryEnabled s). rewrite !shardAt_adjust, Hat', lookup_insert_eq.
  assert (∀ b : bool, shardAt (if b then setUsed (usedMemory s - (if maxMemoryEnabled s then vsize key v else 0)) s else s) i = shardAt s i) as Hat2 by (by intros []).
  rewrite Hat2, Hk, delete_insert_eq.
  assert (∀ (x : ValueObject) s0, adjustKeyKindCount (Some x) (-1) s0 = match keyStatsKindIndex (Kind x) with Some j => setCounts (alter (Z.add (-1)) j (keyKindCounts s0)) s0 | None => s0 end) as Hadj by done.
  rewrite !Hadj, Hkind. unfold updateInPlace. cbn zeta. fold i. unfold putShard.
  destruct (keyStatsKindIndex (Kind v)); destruct (maxMemoryEnabled s); cbn; unfold setShards; cbn; by rewrite list_insert_insert_eq.
Qed.

Lemma finishShrink_inv key v v' empty s :
  StoreInv s → lookupKey s key = Some v → Kind v' = Kind v → (empty = false → GoodValue v') →
  StoreInv (finishShrink key v v' empty s).2.
Proof.
  intros Hs Hk Hkind Hg. destruct empty.
  - rewrite finishShrink_empty by done.
    destruct (deleteKeyWithSizeLocked_spec key (if maxMemoryEnabled s then vsize key v else 0) s v Hs Hk) as (s' & -> & Hd). apply Hd.
  - unfold finishShrink. cbn zeta. cbn [snd].
    pose proof (upd_inv _ _ _ _ (updateInPlace_spec key v' v s Hs Hk Hkind (Hg eq_refl))) as Hu.
    destruct (maxMemoryEnabled s); [|done]. eapply StoreInv_frame; [exact Hu|done|done|apply Hu].
Qed.

Lemma Keeps_popWith {T} key (take_ : list bytes → T * list bytes) : Keeps (popWith key take_).
Proof.
  intros s Hs. unfold popWith, bind at 1. destruct (liveForUpdate_spec key s Hs) as (o & s1 & -> & Hs1 & _ & Hl & _).
  destruct o as [v|]; [|done]. unfold value_ListValue, ofKind. case_decide as Hk; [|done].
  destruct (zlen (vList v) =? 0).
  - unfold bind. pose proof (delete_inv key s1 Hs1) as Hd. destruct (deleteKeyLocked _ key s1) as [b s2]. done.
  - destruct (take_ (vList v)) as [item rest]. unfold bind at 1, nowMilli. unfold bind at 1.
    pose proof (finishShrink_inv key v (touch (setList v rest) (clock (ticks s1) / 1000000)) (zlen rest =? 0) (tick s1)
      (tick_inv _ Hs1) Hl eq_refl) as Hf.
    destruct (finishShrink _ _ _ _ _) as [u s2]. apply Hf. intros Hne. bool_to_prop. unfold GoodValue, ValueWf.
    cbn [Kind touch setList vList]. rewrite Hk. split; [done|]. by destruct rest.
Qed.
End Logic.

Create HintDb store.
#[export] Hint Resolve Keeps_ret Keeps_gets Keeps_now Keeps_commitString Keeps_readKey Keeps_popWith
  Keeps_commit GoodString : store.

(** Step through binds, leaving the calls the hints do not know. *)
Ltac keeps :=
  repeat first
    [ progress auto with store
    | apply Keeps_bind; [|intros ?]
    | apply Keeps_bindR; [|intros ?]
    | match goal with |- Keeps (if ?b then _ else _) => destruct b end
    | match goal with |- Keeps (match ?x with _ => _ end) => destruct x end ].

Section Operations.
Context {E : Env}.

(** ** Strings *)

Lemma Keeps_Set key value e : Keeps (Set_ key value e).
Proof.
  unfold Set_. apply Keeps_bindR; [|intros []; apply Keeps_ret]. apply Keeps_writeKey. intros w _. apply keeps_weak. keeps.
Qed.

Lemma Keeps_Delete key : Keeps (Delete key).
Proof.
  unfold Delete. keeps. intros s Hs. by apply delete_inv.
Qed.

Lemma Keeps_Increment key : Keeps (Increment key).
Proof.
  unfold Increment. apply Keeps_writeKey. intros w _. destruct (wcurrent w) as [current|] eqn:Ec.
  - unfold value_StringValue, ofKind. case_decide as Hk; [|apply keeps_weak, Keeps_ret].
    destruct (ParseInt _); [|apply keeps_weak, Keeps_ret]. destruct (_ =? _); [apply keeps_weak, Keeps_ret|]. cbn zeta.
    destruct (waccounting w); cbn [negb].
    + apply keeps_weak. keeps.
    + eapply keeps_inplace; [done|done|]. by apply GoodString.
  - apply keeps_weak. keeps.
Qed.

(** ** Lists *)

Lemma Keeps_pushList key values lft : Keeps (pushList key values lft).
Proof.
  unfold pushList. destruct (zlen values =? 0) eqn:El; [apply Keeps_ret|]. bool_to_prop.
  apply Keeps_bindR.
  - apply Keeps_writeKey. intros w _. apply keeps_weak. destruct (match wcurrent w with Some _ => _ | None => _ end) as [[l e]|]; [|apply Keeps_ret].
    cbn zeta. keeps. apply Keeps_commit. unfold GoodValue, ValueWf. cbn [Kind newListValue setList zeroValue vList]. split; [done|].
    unfold pushed. destruct values as [|x values]; [done|]. destruct lft; cbn [rev]; intros H; apply (f_equal length) in H;
      rewrite ?length_app in H; cbn in H; lia.
  - intros [len ev]. apply Keeps_bind; [|intros; apply Keeps_ret]. apply Keeps_modify. intros s Hs.
    eapply StoreInv_frame; [exact Hs|done|done|]. apply notifyOne_wf, Hs.
Qed.

(** ** Collections *)

Lemma Keeps_addTo key clone add fresh len :
  (∀ stamp v e v', GoodValue v → clone stamp v e = Ok v' → GoodValue v') →
  (∀ v v' n, GoodValue v → add v = (v', Ok n) → GoodValue v') →
  (∀ stamp, GoodValue (fresh stamp)) →
  Keeps (addTo key clone add fresh len).
Proof.
  intros Hclone Hadd Hfresh. unfold addTo. apply Keeps_writeKey. intros w _. unfold bindR at 1.
  eapply (triple_bind _ _ _ (λ r s, StoreInv s ∧ match r with Ok (v, _) => GoodValue v | Err _ => True end)).
  - intros s (Hs & Hl & _). destruct (wcurrent w) as [current|] eqn:Ec.
    + assert (GoodValue current) as Hg by (by eapply lookup_good).
      set (m := if waccounting w then _ else _). unfold bindR, bind.
      assert (StoreInv (m s).2 ∧ match (m s).1 with Ok v => GoodValue v | Err _ => True end) as [Hs1 Hv].
      { unfold m. destruct (waccounting w); [|done]. cbn. split; [by apply tick_inv|].
        destruct (clone _ current _) eqn:Ecl; [|done]. by eapply Hclone. }
      destruct (m s) as [[v|e] s1]; cbn [fst snd] in *; [|by split]. destruct (add v) as [v' added] eqn:Ead. cbn. split; [done|].
      destruct added as [n|e]; cbn; [|done]. by eapply Hadd.
    + cbn. split; [by apply tick_inv|]. destruct (len _); cbn; [apply Hfresh|done].
  - intros [[v n]|e]; [|intros s1 [H1 _]; exact H1]. intros s1 [Hs1 Hv]. revert s1 Hs1.
    apply (Keeps_bindR (commit w (touch v (wnow w)))); [by apply Keeps_commit, touch_good|]. intros; apply Keeps_ret.
Qed.

Lemma Keeps_removeFrom key remove len second :
  (∀ v v' n stamp, GoodValue v → remove v = (v', Ok n) →
     ∃ m, len (touch v' stamp) = Ok m ∧ Kind v' = Kind v ∧ (m ≠ 0 → GoodValue v')) →
  Keeps (removeFrom key remove len second).
Proof.
  intros Hrem s Hs. unfold removeFrom. destruct (lookupKey s key) as [v|] eqn:Ek; [|destruct second; [done|by apply tick_inv]].
  unfold nowMilli at 1. pose proof (tick_inv s Hs) as Ht. destruct (isExpired v _); [by apply delete_inv|].
  destruct (remove v) as [v' [n|e]] eqn:Er; [|done].
  assert (∃ stamp s1, (if second then nowMilli else ret (clock (ticks s) / 1000000)) (tick s) = (stamp, s1) ∧ StoreInv s1 ∧ lookupKey s1 key = Some v) as (stamp & s1 & -> & Hs1 & Hl1).
  { destruct second; (eexists _, _; split; [reflexivity|]); [split; [by apply tick_inv|done]|done]. }
  cbn zeta. destruct (Hrem v v' n stamp (lookup_good _ _ _ Hs Ek) Er) as (m & -> & Hk & Hg).
  pose proof (finishShrink_inv key v (touch v' stamp) (m =? 0) s1 Hs1 Hl1 Hk) as Hf.
  destruct (finishShrink key v (touch v' stamp) (m =? 0) s1) as [u s2]. apply Hf.
  intros Hm. bool_to_prop. by apply touch_good, Hg.
Qed.

Lemma hashUpd_nonempty m pairs : m ≠ ∅ ∨ pairs ≠ [] → hashUpd m pairs ≠ ∅.
Proof.
  intros H He. pose proof (hashUpd_dom m pairs) as Hd. rewrite He, dom_empty_L in Hd. symmetry in Hd.
  apply empty_union_L in Hd as [Hd1 Hd2]. destruct H as [H|H]; [by apply H, dom_empty_inv_L|].
  destruct pairs as [|p pairs]; [done|]. cbn [fmap list_fmap list_to_set] in Hd2. set_solver.
Qed.

Lemma zaddAll_nonempty m zs : m ≠ ∅ → zaddAll m zs ≠ ∅.
Proof.
  intros H He. pose proof (zaddAll_dom m zs) as Hd. rewrite He, dom_empty_L in Hd. symmetry in Hd.
  apply empty_union_L in Hd as [Hd1 _]. by apply H, dom_empty_inv_L.
Qed.

Lemma zsetUpd_nonempty zs : zs ≠ [] → zsetUpd ∅ zs ≠ ∅.
Proof.
  intros H He. pose proof (zsetUpd_dom ∅ zs) as Hd. rewrite He, dom_empty_L in Hd. symmetry in Hd.
  apply empty_union_L in Hd as [_ Hd]. destruct zs as [|p zs]; [done|]. cbn [fmap list_fmap list_to_set] in Hd. set_solver.
Qed.

Lemma GoodHash v : Kind v = ValueKindHash → HashWf v → hashAbs v ≠ ∅ → GoodValue v.
Proof. intros Hk ? ?. unfold GoodValue, ValueWf. by rewrite Hk. Qed.
Lemma GoodSet v : Kind v = ValueKindSet → SetWf v → setAbs v ≠ ∅ → GoodValue v.
Proof. intros Hk ? ?. unfold GoodValue, ValueWf. by rewrite Hk. Qed.
Lemma GoodZSet v : Kind v = ValueKindZSet → ZSetWf v → zsetAbs v ≠ ∅ → GoodValue v.
Proof. intros Hk ? ?. unfold GoodValue, ValueWf. by rewrite Hk. Qed.

Lemma GoodHash_inv v : GoodValue v → Kind v = ValueKindHash → HashWf v ∧ hashAbs v ≠ ∅.
Proof. intros [Hw Hg] Hk. unfold ValueWf in Hw. by rewrite Hk in Hw, Hg. Qed.
Lemma GoodSet_inv v : GoodValue v → Kind v = ValueKindSet → SetWf v ∧ setAbs v ≠ ∅.
Proof. intros [Hw Hg] Hk. unfold ValueWf in Hw. by rewrite Hk in Hw, Hg. Qed.
Lemma GoodZSet_inv v : GoodValue v → Kind v = ValueKindZSet → ZSetWf v ∧ zsetAbs v ≠ ∅.
Proof. intros [Hw Hg] Hk. unfold ValueWf in Hw. by rewrite Hk in Hw, Hg. Qed.

Lemma zlen_nil_inv {A} (l : list A) : zlen l ≠ 0 → l ≠ [].
Proof. by intros H ->. Qed.

(** What the additions of a kind store is good to store. *)
Lemma hashSet_good pairs v v' n : GoodValue v → hashSet v pairs = (v', Ok n) → GoodValue v'.
Proof.
  intros Hg Hs. assert (Kind v = ValueKindHash) as Hk by (unfold hashSet in Hs; case_bool_decide; [done|by injection Hs]).
  apply GoodHash_inv in Hg as [Hw Hn]; [|done]. destruct (hashSet_spec v pairs Hk Hw) as (v1 & Hv1 & Ha1 & Hw1 & Hk1 & _).
  rewrite Hv1 in Hs. injection Hs as <- _. apply GoodHash; [done|done|]. rewrite Ha1. apply hashUpd_nonempty. by left.
Qed.

Lemma newHash_good pairs stamp : pairs ≠ [] → GoodValue (newHashValueForPairs stamp pairs 0).
Proof.
  intros Hne. destruct (newHashValueForPairs_spec stamp pairs 0) as (Hk & Hw & Ha & _). apply GoodHash; [done|done|].
  rewrite Ha. apply hashUpd_nonempty. by right.
Qed.

Lemma setAdd_good members v v' n : GoodValue v → setAdd v members = (v', Ok n) → GoodValue v'.
Proof.
  intros Hg Hs. assert (Kind v = ValueKindSet) as Hk by (unfold setAdd in Hs; case_bool_decide; [done|by injection Hs]).
  apply GoodSet_inv in Hg as [Hw Hn]; [|done]. destruct (setAdd_spec v members Hk Hw) as (v1 & Hv1 & Ha1 & Hw1 & Hk1 & _).
  rewrite Hv1 in Hs. injection Hs as <- _. apply GoodSet; [done|done|]. rewrite Ha1. intros [? _]%empty_union_L. done.
Qed.

Lemma newSet_good members stamp : members ≠ [] → GoodValue (newSetValueForMembers stamp members 0).
Proof.
  intros Hne. destruct (newSetValueForMembers_spec stamp members 0) as (Hk & Hw & Ha & _). apply GoodSet; [done|done|].
  rewrite Ha. destruct members; [done|]. cbn. set_solver.
Qed.

Lemma zsetAdd_good zs v v' n : Forall scoreOk zs → GoodValue v → zsetAdd v zs = (v', Ok n) → GoodValue v'.
Proof.
  intros Hok Hg Hs. assert (Kind v = ValueKindZSet) as Hk by (unfold zsetAdd in Hs; case_bool_decide; [done|by injection Hs]).
  apply GoodZSet_inv in Hg as [Hw Hn]; [|done]. destruct (zsetAdd_spec v zs Hk Hw Hok) as (v1 & Hv1 & Ha1 & Hw1 & Hk1 & _).
  rewrite Hv1 in Hs. injection Hs as <- _. apply GoodZSet; [done|done|]. rewrite Ha1. by apply zaddAll_nonempty.
Qed.

Lemma newZSet_good zs stamp : Forall scoreOk zs → zs ≠ [] → GoodValue (newZSetValueForEntries stamp zs 0).
Proof.
  intros Hok Hne. destruct (newZSetValueForEntries_spec stamp zs 0 Hok) as (Hk & Hw & Ha & _). apply GoodZSet; [done|done|].
  rewrite Ha. by apply zsetUpd_nonempty.
Qed.

Lemma Keeps_HSet key pairs : Keeps (HSet key pairs).
Proof.
  unfold HSet. destruct (Z.eqb_spec (zlen pairs) 0) as [|Hne]; [apply Keeps_ret|]. apply zlen_nil_inv in Hne.
  apply Keeps_addTo; [|by apply hashSet_good|by intros; apply newHash_good].
  intros stamp v e v' Hg Hc. assert (Kind v = ValueKindHash) as Hk
    by (unfold cloneHashValue, ofKind in Hc; by case_decide). apply GoodHash_inv in Hg as [Hw Hn]; [|done].
  destruct (cloneHashValue_spec stamp v e Hk Hw) as (v1 & Hv1 & Hk1 & Hw1 & Ha1 & _). rewrite Hv1 in Hc. injection Hc as <-.
  apply GoodHash; [done|done|by rewrite Ha1].
Qed.

Lemma Keeps_SAdd key members : Keeps (SAdd key members).
Proof.
  unfold SAdd. destruct (Z.eqb_spec (zlen members) 0) as [|Hne]; [apply Keeps_ret|]. apply zlen_nil_inv in Hne.
  apply Keeps_addTo; [|by apply setAdd_good|by intros; apply newSet_good].
  intros stamp v e v' Hg Hc. assert (Kind v = ValueKindSet) as Hk
    by (unfold cloneSetValue, ofKind in Hc; by case_decide). apply GoodSet_inv in Hg as [Hw Hn]; [|done].
  destruct (cloneSetValue_spec stamp v e Hk Hw) as (v1 & Hv1 & Hk1 & Hw1 & Ha1 & _). rewrite Hv1 in Hc. injection Hc as <-.
  apply GoodSet; [done|done|by rewrite Ha1].
Qed.

Lemma Keeps_ZAdd key zs : Forall scoreOk zs → Keeps (ZAdd key zs).
Proof.
  intros Hok. unfold ZAdd. destruct (Z.eqb_spec (zlen zs) 0) as [|Hne]; [apply Keeps_ret|]. apply zlen_nil_inv in Hne.
  apply Keeps_addTo; [|by intros; eapply zsetAdd_good|by intros; apply newZSet_good].
  intros stamp v e v' Hg Hc. assert (Kind v = ValueKindZSet) as Hk
    by (unfold cloneZSetValue, ofKind in Hc; by case_decide). apply GoodZSet_inv in Hg as [Hw Hn]; [|done].
  destruct (cloneZSetValue_spec stamp v e Hk Hw) as (v1 & Hv1 & Hk1 & Hw1 & Ha1 & _). rewrite Hv1 in Hc. injection Hc as <-.
  apply GoodZSet; [done|done|by rewrite Ha1].
Qed.

Lemma Keeps_HDel key fields : Keeps (HDel key fields).
Proof.
  unfold HDel. destruct (zlen fields =? 0); [apply Keeps_ret|]. apply Keeps_removeFrom. intros v v' n stamp Hg Hd.
  assert (Kind v = ValueKindHash) as Hk by (unfold hashDel in Hd; case_bool_decide; [done|by injection Hd]).
  destruct (GoodHash_inv _ Hg Hk) as [Hw _]. destruct (hashDel_spec v fields Hk Hw) as (v1 & Hv1 & Ha1 & Hw1 & Hk1 & _).
  rewrite Hv1 in Hd. injection Hd as <- _. exists (msize (hashAbs v1)). split_and!.
  - change (hashAbs v1) with (hashAbs (touch v1 stamp)). by apply hashLen_spec.
  - by rewrite Hk, Hk1.
  - intros Hn. apply GoodHash; [done|done|]. by intros He; rewrite He in Hn.
Qed.

Lemma Keeps_SRem key members : Keeps (SRem key members).
Proof.
  unfold SRem. destruct (zlen members =? 0); [apply Keeps_ret|]. apply Keeps_removeFrom. intros v v' n stamp Hg Hd.
  assert (Kind v = ValueKindSet) as Hk by (unfold setRemove in Hd; case_bool_decide; [done|by injection Hd]).
  destruct (GoodSet_inv _ Hg Hk) as [Hw _]. destruct (setRemove_spec v members Hk Hw) as (v1 & Hv1 & Ha1 & Hw1 & Hk1 & _).
  rewrite Hv1 in Hd. injection Hd as <- _. exists (ssize (setAbs v1)). split_and!.
  - change (setAbs v1) with (setAbs (touch v1 stamp)). by apply setLen_spec.
  - by rewrite Hk, Hk1.
  - intros Hn. apply GoodSet; [done|done|]. intros He. rewrite He in Hn. by apply Hn.
Qed.

(** ** Streams, bitmaps, HyperLogLog *)

Lemma Keeps_XAdd key id values : Keeps (XAdd key id values).
Proof.
  unfold XAdd. destruct (_ || _); [apply Keeps_ret|]. apply Keeps_writeKey. intros w _. apply keeps_weak.
  destruct (match wcurrent w with Some _ => _ | None => _ end) as [[st e]|]; [|apply Keeps_ret].
  destruct (Stream_add _ _ _ _) as [[st' rid]|]; [|apply Keeps_ret]. cbn zeta. keeps. apply Keeps_commit.
  split; [|done]. by exists st'.
Qed.

Lemma Keeps_SetBit key offset bit : Keeps (SetBit key offset bit).
Proof.
  unfold SetBit. destruct (negb _); [apply Keeps_ret|]. apply Keeps_writeKey. intros w _.
  destruct (match wcurrent w with Some _ => _ | None => _ end) as [[data e]|] eqn:Ed; [|apply keeps_weak, Keeps_ret]. cbn zeta.
  destruct (wcurrent w) as [current|] eqn:Ec; [|apply keeps_weak; keeps].
  destruct (_ && _); [|apply keeps_weak; keeps]. eapply keeps_inplace; [done|done|]. apply GoodString.
  unfold value_StringValue, ofKind in Ed. by case_decide.
Qed.

Lemma Keeps_PFAdd key elements : Keeps (PFAdd key elements).
Proof.
  unfold PFAdd. apply Keeps_writeKey. intros w _. destruct (wcurrent w) as [current|] eqn:Ec.
  - unfold value_StringValue, ofKind. case_decide as Hk; [|apply keeps_weak, Keeps_ret].
    destruct (hyperLogLogRegisters _); [|apply keeps_weak, Keeps_ret]. destruct (updatePayload _ _) as [data' changed].
    eapply keeps_inplace; [done|done|]. by apply GoodString.
  - cbn zeta. apply keeps_weak. keeps.
Qed.

Lemma Keeps_mergeLoop keys : ∀ merged, Keeps (mergeLoop keys merged).
Proof.
  induction keys as [|k keys IH]; intros merged; cbn [mergeLoop]; [apply Keeps_ret|].
  apply Keeps_bindR; [|done]. unfold mergeHyperLogLogRegisters, withStringValue. keeps.
Qed.

(** ** Many keys *)

Lemma delete_at_inv i k v s : StoreInv s → shardAt s i !! k = Some v → StoreInv (deleteKeyLocked i k s).2.
Proof.
  intros Hs Hk. assert (i = shardIndex s k) as -> by (apply (si_place _ Hs); eauto). by apply delete_inv.
Qed.

Lemma deleteOne_inv now i ks : ∀ st, StoreInv st.2 → StoreInv (foldl (deleteOne now i) st ks).2.
Proof.
  induction ks as [|k ks IH]; intros [removed s] Hs; [done|]. cbn [foldl]. apply IH. unfold deleteOne. cbn [snd] in Hs.
  destruct (shardAt s i !! k) as [v|] eqn:Ek; [|done]. destruct (isExpired v now); by apply (delete_at_inv i k v).
Qed.

Lemma Keeps_DeleteMany keys : Keeps (DeleteMany keys).
Proof.
  unfold DeleteMany. destruct keys as [|k [|k2 keys]]; [apply Keeps_ret| |].
  - apply Keeps_bind; [apply Keeps_Delete|]. intros; apply Keeps_ret.
  - keeps. intros s Hs. generalize (seq 0 (length (gcounts a))). intros ids.
    assert (∀ st : list bytes * Store, StoreInv st.2 → StoreInv (foldl (λ st shardID,
      if decide (default O (gcounts a !! shardID) = O) then st else foldl (deleteOne a0 shardID) st (keysForShard a shardID)) st ids).2) as H.
    { induction ids as [|i ids IH]; intros st Hst; [done|]. cbn [foldl]. apply IH. case_decide; [done|]. by apply deleteOne_inv. }
    by apply H.
Qed.

Lemma sweepKey_inv now i ks : ∀ st, StoreInv st.2 → StoreInv (foldl (sweepKey now i) st ks).2.
Proof.
  induction ks as [|k ks IH]; intros [removed s] Hs; [done|]. cbn [foldl]. apply IH. unfold sweepKey. cbn [snd] in Hs.
  destruct (shardAt s i !! k) as [v|] eqn:Ek; [|done]. destruct (isExpired v now); [|done]. by apply (delete_at_inv i k v).
Qed.

Lemma Keeps_sample limit : Keeps (sampleKeysLocked limit).
Proof.
  unfold sampleKeysLocked. destruct (limit <=? 0); [apply Keeps_ret|]. apply Keeps_bind; [|intros; apply Keeps_gets].
  intros s Hs. by apply tick_inv.
Qed.

Lemma Keeps_sweepSample now keys : Keeps (sweepSample now keys).
Proof.
  unfold sweepSample. destruct keys as [|k [|k2 keys]]; [apply Keeps_ret| |].
  - intros s Hs. destruct (lookupKey s k) as [v|]; [|done]. destruct (isExpired v now); [|done]. by apply note_inv, delete_inv.
  - intros s Hs. set (g := groupKeysByShard s _). generalize (seq 0 (length (gcounts g))). intros ids.
    assert (∀ st : list bytes * Store, StoreInv st.2 → StoreInv (foldl (sweepShard now g) st ids).2) as H.
    { induction ids as [|i ids IH]; intros st Hst; [done|]. cbn [foldl]. apply IH. unfold sweepShard.
      case_decide; [done|]. by apply sweepKey_inv. }
    specialize (H ([], s) Hs). destruct (foldl _ _ ids) as [ex s']. by apply note_inv.
Qed.

Lemma Keeps_recalculate now : Keeps (recalculateUsedMemoryLocked now).
Proof. intros s Hs. destruct (recalculate_spec now s Hs) as (s' & -> & Hr). apply Hr. Qed.

Lemma Keeps_publish : Keeps (modify publishExpiredKeys).
Proof. apply Keeps_modify, publish_inv. Qed.

Lemma Keeps_sweepTick now keys : Keeps (sweepTick now keys).
Proof. unfold sweepTick. apply Keeps_bind; [apply Keeps_sweepSample|]. intros []; [apply Keeps_ret|apply Keeps_publish]. Qed.

Lemma Keeps_ConfigureMaxMemory limit sample : Keeps (ConfigureMaxMemory limit sample).
Proof.
  unfold ConfigureMaxMemory. cbn zeta. apply Keeps_bind; [|intros _; apply Keeps_bind; [|intros _; apply Keeps_publish]].
  - apply Keeps_modify. intros s Hs. eapply StoreInv_frame; [exact Hs|done|done|apply Hs].
  - destruct (0 <? _); [|apply (Keeps_setUsed (λ _, 0))]. keeps. apply Keeps_recalculate.
Qed.

Lemma Keeps_EnforceMaxMemory : Keeps EnforceMaxMemory.
Proof.
  unfold EnforceMaxMemory. apply Keeps_bind; [apply Keeps_gets|]. intros []; cbn [negb]; [|apply Keeps_ret].
  apply Keeps_bind; [apply Keeps_gets|]. intros limit. apply Keeps_bind; [apply Keeps_now|]. intros now.
  apply Keeps_bind; [apply Keeps_recalculate|]. intros _. apply Keeps_bind; [apply Keeps_gets|]. intros used.
  apply Keeps_bind; [|intros r; apply Keeps_bind; [apply Keeps_publish|intros _; apply Keeps_ret]].
  destruct (used <=? limit); [apply Keeps_ret|]. intros s Hs.
  destruct (evictUntil_spec ∅ limit s Hs) as (ks & s' & Hev & [[-> _]|[-> _]]); apply Hev.
Qed.

(** ** Replacing the keyspace *)

Lemma countKind_fold l : ∀ (counts : list Z) (g : ValueKind → Z),
  counts = g <$> keyStatsKinds →
  foldl countKind counts l = (λ kind, g kind + foldr (λ v acc, isKind kind [] v + acc) 0 l) <$> keyStatsKinds.
Proof.
  induction l as [|v l IH]; intros counts g Hg; cbn [foldl foldr].
  { rewrite Hg. apply list_fmap_ext. intros. lia. }
  assert (countKind counts v = (λ kind, g kind + isKind kind [] v) <$> keyStatsKinds) as Hc.
  { pose proof (adjust_counts (Some v) 1 (setCounts counts NewStore) g Hg) as Ha. cbn [adjustKeyKindCount fOpt] in Ha.
    unfold countKind. destruct (keyStatsKindIndex_spec (Kind v)) as (i & Hi & _). rewrite Hi in *. cbn [keyKindCounts setCounts] in Ha.
    rewrite Ha. apply list_fmap_ext. intros. lia. }
  rewrite (IH _ _ Hc). apply list_fmap_ext. intros. lia.
Qed.

Lemma recalculateKeyStats_spec s :
  keyKindCounts (recalculateKeyStatsLocked s) = (λ kind, stotal (isKind kind) s) <$> keyStatsKinds.
Proof.
  unfold recalculateKeyStatsLocked. cbn [keyKindCounts setCounts]. unfold stotal.
  assert (∀ ms counts (g : ValueKind → Z), counts = g <$> keyStatsKinds →
    foldl (λ counts (shard : Shard), foldl countKind counts (mapOrder shard).*2) counts ms
    = (λ kind, g kind + foldr (λ m acc, mtotal (isKind kind) m + acc) 0 ms) <$> keyStatsKinds) as H.
  { induction ms as [|m ms IH]; intros counts g Hg; cbn [foldl foldr]; [rewrite Hg; apply list_fmap_ext; intros; lia|].
    rewrite (IH _ _ (countKind_fold (mapOrder m).*2 counts g Hg)). apply list_fmap_ext. intros j kind _.
    rewrite <- (mtotal_order (isKind kind) m (mapOrder m)) by apply mapOrder_perm.
    assert (foldr (λ v acc, isKind kind [] v + acc) 0 (mapOrder m).*2 = foldr (λ p acc, isKind kind p.1 p.2 + acc) 0 (mapOrder m)) as ->
      by (induction (mapOrder m) as [|p l IHl]; cbn; [done|]; by rewrite IHl). lia. }
  rewrite (H (shards s) (replicate 6 0) (λ _, 0)) by done. apply list_fmap_ext. intros. lia.
Qed.

(** Filling fresh shards keeps every key in the shard of its hash. *)
Definition ShardsOk (n : nat) (index : bytes → nat) (sh : list Shard) : Prop :=
  length sh = n ∧ (∀ i m k v, sh !! i = Some m → m !! k = Some v → i = index k ∧ GoodValue v).

Lemma fillShards_ok n index l : ∀ sh,
  ShardsOk n index sh → Forall (λ p : bytes * ValueObject, GoodValue p.2) l →
  ShardsOk n index (foldl (λ repl '(key, v), alter (<[key := v]>) (index key) repl) sh l).
Proof.
  induction l as [|[key v] l IH]; intros sh [Hlen Hok] Hl; [done|]. apply Forall_cons in Hl as [Hv Hl]. cbn [foldl].
  apply IH; [|done]. split; [by rewrite length_alter|]. intros i m k x Hm Hk.
  destruct (decide (index key = i)) as [Hi|Hi].
  - rewrite Hi, list_lookup_alter_eq in Hm. destruct (sh !! i) as [m0|] eqn:E0; cbn in Hm; [|done]. injection Hm as <-.
    apply lookup_insert_Some in Hk as [[<- <-]|[_ Hk]]; [done|by eapply Hok].
  - rewrite list_lookup_alter_ne in Hm by done. by eapply Hok.
Qed.

Lemma Keeps_ReplaceWith other : StoreInv other → Keeps (ReplaceWith other).
Proof.
  intros Ho. unfold ReplaceWith. apply Keeps_bind; [|intros _; apply Keeps_bind; [apply Keeps_gets|intros en]].
  - apply Keeps_modify. intros s Hs. cbn zeta. set (repl := foldl _ _ _).
    assert (ShardsOk (length (shards s)) (shardIndex s) repl) as [Hlen Hok].
    { unfold repl. assert (Forall (λ m : Shard, ∀ k v, m !! k = Some v → GoodValue v) (shards other)) as Hgood.
      { apply Forall_lookup. intros i m Hm k v Hk. apply (si_vals _ Ho i k). unfold shardAt. by rewrite Hm. }
      assert (ShardsOk (length (shards s)) (shardIndex s) (newShards (zlen (shards s)))) as Hnew.
      { unfold newShards. pose proof (si_len _ Hs) as Hl. destruct (Z.leb_spec (zlen (shards s)) 0); [unfold zlen in *; lia|].
        split; [rewrite length_replicate; unfold zlen; lia|]. intros i m k v Hm Hk. apply lookup_replicate in Hm as [-> _].
        by apply lookup_empty_Some in Hk. }
      revert Hnew. generalize (newShards (zlen (shards s))). induction Hgood as [|m ms Hm Hms IH]; intros sh Hsh; [done|].
      cbn [foldl]. apply IH. apply fillShards_ok; [done|]. apply Forall_forall. intros [k v] Hin.
      rewrite mapOrder_perm, elem_of_map_to_list in Hin. by eapply Hm. }
    split.
    + change (shards (recalculateKeyStatsLocked (setShards repl s))) with repl. rewrite Hlen. apply Hs.
    + intros i k [v Hv]. unfold shardAt in Hv. change (shards (recalculateKeyStatsLocked (setShards repl s))) with repl in Hv.
      destruct (repl !! i) as [m|] eqn:Em; cbn in Hv; [|by apply lookup_empty_Some in Hv].
      destruct (Hok i m k v Em Hv) as [-> _]. symmetry. by apply shardIndex_shards.
    + rewrite recalculateKeyStats_spec. apply list_fmap_ext. intros. by apply stotal_shards.
    + intros i k v Hv. unfold shardAt in Hv. change (shards (recalculateKeyStatsLocked (setShards repl s))) with repl in Hv.
      destruct (repl !! i) as [m|] eqn:Em; cbn in Hv; [|by apply lookup_empty_Some in Hv]. by eapply Hok.
    + apply Hs.
  - apply Keeps_bind; [|intros _; apply Keeps_publish]. destruct en; [|apply Keeps_ret]. keeps. apply Keeps_recalculate.
Qed.

Lemma storeOfShards_inv n : (0 < n)%nat → StoreInv (storeOfShards (replicate n ∅)).
Proof.
  intros Hn. assert (∀ f, stotal f (storeOfShards (replicate n ∅)) = 0) as Ht.
  { intros f. unfold stotal. cbn [shards storeOfShards]. clear. induction n; [done|]. cbn. by rewrite IHn. }
  split.
  - cbn. by rewrite length_replicate.
  - intros i k [v Hv]. unfold shardAt in Hv. cbn [shards storeOfShards] in Hv.
    destruct (replicate n ∅ !! i) as [m|] eqn:Em; [apply lookup_replicate in Em as [-> _]|]; cbn [from_option id] in Hv;
      by apply lookup_empty_Some in Hv.
  - cbn [keyKindCounts storeOfShards]. symmetry. etransitivity; [apply list_fmap_ext; intros; by rewrite Ht|done].
  - intros i k v Hv. unfold shardAt in Hv. cbn [shards storeOfShards] in Hv.
    destruct (replicate n ∅ !! i) as [m|] eqn:Em; [apply lookup_replicate in Em as [-> _]|]; cbn [from_option id] in Hv;
      by apply lookup_empty_Some in Hv.
  - apply newListWaiters_wf.
Qed.

Lemma NewStore_inv : StoreInv NewStore.
Proof. apply (storeOfShards_inv (Z.to_nat defaultShardCount)). unfold defaultShardCount. lia. Qed.
End Operations.

(** ** The counting sort behind multi-key operations *)

Section Groups.
Context (index : bytes → nat) (n : nat).

Definition countOf (i : nat) (keys : list bytes) : nat := length (filter (λ k, index k = i) keys).

Lemma groupCounts_lookup keys i :
  (i < n)%nat → groupCounts index n keys !! i = Some (countOf i keys).
Proof.
  intros Hi. unfold groupCounts.
  assert (∀ keys (counts : list nat) c, counts !! i = Some c →
    foldl (λ counts key, alter S (index key) counts) counts keys !! i = Some (c + countOf i keys)%nat) as H.
  { clear keys. induction keys as [|k keys IH]; intros counts c Hc; cbn [foldl]; [by rewrite Hc, Nat.add_0_r|].
    unfold countOf. rewrite filter_cons. destruct (decide (index k = i)) as [Hk|Hk].
    - rewrite (IH _ (S c)) by (rewrite Hk, list_lookup_alter_eq, Hc; done). cbn [length]. f_equal. unfold countOf. lia.
    - rewrite (IH _ c) by (by rewrite list_lookup_alter_ne). done. }
  rewrite (H keys _ 0%nat); [done|]. by apply lookup_replicate_2.
Qed.

Lemma groupCounts_length keys : length (groupCounts index n keys) = n.
Proof.
  unfold groupCounts. assert (∀ (counts : list nat), length (foldl (λ counts key, alter S (index key) counts) counts keys) = length counts) as H.
  { induction keys as [|k keys IH]; intros counts; [done|]. cbn [foldl]. by rewrite IH, length_alter. }
  by rewrite H, length_replicate.
Qed.

Definition offsetOf (i : nat) (counts : list nat) : nat := sum_list (take i counts).

Lemma groupOffsets_lookup counts i : (i < length counts)%nat → groupOffsets counts !! i = Some (offsetOf i counts).
Proof.
  intros Hi. unfold groupOffsets.
  assert (∀ (counts offs : list nat) total, (foldl (λ '(offsets, total) count, (offsets ++ [total], (total + count)%nat)) (offs, total) counts).1
    = offs ++ ((λ i, total + offsetOf i counts)%nat <$> seq 0 (length counts))) as H.
  { clear. induction counts as [|c counts IH]; intros offs total; cbn [foldl length seq fmap list_fmap]; [by rewrite app_nil_r|].
    rewrite IH, <- app_assoc. f_equal. cbn [app]. f_equal; [unfold offsetOf; cbn; lia|].
    rewrite <- fmap_S_seq, <- list_fmap_compose. apply list_fmap_ext. intros j x _. unfold compose, offsetOf. cbn. lia. }
  rewrite H. cbn [app]. rewrite list_lookup_fmap, lookup_seq_lt by done. done.
Qed.

Lemma offsetOf_step counts i c : counts !! i = Some c → offsetOf (S i) counts = (offsetOf i counts + c)%nat.
Proof. intros Hc. unfold offsetOf. rewrite (take_S_r _ _ _ Hc), sum_list_with_app. cbn. unfold sum_list. lia. Qed.

Lemma offsetOf_mono counts i j : (i ≤ j)%nat → (offsetOf i counts ≤ offsetOf j counts)%nat.
Proof.
  induction 1 as [|j _ IH]; [done|]. destruct (counts !! j) as [c|] eqn:Ec; [rewrite (offsetOf_step _ _ _ Ec); lia|].
  unfold offsetOf in *. apply lookup_ge_None in Ec. rewrite (take_ge counts (S j)) by lia. by rewrite (take_ge counts j) in IH by lia.
Qed.


Context (Hindex : ∀ k, (index k < n)%nat).

Lemma sum_alter (l : list nat) i : (i < length l)%nat → sum_list (alter S i l) = S (sum_list l).
Proof.
  revert i. induction l as [|x l IH]; intros i Hi; cbn in Hi; [lia|]. destruct i as [|i].
  - cbn. lia.
  - change (alter S (S i) (x :: l)) with (x :: alter S i l). cbn [sum_list_with]. rewrite IH by lia. lia.
Qed.

Lemma groupCounts_sum keys : sum_list (groupCounts index n keys) = length keys.
Proof.
  unfold groupCounts.
  assert (∀ counts : list nat, length counts = n → sum_list (foldl (λ counts key, alter S (index key) counts) counts keys)
    = (sum_list counts + length keys)%nat) as H.
  { induction keys as [|k keys IH]; intros counts Hc; cbn [foldl length]; [lia|]. rewrite IH by by rewrite length_alter.
    rewrite sum_alter by (rewrite Hc; apply Hindex). lia. }
  rewrite H by apply length_replicate. assert (∀ m, sum_list (replicate m 0%nat) = 0%nat) as -> by (induction m; cbn; done). done.
Qed.

Section Place.
Context (keys : list bytes).
Let counts := groupCounts index n keys.
Let off i := offsetOf i counts.

(** The slots of a shard lie before those of the next one and inside the array. *)
Lemma slots i : (i < n)%nat → (off i + countOf i keys = off (S i))%nat ∧ (off (S i) ≤ length keys)%nat.
Proof.
  intros Hi. unfold off, counts. split.
  - by rewrite (offsetOf_step _ _ _ (groupCounts_lookup keys i Hi)).
  - transitivity (offsetOf n (groupCounts index n keys)); [apply offsetOf_mono; lia|].
    unfold offsetOf. rewrite take_ge by (by rewrite groupCounts_length). by rewrite groupCounts_sum.
Qed.

Lemma slots_disjoint i i' j j' :
  (i < n)%nat → (i' < n)%nat → (j < countOf i keys)%nat → (j' < countOf i' keys)%nat →
  (off i + j = off i' + j')%nat → i = i'.
Proof.
  intros Hi Hi' Hj Hj' Heq. destruct (slots i Hi) as [H1 _]. destruct (slots i' Hi') as [H2 _].
  destruct (Nat.lt_trichotomy i i') as [Hlt|[|Hlt]]; [|done|].
  - pose proof (offsetOf_mono counts (S i) i' ltac:(lia)). unfold off in *. lia.
  - pose proof (offsetOf_mono counts (S i') i ltac:(lia)). unfold off in *. lia.
Qed.

Lemma countOf_app i p q : countOf i (p ++ q) = (countOf i p + countOf i q)%nat.
Proof. unfold countOf. by rewrite filter_app, length_app. Qed.

Lemma place_loop p : ∀ q,
  keys = p ++ q →
  let st := foldl (placeKey index) (replicate (length keys) [], groupOffsets counts) p in
  length st.1 = length keys
  ∧ (∀ i, (i < n)%nat → st.2 !! i = Some (off i + countOf i p)%nat)
  ∧ (∀ i j, (i < n)%nat → (j < countOf i p)%nat → st.1 !! (off i + j)%nat = filter (λ k, index k = i) p !! j).
Proof.
  induction p as [|k p IH] using rev_ind; intros q Hq; cbn zeta.
  { cbn [foldl fst snd]. split_and!; [by rewrite length_replicate| |intros i j _ Hj; cbn in Hj; lia].
    intros i Hi. unfold countOf. cbn. rewrite Nat.add_0_r. apply groupOffsets_lookup. unfold counts. by rewrite groupCounts_length. }
  rewrite <- app_assoc in Hq. destruct (IH _ Hq) as (Hlen & Hnext & Hgrp). clear IH. rewrite foldl_app. cbn [foldl].
  destruct (foldl (placeKey index) _ p) as [grouped next]. cbn [fst snd] in *. unfold placeKey.
  set (i0 := index k). rewrite (Hnext i0 (Hindex k)). cbn [from_option id].
  assert (∀ i, countOf i keys = countOf i p + (if decide (i0 = i) then 1 else 0) + countOf i q)%nat as Hck.
  { intros i. rewrite Hq, !countOf_app. unfold countOf at 2. rewrite filter_cons, filter_nil. unfold i0. case_decide; cbn; lia. }
  assert (∀ i, countOf i (p ++ [k]) = countOf i p + (if decide (i0 = i) then 1 else 0))%nat as Hcp.
  { intros i. rewrite countOf_app. f_equal. unfold countOf. rewrite filter_cons, filter_nil. unfold i0. by case_decide. }
  destruct (slots i0 (Hindex k)) as [Hs1 Hs2]. pose proof (Hck i0) as Hck0. rewrite decide_True in Hck0 by done.
  cbn [fst snd]. split_and!.
  - by rewrite length_insert.
  - intros i Hi. rewrite Hcp. destruct (decide (i0 = i)) as [<-|Hne].
    + rewrite list_lookup_insert_eq; [f_equal; lia|]. apply lookup_lt_is_Some. rewrite (Hnext i0 Hi). by eexists.
    + rewrite list_lookup_insert_ne by done. rewrite Hnext by done. f_equal. lia.
  - intros i j Hi Hj. rewrite Hcp in Hj. rewrite filter_app, filter_cons, filter_nil. fold i0.
    destruct (decide (i0 = i)) as [<-|Hne].
    + destruct (decide (j = countOf i0 p)) as [->|Hj'].
      * rewrite list_lookup_insert_eq by lia. unfold countOf. rewrite lookup_app_r, Nat.sub_diag by lia. done.
      * rewrite list_lookup_insert_ne by lia. rewrite Hgrp by lia. rewrite lookup_app_l; [done|]. unfold countOf in *. lia.
    + rewrite app_nil_r. rewrite list_lookup_insert_ne; [apply Hgrp; [done|lia]|]. intros Heq. apply Hne.
      eapply (slots_disjoint i0 i (countOf i0 p) j); [apply Hindex|done|lia| |done]. specialize (Hck i). lia.
Qed.
End Place.
End Groups.

(** Every key is handed to the shard that owns it, in order. *)
Lemma keysForShard_spec {E : Env} s keys i :
  (0 < length (shards s))%nat → (i < length (shards s))%nat →
  keysForShard (groupKeysByShard s keys) i = filter (λ k, shardIndex s k = i) keys.
Proof.
  intros Hl Hi. assert (∀ k, (shardIndex s k < length (shards s))%nat) as Hidx by (intros; by apply shardIndex_lt).
  destruct (place_loop (shardIndex s) (length (shards s)) Hidx keys keys [] (eq_sym (app_nil_r _))) as (Hlen & _ & Hgrp).
  destruct (slots (shardIndex s) (length (shards s)) Hidx keys i Hi) as [Hs1 Hs2].
  unfold keysForShard, groupKeysByShard. cbn [gcounts goffsets gkeys].
  rewrite (groupCounts_lookup _ _ _ _ Hi), groupOffsets_lookup by (by rewrite groupCounts_length). cbn [from_option id].
  set (grouped := (foldl _ _ keys).1) in *. apply list_eq. intros j.
  destruct (decide (j < countOf (shardIndex s) i keys)%nat) as [Hj|Hj].
  - rewrite lookup_take_lt, lookup_drop by done. by apply Hgrp.
  - rewrite !lookup_ge_None_2; [done|unfold countOf in Hj; lia|]. rewrite length_take. lia.
Qed.
