(* ===== verification/StoreTheorems.v ===== *)
(** * The store: theorems

    What the store promises to the command layer: the invariant of every
    reachable state, exact key statistics, the memory limit and eviction, the
    fate of failed writes, and the functional behaviour of the operations on
    their key. *)

From S2P Require Import Prelude Strconv GoLib IntSet CompactHash Float64 CompactZSet SkipList SkipListFacts Stream.
From S2P Require Import Bitmap HyperLogLog ValueObject ValueFacts ListWaiters Store StoreOps StoreFacts StoreMemory.
From S2P Require Import StoreInvariant.

(** ** Reachable states *)

Inductive storeOp :=
  | OpSet (key value : bytes) (expiresAt : Z) | OpGet (key : bytes) | OpDelete (key : bytes)
  | OpDeleteMany (keys : list bytes) | OpIncrement (key : bytes)
  | OpPush (key : bytes) (values : list bytes) (lft : bool) | OpLeftPop (key : bytes) | OpRightPop (key : bytes)
  | OpPopN (key : bytes) (count : Z) (lft : bool) | OpListRange (key : bytes) (start stop : Z)
  | OpHSet (key : bytes) (pairs : list HashFieldValue) | OpHGet (key field : bytes)
  | OpHDel (key : bytes) (fields : list bytes) | OpHGetAll (key : bytes)
  | OpSAdd (key : bytes) (members : list bytes) | OpSIsMember (key member : bytes)
  | OpSRem (key : bytes) (members : list bytes) | OpSMembers (key : bytes)
  | OpZAdd (key : bytes) (zs : list scored) | OpZScores (key : bytes) (members : list bytes)
  | OpZRange (key : bytes) (start stop : Z) | OpZRangeByScores (key : bytes) (ranges : list ScoreRange)
  | OpXAdd (key id : bytes) (values : list bytes) | OpXRead (key id : bytes)
  | OpSetBit (key : bytes) (offset bit : Z) | OpGetBit (key : bytes) (offset : Z)
  | OpBitCount (key : bytes) (start end_ : option Z)
  | OpPFAdd (key : bytes) (elements : list bytes) | OpPFCount (keys : list bytes)
  | OpSubscribe (key : bytes) | OpUnsubscribe (key : bytes) (ch : nat)
  | OpConfigureMaxMemory (limit sample : Z) | OpEnforceMaxMemory | OpSetListener (b : bool)
  | OpEvictionTick (sample : Z) | OpSweep (now : Z) (keys : list bytes) | OpPublish | OpReplaceWith (other : Store).

Definition discard {A} (m : M A) : M unit := let! _ := m in ret tt.

Section Theorems.
Context {E : Env}.

Definition runOp (Log : float64 → float64) (op : storeOp) : M unit :=
  match op with
  | OpSet key value e => discard (Set_ key value e)
  | OpGet key => discard (Get key)
  | OpDelete key => discard (Delete key)
  | OpDeleteMany keys => discard (DeleteMany keys)
  | OpIncrement key => discard (Increment key)
  | OpPush key values lft => discard (pushList key values lft)
  | OpLeftPop key => discard (LeftPop key)
  | OpRightPop key => discard (RightPop key)
  | OpPopN key count lft => discard (popN key count lft)
  | OpListRange key start stop => discard (ListRange key start stop)
  | OpHSet key pairs => discard (HSet key pairs)
  | OpHGet key field => discard (HGet key field)
  | OpHDel key fields => discard (HDel key fields)
  | OpHGetAll key => discard (HGetAll key)
  | OpSAdd key members => discard (SAdd key members)
  | OpSIsMember key member => discard (SIsMember key member)
  | OpSRem key members => discard (SRem key members)
  | OpSMembers key => discard (SMembers key)
  | OpZAdd key zs => discard (ZAdd key zs)
  | OpZScores key members => discard (ZScores key members)
  | OpZRange key start stop => discard (ZRange key start stop)
  | OpZRangeByScores key ranges => discard (ZRangeByScores key ranges)
  | OpXAdd key id values => discard (XAdd key id values)
  | OpXRead key id => discard (XRead key id)
  | OpSetBit key offset bit => discard (SetBit key offset bit)
  | OpGetBit key offset => discard (GetBit key offset)
  | OpBitCount key start end_ => discard (BitCount key start end_)
  | OpPFAdd key elements => discard (PFAdd key elements)
  | OpPFCount keys => discard (PFCount Log keys)
  | OpSubscribe key => discard (SubscribeListPush key)
  | OpUnsubscribe key ch => UnsubscribeListPush key ch
  | OpConfigureMaxMemory limit sample => ConfigureMaxMemory limit sample
  | OpEnforceMaxMemory => discard EnforceMaxMemory
  | OpSetListener b => SetExpirationListener b
  | OpEvictionTick sample => evictionTick sample
  | OpSweep now keys => discard (sweepSample now keys)
  | OpPublish => modify publishExpiredKeys
  | OpReplaceWith other => ReplaceWith other
  end.

(** The command layer rejects NaN scores, and a store is replaced by a store. *)
Definition opOk (op : storeOp) : Prop :=
  match op with
  | OpZAdd _ zs => Forall scoreOk zs
  | OpReplaceWith other => StoreInv other
  | _ => True
  end.

Definition runOps (Log : float64 → float64) (ops : list storeOp) (s : Store) : Store :=
  foldl (λ s op, (runOp Log op s).2) s ops.

Lemma Keeps_discard {A} (m : M A) : Keeps m → Keeps (discard m).
Proof. intros H. apply Keeps_bind; [done|]. intros; apply Keeps_ret. Qed.

Lemma Keeps_waiters f : (∀ w, WaitersWf w → WaitersWf (f w)) → Keeps (modify (λ s, setWaiters (f (storeWaiters s)) s)).
Proof. intros Hf. apply Keeps_modify. intros s Hs. eapply StoreInv_frame; [exact Hs|done|done|]. by apply Hf, Hs. Qed.

Lemma Keeps_runOp Log op : opOk op → Keeps (runOp Log op).
Proof.
  intros Hok. destruct op; cbn [runOp]; try apply Keeps_discard;
    auto using Keeps_Set, Keeps_Delete, Keeps_DeleteMany, Keeps_Increment, Keeps_pushList, Keeps_popWith, Keeps_HSet,
      Keeps_HDel, Keeps_SAdd, Keeps_SRem, Keeps_ZAdd, Keeps_XAdd, Keeps_SetBit, Keeps_PFAdd, Keeps_ConfigureMaxMemory,
      Keeps_EnforceMaxMemory, Keeps_ReplaceWith.
  - unfold Get, withStringValue. keeps.
  - unfold LeftPop. keeps.
  - unfold RightPop. keeps.
  - unfold popN. keeps.
  - unfold ListRange. keeps.
  - unfold HGet. keeps.
  - unfold HGetAll. keeps.
  - unfold SIsMember. keeps.
  - unfold SMembers. keeps.
  - unfold ZScores. keeps.
  - unfold ZRange. keeps.
  - unfold ZRangeByScores. keeps.
  - unfold XRead. keeps.
  - unfold GetBit. keeps.
  - unfold BitCount. keeps.
  - unfold PFCount. keeps. apply Keeps_mergeLoop.
  - intros s Hs. unfold SubscribeListPush. pose proof (subscribe_wf (storeWaiters s) key (si_waiters _ Hs)) as Hw.
    destruct (subscribe _ key) as [w ch]. eapply StoreInv_frame; [exact Hs|done|done|done].
  - apply (Keeps_waiters (λ w, unsubscribe w key ch)). intros. by apply unsubscribe_wf.
  - unfold SetExpirationListener. apply Keeps_modify. intros s Hs. eapply StoreInv_frame; [exact Hs|done|done|apply Hs].
  - unfold evictionTick. apply Keeps_bind; [apply Keeps_now|]. intros now.
    apply Keeps_bind; [apply Keeps_sample|]. intros keys. apply Keeps_sweepTick.
  - apply Keeps_sweepSample.
  - apply Keeps_publish.
Qed.

Lemma storeRun_inv Log ops : ∀ s, StoreInv s → Forall opOk ops → StoreInv (runOps Log ops s).
Proof.
  induction ops as [|op ops IH]; intros s Hs Hok; [done|]. apply Forall_cons in Hok as [H1 H2]. cbn.
  apply IH; [|done]. by apply (Keeps_runOp Log op H1).
Qed.
End Theorems.

(** A concrete environment: sequential time, one coin in three, keys spread by length. *)
Definition demoEnv : Env :=
  {| env_order := listOrder; env_coins := λ n, (n mod 3 =? 0)%nat; seedHash := λ k, zlen k; clock := λ n, Z.of_nat n * 1000000 + 1000000000 |}.

(** C29: Every state the store can reach satisfies its invariant, whatever the
    clock, the hash, the map order and the coins: each key lies in the one shard
    its hash names, the counters are exact, every value is well formed with the
    limits of its encoding, and no empty list, hash, set or sorted set is stored. *)
Theorem store_reachable_inv (E : Env) Log ops :
  Forall opOk ops → StoreInv (runOps Log ops NewStore).
Proof. intros Hok. apply storeRun_inv; [apply NewStore_inv|done]. Qed.

Definition demoOps : list storeOp :=
  [OpSet (bs "k") (bs "5") 0; OpIncrement (bs "k"); OpPush (bs "l") [bs "a"; bs "b"] true;
   OpHSet (bs "h") [(bs "f", bs "v")]; OpZAdd (bs "z") [(bs "m", floatOfZ 1)]; OpSAdd (bs "s") [bs "1"; bs "x"];
   OpLeftPop (bs "l"); OpHDel (bs "h") [bs "f"]].

Lemma store_reachable_inv_witness :
  @StoreInv demoEnv (@runOps demoEnv id demoOps NewStore)
  ∧ totalKeyCountLocked (@runOps demoEnv id demoOps NewStore) = 4.
Proof.
  split; [|vm_compute; reflexivity]. apply (store_reachable_inv demoEnv id demoOps). repeat constructor.
Defined.

(** The key statistics are exact: in a reachable state [KeyStats] reports as
    its total the number of stored keys, and per kind the number of keys of that
    kind. *)
Theorem key_stats_exact (E : Env) Log ops :
  Forall opOk ops →
  let s := runOps Log ops NewStore in
  TotalKeys (store_KeyStats s) = totalKeyCountLocked s
  ∧ ByKind (store_KeyStats s) = (λ kind, (kind, stotal (isKind kind) s)) <$> keyStatsKinds.
Proof.
  intros Hok s. assert (StoreInv s) as Hs by (apply storeRun_inv; [apply NewStore_inv|done]).
  unfold store_KeyStats. cbn [TotalKeys ByKind]. rewrite (si_counts _ Hs). split; [|done].
  rewrite totalKeyCount_stotal. cbn [take keyStatsKinds fmap list_fmap foldl].
  assert (∀ f g, stotal (λ k v, f k v + g k v) s = stotal f s + stotal g s) as Hadd.
  { intros f g. unfold stotal. induction (shards s) as [|m l IH]; cbn [foldr]; [done|].
    assert (mtotal (λ k v, f k v + g k v) m = mtotal f m + mtotal g m) as ->; [|lia].
    unfold mtotal. induction (map_to_list m) as [|p l' IH']; cbn [foldr]; [done|]. lia. }
  rewrite Z.add_0_l, <- !Hadd.
  assert (∀ f g : bytes → ValueObject → Z, (∀ k v, f k v = g k v) → stotal f s = stotal g s) as Hext.
  { intros f g Hfg. unfold stotal, mtotal. induction (shards s) as [|m l IH]; cbn [foldr]; [done|]. rewrite IH. f_equal.
    induction (map_to_list m) as [|p l' IH']; cbn [foldr]; [done|]. by rewrite IH', Hfg. }
  apply Hext. intros k v. unfold isKind. by destruct (Kind v).
Qed.

Lemma key_stats_exact_witness :
  TotalKeys (store_KeyStats (@runOps demoEnv id demoOps NewStore)) = 4.
Proof.
  destruct (key_stats_exact demoEnv id demoOps) as [H _]; [repeat constructor|]. rewrite H. vm_compute. reflexivity.
Defined.

(** ** The memory limit *)

Section Limit.
Context {E : Env}.

Definition protectedSize (prot : gset bytes) (s : Store) : Z :=
  stotal (λ k v, if decide (k ∈ prot) then vsize k v else 0) s.

(** Making room: expired keys go first, then unprotected keys until the write
    fits; it fails without evicting when it cannot fit, or when the loop finds
    no candidate. *)
Lemma ensure_spec delta prot s :
  StoreInv s → maxMemoryEnabled s = true → 0 < delta →
  let target := maxMemory s - delta in
  ∃ s1 ks s' r, ensureMemoryAvailableLocked delta prot s = (r, s')
    ∧ Recalculated (clock (ticks s) / 1000000) (tick s) s1 ∧ Evicted prot s1 ks s'
    ∧ ((r = Ok ks ∧ 0 ≤ target ∧ usedMemory s' ≤ target)
       ∨ (r = Err ErrMemoryLimitExceeded ∧ ks = [] ∧ (target < 0 ∨ target < protectedSize prot s1))
       ∨ (r = Err ErrMemoryLimitExceeded ∧ 0 ≤ target ∧ protectedSize prot s1 ≤ target
          ∧ target < usedMemory s' ∧ Exhausted prot s')).
Proof.
  intros Hs Hen Hd target. unfold ensureMemoryAvailableLocked, bind at 1, gets at 1. rewrite Hen. cbn [negb orb].
  rewrite (proj2 (Z.leb_gt _ _)) by done. unfold bind at 1, nowMilli. unfold bind at 1.
  destruct (recalculate_spec (clock (ticks s) / 1000000) (tick s) (tick_inv s Hs)) as (s1 & -> & Hr).
  pose proof Hr as [R1 R2 R3 R4 R5]. pose proof R2 as (_ & Hmax & _). change (maxMemory (tick s)) with (maxMemory s) in Hmax.
  unfold bind at 1, gets at 1. rewrite Hmax. fold target. cbn zeta.
  assert (Evicted prot s1 [] s1) as Hrefl by (by apply Evicted_refl).
  exists s1. destruct (Z.ltb_spec target 0) as [Ht|Ht].
  { exists [], s1, (Err ErrMemoryLimitExceeded). split_and!; try done. right. left. split_and!; try done. by left. }
  destruct (Z.leb_spec (stotal vsize s1) target) as [Hc|Hc].
  { exists [], s1, (Ok []). split_and!; try done. left. split_and!; try done. by rewrite R3. }
  unfold bind at 1, gets at 1. rewrite totalEvictable_stotal. fold (protectedSize prot s1).
  destruct (Z.ltb_spec target (stotal vsize s1 - (stotal vsize s1 - protectedSize prot s1))) as [Hp|Hp].
  { exists [], s1, (Err ErrMemoryLimitExceeded). split_and!; try done. right. left. split_and!; try done. right. lia. }
  destruct (evictUntil_spec prot target s1 R1) as (ks & s' & Hev & [[-> Hu]|(-> & Hu & Hx)]).
  - exists ks, s', (Ok ks). split_and!; try done. left. done.
  - exists ks, s', (Err ErrMemoryLimitExceeded). split_and!; try done. right. right. split_and!; try done. lia.
Qed.

(** Totals of functions that agree on the stored entries. *)
Lemma stotal_ext f g s :
  (∀ i k v, shardAt s i !! k = Some v → f k v = g k v) → stotal f s = stotal g s.
Proof.
  intros H. unfold stotal.
  assert (∀ l, (∀ m k v, m ∈ l → m !! k = Some v → f k v = g k v) →
    foldr (λ m acc, mtotal f m + acc) 0 l = foldr (λ m acc, mtotal g m + acc) 0 l) as Hl.
  { induction l as [|m l IH]; intros Hm; [done|]. cbn [foldr]. rewrite IH by (intros; eapply Hm; [by right|done]). f_equal.
    unfold mtotal. assert (∀ p, p ∈ map_to_list m → f p.1 p.2 = g p.1 p.2) as Hp.
    { intros [k v] Hin. apply elem_of_map_to_list in Hin. eapply (Hm m k v); [by left|done]. }
    induction (map_to_list m) as [|p l' IH']; cbn [foldr]; [done|]. rewrite IH' by (intros; apply Hp; by right).
    f_equal. apply Hp. by left. }
  apply Hl. intros m k v Hm Hk. apply list_elem_of_lookup in Hm as [i Hi]. apply (H i). unfold shardAt. by rewrite Hi.
Qed.

Lemma lookup_elsewhere s i k v : StoreInv s → shardAt s i !! k = Some v → lookupKey s k = Some v.
Proof. intros Hs Hk. unfold lookupKey. assert (i = shardIndex s k) as <- by (apply (si_place _ Hs); eauto). done. Qed.

(** With no candidate left, only protected keys are. *)
Lemma exhausted_protected prot s :
  StoreInv s → Exhausted prot s → lookupKey s [] = None →
  (∀ k v, lookupKey s k = Some v → lastAccessed v < maxInt64Value) → stotal vsize s = protectedSize prot s.
Proof.
  intros Hs [(v & Hv & _)|Hx] He Hst; [congruence|]. apply stotal_ext. intros i k v Hk.
  apply (lookup_elsewhere s i k v Hs) in Hk. case_decide as Hp; [done|]. specialize (Hx k v Hk Hp). specialize (Hst k v Hk). lia.
Qed.

Lemma live_Some now o v : live now o = Some v → o = Some v ∧ isExpired v now = false.
Proof. destruct o as [x|]; cbn; [|done]. destruct (isExpired x now) eqn:Ex; [done|]. intros [= <-]. done. Qed.

Lemma Recalculated_accounted now s s1 : Recalculated now s s1 → Accounted s1.
Proof. intros Hr _. apply Hr. Qed.
End Limit.

(** C30: Room is made exactly when it can be made: unless the empty key is stored,
    a write that needs [delta] more bytes is admitted if and only if it fits
    beside the protected keys that have not expired; when it is admitted the
    counter is at most the limit less [delta], only unprotected keys were
    evicted, and all of them are reported. *)
Theorem eviction_admits_what_fits (E : Env) delta prot s :
  StoreInv s → maxMemoryEnabled s = true → 0 < delta → lookupKey s [] = None →
  (∀ k v, lookupKey s k = Some v → lastAccessed v < maxInt64Value) →
  ∃ s1 s' r, ensureMemoryAvailableLocked delta prot s = (r, s')
    ∧ Recalculated (clock (ticks s) / 1000000) (tick s) s1
    ∧ match r with
      | Ok ks => 0 ≤ maxMemory s - delta ∧ protectedSize prot s1 ≤ maxMemory s - delta
          ∧ usedMemory s' ≤ maxMemory s - delta ∧ Evicted prot s1 ks s'
      | Err e => e = ErrMemoryLimitExceeded ∧ Evicted prot s1 [] s'
          ∧ (maxMemory s - delta < 0 ∨ maxMemory s - delta < protectedSize prot s1)
      end.
Proof.
  intros Hs Hen Hd Hempty Hst. destruct (ensure_spec delta prot s Hs Hen Hd) as (s1 & ks & s' & r & Heq & Hr & Hev & Hcase).
  assert (∀ k v, lookupKey s' k = Some v → lookupKey s k = Some v) as Hsub.
  { intros k v. rewrite (ev_lookup _ _ _ _ Hev). case_decide; [done|]. rewrite (rec_lookup _ _ _ Hr). by intros [? _]%live_Some. }
  assert (Accounted s') as Ha by (apply (ev_accounted _ _ _ _ Hev); by eapply Recalculated_accounted).
  assert (maxMemoryEnabled s' = true) as Hen'.
  { rewrite (sameRest_enabled _ _ (ev_rest _ _ _ _ Hev)), (sameRest_enabled _ _ (rec_rest _ _ _ Hr)). done. }
  pose proof (ev_protected _ _ _ _ Hev) as Hprot. fold (protectedSize prot s') (protectedSize prot s1) in Hprot.
  exists s1, s', r. split_and!; [done|done|].
  destruct Hcase as [(-> & H0 & Hu)|[(-> & -> & Hn)|(-> & H0 & Hp & Hu & Hx)]].
  - split_and!; try done. rewrite <- Hprot. etransitivity; [|exact Hu]. rewrite (Ha Hen').
    unfold protectedSize, stotal, mtotal. induction (shards s') as [|m l IH]; cbn [foldr]; [done|].
    assert (∀ l' : list (bytes * ValueObject), foldr (λ p acc, (if decide (p.1 ∈ prot) then vsize p.1 p.2 else 0) + acc) 0 l'
      ≤ foldr (λ p acc, vsize p.1 p.2 + acc) 0 l') as Hle.
    { induction l' as [|[k v] l' IH']; cbn [foldr fst snd]; [done|]. assert (0 ≤ vsize k v) by apply vsize_nonneg. case_decide; lia. }
    specialize (Hle (map_to_list m)). lia.
  - done.
  - exfalso. assert (lookupKey s' [] = None) as He'.
    { destruct (lookupKey s' []) eqn:Ee; [|done]. apply Hsub in Ee. congruence. }
    assert (stotal vsize s' = protectedSize prot s') as Heqp.
    { apply exhausted_protected; [apply Hev|done|done|]. intros k v Hk. by eapply Hst, Hsub. }
    rewrite (Ha Hen') in Hu. lia.
Qed.

Lemma scan_forall {E : Env} (P : ValueObject → Prop) s :
  StoreInv s → Forall (λ p, P p.2) (scanOrder s) → ∀ k v, lookupKey s k = Some v → P v.
Proof. intros Hs H k v Hk. apply (elem_of_scanOrder s k v Hs) in Hk. rewrite Forall_forall in H. apply (H _ Hk). Qed.

(** A store of two shards with a limit of 120 bytes and two keys of 59 bytes. *)
Definition tightOps : list storeOp :=
  [OpConfigureMaxMemory 120 5; OpSet (bs "a") (bs "0123456789") 0; OpSet (bs "b") (bs "0123456789") 0].
Definition tightStore : Store := @runOps demoEnv id tightOps (storeOfShards (replicate 2 ∅)).

Lemma tightStore_inv : @StoreInv demoEnv tightStore.
Proof. apply storeRun_inv; [apply storeOfShards_inv; lia|repeat constructor]. Qed.

Lemma eviction_admits_what_fits_witness :
  (@ensureMemoryAvailableLocked demoEnv 59 {[ bs "c" ]} tightStore).1 = Ok [bs "a"]
  ∧ usedMemory (@ensureMemoryAvailableLocked demoEnv 59 {[ bs "c" ]} tightStore).2 ≤ 61.
Proof.
  destruct (eviction_admits_what_fits demoEnv 59 {[ bs "c" ]} tightStore tightStore_inv) as (s1 & s' & r & Heq & Hr & Hcase).
  - vm_compute. reflexivity.
  - lia.
  - vm_compute. reflexivity.
  - apply (scan_forall (λ v, lastAccessed v < maxInt64Value)); [apply tightStore_inv|].
    assert (forallb (λ p : bytes * ValueObject, lastAccessed p.2 <? maxInt64Value) (@scanOrder demoEnv tightStore) = true) as Hb
      by (vm_compute; reflexivity).
    apply forallb_Forall in Hb. eapply Forall_impl; [exact Hb|]. intros p Hp. by apply Z.ltb_lt.
  - rewrite Heq. cbn [fst snd]. assert (r = Ok [bs "a"]) as ->.
    { apply (f_equal fst) in Heq. cbn [fst] in Heq. rewrite <- Heq. vm_compute. reflexivity. }
    split; [reflexivity|]. destruct Hcase as (_ & _ & Hu & _). change (maxMemory tightStore - 59) with 61 in Hu. exact Hu.
Defined.

(** C31: A write while memory is accounted for, to a key that does not expire
    under way, keeps the counter equal to the size of the keyspace, leaves it at
    or below the limit when the value grew, and never evicts the written key; a
    write that is refused leaves the key as it was. *)
Theorem commit_respects_limit (E : Env) key old new s :
  StoreInv s → Accounted s → maxMemoryEnabled s = true → lookupKey s key = old →
  (∀ v, old = Some v → isExpired v (clock (ticks s) / 1000000) = false) → GoodValue new →
  let '(r, s') := commitValueWithEvictionLocked key old new s in
  StoreInv s' ∧ Accounted s' ∧
  match r with
  | Ok evicted => lookupKey s' key = Some new ∧ key ∉ evicted
      ∧ (approximateValueObjectSize key old < vsize key new → usedMemory s' ≤ maxMemory s)
  | Err e => e = ErrMemoryLimitExceeded ∧ lookupKey s' key = old
  end.
Proof.
  intros Hs Ha Hen Hold Hexp Hg. unfold commitValueWithEvictionLocked. cbn zeta.
  set (oldSize := approximateValueObjectSize key old). set (newSize := vsize key new).
  change (approximateValueObjectSize key (Some new)) with newSize. set (delta := newSize - oldSize).
  assert (∀ s1, StoreInv s1 → Accounted s1 → maxMemoryEnabled s1 = true → lookupKey s1 key = old →
    let s2 := setKeyLocked (shardIndex s1 key) key new s1 in let s3 := setUsed (usedMemory s2 + delta) s2 in
    StoreInv s3 ∧ Accounted s3 ∧ lookupKey s3 key = Some new ∧ usedMemory s3 = usedMemory s1 + delta) as Hput.
  { intros s1 Hs1 Ha1 Hen1 Hl1. cbn zeta. pose proof (setKeyLocked_spec key new s1 Hs1 Hg) as [U1 U2 U3 U4 U5 U6].
    set (s2 := setKeyLocked _ key new s1) in *. split_and!.
    - eapply StoreInv_frame; [exact U1|done|done|apply U1].
    - unfold Accounted. intros _. rewrite (stotal_shards vsize _ s2) by done. cbn [usedMemory setUsed].
      rewrite U6, (Ha1 Hen1), U5, Hl1. unfold delta, newSize, oldSize. destruct old; cbn [fOpt approximateValueObjectSize]; lia.
    - change (lookupKey s2 key = Some new). rewrite U4. by rewrite decide_True.
    - cbn [usedMemory setUsed]. by rewrite U6. }
  unfold bindR, bind, modify, ret.
  destruct (Z_le_gt_dec delta 0) as [Hd|Hd].
  - unfold ensureMemoryAvailableLocked, bind, gets, ret. rewrite Hen, (proj2 (Z.leb_le _ _)) by lia. cbn [negb orb].
    destruct (Hput s Hs Ha Hen Hold) as (P1 & P2 & P3 & P4). split_and!; try done; [by intros ?%elem_of_nil|].
    unfold delta, newSize in Hd. intros; lia.
  - destruct (ensure_spec delta (protectedKeys [key]) s Hs Hen) as (s1 & ks & s' & r & -> & Hr & Hev & Hcase); [lia|].
    assert (Accounted s') as Ha' by (apply (ev_accounted _ _ _ _ Hev); by eapply Recalculated_accounted).
    assert (maxMemoryEnabled s' = true) as Hen'.
    { rewrite (sameRest_enabled _ _ (ev_rest _ _ _ _ Hev)), (sameRest_enabled _ _ (rec_rest _ _ _ Hr)). done. }
    assert (key ∉ ks) as Hnk.
    { intros Hin. destruct (ev_keys _ _ _ _ Hev key Hin) as [Hp _]. apply Hp. unfold protectedKeys. set_solver. }
    assert (lookupKey s' key = old) as Hl'.
    { rewrite (ev_lookup _ _ _ _ Hev), decide_False by done. rewrite (rec_lookup _ _ _ Hr).
      change (lookupKey (tick s) key) with (lookupKey s key). rewrite Hold. destruct old as [v|]; [|done]. cbn [live]. by rewrite (Hexp v). }
    destruct Hcase as [(-> & H0 & Hu)|[(-> & -> & Hn)|(-> & H0 & Hp & Hu & Hx)]].
    + destruct (Hput s' (ev_inv _ _ _ _ Hev) Ha' Hen' Hl') as (P1 & P2 & P3 & P4). split_and!; try done. intros _. rewrite P4. lia.
    + split_and!; try done. apply Hev.
    + split_and!; try done. apply Hev.
Qed.

Lemma tightStore_accounted : @Accounted demoEnv tightStore.
Proof. intros _. vm_compute. reflexivity. Qed.

Lemma commit_respects_limit_witness :
  let v := newOwnedStringValue 7 (bs "0123456789") 0 in
  (@commitValueWithEvictionLocked demoEnv (bs "c") None v tightStore).1 = Ok [bs "a"]
  ∧ usedMemory (@commitValueWithEvictionLocked demoEnv (bs "c") None v tightStore).2 ≤ 120.
Proof.
  intros v. pose proof (commit_respects_limit demoEnv (bs "c") None v tightStore tightStore_inv tightStore_accounted) as H.
  specialize (H ltac:(vm_compute; reflexivity) ltac:(vm_compute; reflexivity) ltac:(intros; discriminate) (GoodString v eq_refl)).
  destruct (commitValueWithEvictionLocked (bs "c") None v tightStore) as [r s'] eqn:Eq. cbn [fst snd] in *.
  assert (r = Ok [bs "a"]) as ->.
  { apply (f_equal fst) in Eq. cbn [fst] in Eq. rewrite <- Eq. vm_compute. reflexivity. }
  split; [reflexivity|]. destruct H as (_ & _ & _ & _ & Hu). change (maxMemory tightStore) with 120 in Hu. apply Hu. vm_compute. reflexivity.
Defined.

(** The condition of the previous claim is needed: when the written key's TTL
    passes between the two clock readings of one write, the recalculation drops
    the old value and its size is subtracted a second time, and the counter is
    less than the size of the keyspace. *)
Theorem commit_drift_on_expiry :
  let s0 := @runOps demoEnv id [OpConfigureMaxMemory 1000 5; OpSet (bs "k") (bs "0123456789") 1008] (storeOfShards (replicate 2 ∅)) in
  let s := Nat.iter 3 tick s0 in
  let s' := (@Set_ demoEnv (bs "k") (bs "0123456789abcdefghij") 0 s).2 in
  @Accounted demoEnv s ∧ maxMemoryEnabled s = true ∧ stotal (@vsize demoEnv) s' = 69 ∧ usedMemory s' = 2.
Proof. cbn zeta. split_and!; [intros _|..]; vm_compute; reflexivity. Qed.

(** A stored empty key defeats eviction: the loop takes the empty key for
    "no candidate", so a write that would fit after evicting is refused, and keys
    it evicted before that are gone although the write failed. *)
Theorem empty_key_blocks_eviction :
  let s := @runOps demoEnv id [OpConfigureMaxMemory 177 5; OpSet (bs "a") (bs "0123456789") 0; OpSet [] (bs "0123456789a") 0;
      OpSet (bs "c") (bs "0123456789") 0] (storeOfShards (replicate 2 ∅)) in
  let '(r, s') := @Set_ demoEnv (bs "d") (bs "0123456789012345678901234567890123456789") 0 s in
  r = Err ErrMemoryLimitExceeded
  ∧ usedMemory s - @totalEvictableMemoryLocked demoEnv s {[ bs "d" ]} + 89 ≤ maxMemory s
  ∧ is_Some (@lookupKey demoEnv s (bs "a")) ∧ @lookupKey demoEnv s' (bs "a") = None.
Proof. vm_compute. split_and!; [reflexivity|discriminate|by eexists|reflexivity]. Qed.

(** A TTL of 9223372037 seconds or more wraps the 64-bit nanosecond count of
    a duration: the deadline of [SET k v EX 9223372037], issued at 1.7e18 ns, lies
    in 1731, before the epoch, and a key with it never expires. *)
Theorem expiry_seconds_wrap (E : Env) :
  ParseExpiryMillis 1700000000000000000 [bs "EX"; bs "9223372036"] = Ok 10923372036000
  ∧ ParseExpiryMillis 1700000000000000000 [bs "EX"; bs "9223372037"] = Ok (-7523372036710)
  ∧ ∀ stamp data now, isExpired (newStringValue stamp data (-7523372036710)) now = false.
Proof.
  split_and!; vm_compute; reflexivity.
Qed.
