(* ===== verification/StorePlain.v ===== *)
(** * The store without a memory limit: what the operations do

    With [maxmemory] off, an operation on a key changes that key alone.  Each
    theorem gives the result and the new value of the key from its live value,
    the one stored and not past its TTL at the operation's clock reading. *)

From S2P Require Import Prelude Strconv GoLib IntSet CompactHash Float64 CompactZSet SkipList SkipListFacts Stream.
From S2P Require Import Bitmap HyperLogLog ValueObject ValueFacts ListWaiters Store StoreOps StoreFacts StoreMemory.
From S2P Require Import StoreInvariant StoreTheorems.

Section Plain.
Context {E : Env}.
Implicit Types (s : Store).

(** The clock reading an operation starts with, and what it finds. *)
Definition readingAt s : Z := clock (ticks s) / 1000000.
Definition liveValue s (key : bytes) : option ValueObject := live (readingAt s) (lookupKey s key).

(** [key] holds [v] (or nothing) after, the rest of the keyspace is as before. *)
Record KeyChanged (key : bytes) (v : option ValueObject) s s' : Prop := {
  kc_inv : StoreInv s';
  kc_max : maxMemory s' = maxMemory s;
  kc_lookup : ∀ k, lookupKey s' k = if decide (k = key) then v else lookupKey s k
}.

Lemma writeKey_plain {T} key (fn : keyWrite → M (result storeError (T * list bytes))) s :
  StoreInv s → maxMemoryEnabled s = false →
  ∃ s1, writeKey key fn s = fn (mkKeyWrite key (liveValue s key) (readingAt s) false) s1
    ∧ KeyChanged key (liveValue s key) s s1 ∧ ticks s1 = S (ticks s) ∧ maxMemoryEnabled s1 = false
    ∧ storeWaiters s1 = storeWaiters s.
Proof.
  intros Hs Hen. destruct (prepare_spec key (readingAt s) (tick s) (tick_inv s Hs)) as (s1 & Heq & Hs1 & Hr & _ & Ht & Hl & _).
  pose proof Hr as (_ & Hmax & Hw & _).
  exists s1. split_and!; [|split|done| |done]; try done.
  - unfold writeKey, bind, nowMilli, gets, ret. fold (readingAt s). rewrite Heq.
    change (maxMemoryEnabled (tick s)) with (maxMemoryEnabled s). rewrite Hen.
    change (live (readingAt s) (lookupKey (tick s) key)) with (liveValue s key).
    by destruct (fn _ s1).
  - by rewrite (sameRest_enabled _ _ Hr).
Qed.

Lemma commit_plain w v s :
  waccounting w = false → StoreInv s → GoodValue v →
  ∃ s', commit w v s = (Ok [], s') ∧ KeyChanged (wkey w) (Some v) s s' ∧ storeWaiters s' = storeWaiters s ∧ ticks s' = ticks s.
Proof.
  intros Ha Hs Hg. unfold commit. rewrite Ha. unfold bind, modify, ret. eexists. split; [done|].
  pose proof (setKeyLocked_spec (wkey w) v s Hs Hg) as [U1 (_ & Hmax & Hw & _) _ U4 _ _].
  split_and!; [split; done|done|apply setKeyLocked_ticks].
Qed.

Lemma KeyChanged_trans key v1 v2 s s1 s2 : KeyChanged key v1 s s1 → KeyChanged key v2 s1 s2 → KeyChanged key v2 s s2.
Proof.
  intros [_ Hm1 H1] [Hi Hm2 H2]. split; [done|congruence|]. intros k. rewrite H2, H1. by case_decide.
Qed.

Lemma KeyChanged_tick key v s s1 : KeyChanged key v s s1 → KeyChanged key v s (tick s1).
Proof. intros [H1 H2 H3]. split; [by apply tick_inv|done|done]. Qed.

Lemma KeyChanged_weak key v s s1 (w : listWaiters) :
  KeyChanged key v s s1 → WaitersWf w → KeyChanged key v s (setWaiters w s1).
Proof. intros [H1 H2 H3] Hw. split; [|done|done]. eapply StoreInv_frame; [exact H1|done|done|done]. Qed.

(** ** Reads *)

(** A key past its TTL reads as absent, and a live one is only touched. *)
Lemma readKey_spec {T} key (fn : ValueObject → result storeError T) s :
  StoreInv s →
  (readKey key fn s).1 = match liveValue s key with
    | None => Ok None
    | Some v => match fn v with Ok r => Ok (Some r) | Err e => Err e end
    end.
Proof.
  intros Hs. unfold readKey, bind at 1, nowMilli. fold (readingAt s). unfold bind at 1, gets. unfold liveValue.
  change (lookupKey (tick s) key) with (lookupKey s key). destruct (lookupKey s key) as [v|] eqn:Ek; cbn [live]; [|done].
  destruct (isExpired v (readingAt s)); [|by destruct (fn v)].
  unfold bind at 1, dropIfStillExpired, bind at 1, gets. change (lookupKey (tick s) key) with (lookupKey s key). rewrite Ek.
  unfold bind, nowMilli. by destruct (isExpired v (clock _ / _)).
Qed.

(** SET stores the value with its deadline, whatever was there before. *)
Lemma Set_plain key value e s :
  StoreInv s → maxMemoryEnabled s = false →
  ∃ s' v, Set_ key value e s = (Ok [], s') ∧ KeyChanged key (Some v) s s'
    ∧ Kind v = ValueKindString ∧ vString v = value ∧ ExpiresAt v = e ∧ ticks s' = S (S (ticks s)).
Proof.
  intros Hs Hen. unfold Set_, bindR at 1, bind at 1. match goal with |- context [writeKey key ?f s] => set (fn := f) end.
  destruct (writeKey_plain key fn s Hs Hen) as (s1 & Hw & Hk1 & Ht1 & Hen1 & _). rewrite Hw. unfold fn.
  unfold bind at 1, nowMilli at 1. unfold bindR, bind at 1. set (v := newStringValue (clock (ticks s1) / 1000000) value e).
  destruct (commit_plain (mkKeyWrite key (liveValue s key) (readingAt s) false) v (tick s1) eq_refl
    (tick_inv _ (kc_inv _ _ _ _ Hk1)) (GoodString v eq_refl)) as (s2 & Hc & Hk2 & _ & Ht2). rewrite Hc. unfold ret. cbn [wkey] in Hk2.
  exists s2, v. split_and!; try done; [|cbn in Ht2; congruence].
  eapply KeyChanged_trans; [by apply KeyChanged_tick|done].
Qed.

Lemma fst_bindR_ret {A B} (m : M (result storeError A)) (f : A → B) s :
  (bindR m (λ a, ret (Ok (f a))) s).1 = match (m s).1 with Ok a => Ok (f a) | Err e => Err e end.
Proof. unfold bindR, bind, ret. destruct (m s) as [[]]; done. Qed.
End Plain.

(** An expired key is absent to every reader: past its TTL a key answers GET
    like a missing one, and while it is live GET returns the string it holds or
    reports the wrong type. *)
Theorem Get_live (E : Env) key s :
  StoreInv s →
  (Get key s).1 = match liveValue s key with
    | None => Ok None
    | Some v => if decide (Kind v = ValueKindString) then Ok (Some (vString v)) else Err ErrWrongType
    end.
Proof.
  intros Hs. unfold Get, withStringValue. rewrite readKey_spec by done. destruct (liveValue s key) as [v|]; [|done].
  unfold value_StringValue, ofKind. by case_decide.
Qed.

Lemma Get_live_witness :
  let s := @runOps demoEnv id [OpSet (bs "k") (bs "5") 1004] NewStore in
  (@Get demoEnv (bs "k") s).1 = Ok (Some (bs "5")) ∧ (@Get demoEnv (bs "k") (Nat.iter 3 tick s)).1 = Ok None.
Proof.
  intros s. assert (@StoreInv demoEnv s) as Hs by (apply storeRun_inv; [apply NewStore_inv|repeat constructor]).
  split.
  - rewrite (Get_live demoEnv (bs "k") s Hs). vm_compute. reflexivity.
  - rewrite (Get_live demoEnv (bs "k") (Nat.iter 3 tick s)) by (repeat apply tick_inv; exact Hs). vm_compute. reflexivity.
Defined.

(** SET then GET: the value set is the value read back, until its deadline;
    no other key changes. *)
Theorem Set_Get (E : Env) key value e s :
  StoreInv s → maxMemoryEnabled s = false →
  let '(r, s') := Set_ key value e s in
  r = Ok []
  ∧ (∀ k, k ≠ key → lookupKey s' k = lookupKey s k)
  ∧ (Get key s').1 = Ok (if (0 <? e) && (e <? readingAt s') then None else Some value).
Proof.
  intros Hs Hen. destruct (Set_plain key value e s Hs Hen) as (s' & v & -> & [K1 K2 K3] & Hkv & Hv & He & _). split_and!; [done| |].
  - intros k Hne. rewrite K3. by rewrite decide_False.
  - unfold Get, withStringValue. rewrite readKey_spec by done. unfold liveValue. rewrite K3, decide_True by done. cbn [live].
    unfold isExpired. rewrite He. destruct ((0 <? e) && (e <? readingAt s')); [done|].
    unfold value_StringValue, ofKind. rewrite decide_True by done. by rewrite Hv.
Qed.

Lemma Set_Get_witness :
  let s' := (@Set_ demoEnv (bs "k") (bs "v") 0 NewStore).2 in (@Get demoEnv (bs "k") s').1 = Ok (Some (bs "v")).
Proof.
  pose proof (Set_Get demoEnv (bs "k") (bs "v") 0 NewStore NewStore_inv eq_refl) as H.
  destruct (Set_ (bs "k") (bs "v") 0 NewStore) as [r s']. destruct H as (_ & _ & H). exact H.
Defined.

(** ** Lists *)

(** The list a live value holds; a missing key is an empty list. *)
Definition listAt (v : option ValueObject) : list bytes := match v with Some v => vList v | None => [] end.
Definition isList (v : option ValueObject) : Prop := match v with Some v => Kind v = ValueKindList | None => True end.

(** LPUSH and RPUSH put their values at the left end, one after the other, or
    at the right end, return the new length, keep the TTL, wake the first waiter
    of the key, and change no other key. *)
Theorem pushList_plain (E : Env) key values lft s :
  StoreInv s → maxMemoryEnabled s = false → values ≠ [] → isList (liveValue s key) →
  ∃ s' v, pushList key values lft s = (Ok (zlen (pushed (listAt (liveValue s key)) values lft), []), s')
    ∧ KeyChanged key (Some v) s s' ∧ Kind v = ValueKindList
    ∧ vList v = pushed (listAt (liveValue s key)) values lft
    ∧ ExpiresAt v = match liveValue s key with Some v0 => ExpiresAt v0 | None => 0 end
    ∧ storeWaiters s' = notifyOne (storeWaiters s) key.
Proof.
  intros Hs Hen Hv Hl. unfold pushList. destruct (Z.eqb_spec (zlen values) 0) as [Hz|_]; [by destruct values|].
  unfold bindR at 1, bind at 1. match goal with |- context [writeKey key ?f s] => set (fn := f) end.
  destruct (writeKey_plain key fn s Hs Hen) as (s1 & Hw & Hk1 & Ht1 & Hen1 & Hwt1). rewrite Hw. unfold fn. cbn [wcurrent wkey].
  set (l0 := listAt (liveValue s key)). set (e0 := match liveValue s key with Some v0 => ExpiresAt v0 | None => 0 end).
  assert ((match liveValue s key with None => Ok ([], 0) | Some current => let? l := value_ListValue current in Ok (l, ExpiresAt current) end)
    = (Ok (l0, e0) : result storeError (list bytes * Z))) as ->.
  { unfold l0, e0. destruct (liveValue s key) as [v0|]; [|done]. cbn [isList] in Hl. unfold value_ListValue, ofKind. by rewrite decide_True. }
  unfold bind at 1, nowMilli at 1. unfold bindR, bind at 1.
  set (v := newListValue (clock (ticks s1) / 1000000) (pushed l0 values lft) e0).
  assert (GoodValue v) as Hg.
  { split; [done|]. cbn. unfold pushed. destruct values as [|x values]; [done|]. destruct lft; cbn [rev]; intros H;
      apply (f_equal length) in H; rewrite ?length_app in H; cbn in H; lia. }
  destruct (commit_plain (mkKeyWrite key (liveValue s key) (readingAt s) false) v (tick s1) eq_refl
    (tick_inv _ (kc_inv _ _ _ _ Hk1)) Hg) as (s2 & Hc & Hk2 & Hwt2 & _). rewrite Hc. cbn [wkey] in Hk2.
  unfold ret, bind, modify. eexists _, v. split; [reflexivity|].
  pose proof (KeyChanged_trans _ _ _ _ _ _ (KeyChanged_tick _ _ _ _ Hk1) Hk2) as Hk.
  split_and!; [|done|done|done|].
  - apply KeyChanged_weak; [done|]. apply notifyOne_wf. apply (kc_inv _ _ _ _ Hk).
  - cbn. by rewrite Hwt2, <- Hwt1.
Qed.

Lemma pushList_plain_witness :
  let s := @runOps demoEnv id [OpPush (bs "l") [bs "x"] false] NewStore in
  (@pushList demoEnv (bs "l") [bs "a"; bs "b"] true s).1 = Ok (3, []).
Proof.
  intros s. assert (@StoreInv demoEnv s) as Hs by (apply storeRun_inv; [apply NewStore_inv|repeat constructor]).
  destruct (pushList_plain demoEnv (bs "l") [bs "a"; bs "b"] true s Hs) as (s' & v & Heq & _);
    [vm_compute; reflexivity|discriminate|vm_compute; reflexivity|].
  rewrite Heq. vm_compute. reflexivity.
Defined.

(** The two ends a pop can take from. *)
Lemma right_pops (l : list bytes) n :
  (n ≤ length l)%nat → (λ i, default [] (l !! (length l - 1 - i)%nat)) <$> seq 0 n = take n (rev l).
Proof.
  intros Hn. apply list_eq. intros i. destruct (decide (i < n)%nat) as [Hi|Hi].
  - rewrite list_lookup_fmap, lookup_seq_lt by done. cbn [fmap option_fmap option_map Nat.add].
    rewrite lookup_take_lt by done. rewrite rev_alt. change (rev_append l []) with (reverse l). rewrite reverse_lookup by lia.
    replace (length l - S i)%nat with (length l - 1 - i)%nat by lia.
    destruct (lookup_lt_is_Some_2 l (length l - 1 - i)) as [x Hx]; [lia|]. by rewrite Hx.
  - rewrite (lookup_ge_None_2 (take n (rev l))) by (rewrite length_take; lia).
    apply lookup_ge_None_2. rewrite length_fmap, length_seq. lia.
Qed.

Section Pops.
Context {E : Env}.
Implicit Types (s : Store).

Lemma liveForUpdate_plain key s :
  StoreInv s → ∃ s', liveForUpdate key s = (liveValue s key, s') ∧ KeyChanged key (liveValue s key) s s'.
Proof.
  intros Hs. destruct (liveForUpdate_spec key s Hs) as (o & s' & Heq & Hs' & (_ & Hmax & _) & Hl & Hne & Ho & _).
  assert (o = liveValue s key) as Ho' by exact Ho. clear Ho. rewrite <- Ho'. exists s'. split; [done|]. split; [done|done|].
  intros k. case_decide as Hk; [by subst k|by apply Hne].
Qed.

Lemma finishShrink_plain key v v' empty s :
  StoreInv s → maxMemoryEnabled s = false → lookupKey s key = Some v → Kind v' = Kind v → (empty = false → GoodValue v') →
  KeyChanged key (if empty : bool then None else Some v') s (finishShrink key v v' empty s).2.
Proof.
  intros Hs Hen Hk Hkind Hg. destruct empty.
  - rewrite finishShrink_empty by done.
    destruct (deleteKeyWithSizeLocked_spec key (if maxMemoryEnabled s then vsize key v else 0) s v Hs Hk) as (s' & -> & [D1 (_ & D2 & _) _ D4 _ _]).
    by split.
  - unfold finishShrink. cbn zeta. cbn [snd]. rewrite Hen.
    pose proof (updateInPlace_spec key v' v s Hs Hk Hkind (Hg eq_refl)) as [U1 (_ & U2 & _) _ U4 _ _]. by split.
Qed.

Lemma popWith_plain {T} key (take_ : list bytes → T * list bytes) s :
  StoreInv s → maxMemoryEnabled s = false → isList (liveValue s key) →
  let l := listAt (liveValue s key) in
  ∃ s' v', popWith key take_ s = (Ok (match l with [] => None | _ => Some (take_ l).1 end), s')
    ∧ KeyChanged key (match l with [] => None | _ => if zlen (take_ l).2 =? 0 then None else Some v' end) s s'
    ∧ Kind v' = ValueKindList ∧ vList v' = (take_ l).2
    ∧ ExpiresAt v' = match liveValue s key with Some v0 => ExpiresAt v0 | None => 0 end.
Proof.
  intros Hs Hen Hl. unfold popWith, bind at 1. destruct (liveForUpdate_plain key s Hs) as (s1 & -> & Hk1).
  pose proof (kc_inv _ _ _ _ Hk1) as Hs1. destruct (liveValue s key) as [v|] eqn:Ev; cbn [listAt isList] in *; cbn zeta.
  - assert (lookupKey s1 key = Some v) as Hl1 by (rewrite (kc_lookup _ _ _ _ Hk1), decide_True; done).
    assert (vList v ≠ []) as Hne.
    { destruct (lookup_good _ _ _ Hs1 Hl1) as [_ Hg]. by rewrite Hl in Hg. }
    unfold value_ListValue, ofKind. rewrite decide_True by done.
    destruct (Z.eqb_spec (zlen (vList v)) 0) as [Hz|_]; [by destruct (vList v)|].
    destruct (take_ (vList v)) as [item rest] eqn:Et. unfold bind at 1, nowMilli. unfold bind, ret.
    set (v' := touch (setList v rest) (clock (ticks s1) / 1000000)).
    pose proof (finishShrink_plain key v v' (zlen rest =? 0) (tick s1) (tick_inv _ Hs1)) as Hf.
    assert (maxMemoryEnabled (tick s1) = false) as Hen1.
    { change (maxMemoryEnabled (tick s1)) with (maxMemoryEnabled s1). unfold maxMemoryEnabled in *. by rewrite (kc_max _ _ _ _ Hk1). }
    specialize (Hf Hen1 Hl1 eq_refl). assert ((zlen rest =? 0) = false → GoodValue v') as Hg.
    { intros Hr. bool_to_prop. unfold GoodValue, ValueWf. cbn [Kind v' touch setList vList]. rewrite Hl. split; [done|]. by destruct rest. }
    specialize (Hf Hg). destruct (finishShrink key v v' _ (tick s1)) as [u s2]. cbn [snd] in Hf. destruct u.
    exists s2, v'. destruct (vList v) as [|x l]; [done|]. rewrite ?Et. cbn [fst snd]. split_and!; try done.
    eapply KeyChanged_trans; [by apply KeyChanged_tick|done].
  - exists s1, (newListValue 0 (take_ []).2 0). split_and!; try done.
Qed.
End Pops.

(** LPOP and RPOP with a count return up to that many elements from their end
    of the list, in order from that end, and leave the rest; the key disappears
    with its last element and its TTL stays otherwise. *)
Theorem popN_plain (E : Env) key count lft s :
  StoreInv s → maxMemoryEnabled s = false → 0 ≤ count → isList (liveValue s key) →
  let l := listAt (liveValue s key) in
  let n := Z.to_nat (Z.min count (zlen l)) in
  let rest := if lft : bool then drop n l else take (length l - n) l in
  ∃ s' v', popN key count lft s
      = (Ok (match l with [] => None | _ => Some (if lft then take n l else take n (rev l)) end), s')
    ∧ KeyChanged key (match rest with [] => None | _ => Some v' end) s s'
    ∧ Kind v' = ValueKindList ∧ vList v' = rest
    ∧ ExpiresAt v' = match liveValue s key with Some v0 => ExpiresAt v0 | None => 0 end.
Proof.
  intros Hs Hen Hc Hl. cbn zeta. set (l := listAt (liveValue s key)). unfold popN. rewrite (proj2 (Z.ltb_ge _ _)) by done.
  match goal with |- context [popWith key ?t s] => set (take_ := t) end.
  destruct (popWith_plain key take_ s Hs Hen Hl) as (s' & v' & Heq & Hk & Hkind & Hlist & Hexp). fold l in Heq, Hk, Hlist.
  set (n := Z.to_nat (Z.min count (zlen l))).
  assert ((take_ l).1 = (if lft then take n l else take n (rev l)) ∧ (take_ l).2 = (if lft then drop n l else take (length l - n) l)) as [H1 H2].
  { unfold take_, n. cbn zeta. assert ((if count <? zlen l then count else zlen l) = Z.min count (zlen l)) as ->.
    { destruct (Z.ltb_spec count (zlen l)); lia. }
    pose proof (zlen_nonneg l). destruct lft; cbn [fst snd]; [done|]. rewrite right_pops by (unfold zlen in *; lia).
    split; [done|]. unfold ztake. f_equal. unfold zlen in *. lia. }
  exists s', v'. rewrite H2 in Hk, Hlist. rewrite H1 in Heq. split_and!; try done.
  destruct l as [|x l0] eqn:El.
  - destruct lft; by rewrite ?drop_nil, ?take_nil in *.
  - rewrite <- El in *. destruct (if lft then drop n l else take (length l - n) l) as [|y r]; cbn [zlen length] in Hk; [done|].
    rewrite (proj2 (Z.eqb_neq _ _)) in Hk by (rewrite zlen_cons; pose proof (zlen_nonneg r); lia). done.
Qed.

Lemma popN_plain_witness :
  let s := @runOps demoEnv id [OpPush (bs "l") [bs "x"; bs "y"; bs "z"] false] NewStore in
  (@popN demoEnv (bs "l") 2 false s).1 = Ok (Some [bs "z"; bs "y"]).
Proof.
  intros s. assert (@StoreInv demoEnv s) as Hs by (apply storeRun_inv; [apply NewStore_inv|repeat constructor]).
  destruct (popN_plain demoEnv (bs "l") 2 false s Hs) as (s' & v' & Heq & _); [vm_compute; reflexivity|lia|vm_compute; reflexivity|].
  rewrite Heq. vm_compute. reflexivity.
Defined.

(** Decide the integer comparisons of the goal, innermost first. *)
Ltac split_comparisons :=
  let plain x := lazymatch x with context [match _ with _ => _ end] => fail | _ => idtac end in
  repeat match goal with
  | |- context [?x <? ?y] => plain x; plain y; destruct (Z.ltb_spec x y)
  | |- context [?x <=? ?y] => plain x; plain y; destruct (Z.leb_spec x y)
  | |- context [?x =? ?y] => plain x; plain y; destruct (Z.eqb_spec x y)
  end.

(** The range of LRANGE and ZRANGE: from a length and two 64-bit indices,
    negative ones counting from the end, it selects exactly the positions inside
    the list that lie between them, and nothing when there is none. *)
Theorem normalizeListRange_exact length start stop i :
  let resolve x := if x <? 0 then x + length else x in
  (match normalizeListRange length start stop with Some (from, to) => from <= i <= to | None => False end)
  ↔ 0 <= i < length ∧ resolve start <= i <= resolve stop.
Proof.
  unfold normalizeListRange, normalizeListIndex. cbn zeta. split_comparisons; lia.
Qed.

(** ** Collections *)

Section Collections.
Context {E : Env}.
Implicit Types (s : Store).

Lemma bindR_Ok {A B} (m : M (result storeError A)) (k : A → M (result storeError B)) s a s' :
  m s = (Ok a, s') → bindR m k s = k a s'.
Proof. intros H. unfold bindR, bind. by rewrite H. Qed.

Lemma addTo_plain key clone add fresh len s n :
  StoreInv s → maxMemoryEnabled s = false →
  match liveValue s key with
  | Some v => GoodValue v → ∃ v', add v = (v', Ok n) ∧ GoodValue v'
  | None => ∀ stamp, GoodValue (fresh stamp) ∧ len (fresh stamp) = Ok n
  end →
  ∃ s' v stamp, addTo key clone add fresh len s = (Ok (n, []), s') ∧ KeyChanged key (Some v) s s'
    ∧ v = touch (match liveValue s key with Some v0 => (add v0).1 | None => fresh stamp end) (readingAt s).
Proof.
  intros Hs Hen Hadd. unfold addTo. match goal with |- context [writeKey key ?f s] => set (fn := f) end.
  destruct (writeKey_plain key fn s Hs Hen) as (s1 & Hw & Hk1 & Ht1 & Hen1 & _). rewrite Hw. unfold fn. cbn [wcurrent wkey waccounting wnow].
  pose proof (kc_inv _ _ _ _ Hk1) as Hs1.
  destruct (liveValue s key) as [v0|] eqn:Ev.
  - destruct Hadd as (v' & Ha & Hg).
    { apply (lookup_good s1 key); [done|]. rewrite (kc_lookup _ _ _ _ Hk1). by rewrite decide_True. }
    match goal with |- context [bindR ?X _ s1] => assert (X s1 = (Ok (v', n), s1)) as HX end.
    { unfold bindR, bind, ret. by rewrite Ha. }
    rewrite (bindR_Ok _ _ _ _ _ HX). cbn zeta. unfold bindR, bind.
    destruct (commit_plain (mkKeyWrite key (Some v0) (readingAt s) false) (touch v' (readingAt s)) s1 eq_refl Hs1 (touch_good _ _ Hg)) as (s2 & Hc & Hk2 & _).
    rewrite Hc. unfold ret. exists s2, (touch v' (readingAt s)), 0. split_and!; [done| |by rewrite Ha].
    by eapply KeyChanged_trans.
  - set (stamp := clock (ticks s1) / 1000000). destruct (Hadd stamp) as [Hg Hlen].
    match goal with |- context [bindR ?X _ s1] => assert (X s1 = (Ok (fresh stamp, n), tick s1)) as HX end.
    { unfold bind, nowMilli, ret. fold stamp. by rewrite Hlen. }
    rewrite (bindR_Ok _ _ _ _ _ HX). cbn zeta. unfold bindR, bind.
    destruct (commit_plain (mkKeyWrite key None (readingAt s) false) (touch (fresh stamp) (readingAt s)) (tick s1) eq_refl (tick_inv _ Hs1) (touch_good _ _ Hg)) as (s2 & Hc & Hk2 & _).
    rewrite Hc. unfold ret. exists s2, (touch (fresh stamp) (readingAt s)), stamp. split_and!; [done| |done].
    eapply KeyChanged_trans; [by apply KeyChanged_tick|done].
Qed.
End Collections.

Definition hashAt (v : option ValueObject) : gmap bytes bytes := match v with Some v => hashAbs v | None => ∅ end.
Definition isHash (v : option ValueObject) : Prop := match v with Some v => Kind v = ValueKindHash | None => True end.

(** HSET writes its pairs into the hash under the key, creating it when it is
    missing or expired, returns how many fields are new, and HGET then reads the
    fields of the resulting map, whichever encodings the values went through. *)
Theorem HSet_HGet (E : Env) key pairs field s :
  StoreInv s → maxMemoryEnabled s = false → pairs ≠ [] → isHash (liveValue s key) →
  let m := hashAt (liveValue s key) in
  ∃ s' v, HSet key pairs s = (Ok (msize (hashUpd m pairs) - msize m, []), s') ∧ KeyChanged key (Some v) s s'
    ∧ hashAbs v = hashUpd m pairs
    ∧ (HGet key field s').1 = if isExpired v (readingAt s') then Ok None else Ok (hashUpd m pairs !! field).
Proof.
  intros Hs Hen Hp Hl. cbn zeta. set (m := hashAt (liveValue s key)). unfold HSet.
  destruct (Z.eqb_spec (zlen pairs) 0) as [Hz|_]; [by destruct pairs|].
  destruct (addTo_plain key cloneHashValue (λ v, hashSet v pairs) (λ stamp, newHashValueForPairs stamp pairs 0) hashLen s
    (msize (hashUpd m pairs) - msize m) Hs Hen) as (s' & v & stamp & Heq & Hk & Hv).
  { unfold m. destruct (liveValue s key) as [v0|]; cbn [hashAt isHash] in *.
    - intros Hg. destruct (GoodHash_inv _ Hg Hl) as [Hw Hn]. destruct (hashSet_spec v0 pairs Hl Hw) as (v' & Hv' & Ha & Hw' & Hk' & _).
      exists v'. rewrite Hv', Ha. split; [done|]. apply GoodHash; [done|done|]. rewrite Ha. apply hashUpd_nonempty. by left.
    - intros stamp. destruct (newHashValueForPairs_spec stamp pairs 0) as (Hk & Hw & Ha & _). split.
      + apply GoodHash; [done|done|]. rewrite Ha. apply hashUpd_nonempty. by right.
      + rewrite hashLen_spec by done. rewrite Ha. f_equal. unfold msize at 3. rewrite map_size_empty. lia. }
  assert (Kind v = ValueKindHash ∧ HashWf v ∧ hashAbs v = hashUpd m pairs) as (Hkv & Hwv & Hav).
  { subst v. unfold m. destruct (liveValue s key) as [v0|] eqn:Ev; cbn [hashAt isHash] in *.
    - assert (GoodValue v0) as Hg.
      { unfold liveValue in Ev. apply live_Some in Ev as [Hk0 _]. by eapply lookup_good. }
      destruct (GoodHash_inv _ Hg Hl) as [Hw _]. destruct (hashSet_spec v0 pairs Hl Hw) as (v' & Hv' & Ha & Hw' & Hk' & _). rewrite Hv'. done.
    - destruct (newHashValueForPairs_spec stamp pairs 0) as (Hk0 & Hw & Ha & _). done. }
  exists s', v. split_and!; [done|done|done|]. unfold HGet.
  rewrite (fst_bindR_ret (readKey key (λ v, hashGet v field)) mjoin s').
  rewrite readKey_spec by apply Hk. unfold liveValue. rewrite (kc_lookup _ _ _ _ Hk), decide_True by done. cbn [live].
  destruct (isExpired v (readingAt s')); [done|]. rewrite hashGet_spec by done. by rewrite Hav.
Qed.

Lemma HSet_HGet_witness :
  let s := @runOps demoEnv id [OpHSet (bs "h") [(bs "f", bs "1")]] NewStore in
  (@HSet demoEnv (bs "h") [(bs "f", bs "2"); (bs "g", bs "3")] s).1 = Ok (1, []).
Proof.
  intros s. assert (@StoreInv demoEnv s) as Hs by (apply storeRun_inv; [apply NewStore_inv|repeat constructor]).
  destruct (HSet_HGet demoEnv (bs "h") [(bs "f", bs "2"); (bs "g", bs "3")] (bs "f") s Hs) as (s' & v & Heq & _);
    [vm_compute; reflexivity|discriminate|vm_compute; reflexivity|].
  rewrite Heq. vm_compute. reflexivity.
Defined.

Definition zsetAt (v : option ValueObject) : gmap bytes float64 := match v with Some v => zsetAbs v | None => ∅ end.
Definition isZSet (v : option ValueObject) : Prop := match v with Some v => Kind v = ValueKindZSet | None => True end.

(** ZADD then ZRANGE: the members of the sorted set under the key are updated
    with the new scores, the number of new members is returned, and ZRANGE 0 -1
    lists every member exactly once in (score, member) order. *)
Theorem ZAdd_ZRange (E : Env) key zs s :
  StoreInv s → maxMemoryEnabled s = false → zs ≠ [] → Forall scoreOk zs → isZSet (liveValue s key) →
  let m := zsetAt (liveValue s key) in
  let m' := match liveValue s key with Some _ => zaddAll m zs | None => zsetUpd ∅ zs end in
  ∃ s' v l, ZAdd key zs s = (Ok (msize m' - msize m, []), s') ∧ KeyChanged key (Some v) s s'
    ∧ ZSetOrdered l ∧ l ≡ₚ map_to_list m'
    ∧ (ZRange key 0 (-1) s').1 = Ok (if isExpired v (readingAt s') then [] else l).
Proof.
  intros Hs Hen Hp Hok Hl. cbn zeta. set (m := zsetAt (liveValue s key)). set (m' := match liveValue s key with Some _ => _ | None => _ end).
  unfold ZAdd. destruct (Z.eqb_spec (zlen zs) 0) as [Hz|_]; [by destruct zs|].
  destruct (addTo_plain key cloneZSetValue (λ v, zsetAdd v zs) (λ stamp, newZSetValueForEntries stamp zs 0) zsetLen s
    (msize m' - msize m) Hs Hen) as (s' & v & stamp & Heq & Hk & Hv).
  { unfold m', m. destruct (liveValue s key) as [v0|]; cbn [zsetAt isZSet] in *.
    - intros Hg. destruct (GoodZSet_inv _ Hg Hl) as [Hw Hn]. destruct (zsetAdd_spec v0 zs Hl Hw Hok) as (v' & Hv' & Ha & Hw' & Hk' & _).
      exists v'. rewrite Hv', Ha. split; [done|]. apply GoodZSet; [done|done|]. rewrite Ha. by apply zaddAll_nonempty.
    - intros stamp. destruct (newZSetValueForEntries_spec stamp zs 0 Hok) as (Hk & Hw & Ha & _). split.
      + apply GoodZSet; [done|done|]. rewrite Ha. by apply zsetUpd_nonempty.
      + rewrite zsetLen_spec by done. rewrite Ha. f_equal. unfold msize at 3. rewrite map_size_empty. lia. }
  assert (Kind v = ValueKindZSet ∧ ZSetWf v ∧ zsetAbs v = m') as (Hkv & Hwv & Hav).
  { subst v. unfold m', m. destruct (liveValue s key) as [v0|] eqn:Ev; cbn [zsetAt isZSet] in *.
    - assert (GoodValue v0) as Hg.
      { unfold liveValue in Ev. apply live_Some in Ev as [Hk0 _]. by eapply lookup_good. }
      destruct (GoodZSet_inv _ Hg Hl) as [Hw _]. destruct (zsetAdd_spec v0 zs Hl Hw Hok) as (v' & Hv' & Ha & Hw' & Hk' & _). rewrite Hv'. done.
    - destruct (newZSetValueForEntries_spec stamp zs 0 Hok) as (Hk0 & Hw & Ha & _). done. }
  exists s', v, (zsetList v). split_and!; [done|done| |by rewrite <- Hav; apply zsetList_perm|].
  { unfold ZSetWf, zsetList in *. destruct (ZSetEncoding v).
    - destruct Hwv as (z & -> & Hz). by apply SortedSetWf_list.
    - destruct Hwv as (c & -> & [_ _ _ Ho] & _). done. }
  unfold ZRange. match goal with |- (bindR (readKey key ?f) _ s').1 = _ => rewrite (fst_bindR_ret (readKey key f) (default []) s') end.
  rewrite readKey_spec by apply Hk. unfold liveValue. rewrite (kc_lookup _ _ _ _ Hk), decide_True by done. cbn [live].
  destruct (isExpired v (readingAt s')); [done|]. rewrite zsetLen_spec by done. cbn [result_bind].
  pose proof (zsetList_length v Hwv) as Hlen. pose proof (zlen_nonneg (zsetList v)).
  assert (0 < zlen (zsetList v)) as Hpos.
  { assert (GoodValue v) as Hg by (eapply (lookup_good s' key); [apply Hk|]; rewrite (kc_lookup _ _ _ _ Hk); by rewrite decide_True).
    destruct (GoodZSet_inv _ Hg Hkv) as [_ Hn]. rewrite Hlen. unfold msize. apply map_size_non_empty_iff in Hn. lia. }
  rewrite <- Hlen. set (len := zlen (zsetList v)) in *.
  assert (normalizeListRange len 0 (-1) = Some (0, len - 1)) as ->.
  { unfold normalizeListRange, normalizeListIndex. cbn zeta. split_comparisons; try lia. f_equal; f_equal; lia. }
  rewrite zsetRangeByRank_spec by done. f_equal. cbn [default from_option id]. unfold rankSlice. fold len.
  rewrite (proj2 (Z.ltb_ge (len - 1) 0)), (proj2 (Z.leb_gt len 0)) by lia. cbn [Z.ltb Z.compare orb]. rewrite zdrop_0.
  unfold ztake. apply take_ge. unfold len, zlen in *. lia.
Qed.

Lemma ZAdd_ZRange_witness :
  (@ZAdd demoEnv (bs "z") [(bs "b", floatOfZ 2); (bs "a", floatOfZ 2); (bs "c", floatOfZ 1)] NewStore).1 = Ok (3, []).
Proof.
  destruct (ZAdd_ZRange demoEnv (bs "z") [(bs "b", floatOfZ 2); (bs "a", floatOfZ 2); (bs "c", floatOfZ 1)] NewStore NewStore_inv)
    as (s' & v & l & Heq & _); [reflexivity|discriminate|repeat constructor|vm_compute; exact I|].
  rewrite Heq. vm_compute. reflexivity.
Defined.

(** ** Bits and counters *)

Definition stringAt (v : option ValueObject) : bytes := match v with Some v => vString v | None => [] end.
Definition isString (v : option ValueObject) : Prop := match v with Some v => Kind v = ValueKindString | None => True end.

Lemma copyInto_zeros n data : zlen data ≤ n → copyInto (replicate (Z.to_nat n) x00) data = zeroPad n data.
Proof.
  intros Hn. unfold copyInto, zeroPad. rewrite length_replicate, take_ge by (unfold zlen in Hn; lia). f_equal.
  rewrite drop_replicate. f_equal. unfold zlen. lia.
Qed.

Lemma zlen_setBit payload offset bit : zlen (setBitInPayload payload offset bit) = zlen payload.
Proof. unfold zlen, setBitInPayload. cbn zeta. by rewrite length_insert. Qed.

(** SETBIT returns the old bit and changes that bit alone: afterwards every
    other bit reads as before, the string is just long enough, zero filled, and
    its TTL is kept. *)
Theorem SetBit_plain (E : Env) key offset bit s :
  StoreInv s → maxMemoryEnabled s = false → validateBitmapArguments offset bit = true → isString (liveValue s key) →
  let data := stringAt (liveValue s key) in
  ∃ s' v, SetBit key offset bit s = (Ok (bitAt data offset, []), s') ∧ KeyChanged key (Some v) s s'
    ∧ Kind v = ValueKindString
    ∧ (∀ o, 0 ≤ o → bitAt (vString v) o = if decide (o = offset) then bit else bitAt data o)
    ∧ zlen (vString v) = Z.max (offset / 8 + 1) (zlen data)
    ∧ ExpiresAt v = match liveValue s key with Some v0 => ExpiresAt v0 | None => 0 end.
Proof.
  intros Hs Hen Hval Hl. cbn zeta. set (data := stringAt (liveValue s key)).
  set (e0 := match liveValue s key with Some v0 => ExpiresAt v0 | None => 0 end). unfold SetBit. rewrite Hval. cbn [negb].
  assert (0 ≤ offset ∧ (bit = 0 ∨ bit = 1)) as [Ho Hb].
  { unfold validateBitmapArguments, validateBitmapOffset in Hval. bool_to_prop. apply andb_false_iff in H0.
    rewrite !negb_false_iff, !Z.eqb_eq in H0. split; [lia|tauto]. }
  pose proof (Z.div_pos offset 8 Ho ltac:(lia)) as Hbi.
  match goal with |- context [writeKey key ?f s] => set (fn := f) end.
  destruct (writeKey_plain key fn s Hs Hen) as (s1 & Hw & Hk1 & Ht1 & Hen1 & _). rewrite Hw. unfold fn. cbn [wcurrent wkey waccounting wnow].
  pose proof (kc_inv _ _ _ _ Hk1) as Hs1.
  assert ((match liveValue s key with Some current => let? data := value_StringValue current in Ok (data, ExpiresAt current) | None => Ok ([], 0) end)
    = (Ok (data, e0) : result storeError (bytes * Z))) as ->.
  { unfold data, e0. destruct (liveValue s key) as [v0|]; [|done]. cbn [isString] in Hl. unfold value_StringValue, ofKind. by rewrite decide_True. }
  cbn zeta. set (w := mkKeyWrite key (liveValue s key) (readingAt s) false).
  set (len := Z.max (offset / 8 + 1) (zlen data)).
  (* growing the string *)
  assert (∃ s' v, (let!? evicted := commitString w len e0 (λ payload, setBitInPayload (copyInto payload data) offset bit) in
      ret (Ok (bitAt data offset, evicted))) s1 = (Ok (bitAt data offset, []), s') ∧ KeyChanged key (Some v) s s'
    ∧ Kind v = ValueKindString ∧ (∀ o, 0 ≤ o → bitAt (vString v) o = if decide (o = offset) then bit else bitAt data o)
    ∧ zlen (vString v) = len ∧ ExpiresAt v = e0) as Hgrow.
  { unfold commitString. cbn [waccounting w]. rewrite copyInto_zeros by lia.
    set (v := touch (newOwnedStringValue (clock (ticks s1) / 1000000) (setBitInPayload (zeroPad len data) offset bit) e0) (readingAt s)).
    destruct (commit_plain w v (tick s1) eq_refl (tick_inv _ Hs1) (GoodString v eq_refl)) as (s2 & Hc & Hk2 & _).
    exists s2, v. split_and!; try done.
    - unfold bindR, bind, nowMilli. cbn zeta. change (wnow w) with (readingAt s). fold v. by rewrite Hc.
    - eapply KeyChanged_trans; [by apply KeyChanged_tick|exact Hk2].
    - intros o Ho'. cbn [vString v touch newOwnedStringValue setString].
      rewrite bitAt_setBit by (try done; rewrite zlen_zeroPad; lia). case_decide; [done|].
      pose proof (Z.div_pos o 8 Ho' ltac:(lia)). rewrite !bitAt_testbit, byteAt_zeroPad by done. done.
    - cbn [vString v touch newOwnedStringValue setString]. rewrite zlen_setBit, zlen_zeroPad; lia. }
  destruct (liveValue s key) as [v0|] eqn:Ev; [|exact Hgrow]. cbn [stringAt isString] in *.
  destruct (Z.ltb_spec (offset / 8) (zlen data)) as [Hin|]; cbn [andb negb]; [|exact Hgrow].
  set (v := touch (setString v0 (setBitInPayload data offset bit)) (readingAt s)).
  assert (lookupKey s1 key = Some v0) as Hl1 by (rewrite (kc_lookup _ _ _ _ Hk1); by rewrite decide_True).
  pose proof (updateInPlace_spec key v v0 s1 Hs1 Hl1 eq_refl (GoodString v Hl)) as [U1 (_ & U2 & _) _ U4 _ _].
  unfold bind, modify, ret. exists (updateInPlace key v s1), v. split_and!; try done.
  - eapply KeyChanged_trans; [exact Hk1|]. by split.
  - intros o Ho'. cbn [vString v touch setString]. by apply bitAt_setBit.
  - cbn [vString v touch setString]. rewrite zlen_setBit. unfold len. lia.
Qed.

Lemma SetBit_plain_witness :
  let s := @runOps demoEnv id [OpSet (bs "b") (bs "a") 0] NewStore in
  (@SetBit demoEnv (bs "b") 17 1 s).1 = Ok (0, []).
Proof.
  intros s. assert (@StoreInv demoEnv s) as Hs by (apply storeRun_inv; [apply NewStore_inv|repeat constructor]).
  destruct (SetBit_plain demoEnv (bs "b") 17 1 s Hs) as (s' & v & Heq & _);
    [vm_compute; reflexivity|vm_compute; reflexivity|vm_compute; reflexivity|].
  rewrite Heq. vm_compute. reflexivity.
Defined.

(** BITCOUNT without a range counts the set bits of the string, and with an
    inclusive byte range inside it the set bits of those bytes. *)
Theorem countBits_exact data from to :
  countBits data None None = bitSum data
  ∧ (0 ≤ from ≤ to → to < zlen data →
     countBits data (Some from) (Some to) = bitSum (ztake (to + 1 - from) (zdrop from data))).
Proof. split; [apply countBits_whole|apply countBits_range]. Qed.

Lemma countBits_exact_witness : countBits (bs "foobar") (Some 1) (Some 1) = 6.
Proof.
  destruct (countBits_exact (bs "foobar") 1 1) as [_ H]. rewrite H; [vm_compute; reflexivity|lia|vm_compute; reflexivity].
Defined.

(** INCR adds one to a 64-bit decimal, creates the counter at one, keeps the
    TTL, and refuses a value that is not such a number or is the largest one,
    leaving it alone. *)
Theorem Increment_plain (E : Env) key s :
  StoreInv s → maxMemoryEnabled s = false → isString (liveValue s key) →
  ∃ s', match liveValue s key with
    | None => ∃ v, Increment key s = (Ok (1, []), s') ∧ KeyChanged key (Some v) s s' ∧ vString v = bs "1" ∧ ExpiresAt v = 0 ∧ Kind v = ValueKindString
    | Some v0 =>
        match ParseInt (vString v0) with
        | Some n =>
            if n =? max_int64 then Increment key s = (Err ErrValueNotInteger, s') ∧ KeyChanged key (Some v0) s s'
            else ∃ v, Increment key s = (Ok (n + 1, []), s') ∧ KeyChanged key (Some v) s s'
                   ∧ vString v = FormatInt (n + 1) ∧ ExpiresAt v = ExpiresAt v0 ∧ Kind v = ValueKindString
        | None => Increment key s = (Err ErrValueNotInteger, s') ∧ KeyChanged key (Some v0) s s'
        end
    end.
Proof.
  intros Hs Hen Hl. unfold Increment. match goal with |- context [writeKey key ?f s] => set (fn := f) end.
  destruct (writeKey_plain key fn s Hs Hen) as (s1 & Hw & Hk1 & Ht1 & Hen1 & _). rewrite Hw. unfold fn. cbn [wcurrent wkey waccounting wnow].
  pose proof (kc_inv _ _ _ _ Hk1) as Hs1. destruct (liveValue s key) as [v0|] eqn:Ev; cbn [isString] in *.
  - unfold value_StringValue, ofKind. rewrite decide_True by done. destruct (ParseInt (vString v0)) as [n|]; [|by exists s1].
    destruct (n =? max_int64); [by exists s1|]. cbn zeta. cbn [negb].
    set (v := touch (setString v0 (FormatInt (n + 1))) (readingAt s)).
    assert (lookupKey s1 key = Some v0) as Hl1 by (rewrite (kc_lookup _ _ _ _ Hk1); by rewrite decide_True).
    pose proof (updateInPlace_spec key v v0 s1 Hs1 Hl1 eq_refl (GoodString v Hl)) as [U1 (_ & U2 & _) _ U4 _ _].
    exists (updateInPlace key v s1), v. split_and!; try done. eapply KeyChanged_trans; [exact Hk1|]. by split.
  - set (v := newOwnedStringValue (clock (ticks s1) / 1000000) (bs "1") 0).
    destruct (commit_plain (mkKeyWrite key None (readingAt s) false) v (tick s1) eq_refl (tick_inv _ Hs1) (GoodString v eq_refl)) as (s2 & Hc & Hk2 & _).
    exists s2, v. split_and!; try done.
    + unfold bindR, bind, nowMilli. fold v. by rewrite Hc.
    + eapply KeyChanged_trans; [by apply KeyChanged_tick|exact Hk2].
Qed.

Lemma Increment_plain_witness :
  let s := @runOps demoEnv id [OpSet (bs "n") (bs "41") 0] NewStore in (@Increment demoEnv (bs "n") s).1 = Ok (42, []).
Proof.
  intros s. assert (@StoreInv demoEnv s) as Hs by (apply storeRun_inv; [apply NewStore_inv|repeat constructor]).
  destruct (Increment_plain demoEnv (bs "n") s Hs) as (s' & H); [vm_compute; reflexivity|vm_compute; reflexivity|].
  assert (∃ v0, @liveValue demoEnv s (bs "n") = Some v0 ∧ vString v0 = bs "41") as (v0 & Hv0 & Hstr)
    by (eexists; split; [vm_compute; reflexivity|reflexivity]).
  rewrite Hv0, Hstr in H. destruct H as (v & Heq & _). rewrite Heq. reflexivity.
Defined.

(** ** Deleting many keys *)

Section Sweep.
Context {E : Env} (now : Z).
Implicit Types (s : Store).

(** [ks] deleted one after the other; [r] are the ones that were live. *)
Record Swept (ks : list bytes) s (r : list bytes) s' : Prop := {
  sw_inv : StoreInv s';
  sw_rest : sameRest s s';
  sw_lookup : ∀ k, lookupKey s' k = if decide (k ∈ ks) then None else lookupKey s k;
  sw_nodup : NoDup r;
  sw_removed : ∀ k, k ∈ r ↔ k ∈ ks ∧ is_Some (live now (lookupKey s k))
}.

Lemma Swept_nil s : StoreInv s → Swept [] s [] s.
Proof.
  intros Hs. split; [done|reflexivity|done|apply NoDup_nil_2|].
  intros k. rewrite !elem_of_nil. tauto.
Qed.

Lemma Swept_app ks1 ks2 s r1 s1 r2 s2 : Swept ks1 s r1 s1 → Swept ks2 s1 r2 s2 → Swept (ks1 ++ ks2) s (r1 ++ r2) s2.
Proof.
  intros [A1 A2 A3 A4 A5] [B1 B2 B3 B4 B5]. split; try done.
  - by etransitivity.
  - intros k. rewrite B3, A3. destruct (decide (k ∈ ks2)), (decide (k ∈ ks1)).
    all: first [rewrite decide_True by (rewrite elem_of_app; tauto); done | rewrite decide_False by (rewrite elem_of_app; tauto); done].
  - apply NoDup_app. split_and!; try done. intros k [Hk _]%A5 [_ [v Hv]]%B5. rewrite A3, decide_True in Hv by done. done.
  - intros k. rewrite !elem_of_app, A5, B5, A3. destruct (decide (k ∈ ks1)) as [H1|H1].
    + cbn [live]. split; [intros [?|[_ [? ?]]]; [naive_solver|done]|naive_solver].
    + naive_solver.
Qed.

Lemma Swept_ext ks ks' s r s' : Swept ks s r s' → (∀ k, k ∈ ks ↔ k ∈ ks') → Swept ks' s r s'.
Proof.
  intros [A1 A2 A3 A4 A5] Heq. split; try done.
  - intros k. rewrite A3. apply decide_ext, Heq.
  - intros k. by rewrite A5, Heq.
Qed.

Lemma deleteOne_spec k s removed :
  StoreInv s → ∃ r s', deleteOne now (shardIndex s k) (removed, s) k = (removed ++ r, s') ∧ Swept [k] s r s'.
Proof.
  intros Hs. unfold deleteOne. change (shardAt s (shardIndex s k) !! k) with (lookupKey s k).
  destruct (lookupKey s k) as [v|] eqn:Ek.
  - destruct (deleteKeyLocked_Some k s v Hs Ek) as (s' & -> & [D1 D2 _ D4 _ _]). cbn [snd].
    assert (∀ k', lookupKey s' k' = if decide (k' ∈ [k]) then None else lookupKey s k') as Hl.
    { intros k'. rewrite D4. apply decide_ext. by rewrite list_elem_of_singleton. }
    destruct (isExpired v now) eqn:Ex; [exists [], s'; rewrite app_nil_r|exists [k], s']; (split; [done|]); split; try done; try apply NoDup_nil_2.
    + intros k'. rewrite elem_of_nil, list_elem_of_singleton. split; [done|]. intros [-> [x Hx]]. rewrite Ek in Hx. cbn [live] in Hx. by rewrite Ex in Hx.
    + apply NoDup_singleton.
    + intros k'. rewrite list_elem_of_singleton. split; [|by intros [? _]]. intros ->. split; [done|]. rewrite Ek. cbn [live]. rewrite Ex. by eexists.
  - exists [], s. rewrite app_nil_r. split; [done|]. split; try done; try apply NoDup_nil_2.
    + intros k'. case_decide as Hk; [|done]. apply list_elem_of_singleton in Hk as ->. done.
    + intros k'. rewrite elem_of_nil, list_elem_of_singleton. split; [done|]. intros [-> [x Hx]]. by rewrite Ek in Hx.
Qed.

Lemma deleteOne_fold i ks : ∀ s removed,
  StoreInv s → (∀ k, k ∈ ks → shardIndex s k = i) →
  ∃ r s', foldl (deleteOne now i) (removed, s) ks = (removed ++ r, s') ∧ Swept ks s r s'.
Proof.
  induction ks as [|k ks IH]; intros s removed Hs Hi; cbn [foldl].
  { exists [], s. rewrite app_nil_r. split; [done|]. by apply Swept_nil. }
  destruct (deleteOne_spec k s removed Hs) as (r1 & s1 & Hd & Hsw1). rewrite (Hi k) in Hd by (by left). rewrite Hd.
  pose proof (sw_rest _ _ _ _ Hsw1) as (Hlen & _).
  destruct (IH s1 (removed ++ r1) (sw_inv _ _ _ _ Hsw1)) as (r2 & s2 & Heq & Hsw2).
  { intros k' Hk'. rewrite (shardIndex_shards s s1) by done. apply Hi. by right. }
  exists (r1 ++ r2), s2. rewrite Heq, <- app_assoc. split; [done|]. by apply (Swept_app [k] ks s r1 s1 r2 s2).
Qed.

Lemma deleteGroups_fold s0 keys ids : ∀ s removed,
  StoreInv s → length (shards s) = length (shards s0) → (0 < length (shards s0))%nat → (∀ i, i ∈ ids → (i < length (shards s0))%nat) →
  ∃ r s' ks, foldl (λ st shardID,
      if decide (default O (gcounts (groupKeysByShard s0 keys) !! shardID) = O) then st
      else foldl (deleteOne now shardID) st (keysForShard (groupKeysByShard s0 keys) shardID)) (removed, s) ids = (removed ++ r, s')
    ∧ Swept ks s r s' ∧ ∀ k, k ∈ ks ↔ k ∈ keys ∧ shardIndex s0 k ∈ ids.
Proof.
  induction ids as [|i ids IH]; intros s removed Hs Hlen Hpos Hids; cbn [foldl].
  { exists [], s, []. rewrite app_nil_r. split_and!; [done|by apply Swept_nil|]. intros k. rewrite !elem_of_nil. tauto. }
  assert (i < length (shards s0))%nat as Hi by (apply Hids; by left).
  pose proof (keysForShard_spec s0 keys i Hpos Hi) as Hks.
  assert (∃ r1 s1, (if decide (default O (gcounts (groupKeysByShard s0 keys) !! i) = O) then (removed, s)
      else foldl (deleteOne now i) (removed, s) (keysForShard (groupKeysByShard s0 keys) i)) = (removed ++ r1, s1)
    ∧ Swept (filter (λ k, shardIndex s0 k = i) keys) s r1 s1) as (r1 & s1 & -> & Hsw1).
  { case_decide as Hz.
    - exists [], s. rewrite app_nil_r. split; [done|]. unfold groupKeysByShard in Hz. cbn [gcounts] in Hz.
      rewrite (groupCounts_lookup _ _ _ _ Hi) in Hz. cbn [from_option id] in Hz. unfold countOf in Hz. apply nil_length_inv in Hz.
      rewrite Hz. by apply Swept_nil.
    - rewrite Hks. apply deleteOne_fold; [done|]. intros k [Hk _]%list_elem_of_filter. rewrite <- Hk. by apply shardIndex_shards. }
  pose proof (sw_rest _ _ _ _ Hsw1) as (Hlen1 & _).
  destruct (IH s1 (removed ++ r1) (sw_inv _ _ _ _ Hsw1)) as (r2 & s2 & ks2 & -> & Hsw2 & Hk2); [congruence|done|intros; apply Hids; by right|].
  exists (r1 ++ r2), s2, (filter (λ k, shardIndex s0 k = i) keys ++ ks2). rewrite <- app_assoc. split_and!; [done|by eapply Swept_app|].
  intros k. rewrite elem_of_app, list_elem_of_filter, Hk2, elem_of_cons. tauto.
Qed.
End Sweep.

Lemma DeleteMany_swept (E : Env) keys s : StoreInv s → Swept (readingAt s) keys s (DeleteMany keys s).1 (DeleteMany keys s).2.
Proof.
  intros Hs. destruct (DeleteMany keys s) as [removed s'] eqn:Eq. cbn [fst snd].
  destruct keys as [|k [|k2 keys]]; cbn [DeleteMany] in Eq.
  - injection Eq as <- <-. by apply Swept_nil.
  - unfold Delete, bind, gets, nowMilli, ret in Eq. destruct (lookupKey s k) as [v|] eqn:Ek.
    + destruct (deleteOne_spec (readingAt s) k (tick s) [] (tick_inv s Hs)) as (r & s1 & Hd & [A1 A2 A3 A4 A5]).
      unfold deleteOne in Hd. change (shardAt (tick s) (shardIndex (tick s) k) !! k) with (lookupKey s k) in Hd. rewrite Ek in Hd.
      change (clock (ticks s) / 1000000) with (readingAt s) in Eq.
      destruct (deleteKeyLocked (shardIndex (tick s) k) k (tick s)) as [b s2]. cbn [snd] in Hd.
      destruct (isExpired v (readingAt s)); cbn [negb app] in Eq, Hd; injection Eq as <- <-; injection Hd as <- <-; by split.
    + injection Eq as <- <-. apply Swept_ext with (ks := [k]); [|done]. split; try done; try apply NoDup_nil_2.
      * intros k'. case_decide as Hk; [|done]. apply list_elem_of_singleton in Hk as ->. done.
      * intros k'. rewrite elem_of_nil, list_elem_of_singleton. split; [done|]. intros [-> [x Hx]]. by rewrite Ek in Hx.
  - remember (k :: k2 :: keys) as all. unfold bind, gets, nowMilli in Eq.
    pose proof (si_len _ Hs) as Hpos.
    destruct (deleteGroups_fold (readingAt s) s all (seq 0 (length (gcounts (groupKeysByShard s all)))) (tick s) [] (tick_inv s Hs) eq_refl Hpos)
      as (r & s1 & ks & Heq & Hsw & Hks).
    { intros i Hi. apply elem_of_seq in Hi. unfold groupKeysByShard in Hi. cbn [gcounts] in Hi. rewrite groupCounts_length in Hi. lia. }
    change (clock (ticks s) / 1000000) with (readingAt s) in Eq. rewrite Heq in Eq. cbn [app] in Eq. injection Eq as <- <-.
    eapply Swept_ext with (ks := ks).
    + destruct Hsw as [A1 A2 A3 A4 A5]. by split.
    + intros k'. rewrite Hks, elem_of_seq. unfold groupKeysByShard. cbn [gcounts]. rewrite groupCounts_length.
      pose proof (shardIndex_lt s k' Hpos). split; [tauto|]. intros; split; [done|lia].
Qed.

(** DEL with several keys deletes exactly the keys it is given, across all
    shards, and reports exactly the ones that were live, each once; every other
    key is untouched. *)
Theorem DeleteMany_exact (E : Env) keys s :
  StoreInv s →
  let '(removed, s') := DeleteMany keys s in
  NoDup removed
  ∧ (∀ k, k ∈ removed ↔ k ∈ keys ∧ is_Some (liveValue s k))
  ∧ (∀ k, lookupKey s' k = if decide (k ∈ keys) then None else lookupKey s k).
Proof. intros Hs. destruct (DeleteMany_swept E keys s Hs) as [_ _ H1 H2 H3]. by destruct (DeleteMany keys s). Qed.

Lemma DeleteMany_exact_witness :
  let s := @runOps demoEnv id [OpSet (bs "a") (bs "1") 0; OpSet (bs "bb") (bs "2") 0; OpSet (bs "c") (bs "3") 1001] NewStore in
  (@DeleteMany demoEnv [bs "c"; bs "bb"; bs "zz"; bs "a"; bs "bb"] s).1 = [bs "a"; bs "bb"]
  ∧ NoDup [bs "a"; bs "bb"].
Proof.
  intros s. assert (@StoreInv demoEnv s) as Hs by (apply storeRun_inv; [apply NewStore_inv|repeat constructor]).
  pose proof (DeleteMany_exact demoEnv [bs "c"; bs "bb"; bs "zz"; bs "a"; bs "bb"] s Hs) as H.
  destruct (DeleteMany [bs "c"; bs "bb"; bs "zz"; bs "a"; bs "bb"] s) as [removed s'] eqn:Eq.
  assert (removed = [bs "a"; bs "bb"]) as -> by (apply (f_equal fst) in Eq; cbn [fst] in Eq; rewrite <- Eq; vm_compute; reflexivity).
  split; [reflexivity|]. apply H.
Defined.
