(* ===== verification/StoreFrames.v ===== *)
(** * What an operation leaves alone

    With [maxmemory] off, an operation changes the content of at most the keys it
    answers for: the key of a write that succeeded, the keys DEL reports, nothing
    for a read or for a write that was refused.  A key past its TTL may be dropped
    on the way; that is the only other change, and it is invisible to readers.

    [Foot m f] states it for an operation [m] whose result [a] answers for the
    keys [f a].  The executor uses it to know which watchers a command must
    notify. *)

From S2P Require Import Prelude Strconv GoLib IntSet CompactHash Float64 CompactZSet SkipList Stream.
From S2P Require Import Bitmap HyperLogLog ValueObject ValueFacts ListWaiters Store StoreOps StoreFacts StoreMemory.
From S2P Require Import StoreInvariant StoreTheorems StorePlain.

(** ** Content *)

(** What a client can read of a value: not its encoding, not its access time. *)
Inductive content :=
  | CString (data : bytes)
  | CList (items : list bytes)
  | CHash (fields : gmap bytes bytes)
  | CSet (members : gset bytes)
  | CZSet (scores : gmap bytes float64)
  | CStream (stream : option StreamValue).

Definition contentOf (v : ValueObject) : content * Z :=
  (match Kind v with
   | ValueKindString => CString (vString v)
   | ValueKindList => CList (vList v)
   | ValueKindHash => CHash (hashAbs v)
   | ValueKindSet => CSet (setAbs v)
   | ValueKindZSet => CZSet (zsetAbs v)
   | ValueKindStream => CStream (vStream v)
   end, ExpiresAt v).

Section Frames.
Context {E : Env}.
Implicit Types (s : Store) (K : list bytes).

Lemma expired_content v v' now : contentOf v = contentOf v' → isExpired v now = isExpired v' now.
Proof. intros [= _ H]. unfold isExpired. by rewrite H. Qed.

(** The value was past its TTL at one of the first [n] clock readings. *)
Definition expiredBy (n : nat) (v : ValueObject) : Prop := ∃ i, (i < n)%nat ∧ isExpired v (clock i / 1000000) = true.

Definition sameEntry (n : nat) (o o' : option ValueObject) : Prop :=
  contentOf <$> o' = contentOf <$> o ∨ ∃ v, o = Some v ∧ o' = None ∧ expiredBy n v.

Lemma expiredBy_mono n n' v : (n ≤ n')%nat → expiredBy n v → expiredBy n' v.
Proof. intros Hn (i & Hi & H). exists i. split; [lia|done]. Qed.

Lemma sameEntry_refl n o : sameEntry n o o.
Proof. by left. Qed.

Lemma sameEntry_trans n n' o o' o'' : (n ≤ n')%nat → sameEntry n o o' → sameEntry n' o' o'' → sameEntry n' o o''.
Proof.
  intros Hn [H1|(v & -> & -> & Hx)] [H2|(v' & Ho' & -> & Hx')]; [|subst o'| |done].
  - left. congruence.
  - right. destruct o as [v|]; [|done]. injection H1 as H1 H1'. exists v. split_and!; [done..|].
    destruct Hx' as (i & Hi & Hx). exists i. split; [done|]. rewrite <- Hx. apply expired_content. unfold contentOf. congruence.
  - destruct o''; [done|]. right. exists v. split_and!; [done..|]. by eapply expiredBy_mono.
Qed.

Record Frame K s s' : Prop := {
  fr_max : maxMemory s' = maxMemory s;
  fr_ticks : (ticks s ≤ ticks s')%nat;
  fr_keys : ∀ k, k ∉ K → sameEntry (ticks s') (lookupKey s k) (lookupKey s' k)
}.

Lemma Frame_refl s : Frame [] s s.
Proof. split; [done|lia|]. intros k _. apply sameEntry_refl. Qed.

Lemma Frame_trans K K' s s1 s2 : Frame K s s1 → Frame K' s1 s2 → Frame (K ++ K') s s2.
Proof.
  intros [A1 A2 A3] [B1 B2 B3]. split; [congruence|lia|]. intros k Hk. rewrite elem_of_app in Hk.
  eapply sameEntry_trans; [exact B2|apply A3; tauto|apply B3; tauto].
Qed.

Lemma Frame_sub K K' s s' : K ⊆ K' → Frame K s s' → Frame K' s s'.
Proof. intros H [A1 A2 A3]. split; try done. intros k Hk. apply A3. set_solver. Qed.

(** ** The judgement *)

(** The store is well-formed and differs from [s0] in the content of [K] alone. *)
Record From s0 K s : Prop := { fm_inv : StoreInv s; fm_plain : maxMemoryEnabled s = false; fm_frame : Frame K s0 s }.

Definition Foot {A} (m : M A) (f : A → list bytes) : Prop := ∀ s0, triple (From s0 []) m (λ a, From s0 (f a)).

(** What a write that returns [r] answers for. *)
Definition answersFor {X A} (key : bytes) (r : result X A) : list bytes := match r with Ok _ => [key] | Err _ => [] end.

Lemma Foot_run {A} (m : M A) f s :
  Foot m f → StoreInv s → maxMemoryEnabled s = false → From s (f (m s).1) (m s).2.
Proof.
  intros H Hs Hp. specialize (H s s). destruct (m s) as [a s']. apply H. split; [done|done|apply Frame_refl].
Qed.

Lemma triple_frame {A} (m : M A) f s0 K : Foot m f → triple (From s0 K) m (λ a, From s0 (K ++ f a)).
Proof.
  intros H s [Hs Hp Hf]. pose proof (Foot_run m f s H Hs Hp) as [H1 H2 H3]. destruct (m s) as [a s']. split; [done|done|].
  by eapply Frame_trans.
Qed.

Lemma From_sub s0 K K' s : K ⊆ K' → From s0 K s → From s0 K' s.
Proof. intros H [A1 A2 A3]. split; try done. by eapply Frame_sub. Qed.

Lemma From_more s0 K s : From s0 [] s → From s0 K s.
Proof. apply From_sub. intros x []%elem_of_nil. Qed.

(** A step that changes the listed keys at most, seen from [s0]. *)
Lemma From_step s0 K s s' :
  From s0 K s → StoreInv s' → maxMemory s' = maxMemory s → (ticks s ≤ ticks s')%nat →
  (∀ k, k ∉ K → sameEntry (ticks s') (lookupKey s k) (lookupKey s' k)) → From s0 K s'.
Proof.
  intros [A1 A2 [B1 B2 B3]] Hi Hm Ht Hk. split; [done|unfold maxMemoryEnabled in *; by rewrite Hm|]. split; [congruence|lia|].
  intros k Hn. eapply sameEntry_trans; [exact Ht|by apply B3|by apply Hk].
Qed.

(** ** Primitive steps *)

Definition reading s (now : Z) : Prop := ∃ i, (i < ticks s)%nat ∧ now = clock i / 1000000.

Lemma From_tick s0 K s : From s0 K s → From s0 K (tick s) ∧ reading (tick s) (clock (ticks s) / 1000000).
Proof.
  intros H. split; [|exists (ticks s); split; [cbn; lia|done]]. eapply From_step; [exact H|apply tick_inv, H|done|cbn; lia|].
  intros k _. apply sameEntry_refl.
Qed.

Lemma triple_now s0 K : triple (From s0 K) nowMilli (λ now s, From s0 K s ∧ reading s now).
Proof. intros s H. cbn. by apply From_tick. Qed.

Lemma triple_nowNano s0 K : triple (From s0 K) nowNano (λ _, From s0 K).
Proof. intros s H. cbn. by apply From_tick. Qed.

Lemma ticks_adjust o d s : ticks (adjustKeyKindCount o d s) = ticks s.
Proof. unfold adjustKeyKindCount. destruct o; [|done]. by destruct (keyStatsKindIndex _). Qed.

Lemma ticks_remove i k s : ticks (removeKeyLocked i k s) = ticks s.
Proof. unfold removeKeyLocked. cbn zeta. cbn [putShard setShards ticks]. apply ticks_adjust. Qed.

Lemma ticks_delete i k s : ticks (deleteKeyLocked i k s).2 = ticks s.
Proof.
  unfold deleteKeyLocked, deleteKeyWithSizeLocked. destruct (shardAt s i !! k); [|done]. cbn [snd]. rewrite ticks_remove.
  by destruct (maxMemoryEnabled s).
Qed.

Lemma From_set s0 K key v s : From s0 K s → GoodValue v → key ∈ K → From s0 K (setKeyLocked (shardIndex s key) key v s).
Proof.
  intros H Hg Hk. pose proof (setKeyLocked_spec key v s (fm_inv _ _ _ H) Hg) as [U1 (_ & U2 & _) _ U4 _ _].
  eapply From_step; [exact H|done|done|by rewrite setKeyLocked_ticks|]. intros k Hn. rewrite U4, decide_False by (by intros ->). by left.
Qed.

(** Deleting a key one answers for, or one past its TTL. *)
Lemma From_delete s0 K key s :
  From s0 K s → (key ∈ K ∨ ∀ v, lookupKey s key = Some v → expiredBy (ticks s) v) →
  From s0 K (deleteKeyLocked (shardIndex s key) key s).2.
Proof.
  intros H Hk. destruct (lookupKey s key) as [v|] eqn:Ek; [|by rewrite deleteKeyLocked_None].
  pose proof (ticks_delete (shardIndex s key) key s) as Ht.
  destruct (deleteKeyLocked_Some key s v (fm_inv _ _ _ H) Ek) as (s' & Heq & [D1 (_ & D2 & _) _ D4 _ _]). rewrite Heq in Ht |- *. cbn [snd] in *.
  eapply From_step; [exact H|done|done|by rewrite Ht|]. intros k Hn. rewrite D4. case_decide as Hd; [|apply sameEntry_refl]. subst k.
  destruct Hk as [?|Hk]; [done|]. right. exists v. split_and!; [done..|]. rewrite Ht. by apply Hk.
Qed.

Lemma From_update s0 K key v v' s :
  From s0 K s → lookupKey s key = Some v → Kind v' = Kind v → GoodValue v' → (key ∈ K ∨ contentOf v' = contentOf v) →
  From s0 K (updateInPlace key v' s).
Proof.
  intros H Hl Hkind Hg Hk. pose proof (updateInPlace_spec key v' v s (fm_inv _ _ _ H) Hl Hkind Hg) as [U1 (_ & U2 & _) _ U4 _ _].
  eapply From_step; [exact H|done|done|done|]. intros k Hn. rewrite U4. case_decide as Hd; [|apply sameEntry_refl]. subst k.
  destruct Hk as [?|Hk]; [done|]. left. rewrite Hl. cbn. by rewrite Hk.
Qed.

Lemma expired_reading s v now : reading s now → isExpired v now = true → expiredBy (ticks s) v.
Proof. intros (i & Hi & ->) H. by exists i. Qed.

Lemma From_waiters s0 K w s : From s0 K s → WaitersWf w → From s0 K (setWaiters w s).
Proof.
  intros H Hw. eapply From_step; [exact H| |done|done|intros; apply sameEntry_refl].
  eapply StoreInv_frame; [apply H|done|done|done].
Qed.

(** ** Reading *)

Lemma Foot_ret {A} (a : A) : Foot (ret a) (λ _, []).
Proof. intros s0 s H. exact H. Qed.

Lemma Foot_gets {A} (g : Store → A) : Foot (gets g) (λ _, []).
Proof. intros s0 s H. exact H. Qed.

Lemma Foot_bindR {A B} (m : M (result storeError A)) (k : A → M (result storeError B)) f (g : result storeError B → list bytes) :
  Foot m f → (∀ e, f (Err e) ⊆ g (Err e)) → (∀ a s0, triple (From s0 (f (Ok a))) (k a) (λ b, From s0 (g b))) → Foot (bindR m k) g.
Proof.
  intros Hm He Hk s0. eapply triple_bind; [apply Hm|]. intros [a|e]; [apply Hk|]. intros s H. cbn. eapply From_sub; [apply He|exact H].
Qed.

(** Renaming the result of a call. *)
Lemma Foot_map {A B} (m : M (result storeError A)) (h : A → result storeError B) f g :
  Foot m f → (∀ e, f (Err e) ⊆ g (Err e)) → (∀ a, f (Ok a) ⊆ g (h a)) → Foot (bindR m (λ a, ret (h a))) g.
Proof. intros Hm He Ha. eapply Foot_bindR; [exact Hm|exact He|]. intros a s0 s H. cbn. eapply From_sub; [apply Ha|exact H]. Qed.

Lemma Foot_readKey {T} key (fn : ValueObject → result storeError T) : Foot (readKey key fn) (λ _, []).
Proof.
  intros s0. unfold readKey. eapply triple_bind; [apply triple_now|]. intros now. eapply triple_bind; [apply triple_gets|].
  intros [v|]; [|by intros s [[H _] _]]. destruct (isExpired v now) eqn:Ex.
  - intros s [[H _] Ek]. cbn. destruct (From_tick s0 [] s H) as [H1 Hr1]. unfold dropIfStillExpired, bind, gets, nowMilli, ret, modify.
    rewrite <- Ek. destruct (isExpired v (clock (ticks s) / 1000000)) eqn:Ex1; cbn [snd]; [|done].
    apply From_delete; [done|]. right. intros v' Hv'. change (lookupKey (tick s) key) with (lookupKey s key) in Hv'. rewrite <- Ek in Hv'.
    injection Hv' as <-. by eapply expired_reading.
  - destruct (fn v); [|by intros s [[H _] _]]. intros s [[H _] Ek]. cbn. symmetry in Ek.
    eapply From_update; [done|exact Ek|done| |by right]. apply touch_good. by eapply lookup_good; [apply H|].
Qed.

(** ** Writes *)

Lemma triple_prepare s0 key now :
  triple (λ s, From s0 [] s ∧ reading s now) (prepareExistingValueLocked key now) (λ o s, From s0 [] s ∧ lookupKey s key = o).
Proof.
  intros s [H Hr]. unfold prepareExistingValueLocked. destruct (lookupKey s key) as [v|] eqn:Ek; [|done].
  destruct (isExpired v now) eqn:Ex; [|done]. cbn [fst snd]. split.
  - apply From_delete; [done|]. right. intros v' Hv'. rewrite Ek in Hv'. injection Hv' as <-. by eapply expired_reading.
  - destruct (deleteKeyLocked_Some key s v (fm_inv _ _ _ H) Ek) as (s' & -> & [_ _ _ D4 _ _]). cbn. rewrite D4. by rewrite decide_True.
Qed.

Lemma Foot_writeKey {T} key (fn : keyWrite → M (result storeError (T * list bytes))) :
  (∀ w s0, wkey w = key → waccounting w = false →
     triple (λ s, From s0 [] s ∧ lookupKey s key = wcurrent w) (fn w) (λ r, From s0 (answersFor key r))) →
  Foot (writeKey key fn) (answersFor key).
Proof.
  intros Hfn s0. unfold writeKey. eapply triple_bind; [apply triple_now|]. intros now. eapply triple_bind; [apply triple_gets|].
  intros [|]; [intros s [[H _] Ha]; by rewrite (fm_plain _ _ _ H) in Ha|].
  eapply triple_bind; [eapply triple_weaken; [apply (triple_prepare s0 key now)|by intros s [? _]|by intros ?]|]. intros o.
  eapply triple_bind; [exact (Hfn (mkKeyWrite key o now false) s0 eq_refl eq_refl)|]. intros r s H. exact H.
Qed.

Lemma triple_commit s0 key w v :
  wkey w = key → waccounting w = false → GoodValue v →
  triple (From s0 []) (commit w v) (λ r s, r = Ok [] ∧ From s0 [key] s).
Proof.
  intros Hk Ha Hg s H. unfold commit. rewrite Ha, Hk. cbn. split; [done|]. apply From_set; [by apply From_more|done|by left].
Qed.

(** The end of a write: commit a value and answer [Ok]. *)
Lemma triple_commit_ret {T} s0 key w v (a : T) :
  wkey w = key → waccounting w = false → GoodValue v →
  triple (From s0 []) (let!? evicted := commit w v in ret (Ok (a, evicted))) (λ r, From s0 (answersFor key r)).
Proof.
  intros Hk Ha Hg. eapply triple_bind; [by apply triple_commit|]. intros r s [-> H]. exact H.
Qed.

Lemma triple_inplace {T} s0 key w v v' (a : T) :
  wkey w = key → Kind v' = Kind v → GoodValue v' →
  triple (λ s, From s0 [] s ∧ lookupKey s key = Some v) (modify (updateInPlace (wkey w) v');; ret (Ok (E := storeError) a)) (λ r, From s0 (answersFor key r)).
Proof.
  intros Hk Hkind Hg s [H Hl]. cbn. rewrite Hk. eapply From_update; [by apply From_more|done|done|done|left; by left].
Qed.

Lemma triple_pre {A} (P P' : Store → Prop) (m : M A) Q : (∀ s, P' s → P s) → triple P m Q → triple P' m Q.
Proof. intros H Hm s Hs. apply Hm. by apply H. Qed.

(** A write that reads the clock once more and commits. *)
Lemma triple_stamp_commit {T} s0 key w (mk : Z → ValueObject) (a : T) :
  wkey w = key → waccounting w = false → (∀ stamp, GoodValue (mk stamp)) →
  triple (From s0 []) (let! stamp := nowMilli in let!? evicted := commit w (mk stamp) in ret (Ok (a, evicted))) (λ r, From s0 (answersFor key r)).
Proof.
  intros Hk Ha Hg. eapply triple_bind; [apply triple_now|]. intros stamp. eapply triple_pre; [intros s [H _]; exact H|].
  by apply triple_commit_ret.
Qed.

Lemma triple_err {T} s0 key e (P : Store → Prop) :
  (∀ s, P s → From s0 [] s) → triple P (ret (Err (A := T) e)) (λ r, From s0 (answersFor (X := storeError) key r)).
Proof. intros H s Hs. by apply H. Qed.
End Frames.

Create HintDb foot.
#[export] Hint Resolve Foot_ret Foot_gets Foot_readKey GoodString : foot.

(** ** The operations of the store *)

Section Operations.
Context {E : Env}.
Implicit Types (s : Store).

Lemma Foot_Set key value e : Foot (Set_ key value e) (answersFor key).
Proof.
  unfold Set_. eapply (Foot_bindR _ _ (answersFor key)); [|done|intros [] s0 s H; exact H]. apply Foot_writeKey. intros w s0 Hk Ha.
  eapply triple_pre; [by intros s [H _]|]. apply triple_stamp_commit; [done|done|]. intros. by apply GoodString.
Qed.

Lemma Foot_Increment key : Foot (Increment key) (answersFor key).
Proof.
  unfold Increment. apply Foot_writeKey. intros w s0 Hk Ha. destruct (wcurrent w) as [current|] eqn:Ec.
  - unfold value_StringValue, ofKind. case_decide as Hs; [|apply triple_err; by intros s [? _]].
    destruct (ParseInt _); [|apply triple_err; by intros s [? _]]. destruct (_ =? _); [apply triple_err; by intros s [? _]|]. cbn zeta.
    rewrite Ha. cbn [negb]. apply triple_inplace; [done|done|]. by apply GoodString.
  - eapply triple_pre; [by intros s [H _]|]. apply triple_stamp_commit; [done|done|]. intros. by apply GoodString.
Qed.

Lemma Foot_pushList key values lft : Foot (pushList key values lft) (answersFor key).
Proof.
  unfold pushList. destruct (zlen values =? 0) eqn:El; [intros s0 s H; exact H|]. bool_to_prop.
  eapply (Foot_bindR _ _ (answersFor key)); [|done|].
  - apply Foot_writeKey. intros w s0 Hk Ha. eapply triple_pre; [by intros s [H _]|].
    destruct (match wcurrent w with Some _ => _ | None => _ end) as [[l e]|]; [|by intros s H]. cbn zeta.
    apply triple_stamp_commit; [done|done|]. intros stamp. split; [done|]. cbn [Kind newListValue setList zeroValue vList].
    unfold pushed. destruct values as [|x values]; [done|]. destruct lft; cbn [rev]; intros H; apply (f_equal length) in H;
      rewrite ?length_app in H; cbn in H; lia.
  - intros [len ev] s0 s H. cbn. apply From_waiters; [done|]. apply notifyOne_wf, H.
Qed.

(** *** Pops *)

(** The live value a removal starts from. *)
Lemma triple_liveForUpdate s0 key :
  triple (From s0 []) (liveForUpdate key) (λ o s, From s0 [] s ∧ ∀ v, o = Some v → lookupKey s key = Some v).
Proof.
  intros s H. unfold liveForUpdate. destruct (lookupKey s key) as [v|] eqn:Ek; [|done]. unfold nowMilli.
  destruct (From_tick s0 [] s H) as [H1 Hr]. destruct (isExpired v _) eqn:Ex; cbn [fst snd].
  - split; [|done]. apply From_delete; [done|]. right. intros v' Hv'. change (lookupKey (tick s) key) with (lookupKey s key) in Hv'.
    rewrite Ek in Hv'. injection Hv' as <-. by eapply expired_reading.
  - split; [done|]. by intros ? [= <-].
Qed.

Lemma From_shrink s0 K key v v' empty s :
  From s0 K s → lookupKey s key = Some v → Kind v' = Kind v → (empty = false → GoodValue v') →
  (key ∈ K ∨ empty = false ∧ contentOf v' = contentOf v) →
  From s0 K (finishShrink key v v' empty s).2.
Proof.
  intros H Hl Hkind Hg Hk. destruct empty.
  - rewrite finishShrink_empty by (done || apply H). rewrite (fm_plain _ _ _ H).
    assert ((deleteKeyWithSizeLocked (shardIndex s key) key 0 s).2 = (deleteKeyLocked (shardIndex s key) key s).2) as ->.
    { unfold deleteKeyLocked, deleteKeyWithSizeLocked. rewrite (fm_plain _ _ _ H). by destruct (shardAt _ _ !! key). }
    apply From_delete; [done|]. left. by destruct Hk as [?|[? _]].
  - unfold finishShrink. cbn zeta. cbn [snd]. rewrite (fm_plain _ _ _ H). eapply From_update; [done|done|done|by apply Hg|]. tauto.
Qed.

Definition poppedFor {T} (some : T → bool) (key : bytes) (r : result storeError (option T)) : list bytes :=
  match r with Ok (Some item) => if some item then [key] else [] | _ => [] end.

(** [some item] tells whether something was taken out. *)
Lemma Foot_popWith {T} key (take_ : list bytes → T * list bytes) some :
  (∀ l, some (take_ l).1 = false → (take_ l).2 = l) → Foot (popWith key take_) (poppedFor some key).
Proof.
  intros Ht s0. unfold popWith. eapply triple_bind; [apply triple_liveForUpdate|]. intros [v|]; [|by intros s [H _]].
  unfold value_ListValue, ofKind. case_decide as Hk; [|by intros s [H _]]. destruct (Z.eqb_spec (zlen (vList v)) 0) as [Hz|Hz].
  { intros s [H Hl]. specialize (Hl v eq_refl). destruct (lookup_good _ _ _ (fm_inv _ _ _ H) Hl) as [_ Hg]. rewrite Hk in Hg.
    by destruct (vList v). }
  specialize (Ht (vList v)). destruct (take_ (vList v)) as [item rest]. cbn [fst snd] in Ht.
  eapply (triple_bind _ _ _ (λ _ s, From s0 [] s ∧ lookupKey s key = Some v)).
  { intros s [H Hl]. split; [by apply From_tick|exact (Hl v eq_refl)]. }
  intros stamp s [H Hl]. unfold bind.
  pose proof (From_shrink s0 (poppedFor some key (Ok (Some item))) key v (touch (setList v rest) stamp) (zlen rest =? 0) s
    (From_more _ _ _ H) Hl eq_refl) as Hf. destruct (finishShrink _ _ _ _ s) as [[] s2]. cbn [fst snd ret] in *. apply Hf.
  - intros Hr. bool_to_prop. unfold GoodValue, ValueWf. cbn [Kind touch setList vList]. rewrite Hk. split; [done|]. by destruct rest.
  - cbn [poppedFor]. destruct (some item); [left; by left|]. right. rewrite (Ht eq_refl). split; [by apply Z.eqb_neq|].
    unfold contentOf. cbn [Kind touch setList vList ExpiresAt]. by rewrite Hk.
Qed.

Definition poppedOne : bytes → bool := λ _, true.
Definition poppedMany (count : Z) (items : list bytes) : bool := (0 <? count) && (0 <? zlen items).

Lemma Foot_LeftPop key : Foot (LeftPop key) (poppedFor poppedOne key).
Proof. by apply Foot_popWith. Qed.
Lemma Foot_RightPop key : Foot (RightPop key) (poppedFor poppedOne key).
Proof. by apply Foot_popWith. Qed.

Lemma Foot_popN key count lft : Foot (popN key count lft) (poppedFor (poppedMany count) key).
Proof.
  unfold popN. destruct (count <? 0) eqn:Ec; [apply Foot_ret|]. apply Foot_popWith. intros l. cbn zeta.
  set (n := if count <? zlen l then count else zlen l). assert (0 ≤ n ≤ zlen l) as Hn.
  { pose proof (zlen_nonneg l). bool_to_prop. unfold n. destruct (Z.ltb_spec count (zlen l)); lia. }
  assert (∀ items : list bytes, zlen items = n → poppedMany count items = false → n = 0) as H0.
  { intros items Hi Hz. unfold poppedMany in Hz. apply andb_false_iff in Hz as [Hz|Hz]; apply Z.ltb_ge in Hz; [|lia].
    bool_to_prop. unfold n. destruct (Z.ltb_spec count (zlen l)); [lia|]. pose proof (zlen_nonneg l). lia. }
  destruct lft; cbn [fst snd]; intros Hz; apply H0 in Hz.
  - by rewrite Hz.
  - unfold ztake, zlen. rewrite length_take. unfold zlen in Hn. lia.
  - rewrite Hz. unfold ztake, zlen. rewrite Z.sub_0_r, Nat2Z.id. apply firstn_all.
  - unfold zlen. rewrite length_fmap, length_seq. lia.
Qed.

(** *** Removals *)

Definition removedFor (key : bytes) (r : result storeError Z) : list bytes :=
  match r with Ok n => if 0 <? n then [key] else [] | Err _ => [] end.

Lemma Foot_removeFrom key remove len second :
  (∀ v v' n stamp, GoodValue v → remove v = (v', Ok n) →
     ∃ m, len (touch v' stamp) = Ok m ∧ Kind v' = Kind v ∧ (m ≠ 0 → GoodValue v')
       ∧ (n ≤ 0 → m ≠ 0 ∧ contentOf v' = contentOf v)) →
  Foot (removeFrom key remove len second) (removedFor key).
Proof.
  intros Hrem s0 s H. unfold removeFrom. destruct (lookupKey s key) as [v|] eqn:Ek; [|destruct second; [done|by apply From_tick]].
  unfold nowMilli at 1 3. destruct (From_tick s0 [] s H) as [H1 Hr1]. destruct (isExpired v _) eqn:Ex.
  { apply From_delete; [done|]. right. intros v' Hv'. change (lookupKey (tick s) key) with (lookupKey s key) in Hv'.
    rewrite Ek in Hv'. injection Hv' as <-. by eapply expired_reading. }
  destruct (remove v) as [v' [n|e]] eqn:Er; [|done].
  assert (∃ stamp s1, (if second then nowMilli else ret (clock (ticks s) / 1000000)) (tick s) = (stamp, s1) ∧ From s0 [] s1 ∧ lookupKey s1 key = Some v) as (stamp & s1 & -> & H2 & Hl1).
  { destruct second; (eexists _, _; split; [reflexivity|]); [split; [by apply From_tick|done]|done]. }
  cbn zeta. destruct (Hrem v v' n stamp (lookup_good _ _ _ (fm_inv _ _ _ H) Ek) Er) as (m & -> & Hk & Hg & Hsame).
  pose proof (From_shrink s0 (removedFor key (Ok n)) key v (touch v' stamp) (m =? 0) s1 (From_more _ _ _ H2) Hl1 Hk) as Hf.
  destruct (finishShrink key v (touch v' stamp) (m =? 0) s1) as [u s2]. apply Hf.
  - intros Hm. bool_to_prop. by apply touch_good, Hg.
  - unfold removedFor. destruct (Z.ltb_spec 0 n) as [Hn|Hn]; [left; by left|]. right. destruct (Hsame Hn) as [Hm Hc].
    split; [by apply Z.eqb_neq|]. by rewrite <- Hc.
Qed.

Lemma hashDrop_sub fields : ∀ m : gmap bytes bytes, hashDrop m fields ⊆ m.
Proof.
  induction fields as [|f fields IH]; intros m; cbn; [done|]. etransitivity; [apply IH|apply delete_subseteq].
Qed.

Lemma Foot_HDel key fields : Foot (HDel key fields) (removedFor key).
Proof.
  unfold HDel. destruct (zlen fields =? 0); [apply Foot_ret|]. apply Foot_removeFrom. intros v v' n stamp Hg Hd.
  assert (Kind v = ValueKindHash) as Hk by (unfold hashDel in Hd; case_bool_decide; [done|by injection Hd]).
  destruct (GoodHash_inv _ Hg Hk) as [Hw Hne]. destruct (hashDel_spec v fields Hk Hw) as (v1 & Hv1 & Ha1 & Hw1 & Hk1 & He1 & _).
  rewrite Hv1 in Hd. injection Hd as <- <-. exists (msize (hashAbs v1)). split_and!.
  - change (hashAbs v1) with (hashAbs (touch v1 stamp)). by apply hashLen_spec.
  - by rewrite Hk, Hk1.
  - intros Hn. apply GoodHash; [done|done|]. by intros He; rewrite He in Hn.
  - intros Hn. assert (hashAbs v1 = hashAbs v) as Hsame.
    { pose proof (hashDrop_sub fields (hashAbs v)) as Hsub. rewrite <- Ha1 in Hsub. unfold msize in Hn. apply map_subseteq_size_eq; [done|lia]. }
    split; [|unfold contentOf; by rewrite Hk, Hk1, Hsame, He1]. rewrite Hsame. unfold msize.
    intros Hz. apply Hne, map_size_empty_inv. lia.
Qed.

Lemma Foot_SRem key members : Foot (SRem key members) (removedFor key).
Proof.
  unfold SRem. destruct (zlen members =? 0); [apply Foot_ret|]. apply Foot_removeFrom. intros v v' n stamp Hg Hd.
  assert (Kind v = ValueKindSet) as Hk by (unfold setRemove in Hd; case_bool_decide; [done|by injection Hd]).
  destruct (GoodSet_inv _ Hg Hk) as [Hw Hne]. destruct (setRemove_spec v members Hk Hw) as (v1 & Hv1 & Ha1 & Hw1 & Hk1 & He1 & _).
  rewrite Hv1 in Hd. injection Hd as <- <-. exists (ssize (setAbs v1)). split_and!.
  - change (setAbs v1) with (setAbs (touch v1 stamp)). by apply setLen_spec.
  - by rewrite Hk, Hk1.
  - intros Hn. apply GoodSet; [done|done|]. intros He. rewrite He in Hn. by apply Hn.
  - intros Hn. assert (setAbs v1 = setAbs v) as Hsame.
    { unfold ssize in Hn. apply set_subseteq_size_eq; [rewrite Ha1; set_solver|lia]. }
    split; [|unfold contentOf; by rewrite Hk, Hk1, Hsame, He1]. rewrite Hsame. unfold ssize.
    intros Hz. apply Hne. apply leibniz_equiv, size_empty_iff. lia.
Qed.

(** *** Additions *)

Lemma Foot_addTo key clone add fresh len :
  (∀ v v' n, GoodValue v → add v = (v', Ok n) → GoodValue v') → (∀ stamp, GoodValue (fresh stamp)) →
  Foot (addTo key clone add fresh len) (answersFor key).
Proof.
  intros Hadd Hfresh. unfold addTo. apply Foot_writeKey. intros w s0 Hk Ha.
  eapply (triple_bind _ _ _ (λ r s, From s0 [] s ∧ match r with Ok (v, _) => GoodValue v | Err _ => True end)).
  - rewrite Ha. intros s [H Hl]. destruct (wcurrent w) as [current|] eqn:Ec.
    + cbn. assert (GoodValue current) as Hg by (by eapply lookup_good; [apply H|]). destruct (add current) as [v' added] eqn:Ead. cbn.
      split; [done|]. destruct added; cbn; [|done]. by eapply Hadd.
    + cbn. split; [by apply From_tick|]. destruct (len _); cbn; [apply Hfresh|done].
  - intros [[v n]|e]; [|by intros s [H _]]. intros s [H Hv]. revert s H. cbn zeta. apply triple_commit_ret; [done|done|by apply touch_good].
Qed.

Lemma Foot_HSet key pairs : Foot (HSet key pairs) (answersFor key).
Proof.
  unfold HSet. destruct (Z.eqb_spec (zlen pairs) 0) as [|Hne]; [by intros s0 s H|]. apply zlen_nil_inv in Hne.
  apply Foot_addTo; [by apply hashSet_good|by intros; apply newHash_good].
Qed.

Lemma Foot_SAdd key members : Foot (SAdd key members) (answersFor key).
Proof.
  unfold SAdd. destruct (Z.eqb_spec (zlen members) 0) as [|Hne]; [by intros s0 s H|]. apply zlen_nil_inv in Hne.
  apply Foot_addTo; [by apply setAdd_good|by intros; apply newSet_good].
Qed.

Lemma Foot_ZAdd key zs : Forall scoreOk zs → Foot (ZAdd key zs) (answersFor key).
Proof.
  intros Hok. unfold ZAdd. destruct (Z.eqb_spec (zlen zs) 0) as [|Hne]; [by intros s0 s H|]. apply zlen_nil_inv in Hne.
  apply Foot_addTo; [by intros; eapply zsetAdd_good|by intros; apply newZSet_good].
Qed.

Lemma Foot_XAdd key id values : Foot (XAdd key id values) (answersFor key).
Proof.
  unfold XAdd. destruct (_ || _); [by intros s0 s H|]. apply Foot_writeKey. intros w s0 Hk Ha. eapply triple_pre; [by intros s [H _]|].
  destruct (match wcurrent w with Some _ => _ | None => _ end) as [[st e]|]; [|by intros s H].
  destruct (Stream_add _ _ _ _) as [[st' rid]|]; [|by intros s H]. cbn zeta.
  apply (triple_stamp_commit s0 key w (λ stamp, touch (newStreamValue stamp st' e) (wnow w))); [done|done|].
  intros stamp. split; [|done]. by exists st'.
Qed.

Lemma triple_commitString {T} s0 key w len e fill (a : T) :
  wkey w = key → waccounting w = false →
  triple (From s0 []) (let!? evicted := commitString w len e fill in ret (Ok (a, evicted))) (λ r, From s0 (answersFor key r)).
Proof.
  intros Hk Ha. unfold commitString. rewrite Ha. intros s H. destruct (From_tick s0 [] s H) as [H1 _]. unfold bindR, bind, nowMilli.
  match goal with |- context [commit w ?v] => pose proof (triple_commit s0 key w v Hk Ha (GoodString v eq_refl) (tick s) H1) as Hc end.
  destruct (commit w _ (tick s)) as [r s2]. cbn [fst snd] in Hc. destruct Hc as [-> Hc]. exact Hc.
Qed.

Lemma Foot_SetBit key offset bit : Foot (SetBit key offset bit) (answersFor key).
Proof.
  unfold SetBit. destruct (negb _); [by intros s0 s H|]. apply Foot_writeKey. intros w s0 Hk Ha.
  destruct (match wcurrent w with Some _ => _ | None => _ end) as [[data e]|] eqn:Ed; [|apply triple_err; by intros s [? _]]. cbn zeta.
  destruct (wcurrent w) as [current|] eqn:Ec.
  2: { eapply triple_pre; [by intros s [H _]|]. by apply triple_commitString. }
  destruct (_ && _); [|eapply triple_pre; [by intros s [H _]|]; by apply triple_commitString].
  apply triple_inplace; [done|done|]. apply GoodString. unfold value_StringValue, ofKind in Ed. by case_decide.
Qed.

Lemma Foot_PFAdd key elements : Foot (PFAdd key elements) (answersFor key).
Proof.
  unfold PFAdd. apply Foot_writeKey. intros w s0 Hk Ha. destruct (wcurrent w) as [current|] eqn:Ec.
  - unfold value_StringValue, ofKind. case_decide as Hs; [|apply triple_err; by intros s [? _]].
    destruct (hyperLogLogRegisters _); [|apply triple_err; by intros s [? _]]. destruct (updatePayload _ _) as [data' changed].
    apply triple_inplace; [done|done|]. by apply GoodString.
  - cbn zeta. eapply triple_pre; [by intros s [H _]|].
    apply (triple_stamp_commit s0 key w (λ stamp, touch (newOwnedStringValue stamp (updatePayload newHyperLogLogPayload elements).1 0) (wnow w))); [done|done|].
    intros. by apply GoodString.
Qed.

(** *** Deletions *)

Lemma Foot_Delete key : Foot (Delete key) (λ ok : bool, if ok then [key] else []).
Proof.
  intros s0. unfold Delete. eapply triple_bind; [apply triple_gets|]. intros [v|]; [|by intros s [H _]].
  intros s [H Hl]. symmetry in Hl. destruct (From_tick s0 [] s H) as [H1 Hr]. unfold bind, nowMilli, ret.
  pose proof (From_delete s0 (if negb (isExpired v (clock (ticks s) / 1000000)) then [key] else []) key (tick s) (From_more _ _ _ H1)) as Hd.
  destruct (deleteKeyLocked _ key (tick s)) as [b s2]. cbn [fst snd] in *. apply Hd.
  destruct (isExpired v _) eqn:Ex; cbn [negb]; [right|left; by left]. intros v' Hv'.
  change (lookupKey (tick s) key) with (lookupKey s key) in Hv'. rewrite Hl in Hv'. injection Hv' as <-. by eapply expired_reading.
Qed.

(** Deleting [ks] one after the other, at a clock reading: a key that is not
    reported was past its TTL. *)
Lemma From_deleteOne s0 i now ks : ∀ removed s,
  From s0 removed s → reading s now →
  From s0 (foldl (deleteOne now i) (removed, s) ks).1 (foldl (deleteOne now i) (removed, s) ks).2
  ∧ reading (foldl (deleteOne now i) (removed, s) ks).2 now.
Proof.
  induction ks as [|k ks IH]; intros removed s H Hr; [done|]. cbn [foldl]. unfold deleteOne at 2 4 6.
  destruct (shardAt s i !! k) as [v|] eqn:Ek; [|by apply IH].
  assert (i = shardIndex s k) as -> by (apply (si_place _ (fm_inv _ _ _ H)); eauto).
  assert (reading (deleteKeyLocked (shardIndex s k) k s).2 now) as Hr'.
  { destruct Hr as (j & Hj & ->). exists j. by rewrite ticks_delete. }
  destruct (isExpired v now) eqn:Ex; apply IH; try done.
  - apply From_delete; [done|]. right. intros v' Hv'. change (shardAt s (shardIndex s k) !! k) with (lookupKey s k) in Ek. rewrite Ek in Hv'.
    injection Hv' as <-. by eapply expired_reading.
  - apply From_delete; [eapply From_sub; [|exact H]; set_solver|]. left. set_solver.
Qed.

Lemma Foot_DeleteMany keys : Foot (DeleteMany keys) (λ ks, ks).
Proof.
  unfold DeleteMany. destruct keys as [|k [|k2 keys]]; [apply Foot_ret| |].
  - intros s0. eapply triple_bind; [apply Foot_Delete|]. intros [] s H; exact H.
  - intros s0. eapply triple_bind; [apply triple_gets|]. intros g. eapply triple_bind.
    { eapply triple_weaken; [apply (triple_now s0 [])|by intros s [? _]|by intros ? ? ?]. }
    intros now s [H Hr]. generalize (seq 0 (length (gcounts g))). intros ids. revert H Hr. generalize (@nil bytes) as removed. revert s.
    induction ids as [|i ids IH]; intros s removed H Hr; [done|]. cbn [foldl].
    destruct (decide (default O (gcounts g !! i) = O)); [by apply IH|].
    destruct (From_deleteOne s0 i now (keysForShard g i) removed s H Hr) as [H1 H2].
    destruct (foldl (deleteOne now i) (removed, s) (keysForShard g i)) as [removed' s']. by apply IH.
Qed.

(** *** Reads *)

Ltac foot_read :=
  first [ apply Foot_ret | apply Foot_readKey
        | eapply (Foot_map _ _ (λ _, [])); [foot_read|done|done] ].

Lemma Foot_Get key : Foot (Get key) (λ _, []).
Proof. unfold Get, withStringValue. foot_read. Qed.
Lemma Foot_GetBit key offset : Foot (GetBit key offset) (λ _, []).
Proof. unfold GetBit. destruct (negb _); foot_read. Qed.
Lemma Foot_BitCount key start end_ : Foot (BitCount key start end_) (λ _, []).
Proof. unfold BitCount. foot_read. Qed.
Lemma Foot_ListRange key start stop : Foot (ListRange key start stop) (λ _, []).
Proof. unfold ListRange. foot_read. Qed.
Lemma Foot_HGet key field : Foot (HGet key field) (λ _, []).
Proof. unfold HGet. foot_read. Qed.
Lemma Foot_HGetAll key : Foot (HGetAll key) (λ _, []).
Proof. unfold HGetAll. foot_read. Qed.
Lemma Foot_SIsMember key member : Foot (SIsMember key member) (λ _, []).
Proof. unfold SIsMember. foot_read. Qed.
Lemma Foot_SMembers key : Foot (SMembers key) (λ _, []).
Proof. unfold SMembers. foot_read. Qed.
Lemma Foot_ZScores key members : Foot (ZScores key members) (λ _, []).
Proof. unfold ZScores. foot_read. Qed.
Lemma Foot_ZRange key start stop : Foot (ZRange key start stop) (λ _, []).
Proof. unfold ZRange. foot_read. Qed.
Lemma Foot_ZRangeByScores key ranges : Foot (ZRangeByScores key ranges) (λ _, []).
Proof. unfold ZRangeByScores. foot_read. Qed.
Lemma Foot_XRead key id : Foot (XRead key id) (λ _, []).
Proof. unfold XRead. foot_read. Qed.

Lemma Foot_PFCount Log keys : Foot (PFCount Log keys) (λ _, []).
Proof.
  unfold PFCount. eapply (Foot_map _ _ (λ _, [])); [|done|done]. generalize (makeBytes hllRegisterCount).
  induction keys as [|k keys IH]; intros merged; cbn [mergeLoop]; [apply Foot_ret|].
  eapply (Foot_bindR _ _ (λ _, [])); [|done|intros a; apply IH]. unfold mergeHyperLogLogRegisters, withStringValue. foot_read.
Qed.

Lemma Foot_SnapshotStrings : Foot SnapshotStrings (λ _, []).
Proof. intros s0. eapply triple_bind; [apply triple_now|]. intros now s [H _]. exact H. Qed.
Lemma Foot_nowMilli : Foot nowMilli (λ _, []).
Proof. intros s0 s H. by apply From_tick. Qed.
Lemma Foot_nowNano : Foot nowNano (λ _, []).
Proof. intros s0 s H. by apply From_tick. Qed.

Lemma Foot_SubscribeListPush key : Foot (SubscribeListPush key) (λ _, []).
Proof.
  intros s0 s H. unfold SubscribeListPush. pose proof (subscribe_wf (storeWaiters s) key) as Hw.
  destruct (subscribe _ key) as [w ch]. cbn. apply From_waiters; [done|]. apply Hw, H.
Qed.
Lemma Foot_UnsubscribeListPush key ch : Foot (UnsubscribeListPush key ch) (λ _, []).
Proof. intros s0 s H. cbn. apply From_waiters; [done|]. apply unsubscribe_wf, H. Qed.
End Operations.
