(* ===== verification/Rdb.v ===== *)
(** * RDB snapshots: the loader and the encoder

    Models [internal/rdb/loader.go] and the encoding half of [snapshot.go].  The
    loader is a record with the source's fields: the bytes still to come, the
    store it fills and what it has counted.  [endErr] is the error the reader
    reports once its bytes are exhausted, [io.EOF] or another one.

    An error is the value the code returns; [fmt.Errorf("context: %w", err)] is
    [RdbWrapped].  Opening and closing the file of [LoadFile] is left to
    [FileSys]. *)

From S2P Require Import Prelude Strconv GoLib IntSet CompactHash Float64 CompactZSet SkipList Stream ValueObject.
From S2P Require Import ListWaiters Store StoreOps Lzf.

Definition fileHeader : bytes := bs "REDIS0011".

Definition opcodeAux : Z := 0xFA.
Definition opcodeResizeDB : Z := 0xFB.
Definition opcodeExpireTimeMS : Z := 0xFC.
Definition opcodeExpireTimeSec : Z := 0xFD.
Definition opcodeSelectDB : Z := 0xFE.
Definition opcodeEOF : Z := 0xFF.
Definition valueTypeString : Z := 0x00.

Definition rdbMaxSupportedVersion : Z := 11.
Definition maxRDBObjectLength : Z := 512 * 1024 * 1024.

Inductive ioError := IoEOF | IoUnexpectedEOF | IoFailure (code : nat).
#[global] Instance ioError_eq_decision : EqDecision ioError.
Proof. solve_decision. Defined.

Inductive rdbError :=
  | RdbIo (e : ioError)
  | RdbNilStore
  | RdbNilReader
  | ErrInvalidHeader (header : bytes)
  | ErrInvalidHeaderVersion (header : bytes)
  | ErrUnsupportedDB (db : Z)
  | ErrUnsupportedValueType (valueType : Z)
  | ErrUnsupportedOpcode (marker : Z)
  | RdbExpiryOverflow (expiresAtMillis : Z)
  | RdbInvalidLengthPrefix (first : Z)
  | RdbEncodedCompressedLength
  | RdbEncodedUncompressedLength
  | RdbUncompressedTooLong (length : Z)
  | RdbObjectTooLong (length : Z)
  | RdbStringEncoding (encoding : Z)
  | RdbChecksumLength (n : Z)
  | RdbLzf (e : lzfError)
  | RdbStoreKey (key : bytes) (e : storeError)
  | RdbWrapped (context : bytes) (e : rdbError)
  | RdbOutOfFuel.

(** [Stats]. *)
Record Stats := mkStats { LoadedKeys : Z; SkippedExpiredKeys : Z }.

(** [loader]; the clock of [nowMilli] is the store's. *)
Record loader := mkLoader { reader : bytes; lstore : Store; lstats : Stats; seenEOF : bool }.

Definition setReader (r : bytes) (l : loader) : loader := mkLoader r (lstore l) (lstats l) (seenEOF l).
Definition setLoaded (s : Store) (st : Stats) (l : loader) : loader := mkLoader (reader l) s st (seenEOF l).
Definition setEOF (l : loader) : loader := mkLoader (reader l) (lstore l) (lstats l) true.

(** A method of the loader. *)
Definition LM (A : Type) : Type := loader → result rdbError A * loader.
Definition lret {A} (a : A) : LM A := λ l, (Ok a, l).
Definition lfail {A} (e : rdbError) : LM A := λ l, (Err e, l).
Definition lbind {A B} (m : LM A) (k : A → LM B) : LM B := λ l,
  match m l with (Ok a, l') => k a l' | (Err e, l') => (Err e, l') end.
Notation "'let@' x ':=' m 'in' k" := (lbind m (λ x, k))
  (at level 10, x pattern, m at level 100, k at level 200) : go_scope.

(** [fmt.Errorf("context: %w", err)]. *)
Definition lwrap {A} (context : bytes) (m : LM A) : LM A := λ l,
  let '(r, l') := m l in (map_err (RdbWrapped context) r, l').

(** [binary.BigEndian] and [binary.LittleEndian]. *)
Fixpoint bigEndian (acc : Z) (raw : bytes) : Z :=
  match raw with [] => acc | b :: raw' => bigEndian (acc * 256 + b2z b) raw' end.
Fixpoint littleEndian (raw : bytes) : Z :=
  match raw with [] => 0 | b :: raw' => b2z b + 256 * littleEndian raw' end.

(** [intN(v)] of an unsigned N-bit value. *)
Definition signedOf (width v : Z) : Z := if v <? 2 ^ (width - 1) then v else v - 2 ^ width.

Section Loader.
Context {E : Env}.
Variable endErr : ioError.

(** ** The reader *)

Definition readByte : LM byte := λ l,
  match reader l with
  | [] => (Err (RdbIo endErr), l)
  | b :: rest => (Ok b, setReader rest l)
  end.

(** [io.ReadFull]. *)
Definition ioReadFull (n : Z) : LM bytes := λ l,
  let rd := reader l in
  if n <=? zlen rd then (Ok (ztake n rd), setReader (zdrop n rd) l)
  else match rd with
       | [] => (Err (RdbIo endErr), l)
       | _ => (Err (RdbIo (if decide (endErr = IoEOF) then IoUnexpectedEOF else endErr)), setReader [] l)
       end.

(** [io.ReadAll]. *)
Definition ioReadAll : LM bytes := λ l,
  (if decide (endErr = IoEOF) then Ok (reader l) else Err (RdbIo endErr), setReader [] l).

Definition readUint16LE : LM Z := let@ raw := ioReadFull 2 in lret (littleEndian raw).
Definition readUint32LE : LM Z := let@ raw := ioReadFull 4 in lret (littleEndian raw).
Definition readUint64LE : LM Z := let@ raw := ioReadFull 8 in lret (littleEndian raw).

Definition readBytes (length : Z) : LM bytes :=
  if length =? 0 then lret []
  else if maxRDBObjectLength <? length then lfail (RdbObjectTooLong length)
  else ioReadFull length.

(** The length and whether it is a special encoding. *)
Definition readLength : LM (Z * bool) :=
  let@ first := readByte in
  let first := b2z first in
  let prefix := Z.shiftr first 6 in
  if prefix =? 0 then lret (Z.land first 0x3F, false)
  else if prefix =? 1 then
    let@ second := readByte in
    lret (Z.lor (Z.shiftl (Z.land first 0x3F) 8) (b2z second), false)
  else if prefix =? 2 then
    let@ raw := ioReadFull 4 in lret (bigEndian 0 raw, false)
  else if prefix =? 3 then lret (Z.land first 0x3F, true)
  else lfail (RdbInvalidLengthPrefix first).

Definition decompressed (input : bytes) (outputLength : Z) : LM bytes := λ l,
  (map_err RdbLzf (decompressLZF input outputLength), l).

Definition readString : LM bytes :=
  let@ (length, encoded) := readLength in
  if negb encoded then readBytes length
  else
    let encoding := length mod 256 in
    if encoding =? 0 then
      let@ value := readByte in lret (FormatInt (signedOf 8 (b2z value)))
    else if encoding =? 1 then
      let@ value := readUint16LE in lret (FormatInt (signedOf 16 value))
    else if encoding =? 2 then
      let@ value := readUint32LE in lret (FormatInt (signedOf 32 value))
    else if encoding =? 3 then
      let@ (compressedLength, compressedEncoded) := lwrap (bs "read LZF compressed length") readLength in
      if compressedEncoded : bool then lfail RdbEncodedCompressedLength
      else
        let@ (uncompressedLength, uncompressedEncoded) := lwrap (bs "read LZF uncompressed length") readLength in
        if uncompressedEncoded : bool then lfail RdbEncodedUncompressedLength
        else if maxRDBObjectLength <? uncompressedLength then lfail (RdbUncompressedTooLong uncompressedLength)
        else
          let@ compressed := lwrap (bs "read LZF payload") (readBytes compressedLength) in
          decompressed compressed uncompressedLength
    else lfail (RdbStringEncoding length).

(** ** The markers *)

Definition validateHeader (header : bytes) : result rdbError unit :=
  if negb (zlen header =? zlen fileHeader) || negb (bool_decide (ztake 5 header = bs "REDIS"))
  then Err (ErrInvalidHeader header)
  else
    match ParseInt (zdrop 5 header) with
    | None => Err (ErrInvalidHeaderVersion header)
    | Some version =>
        if (version <? 1) || (rdbMaxSupportedVersion <? version) then Err (ErrInvalidHeaderVersion header)
        else Ok tt
    end.

Definition skipAuxField : LM unit :=
  let@ _ := lwrap (bs "read AUX key") readString in
  let@ _ := lwrap (bs "read AUX value") readString in
  lret tt.

Definition skipResizeDBMetadata : LM unit :=
  let@ _ := lwrap (bs "read RESIZEDB main hash size") readLength in
  let@ _ := lwrap (bs "read RESIZEDB expiry hash size") readLength in
  lret tt.

Definition readDatabaseSelection : LM unit :=
  let@ (dbIndex, _) := lwrap (bs "read SELECTDB") readLength in
  if negb (dbIndex =? 0) then lfail (ErrUnsupportedDB dbIndex) else lret tt.

Definition validatedExpiryMillis (expiresAtMillis : Z) : result rdbError Z :=
  if max_int64 <? expiresAtMillis then Err (RdbExpiryOverflow expiresAtMillis) else Ok expiresAtMillis.

(** A call on the store. *)
Definition onStore {A} (m : M A) : LM A := λ l,
  let '(a, s) := m (lstore l) in (Ok a, setLoaded s (lstats l) l).
Definition countStats (f : Stats → Stats) : LM unit := λ l, (Ok tt, setLoaded (lstore l) (f (lstats l)) l).

Definition readEntry (valueType expiresAt : Z) : LM unit :=
  if negb (valueType =? valueTypeString) then lfail (ErrUnsupportedValueType valueType)
  else
    let@ key := lwrap (bs "read key") readString in
    let@ value := lwrap (bs "read string value") readString in
    (* [expiresAt > 0 && expiresAt <= l.nowMilli()]: the clock is read for a TTL only *)
    let@ expired := (if 0 <? expiresAt then let@ now := onStore nowMilli in lret (expiresAt <=? now) else lret false) in
    if expired : bool then countStats (λ st, mkStats (LoadedKeys st) (SkippedExpiredKeys st + 1))
    else
      let@ r := onStore (Set_ key value expiresAt) in
      match r with
      | Err e => lfail (RdbStoreKey key e)
      | Ok _ => countStats (λ st, mkStats (LoadedKeys st + 1) (SkippedExpiredKeys st))
      end.

Definition readExpiringEntry (opcodeName : bytes) (expiresAt : Z) : LM unit :=
  let@ valueType := lwrap (bs "read value type after " ++ opcodeName) readByte in
  readEntry (b2z valueType) expiresAt.

Definition isValueType (marker : Z) : bool := bool_decide (marker ∈ [0; 1; 2; 3; 4; 9; 10; 11; 12; 13; 14]).

Definition readValueMarker (marker : Z) : LM unit :=
  if negb (isValueType marker) then lfail (ErrUnsupportedOpcode marker) else readEntry marker 0.

Definition consumeChecksum : LM unit :=
  let@ rest := lwrap (bs "read trailing checksum") ioReadAll in
  if negb (zlen rest =? 0) && negb (zlen rest =? 8) then lfail (RdbChecksumLength (zlen rest)) else lret tt.

Definition consumeEOF : LM unit :=
  let@ _ := consumeChecksum in λ l, (Ok tt, setEOF l).

Definition lift {A} (r : result rdbError A) : LM A := λ l, (r, l).

Definition processMarker (marker : Z) : LM unit :=
  if marker =? opcodeAux then skipAuxField
  else if marker =? opcodeResizeDB then skipResizeDBMetadata
  else if marker =? opcodeSelectDB then readDatabaseSelection
  else if marker =? opcodeExpireTimeSec then
    let@ expiresAtSeconds := lwrap (bs "read EXPIRETIME") readUint32LE in
    readExpiringEntry (bs "EXPIRETIME") (expiresAtSeconds * 1000)
  else if marker =? opcodeExpireTimeMS then
    let@ expiresAtMillis := lwrap (bs "read EXPIRETIMEMS") readUint64LE in
    let@ validatedMillis := lift (validatedExpiryMillis expiresAtMillis) in
    readExpiringEntry (bs "EXPIRETIMEMS") validatedMillis
  else if marker =? opcodeEOF then consumeEOF
  else readValueMarker marker.

(** The loop of [load]: every round consumes a marker, so the bytes left bound
    the rounds. *)
Fixpoint loadLoop (fuel : nat) : LM unit :=
  match fuel with
  | O => lfail RdbOutOfFuel
  | S fuel' => λ l,
      if seenEOF l then (Ok tt, l)
      else
        (let@ marker := lwrap (bs "read marker") readByte in
         let@ _ := processMarker (b2z marker) in
         loadLoop fuel') l
  end.

Definition load : LM unit := λ l,
  (let@ header := lwrap (bs "read header") (ioReadFull (zlen fileHeader)) in
   let@ _ := lift (validateHeader header) in
   loadLoop (S (S (length (reader l))))) l.

(** [nil] arguments are refused; what was stored before an error stays. *)
Definition loadReaderAt (rd : option bytes) (store : option Store) : result rdbError Stats * option Store :=
  match store, rd with
  | None, _ => (Err RdbNilStore, None)
  | Some s, None => (Err RdbNilReader, Some s)
  | Some s, Some input =>
      match load (mkLoader input s (mkStats 0 0) false) with
      | (Err e, l) => (Err e, Some (lstore l))
      | (Ok _, l) => (Ok (lstats l), Some (lstore l))
      end
  end.

Definition LoadReader (rd : option bytes) (store : option Store) : result rdbError Stats * option Store :=
  loadReaderAt rd store.

(** ** Snapshots *)

Definition appendLength (dst : bytes) (length : Z) : bytes :=
  if length <? 64 then dst ++ [z2b length]
  else if length <? 16384 then dst ++ [z2b (Z.lor (Z.land (Z.shiftr length 8) 0x3F) 0x40); z2b length]
  else
    let v := length mod 2 ^ 32 in
    dst ++ [z2b 0x80; z2b (Z.shiftr v 24); z2b (Z.shiftr v 16); z2b (Z.shiftr v 8); z2b v].

Definition appendString (dst value : bytes) : bytes := appendLength dst (zlen value) ++ value.

(** [binary.LittleEndian.AppendUint64]. *)
Definition appendUint64 (dst : bytes) (v : Z) : bytes :=
  dst ++ ((λ i : nat, z2b (Z.shiftr v (8 * Z.of_nat i))) <$> seq 0 8).

Definition emptySnapshot : bytes := fileHeader ++ [z2b opcodeEOF] ++ replicate 8 x00.
Definition EmptySnapshot : bytes := emptySnapshot.

(** [SnapshotStats] of [snapshot.go]. *)
Record RdbSnapshotStats := mkRdbStats { WrittenKeys : Z; SnapSkippedExpiredKeys : Z }.

(** [sort.Slice] by key; the keys of a store's snapshot are distinct. *)
Definition keyLe (a b : StringSnapshotEntry) : Prop := bytes_ltb (ssKey b) (ssKey a) = false.
#[global] Instance keyLe_dec : RelDecision keyLe.
Proof. intros a b. unfold keyLe. apply _. Defined.
Definition sortEntries (entries : list StringSnapshotEntry) : list StringSnapshotEntry := merge_sort keyLe entries.

Definition appendEntry (now : Z) (st : bytes * RdbSnapshotStats) (entry : StringSnapshotEntry) : bytes * RdbSnapshotStats :=
  let '(payload, stats) := st in
  if (0 <? ssExpiresAt entry) && (ssExpiresAt entry <=? now)
  then (payload, mkRdbStats (WrittenKeys stats) (SnapSkippedExpiredKeys stats + 1))
  else
    let payload :=
      if 0 <? ssExpiresAt entry
      then appendUint64 (payload ++ [z2b opcodeExpireTimeMS]) (ssExpiresAt entry)
      else payload in
    let payload := payload ++ [z2b valueTypeString] in
    let payload := appendString payload (ssKey entry) in
    let payload := appendString payload (ssValue entry) in
    (payload, mkRdbStats (WrittenKeys stats + 1) (SnapSkippedExpiredKeys stats)).

(** [now] is [time.Now().UnixMilli()]. *)
Definition BuildSnapshot (now : Z) (entries : list StringSnapshotEntry) : bytes * RdbSnapshotStats :=
  match entries with
  | [] => (EmptySnapshot, mkRdbStats 0 0)
  | _ =>
      let payload := appendLength (fileHeader ++ [z2b opcodeSelectDB]) 0 in
      let '(payload, stats) := foldl (appendEntry now) (payload, mkRdbStats 0 0) (sortEntries entries) in
      (payload ++ [z2b opcodeEOF] ++ replicate 8 x00, stats)
  end.

End Loader.
