(* ===== verification/RdbFacts.v ===== *)
(** * RDB snapshots: a snapshot loads back

    The encoders of [snapshot.go] against the readers of [loader.go].  A reader
    and the bytes it needs are related by [Codec]: it returns the encoded value
    and leaves what follows, and it fails on every strict prefix.  Codecs compose
    like the readers, and carry the two theorems: a snapshot loads back to the
    keyspace it was taken of, and a truncated snapshot is refused. *)

From S2P Require Import Prelude Strconv GoLib IntSet CompactHash Float64 CompactZSet SkipList Stream ValueObject.
From S2P Require Import ListWaiters Store StoreOps StoreFacts StoreMemory StoreInvariant StoreTheorems StorePlain Lzf Rdb.

(** Linear arithmetic with division and remainder by constants. *)
Ltac dlia := Z.to_euclidean_division_equations; lia.

(** Equality of concatenations up to association. *)
Ltac app_norm := repeat (progress (cbn [app]; rewrite <- ?app_assoc)); reflexivity.

(** ** Codecs *)

Section Codec.
Context {E : Env} (endErr : ioError).
Implicit Types (l : loader).

Definition fails {A} (r : result rdbError A * loader) : Prop := match r.1 with Err _ => True | Ok _ => False end.

(** The same outcome; after an error the rest of the input does not matter. *)
Definition agrees {A} (x y : result rdbError A * loader) : Prop := x.1 = y.1 ∧ ∀ a, x.1 = Ok a → x.2 = y.2.

Lemma agrees_refl {A} (x : result rdbError A * loader) : agrees x x.
Proof. done. Qed.

Lemma agrees_Ok {A} (x : result rdbError A * loader) a l : agrees x (Ok a, l) → x = (Ok a, l).
Proof. destruct x as [r l']. intros [H1 H2]. cbn in *. subst r. by rewrite (H2 a eq_refl). Qed.

(** [m] reads exactly [enc] and goes on like [r]. *)
Record Codec {A} (m : LM A) (enc : bytes) (r : LM A) : Prop := {
  codec_reads : ∀ l rest, seenEOF l = false → reader l = enc ++ rest → agrees (m l) (r (setReader rest l));
  codec_needs : ∀ l q, seenEOF l = false → q ≠ [] → enc = reader l ++ q → fails (m l)
}.

(** A computation that leaves the input alone. *)
Definition Quiet {A} (r : LM A) : Prop := ∀ l,
  seenEOF (r l).2 = seenEOF l ∧ ∀ rest, r (setReader rest l) = ((r l).1, setReader rest (r l).2).

Lemma LQuiet_ret {A} (a : A) : Quiet (lret a).
Proof. done. Qed.

Lemma LQuiet_bind {A B} (m : LM A) (k : A → LM B) : Quiet m → (∀ a, Quiet (k a)) → Quiet (lbind m k).
Proof.
  intros Hm Hk l. destruct (Hm l) as [H1 H2]. unfold lbind. destruct (m l) as [[a|e] l'] eqn:Em; cbn [fst snd] in *.
  - destruct (Hk a l') as [H3 H4]. split; [congruence|]. intros rest. by rewrite H2, H4.
  - split; [done|]. intros rest. by rewrite H2.
Qed.

Lemma Codec_done {A} (m : LM A) : Codec m [] m.
Proof.
  split.
  - intros [r s st e] rest _. cbn. by intros ->.
  - intros l q _ Hq H. symmetry in H. by apply app_nil in H as [_ ?].
Qed.

(** Codecs follow one another; what the first does to the store stays. *)
Lemma Codec_seq {A B} (m : LM A) (k : A → LM B) enc1 enc2 r1 r2 :
  Codec m enc1 r1 → Quiet r1 → (∀ l a, (r1 l).1 = Ok a → Codec (k a) enc2 (r2 a)) →
  Codec (lbind m k) (enc1 ++ enc2) (lbind r1 r2).
Proof.
  intros [R1 N1] Q1 Hk. split.
  - intros l rest He Hl. rewrite <- app_assoc in Hl. destruct (R1 l _ He Hl) as [Ha Hb]. destruct (Q1 l) as [H1 H2].
    specialize (Hk l). rewrite H2 in Ha, Hb. unfold lbind. rewrite H2.
    destruct (m l) as [[a|e] lm], (r1 l) as [[a'|e'] l']; cbn [fst snd] in *; try done.
    + injection Ha as <-. rewrite (Hb a eq_refl). exact (codec_reads _ _ _ (Hk a eq_refl) (setReader (enc2 ++ rest) l') rest ltac:(cbn; congruence) eq_refl).
    + split; [cbn; congruence|]. done.
  - intros l q He Hq Hl. destruct (Q1 l) as [H1 H2]. specialize (Hk l).
    assert (∀ q2, enc2 = q2 ++ q → agrees (m l) (r1 (setReader q2 l)) → fails (lbind m k l)) as Hsecond.
    { intros q2 Hq2 [Ha Hb]. unfold lbind. rewrite H2 in Ha, Hb. destruct (m l) as [[a|e] lm], (r1 l) as [[a'|e'] l']; cbn [fst snd] in *; try done.
      injection Ha as <-. rewrite (Hb a eq_refl). apply (codec_needs _ _ _ (Hk a eq_refl) _ q); [cbn; congruence|done|done]. }
    apply app_eq_inv in Hl as [(k1 & Hk1 & Hk2)|(k1 & Hk1 & Hk2)].
    + destruct (decide (k1 = [])) as [->|Hne].
      * rewrite app_nil_r in Hk1. apply (Hsecond []); [done|]. apply R1; [done|by rewrite app_nil_r].
      * pose proof (N1 l k1 He Hne Hk1) as Hf. unfold fails, lbind in *. destruct (m l) as [[a'|e] l']; done.
    + apply (Hsecond k1); [done|]. by apply R1.
Qed.

Lemma Codec_bind {A B} (m : LM A) (k : A → LM B) enc1 enc2 a r :
  Codec m enc1 (lret a) → Codec (k a) enc2 r → Codec (lbind m k) (enc1 ++ enc2) r.
Proof.
  intros H1 H2. apply (Codec_seq m k enc1 enc2 (lret a) (λ _, r) H1 (LQuiet_ret a)).
  intros l a' H. by injection H as <-.
Qed.

Lemma Codec_wrap {A} ctx (m : LM A) enc a : Codec m enc (lret a) → Codec (lwrap ctx m) enc (lret a).
Proof.
  intros [R N]. split.
  - intros l rest He Hl. unfold lwrap. by rewrite (agrees_Ok _ _ _ (R l rest He Hl)).
  - intros l q He Hq Hl. pose proof (N l q He Hq Hl) as Hf. unfold fails, lwrap in *. destruct (m l) as [[a'|e] l']; done.
Qed.

Lemma Codec_byte b : Codec (readByte endErr) [b] (lret b).
Proof.
  split.
  - intros l rest _ Hl. unfold readByte. by rewrite Hl.
  - intros l q _ Hq Hl. unfold fails, readByte. destruct (reader l) as [|x r]; [done|].
    destruct r; destruct q; try done.
Qed.

Lemma Codec_full n enc : zlen enc = n → Codec (ioReadFull endErr n) enc (lret enc).
Proof.
  intros Hn. split.
  - intros l rest _ Hl. unfold ioReadFull. rewrite Hl. subst n.
    rewrite (proj2 (Z.leb_le _ _)) by (rewrite zlen_app; pose proof (zlen_nonneg rest); lia).
    by rewrite ztake_app_exact, zdrop_app_exact.
  - intros l q _ Hq Hl. unfold fails, ioReadFull. rewrite (proj2 (Z.leb_gt _ _)).
    + by destruct (reader l).
    + rewrite <- Hn, Hl, zlen_app. destruct q; [done|]. rewrite zlen_cons. pose proof (zlen_nonneg q). lia.
Qed.

(** ** Integers *)

Lemma littleEndian_bytes n : ∀ v, littleEndian ((λ i : nat, z2b (Z.shiftr v (8 * Z.of_nat i))) <$> seq 0 n) = v mod 256 ^ Z.of_nat n.
Proof.
  induction n as [|n IH]; intros v; [by rewrite Z.mod_1_r|].
  rewrite <- cons_seq, fmap_cons, <- fmap_S_seq, <- list_fmap_compose. cbn [littleEndian].
  rewrite (list_fmap_ext _ (λ i : nat, z2b (Z.shiftr (Z.shiftr v 8) (8 * Z.of_nat i)))).
  2: { intros i x _. cbn. rewrite Z.shiftr_shiftr by lia. do 2 f_equal. lia. }
  rewrite IH, b2z_z2b, Z.shiftr_0_r, Z.shiftr_div_pow2 by lia. change (2 ^ 8) with 256.
  rewrite Nat2Z.inj_succ, Z.pow_succ_r by lia. pose proof (Z.pow_pos_nonneg 256 (Z.of_nat n)). rewrite Z.rem_mul_r by lia. lia.
Qed.

Lemma Codec_uint64 v : 0 ≤ v < 2 ^ 64 → Codec (readUint64LE endErr) (appendUint64 [] v) (lret v).
Proof.
  intros Hv. unfold readUint64LE. rewrite <- (app_nil_r (appendUint64 [] v)). eapply Codec_bind; [by apply Codec_full|].
  unfold appendUint64. cbn [app]. rewrite littleEndian_bytes. change (256 ^ Z.of_nat 8) with (2 ^ 64).
  rewrite Z.mod_small by done. apply Codec_done.
Qed.

(** ** Lengths *)

(** A shifted value and the low bits under it do not overlap. *)
Lemma lor_shiftl_low y x k : 0 ≤ k → 0 ≤ x < 2 ^ k → Z.lor (Z.shiftl y k) x = y * 2 ^ k + x.
Proof.
  intros Hk Hx. rewrite <- Z.shiftl_mul_pow2 by done. assert (Z.land (Z.shiftl y k) x = 0) as Hd.
  { apply Z.bits_inj'. intros n Hn. rewrite Z.land_spec, Z.bits_0, Z.shiftl_spec by done.
    destruct (Z.lt_ge_cases n k) as [Hlt|Hge]; [by rewrite Z.testbit_neg_r by lia|].
    rewrite (proj1 (Z.bounded_iff_bits_nonneg' k x Hk (proj1 Hx)) Hx n Hge). apply andb_false_r. }
  by rewrite Z.add_nocarry_lxor, Z.lxor_lor.
Qed.

Lemma prefix_bits x :
  0 ≤ x < 64 → Z.shiftr (64 + x) 6 = 1 ∧ Z.land (64 + x) 63 = x ∧ Z.shiftr x 6 = 0 ∧ Z.land x 63 = x.
Proof.
  intros Hx. change 63 with (Z.ones 6). rewrite !Z.land_ones, !Z.shiftr_div_pow2 by lia. change (2 ^ 6) with 64. dlia.
Qed.

Lemma appendLength_app dst n : appendLength dst n = dst ++ appendLength [] n.
Proof. unfold appendLength. cbn zeta. by repeat case_match. Qed.

Lemma Codec_length n : 0 ≤ n < 2 ^ 32 → Codec (readLength endErr) (appendLength [] n) (lret (n, false)).
Proof.
  intros Hn. unfold readLength, appendLength. destruct (Z.ltb_spec n 64) as [H6|H6]; [|destruct (Z.ltb_spec n 16384) as [H14|H14]]; cbn zeta.
  - destruct (prefix_bits n) as (_ & _ & Hp & Hl); [lia|].
    eapply (Codec_bind _ _ [z2b n] []); [apply Codec_byte|]. cbn beta. rewrite b2z_z2b_small, Hp, Hl by lia. apply Codec_done.
  - assert (0 ≤ n / 256 < 64) as Hh by dlia. destruct (prefix_bits _ Hh) as (Hp & Hl & _ & Hl').
    rewrite (Z.shiftr_div_pow2 n 8) by lia. change (2 ^ 8) with 256. rewrite Hl'.
    assert (Z.lor (n / 256) 64 = 64 + n / 256) as ->.
    { rewrite Z.lor_comm. apply (lor_shiftl_low 1 (n / 256) 6); lia. }
    eapply (Codec_bind _ _ [_] [z2b n]); [apply Codec_byte|]. cbn beta. rewrite b2z_z2b_small, Hp, Hl by lia. cbn [Z.eqb Pos.eqb].
    eapply (Codec_bind _ _ [z2b n] []); [apply Codec_byte|]. cbn beta. rewrite b2z_z2b.
    rewrite lor_shiftl_low by dlia. replace (n / 256 * 2 ^ 8 + n mod 256) with n by (change (2 ^ 8) with 256; dlia). apply Codec_done.
  - rewrite (Z.mod_small n) by lia. eapply (Codec_bind _ _ [z2b 128] [_; _; _; _]); [apply Codec_byte|]. cbn beta.
    change (b2z (z2b 128)) with 128. cbn [Z.shiftr Z.eqb Pos.eqb Z.shiftl Z.div2 Pos.div2 Pos.iter].
    rewrite <- (app_nil_r [z2b (Z.shiftr n 24); _; _; _]).
    eapply Codec_bind; [by apply Codec_full|]. cbn [bigEndian]. rewrite !b2z_z2b, !Z.shiftr_div_pow2 by lia.
    match goal with |- Codec (lret (?x, _)) _ _ => replace x with n by dlia end. apply Codec_done.
Qed.

(** ** Strings *)

Lemma appendString_app dst v : appendString dst v = dst ++ appendString [] v.
Proof. unfold appendString. rewrite appendLength_app, <- app_assoc. done. Qed.

Lemma Codec_string v : zlen v ≤ maxRDBObjectLength → Codec (readString endErr) (appendString [] v) (lret v).
Proof.
  intros Hv. unfold readString, appendString. pose proof (zlen_nonneg v). unfold maxRDBObjectLength in Hv.
  eapply Codec_bind; [apply Codec_length; lia|]. cbn beta iota. cbn [negb]. unfold readBytes, maxRDBObjectLength.
  destruct (Z.eqb_spec (zlen v) 0) as [Hz|_]; [destruct v; [apply Codec_done|done]|].
  rewrite (proj2 (Z.ltb_ge _ _)) by lia. by apply Codec_full.
Qed.

(** ** Entries *)

(** What [readEntry] does once the key and the value are read. *)
Definition storeEntry (key value : bytes) (expiresAt : Z) : LM unit :=
  let@ expired := (if 0 <? expiresAt then let@ now := onStore nowMilli in lret (expiresAt <=? now) else lret false) in
  if expired : bool then countStats (λ st, mkStats (LoadedKeys st) (SkippedExpiredKeys st + 1))
  else
    let@ r := onStore (Set_ key value expiresAt) in
    match r with
    | Err e => lfail (RdbStoreKey key e)
    | Ok _ => countStats (λ st, mkStats (LoadedKeys st + 1) (SkippedExpiredKeys st))
    end.

Lemma Quiet_onStore {A} (m : M A) : Quiet (onStore m).
Proof. intros l. unfold onStore. cbn. by destruct (m (lstore l)). Qed.

Lemma Quiet_storeEntry key value e : Quiet (storeEntry key value e).
Proof.
  apply LQuiet_bind.
  - destruct (0 <? e); [|apply LQuiet_ret]. apply LQuiet_bind; [apply Quiet_onStore|]. intros; apply LQuiet_ret.
  - intros [|]; [done|]. apply LQuiet_bind; [apply Quiet_onStore|]. by intros [].
Qed.

Definition entryBytes (e : StringSnapshotEntry) : bytes :=
  (if 0 <? ssExpiresAt e then [z2b opcodeExpireTimeMS] ++ appendUint64 [] (ssExpiresAt e) else [])
  ++ [z2b valueTypeString] ++ appendString [] (ssKey e) ++ appendString [] (ssValue e).

(** An entry the format can hold. *)
Definition encodable (e : StringSnapshotEntry) : Prop :=
  zlen (ssKey e) ≤ maxRDBObjectLength ∧ zlen (ssValue e) ≤ maxRDBObjectLength ∧ ssExpiresAt e ≤ max_int64.

Lemma Codec_ext {A} (m m' : LM A) enc r r' :
  (∀ l, seenEOF l = false → m l = m' l) → (∀ l, r l = r' l) → Codec m enc r → Codec m' enc r'.
Proof.
  intros Hm Hr [R N]. split.
  - intros l rest He Hl. rewrite <- Hm, <- Hr by done. by apply R.
  - intros l q He Hq Hl. rewrite <- Hm by done. by apply (N l q).
Qed.

(** One round of the loop. *)
Definition loadRound : LM unit :=
  let@ marker := lwrap (bs "read marker") (readByte endErr) in processMarker endErr (b2z marker).

Lemma Codec_marker b enc r : Codec (processMarker endErr (b2z b)) enc r → Codec loadRound (b :: enc) r.
Proof. intros H. change (b :: enc) with ([b] ++ enc). eapply Codec_bind; [apply Codec_wrap, Codec_byte|done]. Qed.

Lemma Codec_readEntry key value e :
  zlen key ≤ maxRDBObjectLength → zlen value ≤ maxRDBObjectLength →
  Codec (readEntry endErr valueTypeString e) (appendString [] key ++ appendString [] value) (storeEntry key value e).
Proof.
  intros Hk Hv. unfold readEntry. cbn [negb Z.eqb valueTypeString]. rewrite <- (app_nil_r (appendString [] value)).
  eapply Codec_bind; [apply Codec_wrap; by apply Codec_string|]. eapply Codec_bind; [apply Codec_wrap; by apply Codec_string|].
  apply Codec_done.
Qed.

Lemma Codec_entry e :
  encodable e → Codec loadRound (entryBytes e) (storeEntry (ssKey e) (ssValue e) (Z.max 0 (ssExpiresAt e))).
Proof.
  intros (Hk & Hv & He). unfold entryBytes, max_int64 in *. destruct (Z.ltb_spec 0 (ssExpiresAt e)) as [Hpos|Hneg].
  - rewrite Z.max_r by lia. rewrite <- !app_assoc. apply Codec_marker. change (b2z (z2b opcodeExpireTimeMS)) with opcodeExpireTimeMS.
    unfold processMarker. cbn [Z.eqb Pos.eqb opcodeExpireTimeMS opcodeAux opcodeResizeDB opcodeSelectDB opcodeExpireTimeSec].
    eapply Codec_bind; [apply Codec_wrap, Codec_uint64; lia|]. unfold validatedExpiryMillis, max_int64.
    rewrite (proj2 (Z.ltb_ge _ _)) by lia. eapply (Codec_bind (lift _) _ []); [apply Codec_done|].
    eapply (Codec_bind _ _ [_]); [apply Codec_wrap, Codec_byte|]. by apply Codec_readEntry.
  - rewrite Z.max_l by lia. apply Codec_marker. by apply Codec_readEntry.
Qed.

Fixpoint storeAll (es : list StringSnapshotEntry) : LM unit :=
  match es with
  | [] => lret tt
  | e :: es' => let@ _ := storeEntry (ssKey e) (ssValue e) (Z.max 0 (ssExpiresAt e)) in storeAll es'
  end.

Lemma Codec_round n enc1 enc2 r1 r2 :
  Codec loadRound enc1 r1 → Quiet r1 → Codec (loadLoop endErr n) enc2 r2 →
  Codec (loadLoop endErr (S n)) (enc1 ++ enc2) (let@ _ := r1 in r2).
Proof.
  intros H1 Hq H2. apply (Codec_ext (let@ _ := loadRound in loadLoop endErr n) _ _ (let@ _ := r1 in r2)); [|done|].
  - intros l He. cbn [loadLoop]. rewrite He. unfold loadRound, lbind. by destruct (lwrap _ _ l) as [[|] ?].
  - by apply Codec_seq.
Qed.

Lemma Codec_entries n es enc2 r2 :
  Forall encodable es → Codec (loadLoop endErr n) enc2 r2 →
  Codec (loadLoop endErr (length es + n)) (concat (entryBytes <$> es) ++ enc2) (let@ _ := storeAll es in r2).
Proof.
  intros Hes H2. induction Hes as [|e es He _ IH]; [done|]. cbn [length fmap list_fmap concat storeAll Nat.add].
  rewrite <- app_assoc. eapply Codec_ext; [done| |apply Codec_round; [by apply Codec_entry|apply Quiet_storeEntry|apply IH]].
  intros l. unfold lbind. by destruct (storeEntry _ _ _ l) as [[|] ?].
Qed.

Lemma Codec_EOF n : Codec (loadLoop endErr (S n)) [z2b opcodeEOF] (let@ _ := consumeEOF endErr in loadLoop endErr n).
Proof.
  eapply (Codec_ext (let@ _ := loadRound in loadLoop endErr n)); [|done|].
  - intros l He. cbn [loadLoop]. rewrite He. unfold loadRound, lbind. by destruct (lwrap _ _ l) as [[|] ?].
  - split.
    + intros l rest _ Hl. unfold loadRound, lbind, lwrap, readByte. rewrite Hl. apply agrees_refl.
    + intros l q _ Hq Hl. unfold fails, loadRound, lbind, lwrap, readByte. destruct (reader l) as [|b [|b' r]]; [done| |done].
      by destruct q.
Qed.

Lemma loadLoop_mono n : ∀ m l l', (n ≤ m)%nat → loadLoop endErr n l = (Ok tt, l') → loadLoop endErr m l = (Ok tt, l').
Proof.
  induction n as [|n IH]; intros m l l' Hm; [done|]. destruct m as [|m]; [lia|]. cbn [loadLoop].
  destruct (seenEOF l); [done|]. unfold lbind. destruct (lwrap _ _ l) as [[b|e] l1]; [|done].
  destruct (processMarker _ _ l1) as [[u|e] l2]; [|done]. apply IH. lia.
Qed.

(** ** The whole file *)

(** The entries a snapshot taken at [now] holds, in the order of their keys. *)
Definition written (now : Z) (entries : list StringSnapshotEntry) : list StringSnapshotEntry :=
  filter (λ e, ¬ (0 < ssExpiresAt e ∧ ssExpiresAt e ≤ now)) (sortEntries entries).

Lemma elem_of_written now entries e :
  e ∈ written now entries ↔ e ∈ entries ∧ ¬ (0 < ssExpiresAt e ∧ ssExpiresAt e ≤ now).
Proof. unfold written. rewrite list_elem_of_filter. unfold sortEntries. rewrite merge_sort_Permutation. tauto. Qed.

Lemma written_encodable now entries : Forall encodable entries → Forall encodable (written now entries).
Proof. rewrite !Forall_forall. intros H e [He _]%elem_of_written. by apply H. Qed.

(** The snapshot up to its checksum. *)
Definition snapshotBody (now : Z) (entries : list StringSnapshotEntry) : bytes :=
  match entries with [] => [] | _ => z2b opcodeSelectDB :: appendLength [] 0 end
  ++ concat (entryBytes <$> written now entries) ++ [z2b opcodeEOF].

Lemma appendEntry_fold now es : ∀ payload st,
  foldl (appendEntry now) (payload, st) es =
  (payload ++ concat (entryBytes <$> filter (λ e, ¬ (0 < ssExpiresAt e ∧ ssExpiresAt e ≤ now)) es),
   mkRdbStats (WrittenKeys st + zlen (filter (λ e, ¬ (0 < ssExpiresAt e ∧ ssExpiresAt e ≤ now)) es))
     (SnapSkippedExpiredKeys st + (zlen es - zlen (filter (λ e, ¬ (0 < ssExpiresAt e ∧ ssExpiresAt e ≤ now)) es)))).
Proof.
  induction es as [|e es IH]; intros payload [w k].
  { cbn. rewrite app_nil_r. unfold zlen. cbn. by rewrite !Z.add_0_r. }
  cbn [foldl appendEntry]. rewrite filter_cons. destruct (Z.ltb_spec 0 (ssExpiresAt e)) as [Hp|Hp]; cbn [andb].
  1: destruct (Z.leb_spec (ssExpiresAt e) now) as [Hn|Hn]; cbn [andb].
  1: rewrite decide_False by lia; rewrite IH; cbn; f_equal; f_equal; unfold zlen; cbn; lia.
  all: rewrite decide_True by lia; rewrite IH; cbn [WrittenKeys SnapSkippedExpiredKeys fmap list_fmap concat]; f_equal;
    [|f_equal; unfold zlen; cbn [length]; lia].
  all: unfold entryBytes at 2; rewrite (appendString_app (appendString _ _)), (appendString_app (_ ++ _)).
  - rewrite (proj2 (Z.ltb_lt _ _)) by done. unfold appendUint64. app_norm.
  - rewrite (proj2 (Z.ltb_ge _ _)) by done. app_norm.
Qed.

Lemma BuildSnapshot_bytes now entries :
  BuildSnapshot now entries = (fileHeader ++ snapshotBody now entries ++ replicate 8 x00,
    mkRdbStats (zlen (written now entries)) (zlen entries - zlen (written now entries))).
Proof.
  unfold BuildSnapshot, snapshotBody, written. destruct entries as [|e es]; [done|]. cbv zeta.
  remember (e :: es) as all. rewrite appendEntry_fold. cbn [WrittenKeys SnapSkippedExpiredKeys]. f_equal.
  - by rewrite (appendLength_app (fileHeader ++ _)), <- !app_assoc.
  - f_equal. assert (zlen (sortEntries all) = zlen all) as ->; [|done]. unfold zlen, sortEntries. by rewrite merge_sort_Permutation.
Qed.

(** What loading a snapshot comes to: storing its entries and reading the rest as
    the checksum. *)
Definition loadWritten (now : Z) (entries : list StringSnapshotEntry) : LM unit :=
  let@ _ := storeAll (written now entries) in consumeEOF endErr.

Lemma eof_stops n l : (let@ _ := consumeEOF endErr in loadLoop endErr (S n)) l = consumeEOF endErr l.
Proof. unfold consumeEOF, lbind. destruct (consumeChecksum endErr l) as [[|] l']; done. Qed.

Lemma Codec_body now entries n :
  Forall encodable (written now entries) → (length (written now entries) + 3 ≤ n)%nat →
  Codec (loadLoop endErr n) (snapshotBody now entries) (loadWritten now entries).
Proof.
  intros Hes Hn. unfold snapshotBody, loadWritten. set (len := length (written now entries)) in *.
  assert (∀ k, Codec (loadLoop endErr (len + S (S k))) (concat (entryBytes <$> written now entries) ++ [z2b opcodeEOF])
    (let@ _ := storeAll (written now entries) in consumeEOF endErr)) as H.
  { intros k. eapply Codec_ext; [done| |by apply Codec_entries, Codec_EOF]. intros l. unfold lbind at 1 3.
    destruct (storeAll _ l) as [[[]|e] l']; [apply eof_stops|done]. }
  destruct entries as [|e es].
  - replace n with (len + S (S (n - len - 2)))%nat by lia. apply H.
  - replace n with (S (len + S (S (n - len - 3))))%nat by lia. specialize (H (n - len - 3)%nat).
    change (Codec (loadLoop endErr (S (len + S (S (n - len - 3))))) ((z2b opcodeSelectDB :: appendLength [] 0) ++ concat (entryBytes <$> written now (e :: es)) ++ [z2b opcodeEOF])
      (let@ _ := lret tt in let@ _ := storeAll (written now (e :: es)) in consumeEOF endErr)).
    apply Codec_round; [|apply LQuiet_ret|exact H]. apply Codec_marker.
    change (processMarker endErr (b2z (z2b opcodeSelectDB))) with (readDatabaseSelection endErr). unfold readDatabaseSelection.
    rewrite <- (app_nil_r (appendLength [] 0)). eapply Codec_bind; [apply Codec_wrap, Codec_length; lia|]. apply Codec_done.
Qed.

Lemma length_entryBytes e : (1 ≤ length (entryBytes e))%nat.
Proof. unfold entryBytes. rewrite !length_app. cbn [length]. lia. Qed.

Lemma length_entries es : (length es ≤ length (concat (entryBytes <$> es)))%nat.
Proof.
  induction es as [|e es IH]; [done|]. cbn [fmap list_fmap concat length]. rewrite length_app. pose proof (length_entryBytes e). lia.
Qed.

Lemma Codec_load now entries :
  Forall encodable (written now entries) →
  Codec (load endErr) (fileHeader ++ snapshotBody now entries) (loadWritten now entries).
Proof.
  intros Hes. set (len := length (written now entries)).
  assert (∀ n, (len + 3 ≤ n)%nat → Codec (let@ header := lwrap (bs "read header") (ioReadFull endErr (zlen fileHeader)) in
    let@ _ := lift (validateHeader header) in loadLoop endErr n) (fileHeader ++ snapshotBody now entries) (loadWritten now entries)) as H.
  { intros n Hn. eapply Codec_bind; [apply Codec_wrap; by apply Codec_full|].
    change (validateHeader fileHeader) with (@Ok rdbError unit tt). eapply (Codec_bind _ _ []); [apply (Codec_done (lret tt))|by apply Codec_body]. }
  split.
  - intros l rest He Hl. unfold load. apply H; [|done|done]. rewrite Hl. unfold snapshotBody. rewrite !length_app.
    pose proof (length_entries (written now entries)). change (length fileHeader) with 9%nat. fold len in H0. lia.
  - intros l q He Hq Hl. set (n := S (S (length (reader l)))).
    pose proof (codec_needs _ _ _ (H (n + (len + 3))%nat ltac:(lia)) l q He Hq Hl) as Hf. unfold fails, load, lbind in *. fold n.
    destruct (lwrap _ _ l) as [[header|e] l1]; [|done]. destruct (lift _ l1) as [[u|e] l2]; [|done].
    destruct (loadLoop endErr n l2) as [[[]|e] l3] eqn:El; [|done]. cbn [fst].
    by rewrite (loadLoop_mono n (n + (len + 3)) l2 l3 ltac:(lia) El) in Hf.
Qed.
End Codec.

(** ** What the entries leave in the store *)

Section Replay.
Context {E : Env}.
Implicit Types (s : Store) (l : loader).

(** [v] is the string of an entry with its deadline. *)
Definition holds (e : StringSnapshotEntry) (v : ValueObject) : Prop :=
  Kind v = ValueKindString ∧ vString v = ssValue e ∧ ExpiresAt v = Z.max 0 (ssExpiresAt e).

Definition readBetween s s' (P : Z → Prop) : Prop := ∃ t, (ticks s ≤ t < ticks s')%nat ∧ P (clock t / 1000000).

(** Loading [es] stored [loaded], and skipped the rest for being expired. *)
Record Loaded (es : list StringSnapshotEntry) s (st : Stats) s' (st' : Stats) (loaded : list StringSnapshotEntry) : Prop := {
  ld_inv : StoreInv s';
  ld_max : maxMemory s' = maxMemory s;
  ld_ticks : (ticks s ≤ ticks s')%nat;
  ld_sub : ∀ e, e ∈ loaded → e ∈ es;
  ld_skipped : ∀ e, e ∈ es → e ∈ loaded ∨ 0 < ssExpiresAt e ∧ readBetween s s' (λ now, ssExpiresAt e ≤ now);
  ld_live : ∀ e, e ∈ loaded → ssExpiresAt e ≤ 0 ∨ readBetween s s' (λ now, now < ssExpiresAt e);
  ld_stats : st' = mkStats (LoadedKeys st + zlen loaded) (SkippedExpiredKeys st + (zlen es - zlen loaded));
  ld_lookup : ∀ e, e ∈ loaded → ∃ v, lookupKey s' (ssKey e) = Some v ∧ holds e v;
  ld_other : ∀ k, k ∉ ssKey <$> loaded → lookupKey s' k = lookupKey s k
}.

Lemma readBetween_weaken s1 s2 s s' P :
  readBetween s s' P → (ticks s1 ≤ ticks s)%nat → (ticks s' ≤ ticks s2)%nat → readBetween s1 s2 P.
Proof. intros (t & Ht & HP) H1 H2. exists t. split; [lia|done]. Qed.

Lemma storeEntry_plain key value e l :
  StoreInv (lstore l) → maxMemoryEnabled (lstore l) = false →
  (0 < e ∧ e ≤ readingAt (lstore l)
   ∧ storeEntry key value e l = (Ok tt, setLoaded (tick (lstore l)) (mkStats (LoadedKeys (lstats l)) (SkippedExpiredKeys (lstats l) + 1)) l))
  ∨ (∃ s' v, (e ≤ 0 ∨ readingAt (lstore l) < e)
     ∧ storeEntry key value e l = (Ok tt, setLoaded s' (mkStats (LoadedKeys (lstats l) + 1) (SkippedExpiredKeys (lstats l))) l)
     ∧ KeyChanged key (Some v) (lstore l) s' ∧ Kind v = ValueKindString ∧ vString v = value ∧ ExpiresAt v = e
     ∧ (ticks (lstore l) < ticks s')%nat).
Proof.
  intros Hs Hen. remember (storeEntry key value e l) as r eqn:Hr. unfold storeEntry in Hr. destruct (Z.ltb_spec 0 e) as [Hp|Hn].
  - assert ((let@ now := onStore nowMilli in lret (e <=? now)) l
      = (Ok (e <=? readingAt (lstore l)), setLoaded (tick (lstore l)) (lstats l) l)) as Hnow by done.
    unfold lbind at 1 in Hr. rewrite Hnow in Hr. destruct (Z.leb_spec e (readingAt (lstore l))) as [Hle|Hgt]; [by left|]. right.
    destruct (Set_plain key value e (tick (lstore l)) (tick_inv _ Hs) Hen) as (s' & v & Hset & Hk & Hkind & Hv & He & Ht).
    unfold lbind, onStore in Hr. change (lstore (setLoaded (tick (lstore l)) (lstats l) l)) with (tick (lstore l)) in Hr.
    rewrite Hset in Hr. exists s', v. split_and!; try done; [by right| |cbn [tick ticks] in Ht; lia]. destruct Hk as [K1 K2 K3]. by split.
  - right. destruct (Set_plain key value e (lstore l) Hs Hen) as (s' & v & Hset & Hk & Hkind & Hv & He & Ht).
    unfold lbind, onStore, lret in Hr. rewrite Hset in Hr. exists s', v. split_and!; try done; [by left|lia].
Qed.

Lemma maxMemory_enabled s s' : maxMemory s' = maxMemory s → maxMemoryEnabled s' = maxMemoryEnabled s.
Proof. unfold maxMemoryEnabled. by intros ->. Qed.

Lemma storeAll_plain es : ∀ l,
  NoDup (ssKey <$> es) → StoreInv (lstore l) → maxMemoryEnabled (lstore l) = false →
  ∃ s' st' loaded, storeAll es l = (Ok tt, setLoaded s' st' l) ∧ Loaded es (lstore l) (lstats l) s' st' loaded.
Proof.
  induction es as [|e es IH]; intros l Hnd Hs Hen; cbn [storeAll].
  { exists (lstore l), (lstats l), []. destruct l as [r s [a b] eof]. split; [done|]. split; try done; cbn; try set_solver.
    f_equal; unfold zlen; cbn; lia. }
  rewrite fmap_cons in Hnd. apply NoDup_cons in Hnd as [Hfresh Hnd]. unfold lbind.
  destruct (storeEntry_plain (ssKey e) (ssValue e) (Z.max 0 (ssExpiresAt e)) l Hs Hen)
    as [(Hp & Hle & ->)|(s1 & v & Hlive & -> & [K1 K2 K3] & Hkind & Hv & He & Ht)].
  - destruct (IH (setLoaded (tick (lstore l)) (mkStats (LoadedKeys (lstats l)) (SkippedExpiredKeys (lstats l) + 1)) l) Hnd (tick_inv _ Hs) Hen)
      as (s' & st' & loaded & Heq & [L1 L2 L3 L4 L5 L6 L7 L8 L9]). cbn [lstore lstats setLoaded tick ticks] in *.
    exists s', st', loaded. split; [by rewrite Heq|]. split; try done; try lia.
    + intros e' He'. right. by apply L4.
    + intros e' [->|He']%elem_of_cons.
      * right. split; [lia|]. exists (ticks (lstore l)). split; [lia|]. unfold readingAt in Hle. lia.
      * destruct (L5 e' He') as [?|[? Hr]]; [by left|right]. split; [done|]. eapply readBetween_weaken; [exact Hr|cbn; lia|lia].
    + intros e' He'. destruct (L6 e' He') as [?|Hr]; [by left|right]. eapply readBetween_weaken; [exact Hr|cbn; lia|lia].
    + rewrite L7. cbn. f_equal. rewrite zlen_cons. lia.
  - destruct (IH (setLoaded s1 (mkStats (LoadedKeys (lstats l) + 1) (SkippedExpiredKeys (lstats l))) l) Hnd K1)
      as (s' & st' & loaded & Heq & [L1 L2 L3 L4 L5 L6 L7 L8 L9]); [cbn; by rewrite (maxMemory_enabled _ _ K2)|].
    cbn [lstore lstats setLoaded] in *. exists s', st', (e :: loaded). split; [by rewrite Heq|]. split; try done; try lia.
    + intros e' [->|He']%elem_of_cons; [by left|right; by apply L4].
    + intros e' [->|He']%elem_of_cons; [by left; left|].
      destruct (L5 e' He') as [?|[? Hr]]; [by left; right|right]. split; [done|]. eapply readBetween_weaken; [exact Hr|lia|lia].
    + intros e' [->|He']%elem_of_cons.
      * destruct Hlive as [?|Hlt]; [left; lia|]. destruct (Z.le_gt_cases (ssExpiresAt e) 0); [by left|right].
        exists (ticks (lstore l)). split; [lia|]. unfold readingAt in Hlt. lia.
      * destruct (L6 e' He') as [?|Hr]; [by left|right]. eapply readBetween_weaken; [exact Hr|lia|lia].
    + rewrite L7. cbn. f_equal; rewrite !zlen_cons; lia.
    + intros e' [->|He']%elem_of_cons; [|by apply L8]. exists v. split; [|done]. rewrite L9.
      * rewrite K3. by rewrite decide_True.
      * intros (e' & Heq' & Hin)%list_elem_of_fmap. apply Hfresh. apply list_elem_of_fmap. exists e'. split; [done|by apply L4].
    + intros k Hk. rewrite fmap_cons, not_elem_of_cons in Hk. destruct Hk as [Hk1 Hk2]. rewrite L9 by done. rewrite K3. by rewrite decide_False.
Qed.

(** The clock reading of [LoadReader]'s callers. *)
Lemma LoadReader_snapshot now entries s :
  Forall encodable entries → NoDup (ssKey <$> entries) → StoreInv s → maxMemoryEnabled s = false →
  ∃ st' s' loaded, LoadReader IoEOF (Some (BuildSnapshot now entries).1) (Some s) = (Ok st', Some s')
    ∧ Loaded (written now entries) s (mkStats 0 0) s' st' loaded.
Proof.
  intros Hes Hnd Hs Hen.
  pose proof (written_encodable now entries Hes) as Hes'.
  assert (NoDup (ssKey <$> written now entries)) as Hnd'.
  { eapply sublist_NoDup; [|apply fmap_sublist, sublist_filter]. unfold sortEntries. by rewrite merge_sort_Permutation. }
  set (l0 := mkLoader (BuildSnapshot now entries).1 s (mkStats 0 0) false).
  destruct (storeAll_plain (written now entries) (setReader (replicate 8 x00) l0) Hnd' Hs Hen) as (s' & st' & loaded & Heq & Hl).
  exists st', s', loaded. split; [|exact Hl]. unfold LoadReader, loadReaderAt. fold l0.
  pose proof (codec_reads _ _ _ (Codec_load IoEOF now entries Hes') l0 (replicate 8 x00) eq_refl) as Hload.
  rewrite (agrees_Ok (load IoEOF l0) tt (setEOF (setReader [] (setLoaded s' st' l0)))); [done|].
  replace (Ok tt, setEOF (setReader [] (setLoaded s' st' l0)))
    with (loadWritten IoEOF now entries (setReader (replicate 8 x00) l0)).
  - apply Hload. unfold l0. cbn [reader]. rewrite BuildSnapshot_bytes. cbn [fst]. by rewrite app_assoc.
  - unfold loadWritten, lbind at 1. rewrite Heq. done.
Qed.
End Replay.

(** ** Taking a snapshot *)

Section Taking.
Context {E : Env}.
Implicit Types (s : Store).

Definition snapshotOf (now : Z) (entry : bytes * ValueObject) : option StringSnapshotEntry :=
  let '(key, v) := entry in
  if isExpired v now then None
  else if decide (Kind v = ValueKindString) then Some (mkStringSnapshot key (vString v) (ExpiresAt v)) else None.

Lemma snapshotString_fold now l : ∀ st, (foldl (snapshotString now) st l).1 = st.1 ++ omap (snapshotOf now) l.
Proof.
  induction l as [|[key v] l IH]; intros [es stats]; [by rewrite app_nil_r|].
  cbn [foldl]. rewrite IH. cbn [snapshotString omap list_omap snapshotOf]. destruct (isExpired v now); [done|].
  case_bool_decide; [rewrite decide_True by done|by rewrite decide_False]. cbn [negb fst]. by rewrite <- app_assoc.
Qed.

Lemma SnapshotStrings_entries s :
  ∃ stats, SnapshotStrings s = ((omap (snapshotOf (readingAt s)) (scanOrder s), stats), tick s).
Proof.
  unfold SnapshotStrings, bind, nowMilli, gets. cbn [shards tick]. fold (readingAt s).
  set (now := readingAt s). unfold scanOrder. set (f := λ st (shard : Shard), foldl (snapshotString now) _ _).
  assert (∀ shs st, (foldl f st shs).1 = st.1 ++ omap (snapshotOf now) (mjoin (mapOrder <$> shs))) as H.
  { induction shs as [|m shs IH]; intros st; [by rewrite app_nil_r|]. cbn [foldl fmap list_fmap mjoin list_join].
    rewrite IH, omap_app. unfold f. rewrite snapshotString_fold. cbn [fst]. by rewrite <- app_assoc. }
  specialize (H (shards s) ([], mkStringStats 0 0 0 0)). destruct (foldl f _ _) as [es stats]. cbn in H. subst es. by exists stats.
Qed.

Lemma elem_of_snapshot now s e :
  StoreInv s → e ∈ omap (snapshotOf now) (scanOrder s) ↔
  ∃ v, lookupKey s (ssKey e) = Some v ∧ isExpired v now = false ∧ Kind v = ValueKindString
    ∧ ssValue e = vString v ∧ ssExpiresAt e = ExpiresAt v.
Proof.
  intros Hs. rewrite list_elem_of_omap. split.
  - intros ([k v] & Hin & Heq). apply elem_of_scanOrder in Hin; [|done]. unfold snapshotOf in Heq.
    destruct (isExpired v now) eqn:Ex; [done|]. case_decide; [|done]. injection Heq as <-. by exists v.
  - intros (v & Hk & Hx & Hkind & Hv & He). exists (ssKey e, v). split; [by apply elem_of_scanOrder|].
    unfold snapshotOf. rewrite Hx, decide_True by done. destruct e. cbn in *. by subst.
Qed.

Lemma scanOrder_NoDup s : StoreInv s → NoDup (scanOrder s).*1.
Proof.
  intros Hs. unfold scanOrder. assert (∀ i sh, shards s !! i = Some sh → ∀ k v, sh !! k = Some v → shardIndex s k = i) as Hplace.
  { intros i sh Hi k v Hk. symmetry. apply (si_place _ Hs i k). unfold shardAt. rewrite Hi. by exists v. }
  assert (∀ shs off, (∀ j sh, shs !! j = Some sh → shards s !! (off + j)%nat = Some sh) →
    NoDup (mjoin (mapOrder <$> shs)).*1 ∧ ∀ k, k ∈ (mjoin (mapOrder <$> shs)).*1 → (off ≤ shardIndex s k)%nat) as H.
  { induction shs as [|m shs IH]; intros off Hoff; [split; [constructor|set_solver]|].
    cbn [fmap list_fmap mjoin list_join]. rewrite fmap_app. destruct (IH (S off)) as [H1 H2].
    { intros j sh Hj. replace (S off + j)%nat with (off + S j)%nat by lia. by apply Hoff. }
    assert (∀ k, k ∈ (mapOrder m).*1 → shardIndex s k = off) as Hm.
    { intros k ([k' v] & -> & Hin)%list_elem_of_fmap. rewrite mapOrder_perm, elem_of_map_to_list in Hin.
      eapply Hplace; [|exact Hin]. replace off with (off + 0)%nat by lia. by apply Hoff. }
    split.
    - apply NoDup_app. split_and!; [rewrite mapOrder_perm; apply NoDup_fst_map_to_list| |done].
      intros k Hk Hk'. apply Hm in Hk. apply H2 in Hk'. lia.
    - intros k [Hk|Hk]%elem_of_app; [apply Hm in Hk; lia|]. apply H2 in Hk. lia. }
  destruct (H (shards s) 0%nat) as [H1 _]; [done|]. exact H1.
Qed.

Lemma snapshot_keys now l : NoDup l.*1 → NoDup (ssKey <$> omap (snapshotOf now) l).
Proof.
  intros Hnd. eapply sublist_NoDup; [exact Hnd|]. induction l as [|[k v] l IH]; [done|].
  apply NoDup_cons in Hnd as [_ Hnd]. specialize (IH Hnd). cbn [omap list_omap snapshotOf fmap list_fmap fst].
  destruct (isExpired v now); [by apply sublist_cons|]. case_decide; [|by apply sublist_cons]. by apply sublist_skip.
Qed.
End Taking.

(** Every string of the store fits the format. *)
Definition snapshotable {E : Env} (s : Store) : Prop := ∀ k v, lookupKey s k = Some v → Kind v = ValueKindString →
  zlen k ≤ maxRDBObjectLength ∧ zlen (vString v) ≤ maxRDBObjectLength ∧ ExpiresAt v ≤ max_int64.

(** C35: A snapshot restores the string keyspace.  The payload [SaveSnapshot]
    builds from [SnapshotStrings], loaded into an empty store, succeeds; every
    key it brings back was there as a string, with the same bytes and the same
    deadline, and every string that is not past its deadline at any of the clock
    readings involved comes back. *)
Theorem snapshot_restores (E : Env) (s0 s : Store) :
  StoreInv s0 → snapshotable s0 → StoreInv s → maxMemoryEnabled s = false → (∀ k, lookupKey s k = None) →
  let '((entries, _), s1) := SnapshotStrings s0 in
  let payload := (BuildSnapshot (readingAt s1) entries).1 in
  ∃ stats s', LoadReader IoEOF (Some payload) (Some s) = (Ok stats, Some s') ∧ StoreInv s'
    ∧ (∀ k v', lookupKey s' k = Some v' → ∃ v, lookupKey s0 k = Some v ∧ Kind v = ValueKindString
        ∧ Kind v' = ValueKindString ∧ vString v' = vString v ∧ ExpiresAt v' = Z.max 0 (ExpiresAt v))
    ∧ (∀ k v, lookupKey s0 k = Some v → Kind v = ValueKindString →
        ExpiresAt v ≤ 0 ∨ readingAt s0 < ExpiresAt v ∧ readingAt s1 < ExpiresAt v
          ∧ (∀ t, (ticks s ≤ t < ticks s')%nat → clock t / 1000000 < ExpiresAt v) →
        is_Some (lookupKey s' k)).
Proof.
  intros Hs0 Hfit Hs Hen Hempty. destruct (SnapshotStrings_entries s0) as [stats0 ->]. cbn zeta.
  set (now0 := readingAt s0). set (now := readingAt (tick s0)). set (entries := omap (snapshotOf now0) (scanOrder s0)).
  assert (∀ e, e ∈ entries → ∃ v, lookupKey s0 (ssKey e) = Some v ∧ isExpired v now0 = false ∧ Kind v = ValueKindString
    ∧ ssValue e = vString v ∧ ssExpiresAt e = ExpiresAt v) as Hin by (intros e; by apply elem_of_snapshot).
  destruct (LoadReader_snapshot now entries s) as (st' & s' & loaded & Heq & [L1 L2 L3 L4 L5 L6 L7 L8 L9]); [|by apply snapshot_keys, scanOrder_NoDup|done|done|].
  { apply Forall_forall. intros e He. apply Hin in He as (v & Hk & _ & Hkind & Hv & Hx). unfold encodable. rewrite Hv, Hx. by apply Hfit. }
  pose proof (elem_of_written now entries) as Hw.
  exists st', s'. split_and!; [done|done| |].
  - intros k v' Hk. destruct (decide (k ∈ ssKey <$> loaded)) as [(e & -> & He)%list_elem_of_fmap|Hn].
    + destruct (L8 e He) as (v2 & Hk2 & Hh1 & Hh2 & Hh3). rewrite Hk in Hk2. injection Hk2 as <-.
      apply L4, Hw in He as [He _]. apply Hin in He as (v & Hv1 & _ & Hv2 & Hv3 & Hv4). exists v. rewrite <- Hv3, <- Hv4. done.
    + rewrite L9, Hempty in Hk by done. done.
  - intros k v Hk Hkind Hlive. set (e := mkStringSnapshot k (vString v) (ExpiresAt v)).
    assert (isExpired v now0 = false) as Hx.
    { unfold isExpired. destruct (Z.ltb_spec 0 (ExpiresAt v)); [|done]. cbn [andb]. apply Z.ltb_ge. fold now0 in Hlive. lia. }
    assert (e ∈ written now entries) as He.
    { apply Hw. split; [|cbn [e ssExpiresAt]; fold now in Hlive; lia]. apply elem_of_snapshot; [done|]. by exists v. }
    destruct (L5 e He) as [Hl|[Hp (t & Ht & Hle)]].
    + destruct (L8 e Hl) as (v2 & Hk2 & _). by exists v2.
    + cbn [e ssExpiresAt] in *. destruct Hlive as [?|(_ & _ & Hall)]; [lia|]. specialize (Hall t Ht). lia.
Qed.

(** C38: A truncated snapshot is refused: no proper prefix of it loads, except the
    one that lacks the whole checksum, which the format allows. *)
Theorem truncated_snapshot_refused (E : Env) now entries p q s :
  Forall encodable entries → (BuildSnapshot now entries).1 = p ++ q → q ≠ [] → q ≠ replicate 8 x00 →
  ∃ e s', LoadReader IoEOF (Some p) (Some s) = (Err e, Some s').
Proof.
  intros Hes Hp Hq Hq8. rewrite BuildSnapshot_bytes in Hp. cbn [fst] in Hp. rewrite app_assoc in Hp.
  pose proof (written_encodable now entries Hes) as Hes'.
  set (l := mkLoader p s (mkStats 0 0) false). assert (fails (load IoEOF l)) as Hf.
  { pose proof (Codec_load IoEOF now entries Hes') as [R N]. apply app_eq_inv in Hp as [(k & H1 & H2)|(k & H1 & H2)].
    - destruct (decide (k = [])) as [->|Hk]; [by subst q|]. by apply (N l k).
    - destruct (R l k eq_refl H1) as [Ha _]. unfold fails. rewrite Ha. unfold loadWritten, lbind.
      destruct (storeAll _ _) as [[[]|e] l'] eqn:Est; [|done]. unfold consumeEOF, consumeChecksum, lbind, lwrap, ioReadAll.
      assert (reader l' = k) as Hr.
      { assert (∀ es, Quiet (storeAll es)) as Hquiet.
        { induction es as [|e es IH]; [apply LQuiet_ret|]. apply LQuiet_bind; [apply Quiet_storeEntry|done]. }
        destruct (Hquiet (written now entries) (setReader k l)) as [_ Hq']. specialize (Hq' k).
        change (setReader k (setReader k l)) with (setReader k l) in Hq'. rewrite Est in Hq'. by injection Hq' as ->. }
      rewrite Hr, decide_True by done. cbn [map_err]. assert (zlen k + zlen q = 8) as Hlen by (rewrite <- zlen_app, <- H2; done).
      assert (zlen q ≠ 0) as Hq0 by (by destruct q). destruct (decide (k = [])) as [->|Hk]; [by rewrite H2 in Hq8|].
      assert (zlen k ≠ 0) as Hk0 by (by destruct k). pose proof (zlen_nonneg k). pose proof (zlen_nonneg q).
      rewrite (proj2 (Z.eqb_neq (zlen k) 0)), (proj2 (Z.eqb_neq (zlen k) 8)) by lia. done. }
  unfold LoadReader, loadReaderAt. fold l. unfold fails in Hf. destruct (load IoEOF l) as [[[]|e] l']; [done|]. by eexists _, _.
Qed.

Definition demoSnapshotStore : Store :=
  @runOps demoEnv id [OpSet (bs "a") (bs "1") 0; OpSet (bs "bb") (bs "2") 9000; OpPush (bs "l") [bs "x"] true; OpSet (bs "c") (bs "3") 1002] NewStore.

Definition snapshotableb (p : bytes * ValueObject) : bool :=
  (zlen p.1 <=? maxRDBObjectLength) && ((zlen (vString p.2) <=? maxRDBObjectLength) && (ExpiresAt p.2 <=? max_int64)).

Lemma snapshotable_scan {E : Env} s : StoreInv s → forallb snapshotableb (scanOrder s) = true → snapshotable s.
Proof.
  intros Hs Hall k v Hk _. apply elem_of_scanOrder in Hk; [|done]. apply forallb_Forall in Hall. rewrite Forall_forall in Hall.
  apply Hall in Hk. unfold snapshotableb in Hk. bool_to_prop. done.
Qed.

Lemma snapshot_restores_witness :
  let '((entries, _), s1) := @SnapshotStrings demoEnv demoSnapshotStore in
  let payload := (BuildSnapshot (@readingAt demoEnv s1) entries).1 in
  ∃ stats s', @LoadReader demoEnv IoEOF (Some payload) (Some NewStore) = (Ok stats, Some s')
    ∧ is_Some (@lookupKey demoEnv s' (bs "a")).
Proof.
  assert (@StoreInv demoEnv demoSnapshotStore) as Hs by (apply storeRun_inv; [apply NewStore_inv|repeat constructor]).
  pose proof (snapshot_restores demoEnv demoSnapshotStore NewStore Hs) as H.
  destruct (@SnapshotStrings demoEnv demoSnapshotStore) as [[entries st] s1].
  destruct H as (stats & s' & H1 & _ & _ & H4).
  - apply (@snapshotable_scan demoEnv); [exact Hs|]. vm_compute. reflexivity.
  - apply NewStore_inv.
  - reflexivity.
  - intros k. apply eq_None_not_Some. intros [v Hv]. apply (@elem_of_scanOrder demoEnv) in Hv; [|apply NewStore_inv]. assert (@scanOrder demoEnv NewStore = []) as Hnil by (vm_compute; reflexivity). rewrite Hnil in Hv. inversion Hv.
  - exists stats, s'. split; [done|].
    assert (∃ v, @lookupKey demoEnv demoSnapshotStore (bs "a") = Some v ∧ Kind v = ValueKindString ∧ ExpiresAt v = 0) as (v & Hk & Hkind & Hx)
      by (eexists; split_and!; [vm_compute; reflexivity|reflexivity|reflexivity]).
    apply (H4 _ v Hk Hkind). left. by rewrite Hx.
Defined.

Lemma truncated_snapshot_refused_witness :
  let p := take 25 (BuildSnapshot 1000 [mkStringSnapshot (bs "k") (bs "value") 2000]).1 in
  ∃ e s', @LoadReader demoEnv IoEOF (Some p) (Some NewStore) = (Err e, Some s').
Proof.
  apply (truncated_snapshot_refused demoEnv 1000 [mkStringSnapshot (bs "k") (bs "value") 2000] _
    (drop 25 (BuildSnapshot 1000 [mkStringSnapshot (bs "k") (bs "value") 2000]).1)).
  - repeat constructor; vm_compute; congruence.
  - by rewrite take_drop.
  - vm_compute. discriminate.
  - vm_compute. discriminate.
Defined.

(** ** Loading always ends *)

Section Total.
Context {E : Env} (endErr : ioError).

(** The input never grows, and the only error that says the loop's bound was too
    small is the one the bound itself raises. *)
Fixpoint inFuel (e : rdbError) : Prop := match e with RdbOutOfFuel => False | RdbWrapped _ e' => inFuel e' | _ => True end.
Definition Shrinks {A} (m : LM A) : Prop := ∀ l,
  (length (reader (m l).2) ≤ length (reader l))%nat ∧ match (m l).1 with Err e => inFuel e | Ok _ => True end.

Lemma Shrinks_ret {A} (a : A) : Shrinks (lret a).
Proof. done. Qed.
Lemma Shrinks_fail {A} (e : rdbError) : inFuel e → Shrinks (lfail (A := A) e).
Proof. done. Qed.
Lemma Shrinks_bind {A B} (m : LM A) (k : A → LM B) : Shrinks m → (∀ a, Shrinks (k a)) → Shrinks (lbind m k).
Proof.
  intros Hm Hk l. destruct (Hm l) as [H1 H2]. unfold lbind. destruct (m l) as [[a|e] l']; cbn in *; [|done].
  destruct (Hk a l') as [H3 H4]. split; [lia|done].
Qed.
Lemma Shrinks_wrap {A} ctx (m : LM A) : Shrinks m → Shrinks (lwrap ctx m).
Proof. intros Hm l. destruct (Hm l) as [H1 H2]. unfold lwrap. by destruct (m l) as [[a|e] l']. Qed.
Lemma Shrinks_byte : Shrinks (readByte endErr).
Proof. intros l. unfold readByte. destruct (reader l) eqn:Er; cbn; rewrite ?Er; split; cbn; (lia || done). Qed.
Lemma Shrinks_full n : Shrinks (ioReadFull endErr n).
Proof.
  intros l. unfold ioReadFull. cbn zeta. case_match; cbn; [split; [unfold zdrop; rewrite length_drop; lia|done]|].
  destruct (reader l) eqn:Er; cbn; rewrite ?Er; split; cbn; (lia || done).
Qed.
Lemma Shrinks_all : Shrinks (ioReadAll endErr).
Proof. intros l. unfold ioReadAll. cbn. split; [lia|]. by case_decide. Qed.
Lemma Shrinks_onStore {A} (m : M A) : Shrinks (onStore m).
Proof. intros l. unfold onStore. by destruct (m (lstore l)). Qed.
Lemma Shrinks_lift {A} (r : result rdbError A) : match r with Err e => inFuel e | Ok _ => True end → Shrinks (lift r).
Proof. done. Qed.

Create HintDb shrinks.
Hint Resolve Shrinks_ret Shrinks_fail Shrinks_wrap Shrinks_byte Shrinks_full Shrinks_all Shrinks_onStore Shrinks_lift : shrinks.
Hint Extern 1 (inFuel _) => exact I : shrinks.
Ltac shrinks := repeat first
  [ solve [eauto with shrinks] | apply Shrinks_lift; exact I | apply Shrinks_bind; [|intros ?] | progress case_match | progress cbn beta iota zeta ].

Lemma Shrinks_length : Shrinks (readLength endErr).
Proof. unfold readLength. shrinks. Qed.
Lemma Shrinks_bytes n : Shrinks (readBytes endErr n).
Proof. unfold readBytes. shrinks. Qed.
Hint Resolve Shrinks_length Shrinks_bytes : shrinks.
Lemma Shrinks_decompressed input n : Shrinks (decompressed input n).
Proof. intros l. unfold decompressed. by destruct (decompressLZF input n). Qed.
Hint Resolve Shrinks_decompressed : shrinks.
Lemma Shrinks_string : Shrinks (readString endErr).
Proof. unfold readString, readUint16LE, readUint32LE. shrinks. Qed.
Hint Resolve Shrinks_string : shrinks.
Lemma Shrinks_entry vt e : Shrinks (readEntry endErr vt e).
Proof. unfold readEntry, countStats. shrinks. Qed.
Hint Resolve Shrinks_entry : shrinks.

Lemma Shrinks_marker m : Shrinks (processMarker endErr m).
Proof.
  unfold processMarker, skipAuxField, skipResizeDBMetadata, readDatabaseSelection, readUint32LE, readUint64LE,
    readExpiringEntry, consumeEOF, consumeChecksum, readValueMarker, validatedExpiryMillis.
  shrinks. all: apply Shrinks_wrap; shrinks.
Qed.

Lemma loadLoop_total n : ∀ l, (length (reader l) < n)%nat → match (loadLoop endErr n l).1 with Err e => inFuel e | Ok _ => True end.
Proof.
  induction n as [|n IH]; intros l Hn; [lia|]. cbn [loadLoop]. destruct (seenEOF l); [done|]. unfold lbind, lwrap, readByte.
  destruct (reader l) as [|b r] eqn:Er; cbn; [done|]. destruct (Shrinks_marker (b2z b) (setReader r l)) as [H1 H2].
  destruct (processMarker endErr (b2z b) (setReader r l)) as [[u|e] l']; cbn in *; [|done]. apply IH. cbn in Hn. lia.
Qed.

(** Loading ends: the rounds are bounded by the bytes of the input. *)
Lemma load_total l : match (load endErr l).1 with Err e => inFuel e | Ok _ => True end.
Proof.
  unfold load, lbind, lift. destruct (Shrinks_wrap (bs "read header") _ (Shrinks_full (zlen fileHeader)) l) as [H1 H2].
  destruct (lwrap _ _ l) as [[h|e] l']; cbn [fst snd] in *; [|done]. destruct (validateHeader h) as [u|e] eqn:Ev.
  - apply loadLoop_total. lia.
  - cbn [fst]. unfold validateHeader in Ev. destruct (_ || _) in Ev; [by injection Ev as <-|].
    destruct (ParseInt _) in Ev; [destruct (_ || _) in Ev|]; by simplify_eq.
Qed.
End Total.
