(* ===== verification/FileSys.v ===== *)
(** * Files

    The operations of package [os] that the persistence code calls, over one
    directory.  A call may fail: the outcomes come from [faults], one per call,
    and a call past the end of the list succeeds.  A failed call has no effect,
    except that a failed write may have written a part.

    A crash keeps what was made durable: a file's synced bytes, and the directory
    as it was at the last sync of the directory or as any call since left it;
    of the bytes written since the last sync any first part may survive.  A sync
    that succeeds makes all bytes of the file durable, those an earlier sync
    failed to write out included, as POSIX describes [fsync].
    Every call appends the state of the disk it leaves to [trail], so that a
    theorem can speak of a crash at any point. *)

From S2P Require Import Prelude.

Inductive osError := OsExist | OsNotExist | OsClosed | OsOther (code : nat).
#[global] Instance osError_eq_decision : EqDecision osError.
Proof. solve_decision. Defined.

(** A file: its bytes, and those that a crash cannot take back. *)
Record file := mkFile { fdata : bytes; fdurable : bytes }.

(** The files by number, the directory, and the states the directory was in
    since its last sync, newest first. *)
Record disk := mkDisk {
  inodes : gmap nat file;
  dirents : gmap bytes nat;
  olderDirents : list (gmap bytes nat)
}.

(** The directories a crash may leave, and what they all say of [path]. *)
Definition directories (d : disk) : list (gmap bytes nat) := dirents d :: olderDirents d.
Definition entryIs (d : disk) (path : bytes) (entry : option nat) : Prop := Forall (λ m, m !! path = entry) (directories d).

(** The outcome of a call: success, or an error after [written] bytes. *)
Inductive fault := NoFault | Fault (e : osError) (written : nat).

Record FS := mkFS {
  fsDisk : disk;
  handles : gmap nat (nat * bool);   (* the inode of a handle, and whether it is open *)
  nextId : nat;
  faults : list fault;
  trail : list disk
}.

Definition FM (A : Type) : Type := FS → A * FS.
Definition fret {A} (a : A) : FM A := λ fs, (a, fs).
Definition fbind {A B} (m : FM A) (k : A → FM B) : FM B := λ fs, let '(a, fs') := m fs in k a fs'.
Notation "'let%' x ':=' m 'in' k" := (fbind m (λ x, k))
  (at level 10, x pattern, m at level 100, k at level 200) : go_scope.

Definition setDisk (d : disk) (fs : FS) : FS := mkFS d (handles fs) (nextId fs) (faults fs) (trail fs).
Definition setInode (ino : nat) (f : file) (d : disk) : disk :=
  mkDisk (<[ino := f]> (inodes d)) (dirents d) (olderDirents d).
Definition setDirents (m : gmap bytes nat) (d : disk) : disk := mkDisk (inodes d) m (directories d).

(** The next outcome; the disk after the call goes on the trail. *)
Definition takeFault : FM fault := λ fs,
  (hd NoFault (faults fs), mkFS (fsDisk fs) (handles fs) (nextId fs) (tl (faults fs)) (trail fs)).
Definition record_ : FM unit := λ fs,
  (tt, mkFS (fsDisk fs) (handles fs) (nextId fs) (faults fs) (trail fs ++ [fsDisk fs])).

(** A call: on a fault [onFault] and the error, else [run]. *)
Definition oscall {A} (onFault : nat → FS → FS) (run : FM (result osError A)) : FM (result osError A) :=
  let% o := takeFault in
  let% r := match o with Fault e n => (λ fs, (Err e, onFault n fs)) | NoFault => run end in
  let% _ := record_ in
  fret r.

Definition noEffect (_ : nat) (fs : FS) : FS := fs.

(** [os.MkdirAll]: the one directory is there. *)
Definition MkdirAll : FM (result osError unit) := oscall noEffect (fret (Ok tt)).

Definition newHandle (ino : nat) (fs : FS) : nat * FS :=
  (nextId fs, mkFS (fsDisk fs) (<[nextId fs := (ino, true)]> (handles fs)) (S (nextId fs)) (faults fs) (trail fs)).

Definition createFile (path : bytes) (fs : FS) : nat * FS :=
  let d := fsDisk fs in
  let ino := nextId fs in
  (ino, mkFS (setDirents (<[path := ino]> (dirents d)) (setInode ino (mkFile [] []) d))
          (handles fs) (S ino) (faults fs) (trail fs)).

(** [os.CreateTemp], which picked the name [path]: it never opens an existing file. *)
Definition CreateTemp (path : bytes) : FM (result osError nat) := oscall noEffect (λ fs,
  match dirents (fsDisk fs) !! path with
  | Some _ => (Err OsExist, fs)
  | None => let '(ino, fs) := createFile path fs in let '(h, fs) := newHandle ino fs in (Ok h, fs)
  end).

(** [os.OpenFile(path, O_CREATE|O_APPEND|O_WRONLY)]. *)
Definition OpenAppend (path : bytes) : FM (result osError nat) := oscall noEffect (λ fs,
  let '(ino, fs) := match dirents (fsDisk fs) !! path with Some ino => (ino, fs) | None => createFile path fs end in
  let '(h, fs) := newHandle ino fs in (Ok h, fs)).

Definition appendData (h : nat) (data : bytes) (fs : FS) : FS :=
  match handles fs !! h with
  | Some (ino, true) =>
      match inodes (fsDisk fs) !! ino with
      | Some f => setDisk (setInode ino (mkFile (fdata f ++ data) (fdurable f)) (fsDisk fs)) fs
      | None => fs
      end
  | _ => fs
  end.

Definition whenOpen {A} (h : nat) (run : nat → FM (result osError A)) : FM (result osError A) := λ fs,
  match handles fs !! h with Some (ino, true) => run ino fs | _ => (Err OsClosed, fs) end.

(** [file.Write]: a failed write may have written a prefix. *)
Definition FileWrite (h : nat) (data : bytes) : FM (result osError unit) :=
  oscall (λ n, appendData h (take n data)) (whenOpen h (λ _ fs, (Ok tt, appendData h data fs))).

(** The count [file.Write] returns next to its error. *)
Definition written (h : nat) (data : bytes) (fs : FS) : nat :=
  match handles fs !! h, hd NoFault (faults fs) with
  | Some (_, true), Fault _ n => n `min` length data
  | _, _ => 0
  end.
Definition FileWriteN (h : nat) (data : bytes) : FM (nat * option osError) := λ fs,
  match FileWrite h data fs with
  | (Ok _, fs') => ((length data, None), fs')
  | (Err e, fs') => ((written h data fs, Some e), fs')
  end.

Definition FileSync (h : nat) : FM (result osError unit) := oscall noEffect (whenOpen h (λ ino fs,
  match inodes (fsDisk fs) !! ino with
  | Some f => (Ok tt, setDisk (setInode ino (mkFile (fdata f) (fdata f)) (fsDisk fs)) fs)
  | None => (Ok tt, fs)
  end)).

Definition closeHandle (h : nat) (fs : FS) : FS :=
  mkFS (fsDisk fs) (alter (λ p : nat * bool, (p.1, false)) h (handles fs)) (nextId fs) (faults fs) (trail fs).

(** [file.Close]: the handle is gone even when closing reports an error. *)
Definition FileClose (h : nat) : FM (result osError unit) :=
  oscall (λ _, closeHandle h) (whenOpen h (λ _ fs, (Ok tt, closeHandle h fs))).

Definition osRename (src dst : bytes) : FM (result osError unit) := oscall noEffect (λ fs,
  let d := fsDisk fs in
  match dirents d !! src with
  | None => (Err OsNotExist, fs)
  | Some ino => (Ok tt, setDisk (setDirents (<[dst := ino]> (delete src (dirents d))) d) fs)
  end).

Definition osRemove (path : bytes) : FM (result osError unit) := oscall noEffect (λ fs,
  let d := fsDisk fs in
  match dirents d !! path with
  | None => (Err OsNotExist, fs)
  | Some _ => (Ok tt, setDisk (setDirents (delete path (dirents d)) d) fs)
  end).

(** [syncDir]: the directory is durable as it is. *)
Definition syncDir : FM (result osError unit) := oscall noEffect (λ fs,
  let d := fsDisk fs in (Ok tt, setDisk (mkDisk (inodes d) (dirents d) []) fs)).

(** [os.Open]: a handle, and the bytes that reading it to its end yields. *)
Definition osOpen (path : bytes) : FM (result osError (nat * bytes)) := oscall noEffect (λ fs,
  match dirents (fsDisk fs) !! path with
  | None => (Err OsNotExist, fs)
  | Some ino =>
      let data := match inodes (fsDisk fs) !! ino with Some f => fdata f | None => [] end in
      let '(h, fs) := newHandle ino fs in (Ok (h, data), fs)
  end).

(** [os.Stat]: the size. *)
Definition osStat (path : bytes) : FM (result osError Z) := oscall noEffect (λ fs,
  match dirents (fsDisk fs) !! path with
  | None => (Err OsNotExist, fs)
  | Some ino => (Ok (match inodes (fsDisk fs) !! ino with Some f => zlen (fdata f) | None => 0 end), fs)
  end).

(** ** [replaceFile], the same code in [rdb] and [aof] *)

Inductive replaceError :=
  | ReplaceRename (e : osError)
  | ReplaceRemove (e removeErr : osError)
  | ReplaceRetry (e : osError)
  | ReplaceSyncDir (e : osError).

Definition isReplaceTargetExistsError (e : osError) : bool := bool_decide (e = OsExist).

Definition replaceFile (tempPath targetPath : bytes) : FM (result replaceError unit) :=
  let finish :=
    let% r := syncDir in
    fret (match r with Err e => Err (ReplaceSyncDir e) | Ok _ => Ok tt end) in
  let% r := osRename tempPath targetPath in
  match r with
  | Ok _ => finish
  | Err e =>
      if negb (isReplaceTargetExistsError e) then fret (Err (ReplaceRename e))
      else
        let% removed := osRemove targetPath in
        let refused := match removed with Err removeErr => negb (bool_decide (removeErr = OsNotExist)) | Ok _ => false end in
        if refused then fret (Err (ReplaceRemove e (match removed with Err removeErr => removeErr | Ok _ => e end)))
        else
          let% retry := osRename tempPath targetPath in
          match retry with Err retryErr => fret (Err (ReplaceRetry retryErr)) | Ok _ => finish end
  end.

(** ** Crashes *)

(** What a crash may leave at [path]. *)
Definition survives (d : disk) (path : bytes) (c : option bytes) : Prop :=
  ∃ m, m ∈ directories d ∧
    match m !! path, c with
    | None, None => True
    | Some ino, Some c => ∃ f, inodes d !! ino = Some f ∧ fdurable f `prefix_of` c ∧ c `prefix_of` fdata f
    | _, _ => False
    end.

Lemma entryIs_now d path x : entryIs d path x → dirents d !! path = x.
Proof. intros H. by inversion H. Qed.

Lemma entryIs_setDirents m d path x : m !! path = x → entryIs d path x → entryIs (setDirents m d) path x.
Proof. by constructor. Qed.

(** All the directories name one file: a crash leaves it. *)
Lemma entryIs_survives d path x c : entryIs d path x → survives d path c →
  match x, c with
  | None, None => True
  | Some ino, Some c => ∃ f, inodes d !! ino = Some f ∧ fdurable f `prefix_of` c ∧ c `prefix_of` fdata f
  | _, _ => False
  end.
Proof. unfold entryIs. rewrite Forall_forall. intros H (m & Hm & Hc). by rewrite (H m Hm) in Hc. Qed.

(** The disks of a run from [fs] to [fs']: those its calls leave, and the last one. *)
Definition disksSince (fs fs' : FS) (d : disk) : Prop := d ∈ drop (length (trail fs)) (trail fs') ∨ d = fsDisk fs'.

(** ** A logic for the calls

    [Inv C] holds of a state whose disk, handles and next number satisfy [C], and
    whose trail since the start consists of disks that satisfy [Good]. *)

Definition core : Type := disk → gmap nat (nat * bool) → nat → Prop.

Section Logic.
Context (Good : disk → Prop) (faults0 : list fault) (trail0 : list disk).

Definition Inv (C : core) (fs : FS) : Prop :=
  C (fsDisk fs) (handles fs) (nextId fs)
  ∧ (∀ x, x ∈ faults fs → x ∈ faults0)
  ∧ ∃ later, trail fs = trail0 ++ later ∧ Forall Good later.

Lemma Inv_disks C fs0 fs d : trail0 = trail fs0 → Inv C fs → (∀ d hs n, C d hs n → Good d) → disksSince fs0 fs d → Good d.
Proof.
  intros E (HC & _ & later & Ht & HF) HG [Hd| ->]; [|by eapply HG].
  rewrite <- E, Ht, drop_app_length in Hd. rewrite Forall_forall in HF. by apply HF.
Qed.

Definition hoare {A} (P : FS → Prop) (m : FM A) (Q : A → FS → Prop) : Prop := ∀ fs, P fs → let '(a, fs') := m fs in Q a fs'.

Lemma hoare_ret {A} (a : A) (Q : A → FS → Prop) : hoare (Q a) (fret a) Q.
Proof. by intros fs. Qed.

Lemma hoare_bind {A B} P (m : FM A) (k : A → FM B) Q R :
  hoare P m Q → (∀ a, hoare (Q a) (k a) R) → hoare P (fbind m k) R.
Proof. intros Hm Hk fs HP. unfold fbind. specialize (Hm fs HP). destruct (m fs) as [a fs']. by apply Hk. Qed.

Lemma hoare_weaken {A} P P' (m : FM A) (Q Q' : A → FS → Prop) :
  hoare P m Q → (∀ fs, P' fs → P fs) → (∀ a fs, Q a fs → Q' a fs) → hoare P' m Q'.
Proof. intros Hm HP HQ fs H. specialize (Hm fs (HP _ H)). destruct (m fs). by apply HQ. Qed.

(** [f] touches neither the outcomes still to come nor the trail. *)
Definition plain (f : FS → FS) : Prop := ∀ fs, faults (f fs) = faults fs ∧ trail (f fs) = trail fs.

Lemma hoare_oscall {A} onFault (run : FM (result osError A)) (C : core) (R : result osError A → core) :
  (∀ n, plain (onFault n)) → plain (λ fs, (run fs).2) →
  (∀ e n fs, C (fsDisk fs) (handles fs) (nextId fs) → (∃ k, Fault e k ∈ faults0) →
     R (Err e) (fsDisk (onFault n fs)) (handles (onFault n fs)) (nextId (onFault n fs))) →
  (∀ fs, C (fsDisk fs) (handles fs) (nextId fs) →
     R (run fs).1 (fsDisk (run fs).2) (handles (run fs).2) (nextId (run fs).2)) →
  (∀ r d h n, R r d h n → Good d) →
  hoare (Inv C) (oscall onFault run) (λ r, Inv (R r)).
Proof.
  intros Hp1 Hp2 Hf Hr Hg fs (HC & HF & HT). unfold oscall, fbind, takeFault, record_, fret.
  set (fs1 := mkFS _ _ _ _ _). assert (∀ x, x ∈ faults fs1 → x ∈ faults0) as HF1.
  { intros x Hx. apply HF. unfold fs1 in Hx. cbn in Hx. destruct (faults fs); [done|]. by right. }
  assert (∀ r fs2, faults fs2 = faults fs1 → trail fs2 = trail fs1 → R r (fsDisk fs2) (handles fs2) (nextId fs2) →
    Inv (R r) (mkFS (fsDisk fs2) (handles fs2) (nextId fs2) (faults fs2) (trail fs2 ++ [fsDisk fs2]))) as Hend.
  { intros r fs2 E1 E2 H. split_and!; [done|cbn; by rewrite E1|]. cbn. rewrite E2. destruct HT as (later & HT & HFor). exists (later ++ [fsDisk fs2]).
    unfold fs1. cbn [trail]. rewrite HT, <- app_assoc. split; [done|]. apply Forall_app. split; [done|]. apply Forall_singleton. by eapply Hg. }
  destruct (faults fs) as [|[|e n] rest] eqn:Efs; cbn [hd].
  1,2: destruct (Hp2 fs1) as [E1 E2]; specialize (Hr fs1 HC); destruct (run fs1) as [r fs2]; by apply Hend.
  destruct (Hp1 n fs1) as [E1 E2]. apply Hend; [done|done|]. apply Hf; [done|]. exists n. apply HF. by left.
Qed.
End Logic.
