(* ===== verification/FileReplace.v ===== *)
(** * Replacing a file atomically

    [replaceFile] moves a synced temporary file over its target; snapshots and the
    append-only file rewrite share it.  The lemmas follow the calls of such a
    replacement: until the rename is durable the target keeps its old file. *)

From S2P Require Import Prelude FileSys.

(** Every operation leaves the outcomes to come and the trail to [oscall]. *)
Ltac plain_run := let fs := fresh "fs" in intros fs; unfold whenOpen, fret, appendData, setDisk, createFile, newHandle; cbn; repeat (case_match; simplify_eq/=); done.

Section Replace.
Context (path tempPath payload : bytes) (faults0 : list fault) (trail0 : list disk).
Context (entry0 : option nat) (file0 : file) (Hne : tempPath ≠ path).

(** What a crash may leave of the old target. *)
Definition leaves (c : option bytes) : Prop :=
  match entry0, c with
  | None, None => True
  | Some _, Some c => fdurable file0 `prefix_of` c ∧ c `prefix_of` fdata file0
  | _, _ => False
  end.
Definition renameRefused : Prop := ∃ n, Fault OsExist n ∈ faults0.

(** An entry of the target: the old file, or a settled new one. *)
Definition okEntry (d : disk) (x : option nat) : Prop :=
  x = entry0 ∨ ∃ t, x = Some t ∧ inodes d !! t = Some (mkFile payload payload).
Definition keepsOld (d : disk) : Prop := ∀ i, entry0 = Some i → inodes d !! i = Some file0.

Definition gone (x : option nat) : Prop := x = None ∧ renameRefused.

Definition Safe (d : disk) : Prop := keepsOld d ∧ Forall (λ m, okEntry d (m !! path) ∨ gone (m !! path)) (directories d).

(** What a crash on such a disk leaves. *)
Lemma Safe_survives d c :
  Safe d → survives d path c → leaves c ∨ c = Some payload ∨ c = None ∧ renameRefused.
Proof.
  intros (Hold & Hall) (m & Hm & Hc). rewrite Forall_forall in Hall. specialize (Hall m Hm). revert Hall Hc. generalize (m !! path). intros x Hx Hc.
  assert (okEntry d x → leaves c ∨ c = Some payload) as Hok.
  { intros [->|(t & -> & Ht)].
    - left. unfold leaves, keepsOld in *. destruct entry0 as [i|], c as [c|]; try done.
      destruct Hc as (f & Hf & Hp). rewrite (Hold i eq_refl) in Hf. by injection Hf as <-.
    - destruct c as [c|]; [|done]. destruct Hc as (f & Hf & Hp1 & Hp2). rewrite Ht in Hf. injection Hf as <-. cbn in *.
      right. f_equal. apply (anti_symm prefix); done. }
  destruct Hx as [Hx|[-> Hr]]; [destruct (Hok Hx); tauto|]. destruct c; [done|]. by right; right.
Qed.

(** The phases of a replacement. *)
Definition Old (d : disk) : Prop := keepsOld d ∧ entryIs d path entry0.
Definition oldOrGone (m : gmap bytes nat) : Prop := m !! path = entry0 ∨ gone (m !! path).
Definition COld : core := λ d _ n, Old d ∧ ∀ i, entry0 = Some i → (i < n)%nat.
Definition CTemp (h : nat) (data dur : bytes) : core := λ d hs _,
  Old d ∧ ∃ t, Some t ≠ entry0 ∧ dirents d !! tempPath = Some t ∧ inodes d !! t = Some (mkFile data dur) ∧ hs !! h = Some (t, true).
Definition CReady : core := λ d _ _, Old d ∧ ∃ t, dirents d !! tempPath = Some t ∧ inodes d !! t = Some (mkFile payload payload).
Definition CGone : core := λ d _ _, keepsOld d ∧ Forall oldOrGone (directories d)
  ∧ ∃ t, dirents d !! tempPath = Some t ∧ inodes d !! t = Some (mkFile payload payload).
Definition CNew : core := λ d _ _, keepsOld d ∧ Forall oldOrGone (olderDirents d)
  ∧ ∃ t, dirents d !! path = Some t ∧ inodes d !! t = Some (mkFile payload payload).
Definition CDone : core := λ d _ _, keepsOld d
  ∧ ∃ t, entryIs d path (Some t) ∧ inodes d !! t = Some (mkFile payload payload).
Definition CSafe : core := λ d _ _, Safe d.

Abbreviation I := (Inv Safe faults0 trail0).

Lemma oldOrGone_ok d m : oldOrGone m → okEntry d (m !! path) ∨ gone (m !! path).
Proof. intros [H|H]; [left; by left|by right]. Qed.
Lemma Old_Safe d : Old d → Safe d.
Proof. intros [H1 H2]. split; [done|]. eapply Forall_impl; [exact H2|]. intros m H. left. by left. Qed.
Lemma CNew_Safe d hs n : CNew d hs n → Safe d.
Proof.
  intros (H1 & H2 & t & H3 & H4). split; [done|]. constructor; [left; right; by exists t|].
  eapply Forall_impl; [exact H2|]. intros m. apply oldOrGone_ok.
Qed.
Lemma CDone_Safe d hs n : CDone d hs n → Safe d.
Proof. intros (H1 & t & H2 & H3). split; [done|]. eapply Forall_impl; [exact H2|]. intros m H. left. right. by exists t. Qed.
Lemma CGone_Safe d hs n : CGone d hs n → Safe d.
Proof. intros (H1 & H2 & _). split; [done|]. eapply Forall_impl; [exact H2|]. intros m. apply oldOrGone_ok. Qed.

Lemma Inv_weaken (C C' : core) fs : (∀ d hs n, C d hs n → C' d hs n) → I C fs → I C' fs.
Proof. intros H (H1 & H2). split; [by apply H|done]. Qed.

Lemma noEffect_plain n : plain (noEffect n).
Proof. done. Qed.


Lemma MkdirAll_ok : hoare (I COld) MkdirAll (λ r, I COld).
Proof.
  apply (hoare_oscall Safe faults0 trail0 _ _ COld (λ _, COld)); [apply noEffect_plain|plain_run|done|done|].
  intros _ d hs n [H _]. by apply Old_Safe.
Qed.

Lemma CreateTemp_ok : hoare (I COld) (CreateTemp tempPath)
  (λ r, I (match r with Ok h => CTemp h [] [] | Err _ => COld end)).
Proof.
  apply (hoare_oscall Safe faults0 trail0 _ _ COld (λ r, match r with Ok h => CTemp h [] [] | Err _ => COld end)); [apply noEffect_plain|plain_run|done| |].
  - intros fs [[H1 H2] H4]. cbn. destruct (dirents (fsDisk fs) !! tempPath) eqn:Ed; [done|]. cbn. unfold CTemp, Old. split_and!.
    + intros i Hi. cbn. rewrite lookup_insert_ne by (specialize (H4 i Hi); lia). by apply H1.
    + apply entryIs_setDirents; [|done]. rewrite lookup_insert_ne by done. by apply entryIs_now.
    + exists (nextId fs). cbn. rewrite !lookup_insert_eq. split_and!; try done.
      intros Heq. specialize (H4 _ (eq_sym Heq)). lia.
  - intros [h|e] d hs n [H _]; by apply Old_Safe.
Qed.

(** A change of the temporary file's bytes. *)
Lemma CTemp_set h data dur data' dur' fs t :
  CTemp h data dur (fsDisk fs) (handles fs) (nextId fs) → handles fs !! h = Some (t, true) →
  inodes (fsDisk fs) !! t = Some (mkFile data dur)
  ∧ CTemp h data' dur' (setInode t (mkFile data' dur') (fsDisk fs)) (handles fs) (nextId fs).
Proof.
  intros ([H1 H2] & t' & Hn & Ht & Hi & Hh) Hh'. rewrite Hh in Hh'. injection Hh' as ->. split; [done|].
  unfold CTemp, Old. split_and!; [|done|].
  - intros i Hi'. cbn. rewrite lookup_insert_ne by (intros ->; by rewrite Hi' in Hn). by apply H1.
  - exists t. cbn. by rewrite lookup_insert_eq.
Qed.

Lemma CTemp_handle h data dur d hs n : CTemp h data dur d hs n → ∃ t, hs !! h = Some (t, true).
Proof. intros (_ & t & _ & _ & _ & Hh). by exists t. Qed.

Lemma appendData_CTemp h data dur more fs :
  CTemp h data dur (fsDisk fs) (handles fs) (nextId fs) →
  CTemp h (data ++ more) dur (fsDisk (appendData h more fs)) (handles (appendData h more fs)) (nextId (appendData h more fs)).
Proof.
  intros HC. destruct (CTemp_handle _ _ _ _ _ _ HC) as [t Ht]. destruct (CTemp_set h data dur (data ++ more) dur fs t HC Ht) as [Hi H].
  unfold appendData. rewrite Ht, Hi. exact H.
Qed.

Lemma FileWrite_ok h data dur more : hoare (I (CTemp h data dur)) (FileWrite h more)
  (λ r, I (λ d hs n, match r with Ok _ => CTemp h (data ++ more) dur d hs n | Err _ => ∃ data, CTemp h data dur d hs n end)).
Proof.
  apply (hoare_oscall Safe faults0 trail0 _ _ (CTemp h data dur) (λ r d hs n, match r with Ok _ => CTemp h (data ++ more) dur d hs n | Err _ => ∃ data, CTemp h data dur d hs n end)).
  - intros n. plain_run.
  - plain_run.
  - intros e n fs HC _. eexists. by apply (appendData_CTemp h data).
  - intros fs HC. unfold whenOpen. destruct (CTemp_handle _ _ _ _ _ _ HC) as [t ->]. by apply (appendData_CTemp h data).
  - intros [u|e] d hs n; [intros [H _]|intros [x [H _]]]; by apply Old_Safe.
Qed.

Lemma FileSync_ok h data dur : hoare (I (CTemp h data dur)) (FileSync h)
  (λ r, I (λ d hs n, match r with Ok _ => CTemp h data data d hs n | Err _ => CTemp h data dur d hs n end)).
Proof.
  apply (hoare_oscall Safe faults0 trail0 _ _ (CTemp h data dur) (λ r d hs n, match r with Ok _ => CTemp h data data d hs n | Err _ => CTemp h data dur d hs n end)).
  - apply noEffect_plain.
  - plain_run.
  - done.
  - intros fs HC. unfold whenOpen. destruct (CTemp_handle _ _ _ _ _ _ HC) as [t Ht]. rewrite Ht.
    destruct (CTemp_set h data dur data data fs t HC Ht) as [Hi H]. by rewrite Hi.
  - intros [u|e] d hs n [H _]; by apply Old_Safe.
Qed.

Lemma FileClose_ok h data dur : hoare (I (CTemp h data dur)) (FileClose h)
  (λ r, I (λ d hs n, Old d ∧ ∃ t, dirents d !! tempPath = Some t ∧ inodes d !! t = Some (mkFile data dur))).
Proof.
  set (R := λ (_ : result osError unit) (d : disk) (_ : gmap nat (nat * bool)) (_ : nat),
    Old d ∧ ∃ t, dirents d !! tempPath = Some t ∧ inodes d !! t = Some (mkFile data dur)).
  apply (hoare_oscall Safe faults0 trail0 _ _ (CTemp h data dur) R).
  - intros n. plain_run.
  - plain_run.
  - intros e n fs (H & t & _ & H2 & H3 & _) _. split; [done|]. by exists t.
  - intros fs (H & t & _ & H2 & H3 & Hh). unfold whenOpen. rewrite Hh. split; [done|]. by exists t.
  - intros r d hs n [H _]. by apply Old_Safe.
Qed.

(** The move over the target, from a state in which the target is settled or gone. *)
Lemma rename_ok : hoare (I CGone) (osRename tempPath path)
  (λ r, I (λ d hs n, match r with Ok _ => CNew d hs n | Err e => CGone d hs n ∧ (e = OsExist → renameRefused) end)).
Proof.
  set (R := λ (r : result osError unit) d hs n, match r with Ok _ => CNew d hs n | Err e => CGone d hs n ∧ (e = OsExist → renameRefused) end).
  apply (hoare_oscall Safe faults0 trail0 _ _ CGone R).
  - apply noEffect_plain.
  - plain_run.
  - intros e n fs HC Hf. split; [done|]. by intros ->.
  - intros fs (H1 & H2 & t & Ht & Hi). cbn zeta. rewrite Ht. split_and!; [done|done|].
    exists t. cbn. by rewrite lookup_insert_eq.
  - intros [u|e] d hs n; [apply CNew_Safe|intros [H _]; by eapply CGone_Safe].
Qed.

Lemma removeTarget_ok : renameRefused → hoare (I CGone) (osRemove path) (λ r, I CGone).
Proof.
  intros Href. apply (hoare_oscall Safe faults0 trail0 _ _ CGone (λ _, CGone)).
  - apply noEffect_plain.
  - plain_run.
  - done.
  - intros fs (H1 & H2 & t & Ht & Hi). cbn zeta. destruct (dirents (fsDisk fs) !! path) eqn:Ed.
    + split_and!; [done| |].
      * constructor; [|exact H2]. right. split; [|done]. cbn. by rewrite lookup_delete_eq.
      * exists t. cbn. by rewrite lookup_delete_ne.
    + split_and!; [done|done|by exists t].
  - intros _ d hs n. apply CGone_Safe.
Qed.

Lemma syncDir_ok : hoare (I CNew) syncDir (λ r, I (λ d hs n, match r with Ok _ => CDone d hs n | Err _ => CNew d hs n end)).
Proof.
  apply (hoare_oscall Safe faults0 trail0 _ _ CNew (λ r d hs n, match r with Ok _ => CDone d hs n | Err _ => CNew d hs n end)).
  - apply noEffect_plain.
  - plain_run.
  - done.
  - intros fs (H1 & H2 & t & Ht & Hi). split; [done|]. exists t. split; [|done]. by repeat constructor.
  - intros [u|e] d hs n; [apply CDone_Safe|apply CNew_Safe].
Qed.

(** The verdict of a step: done, or failed with a safe disk. *)
Definition Verdict {E' A : Type} (r : result E' A) : core := λ d hs n, match r with Ok _ => CDone d hs n | Err _ => Safe d end.

Lemma finish_ok : hoare (I CNew)
  (let% r := syncDir in fret (match r with Err e => Err (ReplaceSyncDir e) | Ok _ => Ok tt end)) (λ r, I (Verdict r)).
Proof.
  eapply hoare_bind; [apply syncDir_ok|]. intros [u|e] fs H; [done|]. eapply Inv_weaken; [|exact H]. intros; by eapply CNew_Safe.
Qed.

Lemma replaceFile_ok : hoare (I CReady) (replaceFile tempPath path) (λ r, I (Verdict r)).
Proof.
  assert (∀ {E' A} (e : E') fs, I (λ d hs n, CGone d hs n ∧ True) fs → I (Verdict (A := A) (Err e)) fs) as Hfail.
  { intros E' A e fs. apply Inv_weaken. intros d hs n [H _]. by eapply CGone_Safe. }
  apply (hoare_weaken (I CGone) _ _ (λ r, I (Verdict r))); [|intros fs; apply Inv_weaken|done].
  2: { intros d hs n ([H1 H2] & H4). split_and!; [done| |done]. eapply Forall_impl; [exact H2|]. intros m H. by left. }
  unfold replaceFile. eapply hoare_bind; [apply rename_ok|]. intros [u|e]; [apply finish_ok|].
  intros fs (HC & HI). destruct HC as [HC Href]. assert (I CGone fs) as HG by done.
  unfold isReplaceTargetExistsError. case_bool_decide as He; cbn [negb].
  2: { apply (Hfail _ unit (ReplaceRename e)). eapply Inv_weaken; [|exact HG]. done. }
  revert fs HC HI HG. intros fs _ _ HG. revert fs HG. change (hoare (I CGone)
    (let% removed := osRemove path in
     let refused := match removed with Err removeErr => negb (bool_decide (removeErr = OsNotExist)) | Ok _ => false end in
     if refused then fret (Err (ReplaceRemove e (match removed with Err removeErr => removeErr | Ok _ => e end)))
     else let% retry := osRename tempPath path in
          match retry with Err retryErr => fret (Err (ReplaceRetry retryErr))
          | Ok _ => let% r := syncDir in fret (match r with Err e => Err (ReplaceSyncDir e) | Ok _ => Ok tt end) end) (λ r, I (Verdict r))).
  eapply hoare_bind; [by apply removeTarget_ok, Href|]. intros removed. cbn zeta. case_match.
  - intros fs HG. apply (Hfail _ unit). eapply Inv_weaken; [|exact HG]. done.
  - eapply hoare_bind; [apply rename_ok|]. intros [u|e']; [apply finish_ok|].
    intros fs HG. apply (Hfail _ unit). eapply Inv_weaken; [|exact HG]. intros d hs n [H' _]. done.
Qed.
End Replace.
