(* ===== verification/RdbSave.v ===== *)
(** * Snapshot files

    Models [LoadFile] of [internal/rdb/loader.go] and [SaveSnapshot] of [internal/rdb/snapshot.go]: the payload is written
    to a temporary file in the same directory, synced, closed and moved over the
    target.  [tempPath] is the name [os.CreateTemp] picked. *)

From S2P Require Import Prelude Strconv GoLib IntSet CompactHash Float64 CompactZSet SkipList Stream ValueObject.
From S2P Require Import ListWaiters Store StoreOps Lzf Rdb FileSys FileReplace.

Inductive saveError :=
  | SaveEmptyPath
  | SaveCreateDir (e : osError)
  | SaveCreateTemp (e : osError)
  | SaveWrite (e : osError)
  | SaveSync (e : osError)
  | SaveClose (reason : bytes) (e : osError)
  | SaveReplace (e : replaceError)
  | SaveRemoveTemp (e : osError)
  | SaveJoin (a b : saveError).

Definition closeTempSnapshotFile (h : nat) (reason : bytes) : FM (result saveError unit) :=
  let% r := FileClose h in fret (map_err (SaveClose reason) r).

(** Close after a failure, and join the two errors. *)
Definition closeAfter (h : nat) (reason : bytes) (e : saveError) : FM (result saveError unit) :=
  let% closed := closeTempSnapshotFile h reason in
  fret (Err (match closed with Err closeErr => SaveJoin e closeErr | Ok _ => e end)).

(** From the open temporary file to the replaced target. *)
Definition writeTemp (h : nat) (tempPath path payload : bytes) : FM (result saveError unit) :=
  let% r := FileWrite h payload in
  match r with
  | Err e => closeAfter h (bs "write failure") (SaveWrite e)
  | Ok _ =>
      let% r := FileSync h in
      match r with
      | Err e => closeAfter h (bs "sync failure") (SaveSync e)
      | Ok _ =>
          let% r := closeTempSnapshotFile h (bs "snapshot finalization") in
          match r with
          | Err e => fret (Err e)
          | Ok _ => let% r := replaceFile tempPath path in fret (map_err SaveReplace r)
          end
      end
  end.

(** The deferred removal of the temporary file. *)
Definition cleanup (tempPath : bytes) (e : saveError) : FM saveError :=
  let% r := osRemove tempPath in
  fret (match r with
        | Err removeErr => if negb (bool_decide (removeErr = OsNotExist)) then SaveJoin e (SaveRemoveTemp removeErr) else e
        | Ok _ => e
        end).

Definition SaveSnapshot (tempPath path : bytes) (now : Z) (entries : list StringSnapshotEntry)
    : FM (result saveError RdbSnapshotStats) :=
  if bool_decide (path = []) then fret (Err SaveEmptyPath)
  else
    let '(payload, builtStats) := BuildSnapshot now entries in
    let% r := MkdirAll in
    match r with
    | Err e => fret (Err (SaveCreateDir e))
    | Ok _ =>
        let% r := CreateTemp tempPath in
        match r with
        | Err e => fret (Err (SaveCreateTemp e))
        | Ok h =>
            let% r := writeTemp h tempPath path payload in
            match r with
            | Ok _ => fret (Ok builtStats)
            | Err e => let% e := cleanup tempPath e in fret (Err e)
            end
        end
    end.

(** ** Loading a file *)

Inductive loadFileError :=
  | LoadOpen (e : osError)
  | LoadLoad (e : rdbError)
  | LoadClose (e : osError)
  | LoadJoin (a b : loadFileError).

(** The file is closed on every path; a close error is reported, next to the
    error of the load if there is one.  [endErr] ends the file's bytes. *)
Definition LoadFile `{Env} (endErr : ioError) (path : bytes) (store : option Store)
    : FM (result loadFileError Stats * option Store) :=
  let% r := osOpen path in
  match r with
  | Err e => fret (Err (LoadOpen e), store)
  | Ok (h, data) =>
      let '(r, store) := LoadReader endErr (Some data) store in
      let r := map_err LoadLoad r in
      let% closed := FileClose h in
      fret (match closed, r with
            | Ok _, r => r
            | Err closeErr, Ok _ => Err (LoadClose closeErr)
            | Err closeErr, Err e => Err (LoadJoin e (LoadClose closeErr))
            end, store)
  end.

(** ** Atomic replacement *)

Section Atomic.
Context (path tempPath payload : bytes) (faults0 : list fault) (trail0 : list disk).
Context (entry0 : option nat) (file0 : file) (Hne : tempPath ≠ path).
Abbreviation I := (Inv (Safe path payload faults0 entry0 file0) faults0 trail0).
Abbreviation CTemp := (CTemp path tempPath entry0 file0).
Abbreviation Verdict := (Verdict path payload faults0 entry0 file0).
Abbreviation Old := (Old path entry0 file0).
Abbreviation Old_Safe := (Old_Safe path payload faults0 entry0 file0).
Abbreviation Inv_weaken := (Inv_weaken path payload faults0 trail0 entry0 file0).
Abbreviation CSafe := (CSafe path payload faults0 entry0 file0).
Abbreviation Safe := (Safe path payload faults0 entry0 file0).

Lemma closeTemp_ok h data dur reason : hoare (I (CTemp h data dur)) (closeTempSnapshotFile h reason)
  (λ r, I (λ d hs n, Old d ∧ ∃ t, dirents d !! tempPath = Some t ∧ inodes d !! t = Some (mkFile data dur))).
Proof. unfold closeTempSnapshotFile. eapply hoare_bind; [apply FileClose_ok|]. intros r fs H. exact H. Qed.

Lemma closeAfter_ok h data dur reason e : hoare (I (CTemp h data dur)) (closeAfter h reason e) (λ r, I (Verdict r)).
Proof.
  unfold closeAfter. eapply hoare_bind; [apply closeTemp_ok|].
  intros r fs H. eapply Inv_weaken; [|exact H]. intros d hs n [Ho _]. by apply Old_Safe.
Qed.

Lemma writeTemp_ok h : hoare (I (CTemp h [] [])) (writeTemp h tempPath path payload) (λ r, I (Verdict r)).
Proof.
  unfold writeTemp. eapply hoare_bind; [apply FileWrite_ok|]. intros [u|e].
  2: { intros fs (HC & HI). destruct HC as [data HC]. by apply (closeAfter_ok h data []). }
  eapply hoare_bind; [apply FileSync_ok|]. intros [u'|e]; [|apply closeAfter_ok].
  eapply hoare_bind; [apply closeTemp_ok|].
  intros [u2|e].
  - eapply hoare_bind; [|intros r; apply (hoare_ret (map_err SaveReplace r) (λ r, I (Verdict r)))].
    eapply hoare_weaken; [by apply (replaceFile_ok path tempPath payload faults0 trail0 entry0 file0)|done|]. intros [|] fs H; exact H.
  - intros fs H. eapply Inv_weaken; [|exact H]. intros d hs n [Ho _]. by apply Old_Safe.
Qed.

Lemma cleanup_ok e : hoare (I CSafe) (cleanup tempPath e) (λ _, I CSafe).
Proof.
  unfold cleanup. apply (hoare_bind _ _ _ (λ _, I CSafe)); [|by intros r fs H].
  apply (hoare_oscall Safe faults0 trail0 _ _ CSafe (λ _, CSafe)).
  - apply noEffect_plain.
  - plain_run.
  - done.
  - intros fs [H1 H2]. cbn zeta. case_match; [|done]. split; [done|]. pose proof (Forall_cons_1 _ _ _ H2) as [Hnow _].
    constructor; [cbn; by rewrite lookup_delete_ne|exact H2].
  - done.
Qed.
End Atomic.

(** The bytes a settled file has: in memory and durable alike. *)
Definition settled (fs : FS) (path : bytes) : Prop :=
  entryIs (fsDisk fs) path (dirents (fsDisk fs) !! path)
  ∧ ∀ ino, dirents (fsDisk fs) !! path = Some ino →
      (ino < nextId fs)%nat ∧ ∃ data, inodes (fsDisk fs) !! ino = Some (mkFile data data).

(** C36: Saving a snapshot is atomic and durable.  Whatever calls fail and
    wherever a crash strikes, the target holds what it held before or the whole
    new snapshot; it can be missing only where the system refused a rename
    because the target exists, the case the code answers by removing the target
    first.  When the save succeeds, only the new snapshot can be found. *)
Theorem SaveSnapshot_atomic tempPath path now entries fs :
  tempPath ≠ path → settled fs path →
  let payload := (BuildSnapshot now entries).1 in
  let '(r, fs') := SaveSnapshot tempPath path now entries fs in
  (∀ d c, disksSince fs fs' d → survives d path c →
     survives (fsDisk fs) path c ∨ c = Some payload ∨ c = None ∧ ∃ n, Fault OsExist n ∈ faults fs)
  ∧ (∀ st, r = Ok st → ∀ c, survives (fsDisk fs') path c → c = Some payload).
Proof.
  intros Hne [Hd Hset]. cbn zeta. unfold SaveSnapshot. set (payload := (BuildSnapshot now entries).1).
  case_bool_decide as Hp.
  { split; [|done]. intros d c [Hin| ->] Hc; [rewrite drop_all in Hin; by apply not_elem_of_nil in Hin|by left]. }
  set (entry0 := dirents (fsDisk fs) !! path).
  assert (∃ data0, ∀ i, entry0 = Some i → inodes (fsDisk fs) !! i = Some (mkFile data0 data0)) as [data0 H0].
  { destruct entry0 as [i|] eqn:Ei; [|by exists []]. destruct (Hset i Ei) as (_ & data & Hi). exists data. by intros i' [= <-]. }
  set (file0 := mkFile data0 data0) in *.
  pose (Inv0 := Inv (Safe path payload (faults fs) entry0 file0) (faults fs) (trail fs)).
  assert (∀ c, leaves entry0 file0 c → survives (fsDisk fs) path c) as Hold.
  { intros c Hc. exists (dirents (fsDisk fs)). split; [by left|]. fold entry0. unfold leaves in Hc. destruct entry0 as [i|] eqn:Ei, c as [c|]; try done.
    exists file0. by rewrite (H0 i eq_refl). }
  assert (Inv0 (COld path entry0 file0) fs) as Hstart.
  { split_and!; [split; [done|]; intros i Hi; by apply Hset|done|]. exists []. by rewrite app_nil_r. }
  assert (hoare (Inv0 (COld path entry0 file0)) (SaveSnapshot tempPath path now entries)
    (λ r, Inv0 (λ d hs n, match r with Ok _ => CDone path payload entry0 file0 d hs n | Err _ => Safe path payload (faults fs) entry0 file0 d end))) as Hmain.
  { unfold SaveSnapshot. rewrite bool_decide_eq_false_2 by done. destruct (BuildSnapshot now entries) as [payload' built] eqn:Eb.
    subst payload. cbn [fst] in *.
    assert (∀ fs1, Inv0 (COld path entry0 file0) fs1 → Inv0 (λ d _ _, Safe path payload' (faults fs) entry0 file0 d) fs1) as Hold_safe.
    { intros fs1. apply Inv_weaken. intros d hs n [H _]. by apply Old_Safe. }
    eapply hoare_bind; [apply MkdirAll_ok|]. intros [u|e]; [|intros fs1 H; by apply Hold_safe].
    eapply hoare_bind; [by apply CreateTemp_ok|]. intros [h|e]; [|intros fs1 H; by apply Hold_safe].
    eapply hoare_bind; [by apply writeTemp_ok|]. intros [u'|e]; [intros fs1 H; exact H|].
    eapply hoare_bind; [|intros e'; apply (hoare_ret (Err e') (λ r, Inv0 (λ d hs n, match r with Ok _ => CDone path payload' entry0 file0 d hs n | Err _ => Safe path payload' (faults fs) entry0 file0 d end)))].
    by apply cleanup_ok. }
  specialize (Hmain fs Hstart). unfold SaveSnapshot in Hmain. rewrite bool_decide_eq_false_2 in Hmain by done.
  destruct (BuildSnapshot now entries) as [payload' built] eqn:Eb. subst payload. cbn [fst] in *.
  match type of Hmain with context [match ?m with (_, _) => _ end] => destruct m as [r fs'] end.
  split.
  - intros d c Hin Hc. assert (Safe path payload' (faults fs) entry0 file0 d) as Hsafe.
    { refine (Inv_disks _ _ _ _ fs fs' d eq_refl Hmain _ Hin). intros d' hs n. destruct r; [apply CDone_Safe|done]. }
    destruct (Safe_survives _ _ _ _ _ _ _ Hsafe Hc) as [?|[->|[-> Hr]]]; [left; by apply Hold|by right; left|by right; right].
  - intros st -> c Hc. destruct Hmain as ((_ & t & H1 & H3) & _). apply (entryIs_survives _ _ _ _ H1) in Hc. destruct c as [c|]; [|done].
    destruct Hc as (f & Hf & P1 & P2). rewrite H3 in Hf. injection Hf as <-. cbn in *. f_equal. apply (anti_symm prefix); done.
Qed.

(** A directory with an old snapshot in it, and the calls that will fail. *)
Definition demoDisk (failing : list fault) : FS :=
  mkFS (mkDisk {[ 0%nat := mkFile (bs "old") (bs "old") ]} {[ bs "dump.rdb" := 0%nat ]} [])
    ∅ 1 failing [].

Lemma demoDisk_settled failing : settled (demoDisk failing) (bs "dump.rdb").
Proof. split; [by repeat constructor|]. intros ino H. vm_compute in H. injection H as <-. split; [cbn; lia|]. by exists (bs "old"). Qed.

Lemma SaveSnapshot_atomic_witness :
  let entries := [mkStringSnapshot (bs "k") (bs "v") 0] in
  let '(r, fs') := SaveSnapshot (bs "dump.tmp") (bs "dump.rdb") 1000 entries (demoDisk []) in
  ∀ c, survives (fsDisk fs') (bs "dump.rdb") c → c = Some (BuildSnapshot 1000 entries).1.
Proof.
  intros entries.
  pose proof (SaveSnapshot_atomic (bs "dump.tmp") (bs "dump.rdb") 1000 entries (demoDisk []) ltac:(discriminate) (demoDisk_settled [])) as H.
  assert (∃ st, (SaveSnapshot (bs "dump.tmp") (bs "dump.rdb") 1000 entries (demoDisk [])).1 = Ok st) as [st Hst]
    by (eexists; vm_compute; reflexivity).
  destruct (SaveSnapshot (bs "dump.tmp") (bs "dump.rdb") 1000 entries (demoDisk [])) as [r fs'].
  destruct H as [_ H]. exact (H st Hst).
Defined.
