(* ===== verification/Clients.v ===== *)
(** * Clients and the registries that point at them

    Models [client_state.go], [watch_registry.go], [pubsub_registry.go],
    [monitor_registry.go] and [registry.go] of [internal/server].

    A client state is shared: its connection holds it, and the registries hold
    pointers to it, keyed by the client's unique ID.  The [Hub] is that shared
    store: the states by ID, and in each registry the IDs it points at.  An
    operation takes the locks of the registry and of the state it changes, and is
    one step here.

    The response writer of a client is what it has flushed, [outbox], or [None]
    when there is no writer; whether a write succeeds comes from the class
    [Net], as does the order in which a Go map of clients is ranged over. *)

From S2P Require Import Prelude Strconv Resp GoLib.

Class Net := {
  idOrder : gset nat → list nat;
  idOrder_perm : ∀ X, idOrder X ≡ₚ elements X;
  writeOk : nat → bool
}.

Record QueuedCommand := mkQueued { qName : bytes; qArgs : list bytes }.

Record ClientState := mkClient {
  RemoteAddr : bytes;
  boundWatch : bool;      (* [watchRegistry != nil], and so on *)
  watchedKeys : gset bytes;
  boundPubSub : bool;
  subscribedChannels : gset bytes;
  boundMonitor : bool;
  outbox : option bytes;  (* [responseWriter] *)
  writerClosed : bool;
  Authenticated : bool;
  Replica : bool;
  Monitoring : bool;
  ReplicaListenPort : Z;
  LastWriteOffset : Z;
  InTransaction : bool;
  TxFailed : bool;
  TxDirty : bool;
  TxQueue : list QueuedCommand
}.

(** [&ClientState{}]. *)
Definition newClientState : ClientState :=
  mkClient [] false ∅ false ∅ false None false false false false 0 0 false false false [].

(** ** Field updates *)

Definition setConn (addr : bytes) (out : option bytes) (closed : bool) (c : ClientState) : ClientState :=
  mkClient addr (boundWatch c) (watchedKeys c) (boundPubSub c) (subscribedChannels c) (boundMonitor c) out closed
    (Authenticated c) (Replica c) (Monitoring c) (ReplicaListenPort c) (LastWriteOffset c)
    (InTransaction c) (TxFailed c) (TxDirty c) (TxQueue c).
Definition setWatched (bound : bool) (keys : gset bytes) (c : ClientState) : ClientState :=
  mkClient (RemoteAddr c) bound keys (boundPubSub c) (subscribedChannels c) (boundMonitor c) (outbox c) (writerClosed c)
    (Authenticated c) (Replica c) (Monitoring c) (ReplicaListenPort c) (LastWriteOffset c)
    (InTransaction c) (TxFailed c) (TxDirty c) (TxQueue c).
Definition setChannels (bound : bool) (channels : gset bytes) (c : ClientState) : ClientState :=
  mkClient (RemoteAddr c) (boundWatch c) (watchedKeys c) bound channels (boundMonitor c) (outbox c) (writerClosed c)
    (Authenticated c) (Replica c) (Monitoring c) (ReplicaListenPort c) (LastWriteOffset c)
    (InTransaction c) (TxFailed c) (TxDirty c) (TxQueue c).
Definition setMonitor (bound monitoring : bool) (c : ClientState) : ClientState :=
  mkClient (RemoteAddr c) (boundWatch c) (watchedKeys c) (boundPubSub c) (subscribedChannels c) bound (outbox c) (writerClosed c)
    (Authenticated c) (Replica c) monitoring (ReplicaListenPort c) (LastWriteOffset c)
    (InTransaction c) (TxFailed c) (TxDirty c) (TxQueue c).
Definition setRole (auth replica : bool) (port offset : Z) (c : ClientState) : ClientState :=
  mkClient (RemoteAddr c) (boundWatch c) (watchedKeys c) (boundPubSub c) (subscribedChannels c) (boundMonitor c) (outbox c)
    (writerClosed c) auth replica (Monitoring c) port offset
    (InTransaction c) (TxFailed c) (TxDirty c) (TxQueue c).
Definition setTx (active failed dirty : bool) (queue : list QueuedCommand) (c : ClientState) : ClientState :=
  mkClient (RemoteAddr c) (boundWatch c) (watchedKeys c) (boundPubSub c) (subscribedChannels c) (boundMonitor c) (outbox c)
    (writerClosed c) (Authenticated c) (Replica c) (Monitoring c) (ReplicaListenPort c) (LastWriteOffset c)
    active failed dirty queue.

(** ** client_state.go: methods of one state *)

Definition SetAuthenticated (b : bool) (c : ClientState) := setRole b (Replica c) (ReplicaListenPort c) (LastWriteOffset c) c.
Definition SetReplicaListeningPort (port : Z) (c : ClientState) := setRole (Authenticated c) (Replica c) port (LastWriteOffset c) c.
Definition PromoteToReplica (c : ClientState) := setRole (Authenticated c) true (ReplicaListenPort c) (LastWriteOffset c) c.
Definition SetLastWriteReplicationOffset (offset : Z) (c : ClientState) :=
  setRole (Authenticated c) (Replica c) (ReplicaListenPort c) offset c.
Definition SetRemoteAddr (addr : bytes) (c : ClientState) := setConn addr (outbox c) (writerClosed c) c.
Definition BindResponseWriter (w : option bytes) (c : ClientState) :=
  setConn (RemoteAddr c) w (match w with None => true | Some _ => false end) c.
Definition HasActiveResponseWriter (c : ClientState) : bool :=
  negb (writerClosed c) && match outbox c with Some _ => true | None => false end.

(** [BeginTransaction] keeps a failure a watched key has caused before MULTI. *)
Definition BeginTransaction (c : ClientState) : bool * ClientState :=
  if InTransaction c then (false, c) else (true, setTx true (TxFailed c) false [] c).
Definition EnqueueCommand (name : bytes) (args : list bytes) (c : ClientState) :=
  setTx (InTransaction c) (TxFailed c) (TxDirty c) (TxQueue c ++ [mkQueued name args]) c.
Definition MarkTransactionFailed (c : ClientState) := setTx (InTransaction c) true (TxDirty c) (TxQueue c) c.
Definition ClearTransactionFailure (c : ClientState) := setTx (InTransaction c) false (TxDirty c) (TxQueue c) c.
Definition MarkTransactionDirty (c : ClientState) := setTx (InTransaction c) (TxFailed c) true (TxQueue c) c.
Definition DrainTransaction (c : ClientState) : list QueuedCommand * ClientState :=
  (TxQueue c, setTx false (TxFailed c) false [] c).
Definition ResetTransaction (c : ClientState) := setTx false false false [] c.

Definition addSubscribedChannel (channel : bytes) (c : ClientState) := setChannels (boundPubSub c) ({[ channel ]} ∪ subscribedChannels c) c.
Definition removeSubscribedChannel (channel : bytes) (c : ClientState) := setChannels (boundPubSub c) (subscribedChannels c ∖ {[ channel ]}) c.
Definition setMonitoring (monitoring : bool) (c : ClientState) := setMonitor (boundMonitor c) monitoring c.
(** The drained set, in the order of the map, and the state without it. *)
Definition drainWatchedKeys (c : ClientState) : list bytes * ClientState := (elements (watchedKeys c), setWatched (boundWatch c) ∅ c).
Definition drainSubscribedChannels (c : ClientState) : list bytes * ClientState := (elements (subscribedChannels c), setChannels (boundPubSub c) ∅ c).

Definition SubscriptionCount (c : ClientState) : Z := Z.of_nat (size (subscribedChannels c)).
Definition IsSubscribed (c : ClientState) : bool := 0 <? SubscriptionCount c.

(** [sort.Strings] of the channels. *)
Definition stringLe (a b : bytes) : Prop := bytes_ltb b a = false.
#[global] Instance stringLe_dec : RelDecision stringLe.
Proof. intros a b. unfold stringLe. apply _. Defined.
Definition SubscribedChannels (c : ClientState) : list bytes := merge_sort stringLe (elements (subscribedChannels c)).

(** ** The hub *)

Record Hub := mkHub {
  clients : gmap nat ClientState;
  nextID : nat;
  registered : gset nat;               (* [ClientRegistry.clients] *)
  watchers : gmap bytes (gset nat);
  subscribers : gmap bytes (gset nat);
  monitors : gset nat;
  subscriberCount : Z;
  writeCount : nat
}.

Definition NewHub : Hub := mkHub ∅ 0 ∅ ∅ ∅ ∅ 0 0.

Definition setClients (m : gmap nat ClientState) (h : Hub) : Hub :=
  mkHub m (nextID h) (registered h) (watchers h) (subscribers h) (monitors h) (subscriberCount h) (writeCount h).
Definition setRegistered (n : nat) (X : gset nat) (h : Hub) : Hub :=
  mkHub (clients h) n X (watchers h) (subscribers h) (monitors h) (subscriberCount h) (writeCount h).
Definition setWatchers (m : gmap bytes (gset nat)) (h : Hub) : Hub :=
  mkHub (clients h) (nextID h) (registered h) m (subscribers h) (monitors h) (subscriberCount h) (writeCount h).
Definition setSubscribers (m : gmap bytes (gset nat)) (h : Hub) : Hub :=
  mkHub (clients h) (nextID h) (registered h) (watchers h) m (monitors h) (subscriberCount h) (writeCount h).
Definition setMonitors (X : gset nat) (n : Z) (h : Hub) : Hub :=
  mkHub (clients h) (nextID h) (registered h) (watchers h) (subscribers h) X n (writeCount h).
Definition countWrite (h : Hub) : Hub :=
  mkHub (clients h) (nextID h) (registered h) (watchers h) (subscribers h) (monitors h) (subscriberCount h) (S (writeCount h)).

(** Apply a method to the state of client [id]. *)
Definition onClient (id : nat) (f : ClientState → ClientState) (h : Hub) : Hub := setClients (alter f id (clients h)) h.
Definition client (h : Hub) (id : nat) : ClientState := default newClientState (clients h !! id).

(** ** registry.go *)

(** [Add], with the fresh state the server binds to the connection. *)
Definition ClientRegistry_Add (c : ClientState) (h : Hub) : nat * Hub :=
  let id := S (nextID h) in
  (id, setClients (<[id := c]> (clients h)) (setRegistered id ({[ id ]} ∪ registered h) h)).
Definition ClientRegistry_Remove (id : nat) (h : Hub) : Hub := setRegistered (nextID h) (registered h ∖ {[ id ]}) h.
Definition ClientRegistry_Count (h : Hub) : Z := Z.of_nat (size (registered h)).
(** The connections [CloseAll] closes; the registry is emptied. *)
Definition ClientRegistry_CloseAll (h : Hub) : gset nat * Hub := (registered h, setRegistered (nextID h) ∅ h).

(** ** Registries of sets of clients, by key or by channel *)

Definition members (m : gmap bytes (gset nat)) (k : bytes) : gset nat := default ∅ (m !! k).

(** [watchers[state.ID] = state], the inner map made when missing. *)
Definition enroll (id : nat) (k : bytes) (m : gmap bytes (gset nat)) : gmap bytes (gset nat) :=
  <[k := {[ id ]} ∪ members m k]> m.

(** [delete(watchers, state.ID)], and the inner map dropped when empty. *)
Definition withdraw (id : nat) (k : bytes) (m : gmap bytes (gset nat)) : gmap bytes (gset nat) :=
  match m !! k with
  | None => m
  | Some X => let X' := X ∖ {[ id ]} in if decide (size X' = O) then delete k m else <[k := X']> m
  end.

(** ** watch_registry.go *)

Definition addWatchedKey (key : bytes) (c : ClientState) := setWatched (boundWatch c) ({[ key ]} ∪ watchedKeys c) c.

Definition watchKey (id : nat) (h : Hub) (key : bytes) : Hub :=
  if decide (key = []) then h
  else onClient id (addWatchedKey key) (setWatchers (enroll id key (watchers h)) h).
Definition WatchRegistry_Watch (id : nat) (keys : list bytes) (h : Hub) : Hub := foldl (watchKey id) h keys.

(** The watched keys of the client are drained and withdrawn one by one. *)
Definition WatchRegistry_UnwatchAll (id : nat) (h : Hub) : Hub :=
  let keys := (drainWatchedKeys (client h id)).1 in
  let h := onClient id (λ c, (drainWatchedKeys c).2) h in
  setWatchers (foldl (λ m key, withdraw id key m) (watchers h) keys) h.

Definition touchSingleKey (key : bytes) (h : Hub) : Hub :=
  foldl (λ h id, onClient id MarkTransactionFailed h) h (elements (members (watchers h) key)).
(** Several keys: a client that watches more than one is marked once. *)
Definition touchKeys (keys : list bytes) (h : Hub) : Hub :=
  let states := foldl (λ X key, X ∪ members (watchers h) key) ∅ keys in
  foldl (λ h id, onClient id MarkTransactionFailed h) h (elements states).
Definition WatchRegistry_Touch (keys : list bytes) (h : Hub) : Hub :=
  match keys with [] => h | [key] => touchSingleKey key h | _ => touchKeys keys h end.

(** The short cuts change nothing. *)
Lemma WatchRegistry_Touch_keys keys h : WatchRegistry_Touch keys h = touchKeys keys h.
Proof.
  destruct keys as [|key [|key2 keys]]; [done| |done]. cbn [WatchRegistry_Touch]. unfold touchSingleKey, touchKeys. cbn [foldl].
  replace (∅ ∪ members (watchers h) key) with (members (watchers h) key) by set_solver. done.
Qed.

(** [WatchKeys] and [UnwatchAll] of a state. *)
Definition WatchKeys (id : nat) (keys : list bytes) (h : Hub) : Hub :=
  if boundWatch (client h id) then WatchRegistry_Watch id keys h else h.
Definition UnwatchAll (id : nat) (h : Hub) : Hub :=
  onClient id ClearTransactionFailure (if boundWatch (client h id) then WatchRegistry_UnwatchAll id h else h).
Definition SetWatchRegistry (id : nat) (h : Hub) : Hub := onClient id (λ c, setWatched true (watchedKeys c) c) h.

(** ** pubsub_registry.go *)

Definition PubSub_Subscribe (id : nat) (channel : bytes) (h : Hub) : Hub :=
  onClient id (addSubscribedChannel channel)
    (setSubscribers (enroll id channel (subscribers h)) h).
Definition PubSub_Unsubscribe (id : nat) (channel : bytes) (h : Hub) : Hub :=
  onClient id (removeSubscribedChannel channel)
    (setSubscribers (withdraw id channel (subscribers h)) h).
Definition PubSub_UnsubscribeAll (id : nat) (h : Hub) : Hub :=
  let channels := (drainSubscribedChannels (client h id)).1 in
  let h := onClient id (λ c, (drainSubscribedChannels c).2) h in
  setSubscribers (foldl (λ m channel, withdraw id channel m) (subscribers h) channels) h.

Definition SubscribeChannel (id : nat) (channel : bytes) (h : Hub) : Hub :=
  if boundPubSub (client h id) then PubSub_Subscribe id channel h else h.
Definition UnsubscribeChannel (id : nat) (channel : bytes) (h : Hub) : Hub :=
  if boundPubSub (client h id) then PubSub_Unsubscribe id channel h else h.
Definition UnsubscribeAll (id : nat) (h : Hub) : Hub :=
  if boundPubSub (client h id) then PubSub_UnsubscribeAll id h else h.
Definition SetPubSubRegistry (id : nat) (h : Hub) : Hub := onClient id (λ c, setChannels true (subscribedChannels c) c) h.

(** ** monitor_registry.go *)

Definition Monitor_Subscribe (id : nat) (h : Hub) : Hub :=
  let count := if decide (id ∈ monitors h) then subscriberCount h else subscriberCount h + 1 in
  onClient id (setMonitoring true) (setMonitors ({[ id ]} ∪ monitors h) count h).
Definition Monitor_Unsubscribe (id : nat) (h : Hub) : Hub :=
  let h := if decide (id ∈ monitors h) then setMonitors (monitors h ∖ {[ id ]}) (subscriberCount h - 1) h else h in
  onClient id (setMonitoring false) h.
Definition Monitor_Count (h : Hub) : Z := subscriberCount h.
Definition HasSubscribers (h : Hub) : bool := 0 <? subscriberCount h.

Definition StartMonitoring (id : nat) (h : Hub) : Hub :=
  if boundMonitor (client h id) then Monitor_Subscribe id h else h.
Definition StopMonitoring (id : nat) (h : Hub) : Hub :=
  if boundMonitor (client h id) then Monitor_Unsubscribe id h
  else onClient id (setMonitoring false) h.
Definition SetMonitorRegistry (id : nat) (h : Hub) : Hub := onClient id (λ c, setMonitor true (Monitoring c) c) h.

Definition Disconnect (id : nat) (h : Hub) : Hub :=
  let h := onClient id (λ c, setConn (RemoteAddr c) None true c) h in
  let h := onClient id ResetTransaction h in
  UnwatchAll id (UnsubscribeAll id (StopMonitoring id h)).

Section Net.
Context {N : Net}.

Definition PubSub_AppendSubscribers (channel : bytes) (h : Hub) : list nat := idOrder (members (subscribers h) channel).
Definition Monitor_AppendSubscribers (h : Hub) : list nat := idOrder (monitors h).

(** [WriteEncoded] and [WriteEncodedWithDeadline]: write and flush, or an error
    (no writer, or the network). *)
Definition WriteEncoded (id : nat) (payload : bytes) (h : Hub) : bool * Hub :=
  let c := client h id in
  if HasActiveResponseWriter c then
    if writeOk (writeCount h)
    then (true, onClient id (λ c, setConn (RemoteAddr c) (match outbox c with Some out => Some (out ++ payload) | None => None end) (writerClosed c) c) (countWrite h))
    else (false, countWrite h)
  else (false, h).

(** One encoded value, or all of them in one payload. *)
Definition WriteResponses (id : nat) (values : list Value) (h : Hub) : bool * Hub :=
  match EncodeValues values with
  | Err _ => (false, h)
  | Ok payload => WriteEncoded id payload h
  end.

(** A push to each of [ids]; a client that cannot take it is disconnected. *)
Definition pushTo (payload : bytes) (st : Z * Hub) (id : nat) : Z * Hub :=
  let '(delivered, h) := st in
  let '(ok, h) := WriteEncoded id payload h in
  if ok then (delivered + 1, h) else (delivered, Disconnect id h).
End Net.

(** ** Facts *)

Lemma members_enroll id k m k' : members (enroll id k m) k' = if decide (k' = k) then {[ id ]} ∪ members m k else members m k'.
Proof.
  unfold enroll. unfold members at 1. case_decide as H; [subst; by rewrite lookup_insert_eq|]. by rewrite lookup_insert_ne.
Qed.

Lemma members_withdraw id k m k' : members (withdraw id k m) k' = if decide (k' = k) then members m k ∖ {[ id ]} else members m k'.
Proof.
  unfold withdraw. destruct (m !! k) as [X|] eqn:Ek.
  - assert (members m k = X) as -> by (unfold members; by rewrite Ek). cbn zeta. case_decide as Hz.
    + apply size_empty_inv in Hz. unfold members at 1. case_decide as H.
      * subst. rewrite lookup_delete_eq. cbn. set_solver.
      * by rewrite lookup_delete_ne.
    + unfold members at 1. case_decide as H; [subst; by rewrite lookup_insert_eq|]. by rewrite lookup_insert_ne.
  - case_decide as H; [|done]. subst. unfold members. rewrite Ek. cbn. set_solver.
Qed.

(** No inner map is empty. *)
Definition noEmpty (m : gmap bytes (gset nat)) : Prop := ∀ k X, m !! k = Some X → X ≠ ∅.

Lemma noEmpty_enroll id k m : noEmpty m → noEmpty (enroll id k m).
Proof.
  intros H k' X. unfold enroll. destruct (decide (k' = k)) as [->|]; [rewrite lookup_insert_eq; intros [= <-]; set_solver|].
  rewrite lookup_insert_ne by done. apply H.
Qed.

Lemma noEmpty_withdraw id k m : noEmpty m → noEmpty (withdraw id k m).
Proof.
  intros H k' X. unfold withdraw. destruct (m !! k) as [Y|] eqn:Ek; [|apply H]. cbn zeta. case_decide as Hz.
  - destruct (decide (k' = k)) as [->|]; [by rewrite lookup_delete_eq|]. rewrite lookup_delete_ne by done. apply H.
  - destruct (decide (k' = k)) as [->|]; [|rewrite lookup_insert_ne by done; apply H].
    rewrite lookup_insert_eq. intros [= <-] He. rewrite He, size_empty in Hz. done.
Qed.

Lemma withdraw_fold id keys : ∀ m, noEmpty m →
  noEmpty (foldl (λ m key, withdraw id key m) m keys)
  ∧ ∀ k, members (foldl (λ m key, withdraw id key m) m keys) k = if decide (k ∈ keys) then members m k ∖ {[ id ]} else members m k.
Proof.
  induction keys as [|key keys IH]; intros m Hm; cbn [foldl]; [split; [done|]; intros k; by rewrite decide_False by (by intros ?%elem_of_nil)|].
  destruct (IH (withdraw id key m) (noEmpty_withdraw id key m Hm)) as [H1 H2]. split; [done|]. intros k. rewrite H2, members_withdraw.
  destruct (decide (k = key)) as [->|Hk].
  - rewrite (decide_True (P := key ∈ key :: keys)) by (by left). case_decide; [|done]. clear. set_solver.
  - rewrite (decide_ext (k ∈ key :: keys) (k ∈ keys)); [done|]. rewrite elem_of_cons. naive_solver.
Qed.

(** The mirrored membership: a registry points at a client exactly for what the
    client itself records. *)
Definition mirrors (cs : gmap nat ClientState) (own : ClientState → gset bytes) (m : gmap bytes (gset nat)) : Prop :=
  ∀ k id, id ∈ members m k ↔ ∃ c, cs !! id = Some c ∧ k ∈ own c.

(** A client is in a registry only when it is bound to it. *)
Definition Bound (c : ClientState) : Prop :=
  (∀ k, k ∈ watchedKeys c → boundWatch c = true)
  ∧ (∀ k, k ∈ subscribedChannels c → boundPubSub c = true)
  ∧ (Monitoring c = true → boundMonitor c = true).

Record HubInv (h : Hub) : Prop := {
  hi_watch : mirrors (clients h) watchedKeys (watchers h);
  hi_watch_ne : noEmpty (watchers h);
  hi_sub : mirrors (clients h) subscribedChannels (subscribers h);
  hi_sub_ne : noEmpty (subscribers h);
  hi_mon : ∀ id, id ∈ monitors h ↔ ∃ c, clients h !! id = Some c ∧ Monitoring c = true;
  hi_count : subscriberCount h = Z.of_nat (size (monitors h));
  hi_ids : ∀ id c, clients h !! id = Some c → (id ≤ nextID h)%nat;
  hi_reg : ∀ id, id ∈ registered h → is_Some (clients h !! id);
  hi_bound : ∀ id c, clients h !! id = Some c → Bound c
}.

Lemma client_lookup h id c : clients h !! id = Some c → client h id = c.
Proof. intros H. unfold client. by rewrite H. Qed.

(** A method that leaves the mirrored fields alone. *)
Definition silent (f : ClientState → ClientState) : Prop := ∀ c,
  watchedKeys (f c) = watchedKeys c ∧ subscribedChannels (f c) = subscribedChannels c ∧ Monitoring (f c) = Monitoring c
  ∧ (Bound c → Bound (f c)).

Lemma lookup_onClient h id f id' :
  clients (onClient id f h) !! id' = if decide (id' = id) then f <$> clients h !! id else clients h !! id'.
Proof.
  unfold onClient. cbn. case_decide as H; [subst; by rewrite lookup_alter_eq|]. by rewrite lookup_alter_ne.
Qed.

Lemma silent_inv f id h : silent f → HubInv h → HubInv (onClient id f h).
Proof.
  intros Hf [H1 H2 H3 H4 H5 H6 H7 H8 H9].
  assert (∀ {A} (own : ClientState → A) id' (P : A → Prop), (∀ c, own (f c) = own c) →
    (∃ c, clients (onClient id f h) !! id' = Some c ∧ P (own c)) ↔ (∃ c, clients h !! id' = Some c ∧ P (own c))) as Hown.
  { intros A own id' P Ho. rewrite lookup_onClient. case_decide as E; [subst|done]. destruct (clients h !! id) as [c|]; cbn; [|naive_solver].
    split; intros (c' & [= <-] & HP); eexists; (split; [done|]); [rewrite Ho in HP|rewrite Ho]; done. }
  split; try done.
  - intros k id'. rewrite (H1 k id'). symmetry. apply (Hown _ watchedKeys id' (λ X, k ∈ X)). intros c. apply Hf.
  - intros k id'. rewrite (H3 k id'). symmetry. apply (Hown _ subscribedChannels id' (λ X, k ∈ X)). intros c. apply Hf.
  - intros id'. rewrite (H5 id'). symmetry. apply (Hown _ Monitoring id' (λ b, b = true)). intros c. apply Hf.
  - intros id' c. rewrite lookup_onClient. case_decide; [subst|apply H7]. destruct (clients h !! id) eqn:E; [|done]. intros _. by eapply H7.
  - intros id' Hid. rewrite lookup_onClient. case_decide; [subst|by apply H8]. destruct (H8 _ Hid) as [c ->]. by eexists.
  - intros id' c. rewrite lookup_onClient. case_decide; [subst|apply H9]. destruct (clients h !! id) as [c0|] eqn:E; [|done].
    intros [= <-]. apply Hf. by eapply H9.
Qed.

(** Join and leave for one client: its own set and the registry move together. *)
Lemma mirrors_update cs own m m' id c c' :
  mirrors cs own m → cs !! id = Some c →
  (∀ k id', id' ∈ members m' k ↔ if decide (id' = id) then k ∈ own c' else id' ∈ members m k) →
  mirrors (<[id := c']> cs) own m'.
Proof.
  intros Hm Hc H k id'. rewrite H. case_decide as E.
  - subst. rewrite lookup_insert_eq. naive_solver.
  - rewrite lookup_insert_ne by done. apply Hm.
Qed.

Lemma mirrors_same cs own m id c c' : mirrors cs own m → cs !! id = Some c → own c' = own c → mirrors (<[id := c']> cs) own m.
Proof.
  intros Hm Hc Ho. eapply mirrors_update; [done|done|]. intros k id'. case_decide as E; [subst|done]. rewrite Ho, (Hm k id).
  rewrite Hc. naive_solver.
Qed.

Lemma onClient_insert h id f c : clients h !! id = Some c → onClient id f h = setClients (<[id := f c]> (clients h)) h.
Proof.
  intros Hc. unfold onClient. f_equal. apply map_eq. intros i. destruct (decide (i = id)) as [->|].
  - by rewrite lookup_alter_eq, lookup_insert_eq, Hc.
  - by rewrite lookup_alter_ne, lookup_insert_ne.
Qed.

Ltac hub_simpl := unfold setClients, setRegistered, setWatchers, setSubscribers, setMonitors;
  cbn [clients nextID registered watchers subscribers monitors subscriberCount writeCount].

Ltac bound_case := split_and!; cbn; first [done | set_solver | by intros; eauto].

(** One client's state and its registry entry change together; the rest stays. *)
Lemma HubInv_client h id c c' watchers' subscribers' monitors' count' :
  HubInv h → clients h !! id = Some c → Bound c' →
  noEmpty watchers' →
  (∀ k id', id' ∈ members watchers' k ↔ if decide (id' = id) then k ∈ watchedKeys c' else id' ∈ members (watchers h) k) →
  noEmpty subscribers' →
  (∀ k id', id' ∈ members subscribers' k ↔ if decide (id' = id) then k ∈ subscribedChannels c' else id' ∈ members (subscribers h) k) →
  (∀ id', id' ∈ monitors' ↔ if decide (id' = id) then Monitoring c' = true else id' ∈ monitors h) →
  count' = Z.of_nat (size monitors') →
  HubInv (mkHub (<[id := c']> (clients h)) (nextID h) (registered h) watchers' subscribers' monitors' count' (writeCount h)).
Proof.
  intros [H1 H2 H3 H4 H5 H6 H7 H8 H9] Hc Hb Hw1 Hw2 Hs1 Hs2 Hm1 Hm2. split; cbn; try done.
  - by eapply mirrors_update.
  - by eapply mirrors_update.
  - intros id'. rewrite Hm1. case_decide as E; [subst; rewrite lookup_insert_eq; naive_solver|]. by rewrite lookup_insert_ne.
  - intros id' x. destruct (decide (id' = id)) as [->|]; [intros _; by eapply H7|]. rewrite lookup_insert_ne by done. apply H7.
  - intros id' Hid. destruct (decide (id' = id)) as [->|]; [rewrite lookup_insert_eq; by eexists|]. rewrite lookup_insert_ne by done. by apply H8.
  - intros id' x. destruct (decide (id' = id)) as [->|]; [rewrite lookup_insert_eq; by intros [= <-]|]. rewrite lookup_insert_ne by done. apply H9.
Qed.

(** The parts a step leaves alone. *)
Lemma same_members (h : Hub) (id : nat) (c c' : ClientState) (own : ClientState → gset bytes) m :
  mirrors (clients h) own m → clients h !! id = Some c → own c' = own c →
  ∀ k id', id' ∈ members m k ↔ if decide (id' = id) then k ∈ own c' else id' ∈ members m k.
Proof. intros Hm Hc Ho k id'. case_decide as E; [subst|done]. rewrite (Hm k id), Ho, Hc. naive_solver. Qed.

Lemma same_monitors h id c c' :
  HubInv h → clients h !! id = Some c → Monitoring c' = Monitoring c →
  ∀ id', id' ∈ monitors h ↔ if decide (id' = id) then Monitoring c' = true else id' ∈ monitors h.
Proof. intros Hi Hc Ho id'. case_decide as E; [subst|done]. rewrite (hi_mon _ Hi id), Ho, Hc. naive_solver. Qed.

Definition boundTo (field : ClientState → bool) (id : nat) (h : Hub) : Prop := ∃ c, clients h !! id = Some c ∧ field c = true.

Lemma watchKey_inv id key h : HubInv h → boundTo boundWatch id h → HubInv (watchKey id h key) ∧ boundTo boundWatch id (watchKey id h key).
Proof.
  intros Hi (c & Hc & Hb). unfold watchKey. case_decide; [by split; [|eexists]|].
  rewrite (onClient_insert _ _ _ c) by done. split; [|exists (addWatchedKey key c); cbn; by rewrite lookup_insert_eq].
  pose proof (hi_bound _ Hi _ _ Hc) as (Hb1 & Hb2 & Hb3).
  hub_simpl. apply (HubInv_client h id c); [exact Hi|exact Hc|bound_case|..]; try done; try apply Hi; try (by eapply same_members; [apply Hi| |]); try (by eapply same_monitors).
  - apply noEmpty_enroll, Hi.
  - intros k id'. rewrite members_enroll. cbn. case_decide as E1; case_decide as E2; subst; rewrite ?elem_of_union, ?elem_of_singleton.
    + split; [by left|]. by left.
    + split; [|tauto]. intros [?|?]; done.
    + rewrite (hi_watch _ Hi k id), Hc. naive_solver.
    + done.
Qed.

Lemma Watch_inv id keys : ∀ h, HubInv h → boundTo boundWatch id h → HubInv (WatchRegistry_Watch id keys h).
Proof.
  induction keys as [|key keys IH]; intros h Hi Hc; [done|]. cbn. destruct (watchKey_inv id key h Hi Hc). by apply IH.
Qed.

Lemma UnwatchAllR_inv id h : HubInv h → is_Some (clients h !! id) →
  HubInv (WatchRegistry_UnwatchAll id h)
  ∧ ∀ id', clients (WatchRegistry_UnwatchAll id h) !! id' = if decide (id' = id) then (λ c, setWatched (boundWatch c) ∅ c) <$> clients h !! id else clients h !! id'.
Proof.
  intros Hi [c Hc]. unfold WatchRegistry_UnwatchAll. rewrite (client_lookup _ _ _ Hc). cbn zeta.
  rewrite (onClient_insert _ _ _ c) by done. split.
  2: { intros id'. cbn. case_decide; [subst; by rewrite lookup_insert_eq, Hc|by rewrite lookup_insert_ne]. }
  pose proof (hi_bound _ Hi _ _ Hc) as (Hb1 & Hb2 & Hb3).
  destruct (withdraw_fold id (elements (watchedKeys c)) (watchers h) (hi_watch_ne _ Hi)) as [Hne Hm].
  hub_simpl. apply (HubInv_client h id c); [exact Hi|exact Hc|bound_case|..]; try done; try apply Hi; try (by eapply same_members; [apply Hi| |]); try (by eapply same_monitors).
  intros k id'. rewrite Hm. cbn. case_decide as E1; case_decide as E2; subst; rewrite ?elem_of_difference, ?elem_of_singleton.
  - split; [by intros [_ ?]|]. set_solver.
  - tauto.
  - rewrite (hi_watch _ Hi k id), Hc. rewrite elem_of_elements in E1. set_solver.
  - done.
Qed.

Lemma Subscribe_inv id ch h : HubInv h → boundTo boundPubSub id h → HubInv (PubSub_Subscribe id ch h).
Proof.
  intros Hi (c & Hc & Hb). pose proof (hi_bound _ Hi _ _ Hc) as (Hb1 & Hb2 & Hb3). unfold PubSub_Subscribe. rewrite (onClient_insert _ _ _ c) by done.
  hub_simpl. apply (HubInv_client h id c); [exact Hi|exact Hc|bound_case|..]; try done; try apply Hi; try (by eapply same_members; [apply Hi| |]); try (by eapply same_monitors).
  - apply noEmpty_enroll, Hi.
  - intros k id'. rewrite members_enroll. cbn. case_decide as E1; case_decide as E2; subst; rewrite ?elem_of_union, ?elem_of_singleton.
    + split; [by left|]. by left.
    + split; [|tauto]. intros [?|?]; done.
    + rewrite (hi_sub _ Hi k id), Hc. naive_solver.
    + done.
Qed.

Lemma Unsubscribe_inv id ch h : HubInv h → is_Some (clients h !! id) → HubInv (PubSub_Unsubscribe id ch h).
Proof.
  intros Hi [c Hc]. pose proof (hi_bound _ Hi _ _ Hc) as (Hb1 & Hb2 & Hb3). unfold PubSub_Unsubscribe. rewrite (onClient_insert _ _ _ c) by done.
  hub_simpl. apply (HubInv_client h id c); [exact Hi|exact Hc|bound_case|..]; try done; try apply Hi; try (by eapply same_members; [apply Hi| |]); try (by eapply same_monitors).
  - apply noEmpty_withdraw, Hi.
  - intros k id'. rewrite members_withdraw. cbn. case_decide as E1; case_decide as E2; subst; rewrite ?elem_of_difference, ?elem_of_singleton.
    + split; tauto.
    + tauto.
    + rewrite (hi_sub _ Hi k id), Hc. naive_solver.
    + done.
Qed.

Lemma UnsubscribeAllR_inv id h : HubInv h → is_Some (clients h !! id) →
  HubInv (PubSub_UnsubscribeAll id h)
  ∧ ∀ id', clients (PubSub_UnsubscribeAll id h) !! id' = if decide (id' = id) then (λ c, setChannels (boundPubSub c) ∅ c) <$> clients h !! id else clients h !! id'.
Proof.
  intros Hi [c Hc]. unfold PubSub_UnsubscribeAll. rewrite (client_lookup _ _ _ Hc). cbn zeta.
  rewrite (onClient_insert _ _ _ c) by done. split.
  2: { intros id'. cbn. case_decide; [subst; by rewrite lookup_insert_eq, Hc|by rewrite lookup_insert_ne]. }
  pose proof (hi_bound _ Hi _ _ Hc) as (Hb1 & Hb2 & Hb3).
  destruct (withdraw_fold id (elements (subscribedChannels c)) (subscribers h) (hi_sub_ne _ Hi)) as [Hne Hm].
  hub_simpl. apply (HubInv_client h id c); [exact Hi|exact Hc|bound_case|..]; try done; try apply Hi; try (by eapply same_members; [apply Hi| |]); try (by eapply same_monitors).
  intros k id'. rewrite Hm. cbn. case_decide as E1; case_decide as E2; subst; rewrite ?elem_of_difference, ?elem_of_singleton.
  - split; [by intros [_ ?]|]. set_solver.
  - tauto.
  - rewrite (hi_sub _ Hi k id), Hc. rewrite elem_of_elements in E1. set_solver.
  - done.
Qed.

Lemma MonitorSub_inv id h : HubInv h → boundTo boundMonitor id h → HubInv (Monitor_Subscribe id h).
Proof.
  intros Hi (c & Hc & Hb). pose proof (hi_bound _ Hi _ _ Hc) as (Hb1 & Hb2 & Hb3). unfold Monitor_Subscribe. cbn zeta. rewrite (onClient_insert _ _ _ c) by done.
  hub_simpl. apply (HubInv_client h id c); [exact Hi|exact Hc|bound_case|..]; try done; try apply Hi; try (by eapply same_members; [apply Hi| |]).
  - intros id'. rewrite elem_of_union, elem_of_singleton. case_decide; cbn; naive_solver.
  - rewrite (hi_count _ Hi). case_decide as E.
    + f_equal. f_equal. apply set_eq. set_solver.
    + rewrite size_union by set_solver. rewrite size_singleton. lia.
Qed.

Lemma MonitorUnsub_inv id h : HubInv h → is_Some (clients h !! id) → HubInv (Monitor_Unsubscribe id h).
Proof.
  intros Hi [c Hc]. pose proof (hi_bound _ Hi _ _ Hc) as (Hb1 & Hb2 & Hb3). unfold Monitor_Unsubscribe. cbn zeta. case_decide as E.
  - rewrite (onClient_insert _ _ _ c) by done.
    hub_simpl. apply (HubInv_client h id c); [exact Hi|exact Hc|bound_case|..]; try done; try apply Hi; try (by eapply same_members; [apply Hi| |]).
    + intros id'. rewrite elem_of_difference, elem_of_singleton. case_decide; cbn; naive_solver.
    + rewrite (hi_count _ Hi). rewrite size_difference by set_solver. rewrite size_singleton.
      assert (size (monitors h) ≠ 0%nat) as Hne by (intros Hz%size_empty_inv; set_solver). lia.
  - rewrite (onClient_insert _ _ _ c) by done.
    hub_simpl. apply (HubInv_client h id c); [exact Hi|exact Hc|bound_case|..]; try done; try apply Hi; try (by eapply same_members; [apply Hi| |]).
    intros id'. case_decide; [subst; cbn; naive_solver|done].
Qed.

(** ** Steps *)

Section Steps.
Context {N : Net}.

(** A method of a live client that touches no registry. *)
Inductive ownMethod : (ClientState → ClientState) → Prop :=
  | OwnAuth b : ownMethod (SetAuthenticated b)
  | OwnPort p : ownMethod (SetReplicaListeningPort p)
  | OwnPromote : ownMethod PromoteToReplica
  | OwnOffset o : ownMethod (SetLastWriteReplicationOffset o)
  | OwnAddr a : ownMethod (SetRemoteAddr a)
  | OwnWriter w : ownMethod (BindResponseWriter w)
  | OwnBegin : ownMethod (λ c, (BeginTransaction c).2)
  | OwnEnqueue name args : ownMethod (EnqueueCommand name args)
  | OwnDirty : ownMethod MarkTransactionDirty
  | OwnDrain : ownMethod (λ c, (DrainTransaction c).2)
  | OwnReset : ownMethod ResetTransaction.

(** What can happen to the hub; a client acts while its state is there. *)
Inductive hubStep : Hub → Hub → Prop :=
  | StepAccept h : hubStep h (ClientRegistry_Add newClientState h).2
  | StepRemove id h : hubStep h (ClientRegistry_Remove id h)
  | StepCloseAll h : hubStep h (ClientRegistry_CloseAll h).2
  | StepOwn id f h : ownMethod f → hubStep h (onClient id f h)
  | StepBindWatch id h : hubStep h (SetWatchRegistry id h)
  | StepBindPubSub id h : hubStep h (SetPubSubRegistry id h)
  | StepBindMonitor id h : hubStep h (SetMonitorRegistry id h)
  | StepWatch id keys h : is_Some (clients h !! id) → hubStep h (WatchKeys id keys h)
  | StepUnwatch id h : is_Some (clients h !! id) → hubStep h (UnwatchAll id h)
  | StepTouch keys h : hubStep h (WatchRegistry_Touch keys h)
  | StepSubscribe id ch h : is_Some (clients h !! id) → hubStep h (SubscribeChannel id ch h)
  | StepUnsubscribe id ch h : is_Some (clients h !! id) → hubStep h (UnsubscribeChannel id ch h)
  | StepUnsubscribeAll id h : is_Some (clients h !! id) → hubStep h (UnsubscribeAll id h)
  | StepMonitor id h : is_Some (clients h !! id) → hubStep h (StartMonitoring id h)
  | StepStopMonitor id h : is_Some (clients h !! id) → hubStep h (StopMonitoring id h)
  | StepWrite id payload h : hubStep h (WriteEncoded id payload h).2
  | StepPush payload n id h : is_Some (clients h !! id) → hubStep h (pushTo payload (n, h) id).2
  | StepDisconnect id h : is_Some (clients h !! id) → hubStep h (Disconnect id h).

Inductive hubReachable : Hub → Prop :=
  | ReachNew : hubReachable NewHub
  | ReachStep h h' : hubReachable h → hubStep h h' → hubReachable h'.

Lemma NewHub_inv : HubInv NewHub.
Proof. split; cbn; try set_solver; try done; intros k id; unfold members; rewrite lookup_empty; cbn; set_solver. Qed.

Lemma ownMethod_silent f : ownMethod f → silent f.
Proof. destruct 1; try done. intros c. unfold BeginTransaction. by destruct (InTransaction c). Qed.

Lemma onClient_dom id f h id' : is_Some (clients (onClient id f h) !! id') ↔ is_Some (clients h !! id').
Proof. rewrite lookup_onClient. case_decide; [subst; by rewrite fmap_is_Some|done]. Qed.

Lemma UnwatchAll_inv id h : HubInv h → is_Some (clients h !! id) → HubInv (UnwatchAll id h).
Proof. intros Hi Hc. unfold UnwatchAll. apply silent_inv; [done|]. case_match; [by apply UnwatchAllR_inv|done]. Qed.

Lemma StopMonitoring_inv id h : HubInv h → is_Some (clients h !! id) → HubInv (StopMonitoring id h).
Proof.
  intros Hi Hc. unfold StopMonitoring. destruct (boundMonitor (client h id)) eqn:Eb; [by apply MonitorUnsub_inv|].
  destruct Hc as [c Hc]. rewrite (client_lookup _ _ _ Hc) in Eb. pose proof (hi_bound _ Hi _ _ Hc) as (Hb1 & Hb2 & Hb3).
  assert (id ∉ monitors h) as Hn by (intros (c' & Hc' & Hm)%(hi_mon _ Hi); naive_solver congruence).
  rewrite (onClient_insert _ _ _ c) by done. hub_simpl. apply (HubInv_client h id c); [exact Hi|exact Hc|bound_case|..];
    try done; try apply Hi; try (by eapply same_members; [apply Hi| |]).
  intros id'. case_decide; [subst; cbn; naive_solver|done].
Qed.

Lemma bound_client field id h : is_Some (clients h !! id) → field (client h id) = true → boundTo field id h.
Proof. intros [c Hc] Hb. exists c. by rewrite (client_lookup _ _ _ Hc) in Hb. Qed.

Lemma UnsubscribeAll_inv id h : HubInv h → is_Some (clients h !! id) → HubInv (UnsubscribeAll id h).
Proof. intros Hi Hc. unfold UnsubscribeAll. case_match; [by apply UnsubscribeAllR_inv|done]. Qed.

Lemma UnsubscribeAll_dom id h id' : is_Some (clients (UnsubscribeAll id h) !! id') ↔ is_Some (clients h !! id').
Proof. unfold UnsubscribeAll. case_match; [|done]. unfold PubSub_UnsubscribeAll. cbn zeta. apply onClient_dom. Qed.

Lemma StopMonitoring_dom id h id' : is_Some (clients (StopMonitoring id h) !! id') ↔ is_Some (clients h !! id').
Proof.
  unfold StopMonitoring, Monitor_Unsubscribe. cbn zeta. case_match; [|apply onClient_dom]. rewrite onClient_dom. by case_decide.
Qed.

Lemma silent_setConn a o b : silent (λ c, setConn (a c) (o c) (b c) c).
Proof. done. Qed.

Lemma Disconnect_inv id h : HubInv h → is_Some (clients h !! id) → HubInv (Disconnect id h).
Proof.
  intros Hi Hc. unfold Disconnect. cbn zeta.
  set (h1 := onClient id ResetTransaction _). assert (HubInv h1 ∧ is_Some (clients h1 !! id)) as [Hi1 Hc1].
  { unfold h1. rewrite !onClient_dom. split; [|done]. apply silent_inv; [done|]. by apply silent_inv. }
  apply UnwatchAll_inv; [|by rewrite UnsubscribeAll_dom, StopMonitoring_dom].
  apply UnsubscribeAll_inv; [by apply StopMonitoring_inv|by rewrite StopMonitoring_dom].
Qed.

Lemma silent_fold f ids : silent f → ∀ h, HubInv h → HubInv (foldl (λ h id, onClient id f h) h ids).
Proof. intros Hf. induction ids as [|id ids IH]; intros h Hi; [done|]. cbn. by apply IH, silent_inv. Qed.

Lemma WriteEncoded_inv id payload h : HubInv h → HubInv (WriteEncoded id payload h).2 ∧
  ∀ id', is_Some (clients (WriteEncoded id payload h).2 !! id') ↔ is_Some (clients h !! id').
Proof.
  intros Hi. assert (HubInv (countWrite h)) as Hi' by (destruct Hi; by split). unfold WriteEncoded. cbn zeta.
  case_match; [|done]. case_match; cbn [snd]; [|by split]. split; [by apply silent_inv|]. intros id'. by rewrite onClient_dom.
Qed.

Lemma hubStep_inv h h' : hubStep h h' → HubInv h → HubInv h'.
Proof.
  destruct 1 as [h|id h|h|id f h Hf|id h|id h|id h|id keys h Hc|id h Hc|keys h|id ch h Hc|id ch h Hc|id h Hc|id h Hc|id h Hc|id p h|p n id h Hc|id h Hc]; intros Hi.
  - destruct Hi as [H1 H2 H3 H4 H5 H6 H7 H8 H9]. cbn. set (id := S (nextID h)).
    assert (clients h !! id = None) as Hfresh. { apply eq_None_not_Some. intros [c Hc]. apply H7 in Hc. unfold id in Hc. lia. }
    assert (∀ {A} (own : ClientState → A) (P : A → Prop) id', ¬ P (own newClientState) →
      (∃ c, <[id := newClientState]> (clients h) !! id' = Some c ∧ P (own c)) ↔ (∃ c, clients h !! id' = Some c ∧ P (own c))) as Hown.
    { intros A own P id' Hn. destruct (decide (id' = id)) as [->|]; [|by rewrite lookup_insert_ne].
      rewrite lookup_insert_eq, Hfresh. split; [intros (c & [= <-] & HP); done|intros (c & ? & _); done]. }
    split; cbn; try done.
    + intros k id'. rewrite (H1 k id'). symmetry. apply (Hown _ watchedKeys (λ X, k ∈ X)). cbn. set_solver.
    + intros k id'. rewrite (H3 k id'). symmetry. apply (Hown _ subscribedChannels (λ X, k ∈ X)). cbn. set_solver.
    + intros id'. rewrite (H5 id'). symmetry. by apply (Hown _ Monitoring (λ b, b = true)).
    + intros id' c. destruct (decide (id' = id)) as [->|]; [unfold id; intros; lia|]. rewrite lookup_insert_ne by done. intros Hc%H7. lia.
    + intros id'. rewrite elem_of_union, elem_of_singleton. intros [->|Hid]; [rewrite lookup_insert_eq; by eexists|].
      destruct (decide (id' = id)) as [->|]; [rewrite lookup_insert_eq; by eexists|]. rewrite lookup_insert_ne by done. by apply H8.
    + intros id' c. destruct (decide (id' = id)) as [->|]; [rewrite lookup_insert_eq; intros [= <-]; split_and!; cbn; set_solver|].
      rewrite lookup_insert_ne by done. apply H9.
  - destruct Hi. split; cbn; try done; set_solver.
  - destruct Hi. split; cbn; try done; set_solver.
  - apply silent_inv; [by apply ownMethod_silent|done].
  - apply silent_inv; [|done]. intros c. split_and!; try done. intros (?&?&?). split_and!; done.
  - apply silent_inv; [|done]. intros c. split_and!; try done. intros (?&?&?). split_and!; done.
  - apply silent_inv; [|done]. intros c. split_and!; try done. intros (?&?&?). split_and!; done.
  - unfold WatchKeys. case_match; [|done]. apply Watch_inv; [done|]. by apply bound_client.
  - by apply UnwatchAll_inv.
  - rewrite WatchRegistry_Touch_keys. unfold touchKeys. cbn zeta. by apply silent_fold.
  - unfold SubscribeChannel. case_match; [|done]. apply Subscribe_inv; [done|]. by apply bound_client.
  - unfold UnsubscribeChannel. case_match; [|done]. by apply Unsubscribe_inv.
  - by apply UnsubscribeAll_inv.
  - unfold StartMonitoring. case_match; [|done]. apply MonitorSub_inv; [done|]. by apply bound_client.
  - by apply StopMonitoring_inv.
  - by apply WriteEncoded_inv.
  - destruct (WriteEncoded_inv id p h Hi) as [H1 H2]. unfold pushTo. destruct (WriteEncoded id p h) as [ok h1]. cbn [snd] in *.
    destruct ok; [done|]. cbn [snd]. apply Disconnect_inv; [done|]. by apply H2.
  - by apply Disconnect_inv.
Qed.

Lemma reachable_HubInv h : hubReachable h → HubInv h.
Proof. induction 1 as [|h h' _ IH Hs]; [apply NewHub_inv|by eapply hubStep_inv]. Qed.
End Steps.

(** In every reachable state the registries and the clients agree: a client
    is registered under exactly the keys it watches, the channels it subscribes
    to and for MONITOR exactly when it monitors, no empty entry is kept, the
    MONITOR counter is exact, and client IDs are never reused. *)
Theorem hub_reachable_inv (N : Net) h : hubReachable h → HubInv h.
Proof. apply reachable_HubInv. Qed.

Lemma hub_reachable_inv_witness : let N := {| idOrder := elements; idOrder_perm := λ X, reflexivity (elements X); writeOk := λ _, true |} in
  let h := @pushTo N (bs "x") (0, SubscribeChannel 1 (bs "news") (SetPubSubRegistry 1 (ClientRegistry_Add newClientState NewHub).2)) 1 in
  HubInv h.2 ∧ members (subscribers h.2) (bs "news") = ∅.
Proof.
  intros N h. split; [|vm_compute; reflexivity]. apply (hub_reachable_inv N).
  eapply ReachStep; [|apply StepPush; vm_compute; by eexists].
  eapply ReachStep; [|apply StepSubscribe; vm_compute; by eexists].
  eapply ReachStep; [|apply StepBindPubSub]. eapply ReachStep; [apply ReachNew|apply StepAccept].
Defined.

(** ** Touching keys *)

Lemma mark_fold ids : ∀ h id,
  clients (foldl (λ h id, onClient id MarkTransactionFailed h) h ids) !! id
  = if decide (id ∈ ids) then MarkTransactionFailed <$> clients h !! id else clients h !! id.
Proof.
  induction ids as [|i ids IH]; intros h id; cbn [foldl]; [by rewrite decide_False by (by intros ?%elem_of_nil)|].
  rewrite IH, lookup_onClient. destruct (decide (id = i)) as [->|Hne].
  - rewrite (decide_True (P := i ∈ i :: ids)) by (by left). case_decide; [|done]. by destruct (clients h !! i).
  - rewrite (decide_ext (id ∈ i :: ids) (id ∈ ids)); [done|]. rewrite elem_of_cons. naive_solver.
Qed.

Lemma elem_of_touched (m : gmap bytes (gset nat)) keys : ∀ (X : gset nat) id,
  id ∈ foldl (λ X key, X ∪ members m key) X keys ↔ id ∈ X ∨ ∃ k, k ∈ keys ∧ id ∈ members m k.
Proof.
  induction keys as [|key keys IH]; intros X id; cbn [foldl]; [set_solver|]. rewrite IH, elem_of_union.
  setoid_rewrite elem_of_cons. naive_solver.
Qed.

(** Optimistic locking: touching keys fails the transactions of exactly the
    clients that watch one of them, and changes nothing else. *)
Lemma touch_exact h keys id c :
  HubInv h → clients h !! id = Some c →
  clients (WatchRegistry_Touch keys h) !! id
  = Some (if decide (Exists (λ k, k ∈ watchedKeys c) keys) then MarkTransactionFailed c else c).
Proof.
  intros Hi Hc. rewrite WatchRegistry_Touch_keys. unfold touchKeys. cbn zeta. rewrite mark_fold, Hc.
  rewrite (decide_ext (id ∈ _) (Exists (λ k, k ∈ watchedKeys c) keys)); [by case_decide|].
  rewrite elem_of_elements, elem_of_touched, Exists_exists. pose proof (hi_watch _ Hi) as Hm. unfold mirrors in Hm. setoid_rewrite Hm. rewrite Hc.
  split; [intros [?|(k & Hk & c' & [= <-] & Hw)]; [set_solver|by exists k]|].
  intros (k & Hk & Hw). right. exists k. split; [done|]. by exists c.
Qed.

(** ** Disconnecting *)

Lemma lookup_UnwatchAll id h id' : HubInv h → is_Some (clients h !! id) →
  clients (UnwatchAll id h) !! id' = if decide (id' = id)
    then (λ c, ClearTransactionFailure (if boundWatch c then setWatched (boundWatch c) ∅ c else c)) <$> clients h !! id else clients h !! id'.
Proof.
  intros Hi [c Hc]. unfold UnwatchAll. rewrite lookup_onClient, (client_lookup _ _ _ Hc).
  destruct (UnwatchAllR_inv id h Hi) as [_ Hl]; [by eexists|]. destruct (boundWatch c) eqn:Eb.
  - rewrite !Hl. case_decide; [subst|done]. rewrite decide_True by done. rewrite Hc. cbn. by rewrite Eb.
  - case_decide; [subst|done]. rewrite Hc. cbn. by rewrite Eb.
Qed.

Lemma lookup_UnsubscribeAll id h id' : HubInv h → is_Some (clients h !! id) →
  clients (UnsubscribeAll id h) !! id' = if decide (id' = id)
    then (λ c, if boundPubSub c then setChannels (boundPubSub c) ∅ c else c) <$> clients h !! id else clients h !! id'.
Proof.
  intros Hi [c Hc]. unfold UnsubscribeAll. rewrite (client_lookup _ _ _ Hc).
  destruct (UnsubscribeAllR_inv id h Hi) as [_ Hl]; [by eexists|]. destruct (boundPubSub c) eqn:Eb.
  - rewrite Hl. case_decide; [subst|done]. rewrite Hc. cbn. by rewrite Eb.
  - case_decide; [subst|done]. rewrite Hc. cbn. by rewrite Eb.
Qed.

Lemma lookup_StopMonitoring id h id' : is_Some (clients h !! id) →
  clients (StopMonitoring id h) !! id' = if decide (id' = id) then (λ c, setMonitor (boundMonitor c) false c) <$> clients h !! id else clients h !! id'.
Proof.
  intros [c Hc]. unfold StopMonitoring, Monitor_Unsubscribe. cbn zeta.
  destruct (boundMonitor _); rewrite lookup_onClient; [|done]. destruct (decide (id ∈ monitors h)); done.
Qed.

(** The state of a client that has been disconnected. *)
Lemma disconnected h id :
  HubInv h → is_Some (clients h !! id) →
  ∃ c', clients (Disconnect id h) !! id = Some c' ∧ TxQueue c' = [] ∧ watchedKeys c' = ∅
    ∧ (∀ id', id' ≠ id → clients (Disconnect id h) !! id' = clients h !! id')
    ∧ subscribedChannels c' = ∅ ∧ Monitoring c' = false ∧ HasActiveResponseWriter c' = false
    ∧ InTransaction c' = false ∧ TxFailed c' = false.
Proof.
  intros Hi Hc. unfold Disconnect. cbn zeta. set (h1 := onClient id ResetTransaction _).
  assert (HubInv h1 ∧ is_Some (clients h1 !! id)) as [Hi1 Hc1].
  { unfold h1. rewrite !onClient_dom. split; [|done]. apply silent_inv; [done|]. by apply silent_inv. }
  set (h2 := StopMonitoring id h1). assert (HubInv h2 ∧ is_Some (clients h2 !! id)) as [Hi2 Hc2].
  { split; [by apply StopMonitoring_inv|]. unfold h2. by rewrite StopMonitoring_dom. }
  set (h3 := UnsubscribeAll id h2). assert (HubInv h3 ∧ is_Some (clients h3 !! id)) as [Hi3 Hc3].
  { split; [by apply UnsubscribeAll_inv|]. unfold h3. by rewrite UnsubscribeAll_dom. }
  assert (∀ id', clients (UnwatchAll id h3) !! id' = if decide (id' = id) then
    (λ c, ClearTransactionFailure (if boundWatch c then setWatched (boundWatch c) ∅ c else c)) <$>
    ((λ c, if boundPubSub c then setChannels (boundPubSub c) ∅ c else c) <$>
    ((λ c, setMonitor (boundMonitor c) false c) <$> (ResetTransaction <$> ((λ c, setConn (RemoteAddr c) None true c) <$> clients h !! id)))) else clients h !! id') as Hl.
  { intros id'. rewrite lookup_UnwatchAll by done. unfold h3. rewrite !lookup_UnsubscribeAll by done. unfold h2.
    rewrite !lookup_StopMonitoring by done. unfold h1. rewrite !lookup_onClient. by repeat case_decide. }
  destruct Hc as [c Hc]. pose proof (Hl id) as Hid. rewrite decide_True, Hc in Hid by done. cbn [fmap option_fmap option_map] in Hid.
  eexists. split; [exact Hid|]. clear Hid. pose proof (hi_bound _ Hi _ _ Hc) as (Hb1 & Hb2 & Hb3).
  assert (boundWatch c = false → watchedKeys c = ∅) as F1 by (intros F; apply elem_of_equiv_empty_L; intros x Hx%Hb1; congruence).
  assert (boundPubSub c = false → subscribedChannels c = ∅) as F2 by (intros F; apply elem_of_equiv_empty_L; intros x Hx%Hb2; congruence).
  destruct c as [? bw ? bp]. cbn in *. destruct bp, bw; cbn; split_and!; auto; intros id' Hne; rewrite Hl; by rewrite decide_False.
Qed.

(** A disconnected client is gone from every registry, has no writer, no
    transaction and no mode left, and no other client is affected. *)
Theorem disconnect_detaches h id :
  HubInv h → is_Some (clients h !! id) →
  let h' := Disconnect id h in
  (∀ k, id ∉ members (watchers h') k ∧ id ∉ members (subscribers h') k) ∧ id ∉ monitors h'
  ∧ (∀ c, clients h' !! id = Some c → HasActiveResponseWriter c = false ∧ InTransaction c = false ∧ TxQueue c = []
       ∧ TxFailed c = false ∧ IsSubscribed c = false ∧ Monitoring c = false)
  ∧ (∀ id', id' ≠ id → clients h' !! id' = clients h !! id').
Proof.
  intros Hi Hc. cbn zeta. pose proof (Disconnect_inv id h Hi Hc) as Hi'.
  destruct (disconnected h id Hi Hc) as (c' & Hid & E6 & E1 & Hl & E2 & E3 & E4 & E5 & E7). split_and!.
  - intros k. split; [rewrite (hi_watch _ Hi' k id), Hid|rewrite (hi_sub _ Hi' k id), Hid]; intros (? & [= <-] & Hk); [rewrite E1 in Hk|rewrite E2 in Hk]; by apply elem_of_empty in Hk.
  - rewrite (hi_mon _ Hi' id), Hid. intros (? & [= <-] & Hm). congruence.
  - intros ? [= <-]%(eq_trans (eq_sym Hid)). split_and!; try done. unfold IsSubscribed, SubscriptionCount. by rewrite E2, size_empty.
  - done.
Qed.

Lemma disconnect_detaches_witness : let N := {| idOrder := elements; idOrder_perm := λ X, reflexivity (elements X); writeOk := λ _, true |} in
  let h := StartMonitoring 1 (SetMonitorRegistry 1 (ClientRegistry_Add newClientState NewHub).2) in
  1%nat ∈ monitors h ∧ 1%nat ∉ monitors (Disconnect 1 h).
Proof.
  intros N h. split; [apply (bool_decide_unpack _); vm_compute; exact I|].
  assert (HubInv h) as Hi.
  { apply (reachable_HubInv (N := N)). eapply ReachStep; [|apply StepMonitor; vm_compute; by eexists].
    eapply ReachStep; [|apply StepBindMonitor]. eapply ReachStep; [apply ReachNew|apply StepAccept]. }
  apply (disconnect_detaches h 1 Hi). vm_compute. by eexists.
Defined.
