(* ===== verification/Slowlog.v ===== *)
(** * The slow log

    Models [internal/server/slowlog.go]: a ring buffer of the most recent slow
    commands.  It refines the list of everything recorded since the last reset,
    cut to the newest entries that fit. *)

From S2P Require Import Prelude.

Definition defaultSlowlogCapacity : nat := 128.

(** Times and durations are in nanoseconds. *)
Record SlowlogEntry := mkSlow {
  slID : Z;
  slTimestamp : Z;
  slDuration : Z;
  slCommand : list bytes;
  slClientID : nat;
  slClientAddr : bytes
}.

(** [SlowlogEntry{}]. *)
Definition zeroSlow : SlowlogEntry := mkSlow 0 0 0 [] 0 [].

Record SlowlogRegistry := mkSlowlog {
  slEntries : list SlowlogEntry;
  slStart : Z;
  slCount : Z;
  slNextID : Z
}.

Definition NewSlowlogRegistry : SlowlogRegistry := mkSlowlog (replicate defaultSlowlogCapacity zeroSlow) 0 0 0.

Definition withID (e : SlowlogEntry) (id : Z) : SlowlogEntry :=
  mkSlow id (slTimestamp e) (slDuration e) (slCommand e) (slClientID e) (slClientAddr e).

Definition Slowlog_Record (entry : SlowlogEntry) (r : SlowlogRegistry) : SlowlogRegistry :=
  if zlen (slEntries r) =? 0 then r
  else
    let entry := withID entry (slNextID r) in
    let len := zlen (slEntries r) in
    let idx := Z.rem (slStart r + slCount r) len in
    let '(idx, start, count) :=
      if slCount r =? len then (slStart r, Z.rem (slStart r + 1) len, slCount r)
      else (idx, slStart r, slCount r + 1) in
    mkSlowlog (<[Z.to_nat idx := entry]> (slEntries r)) start count (slNextID r + 1).

Definition Slowlog_Entries (limit : Z) (r : SlowlogRegistry) : list SlowlogEntry :=
  let count := if (0 <=? limit) && (limit <? slCount r) then limit else slCount r in
  (λ i : nat,
     let idx := Z.rem (slStart r + slCount r - 1 - Z.of_nat i + zlen (slEntries r)) (zlen (slEntries r)) in
     default zeroSlow (slEntries r !! Z.to_nat idx)) <$> seq 0 (Z.to_nat count).

Definition Slowlog_Len (r : SlowlogRegistry) : Z := slCount r.

Definition Slowlog_Reset (r : SlowlogRegistry) : SlowlogRegistry :=
  mkSlowlog ((λ _, zeroSlow) <$> slEntries r) 0 0 (slNextID r).

(** ** The list it stands for *)

Record SlowlogWf (r : SlowlogRegistry) : Prop := {
  sw_start : 0 ≤ slStart r < zlen (slEntries r);
  sw_count : 0 ≤ slCount r ≤ zlen (slEntries r)
}.

(** The retained entries, oldest first. *)
Definition retained (r : SlowlogRegistry) : list SlowlogEntry :=
  (λ i : nat, default zeroSlow (slEntries r !! Z.to_nat ((slStart r + Z.of_nat i) mod zlen (slEntries r)))) <$> seq 0 (Z.to_nat (slCount r)).

(** The last [n] elements. *)
Definition lastN {A} (n : nat) (l : list A) : list A := drop (length l - n) l.

Lemma mod_wrap a n : 0 ≤ a < 2 * n → a mod n = if a <? n then a else a - n.
Proof.
  intros Ha. destruct (Z.ltb_spec a n); [by rewrite Z.mod_small by lia|].
  replace a with (a - n + 1 * n) at 1 by lia. rewrite Z.mod_add, Z.mod_small by lia. done.
Qed.

(** The slot of the [i]-th entry. *)
Definition slot (r : SlowlogRegistry) (i : nat) : nat := Z.to_nat ((slStart r + Z.of_nat i) mod zlen (slEntries r)).

Lemma slot_eq r i : SlowlogWf r → (i < length (slEntries r))%nat →
  slot r i = Z.to_nat (if slStart r + Z.of_nat i <? zlen (slEntries r) then slStart r + Z.of_nat i else slStart r + Z.of_nat i - zlen (slEntries r)).
Proof. intros [H1 H2] Hi. unfold slot. rewrite mod_wrap; [done|]. unfold zlen in *. lia. Qed.

Lemma slot_lt r i : SlowlogWf r → (i < length (slEntries r))%nat → (slot r i < length (slEntries r))%nat.
Proof. intros Hw Hi. rewrite slot_eq by done. destruct Hw. unfold zlen in *. destruct (Z.ltb_spec (slStart r + Z.of_nat i) (Z.of_nat (length (slEntries r)))); lia. Qed.

Lemma slot_inj r i j : SlowlogWf r → (i < length (slEntries r))%nat → (j < length (slEntries r))%nat → slot r i = slot r j → i = j.
Proof.
  intros Hw Hi Hj. rewrite !slot_eq by done. destruct Hw. unfold zlen in *.
  destruct (Z.ltb_spec (slStart r + Z.of_nat i) (Z.of_nat (length (slEntries r)))),
    (Z.ltb_spec (slStart r + Z.of_nat j) (Z.of_nat (length (slEntries r)))); lia.
Qed.

Lemma length_retained r : length (retained r) = Z.to_nat (slCount r).
Proof. unfold retained. by rewrite length_fmap, length_seq. Qed.

Lemma retained_lookup r i : (i < Z.to_nat (slCount r))%nat → retained r !! i = Some (default zeroSlow (slEntries r !! slot r i)).
Proof. intros Hi. unfold retained. rewrite list_lookup_fmap, lookup_seq_lt by done. done. Qed.

(** The effect of recording [e'], in terms of the retained entries. *)
Definition Recorded (e' : SlowlogEntry) (r r' : SlowlogRegistry) : Prop :=
  SlowlogWf r' ∧ length (slEntries r') = length (slEntries r)
  ∧ retained r' = lastN (length (slEntries r)) (retained r ++ [e']).

(** A full ring: the oldest slot is overwritten. *)
Lemma Record_full e' r next :
  SlowlogWf r → slCount r = zlen (slEntries r) → zlen (slEntries r) ≠ 0 →
  Recorded e' r (mkSlowlog (<[Z.to_nat (slStart r) := e']> (slEntries r)) (Z.rem (slStart r + 1) (zlen (slEntries r))) (slCount r) next).
Proof.
  intros Hw Hfull Hz. pose proof Hw as [H1 H2]. set (n := length (slEntries r)) in *. unfold zlen in *. fold n in H1, H2, Hz, Hfull |- *.
  rewrite Z.rem_mod_nonneg by lia. set (r' := mkSlowlog _ _ _ _).
  assert (length (slEntries r') = n) as Hn by (unfold r'; cbn; by rewrite length_insert).
  assert (SlowlogWf r') as Hw'.
  { split; unfold zlen; rewrite Hn; unfold r'; cbn; [apply Z.mod_pos_bound|]; lia. }
  assert (∀ i, (S i < n)%nat → slot r' i = slot r (S i)) as Hslot.
  { intros i Hi. unfold slot, zlen. rewrite Hn. fold n. unfold r'. cbn [slStart]. rewrite Zplus_mod_idemp_l. do 2 f_equal. lia. }
  split_and!; [done|done|]. unfold lastN. rewrite length_app, length_retained. cbn [length].
  replace (Z.to_nat (slCount r) + 1 - length (slEntries r))%nat with 1%nat by (fold n; lia).
  apply list_eq. intros i. destruct (decide (i < n)%nat) as [Hi|Hi].
  - rewrite retained_lookup by (unfold r'; cbn [slCount]; lia). rewrite lookup_drop. destruct (decide (S i < n)%nat) as [Hlt|Hlast].
    + rewrite lookup_app_l by (rewrite length_retained; lia). change (1 + i)%nat with (S i). rewrite retained_lookup by lia.
      rewrite Hslot by done. do 2 f_equal. unfold r'. cbn [slEntries]. apply list_lookup_insert_ne.
      intros Heq. assert (Z.to_nat (slStart r) = slot r 0) as H0.
      { unfold slot, zlen. fold n. rewrite Z.add_0_r, Z.mod_small by lia. done. }
      rewrite H0 in Heq. apply slot_inj in Heq; [lia|done|fold n; lia|fold n; lia].
    + assert (i = (n - 1)%nat) as -> by lia. rewrite lookup_app_r by (rewrite length_retained; lia). rewrite length_retained.
      replace (1 + (n - 1) - Z.to_nat (slCount r))%nat with 0%nat by lia. cbn.
      assert (slot r' (n - 1) = Z.to_nat (slStart r)) as ->.
      { unfold slot, zlen. rewrite Hn. unfold r'. cbn [slStart]. rewrite Zplus_mod_idemp_l.
        replace (slStart r + 1 + Z.of_nat (n - 1)) with (slStart r + 1 * Z.of_nat n) by lia.
        rewrite Z.mod_add, Z.mod_small by lia. done. }
      rewrite list_lookup_insert_eq by (fold n; lia). done.
  - rewrite !lookup_ge_None_2; [done|rewrite length_drop, length_app, length_retained; cbn [length]; lia|rewrite length_retained; unfold r'; cbn [slCount]; lia].
Qed.

(** Room left: the next free slot is filled. *)
Lemma Record_room e' r next :
  SlowlogWf r → slCount r ≠ zlen (slEntries r) → zlen (slEntries r) ≠ 0 →
  Recorded e' r (mkSlowlog (<[Z.to_nat (Z.rem (slStart r + slCount r) (zlen (slEntries r))) := e']> (slEntries r)) (slStart r) (slCount r + 1) next).
Proof.
  intros Hw Hroom Hz. pose proof Hw as [H1 H2]. set (n := length (slEntries r)) in *. unfold zlen in *. fold n in H1, H2, Hz, Hroom |- *.
  rewrite Z.rem_mod_nonneg by lia. set (r' := mkSlowlog _ _ _ _).
  assert (length (slEntries r') = n) as Hn by (unfold r'; cbn; by rewrite length_insert).
  assert (SlowlogWf r') as Hw' by (split; unfold zlen; rewrite Hn; unfold r'; cbn; lia).
  assert (∀ i, slot r' i = slot r i) as Hslot by (intros i; unfold slot, zlen; by rewrite Hn).
  assert (Z.to_nat ((slStart r + slCount r) mod Z.of_nat n) = slot r (Z.to_nat (slCount r))) as Hidx.
  { unfold slot, zlen. fold n. do 3 f_equal. lia. }
  split_and!; [done|done|]. unfold lastN. rewrite length_app, length_retained. cbn [length].
  replace (Z.to_nat (slCount r) + 1 - length (slEntries r))%nat with 0%nat by (fold n; lia). rewrite drop_0.
  apply list_eq. intros i. destruct (decide (i < Z.to_nat (slCount r) + 1)%nat) as [Hi|Hi].
  - rewrite retained_lookup by (unfold r'; cbn [slCount]; lia). rewrite Hslot. unfold r'. cbn [slEntries]. rewrite Hidx.
    destruct (decide (i < Z.to_nat (slCount r))%nat) as [Hlt|Heq].
    + rewrite lookup_app_l by (rewrite length_retained; lia). rewrite retained_lookup by done. do 2 f_equal.
      apply list_lookup_insert_ne. intros Hs. apply slot_inj in Hs; [lia|done|fold n; lia|fold n; lia].
    + assert (i = Z.to_nat (slCount r)) as -> by lia. rewrite lookup_app_r by (rewrite length_retained; lia).
      rewrite length_retained, Nat.sub_diag. cbn. rewrite list_lookup_insert_eq; [done|]. apply slot_lt; [done|fold n; lia].
  - rewrite !lookup_ge_None_2; [done|rewrite length_app, length_retained; cbn [length]; lia|rewrite length_retained; unfold r'; cbn [slCount]; lia].
Qed.

Lemma Record_spec e r :
  SlowlogWf r → Recorded (withID e (slNextID r)) r (Slowlog_Record e r) ∧ slNextID (Slowlog_Record e r) = slNextID r + 1.
Proof.
  intros Hw. pose proof Hw as [H1 H2]. unfold Slowlog_Record.
  destruct (Z.eqb_spec (zlen (slEntries r)) 0) as [Hz|Hz]; [lia|]. cbv zeta.
  destruct (Z.eqb_spec (slCount r) (zlen (slEntries r))); (split; [|done]); [by apply Record_full|by apply Record_room].
Qed.

Lemma Entries_spec limit r :
  SlowlogWf r → Slowlog_Entries limit r = (if 0 <=? limit then ztake limit (rev (retained r)) else rev (retained r)).
Proof.
  intros [H1 H2]. unfold Slowlog_Entries. cbv zeta.
  assert (∀ k, (k ≤ Z.to_nat (slCount r))%nat → (λ i : nat, default zeroSlow (slEntries r !! Z.to_nat (Z.rem
    (slStart r + slCount r - 1 - Z.of_nat i + zlen (slEntries r)) (zlen (slEntries r))))) <$> seq 0 k = take k (rev (retained r))) as Hk.
  { intros k Hle. apply list_eq. intros i. destruct (decide (i < k)%nat) as [Hi|Hi].
    - rewrite list_lookup_fmap, lookup_seq_lt, lookup_take_lt by done. cbn [fmap option_fmap option_map Nat.add].
      rewrite rev_alt. change (rev_append (retained r) []) with (reverse (retained r)).
      rewrite reverse_lookup by (rewrite length_retained; lia). rewrite length_retained, retained_lookup by lia. do 3 f_equal.
      unfold slot. rewrite Z.rem_mod_nonneg by lia. f_equal.
      replace (slStart r + slCount r - 1 - Z.of_nat i + zlen (slEntries r)) with (slStart r + Z.of_nat (Z.to_nat (slCount r) - S i) + 1 * zlen (slEntries r)) by lia.
      by rewrite Z.mod_add by lia.
    - rewrite !lookup_ge_None_2; [done|rewrite length_take; lia|rewrite length_fmap, length_seq; lia]. }
  rewrite Hk by (destruct (Z.leb_spec 0 limit), (Z.ltb_spec limit (slCount r)); cbn [andb]; lia).
  destruct (Z.leb_spec 0 limit), (Z.ltb_spec limit (slCount r)); cbn [andb]; try done; unfold ztake.
  - rewrite !take_ge; [done| |]; rewrite length_rev, length_retained; lia.
  - rewrite take_ge; [done|]. rewrite length_rev, length_retained. lia.
  - rewrite take_ge; [done|]. rewrite length_rev, length_retained. lia.
Qed.

(** ** Runs *)

Inductive slowOp := SlowRecord (e : SlowlogEntry) | SlowReset.
Definition slowStep (r : SlowlogRegistry) (op : slowOp) : SlowlogRegistry :=
  match op with SlowRecord e => Slowlog_Record e r | SlowReset => Slowlog_Reset r end.

(** The specification: the entries since the last reset with their IDs, and the
    number of entries ever recorded. *)
Definition slowSpec (st : list SlowlogEntry * Z) (op : slowOp) : list SlowlogEntry * Z :=
  match op with SlowRecord e => (st.1 ++ [withID e st.2], st.2 + 1) | SlowReset => ([], st.2) end.

Lemma lastN_lastN {A} n (l k : list A) : lastN n (lastN n l ++ k) = lastN n (l ++ k).
Proof.
  unfold lastN. rewrite !length_app, length_drop.
  destruct (decide (length l ≤ n)%nat) as [Hs|Hs].
  - replace (length l - n)%nat with 0%nat by lia. by rewrite drop_0, Nat.sub_0_r.
  - rewrite <- (drop_app_le l k (length l - n)) by lia. rewrite drop_drop. f_equal. lia.
Qed.

Lemma slow_refines ops : ∀ r st, SlowlogWf r → retained r = lastN (length (slEntries r)) st.1 → slNextID r = st.2 →
  let r' := foldl slowStep r ops in let st' := foldl slowSpec st ops in
  SlowlogWf r' ∧ retained r' = lastN (length (slEntries r)) st'.1.
Proof.
  induction ops as [|op ops IH]; intros r st Hw Hr Hn; [done|]. cbn [foldl]. destruct op as [e|]; cbn [slowStep slowSpec].
  - destruct (Record_spec e r Hw) as [(H1 & H2 & H3) H4]. destruct (IH (Slowlog_Record e r) (st.1 ++ [withID e st.2], st.2 + 1) H1) as [G1 G2].
    + cbn [fst]. by rewrite H3, H2, Hr, Hn, lastN_lastN.
    + cbn [snd]. by rewrite H4, Hn.
    + split; [done|]. by rewrite G2, H2.
  - destruct (IH (Slowlog_Reset r) ([], st.2)) as [G1 G2].
    + destruct Hw. split; unfold Slowlog_Reset, zlen in *; cbn; rewrite length_fmap; lia.
    + done.
    + done.
    + split; [done|]. rewrite G2. cbn [Slowlog_Reset slEntries]. by rewrite length_fmap.
Qed.

(** SLOWLOG GET returns the newest slow commands first, at most 128 and at
    most the limit asked for, each with the number it was recorded under; a reset
    forgets them and the numbering goes on. *)
Theorem slowlog_newest_first ops limit :
  let log := rev (lastN defaultSlowlogCapacity (foldl slowSpec ([], 0) ops).1) in
  Slowlog_Entries limit (foldl slowStep NewSlowlogRegistry ops) = (if 0 <=? limit then ztake limit log else log)
  ∧ Slowlog_Len (foldl slowStep NewSlowlogRegistry ops) = zlen log.
Proof.
  cbn zeta. destruct (slow_refines ops NewSlowlogRegistry ([], 0)) as [H1 H2]; [split; unfold zlen; cbn; unfold defaultSlowlogCapacity; cbn; lia|done|done|].
  change (length (slEntries NewSlowlogRegistry)) with defaultSlowlogCapacity in H2.
  rewrite <- H2. split; [by apply Entries_spec|]. unfold Slowlog_Len, zlen. rewrite length_rev, length_retained.
  destruct H1. lia.
Qed.
