(* ===== verification/GoText.v ===== *)
(** * Text functions of [strings], [strconv] and [unicode/utf8]

    Case mapping, folding and quoting as the command layer, the handler and the
    log lines use them.  [strings.ToUpper], [ToLower] and [EqualFold] work byte
    by byte on ASCII text and go to the Unicode tables only when a byte beyond
    ASCII occurs; the tables are the class [Unicode]. *)

From S2P Require Import Prelude Strconv GoLib.

(** The Unicode tables: mapping, folding and splitting of text that is not
    ASCII, and [strconv.IsPrint] on code points from 128 on. *)
Class Unicode := {
  mapUpper : bytes → bytes;
  mapLower : bytes → bytes;
  foldRest : bytes → bytes → bool;
  fieldsUni : bytes → list bytes;
  trimUni : bytes → bytes;
  isPrintUni : Z → bool
}.

Definition isASCII (s : bytes) : bool := forallb (λ c, b2z c <? 128) s.

Definition lowerOf (b : byte) : byte :=
  if (65 <=? b2z b) && (b2z b <=? 90) then z2b (b2z b + 32) else b.

(** ** UTF-8 *)

(** The range of the second byte after a leading byte, and the bytes that follow. *)
Definition leading (c : Z) : option (nat * Z * Z) :=
  if (194 <=? c) && (c <=? 223) then Some (1%nat, 128, 191)
  else if c =? 224 then Some (2%nat, 160, 191)
  else if c =? 237 then Some (2%nat, 128, 159)
  else if (225 <=? c) && (c <=? 239) then Some (2%nat, 128, 191)
  else if c =? 240 then Some (3%nat, 144, 191)
  else if (241 <=? c) && (c <=? 243) then Some (3%nat, 128, 191)
  else if c =? 244 then Some (3%nat, 128, 143)
  else None.

(** [utf8.DecodeRuneInString] on non-empty text: the code point and its width,
    or [None] for an invalid byte (RuneError of width 1). *)
Definition DecodeRune (s : bytes) : option (Z * nat) :=
  match s with
  | [] => None
  | c0 :: rest =>
      if b2z c0 <? 128 then Some (b2z c0, 1%nat)
      else
        match leading (b2z c0) with
        | None => None
        | Some (n, lo, hi) =>
            match rest with
            | [] => None
            | c1 :: rest' =>
                let tail := take (n - 1) rest' in
                if (lo <=? b2z c1) && (b2z c1 <=? hi) && (length tail =? n - 1)%nat
                   && forallb (λ c, (128 <=? b2z c) && (b2z c <=? 191)) tail
                then
                  let lead := match n with 1%nat => Z.land (b2z c0) 31 | 2%nat => Z.land (b2z c0) 15 | _ => Z.land (b2z c0) 7 end in
                  Some (foldl (λ r c, r * 64 + Z.land (b2z c) 63) lead (c1 :: tail), S n)
                else None
            end
        end
  end.

(** ** Quoting *)

Definition hexDigit (d : Z) : byte := if d <? 10 then z2b (48 + d) else z2b (87 + d).
Fixpoint hexDigits (n : nat) (v : Z) : bytes :=
  match n with O => [] | S n' => hexDigits n' (v / 16) ++ [hexDigit (v mod 16)] end.

(** The escapes with a letter: [\a], [\b], [\f], [\n], [\r], [\t], [\v]. *)
Definition letterEscape (r : Z) : option byte :=
  if r =? 7 then Some "a"%byte else if r =? 8 then Some "b"%byte else if r =? 12 then Some "f"%byte
  else if r =? 10 then Some "n"%byte else if r =? 13 then Some "r"%byte else if r =? 9 then Some "t"%byte
  else if r =? 11 then Some "v"%byte else None.

Definition backslash : byte := x5c.

Section Unicode.
Context {U : Unicode}.

Definition strings_ToUpper (s : bytes) : bytes := if isASCII s then ToUpper s else mapUpper s.
Definition strings_ToLower (s : bytes) : bytes := if isASCII s then lowerOf <$> s else mapLower s.

(** [strings.EqualFold]: byte by byte up to the first byte beyond ASCII. *)
Fixpoint EqualFold (s t : bytes) : bool :=
  match s, t with
  | a :: s', c :: t' =>
      if (128 <=? b2z a) || (128 <=? b2z c) then foldRest s t
      else if b2z (lowerOf a) =? b2z (lowerOf c) then EqualFold s' t'
      else false
  | [], [] => true
  | _, _ => false
  end.

(** The fields of ASCII text between runs of white space. *)
Definition asciiSpace (c : byte) : bool := ((9 <=? b2z c) && (b2z c <=? 13)) || (b2z c =? 32).
Fixpoint asciiFields (s word : bytes) : list bytes :=
  match s with
  | [] => match word with [] => [] | _ => [word] end
  | c :: s' =>
      if asciiSpace c then match word with [] => asciiFields s' [] | _ => word :: asciiFields s' [] end
      else asciiFields s' (word ++ [c])
  end.
Definition strings_Fields (s : bytes) : list bytes := if isASCII s then asciiFields s [] else fieldsUni s.

(** [strings.TrimSpace]. *)
Fixpoint dropSpaces (s : bytes) : bytes :=
  match s with c :: s' => if asciiSpace c then dropSpaces s' else s | [] => [] end.
Definition strings_TrimSpace (s : bytes) : bytes :=
  if isASCII s then rev (dropSpaces (rev (dropSpaces s))) else trimUni s.

Definition isPrint (r : Z) : bool := if r <? 128 then (32 <=? r) && (r <? 127) else isPrintUni r.

(** [appendEscapedRune] with the double quote; [raw] is the text of the rune. *)
Definition escapeRune (asciiOnly : bool) (r : Z) (raw : bytes) : bytes :=
  if (r =? 34) || (r =? 92) then backslash :: raw
  else if (if asciiOnly then (r <? 128) && isPrint r else isPrint r) then raw
  else match letterEscape r with
       | Some c => [backslash; c]
       | None =>
           if (r <? 32) || (r =? 127) then [backslash; "x"%byte] ++ hexDigits 2 r
           else if r <? 65536 then [backslash; "u"%byte] ++ hexDigits 4 r
           else [backslash; "U"%byte] ++ hexDigits 8 r
       end.

(** The loop of [quoteWith]; every round consumes a byte, so the length is fuel enough. *)
Fixpoint quoteLoop (fuel : nat) (asciiOnly : bool) (s : bytes) : bytes :=
  match fuel, s with
  | S fuel', c :: s' =>
      match DecodeRune s with
      | Some (r, width) => escapeRune asciiOnly r (take width s) ++ quoteLoop fuel' asciiOnly (drop width s)
      | None => [backslash; "x"%byte] ++ hexDigits 2 (b2z c) ++ quoteLoop fuel' asciiOnly s'
      end
  | _, _ => []
  end.

Definition quoteWith (asciiOnly : bool) (s : bytes) : bytes := [x22] ++ quoteLoop (length s) asciiOnly s ++ [x22].

(** [strconv.Quote], which [%q] prints, and [strconv.QuoteToASCII]. *)
Definition Quote (s : bytes) : bytes := quoteWith false s.
Definition QuoteToASCII (s : bytes) : bytes := quoteWith true s.
End Unicode.

(** Tables with no case beyond ASCII, to run the model on concrete text. *)
Definition asciiOnlyTables : Unicode := {|
  mapUpper := λ s, s; mapLower := λ s, s; foldRest := λ s t, bool_decide (s = t); fieldsUni := λ s, [s]; trimUni := λ s, s; isPrintUni := λ _, true |}.

Example QuoteToASCII_examples :
  QuoteToASCII (U := asciiOnlyTables) (bs "a" ++ [x0a; xc3; xa9; xff; x00; x22; x5c; xf0; x9f; x98; x80])
  = [x22] ++ bs "a" ++ [x5c] ++ bs "n" ++ [x5c] ++ bs "u00e9" ++ [x5c] ++ bs "xff" ++ [x5c] ++ bs "x00" ++ [x5c; x22; x5c; x5c; x5c]
    ++ bs "U0001f600" ++ [x22].
Proof. reflexivity. Qed.

Example EqualFold_examples :
  (λ p, EqualFold (U := asciiOnlyTables) p.1 p.2) <$> [(bs "WithScores", bs "WITHSCORES"); (bs "streams", bs "STREAM"); (bs "[", bs "{")]
  = [true; false; false].
Proof. reflexivity. Qed.

(** Case mapping of ASCII text. *)
Lemma upperByte_ascii c : b2z c < 128 → b2z (upperByte c) < 128.
Proof. by destruct c. Qed.

Lemma ToUpper_idem s : ToUpper (ToUpper s) = ToUpper s.
Proof. unfold ToUpper. rewrite <-list_fmap_compose. apply list_fmap_ext. intros _ c _. by destruct c. Qed.

Lemma isASCII_ToUpper s : isASCII s = true → isASCII (ToUpper s) = true.
Proof.
  unfold isASCII, ToUpper. rewrite !forallb_forall. intros H c Hc. rewrite <-list_elem_of_In in Hc.
  apply list_elem_of_fmap in Hc as (c' & -> & Hc'). apply Z.ltb_lt, upperByte_ascii, Z.ltb_lt, H. by rewrite <-list_elem_of_In.
Qed.

(** An ASCII name is in upper case after one mapping. *)
Lemma strings_ToUpper_idem `{Unicode} s : isASCII s = true → strings_ToUpper (strings_ToUpper s) = strings_ToUpper s.
Proof.
  intros Hs. unfold strings_ToUpper at 2 3. rewrite Hs. unfold strings_ToUpper. rewrite isASCII_ToUpper by done. apply ToUpper_idem.
Qed.
