(* ===== verification/Strfloat.v ===== *)
(** * Decimal text of doubles, as the server uses it from [strconv]

    [strconv.ParseFloat(s, 64)]: the grammar is the scanner [readFloat] of
    strconv (sign, digits with one dot, underscores between digits, hexadecimal
    mantissas, exponent), the value is the nearest double with ties to even,
    computed on integers.  [strconv.FormatFloat(x, 'g', -1, 64)] prints the
    shortest digits that read back as [x]; with 'f' it prints a fixed number of
    decimals of the exact value.  GEOADD, ZADD and the rewritten append-only
    file pass scores through this text, and [ParseFloat_FormatFloat] shows that
    nothing is lost. *)

From S2P Require Import Prelude Strconv Float64.

(** ** Rounding a quotient *)

(** [n < d * 2^e] and the quotient [n / (d * 2^e)] as an integer fraction. *)
Definition scaled (n d e : Z) : Z * Z := if 0 <=? e then (n, d * 2 ^ e) else (n * 2 ^ (- e), d).
Definition belowPow (n d e : Z) : bool := let '(n', d') := scaled n d e in n' <? d'.

(** The least [e >= -1074] with [n / d < 2^(e + 53)]: the exponent of a double
    next to the quotient. *)
Definition roundExp (n d : Z) : Z :=
  let g := Z.log2 n - Z.log2 d in
  Z.max (-1074) (if belowPow n d g then g - 53 else g - 52).

(** The double nearest to [n / d], ties to even; [None] when it overflows. *)
Definition roundQ (neg : bool) (n d : Z) : option float64 :=
  if n =? 0 then Some (S754_zero neg)
  else
    let e := roundExp n d in
    let '(n', d') := scaled n d e in
    let m := n' / d' in
    let r := n' mod d' in
    let m := if (2 * r <? d') || ((2 * r =? d') && Z.even m) then m else m + 1 in
    let '(m, e) := if m =? 2 ^ 53 then (2 ^ 52, e + 1) else (m, e) in
    if m =? 0 then Some (S754_zero neg)
    else if 971 <? e then None
    else Some (S754_finite neg (Z.to_pos m) e).

(** ** [readFloat] *)

(** [lower(c)]. *)
Definition lowerByte (c : byte) : Z := Z.lor (b2z c) 32.

(** What the digit loop of [readFloat] accumulates; the mantissa is exact. *)
Record mantissa := mkMantissa { sawdot : bool; sawdigits : bool; nd : Z; dp : Z; mant : Z; underscores : bool }.

(** The loop, with what is left at the byte that stops it. *)
Fixpoint scanDigits (base : Z) (s : bytes) (a : mantissa) : mantissa * bytes :=
  match s with
  | [] => (a, [])
  | c :: s' =>
      if b2z c =? 95 then scanDigits base s' (mkMantissa (sawdot a) (sawdigits a) (nd a) (dp a) (mant a) true)
      else if b2z c =? 46 then
        if sawdot a then (a, s)
        else scanDigits base s' (mkMantissa true (sawdigits a) (nd a) (nd a) (mant a) (underscores a))
      else if is_digit c then
        if (b2z c =? 48) && (nd a =? 0)
        then scanDigits base s' (mkMantissa (sawdot a) true (nd a) (dp a - 1) (mant a) (underscores a))
        else scanDigits base s' (mkMantissa (sawdot a) true (nd a + 1) (dp a) (mant a * base + digit_val c) (underscores a))
      else if (base =? 16) && (97 <=? lowerByte c) && (lowerByte c <=? 102)
        then scanDigits base s' (mkMantissa (sawdot a) true (nd a + 1) (dp a) (mant a * 16 + (lowerByte c - 87)) (underscores a))
      else (a, s)
  end.

(** The exponent digits: the value stops growing at 10000. *)
Fixpoint scanExp (s : bytes) (e : Z) (us : bool) : Z * bool * bytes :=
  match s with
  | [] => (e, us, [])
  | c :: s' =>
      if b2z c =? 95 then scanExp s' e true
      else if is_digit c then scanExp s' (if e <? 10000 then e * 10 + digit_val c else e) us
      else (e, us, s)
  end.

(** [underscoreOK]: every underscore stands between digits or after the base
    prefix.  [prev] is '^', '0', '_' or '!' as in the source. *)
Fixpoint underscoreLoop (hex : bool) (prev : Z) (s : bytes) : bool :=
  match s with
  | [] => negb (prev =? 95)
  | c :: s' =>
      if is_digit c || (hex && (97 <=? lowerByte c) && (lowerByte c <=? 102)) then underscoreLoop hex 48 s'
      else if b2z c =? 95 then (if prev =? 48 then underscoreLoop hex 95 s' else false)
      else if prev =? 95 then false else underscoreLoop hex 33 s'
  end.
Definition isSign (c : byte) : bool := (b2z c =? 43) || (b2z c =? 45).
Definition underscoreOK (s : bytes) : bool :=
  let s := match s with c :: s' => if isSign c then s' else s | [] => s end in
  match s with
  | z :: x :: s' =>
      if (b2z z =? 48) && ((lowerByte x =? 98) || (lowerByte x =? 111) || (lowerByte x =? 120))
      then underscoreLoop (lowerByte x =? 120) 48 s'
      else underscoreLoop false 94 s
  | _ => underscoreLoop false 94 s
  end.

(** An optional exponent after [expChar]: its value, whether it has underscores
    and the rest; [None] where [readFloat] gives up. *)
Definition readExponent (expChar : Z) (s : bytes) : option (Z * bool * bytes) :=
  match s with
  | c :: s' =>
      if lowerByte c =? expChar then
        let '(esign, s'') := match s' with
                             | c' :: r => if b2z c' =? 43 then (1, r) else if b2z c' =? 45 then (-1, r) else (1, s')
                             | [] => (1, s')
                             end in
        match s'' with
        | c' :: _ => if is_digit c' then let '(e, us, rest) := scanExp s'' 0 false in Some (esign * e, us, rest) else None
        | [] => None
        end
      else if expChar =? 112 then None else Some (0, false, s)
  | [] => if expChar =? 112 then None else Some (0, false, s)
  end.

(** The quotient [mant * 10^k] or [mant * 2^k], rounded. *)
Definition scaleRound (neg : bool) (base m k : Z) : option float64 :=
  if 0 <=? k then roundQ neg (m * base ^ k) 1 else roundQ neg m (base ^ (- k)).

(** The number the whole of [s] spells. *)
Definition readFloat (s : bytes) : option float64 :=
  let '(neg, t) := match s with
                   | c :: s' => if b2z c =? 43 then (false, s') else if b2z c =? 45 then (true, s') else (false, s)
                   | [] => (false, s)
                   end in
  let '(base, expChar, t) := match t with
                    | z :: x :: (_ :: _) as s' =>
                        if (b2z z =? 48) && (lowerByte x =? 120) then (16, 112, drop 2 t) else (10, 101, t)
                    | _ => (10, 101, t)
                    end in
  let '(a, rest) := scanDigits base t (mkMantissa false false 0 0 0 false) in
  if negb (sawdigits a) then None
  else
    let point := if sawdot a then dp a else nd a in
    match readExponent expChar rest with
    | None => None
    | Some (e, us, rest) =>
        if (underscores a || us) && negb (underscoreOK s) then None
        else if negb (zlen rest =? 0) then None
        else if base =? 16 then scaleRound neg 2 (mant a) (4 * point + e - 4 * nd a)
        else scaleRound neg 10 (mant a) (point + e - nd a)
    end.

(** [special]: an infinity or NaN, letters in either case. *)
Definition special (s : bytes) : option float64 :=
  let word t := (λ c, lowerByte c) <$> t in
  let isWord t w := bool_decide (word t = (λ c, b2z c) <$> bs w) in
  let '(neg, signed, t) := match s with
                   | c :: s' => if b2z c =? 43 then (false, true, s') else if b2z c =? 45 then (true, true, s') else (false, false, s)
                   | [] => (false, false, s)
                   end in
  if isWord t "inf" || isWord t "infinity" then Some (S754_infinity neg)
  else if negb signed && isWord t "nan" then Some S754_nan
  else None.

(** [strconv.ParseFloat(s, 64)], [None] for a non-nil error. *)
Definition ParseFloat (s : bytes) : option float64 :=
  match special s with Some x => Some x | None => readFloat s end.

(** ** [FormatFloat] *)

(** The value [m * 2^e] as a fraction. *)
Definition fraction (m e : Z) : Z * Z := if 0 <=? e then (m * 2 ^ e, 1) else (m, 2 ^ (- e)).

(** [n] digits of [c], the most significant first. *)
Fixpoint digitsOf (n : nat) (c : Z) : bytes :=
  match n with O => [] | S n' => digitsOf n' (c / 10) ++ [digit_byte (c mod 10)] end.

Fixpoint dropZeros (r : bytes) : bytes :=
  match r with c :: r' => if b2z c =? 48 then dropZeros r' else r | [] => [] end.
Definition trimZeros (ds : bytes) : bytes := rev (dropZeros (rev ds)).

(** The least [k' >= k] with [n / d < 10^k'], looked for [fuel] times. *)
Fixpoint decExp (fuel : nat) (n d k : Z) : Z :=
  match fuel with
  | O => k
  | S fuel' => if (if 0 <=? k then n <? d * 10 ^ k else n * 10 ^ (- k) <? d) then k else decExp fuel' n d (k + 1)
  end.

(** The numerator and denominator of [n / d * 10^p]. *)
Definition scaled10 (n d p : Z) : Z * Z := if 0 <=? p then (n * 10 ^ p, d) else (n, d * 10 ^ (- p)).

(** The integers around a fraction, the nearer one first (ties to even). *)
Definition nearest (n d : Z) : Z * Z :=
  let q := n / d in
  let r := n mod d in
  if (2 * r <? d) || ((2 * r =? d) && Z.even q) then (q, if r =? 0 then q else q + 1) else (q + 1, q).

(** The first [c * 10^(k-n)], [n] digits long, that reads back as [x]. *)
Fixpoint shortestLoop (fuel : nat) (x : float64) (neg : bool) (num den k : Z) (n : nat) : Z * nat :=
  let '(a, b) := let '(u, v) := scaled10 num den (Z.of_nat n - k) in nearest u v in
  match fuel with
  | O => (a, n)
  | S fuel' =>
      if bool_decide (scaleRound neg 10 a (k - Z.of_nat n) = Some x) then (a, n)
      else if bool_decide (scaleRound neg 10 b (k - Z.of_nat n) = Some x) then (b, n)
      else shortestLoop fuel' x neg num den k (S n)
  end.

(** The digits [d] and the decimal point [dp] of the shortest text; 17 digits
    always suffice, and all digits of the exact value bound the search.  A double
    lies between 10^-324 and 10^310; the estimate from the binary logarithms is
    at most a few steps off. *)
Definition shortest (neg : bool) (m : positive) (e : Z) : bytes * Z :=
  let '(num, den) := fraction (Zpos m) e in
  let estimate := (Z.log2 num - Z.log2 den - 1) * 30103 / 100000 in
  let k := decExp 640 num den (Z.max (-324) (Z.min 310 estimate)) in
  let '(c, n) := shortestLoop (Z.to_nat (Z.max (k - e) k)) (S754_finite neg m e) neg num den k 1 in
  let width := if c <? 10 ^ Z.of_nat n then n else S n in
  (trimZeros (digitsOf width c), k + Z.of_nat (width - n)).

Definition signText (neg : bool) : bytes := if neg then bs "-" else [].

(** [fmtE]: one digit, the rest after a dot, a signed exponent of at least two digits. *)
Definition fmtE (d : bytes) (point : Z) : bytes :=
  let '(first, rest) := match d with c :: r => ([c], r) | [] => (bs "0", []) end in
  let exp := match d with [] => 0 | _ => point - 1 end in
  first ++ (if zlen rest =? 0 then [] else bs "." ++ rest) ++ bs "e" ++ (if exp <? 0 then bs "-" else bs "+")
    ++ (if Z.abs exp <? 10 then bs "0" else []) ++ FormatUint (Z.abs exp).

(** [fmtF] with [prec] decimals. *)
Definition fmtF (d : bytes) (point prec : Z) : bytes :=
  (if 0 <? point then ztake point d ++ replicate (Z.to_nat (point - zlen d)) "0"%byte else bs "0")
  ++ (if 0 <? prec then bs "." ++ ((λ i, let j := point + Z.of_nat i in
        if (0 <=? j) && (j <? zlen d) then default x00 (d !! Z.to_nat j) else "0"%byte) <$> seq 0 (Z.to_nat prec)) else []).

(** [strconv.FormatFloat(x, 'g', -1, 64)]. *)
Definition FormatFloat (x : float64) : bytes :=
  match x with
  | S754_nan => bs "NaN"
  | S754_infinity neg => if neg then bs "-Inf" else bs "+Inf"
  | S754_zero neg => signText neg ++ fmtF [] 0 0
  | S754_finite neg m e =>
      let '(d, point) := shortest neg m e in
      let exp := point - 1 in
      signText neg ++ (if (exp <? -4) || (6 <=? exp) then fmtE d point else fmtF d point (Z.max (zlen d - point) 0))
  end.

(** [strconv.FormatFloat(x, 'f', prec, 64)]: the exact value, rounded half to even. *)
Definition FormatFixed (prec : Z) (x : float64) : bytes :=
  match x with
  | S754_nan => bs "NaN"
  | S754_infinity neg => if neg then bs "-Inf" else bs "+Inf"
  | S754_zero neg => signText neg ++ fmtF [] 0 prec
  | S754_finite neg m e =>
      let '(num, den) := fraction (Zpos m) e in
      let c := (nearest (num * 10 ^ prec) den).1 in
      let width := Z.to_nat (Z.log2 c + 1) in
      let d := dropZeros (digitsOf width c) in
      signText neg ++ fmtF d (zlen d - prec) prec
  end.

Example FormatFloat_examples :
  let f n d := default S754_nan (roundQ false n d) in
  (FormatFloat <$> [f 1 10; f 123456789 1; f 1000000 1; f 100000 1; f 5 (10 ^ 324); f 1 3; f 2 1; f (2 ^ 1024 - 1) 1; f 314 100; f 1 10000; f 1 100000; f 4503599627370497 4])
  = [bs "0.1"; bs "1.23456789e+08"; bs "1e+06"; bs "100000"; bs "5e-324"; bs "0.3333333333333333"; bs "2"; bs "NaN"; bs "3.14"; bs "0.0001"; bs "1e-05"; bs "1.1258999068426242e+15"].
Proof. vm_compute. reflexivity. Qed.

Example ParseFloat_examples :
  (ParseFloat <$> [bs "0.1"; bs "+1e3"; bs "0x1p-2"; bs "1_000.5"; bs "_1"; bs "1__0"; bs "1e"; bs "."; bs "1e400"; bs "Inf"; bs "-infinity"; bs "+nan"; bs "0x_8p0"; bs "-0"; bs "1.2.3"; bs ""])
  = [roundQ false 1 10; Some (floatOfZ 1000); roundQ false 1 4; roundQ false 2001 2; None; None; None; None; None;
     Some (S754_infinity false); Some (S754_infinity true); None; Some (floatOfZ 8); Some (S754_zero true); None; None].
Proof. vm_compute. reflexivity. Qed.

Example FormatFixed_examples :
  (FormatFixed 2 <$> [floatOfZ 1; default S754_nan (roundQ false 1 8); default S754_nan (roundQ true 3 1000); floatOfZ 1234567])
  = [bs "1.00"; bs "0.12"; bs "-0.00"; bs "1234567.00"].
Proof. vm_compute. reflexivity. Qed.

(** ** Rounding depends on the quotient alone *)

(** A power of two is positive. *)
Ltac pow_pos t := pose proof (Z.pow_pos_nonneg 2 t ltac:(lia) ltac:(lia)).

Lemma belowPow_shift n d e t : 0 ≤ t → 0 ≤ e + t → belowPow n d e = (n * 2 ^ t <? d * 2 ^ (e + t)).
Proof.
  intros Ht He. unfold belowPow, scaled. destruct (Z.leb_spec 0 e) as [H|H].
  - rewrite Z.pow_add_r, Z.mul_assoc by lia. pow_pos t. apply eq_bool_prop_intro. rewrite !Is_true_true, !Z.ltb_lt.
    by apply Z.mul_lt_mono_pos_r.
  - replace t with (- e + (e + t)) at 1 by lia. rewrite Z.pow_add_r, Z.mul_assoc by lia.
    pow_pos (e + t). apply eq_bool_prop_intro. rewrite !Is_true_true, !Z.ltb_lt. by apply Z.mul_lt_mono_pos_r.
Qed.

Lemma scaled_spec n d e : 0 < d → 0 ≤ n →
  let '(n', d') := scaled n d e in 0 ≤ n' ∧ 0 < d' ∧ ∀ t, 0 ≤ t → 0 ≤ e + t → n' * (d * 2 ^ (e + t)) = (n * 2 ^ t) * d'.
Proof.
  intros Hd Hn. unfold scaled. destruct (Z.leb_spec 0 e) as [H|H].
  - pow_pos e. split_and!; [lia|nia|]. intros t ??. rewrite Z.pow_add_r by lia. ring.
  - pow_pos (- e). split_and!; [nia|lia|]. intros t ??.
    replace (2 ^ t) with (2 ^ (- e) * 2 ^ (e + t)); [ring|]. rewrite <-Z.pow_add_r by lia. f_equal. lia.
Qed.

Lemma belowPow_mono n d e e' : 0 < d → e ≤ e' → belowPow n d e = true → belowPow n d e' = true.
Proof.
  intros Hd He. set (t := Z.abs e + Z.abs e'). rewrite !(belowPow_shift n d _ t) by lia. rewrite !Z.ltb_lt. intros H.
  replace (e' + t) with ((e' - e) + (e + t)) by lia. rewrite Z.pow_add_r by lia.
  pow_pos (e' - e). pow_pos (e + t). nia.
Qed.

(** What [roundExp] picks. *)
Definition isRoundExp (n d e : Z) : Prop :=
  -1074 ≤ e ∧ belowPow n d (e + 53) = true ∧ (e = -1074 ∨ belowPow n d (e + 52) = false).

Lemma isRoundExp_unique n d e e' : 0 < d → isRoundExp n d e → isRoundExp n d e' → e = e'.
Proof.
  intros Hd (H1 & H2 & H3) (G1 & G2 & G3). destruct (Z.lt_trichotomy e e') as [?|[?|?]]; [|done|].
  - destruct G3 as [->|G3]; [lia|]. by rewrite (belowPow_mono n d (e + 53) (e' + 52)) in G3 by (done || lia).
  - destruct H3 as [->|H3]; [lia|]. by rewrite (belowPow_mono n d (e' + 53) (e + 52)) in H3 by (done || lia).
Qed.

Lemma roundExp_spec n d : 0 < n → 0 < d → isRoundExp n d (roundExp n d).
Proof.
  intros Hn Hd. unfold isRoundExp, roundExp. set (g := Z.log2 n - Z.log2 d).
  pose proof (Z.log2_spec n Hn) as [Hn1 Hn2]. pose proof (Z.log2_spec d Hd) as [Hd1 Hd2].
  pose proof (Z.log2_nonneg n). pose proof (Z.log2_nonneg d).
  assert (belowPow n d (g + 1) = true) as Hup.
  { rewrite (belowPow_shift _ _ _ (Z.log2 d)) by (unfold g; lia). apply Z.ltb_lt. unfold g.
    replace (Z.log2 n - Z.log2 d + 1 + Z.log2 d) with (Z.succ (Z.log2 n)) by lia.
    pow_pos (Z.log2 d). nia. }
  assert (belowPow n d (g - 1) = false) as Hlow.
  { rewrite (belowPow_shift _ _ _ (Z.succ (Z.log2 d))) by (unfold g; lia). apply Z.ltb_ge. unfold g.
    replace (Z.log2 n - Z.log2 d - 1 + Z.succ (Z.log2 d)) with (Z.log2 n) by lia.
    pow_pos (Z.log2 n). nia. }
  destruct (belowPow n d g) eqn:Eg.
  - destruct (Z.max_spec (-1074) (g - 53)) as [[? ->]|[? ->]].
    + split_and!; [lia|by replace (g - 53 + 53) with g by lia|right; by replace (g - 53 + 52) with (g - 1) by lia].
    + split_and!; [lia| |by left]. by apply (belowPow_mono n d g); [done|lia|].
  - destruct (Z.max_spec (-1074) (g - 52)) as [[? ->]|[? ->]].
    + split_and!; [lia|by replace (g - 52 + 53) with (g + 1) by lia|right; by replace (g - 52 + 52) with g by lia].
    + split_and!; [lia| |by left]. by apply (belowPow_mono n d (g + 1)); [done|lia|].
Qed.

Lemma div_cross n1 d1 n2 d2 : 0 < d1 → 0 < d2 → n1 * d2 = n2 * d1 →
  n1 / d1 = n2 / d2 ∧ (n1 mod d1) * d2 = (n2 mod d2) * d1.
Proof.
  intros H1 H2 Hx. pose proof (Z.div_mod n1 d1 ltac:(lia)). pose proof (Z.mod_pos_bound n1 d1 H1).
  assert (n1 / d1 = n2 / d2) as Hq by (apply (Z.div_unique _ _ _ (n2 - d2 * (n1 / d1))); [left; nia|lia]).
  split; [done|]. rewrite !Z.mod_eq, Hq by lia. nia.
Qed.

Lemma belowPow_cross n1 d1 n2 d2 e : 0 < d1 → 0 < d2 → n1 * d2 = n2 * d1 → belowPow n1 d1 e = belowPow n2 d2 e.
Proof.
  intros H1 H2 Hx. rewrite !(belowPow_shift _ _ e (Z.abs e)) by lia. apply eq_bool_prop_intro. rewrite !Is_true_true, !Z.ltb_lt.
  pow_pos (Z.abs e). pow_pos (e + Z.abs e). split; nia.
Qed.

Lemma roundQ_cross neg n1 d1 n2 d2 :
  0 ≤ n1 → 0 ≤ n2 → 0 < d1 → 0 < d2 → n1 * d2 = n2 * d1 → roundQ neg n1 d1 = roundQ neg n2 d2.
Proof.
  intros Hn1 Hn2 Hd1 Hd2 Hx. unfold roundQ.
  destruct (Z.eqb_spec n1 0) as [->|Hz1]; destruct (Z.eqb_spec n2 0) as [->|Hz2]; [done|nia|nia|].
  assert (roundExp n2 d2 = roundExp n1 d1) as ->.
  { apply (isRoundExp_unique n1 d1); [done| |apply roundExp_spec; lia].
    unfold isRoundExp. rewrite !(belowPow_cross n1 d1 n2 d2) by done. apply roundExp_spec; lia. }
  set (e := roundExp n1 d1). pose proof (scaled_spec n1 d1 e Hd1 Hn1) as S1. pose proof (scaled_spec n2 d2 e Hd2 Hn2) as S2.
  destruct (scaled n1 d1 e) as [a1 b1], (scaled n2 d2 e) as [a2 b2]. destruct S1 as (_ & Hb1 & S1), S2 as (_ & Hb2 & S2).
  specialize (S1 (Z.abs e) ltac:(lia) ltac:(lia)). specialize (S2 (Z.abs e) ltac:(lia) ltac:(lia)).
  assert (a1 * b2 = a2 * b1) as Hc.
  { pow_pos (Z.abs e). pow_pos (e + Z.abs e).
    set (p := 2 ^ Z.abs e) in *. set (q := 2 ^ (e + Z.abs e)) in *.
    apply (Z.mul_reg_r _ _ (d1 * d2 * q)); [nia|].
    transitivity (a1 * (d1 * q) * (b2 * d2)); [ring|]. rewrite S1.
    transitivity (a2 * (d2 * q) * (b1 * d1)); [rewrite S2|ring].
    transitivity (n1 * d2 * (p * b1 * b2)); [ring|]. rewrite Hx. ring. }
  destruct (div_cross a1 b1 a2 b2 Hb1 Hb2 Hc) as [-> Hr].
  replace (2 * (a1 mod b1) <? b1) with (2 * (a2 mod b2) <? b2); [replace (2 * (a1 mod b1) =? b1) with (2 * (a2 mod b2) =? b2); [done|]|];
    apply eq_bool_prop_intro; rewrite !Is_true_true, ?Z.ltb_lt, ?Z.eqb_eq; split; nia.
Qed.

(** ** A double rounds to itself *)

Lemma fraction_spec m e : 0 < m →
  let '(n, d) := fraction m e in 0 < n ∧ 0 < d ∧ ∀ t, 0 ≤ t → 0 ≤ e + t → n * 2 ^ t = m * 2 ^ (e + t) * d.
Proof.
  intros Hm. unfold fraction. destruct (Z.leb_spec 0 e) as [H|H].
  - pow_pos e. split_and!; [nia|lia|]. intros t ??. rewrite Z.pow_add_r by lia. ring.
  - pow_pos (- e). split_and!; [lia|lia|]. intros t ??.
    replace (2 ^ t) with (2 ^ (- e) * 2 ^ (e + t)); [ring|]. rewrite <-Z.pow_add_r by lia. f_equal. lia.
Qed.

(** A double in canonical form: what [valid_binary] says of it. *)
Lemma bounded_spec m e : bounded 53 1024 m e = true →
  Zpos m < 2 ^ 53 ∧ -1074 ≤ e ≤ 971 ∧ (e = -1074 ∨ 2 ^ 52 ≤ Zpos m).
Proof.
  unfold bounded, canonical_mantissa, fexp, emin. intros [H1%Z.eqb_eq H2%Z.leb_le]%andb_true_iff.
  assert (Zpos (digits2_pos m) = Z.log2 (Zpos m) + 1) as Hd.
  { clear. induction m as [m IH|m IH|]; [| |done]; cbn [digits2_pos]; rewrite Pos2Z.inj_succ, IH.
    - rewrite Pos2Z.inj_xI, Z.log2_succ_double by lia. lia.
    - rewrite Pos2Z.inj_xO, Z.log2_double by lia. lia. }
  rewrite Hd in H1. pose proof (Z.log2_spec (Zpos m) ltac:(lia)) as [L1 L2]. pose proof (Z.log2_nonneg (Zpos m)).
  split_and!; [|lia|lia|].
  - eapply Z.lt_le_trans; [done|]. apply Z.pow_le_mono_r; lia.
  - destruct (Z.eq_dec e (-1074)); [by left|right]. etrans; [|done]. apply Z.pow_le_mono_r; lia.
Qed.

Lemma roundQ_exact neg m e : bounded 53 1024 m e = true →
  let '(n, d) := fraction (Zpos m) e in roundQ neg n d = Some (S754_finite neg m e).
Proof.
  intros Hb. apply bounded_spec in Hb as (Hm & He & Hc). pose proof (fraction_spec (Zpos m) e ltac:(lia)) as F.
  destruct (fraction (Zpos m) e) as [n d]. destruct F as (Hn & Hd & F).
  assert (roundExp n d = e) as Hre.
  { apply (isRoundExp_unique n d); [done|apply roundExp_spec; lia|].
    split_and!; [lia| |destruct Hc as [?|Hc]; [by left|right]];
      rewrite (belowPow_shift n d _ 1074) by lia; [apply Z.ltb_lt|apply Z.ltb_ge]; rewrite F by lia; pow_pos (e + 1074).
    - replace (e + 53 + 1074) with (53 + (e + 1074)) by lia. rewrite (Z.pow_add_r 2 53) by lia.
      rewrite (Z.mul_comm d), <-!Z.mul_assoc. apply Z.mul_lt_mono_pos_r; [nia|done].
    - replace (e + 52 + 1074) with (52 + (e + 1074)) by lia. rewrite (Z.pow_add_r 2 52) by lia.
      rewrite (Z.mul_comm d), <-!Z.mul_assoc. apply Z.mul_le_mono_pos_r; [nia|done]. }
  unfold roundQ. rewrite (proj2 (Z.eqb_neq n 0)) by lia. rewrite Hre.
  pose proof (scaled_spec n d e Hd ltac:(lia)) as S. destruct (scaled n d e) as [a b]. destruct S as (_ & Hb' & S).
  specialize (S 1074 ltac:(lia) ltac:(lia)). rewrite F in S by lia. pow_pos (e + 1074).
  assert (a = Zpos m * b) as ->.
  { apply (Z.mul_reg_r _ _ (d * 2 ^ (e + 1074))); [nia|]. rewrite S. ring. }
  rewrite Z.div_mul, Z.mod_mul by lia. rewrite (proj2 (Z.ltb_lt (2 * 0) b)) by lia. cbn [orb].
  rewrite (proj2 (Z.eqb_neq (Zpos m) (2 ^ 53))) by lia. rewrite (proj2 (Z.eqb_neq (Zpos m) 0)) by lia.
  rewrite (proj2 (Z.ltb_ge 971 e)) by lia. done.
Qed.

(** ** Powers of ten *)

Lemma pow10_pos t : 0 ≤ t → 0 < 10 ^ t.
Proof. intros. apply Z.pow_pos_nonneg; lia. Qed.

Lemma scaleRound_shift neg v z p : 0 ≤ v → 0 ≤ z → scaleRound neg 10 (v * 10 ^ z) p = scaleRound neg 10 v (p + z).
Proof.
  intros Hv Hz. unfold scaleRound. pose proof (pow10_pos z Hz).
  destruct (Z.leb_spec 0 p), (Z.leb_spec 0 (p + z)); try lia.
  - f_equal. rewrite Z.add_comm, Z.pow_add_r by lia. ring.
  - pose proof (pow10_pos (- p) ltac:(lia)). pose proof (pow10_pos (p + z) ltac:(lia)). apply roundQ_cross; try nia.
    replace (10 ^ z) with (10 ^ (- p) * 10 ^ (p + z)); [ring|]. rewrite <-Z.pow_add_r by lia. f_equal. lia.
  - pose proof (pow10_pos (- p) ltac:(lia)). pose proof (pow10_pos (- (p + z)) ltac:(lia)). apply roundQ_cross; try nia.
    replace (10 ^ (- p)) with (10 ^ z * 10 ^ (- (p + z))); [ring|]. rewrite <-Z.pow_add_r by lia. f_equal. lia.
Qed.

(** [n / d * 10^p] for a decimal power that makes it an integer. *)
Lemma scaleRound_exact neg n d p : 0 < n → 0 < d →
  let '(u, v) := scaled10 n d p in u mod v = 0 → scaleRound neg 10 (u / v) (- p) = roundQ neg n d.
Proof.
  intros Hn Hd. unfold scaled10, scaleRound. destruct (Z.leb_spec 0 p).
  - pose proof (pow10_pos p ltac:(lia)). intros Hmod. pose proof (Z.div_mod (n * 10 ^ p) d ltac:(lia)) as Hdm.
    pose proof (Z.div_pos (n * 10 ^ p) d ltac:(nia) ltac:(lia)).
    destruct (Z.leb_spec 0 (- p)).
    + assert (p = 0) as -> by lia. apply roundQ_cross; nia.
    + rewrite Z.opp_involutive. apply roundQ_cross; nia.
  - pose proof (pow10_pos (- p) ltac:(lia)). intros Hmod. pose proof (Z.div_mod n (d * 10 ^ (- p)) ltac:(nia)) as Hdm.
    pose proof (Z.div_pos n (d * 10 ^ (- p)) ltac:(lia) ltac:(nia)).
    rewrite (proj2 (Z.leb_le 0 (- p))) by lia. apply roundQ_cross; nia.
Qed.

(** ** The digit search *)

Lemma scaled10_spec n d p : 0 < n → 0 < d → let '(u, v) := scaled10 n d p in 0 < u ∧ 0 < v.
Proof.
  intros Hn Hd. unfold scaled10. destruct (Z.leb_spec 0 p).
  - pose proof (pow10_pos p ltac:(lia)). nia.
  - pose proof (pow10_pos (- p) ltac:(lia)). nia.
Qed.

Lemma nearest_spec u v : 0 ≤ u → 0 < v →
  let '(a, b) := nearest u v in
  0 ≤ a ≤ u / v + 1 ∧ 0 ≤ b ≤ u / v + 1 ∧ (u mod v = 0 → a = u / v) ∧ (u mod v = 0 → a * v = u).
Proof.
  intros Hu Hv. unfold nearest. pose proof (Z.div_pos u v Hu Hv). pose proof (Z.mod_pos_bound u v Hv).
  pose proof (Z.div_mod u v ltac:(lia)).
  destruct ((2 * (u mod v) <? v) || ((2 * (u mod v) =? v) && Z.even (u / v))) eqn:E.
  - split_and!; try lia; destruct (u mod v =? 0); lia.
  - apply orb_false_iff in E as [E _]. bool_to_prop. split_and!; lia.
Qed.

(** [n / d < 10^k]. *)
Definition belowTen (n d k : Z) : bool := if 0 <=? k then n <? d * 10 ^ k else n * 10 ^ (- k) <? d.

Lemma belowTen_scaled n d k j : 0 < n → 0 < d → 0 ≤ j → belowTen n d k = true →
  let '(u, v) := scaled10 n d (j - k) in u / v < 10 ^ j.
Proof.
  intros Hn Hd Hj. pose proof (scaled10_spec n d (j - k) Hn Hd) as Hs. unfold belowTen, scaled10 in *.
  pose proof (pow10_pos j Hj). destruct (Z.leb_spec 0 (j - k)), (Z.leb_spec 0 k); intros B%Z.ltb_lt;
    (apply Z.div_lt_upper_bound; [lia|]).
  - replace j with (k + (j - k)) at 2 by lia. rewrite Z.pow_add_r by lia. pose proof (pow10_pos (j - k) ltac:(lia)). nia.
  - replace (j - k) with (- k + j) by lia. rewrite Z.pow_add_r by lia. nia.
  - rewrite <-Z.mul_assoc, <-Z.pow_add_r by lia. by replace (- (j - k) + j) with k by lia.
  - lia.
Qed.

Lemma shortestLoop_spec neg m e num den k fuel : ∀ n,
  bounded 53 1024 m e = true → fraction (Zpos m) e = (num, den) →
  k ≤ Z.of_nat (n + fuel) → k - e ≤ Z.of_nat (n + fuel) → belowTen num den k = true →
  let '(c, n') := shortestLoop fuel (S754_finite neg m e) neg num den k n in
  scaleRound neg 10 c (k - Z.of_nat n') = Some (S754_finite neg m e) ∧ 0 ≤ c ≤ 10 ^ Z.of_nat n' ∧ (n ≤ n')%nat.
Proof.
  intros n Hb Hfr Hk1 Hk2 Hten. revert n Hk1 Hk2.
  pose proof (fraction_spec (Zpos m) e ltac:(lia)) as F. rewrite Hfr in F. destruct F as (Hn & Hd & F).
  induction fuel as [|fuel IH]; intros n Hk1 Hk2; cbn [shortestLoop];
    pose proof (scaled10_spec num den (Z.of_nat n - k) Hn Hd) as S;
    pose proof (belowTen_scaled num den k (Z.of_nat n) Hn Hd ltac:(lia) Hten) as B;
    pose proof (scaleRound_exact neg num den (Z.of_nat n - k) Hn Hd) as X;
    pose proof (roundQ_exact neg m e Hb) as R; rewrite Hfr in R;
    destruct (scaled10 num den (Z.of_nat n - k)) as [u v] eqn:Euv; destruct S as [Hu Hv];
    pose proof (nearest_spec u v ltac:(lia) Hv) as N; destruct (nearest u v) as [a b]; destruct N as (Ha & Hb' & Ne & _).
  - split_and!; [|lia|lia|done]. assert (u mod v = 0) as Hz.
    { unfold scaled10 in Euv. rewrite (proj2 (Z.leb_le 0 _)) in Euv by lia. simplify_eq.
      apply Z.mod_divide; [lia|]. unfold fraction in Hfr. destruct (Z.leb_spec 0 e); simplify_eq; [apply Z.divide_1_l|].
      apply Z.divide_mul_r. replace (Z.of_nat n - k) with (- e + (Z.of_nat n - k + e)) by lia.
      rewrite Z.pow_add_r by lia. apply Z.divide_mul_l. exists (5 ^ (- e)). rewrite <-Z.pow_mul_l. done. }
    rewrite (Ne Hz). specialize (X Hz). replace (k - Z.of_nat n) with (- (Z.of_nat n - k)) by lia. congruence.
  - destruct (bool_decide_reflect (scaleRound neg 10 a (k - Z.of_nat n) = Some (S754_finite neg m e))); [split_and!; (done || lia)|].
    destruct (bool_decide_reflect (scaleRound neg 10 b (k - Z.of_nat n) = Some (S754_finite neg m e))); [split_and!; (done || lia)|].
    specialize (IH (S n) ltac:(lia) ltac:(lia)). destruct (shortestLoop fuel _ neg num den k (S n)) as [c n'].
    destruct IH as (? & ? & ?). split_and!; (done || lia).
Qed.

Lemma decExp_spec fuel n d : ∀ k, belowTen n d (k + Z.of_nat fuel) = true →
  belowTen n d (decExp fuel n d k) = true ∧ k ≤ decExp fuel n d k ≤ k + Z.of_nat fuel.
Proof.
  induction fuel as [|fuel IH]; intros k H; cbn [decExp].
  - replace (k + Z.of_nat 0) with k in H by lia. split; [done|lia].
  - change (if 0 <=? k then n <? d * 10 ^ k else n * 10 ^ (- k) <? d) with (belowTen n d k).
    destruct (belowTen n d k) eqn:E; [split; [done|lia]|].
    destruct (IH (k + 1)) as [? ?]; [by replace (k + 1 + Z.of_nat fuel) with (k + Z.of_nat (S fuel)) by lia|]. split; [done|lia].
Qed.

(** Every double is below 10^316. *)
Lemma double_belowTen m e k : bounded 53 1024 m e = true → 316 ≤ k →
  let '(n, d) := fraction (Zpos m) e in belowTen n d k = true.
Proof.
  intros Hb Hk. apply bounded_spec in Hb as (Hm & He & _). pose proof (fraction_spec (Zpos m) e ltac:(lia)) as F.
  destruct (fraction (Zpos m) e) as [n d]. destruct F as (Hn & Hd & F).
  unfold belowTen. rewrite (proj2 (Z.leb_le 0 k)) by lia. apply Z.ltb_lt. specialize (F 1074 ltac:(lia) ltac:(lia)).
  assert (2 ^ 1024 ≤ 10 ^ k) as Hp.
  { etrans; [|apply Z.pow_le_mono_r; [lia|exact Hk]]. apply Z.leb_le. vm_compute. reflexivity. }
  assert (2 ^ (e + 1074) ≤ 2 ^ (971 + 1074)) as He2 by (apply Z.pow_le_mono_r; lia).
  pow_pos (e + 1074). pow_pos 1074. apply (Z.mul_lt_mono_pos_r (2 ^ 1074)); [done|]. rewrite F.
  change 1024 with (53 + 971) in Hp. rewrite Z.pow_add_r in Hp by lia. rewrite (Z.pow_add_r 2 971 1074) in He2 by lia. revert Hm Hp He2 H H0.
  generalize (2 ^ 53) (2 ^ 971) (2 ^ 1074) (2 ^ (e + 1074)) (10 ^ k). intros A B C P T ?????.
  assert (Zpos m * P * d < A * P * d) by nia. assert (A * P * d ≤ A * (B * C) * d) by nia.
  assert ((A * B) * (C * d) ≤ T * (C * d)) by (apply Z.mul_le_mono_nonneg_r; nia). lia.
Qed.

(** ** Digit strings *)

Abbreviation allDigits := (Forall (λ c, is_digit c = true)).

(** The value of a digit string. *)
Definition digitsValue (ds : bytes) : Z := foldl (λ v c, v * 10 + digit_val c) 0 ds.

Lemma digitsValue_from v ds : foldl (λ v c, v * 10 + digit_val c) v ds = v * 10 ^ zlen ds + digitsValue ds.
Proof.
  unfold digitsValue. revert v. induction ds as [|c ds IH]; intros v; cbn [foldl]; [change (zlen (@nil byte)) with 0; lia|].
  rewrite IH, (IH (0 * 10 + digit_val c)), zlen_cons, Z.pow_add_r by (pose proof (zlen_nonneg ds); lia). ring.
Qed.
Lemma digitsValue_app a b : digitsValue (a ++ b) = digitsValue a * 10 ^ zlen b + digitsValue b.
Proof. unfold digitsValue at 1. rewrite foldl_app. apply digitsValue_from. Qed.
Lemma digitsValue_zeros n : digitsValue (replicate n "0"%byte) = 0.
Proof. induction n as [|n IH]; [done|]. unfold digitsValue. cbn [replicate foldl]. by rewrite digitsValue_from, IH. Qed.
Lemma digitsValue_nonneg ds : allDigits ds → 0 ≤ digitsValue ds.
Proof.
  induction ds as [|c ds IH] using rev_ind; [done|]. intros [Hd [Hc _]%Forall_cons]%Forall_app. rewrite digitsValue_app.
  specialize (IH Hd). apply is_digit_val in Hc. unfold digitsValue at 2, zlen. cbn. lia.
Qed.

Lemma digitsOf_spec n : ∀ c, 0 ≤ c < 10 ^ Z.of_nat n →
  allDigits (digitsOf n c) ∧ digitsValue (digitsOf n c) = c ∧ length (digitsOf n c) = n.
Proof.
  induction n as [|n IH]; intros c Hc; cbn [digitsOf]; [split_and!; [constructor|cbn in *; lia|done]|].
  rewrite Nat2Z.inj_succ, Z.pow_succ_r in Hc by lia. destruct (IH (c / 10)) as (H1 & H2 & H3).
  { split; [apply Z.div_pos; lia|apply Z.div_lt_upper_bound; lia]. }
  pose proof (Z.mod_pos_bound c 10 ltac:(lia)). pose proof (Z.div_mod c 10 ltac:(lia)). split_and!.
  - apply Forall_app. split; [done|]. apply Forall_singleton, digit_byte_is_digit. lia.
  - rewrite digitsValue_app, H2. unfold digitsValue, zlen. cbn. rewrite digit_byte_val by lia. lia.
  - rewrite length_app, H3. cbn. lia.
Qed.

Lemma dropZeros_spec r : ∃ z, r = replicate z "0"%byte ++ dropZeros r.
Proof.
  induction r as [|c r IH]; cbn [dropZeros]; [by exists O|]. destruct (Z.eqb_spec (b2z c) 48) as [E|E].
  - destruct IH as [z IH]. exists (S z). cbn. f_equal; [by apply b2z_inj|done].
  - by exists O.
Qed.

Lemma trimZeros_spec ds : ∃ z, ds = trimZeros ds ++ replicate z "0"%byte.
Proof.
  destruct (dropZeros_spec (rev ds)) as [z H]. exists z. unfold trimZeros.
  rewrite <-(rev_involutive ds) at 1. rewrite H at 1. rewrite rev_app_distr. f_equal. clear. induction z as [|z IH]; [done|]. cbn [replicate rev]. by rewrite IH, <-replicate_S_end.
Qed.

(** The digits and the point printed for a double. *)
Lemma shortest_spec neg m e : bounded 53 1024 m e = true →
  let '(d, point) := shortest neg m e in
  scaleRound neg 10 (digitsValue d) (point - zlen d) = Some (S754_finite neg m e)
  ∧ allDigits d ∧ d ≠ [] ∧ -324 ≤ point ≤ 951.
Proof.
  intros Hb. unfold shortest. destruct (fraction (Zpos m) e) as [num den] eqn:Hfr.
  set (est := _ / 100000). set (k0 := Z.max (-324) _).
  pose proof (double_belowTen m e (k0 + Z.of_nat 640) Hb ltac:(lia)) as HT. rewrite Hfr in HT.
  destruct (decExp_spec 640 num den k0 HT) as [Hk Hkr]. set (k := decExp 640 num den k0) in *.
  pose proof (shortestLoop_spec neg m e num den k (Z.to_nat (Z.max (k - e) k)) 1 Hb Hfr ltac:(lia) ltac:(lia) Hk) as L.
  destruct (shortestLoop _ _ neg num den k 1) as [c n]. destruct L as (Hr & Hc & Hn).
  set (width := if c <? 10 ^ Z.of_nat n then n else S n).
  assert (0 ≤ c < 10 ^ Z.of_nat width ∧ (n ≤ width ≤ S n)%nat) as [Hcw Hw].
  { unfold width. destruct (Z.ltb_spec c (10 ^ Z.of_nat n)); [lia|]. rewrite Nat2Z.inj_succ, Z.pow_succ_r by lia.
    pose proof (pow10_pos (Z.of_nat n) ltac:(lia)). lia. }
  destruct (digitsOf_spec width c Hcw) as (Hd & Hv & Hl). destruct (trimZeros_spec (digitsOf width c)) as [z Hz].
  set (d := trimZeros (digitsOf width c)) in *. rewrite Hz in Hd, Hv, Hl. apply Forall_app in Hd as [Hd _].
  rewrite digitsValue_app, digitsValue_zeros in Hv. rewrite length_app, length_replicate in Hl.
  unfold zlen in Hv. rewrite length_replicate, Z.add_0_r in Hv. split_and!; try lia; [|done|].
  - rewrite <-Hr, <-Hv, scaleRound_shift by (first [by apply digitsValue_nonneg|lia]). f_equal. unfold zlen. lia.
  - intros Hnil. rewrite Hnil in Hv. change (digitsValue []) with 0 in Hv. rewrite <-Hv in Hr. unfold scaleRound, roundQ in Hr.
    by destruct (0 <=? k - Z.of_nat n).
Qed.

(** ** Reading the text back *)

Lemma scanDigits_run ds rest : ∀ a, allDigits ds → 0 ≤ nd a → (nd a = 0 → mant a = 0) →
  ∃ a', scanDigits 10 (ds ++ rest) a = scanDigits 10 rest a' ∧ sawdot a' = sawdot a ∧ underscores a' = underscores a
    ∧ sawdigits a' = sawdigits a || negb (zlen ds =? 0) ∧ mant a' = mant a * 10 ^ zlen ds + digitsValue ds
    ∧ dp a' - nd a' = dp a - nd a - zlen ds ∧ 0 ≤ nd a' ∧ (nd a' = 0 → mant a' = 0).
Proof.
  induction ds as [|c ds IH]; intros a Hd Hn Hm.
  { exists a. change (zlen (@nil byte)) with 0. change (digitsValue []) with 0. rewrite orb_false_r. split_and!; (done || lia). }
  apply Forall_cons in Hd as [Hc Hd]. cbn [app scanDigits]. pose proof (is_digit_val c Hc) as Hv. unfold digit_val in Hv.
  rewrite (proj2 (Z.eqb_neq (b2z c) 95)) by lia. rewrite (proj2 (Z.eqb_neq (b2z c) 46)) by lia. rewrite Hc, zlen_cons.
  pose proof (zlen_nonneg ds). rewrite (proj2 (Z.eqb_neq (1 + zlen ds) 0)) by lia. rewrite orb_true_r.
  assert (digitsValue (c :: ds) = digit_val c * 10 ^ zlen ds + digitsValue ds) as ->
    by (unfold digitsValue at 1; cbn [foldl]; by rewrite digitsValue_from).
  destruct ((b2z c =? 48) && (nd a =? 0)) eqn:E.
  - bool_to_prop. edestruct (IH (mkMantissa (sawdot a) true (nd a) (dp a - 1) (mant a) (underscores a)))
      as (a' & -> & ? & ? & ? & Hma & ? & ? & ?); [done|done|done|]. cbn in *. exists a'. split_and!; try (done || lia).
    unfold digit_val. rewrite Hma, Hm by done. replace (b2z c - 48) with 0 by lia. lia.
  - edestruct (IH (mkMantissa (sawdot a) true (nd a + 1) (dp a) (mant a * 10 + digit_val c) (underscores a)))
      as (a' & -> & ? & ? & ? & Hma & ? & ? & ?); [done|cbn; lia|cbn; lia|]. cbn in *. exists a'. split_and!; try (done || lia).
    rewrite Hma, Z.pow_add_r by lia. ring.
Qed.

Lemma scanExp_run ds : ∀ e us, allDigits ds → 0 ≤ e → e * 10 ^ zlen ds + digitsValue ds < 10000 →
  scanExp ds e us = (e * 10 ^ zlen ds + digitsValue ds, us, []).
Proof.
  induction ds as [|c ds IH]; intros e us Hd He Hlt.
  { change (zlen (@nil byte)) with 0 in *. cbn. repeat f_equal. lia. }
  apply Forall_cons in Hd as [Hc Hd]. cbn [scanExp]. pose proof (is_digit_val c Hc) as Hv. unfold digit_val in Hv.
  assert (e * 10 ^ zlen (c :: ds) + digitsValue (c :: ds) = (e * 10 + digit_val c) * 10 ^ zlen ds + digitsValue ds) as Heq.
  { unfold digitsValue at 1. cbn [foldl]. rewrite digitsValue_from, zlen_cons, Z.pow_add_r by (pose proof (zlen_nonneg ds); lia). ring. }
  rewrite Heq in Hlt |- *. rewrite (proj2 (Z.eqb_neq (b2z c) 95)) by lia. rewrite Hc.
  pose proof (digitsValue_nonneg ds Hd). pose proof (pow10_pos (zlen ds) (zlen_nonneg ds)).
  assert (0 ≤ digit_val c) by (unfold digit_val; lia).
  rewrite (proj2 (Z.ltb_lt e 10000)) by nia. apply IH; [done|lia|done].
Qed.

Lemma FormatUint_digitsValue n : 0 ≤ n < 10000 → allDigits (FormatUint n) ∧ digitsValue (FormatUint n) = n ∧ FormatUint n ≠ [].
Proof.
  intros Hn. unfold FormatUint. assert (∀ fuel n acc, 0 ≤ n < 10 ^ Z.of_nat fuel → (0 < fuel)%nat → allDigits acc →
    allDigits (uint_digits fuel n acc) ∧ digitsValue (uint_digits fuel n acc) = n * 10 ^ zlen acc + digitsValue acc ∧ uint_digits fuel n acc ≠ []) as H.
  { clear. induction fuel as [|fuel IH]; intros n acc Hn Hf Ha; [lia|]. cbn [uint_digits].
    pose proof (Z.mod_pos_bound n 10 ltac:(lia)) as Hmod. pose proof (zlen_nonneg acc).
    assert (digitsValue (digit_byte (n mod 10) :: acc) = n mod 10 * 10 ^ zlen acc + digitsValue acc) as Hv.
    { unfold digitsValue at 1. cbn [foldl]. by rewrite digitsValue_from, digit_byte_val. }
    assert (allDigits (digit_byte (n mod 10) :: acc)) by (constructor; [by apply digit_byte_is_digit|done]).
    destruct (Z.ltb_spec n 10) as [Hs|Hs]; [split_and!; [done|by rewrite Hv, Z.mod_small by lia|done]|].
    rewrite Nat2Z.inj_succ, Z.pow_succ_r in Hn by lia.
    destruct (IH (n / 10) (digit_byte (n mod 10) :: acc)) as (? & Hv' & ?); [| |done|].
    - split; [apply Z.div_pos; lia|apply Z.div_lt_upper_bound; lia].
    - destruct fuel; [cbn in Hn; lia|lia].
    - split_and!; [done| |done]. rewrite Hv', Hv, zlen_cons, Z.pow_add_r by lia. pose proof (Z.div_mod n 10 ltac:(lia)). nia. }
  destruct (H 20%nat n [] ltac:(cbn; lia) ltac:(lia) ltac:(constructor)) as (? & Hv & ?). split_and!; [done| |done].
  rewrite Hv. change (zlen (@nil byte)) with 0. change (digitsValue []) with 0. lia.
Qed.

(** The texts printed: a sign, digits, a fraction after a dot, an exponent. *)
Definition fracText (fp : bytes) : bytes := if zlen fp =? 0 then [] else bs "." ++ fp.
Definition expText (e : option Z) : bytes :=
  match e with
  | None => []
  | Some e => bs "e" ++ (if e <? 0 then bs "-" else bs "+") ++ (if Z.abs e <? 10 then bs "0" else []) ++ FormatUint (Z.abs e)
  end.

Lemma readExponent_text e : match e with Some e => Z.abs e < 10000 | None => True end →
  readExponent 101 (expText e) = Some (default 0 e, false, []).
Proof.
  destruct e as [e|]; [|done]. intros He. destruct (FormatUint_digitsValue (Z.abs e) ltac:(lia)) as (Hd & Hv & Hne). cbn [expText].
  set (ds := (if Z.abs e <? 10 then bs "0" else []) ++ FormatUint (Z.abs e)).
  assert (allDigits ds ∧ digitsValue ds = Z.abs e ∧ ∃ c r, ds = c :: r ∧ is_digit c = true) as (Hd' & Hv' & c & r & Hcr & Hc).
  { unfold ds. destruct (Z.abs e <? 10).
    - split_and!; [by constructor|by rewrite digitsValue_app, Hv|by eexists _, _].
    - split_and!; [done|done|]. cbn [app]. destruct (FormatUint (Z.abs e)) as [|c r]; [done|]. apply Forall_cons in Hd as [? _]. by eexists _, _. }
  pose proof (scanExp_run ds 0 false Hd' ltac:(lia) ltac:(lia)) as Hs. rewrite Z.mul_0_l, Z.add_0_l, Hv' in Hs.
  clearbody ds. subst ds. unfold readExponent. change (bs "e") with ["e"%byte]. cbn [app]. change (lowerByte "e" =? 101) with true. cbn match.
  change (bs "-") with ["-"%byte]. change (bs "+") with ["+"%byte]. destruct (Z.ltb_spec e 0); cbn [app].
  - change (b2z "-" =? 43) with false. change (b2z "-" =? 45) with true. cbn match. rewrite Hc, Hs. repeat f_equal. cbn. lia.
  - change (b2z "+" =? 43) with true. cbn match. rewrite Hc, Hs. repeat f_equal. cbn. lia.
Qed.

(** What may follow the digits does not continue them. *)
Lemma scanDigits_stop e a : scanDigits 10 (expText e) a = (a, expText e).
Proof. destruct e as [e|]; [|done]. unfold expText. done. Qed.

Lemma scanDigits_text ip fp e : allDigits ip → allDigits fp → ip ≠ [] →
  ∃ a, scanDigits 10 (ip ++ fracText fp ++ expText e) (mkMantissa false false 0 0 0 false) = (a, expText e)
    ∧ sawdigits a = true ∧ underscores a = false ∧ mant a = digitsValue (ip ++ fp)
    ∧ (if sawdot a then dp a else nd a) - nd a = - zlen fp.
Proof.
  intros Hi Hf Hne. assert (zlen ip ≠ 0) as Hlen by (destruct ip; [done|rewrite zlen_cons; pose proof (zlen_nonneg ip); lia]).
  destruct (scanDigits_run ip (fracText fp ++ expText e) (mkMantissa false false 0 0 0 false) Hi ltac:(cbn; lia) ltac:(done))
    as (a & -> & Hdot & Hus & Hsd & Hm & Hnd & Hn0 & Hm0). cbn in Hdot, Hus, Hsd, Hm, Hnd.
  rewrite (proj2 (Z.eqb_neq _ _) Hlen) in Hsd. unfold fracText. destruct (Z.eqb_spec (zlen fp) 0) as [E|E].
  - destruct fp as [|? fp]; [|rewrite zlen_cons in E; pose proof (zlen_nonneg fp); lia]. exists a. cbn [app].
    rewrite scanDigits_stop, Hdot, app_nil_r. split_and!; (done || lia).
  - change (bs ".") with ["."%byte]. cbn [app scanDigits]. change (b2z "." =? 95) with false. change (b2z "." =? 46) with true. cbn match. rewrite Hdot.
    edestruct (scanDigits_run fp (expText e) (mkMantissa true (sawdigits a) (nd a) (nd a) (mant a) (underscores a)))
      as (a' & -> & Hdot' & Hus' & Hsd' & Hm' & Hnd' & _); [done|done|done|]. cbn in Hdot', Hus', Hsd', Hm', Hnd'.
    exists a'. rewrite scanDigits_stop, Hdot', Hus', Hsd', Hus, Hsd, Hm', Hm, digitsValue_app. split_and!; (done || lia).
Qed.

Lemma lowerByte_digit c : is_digit c = true → lowerByte c = b2z c.
Proof. by destruct c. Qed.

(** No digit, dot or exponent letter makes a hexadecimal prefix or a special. *)
Lemma readFloat_text neg ip fp e : allDigits ip → allDigits fp → ip ≠ [] →
  match e with Some e => Z.abs e < 10000 | None => True end →
  ParseFloat (signText neg ++ ip ++ fracText fp ++ expText e) = scaleRound neg 10 (digitsValue (ip ++ fp)) (default 0 e - zlen fp).
Proof.
  intros Hi Hf Hne He. destruct (scanDigits_text ip fp e Hi Hf Hne) as (a & Hs & Hsd & Hus & Hm & Hnd).
  destruct ip as [|c ip]; [done|]. apply Forall_cons in Hi as [Hc Hi]. pose proof (is_digit_val c Hc) as Hv. unfold digit_val in Hv.
  cbn [app] in Hs |- *. set (text := c :: ip ++ fracText fp ++ expText e) in *.
  pose proof (lowerByte_digit c Hc) as Hlow.
  assert (∀ y z, head text = Some y → head (drop 1 text) = Some z → lowerByte z ≠ 120) as Hhex.
  { intros y z _ Hz E. unfold text in Hz. cbn [drop] in Hz. destruct ip as [|c' ip]; cbn [app] in Hz.
    - unfold fracText in Hz. destruct (zlen fp =? 0); cbn in Hz; [|by simplify_eq]. destruct e; by simplify_eq/=.
    - cbn in Hz. simplify_eq. apply Forall_cons in Hi as [Hc' _]. pose proof (is_digit_val z Hc') as Hz. unfold digit_val in Hz.
      rewrite lowerByte_digit in E by done. lia. }
  assert (readFloat (signText neg ++ text) = scaleRound neg 10 (digitsValue (c :: ip ++ fp)) (default 0 e - zlen fp)) as Hrf.
  { unfold readFloat.
    assert (match signText neg ++ text with c :: s' => if b2z c =? 43 then (false, s') else if b2z c =? 45 then (true, s') else (false, signText neg ++ text)
      | [] => (false, signText neg ++ text) end = (neg, text)) as ->.
    { unfold signText. change (bs "-") with ["-"%byte]. destruct neg; cbn [app]; [done|]. unfold text.
      by rewrite (proj2 (Z.eqb_neq (b2z c) 43)), (proj2 (Z.eqb_neq (b2z c) 45)) by lia. }
    assert (match text with z :: x :: (_ :: _) as s' => if (b2z z =? 48) && (lowerByte x =? 120) then (16, 112, drop 2 text) else (10, 101, text)
       | _ => (10, 101, text) end = (10, 101, text)) as ->.
    { destruct text as [|y [|z [|? ?]]]; try done. rewrite (proj2 (Z.eqb_neq (lowerByte z) 120)), andb_false_r by (by apply (Hhex y)). done. }
    rewrite Hs, Hsd, Hus. cbn [negb]. rewrite readExponent_text by done. cbn [orb andb].
    change (10 =? 16) with false. cbn match. change (negb (zlen [] =? 0)) with false. cbn match. rewrite Hm. cbn [app]. f_equal. lia. }
  unfold ParseFloat. assert (special (signText neg ++ text) = None) as ->; [|done].
  assert (∀ w, head ((λ c, b2z c) <$> bs w) = Some 105 ∨ head ((λ c, b2z c) <$> bs w) = Some 110 →
    bool_decide ((λ c, lowerByte c) <$> text = (λ c, b2z c) <$> bs w) = false) as Hw.
  { intros w Hw. apply bool_decide_eq_false. intros E. rewrite <-E in Hw. cbn in Hw. rewrite Hlow in Hw. destruct Hw as [[=]|[=]]; lia. }
  unfold special. unfold signText. change (bs "-") with ["-"%byte]. destruct neg; cbn [app].
  - change (b2z "-" =? 43) with false. change (b2z "-" =? 45) with true. cbn match. rewrite !Hw by (cbn; by auto). done.
  - unfold text at 1. rewrite (proj2 (Z.eqb_neq (b2z c) 43)), (proj2 (Z.eqb_neq (b2z c) 45)) by lia. rewrite !Hw by (cbn; by auto). done.
Qed.

(** The decimals [fmtF] prints. *)
Definition decimals (d : bytes) (point prec : Z) : bytes :=
  (λ i, let j := point + Z.of_nat i in
        if (0 <=? j) && (j <? zlen d) then default x00 (d !! Z.to_nat j) else "0"%byte) <$> seq 0 (Z.to_nat prec).

Lemma fmtF_text d point prec : 0 ≤ prec →
  fmtF d point prec = (if 0 <? point then ztake point d ++ replicate (Z.to_nat (point - zlen d)) "0"%byte else bs "0")
    ++ fracText (decimals d point prec) ++ expText None.
Proof.
  intros Hp. unfold fmtF, fracText. change (expText None) with (@nil byte). rewrite app_nil_r. f_equal.
  assert (zlen (decimals d point prec) = prec) as -> by (unfold decimals, zlen; rewrite length_fmap, length_seq; lia).
  by destruct (Z.ltb_spec 0 prec), (Z.eqb_spec prec 0); try lia.
Qed.

Lemma decimals_all d point : d ≠ [] →
  decimals d point (Z.max (zlen d - point) 0)
  = if point <=? 0 then replicate (Z.to_nat (- point)) "0"%byte ++ d else zdrop point d.
Proof.
  intros Hd. apply list_eq. intros i. unfold decimals. rewrite list_lookup_fmap.
  assert (∀ j, seq 0 (Z.to_nat (Z.max (zlen d - point) 0)) !! j = if (j <? Z.to_nat (Z.max (zlen d - point) 0))%nat then Some j else None) as Hs.
  { intros j. destruct (Nat.ltb_spec j (Z.to_nat (Z.max (zlen d - point) 0))); [by rewrite lookup_seq_lt by lia|by rewrite lookup_seq_ge by lia]. }
  rewrite Hs. unfold zlen, zdrop in *. destruct (Nat.ltb_spec i (Z.to_nat (Z.max (Z.of_nat (length d) - point) 0))) as [Hi|Hi]; cbn [fmap option_fmap option_map].
  - destruct (Z.leb_spec point 0).
    + destruct (Z.leb_spec 0 (point + Z.of_nat i)); cbn [andb].
      * rewrite lookup_app_r by (rewrite length_replicate; lia). rewrite length_replicate, (proj2 (Z.ltb_lt _ _)) by lia.
        replace (Z.to_nat (point + Z.of_nat i)) with (i - Z.to_nat (- point))%nat by lia.
        destruct (d !! _) eqn:E; [done|]. apply lookup_ge_None in E. lia.
      * rewrite lookup_app_l by (rewrite length_replicate; lia). symmetry. apply lookup_replicate_2. lia.
    + rewrite (proj2 (Z.leb_le 0 _)) by lia. rewrite (proj2 (Z.ltb_lt _ _)) by lia. cbn [andb]. rewrite lookup_drop.
      replace (Z.to_nat (point + Z.of_nat i)) with (Z.to_nat point + i)%nat by lia.
      destruct (d !! _) eqn:E; [done|]. apply lookup_ge_None in E. lia.
  - symmetry. apply lookup_ge_None. destruct (Z.leb_spec point 0); rewrite ?length_app, ?length_replicate, ?length_drop; lia.
Qed.

Lemma fmtF_parse neg d point : allDigits d → d ≠ [] →
  ParseFloat (signText neg ++ fmtF d point (Z.max (zlen d - point) 0)) = scaleRound neg 10 (digitsValue d) (point - zlen d).
Proof.
  intros Hd Hne. rewrite fmtF_text, decimals_all by (done || lia). pose proof (zlen_nonneg d).
  destruct (Z.ltb_spec 0 point) as [Hp|Hp].
  - rewrite (proj2 (Z.leb_gt point 0)) by lia.
    assert (allDigits (ztake point d ++ replicate (Z.to_nat (point - zlen d)) "0"%byte)) as Hi.
    { apply Forall_app. split; [by apply Forall_take|by apply Forall_replicate]. }
    rewrite (readFloat_text neg _ (zdrop point d) None); [|done|by apply Forall_drop| |done].
    2: { intros [E1 E2]%app_nil. unfold zlen, ztake in *. apply (f_equal length) in E1, E2. rewrite length_take in E1.
         rewrite length_replicate in E2. cbn in E1, E2. destruct d; [done|]. cbn in *. lia. }
    cbn [default]. destruct (Z.le_gt_cases (zlen d) point) as [Hlen|Hlen].
    + assert (ztake point d = d ∧ zdrop point d = []) as [-> ->].
      { unfold ztake, zdrop, zlen in *. split; [apply take_ge; lia|apply drop_ge; lia]. }
      rewrite app_nil_r, digitsValue_app, digitsValue_zeros, Z.add_0_r. change (zlen (@nil byte)) with 0.
      unfold zlen at 1. rewrite length_replicate, Z2Nat.id by lia.
      rewrite scaleRound_shift by (first [by apply digitsValue_nonneg|lia]). done.
    + replace (Z.to_nat (point - zlen d)) with O by lia. cbn [replicate]. rewrite app_nil_r.
      unfold ztake, zdrop. rewrite take_drop. f_equal. unfold zlen. rewrite length_drop. unfold zlen in *. lia.
  - rewrite (proj2 (Z.leb_le point 0)) by lia.
    rewrite (readFloat_text neg (bs "0") _ None); [|by constructor| |done|done].
    2: { apply Forall_app. split; [by apply Forall_replicate|done]. }
    cbn [default]. rewrite !digitsValue_app, digitsValue_zeros. change (digitsValue (bs "0")) with 0. rewrite !Z.mul_0_l, !Z.add_0_l.
    f_equal. rewrite zlen_app. unfold zlen at 1. rewrite length_replicate. lia.
Qed.

Lemma fmtE_parse neg d point : allDigits d → d ≠ [] → Z.abs (point - 1) < 10000 →
  ParseFloat (signText neg ++ fmtE d point) = scaleRound neg 10 (digitsValue d) (point - zlen d).
Proof.
  intros Hd Hne He. destruct d as [|c r]; [done|]. apply Forall_cons in Hd as [Hc Hr].
  change (fmtE (c :: r) point) with ([c] ++ fracText r ++ expText (Some (point - 1))).
  rewrite readFloat_text; [|by constructor|done|done|done]. change (default 0 (Some (point - 1))) with (point - 1). cbn [app]. f_equal. rewrite zlen_cons. lia.
Qed.

(** Printing a double and reading it back gives the double: the text of scores
    in replies and in the rewritten append-only file loses nothing. *)
Theorem ParseFloat_FormatFloat x :
  valid_binary 53 1024 x = true → isNaN x = false → ParseFloat (FormatFloat x) = Some x.
Proof.
  destruct x as [neg|neg| |neg m e]; intros Hv Hn; [by destruct neg|by destruct neg|done|].
  cbn [valid_binary] in Hv. pose proof (shortest_spec neg m e Hv) as S. unfold FormatFloat.
  destruct (shortest neg m e) as [d point]. destruct S as (<- & Hd & Hne & Hp).
  destruct ((point - 1 <? -4) || (6 <=? point - 1)); [apply fmtE_parse; (done || lia)|by apply fmtF_parse].
Qed.
