(* ===== verification/Geo.v ===== *)
(** * Geohashes

    Models the arithmetic of [internal/command/geo.go]: the Morton code of two
    32-bit cell indexes, the encoding of a position as a 52-bit score, the cell
    ranges a radius search scans, and the great-circle distance.  Floating-point
    operations are the binary64 ones of the Standard Library, rounded after each
    operation (no fused multiply-add); constant expressions are exact and
    rounded once, as the language defines; the sine, cosine and arcsine of the
    math package are arguments. *)

From S2P Require Import Prelude Float64 CompactZSet Strfloat.

Definition fadd (x y : float64) : float64 := SFadd 53 1024 x y.
Definition fsub (x y : float64) : float64 := SFsub 53 1024 x y.
Definition fmul (x y : float64) : float64 := SFmul 53 1024 x y.
Definition fdiv (x y : float64) : float64 := SFdiv 53 1024 x y.
Definition fsqrt (x : float64) : float64 := SFsqrt 53 1024 x.
Definition fle (x y : float64) : bool := SFleb x y.
Definition fabs (x : float64) : float64 := SFabs x.

(** A constant of the source. *)
Definition const (neg : bool) (n d : Z) : float64 := default S754_nan (roundQ neg n d).

Definition geoLongitudeMin : float64 := const true 180 1.
Definition geoLongitudeMax : float64 := const false 180 1.
Definition geoLatitudeMin : float64 := const true 8505112878 100000000.
Definition geoLatitudeMax : float64 := const false 8505112878 100000000.
(** The two differences, folded by the compiler. *)
Definition longitudeSpan : float64 := const false 360 1.
Definition latitudeSpan : float64 := const false 17010225756 100000000.
Definition geoStep : Z := 26.
Definition geoEarthRadiusMeters : float64 := const false 6372797560856 1000000.
Definition twoEarthRadius : float64 := const false 12745595121712 1000000.
Definition geoMetersPerKilometer : float64 := const false 1000 1.
Definition geoMetersPerMile : float64 := const false 160934 100.
Definition geoMetersPerFoot : float64 := const false 3048 10000.

(** [math.Pi] has 62 decimals. *)
Definition piNum : Z := 314159265358979323846264338327950288419716939937510582097494459.
Definition piDen : Z := 10 ^ 62.
Definition degreesToRadians (degrees : float64) : float64 := fmul degrees (const false piNum (180 * piDen)).
Definition radiansToDegrees (radians : float64) : float64 := fmul radians (const false (180 * piDen) piNum).

(** ** Morton codes *)

Definition spreadStep (shift mask v : Z) : Z := Z.land (Z.lor v (wrapu64 (Z.shiftl v shift))) mask.
Definition spreadBits (value : Z) : Z :=
  let spread := value in
  let spread := spreadStep 16 0x0000FFFF0000FFFF spread in
  let spread := spreadStep 8 0x00FF00FF00FF00FF spread in
  let spread := spreadStep 4 0x0F0F0F0F0F0F0F0F spread in
  let spread := spreadStep 2 0x3333333333333333 spread in
  spreadStep 1 0x5555555555555555 spread.

Definition squashStep (shift mask v : Z) : Z := Z.land (Z.lor v (Z.shiftr v shift)) mask.
Definition squashBits (spread : Z) : Z :=
  let value := Z.land spread 0x5555555555555555 in
  let value := squashStep 1 0x3333333333333333 value in
  let value := squashStep 2 0x0F0F0F0F0F0F0F0F value in
  let value := squashStep 4 0x00FF00FF00FF00FF value in
  let value := squashStep 8 0x0000FFFF0000FFFF value in
  squashStep 16 0x00000000FFFFFFFF value.

Definition interleave64 (x y : Z) : Z := Z.lor (spreadBits x) (wrapu64 (Z.shiftl (spreadBits y) 1)).
Definition deinterleave64 (interleaved : Z) : Z * Z := (squashBits interleaved, squashBits (Z.shiftr interleaved 1)).

(** ** Positions and scores *)

(** The integer part of a float in the range of the target type. *)
Definition truncF (x : float64) : Z :=
  match x with
  | S754_finite neg m e => let v := if 0 <=? e then Zpos m * 2 ^ e else Zpos m / 2 ^ (- e) in if neg then - v else v
  | _ => 0
  end.

Definition geohashEncode (longitude latitude : float64) : Z :=
  let longitudeOffset := fdiv (fsub longitude geoLongitudeMin) longitudeSpan in
  let latitudeOffset := fdiv (fsub latitude geoLatitudeMin) latitudeSpan in
  let scale := floatOfZ (2 ^ geoStep) in
  interleave64 (truncF (fmul latitudeOffset scale)) (truncF (fmul longitudeOffset scale)).

Definition geohashBits (score : float64) : Z :=
  if flt score (S754_zero false) || fle (floatOfZ (2 ^ (2 * geoStep + 2))) score then 0 else truncF score.

(** The centre of the cell. *)
Definition geohashDecode (bits : Z) : float64 * float64 :=
  let '(latitudeBits, longitudeBits) := deinterleave64 bits in
  let scale := floatOfZ (2 ^ geoStep) in
  (* [latitudeBits+1] is an addition of 32-bit words *)
  let edge lo span b := fadd lo (fmul (fdiv (floatOfZ (b mod 2 ^ 32)) scale) span) in
  let latitudeMin := edge geoLatitudeMin latitudeSpan latitudeBits in
  let latitudeMax := edge geoLatitudeMin latitudeSpan (latitudeBits + 1) in
  let longitudeMin := edge geoLongitudeMin longitudeSpan longitudeBits in
  let longitudeMax := edge geoLongitudeMin longitudeSpan (longitudeBits + 1) in
  (fdiv (fadd longitudeMin longitudeMax) (floatOfZ 2), fdiv (fadd latitudeMin latitudeMax) (floatOfZ 2)).

(** ** The cells a radius search scans *)

Definition geoCellCovers (step : Z) (deltaLatitude deltaLongitude : float64) : bool :=
  let cells := floatOfZ (2 ^ step) in
  let cellHeight := fdiv latitudeSpan cells in
  let cellWidth := fdiv longitudeSpan cells in
  fle deltaLatitude cellHeight && fle deltaLongitude cellWidth.

Definition geoCellCoords (longitude latitude : float64) (step : Z) : Z * Z :=
  let '(latitudeBits, longitudeBits) := deinterleave64 (geohashEncode longitude latitude) in
  let cells := 2 ^ step in
  let clamp c := if cells <=? c then cells - 1 else c in
  (clamp (Z.shiftr latitudeBits (geoStep - step)), clamp (Z.shiftr longitudeBits (geoStep - step))).

(** One neighbour cell, as an index pair, and its score range. *)
Definition cellRange (step latCell lonCell : Z) : ScoreRange :=
  let shift := 2 * (geoStep - step) in
  let minBits := wrapu64 (Z.shiftl (interleave64 latCell lonCell) shift) in
  mkScoreRange (floatOfZ minBits) (floatOfZ (minBits + 2 ^ shift)) false true.

Definition neighborCells (centerLatCell centerLonCell cells : Z) : list (Z * Z) :=
  deltaLat ← [-1; 0; 1];
  let latCell := centerLatCell + deltaLat in
  if (latCell <? 0) || (cells <=? latCell) then []
  else (λ deltaLon, (latCell, Z.rem (centerLonCell + deltaLon + cells) cells)) <$> [-1; 0; 1].

Definition rangeLe (a b : ScoreRange) : Prop := flt (Min b) (Min a) = false.
#[global] Instance rangeLe_dec : RelDecision rangeLe.
Proof. intros a b. unfold rangeLe. apply _. Defined.

(** [math.Max] on finite numbers. *)
Definition fmax (x y : float64) : float64 := if flt x y then y else x.

(** The merge loop: [last] is the range being extended. *)
Fixpoint mergeRanges (last : ScoreRange) (ranges : list ScoreRange) : list ScoreRange :=
  match ranges with
  | [] => [last]
  | r :: ranges' =>
      if fle (Min r) (Max last)
      then mergeRanges (mkScoreRange (Min last) (fmax (Max last) (Max r)) (MinExclusive last) (MaxExclusive last)) ranges'
      else last :: mergeRanges r ranges'
  end.

Definition geoNeighborCellRanges (longitude latitude : float64) (step : Z) : list ScoreRange :=
  let '(centerLatCell, centerLonCell) := geoCellCoords longitude latitude step in
  let ranges := (λ c, cellRange step c.1 c.2) <$> neighborCells centerLatCell centerLonCell (2 ^ step) in
  match merge_sort rangeLe ranges with [] => [] | r :: rs => mergeRanges r rs end.

Section Math.
Variables mathSin mathCos mathAsin : float64 → float64.

Definition geoBoundingDeltas (latitude radiusMeters : float64) : float64 * float64 :=
  let radiusRadians := fdiv radiusMeters geoEarthRadiusMeters in
  let deltaLatitude := radiansToDegrees radiusRadians in
  if fle (floatOfZ 90) (fadd (fabs latitude) deltaLatitude) then (deltaLatitude, floatOfZ 180)
  else
    let outerLatitude := fadd (fabs latitude) deltaLatitude in
    let ratio := fdiv (mathSin radiusRadians) (mathCos (degreesToRadians outerLatitude)) in
    if fle (floatOfZ 1) ratio then (deltaLatitude, floatOfZ 180)
    else (deltaLatitude, radiansToDegrees (mathAsin ratio)).

(** [for step > 1 && !geoCellCovers(...) { step-- }]. *)
Fixpoint searchStep (n : nat) (deltaLatitude deltaLongitude : float64) : Z :=
  let step := Z.of_nat n + 1 in
  match n with
  | O => step
  | S n' => if geoCellCovers step deltaLatitude deltaLongitude then step else searchStep n' deltaLatitude deltaLongitude
  end.

Definition geoRadiusScoreRanges (longitude latitude radiusMeters : float64) : list ScoreRange :=
  let '(deltaLatitude, deltaLongitude) := geoBoundingDeltas latitude radiusMeters in
  let step := searchStep 25 deltaLatitude deltaLongitude in
  [mkScoreRange (S754_infinity true) (S754_zero false) false true]
  ++ geoNeighborCellRanges longitude latitude step
  ++ [mkScoreRange (floatOfZ (2 ^ (2 * geoStep))) (S754_infinity false) false false].

Definition geoDistanceMeters (longitude1 latitude1 longitude2 latitude2 : float64) : float64 :=
  let longitude1Rad := degreesToRadians longitude1 in
  let longitude2Rad := degreesToRadians longitude2 in
  let v := mathSin (fdiv (fsub longitude2Rad longitude1Rad) (floatOfZ 2)) in
  if feq v (S754_zero false) then fmul geoEarthRadiusMeters (fabs (fsub (degreesToRadians latitude2) (degreesToRadians latitude1)))
  else
    let latitude1Rad := degreesToRadians latitude1 in
    let latitude2Rad := degreesToRadians latitude2 in
    let u := mathSin (fdiv (fsub latitude2Rad latitude1Rad) (floatOfZ 2)) in
    let a := fadd (fmul u u) (fmul (fmul (fmul (mathCos latitude1Rad) (mathCos latitude2Rad)) v) v) in
    fmul twoEarthRadius (mathAsin (fsqrt a)).
End Math.

(** The position of Palermo in the Redis documentation. *)
Example geohash_palermo :
  geohashEncode (const false 13361389 1000000) (const false 38115556 1000000) = 3479099956230698.
Proof. vm_compute. reflexivity. Qed.
