(* ===== verification/Replication.v ===== *)
(** * Replication state and the registry of replicas

    Models the data of [internal/server/replication.go]: the replication
    offsets, the registry of replica peers with its change notification, and
    the fan-out of encoded commands.  A peer's writer is the client state of the
    same number, so its writes go through the [Hub]; the channel [changed] is
    the number of times it has been closed and replaced. *)

From S2P Require Import Prelude Resp Clients.

(** Composite literals of the source: a null flag left out is false. *)
Definition bulk (data : bytes) : Value := BulkString data false.
Definition text (value : bytes) : Value := TextBulkString value false.
Definition arr (elements : list Value) : Value := Array elements false.

(** [ExecuteResult]. *)
Record ExecuteResult := mkResult {
  Responses : list Value;
  UpstreamReplies : list Value;
  Propagation : list Value;
  Durability : list Value;
  RegisterReplica : bool
}.

Definition emptyResult : ExecuteResult := mkResult [] [] [] [] false.
Definition MultiResponse (values : list Value) : ExecuteResult := mkResult values [] [] [] false.
Definition SingleResponse (value : Value) : ExecuteResult := MultiResponse [value].

(** [DeleteFrame]: the DEL that stands for keys removed without a client asking. *)
Definition DeleteFrame (keys : list bytes) : Value :=
  arr (text (bs "DEL") :: (bulk <$> keys)).

Record ReplicationState := mkReplication {
  MasterReplicationID : bytes;
  masterOffset : Z;
  replicaOffset : Z
}.

(** [hex.EncodeToString]. *)
Definition hexDigit (d : Z) : byte := z2b (if d <? 10 then 48 + d else 87 + d).
Definition EncodeToString (raw : bytes) : bytes := c ← raw; [hexDigit (b2z c / 16); hexDigit (b2z c mod 16)].

(** [raw] is what [crypto/rand] gives; when it fails the server panics. *)
Definition randomReplicationID (raw : bytes) : bytes := EncodeToString raw.
Definition newReplicationState (raw : bytes) : ReplicationState := mkReplication (randomReplicationID raw) 0 0.

Lemma hexDigit_range d : 0 ≤ d < 16 → 48 ≤ b2z (hexDigit d) ≤ 102.
Proof. intros Hd. unfold hexDigit. destruct (Z.ltb_spec d 10); rewrite b2z_z2b_small by lia; lia. Qed.

Lemma replicationID_chars raw : Forall (λ c, 48 ≤ b2z c ≤ 102) (randomReplicationID raw).
Proof.
  unfold randomReplicationID, EncodeToString. induction raw as [|c raw IH]; [constructor|]. cbn [mbind list_bind]. pose proof (b2z_range c) as Hc.
  apply Forall_app. split; [|done]. pose proof (Z.mod_pos_bound (b2z c) 16 ltac:(lia)). apply Forall_cons. split; [|apply Forall_singleton]; apply hexDigit_range; [|lia].
  split; [by apply Z.div_pos; lia|apply Z.div_lt_upper_bound; lia].
Qed.

Lemma replicationID_length raw : length (randomReplicationID raw) = (2 * length raw)%nat.
Proof. unfold randomReplicationID, EncodeToString. induction raw as [|c raw IH]; [done|]. rewrite bind_cons, length_app, IH. cbn [length]. lia. Qed.

(** Both are nil-safe in the source; [None] is the nil pointer. *)
Definition MasterOffset (s : option ReplicationState) : Z := match s with None => 0 | Some s => masterOffset s end.
Definition ReplicaOffset (s : option ReplicationState) : Z := match s with None => 0 | Some s => replicaOffset s end.
Definition AdvanceMasterOffset (delta : Z) (s : option ReplicationState) : Z * option ReplicationState :=
  match s with
  | None => (MasterOffset s, s)
  | Some r =>
      if delta <=? 0 then (MasterOffset s, s)
      else let o := wrap64 (masterOffset r + delta) in (o, Some (mkReplication (MasterReplicationID r) o (replicaOffset r)))
  end.
Definition AdvanceReplicaOffset (delta : Z) (s : option ReplicationState) : Z * option ReplicationState :=
  match s with
  | None => (ReplicaOffset s, s)
  | Some r =>
      if delta <=? 0 then (ReplicaOffset s, s)
      else let o := wrap64 (replicaOffset r + delta) in (o, Some (mkReplication (MasterReplicationID r) (masterOffset r) o))
  end.

(** [ReplicaPeer]: its number is the key of the map. *)
Record ReplicaPeer := mkPeer { ListeningPort : Z; AckOffset : Z }.

Record ReplicaRegistry := mkReplicas {
  replicas : gmap nat ReplicaPeer;
  changed : nat;
  (** The connections the registry has closed. *)
  closedPeers : list nat
}.

Definition NewReplicaRegistry : ReplicaRegistry := mkReplicas ∅ 0 [].

Definition notifyChangedLocked (r : ReplicaRegistry) : ReplicaRegistry := mkReplicas (replicas r) (S (changed r)) (closedPeers r).

Definition Replicas_Add (id : nat) (listeningPort : Z) (r : ReplicaRegistry) : ReplicaRegistry :=
  notifyChangedLocked (mkReplicas (<[id := mkPeer listeningPort 0]> (replicas r)) (changed r) (closedPeers r)).

Definition UpdateAck (id : nat) (offset : Z) (r : ReplicaRegistry) : bool * ReplicaRegistry :=
  match replicas r !! id with
  | None => (false, r)
  | Some peer =>
      if AckOffset peer <? offset
      then (true, notifyChangedLocked (mkReplicas (<[id := mkPeer (ListeningPort peer) offset]> (replicas r)) (changed r) (closedPeers r)))
      else (true, r)
  end.

Definition countReplicasAtOrAboveLocked (targetOffset : Z) (r : ReplicaRegistry) : Z :=
  Z.of_nat (size (filter (λ p : nat * ReplicaPeer, targetOffset ≤ AckOffset p.2) (replicas r))).
Definition CountReplicasAtOrAbove (targetOffset : Z) (r : ReplicaRegistry) : Z := countReplicasAtOrAboveLocked targetOffset r.
Definition CountReplicasAtOrAboveWithNotify (targetOffset : Z) (r : ReplicaRegistry) : Z * nat :=
  (countReplicasAtOrAboveLocked targetOffset r, changed r).

Definition Replicas_Remove (id : nat) (r : ReplicaRegistry) : option ReplicaPeer * ReplicaRegistry :=
  let peer := replicas r !! id in
  let r := mkReplicas (delete id (replicas r)) (changed r) (closedPeers r) in
  (peer, match peer with Some _ => notifyChangedLocked r | None => r end).

Definition RemoveAndClose (id : nat) (r : ReplicaRegistry) : ReplicaRegistry :=
  let '(peer, r) := Replicas_Remove id r in
  match peer with Some _ => mkReplicas (replicas r) (changed r) (closedPeers r ++ [id]) | None => r end.

Definition Replicas_Count (r : ReplicaRegistry) : Z := Z.of_nat (size (replicas r)).

Record propagationReport := mkReport { attempted : Z; succeeded : Z; failed : Z; payloadSize : Z; endOffset : Z }.

Section Net.
Context {N : Net}.

Definition Replicas_Snapshot (r : ReplicaRegistry) : list nat := idOrder (dom (replicas r)).

(** [writePropagationPayloadToReplica]: a peer that cannot take it is dropped. *)
Definition writePropagationPayloadToReplica (payload : bytes) (id : nat) (r : ReplicaRegistry) (h : Hub) : bool * (ReplicaRegistry * Hub) :=
  let '(ok, h) := WriteEncoded id payload h in
  if ok then (true, (r, h)) else (false, (RemoveAndClose id r, h)).

(** The sequential loop.  With eight peers or more the code writes from worker
    goroutines instead, which [Fanout] shows to do the same in some order. *)
Fixpoint writePropagationPayload (payload : bytes) (peers : list nat) (r : ReplicaRegistry) (h : Hub)
    : (Z * Z) * (ReplicaRegistry * Hub) :=
  match peers with
  | [] => ((0, 0), (r, h))
  | id :: peers' =>
      let '(ok, (r, h)) := writePropagationPayloadToReplica payload id r h in
      let '((s, f), st) := writePropagationPayload payload peers' r h in
      ((if ok then (s + 1, f) else (s, f + 1)), st)
  end.

(** [propagateToReplicas]: encode, advance the offset, fan out. *)
Definition propagateToReplicas (values : list Value) (repl : option ReplicationState) (r : ReplicaRegistry) (h : Hub)
    : propagationReport * (option ReplicationState * ReplicaRegistry * Hub) :=
  if zlen values =? 0 then (mkReport 0 0 0 0 0, (repl, r, h))
  else
    match EncodeValues values with
    | Err _ => (mkReport 0 0 0 0 0, (repl, r, h))
    | Ok payload =>
        let peers := Replicas_Snapshot r in
        let '(o, repl) := AdvanceMasterOffset (zlen payload) repl in
        let '((s, f), (r, h)) := writePropagationPayload payload peers r h in
        (mkReport (zlen peers) s f (zlen payload) o, (repl, r, h))
    end.
End Net.
