(* ===== verification/Fanout.v ===== *)
(** * The fan-out to many replicas

    [writePropagationPayload] of [replication.go]: below eight peers a loop, from
    eight on a pool of worker goroutines that take peers from a channel.  A state
    is what the goroutines share: the peers not yet sent, the buffered channel,
    the workers, the two counters.  An action is one step of one goroutine, so a
    list of actions is a schedule.

    Whatever the schedule, the pool does what the loop does on some order of the
    peers, each exactly once, and it always finishes. *)

From S2P Require Import Prelude Resp Clients Replication.

Definition replicaFanoutAsyncThreshold : Z := 8.
Definition replicaFanoutMaxWorkers : Z := 32.

Inductive worker := WorkerIdle | WorkerBusy (id : nat) | WorkerDone.

Record fanout := mkFanout {
  toSend : list nat;          (* what the loop has still to put on the channel *)
  jobs : list nat;            (* the channel *)
  jobsClosed : bool;
  workers : list worker;
  okCount : Z;                (* [succeeded] *)
  failCount : Z;              (* [failed] *)
  fanPeers : ReplicaRegistry;
  fanHub : Hub
}.

Inductive action := ASend | AClose | ATake (w : nat) | AWrite (w : nat) | AExit (w : nat).

Section Fanout.
Context {N : Net} (payload : bytes).

Definition fanoutStart (peers : list nat) (r : ReplicaRegistry) (h : Hub) : fanout :=
  mkFanout peers [] false (replicate (Z.to_nat (Z.min (zlen peers) replicaFanoutMaxWorkers)) WorkerIdle) 0 0 r h.

(** The channel holds as many as there are peers, so a send never waits. *)
Definition fanoutStep (a : action) (f : fanout) : option fanout :=
  let '(mkFanout ts js closed ws ok fail r h) := f in
  match a with
  | ASend => match ts with id :: ts' => Some (mkFanout ts' (js ++ [id]) closed ws ok fail r h) | [] => None end
  | AClose => match ts, closed with [], false => Some (mkFanout ts js true ws ok fail r h) | _, _ => None end
  | ATake w =>
      match ws !! w, js with
      | Some WorkerIdle, id :: js' => Some (mkFanout ts js' closed (<[w := WorkerBusy id]> ws) ok fail r h)
      | _, _ => None
      end
  | AWrite w =>
      match ws !! w with
      | Some (WorkerBusy id) =>
          let '(sent, (r, h)) := writePropagationPayloadToReplica payload id r h in
          Some (mkFanout ts js closed (<[w := WorkerIdle]> ws) (if sent then ok + 1 else ok) (if sent then fail else fail + 1) r h)
      | _ => None
      end
  | AExit w =>
      match ws !! w, js, closed with
      | Some WorkerIdle, [], true => Some (mkFanout ts js closed (<[w := WorkerDone]> ws) ok fail r h)
      | _, _, _ => None
      end
  end.

Fixpoint fanoutRun (actions : list action) (f : fanout) : option fanout :=
  match actions with [] => Some f | a :: actions' => f' ← fanoutStep a f; fanoutRun actions' f' end.

(** [wg.Wait] returns. *)
Definition finished (f : fanout) : bool := forallb (λ w, match w with WorkerDone => true | _ => false end) (workers f).

(** [writePropagationPayload] under a schedule. *)
Definition writePropagationPayloadWith (actions : list action) (peers : list nat) (r : ReplicaRegistry) (h : Hub)
    : option ((Z * Z) * (ReplicaRegistry * Hub)) :=
  if zlen peers =? 0 then Some ((0, 0), (r, h))
  else if zlen peers <? replicaFanoutAsyncThreshold then Some (writePropagationPayload payload peers r h)
  else
    f ← fanoutRun actions (fanoutStart peers r h);
    if finished f then Some ((okCount f, failCount f), (fanPeers f, fanHub f)) else None.

(** ** Every peer once *)

Lemma sequential_snoc peers id : ∀ r h,
  writePropagationPayload payload (peers ++ [id]) r h
  = let '((ok, fail), (r, h)) := writePropagationPayload payload peers r h in
    let '(sent, st) := writePropagationPayloadToReplica payload id r h in
    ((if sent then (ok + 1, fail) else (ok, fail + 1)), st).
Proof.
  induction peers as [|p peers IH]; intros r h; cbn [app writePropagationPayload].
  - destruct (writePropagationPayloadToReplica payload id r h) as [sent [r1 h1]]. by destruct sent.
  - destruct (writePropagationPayloadToReplica payload p r h) as [ok0 [r0 h0]]. rewrite IH. destruct (writePropagationPayload payload peers r0 h0) as [[ok fail] [r1 h1]].
    destruct (writePropagationPayloadToReplica payload id r1 h1) as [sent [r2 h2]]. destruct ok0, sent; f_equal; f_equal; lia.
Qed.

Definition inHand (ws : list worker) : list nat := omap (λ w, match w with WorkerBusy id => Some id | _ => None end) ws.

Lemma inHand_insert ws w x y : ws !! w = Some x → inHand (<[w := y]> ws) ++ inHand [x] ≡ₚ inHand ws ++ inHand [y].
Proof.
  intros Hw. rewrite <- (take_drop_middle ws w x Hw) at 2. rewrite insert_take_drop by (by eapply lookup_lt_Some).
  unfold inHand. rewrite !omap_app. cbn. destruct x, y; cbn; rewrite ?app_nil_r; solve_Permutation.
Qed.

Record FanoutInv (peers : list nat) r0 h0 (f : fanout) : Prop := {
  fi_done : ∃ written, written ++ inHand (workers f) ++ jobs f ++ toSend f ≡ₚ peers
    ∧ writePropagationPayload payload written r0 h0 = ((okCount f, failCount f), (fanPeers f, fanHub f));
  fi_closed : jobsClosed f = true → toSend f = [];
  fi_exit : WorkerDone ∈ workers f → jobsClosed f = true ∧ jobs f = []
}.

Lemma fanout_start_inv peers r h : FanoutInv peers r h (fanoutStart peers r h).
Proof.
  split; [|done|].
  - exists []. split; [|done]. cbn [workers fanoutStart jobs toSend app]. assert (∀ n, inHand (replicate n WorkerIdle) = []) as -> by (induction n; done). done.
  - cbn. intros [H _]%elem_of_replicate. done.
Qed.
Lemma done_insert (ws : list worker) w x y : ws !! w = Some x → WorkerDone ∈ <[w := y]> ws → y = WorkerDone ∨ WorkerDone ∈ ws.
Proof. intros Hw (i & Hi)%list_elem_of_lookup. apply list_lookup_insert_Some in Hi as [(_ & <- & _)|[_ Hi]]; [by left|right; by eapply list_elem_of_lookup_2]. Qed.

Lemma fanout_step_inv peers r0 h0 a f f' : FanoutInv peers r0 h0 f → fanoutStep a f = Some f' → FanoutInv peers r0 h0 f'.
Proof.
  destruct f as [ts js closed ws ok fail r h]. intros [(written & Hp & Hw) Hc Hx] Hs. cbn [workers jobs toSend jobsClosed okCount failCount fanPeers fanHub] in *. destruct a as [| |w|w|w]; cbn [fanoutStep] in Hs.
  - destruct ts as [|id ts]; [done|]. injection Hs as <-. split; cbn; [|by intros ?%Hc|by intros [? _]%Hx; specialize (Hc H)].
    exists written. split; [|done]. rewrite <- app_assoc. exact Hp.
  - destruct ts; [|done]. destruct closed; [done|]. injection Hs as <-. split; cbn; [by exists written|done|by intros [? _]%Hx].
  - destruct (ws !! w) as [[]|] eqn:Ew; try done. destruct js as [|id js]; [done|]. injection Hs as <-. pose proof (inHand_insert ws w _ (WorkerBusy id) Ew) as Hin. cbn in Hin. rewrite app_nil_r in Hin.
    split; cbn; [|done|intros [?|[_ ?]%Hx]%(done_insert ws w WorkerIdle); done]. exists written. split; [|done]. rewrite Hin, <- Hp. solve_Permutation.
  - destruct (ws !! w) as [[|id|]|] eqn:Ew; try done. destruct (writePropagationPayloadToReplica payload id r h) as [sent [r1 h1]] eqn:Es. injection Hs as <-.
    pose proof (inHand_insert ws w _ WorkerIdle Ew) as Hin. cbn in Hin. rewrite app_nil_r in Hin. split; cbn; [|done|intros [?|?]%(done_insert ws w (WorkerBusy id)); [done|by apply Hx|done]].
    exists (written ++ [id]). split.
    + rewrite <- Hp, <- Hin. solve_Permutation.
    + rewrite sequential_snoc, Hw, Es. by destruct sent.
  - destruct (ws !! w) as [[]|] eqn:Ew; try done. destruct js; [|done]. destruct closed; [|done]. injection Hs as <-. pose proof (inHand_insert ws w _ WorkerDone Ew) as Hin. cbn in Hin. rewrite !app_nil_r in Hin.
    split; cbn; [|done|done]. exists written. split; [|done]. rewrite Hin. exact Hp.
Qed.

Lemma fanout_run_inv peers r0 h0 actions : ∀ f f', FanoutInv peers r0 h0 f → fanoutRun actions f = Some f' → FanoutInv peers r0 h0 f'.
Proof.
  induction actions as [|a actions IH]; intros f f' Hf; cbn [fanoutRun]; [by intros [= <-]|]. destruct (fanoutStep a f) as [f1|] eqn:Es; [|done]. cbn. apply IH. by eapply fanout_step_inv.
Qed.

Lemma fanout_run_workers actions : ∀ f f', fanoutRun actions f = Some f' → length (workers f') = length (workers f).
Proof.
  induction actions as [|a actions IH]; intros f f'; cbn [fanoutRun]; [by intros [= <-]|]. destruct (fanoutStep a f) as [f1|] eqn:Es; [|done]. cbn. intros ->%IH.
  destruct f as [ts js closed ws ok fail r h]. destruct a; cbn [fanoutStep] in Es; repeat case_match; simplify_eq/=; by rewrite ?length_insert.
Qed.

Lemma finished_done f : finished f = true → workers f ≠ [] → inHand (workers f) = [] ∧ WorkerDone ∈ workers f.
Proof.
  unfold finished. destruct f as [ts js closed ws ok fail r h]. cbn [workers]. rewrite forallb_Forall. intros Hd Hne. split.
  - clear Hne. induction Hd as [|w ws Hw Hd IH]; [done|]. by destruct w.
  - destruct ws as [|w ws]; [done|]. apply Forall_cons in Hd as [Hw _]. destruct w; try done. by left.
Qed.

(** ** It finishes *)

Definition weight (w : worker) : nat := match w with WorkerIdle => 1 | WorkerBusy _ => 3 | WorkerDone => 0 end.
Definition measure (f : fanout) : nat :=
  (4 * length (toSend f) + 3 * length (jobs f) + (if jobsClosed f then 0 else 1) + sum_list (weight <$> workers f))%nat.

Lemma weight_insert ws w x y : ws !! w = Some x → (sum_list (weight <$> <[w := y]> ws) + weight x = sum_list (weight <$> ws) + weight y)%nat.
Proof.
  assert (∀ z l, sum_list (weight <$> z :: l) = (weight z + sum_list (weight <$> l))%nat) as Hcons by done.
  revert w. induction ws as [|z ws IH]; intros [|w] Hw; try done.
  - injection Hw as ->. change (<[0%nat := y]> (x :: ws)) with (y :: ws). rewrite !Hcons. lia.
  - change (<[S w := y]> (z :: ws)) with (z :: <[w := y]> ws). rewrite !Hcons. specialize (IH w Hw). lia.
Qed.

Lemma fanout_step_measure a f f' : fanoutStep a f = Some f' → (measure f' < measure f)%nat.
Proof.
  destruct f as [ts js closed ws ok fail r h]. unfold measure. destruct a as [| |w|w|w]; cbn [fanoutStep]; intros Hs.
  - destruct ts as [|id ts]; [done|]. injection Hs as <-. cbn [toSend jobs jobsClosed workers length]. rewrite length_app. cbn [length]. lia.
  - destruct ts; [|done]. destruct closed; [done|]. injection Hs as <-. cbn [toSend jobs jobsClosed workers length]. lia.
  - destruct (ws !! w) as [[]|] eqn:Ew; try done. destruct js as [|id js]; [done|]. injection Hs as <-. pose proof (weight_insert ws w _ (WorkerBusy id) Ew). cbn [toSend jobs jobsClosed workers length weight] in *. lia.
  - destruct (ws !! w) as [[|id|]|] eqn:Ew; try done. destruct (writePropagationPayloadToReplica payload id r h) as [sent [r1 h1]]. injection Hs as <-.
    pose proof (weight_insert ws w _ WorkerIdle Ew). cbn [toSend jobs jobsClosed workers length weight] in *. lia.
  - destruct (ws !! w) as [[]|] eqn:Ew; try done. destruct js; [|done]. destruct closed; [|done]. injection Hs as <-. pose proof (weight_insert ws w _ WorkerDone Ew). cbn [toSend jobs jobsClosed workers length weight] in *. lia.
Qed.

Lemma fanout_run_bound actions : ∀ f f', fanoutRun actions f = Some f' → (length actions + measure f' ≤ measure f)%nat.
Proof.
  induction actions as [|a actions IH]; intros f f'; cbn [fanoutRun length]; [by intros [= <-]|]. destruct (fanoutStep a f) as [f1|] eqn:Es; [|done]. cbn [mbind option_bind].
  intros H%IH. apply fanout_step_measure in Es. lia.
Qed.

(** Some goroutine can go on until all are done. *)
Lemma fanout_progress f : finished f = false → ∃ a f', fanoutStep a f = Some f'.
Proof.
  destruct f as [ts js closed ws ok fail r h]. unfold finished. cbn [workers]. intros Hf. destruct ts as [|id ts]; [|by exists ASend; eexists]. destruct closed; [|by exists AClose; eexists].
  assert (∃ i w, ws !! i = Some w ∧ w ≠ WorkerDone) as (i & w & Hi & Hw).
  { induction ws as [|w ws IH]; [done|]. cbn in Hf. destruct w; [by exists 0%nat, WorkerIdle|by eexists 0%nat, _|]. destruct (IH Hf) as (i & w & ? & ?). by exists (S i), w. }
  destruct w as [|id|]; [| |done].
  - destruct js as [|id js]; [exists (AExit i)|exists (ATake i)]; cbn; rewrite Hi; by eexists.
  - exists (AWrite i). cbn. rewrite Hi. destruct (writePropagationPayloadToReplica payload id r h) as [sent [r1 h1]]. by eexists.
Qed.

Lemma fanout_completes n : ∀ f, (measure f ≤ n)%nat → ∃ actions f', fanoutRun actions f = Some f' ∧ finished f' = true.
Proof.
  induction n as [|n IH]; intros f Hn; (destruct (finished f) eqn:Ef; [by exists [], f|]); destruct (fanout_progress f Ef) as (a & f1 & Hs); pose proof (fanout_step_measure a f f1 Hs); [lia|].
  destruct (IH f1) as (actions & f' & Hr & Hd); [lia|]. exists (a :: actions), f'. split; [|done]. cbn [fanoutRun]. by rewrite Hs.
Qed.
End Fanout.

(** C24: The pool of workers is the loop.  From eight replicas on, whatever order
    the goroutines run in: when the wait ends, the call returns the counts, the
    registry and the connections that the sequential loop gives on some order of
    the peers, each once; every schedule can be continued to that end, and none runs longer than
    a bound that is linear in the number of peers. *)
Theorem fanout_is_sequential (N : Net) payload peers r h actions f :
  replicaFanoutAsyncThreshold ≤ zlen peers → fanoutRun payload actions (fanoutStart peers r h) = Some f →
  (finished f = true → ∃ order, order ≡ₚ peers ∧ writePropagationPayloadWith payload actions peers r h = Some (writePropagationPayload payload order r h))
  ∧ (∃ more f', fanoutRun payload more f = Some f' ∧ finished f' = true)
  ∧ Z.of_nat (length actions) ≤ 5 * zlen peers + 1.
Proof.
  intros Hn Hr. pose proof (fanout_run_inv payload peers r h actions _ f (fanout_start_inv payload peers r h) Hr) as [(written & Hp & Hw) Hc Hx].
  pose proof (fanout_run_workers payload actions _ f Hr) as Hlen. cbn [workers fanoutStart] in Hlen. rewrite length_replicate in Hlen. split_and!.
  - intros Hf. assert (workers f ≠ []) as Hne.
    { intros E. rewrite E in Hlen. unfold replicaFanoutAsyncThreshold, replicaFanoutMaxWorkers in *. cbn in Hlen. lia. }
    destruct (finished_done f Hf Hne) as [Hin Hd]. destruct (Hx Hd) as [Hcl Hj]. rewrite Hin, Hj, (Hc Hcl) in Hp. cbn [app] in Hp. rewrite app_nil_r in Hp. exists written. split; [done|].
    unfold writePropagationPayloadWith. rewrite Hw, (proj2 (Z.eqb_neq _ 0)), (proj2 (Z.ltb_ge _ _)) by (unfold replicaFanoutAsyncThreshold in *; lia). rewrite Hr. cbn [mbind option_bind]. by rewrite Hf.
  - by eapply fanout_completes.
  - pose proof (fanout_run_bound payload actions _ f Hr) as Hb. unfold measure at 2 in Hb. cbn [fanoutStart toSend jobs jobsClosed workers length] in Hb.
    assert (∀ n, sum_list (weight <$> replicate n WorkerIdle) = n) as Hs by (intros n; induction n as [|n IH]; [done|]; cbn; by rewrite IH). rewrite Hs in Hb.
    unfold replicaFanoutMaxWorkers, zlen in *. lia.
Qed.

(** Eight replicas on a network whose fourth write fails; the workers take their
    peers in one order and write them in another. *)
Definition flakyNet : Net := {| idOrder := elements; idOrder_perm := λ X, reflexivity (elements X); writeOk := λ n, negb (n =? 3)%nat |}.
Definition eightPeers : list nat := seq 1 8.
Definition eightHub : Hub := foldl (λ h _, (ClientRegistry_Add (BindResponseWriter (Some []) newClientState) h).2) NewHub eightPeers.
Definition eightReplicas : ReplicaRegistry := foldl (λ r id, Replicas_Add id 6380 r) NewReplicaRegistry eightPeers.
Definition demoSchedule : list action :=
  replicate 5 ASend ++ (ATake <$> [3; 1]%nat) ++ replicate 3 ASend ++ [AWrite 1; ATake 1]%nat ++ (ATake <$> [0; 2; 4; 5; 6]%nat) ++ [AClose; AExit 7%nat] ++
  (AWrite <$> seq 0 7) ++ (AExit <$> seq 0 7).

Lemma fanout_is_sequential_witness :
  ∃ order, order ≡ₚ eightPeers
    ∧ @writePropagationPayloadWith flakyNet (bs "x") demoSchedule eightPeers eightReplicas eightHub = Some (@writePropagationPayload flakyNet (bs "x") order eightReplicas eightHub)
    ∧ (@writePropagationPayload flakyNet (bs "x") order eightReplicas eightHub).1 = (7, 1).
Proof.
  destruct (@fanoutRun flakyNet (bs "x") demoSchedule (fanoutStart eightPeers eightReplicas eightHub)) as [f|] eqn:Ef; [|vm_compute in Ef; discriminate Ef].
  destruct (fanout_is_sequential flakyNet (bs "x") eightPeers eightReplicas eightHub demoSchedule f) as (H & _ & _); [done|exact Ef|].
  assert (match @fanoutRun flakyNet (bs "x") demoSchedule (fanoutStart eightPeers eightReplicas eightHub) with Some f => finished f = true | None => False end) as Hv by (vm_compute; reflexivity).
  assert (fst <$> @writePropagationPayloadWith flakyNet (bs "x") demoSchedule eightPeers eightReplicas eightHub = Some (7, 1)) as H7 by (vm_compute; reflexivity).
  rewrite Ef in Hv. destruct (H Hv) as (order & Ho & Hw). exists order. rewrite Hw in H7. injection H7 as H7. split; [exact Ho|]. split; [exact Hw|exact H7].
Defined.
