(* ===== verification/CommandBase.v ===== *)
(** * The command executor: errors, state and arguments

    Models [executor.go], the data types and effect records of [types.go] and
    the argument parsers of [commands.go] in [internal/command].

    A handler runs on the executor's shared state ([St]) and returns a value or
    an error, as in Go.  The state is everything a handler can reach: the store,
    the clients with their registries ([Hub]), the replication offsets and
    peers, the slow log.  The context carries who is asking; the effects record
    it points to is part of the state while the command runs.

    A command that blocks (BLPOP, WAIT) gives the other connections the server:
    [pauses] is the script of what they do each time this command waits, and an
    exhausted script is a context that is done.  Every run of the Go code that
    returns has such a script. *)

From S2P Require Import Prelude Strconv GoLib Float64 Strfloat GoText Resp Stream ValueObject Bitmap.
From S2P Require Import Store StoreOps Clients Slowlog Replication.

(** ** Errors *)

(** An error of the command layer: one with a wire prefix, a protocol error, an
    error without a prefix, or the context's. *)
Inductive cmdError :=
  | prefixedError (prefix message : bytes)
  | ProtocolError (message : bytes)
  | plainError (message : bytes)
  | ctxError.

#[global] Instance cmdError_eq_dec : EqDecision cmdError.
Proof. solve_decision. Defined.

Definition errorText (e : cmdError) : bytes :=
  match e with
  | prefixedError _ message | ProtocolError message | plainError message => message
  | ctxError => bs "context canceled"
  end.

(** [responseErrorValue] of types.go and [responseError] of handler.go. *)
Definition responseErrorValue (e : cmdError) : Value :=
  let prefix := match e with prefixedError prefix _ => prefix | _ => bs "ERR" end in
  ErrorValue (prefix ++ bs " " ++ errorText e).

Definition errErr (message : string) : cmdError := prefixedError (bs "ERR") (bs message).

Definition ErrProtocol (message : bytes) : cmdError := ProtocolError message.
Definition ErrUnknownCommand `{Unicode} (name : bytes) : cmdError :=
  prefixedError (bs "ERR") (bs "unknown command " ++ Quote name).
Definition ErrSyntaxError : cmdError := errErr "syntax error".
Definition ErrExecWithoutMultiError : cmdError := errErr "EXEC without MULTI".
Definition ErrDiscardWithoutMultiError : cmdError := errErr "DISCARD without MULTI".
Definition ErrMultiNestedError : cmdError := errErr "MULTI calls can not be nested".
Definition ErrWatchInsideMultiError : cmdError := errErr "WATCH inside MULTI is not allowed".
Definition ErrExecAbortError : cmdError :=
  prefixedError (bs "EXECABORT") (bs "Transaction discarded because of previous errors.").
Definition ErrInvalidExpireTimeError : cmdError := errErr "invalid expire time in 'SET' command".
Definition ErrInvalidStreamIDError : cmdError := errErr "invalid stream ID specified as stream command argument".
Definition ErrStreamIDTooSmallError : cmdError :=
  errErr "The ID specified in XADD is equal or smaller than the target stream top item".
Definition ErrValueNotIntegerError : cmdError := errErr "value is not an integer or out of range".
Definition ErrValueNotFloatError : cmdError := errErr "value is not a valid float".
Definition ErrWrongTypeError : cmdError :=
  prefixedError (bs "WRONGTYPE") (bs "Operation against a key holding the wrong kind of value").
Definition ErrNotHyperLogLogError : cmdError :=
  prefixedError (bs "WRONGTYPE") (bs "Key is not a valid HyperLogLog string value.").
Definition ErrNoAuthError : cmdError := prefixedError (bs "NOAUTH") (bs "Authentication required.").
Definition ErrWrongPassError : cmdError :=
  prefixedError (bs "WRONGPASS") (bs "invalid username-password pair or user is disabled.").
Definition ErrAuthNotConfiguredError : cmdError :=
  errErr "AUTH <password> called without any password configured for the default user. Are you sure your configuration is correct".
Definition ErrSubscribedModeOnlyError : cmdError := errErr "only PING, SUBSCRIBE, and UNSUBSCRIBE are allowed in this context".
Definition ErrSubscribeInsideMultiError : cmdError := errErr "SUBSCRIBE and UNSUBSCRIBE inside MULTI are not allowed".
Definition ErrMonitorModeOnlyError : cmdError := errErr "only PING is allowed in this context".
Definition ErrOutOfMemoryError : cmdError :=
  prefixedError (bs "OOM") (bs "command not allowed when used memory > 'maxmemory'").
Definition wrongNumberOfArgumentsError (command : bytes) : cmdError :=
  prefixedError (bs "ERR") (bs "wrong number of arguments for '" ++ command ++ bs "' command").
Definition blockingNotSupportedError (command : bytes) : cmdError :=
  prefixedError (bs "ERR") (command ++ bs " would block; blocking commands are not supported with event-loop networking").
Definition errOutOfRange : cmdError := errErr "value is out of range, must be positive".

(** The text of an error of the store that reaches the client as it is. *)
Definition storeErrorText (e : storeError) : bytes :=
  match e with
  | ErrSyntax => bs "syntax error"
  | ErrInvalidExpireTime => bs "invalid expire time in 'SET' command"
  | ErrStream ErrInvalidStreamID => bs "invalid stream ID specified as stream command argument"
  | ErrStream ErrStreamIDTooSmall => bs "stream ID is equal or smaller than the target stream top item"
  | ErrValueNotInteger => bs "value is not an integer or out of range"
  | ErrWrongType => bs "operation against a key holding the wrong kind of value"
  | ErrNotHyperLogLog => bs "key is not a valid HyperLogLog string value"
  | ErrMemoryLimitExceeded => bs "command not allowed when used memory > 'maxmemory'"
  | errInvalidValueObjectState => bs "storage: invalid value object state"
  end.
Definition passError (e : storeError) : cmdError := plainError (storeErrorText e).

Definition storageCommandError (e : storeError) : cmdError :=
  match e with
  | ErrWrongType => ErrWrongTypeError
  | ErrNotHyperLogLog => ErrNotHyperLogLogError
  | ErrValueNotInteger => ErrValueNotIntegerError
  | ErrSyntax => ErrSyntaxError
  | ErrStream ErrInvalidStreamID => ErrInvalidStreamIDError
  | ErrStream ErrStreamIDTooSmall => ErrStreamIDTooSmallError
  | ErrMemoryLimitExceeded => ErrOutOfMemoryError
  | _ => passError e
  end.

(** The conversions written out in single handlers. *)
Definition wrongTypeOrPass (e : storeError) : cmdError :=
  match e with ErrWrongType => ErrWrongTypeError | _ => passError e end.
Definition wrongTypeSyntaxOrPass (e : storeError) : cmdError :=
  match e with ErrWrongType => ErrWrongTypeError | ErrSyntax => ErrSyntaxError | _ => passError e end.
Definition wrongTypeStreamOrPass (e : storeError) : cmdError :=
  match e with ErrWrongType => ErrWrongTypeError | ErrStream ErrInvalidStreamID => ErrInvalidStreamIDError | _ => passError e end.
Definition expiryError (e : storeError) : cmdError :=
  match e with ErrSyntax => ErrSyntaxError | ErrInvalidExpireTime => ErrInvalidExpireTimeError | _ => passError e end.
Definition memoryOrPass (e : storeError) : cmdError :=
  match e with ErrMemoryLimitExceeded => ErrOutOfMemoryError | _ => passError e end.

(** ** Requests and results *)

Record Request := mkRequest { Name : bytes; Args : list bytes }.

(** [request.Args[i]]; a request reaches a handler after its validator. *)
Definition arg (i : nat) (r : Request) : bytes := default [] (Args r !! i).
Definition argc (r : Request) : Z := zlen (Args r).

(** The message of [protocol.Bytes]. *)
Definition bytesErrorText (v : Value) : bytes :=
  match v with
  | BulkString _ _ | TextBulkString _ _ => bs "protocol: null bulk string cannot be coerced to bytes"
  | Null => bs "protocol: null cannot be coerced to bytes"
  | ErrorValue _ => bs "protocol: value type protocol.ErrorValue cannot be coerced to bytes"
  | Array _ _ => bs "protocol: value type protocol.Array cannot be coerced to bytes"
  | _ => bs "protocol: value type <nil> cannot be coerced to bytes"
  end.

Fixpoint decodeArgs (elements : list Value) : result cmdError (list bytes) :=
  match elements with
  | [] => Ok []
  | v :: elements' =>
      match Bytes v with
      | Err _ => Err (ErrProtocol (bytesErrorText v))
      | Ok arg => let? args := decodeArgs elements' in Ok (arg :: args)
      end
  end.

Definition DecodeRequest `{Unicode} (value : Value) : result cmdError Request :=
  match value with
  | Array elements false =>
      match elements with
      | [] => Err (ErrProtocol (bs "expected array with at least one element"))
      | name :: rest =>
          match Bytes name with
          | Err _ => Err (ErrProtocol (bytesErrorText name))
          | Ok name => let? args := decodeArgs rest in Ok (mkRequest (strings_ToUpper name) args)
          end
      end
  | _ => Err (ErrProtocol (bs "expected non-null RESP array"))
  end.

Definition propagationFrame (r : Request) : Value := arr (text (Name r) :: (bulk <$> Args r)).

(** [executionEffects]. *)
Record executionEffects := mkEffects { propagation : list Value; durability : list Value; setExpiryMillis : Z }.
Definition noEffects : executionEffects := mkEffects [] [] 0.

(** ** The executor *)

(** [server.Stats] and [server.ReplicaInfo]. *)
Record ReplicaInfo := mkReplicaInfo { riID : nat; riPort : Z; riAck : Z }.
Record ServerStats := mkServerStats {
  ConnectedClients : Z; MonitoringClients : Z; CommandsProcessed : Z; Role : bytes; sReplicationID : bytes;
  sMasterOffset : Z; sReplicaOffset : Z; sReplicas : list ReplicaInfo
}.

Record Executor := mkExecutor {
  store : Store;
  hub : Hub;
  requirePass : bytes;
  replication : option ReplicationState;
  replicaPeers : option ReplicaRegistry;
  monitorAttached : bool;   (* [monitorRegistry != nil] *)
  slowlogRegistry : option SlowlogRegistry;
  slowlogThreshold : Z;
  (** How often the rewrite trigger has been called. *)
  rewriteCalls : nat
}.

(** [NewExecutor]: the registries the server injects are nil. *)
Definition NewExecutor (s : Store) : Executor := mkExecutor s NewHub [] None None false None 0 0.

(** What the command layer takes from outside: the environment of the store and
    of the network, Unicode, SHA-256, the functions of the math package, the
    memory statistics of the runtime, and the two closures the server injects. *)
Class CommandEnv := {
  cmd_env :: Env;
  cmd_net :: Net;
  cmd_unicode :: Unicode;
  sha256 : bytes → bytes;
  mathLog : float64 → float64;
  mathSin : float64 → float64;
  mathCos : float64 → float64;
  mathAsin : float64 → float64;
  (** [HeapAlloc], [HeapSys] and [HeapIdle]. *)
  memStats : Executor → Z * Z * Z;
  serverStatsProvider : option (Executor → ServerStats);
  (** [aofRewrite]: the error of its n-th call. *)
  aofRewrite : option (nat → option cmdError)
}.

(** The context of a command: the client, whether it comes from the replication
    stream, and whether it runs inline on the event loop. *)
Record Context_ := mkContext { ctxClient : option nat; IsReplicationOrigin : bool; IsInlineExecution : bool }.

(** What the other connections do while a command waits, and whether it is the
    timer that ends the wait. *)
Record pause := mkPause { meanwhile : Executor → Executor; timerFired : bool }.

Record St := mkSt { ex : Executor; eff : executionEffects; pauses : list pause }.

Definition setStore (s : Store) (e : Executor) : Executor :=
  mkExecutor s (hub e) (requirePass e) (replication e) (replicaPeers e) (monitorAttached e) (slowlogRegistry e) (slowlogThreshold e) (rewriteCalls e).
Definition setHub (h : Hub) (e : Executor) : Executor :=
  mkExecutor (store e) h (requirePass e) (replication e) (replicaPeers e) (monitorAttached e) (slowlogRegistry e) (slowlogThreshold e) (rewriteCalls e).
Definition setReplication (r : option ReplicationState) (p : option ReplicaRegistry) (e : Executor) : Executor :=
  mkExecutor (store e) (hub e) (requirePass e) r p (monitorAttached e) (slowlogRegistry e) (slowlogThreshold e) (rewriteCalls e).
Definition setSlowlog (r : option SlowlogRegistry) (e : Executor) : Executor :=
  mkExecutor (store e) (hub e) (requirePass e) (replication e) (replicaPeers e) (monitorAttached e) r (slowlogThreshold e) (rewriteCalls e).
Definition countRewrite (e : Executor) : Executor :=
  mkExecutor (store e) (hub e) (requirePass e) (replication e) (replicaPeers e) (monitorAttached e) (slowlogRegistry e) (slowlogThreshold e) (S (rewriteCalls e)).

Definition SetRequirePass (password : bytes) (e : Executor) : Executor :=
  mkExecutor (store e) (hub e) password (replication e) (replicaPeers e) (monitorAttached e) (slowlogRegistry e) (slowlogThreshold e) (rewriteCalls e).
Definition SetSlowlogConfig (r : option SlowlogRegistry) (threshold : Z) (e : Executor) : Executor :=
  mkExecutor (store e) (hub e) (requirePass e) (replication e) (replicaPeers e) (monitorAttached e) r threshold (rewriteCalls e).
Definition AttachMonitorRegistry (b : bool) (e : Executor) : Executor :=
  mkExecutor (store e) (hub e) (requirePass e) (replication e) (replicaPeers e) b (slowlogRegistry e) (slowlogThreshold e) (rewriteCalls e).

(** ** Handlers: state passing with errors *)

Definition H (A : Type) : Type := St → result cmdError A * St.
Definition hret {A} (a : A) : H A := λ st, (Ok a, st).
Definition hfail {A} (e : cmdError) : H A := λ st, (Err e, st).
Definition hbind {A B} (m : H A) (k : A → H B) : H B := λ st,
  match m st with (Ok a, st') => k a st' | (Err e, st') => (Err e, st') end.
Definition hlift {A} (r : result cmdError A) : H A := λ st, (r, st).
Definition hgets {A} (f : Executor → A) : H A := λ st, (Ok (f (ex st)), st).
Definition onEx (f : Executor → Executor) : H unit := λ st, (Ok tt, mkSt (f (ex st)) (eff st) (pauses st)).
Definition onEff (f : executionEffects → executionEffects) : H unit := λ st, (Ok tt, mkSt (ex st) (f (eff st)) (pauses st)).

Notation "'let*' x ':=' m 'in' k" := (hbind m (λ x, k))
  (at level 10, x pattern, m at level 100, k at level 200) : go_scope.
Notation "'do*' m 'in' k" := (hbind m (λ _, k)) (at level 10, m at level 100, k at level 200) : go_scope.

(** A call of the store, of a method of the hub. *)
Definition onStoreM {A} (m : M A) : H A := λ st,
  let '(a, s) := m (store (ex st)) in (Ok a, mkSt (setStore s (ex st)) (eff st) (pauses st)).
Definition storeCall {A} (conv : storeError → cmdError) (m : M (result storeError A)) : H A :=
  let* r := onStoreM m in hlift (map_err conv r).
Definition onHub (f : Hub → Hub) : H unit := onEx (λ e, setHub (f (hub e)) e).
Definition onHubR {A} (f : Hub → A * Hub) : H A := λ st,
  let '(a, h) := f (hub (ex st)) in (Ok a, mkSt (setHub h (ex st)) (eff st) (pauses st)).

(** [time.Now()] in nanoseconds. *)
Definition now_ `{Env} : H Z := onStoreM nowNano.

Definition clientStateFromContext (ctx : Context_) : H nat :=
  match ctxClient ctx with Some id => hret id | None => hfail (plainError (bs "client state unavailable")) end.
Definition clientOf (id : nat) : H ClientState := hgets (λ e, client (hub e) id).

Definition withExecutionEffects {A} (m : H A) : H A := λ st,
  let '(r, st') := m (mkSt (ex st) noEffects (pauses st)) in (r, mkSt (ex st') (eff st) (pauses st')).

Definition touchWatchKeys (keys : list bytes) : H unit :=
  if zlen keys =? 0 then hret tt else onHub (WatchRegistry_Touch keys).

(** [append] to the frames of the effects. *)
Definition appendFrames (origin : bool) (frame : Value) (e : executionEffects) : executionEffects :=
  mkEffects (if origin then propagation e else propagation e ++ [frame]) (durability e ++ [frame]) (setExpiryMillis e).

Definition recordEvictedKeys (ctx : Context_) (keys : list bytes) : H unit :=
  if zlen keys =? 0 then hret tt
  else
    do* touchWatchKeys keys in
    onEff (appendFrames (IsReplicationOrigin ctx) (DeleteFrame keys)).

Definition recordWriteEffects (ctx : Context_) (key : bytes) (evicted : list bytes) : H unit :=
  do* touchWatchKeys [key] in recordEvictedKeys ctx evicted.

(** ** Arguments *)

Definition parseIntegerArgument (raw : bytes) : result cmdError Z :=
  match ParseInt raw with Some v => Ok v | None => Err ErrValueNotIntegerError end.
(** An [int] is 64 bits wide. *)
Definition parseIntArgument (raw : bytes) : result cmdError Z := parseIntegerArgument raw.
Definition parseBitmapOffsetArgument (raw : bytes) : result cmdError Z :=
  let? offset := parseIntegerArgument raw in
  if (offset <? 0) || (MaxBitmapOffset <? offset) then Err ErrValueNotIntegerError else Ok offset.
Definition parseBitValueArgument (raw : bytes) : result cmdError Z :=
  let? bit := parseIntegerArgument raw in
  if negb (bit =? 0) && negb (bit =? 1) then Err ErrValueNotIntegerError else Ok bit.
Definition isInf (x : float64) : bool := match x with S754_infinity _ => true | _ => false end.
Definition parseFloatArgument (raw : bytes) : result cmdError float64 :=
  match ParseFloat raw with
  | Some v => if isNaN v || isInf v then Err ErrValueNotFloatError else Ok v
  | None => Err ErrValueNotFloatError
  end.
Definition formatFloatScore (score : float64) : bytes := FormatFloat score.
(** [strconv.Atoi]; the error is only tested for nil. *)
Definition parseReplicationPortArgument (raw : bytes) : option Z :=
  match ParseInt raw with
  | Some port => if (port <? 1) || (65535 <? port) then None else Some port
  | None => None
  end.
Definition parseRangeBounds (start stop : bytes) : result cmdError (Z * Z) :=
  let? start := parseIntegerArgument start in
  let? stop := parseIntegerArgument stop in
  Ok (start, stop).

(** Arguments from [from] on, two or three at a time. *)
Fixpoint pairsOf (args : list bytes) : list (bytes * bytes) :=
  match args with a :: c :: args' => (a, c) :: pairsOf args' | _ => [] end.
Fixpoint triplesOf (args : list bytes) : list (bytes * bytes * bytes) :=
  match args with a :: c :: d :: args' => (a, c, d) :: triplesOf args' | _ => [] end.
