(* ===== verification/Commands.v ===== *)
(** * Command handlers

    One definition per handler of [commands.go], [list.go], [hashset.go],
    [geo.go], [slowlog.go], [monitor.go] and [info.go] in [internal/command],
    and their validators.  A handler is the whole Go function: its own argument
    checks, the call of the store, the watch and eviction effects and the reply.
    Handlers of the table take the request after its validator; an index they use
    without a check is within the arity the validator has established. *)

From S2P Require Import Prelude Strconv GoLib Float64 CompactZSet Strfloat GoText Resp Stream ValueObject Bitmap.
From S2P Require Import Store StoreOps Clients Slowlog Rdb Replication Geo CommandBase.

Section Commands.
Context {C : CommandEnv}.

Definition okReply : Value := SimpleString (bs "OK").
Definition nullBulk : Value := BulkString [] true.
Definition nullArray : Value := Array [] true.
Definition listResponse (values : list bytes) : Value := arr (bulk <$> values).

(** ** Watches and transactions (commands.go) *)

Definition handleWatch (ctx : Context_) (request : Request) : H Value :=
  let* id := clientStateFromContext ctx in
  let* state := clientOf id in
  if InTransaction state then hfail ErrWatchInsideMultiError
  else
    do* onHub (WatchKeys id (Args request)) in
    hret okReply.

Definition handleMulti (ctx : Context_) (request : Request) : H Value :=
  if negb (argc request =? 0) then hfail (wrongNumberOfArgumentsError (bs "MULTI"))
  else
    let* id := clientStateFromContext ctx in
    let* state := clientOf id in
    if IsSubscribed state then hfail ErrSubscribedModeOnlyError
    else
      let '(began, state') := BeginTransaction state in
      if negb began then hfail ErrMultiNestedError
      else
        do* onHub (onClient id (λ c, (BeginTransaction c).2)) in
        hret okReply.

Definition handleDiscard (ctx : Context_) (request : Request) : H Value :=
  if negb (argc request =? 0) then hfail (wrongNumberOfArgumentsError (bs "DISCARD"))
  else
    let* id := clientStateFromContext ctx in
    let* state := clientOf id in
    if negb (InTransaction state) then hfail ErrDiscardWithoutMultiError
    else
      do* onHub (onClient id ResetTransaction) in
      do* onHub (UnwatchAll id) in
      hret okReply.

(** The loop of [handleExec] over the queue: a failed command leaves its error
    in the reply and the loop goes on; a context that is done stops it. *)
Fixpoint execLoop (run : Request → H ExecuteResult) (queued : list QueuedCommand) (acc : list Value * list Value * list Value)
    : H (list Value * list Value * list Value) :=
  match queued with
  | [] => hret acc
  | q :: queued' => λ st,
      let '(responses, prop, dur) := acc in
      match run (mkRequest (qName q) (qArgs q)) st with
      | (Err ctxError, st) => (Err ctxError, st)
      | (Err e, st) => execLoop run queued' (responses ++ [responseErrorValue e], prop, dur) st
      | (Ok result, st) =>
          match Responses result with
          | [response] => execLoop run queued' (responses ++ [response], prop ++ Propagation result, dur ++ Durability result) st
          | _ => execLoop run queued' (responses ++ [ErrorValue (bs "ERR queued command returned an invalid response")], prop, dur) st
          end
      end
  end.

(** [run] executes one queued request without queueing it again. *)
Definition handleExec (run : Context_ → Request → H ExecuteResult) (ctx : Context_) (request : Request) : H ExecuteResult :=
  if negb (argc request =? 0) then hfail (wrongNumberOfArgumentsError (bs "EXEC"))
  else
    let* id := clientStateFromContext ctx in
    let* state := clientOf id in
    if negb (InTransaction state) then hfail ErrExecWithoutMultiError
    else if TxDirty state then
      do* onHub (onClient id ResetTransaction) in
      do* onHub (UnwatchAll id) in
      hfail ErrExecAbortError
    else if TxFailed state then
      do* onHub (onClient id ResetTransaction) in
      do* onHub (UnwatchAll id) in
      hret (SingleResponse nullArray)
    else
      do* onHub (UnwatchAll id) in
      let* state := clientOf id in
      let '(queued, _) := DrainTransaction state in
      do* onHub (onClient id (λ c, (DrainTransaction c).2)) in
      let* (responses, prop, dur) := execLoop (run ctx) queued ([], [], []) in
      hret (mkResult [arr responses] [] prop dur false).

(** ** Publish and subscribe *)

Definition pubSubAckResponse (kind : string) (channel : Value) (count : Z) : Value :=
  arr [text (bs kind); channel; Integer count].
Definition pubSubMessageResponse (channel payload : bytes) : Value := arr [text (bs "message"); bulk channel; bulk payload].

Fixpoint subscribeLoop (id : nat) (channels : list bytes) (responses : list Value) : H (list Value) :=
  match channels with
  | [] => hret responses
  | channel :: channels' =>
      do* onHub (SubscribeChannel id channel) in
      let* state := clientOf id in
      subscribeLoop id channels' (responses ++ [pubSubAckResponse "subscribe" (bulk channel) (SubscriptionCount state)])
  end.

Definition handleSubscribe (ctx : Context_) (request : Request) : H ExecuteResult :=
  let* id := clientStateFromContext ctx in
  let* state := clientOf id in
  if InTransaction state then hfail ErrSubscribeInsideMultiError
  else
    let* responses := subscribeLoop id (Args request) [] in
    hret (MultiResponse responses).

Fixpoint unsubscribeLoop (id : nat) (channels : list bytes) (responses : list Value) : H (list Value) :=
  match channels with
  | [] => hret responses
  | channel :: channels' =>
      do* onHub (UnsubscribeChannel id channel) in
      let* state := clientOf id in
      unsubscribeLoop id channels' (responses ++ [pubSubAckResponse "unsubscribe" (bulk channel) (SubscriptionCount state)])
  end.

Definition handleUnsubscribe (ctx : Context_) (request : Request) : H ExecuteResult :=
  let* id := clientStateFromContext ctx in
  let* state := clientOf id in
  if InTransaction state then hfail ErrSubscribeInsideMultiError
  else
    let channels := if argc request =? 0 then SubscribedChannels state else Args request in
    if (argc request =? 0) && (zlen channels =? 0)
    then hret (MultiResponse [pubSubAckResponse "unsubscribe" nullBulk 0])
    else
      let* responses := unsubscribeLoop id channels [] in
      hret (MultiResponse responses).

(** [deliverPubSubMessage] with its per-subscriber part. *)
Definition deliverPubSubMessage (payload : bytes) (subscribers : list nat) (h : Hub) : Z * Hub :=
  foldl (pushTo payload) (0, h) subscribers.

Definition handlePublish (ctx : Context_) (request : Request) : H Value :=
  let channel := arg 0 request in
  let* subscribers := hgets (λ e, PubSub_AppendSubscribers channel (hub e)) in
  if zlen subscribers =? 0 then hret (Integer 0)
  else
    match Encode (pubSubMessageResponse (arg 0 request) (arg 1 request)) with
    | Err _ => hfail (plainError (bs "encode pub/sub message"))
    | Ok encodedMessage =>
        let* matched := onHubR (deliverPubSubMessage encodedMessage subscribers) in
        hret (Integer matched)
    end.

(** ** Connection commands *)

(** [secretsEqual]: [subtle.ConstantTimeCompare] of the two digests. *)
Definition secretsEqual (expected actual : bytes) : bool := bool_decide (sha256 expected = sha256 actual).

Definition handleAuth (ctx : Context_) (request : Request) : H Value :=
  if negb (argc request =? 1) then hfail (wrongNumberOfArgumentsError (bs "AUTH"))
  else
    let* pass := hgets requirePass in
    if decide (pass = []) then hfail ErrAuthNotConfiguredError
    else
      let* id := clientStateFromContext ctx in
      if negb (secretsEqual pass (arg 0 request)) then hfail ErrWrongPassError
      else
        do* onHub (onClient id (SetAuthenticated true)) in
        hret okReply.

Definition handlePing (ctx : Context_) (request : Request) : H Value :=
  if argc request =? 1 then hret (bulk (arg 0 request))
  else if 1 <? argc request then hfail (wrongNumberOfArgumentsError (bs "PING"))
  else hret (SimpleString (bs "PONG")).

Definition handleEcho (ctx : Context_) (request : Request) : H Value :=
  if negb (argc request =? 1) then hfail (wrongNumberOfArgumentsError (bs "ECHO"))
  else hret (bulk (arg 0 request)).

Definition handleMonitor (ctx : Context_) (request : Request) : H Value :=
  if negb (argc request =? 0) then hfail (wrongNumberOfArgumentsError (bs "MONITOR"))
  else
    let* id := clientStateFromContext ctx in
    let* state := clientOf id in
    if InTransaction state then hfail (plainError (bs "MONITOR inside MULTI is not allowed"))
    else if IsSubscribed state then hfail ErrSubscribedModeOnlyError
    else
      let* attached := hgets monitorAttached in
      if negb attached then hfail (plainError (bs "monitor registry unavailable"))
      else
        do* onHub (StartMonitoring id) in
        hret okReply.

Definition handleBGRewriteAOF (ctx : Context_) (request : Request) : H Value :=
  if negb (argc request =? 0) then hfail (wrongNumberOfArgumentsError (bs "BGREWRITEAOF"))
  else
    match aofRewrite with
    | None => hfail (plainError (bs "append only file persistence is not enabled"))
    | Some trigger =>
        let* n := hgets rewriteCalls in
        do* onEx countRewrite in
        match trigger n with
        | Some e => hfail e
        | None => hret (SimpleString (bs "Background append only file rewriting started"))
        end
    end.

(** ** Strings *)

(** [storage.ParseExpiryMillis] with the clock it reads. *)
Definition parseExpiry (args : list bytes) : H Z :=
  let* now := now_ in hlift (map_err expiryError (ParseExpiryMillis now args)).

Definition handleSet (ctx : Context_) (request : Request) : H Value :=
  let* expiresAt := parseExpiry (drop 2 (Args request)) in
  let key := arg 0 request in
  let* evicted := storeCall memoryOrPass (Set_ key (arg 1 request) expiresAt) in
  do* onEff (λ e, mkEffects (propagation e) (durability e) expiresAt) in
  do* touchWatchKeys [key] in
  do* recordEvictedKeys ctx evicted in
  hret okReply.

Definition handleGet (ctx : Context_) (request : Request) : H Value :=
  if negb (argc request =? 1) then hfail (wrongNumberOfArgumentsError (bs "GET"))
  else
    let* value := storeCall wrongTypeOrPass (Get (arg 0 request)) in
    hret (match value with None => nullBulk | Some v => bulk v end).

Definition handleSetBit (ctx : Context_) (request : Request) : H Value :=
  let* offset := hlift (parseBitmapOffsetArgument (arg 1 request)) in
  let* bit := hlift (parseBitValueArgument (arg 2 request)) in
  let key := arg 0 request in
  let* (previous, evicted) := storeCall storageCommandError (SetBit key offset bit) in
  do* recordWriteEffects ctx key evicted in
  hret (Integer previous).

Definition handleGetBit (ctx : Context_) (request : Request) : H Value :=
  let* offset := hlift (parseBitmapOffsetArgument (arg 1 request)) in
  let* bit := storeCall storageCommandError (GetBit (arg 0 request) offset) in
  hret (Integer (default 0 bit)).

Definition handleBitCount (ctx : Context_) (request : Request) : H Value :=
  let* (start, end_) :=
    (if argc request =? 3 then
       let* s := hlift (parseIntegerArgument (arg 1 request)) in
       let* e := hlift (parseIntegerArgument (arg 2 request)) in
       hret (Some s, Some e)
     else hret (None, None)) in
  let* count := storeCall storageCommandError (BitCount (arg 0 request) start end_) in
  hret (Integer (default 0 count)).

Definition handlePFAdd (ctx : Context_) (request : Request) : H Value :=
  if argc request <? 1 then hfail (wrongNumberOfArgumentsError (bs "PFADD"))
  else
    let key := arg 0 request in
    let* (changed, evicted) := storeCall storageCommandError (PFAdd key (drop 1 (Args request))) in
    do* recordWriteEffects ctx key evicted in
    hret (Integer changed).

Definition handlePFCount (ctx : Context_) (request : Request) : H Value :=
  if argc request <? 1 then hfail (wrongNumberOfArgumentsError (bs "PFCOUNT"))
  else
    let* count := storeCall storageCommandError (PFCount mathLog (Args request)) in
    hret (Integer count).

Definition handleDel (ctx : Context_) (request : Request) : H Value :=
  if argc request <? 1 then hfail (wrongNumberOfArgumentsError (bs "DEL"))
  else
    let* touched :=
      (if argc request =? 1 then
         let key := arg 0 request in
         let* ok := onStoreM (Delete key) in
         hret (if ok then [key] else [])
       else onStoreM (DeleteMany (Args request))) in
    do* touchWatchKeys touched in
    hret (Integer (zlen touched)).

Definition handleIncr (ctx : Context_) (request : Request) : H Value :=
  if negb (argc request =? 1) then hfail (wrongNumberOfArgumentsError (bs "INCR"))
  else
    let key := arg 0 request in
    let* (value, evicted) := storeCall storageCommandError (Increment key) in
    do* recordWriteEffects ctx key evicted in
    hret (Integer value).

(** ** Lists (list.go) *)

Definition handleLPush (ctx : Context_) (request : Request) : H Value :=
  if argc request <? 2 then hfail (wrongNumberOfArgumentsError (bs "LPUSH"))
  else
    let key := arg 0 request in
    let* (length, evicted) := storeCall storageCommandError (LeftPush key (drop 1 (Args request))) in
    do* recordWriteEffects ctx key evicted in
    hret (Integer length).

Definition handleRPush (ctx : Context_) (request : Request) : H Value :=
  if argc request <? 2 then hfail (wrongNumberOfArgumentsError (bs "RPUSH"))
  else
    let key := arg 0 request in
    let* (length, evicted) := storeCall storageCommandError (RightPush key (drop 1 (Args request))) in
    do* recordWriteEffects ctx key evicted in
    hret (Integer length).

Definition handleLRange (ctx : Context_) (request : Request) : H Value :=
  let* (start, stop) := hlift (parseRangeBounds (arg 1 request) (arg 2 request)) in
  let* values := storeCall wrongTypeOrPass (ListRange (arg 0 request) start stop) in
  hret (listResponse values).

(** The loop of [handleBLPop]: subscribe, try, and wait for a push; each round of
    waiting takes one entry of the script. *)
Fixpoint blpopLoop (ctx : Context_) (key : bytes) (script : list pause) : H Value :=
  let* waiter := onStoreM (SubscribeListPush key) in
  λ st,
  match onStoreM (LeftPop key) st with
  | (Err e, st) => (Err e, st)
  | (Ok (Err e), st) =>
      (do* onStoreM (UnsubscribeListPush key waiter) in hfail (wrongTypeOrPass e)) st
  | (Ok (Ok (Some value)), st) =>
      (do* onStoreM (UnsubscribeListPush key waiter) in
       do* touchWatchKeys [key] in
       hret (arr [bulk key; bulk value])) st
  | (Ok (Ok None), st) =>
      if IsInlineExecution ctx then
        (do* onStoreM (UnsubscribeListPush key waiter) in hfail (blockingNotSupportedError (bs "BLPOP"))) st
      else
        match script with
        | [] => (do* onStoreM (UnsubscribeListPush key waiter) in hfail ctxError) st
        | p :: script' =>
            (do* onStoreM (UnsubscribeListPush key waiter) in blpopLoop ctx key script')
              (mkSt (meanwhile p (ex st)) (eff st) script')
        end
  end.

Definition handleBLPop (ctx : Context_) (request : Request) : H Value := λ st,
  if negb (argc request =? 1) then (Err (wrongNumberOfArgumentsError (bs "BLPOP")), st)
  else blpopLoop ctx (arg 0 request) (pauses st) st.

Definition popList (request : Request) (name : string) (left_ : bool) : H Value :=
  if negb (argc request =? 1) && negb (argc request =? 2) then hfail (wrongNumberOfArgumentsError (bs name))
  else
    let key := arg 0 request in
    if argc request =? 1 then
      let* value := storeCall wrongTypeOrPass (if left_ then LeftPop key else RightPop key) in
      match value with
      | None => hret nullBulk
      | Some value =>
          do* touchWatchKeys [key] in
          hret (bulk value)
      end
    else
      let* count := hlift (parseIntegerArgument (arg 1 request)) in
      if count <? 0 then hfail errOutOfRange
      else
        let* values := storeCall wrongTypeSyntaxOrPass (if left_ then LeftPopN key count else RightPopN key count) in
        match values with
        | None => hret nullArray
        | Some values =>
            do* (if (0 <? count) && (0 <? zlen values) then touchWatchKeys [key] else hret tt) in
            hret (listResponse values)
        end.
Definition handleLPop (ctx : Context_) (request : Request) : H Value := popList request "LPOP" true.
Definition handleRPop (ctx : Context_) (request : Request) : H Value := popList request "RPOP" false.

(** ** Sorted sets *)

Fixpoint parseEntries (pairs : list (bytes * bytes)) : result cmdError (list scored) :=
  match pairs with
  | [] => Ok []
  | (raw, member) :: pairs' =>
      let? score := parseFloatArgument raw in
      let? es := parseEntries pairs' in
      Ok ((member, score) :: es)
  end.

Definition handleZAdd (ctx : Context_) (request : Request) : H Value :=
  let* entries := hlift (parseEntries (pairsOf (drop 1 (Args request)))) in
  let key := arg 0 request in
  let* (added, evicted) := storeCall storageCommandError (ZAdd key entries) in
  do* recordWriteEffects ctx key evicted in
  hret (Integer added).

Definition zsetResponse (entries : list scored) (withScores : bool) : Value :=
  arr (e ← entries; text e.1 :: (if withScores then [text (formatFloatScore e.2)] else [])).

Definition handleZRange (ctx : Context_) (request : Request) : H Value :=
  if (argc request =? 4) && negb (EqualFold (arg 3 request) (bs "WITHSCORES")) then hfail ErrSyntaxError
  else
    let* (start, stop) := hlift (parseRangeBounds (arg 1 request) (arg 2 request)) in
    let* entries := storeCall wrongTypeOrPass (ZRange (arg 0 request) start stop) in
    hret (zsetResponse entries (argc request =? 4)).

(** ** Streams *)

Definition streamReadResponse (key : bytes) (entries : list StreamEntry) : Value :=
  if zlen entries =? 0 then arr []
  else arr [arr [bulk key; arr ((λ e, arr [text (ID e); listResponse (Values e)]) <$> entries)]].

Definition handleXAdd (ctx : Context_) (request : Request) : H Value :=
  let key := arg 0 request in
  let* (id, evicted) := storeCall storageCommandError (XAdd key (arg 1 request) (drop 2 (Args request))) in
  do* recordWriteEffects ctx key evicted in
  hret (text id).

Definition handleXRead (ctx : Context_) (request : Request) : H Value :=
  if argc request =? 0 then hfail (wrongNumberOfArgumentsError (bs "XREAD"))
  else if negb (EqualFold (arg 0 request) (bs "STREAMS")) then hfail ErrSyntaxError
  else if negb (argc request =? 3) then hfail ErrSyntaxError
  else
    let* entries := storeCall wrongTypeStreamOrPass (XRead (arg 1 request) (arg 2 request)) in
    hret (streamReadResponse (arg 1 request) entries).

(** ** Hashes and sets (hashset.go) *)

Definition handleHSet (ctx : Context_) (request : Request) : H Value :=
  let key := arg 0 request in
  let* (added, evicted) := storeCall storageCommandError (HSet key (pairsOf (drop 1 (Args request)))) in
  do* recordWriteEffects ctx key evicted in
  hret (Integer added).

Definition handleHGet (ctx : Context_) (request : Request) : H Value :=
  if negb (argc request =? 2) then hfail (wrongNumberOfArgumentsError (bs "HGET"))
  else
    let* value := storeCall wrongTypeOrPass (HGet (arg 0 request) (arg 1 request)) in
    hret (match value with None => nullBulk | Some v => bulk v end).

Definition handleHDel (ctx : Context_) (request : Request) : H Value :=
  if argc request <? 2 then hfail (wrongNumberOfArgumentsError (bs "HDEL"))
  else
    let key := arg 0 request in
    let* removed := storeCall wrongTypeSyntaxOrPass (HDel key (drop 1 (Args request))) in
    do* (if 0 <? removed then touchWatchKeys [key] else hret tt) in
    hret (Integer removed).

Definition handleHGetAll (ctx : Context_) (request : Request) : H Value :=
  if negb (argc request =? 1) then hfail (wrongNumberOfArgumentsError (bs "HGETALL"))
  else
    let* entries := storeCall wrongTypeOrPass (HGetAll (arg 0 request)) in
    hret (arr (e ← entries; [bulk e.1; bulk e.2])).

Definition handleSAdd (ctx : Context_) (request : Request) : H Value :=
  if argc request <? 2 then hfail (wrongNumberOfArgumentsError (bs "SADD"))
  else
    let key := arg 0 request in
    let* (added, evicted) := storeCall storageCommandError (SAdd key (drop 1 (Args request))) in
    do* recordWriteEffects ctx key evicted in
    hret (Integer added).

Definition handleSIsMember (ctx : Context_) (request : Request) : H Value :=
  if negb (argc request =? 2) then hfail (wrongNumberOfArgumentsError (bs "SISMEMBER"))
  else
    let* exists_ := storeCall wrongTypeOrPass (SIsMember (arg 0 request) (arg 1 request)) in
    hret (Integer (if exists_ then 1 else 0)).

Definition handleSRem (ctx : Context_) (request : Request) : H Value :=
  if argc request <? 2 then hfail (wrongNumberOfArgumentsError (bs "SREM"))
  else
    let key := arg 0 request in
    let* removed := storeCall wrongTypeSyntaxOrPass (SRem key (drop 1 (Args request))) in
    do* (if 0 <? removed then touchWatchKeys [key] else hret tt) in
    hret (Integer removed).

Definition handleSMembers (ctx : Context_) (request : Request) : H Value :=
  if negb (argc request =? 1) then hfail (wrongNumberOfArgumentsError (bs "SMEMBERS"))
  else
    let* members := storeCall wrongTypeOrPass (SMembers (arg 0 request)) in
    hret (arr (bulk <$> members)).

(** ** Geospatial commands (geo.go) *)

Definition parseGeoCoordinates (rawLongitude rawLatitude : bytes) : result cmdError (float64 * float64) :=
  let? longitude := parseFloatArgument rawLongitude in
  let? latitude := parseFloatArgument rawLatitude in
  if flt longitude geoLongitudeMin || fgt longitude geoLongitudeMax || flt latitude geoLatitudeMin || fgt latitude geoLatitudeMax
  then Err (prefixedError (bs "ERR") (bs "invalid longitude,latitude pair " ++ FormatFixed 6 longitude ++ bs "," ++ FormatFixed 6 latitude))
  else Ok (longitude, latitude).

Definition parseGeoRadiusArgument (raw : bytes) : result cmdError float64 :=
  let? radius := parseFloatArgument raw in
  if flt radius (S754_zero false) then Err (errErr "radius cannot be negative") else Ok radius.

Definition parseGeoUnitArgument (raw : bytes) : result cmdError float64 :=
  let unit := strings_ToLower raw in
  if decide (unit = bs "m") then Ok (floatOfZ 1)
  else if decide (unit = bs "km") then Ok geoMetersPerKilometer
  else if decide (unit = bs "mi") then Ok geoMetersPerMile
  else if decide (unit = bs "ft") then Ok geoMetersPerFoot
  else Err (errErr "unsupported unit provided. please use m, km, ft, mi").

Fixpoint parseGeoEntries (triples : list (bytes * bytes * bytes)) : result cmdError (list scored) :=
  match triples with
  | [] => Ok []
  | (rawLongitude, rawLatitude, member) :: triples' =>
      let? (longitude, latitude) := parseGeoCoordinates rawLongitude rawLatitude in
      let? es := parseGeoEntries triples' in
      Ok ((member, floatOfZ (geohashEncode longitude latitude)) :: es)
  end.

Definition handleGeoAdd (ctx : Context_) (request : Request) : H Value :=
  let* entries := hlift (parseGeoEntries (triplesOf (drop 1 (Args request)))) in
  let key := arg 0 request in
  let* (added, evicted) := storeCall storageCommandError (ZAdd key entries) in
  do* recordWriteEffects ctx key evicted in
  hret (Integer added).

Definition geoDistance := geoDistanceMeters mathSin mathCos mathAsin.

Definition handleGeoDist (ctx : Context_) (request : Request) : H Value :=
  let* unitMeters := (if argc request =? 4 then hlift (parseGeoUnitArgument (arg 3 request)) else hret (floatOfZ 1)) in
  let* scores := storeCall storageCommandError (ZScores (arg 0 request) [arg 1 request; arg 2 request]) in
  match scores with
  | [Some score1; Some score2] =>
      let '(firstLongitude, firstLatitude) := geohashDecode (geohashBits score1) in
      let '(secondLongitude, secondLatitude) := geohashDecode (geohashBits score2) in
      let distance := fdiv (geoDistance firstLongitude firstLatitude secondLongitude secondLatitude) unitMeters in
      hret (text (FormatFixed 4 distance))
  | _ => hret nullBulk
  end.

Definition handleGeoRadius (ctx : Context_) (request : Request) : H Value :=
  if argc request <? 5 then hfail (wrongNumberOfArgumentsError (bs "GEORADIUS"))
  else if 5 <? argc request then hfail ErrSyntaxError
  else
    let* (longitude, latitude) := hlift (parseGeoCoordinates (arg 1 request) (arg 2 request)) in
    let* radius := hlift (parseGeoRadiusArgument (arg 3 request)) in
    let* unitMeters := hlift (parseGeoUnitArgument (arg 4 request)) in
    let radiusMeters := fmul radius unitMeters in
    let* entries := storeCall wrongTypeOrPass
      (ZRangeByScores (arg 0 request) (geoRadiusScoreRanges mathSin mathCos mathAsin longitude latitude radiusMeters)) in
    hret (arr ((λ e : scored, text e.1) <$> filter (λ e : scored,
      let '(memberLongitude, memberLatitude) := geohashDecode (geohashBits e.2) in
      fle (geoDistance longitude latitude memberLongitude memberLatitude) radiusMeters = true) entries)).

(** ** The slow log (slowlog.go) *)

Definition isSensitiveSlowlogCommand (name : bytes) : bool := bool_decide (name = bs "AUTH").
Definition requestTokens (request : Request) : list bytes :=
  Name request :: (if isSensitiveSlowlogCommand (Name request) then (λ _, bs "[redacted]") <$> Args request else Args request).

Definition slowlogEntries (limit : Z) : H (list SlowlogEntry) :=
  hgets (λ e, match slowlogRegistry e with None => [] | Some r => Slowlog_Entries limit r end).

(** [Timestamp.Unix()] rounds down, [Duration.Microseconds()] towards zero. *)
Definition slowlogEntriesResponse (entries : list SlowlogEntry) : Value :=
  arr ((λ e, arr [Integer (slID e); Integer (slTimestamp e / 1000000000); Integer (Z.quot (slDuration e) 1000);
                  arr (text <$> slCommand e); text (slClientAddr e); text []]) <$> entries).

Definition handleSlowlog (ctx : Context_) (request : Request) : H Value :=
  let subcommand := strings_ToUpper (arg 0 request) in
  if decide (subcommand = bs "GET") then
    let* limit :=
      (if argc request =? 2 then
         match parseIntArgument (arg 1 request) with
         | Ok parsed => if parsed <? 0 then hfail ErrValueNotIntegerError else hret parsed
         | Err _ => hfail ErrValueNotIntegerError
         end
       else hret (-1)) in
    let* entries := slowlogEntries limit in
    hret (slowlogEntriesResponse entries)
  else if decide (subcommand = bs "LEN") then
    let* n := hgets (λ e, match slowlogRegistry e with None => 0 | Some r => Slowlog_Len r end) in
    hret (Integer n)
  else if decide (subcommand = bs "RESET") then
    do* onEx (λ e, setSlowlog (Slowlog_Reset <$> slowlogRegistry e) e) in
    hret okReply
  else hfail ErrSyntaxError.

Definition recordSlowCommand (ctx : Context_) (request : Request) (timestamp duration : Z) : H unit := λ st,
  match slowlogRegistry (ex st) with
  | None => (Ok tt, st)
  | Some r =>
      if (slowlogThreshold (ex st) <? 0) || (duration <? slowlogThreshold (ex st)) || IsReplicationOrigin ctx then (Ok tt, st)
      else
        let '(clientID, clientAddr) :=
          match ctxClient ctx with Some id => (id, RemoteAddr (client (hub (ex st)) id)) | None => (O, []) end in
        onEx (setSlowlog (Some (Slowlog_Record (mkSlow 0 timestamp duration (requestTokens request) clientID clientAddr) r))) st
  end.

(** ** INFO (info.go) *)

Definition humanBytesLoop (n divisor : Z) (unitIndex : nat) : Z * nat :=
  (fix loop (fuel : nat) (n divisor : Z) (unitIndex : nat) :=
     match fuel with
     | O => (divisor, unitIndex)
     | S fuel' => if (1024 <=? n) && (unitIndex <? 4)%nat then loop fuel' (n / 1024) (divisor * 1024) (S unitIndex) else (divisor, unitIndex)
     end) 4%nat n divisor unitIndex.
Definition humanBytes (value : Z) : bytes :=
  if value <? 1024 then FormatUint value ++ bs "B"
  else
    let '(divisor, unitIndex) := humanBytesLoop (value / 1024) 1024 0 in
    FormatFixed 2 (fdiv (floatOfZ value) (floatOfZ divisor)) ++ [default x00 (bs "KMGTP" !! unitIndex)].

(** [infoValueString] of a string or of an integer. *)
Inductive infoValue := InfoText (s : bytes) | InfoInt (z : Z).
Definition infoValueString (v : infoValue) : bytes := match v with InfoText s => s | InfoInt z => FormatInt z end.
Definition appendInfoField (name : bytes) (value : infoValue) : bytes := name ++ bs ":" ++ infoValueString value ++ crlf.

Definition kindName (kind : ValueKind) : bytes :=
  match kind with
  | ValueKindString => bs "string" | ValueKindList => bs "list" | ValueKindZSet => bs "zset"
  | ValueKindStream => bs "stream" | ValueKindHash => bs "hash" | ValueKindSet => bs "set"
  end.
Definition countOfKind (ks : KeyStats) (kind : ValueKind) : Z :=
  default 0 (snd <$> list_find (λ p : ValueKind * Z, p.1 = kind) (ByKind ks) ≫= λ p, Some p.2).

Definition appendInfoMemory (e : Executor) : bytes :=
  let '(heapAlloc, heapSys, heapIdle) := memStats e in
  let keyStats := store_KeyStats (store e) in
  let used := usedMemory (store e) in
  let limit := maxMemory (store e) in
  bs "# Memory" ++ crlf
  ++ appendInfoField (bs "used_memory") (InfoInt used)
  ++ appendInfoField (bs "used_memory_human") (InfoText (humanBytes (Z.max used 0)))
  ++ appendInfoField (bs "maxmemory") (InfoInt limit)
  ++ appendInfoField (bs "maxmemory_human") (InfoText (humanBytes (Z.max limit 0)))
  ++ appendInfoField (bs "mem_fragmentation_ratio") (InfoText (bs "1.00"))
  ++ appendInfoField (bs "go_heap_alloc") (InfoInt heapAlloc)
  ++ appendInfoField (bs "go_heap_sys") (InfoInt heapSys)
  ++ appendInfoField (bs "go_heap_idle") (InfoInt heapIdle)
  ++ appendInfoField (bs "key_count") (InfoInt (TotalKeys keyStats))
  ++ mjoin ((λ kind, appendInfoField (bs "key_count_" ++ kindName kind) (InfoInt (countOfKind keyStats kind)))
       <$> [ValueKindString; ValueKindList; ValueKindHash; ValueKindSet; ValueKindZSet; ValueKindStream]).

Definition serverStats (e : Executor) : ServerStats :=
  match serverStatsProvider with None => mkServerStats 0 0 0 (bs "master") [] 0 0 [] | Some provider => provider e end.

Definition replicaLe (a b : ReplicaInfo) : Prop := (riID a ≤ riID b)%nat.
#[local] Instance replicaLe_dec : RelDecision replicaLe.
Proof. intros a b. unfold replicaLe. apply _. Defined.

Definition appendInfoReplication (e : Executor) : bytes :=
  let stats := serverStats e in
  bs "# Replication" ++ crlf
  ++ appendInfoField (bs "role") (InfoText (Role stats))
  ++ appendInfoField (bs "master_replid") (InfoText (sReplicationID stats))
  ++ appendInfoField (bs "master_repl_offset") (InfoInt (sMasterOffset stats))
  ++ appendInfoField (bs "slave_repl_offset") (InfoInt (sReplicaOffset stats))
  ++ appendInfoField (bs "connected_slaves") (InfoInt (zlen (sReplicas stats)))
  ++ mjoin (imap (λ i r, appendInfoField (bs "slave" ++ FormatInt (Z.of_nat i))
       (InfoText (bs "id=" ++ FormatInt (Z.of_nat (riID r)) ++ bs ",port=" ++ FormatInt (riPort r) ++ bs ",offset=" ++ FormatInt (riAck r))))
       (merge_sort replicaLe (sReplicas stats))).

Definition appendInfoClients (e : Executor) : bytes :=
  let stats := serverStats e in
  bs "# Clients" ++ crlf
  ++ appendInfoField (bs "connected_clients") (InfoInt (ConnectedClients stats))
  ++ appendInfoField (bs "monitoring_clients") (InfoInt (MonitoringClients stats))
  ++ appendInfoField (bs "total_commands_processed") (InfoInt (CommandsProcessed stats)).

Inductive infoSection := InfoMemory | InfoReplication | InfoClients.
Definition appendInfoSection (e : Executor) (s : infoSection) : bytes :=
  match s with
  | InfoMemory => appendInfoMemory e
  | InfoReplication => appendInfoReplication e
  | InfoClients => appendInfoClients e
  end.

Definition infoText (e : Executor) (sections : list infoSection) : bytes :=
  mjoin (imap (λ i s, (if decide (i = O) then [] else crlf) ++ appendInfoSection e s) sections).

Definition handleInfo (ctx : Context_) (request : Request) : H Value :=
  let all := [InfoMemory; InfoReplication; InfoClients] in
  let* sections :=
    (if argc request =? 1 then
       let section := strings_ToLower (arg 0 request) in
       if decide (section = bs "default") then hret all
       else if decide (section = bs "all") then hret all
       else if decide (section = bs "memory") then hret [InfoMemory]
       else if decide (section = bs "replication") then hret [InfoReplication]
       else if decide (section = bs "clients") then hret [InfoClients]
       else hfail ErrSyntaxError
     else hret all) in
  let* e := hgets id in
  hret (text (infoText e sections)).

(** ** Replication commands (commands.go) *)

Definition handleReplConf (ctx : Context_) (request : Request) : H ExecuteResult :=
  let subcommand := strings_ToUpper (arg 0 request) in
  if decide (subcommand = bs "LISTENING-PORT") then
    match parseReplicationPortArgument (arg 1 request) with
    | None => hfail ErrSyntaxError
    | Some port =>
        do* (match ctxClient ctx with Some id => onHub (onClient id (SetReplicaListeningPort port)) | None => hret tt end) in
        hret (SingleResponse okReply)
    end
  else if decide (subcommand = bs "GETACK") then
    if negb (IsReplicationOrigin ctx) then hfail ErrSyntaxError
    else
      let* ackOffset := hgets (λ e, ReplicaOffset (replication e)) in
      hret (mkResult [] [propagationFrame (mkRequest (bs "REPLCONF") [bs "ACK"; FormatInt ackOffset])] [] [] false)
  else if decide (subcommand = bs "ACK") then
    match parseIntegerArgument (arg 1 request) with
    | Err _ => hfail ErrSyntaxError
    | Ok ackOffset =>
        if ackOffset <? 0 then hfail ErrSyntaxError
        else
          do* (match ctxClient ctx with
               | None => hret tt
               | Some id => λ st,
                   match replicaPeers (ex st) with
                   | Some peers =>
                       if Replica (client (hub (ex st)) id)
                       then onEx (setReplication (replication (ex st)) (Some (UpdateAck id ackOffset peers).2)) st
                       else (Ok tt, st)
                   | None => (Ok tt, st)
                   end
               end) in
          hret emptyResult
    end
  else hfail ErrSyntaxError.

Definition handlePSync (ctx : Context_) (request : Request) : H ExecuteResult :=
  if negb (argc request =? 2) then hfail (wrongNumberOfArgumentsError (bs "PSYNC"))
  else if negb (bool_decide (arg 0 request = bs "?")) || negb (bool_decide (arg 1 request = bs "-1")) then hfail ErrSyntaxError
  else
    let* repl := hgets replication in
    match repl with
    | None => hfail (plainError (bs "replication state unavailable"))
    | Some repl =>
        if decide (MasterReplicationID repl = []) then hfail (plainError (bs "replication state unavailable"))
        else
          let* (entries, _) := onStoreM SnapshotStrings in
          let* now := onStoreM nowMilli in
          let '(payload, _) := BuildSnapshot now entries in
          do* (match ctxClient ctx with Some id => onHub (onClient id PromoteToReplica) | None => hret tt end) in
          hret (mkResult [SimpleString (bs "FULLRESYNC " ++ MasterReplicationID repl ++ bs " 0"); bulk payload] [] [] [] true)
    end.

Definition parseWaitArguments (request : Request) : result cmdError (Z * Z) :=
  if negb (argc request =? 2) then Err (wrongNumberOfArgumentsError (bs "WAIT"))
  else
    match parseIntegerArgument (arg 0 request) with
    | Ok replicas =>
        if replicas <? 0 then Err ErrValueNotIntegerError
        else match parseIntegerArgument (arg 1 request) with
             | Ok timeoutMillis => if timeoutMillis <? 0 then Err ErrValueNotIntegerError else Ok (replicas, timeoutMillis)
             | Err _ => Err ErrValueNotIntegerError
             end
    | Err _ => Err ErrValueNotIntegerError
    end.

Definition waitTargetOffset (ctx : Context_) : H Z :=
  hgets (λ e, match ctxClient ctx with Some id => LastWriteOffset (client (hub e) id) | None => MasterOffset (replication e) end).

Definition countReplicasAtOrAbove (targetOffset : Z) : H Z :=
  hgets (λ e, match replicaPeers e with None => 0 | Some r => CountReplicasAtOrAbove targetOffset r end).

Definition finishWaitResult (ackedReplicas : Z) : H ExecuteResult := hret (SingleResponse (Integer ackedReplicas)).

(** [cachedReplConfGetAckPayload]. *)
Definition getAckPayload : result protoError bytes :=
  Encode (propagationFrame (mkRequest (bs "REPLCONF") [bs "GETACK"; bs "*"])).

Definition requestReplicaAcknowledgements : H unit := λ st,
  match replicaPeers (ex st) with
  | None => (Ok tt, st)
  | Some r =>
      match getAckPayload with
      | Err _ => (Err (plainError (bs "encode REPLCONF GETACK")), st)
      | Ok encoded =>
          let '(_, repl) := AdvanceMasterOffset (zlen encoded) (replication (ex st)) in
          let '(_, (r, h)) := writePropagationPayload encoded (Replicas_Snapshot r) r (hub (ex st)) in
          (Ok tt, mkSt (setHub h (setReplication repl (Some r) (ex st))) (eff st) (pauses st))
      end
  end.

(** The waiting loop: one entry of the script per round of the select. *)
Fixpoint waitLoop (replicas targetOffset : Z) (script : list pause) : H ExecuteResult := λ st,
  match countReplicasAtOrAbove targetOffset st with
  | (Err e, st) => (Err e, st)
  | (Ok acked, st) =>
      if replicas <=? acked then finishWaitResult acked st
      else
        match script with
        | [] => (Err ctxError, st)
        | p :: script' =>
            let st := mkSt (meanwhile p (ex st)) (eff st) script' in
            if timerFired p then (let* finalAcked := countReplicasAtOrAbove targetOffset in finishWaitResult finalAcked) st
            else waitLoop replicas targetOffset script' st
        end
  end.

Definition handleWait (ctx : Context_) (request : Request) : H ExecuteResult :=
  let* (replicas, timeoutMillis) := hlift (parseWaitArguments request) in
  let* targetOffset := waitTargetOffset ctx in
  let* acked := countReplicasAtOrAbove targetOffset in
  if (replicas <=? acked) || (timeoutMillis =? 0) then finishWaitResult acked
  else if IsInlineExecution ctx then hfail (blockingNotSupportedError (bs "WAIT"))
  else
    do* requestReplicaAcknowledgements in
    λ st, waitLoop replicas targetOffset (pauses st) st.

(** ** Validators (types.go) *)

Definition commandValidator : Type := Request → H unit.

Definition exactArgsValidator (name : string) (count : Z) : commandValidator := λ request,
  if negb (argc request =? count) then hfail (wrongNumberOfArgumentsError (bs name)) else hret tt.
Definition maxArgsValidator (name : string) (max : Z) : commandValidator := λ request,
  if max <? argc request then hfail (wrongNumberOfArgumentsError (bs name)) else hret tt.
Definition minArgsValidator (name : string) (min : Z) : commandValidator := λ request,
  if argc request <? min then hfail (wrongNumberOfArgumentsError (bs name)) else hret tt.

Definition checked {A} (r : result cmdError A) : H unit := hlift (let? _ := r in Ok tt).

Fixpoint validateNonEmptyPubSubChannels (channels : list bytes) : H unit :=
  match channels with
  | [] => hret tt
  | channel :: channels' => if zlen channel =? 0 then hfail ErrSyntaxError else validateNonEmptyPubSubChannels channels'
  end.

Definition validateWatchRequest : commandValidator := λ request,
  if argc request =? 0 then hfail (wrongNumberOfArgumentsError (bs "WATCH")) else hret tt.
Definition validateSubscribeRequest : commandValidator := λ request,
  if argc request =? 0 then hfail (wrongNumberOfArgumentsError (bs "SUBSCRIBE")) else validateNonEmptyPubSubChannels (Args request).
Definition validateUnsubscribeRequest : commandValidator := λ request,
  if argc request =? 0 then hret tt else validateNonEmptyPubSubChannels (Args request).
Definition validatePublishRequest : commandValidator := λ request,
  if negb (argc request =? 2) then hfail (wrongNumberOfArgumentsError (bs "PUBLISH"))
  else validateNonEmptyPubSubChannels [arg 0 request].
Definition validateSetRequest : commandValidator := λ request,
  if argc request <? 2 then hfail (wrongNumberOfArgumentsError (bs "SET"))
  else do* parseExpiry (drop 2 (Args request)) in hret tt.
Definition validateSetBitRequest : commandValidator := λ request,
  if negb (argc request =? 3) then hfail (wrongNumberOfArgumentsError (bs "SETBIT"))
  else do* checked (parseBitmapOffsetArgument (arg 1 request)) in checked (parseBitValueArgument (arg 2 request)).
Definition validateGetBitRequest : commandValidator := λ request,
  if negb (argc request =? 2) then hfail (wrongNumberOfArgumentsError (bs "GETBIT"))
  else checked (parseBitmapOffsetArgument (arg 1 request)).
Definition validateBitCountRequest : commandValidator := λ request,
  if negb (argc request =? 1) && negb (argc request =? 3) then hfail (wrongNumberOfArgumentsError (bs "BITCOUNT"))
  else if argc request =? 3 then
    do* checked (parseIntegerArgument (arg 1 request)) in checked (parseIntegerArgument (arg 2 request))
  else hret tt.
Definition validateLRangeRequest : commandValidator := λ request,
  if negb (argc request =? 3) then hfail (wrongNumberOfArgumentsError (bs "LRANGE"))
  else do* checked (parseIntegerArgument (arg 1 request)) in checked (parseIntegerArgument (arg 2 request)).
Definition validatePopRequest (name : string) : commandValidator := λ request,
  if negb (argc request =? 1) && negb (argc request =? 2) then hfail (wrongNumberOfArgumentsError (bs name))
  else if argc request =? 2 then
    match ParseInt (arg 1 request) with
    | None => hfail ErrValueNotIntegerError
    | Some count => if count <? 0 then hfail errOutOfRange else hret tt
    end
  else hret tt.
Definition validateLPopRequest : commandValidator := validatePopRequest "LPOP".
Definition validateRPopRequest : commandValidator := validatePopRequest "RPOP".
(** The loop checks every second argument from the second on. *)
Definition validateZAddRequest : commandValidator := λ request,
  if (argc request <? 3) || (argc request mod 2 =? 0) then hfail (wrongNumberOfArgumentsError (bs "ZADD"))
  else checked (parseEntries (pairsOf (drop 1 (Args request)))).
Definition validateZRangeRequest : commandValidator := λ request,
  if negb (argc request =? 3) && negb (argc request =? 4) then hfail (wrongNumberOfArgumentsError (bs "ZRANGE"))
  else if (argc request =? 4) && negb (EqualFold (arg 3 request) (bs "WITHSCORES")) then hfail ErrSyntaxError
  else do* checked (parseIntegerArgument (arg 1 request)) in checked (parseIntegerArgument (arg 2 request)).
Definition validateGeoAddRequest : commandValidator := λ request,
  if (argc request <? 4) || negb ((argc request - 1) mod 3 =? 0) then hfail (wrongNumberOfArgumentsError (bs "GEOADD"))
  else checked (parseGeoEntries (triplesOf (drop 1 (Args request)))).
Definition validateGeoDistRequest : commandValidator := λ request,
  if negb (argc request =? 3) && negb (argc request =? 4) then hfail (wrongNumberOfArgumentsError (bs "GEODIST"))
  else if argc request =? 4 then checked (parseGeoUnitArgument (arg 3 request)) else hret tt.
Definition validateGeoRadiusRequest : commandValidator := λ request,
  if argc request <? 5 then hfail (wrongNumberOfArgumentsError (bs "GEORADIUS"))
  else if 5 <? argc request then hfail ErrSyntaxError
  else
    do* checked (parseGeoCoordinates (arg 1 request) (arg 2 request)) in
    do* checked (parseGeoRadiusArgument (arg 3 request)) in
    checked (parseGeoUnitArgument (arg 4 request)).
Definition streamIDCheck (e : option streamError) : H unit :=
  match e with None => hret tt | Some ErrInvalidStreamID => hfail ErrInvalidStreamIDError | Some e => hfail (passError (ErrStream e)) end.
Definition validateXAddRequest : commandValidator := λ request,
  if (argc request <? 4) || negb (argc request mod 2 =? 0) then hfail (wrongNumberOfArgumentsError (bs "XADD"))
  else streamIDCheck (ValidateXAddID (arg 1 request)).
Definition validateXReadRequest : commandValidator := λ request,
  if argc request =? 0 then hfail (wrongNumberOfArgumentsError (bs "XREAD"))
  else if negb (EqualFold (arg 0 request) (bs "STREAMS")) then hfail ErrSyntaxError
  else if negb (argc request =? 3) then hfail ErrSyntaxError
  else streamIDCheck (ValidateXReadID (arg 2 request)).
Definition validateHSetRequest : commandValidator := λ request,
  if (argc request <? 3) || (argc request mod 2 =? 0) then hfail (wrongNumberOfArgumentsError (bs "HSET")) else hret tt.
Definition validateReplConfRequest : commandValidator := λ request,
  if negb (argc request =? 2) then hfail (wrongNumberOfArgumentsError (bs "REPLCONF"))
  else
    let subcommand := strings_ToUpper (arg 0 request) in
    if decide (subcommand = bs "LISTENING-PORT") then
      match parseReplicationPortArgument (arg 1 request) with None => hfail ErrSyntaxError | Some _ => hret tt end
    else if decide (subcommand = bs "GETACK") then
      if decide (arg 1 request = bs "*") then hret tt else hfail ErrSyntaxError
    else if decide (subcommand = bs "ACK") then
      match parseIntegerArgument (arg 1 request) with
      | Err _ => hfail ErrSyntaxError
      | Ok value => if value <? 0 then hfail ErrSyntaxError else hret tt
      end
    else hfail ErrSyntaxError.
Definition validatePSyncRequest : commandValidator := λ request,
  if negb (argc request =? 2) then hfail (wrongNumberOfArgumentsError (bs "PSYNC"))
  else if negb (bool_decide (arg 0 request = bs "?")) || negb (bool_decide (arg 1 request = bs "-1")) then hfail ErrSyntaxError
  else hret tt.
Fixpoint waitArgsLoop (args : list bytes) : H unit :=
  match args with
  | [] => hret tt
  | raw :: args' =>
      let* value := hlift (parseIntegerArgument raw) in
      if value <? 0 then hfail ErrValueNotIntegerError else waitArgsLoop args'
  end.
Definition validateWaitRequest : commandValidator := λ request,
  if negb (argc request =? 2) then hfail (wrongNumberOfArgumentsError (bs "WAIT")) else waitArgsLoop (Args request).
Definition validateInfoRequest : commandValidator := λ request,
  if 1 <? argc request then hfail (wrongNumberOfArgumentsError (bs "INFO")) else hret tt.
Definition validateSlowlogRequest : commandValidator := λ request,
  if argc request =? 0 then hfail (wrongNumberOfArgumentsError (bs "SLOWLOG"))
  else
    let subcommand := strings_ToUpper (arg 0 request) in
    if decide (subcommand = bs "GET") then
      if 2 <? argc request then hfail (wrongNumberOfArgumentsError (bs "SLOWLOG"))
      else if argc request =? 2 then
        match parseIntegerArgument (arg 1 request) with
        | Err _ => hfail ErrValueNotIntegerError
        | Ok parsed => if parsed <? 0 then hfail ErrValueNotIntegerError else hret tt
        end
      else hret tt
    else if decide (subcommand = bs "LEN" ∨ subcommand = bs "RESET") then
      if negb (argc request =? 1) then hfail (wrongNumberOfArgumentsError (bs "SLOWLOG")) else hret tt
    else hfail ErrSyntaxError.

End Commands.
