(* ===== verification/Executor.v ===== *)
(** * The executor: the command table, dispatch and transactions

    Models the rest of [types.go] in [internal/command]: the table of commands,
    the checks on who may run what, queueing inside MULTI, and the frames a
    successful command sends to replicas and to the append-only file.

    EXEC runs the queued requests through the same dispatcher.  Queueing refuses
    transaction commands, so the recursion is one level deep: [executeRequestDetailed]
    gives it that depth, and [ExecutorTheorems] shows that more changes
    nothing. *)

From S2P Require Import Prelude Strconv GoLib GoText Resp Store StoreOps Clients Slowlog Replication CommandBase Commands.

Section Executor.
Context {C : CommandEnv}.

Definition Handler : Type := Context_ → Request → H Value.
Definition DetailedHandler : Type := Context_ → Request → H ExecuteResult.

(** [commandSpec]: exactly one of the two handlers is set. *)
Record commandSpec := mkSpec {
  handler : Handler + DetailedHandler;
  validate : commandValidator;
  transactionControl : bool;
  propagates : bool;
  durable : bool;
  rewriteFrame : option (executionEffects → Request → option Value)
}.

(** [rewriteSetFrame]: SET with its deadline as PXAT, once the handler stored one. *)
Definition rewriteSetFrame (effects : executionEffects) (request : Request) : option Value :=
  if setExpiryMillis effects <=? 0 then None
  else Some (arr [text (Name request); bulk (arg 0 request); bulk (arg 1 request);
                  text (bs "PXAT"); bulk (FormatInt (setExpiryMillis effects))]).

Definition readSpec (h : Handler) (v : commandValidator) : commandSpec := mkSpec (inl h) v false false false None.
Definition writeSpec (h : Handler) (v : commandValidator) : commandSpec := mkSpec (inl h) v false true true None.
Definition controlSpec (h : Handler + DetailedHandler) (v : commandValidator) : commandSpec := mkSpec h v true false false None.
Definition detailedSpec (h : DetailedHandler) (v : commandValidator) : commandSpec := mkSpec (inr h) v false false false None.

(** The table; [run] executes a queued request. *)
Definition commandSpecs (run : Context_ → Request → H ExecuteResult) : list (string * commandSpec) := [
  ("SUBSCRIBE", controlSpec (inr handleSubscribe) validateSubscribeRequest);
  ("UNSUBSCRIBE", controlSpec (inr handleUnsubscribe) validateUnsubscribeRequest);
  ("WATCH", controlSpec (inl handleWatch) validateWatchRequest);
  ("MULTI", controlSpec (inl handleMulti) (exactArgsValidator "MULTI" 0));
  ("EXEC", controlSpec (inr (handleExec run)) (exactArgsValidator "EXEC" 0));
  ("DISCARD", controlSpec (inl handleDiscard) (exactArgsValidator "DISCARD" 0));
  ("PING", readSpec handlePing (maxArgsValidator "PING" 1));
  ("AUTH", readSpec handleAuth (exactArgsValidator "AUTH" 1));
  ("ECHO", readSpec handleEcho (exactArgsValidator "ECHO" 1));
  ("SET", mkSpec (inl handleSet) validateSetRequest false true true (Some rewriteSetFrame));
  ("GET", readSpec handleGet (exactArgsValidator "GET" 1));
  ("SETBIT", writeSpec handleSetBit validateSetBitRequest);
  ("GETBIT", readSpec handleGetBit validateGetBitRequest);
  ("BITCOUNT", readSpec handleBitCount validateBitCountRequest);
  ("PFADD", writeSpec handlePFAdd (minArgsValidator "PFADD" 1));
  ("PFCOUNT", readSpec handlePFCount (minArgsValidator "PFCOUNT" 1));
  ("DEL", writeSpec handleDel (minArgsValidator "DEL" 1));
  ("INCR", writeSpec handleIncr (exactArgsValidator "INCR" 1));
  ("LPUSH", writeSpec handleLPush (minArgsValidator "LPUSH" 2));
  ("RPUSH", writeSpec handleRPush (minArgsValidator "RPUSH" 2));
  ("LRANGE", readSpec handleLRange validateLRangeRequest);
  ("LPOP", writeSpec handleLPop validateLPopRequest);
  ("RPOP", writeSpec handleRPop validateRPopRequest);
  ("BLPOP", readSpec handleBLPop (exactArgsValidator "BLPOP" 1));
  ("ZADD", writeSpec handleZAdd validateZAddRequest);
  ("ZRANGE", readSpec handleZRange validateZRangeRequest);
  ("GEOADD", writeSpec handleGeoAdd validateGeoAddRequest);
  ("GEODIST", readSpec handleGeoDist validateGeoDistRequest);
  ("GEORADIUS", readSpec handleGeoRadius validateGeoRadiusRequest);
  ("XADD", mkSpec (inl handleXAdd) validateXAddRequest false false true None);
  ("XREAD", readSpec handleXRead validateXReadRequest);
  ("HSET", writeSpec handleHSet validateHSetRequest);
  ("HGET", readSpec handleHGet (exactArgsValidator "HGET" 2));
  ("HDEL", writeSpec handleHDel (minArgsValidator "HDEL" 2));
  ("HGETALL", readSpec handleHGetAll (exactArgsValidator "HGETALL" 1));
  ("SADD", writeSpec handleSAdd (minArgsValidator "SADD" 2));
  ("SISMEMBER", readSpec handleSIsMember (exactArgsValidator "SISMEMBER" 2));
  ("SREM", writeSpec handleSRem (minArgsValidator "SREM" 2));
  ("SMEMBERS", readSpec handleSMembers (exactArgsValidator "SMEMBERS" 1));
  ("PUBLISH", mkSpec (inl handlePublish) validatePublishRequest false true false None);
  ("REPLCONF", detailedSpec handleReplConf validateReplConfRequest);
  ("PSYNC", detailedSpec handlePSync validatePSyncRequest);
  ("WAIT", detailedSpec handleWait validateWaitRequest);
  ("BGREWRITEAOF", readSpec handleBGRewriteAOF (exactArgsValidator "BGREWRITEAOF" 0));
  ("INFO", readSpec handleInfo validateInfoRequest);
  ("SLOWLOG", readSpec handleSlowlog validateSlowlogRequest);
  ("MONITOR", controlSpec (inl handleMonitor) (exactArgsValidator "MONITOR" 0))].

(** [e.commands[name]]. *)
Definition lookupSpec (specs : list (string * commandSpec)) (name : bytes) : option commandSpec :=
  (λ p, p.2.2) <$> list_find (λ p : string * commandSpec, bs p.1 = name) specs.
Definition command (run : Context_ → Request → H ExecuteResult) (name : bytes) : option commandSpec :=
  lookupSpec (commandSpecs run) name.

(** ** Who may run what *)

Definition isAllowedSubscribedModeCommand (name : bytes) : bool :=
  bool_decide (name = bs "PING") || bool_decide (name = bs "SUBSCRIBE") || bool_decide (name = bs "UNSUBSCRIBE").
Definition isAllowedMonitoringModeCommand (name : bytes) : bool := bool_decide (name = bs "PING").
Definition isAllowedUnauthenticatedCommand (ctx : Context_) (request : Request) : bool :=
  IsReplicationOrigin ctx || bool_decide (Name request = bs "AUTH") || bool_decide (Name request = bs "PING").

Definition validateSubscriptionContext (ctx : Context_) (request : Request) : H unit :=
  match ctxClient ctx with
  | None => hret tt
  | Some id =>
      let* state := clientOf id in
      if IsSubscribed state && negb (isAllowedSubscribedModeCommand (Name request)) then hfail ErrSubscribedModeOnlyError
      else if Monitoring state && negb (isAllowedMonitoringModeCommand (Name request)) then hfail ErrMonitorModeOnlyError
      else hret tt
  end.

Definition validateAuthContext (ctx : Context_) (request : Request) : H unit :=
  let* pass := hgets requirePass in
  if decide (pass = []) then hret tt
  else
    match ctxClient ctx with
    | None => hret tt
    | Some id =>
        let* state := clientOf id in
        if Authenticated state then hret tt
        else if isAllowedUnauthenticatedCommand ctx request then hret tt
        else hfail ErrNoAuthError
    end.

(** ** Queueing *)

Section Run.
Variable run : Context_ → Request → H ExecuteResult.

Definition isTransactionControlCommand (name : bytes) : bool :=
  match command run name with Some spec => transactionControl spec | None => false end.

Definition validateQueueableRequest (request : Request) : H unit :=
  match command run (Name request) with
  | None => hfail (ErrUnknownCommand (Name request))
  | Some spec => validate spec request
  end.

(** [Some response] when the request was queued; a request that fails its
    validation spoils the transaction. *)
Definition maybeQueueRequest (ctx : Context_) (request : Request) : H (option Value) :=
  match ctxClient ctx with
  | None => hret None
  | Some id =>
      let* state := clientOf id in
      if negb (InTransaction state) || isTransactionControlCommand (Name request) then hret None
      else λ st,
        match validateQueueableRequest request st with
        | (Err e, st) => (do* onHub (onClient id MarkTransactionDirty) in hfail e) st
        | (Ok _, st) =>
            (do* onHub (onClient id (EnqueueCommand (Name request) (Args request))) in
             hret (Some (SimpleString (bs "QUEUED")))) st
        end
  end.

(** ** Frames and dispatch *)

Definition executionFrames (ctx : Context_) (effects : executionEffects) (request : Request) (spec : commandSpec) : list Value * list Value :=
  let frame := match rewriteFrame spec with
               | Some rewrite => match rewrite effects request with Some f => f | None => propagationFrame request end
               | None => propagationFrame request
               end in
  (if propagates spec && negb (IsReplicationOrigin ctx) then [frame] else [], if durable spec then [frame] else []).

(** Run the handler of a validated request and collect its frames. *)
Definition runSpec (ctx : Context_) (request : Request) (spec : commandSpec) : H ExecuteResult :=
  let* startedAt := now_ in
  match handler spec with
  | inr detailed =>
      let* result := detailed ctx request in
      let* finished := now_ in
      do* recordSlowCommand ctx request startedAt (finished - startedAt) in
      λ st, (Ok (mkResult (Responses result) (UpstreamReplies result) (Propagation result ++ propagation (eff st))
                   (Durability result ++ durability (eff st)) (RegisterReplica result)), st)
  | inl handle =>
      let* response := handle ctx request in
      let* finished := now_ in
      do* recordSlowCommand ctx request startedAt (finished - startedAt) in
      λ st,
        let '(prop, dur) := executionFrames ctx (eff st) request spec in
        (Ok (mkResult [response] [] (prop ++ propagation (eff st)) (dur ++ durability (eff st)) false), st)
  end.

Definition dispatch (ctx : Context_) (request : Request) : H ExecuteResult :=
  match command run (Name request) with
  | None => hfail (ErrUnknownCommand (Name request))
  | Some spec => do* validate spec request in runSpec ctx request spec
  end.

Definition executeRequestWith (ctx : Context_) (request : Request) (allowQueue : bool) : H ExecuteResult :=
  withExecutionEffects (
    do* validateSubscriptionContext ctx request in
    do* validateAuthContext ctx request in
    let* queued := (if allowQueue then maybeQueueRequest ctx request else hret None) in
    match queued with
    | Some response => hret (SingleResponse response)
    | None => dispatch ctx request
    end).
End Run.

(** [depth] levels of EXEC. *)
Fixpoint executeAt (depth : nat) (ctx : Context_) (request : Request) (allowQueue : bool) : H ExecuteResult :=
  executeRequestWith
    (match depth with
     | O => λ _ _, hfail (plainError (bs "transaction nested too deeply"))
     | S depth' => λ ctx request, executeAt depth' ctx request false
     end) ctx request allowQueue.

Definition executeRequestDetailed : Context_ → Request → bool → H ExecuteResult := executeAt 1.

Definition ExecuteDetailed (ctx : Context_) (value : Value) : H ExecuteResult :=
  match DecodeRequest value with
  | Err e => hfail e
  | Ok request => executeRequestDetailed ctx request true
  end.

(** [Execute]: the single response. *)
Definition Execute (ctx : Context_) (value : Value) : H Value :=
  let* result := ExecuteDetailed ctx value in
  match Responses result with
  | [response] => hret response
  | rs => hfail (plainError (bs "command: expected single response, got " ++ FormatInt (zlen rs)))
  end.
End Executor.
