(* ===== verification/ExecutorFacts.v ===== *)
(** * What a command may do to the server

    One judgement, [Safe], carries every handler: the server invariant holds
    after it, and a client [w] other than the one asking sees its watched keys
    change only together with its transaction being marked failed.  The first
    part of the file sets the judgement up, the second proves it handler by
    handler, and the last for the dispatcher.

    [strict] says whether the second half is claimed: the invariant alone needs
    no memory limit to be off and nothing about who asks. *)

From S2P Require Import Prelude Strconv GoLib GoText Float64 Resp Stream ValueObject ValueFacts Bitmap ListWaiters.
From S2P Require Import Store StoreOps StoreFacts StoreMemory StoreInvariant StoreTheorems StorePlain StoreFrames.
From S2P Require Import Clients Slowlog Rdb Replication Geo CommandBase Commands Executor.

(** ** Clients *)

(** No command of a transaction may be queued that the dispatcher runs as EXEC. *)
Definition QueueOk (c : ClientState) : Prop := Forall (λ q, qName q ≠ bs "EXEC") (TxQueue c).

(** What a step may do to one client: its queue stays clean, and unless it is
    the client's own step, it watches no more keys than before and keeps a
    failure as long as it watches any. *)
Record clientRel (mine : Prop) (c c' : ClientState) : Prop := {
  cr_queue : QueueOk c → QueueOk c';
  cr_watched : ¬ mine → watchedKeys c' ⊆ watchedKeys c;
  cr_failed : ¬ mine → watchedKeys c' ≠ ∅ → TxFailed c = true → TxFailed c' = true
}.

Lemma clientRel_refl mine c : clientRel mine c c.
Proof. by split. Qed.

Lemma clientRel_trans mine c c1 c2 : clientRel mine c c1 → clientRel mine c1 c2 → clientRel mine c c2.
Proof.
  intros [A1 A2 A3] [B1 B2 B3]. split; [auto|intros Hn; etransitivity; [by apply B2|by apply A2]|].
  intros Hn Hne Hf. apply B3; [done|done|]. apply A3; [done| |done]. intros He. specialize (B2 Hn). rewrite He in B2. set_solver.
Qed.

Definition Present (actor : option nat) (h : Hub) : Prop := ∀ id, actor = Some id → is_Some (clients h !! id).

Record HubRel (actor : option nat) (h h' : Hub) : Prop := {
  hr_inv : HubInv h';
  hr_dom : ∀ id, is_Some (clients h !! id) → is_Some (clients h' !! id);
  hr_client : ∀ id c c', clients h !! id = Some c → clients h' !! id = Some c' → clientRel (actor = Some id) c c';
  hr_new : ∀ id c', clients h !! id = None → clients h' !! id = Some c' → QueueOk c'
}.

Lemma HubRel_refl actor h : HubInv h → HubRel actor h h.
Proof. intros Hi. split; [done|done| |naive_solver congruence]. intros id c c' -> [= ->]. apply clientRel_refl. Qed.

Lemma HubRel_trans actor h h1 h2 : HubRel actor h h1 → HubRel actor h1 h2 → HubRel actor h h2.
Proof.
  intros [A1 A2 A3 A4] [B1 B2 B3 B4]. split; [done|naive_solver| |].
  - intros id c c2 Hc Hc2. destruct (A2 id) as [c1 Hc1]; [by eexists|]. by eapply clientRel_trans; [eapply A3|eapply B3].
  - intros id c2 Hc Hc2. destruct (clients h1 !! id) as [c1|] eqn:E1; [|by eapply B4].
    by eapply (cr_queue _ _ _ (B3 id c1 c2 E1 Hc2)), A4.
Qed.

Lemma HubRel_present actor h h' id : HubRel actor h h' → Present id h → Present id h'.
Proof. intros Hr Hp i Hi. by apply (hr_dom _ _ _ Hr), Hp. Qed.

(** A step on one client: the one asking, or one whose watches and failure stay. *)
Lemma HubRel_one actor id h h' c c' :
  HubInv h' → clients h !! id = Some c → clients h' !! id = Some c' → clientRel (actor = Some id) c c' →
  (∀ i, i ≠ id → clients h' !! i = clients h !! i) → HubRel actor h h'.
Proof.
  intros Hi Hc Hc' Hr Hl. split; [done| | |].
  - intros i [x Hx]. destruct (decide (i = id)) as [->|]; [by eexists|]. rewrite Hl by done. by eexists.
  - intros i x x' Hx Hx'. destruct (decide (i = id)) as [->|]; [by simplify_eq|]. rewrite Hl in Hx' by done. simplify_eq. apply clientRel_refl.
  - intros i x' Hx Hx'. destruct (decide (i = id)) as [->|]; [by simplify_eq|]. rewrite Hl in Hx' by done. congruence.
Qed.

Lemma clientRel_own (actor : option nat) id c c' : actor = Some id → (QueueOk c → QueueOk c') → clientRel (actor = Some id) c c'.
Proof. intros Ha Hq. by split. Qed.

Lemma HubRel_onClient actor id f h :
  silent f → (∀ c, clientRel (actor = Some id) c (f c)) → HubInv h → HubRel actor h (onClient id f h).
Proof.
  intros Hs Hf Hi. destruct (clients h !! id) as [c|] eqn:Hc.
  - eapply (HubRel_one actor id h _ c (f c)); [by apply silent_inv|done|by rewrite lookup_onClient, decide_True, Hc|apply Hf|].
    intros i Hne. by rewrite lookup_onClient, decide_False.
  - assert (∀ i, clients (onClient id f h) !! i = clients h !! i) as Hl.
    { intros i. rewrite lookup_onClient. case_decide; [subst; by rewrite Hc|done]. }
    split; [by apply silent_inv|intros i; by rewrite Hl| |]; intros i c; rewrite Hl; [|congruence].
    intros c' Hx Hx'. simplify_eq. apply clientRel_refl.
Qed.

Section HubSteps.
Context {N : Net} (actor : option nat).
Implicit Types (h : Hub).

Lemma HubRel_UnwatchAll id h : actor = Some id → HubInv h → Present actor h → HubRel actor h (UnwatchAll id h).
Proof.
  intros Ha Hi Hp. specialize (Hp id Ha). pose proof (lookup_UnwatchAll id h) as Hl. destruct Hp as [c Hc].
  eapply HubRel_one; [apply UnwatchAll_inv; eauto|exact Hc|rewrite Hl by eauto; by rewrite decide_True, Hc| |].
  - apply clientRel_own; [done|]. by destruct (boundWatch c).
  - intros i Hne. rewrite Hl by eauto. by rewrite decide_False.
Qed.

Lemma watchKeys_clients id keys : ∀ h c, clients h !! id = Some c →
  (∃ c', clients (foldl (watchKey id) h keys) !! id = Some c' ∧ TxQueue c' = TxQueue c)
  ∧ ∀ i, i ≠ id → clients (foldl (watchKey id) h keys) !! i = clients h !! i.
Proof.
  induction keys as [|key keys IH]; intros h c Hc; [split; [by exists c|done]|]. cbn [foldl]. unfold watchKey at 2 4. case_decide; [by apply IH|].
  destruct (IH (onClient id (addWatchedKey key) (setWatchers (enroll id key (watchers h)) h)) (addWatchedKey key c)) as [(c' & Hc' & Hq) Hl].
  { rewrite lookup_onClient, decide_True by done. cbn. by rewrite Hc. }
  split; [by exists c'|]. intros i Hne. rewrite Hl by done. rewrite lookup_onClient. by rewrite decide_False.
Qed.

Lemma HubRel_WatchKeys id keys h : actor = Some id → HubInv h → Present actor h → HubRel actor h (WatchKeys id keys h).
Proof.
  intros Ha Hi Hp. specialize (Hp id Ha). assert (HubInv (WatchKeys id keys h)) as Hi' by (by eapply hubStep_inv; [apply StepWatch|]).
  unfold WatchKeys in *. destruct (boundWatch _); [|by apply HubRel_refl]. destruct Hp as [c Hc].
  destruct (watchKeys_clients id keys h c Hc) as [(c' & Hc' & Hq) Hl]. eapply HubRel_one; [done|exact Hc|exact Hc'| |done].
  apply clientRel_own; [done|]. unfold QueueOk. by rewrite Hq.
Qed.

(** Steps that change one field of the asking client and its registry. *)
Lemma HubRel_field id f h h' :
  actor = Some id → HubInv h' → Present actor h → (∀ c, TxQueue (f c) = TxQueue c) →
  (∀ i, clients h' !! i = if decide (i = id) then f <$> clients h !! id else clients h !! i) → HubRel actor h h'.
Proof.
  intros Ha Hi Hp Hq Hl. destruct (Hp id Ha) as [c Hc]. eapply (HubRel_one actor id h h' c (f c)); [done|done|by rewrite Hl, decide_True, Hc| |].
  - apply clientRel_own; [done|]. unfold QueueOk. by rewrite Hq.
  - intros i Hne. by rewrite Hl, decide_False.
Qed.

Lemma HubRel_Subscribe id ch h : actor = Some id → HubInv h → Present actor h → HubRel actor h (SubscribeChannel id ch h).
Proof.
  intros Ha Hi Hp. assert (HubInv (SubscribeChannel id ch h)) as Hi' by (eapply hubStep_inv; [apply StepSubscribe; auto|done]).
  unfold SubscribeChannel in *. destruct (boundPubSub _); [|by apply HubRel_refl].
  eapply HubRel_field; [done|done|done| |intros i; exact (lookup_onClient (setSubscribers _ h) id _ i)]. done.
Qed.

Lemma HubRel_Unsubscribe id ch h : actor = Some id → HubInv h → Present actor h → HubRel actor h (UnsubscribeChannel id ch h).
Proof.
  intros Ha Hi Hp. assert (HubInv (UnsubscribeChannel id ch h)) as Hi' by (eapply hubStep_inv; [apply StepUnsubscribe; auto|done]).
  unfold UnsubscribeChannel in *. destruct (boundPubSub _); [|by apply HubRel_refl].
  eapply HubRel_field; [done|done|done| |intros i; exact (lookup_onClient (setSubscribers _ h) id _ i)]. done.
Qed.

Lemma HubRel_Monitor id h : actor = Some id → HubInv h → Present actor h → HubRel actor h (StartMonitoring id h).
Proof.
  intros Ha Hi Hp. assert (HubInv (StartMonitoring id h)) as Hi' by (eapply hubStep_inv; [apply StepMonitor; auto|done]).
  unfold StartMonitoring in *. destruct (boundMonitor _); [|by apply HubRel_refl].
  eapply HubRel_field; [done|done|done| |intros i; exact (lookup_onClient (setMonitors _ _ h) id _ i)]. done.
Qed.

Lemma clientRel_same mine c c' :
  TxQueue c' = TxQueue c → watchedKeys c' = watchedKeys c → (TxFailed c = true → TxFailed c' = true) → clientRel mine c c'.
Proof. intros Hq Hw Hf. split; [unfold QueueOk; by rewrite Hq|intros _; by rewrite Hw|intros _ _; done]. Qed.

Lemma HubRel_marks ids : ∀ h, HubInv h → HubRel actor h (foldl (λ h id, onClient id MarkTransactionFailed h) h ids).
Proof.
  induction ids as [|id ids IH]; intros h Hi; [by apply HubRel_refl|]. cbn [foldl].
  assert (HubRel actor h (onClient id MarkTransactionFailed h)) as H1 by (apply HubRel_onClient; [done|by intros c; apply clientRel_same|done]).
  eapply HubRel_trans; [exact H1|]. apply IH, H1.
Qed.

Lemma HubRel_Touch keys h : HubInv h → HubRel actor h (WatchRegistry_Touch keys h).
Proof. rewrite WatchRegistry_Touch_keys. unfold touchKeys. cbn zeta. apply HubRel_marks. Qed.

Lemma HubRel_Disconnect id h : HubInv h → is_Some (clients h !! id) → HubRel actor h (Disconnect id h).
Proof.
  intros Hi [c Hc]. pose proof (disconnected h id Hi (mk_is_Some _ _ Hc)) as (c' & Hc' & Hq & Hw & Hl & _).
  eapply HubRel_one; [apply Disconnect_inv; eauto|exact Hc|exact Hc'| |exact Hl].
  split; [intros _; unfold QueueOk; rewrite Hq; by constructor|intros _; rewrite Hw; set_solver|by rewrite Hw].
Qed.

Lemma HubRel_WriteEncoded id payload h : HubInv h → HubRel actor h (WriteEncoded id payload h).2.
Proof.
  intros Hi. assert (HubRel actor h (countWrite h)) as Hcw.
  { assert (HubInv (countWrite h)) by (destruct Hi; by split). split; [done|done| |]; cbn; [|congruence].
    intros i c c' Hc Hc'. simplify_eq. apply clientRel_refl. }
  unfold WriteEncoded. cbn zeta. case_match; [|by apply HubRel_refl]. case_match; cbn [snd]; [|done].
  eapply HubRel_trans; [exact Hcw|]. apply HubRel_onClient; [apply silent_setConn|by intros c; apply clientRel_same|apply Hcw].
Qed.

Lemma HubRel_pushTo payload n id h : HubInv h → is_Some (clients h !! id) → HubRel actor h (pushTo payload (n, h) id).2.
Proof.
  intros Hi Hp. pose proof (HubRel_WriteEncoded id payload h Hi) as Hw. unfold pushTo. destruct (WriteEncoded id payload h) as [ok h1].
  cbn [snd] in Hw. destruct ok; [done|]. eapply HubRel_trans; [exact Hw|]. apply HubRel_Disconnect; [apply Hw|]. by apply (hr_dom _ _ _ Hw).
Qed.

Lemma HubRel_deliver payload ids : ∀ n h, HubInv h → Forall (λ id, is_Some (clients h !! id)) ids →
  HubRel actor h (foldl (pushTo payload) (n, h) ids).2.
Proof.
  induction ids as [|id ids IH]; intros n h Hi Hp; [by apply HubRel_refl|]. apply Forall_cons in Hp as [Hp Hps]. cbn [foldl].
  pose proof (HubRel_pushTo payload n id h Hi Hp) as H1. destruct (pushTo payload (n, h) id) as [n1 h1]. cbn [snd] in H1.
  eapply HubRel_trans; [exact H1|]. apply IH; [apply H1|]. eapply Forall_impl; [exact Hps|]. intros i. apply (hr_dom _ _ _ H1).
Qed.

Lemma HubRel_propagate payload ids : ∀ r h, HubInv h → HubRel actor h (writePropagationPayload payload ids r h).2.2.
Proof.
  induction ids as [|id ids IH]; intros r h Hi; [by apply HubRel_refl|]. cbn [writePropagationPayload]. unfold writePropagationPayloadToReplica.
  pose proof (HubRel_WriteEncoded id payload h Hi) as H1. destruct (WriteEncoded id payload h) as [ok h1]. cbn [snd] in H1.
  assert (∀ r', HubRel actor h (writePropagationPayload payload ids r' h1).2.2) as H2.
  { intros r'. eapply HubRel_trans; [exact H1|]. apply IH, H1. }
  destruct ok; [specialize (H2 r)|specialize (H2 (RemoveAndClose id r))]; destruct (writePropagationPayload payload ids _ h1) as [[s f] st]; exact H2.
Qed.
End HubSteps.

(** ** The executor *)

Definition Plain (e : Executor) : Prop := maxMemoryEnabled (store e) = false.

(** The server invariant. *)
Record ServerInv {C : CommandEnv} (e : Executor) : Prop := {
  sv_store : StoreInv (store e);
  sv_hub : HubInv (hub e);
  sv_queues : ∀ id c, clients (hub e) !! id = Some c → QueueOk c
}.

Definition watching (e : Executor) (w : nat) (k : bytes) : Prop := k ∈ watchedKeys (client (hub e) w).
Definition failedTx (e : Executor) (w : nat) : Prop := TxFailed (client (hub e) w) = true.

(** From [e0] to [e] client [w] has been told of every change to the keys it
    still watches, except to the keys [D]. *)
Record Told {C : CommandEnv} (w : nat) (D : list bytes) (e0 e : Executor) : Prop := {
  td_plain : Plain e;
  td_present : is_Some (clients (hub e) !! w);
  td_ticks : (ticks (store e0) ≤ ticks (store e))%nat;
  td_watch : ∀ k, watching e w k → watching e0 w k;
  td_failed : ∀ k, watching e w k → failedTx e0 w → failedTx e w;
  td_changed : ∀ k, watching e w k → k ∉ D →
    sameEntry (ticks (store e)) (lookupKey (store e0) k) (lookupKey (store e) k) ∨ failedTx e w
}.

Section Told.
Context {C : CommandEnv} (w : nat).
Implicit Types (e : Executor).

Lemma Told_refl D e : Plain e → is_Some (clients (hub e) !! w) → Told w D e e.
Proof. intros Hp Hw. split; try done. intros k _ _. left. apply sameEntry_refl. Qed.

Lemma Told_trans D D' e0 e1 e2 : Told w D e0 e1 → Told w D' e1 e2 → Told w (D ++ D') e0 e2.
Proof.
  intros [A1 _ A2 A3 A4 A5] [B1 B0 B2 B3 B4 B5]. split; [done|done|lia|naive_solver|naive_solver|].
  intros k Hk Hn. rewrite elem_of_app in Hn. destruct (A5 k (B3 k Hk)) as [HA|HA]; [tauto| |right; by eapply B4].
  destruct (B5 k Hk) as [HB|HB]; [tauto| |by right]. left. by eapply sameEntry_trans.
Qed.

Lemma Told_sub D D' e0 e : D ⊆ D' → Told w D e0 e → Told w D' e0 e.
Proof. intros H [A1 A0 A2 A3 A4 A5]. split; try done. intros k Hk Hn. apply A5; [done|]. set_solver. Qed.

(** A step of the hub, the store left alone. *)
Lemma Told_hub actor e e' :
  actor ≠ Some w → HubRel actor (hub e) (hub e') → store e' = store e → Plain e → is_Some (clients (hub e) !! w) → Told w [] e e'.
Proof.
  intros Ha Hr Hs Hp [c Hc]. destruct (hr_dom _ _ _ Hr w) as [c' Hc']; [by eexists|].
  pose proof (hr_client _ _ _ Hr w c c' Hc Hc') as [_ R2 R3].
  split; unfold Plain, watching, failedTx in *; rewrite ?Hs; rewrite ?(client_lookup _ _ _ Hc), ?(client_lookup _ _ _ Hc'); try done.
  - intros k Hk. by apply R2.
  - intros k Hk. apply R3; [done|]. set_solver.
  - intros k _ _. left. apply sameEntry_refl.
Qed.

(** A step of the store, the hub left alone. *)
Lemma Told_store D e e' :
  hub e' = hub e → From (store e) D (store e') → is_Some (clients (hub e) !! w) → Told w D e e'.
Proof.
  intros Hh [F1 F2 [F3 F4 F5]] Hw. split; unfold watching, failedTx in *; rewrite ?Hh; try done. intros k _ Hn. left. by apply F5.
Qed.

(** Touching the changed keys settles the account. *)
Lemma Told_touch D keys e0 e :
  Told w D e0 e → HubInv (hub e) → D ⊆ keys → Told w [] e0 (setHub (WatchRegistry_Touch keys (hub e)) e).
Proof.
  intros [A1 [c Hc] A2 A3 A4 A5] Hi Hk. pose proof (touch_exact (hub e) keys w c Hi Hc) as Ht.
  set (c' := if decide _ then _ else _) in Ht. unfold watching, failedTx in *. rewrite (client_lookup _ _ _ Hc) in A3, A4, A5.
  assert (watchedKeys c' = watchedKeys c) as Hw by (unfold c'; by case_decide).
  assert (TxFailed c = true → TxFailed c' = true) as Hf by (unfold c'; by case_decide).
  split; unfold watching, failedTx; cbn [hub setHub store]; rewrite ?(client_lookup _ _ _ Ht), ?Hw; try done.
  - intros k Hkw H0. apply Hf. by eapply A4.
  - intros k Hkw _. destruct (decide (k ∈ D)) as [Hd|Hd]; [|destruct (A5 k Hkw Hd) as [?|?]; [by left|right; auto]].
    right. unfold c'. rewrite decide_True; [done|]. apply Exists_exists. exists k. split; [by apply Hk|done].
Qed.
End Told.

(** ** The judgement *)

Section Safe.
Context {C : CommandEnv} (ctx : Context_) (w : nat) (strict : Prop) (live : nat → Prop).
Hypothesis Hstrict : strict → ctxClient ctx ≠ Some w.

(** What is assumed of the other connections while a command waits. *)
Definition Rely (p : pause) : Prop := ∀ e, ServerInv e →
  ServerInv (meanwhile p e)
  ∧ (∀ id, is_Some (clients (hub e) !! id) → is_Some (clients (hub (meanwhile p e)) !! id))
  ∧ (strict → Plain e → is_Some (clients (hub e) !! w) → Told w [] e (meanwhile p e)).

Record Pre (st : St) : Prop := {
  pre_inv : ServerInv (ex st);
  pre_present : Present (ctxClient ctx) (hub (ex st));
  pre_live : ∀ id, live id → is_Some (clients (hub (ex st)) !! id);
  pre_rely : Forall Rely (pauses st)
}.

(** [m], started with the keys [D] changed and not yet announced, ends with the
    keys [f r] in that state, where [r] is its result. *)
Definition SafeAt {A} (D : list bytes) (m : H A) (f : result cmdError A → list bytes) (st : St) : Prop := Pre st →
  Pre (m st).2 ∧ (strict → ∀ e0, Told w D e0 (ex st) → Told w (f (m st).1) e0 (ex (m st).2)).
Definition Safe {A} (D : list bytes) (m : H A) (f : result cmdError A → list bytes) : Prop := ∀ st, SafeAt D m f st.

Definition Quiet {A} (m : H A) : Prop := Safe [] m (λ _, []).

Lemma Safe_ret {A} D (a : A) : Safe D (hret a) (λ _, D).
Proof. by intros st Hp. Qed.
Lemma Safe_fail {A} D e : Safe D (hfail (A := A) e) (λ _, D).
Proof. by intros st Hp. Qed.
Lemma Safe_lift {A} D (r : result cmdError A) : Safe D (hlift r) (λ _, D).
Proof. by intros st Hp. Qed.
Lemma Safe_gets {A} D (g : Executor → A) : Safe D (hgets g) (λ _, D).
Proof. by intros st Hp. Qed.
Lemma Safe_onEff D g : Safe D (onEff g) (λ r, match r with Ok _ => D | Err _ => [] end).
Proof. intros st [A1 A2 A3 A4]. by split. Qed.

Lemma SafeAt_bind {A B} D (m : H A) (k : A → H B) f g st :
  SafeAt D m f st → (∀ a, Safe (f (Ok a)) (k a) g) → (∀ e, f (Err e) ⊆ g (Err e)) → SafeAt D (hbind m k) g st.
Proof.
  intros Hm Hk He Hp. destruct (Hm Hp) as [Hp1 Ht1]. unfold hbind. destruct (m st) as [[a|e] st1]; cbn [fst snd] in *.
  - destruct (Hk a st1 Hp1) as [Hp2 Ht2]. split; [done|]. intros Hs e0 H0. by apply Ht2, Ht1.
  - split; [done|]. intros Hs e0 H0. eapply Told_sub; [apply He|by apply Ht1].
Qed.

Lemma Safe_bind {A B} D (m : H A) (k : A → H B) f g :
  Safe D m f → (∀ a, Safe (f (Ok a)) (k a) g) → (∀ e, f (Err e) ⊆ g (Err e)) → Safe D (hbind m k) g.
Proof. intros Hm Hk He st. by eapply SafeAt_bind. Qed.

Lemma Quiet_ret {A} (a : A) : Quiet (hret a).
Proof. apply Safe_ret. Qed.
Lemma Quiet_fail {A} e : Quiet (hfail (A := A) e).
Proof. apply Safe_fail. Qed.
Lemma Quiet_hlift {A} (r : result cmdError A) : Quiet (hlift r).
Proof. apply Safe_lift. Qed.
Lemma Quiet_gets {A} (g : Executor → A) : Quiet (hgets g).
Proof. apply Safe_gets. Qed.
Lemma Quiet_onEff g : Quiet (onEff g).
Proof. exact (Safe_onEff [] g). Qed.

Lemma Quiet_bind {A B} (m : H A) (k : A → H B) : Quiet m → (∀ a, Quiet (k a)) → Quiet (hbind m k).
Proof. intros Hm Hk. by eapply Safe_bind. Qed.

Lemma Quiet_state {A} (m : St → H A) : (∀ st, Quiet (m st)) → Quiet (λ st, m st st).
Proof. intros Hm st. apply Hm. Qed.

(** A continuation that reads the state first. *)
Lemma Safe_gets_bind {A B} D (g : Executor → A) (k : A → H B) f :
  (∀ st, Pre st → SafeAt D (k (g (ex st))) f st) → Safe D (hbind (hgets g) k) f.
Proof. intros Hk st Hp. exact (Hk st Hp Hp). Qed.

(** A change of what neither the invariant nor the watcher looks at. *)
Lemma Quiet_other g : (∀ e, store (g e) = store e ∧ hub (g e) = hub e) → Quiet (onEx g).
Proof.
  intros Hg st [[A1 A2 A3] A4 A6 A5]. destruct (Hg (ex st)) as [Hs Hh]. split.
  - split; [split| | |]; cbn [onEx snd ex]; rewrite ?Hs, ?Hh; done.
  - intros _ e0 [B1 B2 B3 B4 B5 B6]. split; unfold Plain, watching, failedTx in *; cbn [onEx fst snd ex] in *; rewrite ?Hs, ?Hh; done.
Qed.

(** ** Store calls *)

Lemma Safe_onStoreM_frame {A} D (m : M A) f : Keeps m → Foot m f →
  Safe D (onStoreM m) (λ r, match r with Ok a => D ++ f a | Err _ => [] end).
Proof.
  intros Hk Hf st [[A1 A2 A3] A4 A6 A5]. unfold onStoreM. specialize (Hk _ A1).
  pose proof (λ Hpl, Foot_run m f (store (ex st)) Hf A1 Hpl) as Hr. destruct (m (store (ex st))) as [a s]. cbn [fst snd ex eff pauses] in *.
  split; [by split|]. intros Hs e0 H0. eapply (Told_trans w D (f a)); [exact H0|].
  apply Told_store; [done|apply Hr, H0|apply H0].
Qed.

Lemma Safe_onStoreM {A} (m : M A) f : Keeps m → Foot m f →
  Safe [] (onStoreM m) (λ r, match r with Ok a => f a | Err _ => [] end).
Proof. exact (Safe_onStoreM_frame [] m f). Qed.

Lemma Safe_storeCall {A} conv (m : M (result storeError A)) f :
  Keeps m → Foot m f → (∀ e, f (Err e) = []) →
  Safe [] (storeCall conv m) (λ r, match r with Ok a => f (Ok a) | Err _ => [] end).
Proof.
  intros Hk Hf He. unfold storeCall. eapply Safe_bind; [by apply Safe_onStoreM| |done]. intros [a|e]; cbn [map_err]; [apply Safe_lift|].
  rewrite He. apply Safe_lift.
Qed.

(** A call that answers for nothing, and one that is followed by its
    notification. *)
Lemma Quiet_read {A} conv (m : M (result storeError A)) : Keeps m → Foot m (λ _, []) → Quiet (storeCall conv m).
Proof. intros Hk Hf. pose proof (Safe_storeCall conv m _ Hk Hf (λ _, eq_refl)) as H. intros st Hp. destruct (H st Hp) as [H1 H2]. split; [done|].
  intros Hs e0 H0. specialize (H2 Hs e0 H0). by destruct (storeCall conv m st).1. Qed.

Lemma Quiet_write {A B} conv (m : M (result storeError A)) f (k : A → H B) :
  Keeps m → Foot m f → (∀ e, f (Err e) = []) → (∀ a, Safe (f (Ok a)) (k a) (λ _, [])) → Quiet (hbind (storeCall conv m) k).
Proof. intros Hk Hf He Hc. eapply Safe_bind; [by apply Safe_storeCall|exact Hc|done]. Qed.

Lemma Quiet_now : Quiet now_.
Proof.
  intros st Hp. destruct (Safe_onStoreM nowNano (λ _, []) (λ s Hs, tick_inv s Hs) Foot_nowNano st Hp) as [H1 H2]. by split.
Qed.

(** ** Hub steps *)

Lemma onHubR_at {A} (g : Hub → A * Hub) st :
  (Pre st → HubRel (ctxClient ctx) (hub (ex st)) (g (hub (ex st))).2) → SafeAt [] (onHubR g) (λ _, []) st.
Proof.
  intros Hg Hp. specialize (Hg Hp). destruct Hp as [[A1 A2 A3] A4 A6 A5]. unfold onHubR. destruct (g (hub (ex st))) as [a h]. cbn [fst snd ex pauses] in *. split.
  - split; [split; [done|apply Hg|]|by eapply HubRel_present|intros id Hid; by apply (hr_dom _ _ _ Hg), A6|done]. intros id c' Hc'. cbn in Hc'.
    destruct (clients (hub (ex st)) !! id) as [c|] eqn:Hc; [|by eapply (hr_new _ _ _ Hg)].
    eapply (cr_queue _ _ _ (hr_client _ _ _ Hg id c c' Hc Hc')). by eapply A3.
  - intros Hs e0 H0. eapply (Told_trans w [] []); [exact H0|]. apply (Told_hub w (ctxClient ctx)); [by apply Hstrict|done|done|apply H0|apply H0].
Qed.

Lemma Quiet_hubRel {A} (g : Hub → A * Hub) :
  (∀ h, HubInv h → Present (ctxClient ctx) h → HubRel (ctxClient ctx) h (g h).2) → Quiet (onHubR g).
Proof. intros Hg st. apply onHubR_at. intros Hp. apply Hg; apply Hp. Qed.

Lemma Quiet_onHub g : (∀ h, HubInv h → Present (ctxClient ctx) h → HubRel (ctxClient ctx) h (g h)) → Quiet (onHub g).
Proof. intros Hg. exact (Quiet_hubRel (λ h, (tt, g h)) Hg). Qed.

Lemma Quiet_own id f :
  ctxClient ctx = Some id → silent f → (∀ c, QueueOk c → QueueOk (f c)) → Quiet (onHub (onClient id f)).
Proof. intros Ha Hs Hq. apply Quiet_onHub. intros h Hi Hp. apply HubRel_onClient; [done|intros c; apply clientRel_own; [done|apply Hq]|done]. Qed.

Lemma Safe_touchWatchKeys D keys : D ⊆ keys → Safe D (touchWatchKeys keys) (λ _, []).
Proof.
  intros Hk st [[A1 A2 A3] A4 A6 A5]. unfold touchWatchKeys. destruct (Z.eqb_spec (zlen keys) 0) as [Hz|Hz].
  - assert (keys = []) as -> by (by destruct keys).
    split; [done|]. intros _ e0 H0. eapply Told_sub; [exact Hk|exact H0].
  - destruct (Quiet_onHub (WatchRegistry_Touch keys) (λ h Hi _, HubRel_Touch _ keys h Hi) st (Build_Pre _ (Build_ServerInv _ _ A1 A2 A3) A4 A6 A5)) as [H1 _].
    split; [exact H1|]. intros _ e0 H0. cbn. by eapply Told_touch.
Qed.

Lemma Safe_recordEvicted keys : Quiet (recordEvictedKeys ctx keys).
Proof.
  unfold recordEvictedKeys. destruct (_ =? _); [apply Safe_ret|]. apply Quiet_bind; [apply Safe_touchWatchKeys, list_subseteq_nil|]. intros _. apply Quiet_onEff.
Qed.

Lemma Safe_recordWrite key evicted : Safe [key] (recordWriteEffects ctx key evicted) (λ _, []).
Proof. unfold recordWriteEffects. eapply Safe_bind; [by apply Safe_touchWatchKeys|intros ?; apply Safe_recordEvicted|done]. Qed.

(** The shape of a write command. *)
Lemma Quiet_writeCommand {A B} conv key (m : M (result storeError (A * list bytes))) (k : A → H B) :
  Keeps m → Foot m (answersFor key) → (∀ a, Quiet (k a)) →
  Quiet (let* (a, evicted) := storeCall conv m in do* recordWriteEffects ctx key evicted in k a).
Proof.
  intros Hk Hf Hc. eapply Quiet_write; [done|exact Hf|done|]. intros [a ev]. eapply Safe_bind; [apply Safe_recordWrite|intros ?; apply Hc|done].
Qed.
End Safe.
