(* ===== verification/HandlerFacts.v ===== *)
(** * Every handler is safe

    The judgement of [ExecutorFacts] for each handler of the command table and
    for the dispatcher. *)

From Stdlib Require Import SpecFloat.
From S2P Require Import Prelude Strconv GoLib GoText Float64 CompactZSet Strfloat Resp Stream ValueObject ValueFacts Bitmap ListWaiters.
From S2P Require Import Store StoreOps StoreFacts StoreMemory StoreInvariant StoreTheorems StorePlain StoreFrames.
From S2P Require Import Clients Slowlog Rdb Replication Geo CommandBase Commands Executor ExecutorFacts.

(** ** Scores are never NaN *)

Lemma shr_1_nonneg mrs : 0 ≤ shr_m mrs → 0 ≤ shr_m (shr_1 mrs).
Proof. destruct mrs as [[|[]|] r s]; cbn; lia. Qed.

Lemma iter_shr_nonneg n : ∀ mrs, 0 ≤ shr_m mrs → 0 ≤ shr_m (iter_pos shr_1 n mrs).
Proof. induction n as [n IH|n IH|]; intros mrs H; cbn [iter_pos]; auto using shr_1_nonneg. Qed.

Lemma shr_nonneg mrs e n : 0 ≤ shr_m mrs → 0 ≤ shr_m (shr mrs e n).1.
Proof. intros H. unfold shr. destruct n; try done. by apply iter_shr_nonneg. Qed.

Lemma binary_round_aux_notNaN sx mx ex lx : 0 ≤ mx → isNaN (binary_round_aux 53 1024 sx mx ex lx) = false.
Proof.
  intros Hm. unfold binary_round_aux, shr_fexp.
  assert (∀ m l, 0 ≤ shr_m (shr_record_of_loc m l) ↔ 0 ≤ m) as Hl by (intros m [|[]]; done).
  pose proof (shr_nonneg (shr_record_of_loc mx lx) ex (fexp 53 1024 (Zdigits2 mx + ex) - ex)) as H1.
  destruct (shr _ ex _) as [mrs' e']. cbn [fst] in H1. specialize (H1 (proj2 (Hl _ _) Hm)).
  set (m1 := round_nearest_even (shr_m mrs') (loc_of_shr_record mrs')). assert (0 ≤ m1) as Hm1.
  { unfold m1, round_nearest_even. destruct (loc_of_shr_record mrs') as [|[]]; try done; try lia. destruct (Z.even _); lia. }
  pose proof (shr_nonneg (shr_record_of_loc m1 loc_Exact) e' (fexp 53 1024 (Zdigits2 m1 + e') - e') (proj2 (Hl _ _) Hm1)) as H2.
  destruct (shr (shr_record_of_loc m1 loc_Exact) e' _) as [mrs'' e'']. cbn [fst] in H2.
  destruct (shr_m mrs''); [done| |lia]. by destruct (_ <=? _).
Qed.

Lemma floatOfZ_notNaN z : isNaN (floatOfZ z) = false.
Proof.
  unfold floatOfZ, binary_normalize. destruct z as [|p|p]; [done|..]; unfold binary_round; destruct (shl_align _ _ _); by apply binary_round_aux_notNaN.
Qed.

Section Handlers.
Context {C : CommandEnv}.

Lemma parseFloat_notNaN raw x : parseFloatArgument raw = Ok x → isNaN x = false.
Proof. unfold parseFloatArgument. destruct (ParseFloat raw) as [v|]; [|done]. destruct (isNaN v) eqn:E; cbn; [done|]. destruct (isInf v); [done|]. by intros [= <-]. Qed.

Lemma parseEntries_ok pairs es : parseEntries pairs = Ok es → Forall scoreOk es.
Proof.
  revert es. induction pairs as [|[raw member] pairs IH]; intros es; cbn; [by intros [= <-]; constructor|].
  destruct (parseFloatArgument raw) as [x|] eqn:Ex; cbn; [|done]. destruct (parseEntries pairs) as [es'|]; cbn; [|done].
  intros [= <-]. constructor; [by eapply parseFloat_notNaN|by apply IH].
Qed.

Lemma parseGeoEntries_ok triples es : parseGeoEntries triples = Ok es → Forall scoreOk es.
Proof.
  revert es. induction triples as [|[[lo la] member] triples IH]; intros es; cbn; [by intros [= <-]; constructor|].
  destruct (parseGeoCoordinates lo la) as [[x y]|]; cbn; [|done]. destruct (parseGeoEntries triples) as [es'|]; cbn; [|done].
  intros [= <-]. constructor; [apply floatOfZ_notNaN|by apply IH].
Qed.

Lemma Keeps_PFCount Log keys : Keeps (PFCount Log keys).
Proof. unfold PFCount. apply Keeps_bindR; [apply Keeps_mergeLoop|]. intros. apply Keeps_ret. Qed.
Lemma Keeps_SnapshotStrings : Keeps SnapshotStrings.
Proof. unfold SnapshotStrings. keeps. Qed.

(** Any read through [readKey] keeps the invariant. *)
Ltac keeps_read := unfold Get, withStringValue, GetBit, BitCount, ListRange, HGet, HGetAll, SIsMember, SMembers, ZScores, ZRange, ZRangeByScores, XRead; keeps.
Lemma Keeps_Get key : Keeps (Get key).
Proof. keeps_read. Qed.
Lemma Keeps_GetBit key offset : Keeps (GetBit key offset).
Proof. keeps_read. Qed.
Lemma Keeps_BitCount key a b : Keeps (BitCount key a b).
Proof. keeps_read. Qed.
Lemma Keeps_ListRange key a b : Keeps (ListRange key a b).
Proof. keeps_read. Qed.
Lemma Keeps_HGet key f : Keeps (HGet key f).
Proof. keeps_read. Qed.
Lemma Keeps_HGetAll key : Keeps (HGetAll key).
Proof. keeps_read. Qed.
Lemma Keeps_SIsMember key m : Keeps (SIsMember key m).
Proof. keeps_read. Qed.
Lemma Keeps_SMembers key : Keeps (SMembers key).
Proof. keeps_read. Qed.
Lemma Keeps_ZScores key ms : Keeps (ZScores key ms).
Proof. keeps_read. Qed.
Lemma Keeps_ZRange key a b : Keeps (ZRange key a b).
Proof. keeps_read. Qed.
Lemma Keeps_ZRangeByScores key rs : Keeps (ZRangeByScores key rs).
Proof. keeps_read. Qed.
Lemma Keeps_XRead key id : Keeps (XRead key id).
Proof. keeps_read. Qed.
Lemma Keeps_popN key count lft : Keeps (popN key count lft).
Proof. unfold popN. destruct (_ <? _); [apply Keeps_ret|apply Keeps_popWith]. Qed.
Lemma Keeps_Subscribe key : Keeps (SubscribeListPush key).
Proof.
  intros s Hs. unfold SubscribeListPush. pose proof (subscribe_wf (storeWaiters s) key (si_waiters _ Hs)) as Hw.
  destruct (subscribe _ key) as [w ch]. eapply StoreInv_frame; [exact Hs|done|done|exact Hw].
Qed.
Lemma Keeps_Unsubscribe key ch : Keeps (UnsubscribeListPush key ch).
Proof. apply (Keeps_waiters (λ w, unsubscribe w key ch)). intros. by apply unsubscribe_wf. Qed.
End Handlers.

Create HintDb quiet.
#[export] Hint Resolve Keeps_Set Keeps_Increment Keeps_pushList Keeps_HSet Keeps_SAdd Keeps_ZAdd Keeps_XAdd Keeps_SetBit Keeps_PFAdd
  Keeps_HDel Keeps_SRem Keeps_Delete Keeps_DeleteMany Keeps_popWith Keeps_popN Keeps_PFCount Keeps_SnapshotStrings Keeps_now
  Keeps_Get Keeps_GetBit Keeps_BitCount Keeps_ListRange Keeps_HGet Keeps_HGetAll Keeps_SIsMember Keeps_SMembers Keeps_ZScores
  Keeps_ZRange Keeps_ZRangeByScores Keeps_XRead Keeps_Subscribe Keeps_Unsubscribe : quiet.
#[export] Hint Resolve Foot_Set Foot_Increment Foot_pushList Foot_HSet Foot_SAdd Foot_ZAdd Foot_XAdd Foot_SetBit Foot_PFAdd
  Foot_HDel Foot_SRem Foot_Delete Foot_DeleteMany Foot_LeftPop Foot_RightPop Foot_popN Foot_PFCount Foot_SnapshotStrings Foot_nowMilli
  Foot_Get Foot_GetBit Foot_BitCount Foot_ListRange Foot_HGet Foot_HGetAll Foot_SIsMember Foot_SMembers Foot_ZScores
  Foot_ZRange Foot_ZRangeByScores Foot_XRead Foot_SubscribeListPush Foot_UnsubscribeListPush : quiet.
#[export] Hint Resolve Quiet_ret Quiet_fail Quiet_hlift Quiet_gets Quiet_onEff Quiet_now Quiet_read Safe_recordEvicted : quiet.

(** Step through a handler, splitting every branch. *)
Ltac quiet_step :=
  first
    [ solve [auto with quiet]
    | apply Quiet_writeCommand; [assumption|solve [auto with quiet]|solve [auto with quiet]|intros ?]
    | apply Quiet_bind; [|intros ?]
    | match goal with |- Quiet _ _ _ _ (if ?b then _ else _) => destruct b eqn:? end
    | match goal with |- Quiet _ _ _ _ (match ?x with _ => _ end) => destruct x eqn:? end ].
Ltac quiet := cbn zeta; repeat (quiet_step; cbn zeta).

Section Commands.
Context {C : CommandEnv} (ctx : Context_) (w : nat) (strict : Prop) (live : nat → Prop).
Hypothesis Hstrict : strict → ctxClient ctx ≠ Some w.
Abbreviation Quiet := (Quiet ctx w strict live).

(** ** Strings, lists, collections, streams *)

Lemma Quiet_parseExpiry args : Quiet (parseExpiry args).
Proof. unfold parseExpiry. quiet. Qed.

Lemma Quiet_Set request : Quiet (handleSet ctx request).
Proof.
  unfold handleSet. apply Quiet_bind; [apply Quiet_parseExpiry|]. intros e. cbn zeta.
  eapply Quiet_write; [auto with quiet|apply Foot_Set|done|]. intros ev. cbn [answersFor].
  eapply Safe_bind; [apply Safe_onEff| |done]. intros ?. eapply Safe_bind; [by apply Safe_touchWatchKeys|intros ?|done]. cbn beta. quiet.
Qed.
Lemma Quiet_Get request : Quiet (handleGet ctx request).
Proof. unfold handleGet. quiet. Qed.
Lemma Quiet_SetBit request : Quiet (handleSetBit ctx request).
Proof. unfold handleSetBit. quiet. Qed.
Lemma Quiet_GetBit request : Quiet (handleGetBit ctx request).
Proof. unfold handleGetBit. quiet. Qed.
Lemma Quiet_BitCount request : Quiet (handleBitCount ctx request).
Proof. unfold handleBitCount. quiet. Qed.
Lemma Quiet_PFAdd request : Quiet (handlePFAdd ctx request).
Proof. unfold handlePFAdd. quiet. Qed.
Lemma Quiet_PFCount request : Quiet (handlePFCount ctx request).
Proof. unfold handlePFCount. quiet. Qed.
Lemma Quiet_Incr request : Quiet (handleIncr ctx request).
Proof. unfold handleIncr. quiet. Qed.
Lemma Quiet_LPush request : Quiet (handleLPush ctx request).
Proof. unfold handleLPush, LeftPush. quiet. Qed.
Lemma Quiet_RPush request : Quiet (handleRPush ctx request).
Proof. unfold handleRPush, RightPush. quiet. Qed.
Lemma Quiet_LRange request : Quiet (handleLRange ctx request).
Proof. unfold handleLRange. quiet. Qed.
Lemma Quiet_ZRange request : Quiet (handleZRange ctx request).
Proof. unfold handleZRange. quiet. Qed.
Lemma Quiet_XAdd request : Quiet (handleXAdd ctx request).
Proof. unfold handleXAdd. quiet. Qed.
Lemma Quiet_XRead request : Quiet (handleXRead ctx request).
Proof. unfold handleXRead. quiet. Qed.
Lemma Quiet_HSet request : Quiet (handleHSet ctx request).
Proof. unfold handleHSet. quiet. Qed.
Lemma Quiet_HGet request : Quiet (handleHGet ctx request).
Proof. unfold handleHGet. quiet. Qed.
Lemma Quiet_HGetAll request : Quiet (handleHGetAll ctx request).
Proof. unfold handleHGetAll. quiet. Qed.
Lemma Quiet_SAdd request : Quiet (handleSAdd ctx request).
Proof. unfold handleSAdd. quiet. Qed.
Lemma Quiet_SIsMember request : Quiet (handleSIsMember ctx request).
Proof. unfold handleSIsMember. quiet. Qed.
Lemma Quiet_SMembers request : Quiet (handleSMembers ctx request).
Proof. unfold handleSMembers. quiet. Qed.
Lemma Quiet_GeoDist request : Quiet (handleGeoDist ctx request).
Proof. unfold handleGeoDist. quiet. Qed.
Lemma Quiet_GeoRadius request : Quiet (handleGeoRadius ctx request).
Proof. unfold handleGeoRadius. quiet. Qed.

(** Arguments that were checked before the call. *)
Lemma Quiet_lift {A B} (r : result cmdError A) (k : A → H B) : (∀ a, r = Ok a → Quiet (k a)) → Quiet (hbind (hlift r) k).
Proof. intros Hk. destruct r as [a|e]; [exact (Hk a eq_refl)|]. exact (Safe_fail ctx w strict live [] e). Qed.

Lemma Quiet_ZAdd request : Quiet (handleZAdd ctx request).
Proof. unfold handleZAdd. apply Quiet_lift. intros es Hes%parseEntries_ok. quiet. Qed.
Lemma Quiet_GeoAdd request : Quiet (handleGeoAdd ctx request).
Proof. unfold handleGeoAdd. apply Quiet_lift. intros es Hes%parseGeoEntries_ok. quiet. Qed.

(** ** Deletions and pops *)

(** A notification that is sent exactly when something changed. *)
Lemma Safe_touchIf {B} D (b : bool) keys (k : unit → H B) :
  D ⊆ (if b then keys else []) → (∀ u, Quiet (k u)) → Safe ctx w strict live D (hbind (if b then touchWatchKeys keys else hret tt) k) (λ _, []).
Proof.
  intros HD Hk. destruct b.
  - eapply Safe_bind; [by apply Safe_touchWatchKeys|exact Hk|done].
  - assert (D = []) as ->. { destruct D as [|x D]; [done|]. specialize (HD x (list_elem_of_here _ _)). by apply elem_of_nil in HD. }
    apply Quiet_bind; [apply Quiet_ret|exact Hk].
Qed.

Lemma Quiet_HDel request : Quiet (handleHDel ctx request).
Proof.
  unfold handleHDel. destruct (_ <? _); [apply Quiet_fail|]. cbn zeta. eapply Quiet_write; [auto with quiet|apply Foot_HDel|done|].
  intros n. cbn [removedFor]. apply Safe_touchIf; [by destruct (0 <? n)|]. intros ?. quiet.
Qed.
Lemma Quiet_SRem request : Quiet (handleSRem ctx request).
Proof.
  unfold handleSRem. destruct (_ <? _); [apply Quiet_fail|]. cbn zeta. eapply Quiet_write; [auto with quiet|apply Foot_SRem|done|].
  intros n. cbn [removedFor]. apply Safe_touchIf; [by destruct (0 <? n)|]. intros ?. quiet.
Qed.

Lemma Quiet_Del request : Quiet (handleDel ctx request).
Proof.
  unfold handleDel. destruct (_ <? _); [apply Quiet_fail|].
  assert (∀ touched, Safe ctx w strict live touched (do* touchWatchKeys touched in hret (Integer (zlen touched))) (λ _, [])) as Hrest.
  { intros touched. eapply Safe_bind; [by apply Safe_touchWatchKeys|intros ?; apply Quiet_ret|done]. }
  eapply (Safe_bind ctx w strict live [] _ _ (λ r, match r with Ok ks => ks | Err _ => [] end)); [|exact Hrest|done].
  destruct (_ =? _); [|apply Safe_onStoreM; auto with quiet]. cbn zeta.
  eapply Safe_bind; [apply Safe_onStoreM; auto with quiet| |done]. intros []; [|apply Safe_ret].
  intros st Hp. split; [done|]. by intros.
Qed.

Lemma Quiet_popList request name lft : Quiet (popList request name lft).
Proof.
  unfold popList. destruct (_ && _); [apply Quiet_fail|]. cbn zeta. destruct (_ =? 1).
  - eapply (Quiet_write ctx w strict live _ _ (poppedFor poppedOne (arg 0 request))); [destruct lft; apply Keeps_popWith|destruct lft; auto with quiet|done|].
    intros [v|]; [|apply Quiet_ret]. cbn [poppedFor poppedOne]. eapply Safe_bind; [by apply Safe_touchWatchKeys|intros ?; apply Quiet_ret|done].
  - apply Quiet_bind; [apply Quiet_hlift|]. intros count. destruct (Z.ltb_spec count 0); [apply Quiet_fail|].
    eapply (Quiet_write ctx w strict live _ _ (poppedFor (poppedMany count) (arg 0 request)));
      [destruct lft; apply Keeps_popN|destruct lft; apply Foot_popN|done|].
    intros [v|]; [|apply Quiet_ret]. cbn [poppedFor]. unfold poppedMany. apply Safe_touchIf; [done|]. intros ?. quiet.
Qed.
Lemma Quiet_LPop request : Quiet (handleLPop ctx request).
Proof. apply Quiet_popList. Qed.
Lemma Quiet_RPop request : Quiet (handleRPop ctx request).
Proof. apply Quiet_popList. Qed.

(** ** Connections, modes and registries *)

Ltac own_step := eapply Quiet_own; [eassumption|eassumption|done|by intros c; try apply Forall_nil].

Lemma Quiet_client {B} (k : nat → H B) : (∀ id, ctxClient ctx = Some id → Quiet (k id)) → Quiet (hbind (clientStateFromContext ctx) k).
Proof.
  intros Hk. unfold clientStateFromContext. destruct (ctxClient ctx) as [id|]; [exact (Hk id eq_refl)|].
  exact (Safe_fail ctx w strict live [] _).
Qed.

Lemma Quiet_clientOf id : Quiet (clientOf id).
Proof. apply Quiet_gets. Qed.
#[local] Hint Resolve Quiet_clientOf : quiet.

Lemma Quiet_Unwatch id : ctxClient ctx = Some id → Quiet (onHub (UnwatchAll id)).
Proof. intros Ha. apply Quiet_onHub; [done|]. intros h Hi Hp. by apply HubRel_UnwatchAll. Qed.

Lemma Quiet_Watch request : Quiet (handleWatch ctx request).
Proof.
  unfold handleWatch. apply Quiet_client. intros id Ha. quiet. apply Quiet_onHub; [done|]. intros h Hi Hp. by apply HubRel_WatchKeys.
Qed.

Lemma Quiet_Multi request : Quiet (handleMulti ctx request).
Proof.
  unfold handleMulti. destruct (negb _); [apply Quiet_fail|]. apply Quiet_client. intros id Ha. quiet.
  eapply Quiet_own; [done|done|apply ownMethod_silent, OwnBegin|]. intros c0 Hq. unfold BeginTransaction. destruct (InTransaction c0); [done|].
  by apply Forall_nil.
Qed.

Lemma Quiet_reset id : ctxClient ctx = Some id → Quiet (onHub (onClient id ResetTransaction)).
Proof. intros Ha. eapply Quiet_own; [done|done|apply ownMethod_silent, OwnReset|]. intros c _. by apply Forall_nil. Qed.
#[local] Hint Resolve Quiet_Unwatch Quiet_reset : quiet.

Lemma Quiet_Discard request : Quiet (handleDiscard ctx request).
Proof. unfold handleDiscard. destruct (negb _); [apply Quiet_fail|]. apply Quiet_client. intros id Ha. quiet. Qed.

Lemma Quiet_Auth request : Quiet (handleAuth ctx request).
Proof.
  unfold handleAuth. destruct (negb _); [apply Quiet_fail|]. apply Quiet_bind; [apply Quiet_gets|]. intros pass.
  destruct (decide _); [apply Quiet_fail|]. apply Quiet_client. intros id Ha. quiet.
  by eapply Quiet_own; [|exact Ha|apply ownMethod_silent, OwnAuth|].
Qed.
Lemma Quiet_Ping request : Quiet (handlePing ctx request).
Proof. unfold handlePing. quiet. Qed.
Lemma Quiet_Echo request : Quiet (handleEcho ctx request).
Proof. unfold handleEcho. quiet. Qed.

Lemma Quiet_Monitor request : Quiet (handleMonitor ctx request).
Proof.
  unfold handleMonitor. destruct (negb _); [apply Quiet_fail|]. apply Quiet_client. intros id Ha. quiet.
  apply Quiet_onHub; [done|]. intros h Hi Hp. by apply HubRel_Monitor.
Qed.

Lemma Quiet_BGRewrite request : Quiet (handleBGRewriteAOF ctx request).
Proof. unfold handleBGRewriteAOF. quiet. by apply Quiet_other. Qed.
Lemma Quiet_Info request : Quiet (handleInfo ctx request).
Proof. unfold handleInfo. quiet. Qed.
Lemma Quiet_Slowlog request : Quiet (handleSlowlog ctx request).
Proof. unfold handleSlowlog, slowlogEntries. quiet. by apply Quiet_other. Qed.

Lemma Quiet_subscribeLoop id channels : ctxClient ctx = Some id → ∀ responses, Quiet (subscribeLoop id channels responses).
Proof.
  intros Ha. induction channels as [|ch channels IH]; intros responses; cbn [subscribeLoop]; [apply Quiet_ret|]. quiet.
  apply Quiet_onHub; [done|]. intros h Hi Hp. by apply HubRel_Subscribe.
Qed.
Lemma Quiet_unsubscribeLoop id channels : ctxClient ctx = Some id → ∀ responses, Quiet (unsubscribeLoop id channels responses).
Proof.
  intros Ha. induction channels as [|ch channels IH]; intros responses; cbn [unsubscribeLoop]; [apply Quiet_ret|]. quiet.
  apply Quiet_onHub; [done|]. intros h Hi Hp. by apply HubRel_Unsubscribe.
Qed.
#[local] Hint Resolve Quiet_subscribeLoop Quiet_unsubscribeLoop : quiet.

Lemma Quiet_Subscribe request : Quiet (handleSubscribe ctx request).
Proof. unfold handleSubscribe. apply Quiet_client. intros id Ha. quiet. Qed.
Lemma Quiet_Unsubscribe request : Quiet (handleUnsubscribe ctx request).
Proof. unfold handleUnsubscribe. apply Quiet_client. intros id Ha. quiet. Qed.

(** Every subscriber of a channel is a client. *)
Lemma subscribers_present h channel : HubInv h → Forall (λ id, is_Some (clients h !! id)) (PubSub_AppendSubscribers channel h).
Proof.
  intros Hi. apply Forall_forall. intros id Hid. unfold PubSub_AppendSubscribers in Hid. rewrite idOrder_perm, elem_of_elements in Hid.
  apply (hi_sub _ Hi) in Hid as (c & Hc & _). by eexists.
Qed.

Lemma Quiet_Publish request : Quiet (handlePublish ctx request).
Proof.
  unfold handlePublish. cbn zeta. apply Safe_gets_bind. intros st Hp. set (subs := PubSub_AppendSubscribers _ (hub (ex st))).
  destruct (zlen subs =? 0); [apply Quiet_ret|]. destruct (Encode _) as [msg|e]; [|apply Quiet_fail].
  eapply SafeAt_bind; [apply onHubR_at; [done|]|intros n; apply Quiet_ret|done]. intros _.
  apply HubRel_deliver; [apply Hp|]. apply subscribers_present, Hp.
Qed.

(** ** Replication commands *)

Lemma Quiet_ctx {A} (f : nat → H A) d :
  (∀ id, ctxClient ctx = Some id → Quiet (f id)) → Quiet d → Quiet (match ctxClient ctx with Some id => f id | None => d end).
Proof. clear Hstrict. intros Hf Hd. destruct (ctxClient ctx) as [id|] eqn:Ha; [by apply Hf|done]. Qed.

Lemma Quiet_ReplConf request : Quiet (handleReplConf ctx request).
Proof.
  unfold handleReplConf. cbn zeta. destruct (decide _).
  { destruct (parseReplicationPortArgument _) as [port|]; [|apply Quiet_fail]. apply Quiet_bind; [|intros; apply Quiet_ret].
    apply Quiet_ctx; [|apply Quiet_ret]. intros id Ha. by eapply Quiet_own; [|exact Ha|apply ownMethod_silent, OwnPort|]. }
  destruct (decide _); [quiet|]. destruct (decide _); [|apply Quiet_fail].
  destruct (parseIntegerArgument _) as [ack|]; [|apply Quiet_fail]. destruct (ack <? 0); [apply Quiet_fail|].
  apply Quiet_bind; [|intros; apply Quiet_ret]. apply Quiet_ctx; [|apply Quiet_ret]. intros id Ha.
  intros st. unfold SafeAt. destruct (replicaPeers (ex st)) as [peers|]; [|exact (Quiet_ret ctx w strict live tt st)].
  destruct (Replica _); [|exact (Quiet_ret ctx w strict live tt st)]. by apply Quiet_other.
Qed.

Lemma Quiet_snapshot {B} (k : _ → H B) : (∀ a, Quiet (k a)) → Quiet (hbind (onStoreM SnapshotStrings) k).
Proof. intros Hk. eapply (Safe_bind ctx w strict live [] _ _ (λ r, match r with Ok _ => [] | Err _ => [] end)); [|exact Hk|done].
  apply (Safe_onStoreM ctx w strict live SnapshotStrings (λ _, [])); auto with quiet. Qed.

Lemma Quiet_PSync request : Quiet (handlePSync ctx request).
Proof.
  unfold handlePSync. destruct (negb _); [apply Quiet_fail|]. destruct (_ || _); [apply Quiet_fail|].
  apply Quiet_bind; [apply Quiet_gets|]. intros [repl|]; [|apply Quiet_fail]. destruct (decide _); [apply Quiet_fail|].
  apply Quiet_snapshot. intros [entries stats].
  eapply (Safe_bind ctx w strict live [] _ _ (λ r, match r with Ok _ => [] | Err _ => [] end)); [|intros now|done].
  { apply (Safe_onStoreM ctx w strict live nowMilli (λ _, [])); auto with quiet. }
  destruct (BuildSnapshot now entries) as [payload stats']. apply Quiet_bind; [|intros; apply Quiet_ret].
  apply Quiet_ctx; [|apply Quiet_ret]. intros id Ha. by eapply Quiet_own; [|exact Ha|apply ownMethod_silent, OwnPromote|].
Qed.

Lemma Quiet_requestAcks : Quiet requestReplicaAcknowledgements.
Proof.
  intros st Hp. unfold requestReplicaAcknowledgements. destruct (replicaPeers (ex st)) as [r|]; [|by apply Quiet_ret].
  destruct getAckPayload as [payload|]; [|by apply Quiet_fail]. destruct (AdvanceMasterOffset _ _) as [o repl].
  pose proof (HubRel_propagate (ctxClient ctx) payload (Replicas_Snapshot r) r (hub (ex st)) (sv_hub _ (pre_inv _ _ _ _ _ Hp))) as Hr.
  destruct (writePropagationPayload _ _ r _) as [c [r' h']]. cbn [snd] in Hr.
  destruct (Quiet_other ctx w strict live (setReplication repl (Some r')) (λ _, conj eq_refl eq_refl) st Hp) as [P1 T1].
  destruct (onHubR_at ctx w strict live Hstrict (λ _, (tt, h')) (onEx (setReplication repl (Some r')) st).2 (λ _, Hr) P1) as [P2 T2].
  split; [exact P2|]. intros Hs e0 H0. exact (T2 Hs e0 (T1 Hs e0 H0)).
Qed.

(** ** Waiting *)

Lemma Safe_pause p script st :
  Pre ctx w strict live st → Forall (Rely w strict) (p :: script) →
  let st' := mkSt (meanwhile p (ex st)) (eff st) script in
  Pre ctx w strict live st' ∧ (strict → ∀ e0, Told w [] e0 (ex st) → Told w [] e0 (ex st')).
Proof.
  intros [Hi Hpr Hlv _] [Hp Hs]%Forall_cons. destruct (Hp (ex st) Hi) as (H1 & H2 & H3). split.
  - split; [done| | |done]; intros id Ha; [by apply H2, Hpr|by apply H2, Hlv].
  - intros Hst e0 H0. eapply (Told_trans w [] []); [exact H0|]. apply H3; [done|apply H0|apply H0].
Qed.

Lemma Quiet_waitLoop replicas target script : Forall (Rely w strict) script → Quiet (waitLoop replicas target script).
Proof.
  induction script as [|p script IH]; intros Hs st Hp; cbn [waitLoop countReplicasAtOrAbove hgets].
  all: destruct (replicas <=? _); [by apply Quiet_ret|].
  { by apply Quiet_fail. }
  destruct (Safe_pause p script st Hp Hs) as [P1 T1]. apply Forall_cons in Hs as [_ Hs]. destruct (timerFired p).
  - split; [done|exact T1].
  - destruct (IH Hs _ P1) as [P2 T2]. split; [exact P2|]. intros Hst e0 H0. exact (T2 Hst e0 (T1 Hst e0 H0)).
Qed.

Lemma Quiet_Wait request : Quiet (handleWait ctx request).
Proof.
  unfold handleWait, waitTargetOffset, countReplicasAtOrAbove, finishWaitResult. apply Quiet_bind; [apply Quiet_hlift|]. intros [replicas timeout].
  apply Quiet_bind; [apply Quiet_gets|]. intros target. apply Quiet_bind; [apply Quiet_gets|]. intros acked.
  destruct (_ || _); [apply Quiet_ret|]. destruct (IsInlineExecution ctx); [apply Quiet_fail|]. apply Quiet_bind; [apply Quiet_requestAcks|].
  intros _ st Hp. exact (Quiet_waitLoop replicas target (pauses st) (pre_rely _ _ _ _ _ Hp) st Hp).
Qed.

Lemma Safe_unsubscribePush {B} D key ch (k : H B) g :
  Safe ctx w strict live D k g → Safe ctx w strict live D (do* onStoreM (UnsubscribeListPush key ch) in k) g.
Proof.
  intros Hk. eapply (Safe_bind ctx w strict live D _ _ (λ r, match r with Ok _ => D ++ [] | Err _ => [] end)); [| |intros; apply list_subseteq_nil].
  - apply (Safe_onStoreM_frame ctx w strict live D _ (λ _, [])); auto with quiet.
  - intros ?. by rewrite app_nil_r.
Qed.

(** What is left to do after the pop, from the state it left. *)
Lemma SafeAt_after {A B} D (m : H A) f (k : H B) g st st1 r :
  SafeAt ctx w strict live D m f st → m st = (r, st1) → Safe ctx w strict live (f r) k g → Pre ctx w strict live st →
  Pre ctx w strict live (k st1).2 ∧ (strict → ∀ e0, Told w D e0 (ex st) → Told w (g (k st1).1) e0 (ex (k st1).2)).
Proof.
  intros Hm Hr Hk Hp. destruct (Hm Hp) as [P1 T1]. rewrite Hr in P1, T1. cbn [fst snd] in *. destruct (Hk st1 P1) as [P2 T2].
  split; [done|]. intros Hs e0 H0. by apply T2, T1.
Qed.

Lemma Safe_resume {B} p script (k : H B) :
  Forall (Rely w strict) (p :: script) → Quiet k → Quiet (λ st, k (mkSt (meanwhile p (ex st)) (eff st) script)).
Proof.
  intros Hs Hk st Hp. destruct (Safe_pause p script st Hp Hs) as [P1 T1]. destruct (Hk _ P1) as [P2 T2]. split; [exact P2|].
  intros Hst e0 H0. exact (T2 Hst e0 (T1 Hst e0 H0)).
Qed.

Lemma Quiet_blpopLoop key script : Forall (Rely w strict) script → Quiet (blpopLoop ctx key script).
Proof.
  induction script as [|p script IH]; intros Hs; cbn [blpopLoop].
  all: eapply (Safe_bind ctx w strict live [] _ _ (λ r, match r with Ok _ => [] | Err _ => [] end));
    [apply (Safe_onStoreM ctx w strict live _ (λ _, [])); auto with quiet|intros ch|done].
  all: intros st Hp; pose proof (Safe_onStoreM ctx w strict live (LeftPop key) _ (Keeps_popWith key _) (Foot_LeftPop key) st) as Hpop.
  all: destruct (onStoreM (LeftPop key) st) as [[[[value|]|e]|e] st1] eqn:Epop; pose proof (λ B k g, SafeAt_after (B := B) _ _ _ k g _ _ _ Hpop Epop) as Hafter; clear Hpop.
  all: try (apply (Hafter _ (hfail e) (λ _, [])); [apply Safe_fail|done]).
  all: try (apply (Hafter _ _ (λ _, [])); [|done]; apply Safe_unsubscribePush, Quiet_fail).
  all: try (apply (Hafter _ _ (λ _, [])); [|done]; apply Safe_unsubscribePush; eapply Safe_bind; [by apply Safe_touchWatchKeys|intros ?; apply Quiet_ret|done]).
  - destruct (IsInlineExecution ctx); (apply (Hafter _ _ (λ _, [])); [|done]); apply Safe_unsubscribePush, Quiet_fail.
  - destruct (IsInlineExecution ctx); [(apply (Hafter _ _ (λ _, [])); [|done]); apply Safe_unsubscribePush, Quiet_fail|].
    apply (Hafter _ (λ st, (do* onStoreM (UnsubscribeListPush key ch) in blpopLoop ctx key script) (mkSt (meanwhile p (ex st)) (eff st) script)) (λ _, [])); [|done].
    apply Safe_resume; [done|]. apply Safe_unsubscribePush, IH. by apply Forall_cons in Hs as [_ Hs].
Qed.

Lemma Quiet_BLPop request : Quiet (handleBLPop ctx request).
Proof.
  intros st Hp. unfold handleBLPop. destruct (negb _); [by apply Quiet_fail|].
  exact (Quiet_blpopLoop (arg 0 request) (pauses st) (pre_rely _ _ _ _ _ Hp) st Hp).
Qed.

(** ** Validators *)

Lemma Quiet_channels channels : Quiet (validateNonEmptyPubSubChannels channels).
Proof. induction channels; cbn [validateNonEmptyPubSubChannels]; quiet. Qed.
Lemma Quiet_waitArgs args : Quiet (waitArgsLoop args).
Proof. induction args; cbn [waitArgsLoop]; quiet. Qed.
#[local] Hint Resolve Quiet_channels Quiet_waitArgs Quiet_parseExpiry : quiet.

Definition SpecOk (spec : commandSpec) : Prop :=
  (∀ request, Quiet (validate spec request))
  ∧ match handler spec with
    | inl handle => ∀ request, Quiet (handle ctx request)
    | inr detailed => ∀ request, Quiet (detailed ctx request)
    end.

Ltac validator :=
  intros request;
  unfold exactArgsValidator, maxArgsValidator, minArgsValidator, validateWatchRequest, validateSubscribeRequest, validateUnsubscribeRequest,
    validatePublishRequest, validateSetRequest, validateSetBitRequest, validateGetBitRequest, validateBitCountRequest, validateLRangeRequest,
    validateLPopRequest, validateRPopRequest, validatePopRequest, validateZAddRequest, validateZRangeRequest, validateGeoAddRequest,
    validateGeoDistRequest, validateGeoRadiusRequest, validateXAddRequest, validateXReadRequest, validateHSetRequest,
    validateReplConfRequest, validatePSyncRequest, validateWaitRequest, validateInfoRequest, validateSlowlogRequest, streamIDCheck, checked; quiet.

(** ** Transactions *)

Section Run.
Variable run : Context_ → Request → H ExecuteResult.
Hypothesis Hrun : ∀ request, Quiet (run ctx request).

Lemma Quiet_execLoop queued : ∀ acc, Quiet (execLoop (run ctx) queued acc).
Proof.
  induction queued as [|q queued IH]; intros [[responses prop] dur]; cbn [execLoop]; [apply Quiet_ret|]. intros st Hp.
  pose proof (Hrun (mkRequest (qName q) (qArgs q)) st) as Hq. destruct (run ctx _ st) as [[r|e] st1] eqn:Er.
  - pose proof (λ k : H (list Value * list Value * list Value), SafeAt_after _ _ _ k (λ _, []) _ _ _ Hq Er) as Hafter. destruct (Responses r) as [|r1 [|r2 rs]]; apply Hafter; try done; apply IH.
  - pose proof (λ k : H (list Value * list Value * list Value), SafeAt_after _ _ _ k (λ _, []) _ _ _ Hq Er) as Hafter.
    destruct e; [apply Hafter; [apply IH|done]..|]. apply (Hafter (hfail ctxError)); [apply Quiet_fail|done].
Qed.

Lemma Quiet_Exec request : Quiet (handleExec run ctx request).
Proof.
  unfold handleExec. destruct (negb _); [apply Quiet_fail|]. apply Quiet_client. intros id Ha. quiet.
  - eapply Quiet_own; [done|exact Ha|apply ownMethod_silent, OwnDrain|]. intros c _. by apply Forall_nil.
  - apply Quiet_execLoop.
Qed.

Lemma specs_ok : Forall (λ p, SpecOk p.2) (commandSpecs run).
Proof.
  unfold commandSpecs.
  repeat (apply Forall_cons; split;
    [split; [cbn [snd validate readSpec writeSpec controlSpec detailedSpec]; validator|cbn [snd handler readSpec writeSpec controlSpec detailedSpec]; intros request]|]); [..|by apply Forall_nil].
  - apply Quiet_Subscribe.
  - apply Quiet_Unsubscribe.
  - apply Quiet_Watch.
  - apply Quiet_Multi.
  - apply Quiet_Exec.
  - apply Quiet_Discard.
  - apply Quiet_Ping.
  - apply Quiet_Auth.
  - apply Quiet_Echo.
  - apply Quiet_Set.
  - apply Quiet_Get.
  - apply Quiet_SetBit.
  - apply Quiet_GetBit.
  - apply Quiet_BitCount.
  - apply Quiet_PFAdd.
  - apply Quiet_PFCount.
  - apply Quiet_Del.
  - apply Quiet_Incr.
  - apply Quiet_LPush.
  - apply Quiet_RPush.
  - apply Quiet_LRange.
  - apply Quiet_LPop.
  - apply Quiet_RPop.
  - apply Quiet_BLPop.
  - apply Quiet_ZAdd.
  - apply Quiet_ZRange.
  - apply Quiet_GeoAdd.
  - apply Quiet_GeoDist.
  - apply Quiet_GeoRadius.
  - apply Quiet_XAdd.
  - apply Quiet_XRead.
  - apply Quiet_HSet.
  - apply Quiet_HGet.
  - apply Quiet_HDel.
  - apply Quiet_HGetAll.
  - apply Quiet_SAdd.
  - apply Quiet_SIsMember.
  - apply Quiet_SRem.
  - apply Quiet_SMembers.
  - apply Quiet_Publish.
  - apply Quiet_ReplConf.
  - apply Quiet_PSync.
  - apply Quiet_Wait.
  - apply Quiet_BGRewrite.
  - apply Quiet_Info.
  - apply Quiet_Slowlog.
  - apply Quiet_Monitor.
Qed.

(** ** The dispatcher *)

Lemma lookupSpec_In (specs : list (string * commandSpec)) name spec :
  lookupSpec specs name = Some spec → ∃ s, (s, spec) ∈ specs ∧ bs s = name.
Proof.
  unfold lookupSpec. destruct (list_find _ specs) as [[i [s sp]]|] eqn:E; cbn; [|done]. intros [= <-].
  apply list_find_Some in E as (Hi & Hn & _). exists s. split; [by eapply list_elem_of_lookup_2|done].
Qed.

Lemma command_ok name spec : command run name = Some spec → SpecOk spec.
Proof. intros (s & Hs & _)%lookupSpec_In. pose proof specs_ok as Hok. rewrite Forall_forall in Hok. by apply (Hok _ Hs). Qed.

Lemma Quiet_recordSlow request t d : Quiet (recordSlowCommand ctx request t d).
Proof.
  intros st. unfold SafeAt, recordSlowCommand. destruct (slowlogRegistry (ex st)) as [r|]; [|by apply (Quiet_ret ctx w strict live tt)].
  destruct (_ || _); [by apply (Quiet_ret ctx w strict live tt)|]. destruct (match ctxClient ctx with Some _ => _ | None => _ end) as [id addr].
  by apply Quiet_other.
Qed.

(** A result computed from the state. *)
Lemma Quiet_result {A} (g : St → A) : Quiet (λ st, (Ok (g st), st)).
Proof. by intros st Hp. Qed.

Lemma Quiet_runSpec request spec : SpecOk spec → Quiet (runSpec ctx request spec).
Proof.
  intros [_ Hh]. unfold runSpec. apply Quiet_bind; [apply Quiet_now|]. intros started. destruct (handler spec) as [h|h].
  all: apply Quiet_bind; [apply Hh|]; intros r; apply Quiet_bind; [apply Quiet_now|]; intros finished.
  all: apply Quiet_bind; [apply Quiet_recordSlow|]; intros _.
  - eapply (Quiet_result (λ st, let '(prop, dur) := executionFrames ctx (eff st) request spec in _)).
  - apply (Quiet_result (λ st, mkResult _ _ _ _ _)).
Qed.

Lemma Quiet_dispatch request : Quiet (dispatch run ctx request).
Proof.
  unfold dispatch. destruct (command run (Name request)) as [spec|] eqn:E; [|apply Quiet_fail]. pose proof (command_ok _ _ E) as Hok.
  apply Quiet_bind; [apply Hok|]. intros _. by apply Quiet_runSpec.
Qed.

Lemma Quiet_validateQueueable request : Quiet (validateQueueableRequest run request).
Proof.
  unfold validateQueueableRequest. destruct (command run (Name request)) as [spec|] eqn:E; [|apply Quiet_fail]. by apply (command_ok _ _ E).
Qed.

(** EXEC itself is a control command, so it is never queued. *)
Lemma control_EXEC : isTransactionControlCommand run (bs "EXEC") = true.
Proof. reflexivity. Qed.

Lemma Quiet_maybeQueue request : Quiet (maybeQueueRequest run ctx request).
Proof.
  unfold maybeQueueRequest. apply Quiet_ctx; [|apply Quiet_ret]. intros id Ha. apply Quiet_bind; [apply Quiet_gets|]. intros state.
  destruct (negb _ || _) eqn:Eq; [apply Quiet_ret|]. apply orb_false_iff in Eq as [_ Ec].
  assert (Name request ≠ bs "EXEC") as Hne by (intros He; rewrite He, control_EXEC in Ec; done).
  intros st Hp. pose proof (Quiet_validateQueueable request st) as Hv.
  destruct (validateQueueableRequest run request st) as [[u|e] st1] eqn:Ev;
    pose proof (λ k : H (option Value), SafeAt_after _ _ _ k (λ _, []) _ _ _ Hv Ev) as Hafter; apply Hafter; try done;
    (apply Quiet_bind; [|intros _; first [apply Quiet_ret|apply Quiet_fail]]).
  - eapply Quiet_own; [done|exact Ha|apply ownMethod_silent, OwnEnqueue|]. intros c Hq. unfold QueueOk. cbn. apply Forall_app. split; [done|].
    by apply Forall_singleton.
  - by eapply Quiet_own; [|exact Ha|apply ownMethod_silent, OwnDirty|].
Qed.

Lemma Quiet_withEffects {A} (m : H A) : Quiet m → Quiet (withExecutionEffects m).
Proof.
  intros Hm st [P1 P2 P3 P4]. destruct (Hm (mkSt (ex st) noEffects (pauses st))) as [[Q1 Q2 Q3 Q4] HT]; [by split|].
  unfold withExecutionEffects. destruct (m _) as [r st']. split; [by split|]. exact HT.
Qed.

Lemma Quiet_executeWith request allowQueue : Quiet (executeRequestWith run ctx request allowQueue).
Proof.
  unfold executeRequestWith. apply Quiet_withEffects. apply Quiet_bind.
  { unfold validateSubscriptionContext. apply Quiet_ctx; [|apply Quiet_ret]. intros id _. quiet. }
  intros _. apply Quiet_bind.
  { unfold validateAuthContext. apply Quiet_bind; [apply Quiet_gets|]. intros pass. destruct (decide _); [apply Quiet_ret|].
    apply Quiet_ctx; [|apply Quiet_ret]. intros id _. quiet. }
  intros _. apply Quiet_bind; [destruct allowQueue; [apply Quiet_maybeQueue|apply Quiet_ret]|].
  intros [v|]; [apply Quiet_ret|apply Quiet_dispatch].
Qed.
End Run.

Lemma Quiet_executeAt depth : ∀ request allowQueue, Quiet (executeAt depth ctx request allowQueue).
Proof.
  induction depth as [|depth IH]; intros request allowQueue; cbn [executeAt]; apply Quiet_executeWith; intros r; [apply Quiet_fail|apply IH].
Qed.

Lemma Quiet_ExecuteDetailed value : Quiet (ExecuteDetailed ctx value).
Proof. unfold ExecuteDetailed. destruct (DecodeRequest value); [apply Quiet_executeAt|apply Quiet_fail]. Qed.
End Commands.
