(* ===== verification/ExecutorTheorems.v ===== *)
(** * The executor: what it guarantees

    The theorems about whole commands: the server invariant, optimistic locking,
    queueing, the checks on who may run what, and the frames a command sends. *)

From S2P Require Import Prelude Strconv GoLib GoText Float64 CompactZSet Strfloat Resp Stream ValueObject ValueFacts Bitmap ListWaiters.
From S2P Require Import Store StoreOps StoreFacts StoreMemory StoreInvariant StoreTheorems StorePlain StoreFrames.
From S2P Require Import Clients Slowlog Rdb Replication Geo CommandBase Commands Executor ExecutorFacts HandlerFacts.

(** ** A concrete environment *)

Definition demoNet : Net := {| idOrder := elements; idOrder_perm := λ X, reflexivity (elements X); writeOk := λ _, true |}.
Definition demoCommandEnv : CommandEnv := {|
  cmd_env := demoEnv; cmd_net := demoNet; cmd_unicode := asciiOnlyTables; sha256 := λ b, b;
  mathLog := λ x, x; mathSin := λ x, x; mathCos := λ x, x; mathAsin := λ x, x;
  memStats := λ _, (0, 0, 0); serverStatsProvider := None; aofRewrite := None |}.

(** Two connected clients, bound to every registry as [handleConnection] binds them. *)
Definition bindClient (id : nat) (h : Hub) : Hub := SetMonitorRegistry id (SetPubSubRegistry id (SetWatchRegistry id h)).
Definition twoClients : Hub :=
  bindClient 2 (bindClient 1 (ClientRegistry_Add newClientState (ClientRegistry_Add newClientState NewHub).2).2).
Definition demoServer : Executor := setHub twoClients (NewExecutor (storeOfShards (replicate 2 ∅))).

Definition asClient (id : nat) : Context_ := mkContext (Some id) false true.
Definition line (words : list string) : Value := arr ((λ s, bulk (bs s)) <$> words).

(** Commands of several clients, one after the other; the server between two
    commands is the executor alone. *)
Definition runCommand {C : CommandEnv} (ctx : Context_) (value : Value) (e : Executor) : Executor :=
  ex (ExecuteDetailed ctx value (mkSt e noEffects [])).2.
Definition runCommands {C : CommandEnv} (cmds : list (Context_ * Value)) (e : Executor) : Executor :=
  foldl (λ e c, runCommand c.1 c.2 e) e cmds.

Lemma twoClients_reachable : @hubReachable demoNet twoClients.
Proof.
  unfold twoClients, bindClient.
  do 3 (eapply ReachStep; [|first [apply StepBindMonitor|apply StepBindPubSub|apply StepBindWatch]]).
  do 3 (eapply ReachStep; [|first [apply StepBindMonitor|apply StepBindPubSub|apply StepBindWatch]]).
  eapply ReachStep; [|apply StepAccept]. eapply ReachStep; [apply ReachNew|apply StepAccept].
Qed.

Lemma demoServer_inv : @ServerInv demoCommandEnv demoServer.
Proof.
  split; [apply storeOfShards_inv; lia|apply (reachable_HubInv (N := demoNet)), twoClients_reachable|].
  intros id c Hc. assert (map_Forall (λ _ c, length (TxQueue c) = O) (clients (hub demoServer))) as H by (apply (bool_decide_unpack _); vm_compute; exact I).
  specialize (H id c Hc). unfold QueueOk. apply nil_length_inv in H. rewrite H. by apply Forall_nil.
Qed.

Section Runs.
Context {C : CommandEnv}.
Implicit Types (e : Executor).

(** One command between others: it starts with no effects recorded, and nothing
    happens while it would wait. *)
Lemma runCommand_keeps ctx value e w (strict : Prop) (live : nat → Prop) :
  (strict → ctxClient ctx ≠ Some w) → ServerInv e → Present (ctxClient ctx) (hub e) → (∀ id, live id → is_Some (clients (hub e) !! id)) →
  let e' := runCommand ctx value e in
  ServerInv e' ∧ (∀ id, live id → is_Some (clients (hub e') !! id))
  ∧ (strict → ∀ e0, Told w [] e0 e → Told w [] e0 e').
Proof.
  intros Hs Hi Hp Hl. destruct (Quiet_ExecuteDetailed ctx w strict live Hs value (mkSt e noEffects [])) as [[P1 P2 P3 P4] HT]; [by split|].
  by split_and!.
Qed.

Lemma runCommands_keeps w (strict : Prop) (live : nat → Prop) cmds : ∀ e,
  ServerInv e → (∀ id, live id → is_Some (clients (hub e) !! id)) →
  Forall (λ c : Context_ * Value, (∀ id, ctxClient c.1 = Some id → live id) ∧ (strict → ctxClient c.1 ≠ Some w)) cmds →
  let e' := runCommands cmds e in
  ServerInv e' ∧ (∀ id, live id → is_Some (clients (hub e') !! id)) ∧ (strict → ∀ e0, Told w [] e0 e → Told w [] e0 e').
Proof.
  induction cmds as [|[ctx value] cmds IH]; intros e Hi Hl Hc; cbn; [by split_and!|].
  apply Forall_cons in Hc as [[Hc1 Hc2] Hc]. cbn [fst snd] in *.
  destruct (runCommand_keeps ctx value e w strict live Hc2 Hi) as (H1 & H2 & H3); [intros id Hid; by apply Hl, Hc1|done|].
  destruct (IH _ H1 H2 Hc) as (G1 & G2 & G3). split_and!; [done|done|]. intros Hs e0 H0. by apply G3, H3.
Qed.
End Runs.

(** No command breaks the server: after any command a connected client (or
    the replication stream) sends, valid or not, the store and every encoded
    value in it are well-formed, the registries and the clients agree, and no
    transaction queue holds a command EXEC would run as a transaction command.
    The other connections may keep the invariant in any way while the command
    waits. *)
Theorem command_keeps_server_inv (C : CommandEnv) ctx value st :
  ServerInv (ex st) → Present (ctxClient ctx) (hub (ex st)) →
  Forall (λ p, ∀ e, ServerInv e → ServerInv (meanwhile p e)
    ∧ ∀ id, is_Some (clients (hub e) !! id) → is_Some (clients (hub (meanwhile p e)) !! id)) (pauses st) →
  ServerInv (ex (ExecuteDetailed ctx value st).2).
Proof.
  intros Hi Hp Hr. apply (Quiet_ExecuteDetailed ctx 0 False (λ _, False)); [done|]. split; [done|done|done|].
  eapply Forall_impl; [exact Hr|]. intros p Hq e He. by destruct (Hq e He).
Qed.

Lemma command_keeps_server_inv_witness :
  let st := mkSt demoServer noEffects [mkPause id true] in
  @ServerInv demoCommandEnv (ex (@ExecuteDetailed demoCommandEnv (mkContext (Some 1%nat) false false) (line ["WAIT"; "1"; "5"]) st).2).
Proof.
  intros st. apply command_keeps_server_inv; [apply demoServer_inv|intros ? [= <-]; vm_compute; by eexists|].
  constructor; [|apply Forall_nil_2]. intros e He. by split.
Defined.

(** ** Optimistic locking *)

(** What a client is told about the keys it watches. *)
Lemma watchers_told (C : CommandEnv) w (live : nat → Prop) cmds e :
  ServerInv e → Plain e → (∀ id, live id → is_Some (clients (hub e) !! id)) → live w →
  Forall (λ c : Context_ * Value, (∀ id, ctxClient c.1 = Some id → live id) ∧ ctxClient c.1 ≠ Some w) cmds →
  Told w [] e (runCommands cmds e).
Proof.
  intros Hi Hpl Hl Hw Hc. destruct (runCommands_keeps w True live cmds e Hi Hl) as (_ & _ & HT).
  { eapply Forall_impl; [exact Hc|]. intros c [H1 H2]. by split. }
  apply HT; [done|]. apply Told_refl; [done|by apply Hl].
Qed.

Section Exec.
Context {C : CommandEnv}.
Implicit Types (e : Executor).

Definition execRequest : Request := mkRequest (bs "EXEC") [].

(** The two checks let a client through. *)
Record Passes (e : Executor) (c : ClientState) : Prop := {
  ps_sub : IsSubscribed c = false;
  ps_mon : Monitoring c = false;
  ps_auth : requirePass e = [] ∨ Authenticated c = true
}.

Lemma subscription_open ctx request st id :
  ctxClient ctx = Some id → Passes (ex st) (client (hub (ex st)) id) → validateSubscriptionContext ctx request st = (Ok tt, st).
Proof. intros Ha [Hs Hm _]. unfold validateSubscriptionContext, clientOf, hbind, hgets. rewrite Ha. cbv beta iota. by rewrite Hs, Hm. Qed.

Lemma auth_open ctx request st id :
  ctxClient ctx = Some id → Passes (ex st) (client (hub (ex st)) id) → validateAuthContext ctx request st = (Ok tt, st).
Proof.
  intros Ha [_ _ Hp]. unfold validateAuthContext, clientOf, hbind, hgets. rewrite Ha. cbv beta iota.
  destruct (decide (requirePass (ex st) = [])); [done|]. destruct Hp as [?|Hau]; [done|]. by rewrite Hau.
Qed.

(** A transaction that has not been spoiled, of a client the checks let through. *)
Record MayExec (e : Executor) (w : nat) : Prop := {
  me_tx : InTransaction (client (hub e) w) = true;
  me_clean : TxDirty (client (hub e) w) = false;
  me_pass : Passes e (client (hub e) w)
}.

(** A request that passes the gates and is not queued reaches the dispatcher. *)
Lemma gates_open run ctx request allowQueue st id :
  ctxClient ctx = Some id → Passes (ex st) (client (hub (ex st)) id) →
  (allowQueue = false ∨ InTransaction (client (hub (ex st)) id) = false ∨ isTransactionControlCommand run (Name request) = true) →
  executeRequestWith run ctx request allowQueue st = withExecutionEffects (dispatch run ctx request) st.
Proof.
  intros Ha Hps Hq. unfold executeRequestWith, withExecutionEffects. f_equal. set (st0 := mkSt _ _ _).
  unfold hbind at 1. rewrite (subscription_open ctx request st0 id Ha Hps). unfold hbind at 1. rewrite (auth_open ctx request st0 id Ha Hps).
  unfold hbind at 1. assert ((if allowQueue then maybeQueueRequest run ctx request else hret None) st0 = (Ok None, st0)) as ->; [|done].
  destruct allowQueue; [|done]. unfold maybeQueueRequest, clientOf, hbind, hgets. rewrite Ha. cbv beta iota.
  change (client (hub (ex st0)) id) with (client (hub (ex st)) id). destruct Hq as [?|[Hq|Hq]]; [done| |]; rewrite Hq; [done|]. by rewrite orb_true_r.
Qed.

(** Reading the clock. *)
Definition ticked (st : St) : St := mkSt (setStore (tick (store (ex st))) (ex st)) (eff st) (pauses st).
Lemma now_eq st : now_ st = (Ok (clock (ticks (store (ex st)))), ticked st).
Proof. done. Qed.

(** The slow log is all a finished command leaves behind. *)
Lemma recordSlow_eq ctx request t d st :
  ∃ sl, recordSlowCommand ctx request t d st = (Ok tt, mkSt (setSlowlog sl (ex st)) (eff st) (pauses st)).
Proof.
  unfold recordSlowCommand. destruct (slowlogRegistry (ex st)) as [r|] eqn:Er.
  - destruct (_ || _).
    + exists (Some r). destruct st as [[] ? ?]. cbn in *. by rewrite Er.
    + destruct (match ctxClient ctx with Some _ => _ | None => _ end) as [id addr]. by eexists.
  - exists None. destruct st as [[] ? ?]. cbn in *. by rewrite Er.
Qed.

(** Running a detailed handler: two clock readings and the slow log around it. *)
Lemma runSpec_detailed ctx request spec h st r st1 :
  handler spec = inr h → h ctx request (ticked st) = (Ok r, st1) →
  ∃ sl, runSpec ctx request spec st
    = (Ok (mkResult (Responses r) (UpstreamReplies r) (Propagation r ++ propagation (eff st1)) (Durability r ++ durability (eff st1)) (RegisterReplica r)),
       mkSt (setSlowlog sl (ex (ticked st1))) (eff st1) (pauses st1)).
Proof.
  intros Hh Hr. unfold runSpec. unfold hbind at 1. rewrite now_eq, Hh. unfold hbind at 1. rewrite Hr. unfold hbind at 1. rewrite now_eq.
  unfold hbind at 1. match goal with |- context [recordSlowCommand ctx request ?t ?d (ticked st1)] => destruct (recordSlow_eq ctx request t d (ticked st1)) as (sl & ->) end.
  by exists sl.
Qed.

(** EXEC of a client whose watched keys have changed. *)
Lemma exec_failed ctx w st :
  ctxClient ctx = Some w → MayExec (ex st) w → failedTx (ex st) w → HubInv (hub (ex st)) → is_Some (clients (hub (ex st)) !! w) →
  ∃ st', executeRequestDetailed ctx execRequest true st = (Ok (SingleResponse nullArray), st')
    ∧ shards (store (ex st')) = shards (store (ex st))
    ∧ hub (ex st') = UnwatchAll w (onClient w ResetTransaction (hub (ex st))).
Proof.
  intros Ha [M1 M2 M3] Hf Hi Hp. unfold executeRequestDetailed. cbn [executeAt].
  erewrite gates_open; [|exact Ha|exact M3|by right; right]. unfold withExecutionEffects, dispatch.
  match goal with |- context [command ?run (Name execRequest)] => set (r := run) end.
  change (command r (Name execRequest)) with (Some (controlSpec (inr (handleExec r)) (exactArgsValidator "EXEC" 0))).
  unfold hbind at 1. change (validate _ execRequest ?s) with (Ok (E := cmdError) tt, s). cbv beta iota.
  set (st0 := mkSt (ex st) noEffects (pauses st)).
  assert (handleExec r ctx execRequest (ticked st0)
    = (Ok (SingleResponse nullArray), mkSt (setHub (UnwatchAll w (onClient w ResetTransaction (hub (ex st)))) (ex (ticked st0))) noEffects (pauses st))) as Hex.
  { unfold handleExec. change (argc execRequest =? 0) with true. cbn [negb].
    unfold clientStateFromContext, clientOf, hbind, hret, hgets. rewrite Ha. cbv beta iota.
    change (client (hub (ex (ticked st0))) w) with (client (hub (ex st)) w). rewrite M1, M2, Hf. reflexivity. }
  destruct (runSpec_detailed ctx execRequest (controlSpec (inr (handleExec r)) (exactArgsValidator "EXEC" 0)) (handleExec r) st0 _ _ eq_refl Hex) as (sl & ->).
  eexists. split_and!; [reflexivity|done|done].
Qed.
End Exec.


(** Client 1 watches a key and opens a transaction. *)
Definition watchedServer : Executor :=
  @runCommands demoCommandEnv [(asClient 1, line ["WATCH"; "stock"]); (asClient 1, line ["MULTI"]); (asClient 1, line ["SET"; "stock"; "9"])] demoServer.

Lemma demo_present id : (id = 1 ∨ id = 2)%nat → is_Some (clients (hub demoServer) !! id).
Proof. intros [->| ->]; vm_compute; by eexists. Qed.

Lemma watchedServer_inv :
  @ServerInv demoCommandEnv watchedServer ∧ ∀ id, (id = 1 ∨ id = 2)%nat → is_Some (clients (hub watchedServer) !! id).
Proof.
  destruct (@runCommands_keeps demoCommandEnv 0 False (λ id, id = 1 ∨ id = 2)%nat
    [(asClient 1, line ["WATCH"; "stock"]); (asClient 1, line ["MULTI"]); (asClient 1, line ["SET"; "stock"; "9"])] demoServer demoServer_inv demo_present)
    as (H1 & H2 & _); [|done].
  repeat (apply Forall_cons; split; [split; [intros id [= <-]; by left|done]|]). by apply Forall_nil.
Qed.


(** Why the commands of other clients must be whole: a handler writes to the store
    first and touches the watchers afterwards, with no lock over both.  When EXEC
    of a watching connection falls between the two steps of SET, it finds the key
    changed and its transaction unspoiled, and overwrites the change. *)
Theorem exec_between_write_and_touch :
  let C := demoCommandEnv in
  let written := setStore (@Set_ demoEnv (bs "stock") (bs "3") 0 (store watchedServer)).2 watchedServer in
  let '(r, st) := @executeRequestDetailed C (asClient 1) execRequest true (mkSt written noEffects []) in
  (vString <$> @lookupKey demoEnv (store written) (bs "stock")) = Some (bs "3")
  ∧ (Responses <$> (match r with Ok a => Some a | Err _ => None end)) = Some [Array [okReply] false]
  ∧ (vString <$> @lookupKey demoEnv (store (ex st)) (bs "stock")) = Some (bs "9").
Proof. vm_compute. split; [|split]; reflexivity. Qed.

(** ** The table does not depend on how queued requests are run *)

Section Table.
Context {C : CommandEnv}.
Abbreviation Runner := (Context_ → Request → H ExecuteResult).

Definition noRunner : Runner := λ _ _, hfail ctxError.

Lemma lookupSpec_cons s spec l name : lookupSpec ((s, spec) :: l) name = if decide (bs s = name) then Some spec else lookupSpec l name.
Proof.
  unfold lookupSpec. cbn [list_find]. change (bs (s, spec).1 = name) with (bs s = name). destruct (decide (bs s = name)); [done|].
  by destruct (list_find _ l) as [[i p]|].
Qed.

(** The part of the table an attribute sees. *)
Fixpoint lookupAttr {B} (l : list (string * B)) (name : bytes) : option B :=
  match l with [] => None | (s, b) :: l' => if decide (bs s = name) then Some b else lookupAttr l' name end.

Lemma lookupSpec_fmap {B} (f : commandSpec → B) specs name :
  f <$> lookupSpec specs name = lookupAttr (prod_map id f <$> specs) name.
Proof. induction specs as [|[s spec] specs IH]; [done|]. rewrite lookupSpec_cons. cbn. by destruct (decide _). Qed.

(** What the table fixes about a command, whatever runs the queue. *)
Definition specFlags (spec : commandSpec) : bool * bool * bool := (transactionControl spec, propagates spec, durable spec).

Lemma flags_static (run run' : Runner) name : specFlags <$> command run name = specFlags <$> command run' name.
Proof. unfold command. rewrite !lookupSpec_fmap. reflexivity. Qed.

Lemma control_static (run run' : Runner) name : isTransactionControlCommand run name = isTransactionControlCommand run' name.
Proof.
  pose proof (flags_static run run' name) as Hf. unfold isTransactionControlCommand.
  destruct (command run name), (command run' name); try done. by injection Hf.
Qed.

Definition isControl (name : bytes) : bool := isTransactionControlCommand noRunner name.

Lemma lookupSpec_app l1 l2 name : lookupSpec (l1 ++ l2) name = match lookupSpec l1 name with Some s => Some s | None => lookupSpec l2 name end.
Proof. induction l1 as [|[s spec] l1 IH]; [done|]. cbn [app]. rewrite !lookupSpec_cons. by destruct (decide _). Qed.

(** Only EXEC looks at the queue. *)
Lemma command_static (run run' : Runner) name : name ≠ bs "EXEC" → command run name = command run' name.
Proof.
  intros Hne. unfold command.
  assert (∀ r, commandSpecs r = take 4 (commandSpecs noRunner) ++ ("EXEC", controlSpec (inr (handleExec r)) (exactArgsValidator "EXEC" 0)) :: drop 5 (commandSpecs noRunner)) as Hs by reflexivity.
  rewrite (Hs run), (Hs run'), !lookupSpec_app, !lookupSpec_cons. by rewrite !decide_False by congruence.
Qed.

Lemma execute_static (run run' : Runner) ctx request allowQueue :
  Name request ≠ bs "EXEC" → executeRequestWith run ctx request allowQueue = executeRequestWith run' ctx request allowQueue.
Proof.
  intros Hne. unfold executeRequestWith, maybeQueueRequest, dispatch, validateQueueableRequest.
  rewrite (command_static run run'), (control_static run run') by done. done.
Qed.
End Table.

(** ** EXEC *)

Section Transactions.
Context {C : CommandEnv}.
Implicit Types (ctx : Context_) (st : St).

Lemma execLoop_ext (run run' : Request → H ExecuteResult) queued :
  (∀ q st, q ∈ queued → run (mkRequest (qName q) (qArgs q)) st = run' (mkRequest (qName q) (qArgs q)) st) →
  ∀ acc st, execLoop run queued acc st = execLoop run' queued acc st.
Proof.
  induction queued as [|q queued IH]; intros Hr acc st; cbn [execLoop]; [done|]. destruct acc as [[responses prop] dur].
  rewrite <- (Hr q st) by (by left). assert (∀ acc st, execLoop run queued acc st = execLoop run' queued acc st) as IH'.
  { apply IH. intros q' st' Hq. apply Hr. by right. }
  destruct (run _ st) as [[r|[]] st1]; try done. by destruct (Responses r) as [|? []].
Qed.

Lemma runSpec_ext ctx request spec spec' st :
  (validate spec, transactionControl spec, propagates spec, durable spec, rewriteFrame spec)
  = (validate spec', transactionControl spec', propagates spec', durable spec', rewriteFrame spec') →
  (∀ h, handler spec = inr h → ∃ h', handler spec' = inr h' ∧ h ctx request (ticked st) = h' ctx request (ticked st)) →
  (∀ h, handler spec = inl h → handler spec' = inl h) →
  runSpec ctx request spec st = runSpec ctx request spec' st.
Proof.
  intros [= Hv Ht Hp Hd Hr] Hinr Hinl. unfold runSpec. unfold hbind at 1. symmetry. unfold hbind at 1. rewrite now_eq. symmetry.
  destruct (handler spec) as [h|h] eqn:Eh.
  - rewrite (Hinl h eq_refl). unfold executionFrames. by rewrite Hp, Hd, Hr.
  - destruct (Hinr h eq_refl) as (h' & -> & Heq). unfold hbind at 1 4. by rewrite Heq.
Qed.

Lemma client_onClient h id f : client (onClient id f h) id = match clients h !! id with Some c => f c | None => newClientState end.
Proof. unfold client. rewrite lookup_onClient, decide_True by done. by destruct (clients h !! id). Qed.

Lemma UnwatchAll_queue id h : TxQueue (client (UnwatchAll id h) id) = TxQueue (client h id).
Proof.
  assert (∀ f h, (∀ c, TxQueue (f c) = TxQueue c) → TxQueue (client (onClient id f h) id) = TxQueue (client h id)) as Hf.
  { intros f h0 Hq. rewrite client_onClient. unfold client. destruct (clients h0 !! id); cbn; [apply Hq|done]. }
  unfold UnwatchAll. rewrite Hf by done. destruct (boundWatch _); [|done]. unfold WatchRegistry_UnwatchAll. cbn zeta.
  change (client (setWatchers ?m ?h0) id) with (client h0 id). by apply Hf.
Qed.

(** Two ways to run queued requests that agree on what a queue may hold. *)
Lemma handleExec_ext (run run' : Context_ → Request → H ExecuteResult) ctx request st :
  (∀ q st', qName q ≠ bs "EXEC" → run ctx (mkRequest (qName q) (qArgs q)) st' = run' ctx (mkRequest (qName q) (qArgs q)) st') →
  (∀ id, ctxClient ctx = Some id → QueueOk (client (hub (ex st)) id)) →
  handleExec run ctx request st = handleExec run' ctx request st.
Proof.
  intros Hr Hq. unfold handleExec. destruct (negb (argc request =? 0)); [done|]. unfold clientStateFromContext.
  destruct (ctxClient ctx) as [id|]; [|done]. specialize (Hq id eq_refl).
  unfold hbind, hret, clientOf, hgets. cbv beta iota. destruct (negb _); [done|]. destruct (TxDirty _); [done|]. destruct (TxFailed _); [done|].
  unfold onHub, onEx. cbv beta iota. cbn [ex setHub hub DrainTransaction]. rewrite UnwatchAll_queue.
  rewrite (execLoop_ext (run ctx) (run' ctx)); [done|]. intros q st' Hin. apply Hr. unfold QueueOk in Hq. rewrite Forall_forall in Hq. by apply Hq.
Qed.

(** The checks read the state and leave it. *)
Lemma subscriptionContext_state ctx request st : (validateSubscriptionContext ctx request st).2 = st.
Proof.
  unfold validateSubscriptionContext. destruct (ctxClient ctx); [|done]. unfold hbind, clientOf, hgets. cbv beta iota.
  destruct (_ && _); [done|]. by destruct (_ && _).
Qed.
Lemma authContext_state ctx request st : (validateAuthContext ctx request st).2 = st.
Proof.
  unfold validateAuthContext, hbind, clientOf, hgets. cbv beta iota. destruct (decide _); [done|]. destruct (ctxClient ctx); [|done].
  destruct (Authenticated _); [done|]. by destruct (isAllowedUnauthenticatedCommand ctx request).
Qed.

(** A control command: the checks, then the dispatcher, from the same state. *)
Lemma execute_control run ctx request allowQueue st :
  isControl (Name request) = true →
  executeRequestWith run ctx request allowQueue st
  = withExecutionEffects (λ st0, match (validateSubscriptionContext ctx request st0).1 with
      | Err e => (Err e, st0)
      | Ok _ => match (validateAuthContext ctx request st0).1 with Err e => (Err e, st0) | Ok _ => dispatch run ctx request st0 end
      end) st.
Proof.
  intros Hc. unfold isControl in Hc. rewrite (control_static _ run) in Hc. unfold executeRequestWith, withExecutionEffects. f_equal. set (st0 := mkSt _ _ _).
  unfold hbind at 1. pose proof (subscriptionContext_state ctx request st0) as H1. destruct (validateSubscriptionContext ctx request st0) as [[u|e] s1]; cbn in H1; subst; [|done].
  unfold hbind at 1. pose proof (authContext_state ctx request st0) as H2. destruct (validateAuthContext ctx request st0) as [[u'|e] s2]; cbn in H2; subst; [|done].
  cbn [fst]. unfold hbind at 1. assert ((if allowQueue then maybeQueueRequest run ctx request else hret None) st0 = (Ok None, st0)) as ->; [|done].
  destruct allowQueue; [|done]. unfold maybeQueueRequest. destruct (ctxClient ctx); [|done]. unfold hbind, clientOf, hgets. by rewrite Hc, orb_true_r.
Qed.

(** One level of EXEC is all there is. *)
Lemma executeAt_depth d ctx request allowQueue st :
  (∀ id, ctxClient ctx = Some id → QueueOk (client (hub (ex st)) id)) →
  executeAt (S d) ctx request allowQueue st = executeAt 1 ctx request allowQueue st.
Proof.
  intros Hq. cbn [executeAt]. set (r := λ ctx request, executeAt d ctx request false). set (r' := λ ctx request, executeRequestWith _ ctx request false).
  destruct (decide (Name request = bs "EXEC")) as [He|Hne]; [|by rewrite (execute_static r r')].
  rewrite !execute_control by (by rewrite He). unfold withExecutionEffects. set (st0 := mkSt _ _ _).
  destruct (validateSubscriptionContext ctx request st0).1; [|done]. destruct (validateAuthContext ctx request st0).1; [|done].
  unfold dispatch. rewrite He. change (command ?x (bs "EXEC")) with (Some (controlSpec (inr (handleExec x)) (exactArgsValidator "EXEC" 0))).
  cbn [controlSpec validate]. unfold exactArgsValidator at 1 3. destruct (negb _); [done|]. unfold hbind at 1, hret. symmetry. unfold hbind at 1. cbv beta iota. symmetry.
  rewrite (runSpec_ext ctx request (controlSpec (inr (handleExec r)) _) (controlSpec (inr (handleExec r')) (exactArgsValidator "EXEC" 0)) st0); [done|done| |done].
  intros h [= <-]. exists (handleExec r'). split; [reflexivity|]. apply handleExec_ext; [|exact Hq].
  intros q st' Hn. unfold r, r'. destruct d as [|d]; [done|]. cbn [executeAt]. by rewrite (execute_static _ (λ _ _, hfail (plainError (bs "transaction nested too deeply")))).
Qed.
End Transactions.
