(* ===== verification/TransactionTheorems.v ===== *)
(** * Gates, queueing and EXEC

    Who may run what, what a command does inside MULTI, and what EXEC does with
    the queue. *)

From S2P Require Import Prelude Strconv GoLib GoText Float64 Resp Stream ValueObject Bitmap.
From S2P Require Import Store StoreOps StoreFacts StoreMemory StoreInvariant StoreTheorems StorePlain StoreFrames.
From S2P Require Import Clients Slowlog Replication CommandBase Commands Executor ExecutorFacts HandlerFacts ExecutorTheorems.

(** C17: Without the password nothing runs.  While a password is configured, a
    client that has not authenticated is refused every request but AUTH and
    PING, and the refusal changes nothing at all. *)
Theorem unauthenticated_refused (C : CommandEnv) ctx request allowQueue st id :
  requirePass (ex st) ≠ [] → ctxClient ctx = Some id → Authenticated (client (hub (ex st)) id) = false →
  IsReplicationOrigin ctx = false → Name request ≠ bs "AUTH" → Name request ≠ bs "PING" →
  ∃ e, executeRequestDetailed ctx request allowQueue st = (Err e, st)
    ∧ e ∈ [ErrNoAuthError; ErrSubscribedModeOnlyError; ErrMonitorModeOnlyError].
Proof.
  intros Hpass Ha Hau Ho Hn1 Hn2. unfold executeRequestDetailed. cbn [executeAt]. unfold executeRequestWith, withExecutionEffects.
  set (st0 := mkSt _ _ _). assert (mkSt (ex st0) (eff st) (pauses st0) = st) as Hst by (by destruct st).
  unfold hbind at 1. pose proof (subscriptionContext_state ctx request st0) as H1.
  assert (∀ e, (validateSubscriptionContext ctx request st0).1 = Err e → e = ErrSubscribedModeOnlyError ∨ e = ErrMonitorModeOnlyError) as H2.
  { intros e. unfold validateSubscriptionContext. rewrite Ha. unfold hbind, clientOf, hgets. cbv beta iota.
    destruct (_ && _); [intros [= <-]; by left|]. destruct (_ && _); [intros [= <-]; by right|done]. }
  destruct (validateSubscriptionContext ctx request st0) as [[u|e] s1]; cbn [snd fst] in H1, H2; subst s1.
  - unfold hbind at 1. unfold validateAuthContext, hbind at 1, hgets. change (requirePass (ex st0)) with (requirePass (ex st)).
    rewrite decide_False, Ha by done. unfold hbind at 1, clientOf, hgets. change (client (hub (ex st0)) id) with (client (hub (ex st)) id). rewrite Hau.
    unfold isAllowedUnauthenticatedCommand. rewrite Ho, !bool_decide_eq_false_2 by done. cbn [orb]. unfold hfail. rewrite Hst.
    eexists. split; [reflexivity|]. by left.
  - rewrite Hst. exists e. split; [done|]. destruct (H2 e eq_refl) as [->| ->]; set_solver.
Qed.

Lemma unauthenticated_refused_witness :
  let e := SetRequirePass (bs "secret") demoServer in
  let st := mkSt e noEffects [] in
  ∃ err, @executeRequestDetailed demoCommandEnv (asClient 1) (mkRequest (bs "GET") [bs "k"]) true st = (Err err, st)
    ∧ err ∈ [ErrNoAuthError; ErrSubscribedModeOnlyError; ErrMonitorModeOnlyError].
Proof.
  intros e st. apply (unauthenticated_refused demoCommandEnv (asClient 1) (mkRequest (bs "GET") [bs "k"]) true st 1); [done|done|vm_compute; reflexivity|done|done|done].
Defined.

(** ** Validators only read the clock *)

Section Validators.
Context {C : CommandEnv}.

Definition OnlyTicks {A} (m : H A) : Prop := ∀ st, ∃ n, (m st).2 = Nat.iter n ticked st.

Lemma OnlyTicks_pure {A} (m : H A) : (∀ st, (m st).2 = st) → OnlyTicks m.
Proof. intros Hm st. exists O. apply Hm. Qed.
Lemma OnlyTicks_bind {A B} (m : H A) (k : A → H B) : OnlyTicks m → (∀ a, OnlyTicks (k a)) → OnlyTicks (hbind m k).
Proof.
  intros Hm Hk st. destruct (Hm st) as [n Hn]. unfold hbind. destruct (m st) as [[a|e] st1]; cbn [snd] in *; subst st1; [|by exists n].
  destruct (Hk a (Nat.iter n ticked st)) as [n' Hn']. exists (n' + n)%nat. by rewrite Hn', Nat.iter_add.
Qed.
Lemma OnlyTicks_now : OnlyTicks now_.
Proof. intros st. by exists 1%nat. Qed.
Lemma OnlyTicks_ret {A} (a : A) : OnlyTicks (hret a).
Proof. by apply OnlyTicks_pure. Qed.
Lemma OnlyTicks_fail {A} e : OnlyTicks (hfail (A := A) e).
Proof. by apply OnlyTicks_pure. Qed.
Lemma OnlyTicks_lift {A} (r : result cmdError A) : OnlyTicks (hlift r).
Proof. by apply OnlyTicks_pure. Qed.

Ltac only_ticks :=
  repeat first
    [ solve [auto using OnlyTicks_ret, OnlyTicks_fail, OnlyTicks_lift, OnlyTicks_now]
    | apply OnlyTicks_bind; [|intros ?]
    | match goal with |- OnlyTicks (if ?b then _ else _) => destruct b end
    | match goal with |- OnlyTicks (match ?x with _ => _ end) => destruct x end ].

Lemma OnlyTicks_channels channels : OnlyTicks (validateNonEmptyPubSubChannels channels).
Proof. induction channels; cbn [validateNonEmptyPubSubChannels]; only_ticks. Qed.
Lemma OnlyTicks_waitArgs args : OnlyTicks (waitArgsLoop args).
Proof. induction args; cbn [waitArgsLoop]; only_ticks. Qed.

Lemma validators_only_tick (run : Context_ → Request → H ExecuteResult) : Forall (λ p, ∀ request, OnlyTicks (validate p.2 request)) (commandSpecs run).
Proof.
  unfold commandSpecs. repeat (apply Forall_cons; split; [intros request; cbn [snd validate readSpec writeSpec controlSpec detailedSpec];
    unfold exactArgsValidator, maxArgsValidator, minArgsValidator, validateWatchRequest, validateSubscribeRequest, validateUnsubscribeRequest,
    validatePublishRequest, validateSetRequest, validateSetBitRequest, validateGetBitRequest, validateBitCountRequest, validateLRangeRequest,
    validateLPopRequest, validateRPopRequest, validatePopRequest, validateZAddRequest, validateZRangeRequest, validateGeoAddRequest,
    validateGeoDistRequest, validateGeoRadiusRequest, validateXAddRequest, validateXReadRequest, validateHSetRequest,
    validateReplConfRequest, validatePSyncRequest, validateWaitRequest, validateInfoRequest, validateSlowlogRequest, streamIDCheck, checked, parseExpiry;
    cbn zeta; only_ticks; first [apply OnlyTicks_channels|apply OnlyTicks_waitArgs]|]). by apply Forall_nil.
Qed.

Lemma queueable_only_ticks run request : OnlyTicks (validateQueueableRequest run request).
Proof.
  unfold validateQueueableRequest. destruct (command run (Name request)) as [spec|] eqn:E; [|apply OnlyTicks_fail].
  apply lookupSpec_In in E as (s & Hs & _). pose proof (validators_only_tick run) as Hv. rewrite Forall_forall in Hv. apply (Hv _ Hs).
Qed.

Lemma iter_ticked n st : shards (store (ex (Nat.iter n ticked st))) = shards (store (ex st)) ∧ hub (ex (Nat.iter n ticked st)) = hub (ex st)
  ∧ eff (Nat.iter n ticked st) = eff st.
Proof. induction n as [|n IH]; [done|]. cbn. exact IH. Qed.
End Validators.

(** C16: Inside MULTI a command is only queued.  A request that is not a
    transaction command leaves the keyspace and every other client alone; it is
    appended to the client's queue and answered QUEUED, or refused with an error
    that makes the coming EXEC abort. *)
Theorem multi_only_queues (C : CommandEnv) ctx request st id c :
  ctxClient ctx = Some id → clients (hub (ex st)) !! id = Some c →
  InTransaction c = true → Passes (ex st) c →
  isControl (Name request) = false →
  let '(r, st') := executeRequestDetailed ctx request true st in
  shards (store (ex st')) = shards (store (ex st))
  ∧ (∀ id', id' ≠ id → clients (hub (ex st')) !! id' = clients (hub (ex st)) !! id')
  ∧ (r = Ok (SingleResponse (SimpleString (bs "QUEUED")))
       ∧ clients (hub (ex st')) !! id = Some (EnqueueCommand (Name request) (Args request) c)
     ∨ (∃ e, r = Err e) ∧ clients (hub (ex st')) !! id = Some (MarkTransactionDirty c)).
Proof.
  intros Ha Hc Ht Hp Hctl. unfold executeRequestDetailed. cbn [executeAt]. set (run := λ _ _, executeRequestWith _ _ _ false).
  unfold executeRequestWith, withExecutionEffects. set (st0 := mkSt _ _ _). rewrite <- (client_lookup _ _ _ Hc) in Ht, Hp.
  unfold hbind at 1. rewrite (subscription_open ctx request st0 id Ha Hp). unfold hbind at 1. rewrite (auth_open ctx request st0 id Ha Hp).
  unfold hbind at 1. unfold isControl in Hctl. rewrite (control_static _ run) in Hctl. unfold maybeQueueRequest. rewrite Ha.
  unfold hbind at 1, clientOf, hgets. change (client (hub (ex st0)) id) with (client (hub (ex st)) id). rewrite Ht, Hctl. cbn [negb orb].
  destruct (queueable_only_ticks run request st0) as [n Hn]. destruct (iter_ticked n st0) as (Hsh & Hhub & _).
  destruct (validateQueueableRequest run request st0) as [[u|e] s1]; cbn [snd] in Hn; subst s1.
  - unfold hbind, onHub, onEx, hret. cbn [ex setHub hub store]. rewrite Hsh, Hhub. split_and!; [done| |left; split; [done|]].
    + intros id' Hne. by rewrite lookup_onClient, decide_False.
    + change (hub (ex st0)) with (hub (ex st)). by rewrite lookup_onClient, decide_True, Hc.
  - unfold hbind, onHub, onEx, hfail. cbn [ex setHub hub store]. rewrite Hsh, Hhub. split_and!; [done| |right; split; [by eexists|]].
    + intros id' Hne. by rewrite lookup_onClient, decide_False.
    + change (hub (ex st0)) with (hub (ex st)). by rewrite lookup_onClient, decide_True, Hc.
Qed.

Lemma multi_only_queues_witness :
  let C := demoCommandEnv in
  let st := mkSt watchedServer noEffects [] in
  let '(r, st') := @executeRequestDetailed C (asClient 1) (mkRequest (bs "DEL") [bs "stock"]) true st in
  r = Ok (SingleResponse (SimpleString (bs "QUEUED"))) ∧ shards (store (ex st')) = shards (store (ex st)).
Proof.
  intros C st. pose proof (multi_only_queues C (asClient 1) (mkRequest (bs "DEL") [bs "stock"]) st 1 (client (hub watchedServer) 1) eq_refl) as H.
  assert (clients (hub (ex st)) !! 1%nat = Some (client (hub watchedServer) 1)) as Hc by (vm_compute; reflexivity). specialize (H Hc).
  assert (InTransaction (client (hub watchedServer) 1) = true) as Ht by (vm_compute; reflexivity). specialize (H Ht).
  assert (Passes (ex st) (client (hub watchedServer) 1)) as Hp by (split; [vm_compute; reflexivity..|left; vm_compute; reflexivity]). specialize (H Hp eq_refl).
  assert ((@executeRequestDetailed C (asClient 1) (mkRequest (bs "DEL") [bs "stock"]) true st).1 = Ok (SingleResponse (SimpleString (bs "QUEUED")))) as Hr
    by (vm_compute; reflexivity).
  destruct (@executeRequestDetailed C (asClient 1) (mkRequest (bs "DEL") [bs "stock"]) true st) as [r st']. split; [exact Hr|apply H].
Defined.

(** ** EXEC runs the queue *)

Section Exec.
Context {C : CommandEnv}.

(** The queued requests one after the other, each to its end. *)
Fixpoint runQueue (ctx : Context_) (queued : list QueuedCommand) (st : St) : list (result cmdError ExecuteResult) * St :=
  match queued with
  | [] => ([], st)
  | q :: queued' =>
      let '(r, st) := executeAt 0 ctx (mkRequest (qName q) (qArgs q)) false st in
      let '(rs, st) := runQueue ctx queued' st in
      (r :: rs, st)
  end.

(** The place of one request in the reply of EXEC, and the frames it adds. *)
Definition replyOf (r : result cmdError ExecuteResult) : Value :=
  match r with
  | Err e => responseErrorValue e
  | Ok result => match Responses result with [v] => v | _ => ErrorValue (bs "ERR queued command returned an invalid response") end
  end.
Definition framesOf (frames : ExecuteResult → list Value) (r : result cmdError ExecuteResult) : list Value :=
  match r with Ok result => match Responses result with [v] => frames result | _ => [] end | Err _ => [] end.

Lemma runQueue_length ctx queued : ∀ st, length (runQueue ctx queued st).1 = length queued.
Proof.
  induction queued as [|q queued IH]; intros st; cbn [runQueue]; [done|]. destruct (executeAt _ _ _ _ st) as [r st1].
  specialize (IH st1). destruct (runQueue ctx queued st1) as [rs st2]. cbn in *. by rewrite IH.
Qed.

Lemma execLoop_queue ctx queued : ∀ responses prop dur st,
  Forall (λ r, r ≠ Err ctxError) (runQueue ctx queued st).1 →
  execLoop (λ request, executeAt 0 ctx request false) queued (responses, prop, dur) st
  = (Ok (responses ++ (replyOf <$> (runQueue ctx queued st).1), prop ++ mjoin (framesOf Propagation <$> (runQueue ctx queued st).1),
         dur ++ mjoin (framesOf Durability <$> (runQueue ctx queued st).1)), (runQueue ctx queued st).2).
Proof.
  induction queued as [|q queued IH]; intros responses prop dur st; cbn [runQueue execLoop]; [by rewrite !app_nil_r|].
  destruct (executeAt 0 ctx _ false st) as [r st1]. specialize (λ a b c, IH a b c st1). destruct (runQueue ctx queued st1) as [rs st2]. cbn [fst snd fmap list_fmap mjoin list_join concat].
  intros [Hr Hrs]%Forall_cons. specialize (λ a b c, IH a b c Hrs). cbn [fst snd] in IH.
  destruct r as [result|e]; cbn [replyOf framesOf].
  - destruct (Responses result) as [|r1 [|r2 rr]]; rewrite IH; cbn [app]; by rewrite <- ?app_assoc.
  - destruct e; try done; rewrite IH; cbn [app]; by rewrite <- ?app_assoc.
Qed.

Lemma executeAt_eff d ctx request q st : eff (executeAt d ctx request q st).2 = eff st.
Proof. destruct d; cbn [executeAt]; unfold executeRequestWith, withExecutionEffects; by destruct (hbind _ _ _) as [r st']. Qed.

Lemma runQueue_eff ctx queued : ∀ st, eff (runQueue ctx queued st).2 = eff st.
Proof.
  induction queued as [|q queued IH]; intros st; cbn [runQueue]; [done|]. pose proof (executeAt_eff 0 ctx (mkRequest (qName q) (qArgs q)) false st) as He.
  destruct (executeAt _ _ _ _ st) as [r st1]. specialize (IH st1). destruct (runQueue ctx queued st1) as [rs st2]. cbn in *. congruence.
Qed.

(** The state EXEC runs the queue in: the watch and the transaction are over. *)
Definition drained (id : nat) (st : St) : St :=
  mkSt (setHub (onClient id (λ c, (DrainTransaction c).2) (UnwatchAll id (hub (ex st)))) (ex (ticked st))) noEffects (pauses st).
End Exec.


(** Client 1 has queued a request that will fail between two that will not. *)
Definition queuedServer : Executor :=
  @runCommands demoCommandEnv [(asClient 1, line ["MULTI"]); (asClient 1, line ["SET"; "n"; "1"]); (asClient 1, line ["LPUSH"; "n"; "x"]); (asClient 1, line ["INCR"; "n"])] demoServer.


(** ** SET and the frame it sends *)

Section SetFrame.
Context {C : CommandEnv}.

(** The checks let the request through and nothing queues it. *)
Definition Open (ctx : Context_) (e : Executor) : Prop :=
  match ctxClient ctx with None => True | Some id => Passes e (client (hub e) id) ∧ InTransaction (client (hub e) id) = false end.

Lemma open_dispatch run ctx request allowQueue st :
  Open ctx (ex st) → executeRequestWith run ctx request allowQueue st = withExecutionEffects (dispatch run ctx request) st.
Proof.
  unfold Open. destruct (ctxClient ctx) as [id|] eqn:Ha.
  - intros [Hp Ht]. eapply gates_open; [exact Ha|exact Hp|by right; left].
  - intros _. unfold executeRequestWith, withExecutionEffects. f_equal. unfold hbind at 1, validateSubscriptionContext. rewrite Ha.
    unfold hbind at 1, hret at 1. unfold validateAuthContext, hbind at 1, hgets. rewrite Ha. assert (∀ s : St, (if decide (requirePass (ex st) = []) then hret tt else hret tt) s = (Ok (E := cmdError) tt, s)) as Hi by (intros; by destruct (decide _)).
    cbn [ex]. rewrite Hi. unfold hbind. assert (∀ s, (if allowQueue then maybeQueueRequest run ctx request else hret None) s = (Ok None, s)) as ->; [|done].
    intros s. destruct allowQueue; [|done]. unfold maybeQueueRequest. by rewrite Ha.
Qed.

Definition setRequest (key value : bytes) (options : list bytes) : Request := mkRequest (bs "SET") (key :: value :: options).

(** The frame of a SET that stored the deadline [e]. *)
Definition setFrame (key value : bytes) (options : list bytes) (e : Z) : Value :=
  if e <=? 0 then propagationFrame (setRequest key value options)
  else arr [text (bs "SET"); bulk key; bulk value; text (bs "PXAT"); bulk (FormatInt e)].

(** A SET whose options are valid at the clock readings it takes. *)
Lemma set_effect ctx st key value options e0 e :
  ServerInv (ex st) → Plain (ex st) → Open ctx (ex st) →
  let t := ticks (store (ex st)) in
  ParseExpiryMillis (clock t) options = Ok e0 → ParseExpiryMillis (clock (S (S t))) options = Ok e →
  ∃ st' v, executeRequestDetailed ctx (setRequest key value options) true st
      = (Ok (mkResult [okReply] [] (if IsReplicationOrigin ctx then [] else [setFrame key value options e]) [setFrame key value options e] false), st')
    ∧ (∀ k, lookupKey (store (ex st')) k = if decide (k = key) then Some v else lookupKey (store (ex st)) k)
    ∧ contentOf v = (CString value, e).
Proof.
  intros Hi Hpl Hop t He0 He. unfold executeRequestDetailed. cbn [executeAt]. rewrite open_dispatch by done. unfold withExecutionEffects, dispatch.
  match goal with |- context [command ?run (Name _)] => set (r := run) end. set (request := setRequest key value options).
  change (command r (Name request)) with (Some (mkSpec (inl handleSet) validateSetRequest false true true (Some rewriteSetFrame))).
  set (st0 := mkSt (ex st) noEffects (pauses st)). unfold hbind at 1. cbn [validate]. unfold validateSetRequest at 1.
  assert ((argc request <? 2) = false) as -> by (apply Z.ltb_ge; unfold argc, request, setRequest, zlen; cbn; lia).
  unfold hbind at 1, parseExpiry at 1, hbind at 1. rewrite now_eq. unfold hlift. change (drop 2 (Args request)) with options.
  change (clock (ticks (store (ex st0)))) with (clock t). rewrite He0. cbn [map_err]. unfold hret at 1.
  unfold runSpec, hbind at 1. rewrite now_eq. cbn [handler]. unfold hbind at 1, handleSet at 1. unfold hbind at 1, parseExpiry, hbind at 1. rewrite now_eq. unfold hlift.
  change (drop 2 (Args request)) with options. change (clock (ticks (store (ex (ticked (ticked st0)))))) with (clock (S (S t))). rewrite He. cbn [map_err].
  change (arg 0 request) with key. change (arg 1 request) with value.
  set (st1 := ticked (ticked (ticked st0))).
  assert (StoreInv (store (ex st1))) as Hs1 by exact (tick_inv _ (tick_inv _ (tick_inv _ (sv_store _ Hi)))).
  destruct (Set_plain key value e (store (ex st1)) Hs1 Hpl) as (s2 & v & Hset & Hk & Kv & Sv & Ev & _).
  unfold hbind at 1, storeCall, hbind at 1, onStoreM at 1. rewrite Hset. unfold hlift at 1. cbn [map_err].
  unfold hbind at 1, onEff at 1. unfold hbind at 1. change (touchWatchKeys [key]) with (onHub (WatchRegistry_Touch [key])). unfold onHub at 1, onEx at 1.
  unfold hbind at 1. change (recordEvictedKeys ctx []) with (hret tt). unfold hret at 1 2. cbn [ex eff pauses].
  unfold hbind at 1. rewrite now_eq. unfold hbind at 1.
  match goal with |- context [recordSlowCommand ctx request ?t ?d ?s] => destruct (recordSlow_eq ctx request t d s) as (sl & ->) end.
  cbn [ex eff pauses ticked setSlowlog setStore setHub store hub executionFrames]. unfold executionFrames. cbn [rewriteFrame propagates durable setExpiryMillis propagation durability noEffects].
  eexists _, v. split_and!.
  - rewrite !app_nil_r. unfold rewriteSetFrame, setFrame. cbn [setExpiryMillis]. destruct (e <=? 0), (IsReplicationOrigin ctx); reflexivity.
  - intros k. cbn. change (lookupKey (tick s2) k) with (lookupKey s2 k). rewrite (kc_lookup _ _ _ _ Hk). case_decide; [done|]. reflexivity.
  - unfold contentOf. by rewrite Kv, Sv, Ev.
Qed.
End SetFrame.

(** SET is sent on with an absolute deadline.  A successful SET, with a
    relative TTL or none, stores the value with a deadline and hands one frame to
    the append-only file (and to the replicas); running that frame on any other
    server, at any later time, gives the key the same string and the same
    deadline. *)
Theorem set_frame_replays (C : CommandEnv) ctx st key value options e0 e ctx2 st2 :
  ServerInv (ex st) → Plain (ex st) → Open ctx (ex st) →
  ParseExpiryMillis (clock (ticks (store (ex st)))) options = Ok e0 →
  ParseExpiryMillis (clock (S (S (ticks (store (ex st)))))) options = Ok e →
  options = [] ∨ 0 < e ≤ max_int64 →
  ServerInv (ex st2) → Plain (ex st2) → Open ctx2 (ex st2) →
  ∃ result st' v frame result2 st2' v2,
    executeRequestDetailed ctx (setRequest key value options) true st = (Ok result, st')
    ∧ lookupKey (store (ex st')) key = Some v ∧ contentOf v = (CString value, e)
    ∧ Durability result = [frame] ∧ Propagation result = (if IsReplicationOrigin ctx then [] else [frame])
    ∧ ExecuteDetailed ctx2 frame st2 = (Ok result2, st2')
    ∧ lookupKey (store (ex st2')) key = Some v2 ∧ contentOf v2 = (CString value, e).
Proof.
  intros Hi Hpl Hop He0 He Hrange Hi2 Hpl2 Hop2.
  destruct (set_effect ctx st key value options e0 e Hi Hpl Hop He0 He) as (st' & v & Hx & Hl & Hv).
  assert (∃ options2, DecodeRequest (setFrame key value options e) = Ok (setRequest key value options2) ∧ ∀ now, ParseExpiryMillis now options2 = Ok e) as (options2 & Hd & Ho).
  { unfold setFrame. destruct (Z.leb_spec e 0).
    - destruct Hrange as [->|?]; [|lia]. exists []. split; [reflexivity|]. intros now. cbn in He |- *. congruence.
    - destruct Hrange as [->|Hr]; [cbn in He; injection He as <-; lia|]. exists [bs "PXAT"; FormatInt e]. split; [reflexivity|]. intros now.
      unfold ParseExpiryMillis. rewrite ParseInt_FormatInt by (unfold min_int64, max_int64 in *; lia). destruct (Z.leb_spec e 0); [lia|]. reflexivity. }
  destruct (set_effect ctx2 st2 key value options2 e e Hi2 Hpl2 Hop2 (Ho _) (Ho _)) as (st2' & v2 & Hx2 & Hl2 & Hv2).
  eexists _, st', v, (setFrame key value options e), _, st2', v2. split_and!; [exact Hx| |done|done|done| | |done].
  - by rewrite Hl, decide_True.
  - unfold ExecuteDetailed. rewrite Hd. exact Hx2.
  - by rewrite Hl2, decide_True.
Qed.

Lemma set_frame_replays_witness :
  let C := demoCommandEnv in
  let e := match ParseExpiryMillis (clock 2) [bs "EX"; bs "10"] with Ok e => e | Err _ => 0 end in
  ∃ result st' v frame result2 st2' v2,
    @executeRequestDetailed C (asClient 1) (setRequest (bs "k") (bs "v") [bs "EX"; bs "10"]) true (mkSt demoServer noEffects []) = (Ok result, st')
    ∧ lookupKey (store (ex st')) (bs "k") = Some v ∧ contentOf v = (CString (bs "v"), e)
    ∧ Durability result = [frame] ∧ Propagation result = [frame]
    ∧ @ExecuteDetailed C (mkContext None true false) frame (mkSt watchedServer noEffects []) = (Ok result2, st2')
    ∧ lookupKey (store (ex st2')) (bs "k") = Some v2 ∧ contentOf v2 = (CString (bs "v"), e).
Proof.
  intros C e.
  apply (set_frame_replays C (asClient 1) (mkSt demoServer noEffects []) (bs "k") (bs "v") [bs "EX"; bs "10"]
    (match ParseExpiryMillis (clock 0) [bs "EX"; bs "10"] with Ok e => e | Err _ => 0 end) e (mkContext None true false) (mkSt watchedServer noEffects [])).
  - apply demoServer_inv.
  - vm_compute. reflexivity.
  - split; [|vm_compute; reflexivity]. split; [vm_compute; reflexivity..|]. left. reflexivity.
  - vm_compute. reflexivity.
  - vm_compute. reflexivity.
  - right. split; [apply Z.ltb_lt|apply Z.leb_le]; vm_compute; reflexivity.
  - apply watchedServer_inv.
  - vm_compute. reflexivity.
  - exact I.
Defined.
