(* ===== verification/Aof.v ===== *)
(** * The append-only file: policy, loader and rewrite

    Models [types.go], [loader.go] and [rewrite.go] of [internal/aof].

    The loader parses the file with the stream parser and hands each value to
    [replay]; the file is the bytes that reading it to its end yields.  The
    rewrite turns a snapshot of the keyspace into commands. *)

From S2P Require Import Prelude Strconv GoLib GoText Float64 CompactZSet Strfloat Resp RespDecode RespParser Stream ValueObject Store StoreOps Clients Replication.

(** ** types.go *)

Inductive Policy := PolicyAlways | PolicyEverysec | PolicyNo.
#[global] Instance Policy_eq_dec : EqDecision Policy.
Proof. solve_decision. Defined.

Record LoadStats := mkLoadStats { ReplayedCommands : Z; TruncatedTail : bool }.
Record RewriteStats := mkRewriteStats { Keys : Z; Commands_ : Z }.

Section Policy.
Context {U : Unicode}.

(** [None] is [ErrInvalidPolicy]. *)
Definition ParsePolicy (raw : bytes) : option Policy :=
  let name := strings_ToLower (strings_TrimSpace raw) in
  if decide (name = [] ∨ name = bs "everysec") then Some PolicyEverysec
  else if decide (name = bs "always") then Some PolicyAlways
  else if decide (name = bs "no") then Some PolicyNo
  else None.

Definition Policy_String (p : Policy) : bytes :=
  match p with PolicyAlways => bs "always" | PolicyNo => bs "no" | PolicyEverysec => bs "everysec" end.
End Policy.

(** ** loader.go *)

Definition isRecoverableTruncation (e : protoError) : bool :=
  bool_decide (errCause e = ErrEOF) || bool_decide (errCause e = ErrUnexpectedEOF) || bool_decide (errCause e = ErrMissingCRLF).

Inductive loadError (E : Type) := LoadCanceled | ParseError (e : protoError) | ReplayError (e : E).
Arguments LoadCanceled {E}.
Arguments ParseError {E} e.
Arguments ReplayError {E} e.

Section Load.
Context {S E : Type} (replay : Value → S → option E * S).

(** The loop of [LoadFile], and its statistics also when it fails; every round
    consumes a byte, so the length of the file bounds the rounds.  [cancelled n]
    is whether the context is done when [n] commands have been replayed. *)
Fixpoint loadLoop (cancelled : Z → bool) (fuel : nat) (data : bytes) (stats : LoadStats) (s : S) : LoadStats * option (loadError E) * S :=
  match fuel with
  | O => (stats, None, s)
  | Datatypes.S fuel' =>
      if cancelled (ReplayedCommands stats) then (stats, Some LoadCanceled, s) else
      match Parse ErrEOF data with
      | (Err e, _) =>
          if bool_decide (errCause e = ErrEOF) then (stats, None, s)
          else if isRecoverableTruncation e then (mkLoadStats (ReplayedCommands stats) true, None, s)
          else (stats, Some (ParseError e), s)
      | (Ok value, data) =>
          match replay value s with
          | (Some e, s) => (stats, Some (ReplayError e), s)
          | (None, s) => loadLoop cancelled fuel' data (mkLoadStats (ReplayedCommands stats + 1) (TruncatedTail stats)) s
          end
      end
  end.

Definition LoadFileCtx (cancelled : Z → bool) (data : bytes) (s : S) : LoadStats * option (loadError E) * S :=
  loadLoop cancelled (Datatypes.S (length data)) data (mkLoadStats 0 false) s.
(** A load that is not cancelled. *)
Definition LoadFile : bytes → S → LoadStats * option (loadError E) * S := LoadFileCtx (λ _, false).
End Load.

(** ** rewrite.go *)

Definition bulkString (value : bytes) : Value := bulk value.
Definition bulkBytes (value : bytes) : Value := bulk value.
Definition rewriteCommand (name : string) (args : list Value) : Value := arr (text (bs name) :: args).

(** [sort.Slice] by key or field: the keys of a snapshot and the fields of a hash
    are distinct, so the order is determined. *)
Definition fieldLe (a b : bytes * bytes) : Prop := stringLe a.1 b.1.
#[global] Instance fieldLe_dec : RelDecision fieldLe.
Proof. intros a b. unfold fieldLe. apply _. Defined.
Definition entryLe (a b : SnapshotEntry) : Prop := stringLe (snKey a) (snKey b).
#[global] Instance entryLe_dec : RelDecision entryLe.
Proof. intros a b. unfold entryLe. apply _. Defined.

Definition rewriteFramesForEntry (entry : SnapshotEntry) (now : Z) : list Value :=
  let key := snKey entry in
  match snPayload entry with
  | SnapString data =>
      if (0 <? snExpiresAt entry) && (snExpiresAt entry <=? now) then []
      else
        let args := [bulkString key; bulkBytes data] in
        if 0 <? snExpiresAt entry then
          let ttl := snExpiresAt entry - now in
          if ttl <=? 0 then [] else [rewriteCommand "SET" (args ++ [bulkString (bs "PX"); bulkString (FormatInt ttl)])]
        else [rewriteCommand "SET" args]
  | SnapList items =>
      if zlen items =? 0 then [] else [rewriteCommand "RPUSH" (bulkString key :: (bulkBytes <$> items))]
  | SnapHash pairs =>
      if zlen pairs =? 0 then []
      else [rewriteCommand "HSET" (bulkString key :: (p ← merge_sort fieldLe pairs; [bulkString p.1; bulkBytes p.2]))]
  | SnapSet members =>
      if zlen members =? 0 then [] else [rewriteCommand "SADD" (bulkString key :: (bulkString <$> merge_sort stringLe members))]
  | SnapZSet es =>
      if zlen es =? 0 then []
      else [rewriteCommand "ZADD" (bulkString key :: (e ← es; [bulkString (FormatFloat e.2); bulkString e.1]))]
  | SnapStream es =>
      (λ e, rewriteCommand "XADD" (bulkString key :: bulkString (ID e) :: (bulkBytes <$> Values e))) <$> es
  end.

(** The writer is any [io.Writer]; the statistics are those of the entries begun
    when a write fails. *)
Section GenerateRewrite.
Context {W : Type} (Write : W → bytes → W * option protoError).

Fixpoint writeFrames (w : W) (frames : list Value) : W * option protoError :=
  match frames with
  | [] => (w, None)
  | frame :: frames =>
      match WriteValue Write w frame with
      | (w, Some e) => (w, Some e)
      | (w, None) => writeFrames w frames
      end
  end.

Fixpoint rewriteLoop (sorted : list SnapshotEntry) (now : Z) (stats : RewriteStats) (w : W)
    : W * (RewriteStats * option protoError) :=
  match sorted with
  | [] => (w, (stats, None))
  | entry :: sorted =>
      let frames := rewriteFramesForEntry entry now in
      if bool_decide (frames = []) then rewriteLoop sorted now stats w
      else
        let stats := mkRewriteStats (Keys stats + 1) (Commands_ stats + zlen frames) in
        match writeFrames w frames with
        | (w, Some e) => (w, (stats, Some e))
        | (w, None) => rewriteLoop sorted now stats w
        end
  end.

Definition GenerateRewrite (entries : list SnapshotEntry) (now : Z) (w : W) : W * (RewriteStats * option protoError) :=
  rewriteLoop (merge_sort entryLe entries) now (mkRewriteStats 0 0) w.
End GenerateRewrite.

(** The commands it writes, in order. *)
Definition rewriteFrames (entries : list SnapshotEntry) (now : Z) : list Value :=
  entry ← merge_sort entryLe entries; rewriteFramesForEntry entry now.
