(* ===== verification/AofFacts.v ===== *)
(** * Reading an append-only file back

    A file of whole command frames, then a frame torn anywhere, is loaded by
    replaying exactly the whole frames, in order. *)

From S2P Require Import Prelude Strconv Resp RespDecode RespDecodeFacts RespParser Replication Aof.

(** ** The frames commands are logged as *)

Definition wordOf (v : Value) : option bytes :=
  match v with BulkString d false | TextBulkString d false => Some d | _ => None end.

Definition wordOk (v : Value) : bool :=
  match wordOf v with Some d => zlen d <=? maxBulkStringLength | None => false end.

(** A command: an array of strings within the parser's limits. *)
Definition frameOk (v : Value) : bool :=
  match v with Array ws false => (zlen ws <=? maxArrayElements) && forallb wordOk ws | _ => false end.

(** The error a torn frame ends with. *)
Definition tornError (e : protoError) : Prop := errCause e = ErrEOF ∨ errCause e = ErrUnexpectedEOF.

Definition torn {A} (r : result protoError A * bytes) : Prop := ∃ e rest, r = (Err e, rest) ∧ tornError e.

Lemma torn_recoverable e : tornError e → isRecoverableTruncation e = true.
Proof. unfold isRecoverableTruncation. intros [-> | ->]; done. Qed.

Lemma tornError_wrap c e : tornError (Wrapped c e) ↔ tornError e.
Proof. done. Qed.

(** A proper prefix of [a ++ b] ends inside [a] or inside [b]. *)
Lemma prefix_split (p q a b : bytes) :
  p ++ q = a ++ b → q ≠ [] →
  (∃ q', p ++ q' = a ∧ q' ≠ []) ∨ (∃ p', p = a ++ p' ∧ p' ++ q = b).
Proof.
  intros E Hq. apply app_eq_app in E as [l [[-> Hb]|[Ha ->]]].
  - right. by exists l.
  - destruct l as [|c l]; [|left; by exists (c :: l)].
    rewrite app_nil_r in Ha. subst p. right. exists []. by rewrite app_nil_r.
Qed.

(** ** Header lines *)

Lemma uint_digits_length fuel : ∀ n acc, (length (uint_digits fuel n acc) ≤ fuel + length acc)%nat.
Proof.
  induction fuel as [|fuel IH]; intros n acc; cbn [uint_digits]; [lia|].
  case_match; [cbn [length]; lia|]. etrans; [apply IH|]. cbn [length]. lia.
Qed.

Lemma FormatInt_length z : (length (FormatInt z) ≤ 21)%nat.
Proof.
  unfold FormatInt, FormatUint. case_match; rewrite ?length_app; change (length (bs "-")) with 1%nat.
  - pose proof (uint_digits_length 20 (- z) []). cbn [length] in *. lia.
  - pose proof (uint_digits_length 20 z []). cbn [length] in *. lia.
Qed.

Lemma header_line z rest : readLineBytes ErrEOF (FormatInt z ++ crlf ++ rest) = (Ok (FormatInt z), rest).
Proof.
  apply readLineBytes_crlf; [apply FormatInt_no_LF|].
  pose proof (FormatInt_length z). unfold zlen, maxLineLength. lia.
Qed.

Lemma header_torn z p q : p ++ q = FormatInt z ++ crlf → q ≠ [] → readLineBytes ErrEOF p = (Err ErrEOF, []).
Proof.
  intros E Hq. pose proof (FormatInt_length z) as Hl. pose proof (FormatInt_no_LF z) as Hn.
  pose proof (f_equal length E) as El. rewrite !length_app in El. change (length crlf) with 2%nat in El.
  assert (LF ∉ p) as Hp.
  { destruct q as [|c q _] using rev_ind; [done|]. rewrite app_assoc in E. unfold crlf in E.
    rewrite (app_assoc _ [CR] [LF] : FormatInt z ++ [CR; LF] = (FormatInt z ++ [CR]) ++ [LF]) in E.
    apply app_inj_tail in E as [E _]. intros Hin.
    assert (LF ∈ FormatInt z ++ [CR]) as [?|Hc]%elem_of_app by (rewrite <- E; apply elem_of_app; by left); [done|].
    apply list_elem_of_singleton in Hc. done. }
  unfold readLineBytes, ReadSlice.
  rewrite take_ge by (unfold bufioSize; lia). rewrite (proj2 (indexByte_None _ _)) by done.
  by rewrite decide_False by (unfold bufioSize; lia).
Qed.

(** ** Words *)

Lemma wordOk_wire e : wordOk e = true →
  ∃ d : bytes, zlen d ≤ maxBulkStringLength ∧ wireBytes e = "$"%byte :: FormatInt (zlen d) ++ crlf ++ d ++ crlf ∧ wireValue e = BulkString d false.
Proof.
  unfold wordOk, wordOf. intros H. destruct e as [?|?|?|d [|]|d [|]|? ?|?| |]; try done; bool_to_prop; exists d; (split_and!; [done| |done]);
    unfold wireBytes; cbn [appendEncodedValue]; unfold appendPrefixedIntLine; cbn [app]; by rewrite <- !app_assoc.
Qed.

Lemma length_is_int64 {A} (l : list A) n : n ≤ 2 ^ 32 → zlen l ≤ n → zlen l ≤ max_int64.
Proof. unfold max_int64. lia. Qed.

Lemma parseBulkString_header (d rest : bytes) :
  zlen d ≤ maxBulkStringLength →
  parseBulkString ErrEOF (FormatInt (zlen d) ++ crlf ++ rest) =
  match ReadFull ErrEOF (zlen d) rest with
  | (Err e, s) => (Err (Wrapped CtxBulkPayload e), s)
  | (Ok payload, s) =>
      match expectCRLF ErrEOF s with
      | (Err e, s) => (Err (Wrapped CtxBulkCRLF e), s)
      | (Ok _, s) => (Ok (BulkString payload false), s)
      end
  end.
Proof.
  intros Hd. unfold parseBulkString. rewrite header_line.
  rewrite parseDecimalInt_zlen by (apply (length_is_int64 _ maxBulkStringLength); [done|done]).
  pose proof (zlen_nonneg d). rewrite (proj2 (Z.eqb_neq _ _)), (proj2 (Z.ltb_ge _ _)), (proj2 (Z.ltb_ge _ _)) by lia. done.
Qed.

Lemma parse_word fuel depth e rest : wordOk e = true → parse ErrEOF fuel depth (wireBytes e ++ rest) = (Ok (wireValue e), rest).
Proof.
  intros (d & Hd & -> & ->)%wordOk_wire. rewrite <- app_comm_cons, <- !app_assoc.
  destruct fuel; cbn [parse ReadByte]; rewrite !decide_False, decide_True by done;
    rewrite parseBulkString_header by done; rewrite ReadFull_app; done.
Qed.

Lemma parseBulk_torn (d p q : bytes) : zlen d ≤ maxBulkStringLength →
  p ++ q = FormatInt (zlen d) ++ crlf ++ d ++ crlf → q ≠ [] → torn (parseBulkString ErrEOF p).
Proof.
  intros Hd E Hq. rewrite app_assoc in E. apply prefix_split in E as [(q' & E & Hq')|(p' & -> & E)]; [| |done].
  { unfold parseBulkString. rewrite (header_torn _ _ _ E Hq'). eexists _, _. split; [done|]. by left. }
  rewrite <- app_assoc, parseBulkString_header by done.
  apply prefix_split in E as [(q' & E & Hq')|(p2 & -> & E)]; [| |done].
  - pose proof (f_equal length E) as El. rewrite length_app in El. destruct q' as [|? q']; [done|]. cbn [length] in El.
    unfold ReadFull. rewrite (proj2 (Z.leb_gt _ _)) by (unfold zlen; lia).
    destruct p'; (eexists _, _; split; [done|]); rewrite tornError_wrap; [by left|by right].
  - rewrite ReadFull_app. destruct p2 as [|c p2]; [eexists _, _; split; [done|]; by left|].
    injection E as -> E. destruct p2 as [|c p2]; [eexists _, _; split; [done|]; by left|].
    injection E as -> E. by destruct p2.
Qed.

Lemma parse_word_torn fuel depth e p q : wordOk e = true → p ++ q = wireBytes e → q ≠ [] → torn (parse ErrEOF fuel depth p).
Proof.
  intros (d & Hd & -> & _)%wordOk_wire E Hq. destruct p as [|c p].
  { destruct fuel; (eexists _, _; split; [done|]; by left). }
  injection E as -> E.
  assert (parse ErrEOF fuel depth ("$"%byte :: p) = parseBulkString ErrEOF p) as -> by by destruct fuel.
  by apply (parseBulk_torn d p q).
Qed.

(** ** Commands *)

Lemma parseElements_words prs ws rest : (∀ e r, e ∈ ws → prs (wireBytes e ++ r) = (Ok (wireValue e), r)) →
  ∀ i els, parseElements prs (length ws) i els (concat (wireBytes <$> ws) ++ rest) = (Ok (Array (els ++ (wireValue <$> ws)) false), rest).
Proof.
  induction ws as [|e ws IH]; intros Hp i els; cbn [length parseElements fmap list_fmap concat].
  { by rewrite app_nil_r. }
  rewrite <- app_assoc, Hp by set_solver. rewrite IH by set_solver. by rewrite <- app_assoc.
Qed.

Lemma parseElements_torn prs ws :
  (∀ e r, e ∈ ws → prs (wireBytes e ++ r) = (Ok (wireValue e), r)) →
  (∀ e p q, e ∈ ws → p ++ q = wireBytes e → q ≠ [] → torn (prs p)) →
  ∀ i els p q, p ++ q = concat (wireBytes <$> ws) → q ≠ [] → torn (parseElements prs (length ws) i els p).
Proof.
  induction ws as [|e ws IH]; intros Hp Ht i els p q; cbn [length parseElements fmap list_fmap concat].
  { intros E. by apply app_eq_nil in E as [_ ->]. }
  intros E Hq. apply prefix_split in E as [(q' & E & Hq')|(p' & -> & E)]; [| |done].
  - destruct (Ht e p q') as (err & r & -> & He); [set_solver|done|done|]. by eexists _, _.
  - rewrite Hp by set_solver. apply (IH ltac:(set_solver) ltac:(set_solver) _ _ _ q E Hq).
Qed.

Lemma frameOk_inv v : frameOk v = true →
  ∃ ws, v = Array ws false ∧ zlen ws ≤ maxArrayElements ∧ (∀ e, e ∈ ws → wordOk e = true)
    ∧ noNil v = true
    ∧ wireBytes v = "*"%byte :: FormatInt (zlen ws) ++ crlf ++ concat (wireBytes <$> ws)
    ∧ wireValue v = Array (wireValue <$> ws) false.
Proof.
  destruct v as [| | | | |ws [|]| | |]; try done. cbn [frameOk]. intros [Hl Hw]%andb_true_iff. bool_to_prop.
  exists ws. rewrite forallb_Forall, Forall_forall in Hw.
  assert (forallb noNil ws = true) as Hn.
  { apply forallb_Forall, Forall_forall. intros e He. apply Hw in He. by destruct e as [| | |? []|? []| | | |]. }
  split_and!; [done|done|done|done|by apply wireBytes_array|done].
Qed.

Lemma parseArray_header prs (ws : list Value) rest : zlen ws ≤ maxArrayElements →
  parseArray ErrEOF prs 0 (FormatInt (zlen ws) ++ crlf ++ rest) = parseElements prs (length ws) 0 [] rest.
Proof.
  intros Hl. unfold parseArray. rewrite (proj2 (Z.leb_gt _ _)) by done. rewrite header_line.
  rewrite parseDecimalInt_zlen by (apply (length_is_int64 _ maxArrayElements); [done|done]).
  pose proof (zlen_nonneg ws). rewrite (proj2 (Z.eqb_neq _ _)), (proj2 (Z.ltb_ge _ _)), (proj2 (Z.ltb_ge _ _)) by lia.
  unfold zlen. by rewrite Nat2Z.id.
Qed.

Lemma Parse_star s : Parse ErrEOF ("*"%byte :: s) = parseArray ErrEOF (parse ErrEOF (pred decodeFuel) 1) 0 s.
Proof. done. Qed.

Lemma Parse_frame v rest : frameOk v = true → Parse ErrEOF (wireBytes v ++ rest) = (Ok (wireValue v), rest).
Proof.
  intros (ws & -> & Hl & Hw & _ & -> & ->)%frameOk_inv.
  rewrite <- app_comm_cons, Parse_star, <- !app_assoc, parseArray_header by done.
  rewrite parseElements_words; [done|]. intros e r He. by apply parse_word, Hw.
Qed.

Lemma Parse_torn v p q : frameOk v = true → p ++ q = wireBytes v → q ≠ [] → torn (Parse ErrEOF p).
Proof.
  intros (ws & -> & Hl & Hw & _ & -> & _)%frameOk_inv E Hq. destruct p as [|c p].
  { eexists _, _. split; [done|]. by left. }
  injection E as -> E. rewrite Parse_star.
  change (p ++ q = FormatInt (zlen ws) ++ crlf ++ concat (wireBytes <$> ws)) in E.
  rewrite app_assoc in E. apply prefix_split in E as [(q' & E & Hq')|(p' & -> & E)]; [| |done].
  { unfold parseArray. rewrite (proj2 (Z.leb_gt _ _)) by done. rewrite (header_torn _ _ _ E Hq').
    eexists _, _. split; [done|]. by left. }
  rewrite <- app_assoc, parseArray_header by done.
  refine (parseElements_torn _ ws _ _ 0 [] p' q E Hq).
  - intros e r He. by apply parse_word, Hw.
  - intros e p q2 He. by apply parse_word_torn, Hw.
Qed.

(** ** The loader *)

Section Load.
Context {S E : Type} (replay : Value → S → option E * S).

(** Replay in order; the first failure stops it. *)
Fixpoint replayAll (frames : list Value) (n : Z) (s : S) : Z * option E * S :=
  match frames with
  | [] => (n, None, s)
  | frame :: frames =>
      match replay (wireValue frame) s with
      | (Some e, s) => (n, Some e, s)
      | (None, s) => replayAll frames (n + 1) s
      end
  end.

Lemma loadLoop_frames frames tail : Forall (λ v, frameOk v = true) frames →
  (tail = [] ∨ ∃ v q, frameOk v = true ∧ tail ++ q = wireBytes v ∧ q ≠ []) →
  ∀ fuel n s, (length frames < fuel)%nat →
  ∃ t, loadLoop replay (λ _, false) fuel (concat (wireBytes <$> frames) ++ tail) (mkLoadStats n false) s
    = (let '(n, e, s) := replayAll frames n s in
       (mkLoadStats n (match e with Some _ => false | None => t end), ReplayError <$> e, s)).
Proof.
  intros Hf Ht. assert (torn (Parse ErrEOF tail)) as (e & rest & Ep & Htorn).
  { destruct Ht as [->|(v & q & Hv & E0 & Hq)]; [|by apply (Parse_torn v tail q)]. eexists _, _. split; [done|]. by left. }
  induction Hf as [|frame frames Hv Hf IH]; intros fuel n s Hl; (destruct fuel as [|fuel]; [cbn [length] in Hl; lia|]); cbn [loadLoop replayAll].
  - cbn [fmap list_fmap concat app]. rewrite Ep. case_bool_decide; [by exists false|]. rewrite torn_recoverable by done. by exists true.
  - cbn [fmap list_fmap concat]. rewrite <- app_assoc, Parse_frame by done.
    destruct (replay (wireValue frame) s) as [[err|] s']; [by exists false|]. cbn [ReplayedCommands TruncatedTail].
    apply IH. cbn [length] in Hl. lia.
Qed.

(** Cancelled when [k] commands have been replayed, loading stops there. *)
Lemma loadLoop_cancelled cancelled k rest s' : ∀ frames, Forall (λ v, frameOk v = true) frames → ∀ fuel n s, (length frames < fuel)%nat →
  cancelled k = true → (∀ i, n ≤ i < k → cancelled i = false) →
  replayAll frames n s = (k, None, s') →
  loadLoop replay cancelled fuel (concat (wireBytes <$> frames) ++ rest) (mkLoadStats n false) s = (mkLoadStats k false, Some LoadCanceled, s').
Proof.
  intros frames Hf. induction Hf as [|frame frames Hv Hf IH]; intros fuel n s Hl Hk Hb; (destruct fuel as [|fuel]; [cbn [length] in Hl; lia|]); cbn [loadLoop replayAll ReplayedCommands].
  - intros [= -> ->]. by rewrite Hk.
  - assert (∀ fs m s0, m ≤ (replayAll fs m s0).1.1) as Hmono.
    { induction fs as [|f fs IHf]; intros m s0; cbn [replayAll]; [done|]. destruct (replay (wireValue f) s0) as [[err|] s1]; [done|]. etrans; [|apply IHf]. lia. }
    destruct (replay (wireValue frame) s) as [[err|] s1] eqn:Er; [done|]. intros Hr. pose proof (Hmono frames (n + 1) s1) as Hle. rewrite Hr in Hle. cbn [fst] in Hle.
    rewrite Hb by lia. cbn [fmap list_fmap concat]. rewrite <- app_assoc, Parse_frame by done. rewrite Er. cbn [ReplayedCommands TruncatedTail].
    apply IH; [cbn [length] in Hl; lia|done|intros i Hi; apply Hb; lia|done].
Qed.
End Load.

Lemma frames_fuel frames tail : Forall (λ v, frameOk v = true) frames →
  (length frames < Datatypes.S (length (concat (wireBytes <$> frames) ++ tail)))%nat.
Proof.
  intros Hf. pose proof (wireBytes_count frames) as H. rewrite length_app. unfold zlen in H.
  assert (Forall (λ e, noNil e = true) frames) as Hn; [|specialize (H Hn); lia].
  eapply Forall_impl; [exact Hf|]. intros v (ws & _ & _ & _ & ? & _)%frameOk_inv. done.
Qed.
