(* ===== verification/AofWriter.v ===== *)
(** * The append-only file writer

    Models [internal/aof/writer.go]: the writer and its buffer over the files of
    [FileSys].  The background goroutines are split where they take the writer's
    lock or the store's: [rewriteStart], [rewriteBarrier], [rewriteGenerate] and
    [rewriteFinalize] are [runRewrite], and appends of other goroutines may run
    between any two of them; [everysecTick] is one tick of [runEverysec].  What
    is only logged is not modelled. *)

From S2P Require Import Prelude Strconv GoLib Resp Stream ValueObject Store StoreOps FileSys Aof.

(** ** [bufio.Writer] over a file

    The size of the buffer, and the error that stays. *)

Definition bufioWriterSize : nat := 4096.

Record BufWriter := mkBufWriter { bwFile : nat; bwBuf : bytes; bwErr : option osError }.
Definition NewWriter (h : nat) : BufWriter := mkBufWriter h [] None.

Definition bwFlush (b : BufWriter) : FM (option osError * BufWriter) :=
  match bwErr b with
  | Some e => fret (Some e, b)
  | None =>
      if bool_decide (bwBuf b = []) then fret (None, b)
      else
        let% (n, err) := FileWriteN (bwFile b) (bwBuf b) in
        match err with
        | Some e => fret (Some e, mkBufWriter (bwFile b) (drop n (bwBuf b)) (Some e))
        | None => fret (None, mkBufWriter (bwFile b) [] None)
        end
  end.

(** The loop of [Write]: a full buffer is flushed, then what does not fit is
    written straight to the file, so it ends within three rounds. *)
Fixpoint bwWriteLoop (fuel : nat) (b : BufWriter) (p : bytes) : FM (BufWriter * bytes) :=
  match fuel with
  | O => fret (b, p)
  | S fuel' =>
      let available := (bufioWriterSize - length (bwBuf b))%nat in
      if (length p <=? available)%nat || bool_decide (is_Some (bwErr b)) then fret (b, p)
      else if bool_decide (bwBuf b = []) then
        let% (n, err) := FileWriteN (bwFile b) p in
        bwWriteLoop fuel' (mkBufWriter (bwFile b) [] err) (drop n p)
      else
        let% (_, b) := bwFlush (mkBufWriter (bwFile b) (bwBuf b ++ take available p) None) in
        bwWriteLoop fuel' b (drop available p)
  end.

Definition bwWrite (b : BufWriter) (p : bytes) : FM (option osError * BufWriter) :=
  let% (b, p) := bwWriteLoop 3 b p in
  match bwErr b with
  | Some e => fret (Some e, b)
  | None => fret (None, mkBufWriter (bwFile b) (bwBuf b ++ p) None)
  end.

(** ** The writer *)

Inductive aofError :=
  | ErrClosed
  | ErrRewriteInProgress
  | ErrEmptyPath
  | ErrStoreUnavailable
  | ErrCreateDir (e : osError)
  | ErrOpen (e : osError)
  | ErrWrite (e : osError)
  | ErrFlush (e : osError)
  | ErrSync (e : osError)
  | ErrClose (e : osError)
  | ErrJoin (flushErr closeErr : aofError)
  | ErrCloseFile (e : osError)
  | ErrRewriteBuffered (e : osError)
  | ErrRewriteSync (e : osError)
  | ErrRewriteClose (e : osError)
  | ErrSwapClose (e : osError)
  | ErrSwapReplace (e : replaceError) (reopen : option osError)
  | ErrSwapReopen (e : osError).

(** [closing]: [closeCh] is closed. *)
Record Writer := mkWriter {
  wPath : bytes;
  wPolicy : Policy;
  wFile : nat;
  wWriter : BufWriter;
  rewriteBuffer : bytes;
  rewriteActive : bool;
  rewritePending : bool;
  wClosed : bool;
  closing : bool
}.

Definition setWriter (w : Writer) (b : BufWriter) : Writer :=
  mkWriter (wPath w) (wPolicy w) (wFile w) b (rewriteBuffer w) (rewriteActive w) (rewritePending w) (wClosed w) (closing w).
Definition setRewriteBuffer (w : Writer) (buffer : bytes) : Writer :=
  mkWriter (wPath w) (wPolicy w) (wFile w) (wWriter w) buffer (rewriteActive w) (rewritePending w) (wClosed w) (closing w).
Definition setFlags (w : Writer) (active pending closed closing : bool) : Writer :=
  mkWriter (wPath w) (wPolicy w) (wFile w) (wWriter w) (rewriteBuffer w) active pending closed closing.

Definition OpenWriter (path : bytes) (policy : Policy) : FM (result aofError Writer) :=
  if bool_decide (path = []) then fret (Err ErrEmptyPath)
  else
    let% r := MkdirAll in
    match r with
    | Err e => fret (Err (ErrCreateDir e))
    | Ok _ =>
        let% r := OpenAppend path in
        match r with
        | Err e => fret (Err (ErrOpen e))
        | Ok h => fret (Ok (mkWriter path policy h (NewWriter h) [] false false false false))
        end
    end.

Definition Writer_Policy (w : option Writer) : Policy := match w with None => PolicyEverysec | Some w => wPolicy w end.

Definition flushLocked (w : Writer) : FM (option aofError * Writer) :=
  let% (err, b) := bwFlush (wWriter w) in fret (ErrFlush <$> err, setWriter w b).

Definition syncLocked (w : Writer) : FM (option aofError * Writer) :=
  let% (err, w) := flushLocked w in
  match err with
  | Some e => fret (Some e, w)
  | None => let% r := FileSync (wFile w) in
            fret (match r with Err e => Some (ErrSync e) | Ok _ => None end, w)
  end.

Definition sync (w : Writer) : FM (option aofError * Writer) :=
  if wClosed w then fret (Some ErrClosed, w) else syncLocked w.

Definition append (w : Writer) (payload : bytes) (syncNow : bool) : FM (option aofError * Writer) :=
  if bool_decide (payload = []) then fret (None, w)
  else if wClosed w then fret (Some ErrClosed, w)
  else
    let% (err, b) := bwWrite (wWriter w) payload in
    let w := setWriter w b in
    match err with
    | Some e => fret (Some (ErrWrite e), w)
    | None =>
        let w := if rewriteActive w then setRewriteBuffer w (rewriteBuffer w ++ payload) else w in
        if syncNow then syncLocked w
        else if decide (wPolicy w = PolicyNo) then flushLocked w
        else fret (None, w)
    end.

Definition Append (w : Writer) (payload : bytes) := append w payload false.
Definition AppendSync (w : Writer) (payload : bytes) := append w payload true.

(** One tick of [runEverysec]; an error is logged. *)
Definition everysecTick (w : Writer) : FM Writer :=
  if closing w then fret w else let% (_, w) := sync w in fret w.

(** [Close] in two parts: it closes [closeCh] and waits for the goroutines, which
    may still run; then it takes the lock. *)
Definition closeBegin (w : Writer) : Writer := setFlags w (rewriteActive w) (rewritePending w) (wClosed w) true.
Definition closeEnd (w : Writer) : FM (option aofError * Writer) :=
  if wClosed w then fret (None, w)
  else
    let w := setFlags w (rewriteActive w) (rewritePending w) true (closing w) in
    let% (flushErr, w) := syncLocked w in
    let% r := FileClose (wFile w) in
    fret (match flushErr, r with
          | Some fe, Err ce => Some (ErrJoin fe (ErrCloseFile ce))
          | Some fe, Ok _ => Some fe
          | None, Err ce => Some (ErrClose ce)
          | None, Ok _ => None
          end, w).
Definition Close (w : Writer) : FM (option aofError * Writer) := closeEnd (closeBegin w).

(** ** Rewriting *)

(** [BeginRewrite], up to starting the goroutine. *)
Definition BeginRewrite (w : Writer) (storeThere : bool) : option aofError * Writer :=
  if negb storeThere then (Some ErrStoreUnavailable, w)
  else if wClosed w then (Some ErrClosed, w)
  else if rewritePending w || rewriteActive w then (Some ErrRewriteInProgress, w)
  else (None, setFlags w (rewriteActive w) true (wClosed w) (closing w)).

Definition clearRewriteStateLocked (w : Writer) (active : bool) : Writer :=
  let w := if active then setRewriteBuffer (setFlags w false (rewritePending w) (wClosed w) (closing w)) [] else w in
  setFlags w (rewriteActive w) false (wClosed w) (closing w).

Definition reopenAppendOnlyFileLocked (w : Writer) : FM (option osError * Writer) :=
  let% r := OpenAppend (wPath w) in
  match r with
  | Err e => fret (Some e, w)
  | Ok h => fret (None, mkWriter (wPath w) (wPolicy w) h (NewWriter h) (rewriteBuffer w) (rewriteActive w)
                          (rewritePending w) (wClosed w) (closing w))
  end.

Definition swapRewriteFileLocked (w : Writer) (tempPath : bytes) : FM (option aofError * Writer) :=
  let% r := FileClose (wFile w) in
  match r with
  | Err e => fret (Some (ErrSwapClose e), w)
  | Ok _ =>
      let% r := replaceFile tempPath (wPath w) in
      match r with
      | Err e => let% (reopenErr, w) := reopenAppendOnlyFileLocked w in fret (Some (ErrSwapReplace e reopenErr), w)
      | Ok _ => let% (reopenErr, w) := reopenAppendOnlyFileLocked w in fret (ErrSwapReopen <$> reopenErr, w)
      end
  end.

Definition appendBufferedRewriteLocked (w : Writer) (h : nat) : FM (result osError unit) := FileWrite h (rewriteBuffer w).

(** [Ok] says whether the rewrite completed. *)
Definition finalizeRewrite (w : Writer) (h : nat) (tempPath : bytes) : FM (result aofError bool * Writer) :=
  let failed w e := let% _ := FileClose h in fret (Err e, clearRewriteStateLocked w true) in
  if wClosed w then
    let% _ := FileClose h in fret (Ok false, clearRewriteStateLocked w true)
  else
    let% r := appendBufferedRewriteLocked w h in
    match r with
    | Err e => failed w (ErrRewriteBuffered e)
    | Ok _ =>
        let% r := FileSync h in
        match r with
        | Err e => failed w (ErrRewriteSync e)
        | Ok _ =>
            let% r := FileClose h in
            match r with
            | Err e => fret (Err (ErrRewriteClose e), clearRewriteStateLocked w true)
            | Ok _ =>
                let% (err, w) := swapRewriteFileLocked w tempPath in
                let w := clearRewriteStateLocked w true in
                match err with Some e => fret (Err e, w) | None => fret (Ok true, w) end
            end
        end
    end.

(** What the rewrite goroutine has reached. *)
Inductive rewriteTask :=
  | TaskTemp (h : nat) (tempPath : bytes)
  | TaskSnapshot (h : nat) (tempPath : bytes) (entries : list SnapshotEntry)
  | TaskGenerated (h : nat) (tempPath : bytes).

Definition removeTemp (tempPath : bytes) : FM unit := let% _ := osRemove tempPath in fret tt.

(** Up to the open temporary file; [cancelled] says that the context is done. *)
Definition rewriteStart (w : Writer) (cancelled : bool) (tempPath : bytes) : FM (option rewriteTask * Writer) :=
  if closing w || cancelled then fret (None, clearRewriteStateLocked w false)
  else
    let% r := CreateTemp tempPath in
    match r with
    | Err _ => fret (None, clearRewriteStateLocked w false)
    | Ok h => fret (Some (TaskTemp h tempPath), w)
    end.

(** The callback of [SnapshotAllWithWriteBarrier]: it runs while the store is
    write-locked, right after the snapshot is taken. *)
Definition barrier (w : Writer) : bool * Writer :=
  if wClosed w then (false, setFlags w (rewriteActive w) false (wClosed w) (closing w))
  else (true, setRewriteBuffer (setFlags w true false (wClosed w) (closing w)) []).

Definition SnapshotAllWithWriteBarrier `{Env} {A} (now : Z) (store : Store) (barrier : A) : list SnapshotEntry * SnapshotStats * A :=
  let r := snapshotAllLocked now store in (r, barrier).

Definition rewriteBarrier `{Env} (w : Writer) (cancelled : bool) (now : Z) (store : Store) (h : nat) (tempPath : bytes)
    : FM (option rewriteTask * Writer) :=
  let '((entries, _), (activated, w)) := SnapshotAllWithWriteBarrier now store (barrier w) in
  if negb activated then
    let% _ := FileClose h in let% _ := removeTemp tempPath in fret (None, w)
  else if closing w || cancelled then
    let% _ := FileClose h in let% _ := removeTemp tempPath in fret (None, clearRewriteStateLocked w true)
  else fret (Some (TaskSnapshot h tempPath entries), w).

(** A file as the [io.Writer] of [GenerateRewrite]; its error is only logged. *)
Definition fileWriter (h : nat) (fs : FS) (chunk : bytes) : FS * option protoError :=
  match FileWrite h chunk fs with (Ok _, fs) => (fs, None) | (Err _, fs) => (fs, Some ErrReader) end.

Definition rewriteGenerate (w : Writer) (now : Z) (h : nat) (tempPath : bytes) (entries : list SnapshotEntry)
    : FM (option rewriteTask * Writer) := λ fs,
  match GenerateRewrite (fileWriter h) entries now fs with
  | (fs, (_, Some _)) =>
      (let% _ := FileClose h in let% _ := removeTemp tempPath in fret (None, clearRewriteStateLocked w true)) fs
  | (fs, (_, None)) => (Some (TaskGenerated h tempPath), w, fs)
  end.

(** The deferred removal runs unless the rewrite completed. *)
Definition rewriteFinalize (w : Writer) (h : nat) (tempPath : bytes) : FM (result aofError bool * Writer) :=
  let% (r, w) := finalizeRewrite w h tempPath in
  match r with
  | Ok true => fret (r, w)
  | _ => let% _ := removeTemp tempPath in fret (r, w)
  end.
