(* ===== verification/AofWriterFacts.v ===== *)
(** * What a crash leaves of the append-only file

    The log a writer keeps: the bytes of its file, then those of its buffer.  A
    failed write leaves a prefix of the log and stops the writer; a successful
    sync makes the whole log durable. *)

From S2P Require Import Prelude Strconv Resp RespDecode RespDecodeFacts RespParser FileSys Aof AofFacts AofWriter.

(** ** The loop of [bufio.Writer.Write] *)

Lemma FileWriteN_all h p fs : let '((n, e), _) := FileWriteN h p fs in e = None → n = length p.
Proof. unfold FileWriteN. by destruct (FileWrite h p fs) as [[u|e] fs']. Qed.

Lemma bwFlush_empties b fs : let '((_, b'), _) := bwFlush b fs in bwErr b' = None → bwBuf b' = [].
Proof.
  unfold bwFlush. destruct (bwErr b) as [e|] eqn:Ee; cbn; [congruence|]. case_bool_decide; [by intros _|].
  unfold fbind. by destruct (FileWriteN (bwFile b) (bwBuf b) fs) as [[n [e|]] fs'].
Qed.

#[local] Opaque bufioWriterSize.

Definition fits (b : BufWriter) (p : bytes) : Prop :=
  is_Some (bwErr b) ∨ (length p ≤ bufioWriterSize - length (bwBuf b))%nat.

(** Two rounds are enough from an empty buffer, three from any. *)
Lemma bwWriteLoop_empty fuel b p fs : bwBuf b = [] → (2 ≤ fuel)%nat →
  let '((b', p'), _) := bwWriteLoop fuel b p fs in fits b' p'.
Proof.
  intros Hb Hf. destruct fuel as [|[|fuel]]; [lia..|]. cbn [bwWriteLoop]. rewrite Hb. cbn [length]. rewrite Nat.sub_0_r.
  destruct ((_ <=? _)%nat || _) eqn:Ec.
  { change (fits b p). unfold fits. rewrite Hb. apply orb_true_iff in Ec as [Ec|Ec]; [right; apply Nat.leb_le in Ec; cbn [length]; lia|left; by apply bool_decide_eq_true in Ec]. }
  rewrite bool_decide_eq_true_2 by done. unfold fbind. pose proof (FileWriteN_all (bwFile b) p fs) as Hn.
  destruct (FileWriteN (bwFile b) p fs) as [[n e] fs']. cbn [bwBuf bwErr length]. rewrite Nat.sub_0_r.
  assert (((length (drop n p) <=? bufioWriterSize)%nat || bool_decide (is_Some e)) = true) as Hstop.
  { destruct e as [e|]; [by rewrite orb_true_r|]. rewrite (Hn eq_refl), drop_all. done. }
  rewrite Hstop. apply orb_true_iff in Hstop as [Hs|Hs]; [right; apply Nat.leb_le in Hs; cbn [bwBuf length]; lia|left; by apply bool_decide_eq_true in Hs].
Qed.

Lemma bwWriteLoop_done b p fs : let '((b', p'), _) := bwWriteLoop 3 b p fs in fits b' p'.
Proof.
  destruct (decide (bwBuf b = [])) as [Hb|Hb]; [apply bwWriteLoop_empty; [done|lia]|].
  remember 2%nat as two eqn:Etwo. cbn [bwWriteLoop]. destruct ((_ <=? _)%nat || _) eqn:Ec.
  { change (fits b p). apply orb_true_iff in Ec as [Ec|Ec]; [right; by apply Nat.leb_le in Ec|left; by apply bool_decide_eq_true in Ec]. }
  rewrite bool_decide_eq_false_2 by done. unfold fbind.
  set (b1 := mkBufWriter _ _ _). pose proof (bwFlush_empties b1 fs) as Hfl. destruct (bwFlush b1 fs) as [[e b2] fs2].
  destruct (bwErr b2) as [e2|] eqn:Ee; [|apply bwWriteLoop_empty; [by apply Hfl|lia]].
  subst two. cbn [bwWriteLoop]. rewrite Ee, orb_true_r. left. by rewrite Ee.
Qed.

(** ** One open file *)

Section Log.
Context (path : bytes) (h ino : nat) (trail0 : list disk).

(** A disk on which a crash leaves at least [A] and at most [L]. *)
Definition Good (A L : bytes) (d : disk) : Prop :=
  entryIs d path (Some ino)
  ∧ ∃ f, inodes d !! ino = Some f ∧ A `prefix_of` fdurable f ∧ fdata f `prefix_of` L.

Definition Log (A L data dur : bytes) (fs : FS) : Prop :=
  handles fs !! h = Some (ino, true)
  ∧ entryIs (fsDisk fs) path (Some ino)
  ∧ inodes (fsDisk fs) !! ino = Some (mkFile data dur)
  ∧ A `prefix_of` dur ∧ dur `prefix_of` data
  ∧ ∃ later, trail fs = trail0 ++ later ∧ Forall (Good A L) later.

Lemma Good_survives A L d c : Good A L d → survives d path c → ∃ c0, c = Some c0 ∧ A `prefix_of` c0 ∧ c0 `prefix_of` L.
Proof.
  intros (H1 & f & Hf & HA & HL) Hc%(entryIs_survives _ _ _ _ H1).
  destruct c as [c0|]; [|done]. destruct Hc as (f' & Hf' & P1 & P2). rewrite Hf in Hf'. injection Hf' as <-.
  exists c0. split_and!; [done|by etrans|by etrans].
Qed.

Lemma Good_mono A A' L L' d : A' `prefix_of` A → L `prefix_of` L' → Good A L d → Good A' L' d.
Proof. intros HA HL (H1 & f & Hf & P1 & P2). split; [done|]. exists f. split_and!; [done|by etrans|by etrans]. Qed.

Lemma Log_mono A A' L L' data dur fs : A' `prefix_of` A → L `prefix_of` L' → Log A L data dur fs → Log A' L' data dur fs.
Proof.
  intros HA HL (H1 & H2 & H4 & H5 & H6 & HT). split_and!; try done; [by etrans|].
  destruct HT as (later & -> & HF). exists later. split; [done|]. eapply Forall_impl; [exact HF|]. intros d. by apply Good_mono.
Qed.

(** A call that leaves the file with other bytes. *)
Lemma Log_step A L data dur data' dur' fs :
  Log A L data dur fs → A `prefix_of` dur' → dur' `prefix_of` data' → data' `prefix_of` L →
  let d := setInode ino (mkFile data' dur') (fsDisk fs) in
  Log A L data' dur' (mkFS d (handles fs) (nextId fs) (tl (faults fs)) (trail fs ++ [d])).
Proof.
  intros (H1 & H2 & H4 & H5 & H6 & HT) P1 P2 P3 d. unfold d, setInode. unfold Log. cbn. rewrite lookup_insert_eq. split_and!; try done.
  destruct HT as (later & -> & HF). exists (later ++ [d]). rewrite <- app_assoc. split; [done|].
  apply Forall_app. split; [done|]. apply Forall_singleton. split; [done|]. eexists. cbn. by rewrite lookup_insert_eq.
Qed.

Lemma setInode_id d f : inodes d !! ino = Some f → setInode ino f d = d.
Proof. intros H. unfold setInode. rewrite insert_id by done. by destruct d. Qed.

Lemma Log_same A L data dur fs : Log A L data dur fs → data `prefix_of` L →
  Log A L data dur (mkFS (fsDisk fs) (handles fs) (nextId fs) (tl (faults fs)) (trail fs ++ [fsDisk fs])).
Proof.
  intros HL HP. pose proof HL as (_ & _ & H4 & H5 & H6 & _).
  pose proof (Log_step A L data dur data dur fs HL H5 H6 HP) as H. cbn zeta in H. by rewrite (setInode_id _ _ H4) in H.
Qed.

Lemma Log_write A L data dur p fs : Log A L data dur fs → data ++ p `prefix_of` L →
  let '((n, e), fs') := FileWriteN h p fs in
  (n ≤ length p)%nat ∧ (e = None → n = length p) ∧ Log A L (data ++ take n p) dur fs'.
Proof.
  intros HL HP. pose proof HL as (H1 & H2 & H4 & H5 & H6 & HT).
  unfold FileWriteN, FileWrite, oscall, fbind, takeFault, record_, fret, whenOpen, appendData, written.
  assert (∀ q, q `prefix_of` p → data ++ q `prefix_of` L) as Hq.
  { intros q Hq. etrans; [|exact HP]. by apply prefix_app. }
  assert (∀ k : nat, Log A L (data ++ take k p) dur (mkFS (setInode ino (mkFile (data ++ take k p) dur) (fsDisk fs)) (handles fs) (nextId fs)
     (tl (faults fs)) (trail fs ++ [setInode ino (mkFile (data ++ take k p) dur) (fsDisk fs)]))) as Hstep.
  { intros k. apply (Log_step A L data dur); [done|done|by apply prefix_app_r|]. apply Hq. apply prefix_take. }
  rewrite H1. destruct (faults fs) as [|[|e k] rest] eqn:Ef; cbn [hd handles fsDisk]; rewrite H1, H4; cbn [fdata fdurable].
  1,2: split_and!; [done|done|]; rewrite take_ge by done; specialize (Hstep (length p)); rewrite take_ge in Hstep by done; exact Hstep.
  split_and!; [lia|done|]. specialize (Hstep k).
  replace (take (k `min` length p) p) with (take k p); [exact Hstep|].
  destruct (decide (k ≤ length p)%nat); [by rewrite Nat.min_l|]. by rewrite Nat.min_r, !take_ge by lia.
Qed.

Lemma Log_sync A L data dur fs : Log A L data dur fs → data `prefix_of` L →
  let '(r, fs') := FileSync h fs in Log A L data (match r with Ok _ => data | Err _ => dur end) fs'.
Proof.
  intros HL HP. pose proof HL as (H1 & H2 & H4 & H5 & H6 & HT).
  unfold FileSync, oscall, fbind, takeFault, record_, fret, whenOpen, noEffect.
  destruct (faults fs) as [|[|e k] rest] eqn:Ef; cbn [hd handles fsDisk]; rewrite ?H1, ?H4; cbn [fdata].
  1,2: pose proof (Log_step A L data dur data data fs HL ltac:(by etrans) ltac:(done) HP) as H; rewrite Ef in H; exact H.
  pose proof (Log_same A L data dur fs HL HP) as H. rewrite Ef in H. exact H.
Qed.

(** ** The writer over it *)

(** [L] is what the writer was given; without an error it is all in the file or
    the buffer. *)
Definition WLog (A L : bytes) (w : Writer) (fs : FS) : Prop :=
  wPath w = path ∧ wFile w = h ∧ wClosed w = false ∧ bwFile (wWriter w) = h
  ∧ ∃ data dur, Log A L data dur fs ∧ data ++ bwBuf (wWriter w) `prefix_of` L
      ∧ (bwErr (wWriter w) = None → data ++ bwBuf (wWriter w) = L).

Definition BLog (A L : bytes) (b : BufWriter) (p : bytes) (fs : FS) : Prop :=
  bwFile b = h ∧ ∃ data dur, Log A L data dur fs ∧ data ++ bwBuf b `prefix_of` L ∧ (bwErr b = None → data ++ bwBuf b ++ p = L).

Lemma bwFlush_log A L b p fs : BLog A L b p fs →
  let '((e, b'), fs') := bwFlush b fs in BLog A L b' p fs' ∧ bwErr b' = e ∧ (e = None → bwBuf b' = []).
Proof.
  intros (Hb & data & dur & HL & HP & HE). unfold bwFlush. destruct (bwErr b) as [e|] eqn:Ee.
  { split_and!; [|done|done]. split; [done|]. exists data, dur. by rewrite Ee. }
  case_bool_decide as Hn.
  { split_and!; [|done|done]. split; [done|]. exists data, dur. by rewrite Ee. }
  unfold fbind. rewrite Hb. pose proof (Log_write A L data dur (bwBuf b) fs HL HP) as H.
  destruct (FileWriteN h (bwBuf b) fs) as [[n [e|]] fs']; destruct H as (Hle & Hn' & HL'); (split_and!; [|done|done]); (split; [done|]); exists (data ++ take n (bwBuf b)), dur; cbn [bwBuf bwErr].
  - rewrite <- app_assoc, take_drop. done.
  - rewrite (Hn' eq_refl), take_ge, app_nil_r in * by done. split_and!; [done|done|]. intros _. rewrite <- app_assoc. by apply HE.
Qed.

Lemma bwWriteLoop_log A L : ∀ fuel b p fs, BLog A L b p fs →
  let '((b', p'), fs') := bwWriteLoop fuel b p fs in BLog A L b' p' fs'.
Proof.
  induction fuel as [|fuel IH]; intros b p fs HB; cbn [bwWriteLoop]; [done|].
  destruct (_ || _) eqn:Ec; [done|]. apply orb_false_iff in Ec as [_ Ee]. apply bool_decide_eq_false in Ee.
  assert (bwErr b = None) as He by (destruct (bwErr b); [by destruct Ee|done]).
  pose proof HB as (Hb & data & dur & HL & HP & HE). specialize (HE He).
  case_bool_decide as Hn; unfold fbind.
  - rewrite Hn in HE, HP. cbn [app] in HE. rewrite app_nil_r in HP. rewrite Hb.
    pose proof (Log_write A L data dur p fs HL ltac:(by rewrite HE)) as H.
    destruct (FileWriteN h p fs) as [[n e] fs']. destruct H as (Hle & Hn' & HL'). apply IH. split; [done|].
    exists (data ++ take n p), dur. cbn [bwBuf bwErr app]. rewrite app_nil_r. split_and!; [done| |].
    + rewrite <- HE. apply prefix_app, prefix_take.
    + intros _. by rewrite <- app_assoc, take_drop.
  - set (k := (bufioWriterSize - length (bwBuf b))%nat).
    set (b1 := mkBufWriter (bwFile b) (bwBuf b ++ take k p) None).
    assert (BLog A L b1 (drop k p) fs) as HB1.
    { split; [done|]. exists data, dur. cbn [b1 bwBuf bwErr]. split_and!; [done| |].
      - rewrite <- HE. apply prefix_app, prefix_app, prefix_take.
      - intros _. by rewrite <- app_assoc, take_drop. }
    pose proof (bwFlush_log A L b1 (drop k p) fs HB1) as H. destruct (bwFlush b1 fs) as [[e b'] fs'].
    destruct H as (H & _). apply IH. exact H.
Qed.

Lemma bwWrite_log A L b p fs : BLog A L b p fs →
  let '((e, b'), fs') := bwWrite b p fs in BLog A L b' [] fs' ∧ bwErr b' = e.
Proof.
  intros HB. unfold bwWrite, fbind. pose proof (bwWriteLoop_log A L 3 b p fs HB) as H.
  destruct (bwWriteLoop 3 b p fs) as [[b' p'] fs']. destruct H as (Hb & data & dur & HL & HP & HE).
  destruct (bwErr b') as [e|] eqn:Ee; (split; [|done]); (split; [done|]); exists data, dur; cbn [bwBuf bwErr].
  - rewrite Ee. by split_and!.
  - specialize (HE eq_refl). rewrite app_nil_r, HE. by split_and!.
Qed.

Lemma WLog_set A L w b fs : WLog A L w fs → ∀ fs', BLog A L b [] fs' → WLog A L (setWriter w b) fs'.
Proof.
  intros (H1 & H2 & H3 & H4 & _) fs' (Hb & data & dur & HL & HP & HE). split_and!; try done.
  exists data, dur. cbn. rewrite app_nil_r in HE. by split_and!.
Qed.

Lemma WLog_BLog A L w fs : WLog A L w fs → BLog A L (wWriter w) [] fs.
Proof. intros (_ & _ & _ & H4 & data & dur & HL & HP & HE). split; [done|]. exists data, dur. by rewrite app_nil_r. Qed.

Lemma flushLocked_log A L w fs : WLog A L w fs →
  let '((e, w'), fs') := flushLocked w fs in
  WLog A L w' fs' ∧ (e = None → bwBuf (wWriter w') = [] ∧ bwErr (wWriter w') = None).
Proof.
  intros HW. unfold flushLocked, fbind. pose proof (bwFlush_log A L (wWriter w) [] fs (WLog_BLog _ _ _ _ HW)) as H.
  destruct (bwFlush (wWriter w) fs) as [[e b] fs']. destruct H as (HB & He & Hn). split; [by eapply WLog_set|].
  destruct e; [done|]. intros _. cbn. by split; [apply Hn|].
Qed.

Lemma syncLocked_log A L w fs : WLog A L w fs →
  let '((e, w'), fs') := syncLocked w fs in WLog A L w' fs' ∧ (e = None → ∃ dur, Log A L L dur fs' ∧ dur = L ∧ bwBuf (wWriter w') = [] ∧ bwErr (wWriter w') = None).
Proof.
  intros HW. unfold syncLocked, fbind. pose proof (flushLocked_log A L w fs HW) as H.
  destruct (flushLocked w fs) as [[[e|] w'] fs']; destruct H as (HW' & Hn); [by split|].
  destruct (Hn eq_refl) as [Hbuf Herr]. pose proof HW' as (H1 & H2 & H3 & H4 & data & dur & HL & HP & HE).
  specialize (HE Herr). rewrite Hbuf, app_nil_r in HE. subst data. rewrite H2.
  pose proof (Log_sync A L L dur fs' HL ltac:(done)) as HS. destruct (FileSync h fs') as [[u|e] fs'']; cbn in *.
  - split; [|intros _; by exists L]. split_and!; try done. exists L, L. rewrite Hbuf, app_nil_r. by split_and!.
  - split; [|done]. split_and!; try done. exists L, dur. rewrite Hbuf, app_nil_r. by split_and!.
Qed.

Lemma append_log A L w p syncNow fs : WLog A L w fs →
  let '((e, w'), fs') := append w p syncNow fs in
  WLog A (L ++ p) w' fs'
  ∧ (e = None → syncNow = true → p ≠ [] → ∃ dur, Log A (L ++ p) (L ++ p) dur fs' ∧ dur = L ++ p ∧ bwBuf (wWriter w') = [] ∧ bwErr (wWriter w') = None).
Proof.
  intros HW. unfold append. case_bool_decide as Hp.
  { subst p. rewrite app_nil_r. by split. }
  pose proof HW as (H1 & H2 & H3 & H4 & _). rewrite H3. unfold fbind.
  destruct HW as (_ & _ & _ & _ & data & dur & HL & HP & HE).
  apply (Log_mono A A L (L ++ p)) in HL; [|done|by apply prefix_app_r].
  assert (BLog A (L ++ p) (wWriter w) p fs) as HB.
  { split; [done|]. exists data, dur. split_and!; [done|by apply prefix_app_r|]. intros He. by rewrite app_assoc, HE. }
  pose proof (bwWrite_log A (L ++ p) (wWriter w) p fs HB) as H. destruct (bwWrite (wWriter w) p fs) as [[e b] fs'].
  destruct H as (HB' & He).
  assert (∀ rb, WLog A (L ++ p) (setRewriteBuffer (setWriter w b) rb) fs' ∧ WLog A (L ++ p) (setWriter w b) fs') as HW'.
  { intros rb. destruct HB' as (Hb & data' & dur' & HL' & HP' & HE'). rewrite app_nil_r in HE'.
    split; (split_and!; [done..|]); by exists data', dur'. }
  destruct e as [e|]; [split; [apply (HW' [])|done]|].
  assert (WLog A (L ++ p) (if rewriteActive (setWriter w b) then setRewriteBuffer (setWriter w b) (rewriteBuffer (setWriter w b) ++ p) else setWriter w b) fs') as HW2.
  { case_match; [apply (HW' (rewriteBuffer (setWriter w b) ++ p))|apply (HW' [])]. }
  revert HW2. generalize (if rewriteActive (setWriter w b) then setRewriteBuffer (setWriter w b) (rewriteBuffer (setWriter w b) ++ p) else setWriter w b). intros w2 HW2.
  destruct syncNow.
  - pose proof (syncLocked_log A (L ++ p) w2 fs' HW2) as H. destruct (syncLocked w2 fs') as [[e w3] fs3]. destruct H as [HW3 H]. split; [done|]. intros He3 _ _. by apply H.
  - case_decide; [|by split]. pose proof (flushLocked_log A (L ++ p) w2 fs' HW2) as HS. destruct (flushLocked w2 fs') as [[e w3] fs3]. by destruct HS.
Qed.

Lemma tick_log A L w fs : WLog A L w fs → let '(w', fs') := everysecTick w fs in WLog A L w' fs'.
Proof.
  intros HW. unfold everysecTick. destruct (closing w); [done|]. unfold sync. pose proof HW as (_ & _ & -> & _). unfold fbind.
  pose proof (syncLocked_log A L w fs HW) as H. destruct (syncLocked w fs) as [[e w'] fs']. by destruct H.
Qed.
End Log.

(** ** Runs *)

(** What other goroutines do with the writer. *)
Inductive aofOp := OpAppend (payload : bytes) (syncNow : bool) | OpTick.

Definition runOp (op : aofOp) (w : Writer) : FM Writer :=
  match op with
  | OpAppend payload syncNow => let% (_, w) := append w payload syncNow in fret w
  | OpTick => everysecTick w
  end.
Fixpoint runOps (ops : list aofOp) (w : Writer) : FM Writer :=
  match ops with [] => fret w | op :: ops => let% w := runOp op w in runOps ops w end.

Definition logged (ops : list aofOp) : bytes := op ← ops; match op with OpAppend payload _ => payload | OpTick => [] end.

Lemma runOps_log path h ino t A : ∀ ops L w fs, WLog path h ino t A L w fs →
  let '(w', fs') := runOps ops w fs in WLog path h ino t A (L ++ logged ops) w' fs'.
Proof.
  induction ops as [|op ops IH]; intros L w fs HW; cbn [runOps logged mbind list_bind]; [by rewrite app_nil_r|].
  unfold fbind. assert (let '(w', fs') := runOp op w fs in
    WLog path h ino t A (L ++ match op with OpAppend payload _ => payload | OpTick => [] end) w' fs') as H.
  { destruct op as [p b|]; cbn [runOp].
    - unfold fbind, fret. pose proof (append_log path h ino t A L w p b fs HW) as H. destruct (append w p b fs) as [[e w'] fs']. by destruct H.
    - rewrite app_nil_r. by apply tick_log. }
  destruct (runOp op w fs) as [w' fs']. apply IH in H. rewrite <- app_assoc in H. exact H.
Qed.

(** A writer just opened on a file whose bytes and directory entry are durable:
    what [OpenWriter] returns for a file that was there and synced, and what a
    completed rewrite leaves.  For a new file [OpenWriter] does not sync the
    directory, so its entry is not durable ([new_file_may_vanish]). *)
Definition freshWriter (w : Writer) (base : bytes) (fs : FS) : Prop :=
  wClosed w = false ∧ wWriter w = NewWriter (wFile w)
  ∧ ∃ ino, handles fs !! wFile w = Some (ino, true)
      ∧ entryIs (fsDisk fs) (wPath w) (Some ino)
      ∧ inodes (fsDisk fs) !! ino = Some (mkFile base base).

Lemma freshWriter_log w base fs : freshWriter w base fs → ∃ ino, WLog (wPath w) (wFile w) ino (trail fs) base base w fs.
Proof.
  intros (H1 & H2 & ino & H3 & H4 & H6). exists ino. unfold WLog. rewrite H2. split_and!; [done..|].
  exists base, base. cbn. rewrite app_nil_r. split_and!; [|done|done]. split_and!; try done. exists []. by rewrite app_nil_r.
Qed.

Lemma WLog_disks path h ino A L w fs0 fs d :
  WLog path h ino (trail fs0) A L w fs → disksSince fs0 fs d → Good path ino A L d.
Proof.
  intros (_ & _ & _ & _ & data & dur & (H1 & H2 & H4 & H5 & H6 & later & Ht & HF) & HP & _) [Hd| ->].
  - rewrite Ht, drop_app_length in Hd. rewrite Forall_forall in HF. by apply HF.
  - split; [done|]. eexists. split_and!; [done|done|]. cbn. etrans; [|exact HP]. by apply prefix_app_r.
Qed.

Lemma acknowledged_good w base ops1 p ops2 fs : freshWriter w base fs → p ≠ [] →
  let '(w1, fs1) := runOps ops1 w fs in
  let '((e, w2), fs2) := AppendSync w1 p fs1 in
  let '(w3, fs3) := runOps ops2 w2 fs2 in
  e = None → ∀ d c, disksSince fs2 fs3 d → survives d (wPath w) c →
  ∃ c0, c = Some c0 ∧ base ++ logged ops1 ++ p `prefix_of` c0 ∧ c0 `prefix_of` base ++ logged ops1 ++ p ++ logged ops2.
Proof.
  intros [ino HW]%freshWriter_log Hp. apply (runOps_log _ _ _ _ _ ops1) in HW. destruct (runOps ops1 w fs) as [w1 fs1].
  pose proof (append_log _ _ _ _ _ _ w1 p true fs1 HW) as HA. unfold AppendSync. destruct (append w1 p true fs1) as [[e w2] fs2].
  destruct HA as [HW2 Hack]. destruct (runOps ops2 w2 fs2) as [w3 fs3] eqn:E3. intros He d c Hd Hc.
  destruct (Hack He eq_refl Hp) as (dur & HL & -> & Hbuf & Herr). set (L := (base ++ logged ops1) ++ p) in *.
  assert (WLog (wPath w) (wFile w) ino (trail fs2) L L w2 fs2) as HW2'.
  { destruct HW2 as (P1 & P2 & P3 & P4 & _). split_and!; [done..|]. exists L, L. rewrite Hbuf, app_nil_r. split_and!; try done.
    destruct HL as (H1 & H2 & H3 & H4 & _). split_and!; try done. exists []. by rewrite app_nil_r. }
  apply (runOps_log _ _ _ _ _ ops2) in HW2'. rewrite E3 in HW2'. pose proof (WLog_disks _ _ _ _ _ _ _ _ _ HW2' Hd) as HG.
  destruct (Good_survives _ _ _ _ _ _ HG Hc) as (c0 & -> & P1 & P2). exists c0. subst L. rewrite <- !app_assoc in *. done.
Qed.

(** ** Loading what a crash left *)

Definition wire (frames : list Value) : bytes := concat (wireBytes <$> frames).

Lemma wire_app f g : wire (f ++ g) = wire f ++ wire g.
Proof. unfold wire. by rewrite fmap_app, concat_app. Qed.

Lemma wire_cut frames : ∀ c, Forall (λ v, frameOk v = true) frames → c `prefix_of` wire frames →
  ∃ k tail, (k ≤ length frames)%nat ∧ c = wire (take k frames) ++ tail ∧ (tail = [] ∨ ∃ v q, frameOk v = true ∧ tail ++ q = wireBytes v ∧ q ≠ []).
Proof.
  induction frames as [|v frames IH]; intros c Hf [q Hq].
  { exists 0%nat, []. cbn in Hq. symmetry in Hq. apply app_eq_nil in Hq as [-> _]. split_and!; [done|done|by left]. }
  inversion Hf as [|? ? Hv Hf']; subst. destruct (decide (q = [])) as [->|Hne].
  { exists (length (v :: frames)), []. rewrite app_nil_r in Hq. rewrite take_ge, app_nil_r by done. by split_and!; [|done|left]. }
  symmetry in Hq. apply prefix_split in Hq as [(q' & Hq & Hq')|(c' & -> & Hq)]; [| |done].
  - exists 0%nat, c. split_and!; [lia|done|]. right. by exists v, q'.
  - destruct (IH c' Hf') as (k & tail & Hk & -> & Ht); [by exists q|]. exists (S k), tail.
    split_and!; [cbn [length]; lia| |done]. cbn [take]. unfold wire. cbn [fmap list_fmap concat]. by rewrite app_assoc.
Qed.

(** The frames of a cut that keeps a whole part include that part. *)
Lemma wireBytes_nonempty v : frameOk v = true → wireBytes v ≠ [].
Proof. intros (ws & _ & _ & _ & _ & -> & _)%frameOk_inv. done. Qed.

Lemma wire_cut_keeps f : ∀ g k tail, Forall (λ v, frameOk v = true) (f ++ g) → (k ≤ length (f ++ g))%nat →
  (tail = [] ∨ ∃ v q, frameOk v = true ∧ tail ++ q = wireBytes v ∧ q ≠ []) →
  wire f `prefix_of` wire (take k (f ++ g)) ++ tail → (length f ≤ k)%nat.
Proof.
  induction f as [|v f IH]; intros g k tail Hf Hk Ht Hp; [cbn; lia|]. inversion Hf as [|? ? Hv Hf']; subst.
  destruct k as [|k].
  - exfalso. destruct Hp as [r Hr]. assert (tail = (wireBytes v ++ concat (wireBytes <$> f)) ++ r) as Htail by exact Hr.
    assert (Parse ErrEOF tail = (Ok (wireValue v), concat (wireBytes <$> f) ++ r)) as Hp.
    { rewrite Htail, <- app_assoc. by apply Parse_frame. }
    destruct Ht as [->|(v' & q & Hv' & Hq & Hne)]; [done|].
    destruct (Parse_torn v' tail q Hv' Hq Hne) as (e & rest & E & _). by rewrite Hp in E.
  - cbn [length]. apply le_n_S. apply (IH g k tail); [done|cbn [length app] in Hk; lia|done|].
    unfold wire in *. cbn [app take fmap list_fmap concat] in Hp. rewrite <- app_assoc in Hp. by apply prefix_app_inv in Hp.
Qed.
