(* ===== verification/AofTheorems.v ===== *)
(** * Correctness of the append-only file

    What survives a crash and what loading it replays; the atomic swap of a
    rewrite; and three runs in which bytes or their place are lost. *)

From S2P Require Import Prelude Strconv Resp RespDecode RespDecodeFacts RespParser Stream ValueObject Store StoreOps Replication FileSys FileReplace Aof AofFacts AofWriter AofWriterFacts.

(** ** Loading *)

(** C13: loading an append-only file replays exactly its whole commands, in
    order, and stops at the first that fails; a command torn anywhere at the
    end of the file, as a crash leaves it, is dropped without an error. *)
Theorem load_replays_whole_commands {S E} (replay : Value → S → option E * S) frames tail s :
  Forall (λ v, frameOk v = true) frames →
  (tail = [] ∨ ∃ v q, frameOk v = true ∧ tail ++ q = wireBytes v ∧ q ≠ []) →
  ∃ t, LoadFile replay (wire frames ++ tail) s
    = (let '(n, e, s') := replayAll replay frames 0 s in
       (mkLoadStats n (match e with Some _ => false | None => t end), ReplayError <$> e, s')).
Proof. intros Hf Ht. apply loadLoop_frames; [done|done|by apply frames_fuel]. Qed.

(** A start that is cancelled in the middle of a load says so, and has replayed
    exactly the commands before. *)
Lemma load_cancelled {S E} (replay : Value → S → option E * S) cancelled frames rest s k s' :
  Forall (λ v, frameOk v = true) frames → cancelled k = true → (∀ i, 0 ≤ i < k → cancelled i = false) →
  replayAll replay frames 0 s = (k, None, s') →
  LoadFileCtx replay cancelled (wire frames ++ rest) s = (mkLoadStats k false, Some LoadCanceled, s').
Proof. intros Hf Hk Hb Hr. apply loadLoop_cancelled; [done|by apply frames_fuel|done..]. Qed.

(** A replay that only records the commands. *)
Definition recording (v : Value) (s : list Value) : option unit * list Value := (None, s ++ [v]).
Definition setCommand : Value := arr [text (bs "SET"); bulk (bs "k"); bulk (bs "v")].

Lemma load_replays_whole_commands_witness :
  ∃ t, LoadFile recording (wire [setCommand; setCommand] ++ bs "*3") []
    = (mkLoadStats 2 t, None, [wireValue setCommand; wireValue setCommand]).
Proof.
  apply (load_replays_whole_commands recording [setCommand; setCommand] (bs "*3") []).
  - by repeat constructor.
  - right. exists setCommand, (drop 2 (wireBytes setCommand)). split_and!; [done|done|by vm_compute].
Defined.

(** ** Acknowledged commands *)

(** Commands handed to the writer: groups of frames, each with whether it is
    synced, and ticks of the timer. *)
Definition appends (groups : list (option (list Value * bool))) : list aofOp :=
  (λ g, match g with Some (frames, syncNow) => OpAppend (wire frames) syncNow | None => OpTick end) <$> groups.
Definition framesOf (groups : list (option (list Value * bool))) : list Value :=
  g ← groups; match g with Some (frames, _) => frames | None => [] end.

Lemma logged_appends groups : logged (appends groups) = wire (framesOf groups).
Proof.
  induction groups as [|[[frames b]|] groups IH]; [done| |]; unfold framesOf, logged, appends in *; cbn [fmap list_fmap mbind list_bind] in *; rewrite IH; [|done].
  by rewrite wire_app.
Qed.

Lemma EncodeValues_wire frames : Forall (λ v, frameOk v = true) frames → EncodeValues frames = Ok (wire frames).
Proof.
  intros Hf. assert (forallb noNil frames = true) as Hn.
  { apply forallb_Forall. eapply Forall_impl; [exact Hf|]. by intros v (ws & _ & _ & _ & ? & _)%frameOk_inv. }
  unfold EncodeValues. assert (∃ n, EncodedValuesLen frames = Ok n) as [n ->].
  { unfold EncodedValuesLen. generalize 0. revert Hn. clear Hf. induction frames as [|v frames IH]; intros Hn z; [by eexists|].
    cbn [forallb lenAll] in *. apply andb_true_iff in Hn as [Hv Hn]. rewrite EncodedLen_spec, appendEncodedValue_ok by done. by apply IH. }
  cbn [result_bind]. by rewrite appendAll_ok.
Qed.

(** C10: under [appendfsync always] an acknowledged command survives. Take a
    writer on a file of whole commands whose bytes and directory entry are
    durable, and no rewrite. Once [AppendSync] of a group of commands has
    returned without an error, wherever a crash strikes later and whatever
    calls fail then, the file is there and loading it replays, in the order
    they were appended, at least every command up to that group and nothing
    but commands that were appended. *)
Theorem acknowledged_commands_replayed frames0 groups1 acked groups2 p w fs :
  freshWriter w (wire frames0) fs →
  Forall (λ v, frameOk v = true) (frames0 ++ framesOf groups1 ++ acked ++ framesOf groups2) →
  acked ≠ [] → EncodeValues acked = Ok p →
  let '(w1, fs1) := runOps (appends groups1) w fs in
  let '((e, w2), fs2) := AppendSync w1 p fs1 in
  let '(_, fs3) := runOps (appends groups2) w2 fs2 in
  e = None → ∀ d c, disksSince fs2 fs3 d → survives d (wPath w) c →
  ∃ data k, c = Some data ∧ (length (frames0 ++ framesOf groups1 ++ acked) ≤ k)%nat
    ∧ ∀ S E (replay : Value → S → option E * S) s, ∃ t, LoadFile replay data s
      = (let '(n, e, s') := replayAll replay (take k (frames0 ++ framesOf groups1 ++ acked ++ framesOf groups2)) 0 s in
         (mkLoadStats n (match e with Some _ => false | None => t end), ReplayError <$> e, s')).
Proof.
  intros Hw Hf Hne Hp. set (all := frames0 ++ framesOf groups1 ++ acked ++ framesOf groups2) in *.
  assert (p = wire acked) as ->.
  { rewrite EncodeValues_wire in Hp; [by injection Hp|]. subst all. rewrite !Forall_app in Hf. tauto. }
  assert (wire acked ≠ []) as Hpne.
  { destruct acked as [|v acked]; [done|]. subst all. rewrite !Forall_app, Forall_cons in Hf. destruct Hf as (_ & _ & (Hv & _) & _).
    unfold wire. cbn [fmap list_fmap concat]. intros [E _]%app_eq_nil. by apply (wireBytes_nonempty v). }
  pose proof (acknowledged_good w (wire frames0) (appends groups1) (wire acked) (appends groups2) fs Hw Hpne) as H.
  destruct (runOps (appends groups1) w fs) as [w1 fs1]. destruct (AppendSync w1 (wire acked) fs1) as [[e w2] fs2].
  destruct (runOps (appends groups2) w2 fs2) as [w3 fs3]. intros He d c Hd Hc.
  destruct (H He d c Hd Hc) as (c0 & -> & P1 & P2). rewrite !logged_appends in *.
  assert (c0 `prefix_of` wire all) as P3 by (subst all; by rewrite !wire_app).
  destruct (wire_cut all c0 Hf P3) as (k & tail & Hk & -> & Ht). exists (wire (take k all) ++ tail), k.
  split_and!; [done| |].
  - subst all. apply (wire_cut_keeps _ (framesOf groups2) k tail); rewrite <- ?app_assoc; [done|done|done|]. by rewrite !wire_app, <- ?app_assoc in *.
  - intros S E replay s. apply loadLoop_frames; [by apply Forall_take|done|]. apply frames_fuel. by apply Forall_take.
Qed.

(** A directory with an append-only file of one command, open for appending. *)
Definition demoPath : bytes := bs "stash.aof".
Definition demoAof (failing : list fault) : FS :=
  mkFS (mkDisk {[ 0%nat := mkFile (wire [setCommand]) (wire [setCommand]) ]} {[ demoPath := 0%nat ]} [])
    {[ 1%nat := (0%nat, true) ]} 2 failing [].
Definition demoWriter (policy : Policy) : Writer := mkWriter demoPath policy 1 (NewWriter 1) [] false false false false.

Lemma demoWriter_fresh policy failing : freshWriter (demoWriter policy) (wire [setCommand]) (demoAof failing).
Proof. split_and!; [done|done|]. exists 0%nat. split_and!; [done|by repeat constructor|done]. Qed.

Lemma acknowledged_commands_replayed_witness :
  let '((e, w2), fs2) := AppendSync (demoWriter PolicyAlways) (wire [setCommand]) (demoAof []) in
  let '(_, fs3) := runOps (appends [Some ([setCommand], false)]) w2 fs2 in
  ∀ d c, disksSince fs2 fs3 d → survives d demoPath c →
  ∃ data k, c = Some data ∧ (2 ≤ k)%nat
    ∧ ∀ S E (replay : Value → S → option E * S) s, ∃ t, LoadFile replay data s
      = (let '(n, e, s') := replayAll replay (take k [setCommand; setCommand; setCommand]) 0 s in
         (mkLoadStats n (match e with Some _ => false | None => t end), ReplayError <$> e, s')).
Proof.
  pose proof (acknowledged_commands_replayed [setCommand] [] [setCommand] [Some ([setCommand], false)] (wire [setCommand])
    (demoWriter PolicyAlways) (demoAof []) (demoWriter_fresh _ _) ltac:(by repeat constructor) ltac:(done) ltac:(by vm_compute)) as H.
  cbn [appends fmap list_fmap runOps] in *. unfold fret at 1 in H. cbv beta iota in H.
  assert ((AppendSync (demoWriter PolicyAlways) (wire [setCommand]) (demoAof [])).1.1 = None) as He by (vm_compute; reflexivity).
  destruct (AppendSync (demoWriter PolicyAlways) (wire [setCommand]) (demoAof [])) as [[e w2] fs2].
  match goal with |- context [match ?m with (_, _) => _ end] => destruct m as [w3 fs3] end.
  exact (H He).
Defined.

(** ** The swap of a rewrite *)

Section Swap.
Context (w : Writer) (tempPath rewritten : bytes) (h : nat) (fs0 : FS) (ino0 : nat) (file0 : file).
Context (Hne : tempPath ≠ wPath w).

Abbreviation path := (wPath w).
Abbreviation payload := (rewritten ++ rewriteBuffer w).
Abbreviation refused := (renameRefused (faults fs0)).
Abbreviation SafeD := (Safe path payload (faults fs0) (Some ino0) file0).
Abbreviation I1 := (Inv SafeD (faults fs0) (trail fs0)).

(** Where a rename was refused because the target exists, the code removes the
    target first; nothing is claimed then. *)
Definition SafeOrRefused (d : disk) : Prop := SafeD d ∨ refused.
Abbreviation I2 := (Inv SafeOrRefused (faults fs0) (trail fs0)).

Lemma SafeOrRefused_survives d c : SafeOrRefused d → survives d path c →
  leaves (Some ino0) file0 c ∨ c = Some payload ∨ refused.
Proof.
  intros [HS|Hr] Hc; [|by right; right].
  destruct (Safe_survives _ _ _ _ _ _ _ HS Hc) as [?|[?|[? ?]]]; [by left|by right; left|by right; right].
Qed.

Lemma I1_I2 (C C' : core) fs : (∀ d hs n, C d hs n → C' d hs n) → I1 C fs → I2 C' fs.
Proof.
  intros HC (H1 & H2 & later & H3 & H4). split_and!; [by apply HC|done|]. exists later. split; [done|].
  eapply Forall_impl; [exact H4|]. intros d Hd. by left.
Qed.

(** What [finalizeRewrite] leaves. *)
Definition Out (r : result aofError bool) (w' : Writer) : core := λ d hs n,
  rewriteActive w' = false ∧ rewriteBuffer w' = [] ∧ rewritePending w' = false ∧
  match r with
  | Ok true => wPath w' = path ∧ wClosed w' = false ∧ wWriter w' = NewWriter (wFile w')
      ∧ CDone path payload (Some ino0) file0 d hs n
      ∧ ∃ t, hs !! wFile w' = Some (t, true) ∧ dirents d !! path = Some t
  | _ => SafeOrRefused d
  end.

Lemma Out_failed r w' (C : core) fs : r ≠ Ok true → (∀ d hs n, C d hs n → SafeD d) →
  I1 C fs → I2 (Out r (clearRewriteStateLocked w' true)) fs.
Proof.
  intros Hr HC. apply I1_I2. intros d hs n H. split_and!; [done|done|done|]. destruct r as [[|]|]; [done|left; by eapply HC|left; by eapply HC].
Qed.

Lemma close_any h' (C : core) : (∀ d hs hs' n, C d hs n → C d hs' n) → (∀ d hs n, C d hs n → SafeD d) →
  hoare (I1 C) (FileClose h') (λ r, I1 C).
Proof.
  intros HC HS. apply (hoare_oscall SafeD _ _ _ _ C (λ _, C)).
  - intros n. plain_run.
  - plain_run.
  - intros e n fs H _. eapply HC; exact H.
  - intros fs H. unfold whenOpen. destruct (handles fs !! h') as [[i [|]]|]; [eapply HC|..]; exact H.
  - intros _. apply HS.
Qed.

(** Reopening the target. *)
Lemma reopen_done w' : wPath w' = path → wClosed w' = false →
  hoare (I1 (CDone path payload (Some ino0) file0)) (reopenAppendOnlyFileLocked w')
    (λ r, I2 (λ d hs n, match r.1 with
       | None => wPath r.2 = path ∧ wClosed r.2 = false ∧ wWriter r.2 = NewWriter (wFile r.2)
           ∧ CDone path payload (Some ino0) file0 d hs n ∧ ∃ t, hs !! wFile r.2 = Some (t, true) ∧ dirents d !! path = Some t
       | Some _ => SafeD d end)).
Proof.
  intros Hp Hc. unfold reopenAppendOnlyFileLocked. rewrite Hp.
  apply (hoare_bind _ _ _ (λ r, I1 (λ d hs n, match r with
    | Ok h' => CDone path payload (Some ino0) file0 d hs n ∧ ∃ t, hs !! h' = Some (t, true) ∧ dirents d !! path = Some t
    | Err _ => SafeD d end))).
  - apply (hoare_oscall SafeD _ _ _ _ _ (λ r d hs n, match r with
      | Ok h' => CDone path payload (Some ino0) file0 d hs n ∧ ∃ t, hs !! h' = Some (t, true) ∧ dirents d !! path = Some t
      | Err _ => SafeD d end)).
    + apply noEffect_plain.
    + plain_run.
    + intros e n fs H _. by eapply CDone_Safe.
    + intros fs HD. pose proof HD as (_ & t & H1%entryIs_now & _). rewrite H1. cbn. split; [exact HD|]. exists t. by rewrite lookup_insert_eq.
    + intros [h'|e] d hs n; [intros [H _]; by eapply CDone_Safe|done].
  - intros [h'|e] fs H; (eapply I1_I2; [|exact H]); intros d hs n; [|done].
    intros (HD & t & H1 & H2). cbn. split_and!; [done|done|done|exact HD|by exists t].
Qed.
Lemma reopen_safe w' : wPath w' = path →
  hoare (I1 (λ d _ _, SafeD d)) (reopenAppendOnlyFileLocked w') (λ r, I2 (λ d _ _, SafeOrRefused d)).
Proof.
  intros Hp. unfold reopenAppendOnlyFileLocked. rewrite Hp.
  apply (hoare_bind _ _ _ (λ _, I2 (λ d _ _, SafeOrRefused d))); [|by intros [h'|e] fs H].
  intros fs H. apply (I1_I2 _ (λ d _ _, SafeD d)) in H; [|done]. revert fs H.
  apply (hoare_oscall SafeOrRefused _ _ _ _ _ (λ _ d _ _, SafeOrRefused d)).
  - apply noEffect_plain.
  - plain_run.
  - intros e n fs H _. by left.
  - intros fs [H1 H2]. destruct (dirents (fsDisk fs) !! path) as [i|] eqn:Ei; cbn; [by left|].
    apply Forall_cons_1 in H2 as [H2 _]. rewrite Ei in H2. destruct H2 as [[?|(t & ? & _)]|[_ Hr]]; [done|done|by right].
  - done.
Qed.

Abbreviation CTempD := (CTemp path tempPath (Some ino0) file0).

Lemma ready_safe d hs n : CReady path tempPath payload (Some ino0) file0 d hs n → SafeD d.
Proof. intros [H _]. by apply Old_Safe. Qed.

Lemma failed_ok w' e data dur :
  hoare (I1 (CTempD h data dur)) (let% _ := FileClose h in fret (Err (A := bool) e, clearRewriteStateLocked w' true))
    (λ r, I2 (Out r.1 r.2)).
Proof.
  eapply hoare_bind; [apply FileClose_ok|]. intros r fs H. eapply Out_failed; [done| |exact H].
  intros d hs n [Ho _]. by apply Old_Safe.
Qed.

Lemma swap_ok : wClosed w = false →
  hoare (I1 (CReady path tempPath payload (Some ino0) file0)) (swapRewriteFileLocked w tempPath)
    (λ r, I2 (Out (match r.1 with Some e => Err e | None => Ok true end) (clearRewriteStateLocked r.2 true))).
Proof.
  intros Hc. unfold swapRewriteFileLocked. eapply hoare_bind; [apply close_any; [done|apply ready_safe]|].
  intros [u|e]; [|intros fs H; eapply Out_failed; [done|apply ready_safe|exact H]].
  eapply hoare_bind; [by apply replaceFile_ok|]. intros [u'|e].
  - eapply hoare_bind; [by apply reopen_done|]. intros [[e|] w'] fs (H & HI); cbn [fst snd] in *; (split; [|exact HI]); split_and!; try done; by left.
  - eapply hoare_bind; [by apply reopen_safe|]. intros [e' w'] fs (H & HI). by split.
Qed.

Lemma finalize_ok dur : wClosed w = false →
  hoare (I1 (CTempD h rewritten dur)) (finalizeRewrite w h tempPath) (λ r, I2 (Out r.1 r.2)).
Proof.
  intros Hc. unfold finalizeRewrite. rewrite Hc. eapply hoare_bind; [apply FileWrite_ok|]. intros [u|e].
  2: { intros fs (HC & HI). destruct HC as [data HC]. by apply (failed_ok w (ErrRewriteBuffered e) data dur). }
  eapply hoare_bind; [apply FileSync_ok|]. intros [u'|e]; [|apply failed_ok].
  eapply hoare_bind; [apply FileClose_ok|]. intros [u2|e]; [|intros fs H; eapply Out_failed; [done|apply ready_safe|exact H]].
  eapply hoare_bind; [by apply swap_ok|]. intros [[e|] w'] fs H; exact H.
Qed.

Lemma remove_ok r w' : r ≠ Ok true → hoare (I2 (Out r w')) (removeTemp tempPath) (λ _, I2 (Out r w')).
Proof.
  intros Hr. unfold removeTemp. apply (hoare_bind _ _ _ (λ _, I2 (Out r w'))); [|by intros x fs H].
  assert (∀ d hs n, Out r w' d hs n → SafeOrRefused d) as HS.
  { intros d hs n (_ & _ & _ & H). by destruct r as [[|]|]. }
  apply (hoare_oscall SafeOrRefused _ _ _ _ (Out r w') (λ _, Out r w')); [apply noEffect_plain|plain_run|done| |by intros _].
  intros fs H. cbn zeta. destruct (dirents (fsDisk fs) !! tempPath); [|done].
  destruct H as (P1 & P2 & P3 & H). split_and!; [done..|]. assert (SafeOrRefused (fsDisk fs)) as [[H1 H2]|?] by (by destruct r as [[|]|]); [|by destruct r as [[|]|]; [done|right|right]].
  assert (SafeD (setDirents (delete tempPath (dirents (fsDisk fs))) (fsDisk fs))) as HSD.
  { split; [done|]. pose proof (Forall_cons_1 _ _ _ H2) as [Hnow _]. constructor; [cbn; by rewrite lookup_delete_ne|exact H2]. }
  by destruct r as [[|]|]; [done|left|left].
Qed.

Lemma rewriteFinalize_ok dur : wClosed w = false →
  hoare (I1 (CTempD h rewritten dur)) (rewriteFinalize w h tempPath) (λ r, I2 (Out r.1 r.2)).
Proof.
  intros Hc. unfold rewriteFinalize. eapply hoare_bind; [by apply finalize_ok|]. intros [[[|]|e] w']; [by intros fs H| |].
  - apply (hoare_bind _ _ _ (λ _, I2 (Out (Ok false) w'))); [by apply remove_ok|]. by intros x fs H.
  - apply (hoare_bind _ _ _ (λ _, I2 (Out (Err e) w'))); [by apply remove_ok|]. by intros x fs H.
Qed.
End Swap.

(** The rewrite goroutine between [GenerateRewrite] and the swap: the temporary
    file holds [rewritten], the target its old file. *)
Definition readyToSwap (w : Writer) (h : nat) (tempPath rewritten : bytes) (fs : FS) (file0 : file) : Prop :=
  wClosed w = false ∧ tempPath ≠ wPath w
  ∧ ∃ ino0 t dur, t ≠ ino0
      ∧ entryIs (fsDisk fs) (wPath w) (Some ino0) ∧ inodes (fsDisk fs) !! ino0 = Some file0
      ∧ dirents (fsDisk fs) !! tempPath = Some t ∧ inodes (fsDisk fs) !! t = Some (mkFile rewritten dur) ∧ handles fs !! h = Some (t, true).

(** C11: the swap at the end of a rewrite is atomic. The old file's directory
    entry is durable. Whatever calls fail and wherever a crash strikes, the
    append-only file is the old one or the whole rewritten one followed by
    the commands appended since the snapshot, except where the system
    refused to rename over an existing file and the code removes the old one
    first: then nothing is claimed of the file. When the rewrite completes,
    the writer appends to the new file, all of which is durable; in every
    case the rewrite state is reset. *)
Theorem rewrite_swap_atomic w h tempPath rewritten fs file0 :
  readyToSwap w h tempPath rewritten fs file0 →
  let '((r, w'), fs') := rewriteFinalize w h tempPath fs in
  (∀ d c, disksSince fs fs' d → survives d (wPath w) c →
     (∃ data, c = Some data ∧ fdurable file0 `prefix_of` data ∧ data `prefix_of` fdata file0)
     ∨ c = Some (rewritten ++ rewriteBuffer w) ∨ ∃ n, Fault OsExist n ∈ faults fs)
  ∧ (r = Ok true → wPath w' = wPath w ∧ freshWriter w' (rewritten ++ rewriteBuffer w) fs')
  ∧ rewriteActive w' = false ∧ rewritePending w' = false ∧ rewriteBuffer w' = [].
Proof.
  intros (Hc & Hne & ino0 & t & dur & Ht & H1 & H3 & H4 & H5 & H6).
  pose proof (rewriteFinalize_ok w tempPath rewritten h fs ino0 file0 Hne dur Hc fs) as H.
  destruct (rewriteFinalize w h tempPath fs) as [[r w'] fs'].
  assert (Inv (SafeOrRefused w rewritten fs ino0 file0) (faults fs) (trail fs) (Out w rewritten fs ino0 file0 r w') fs') as HI.
  { apply H. split_and!; [|done|exists []; by rewrite app_nil_r].
    split; [split; [by intros i [= <-]|done]|]. exists t. split_and!; [congruence|done..]. }
  clear H. split_and!.
  - intros d c Hd Hc0. assert (SafeOrRefused w rewritten fs ino0 file0 d) as HS.
    { refine (Inv_disks _ _ _ _ fs fs' d eq_refl HI _ Hd). intros d' hs n (_ & _ & _ & HO).
      destruct r as [[|]|]; [|done|done]. left. destruct HO as (_ & _ & _ & HD & _). by eapply CDone_Safe. }
    destruct (SafeOrRefused_survives _ _ _ _ _ _ _ HS Hc0) as [Hl|[?|?]]; [|by right; left|by right; right].
    left. unfold leaves in Hl. destruct c as [data|]; [by exists data|done].
  - intros ->. destruct HI as ((_ & _ & _ & P1 & P2 & P3 & (_ & t' & P4 & P6) & t2 & P7 & P8) & _). split; [done|].
    split_and!; [done|done|]. exists t'. rewrite P1. rewrite (entryIs_now _ _ _ P4) in P8. injection P8 as <-. done.
  - destruct HI as ((? & _) & _). done.
  - destruct HI as ((_ & _ & ? & _) & _). done.
  - destruct HI as ((_ & ? & _) & _). done.
Qed.

(** A rewrite about to swap, with one command appended since its snapshot. *)
Definition demoRewrite (failing : list fault) : FS :=
  mkFS (mkDisk {[ 0%nat := mkFile (wire [setCommand]) []; 2%nat := mkFile (bs "new") [] ]}
          {[ demoPath := 0%nat; bs "tmp" := 2%nat ]} [{[ demoPath := 0%nat ]}])
    {[ 1%nat := (0%nat, true); 3%nat := (2%nat, true) ]} 4 failing [].
Definition demoRewriter : Writer := mkWriter demoPath PolicyEverysec 1 (NewWriter 1) (wire [setCommand]) true false false false.

Lemma demoRewrite_ready failing : readyToSwap demoRewriter 3 (bs "tmp") (bs "new") (demoRewrite failing) (mkFile (wire [setCommand]) []).
Proof. split_and!; [done|done|]. exists 0%nat, 2%nat, []. split_and!; try done. by repeat constructor. Qed.

Lemma rewrite_swap_atomic_witness :
  let '((r, w'), fs') := rewriteFinalize demoRewriter 3 (bs "tmp") (demoRewrite []) in
  wPath w' = demoPath ∧ freshWriter w' (bs "new" ++ wire [setCommand]) fs'.
Proof.
  pose proof (rewrite_swap_atomic demoRewriter 3 (bs "tmp") (bs "new") (demoRewrite []) _ (demoRewrite_ready [])) as H.
  assert ((rewriteFinalize demoRewriter 3 (bs "tmp") (demoRewrite [])).1.1 = Ok true) as Hr by (vm_compute; reflexivity).
  destruct (rewriteFinalize demoRewriter 3 (bs "tmp") (demoRewrite [])) as [[r w'] fs']. exact (proj1 (proj2 H) Hr).
Defined.

(** ** What a rewrite generates *)

(** The words of a rewritten command are strings. *)
Lemma rewriteCommand_noNil name args : Forall (λ v, noNil v = true) args → noNil (rewriteCommand name args) = true.
Proof. intros Ha. unfold rewriteCommand, arr. cbn. by apply forallb_Forall. Qed.

Lemma bulks_noNil {A} (f : A → bytes) l : Forall (λ v, noNil v = true) ((λ a, bulkBytes (f a)) <$> l).
Proof. by apply Forall_fmap, Forall_true. Qed.

Lemma pairs_noNil {A} (f g : A → bytes) l : Forall (λ v, noNil v = true) (a ← l; [bulkString (f a); bulkBytes (g a)]).
Proof. induction l as [|a l IH]; cbn [mbind list_bind app]; by repeat constructor. Qed.

Lemma rewriteFrames_noNil entry now : Forall (λ v, noNil v = true) (rewriteFramesForEntry entry now).
Proof.
  unfold rewriteFramesForEntry. destruct (snPayload entry) as [d|items|es|es|pairs|members]; repeat case_match; try by constructor.
  1,2,4,5: apply Forall_singleton, rewriteCommand_noNil; constructor; [done|]; first [apply (bulks_noNil id)|apply pairs_noNil].
  apply Forall_fmap, Forall_true. intros e. apply rewriteCommand_noNil. repeat (constructor; [done|]). apply (bulks_noNil id).
Qed.

Section Writes.
Context {W : Type} (Write : W → bytes → W * option protoError) (P : bytes → W → Prop).
Hypothesis HWrite : ∀ b w c, P b w → let '(w', e) := Write w c in e = None → P (b ++ c) w'.

Lemma writeSeq_appends chunks : ∀ b w, P b w → let '(w', e) := writeSeq Write w chunks in e = None → P (b ++ concat chunks) w'.
Proof.
  induction chunks as [|c chunks IH]; intros b w HP; cbn [writeSeq concat]; [by rewrite app_nil_r|].
  pose proof (HWrite b w c HP) as H. destruct (Write w c) as [w' [e|]]; [done|]. specialize (IH (b ++ c) w' (H eq_refl)).
  by rewrite <- app_assoc in IH.
Qed.

Lemma writeThen_appends chunks (k : W → W * option protoError) b d w : P b w →
  (∀ w', P (b ++ concat chunks) w' → let '(w2, e) := k w' in e = None → P ((b ++ concat chunks) ++ d) w2) →
  let '(w', e) := match writeSeq Write w chunks with (w, Some e) => (w, Some e) | (w, None) => k w end in
  e = None → P (b ++ concat chunks ++ d) w'.
Proof.
  intros HP Hk. pose proof (writeSeq_appends chunks b w HP) as H. destruct (writeSeq Write w chunks) as [w' [e|]]; [done|].
  specialize (Hk w' (H eq_refl)). by rewrite <- app_assoc in Hk.
Qed.

Lemma writes_appends chunks v b w : WriteValue Write w v = writeSeq Write w chunks → wireBytes v = concat chunks → P b w →
  let '(w', e) := WriteValue Write w v in e = None → P (b ++ wireBytes v) w'.
Proof. intros -> ->. apply writeSeq_appends. Qed.

Ltac wire_eq := unfold wireBytes; cbn [appendEncodedValue]; unfold appendPrefixedStringLine, appendPrefixedIntLine;
  cbn [concat app]; rewrite ?app_nil_r, <- ?app_assoc; cbn [app]; rewrite ?app_nil_r; done.

Lemma writeFrames_step frames :
  Forall (λ v, ∀ b w, P b w → let '(w', e) := WriteValue Write w v in e = None → P (b ++ wireBytes v) w') frames →
  ∀ b w, P b w → let '(w', e) := writeFrames Write w frames in e = None → P (b ++ concat (wireBytes <$> frames)) w'.
Proof.
  induction 1 as [|v frames Hv Hf IH]; intros b w HP; cbn [writeFrames fmap list_fmap concat]; [by rewrite app_nil_r|].
  specialize (Hv b w HP). destruct (WriteValue Write w v) as [w' [e|]]; [done|].
  specialize (IH (b ++ wireBytes v) w' (Hv eq_refl)). by rewrite <- app_assoc in IH.
Qed.

Lemma WriteValue_appends v : noNil v = true → ∀ b w, P b w →
  let '(w', e) := WriteValue Write w v in e = None → P (b ++ wireBytes v) w'.
Proof.
  induction v as [s|s|z|d [|]|d [|]|es [|]|[|]| |] using Value_nested_ind; intros Hn b w HP; try done.
  - apply (writes_appends [["+"%byte]; s; crlf]); [done|wire_eq|done].
  - apply (writes_appends [["-"%byte]; s; crlf]); [done|wire_eq|done].
  - apply (writes_appends [[":"%byte]; FormatInt z; crlf]); [done|wire_eq|done].
  - apply (writes_appends [bs "$-1" ++ crlf]); [done|wire_eq|done].
  - replace (wireBytes (BulkString d false)) with (concat [["$"%byte]; FormatInt (zlen d); crlf] ++ concat [d; crlf]) by wire_eq.
    apply (writeThen_appends _ (λ w, writeSeq Write w [d; crlf]) b); [done|]. intros w' HP'. by apply writeSeq_appends.
  - apply (writes_appends [bs "$-1" ++ crlf]); [done|wire_eq|done].
  - replace (wireBytes (TextBulkString d false)) with (concat [["$"%byte]; FormatInt (zlen d); crlf] ++ concat [d; crlf]) by wire_eq.
    apply (writeThen_appends _ (λ w, writeSeq Write w [d; crlf]) b); [done|]. intros w' HP'. by apply writeSeq_appends.
  - apply (writes_appends [bs "*-1" ++ crlf]); [done|wire_eq|done].
  - cbn [noNil orb] in Hn. rewrite wireBytes_array by done.
    replace ("*"%byte :: FormatInt (zlen es) ++ crlf ++ concat (wireBytes <$> es))
      with (concat [["*"%byte]; FormatInt (zlen es); crlf] ++ concat (wireBytes <$> es)) by wire_eq.
    apply (writeThen_appends [["*"%byte]; FormatInt (zlen es); crlf] (λ w, writeFrames Write w es) b); [done|].
    intros w' HP'. apply writeFrames_step; [|done]. rewrite forallb_Forall in Hn.
    rewrite Forall_forall in *. intros v Hv. by apply H, Hn.
  - apply (writes_appends [bs "#t" ++ crlf]); [done|wire_eq|done].
  - apply (writes_appends [bs "#f" ++ crlf]); [done|wire_eq|done].
  - apply (writes_appends [bs "_" ++ crlf]); [done|wire_eq|done].
Qed.

Lemma writeFrames_appends frames b w : Forall (λ v, noNil v = true) frames → P b w →
  let '(w', e) := writeFrames Write w frames in e = None → P (b ++ wire frames) w'.
Proof.
  intros Hf. apply writeFrames_step. eapply Forall_impl; [exact Hf|]. intros v Hv. by apply WriteValue_appends.
Qed.

Lemma rewriteLoop_appends now sorted : ∀ stats b w, P b w →
  let '(w', (stats', e)) := rewriteLoop Write sorted now stats w in
  let frames := entry ← sorted; rewriteFramesForEntry entry now in
  e = None → P (b ++ wire frames) w' ∧ Commands_ stats' = Commands_ stats + zlen frames.
Proof.
  induction sorted as [|entry sorted IH]; intros stats b w HP; cbn [rewriteLoop mbind list_bind]; [cbn; rewrite app_nil_r; intros _; split; [done|]; unfold zlen; cbn [length]; lia|].
  case_bool_decide as Hn.
  { specialize (IH stats b w HP). rewrite Hn. done. }
  pose proof (writeFrames_appends (rewriteFramesForEntry entry now) b w (rewriteFrames_noNil _ _) HP) as H.
  destruct (writeFrames Write w (rewriteFramesForEntry entry now)) as [w' [e|]]; [done|].
  specialize (IH (mkRewriteStats (Keys stats + 1) (Commands_ stats + zlen (rewriteFramesForEntry entry now))) _ w' (H eq_refl)).
  destruct (rewriteLoop Write sorted now _ w') as [w2 [stats' e]]. cbn zeta in *. intros He. destruct (IH He) as [H1 H2].
  rewrite wire_app, app_assoc, zlen_app. split; [done|]. cbn [Commands_] in H2. lia.
Qed.
End Writes.

(** The temporary file [t] behind handle [h] holds [b]; nothing else differs from [d0]. *)
Definition TempHolds (d0 : disk) (hs0 : gmap nat (nat * bool)) (h t : nat) (b : bytes) (fs : FS) : Prop :=
  handles fs = hs0 ∧ dirents (fsDisk fs) = dirents d0 ∧ olderDirents (fsDisk fs) = olderDirents d0
  ∧ (∀ i, i ≠ t → inodes (fsDisk fs) !! i = inodes d0 !! i)
  ∧ ∃ dur, inodes (fsDisk fs) !! t = Some (mkFile b dur).

Lemma fileWriter_appends d0 hs0 h t b fs c : hs0 !! h = Some (t, true) → TempHolds d0 hs0 h t b fs →
  let '(fs', e) := fileWriter h fs c in e = None → TempHolds d0 hs0 h t (b ++ c) fs'.
Proof.
  intros Hh (H1 & H2 & H3 & H4 & dur & H5). unfold fileWriter, FileWrite, oscall, fbind, takeFault, record_, fret, whenOpen, appendData.
  destruct (faults fs) as [|[|e k] rest]; cbn [hd handles fsDisk]; [| |done]; rewrite H1, Hh, H5; intros _; split_and!; try done; cbn.
  1,3: intros i Hi; rewrite lookup_insert_ne by done; by apply H4.
  all: exists dur; by rewrite lookup_insert_eq.
Qed.

(** A generated rewrite is ready to be swapped in. *)
Lemma rewriteGenerate_ready w now h tempPath entries fs file0 task fs' :
  readyToSwap w h tempPath [] fs file0 →
  rewriteGenerate w now h tempPath entries fs = (Some task, w, fs') →
  task = TaskGenerated h tempPath ∧ readyToSwap w h tempPath (wire (rewriteFrames entries now)) fs' file0.
Proof.
  intros (Hc & Hne & ino0 & t & dur & Ht & H1 & H3 & H4 & H5 & H6). unfold rewriteGenerate, GenerateRewrite.
  pose proof (rewriteLoop_appends (fileWriter h) (TempHolds (fsDisk fs) (handles fs) h t)
    (λ b fs c, fileWriter_appends _ _ h t b fs c H6) now (merge_sort entryLe entries) (mkRewriteStats 0 0) [] fs) as H.
  destruct (rewriteLoop (fileWriter h) (merge_sort entryLe entries) now (mkRewriteStats 0 0) fs) as [fs1 [st [e|]]].
  { intros E. unfold fbind, fret in E. by repeat case_match. }
  intros [= <- <-]. split; [done|]. destruct H as [(E1 & E2 & E3 & E4 & dur' & E5) _]; [|done|].
  { split_and!; [done..|]. by exists dur. }
  split_and!; [done|done|]. exists ino0, t, dur'. unfold entryIs, directories. rewrite E1, E2, E3, E4 by done. split_and!; try done.
Qed.

(** ** What the writer loses

    Three runs, evaluated. *)

(** A file that a crash cut inside its second command. *)
Definition tornCommand : bytes := take 12 (wireBytes setCommand).
Definition tornAof : FS :=
  let data := wire [setCommand] ++ tornCommand in
  mkFS (mkDisk {[ 0%nat := mkFile data data ]} {[ demoPath := 0%nat ]} []) ∅ 1 [] [].

Definition contentAt (fs : FS) (path : bytes) : bytes :=
  match dirents (fsDisk fs) !! path with
  | Some ino => match inodes (fsDisk fs) !! ino with Some f => fdata f | None => [] end
  | None => []
  end.

(** The loader drops the torn command, here without reporting it in
    [TruncatedTail], and leaves its bytes in the file; the writer
    appends after them, so the next load stops there and silently drops every
    command acknowledged since. *)
Theorem torn_tail_hides_later_commands :
  LoadFile recording (contentAt tornAof demoPath) [] = (mkLoadStats 1 false, None, [wireValue setCommand])
  ∧ match OpenWriter demoPath PolicyAlways tornAof with
    | (Ok w, fs1) =>
        let '(e, _, fs2) := AppendSync w (wire [setCommand; setCommand]) fs1 in
        e = None ∧ LoadFile recording (contentAt fs2 demoPath) [] = (mkLoadStats 1 true, None, [wireValue setCommand])
    | _ => False
    end.
Proof. vm_compute. split; [|split]; reflexivity. Qed.

(** A rewrite whose rename fails reopens the old file with an empty buffer: the
    command that [Append] accepted and only buffered is in no file. *)
Theorem failed_swap_drops_buffered_commands :
  let failing := [NoFault; NoFault; NoFault; NoFault; Fault (OsOther 1) 0] in
  let '(e1, w1, fs1) := Append (demoWriter PolicyEverysec) (wire [setCommand]) (demoRewrite failing) in
  let '(r, w2, fs2) := rewriteFinalize (setFlags w1 true false false false) 3 (bs "tmp") fs1 in
  let '(e3, _, fs3) := Close w2 fs2 in
  e1 = None ∧ r = Err (ErrSwapReplace (ReplaceRename (OsOther 1)) None) ∧ e3 = None
  ∧ contentAt fs3 demoPath = contentAt (demoRewrite []) demoPath.
Proof. vm_compute. split; [|split; [|split]]; reflexivity. Qed.

(** The directory is synced after a rename but not after the file is created: a
    crash may take a new append-only file away with the commands acknowledged as
    durable. *)
Theorem new_file_may_vanish :
  match OpenWriter demoPath PolicyAlways (mkFS (mkDisk ∅ ∅ []) ∅ 0 [] []) with
  | (Ok w, fs1) =>
      let '(e, _, fs2) := AppendSync w (wire [setCommand]) fs1 in e = None ∧ survives (fsDisk fs2) demoPath None
  | _ => False
  end.
Proof.
  assert (match OpenWriter demoPath PolicyAlways (mkFS (mkDisk ∅ ∅ []) ∅ 0 [] []) with
    | (Ok w, fs1) => let '(e, _, fs2) := AppendSync w (wire [setCommand]) fs1 in e = None ∧ head (olderDirents (fsDisk fs2)) = Some ∅
    | _ => False end) as H by (vm_compute; by split).
  destruct (OpenWriter _ _ _) as [[w|] fs1]; [|done]. destruct (AppendSync _ _ fs1) as [[e w'] fs2]. destruct H as [He Hm]. split; [done|].
  exists ∅. split; [|by rewrite lookup_empty]. right. by apply head_Some_elem_of.
Qed.
