(* ===== verification/Config.v ===== *)
(** * Configuration and log level

    Models [internal/config/config.go] and [parseLevel] of
    [internal/logger/logger.go].  The flag package splits the command line into
    flags and converts numbers, durations and booleans; [parseFlags] starts from
    the settings that come out of it, in the order of the command line. *)

From S2P Require Import Prelude Strconv GoLib GoText.

(** ** Addresses of package [net] *)

Inductive addrError := missingPort | tooManyColons | missingBracket | unexpectedOpen | unexpectedClose.

(** The place of the last occurrence. *)
Fixpoint lastIndexByte (c : byte) (s : bytes) : option nat :=
  match s with
  | [] => None
  | b :: s' => match lastIndexByte c s' with
               | Some i => Some (S i)
               | None => if decide (b = c) then Some 0%nat else None
               end
  end.
Fixpoint indexByteOf (c : byte) (s : bytes) : option nat :=
  match s with
  | [] => None
  | b :: s' => if decide (b = c) then Some 0%nat else S <$> indexByteOf c s'
  end.
Definition hasByte (c : byte) (s : bytes) : bool := bool_decide (c ∈ s).

Abbreviation colon := ":"%byte.
Abbreviation openBracket := "["%byte.
Abbreviation closeBracket := "]"%byte.

Definition SplitHostPort (hostport : bytes) : result addrError (bytes * bytes) :=
  match lastIndexByte colon hostport with
  | None => Err missingPort
  | Some i =>
      let finish host (j k : nat) :=
        if hasByte openBracket (drop j hostport) then Err unexpectedOpen
        else if hasByte closeBracket (drop k hostport) then Err unexpectedClose
        else Ok (host, drop (S i) hostport) in
      if decide (hostport !! 0%nat = Some openBracket) then
        match indexByteOf closeBracket hostport with
        | None => Err missingBracket
        | Some e =>
            if decide (S e = length hostport) then Err missingPort
            else if decide (S e = i) then finish (take (e - 1) (drop 1 hostport)) 1%nat (S e)
            else if decide (hostport !! S e = Some colon) then Err tooManyColons
            else Err missingPort
        end
      else
        let host := take i hostport in
        if hasByte colon host then Err tooManyColons else finish host 0%nat 0%nat
  end.

Definition JoinHostPort (host port : bytes) : bytes :=
  if hasByte colon host then bs "[" ++ host ++ bs "]:" ++ port else host ++ bs ":" ++ port.

(** ** Config *)

Record Config := mkConfig {
  Host : bytes;
  Port : Z;
  LogLevel : bytes;
  EvictionInterval : Z;           (* nanoseconds *)
  EvictionSampleSize : Z;
  RDBPath : bytes;
  DumpPath : bytes;
  AOFPath : bytes;
  AppendFsync : bytes;
  ReplicaOf : bytes;
  MasterAuth : bytes;
  RequirePass : bytes;
  MaxMemory : Z;
  MaxClients : Z;
  SlowlogLogSlowerThan : Z;       (* nanoseconds *)
  EventLoopEnabled : bool         (* [EventLoop] *)
}.

Definition Microsecond : Z := 1000.
Definition Millisecond : Z := 1000 * Microsecond.

Definition Default : Config :=
  mkConfig (bs "127.0.0.1") 6379 (bs "info") (100 * Millisecond) 20 [] (bs "dump.rdb") [] (bs "everysec") [] [] [] 0 10000
    (10 * Millisecond) false.

Section Config.
Context {U : Unicode}.

Inductive configError :=
  | InvalidAppendFsync (value : bytes)
  | InvalidSlowlogThreshold (value : bytes)
  | InvalidMaxMemory (value : Z)
  | InvalidMaxClients (value : Z)
  | InvalidPort (value : Z)
  | InvalidReplicaOf (address : bytes) (e : option addrError).

Definition normalizeAppendFsync (value : bytes) : result configError bytes :=
  let normalized := strings_ToLower (strings_TrimSpace value) in
  if decide (normalized = bs "always" ∨ normalized = bs "everysec" ∨ normalized = bs "no") then Ok normalized
  else Err (InvalidAppendFsync value).

(** The product is an int64. *)
Definition parseSlowlogThreshold (value : bytes) : result configError Z :=
  match ParseInt (strings_TrimSpace value) with
  | None => Err (InvalidSlowlogThreshold value)
  | Some micros => if micros <? 0 then Ok (-1) else Ok (wrap64 (micros * Microsecond))
  end.

(** One flag with its value, as [fs.Parse] hands it to the variable. *)
Inductive setting :=
  | SetHost (v : bytes) | SetPort (v : Z) | SetLogLevel (v : bytes) | SetEvictionInterval (v : Z) | SetEvictionSampleSize (v : Z)
  | SetRDBPath (v : bytes) | SetDumpPath (v : bytes) | SetAOFPath (v : bytes) | SetMaxMemory (v : Z) | SetMaxClients (v : Z)
  | SetReplicaOf (v : bytes) | SetMasterAuth (v : bytes) | SetRequirePass_ (v : bytes) | SetEventLoop (v : bool)
  | SetSlowlog (v : bytes) | SetAppendFsync (v : bytes).

Definition apply (c : Config) (s : setting) : result configError Config :=
  let 'mkConfig host port level interval sample rdb dump aof fsync master mauth pass mem clients slow loop := c in
  match s with
  | SetHost v => Ok (mkConfig v port level interval sample rdb dump aof fsync master mauth pass mem clients slow loop)
  | SetPort v => Ok (mkConfig host v level interval sample rdb dump aof fsync master mauth pass mem clients slow loop)
  | SetLogLevel v => Ok (mkConfig host port v interval sample rdb dump aof fsync master mauth pass mem clients slow loop)
  | SetEvictionInterval v => Ok (mkConfig host port level v sample rdb dump aof fsync master mauth pass mem clients slow loop)
  | SetEvictionSampleSize v => Ok (mkConfig host port level interval v rdb dump aof fsync master mauth pass mem clients slow loop)
  | SetRDBPath v => Ok (mkConfig host port level interval sample v dump aof fsync master mauth pass mem clients slow loop)
  | SetDumpPath v => Ok (mkConfig host port level interval sample rdb v aof fsync master mauth pass mem clients slow loop)
  | SetAOFPath v => Ok (mkConfig host port level interval sample rdb dump v fsync master mauth pass mem clients slow loop)
  | SetMaxMemory v => Ok (mkConfig host port level interval sample rdb dump aof fsync master mauth pass v clients slow loop)
  | SetMaxClients v => Ok (mkConfig host port level interval sample rdb dump aof fsync master mauth pass mem v slow loop)
  | SetReplicaOf v => Ok (mkConfig host port level interval sample rdb dump aof fsync v mauth pass mem clients slow loop)
  | SetMasterAuth v => Ok (mkConfig host port level interval sample rdb dump aof fsync master v pass mem clients slow loop)
  | SetRequirePass_ v => Ok (mkConfig host port level interval sample rdb dump aof fsync master mauth v mem clients slow loop)
  | SetEventLoop v => Ok (mkConfig host port level interval sample rdb dump aof fsync master mauth pass mem clients slow v)
  | SetSlowlog v =>
      let? t := parseSlowlogThreshold v in
      Ok (mkConfig host port level interval sample rdb dump aof fsync master mauth pass mem clients t loop)
  | SetAppendFsync v =>
      let? p := normalizeAppendFsync v in
      Ok (mkConfig host port level interval sample rdb dump aof p master mauth pass mem clients slow loop)
  end.

Fixpoint applyAll (c : Config) (settings : list setting) : result configError Config :=
  match settings with [] => Ok c | s :: settings => let? c := apply c s in applyAll c settings end.

Definition parseFlags (settings : list setting) : result configError Config :=
  let? cfg := applyAll Default settings in
  if MaxMemory cfg <? 0 then Err (InvalidMaxMemory (MaxMemory cfg))
  else if MaxClients cfg <? 0 then Err (InvalidMaxClients (MaxClients cfg))
  else if (Port cfg <? 0) || (65535 <? Port cfg) then Err (InvalidPort (Port cfg))
  else Ok cfg.

Definition Address (c : Config) : bytes :=
  if decide (Host c = []) then bs ":" ++ FormatInt (Port c) else Host c ++ bs ":" ++ FormatInt (Port c).

Definition IsReplica (c : Config) : bool := negb (bool_decide (strings_TrimSpace (ReplicaOf c) = [])).

Definition ReplicaAddress (c : Config) : result configError bytes :=
  let address := strings_TrimSpace (ReplicaOf c) in
  if decide (address = []) then Ok []
  else
    match SplitHostPort address with
    | Err e => Err (InvalidReplicaOf address (Some e))
    | Ok (host, port) =>
        if decide (host = [] ∨ port = []) then Err (InvalidReplicaOf address None)
        else Ok (JoinHostPort host port)
    end.

(** ** [parseLevel] *)

Inductive Level := LevelDebug | LevelInfo | LevelWarn | LevelError.
Definition parseLevel (level : bytes) : Level :=
  let name := strings_ToLower level in
  if decide (name = bs "debug") then LevelDebug
  else if decide (name = bs "warn") then LevelWarn
  else if decide (name = bs "error") then LevelError
  else LevelInfo.

(** ** Facts *)

(** What the server may rely on in a configuration that was accepted. *)
Definition ConfigOk (c : Config) : Prop :=
  0 ≤ MaxMemory c ∧ 0 ≤ MaxClients c ∧ 0 ≤ Port c ≤ 65535
  ∧ (AppendFsync c = bs "always" ∨ AppendFsync c = bs "everysec" ∨ AppendFsync c = bs "no").

Lemma normalizeAppendFsync_ok v p : normalizeAppendFsync v = Ok p → p = bs "always" ∨ p = bs "everysec" ∨ p = bs "no".
Proof. unfold normalizeAppendFsync. cbn zeta. case_decide; [|done]. by intros [= <-]. Qed.

Lemma apply_fsync c s c' : apply c s = Ok c' →
  AppendFsync c' = AppendFsync c ∨ AppendFsync c' = bs "always" ∨ AppendFsync c' = bs "everysec" ∨ AppendFsync c' = bs "no".
Proof.
  destruct c. destruct s; cbn [apply]; try (intros [= <-]; by left).
  - destruct (parseSlowlogThreshold v); [|done]. cbn. intros [= <-]. by left.
  - destruct (normalizeAppendFsync v) eqn:E; [|done]. cbn. intros [= <-]. right. by eapply normalizeAppendFsync_ok.
Qed.

Lemma applyAll_fsync settings : ∀ c c', applyAll c settings = Ok c' →
  AppendFsync c = bs "always" ∨ AppendFsync c = bs "everysec" ∨ AppendFsync c = bs "no" →
  AppendFsync c' = bs "always" ∨ AppendFsync c' = bs "everysec" ∨ AppendFsync c' = bs "no".
Proof.
  induction settings as [|s settings IH]; intros c c'; cbn [applyAll]; [by intros [= <-]|].
  destruct (apply c s) as [c1|] eqn:E; [|done]. cbn [result_bind]. intros Hc Hf. apply (IH _ _ Hc).
  apply apply_fsync in E as [->|?]; tauto.
Qed.

(** Accepted flags give a configuration within its ranges, with a policy that
    [ParsePolicy] knows. *)
Theorem parseFlags_ranges settings cfg : parseFlags settings = Ok cfg → ConfigOk cfg.
Proof.
  unfold parseFlags. destruct (applyAll Default settings) as [c|] eqn:E; [|done]. cbn [result_bind].
  apply applyAll_fsync in E; [|by right; left]. repeat (case_match; [done|]). intros [= <-].
  bool_to_prop. split_and!; [lia|lia|lia|lia|done].
Qed.
End Config.

(** A threshold whose microseconds do not fit an int64 of nanoseconds wraps: what
    was meant as "almost never" becomes negative, and the slow log is off. *)
Theorem slowlog_threshold_wraps :
  parseSlowlogThreshold (U := asciiOnlyTables) (bs "9223372036854776") = Ok (-9223372036854775616).
Proof. vm_compute. reflexivity. Qed.

(** An IPv6 host is not bracketed: the address it gives names no host and port. *)
Theorem ipv6_host_address_invalid :
  let cfg := mkConfig (bs "::1") 6379 [] 0 0 [] [] [] [] [] [] [] 0 0 0 false in
  Address cfg = bs "::1:6379" ∧ SplitHostPort (Address cfg) = Err tooManyColons.
Proof. vm_compute. by split. Qed.
