(* ===== verification/Server.v ===== *)
(** * The server: clients, durability, monitors and the request pipeline

    Models [handler.go], [aof.go], [observability.go] and the client part of
    [server.go] of [internal/server], and the request side of [replication.go].

    The state is the executor with its registries, the append-only file writer
    and the counters; file calls go through [FileSys].  The store calls
    [recordExpiredKeys] while a command runs; here its batches are handled right
    after the command, before the command's own frames: the order in which both
    reach the file and the replicas is the same.  Log lines are not modelled. *)

From S2P Require Import Prelude Strconv GoLib GoText Float64 Resp RespParser Stream ValueObject Store StoreOps Clients Slowlog.
From S2P Require Import Rdb FileSys RdbSave Replication CommandBase Commands Executor Config Aof AofWriter.

Record Server := mkServer {
  cfg : Config;
  executor : Executor;
  aofWriter : option Writer;
  commandsProcessed : Z;
  clientStates : gset nat;          (* the keys of [s.clientStates] *)
  upstreamOpen : bool               (* [s.upstreamConn != nil] *)
}.

Definition setExecutor (e : Executor) (s : Server) : Server :=
  mkServer (cfg s) e (aofWriter s) (commandsProcessed s) (clientStates s) (upstreamOpen s).
Definition setAofWriter (w : option Writer) (s : Server) : Server :=
  mkServer (cfg s) (executor s) w (commandsProcessed s) (clientStates s) (upstreamOpen s).
Definition setClientStates (X : gset nat) (s : Server) : Server :=
  mkServer (cfg s) (executor s) (aofWriter s) (commandsProcessed s) X (upstreamOpen s).
Definition countCommand (s : Server) : Server :=
  mkServer (cfg s) (executor s) (aofWriter s) (commandsProcessed s + 1) (clientStates s) (upstreamOpen s).
Definition setUpstream (b : bool) (s : Server) : Server :=
  mkServer (cfg s) (executor s) (aofWriter s) (commandsProcessed s) (clientStates s) b.
Definition onServerHub (f : Hub → Hub) (s : Server) : Server := setExecutor (setHub (f (hub (executor s))) (executor s)) s.

Inductive serverError :=
  | EncodeFailed (e : protoError)
  | AppendFailed (e : aofError)
  | CloseFailed (e : aofError)
  | LoadRDBFailed (e : loadFileError)
  | PolicyInvalid (raw : bytes)
  | InspectFailed (e : osError)
  | LoadAOFFailed (e : loadError cmdError + osError)
  | OpenFailed (e : aofError)
  | SnapshotFailed (e : saveError).

Section Server.
Context {CE : CommandEnv}.

(** ** Construction and clients (server.go) *)

(** [New], with an executor that implements every setter. *)
Definition New (c : Config) (replicationID : bytes) (store : Store) : Server :=
  let e := NewExecutor (setListener true store) in
  let e := setReplication (Some (mkReplication replicationID 0 0)) (Some NewReplicaRegistry) e in
  let e := SetRequirePass (RequirePass c) e in
  let e := SetSlowlogConfig (Some NewSlowlogRegistry) (SlowlogLogSlowerThan c) e in
  mkServer c (AttachMonitorRegistry true e) None 0 ∅ false.

Definition createClientState (id : nat) (s : Server) : Server :=
  let bind h := SetMonitorRegistry id (SetPubSubRegistry id (SetWatchRegistry id h)) in
  setClientStates ({[ id ]} ∪ clientStates s) (onServerHub bind s).

(** The registry hands out the number; the state starts authenticated when no
    password is required. *)
Definition registerClient (s : Server) : nat * Server :=
  let c := SetAuthenticated (bool_decide (RequirePass (cfg s) = [])) newClientState in
  let '(id, h) := ClientRegistry_Add c (hub (executor s)) in
  (id, createClientState id (setExecutor (setHub h (executor s)) s)).

Definition getClientState (id : nat) (s : Server) : option nat := if decide (id ∈ clientStates s) then Some id else None.

Definition removeClientState (id : nat) (s : Server) : Server :=
  let present := bool_decide (id ∈ clientStates s) in
  let s := setClientStates (clientStates s ∖ {[ id ]}) s in
  if present then onServerHub (Disconnect id) s else s.

Definition setPeers (f : ReplicaRegistry → ReplicaRegistry) (e : Executor) : Executor :=
  setReplication (replication e) (f <$> replicaPeers e) e.

Definition teardownClient (id : nat) (s : Server) : Server :=
  let s := setExecutor (setPeers (λ r, (Replicas_Remove id r).2) (executor s)) s in
  removeClientState id (onServerHub (ClientRegistry_Remove id) s).

Definition overConnectionLimit (s : Server) : bool :=
  (0 <? MaxClients (cfg s)) && (MaxClients (cfg s) <=? ClientRegistry_Count (hub (executor s))).

Definition refusal : Value := ErrorValue (bs "ERR max number of clients reached").

(** A round of [serveGoroutinePerConnection] with an accepted connection: the
    client to serve, or the refusal written to the socket before it is closed. *)
Definition acceptConnection (s : Server) : result Value nat * Server :=
  if overConnectionLimit s then (Err refusal, s)
  else let '(id, s) := registerClient s in (Ok id, s).

Definition clearClientStates (s : Server) : Server :=
  foldl (λ s id, onServerHub (Disconnect id) s) (setClientStates ∅ s) (idOrder (clientStates s)).

(** The connections it closes; the [sync.Once] around it is the caller's. *)
Definition shutdown (s : Server) : gset nat * Server :=
  let s := setUpstream false s in
  let '(closed, h) := ClientRegistry_CloseAll (hub (executor s)) in
  (closed, clearClientStates (setExecutor (setHub h (executor s)) s)).

Definition ReplicaCount (s : Server) : Z := match replicaPeers (executor s) with Some r => Replicas_Count r | None => 0 end.

Definition ServerStatsOf (s : Server) : ServerStats :=
  let e := executor s in
  let role := if IsReplica (cfg s) then bs "slave" else bs "master" in
  let peers := match replicaPeers e with
    | Some r => omap (λ id, (λ p, mkReplicaInfo id (ListeningPort p) (AckOffset p)) <$> (replicas r !! id)) (Replicas_Snapshot r)
    | None => [] end in
  mkServerStats (ClientRegistry_Count (hub e)) (Monitor_Count (hub e)) (commandsProcessed s) role
    (match replication e with Some r => MasterReplicationID r | None => [] end)
    (MasterOffset (replication e)) (ReplicaOffset (replication e)) peers.

(** ** Monitors (observability.go) *)

Record observedCommand := mkObserved { obsParts : list bytes; obsClient : nat; obsAddr : bytes; obsNanos : Z }.

Fixpoint partsOf (elements : list Value) : option (list bytes) :=
  match elements with
  | [] => Some []
  | e :: elements => match Bytes e with Err _ => None | Ok raw => (raw ::.) <$> partsOf elements end
  end.
Definition commandParts (value : Value) : option (list bytes) :=
  match value with
  | Array elements false => if decide (elements = []) then None else partsOf elements
  | _ => None
  end.

(** [None] is [OK: false]; the time is read only for a command. *)
Definition observeCommand (value : Value) (id : nat) (addr : bytes) (nanos : Z) : option observedCommand :=
  match commandParts value with
  | None => None
  | Some parts =>
      let parts := match parts with name :: rest => strings_ToUpper name :: rest | [] => [] end in
      Some (mkObserved parts id addr nanos)
  end.

Definition monitorLine (command : observedCommand) : bytes :=
  let seconds := obsNanos command / 1000000000 in
  let micros := (obsNanos command mod 1000000000) / 1000 in
  let microText := FormatInt micros in
  FormatInt seconds ++ bs "." ++ replicate (6 - length microText) "0"%byte ++ microText
    ++ bs " [" ++ FormatUint (Z.of_nat (obsClient command)) ++ bs " " ++ obsAddr command ++ bs "]"
    ++ (part ← obsParts command; bs " " ++ QuoteToASCII part).

(** A monitor that cannot take the line within the deadline is disconnected. *)
Definition broadcastMonitorEvent (command : option observedCommand) (s : Server) : Server :=
  match command with
  | None => s
  | Some c =>
      match Encode (SimpleString (monitorLine c)) with
      | Err _ => s
      | Ok payload => onServerHub (λ h, (foldl (pushTo payload) (0, h) (Monitor_AppendSubscribers h)).2) s
      end
  end.

(** ** Propagation (replication.go) *)

Definition propagate (values : list Value) (s : Server) : propagationReport * Server :=
  let e := executor s in
  match replicaPeers e with
  | None => (mkReport 0 0 0 0 0, s)
  | Some r =>
      let '(report, (repl, r, h)) := propagateToReplicas values (replication e) r (hub e) in
      (report, setExecutor (setHub h (setReplication repl (Some r) e)) s)
  end.

Definition registerReplicaPeer (id : nat) (s : Server) : Server :=
  match getClientState id s with
  | None => s
  | Some _ =>
      let c := client (hub (executor s)) id in
      if negb (Replica c) then s
      else setExecutor (setPeers (Replicas_Add id (ReplicaListenPort c)) (executor s)) s
  end.

Definition recordClientWriteOffset (ctx : Context_) (offset : Z) (s : Server) : Server :=
  if offset <=? 0 then s
  else match ctxClient ctx with
       | None => s
       | Some id => onServerHub (onClient id (SetLastWriteReplicationOffset offset)) s
       end.

(** ** Durability (aof.go) *)

Inductive rewriteRefusal := NotEnabled | Refused (e : aofError).
Definition beginAOFRewrite (s : Server) : option rewriteRefusal * Server :=
  match aofWriter s with
  | None => (Some NotEnabled, s)
  | Some w => let '(e, w) := BeginRewrite w true in (Refused <$> e, setAofWriter (Some w) s)
  end.

Definition closeAOFWriter (s : Server) : FM (option serverError * Server) :=
  match aofWriter s with
  | None => fret (None, s)
  | Some w => let% (e, _) := Close w in fret (CloseFailed <$> e, setAofWriter None s)
  end.

(** [Append] or [AppendSync] on the server's writer. *)
Definition appendWith (syncNow : bool) (payload : bytes) (s : Server) : FM (option serverError * Server) :=
  match aofWriter s with
  | None => fret (None, s)
  | Some w => let% (e, w) := append w payload syncNow in fret (AppendFailed <$> e, setAofWriter (Some w) s)
  end.

Definition isAlways (s : Server) : bool := bool_decide (Writer_Policy (aofWriter s) = PolicyAlways).

Definition persistDurabilityFrames (values : list Value) (s : Server) : FM (option serverError * Server) :=
  if bool_decide (aofWriter s = None) || (zlen values =? 0) then fret (None, s)
  else
    match EncodeValues values with
    | Err e => fret (Some (EncodeFailed e), s)
    | Ok payload => appendWith (isAlways s) payload s
    end.

(** The payload it wrote, empty when it had nothing to do. *)
Definition prepareDurabilityBeforeResponse (values : list Value) (s : Server) : FM (result serverError bytes * Server) :=
  if bool_decide (aofWriter s = None) || negb (isAlways s) || (zlen values =? 0) then fret (Ok [], s)
  else
    match EncodeValues values with
    | Err e => fret (Err (EncodeFailed e), s)
    | Ok payload =>
        let% (err, s) := appendWith true payload s in
        fret (match err with Some e => Err e | None => Ok payload end, s)
    end.

Definition finalizeMutationEffects (ctx : Context_) (durability : list Value) (durabilityPayload : bytes) (propagation : list Value) (s : Server)
    : FM Server :=
  let% s := (if negb (zlen durability =? 0) && negb (bool_decide (aofWriter s = None)) && negb (isAlways s) then
    let payload := if zlen durabilityPayload =? 0 then
        match EncodeValues durability with Err _ => durabilityPayload | Ok encoded => encoded end
      else durabilityPayload in
    if 0 <? zlen payload then let% (_, s) := appendWith false payload s in fret s else fret s
  else fret s) in
  if negb (zlen propagation =? 0) then
    let '(report, s) := propagate propagation s in fret (recordClientWriteOffset ctx (endOffset report) s)
  else fret s.

(** The deletion is withheld from the replicas only under [appendfsync always]. *)
Definition recordExpiredKeys (keys : list bytes) (s : Server) : FM Server :=
  if zlen keys =? 0 then fret s
  else
    let s := onServerHub (WatchRegistry_Touch keys) s in
    let frames := [DeleteFrame keys] in
    let% (err, s) := persistDurabilityFrames frames s in
    if bool_decide (is_Some err) && negb (bool_decide (aofWriter s = None)) && isAlways s then fret s
    else fret (propagate frames s).2.

(** The batches the store has published since [before]. *)
Fixpoint recordBatches (batches : list (list bytes)) (s : Server) : FM Server :=
  match batches with [] => fret s | keys :: batches => let% s := recordExpiredKeys keys s in recordBatches batches s end.
Definition deliverExpired (before : Store) (s : Server) : FM Server :=
  recordBatches (drop (length (published before)) (published (store (executor s)))) s.

(** One tick of the eviction loop, with its listener. *)
Definition evictionPass (s : Server) : FM Server :=
  let before := store (executor s) in
  let '(_, st) := evictionTick (EvictionSampleSize (cfg s)) before in
  deliverExpired before (setExecutor (setStore st (executor s)) s).
(** The same from the sweep on: the clock was read and the keys were sampled
    before whatever other goroutines have done since. *)
Definition sweepPass (now : Z) (keys : list bytes) (s : Server) : FM Server :=
  let before := store (executor s) in
  let '(_, st) := sweepTick now keys before in
  deliverExpired before (setExecutor (setStore st (executor s)) s).

(** ** Requests (handler.go) *)

Definition persistenceFailureResponse : Value := ErrorValue (bs "ERR persistence failure").

(** [ExecuteDetailed] on the server's executor. *)
Definition executeOn (ctx : Context_) (request : Value) (ps : list pause) (s : Server) : result cmdError ExecuteResult * Server :=
  let '(r, st) := ExecuteDetailed ctx request (mkSt (executor s) noEffects ps) in (r, setExecutor (ex st) s).

(** The monitors see a command before it runs. *)
Definition observeRequest (id : nat) (addr : bytes) (request : Value) (s : Server) : Server :=
  if HasSubscribers (hub (executor s)) then
    let '(nanos, st) := nowNano (store (executor s)) in
    let observed := observeCommand request id addr nanos in
    let s := match observed with Some _ => setExecutor (setStore st (executor s)) s | None => s end in
    broadcastMonitorEvent observed s
  else s.

(** [None] is an error that ends the connection. *)
Definition executeClientRequest (ctx : Context_) (id : nat) (addr : bytes) (request : Value) (ps : list pause) (s : Server)
    : FM (option (list Value * bool) * Server) :=
  let s := observeRequest id addr request s in
  let before := store (executor s) in
  let '(r, s) := executeOn ctx request ps s in
  let% s := deliverExpired before s in
  match r with
  | Err ctxError => fret (None, s)
  | _ =>
      let result := match r with Ok result => result | Err e => SingleResponse (responseErrorValue e) end in
      let% (prepared, s) := prepareDurabilityBeforeResponse (Durability result) s in
      let '(result, payload) := match prepared with
        | Ok payload => (result, payload)
        | Err _ => (SingleResponse persistenceFailureResponse, [])
        end in
      let% s := finalizeMutationEffects ctx (Durability result) payload (Propagation result) s in
      fret (Some (Responses result, RegisterReplica result), countCommand s)
  end.

(** [connCommandRunner]: the replica is registered before its responses are buffered. *)
Definition connCommandRunner (ctx : Context_) (id : nat) (addr : bytes) (request : Value) (ps : list pause) (s : Server)
    : FM (option (list Value) * Server) :=
  let% (r, s) := executeClientRequest ctx id addr request ps s in
  match r with
  | None => fret (None, s)
  | Some (responses, register) => fret (Some responses, if register then registerReplicaPeer id s else s)
  end.
End Server.
