(* ===== verification/ServerRun.v ===== *)
(** * Running the server: startup, connections, the replica link, shutdown

    Models [handleConnection] of [handler.go], [initializePersistence] of
    [aof.go], the replica link of [replication.go] and the two ends of
    [ListenAndServe] in [server.go].

    A connection is the bytes its peer sends until it stops; a blocking command
    takes the next script of what the others do meanwhile.  Sockets, the listener
    and the wait for goroutines are outside. *)

From S2P Require Import Prelude Strconv GoLib GoText Float64 Resp RespParser Stream ValueObject Store StoreOps Clients Slowlog.
From S2P Require Import Rdb FileSys RdbSave Replication CommandBase Commands Executor Config Aof AofWriter Server.

Section Run.
Context {CE : CommandEnv}.

(** The text of a parse error. *)
Variable parseErrorText : protoError → bytes.

(** ** [handleConnection] *)

(** What the peer's requests leave: [None] when the connection is over. *)
Definition handleNext (ctx : Context_) (id : nat) (addr : bytes) (ps : list pause) (data : bytes) (s : Server) : FM (option bytes * Server) :=
  let write values s := let '(ok, h) := WriteResponses id values (hub (executor s)) in (ok, setExecutor (setHub h (executor s)) s) in
  match Parse ErrEOF data with
  | (Err e, rest) =>
      if bool_decide (errCause e = ErrEOF) then fret (None, s)
      else
        let '(ok, s) := write [ErrorValue (bs "ERR " ++ parseErrorText e)] s in
        fret (if ok then Some rest else None, s)
  | (Ok value, rest) =>
      let% (r, s) := executeClientRequest ctx id addr value ps s in
      match r with
      | None => fret (None, s)
      | Some (responses, register) =>
          let '(ok, s) := write responses s in
          if negb ok then fret (None, s)
          else fret (Some rest, if register then registerReplicaPeer id s else s)
      end
  end.

Fixpoint handleLoop (fuel : nat) (ctx : Context_) (id : nat) (addr : bytes) (scripts : list (list pause)) (data : bytes) (s : Server) : FM Server :=
  match fuel with
  | O => fret s
  | S fuel' =>
      let% (next, s) := handleNext ctx id addr (hd [] scripts) data s in
      match next with
      | None => fret s
      | Some rest => handleLoop fuel' ctx id addr (tl scripts) rest s
      end
  end.

(** The writer, the address and the context are bound, the requests are served,
    and the deferred teardown runs. *)
Definition handleConnection (id : nat) (addr : bytes) (scripts : list (list pause)) (data : bytes) (s : Server) : FM Server :=
  let bind h := onClient id (SetRemoteAddr addr) (onClient id (BindResponseWriter (Some [])) h) in
  let s := match getClientState id s with Some _ => onServerHub bind s | None => s end in
  let ctx := mkContext (getClientState id s) false false in
  let% s := handleLoop (S (length data)) ctx id addr scripts data s in
  fret (teardownClient id s).

(** ** [initializePersistence] *)

Definition loadRDB (s : Server) : FM (option serverError * Server) :=
  if bool_decide (RDBPath (cfg s) = []) then fret (None, s)
  else
    let% (r, st) := RdbSave.LoadFile IoEOF (RDBPath (cfg s)) (Some (store (executor s))) in
    let s := match st with Some st => setExecutor (setStore st (executor s)) s | None => s end in
    fret (match r with Err e => Some (LoadRDBFailed e) | Ok _ => None end, s).

(** Whether the file is there, and its size. *)
Definition aofFileState (path : bytes) : FM (result osError (bool * Z)) :=
  let% r := osStat path in
  fret (match r with
        | Err e => if bool_decide (e = OsNotExist) then Ok (false, 0) else Err e
        | Ok size => Ok (true, size)
        end).

Definition replicationContext : Context_ := mkContext None true false.

(** Replay of one value; the listener of the store runs meanwhile. *)
Definition replayOn (value : Value) (st : Server * FS) : option cmdError * (Server * FS) :=
  let '(s, fs) := st in
  let before := store (executor s) in
  let '(r, s) := executeOn replicationContext value [] s in
  let '(s, fs) := deliverExpired before s fs in
  (match r with Err e => Some e | Ok _ => None end, (s, fs)).

(** [aof.LoadFile]: the file is closed on every path.  [cancelled] is when the
    context of the server ends. *)
Definition loadAppendOnly (cancelled : Z → bool) (path : bytes) (s : Server) : FM (option serverError * Server) :=
  let% r := osOpen path in
  match r with
  | Err e => fret (Some (LoadAOFFailed (inr e)), s)
  | Ok (h, data) =>
      let% (err, s) := (λ fs, let '(_, err, (s, fs)) := Aof.LoadFileCtx replayOn cancelled data (s, fs) in ((err, s), fs)) in
      let% closed := FileClose h in
      fret (match err, closed with
            | Some e, _ => Some (LoadAOFFailed (inl e))
            | None, Err e => Some (LoadAOFFailed (inr e))
            | None, Ok _ => None
            end, s)
  end.

Definition initializePersistence (cancelled : Z → bool) (s : Server) : FM (option serverError * Server) :=
  let path := AOFPath (cfg s) in
  if bool_decide (path = []) then loadRDB s
  else
    match ParsePolicy (AppendFsync (cfg s)) with
    | None => fret (Some (PolicyInvalid (AppendFsync (cfg s))), s)
    | Some policy =>
        let% r := aofFileState path in
        match r with
        | Err e => fret (Some (InspectFailed e), s)
        | Ok (exists_, size) =>
            let% (err, s) := (if exists_ && (0 <? size) then loadAppendOnly cancelled path s else loadRDB s) in
            match err with
            | Some e => fret (Some e, s)
            | None =>
                let% r := OpenWriter path policy in
                match r with
                | Err e => fret (Some (OpenFailed e), s)
                | Ok w =>
                    let% _ := (match aofWriter s with Some stale => let% (_, _) := Close stale in fret tt | None => fret tt end) in
                    fret (None, setAofWriter (Some w) s)
                end
            end
        end
    end.

(** ** The two ends of [ListenAndServe] *)

Inductive startError := ReplicaConfigInvalid (e : configError) | PersistenceFailed (e : serverError) | MaxMemoryFailed (e : storeError) | ListenFailed.

Definition startup (cancelled : Z → bool) (listenOk : bool) (s : Server) : FM (option startError * Server) :=
  match (if IsReplica (cfg s) then ReplicaAddress (cfg s) else Ok []) with
  | Err e => fret (Some (ReplicaConfigInvalid e), s)
  | Ok _ =>
      let% (err, s) := initializePersistence cancelled s in
      match err with
      | Some e => fret (Some (PersistenceFailed e), s)
      | None =>
          let before := store (executor s) in
          let '(_, st) := ConfigureMaxMemory (MaxMemory (cfg s)) (EvictionSampleSize (cfg s)) before in
          let '(r, st) := EnforceMaxMemory st in
          let% s := deliverExpired before (setExecutor (setStore st (executor s)) s) in
          match r with
          | Err e => fret (Some (MaxMemoryFailed e), s)
          | Ok _ =>
              if listenOk then fret (None, s)
              else let% (_, s) := closeAOFWriter s in fret (Some ListenFailed, s)
          end
      end
  end.

(** [tempPath] is the name [os.CreateTemp] picks, [now] the time of the snapshot. *)
Definition persistSnapshot (tempPath : bytes) (now : Z) (s : Server) : FM (option serverError * Server) :=
  if bool_decide (DumpPath (cfg s) = []) then fret (None, s)
  else
    let '((entries, _), st) := SnapshotStrings (store (executor s)) in
    let s := setExecutor (setStore st (executor s)) s in
    let% r := SaveSnapshot tempPath (DumpPath (cfg s)) now entries in
    fret (match r with Err e => Some (SnapshotFailed e) | Ok _ => None end, s).

(** After [serve] returned and every goroutine has finished: the errors are joined. *)
Definition finish (tempPath : bytes) (now : Z) (s : Server) : FM (list serverError * Server) :=
  let% (e1, s) := closeAOFWriter s in
  let% (e2, s) := persistSnapshot tempPath now s in
  fret (option_list e1 ++ option_list e2, s).

(** ** The replica link (replication.go) *)

Inductive linkError :=
  | LinkParse (e : protoError)
  | LinkUnexpected (v : Value)
  | LinkRejected (message : bytes)
  | LinkNoAuth (message : bytes)
  | LinkFailed (message : bytes)
  | LinkSnapshot (e : rdbError)
  | LinkWrite
  | LinkPort.

Definition replicaCommand (parts : list bytes) : Value := arr (bulk <$> parts).

Definition isSpace (c : byte) : bool := bool_decide (c = " "%byte).
(** [strings.Cut] at the first space. *)
Fixpoint respErrorCode (message : bytes) : bytes :=
  match message with [] => [] | c :: rest => if isSpace c then [] else c :: respErrorCode rest end.

(** The reply a step of the handshake waits for. *)
Definition expectSimpleString (data expected : bytes) : result linkError unit * bytes :=
  match Parse ErrEOF data with
  | (Err e, rest) => (Err (LinkParse e), rest)
  | (Ok value, rest) =>
      (match value with
       | SimpleString v => if decide (v = expected) then Ok tt else Err (LinkUnexpected value)
       | ErrorValue message => Err (LinkFailed message)
       | _ => Err (LinkUnexpected value)
       end, rest)
  end.

Definition expectReplicaAuthOK (data : bytes) : result linkError unit * bytes :=
  match Parse ErrEOF data with
  | (Err e, rest) => (Err (LinkParse e), rest)
  | (Ok value, rest) =>
      (match value with
       | SimpleString v => if decide (v = bs "OK") then Ok tt else Err (LinkUnexpected value)
       | ErrorValue message =>
           let code := respErrorCode message in
           if decide (code = bs "WRONGPASS") then Err (LinkRejected message)
           else if decide (code = bs "NOAUTH") then Err (LinkNoAuth message)
           else Err (LinkFailed message)
       | _ => Err (LinkUnexpected value)
       end, rest)
  end.

Definition expectReplicaReplConfOK (data : bytes) : result linkError unit * bytes :=
  match Parse ErrEOF data with
  | (Err e, rest) => (Err (LinkParse e), rest)
  | (Ok value, rest) =>
      (match value with
       | SimpleString v => if decide (v = bs "OK") then Ok tt else Err (LinkUnexpected value)
       | ErrorValue message =>
           if decide (respErrorCode message = bs "NOAUTH") then Err (LinkNoAuth message) else Err (LinkFailed message)
       | _ => Err (LinkUnexpected value)
       end, rest)
  end.

Definition parseListenerPort (address : bytes) : option Z :=
  match SplitHostPort address with Err _ => None | Ok (_, port) => ParseInt port end.

(** The snapshot is loaded into a store of its own, which then replaces the
    contents of the server's. *)
Definition consumeFullResync (data : bytes) (s : Server) : result linkError unit * (bytes * Server) :=
  match Parse ErrEOF data with
  | (Err e, rest) => (Err (LinkParse e), (rest, s))
  | (Ok (SimpleString line), rest) =>
      let parts := strings_Fields line in
      let valid := match parts with
        | [a; b; c] => EqualFold a (bs "FULLRESYNC") && negb (bool_decide (b = [])) && bool_decide (c = bs "0")
        | _ => false end in
      if negb valid then (Err (LinkUnexpected (SimpleString line)), (rest, s))
      else
        match Parse ErrEOF rest with
        | (Err e, rest) => (Err (LinkParse e), (rest, s))
        | (Ok (BulkString payload false), rest) =>
            match LoadReader IoEOF (Some payload) (Some NewStore) with
            | (Ok _, Some snapshotStore) =>
                let '(_, st) := ReplaceWith snapshotStore (store (executor s)) in
                (Ok tt, (rest, setExecutor (setStore st (executor s)) s))
            | (Ok _, None) => (Err LinkWrite, (rest, s))
            | (Err e, _) => (Err (LinkSnapshot e), (rest, s))
            end
        | (Ok v, rest) => (Err (LinkUnexpected v), (rest, s))
        end
  | (Ok v, rest) => (Err (LinkUnexpected v), (rest, s))
  end.

(** What the link has sent; whether its n-th write succeeds comes from [linkOk]. *)
Variable linkOk : nat → bool.
Record uplink := mkUplink { sent : bytes; writes : nat }.

Definition writeUplink (values : list Value) (u : uplink) : bool * uplink :=
  match EncodeValues values with
  | Err _ => (false, u)
  | Ok payload => if linkOk (writes u) then (true, mkUplink (sent u ++ payload) (S (writes u))) else (false, mkUplink (sent u) (S (writes u)))
  end.
Definition writeReplicaCommand (parts : list bytes) (u : uplink) : bool * uplink := writeUplink [replicaCommand parts] u.

(** A command and the reply it waits for. *)
Definition exchange (parts : list bytes) (expect : bytes → result linkError unit * bytes) (data : bytes) (u : uplink)
    : result linkError unit * (bytes * uplink) :=
  let '(ok, u) := writeReplicaCommand parts u in
  if negb ok then (Err LinkWrite, (data, u)) else let '(r, data) := expect data in (r, (data, u)).

Definition handshake (port : Z) (data : bytes) (s : Server) : result linkError unit * (bytes * uplink * Server) :=
  match exchange [bs "PING"] (λ d, expectSimpleString d (bs "PONG")) data (mkUplink [] 0) with
  | (Err e, (data, u)) => (Err e, (data, u, s))
  | (Ok _, (data, u)) =>
      match (if bool_decide (MasterAuth (cfg s) = []) then (Ok tt, (data, u))
             else exchange [bs "AUTH"; MasterAuth (cfg s)] expectReplicaAuthOK data u) with
      | (Err e, (data, u)) => (Err e, (data, u, s))
      | (Ok _, (data, u)) =>
          match exchange [bs "REPLCONF"; bs "listening-port"; FormatInt port] expectReplicaReplConfOK data u with
          | (Err e, (data, u)) => (Err e, (data, u, s))
          | (Ok _, (data, u)) =>
              let '(ok, u) := writeReplicaCommand [bs "PSYNC"; bs "?"; bs "-1"] u in
              if negb ok then (Err LinkWrite, (data, u, s))
              else let '(r, (data, s)) := consumeFullResync data s in (r, (data, u, s))
          end
      end
  end.

(** A round of the replication stream; [None] ends the link. *)
Definition replicaStep (data : bytes) (u : uplink) (s : Server) : FM (option bytes * (uplink * Server)) :=
  match Parse ErrEOF data with
  | (Err _, _) => fret (None, (u, s))
  | (Ok value, rest) =>
      match EncodedLen value with
      | Err _ => fret (None, (u, s))
      | Ok encodedLen =>
          let e := executor s in
          let s := setExecutor (setReplication (AdvanceReplicaOffset encodedLen (replication e)).2 (replicaPeers e) e) s in
          let before := store (executor s) in
          let '(r, s) := executeOn replicationContext value [] s in
          let% s := deliverExpired before s in
          match r with
          | Err _ => fret (None, (u, s))
          | Ok result =>
              let% (err, s) := persistDurabilityFrames (Durability result) s in
              match err with
              | Some _ => fret (None, (u, s))
              | None =>
                  if zlen (UpstreamReplies result) =? 0 then fret (Some rest, (u, s))
                  else
                    let '(ok, u) := writeUplink (UpstreamReplies result) u in
                    fret (if ok then Some rest else None, (u, s))
              end
          end
      end
  end.

Fixpoint replicaLoop (fuel : nat) (data : bytes) (u : uplink) (s : Server) : FM (uplink * Server) :=
  match fuel with
  | O => fret (u, s)
  | S fuel' =>
      let% (next, (u, s)) := replicaStep data u s in
      match next with None => fret (u, s) | Some rest => replicaLoop fuel' rest u s end
  end.

(** [startReplicaLink] once the master has answered; [data] is all it sends. *)
Definition startReplicaLink (listenerAddr data : bytes) (s : Server) : FM (option linkError * Server) :=
  match parseListenerPort listenerAddr with
  | None => fret (Some LinkPort, s)
  | Some port =>
      match handshake port data (setUpstream true s) with
      | (Err e, (_, _, s)) => fret (Some e, setUpstream false s)
      | (Ok _, (data, u, s)) =>
          let% (_, s) := replicaLoop (S (length data)) data u s in
          fret (None, setUpstream false s)
      end
  end.
End Run.
