(* ===== verification/ServerFacts.v ===== *)
(** * The server keeps its invariant

    Every operation of [Server] and of the replication stream keeps the store,
    the registries and the clients well-formed, and forgets no client. *)

From S2P Require Import Prelude Strconv GoLib GoText Float64 Resp RespParser Stream ValueObject Store StoreOps StoreFacts StoreMemory StoreInvariant StoreTheorems.
From S2P Require Import Clients Slowlog Rdb FileSys RdbSave Replication CommandBase Commands Executor ExecutorFacts HandlerFacts Config Aof AofWriter Server ServerRun.

(** ** Loading any bytes keeps the store well-formed *)

Section Load.
Context {E : Env} (endErr : ioError).

Definition LKeeps {A} (m : LM A) : Prop := ∀ l, StoreInv (lstore l) → StoreInv (lstore (m l).2).

Lemma LKeeps_bind {A B} (m : LM A) (k : A → LM B) : LKeeps m → (∀ a, LKeeps (k a)) → LKeeps (lbind m k).
Proof. intros Hm Hk l Hl. unfold lbind. specialize (Hm l Hl). destruct (m l) as [[a|e] l']; [by apply Hk|done]. Qed.
Lemma LKeeps_ret {A} (a : A) : LKeeps (lret a).
Proof. by intros l. Qed.
Lemma LKeeps_fail {A} e : LKeeps (lfail (A := A) e).
Proof. by intros l. Qed.
Lemma LKeeps_lift {A} (r : result rdbError A) : LKeeps (lift r).
Proof. by intros l. Qed.
Lemma LKeeps_wrap {A} c (m : LM A) : LKeeps m → LKeeps (lwrap c m).
Proof. intros Hm l Hl. unfold lwrap. specialize (Hm l Hl). by destruct (m l). Qed.
Lemma LKeeps_byte : LKeeps (readByte endErr).
Proof. intros l Hl. unfold readByte. by destruct (reader l). Qed.
Lemma LKeeps_full n : LKeeps (ioReadFull endErr n).
Proof. intros l Hl. unfold ioReadFull. cbn zeta. destruct (n <=? zlen (reader l)); [done|]. by destruct (reader l). Qed.
Lemma LKeeps_all : LKeeps (ioReadAll endErr).
Proof. by intros l. Qed.
Lemma LKeeps_decompressed a n : LKeeps (decompressed a n).
Proof. by intros l. Qed.
Lemma LKeeps_stats f : LKeeps (countStats f).
Proof. by intros l. Qed.
Lemma LKeeps_store {A} (m : M A) : Keeps m → LKeeps (onStore m).
Proof. intros Hm l Hl. unfold onStore. specialize (Hm (lstore l) Hl). by destruct (m (lstore l)). Qed.

Create HintDb lkeeps.
#[local] Hint Resolve LKeeps_ret LKeeps_fail LKeeps_lift LKeeps_byte LKeeps_full LKeeps_all LKeeps_decompressed LKeeps_stats : lkeeps.
#[local] Ltac lkeeps := repeat (first [assumption | solve [eauto with lkeeps] | apply LKeeps_bind; [|intros ?] | apply LKeeps_wrap | case_match]).

Lemma LKeeps_length : LKeeps (readLength endErr).
Proof. unfold readLength. lkeeps. Qed.
#[local] Hint Resolve LKeeps_length : lkeeps.
Lemma LKeeps_bytes n : LKeeps (readBytes endErr n).
Proof. unfold readBytes. lkeeps. Qed.
#[local] Hint Resolve LKeeps_bytes : lkeeps.
Lemma LKeeps_string : LKeeps (readString endErr).
Proof. unfold readString, readUint16LE, readUint32LE. lkeeps. Qed.
#[local] Hint Resolve LKeeps_string : lkeeps.
Lemma LKeeps_entry t e : LKeeps (readEntry endErr t e).
Proof.
  unfold readEntry. destruct (negb _); [apply LKeeps_fail|]. do 2 (apply LKeeps_bind; [lkeeps|intros ?]).
  apply LKeeps_bind; [destruct (0 <? e); [apply LKeeps_bind; [apply LKeeps_store, Keeps_now|intros ?; lkeeps]|lkeeps]|]. intros []; [lkeeps|].
  apply LKeeps_bind; [apply LKeeps_store, Keeps_Set|]. intros []; lkeeps.
Qed.
#[local] Hint Resolve LKeeps_entry : lkeeps.
Lemma LKeeps_marker m : LKeeps (processMarker endErr m).
Proof.
  unfold processMarker, skipAuxField, skipResizeDBMetadata, readDatabaseSelection, readExpiringEntry, readValueMarker, readUint32LE, readUint64LE, consumeEOF, consumeChecksum.
  repeat (destruct (_ =? _); [lkeeps; by intros l|]). lkeeps.
Qed.
Lemma LKeeps_loop fuel : LKeeps (Rdb.loadLoop endErr fuel).
Proof.
  induction fuel as [|fuel IH]; intros l Hl; [done|]. cbn [Rdb.loadLoop]. destruct (seenEOF l); [done|].
  revert l Hl. change (LKeeps (let@ marker := lwrap (bs "read marker") (readByte endErr) in let@ _ := processMarker endErr (b2z marker) in Rdb.loadLoop endErr fuel)).
  apply LKeeps_bind; [lkeeps|]. intros b. apply LKeeps_bind; [apply LKeeps_marker|done].
Qed.

(** Whatever the bytes are, and wherever loading stops. *)
Lemma LoadReader_inv rd s r s' : StoreInv s → LoadReader endErr rd (Some s) = (r, Some s') → StoreInv s'.
Proof.
  intros Hs. unfold LoadReader, loadReaderAt. destruct rd as [input|]; [|intros [= _ <-]; done].
  assert (LKeeps (load endErr)) as HL.
  { intros l Hl. unfold load. revert Hl. generalize (S (S (length (reader l)))). intros n Hl. revert l Hl.
    change (LKeeps (let@ header := lwrap (bs "read header") (ioReadFull endErr (zlen fileHeader)) in let@ _ := lift (validateHeader header) in Rdb.loadLoop endErr n)).
    apply LKeeps_bind; [lkeeps|]. intros h. apply LKeeps_bind; [lkeeps|]. intros _. apply LKeeps_loop. }
  specialize (HL (mkLoader input s (mkStats 0 0) false) Hs). destruct (load endErr _) as [[u|e] l]; intros [= _ <-]; exact HL.
Qed.
End Load.

(** ** The server *)

Section Facts.
Context {CE : CommandEnv}.
Implicit Types (s : Server) (e : Executor).

Definition known (s : Server) (id : nat) : Prop := is_Some (clients (hub (executor s)) !! id).

Record ServerOk (s : Server) : Prop := {
  so_inv : ServerInv (executor s);
  so_states : ∀ id, id ∈ clientStates s → known s id
}.

(** A step that keeps the invariant and the clients. *)
Definition Moves (s s' : Server) : Prop := ServerOk s → ServerOk s' ∧ ∀ id, known s id → known s' id.

Lemma Moves_refl s : Moves s s.
Proof. by intros Hs. Qed.
Lemma Moves_trans s1 s2 s3 : Moves s1 s2 → Moves s2 s3 → Moves s1 s3.
Proof. intros H1 H2 Hs. destruct (H1 Hs) as [A1 A2]. destruct (H2 A1) as [B1 B2]. split; [done|]. intros id Hid. by apply B2, A2. Qed.

(** A change of the executor: of its store, of its hub, or of neither. *)
Lemma Moves_executor s s' :
  clientStates s' ⊆ clientStates s → (ServerInv (executor s) → ServerInv (executor s') ∧ ∀ id, known s id → known s' id) → Moves s s'.
Proof. intros Hc Hm [H1 H2]. destruct (Hm H1) as [A1 A2]. split; [|done]. split; [done|]. intros id Hid. apply A2, H2. set_solver. Qed.

Lemma Moves_same s s' : clientStates s' ⊆ clientStates s → store (executor s') = store (executor s) → hub (executor s') = hub (executor s) → Moves s s'.
Proof.
  intros Hc Es Eh. apply Moves_executor; [done|]. unfold known. rewrite Eh. intros [H1 H2 H3]. split; [|done]. split; rewrite ?Es, ?Eh; done.
Qed.

Lemma ServerInv_hub e h' actor : ServerInv e → HubRel actor (hub e) h' → ServerInv (setHub h' e).
Proof.
  intros [H1 H2 H3] HR. split; [done|apply HR|]. cbn [hub setHub]. intros id c' Hc'.
  destruct (clients (hub e) !! id) as [c|] eqn:Ec; [|by eapply (hr_new _ _ _ HR)]. apply (cr_queue _ _ _ (hr_client _ _ _ HR id c c' Ec Hc')). by apply (H3 id).
Qed.

Lemma Moves_hubRel s h' actor : (ServerOk s → HubRel actor (hub (executor s)) h') → Moves s (setExecutor (setHub h' (executor s)) s).
Proof.
  intros HR Hs. specialize (HR Hs). destruct Hs as [H1 H2]. assert (∀ id, known s id → known (setExecutor (setHub h' (executor s)) s) id) as Hk by apply HR.
  split; [|done]. split; [by eapply ServerInv_hub|]. intros id Hid. by apply Hk, H2.
Qed.

Lemma Moves_store s {A} (m : M A) : Keeps m → Moves s (setExecutor (setStore (m (store (executor s))).2 (executor s)) s).
Proof. intros Hm. apply Moves_executor; [done|]. intros [H1 H2 H3]. split; [|done]. split; [by apply Hm|done|done]. Qed.

(** ** Pieces *)

Lemma Moves_touch keys s : Moves s (onServerHub (WatchRegistry_Touch keys) s).
Proof. apply (Moves_hubRel s _ None). intros Hs. apply HubRel_Touch, Hs. Qed.

Lemma Moves_propagate values s : Moves s (propagate values s).2.
Proof.
  unfold propagate. destruct (replicaPeers (executor s)) as [r|]; [|apply Moves_refl]. unfold propagateToReplicas.
  destruct (zlen values =? 0); [by apply Moves_same|]. destruct (EncodeValues values) as [payload|]; [|by apply Moves_same].
  destruct (AdvanceMasterOffset (zlen payload) (replication (executor s))) as [o repl].
  assert (HubInv (hub (executor s)) → HubRel None (hub (executor s)) (writePropagationPayload payload (Replicas_Snapshot r) r (hub (executor s))).2.2) as HR by apply HubRel_propagate.
  destruct (writePropagationPayload payload (Replicas_Snapshot r) r (hub (executor s))) as [[n f] [r' h']]. cbn [snd] in *.
  eapply Moves_trans; [apply (Moves_hubRel s h' None); intros Hs; apply HR, Hs|]. by apply Moves_same.
Qed.

Lemma Moves_own id f s : silent f → (∀ c, TxQueue (f c) = TxQueue c ∧ watchedKeys (f c) = watchedKeys c ∧ TxFailed (f c) = TxFailed c) → Moves s (onServerHub (onClient id f) s).
Proof.
  intros Hf Hq. apply (Moves_hubRel s _ None). intros Hs. apply HubRel_onClient; [done| |apply Hs].
  intros c. destruct (Hq c) as (H1 & H2 & H3). apply clientRel_same; [done|done|by rewrite H3].
Qed.

Lemma Moves_writer w s : Moves s (setAofWriter w s).
Proof. by apply Moves_same. Qed.

Lemma Moves_appendWith b p s fs : Moves s (appendWith b p s fs).1.2.
Proof.
  unfold appendWith. destruct (aofWriter s) as [w|]; [|apply Moves_refl]. unfold fbind, fret. destruct (append w p b fs) as [[e w'] fs']. apply Moves_writer.
Qed.

Lemma Moves_persist values s fs : Moves s (persistDurabilityFrames values s fs).1.2.
Proof.
  unfold persistDurabilityFrames. destruct (_ || _); [apply Moves_refl|]. destruct (EncodeValues values); [apply Moves_appendWith|apply Moves_refl].
Qed.

Lemma Moves_prepare values s fs : Moves s (prepareDurabilityBeforeResponse values s fs).1.2.
Proof.
  unfold prepareDurabilityBeforeResponse. destruct (_ || _); [apply Moves_refl|]. destruct (EncodeValues values) as [p|e]; [|apply Moves_refl].
  unfold fbind, fret. pose proof (Moves_appendWith true p s fs) as HM. by destruct (appendWith true p s fs) as [[e s'] fs'].
Qed.

Lemma Moves_writeOffset ctx o s : Moves s (recordClientWriteOffset ctx o s).
Proof. unfold recordClientWriteOffset. destruct (o <=? 0); [apply Moves_refl|]. destruct (ctxClient ctx) as [id|]; [|apply Moves_refl]. by apply Moves_own. Qed.

Lemma Moves_finalize ctx durability payload propagation s fs : Moves s (finalizeMutationEffects ctx durability payload propagation s fs).1.
Proof.
  unfold finalizeMutationEffects, fbind at 1.
  match goal with |- context [let '(a, fs') := ?m fs in _] => assert (Moves s (m fs).1) as H1; [|destruct (m fs) as [s1 fs1]] end.
  { destruct (_ && _ && _); [|apply Moves_refl]. cbn zeta. destruct (0 <? _); [|apply Moves_refl]. unfold fbind, fret.
    match goal with |- context [appendWith false ?p s fs] => pose proof (Moves_appendWith false p s fs) as HM; destruct (appendWith false p s fs) as [[e s'] fs'] end. exact HM. }
  cbn [fst] in H1. eapply Moves_trans; [exact H1|]. destruct (negb _); [|apply Moves_refl].
  pose proof (Moves_propagate propagation s1) as HM. destruct (propagate propagation s1) as [report s2]. eapply Moves_trans; [exact HM|]. apply Moves_writeOffset.
Qed.

Lemma Moves_expired keys s fs : Moves s (recordExpiredKeys keys s fs).1.
Proof.
  unfold recordExpiredKeys. destruct (zlen keys =? 0); [apply Moves_refl|]. cbn zeta. unfold fbind.
  eapply Moves_trans; [apply (Moves_touch keys)|]. pose proof (Moves_persist [DeleteFrame keys] (onServerHub (WatchRegistry_Touch keys) s) fs) as HM.
  destruct (persistDurabilityFrames _ _ fs) as [[e s'] fs']. eapply Moves_trans; [exact HM|]. destruct (_ && _ && _); [apply Moves_refl|apply Moves_propagate].
Qed.

Lemma Moves_deliver before s fs : Moves s (deliverExpired before s fs).1.
Proof.
  unfold deliverExpired. generalize (drop (length (published before)) (published (store (executor s)))). intros batches. revert s fs.
  induction batches as [|keys batches IH]; intros s fs; [apply Moves_refl|]. cbn [recordBatches]. unfold fbind.
  pose proof (Moves_expired keys s fs) as HM. destruct (recordExpiredKeys keys s fs) as [s' fs']. eapply Moves_trans; [exact HM|apply IH].
Qed.

(** ** Requests *)

(** What the other connections may do while a command waits. *)
Definition Others (p : pause) : Prop := ∀ e, ServerInv e →
  ServerInv (meanwhile p e) ∧ ∀ id, is_Some (clients (hub e) !! id) → is_Some (clients (hub (meanwhile p e)) !! id).

Lemma Moves_execute ctx request ps s : (∀ id, ctxClient ctx = Some id → known s id) → Forall Others ps → Moves s (executeOn ctx request ps s).2.
Proof.
  intros Hp Hps. apply Moves_executor; unfold executeOn; [by destruct (ExecuteDetailed ctx request _)|]. intros Hi.
  destruct (Quiet_ExecuteDetailed ctx 0 False (known s) ltac:(done) request (mkSt (executor s) noEffects ps)) as [[P1 _ P3 _] _].
  { split; [done|exact Hp|done|]. eapply Forall_impl; [exact Hps|]. intros p Hq e0 He0. by destruct (Hq e0 He0). }
  destruct (ExecuteDetailed ctx request _) as [r st]. by split.
Qed.

Lemma Moves_observe id addr request s : Moves s (observeRequest id addr request s).
Proof.
  unfold observeRequest. destruct (HasSubscribers _); [|apply Moves_refl]. pose proof (Moves_store s nowNano) as HM.
  destruct (nowNano (store (executor s))) as [nanos st]. cbn [snd] in HM. assert (∀ c s, Moves s (broadcastMonitorEvent c s)) as HB.
  { intros c s1. unfold broadcastMonitorEvent. destruct c; [|apply Moves_refl]. destruct (Encode _) as [payload|]; [|apply Moves_refl].
    apply (Moves_hubRel s1 _ None). intros Hs. apply HubRel_deliver; [apply Hs|]. apply Forall_forall. intros i Hi.
    unfold Monitor_AppendSubscribers in Hi. rewrite idOrder_perm, elem_of_elements in Hi. apply (hi_mon _ (sv_hub _ (so_inv _ Hs))) in Hi as (x & Hx & _). by exists x. }
  eapply Moves_trans; [|apply HB]. destruct (observeCommand _ _ _ _); [|apply Moves_refl]. apply HM. intros s1 Hs1. by apply tick_inv.
Qed.

Lemma Moves_known s s' id : Moves s s' → ServerOk s → known s id → known s' id.
Proof. intros HM Hs. by apply HM. Qed.

(** What the executor answers, an error reply for an error. *)
Definition answered (r : result cmdError ExecuteResult) : ExecuteResult :=
  match r with Ok result => result | Err e => SingleResponse (responseErrorValue e) end.

Definition isFatal (r : result cmdError ExecuteResult) : bool := match r with Err ctxError => true | _ => false end.

(** A request up to the point where its effects are made durable. *)
Definition applied (ctx : Context_) (id : nat) (addr : bytes) (request : Value) (ps : list pause) (s : Server) : FM (result cmdError ExecuteResult * Server) :=
  let s := observeRequest id addr request s in
  let before := store (executor s) in
  let '(r, s) := executeOn ctx request ps s in
  let% s := deliverExpired before s in fret (r, s).

(** One request in terms of its parts. *)
Lemma served_spec ctx id addr request ps s fs :
  executeClientRequest ctx id addr request ps s fs =
    let '((r, s1), fs1) := applied ctx id addr request ps s fs in
    if isFatal r then ((None, s1), fs1)
    else
      let '((prepared, s2), fs2) := prepareDurabilityBeforeResponse (Durability (answered r)) s1 fs1 in
      let '(result, payload) := match prepared with
        | Ok payload => (answered r, payload)
        | Err _ => (SingleResponse persistenceFailureResponse, [])
        end in
      let '(s3, fs3) := finalizeMutationEffects ctx (Durability result) payload (Propagation result) s2 fs2 in
      ((Some (Responses result, RegisterReplica result), countCommand s3), fs3).
Proof.
  unfold executeClientRequest, applied. destruct (executeOn ctx request ps (observeRequest id addr request s)) as [r s2]. unfold fbind, fret.
  destruct (deliverExpired (store (executor (observeRequest id addr request s))) s2 fs) as [s3 fs3].
  destruct r as [x|e]; [|destruct e]; cbn [answered]; try done;
    (destruct (prepareDurabilityBeforeResponse _ s3 fs3) as [[[p|e'] s4] fs4]; by destruct (finalizeMutationEffects _ _ _ _ s4 fs4)).
Qed.

Lemma Moves_applied ctx id addr request ps s fs : (∀ i, ctxClient ctx = Some i → known s i) → Forall Others ps →
  Moves s (applied ctx id addr request ps s fs).1.2.
Proof.
  intros Hp Hps Hs. pose proof (Moves_observe id addr request s) as H1. unfold applied. set (s1 := observeRequest id addr request s) in *.
  assert (Moves s1 (executeOn ctx request ps s1).2) as H2. { apply Moves_execute; [|done]. intros i Hi. by apply (Moves_known s), Hp. }
  cbn zeta. destruct (executeOn ctx request ps s1) as [r s2]. cbn [snd] in H2. unfold fbind, fret.
  pose proof (Moves_deliver (store (executor s1)) s2 fs) as H3. destruct (deliverExpired (store (executor s1)) s2 fs) as [s3 fs3].
  revert Hs. eapply Moves_trans; [exact H1|]. eapply Moves_trans; [exact H2|exact H3].
Qed.

Lemma Moves_request ctx id addr request ps s fs : (∀ i, ctxClient ctx = Some i → known s i) → Forall Others ps →
  Moves s (executeClientRequest ctx id addr request ps s fs).1.2.
Proof.
  intros Hp Hps. rewrite served_spec. pose proof (Moves_applied ctx id addr request ps s fs Hp Hps) as H1.
  destruct (applied ctx id addr request ps s fs) as [[r s1] fs1]. cbn [fst snd] in H1. destruct (isFatal r); [exact H1|]. eapply Moves_trans; [exact H1|].
  pose proof (Moves_prepare (Durability (answered r)) s1 fs1) as H2. destruct (prepareDurabilityBeforeResponse _ s1 fs1) as [[prepared s2] fs2].
  eapply Moves_trans; [exact H2|]. destruct (match prepared with Ok payload => _ | Err _ => _ end) as [result payload].
  pose proof (Moves_finalize ctx (Durability result) payload (Propagation result) s2 fs2) as H3.
  destruct (finalizeMutationEffects ctx _ _ _ s2 fs2) as [s3 fs3]. eapply Moves_trans; [exact H3|]. by apply Moves_same.
Qed.

Lemma Moves_registerReplica id s : Moves s (registerReplicaPeer id s).
Proof. unfold registerReplicaPeer. destruct (getClientState id s); [|apply Moves_refl]. destruct (negb _); [apply Moves_refl|by apply Moves_same]. Qed.

Lemma Moves_runner ctx id addr request ps s fs : (∀ i, ctxClient ctx = Some i → known s i) → Forall Others ps →
  Moves s (connCommandRunner ctx id addr request ps s fs).1.2.
Proof.
  intros Hp Hps. unfold connCommandRunner, fbind, fret. pose proof (Moves_request ctx id addr request ps s fs Hp Hps) as H1.
  destruct (executeClientRequest ctx id addr request ps s fs) as [[[[rs b]|] s1] fs1]; cbn [fst snd] in *; [|exact H1].
  eapply Moves_trans; [exact H1|]. destruct b; [apply Moves_registerReplica|apply Moves_refl].
Qed.

(** ** Clients *)

Lemma Add_rel c h : QueueOk c → (∃ b, c = SetAuthenticated b newClientState) → HubInv h → HubRel None h (ClientRegistry_Add c h).2.
Proof.
  intros Hq (b & ->) Hi. assert ((ClientRegistry_Add (SetAuthenticated b newClientState) h).2
    = onClient (S (nextID h)) (SetAuthenticated b) (ClientRegistry_Add newClientState h).2) as ->.
  { unfold ClientRegistry_Add, onClient, setClients. cbn. by rewrite alter_insert_eq. }
  assert (HubInv (ClientRegistry_Add newClientState h).2) as Hi1 by (apply (hubStep_inv (N := cmd_net) h); [constructor|done]).
  assert (clients h !! S (nextID h) = None) as Hfresh. { apply eq_None_not_Some. intros [c Hc]. apply (hi_ids _ Hi) in Hc. lia. }
  split; [by apply silent_inv| | |]; cbn.
  - intros id [c Hc]. assert (S (nextID h) ≠ id) by congruence. rewrite lookup_alter_ne, lookup_insert_ne by done. by exists c.
  - intros id c c' Hc. assert (S (nextID h) ≠ id) by congruence. rewrite lookup_alter_ne, lookup_insert_ne by done. intros Hc'. simplify_eq. apply clientRel_refl.
  - intros id c' Hn. destruct (decide (id = S (nextID h))) as [->|]; [rewrite lookup_alter_eq, lookup_insert_eq; cbn; by intros [= <-]|].
    rewrite lookup_alter_ne, lookup_insert_ne by done. congruence.
Qed.

Lemma registerClient_new s : ServerOk s → ¬ known s (registerClient s).1 ∧ known (registerClient s).2 (registerClient s).1.
Proof.
  intros Hs. unfold registerClient, known. cbn. split.
  - intros [c Hc]. apply (hi_ids _ (sv_hub _ (so_inv _ Hs))) in Hc. lia.
  - rewrite !lookup_alter_eq, lookup_insert_eq. by eexists.
Qed.

Lemma Moves_createClientState id s : known s id → Moves s (createClientState id s).
Proof.
  intros Hk Hs. unfold createClientState. set (bind := λ h : Hub, _).
  assert (Moves s (onServerHub bind s)) as HM.
  { subst bind. eapply (Moves_trans s (onServerHub (SetWatchRegistry id) s)); [apply Moves_own; [intros c; split_and!; try done; intros (?&?&?); by split_and!|done]|].
    eapply (Moves_trans _ (onServerHub (SetPubSubRegistry id) (onServerHub (SetWatchRegistry id) s))); [apply Moves_own; [intros c; split_and!; try done; intros (?&?&?); by split_and!|done]|].
    apply (Moves_own id (λ c, setMonitor true (Monitoring c) c)); [intros c; split_and!; try done; intros (?&?&?); by split_and!|done]. }
  destruct (HM Hs) as [[H1 H2] H3]. split; [|exact H3]. split; [exact H1|]. cbn [setClientStates clientStates]. intros i Hi.
  apply elem_of_union in Hi as [->%elem_of_singleton|Hi]; [by apply (H3 id)|by apply (H2 i)].
Qed.

Lemma Moves_register s : Moves s (registerClient s).2.
Proof.
  intros Hs. unfold registerClient. set (c := SetAuthenticated _ newClientState). pose proof (Add_rel c (hub (executor s))) as HA.
  assert (known (setExecutor (setHub (ClientRegistry_Add c (hub (executor s))).2 (executor s)) s) (ClientRegistry_Add c (hub (executor s))).1) as Hk.
  { unfold known. cbn. rewrite lookup_insert_eq. by eexists. }
  destruct (ClientRegistry_Add c (hub (executor s))) as [id h]. cbn [fst snd] in *.
  revert Hs. eapply Moves_trans; [apply (Moves_hubRel s h None); intros Hs'; apply HA; [by apply Forall_nil|by eexists|apply Hs']|]. by apply Moves_createClientState.
Qed.

Lemma Moves_teardown id s : Moves s (teardownClient id s).
Proof.
  unfold teardownClient. set (s1 := setExecutor _ s). eapply (Moves_trans s s1); [by apply Moves_same|].
  eapply (Moves_trans s1 (onServerHub (ClientRegistry_Remove id) s1)).
  { apply (Moves_hubRel s1 _ None). intros Hs. pose proof (sv_hub _ (so_inv _ Hs)) as Hi.
    split; [apply (hubStep_inv (N := cmd_net) (hub (executor s1))); [constructor|exact Hi]|done| |]; cbn; [|congruence]. intros i c c' Hc Hc'. simplify_eq. apply clientRel_refl. }
  generalize (onServerHub (ClientRegistry_Remove id) s1). clear s s1. intros s. unfold removeClientState.
  case_bool_decide as Hin; [|apply Moves_same; [set_solver|done|done]].
  intros Hs. pose proof (so_states _ Hs id Hin) as Hk. set (s1 := setClientStates _ s).
  assert (Moves s s1) as H1 by (apply Moves_same; [set_solver|done|done]).
  assert (Moves s1 (onServerHub (Disconnect id) s1)) as H2. { apply (Moves_hubRel s1 _ None). intros Hs1. apply HubRel_Disconnect; [apply Hs1|exact Hk]. }
  revert Hs. by eapply Moves_trans.
Qed.

Lemma Moves_evict s fs : Moves s (evictionPass s fs).1.
Proof.
  unfold evictionPass. pose proof (Moves_store s (evictionTick (EvictionSampleSize (cfg s)))) as HM.
  destruct (evictionTick _ (store (executor s))) as [u st]. eapply Moves_trans; [apply HM|apply Moves_deliver].
  apply (Keeps_runOp mathLog (OpEvictionTick (EvictionSampleSize (cfg s)))). done.
Qed.

Lemma Moves_sweep now keys s fs : Moves s (sweepPass now keys s fs).1.
Proof.
  unfold sweepPass. pose proof (Moves_store s (sweepTick now keys) (Keeps_sweepTick now keys)) as HM.
  destruct (sweepTick now keys (store (executor s))) as [u st]. eapply Moves_trans; [apply HM|apply Moves_deliver].
Qed.

(** ** The replica link *)

Lemma Moves_replicaStep linkOk data u s fs : Moves s (replicaStep linkOk data u s fs).1.2.2.
Proof.
  unfold replicaStep. destruct (Parse ErrEOF data) as [[value|e] rest]; [|apply Moves_refl]. destruct (EncodedLen value) as [n|e]; [|apply Moves_refl]. cbn zeta.
  set (s1 := setExecutor _ s). eapply (Moves_trans s s1); [by apply Moves_same|].
  pose proof (Moves_execute replicationContext value [] s1 ltac:(done) ltac:(by apply Forall_nil)) as H1.
  destruct (executeOn replicationContext value [] s1) as [r s2]. cbn [snd] in H1. eapply Moves_trans; [exact H1|]. unfold fbind at 1.
  pose proof (Moves_deliver (store (executor s1)) s2 fs) as H2. destruct (deliverExpired (store (executor s1)) s2 fs) as [s3 fs3]. cbn [fst] in H2. eapply Moves_trans; [exact H2|].
  destruct r as [result|e]; [|apply Moves_refl]. unfold fbind, fret.
  pose proof (Moves_persist (Durability result) s3 fs3) as H3. destruct (persistDurabilityFrames (Durability result) s3 fs3) as [[err s4] fs4]. cbn [fst snd] in H3.
  eapply Moves_trans; [exact H3|]. destruct err; [apply Moves_refl|]. destruct (zlen _ =? 0); [apply Moves_refl|]. destruct (writeUplink _ _ u) as [ok u']. apply Moves_refl.
Qed.

(** A full resynchronisation, with whatever the master sends. *)
Lemma Moves_resync data s : Moves s (consumeFullResync data s).2.2.
Proof.
  unfold consumeFullResync. destruct (Parse ErrEOF data) as [[v1|e] rest]; [|apply Moves_refl]. destruct v1; try apply Moves_refl. cbn zeta.
  destruct (negb _); [apply Moves_refl|]. destruct (Parse ErrEOF rest) as [[v2|e2] rest']; [|apply Moves_refl]. destruct v2 as [| | |payload [|]| | | | |]; try apply Moves_refl.
  destruct (LoadReader IoEOF (Some payload) (Some NewStore)) as [[st|e] [loaded|]] eqn:E; try apply Moves_refl.
  apply LoadReader_inv in E; [|apply NewStore_inv]. pose proof (Moves_store s (ReplaceWith loaded) (Keeps_ReplaceWith loaded E)) as HM.
  destruct (ReplaceWith loaded (store (executor s))) as [u st']. exact HM.
Qed.

(** ** Start-up *)

Lemma Moves_setStore st s : (ServerOk s → StoreInv st) → Moves s (setExecutor (setStore st (executor s)) s).
Proof. intros Hst Hs. exact (Moves_store s (λ _, (tt, st)) (λ _ _, Hst Hs) Hs). Qed.

Lemma Moves_loadRDB s fs : Moves s (loadRDB s fs).1.2.
Proof.
  unfold loadRDB. case_bool_decide; [apply Moves_refl|]. unfold RdbSave.LoadFile, fbind. destruct (osOpen _ fs) as [[[h data]|e] fs1]; cbn [fst snd fret].
  - destruct (LoadReader IoEOF (Some data) (Some (store (executor s)))) as [r st] eqn:El. destruct (FileClose h fs1) as [closed fs2]. cbn [fst snd fret].
    destruct st as [st|]; [|apply Moves_refl]. apply Moves_setStore. intros Hs. by eapply LoadReader_inv; [apply Hs|].
  - apply Moves_setStore. intros Hs. apply Hs.
Qed.

Lemma Moves_replay value s fs : Moves s (replayOn value (s, fs)).2.1.
Proof.
  unfold replayOn. pose proof (Moves_execute replicationContext value [] s ltac:(done) ltac:(by apply Forall_nil)) as H1.
  destruct (executeOn replicationContext value [] s) as [r s1]. cbn [snd] in H1. pose proof (Moves_deliver (store (executor s)) s1 fs) as H2.
  destruct (deliverExpired (store (executor s)) s1 fs) as [s2 fs2]. by eapply Moves_trans.
Qed.

Lemma Moves_loadLoop cancelled fuel : ∀ data stats s fs, Moves s (Aof.loadLoop replayOn cancelled fuel data stats (s, fs)).2.1.
Proof.
  induction fuel as [|fuel IH]; intros data stats s fs; [apply Moves_refl|]. cbn [Aof.loadLoop]. destruct (cancelled _); [apply Moves_refl|].
  destruct (Parse ErrEOF data) as [[value|e] rest].
  - pose proof (Moves_replay value s fs) as H1. destruct (replayOn value (s, fs)) as [[e|] [s1 fs1]]; [exact H1|]. eapply Moves_trans; [exact H1|apply IH].
  - case_bool_decide; [apply Moves_refl|]. destruct (isRecoverableTruncation e); apply Moves_refl.
Qed.

Lemma Moves_loadAppendOnly cancelled path s fs : Moves s (loadAppendOnly cancelled path s fs).1.2.
Proof.
  unfold loadAppendOnly, fbind, Aof.LoadFileCtx. destruct (osOpen path fs) as [[[h data]|e] fs1]; [|apply Moves_refl].
  pose proof (Moves_loadLoop cancelled (S (length data)) data (mkLoadStats 0 false) s fs1) as HM.
  destruct (Aof.loadLoop _ _ _ _ _ _) as [[stats err] [s1 fs2]]. cbn [snd fst] in *. by destruct (FileClose h fs2) as [closed fs3].
Qed.

Lemma Moves_initialize cancelled s fs : Moves s (initializePersistence cancelled s fs).1.2.
Proof.
  unfold initializePersistence. case_bool_decide; [apply Moves_loadRDB|]. destruct (ParsePolicy _) as [policy|]; [|apply Moves_refl]. unfold fbind at 1.
  destruct (aofFileState _ fs) as [[[exists_ size]|e] fs1]; [|apply Moves_refl]. unfold fbind at 1.
  assert (Moves s ((if exists_ && (0 <? size) then loadAppendOnly cancelled (AOFPath (cfg s)) s else loadRDB s) fs1).1.2) as H1
    by (destruct (exists_ && _); [apply Moves_loadAppendOnly|apply Moves_loadRDB]).
  destruct ((if exists_ && (0 <? size) then loadAppendOnly cancelled (AOFPath (cfg s)) s else loadRDB s) fs1) as [[[err|] s1] fs2]; [exact H1|]. cbn [fst snd] in H1. unfold fbind at 1.
  destruct (OpenWriter _ policy fs2) as [[w|e] fs3]; [|exact H1]. unfold fbind. eapply Moves_trans; [exact H1|].
  destruct (aofWriter s1) as [stale|]; [destruct (Close stale fs3) as [[u e] fs4]|]; apply Moves_writer.
Qed.

Lemma Moves_startup cancelled listenOk s fs : Moves s (startup cancelled listenOk s fs).1.2.
Proof.
  unfold startup. destruct (if IsReplica (cfg s) then _ else _); [|apply Moves_refl]. unfold fbind at 1.
  pose proof (Moves_initialize cancelled s fs) as H1. destruct (initializePersistence cancelled s fs) as [[[err|] s1] fs1]; [exact H1|]. cbn [fst snd] in H1. cbn zeta.
  eapply Moves_trans; [exact H1|].
  pose proof (Moves_store s1 (let! _ := ConfigureMaxMemory (MaxMemory (cfg s1)) (EvictionSampleSize (cfg s1)) in EnforceMaxMemory)) as H2.
  unfold bind in H2. destruct (ConfigureMaxMemory _ _ (store (executor s1))) as [u st1] eqn:Ec. destruct (EnforceMaxMemory st1) as [r st2] eqn:Ee. cbn [snd] in H2.
  unfold fbind at 1. pose proof (Moves_deliver (store (executor s1)) (setExecutor (setStore st2 (executor s1)) s1) fs1) as H3.
  destruct (deliverExpired _ _ fs1) as [s3 fs3]. cbn [fst] in H3. eapply Moves_trans; [apply H2|].
  { apply (Keeps_bind _ (λ _, EnforceMaxMemory)); [apply Keeps_ConfigureMaxMemory|]. intros _. apply Keeps_EnforceMaxMemory. }
  eapply Moves_trans; [exact H3|]. destruct r; [|apply Moves_refl]. destruct listenOk; [apply Moves_refl|]. unfold closeAOFWriter. destruct (aofWriter s3) as [w|]; [|apply Moves_refl].
  unfold fbind. destruct (Close w fs3) as [[e u'] fs4]. apply Moves_writer.
Qed.

(** ** Shutdown *)

Lemma Moves_clear ids : ∀ s, (∀ id, id ∈ ids → known s id) → Moves s (foldl (λ s id, onServerHub (Disconnect id) s) s ids).
Proof.
  induction ids as [|id ids IH]; intros s Hk Hs; [by apply Moves_refl|]. cbn [foldl].
  assert (Moves s (onServerHub (Disconnect id) s)) as H1. { apply (Moves_hubRel s _ None). intros Hs1. apply HubRel_Disconnect; [apply Hs1|]. apply (Hk id). by left. }
  destruct (H1 Hs) as [Hs1 Hk1]. destruct (IH _ (λ i Hi, Hk1 i (Hk i (list_elem_of_further _ _ _ Hi))) Hs1) as [Hs2 Hk2]. split; [done|]. intros i Hi. by apply Hk2, Hk1.
Qed.

Lemma Moves_shutdown s : Moves s (shutdown s).2.
Proof.
  unfold shutdown, ClientRegistry_CloseAll. cbn zeta. cbn [snd]. set (s1 := setExecutor _ _).
  assert (Moves s s1) as H1.
  { subst s1. eapply (Moves_trans s (setUpstream false s)); [by apply Moves_same|]. apply (Moves_hubRel (setUpstream false s) _ None). intros Hs.
    pose proof (sv_hub _ (so_inv _ Hs)) as Hi. split; [apply (hubStep_inv (N := cmd_net) (hub (executor s))); [constructor|exact Hi]|done| |]; cbn; [|congruence].
    intros i c c' Hc Hc'. simplify_eq. apply clientRel_refl. }
  eapply Moves_trans; [exact H1|]. clear H1. generalize s1. clear s s1. intros s Hs. unfold clearClientStates.
  assert (Moves s (setClientStates ∅ s)) as H1 by (apply Moves_same; [set_solver|done|done]).
  assert (Moves (setClientStates ∅ s) (foldl (λ s id, onServerHub (Disconnect id) s) (setClientStates ∅ s) (idOrder (clientStates s)))) as H2.
  { apply Moves_clear. intros id. rewrite idOrder_perm, elem_of_elements. apply (so_states _ Hs). }
  revert Hs. by eapply Moves_trans.
Qed.

(** ** Runs *)

(** What happens to a server: it loads its files and sets its memory limit, connections come and go, clients whose state is
    there send requests, monitors and replicas are told, keys are evicted, the
    replica link applies what its master sends, and the server shuts down. *)
Inductive serverStep : Server * FS → Server * FS → Prop :=
  | StepStart cancelled listenOk s fs r s' fs' : startup cancelled listenOk s fs = ((r, s'), fs') → serverStep (s, fs) (s', fs')
  | StepConnect s fs : serverStep (s, fs) ((acceptConnection s).2, fs)
  | StepLeave id s fs : serverStep (s, fs) (teardownClient id s, fs)
  | StepRequest ctx id addr request ps s fs r s' fs' : (∀ i, ctxClient ctx = Some i → known s i) → Forall Others ps →
      connCommandRunner ctx id addr request ps s fs = ((r, s'), fs') → serverStep (s, fs) (s', fs')
  | StepRespond id values s fs : serverStep (s, fs) (setExecutor (setHub (WriteResponses id values (hub (executor s))).2 (executor s)) s, fs)
  | StepEvict s fs : serverStep (s, fs) (evictionPass s fs)
  | StepSweep now keys s fs : serverStep (s, fs) (sweepPass now keys s fs)
  | StepResync data s fs : serverStep (s, fs) ((consumeFullResync data s).2.2, fs)
  | StepReplicate linkOk data u s fs next u' s' fs' : replicaStep linkOk data u s fs = ((next, (u', s')), fs') → serverStep (s, fs) (s', fs')
  | StepRewrite s fs : serverStep (s, fs) ((beginAOFRewrite s).2, fs)
  | StepFiles w s fs fs' : serverStep (s, fs) (setAofWriter w s, fs')
  | StepShutdown s fs : serverStep (s, fs) ((shutdown s).2, fs).

Inductive serverReachable (st0 : Server * FS) : Server * FS → Prop :=
  | ServerStart : serverReachable st0 st0
  | ServerThen st st' : serverReachable st0 st → serverStep st st' → serverReachable st0 st'.

Lemma Moves_accept s : Moves s (acceptConnection s).2.
Proof.
  unfold acceptConnection. destruct (overConnectionLimit s); [apply Moves_refl|]. pose proof (Moves_register s) as HM. by destruct (registerClient s).
Qed.

Lemma serverStep_moves st st' : serverStep st st' → Moves st.1 st'.1.
Proof.
  destruct 1 as [cancelled listenOk s fs r s' fs' E|s fs|id s fs|ctx id addr request ps s fs r s' fs' Hp Hps E|id values s fs|s fs|now keys s fs|data s fs|linkOk data u s fs next u' s' fs' E|s fs|w s fs fs'|s fs]; cbn [fst].
  - pose proof (Moves_startup cancelled listenOk s fs) as HM. by rewrite E in HM.
  - apply Moves_accept.
  - apply Moves_teardown.
  - pose proof (Moves_runner ctx id addr request ps s fs Hp Hps) as HM. by rewrite E in HM.
  - apply (Moves_hubRel s _ None). intros Hs. unfold WriteResponses. destruct (EncodeValues values); [apply HubRel_WriteEncoded, Hs|apply HubRel_refl, Hs].
  - pose proof (Moves_evict s fs) as HM. by destruct (evictionPass s fs).
  - pose proof (Moves_sweep now keys s fs) as HM. by destruct (sweepPass now keys s fs).
  - apply Moves_resync.
  - pose proof (Moves_replicaStep linkOk data u s fs) as HM. by rewrite E in HM.
  - unfold beginAOFRewrite. destruct (aofWriter s) as [w|]; [|apply Moves_refl]. destruct (BeginRewrite w true). apply Moves_writer.
  - apply Moves_writer.
  - apply Moves_shutdown.
Qed.

Lemma serverReachable_ok st0 st : ServerOk st0.1 → serverReachable st0 st → ServerOk st.1 ∧ ∀ id, known st0.1 id → known st.1 id.
Proof.
  intros H0. induction 1 as [|st st' _ [IH1 IH2] Hstep]; [done|]. destruct (serverStep_moves _ _ Hstep IH1) as [H1 H2]. split; [done|]. intros id Hid. by apply H2, IH2.
Qed.

Lemma New_ok c replID store : StoreInv store → ServerOk (New c replID store).
Proof.
  intros Hs. split; [|done]. split; cbn; [|apply NewHub_inv|by intros id c0; rewrite lookup_empty].
  unfold setListener. eapply StoreInv_frame; [exact Hs|done|done|apply Hs].
Qed.
End Facts.
