(* ===== verification/RewriteFacts.v ===== *)
(** * Replaying the commands of a rewrite

    What each command that [rewriteFramesForEntry] writes does to the store when
    the loader runs it: the key of the entry, absent before, holds the content of
    the entry, and nothing else changes. *)

From S2P Require Import Prelude Strconv GoLib GoText Float64 CompactHash CompactZSet Strfloat Resp RespDecode RespDecodeFacts RespParser Stream ValueObject ValueFacts.
From S2P Require Import ListWaiters Store StoreOps StoreFacts StoreMemory StoreInvariant StoreTheorems StorePlain StoreFrames.
From S2P Require Import Clients Slowlog Replication CommandBase Commands Executor ExecutorFacts ExecutorTheorems TransactionTheorems Aof AofFacts FileSys Config Server ServerRun.

Section Runs.
Context {C : CommandEnv}.
Implicit Types (s : Store).

(** Running [v] succeeds and takes the store from [s] to [s']; what else the
    executor holds does not matter. *)
Definition Runs (v : Value) s s' : Prop :=
  ∀ st, store (ex st) = s → ∃ r st', ExecuteDetailed replicationContext v st = (Ok r, st') ∧ store (ex st') = s'.

Inductive RunsAll : list Value → Store → Store → Prop :=
  | RunsNil s : RunsAll [] s s
  | RunsCons v vs s s1 s2 : Runs v s s1 → RunsAll vs s1 s2 → RunsAll (v :: vs) s s2.

Lemma RunsAll_app vs ws s s1 s2 : RunsAll vs s s1 → RunsAll ws s1 s2 → RunsAll (vs ++ ws) s s2.
Proof. induction 1 as [|v vs s s0 s1 Hv Hvs IH]; intros Hw; [done|]. econstructor; [exact Hv|by apply IH]. Qed.

(** A command of the table with a plain handler. *)
Lemma runs_command v request spec handle s sv sh :
  DecodeRequest v = Ok request → (∀ run, command run (Name request) = Some spec) → handler spec = inl handle →
  (∀ st, store (ex st) = s → ∃ st', validate spec request st = (Ok tt, st') ∧ store (ex st') = sv) →
  (∀ st, store (ex st) = tick sv → ∃ reply st', handle replicationContext request st = (Ok reply, st') ∧ store (ex st') = sh) →
  Runs v s (tick sh).
Proof.
  intros Hd Hc Hh Hv Hx st Hs. unfold ExecuteDetailed. rewrite Hd. unfold executeRequestDetailed. cbn [executeAt].
  rewrite open_dispatch by exact I. unfold withExecutionEffects, dispatch. rewrite Hc. unfold hbind at 1.
  destruct (Hv (mkSt (ex st) noEffects (pauses st)) Hs) as (st1 & -> & Hs1). unfold runSpec, hbind at 1. rewrite now_eq, Hh.
  unfold hbind at 1. destruct (Hx (ticked st1)) as (reply & st2 & -> & Hs2); [cbn; by rewrite Hs1|].
  unfold hbind at 1. rewrite now_eq. unfold hbind at 1.
  match goal with |- context [recordSlowCommand ?c ?r ?t ?d ?x] => destruct (recordSlow_eq c r t d x) as (sl & ->) end.
  destruct (executionFrames _ _ _ _) as [prop dur]. eexists _, _. split; [reflexivity|]. cbn. by rewrite Hs2.
Qed.

(** The handlers of writes: one store operation, then the watchers. *)
Lemma write_handler {A} conv (op : M (result storeError (A * list bytes))) key (reply : A → Value) s s' a :
  op s = (Ok (a, []), s') →
  ∀ st, store (ex st) = s → ∃ r st',
    (let* (x, evicted) := storeCall conv op in do* recordWriteEffects replicationContext key evicted in hret (reply x)) st = (Ok r, st')
    ∧ store (ex st') = s'.
Proof.
  intros Hop st <-. unfold hbind at 1, storeCall, hbind at 1, onStoreM. rewrite Hop. unfold hlift at 1. cbn [map_err].
  unfold hbind at 1, recordWriteEffects, hbind at 1. change (touchWatchKeys [key]) with (onHub (WatchRegistry_Touch [key])).
  unfold onHub, onEx. change (recordEvictedKeys replicationContext []) with (hret tt). by eexists _, _.
Qed.

(** ** Requests on the wire *)

Lemma decodeArgs_bulks l : decodeArgs (wireValue <$> (bulk <$> l)) = Ok l.
Proof. induction l as [|a l IH]; [done|]. cbn [fmap list_fmap wireValue decodeArgs bulk] in *. cbn. by rewrite IH. Qed.

Lemma decode_command name args : strings_ToUpper (bs name) = bs name →
  DecodeRequest (wireValue (rewriteCommand name (bulk <$> args))) = Ok (mkRequest (bs name) args).
Proof.
  intros Hn. unfold rewriteCommand, arr, text. cbn [wireValue fmap list_fmap DecodeRequest Bytes]. rewrite decodeArgs_bulks. cbn [result_bind]. by rewrite Hn.
Qed.

(** ** One store operation per command *)

(** [key] comes to hold [c] with the deadline [e], nothing else changes. *)
Definition Stores (key : bytes) (c : content) (e : Z) s s' : Prop :=
  ∃ v, KeyChanged key (Some v) s s' ∧ contentOf v = (c, e) ∧ (ticks s ≤ ticks s')%nat.

Lemma Stores_tick key c e s s' : Stores key c e (tick s) s' → Stores key c e s (tick s').
Proof.
  intros (v & Hk & Hc & Ht). exists v. split_and!; [|done|cbn in *; lia]. destruct Hk as [H1 H2 H3]. split; [by apply tick_inv|done|done].
Qed.

Lemma Stores_foot {A} key c (op : M (result storeError (A * list bytes))) e v s a s' :
  Foot op (answersFor key) → StoreInv s → maxMemoryEnabled s = false →
  op s = (Ok (a, []), s') → KeyChanged key (Some v) s s' → contentOf v = (c, e) → Stores key c e s s'.
Proof.
  intros Hf Hs Hp Hop Hk Hc. exists v. split_and!; [done..|]. pose proof (Foot_run op _ s Hf Hs Hp) as [_ _ [_ Ht _]]. by rewrite Hop in Ht.
Qed.

(** What a collection command writes to an absent key. *)
Lemma addTo_absent key clone add fresh len s n c :
  StoreInv s → maxMemoryEnabled s = false → lookupKey s key = None → Foot (addTo key clone add fresh len) (answersFor key) →
  (∀ stamp, GoodValue (fresh stamp) ∧ len (fresh stamp) = Ok n ∧ ∀ now, contentOf (touch (fresh stamp) now) = (c, 0)) →
  ∃ s', addTo key clone add fresh len s = (Ok (n, []), s') ∧ Stores key c 0 s s'.
Proof.
  intros Hs Hp Hk Hf Hfresh. assert (liveValue s key = None) as Hl by (unfold liveValue; by rewrite Hk).
  destruct (addTo_plain key clone add fresh len s n Hs Hp) as (s' & v & stamp & Heq & Hkc & Hv).
  { rewrite Hl. intros stamp. destruct (Hfresh stamp) as (H1 & H2 & _). done. }
  rewrite Hl in Hv. exists s'. split; [done|]. eapply Stores_foot; [exact Hf|done|done|exact Heq|exact Hkc|]. rewrite Hv. by apply Hfresh.
Qed.

Lemma contentOf_touch v now : contentOf (touch v now) = contentOf v.
Proof. done. Qed.

Lemma HSet_absent key pairs s :
  StoreInv s → maxMemoryEnabled s = false → lookupKey s key = None → pairs ≠ [] →
  ∃ n s', HSet key pairs s = (Ok (n, []), s') ∧ Stores key (CHash (hashUpd ∅ pairs)) 0 s s'.
Proof.
  intros Hs Hp Hk Hne. pose proof (Foot_HSet key pairs) as Hf. unfold HSet in *. destruct (Z.eqb_spec (zlen pairs) 0) as [Hz|_]; [by destruct pairs|].
  eexists. eapply addTo_absent; [done..|]. intros stamp. destruct (newHashValueForPairs_spec stamp pairs 0) as (Hk0 & Hw & Ha & He & _). split_and!.
  - apply GoodHash; [done|done|]. rewrite Ha. apply hashUpd_nonempty. by right.
  - rewrite hashLen_spec by done. by rewrite Ha.
  - intros now. rewrite contentOf_touch. unfold contentOf. by rewrite Hk0, Ha, He.
Qed.

Lemma SAdd_absent key members s :
  StoreInv s → maxMemoryEnabled s = false → lookupKey s key = None → members ≠ [] →
  ∃ n s', SAdd key members s = (Ok (n, []), s') ∧ Stores key (CSet (list_to_set members)) 0 s s'.
Proof.
  intros Hs Hp Hk Hne. pose proof (Foot_SAdd key members) as Hf. unfold SAdd in *. destruct (Z.eqb_spec (zlen members) 0) as [Hz|_]; [by destruct members|].
  eexists. eapply addTo_absent; [done..|]. intros stamp. destruct (newSetValueForMembers_spec stamp members 0) as (Hk0 & Hw & Ha & He & _). split_and!.
  - apply GoodSet; [done|done|]. rewrite Ha. destruct members; [done|set_solver].
  - rewrite setLen_spec by done. by rewrite Ha.
  - intros now. rewrite contentOf_touch. unfold contentOf. by rewrite Hk0, Ha, He.
Qed.

Lemma ZAdd_absent key zs s :
  StoreInv s → maxMemoryEnabled s = false → lookupKey s key = None → zs ≠ [] → Forall scoreOk zs →
  ∃ n s', ZAdd key zs s = (Ok (n, []), s') ∧ Stores key (CZSet (zsetUpd ∅ zs)) 0 s s'.
Proof.
  intros Hs Hp Hk Hne Hok. pose proof (Foot_ZAdd key zs Hok) as Hf. unfold ZAdd in *. destruct (Z.eqb_spec (zlen zs) 0) as [Hz|_]; [by destruct zs|].
  eexists. eapply addTo_absent; [done..|]. intros stamp. destruct (newZSetValueForEntries_spec stamp zs 0 Hok) as (Hk0 & Hw & Ha & He & _). split_and!.
  - apply GoodZSet; [done|done|]. rewrite Ha. by apply zsetUpd_nonempty.
  - rewrite zsetLen_spec by done. by rewrite Ha.
  - intros now. rewrite contentOf_touch. unfold contentOf. by rewrite Hk0, Ha, He.
Qed.

Lemma RightPush_absent key values s :
  StoreInv s → maxMemoryEnabled s = false → lookupKey s key = None → values ≠ [] →
  ∃ n s', RightPush key values s = (Ok (n, []), s') ∧ Stores key (CList values) 0 s s'.
Proof.
  intros Hs Hp Hk Hne. assert (liveValue s key = None) as Hl by (unfold liveValue; by rewrite Hk).
  destruct (pushList_plain _ key values false s Hs Hp Hne) as (s' & v & Heq & Hkc & Kv & Lv & Ev & _); [by rewrite Hl|].
  eexists _, s'. split; [exact Heq|]. eapply Stores_foot; [apply Foot_pushList|done|done|exact Heq|exact Hkc|].
  unfold contentOf. rewrite Kv, Lv, Ev, Hl. done.
Qed.
(** The stream a key holds; a missing key is an empty stream. *)
Definition streamAt s key (stream : StreamValue) : Prop :=
  match lookupKey s key with None => stream = newStream | Some v => contentOf v = (CStream (Some stream), 0) end.

Definition snoc (stream : StreamValue) (r : streamRecord) : StreamValue := mkStreamValue (sentries stream ++ [r]) (sid r) true.

(** A record that can follow [stream]. *)
Definition follows (stream : StreamValue) (r : streamRecord) : Prop :=
  idText r = streamID_String (sid r) ∧ idOk (sid r) ∧ (hasEntries stream = true → idLess (lastID stream) (sid r)).

(** XADD takes that many values. *)
Definition valuesOk (values : list bytes) : bool := negb (zlen values =? 0) && (zlen values mod 2 =? 0).

Lemma id_not_star id : idOk id → streamID_String id ≠ bs "*".
Proof. intros Hid He. pose proof (parse_String id Hid) as Hp. rewrite He in Hp. done. Qed.

Lemma Stream_add_next stream r now : follows stream r → Stream_add stream (idText r) (svalues r) now = Ok (snoc stream r, idText r).
Proof.
  intros (Ht & Hid & Hl). unfold Stream_add. rewrite Ht, decide_False by (by apply id_not_star). rewrite parse_String by done. cbn [result_bind].
  assert (hasEntries stream && (compareStreamIDs (sid r) (lastID stream) <=? 0) = false) as ->.
  { destruct (hasEntries stream); [|done]. apply Z.leb_gt, Z.ltb_lt, compare_pos, Hl. done. }
  cbn [result_bind]. unfold snoc. destruct r. cbn in *. by subst.
Qed.

Lemma streamAt_live s key stream : streamAt s key stream →
  match liveValue s key with
  | Some current => value_StreamValue current = Ok stream ∧ ExpiresAt current = 0
  | None => stream = newStream
  end.
Proof.
  unfold streamAt, liveValue. destruct (lookupKey s key) as [v|]; cbn [live]; [|done]. unfold contentOf. intros [= Hc He].
  unfold isExpired. rewrite He. cbn [Z.ltb Z.compare andb]. split; [|done]. unfold value_StreamValue, ofKind.
  destruct (Kind v); try done. rewrite decide_True by done. injection Hc as Hc. by rewrite Hc.
Qed.

Lemma XAdd_next key stream r s :
  StoreInv s → maxMemoryEnabled s = false → streamAt s key stream → follows stream r → valuesOk (svalues r) = true →
  ∃ s', XAdd key (idText r) (svalues r) s = (Ok (idText r, []), s') ∧ Stores key (CStream (Some (snoc stream r))) 0 s s'.
Proof.
  intros Hs Hp Hst Hr Hv. pose proof (Foot_XAdd key (idText r) (svalues r)) as Hf.
  assert (∃ s' v, XAdd key (idText r) (svalues r) s = (Ok (idText r, []), s') ∧ KeyChanged key (Some v) s s'
    ∧ contentOf v = (CStream (Some (snoc stream r)), 0)) as (s' & v & Heq & Hk & Hc).
  2: { exists s'. split; [done|]. by eapply Stores_foot. }
  unfold XAdd. unfold valuesOk in Hv. apply andb_true_iff in Hv as [Hv1 Hv2]. apply negb_true_iff in Hv1. rewrite Hv1, Hv2. cbn [negb orb].
  match goal with |- context [writeKey key ?f s] => set (fn := f) end.
  destruct (writeKey_plain key fn s Hs Hp) as (s1 & -> & Hk1 & _). unfold fn. cbn [wcurrent waccounting wnow].
  pose proof (streamAt_live s key stream Hst) as Hl.
  assert ((match liveValue s key with
           | Some current => let? existing := value_StreamValue current in Ok (if false then cloneStreamValue existing else existing, ExpiresAt current)
           | None => Ok (newStream, 0)
           end) = (Ok (stream, 0) : result storeError (StreamValue * Z))) as ->.
  { destruct (liveValue s key) as [v0|]; [destruct Hl as [-> ->]; done|by rewrite Hl]. }
  rewrite Stream_add_next by done. unfold bind at 1, nowMilli at 1. unfold bindR, bind at 1.
  match goal with |- context [commit ?w0 ?v0] => set (w := w0); set (v := v0) end.
  destruct (commit_plain w v (tick s1) eq_refl (tick_inv _ (kc_inv _ _ _ _ Hk1))) as (s2 & -> & Hk2 & _).
  { split; [cbn; by eexists|done]. }
  exists s2, v. split_and!; [done| |done]. eapply KeyChanged_trans; [by apply KeyChanged_tick|exact Hk2].
Qed.
(** ** The commands *)

Abbreviation frame name args := (wireValue (rewriteCommand name (bulk <$> args))).

(** A command whose validator reads nothing and whose handler is one store operation. *)
Lemma runs_write {A} name args spec handle conv (op : M (result storeError (A * list bytes))) reply key c s a s' :
  let request := mkRequest (bs name) args in
  strings_ToUpper (bs name) = bs name → (∀ run, command run (bs name) = Some spec) → handler spec = inl handle →
  (∀ st, validate spec request st = (Ok tt, st)) →
  handle replicationContext request
    = (let* (x, evicted) := storeCall conv op in do* recordWriteEffects replicationContext key evicted in hret (reply x)) →
  op (tick s) = (Ok (a, []), s') → Stores key c 0 (tick s) s' →
  Runs (frame name args) s (tick s') ∧ Stores key c 0 s (tick s').
Proof.
  intros request Hn Hc Hh Hv Hx Hop Hst. split; [|by apply Stores_tick].
  eapply (runs_command _ request spec handle s s s'); [by apply decode_command|done|done| |].
  - intros st Hs. exists st. by rewrite Hv.
  - rewrite Hx. by eapply write_handler.
Qed.

Lemma argc_lt (name : bytes) l n : n ≤ zlen l → (argc (mkRequest name l) <? n) = false.
Proof. intros Hl. apply Z.ltb_ge. exact Hl. Qed.

Lemma rpush_runs key values s :
  StoreInv s → maxMemoryEnabled s = false → lookupKey s key = None → values ≠ [] →
  ∃ s', Runs (frame "RPUSH" (key :: values)) s s' ∧ Stores key (CList values) 0 s s'.
Proof.
  intros Hs Hp Hk Hne. destruct (RightPush_absent key values (tick s) (tick_inv s Hs) Hp Hk Hne) as (n & s' & Hop & Hst). exists (tick s').
  assert (2 ≤ zlen (key :: values)) as Hl by (destruct values; [done|]; unfold zlen; cbn [length]; lia).
  eapply (runs_write "RPUSH" _ (writeSpec handleRPush (minArgsValidator "RPUSH" 2)) handleRPush); [reflexivity|reflexivity|reflexivity| | |exact Hop|exact Hst].
  - intros st. cbn [validate writeSpec]. unfold minArgsValidator. by rewrite argc_lt.
  - unfold handleRPush. by rewrite argc_lt.
Qed.

Lemma sadd_runs key members s :
  StoreInv s → maxMemoryEnabled s = false → lookupKey s key = None → members ≠ [] →
  ∃ s', Runs (frame "SADD" (key :: members)) s s' ∧ Stores key (CSet (list_to_set members)) 0 s s'.
Proof.
  intros Hs Hp Hk Hne. destruct (SAdd_absent key members (tick s) (tick_inv s Hs) Hp Hk Hne) as (n & s' & Hop & Hst). exists (tick s').
  assert (2 ≤ zlen (key :: members)) as Hl by (destruct members; [done|]; unfold zlen; cbn [length]; lia).
  eapply (runs_write "SADD" _ (writeSpec handleSAdd (minArgsValidator "SADD" 2)) handleSAdd); [reflexivity|reflexivity|reflexivity| | |exact Hop|exact Hst].
  - intros st. cbn [validate writeSpec]. unfold minArgsValidator. by rewrite argc_lt.
  - unfold handleSAdd. by rewrite argc_lt.
Qed.

(** The arguments of HSET and ZADD, two per element. *)
Definition flat {A} (f g : A → bytes) (l : list A) : list bytes := x ← l; [f x; g x].

Lemma pairsOf_flat {A} (f g : A → bytes) l : pairsOf (flat f g l) = (λ x, (f x, g x)) <$> l.
Proof. induction l as [|x l IH]; [done|]. cbn [flat mbind list_bind app pairsOf fmap list_fmap]. f_equal. apply IH. Qed.

Lemma flat_argc {A} (f g : A → bytes) name key l :
  l ≠ [] → let request := mkRequest name (key :: flat f g l) in (argc request <? 3) || (argc request mod 2 =? 0) = false.
Proof.
  intros Hne. assert (zlen (flat f g l) = 2 * zlen l) as Hz.
  { clear Hne. induction l as [|x l IH]; [done|]. cbn [flat mbind list_bind app]. rewrite !zlen_cons. change (zlen (l ≫= λ x, [f x; g x])) with (zlen (flat f g l)). lia. }
  assert (1 ≤ zlen l) by (destruct l; [done|]; unfold zlen; cbn [length]; lia).
  cbn zeta. unfold argc. cbn [Args]. rewrite zlen_cons, Hz. apply orb_false_iff. split; [apply Z.ltb_ge; lia|].
  apply Z.eqb_neq. replace (1 + 2 * zlen l) with (1 + zlen l * 2) by lia. by rewrite Z.mod_add.
Qed.

Lemma hset_runs key (pairs : list HashFieldValue) s :
  StoreInv s → maxMemoryEnabled s = false → lookupKey s key = None → pairs ≠ [] →
  ∃ s', Runs (frame "HSET" (key :: flat fst snd pairs)) s s' ∧ Stores key (CHash (hashUpd ∅ pairs)) 0 s s'.
Proof.
  intros Hs Hp Hk Hne. destruct (HSet_absent key pairs (tick s) (tick_inv s Hs) Hp Hk Hne) as (n & s' & Hop & Hst). exists (tick s').
  assert (pairsOf (flat fst snd pairs) = pairs) as Hpairs by (rewrite pairsOf_flat; clear; induction pairs as [|[] ? IH]; [done|]; cbn; by rewrite IH).
  eapply (runs_write "HSET" _ (writeSpec handleHSet validateHSetRequest) handleHSet); [reflexivity|reflexivity|reflexivity| | |exact Hop|exact Hst].
  - intros st. cbn [validate writeSpec]. unfold validateHSetRequest. by rewrite flat_argc.
  - unfold handleHSet. cbn [Args]. change (drop 1 (key :: flat fst snd pairs)) with (flat fst snd pairs). by rewrite Hpairs.
Qed.

(** A score ZADD accepts, and that its text gives back. *)
Definition plainScore (x : float64) : bool := valid_binary 53 1024 x && negb (isNaN x) && negb (isInf x).

Lemma parseEntries_flat (zs : list scored) : Forall (λ e, plainScore e.2 = true) zs →
  parseEntries (pairsOf (flat (λ e : scored, FormatFloat e.2) fst zs)) = Ok zs.
Proof.
  rewrite pairsOf_flat. induction 1 as [|[m x] zs Hx Hzs IH]; [done|]. cbn [fmap list_fmap parseEntries fst snd] in *.
  unfold plainScore in Hx. bool_to_prop. unfold parseFloatArgument. rewrite ParseFloat_FormatFloat by done. rewrite H0, H1. cbn [orb result_bind]. by rewrite IH.
Qed.

Lemma zadd_runs key (zs : list scored) s :
  StoreInv s → maxMemoryEnabled s = false → lookupKey s key = None → zs ≠ [] → Forall (λ e, plainScore e.2 = true) zs →
  ∃ s', Runs (frame "ZADD" (key :: flat (λ e : scored, FormatFloat e.2) fst zs)) s s' ∧ Stores key (CZSet (zsetUpd ∅ zs)) 0 s s'.
Proof.
  intros Hs Hp Hk Hne Hok. pose proof (parseEntries_flat zs Hok) as He.
  assert (Forall scoreOk zs) as Hok' by (eapply Forall_impl; [exact Hok|]; intros [m x] Hx; unfold plainScore in Hx; bool_to_prop; done).
  destruct (ZAdd_absent key zs (tick s) (tick_inv s Hs) Hp Hk Hne Hok') as (n & s' & Hop & Hst). exists (tick s').
  eapply (runs_write "ZADD" _ (writeSpec handleZAdd validateZAddRequest) handleZAdd); [reflexivity|reflexivity|reflexivity| | |exact Hop|exact Hst].
  - intros st. cbn [validate writeSpec]. unfold validateZAddRequest. rewrite flat_argc by done. cbn [Args].
    change (drop 1 (key :: flat (λ e : scored, FormatFloat e.2) fst zs)) with (flat (λ e : scored, FormatFloat e.2) fst zs). by rewrite He.
  - unfold handleZAdd. cbn [Args]. change (drop 1 (key :: flat (λ e : scored, FormatFloat e.2) fst zs)) with (flat (λ e : scored, FormatFloat e.2) fst zs). by rewrite He.
Qed.
Lemma xadd_runs key stream r s :
  StoreInv s → maxMemoryEnabled s = false → streamAt s key stream → follows stream r → valuesOk (svalues r) = true →
  ∃ s', Runs (frame "XADD" (key :: idText r :: svalues r)) s s' ∧ Stores key (CStream (Some (snoc stream r))) 0 s s'.
Proof.
  intros Hs Hp Hk Hr Hv. destruct (XAdd_next key stream r (tick s) (tick_inv s Hs) Hp Hk Hr Hv) as (s' & Hop & Hst). exists (tick s').
  eapply (runs_write "XADD" _ (mkSpec (inl handleXAdd) validateXAddRequest false false true None) handleXAdd); [reflexivity|reflexivity|reflexivity| |reflexivity|exact Hop|exact Hst].
  intros st. cbn [validate]. unfold validateXAddRequest. unfold valuesOk in Hv. bool_to_prop. pose proof (zlen_nonneg (svalues r)).
  set (request := mkRequest (bs "XADD") (key :: idText r :: svalues r)).
  assert (argc request = zlen (svalues r) + 1 * 2) as -> by (unfold argc, request; cbn [Args]; rewrite !zlen_cons; lia).
  rewrite Z.mod_add, H0 by done. assert (zlen (svalues r) ≠ 1) by (intros He; rewrite He in H0; done).
  rewrite (proj2 (Z.ltb_ge _ _)) by lia. cbn [orb negb Z.eqb]. change (arg 1 request) with (idText r).
  destruct Hr as (-> & Hid & _). unfold ValidateXAddID. rewrite decide_False by (by apply id_not_star). by rewrite parse_String.
Qed.

Lemma xadds_runs key l : ∀ stream s,
  StoreInv s → maxMemoryEnabled s = false → streamAt s key stream →
  Forall (λ r, idText r = streamID_String (sid r) ∧ idOk (sid r)) l → Forall (λ r, valuesOk (svalues r) = true) l →
  StronglySorted (λ a b, idLess (sid a) (sid b)) l → (∀ r, r ∈ l → hasEntries stream = true → idLess (lastID stream) (sid r)) →
  l ≠ [] →
  ∃ s', RunsAll ((λ r, frame "XADD" (key :: idText r :: svalues r)) <$> l) s s' ∧ Stores key (CStream (Some (foldl snoc stream l))) 0 s s'.
Proof.
  induction l as [|r l IH]; intros stream s Hs Hp Hk Ht Hv Hsort Hl Hne; [done|].
  apply Forall_cons in Ht as [[Ht Hid] Htl]. apply Forall_cons in Hv as [Hv Hvl]. apply StronglySorted_inv in Hsort as [Hsort Hall].
  destruct (xadd_runs key stream r s Hs Hp Hk) as (s1 & H1 & v1 & K1 & C1 & T1); [|done|].
  { split_and!; [done|done|]. apply Hl. by left. }
  destruct (decide (l = [])) as [->|Hne'].
  { exists s1. split; [econstructor; [exact H1|constructor]|]. by exists v1. }
  destruct (IH (snoc stream r) s1) as (s2 & H2 & v2 & K2 & C2 & T2).
  - apply K1.
  - unfold maxMemoryEnabled. by rewrite (kc_max _ _ _ _ K1).
  - unfold streamAt. by rewrite (kc_lookup _ _ _ _ K1), decide_True.
  - done.
  - done.
  - done.
  - intros r' Hr' _. rewrite Forall_forall in Hall. by apply Hall.
  - done.
  - exists s2. split; [econstructor; [exact H1|exact H2]|]. exists v2. split_and!; [by eapply KeyChanged_trans|done|lia].
Qed.

(** A whole stream is rebuilt. *)
Lemma stream_rebuilt st : StreamWf st → sentries st ≠ [] → foldl snoc newStream (sentries st) = st.
Proof.
  intros Hwf Hne. assert (∀ l st0, l ≠ [] → ∃ r, last l = Some r ∧ foldl snoc st0 l = mkStreamValue (sentries st0 ++ l) (sid r) true) as H.
  { induction l as [|r l IH]; intros st0 Hl; [done|]. destruct (decide (l = [])) as [->|Hl']; [by exists r|].
    destruct (IH (snoc st0 r) Hl') as (r' & Hr' & Hf). exists r'. split; [by destruct l|]. cbn [foldl]. rewrite Hf. cbn. by rewrite <- app_assoc. }
  destruct (H (sentries st) newStream Hne) as (r & Hr & ->). pose proof (swf_has _ Hwf) as Hh. rewrite bool_decide_eq_true_2 in Hh by done.
  destruct (swf_last _ Hwf Hh) as (r' & Hr' & Hid). rewrite Hr in Hr'. injection Hr' as ->. destruct st as [es li he]. cbn in *. by subst.
Qed.

(** SET with the options it is given. *)
Lemma set_runs key value options e0 e s :
  StoreInv s → maxMemoryEnabled s = false →
  ParseExpiryMillis (clock (ticks s)) options = Ok e0 → ParseExpiryMillis (clock (S (S (ticks s)))) options = Ok e →
  ∃ s', Runs (frame "SET" (key :: value :: options)) s s' ∧ Stores key (CString value) e s s' ∧ (S (S (ticks s)) < ticks s')%nat.
Proof.
  intros Hs Hp He0 He. set (s3 := tick (tick (tick s))). assert (StoreInv s3) as Hs3 by by repeat apply tick_inv.
  destruct (Set_plain key value e s3 Hs3 Hp) as (s4 & v & Hset & [K1 K2 K3] & Kv & Sv & Ev & Ht).
  exists (tick s4). split_and!; [|exists v; split_and!|].
  - set (request := mkRequest (bs "SET") (key :: value :: options)).
    apply (runs_command _ request (mkSpec (inl handleSet) validateSetRequest false true true (Some rewriteSetFrame)) handleSet s (tick s) s4);
      [by apply decode_command|reflexivity|reflexivity| |].
    + intros st Hst. cbn [validate]. unfold validateSetRequest.
      assert ((argc request <? 2) = false) as -> by (apply argc_lt; unfold zlen; cbn [length]; lia).
      unfold hbind at 1, parseExpiry at 1, hbind at 1. rewrite now_eq, Hst. unfold hlift. change (drop 2 (Args request)) with options.
      rewrite He0. eexists. split; [reflexivity|]. cbn. by rewrite Hst.
    + intros st Hst. unfold handleSet. unfold hbind at 1, parseExpiry at 1, hbind at 1. rewrite now_eq, Hst. unfold hlift at 1.
      change (drop 2 (Args request)) with options. cbn [ticks tick]. rewrite He. cbn [map_err]. change (arg 0 request) with key. change (arg 1 request) with value.
      assert (store (ex (ticked st)) = s3) as Hs3' by (cbn; by rewrite Hst).
      unfold hbind at 1, storeCall, hbind at 1, onStoreM at 1. rewrite Hs3', Hset. unfold hlift at 1. cbn [map_err].
      unfold hbind at 1, onEff at 1. unfold hbind at 1. change (touchWatchKeys [key]) with (onHub (WatchRegistry_Touch [key])). unfold onHub at 1, onEx at 1.
      unfold hbind at 1. change (recordEvictedKeys replicationContext []) with (hret tt). by eexists _, _.
  - split; [by apply tick_inv|done|done].
  - unfold contentOf. by rewrite Kv, Sv, Ev.
  - cbn in *. lia.
  - cbn in *. lia.
Qed.
(** ** One entry of the snapshot *)

(** What the rewrite can write down: a deadline only on a string, and one whose
    nanoseconds fit an int64; scores ZADD accepts; a stream with entries, in
    order, each with the values XADD takes. *)
Definition Restorable (now : Z) (v : ValueObject) : Prop :=
  match Kind v with
  | ValueKindString => (ExpiresAt v - now) * 1000000 ≤ max_int64
  | ValueKindZSet => ExpiresAt v = 0 ∧ map_Forall (λ _ x, plainScore x = true) (zsetAbs v)
  | ValueKindStream => ExpiresAt v = 0 ∧ match vStream v with
      | Some st => StreamWf st ∧ sentries st ≠ [] ∧ Forall (λ r, valuesOk (svalues r) = true) (sentries st)
      | None => False
      end
  | _ => ExpiresAt v = 0
  end.

(** A string past its deadline at the start of the rewrite is left out. *)
Definition leftOut (now : Z) (v : ValueObject) : bool :=
  bool_decide (Kind v = ValueKindString) && ((0 <? ExpiresAt v) && (ExpiresAt v <=? now)).

(** The deadline of a restored key: the time left at the rewrite counts from a
    clock reading of the replay, which runs from [s] to [s']. *)
Definition Deadline (now : Z) (v : ValueObject) s s' (e : Z) : Prop :=
  if 0 <? ExpiresAt v then ∃ i, (ticks s ≤ i < ticks s')%nat ∧ e = clock i / 1000000 + (ExpiresAt v - now) else e = 0.

Lemma bulk_flat {A} (f g : A → bytes) (l : list A) : (x ← l; [bulk (f x); bulk (g x)]) = bulk <$> flat f g l.
Proof. induction l as [|x l IH]; [done|]. cbn [flat mbind list_bind app fmap list_fmap] in *. f_equal. f_equal. exact IH. Qed.

Lemma upd_perm {A} (l : list (bytes * A)) (m : gmap bytes A) : l ≡ₚ map_to_list m → foldl (λ m p, <[p.1 := p.2]> m) ∅ l = m.
Proof.
  intros Hp. assert (NoDup l.*1) as Hnd by (rewrite Hp; apply NoDup_fst_map_to_list).
  rewrite (foldl_insert_list l fst snd) by done. rewrite map_union_empty.
  assert ((λ x : bytes * A, (x.1, x.2)) <$> l = l) as -> by (clear; induction l as [|[] l IH]; [done|]; cbn [fmap list_fmap]; by f_equal).
  rewrite (list_to_map_proper l (map_to_list m)) by done. apply list_to_map_to_list.
Qed.

Lemma px_parses now0 ttl : 0 < ttl → ttl * 1000000 ≤ max_int64 →
  ParseExpiryMillis now0 [bs "PX"; FormatInt ttl] = Ok (now0 / 1000000 + ttl).
Proof.
  intros Hpos Hmax. unfold ParseExpiryMillis. rewrite ParseInt_FormatInt by (unfold min_int64, max_int64 in *; lia).
  rewrite (proj2 (Z.leb_gt ttl 0)) by lia. rewrite decide_False by done. rewrite decide_True by done.
  rewrite wrap64_id by (unfold min_int64, max_int64 in *; lia). f_equal. by rewrite Z.div_add.
Qed.

Lemma string_entry now key v s :
  StoreInv s → maxMemoryEnabled s = false → Kind v = ValueKindString → Restorable now v → leftOut now v = false →
  ∃ s' e, RunsAll (wireValue <$> rewriteFramesForEntry (mkSnapshot key (ExpiresAt v) (SnapString (vString v))) now) s s'
    ∧ Stores key (CString (vString v)) e s s' ∧ Deadline now v s s' e.
Proof.
  intros Hs Hp Hk Hr Hd. unfold rewriteFramesForEntry, Deadline. cbn [snPayload snKey snExpiresAt]. unfold leftOut in Hd.
  rewrite bool_decide_eq_true_2 in Hd by done. cbn [andb] in Hd. rewrite Hd. unfold Restorable in Hr. rewrite Hk in Hr.
  destruct (Z.ltb_spec 0 (ExpiresAt v)) as [He|He]; cbn [andb] in Hd.
  - apply Z.leb_gt in Hd. rewrite (proj2 (Z.leb_gt (ExpiresAt v - now) 0)) by lia.
    destruct (set_runs key (vString v) [bs "PX"; FormatInt (ExpiresAt v - now)] (clock (ticks s) / 1000000 + (ExpiresAt v - now))
      (clock (S (S (ticks s))) / 1000000 + (ExpiresAt v - now)) s Hs Hp) as (s' & H1 & H2 & H3); [apply px_parses; lia..|].
    eexists s', _. split_and!; [econstructor; [exact H1|constructor]|exact H2|]. exists (S (S (ticks s))). split; [lia|done].
  - destruct (set_runs key (vString v) [] 0 0 s Hs Hp eq_refl eq_refl) as (s' & H1 & H2 & H3).
    eexists s', _. split_and!; [econstructor; [exact H1|constructor]|exact H2|done].
Qed.

Lemma snapshot_zset v : Kind v = ValueKindZSet → ZSetWf v → snapshotValue v = Some (SnapZSet (zsetList v)).
Proof.
  intros Hk Hw. unfold snapshotValue. rewrite Hk, zsetLen_spec by done. rewrite <- zsetList_length by done.
  pose proof (zlen_nonneg (zsetList v)). destruct (Z.ltb_spec 0 (zlen (zsetList v))) as [Hl|Hl].
  - rewrite zsetRangeByRank_spec by done. do 2 f_equal. unfold rankSlice. set (len := zlen (zsetList v)) in *.
    rewrite (proj2 (Z.ltb_ge (len - 1) 0)), (proj2 (Z.leb_gt len 0)) by lia. cbn [Z.ltb Z.compare orb]. rewrite zdrop_0.
    unfold ztake. apply take_ge. unfold len, zlen in *. lia.
  - destruct (zsetList v); [done|]. rewrite zlen_cons in Hl, H. pose proof (zlen_nonneg l). lia.
Qed.

Lemma snapshot_set v p : Kind v = ValueKindSet → SetWf v → snapshotValue v = Some p → ∃ ms, p = SnapSet ms ∧ ms ≡ₚ elements (setAbs v).
Proof.
  intros Hk Hw. destruct (setMembers_spec v Hk Hw) as (ms & Hms & Hperm). unfold snapshotValue. rewrite Hk. unfold SetWf, setAbs in *.
  destruct (SetEncoding v).
  - destruct Hw as [X ->]. intros [= <-]. eexists. split; [done|]. apply setOrder_perm.
  - rewrite Hms. intros [= <-]. by exists ms.
Qed.
Lemma RunsOne v s s' : Runs v s s' → RunsAll [v] s s'.
Proof. intros H. econstructor; [exact H|constructor]. Qed.

Lemma nonempty_zlen {A} (l : list A) : l ≠ [] → (zlen l =? 0) = false.
Proof. intros Hl. apply Z.eqb_neq. destruct l; [done|]. unfold zlen. cbn [length]. lia. Qed.

Lemma perm_nonempty {A} (l k : list A) : l ≡ₚ k → k ≠ [] → l ≠ [].
Proof. intros Hp Hk ->. apply Permutation_nil in Hp. done. Qed.

(** A collection entry: what its frames store. *)
Lemma collection_entry now key v p s :
  StoreInv s → maxMemoryEnabled s = false → lookupKey s key = None → GoodValue v → Restorable now v →
  Kind v ≠ ValueKindString → snapshotValue v = Some p →
  ∃ s', RunsAll (wireValue <$> rewriteFramesForEntry (mkSnapshot key (ExpiresAt v) p) now) s s' ∧ Stores key (contentOf v).1 0 s s'.
Proof.
  intros Hs Hp Hk [Hw Hg] Hr Hstr Hsnap. unfold contentOf, Restorable in *. cbn [fst]. unfold rewriteFramesForEntry. cbn [snKey].
  unfold ValueWf in Hw. destruct (Kind v) eqn:Ek; [done| | | | |].
  - assert (p = SnapList (vList v)) as -> by (unfold snapshotValue in Hsnap; rewrite Ek in Hsnap; by injection Hsnap). cbn [snPayload]. rewrite nonempty_zlen by done.
    destruct (rpush_runs key (vList v) s Hs Hp Hk Hg) as (s' & H1 & H2). exists s'. split; [by apply RunsOne|done].
  - rewrite snapshot_zset in Hsnap by done. injection Hsnap as <-. cbn [snPayload]. pose proof (zsetList_perm v Hw) as Hperm.
    assert (map_to_list (zsetAbs v) ≠ []) as Hne by (by rewrite map_to_list_empty_iff).
    rewrite nonempty_zlen by (by eapply perm_nonempty). destruct Hr as [_ Hr].
    destruct (zadd_runs key (zsetList v) s Hs Hp Hk) as (s' & H1 & H2); [by eapply perm_nonempty| |].
    { apply Forall_forall. intros [m x] Hx. rewrite Hperm, elem_of_map_to_list in Hx. by apply (Hr m x). }
    exists s'. unfold zsetUpd in H2. rewrite (upd_perm _ _ Hperm) in H2. split; [|exact H2]. apply RunsOne. unfold bulkString. by rewrite (bulk_flat (λ e : scored, FormatFloat e.2) fst).
  - unfold snapshotValue in Hsnap. rewrite Ek in Hsnap. destruct Hr as [_ Hr]. destruct (vStream v) as [st|]; [|done]. injection Hsnap as <-. cbn [snPayload].
    destruct Hr as (Hwf & Hne & Hv).
    destruct (xadds_runs key (sentries st) newStream s Hs Hp) as (s' & H1 & H2); [by unfold streamAt; rewrite Hk|apply Hwf|done|apply Hwf|done|done|].
    rewrite stream_rebuilt in H2 by done. exists s'. split; [|exact H2]. rewrite <- !list_fmap_compose. exact H1.
  - destruct (hashEntries_spec v Ek Hw) as (es & Hes & Hperm).
    assert (p = SnapHash es) as -> by (unfold snapshotValue in Hsnap; rewrite Ek, Hes in Hsnap; by injection Hsnap). cbn [snPayload].
    assert (map_to_list (hashAbs v) ≠ []) as Hne by (by rewrite map_to_list_empty_iff).
    rewrite nonempty_zlen by (by eapply perm_nonempty).
    assert (merge_sort fieldLe es ≡ₚ map_to_list (hashAbs v)) as Hperm' by (by rewrite merge_sort_Permutation).
    destruct (hset_runs key (merge_sort fieldLe es) s Hs Hp Hk) as (s' & H1 & H2); [by eapply perm_nonempty|].
    exists s'. unfold hashUpd in H2. rewrite (upd_perm _ _ Hperm') in H2. split; [|exact H2]. apply RunsOne. unfold bulkString, bulkBytes. by rewrite (bulk_flat fst snd).
  - destruct (snapshot_set v p Ek Hw Hsnap) as (ms & -> & Hperm). cbn [snPayload].
    assert (elements (setAbs v) ≠ []) as Hne by (intros He; apply Hg, leibniz_equiv, elements_empty_inv; done).
    rewrite nonempty_zlen by (by eapply perm_nonempty).
    assert (merge_sort stringLe ms ≡ₚ elements (setAbs v)) as Hperm' by (by rewrite merge_sort_Permutation).
    destruct (sadd_runs key (merge_sort stringLe ms) s Hs Hp Hk) as (s' & H1 & H2); [by eapply perm_nonempty|].
    exists s'. rewrite (list_to_set_perm_L _ _ Hperm'), list_to_set_elements_L in H2. split; [by apply RunsOne|exact H2].
Qed.

(** Every entry: its frames restore its key, or there are none. *)
Lemma entry_runs now key v p s :
  StoreInv s → maxMemoryEnabled s = false → lookupKey s key = None → GoodValue v → Restorable now v → snapshotValue v = Some p →
  let frames := wireValue <$> rewriteFramesForEntry (mkSnapshot key (ExpiresAt v) p) now in
  if leftOut now v then frames = []
  else ∃ s' e, RunsAll frames s s' ∧ Stores key (contentOf v).1 e s s' ∧ Deadline now v s s' e.
Proof.
  intros Hs Hp Hk Hg Hr Hsnap. cbn zeta. destruct (decide (Kind v = ValueKindString)) as [Hstr|Hstr].
  - assert (p = SnapString (vString v)) as -> by (unfold snapshotValue in Hsnap; rewrite Hstr in Hsnap; by injection Hsnap).
    destruct (leftOut now v) eqn:Hd.
    + unfold leftOut in Hd. apply andb_true_iff in Hd as [_ Hd]. unfold rewriteFramesForEntry. cbn [snPayload snExpiresAt]. by rewrite Hd.
    + unfold contentOf. rewrite Hstr. cbn [fst]. by apply string_entry.
  - unfold leftOut. rewrite bool_decide_eq_false_2 by done. cbn [andb].
    destruct (collection_entry now key v p s Hs Hp Hk Hg Hr Hstr Hsnap) as (s' & H1 & H2). exists s', 0. split_and!; [done|done|].
    assert (ExpiresAt v = 0) as He by (unfold Restorable in Hr; destruct (Kind v); try done; by destruct Hr).
    unfold Deadline. by rewrite He.
Qed.
End Runs.
