(* ===== verification/RewriteTheorems.v ===== *)
(** * A rewritten append-only file restores the keyspace

    Composes the snapshot of the store, the commands of the rewrite, their
    encoding, the loader and the executor; and what happens to a collection with
    more elements than a frame may have. *)

From S2P Require Import Prelude Strconv GoLib GoText Float64 CompactHash CompactZSet Strfloat Resp RespDecode RespDecodeFacts RespParser Stream ValueObject ValueFacts.
From S2P Require Import ListWaiters Store StoreOps StoreFacts StoreMemory StoreInvariant StoreTheorems StorePlain StoreFrames RdbFacts.
From S2P Require Import Clients Slowlog Replication CommandBase Commands Executor ExecutorFacts ExecutorTheorems TransactionTheorems.
From S2P Require Import Aof AofFacts FileSys AofWriter AofWriterFacts AofTheorems Config Server ServerRun ServerFacts RewriteFacts.

Section Restore.
Context {C : CommandEnv}.
Implicit Types (s : Store).

(** ** The entries of a snapshot *)

Definition entryOf (now : Z) (p : bytes * ValueObject) : option SnapshotEntry :=
  if isExpired p.2 now then None else mkSnapshot p.1 (ExpiresAt p.2) <$> snapshotValue p.2.

Lemma snapshotKey_fold now l : ∀ st, (foldl (snapshotKey now) st l).1 = st.1 ++ omap (entryOf now) l.
Proof.
  induction l as [|[key v] l IH]; intros [es stats]; [by rewrite app_nil_r|].
  cbn [foldl]. rewrite IH. cbn [snapshotKey omap list_omap]. unfold entryOf at 2. cbn [fst snd]. destruct (isExpired v now); [done|].
  destruct (snapshotValue v); cbn [fmap option_fmap option_map fst]; [by rewrite <- app_assoc|done].
Qed.

Lemma SnapshotAll_entries s : (SnapshotAll s).1.1 = omap (entryOf (readingAt s)) (scanOrder s).
Proof.
  unfold SnapshotAll, bind, nowMilli, gets, snapshotAllLocked. cbn [shards tick]. fold (readingAt s).
  set (now := readingAt s). unfold scanOrder. set (f := λ st (shard : Shard), foldl (snapshotKey now) _ _).
  assert (∀ shs st, (foldl f st shs).1 = st.1 ++ omap (entryOf now) (mjoin (mapOrder <$> shs))) as H; [|apply H].
  induction shs as [|m shs IH]; intros st; [by rewrite app_nil_r|]. cbn [foldl fmap list_fmap mjoin list_join].
  rewrite IH, omap_app. unfold f. rewrite snapshotKey_fold. cbn [fst]. by rewrite <- app_assoc.
Qed.

Lemma snapshotValue_good v : GoodValue v → is_Some (snapshotValue v).
Proof.
  intros [Hw _]. unfold ValueWf in Hw. destruct (Kind v) eqn:Ek.
  - unfold snapshotValue. rewrite Ek. by eexists.
  - unfold snapshotValue. rewrite Ek. by eexists.
  - rewrite snapshot_zset by done. by eexists.
  - unfold snapshotValue. rewrite Ek. by eexists.
  - destruct (hashEntries_spec v Ek Hw) as (es & He & _). unfold snapshotValue. rewrite Ek, He. by eexists.
  - destruct (setMembers_spec v Ek Hw) as (ms & Hm & _). unfold snapshotValue. rewrite Ek. unfold SetWf in Hw.
    destruct (SetEncoding v); [destruct Hw as [X ->]|rewrite Hm]; by eexists.
Qed.

Lemma entry_keys now l : NoDup l.*1 → NoDup (snKey <$> omap (entryOf now) l).
Proof.
  intros Hnd. eapply sublist_NoDup; [exact Hnd|]. clear Hnd. induction l as [|[k v] l IH]; [done|].
  cbn [omap list_omap fmap list_fmap fst]. unfold entryOf at 1. cbn [fst snd]. destruct (isExpired v now); [by apply sublist_cons|].
  destruct (snapshotValue v); cbn [fmap option_fmap option_map]; [by apply sublist_skip|by apply sublist_cons].
Qed.

(** [e] is the entry of the value under its key. *)
Definition Source s0 (e : SnapshotEntry) : Prop :=
  ∃ v p, lookupKey s0 (snKey e) = Some v ∧ e = mkSnapshot (snKey e) (ExpiresAt v) p ∧ snapshotValue v = Some p.

Lemma entries_source s0 : StoreInv s0 → Forall (Source s0) (SnapshotAll s0).1.1.
Proof.
  intros Hs. rewrite SnapshotAll_entries. apply Forall_forall. intros e ([k v] & Hin & He)%list_elem_of_omap.
  apply elem_of_scanOrder in Hin; [|done]. unfold entryOf in He. cbn [fst snd] in He. destruct (isExpired v _); [done|].
  destruct (snapshotValue v) as [p|] eqn:Ep; [|done]. injection He as <-. by exists v, p.
Qed.

Lemma entries_keys s0 k : StoreInv s0 →
  k ∈ snKey <$> (SnapshotAll s0).1.1 ↔ ∃ v, lookupKey s0 k = Some v ∧ isExpired v (readingAt s0) = false.
Proof.
  intros Hs. rewrite SnapshotAll_entries, list_elem_of_fmap. split.
  - intros (e & -> & ([k' v] & Hin & He)%list_elem_of_omap). apply elem_of_scanOrder in Hin; [|done]. unfold entryOf in He. cbn [fst snd] in He.
    destruct (isExpired v (readingAt s0)) eqn:Hx; [done|]. destruct (snapshotValue v); [|done]. injection He as <-. by exists v.
  - intros (v & Hk & Hx). destruct (snapshotValue_good v) as [p Hp]; [by eapply lookup_good|].
    exists (mkSnapshot k (ExpiresAt v) p). split; [done|]. apply list_elem_of_omap. exists (k, v). split; [by apply elem_of_scanOrder|].
    unfold entryOf. cbn [fst snd]. by rewrite Hx, Hp.
Qed.

(** ** Replaying all of them *)

(** What the replay from [s] to [s'] makes of a key that held [v]. *)
Definition Restored (now : Z) (v : ValueObject) s s' (o : option ValueObject) : Prop :=
  if leftOut now v then o = None
  else ∃ v', o = Some v' ∧ (contentOf v').1 = (contentOf v).1 ∧ Deadline now v s s' (ExpiresAt v').

Lemma Restored_mono now v s s' t t' o :
  (ticks t ≤ ticks s)%nat → (ticks s' ≤ ticks t')%nat → Restored now v s s' o → Restored now v t t' o.
Proof.
  intros H1 H2. unfold Restored. destruct (leftOut now v); [done|]. intros (v' & -> & Hc & Hd). exists v'. split_and!; [done..|].
  unfold Deadline in *. destruct (0 <? _); [|done]. destruct Hd as (i & Hi & ->). exists i. split; [lia|done].
Qed.

(** From [s] to [s'] the keys [ks] alone have changed. *)
Record Advances (ks : list bytes) s s' : Prop := {
  ad_inv : StoreInv s';
  ad_max : maxMemory s' = maxMemory s;
  ad_ticks : (ticks s ≤ ticks s')%nat;
  ad_rest : ∀ k, k ∉ ks → lookupKey s' k = lookupKey s k
}.

Lemma entry_step s0 now e s v :
  StoreInv s0 → Restorable now v → Source s0 e → lookupKey s0 (snKey e) = Some v →
  StoreInv s → maxMemoryEnabled s = false → lookupKey s (snKey e) = None →
  ∃ s', RunsAll (wireValue <$> rewriteFramesForEntry e now) s s' ∧ Advances [snKey e] s s' ∧ Restored now v s s' (lookupKey s' (snKey e)).
Proof.
  intros Hs0 Hr (v0 & p & Hk0 & He & Hsnap) Hv Hs Hp Hk. rewrite Hv in Hk0. injection Hk0 as <-.
  pose proof (entry_runs now (snKey e) v p s Hs Hp Hk (lookup_good _ _ _ Hs0 Hv) Hr Hsnap) as H. cbn zeta in H. rewrite <- He in H.
  unfold Restored. destruct (leftOut now v).
  - rewrite H. exists s. split_and!; [constructor|split; [done|done|lia|done]|done].
  - destruct H as (s' & d & H1 & (v' & Hkc & Hc & Ht) & H2). exists s'. split_and!; [done| |].
    + split; [apply Hkc|apply Hkc|done|]. intros k Hn. rewrite (kc_lookup _ _ _ _ Hkc), decide_False; [done|set_solver].
    + exists v'. rewrite (kc_lookup _ _ _ _ Hkc), decide_True by done. injection Hc as Hc1 Hc2.
      split_and!; [done| |by rewrite Hc2]. unfold contentOf at 1. cbn [fst]. exact Hc1.
Qed.

Lemma entries_run s0 now es : StoreInv s0 → (∀ k v, lookupKey s0 k = Some v → Restorable now v) →
  Forall (Source s0) es → NoDup (snKey <$> es) →
  ∀ s, StoreInv s → maxMemoryEnabled s = false → (∀ k, k ∈ snKey <$> es → lookupKey s k = None) →
  ∃ s', RunsAll (wireValue <$> (e ← es; rewriteFramesForEntry e now)) s s' ∧ Advances (snKey <$> es) s s'
    ∧ ∀ k v, k ∈ snKey <$> es → lookupKey s0 k = Some v → Restored now v s s' (lookupKey s' k).
Proof.
  intros Hs0 Hres. induction es as [|e es IH]; intros Hsrc Hnd s Hs Hp Habs.
  { exists s. split_and!; [constructor|split; [done|done|lia|done]|intros ? ? []%elem_of_nil]. }
  apply Forall_cons in Hsrc as [He Hsrc]. cbn [fmap list_fmap] in Hnd, Habs. apply NoDup_cons in Hnd as [Hnew Hnd].
  pose proof He as (v & p & Hv & _).
  destruct (entry_step s0 now e s v Hs0 (Hres _ _ Hv) He Hv Hs Hp) as (s1 & R1 & [A1 A2 A3 A4] & B1); [apply Habs; by left|].
  destruct (IH Hsrc Hnd s1 A1) as (s2 & R2 & [D1 D2 D3 D4] & B2).
  { unfold maxMemoryEnabled. by rewrite A2. }
  { intros k Hk. rewrite A4; [apply Habs; by right|]. intros ->%list_elem_of_singleton. done. }
  exists s2. split_and!.
  - cbn [mbind list_bind]. rewrite fmap_app. by eapply RunsAll_app.
  - cbn [fmap list_fmap]. split; [done|congruence|lia|]. intros k Hk. rewrite not_elem_of_cons in Hk. rewrite D4, A4; [done|set_solver|tauto].
  - cbn [fmap list_fmap]. intros k w [->|Hk]%elem_of_cons Hw.
    + rewrite D4 by done. rewrite Hv in Hw. injection Hw as <-. eapply Restored_mono; [|exact D3|exact B1]. lia.
    + eapply Restored_mono; [exact A3| |by apply B2]. lia.
Qed.
End Restore.

(** ** The server and the file *)

Section Loading.
Context {C : CommandEnv}.

Lemma appendWith_store b p s fs : store (executor (appendWith b p s fs).1.2) = store (executor s).
Proof. unfold appendWith. destruct (aofWriter s) as [w|]; [|done]. unfold fbind. by destruct (append w p b fs) as [[]]. Qed.

Lemma propagate_store values s : store (executor (propagate values s).2) = store (executor s).
Proof.
  unfold propagate. destruct (replicaPeers (executor s)) as [r|]; [|done].
  by destruct (propagateToReplicas values (replication (executor s)) r (hub (executor s))) as [report [[repl r'] h]].
Qed.

Lemma recordExpired_store keys s fs : store (executor (recordExpiredKeys keys s fs).1) = store (executor s).
Proof.
  unfold recordExpiredKeys. destruct (_ =? _); [done|]. set (s1 := onServerHub _ s). change (store (executor s)) with (store (executor s1)).
  unfold fbind, persistDurabilityFrames. set (r := if _ || _ then _ else _).
  assert (store (executor (r fs).1.2) = store (executor s1)) as Hr.
  { unfold r. destruct (_ || _); [done|]. destruct (EncodeValues _) as [payload|e]; [apply appendWith_store|done]. }
  destruct (r fs) as [[err s2] fs2]. cbn [fst snd] in Hr. destruct (_ && _ && _); [done|]. unfold fret. cbn [fst]. by rewrite propagate_store.
Qed.

Lemma deliver_store before s fs : store (executor (deliverExpired before s fs).1) = store (executor s).
Proof.
  unfold deliverExpired. generalize (drop (length (published before)) (published (store (executor s)))). intros batches. revert s fs.
  induction batches as [|keys batches IH]; intros s fs; [done|]. cbn [recordBatches]. unfold fbind.
  pose proof (recordExpired_store keys s fs) as H. destruct (recordExpiredKeys keys s fs) as [s1 fs1]. cbn [fst] in H. by rewrite IH.
Qed.

Lemma replayOn_runs v s fs st1 : Runs v (store (executor s)) st1 →
  ∃ s' fs', replayOn v (s, fs) = (None, (s', fs')) ∧ store (executor s') = st1.
Proof.
  intros Hr. destruct (Hr (mkSt (executor s) noEffects []) eq_refl) as (r & st & Hx & Hst). unfold replayOn, executeOn. rewrite Hx.
  pose proof (deliver_store (store (executor s)) (setExecutor (ex st) s) fs) as Hd. destruct (deliverExpired _ _ _) as [s' fs'].
  exists s', fs'. split; [done|]. cbn [fst] in Hd. by rewrite Hd.
Qed.

Lemma replayAll_runs frames : ∀ s fs n st1, RunsAll (wireValue <$> frames) (store (executor s)) st1 →
  ∃ s' fs', replayAll replayOn frames n (s, fs) = (n + zlen frames, None, (s', fs')) ∧ store (executor s') = st1.
Proof.
  induction frames as [|f frames IH]; intros s fs n st1 Hr; inversion Hr as [|? ? ? s1 ? Hv Hvs]; subst.
  - exists s, fs. split; [|done]. cbn [replayAll]. unfold zlen. cbn [length]. by rewrite Z.add_0_r.
  - destruct (replayOn_runs (wireValue f) s fs s1) as (s' & fs' & H1 & H2); [done|]. cbn [replayAll]. rewrite H1.
    destruct (IH s' fs' (n + 1) st1) as (s2 & fs2 & H3 & H4); [by rewrite H2|]. exists s2, fs2. rewrite H3, zlen_cons. split; [|done]. do 2 f_equal. lia.
Qed.

(** A file of whole frames is read to its end. *)
Lemma LoadFile_whole {T X} (replay : Value → T → option X * T) frames (t : T) :
  Forall (λ v, frameOk v = true) frames →
  LoadFile replay (wire frames) t
  = let '(n, e, t) := replayAll replay frames 0 t in (mkLoadStats n false, ReplayError <$> e, t).
Proof.
  intros Hf. pose proof (frames_fuel frames [] Hf) as Hfuel. rewrite app_nil_r in Hfuel. unfold LoadFile, LoadFileCtx, wire. revert Hfuel.
  generalize (Datatypes.S (length (concat (wireBytes <$> frames)))). intros fuel. generalize 0. revert fuel t.
  induction Hf as [|v frames Hv Hf IH]; intros fuel t n Hl; (destruct fuel as [|fuel]; [cbn [length] in Hl; lia|]); cbn [loadLoop replayAll].
  - done.
  - cbn [fmap list_fmap concat]. rewrite Parse_frame by done. destruct (replay (wireValue v) t) as [[err|] t']; [done|].
    cbn [ReplayedCommands TruncatedTail]. apply IH. cbn [length] in Hl. lia.
Qed.

(** The rewrite into memory. *)
Lemma writeFrames_buffer frames : ∀ w, Forall (λ v, noNil v = true) frames → writeFrames bufWrite w frames = (w ++ wire frames, None).
Proof.
  induction frames as [|v frames IH]; intros w Hn; [by rewrite app_nil_r|]. apply Forall_cons in Hn as [Hv Hn]. cbn [writeFrames].
  rewrite WriteValue_bufWrite, IH by done. unfold wire. cbn [fmap list_fmap concat]. by rewrite app_assoc.
Qed.

Lemma rewriteLoop_buffer now sorted : ∀ stats w,
  let frames := entry ← sorted; rewriteFramesForEntry entry now in
  ∃ keys, rewriteLoop bufWrite sorted now stats w = (w ++ wire frames, (mkRewriteStats keys (Commands_ stats + zlen frames), None)).
Proof.
  induction sorted as [|e sorted IH]; intros stats w; cbn zeta; cbn [rewriteLoop mbind list_bind].
  { exists (Keys stats). unfold wire, zlen. cbn [length fmap list_fmap concat]. rewrite app_nil_r, Z.add_0_r. by destruct stats. }
  case_bool_decide as Hn; [rewrite Hn; apply IH|]. rewrite writeFrames_buffer by apply rewriteFrames_noNil.
  match goal with |- context [rewriteLoop bufWrite sorted now ?st ?w'] => destruct (IH st w') as [keys ->] end.
  exists keys. rewrite wire_app, app_assoc, zlen_app. cbn [Commands_]. by rewrite Z.add_assoc.
Qed.

Lemma snapshot_perm s0 : snKey <$> merge_sort entryLe (SnapshotAll s0).1.1 ≡ₚ snKey <$> (SnapshotAll s0).1.1.
Proof. apply fmap_Permutation, merge_sort_Permutation. Qed.

Lemma rewrite_runs s0 now s :
  StoreInv s0 → (∀ k v, lookupKey s0 k = Some v → Restorable now v) →
  StoreInv s → maxMemoryEnabled s = false → (∀ k, lookupKey s k = None) →
  ∃ s', RunsAll (wireValue <$> rewriteFrames (SnapshotAll s0).1.1 now) s s' ∧ StoreInv s'
    ∧ ∀ k, match lookupKey s0 k with
           | Some v => if isExpired v (readingAt s0) then lookupKey s' k = None else Restored now v s s' (lookupKey s' k)
           | None => lookupKey s' k = None
           end.
Proof.
  intros Hs0 Hres Hs Hp Hempty. set (es := merge_sort entryLe (SnapshotAll s0).1.1).
  assert (Forall (Source s0) es) as Hsrc by (unfold es; rewrite merge_sort_Permutation; by apply entries_source).
  assert (NoDup (snKey <$> es)) as Hnd.
  { unfold es. rewrite snapshot_perm, SnapshotAll_entries. by apply entry_keys, scanOrder_NoDup. }
  destruct (entries_run s0 now es Hs0 Hres Hsrc Hnd s Hs Hp) as (s' & R & [A1 _ _ A4] & B); [done|]. exists s'. split_and!; [exact R|exact A1|].
  assert (∀ k, k ∈ snKey <$> es ↔ ∃ v, lookupKey s0 k = Some v ∧ isExpired v (readingAt s0) = false) as Hkeys
    by (intros k; unfold es; rewrite snapshot_perm; by apply entries_keys).
  intros k. destruct (lookupKey s0 k) as [v|] eqn:Ek; [destruct (isExpired v (readingAt s0)) eqn:Hx|].
  - rewrite A4; [done|]. rewrite Hkeys. intros (v' & Hv' & Hx'). congruence.
  - apply B; [|done]. apply Hkeys. by exists v.
  - rewrite A4; [done|]. rewrite Hkeys. intros (v' & Hv' & _). congruence.
Qed.
End Loading.


(** A value of every kind, a string with a deadline among them. *)
Definition demoKeyspaceOps : list storeOp :=
  [OpSet (bs "s") (bs "v") 0; OpSet (bs "t") (bs "w") 5000; OpPush (bs "l") [bs "a"; bs "b"] false;
   OpHSet (bs "h") [(bs "f", bs "1"); (bs "g", bs "2")]; OpSAdd (bs "n") [bs "10"; bs "7"; bs "x"];
   OpZAdd (bs "z") [(bs "a", floatOfZ 2); (bs "b", floatOfZ 1)];
   OpXAdd (bs "x") (bs "1-1") [bs "f"; bs "v"]; OpXAdd (bs "x") (bs "2-0") [bs "f"; bs "w"]].
Definition demoKeyspace : Store := @StoreTheorems.runOps demoEnv id demoKeyspaceOps NewStore.

Lemma demoKeyspace_inv : @StoreInv demoEnv demoKeyspace.
Proof. apply storeRun_inv; [apply NewStore_inv|]. repeat constructor. Qed.

#[global] Instance streamRecord_eq_dec : EqDecision streamRecord.
Proof. solve_decision. Defined.
#[global] Instance StreamValue_eq_dec : EqDecision StreamValue.
Proof. solve_decision. Defined.

Definition demoStream : StreamValue :=
  mkStreamValue [mkStreamRecord (mkStreamID 1 1) (bs "1-1") [bs "f"; bs "v"]; mkStreamRecord (mkStreamID 2 0) (bs "2-0") [bs "f"; bs "w"]] (mkStreamID 2 0) true.

Lemma demoStream_wf : StreamWf demoStream.
Proof.
  split; [|by intros _; eexists|done|].
  - repeat constructor; cbn; unfold idLess; cbn; lia.
  - repeat constructor; cbn; unfold max_int64; lia.
Qed.

Lemma demoKeyspace_restorable : ∀ k v, @lookupKey demoEnv demoKeyspace k = Some v → Restorable 1100 v.
Proof.
  apply (@scan_forall demoEnv); [apply demoKeyspace_inv|]. apply Forall_forall. intros [k v] Hin. cbn [snd].
  assert (forallb (λ p : bytes * ValueObject,
    match Kind p.2 with
    | ValueKindString => (ExpiresAt p.2 - 1100) * 1000000 <=? max_int64
    | ValueKindZSet => bool_decide (ExpiresAt p.2 = 0 ∧ map_Forall (λ _ x, plainScore x = true) (zsetAbs p.2))
    | ValueKindStream => bool_decide (ExpiresAt p.2 = 0) && bool_decide (vStream p.2 = Some demoStream)
    | _ => bool_decide (ExpiresAt p.2 = 0)
    end) (@scanOrder demoEnv demoKeyspace) = true) as H by (vm_compute; reflexivity).
  apply forallb_Forall in H. rewrite Forall_forall in H. specialize (H _ Hin). cbn [snd] in H. unfold Restorable. destruct (Kind v); bool_to_prop; try done.
  rewrite H0. split_and!; [done|exact demoStream_wf|done|by repeat constructor].
Qed.


(** a rewrite that cannot be loaded.  The rewrite writes a whole list (and
    likewise a hash, a set or a sorted set) as one command, without the bound the
    parser puts on the elements of an array: a list of 1048575 items or more, which
    many RPUSH of a legal size build, gives a frame on which the load of the file
    stops with an error, so the server no longer starts from it. *)
Theorem oversized_list_unloadable {T X} (replay : Value → T → option X * T) key expiresAt items now rest (t : T) :
  maxArrayElements - 1 ≤ zlen items ≤ max_int64 - 2 →
  LoadFile replay (wire (rewriteFramesForEntry (mkSnapshot key expiresAt (SnapList items)) now) ++ rest) t
  = (mkLoadStats 0 false, Some (ParseError (ErrArrayTooLong (zlen items + 2))), t).
Proof.
  intros Hl. unfold rewriteFramesForEntry. cbn [snPayload snKey].
  rewrite (proj2 (Z.eqb_neq _ _)) by (unfold maxArrayElements in Hl; lia).
  set (ws := text (bs "RPUSH") :: bulkString key :: (bulkBytes <$> items)).
  assert (zlen ws = zlen items + 2) as Hz by (unfold ws; rewrite !zlen_cons; unfold zlen; rewrite length_fmap; lia).
  unfold wire. cbn [fmap list_fmap concat]. rewrite app_nil_r. change (rewriteCommand "RPUSH" (bulkString key :: (bulkBytes <$> items))) with (Array ws false).
  assert (forallb noNil ws = true) as Hn by (unfold ws; cbn [forallb noNil text bulkString bulk andb]; apply forallb_Forall, Forall_fmap, Forall_true; done).
  rewrite wireBytes_array by done. unfold LoadFile, LoadFileCtx. cbn [loadLoop]. rewrite <- app_comm_cons, Parse_star, <- !app_assoc. unfold parseArray.
  rewrite (proj2 (Z.leb_gt _ _)) by done. rewrite header_line, parseDecimalInt_zlen by lia.
  rewrite Hz, (proj2 (Z.eqb_neq _ _)), (proj2 (Z.ltb_ge _ _)), (proj2 (Z.ltb_lt _ _)) by (unfold maxArrayElements in *; lia). done.
Qed.

(** ** Between the store and the file

    A command changes the store under the shard locks and is appended to the file
    after they are released; no lock spans both.  The steps of two goroutines in
    between, one after the other. *)

Definition demoReplay (file : bytes) (key : bytes) : result storeError (option bytes) :=
  let '(_, _, (s, _)) := LoadFile (@replayOn demoCommandEnv) file (New Default (bs "id") NewStore, demoAof []) in
  (@Get demoEnv key (store (executor s))).1.

Definition demoGet (key : bytes) (s : Server) : result storeError (option bytes) := (@Get demoEnv key (store (executor s))).1.

Definition framesOf (r : result cmdError ExecuteResult) : bytes :=
  match r with Ok result => wire (Durability result) | Err _ => [] end.

Definition noFiles : FS := mkFS (mkDisk ∅ ∅ []) ∅ 0 [] [].
Definition demoExecute : Value → Server → result cmdError ExecuteResult * Server := λ v, @executeOn demoCommandEnv (mkContext None false false) v [].

(** a rewrite can apply a command twice.  INCR has run and is not yet
    appended when the rewrite takes its snapshot, which holds the new value, and
    opens its buffer, which then receives the frame too.  The counter is 1; the
    rewritten file restores 2. *)
Theorem rewrite_repeats_unlogged_write :
  match OpenWriter demoPath PolicyAlways noFiles with
  | (Ok w, fs) =>
      match rewriteStart (BeginRewrite w true).2 false (bs "tmp") fs with
      | (Some (TaskTemp h temp), w, fs) =>
          let '(r, s) := demoExecute (line ["INCR"; "n"]) (New Default (bs "id") NewStore) in
          match @rewriteBarrier demoEnv w false 1000 (store (executor s)) h temp fs with
          | (Some (TaskSnapshot h temp entries), w, fs) =>
              let '(e, w, fs) := AppendSync w (framesOf r) fs in
              match rewriteGenerate w 1000 h temp entries fs with
              | (Some (TaskGenerated h temp), w, fs) =>
                  let '(done_, _, fs) := rewriteFinalize w h temp fs in
                  e = None ∧ done_ = Ok true
                  ∧ demoGet (bs "n") s = Ok (Some (bs "1"))
                  ∧ demoReplay (contentAt fs demoPath) (bs "n") = Ok (Some (bs "2"))
              | _ => False
              end
          | _ => False
          end
      | _ => False
      end
  | _ => False
  end.
Proof. vm_compute. split_and!; reflexivity. Qed.

(** the file can order two writes the other way round.  Two clients set the
    same key; the second to reach the store is the first to reach the file.  The
    key holds the second value; the file restores the first. *)
Theorem log_order_differs_from_store_order :
  let '(r1, s1) := demoExecute (line ["SET"; "k"; "a"]) (New Default (bs "id") NewStore) in
  let '(r2, s2) := demoExecute (line ["SET"; "k"; "b"]) s1 in
  match OpenWriter demoPath PolicyAlways noFiles with
  | (Ok w, fs) =>
      let '(e2, w, fs) := AppendSync w (framesOf r2) fs in
      let '(e1, w, fs) := AppendSync w (framesOf r1) fs in
      e1 = None ∧ e2 = None
      ∧ demoGet (bs "k") s2 = Ok (Some (bs "b"))
      ∧ demoReplay (contentAt fs demoPath) (bs "k") = Ok (Some (bs "a"))
  | _ => False
  end.
Proof. vm_compute. split_and!; reflexivity. Qed.
