(* ===== verification/EventLoop.v ===== *)
(** * The event loop

    Models [internal/server/eventloop.go]: one goroutine drives every connection
    from readiness events; other goroutines hand it pushes and close requests.

    A connection object is shared: the loop's table, the push queue and the close
    queue point at it, so objects live in [objs] under the client's number, and
    descriptors, which the system reuses, only in [conns].  What the system
    answers to a read, a write, an accept or a poller call comes from [sys]; past
    the end of a list a read finds nothing, a write takes everything, an accept
    finds nothing and a poller call succeeds.  The recovery from a panic and log
    lines are not modelled. *)

From S2P Require Import Prelude Strconv Resp RespDecode ConnMachine.

Definition eventLoopReadChunk : Z := 64 * 1024.
Definition eventLoopReadBudget : Z := 1048576.
Definition eventLoopOutputHighWater : Z := 1048576.

Record pollEvent := mkPollEvent { evFd : nat; readable : bool; writable : bool }.

(** ** The system *)

Inductive readOutcome := ReadData (data : bytes) | ReadEnd | ReadAgain | ReadInterrupted | ReadFailed (code : Z).
Inductive writeOutcome := Wrote (n : nat) | WriteInterrupted | WriteAgain | WriteFailed (code : Z).
Inductive acceptOutcome := Accepted (addr : bytes) (nonblocking : bool) | AcceptAgain | AcceptRetry | AcceptExhausted | AcceptFailed (code : Z).

Record system := mkSystem { reads : list readOutcome; writes : list (list writeOutcome); accepts : list acceptOutcome; polls : list bool }.

(** The system numbers an accepted connection with a descriptor that is not open. *)
Class Kernel := {
  freshFd : gset nat → nat;
  freshFd_new : ∀ X, freshFd X ∉ X
}.

Definition errEventLoopWouldBlock : connError := ErrExternal 11.

(** [fdWriter.Write]: the bytes taken so far, and the error. *)
Fixpoint fdWrite (outcomes : list writeOutcome) (total : nat) (p : bytes) : Z * option connError :=
  if (length p <=? total)%nat then (Z.of_nat total, None)
  else
    match outcomes with
    | [] => (zlen p, None)
    | Wrote n :: os => fdWrite os (total + n `min` (length p - total)) p
    | WriteInterrupted :: os => fdWrite os total p
    | WriteAgain :: _ => (Z.of_nat total, Some errEventLoopWouldBlock)
    | WriteFailed code :: _ => (Z.of_nat total, Some (ErrExternal code))
    end.

(** ** The server behind the loop *)

Class LoopServer (RS : Type) := {
  (** [registerClient], with the response writer and the address bound. *)
  ls_register : bytes → RS → nat * RS;
  ls_teardown : nat → RS → RS;
  ls_overLimit : RS → bool;
  (** The command runner of a client. *)
  ls_run : nat → RS → Value → RS * result connError (list Value);
  (** What has been written to the clients' push writers since the last call. *)
  ls_pushes : RS → list (nat * bytes) * RS;
  ls_errorText : protoError → bytes
}.

(** ** The loop *)

Record eventConn := mkEventConn {
  fd : nat;
  machine : ConnMachine;
  wantRead : bool;
  wantWrite : bool;
  peerClosed : bool;
  pushBuf : bytes;
  pushQueued : bool;
  closeRequested : bool;
  detached : bool;
  onWire : bytes        (* what has been written to the socket *)
}.

Record eventLoop (RS : Type) := mkLoop {
  objs : gmap nat eventConn;
  conns : gmap nat nat;              (* [l.conns]: descriptor to object *)
  pushed : list nat;
  closeReqs : list nat;
  resumeAccept : bool;
  acceptPaused : bool;
  resumeTimers : nat;                (* armed by [pauseAccepting] *)
  interest : gmap nat (bool * bool); (* the poller's interest sets *)
  srv : RS;
  sys : system
}.
Arguments mkLoop {RS}.
Arguments objs {RS}.
Arguments conns {RS}.
Arguments pushed {RS}.
Arguments closeReqs {RS}.
Arguments resumeAccept {RS}.
Arguments acceptPaused {RS}.
Arguments resumeTimers {RS}.
Arguments interest {RS}.
Arguments srv {RS}.
Arguments sys {RS}.

Section Loop.
Context {RS : Type} {LS : LoopServer RS} {K : Kernel} (listenFD : nat).
Implicit Type l : eventLoop RS.

Definition setObjs (m : gmap nat eventConn) l : eventLoop RS :=
  mkLoop m (conns l) (pushed l) (closeReqs l) (resumeAccept l) (acceptPaused l) (resumeTimers l) (interest l) (srv l) (sys l).
Definition setConns (m : gmap nat nat) l : eventLoop RS :=
  mkLoop (objs l) m (pushed l) (closeReqs l) (resumeAccept l) (acceptPaused l) (resumeTimers l) (interest l) (srv l) (sys l).
Definition setQueues (p c : list nat) (r : bool) l : eventLoop RS :=
  mkLoop (objs l) (conns l) p c r (acceptPaused l) (resumeTimers l) (interest l) (srv l) (sys l).
Definition setPaused (b : bool) (timers : nat) l : eventLoop RS :=
  mkLoop (objs l) (conns l) (pushed l) (closeReqs l) (resumeAccept l) b timers (interest l) (srv l) (sys l).
Definition setPoller (m : gmap nat (bool * bool)) (y : system) l : eventLoop RS :=
  mkLoop (objs l) (conns l) (pushed l) (closeReqs l) (resumeAccept l) (acceptPaused l) (resumeTimers l) m (srv l) y.
Definition setSrv (s : RS) l : eventLoop RS :=
  mkLoop (objs l) (conns l) (pushed l) (closeReqs l) (resumeAccept l) (acceptPaused l) (resumeTimers l) (interest l) s (sys l).

(** A change of the object [id]. *)
Definition onConn (id : nat) (f : eventConn → eventConn) l : eventLoop RS := setObjs (alter f id (objs l)) l.

Definition setMachine (m : ConnMachine) (c : eventConn) : eventConn :=
  mkEventConn (fd c) m (wantRead c) (wantWrite c) (peerClosed c) (pushBuf c) (pushQueued c) (closeRequested c) (detached c) (onWire c).
Definition setWant (r w : bool) (c : eventConn) : eventConn :=
  mkEventConn (fd c) (machine c) r w (peerClosed c) (pushBuf c) (pushQueued c) (closeRequested c) (detached c) (onWire c).
Definition setPeerClosed (c : eventConn) : eventConn :=
  mkEventConn (fd c) (machine c) (wantRead c) (wantWrite c) true (pushBuf c) (pushQueued c) (closeRequested c) (detached c) (onWire c).
Definition setPush (buf : bytes) (queued : bool) (c : eventConn) : eventConn :=
  mkEventConn (fd c) (machine c) (wantRead c) (wantWrite c) (peerClosed c) buf queued (closeRequested c) (detached c) (onWire c).
Definition setCloseRequested (c : eventConn) : eventConn :=
  mkEventConn (fd c) (machine c) (wantRead c) (wantWrite c) (peerClosed c) (pushBuf c) (pushQueued c) true (detached c) (onWire c).
Definition setDetached (c : eventConn) : eventConn :=
  mkEventConn (fd c) (machine c) (wantRead c) (wantWrite c) (peerClosed c) [] (pushQueued c) (closeRequested c) true (onWire c).
Definition sendWire (sent : bytes) (c : eventConn) : eventConn :=
  mkEventConn (fd c) (machine c) (wantRead c) (wantWrite c) (peerClosed c) (pushBuf c) (pushQueued c) (closeRequested c) (detached c) (onWire c ++ sent).

(** [poller.Set] and [poller.Add]; a failed call changes nothing. *)
Definition pollSet (d : nat) (r w : bool) l : bool * eventLoop RS :=
  let y := sys l in
  let ok := hd true (polls y) in
  (ok, setPoller (if ok then <[d := (r, w)]> (interest l) else interest l) (mkSystem (reads y) (writes y) (accepts y) (tl (polls y))) l).
Definition pollAdd (d : nat) l : bool * eventLoop RS := pollSet d true false l.
(** [poller.Remove] and the close of the descriptor, which drops it anyway. *)
Definition pollRemove (d : nat) l : eventLoop RS := setPoller (delete d (interest l)) (sys l) l.

(** ** Handing work to the loop *)

Definition requestClose (id : nat) l : eventLoop RS :=
  match objs l !! id with
  | None => l
  | Some c => if detached c || closeRequested c then l
              else setQueues (pushed l) (closeReqs l ++ [id]) (resumeAccept l) (onConn id setCloseRequested l)
  end.

(** Whether the payload was taken. *)
Definition queuePush (id : nat) (payload : bytes) l : bool * eventLoop RS :=
  match objs l !! id with
  | None => (false, l)
  | Some c =>
      if detached c then (false, l)
      else if defaultMaxWriteBuffer <? zlen (pushBuf c) + zlen payload then (false, requestClose id l)
      else
        let l' := onConn id (setPush (pushBuf c ++ payload) true) l in
        (true, if pushQueued c then l' else setQueues (pushed l ++ [id]) (closeReqs l) (resumeAccept l) l')
  end.

Definition queuePushes (pushes : list (nat * bytes)) l : eventLoop RS :=
  foldl (λ l p, (queuePush p.1 p.2 l).2) l pushes.

(** The timer of [pauseAccepting]. *)
Definition resumeTimerFires l : eventLoop RS :=
  match resumeTimers l with
  | O => l
  | S n => setQueues (pushed l) (closeReqs l) true (setPaused (acceptPaused l) n l)
  end.

(** ** Closing *)

Definition closeConn (id : nat) (cause : option connError) l : eventLoop RS :=
  match objs l !! id with
  | None => l
  | Some c =>
      if decide (conns l !! fd c = Some id) then
        let l := setConns (delete (fd c) (conns l)) l in
        let l := onConn id (λ c, setMachine (Close (machine c) cause) (setDetached c)) l in
        let l := pollRemove (fd c) l in
        setSrv (ls_teardown id (srv l)) l
      else l
  end.

(** ** Output *)

(** Whether the connection is still usable. *)
Definition flushOnce (id : nat) l : bool * eventLoop RS :=
  match objs l !! id with
  | None => (false, l)
  | Some c =>
      let y := sys l in
      let '(m, sent, e) := Flush (machine c) (fdWrite (hd [] (writes y)) 0) in
      let l := setPoller (interest l) (mkSystem (reads y) (if HasPendingOutput (machine c) then tl (writes y) else writes y) (accepts y) (polls y)) l in
      let l := onConn id (λ c, sendWire sent (setMachine m c)) l in
      match e with
      | Some e => if decide (e = errEventLoopWouldBlock) then (true, l) else (false, closeConn id (Some e) l)
      | None => (true, l)
      end
  end.

Definition setInterest (id : nat) (r w : bool) l : eventLoop RS :=
  match objs l !! id with
  | None => l
  | Some c =>
      if bool_decide (wantRead c = r) && bool_decide (wantWrite c = w) then l
      else
        let '(ok, l) := pollSet (fd c) r w l in
        if ok then onConn id (setWant r w) l else closeConn id (Some (ErrExternal 0)) l
  end.

Definition finishConnEvent (id : nat) l : eventLoop RS :=
  match objs l !! id with
  | None => l
  | Some c =>
      if decide (state (machine c) = ConnStateClosed) then closeConn id (err (machine c)) l
      else
        let '(ok, l) := flushOnce id l in
        if negb ok then l
        else
          match objs l !! id with
          | None => l
          | Some c =>
              let m := machine c in
              if decide (state m = ConnStateClosed) then closeConn id (err m) l
              else if peerClosed c && negb (HasPendingOutput m) && (PendingRequests m =? 0)%nat then closeConn id None l
              else setInterest id (negb (peerClosed c) && (PendingOutputBytes m <=? eventLoopOutputHighWater)) (HasPendingOutput m) l
          end
  end.

(** ** Execution *)

(** One request: the machine, the server and what the server pushed. *)
Definition processNext (id : nat) (m : ConnMachine) l : result connError bool * eventLoop RS :=
  let '(m, s, r) := ProcessNext ls_errorText (ls_run id) m (srv l) in
  let '(pushes, s) := ls_pushes s in
  (r, queuePushes pushes (onConn id (setMachine m) (setSrv s l))).

(** The loop of [processConn]; every round takes one event off the machine's
    queue, so its length bounds the rounds.  [false] when the connection is closed. *)
Fixpoint processLoop (fuel : nat) (id : nat) l : bool * eventLoop RS :=
  match fuel with
  | O => (true, l)
  | S fuel' =>
      match objs l !! id with
      | None => (true, l)
      | Some c =>
          if decide (state (machine c) = ConnStateClosed) then (true, l)
          else
            let next l :=
              match objs l !! id with
              | None => (true, l)
              | Some c =>
                  match processNext id (machine c) l with
                  | (Err e, l) => (false, closeConn id (Some e) l)
                  | (Ok true, l) => processLoop fuel' id l
                  | (Ok false, l) => (true, l)
                  end
              end in
            if eventLoopOutputHighWater <? PendingOutputBytes (machine c) then
              let '(ok, l) := flushOnce id l in
              if negb ok then (false, l)
              else
                match objs l !! id with
                | None => (true, l)
                | Some c => if eventLoopOutputHighWater <? PendingOutputBytes (machine c) then (true, l) else next l
                end
            else next l
      end
  end.

Definition pendingEvents (id : nat) l : nat := match objs l !! id with Some c => length (pending (machine c)) | None => 0 end.

Definition processConn (id : nat) l : eventLoop RS :=
  let '(open, l) := processLoop (S (pendingEvents id l)) id l in
  if open then finishConnEvent id l else l.

(** ** Input *)

Definition takeRead l : readOutcome * eventLoop RS :=
  let y := sys l in
  (hd ReadAgain (reads y), setPoller (interest l) (mkSystem (tl (reads y)) (writes y) (accepts y) (polls y)) l).

(** The read loop: it ends at the budget, when the socket has no more, or at a
    read shorter than the buffer.  [false] when the connection was closed.  Each
    round takes a read outcome or ends, so their number bounds the rounds. *)
Fixpoint readLoop (fuel : nat) (budget : Z) (id : nat) l : bool * eventLoop RS :=
  match fuel with
  | O => (true, l)
  | S fuel' =>
      if budget <=? 0 then (true, l)
      else
        let '(o, l) := takeRead l in
        match o with
        | ReadAgain => (true, l)
        | ReadInterrupted => readLoop fuel' budget id l
        | ReadFailed code => (false, closeConn id (Some (ErrExternal code)) l)
        | ReadEnd => (true, onConn id setPeerClosed l)
        | ReadData data =>
            let data := ztake eventLoopReadChunk data in
            if zlen data =? 0 then (true, onConn id setPeerClosed l)
            else
              match objs l !! id with
              | None => (true, l)
              | Some c =>
                  let '(m, e) := (if decide (state (machine c) = ConnStateActive) then Feed (machine c) data else (machine c, None)) in
                  let l := onConn id (setMachine m) l in
                  match e with
                  | Some e => (false, closeConn id (Some e) l)
                  | None => if zlen data <? eventLoopReadChunk then (true, l) else readLoop fuel' (budget - zlen data) id l
                  end
              end
        end
  end.

Definition connReadable (id : nat) l : eventLoop RS :=
  match objs l !! id with
  | None => l
  | Some c =>
      if PendingOutputBytes (machine c) <=? eventLoopOutputHighWater then
        let '(open, l) := readLoop (S (length (reads (sys l)))) eventLoopReadBudget id l in
        if open then processConn id l else l
      else processConn id l
  end.

(** ** Accepting *)

Definition registerConn (d : nat) (addr : bytes) l : eventLoop RS :=
  let '(id, s) := ls_register addr (srv l) in
  let c := mkEventConn d NewConnMachine true false false [] false false false [] in
  let l := setSrv s (setObjs (<[id := c]> (objs l)) l) in
  let '(ok, l) := pollAdd d l in
  if ok then setConns (<[d := id]> (conns l)) l
  else setSrv (ls_teardown id (srv l)) (onConn id (λ c, setMachine (Close (machine c) (Some (ErrExternal 0))) c) l).

Definition pauseAccepting l : eventLoop RS :=
  if acceptPaused l then l
  else
    let '(ok, l) := pollSet listenFD false false l in
    if ok then setPaused true (S (resumeTimers l)) l else l.

Definition takeAccept l : acceptOutcome * eventLoop RS :=
  let y := sys l in
  (hd AcceptAgain (accepts y), setPoller (interest l) (mkSystem (reads y) (writes y) (tl (accepts y)) (polls y)) l).

(** [Some] is a fatal error; each round takes an outcome or ends. *)
Fixpoint acceptLoop (fuel : nat) l : option connError * eventLoop RS :=
  match fuel with
  | O => (None, l)
  | S fuel' =>
      let '(o, l) := takeAccept l in
      match o with
      | AcceptAgain => (None, l)
      | AcceptRetry => acceptLoop fuel' l
      | AcceptExhausted => (None, pauseAccepting l)
      | AcceptFailed code => (Some (ErrExternal code), l)
      | Accepted addr nonblocking =>
          if negb nonblocking then acceptLoop fuel' l
          else if ls_overLimit (srv l) then acceptLoop fuel' l
          else acceptLoop fuel' (registerConn (freshFd ({[ listenFD ]} ∪ dom (conns l))) addr l)
      end
  end.
Definition acceptReady l : option connError * eventLoop RS := acceptLoop (S (length (accepts (sys l)))) l.

(** ** A turn *)

(** The pushes taken under the lock: the objects with their bytes, in order. *)
Definition takePush (st : list (nat * bytes) * eventLoop RS) (id : nat) : list (nat * bytes) * eventLoop RS :=
  let '(work, l) := st in
  match objs l !! id with
  | None => st
  | Some c =>
      if detached c || (zlen (pushBuf c) =? 0) then (work, onConn id (setPush (pushBuf c) false) l)
      else (work ++ [(id, pushBuf c)], onConn id (setPush [] false) l)
  end.

Definition isRegistered (id : nat) l : bool :=
  match objs l !! id with Some c => bool_decide (conns l !! fd c = Some id) | None => false end.

Definition applyPush l (work : nat * bytes) : eventLoop RS :=
  let '(id, data) := work in
  if negb (isRegistered id l) then l
  else
    match objs l !! id with
    | None => l
    | Some c =>
        let '(m, e) := BufferEncoded (machine c) data in
        let l := onConn id (setMachine m) l in
        match e with Some e => closeConn id (Some e) l | None => finishConnEvent id l end
    end.

Definition applyQueuedWork l : eventLoop RS :=
  let '(work, l) := foldl takePush ([], l) (pushed l) in
  let closes := closeReqs l in
  let resume := resumeAccept l in
  let l := setQueues [] [] false l in
  let l := foldl applyPush l work in
  let l := foldl (λ l id, if isRegistered id l then closeConn id None l else l) l closes in
  if resume && acceptPaused l then
    let '(ok, l) := pollSet listenFD true false l in
    if ok then setPaused false (resumeTimers l) l else l
  else l.

Definition handleEvent (st : option connError * eventLoop RS) (e : pollEvent) : option connError * eventLoop RS :=
  match st with
  | (Some _, _) => st
  | (None, l) =>
      if decide (evFd e = listenFD) then if readable e then acceptReady l else (None, l)
      else
        match conns l !! evFd e with
        | None => (None, l)
        | Some id =>
            let l := if readable e then connReadable id l else l in
            let l := if writable e && bool_decide (conns l !! evFd e = Some id) then processConn id l else l in
            (None, l)
        end
  end.

(** A round of [run] with the events [Wait] returned. *)
Definition turn (events : list pollEvent) l : option connError * eventLoop RS :=
  foldl handleEvent (None, applyQueuedWork l) events.

(** [cleanup] closes every connection; the order of the table does not matter. *)
Definition cleanup l : eventLoop RS := foldl (λ l id, closeConn id None l) l (map_to_list (conns l)).*2.
End Loop.
