(* ===== verification/Pollers.v ===== *)
(** * The pollers behind the event loop

    Models [poller_linux.go], [poller_darwin.go] and [poller_pipe.go] of
    [internal/server].  A system call does what its manual page says; whether it
    fails, and what a wait reports, comes from scripts, and past the end of a
    script of calls they succeed.  Descriptor numbers and the creation of the
    descriptors are outside. *)

From S2P Require Import Prelude EventLoop.

Inductive errno := ENOENT | EEXIST | EINTR | EBADF | EOther (code : Z).
#[global] Instance errno_eq_dec : EqDecision errno.
Proof. solve_decision. Defined.

(** ** The wake-up pipe *)

(** [piped] bytes lie in the pipe, which takes [capacity]. *)
Record wakePipe := mkWakePipe { readFD : nat; capacity : nat; piped : nat; wakeClosed : bool }.
Definition setPiped (k : nat) (p : wakePipe) : wakePipe := mkWakePipe (readFD p) (capacity p) k (wakeClosed p).

(** The loop of [drain]: a read takes up to 64 bytes and fails when there is none;
    [faults] are reads that fail otherwise.  Every round takes a byte. *)
Fixpoint drainLoop (fuel : nat) (faults : list (option errno)) (p : wakePipe) : wakePipe :=
  match fuel with
  | O => p
  | S fuel' =>
      match hd None faults with
      | Some _ => p
      | None => let n := (piped p `min` 64)%nat in if (n =? 0)%nat then p else drainLoop fuel' (tl faults) (setPiped (piped p - n) p)
      end
  end.
Definition drain (faults : list (option errno)) (p : wakePipe) : wakePipe := drainLoop (S (piped p)) faults p.

Inductive wakeError := WakeErrClosed | WakeErrno (e : errno).

(** The loop of [wake] over the failures of its writes: a full pipe is EAGAIN. *)
Fixpoint wakeLoop (faults : list errno) (p : wakePipe) : option wakeError * wakePipe :=
  match faults with
  | EINTR :: faults' => wakeLoop faults' p
  | e :: _ => (Some (WakeErrno e), p)
  | [] => (None, if (piped p <? capacity p)%nat then setPiped (S (piped p)) p else p)
  end.
Definition wake (faults : list errno) (p : wakePipe) : option wakeError * wakePipe :=
  if wakeClosed p then (Some WakeErrClosed, p) else wakeLoop faults p.

Definition wakePipe_close (p : wakePipe) : wakePipe := mkWakePipe (readFD p) (capacity p) (piped p) true.

(** A wake-up that succeeds leaves the read end ready, and it stays so whatever
    other goroutines do until the poller drains it. *)
Lemma wakeLoop_ready faults : ∀ p p', (0 < capacity p)%nat → wakeLoop faults p = (None, p') → (0 < piped p')%nat ∧ capacity p' = capacity p.
Proof.
  induction faults as [|[] faults IH]; intros p p' Hc; cbn [wakeLoop]; try done; [|apply IH; done].
  destruct (Nat.ltb_spec (piped p) (capacity p)); intros [= <-]; cbn; [split; [lia|done]|split; [lia|done]].
Qed.

Lemma wakeLoop_keeps faults : ∀ p, (piped p ≤ piped (wakeLoop faults p).2)%nat.
Proof.
  induction faults as [|[] faults IH]; intros p; cbn [wakeLoop snd]; try lia; [|apply IH]. destruct (piped p <? capacity p)%nat; cbn; lia.
Qed.

Lemma drainLoop_empties fuel : ∀ p, (piped p < fuel)%nat → piped (drainLoop fuel [] p) = O.
Proof.
  induction fuel as [|fuel IH]; intros p Hp; [lia|]. cbn [drainLoop hd tl]. destruct (Nat.eqb_spec (piped p `min` 64) 0); [lia|].
  apply IH. cbn. lia.
Qed.

(** ** epoll *)

Definition EPOLLIN : Z := 1.
Definition EPOLLOUT : Z := 4.
Definition EPOLLERR : Z := 8.
Definition EPOLLHUP : Z := 16.
Definition EPOLLRDHUP : Z := 8192.
Definition epollReadEvents : Z := Z.lor EPOLLIN EPOLLRDHUP.

Definition epollEventBits (readable writable : bool) : Z :=
  let events := if readable then epollReadEvents else 0 in
  if writable then Z.lor events EPOLLOUT else events.

Inductive ctlOp := EPOLL_CTL_ADD | EPOLL_CTL_MOD | EPOLL_CTL_DEL.

(** The interest list of the kernel, and the failures of the next calls for other
    reasons than the state of the list. *)
Record epollPoller := mkEpoll { epMasks : gmap nat Z; epWake : wakePipe; epFaults : list (option Z) }.

(** [epoll_ctl]: a call that fails has no effect. *)
Definition EpollCtl (op : ctlOp) (fd : nat) (events : Z) (p : epollPoller) : option errno * epollPoller :=
  let p' := mkEpoll (epMasks p) (epWake p) (tl (epFaults p)) in
  match hd None (epFaults p), op, epMasks p !! fd with
  | Some code, _, _ => (Some (EOther code), p')
  | None, EPOLL_CTL_ADD, Some _ => (Some EEXIST, p')
  | None, EPOLL_CTL_MOD, None | None, EPOLL_CTL_DEL, None => (Some ENOENT, p')
  | None, EPOLL_CTL_DEL, Some _ => (None, mkEpoll (delete fd (epMasks p)) (epWake p) (tl (epFaults p)))
  | None, _, _ => (None, mkEpoll (<[fd := events]> (epMasks p)) (epWake p) (tl (epFaults p)))
  end.

Definition epoll_Add (fd : nat) (p : epollPoller) : option errno * epollPoller := EpollCtl EPOLL_CTL_ADD fd (epollEventBits true false) p.
Definition epoll_Set (fd : nat) (readable writable : bool) (p : epollPoller) : option errno * epollPoller :=
  EpollCtl EPOLL_CTL_MOD fd (epollEventBits readable writable) p.
Definition epoll_Remove (fd : nat) (p : epollPoller) : option errno * epollPoller := EpollCtl EPOLL_CTL_DEL fd 0 p.

(** What [epoll_wait] may report: descriptors with their bits. *)
Inductive waitOutcome (E : Type) := WaitReady (events : list E) | WaitErr (e : errno).
Arguments WaitReady {E} events.
Arguments WaitErr {E} e.

Definition hasBits (events mask : Z) : bool := negb (Z.land events mask =? 0).

Definition epollEvent (e : nat * Z) : pollEvent :=
  mkPollEvent e.1 (hasBits e.2 (Z.lor (Z.lor (Z.lor EPOLLIN EPOLLRDHUP) EPOLLHUP) EPOLLERR)) (hasBits e.2 EPOLLOUT).

(** The translation loop of [Wait]: the pipe is drained and not reported, and
    [room] is what is left of the caller's slice. *)
Fixpoint translate {E} (fdOf : E → nat) (event : E → pollEvent) (room : nat) (faults : list (option errno)) (events : list E) (w : wakePipe)
    : list pollEvent * wakePipe :=
  match events with
  | [] => ([], w)
  | e :: events' =>
      if (fdOf e =? readFD w)%nat then translate fdOf event room faults events' (drain faults w)
      else
        match room with
        | O => ([], w)
        | S room' => let '(out, w) := translate fdOf event room' faults events' w in (event e :: out, w)
        end
  end.

(** [Wait]: EINTR is retried; [None] while it blocks. *)
Fixpoint waitLoop {E} (fdOf : E → nat) (event : E → pollEvent) (room : nat) (faults : list (option errno)) (outcomes : list (waitOutcome E)) (w : wakePipe)
    : option (result errno (list pollEvent)) * wakePipe :=
  match outcomes with
  | [] => (None, w)
  | WaitErr EINTR :: outcomes' => waitLoop fdOf event room faults outcomes' w
  | WaitErr e :: _ => (Some (Err e), w)
  | WaitReady events :: _ => let '(out, w) := translate fdOf event room faults events w in (Some (Ok out), w)
  end.

Definition epoll_Wait (room : nat) (faults : list (option errno)) (outcomes : list (waitOutcome (nat * Z))) (p : epollPoller)
    : option (result errno (list pollEvent)) * epollPoller :=
  let '(r, w) := waitLoop fst epollEvent room faults outcomes (epWake p) in (r, mkEpoll (epMasks p) w (epFaults p)).

(** ** kqueue *)

Inductive kfilter := EVFILT_READ | EVFILT_WRITE.
#[global] Instance kfilter_eq_dec : EqDecision kfilter.
Proof. solve_decision. Defined.
#[global] Instance kfilter_countable : Countable kfilter.
Proof. refine (inj_countable' (λ f, match f with EVFILT_READ => true | EVFILT_WRITE => false end) (λ b, if b : bool then EVFILT_READ else EVFILT_WRITE) _); by intros []. Defined.

Record kqueuePoller := mkKqueue { kqFilters : gset (nat * kfilter); kqWake : wakePipe; kqFaults : list (option Z) }.

(** [kevent] with one change: adding again replaces, deleting an absent filter is ENOENT. *)
Definition kqueue_change (fd : nat) (filter : kfilter) (add : bool) (p : kqueuePoller) : option errno * kqueuePoller :=
  let failed e := (Some e, mkKqueue (kqFilters p) (kqWake p) (tl (kqFaults p))) in
  match hd None (kqFaults p) with
  | Some code => failed (EOther code)
  | None =>
      if add then (None, mkKqueue ({[ (fd, filter) ]} ∪ kqFilters p) (kqWake p) (tl (kqFaults p)))
      else if decide ((fd, filter) ∈ kqFilters p) then (None, mkKqueue (kqFilters p ∖ {[ (fd, filter) ]}) (kqWake p) (tl (kqFaults p)))
      else failed ENOENT
  end.

Definition kqueue_setFilter (fd : nat) (filter : kfilter) (enable : bool) (p : kqueuePoller) : option errno * kqueuePoller :=
  let '(e, p) := kqueue_change fd filter enable p in
  (if enable then e else if decide (e = Some ENOENT) then None else e, p).

Definition kqueue_Add (fd : nat) (p : kqueuePoller) : option errno * kqueuePoller := kqueue_change fd EVFILT_READ true p.
Definition kqueue_Set (fd : nat) (readable writable : bool) (p : kqueuePoller) : option errno * kqueuePoller :=
  match kqueue_setFilter fd EVFILT_READ readable p with
  | (Some e, p) => (Some e, p)
  | (None, p) => kqueue_setFilter fd EVFILT_WRITE writable p
  end.
Definition kqueue_Remove (fd : nat) (p : kqueuePoller) : option errno * kqueuePoller :=
  let '(readErr, p) := kqueue_setFilter fd EVFILT_READ false p in
  let '(writeErr, p) := kqueue_setFilter fd EVFILT_WRITE false p in
  (match readErr with Some e => Some e | None => writeErr end, p).

(** A kevent: its descriptor, its filter and whether EV_ERROR is set. *)
Definition kqueueEvent (e : nat * kfilter * bool) : pollEvent :=
  mkPollEvent e.1.1 (bool_decide (e.1.2 = EVFILT_READ) || e.2) (bool_decide (e.1.2 = EVFILT_WRITE)).

Definition kqueue_Wait (room : nat) (faults : list (option errno)) (outcomes : list (waitOutcome (nat * kfilter * bool))) (p : kqueuePoller)
    : option (result errno (list pollEvent)) * kqueuePoller :=
  let '(r, w) := waitLoop (λ e, e.1.1) kqueueEvent room faults outcomes (kqWake p) in (r, mkKqueue (kqFilters p) w (kqFaults p)).

(** ** What the loop relies on *)

(** The mutating half of the [poller] interface, and what is being watched:
    for reading and for writing. *)
Class Poller (P : Type) := {
  pl_Add : nat → P → option errno * P;
  pl_Set : nat → bool → bool → P → option errno * P;
  pl_Remove : nat → P → option errno * P;
  pl_interest : P → nat → bool * bool
}.

Class PollerLaws (P : Type) {I : Poller P} : Prop := {
  set_watches : ∀ fd r w p p', pl_Set fd r w p = (None, p') → pl_interest p' fd = (r, w);
  add_watches : ∀ fd p p', pl_interest p fd = (false, false) → pl_Add fd p = (None, p') → pl_interest p' fd = (true, false);
  remove_forgets : ∀ fd p p', pl_Remove fd p = (None, p') → pl_interest p' fd = (false, false);
  (** successful or not, a call concerns its descriptor alone *)
  set_only : ∀ fd r w p fd', fd' ≠ fd → pl_interest (pl_Set fd r w p).2 fd' = pl_interest p fd';
  add_only : ∀ fd p fd', fd' ≠ fd → pl_interest (pl_Add fd p).2 fd' = pl_interest p fd';
  remove_only : ∀ fd p fd', fd' ≠ fd → pl_interest (pl_Remove fd p).2 fd' = pl_interest p fd'
}.

(** What a poller was asked to watch.  The kernel reports more for epoll: EPOLLERR
    and EPOLLHUP come for every registered descriptor, whatever its mask, and
    [epollEvent] turns them into a readable event; kqueue flags them on the filters
    that are registered. *)
Definition maskInterest (m : Z) : bool * bool := (hasBits m EPOLLIN, hasBits m EPOLLOUT).
Definition epInterest (p : epollPoller) (fd : nat) : bool * bool := default (false, false) (maskInterest <$> epMasks p !! fd).
Definition kqInterest (p : kqueuePoller) (fd : nat) : bool * bool :=
  (bool_decide ((fd, EVFILT_READ) ∈ kqFilters p), bool_decide ((fd, EVFILT_WRITE) ∈ kqFilters p)).

#[global] Instance epoll_poller : Poller epollPoller := {
  pl_Add := epoll_Add; pl_Set := epoll_Set; pl_Remove := epoll_Remove; pl_interest := epInterest }.
#[global] Instance kqueue_poller : Poller kqueuePoller := {
  pl_Add := kqueue_Add; pl_Set := kqueue_Set; pl_Remove := kqueue_Remove; pl_interest := kqInterest }.

Lemma bits_watch r w : maskInterest (epollEventBits r w) = (r, w).
Proof. by destruct r, w. Qed.

Lemma EpollCtl_only op fd events p fd' : fd' ≠ fd → epMasks (EpollCtl op fd events p).2 !! fd' = epMasks p !! fd'.
Proof. intros Hne. unfold EpollCtl. repeat case_match; cbn [snd epMasks]; rewrite ?lookup_insert_ne, ?lookup_delete_ne by done; done. Qed.

Lemma EpollCtl_done op fd events p p' : EpollCtl op fd events p = (None, p') →
  epMasks p' = match op with EPOLL_CTL_DEL => delete fd (epMasks p) | _ => <[fd := events]> (epMasks p) end
  ∧ match op with EPOLL_CTL_ADD => epMasks p !! fd = None | _ => is_Some (epMasks p !! fd) end.
Proof. unfold EpollCtl. repeat case_match; intros [= <-]; cbn [epMasks]; split; try done; by eexists. Qed.

#[global] Instance epoll_laws : PollerLaws epollPoller.
Proof.
  split; cbn [pl_Add pl_Set pl_Remove pl_interest epoll_poller]; unfold epoll_Add, epoll_Set, epoll_Remove, epInterest.
  - intros fd r w p p' [-> _]%EpollCtl_done. rewrite lookup_insert_eq. apply bits_watch.
  - intros fd p p' _ [-> _]%EpollCtl_done. rewrite lookup_insert_eq. apply bits_watch.
  - intros fd p p' [-> _]%EpollCtl_done. by rewrite lookup_delete_eq.
  - intros fd r w p fd' Hne. by rewrite EpollCtl_only.
  - intros fd p fd' Hne. by rewrite EpollCtl_only.
  - intros fd p fd' Hne. by rewrite EpollCtl_only.
Qed.

(** One filter change: it says what the filter is now, and touches no other. *)
Lemma setFilter_done fd f b p p' : kqueue_setFilter fd f b p = (None, p') → bool_decide ((fd, f) ∈ kqFilters p') = b.
Proof.
  unfold kqueue_setFilter, kqueue_change. destruct (hd None (kqFaults p)) as [code|]; destruct b; try done.
  - intros [= <-]. cbn [kqFilters]. apply bool_decide_eq_true. set_solver.
  - case_decide; intros [= <-]; cbn [kqFilters]; apply bool_decide_eq_false; set_solver.
Qed.

Lemma setFilter_only fd f b p q : q ≠ (fd, f) → q ∈ kqFilters (kqueue_setFilter fd f b p).2 ↔ q ∈ kqFilters p.
Proof.
  intros Hne. unfold kqueue_setFilter, kqueue_change. destruct (hd None (kqFaults p)) as [code|]; [done|].
  destruct b; cbn [snd kqFilters]; [set_solver|]. case_decide; cbn [snd kqFilters]; set_solver.
Qed.

Lemma kqInterest_ext p p' fd : (∀ f, (fd, f) ∈ kqFilters p' ↔ (fd, f) ∈ kqFilters p) → kqInterest p' fd = kqInterest p fd.
Proof. intros H. unfold kqInterest. f_equal; apply bool_decide_ext, H. Qed.

Lemma kqueue_Set_only fd r w p fd' f : fd' ≠ fd → (fd', f) ∈ kqFilters (kqueue_Set fd r w p).2 ↔ (fd', f) ∈ kqFilters p.
Proof.
  intros Hne. unfold kqueue_Set. pose proof (setFilter_only fd EVFILT_READ r p (fd', f)) as H1.
  destruct (kqueue_setFilter fd EVFILT_READ r p) as [[e|] p1]; cbn [snd] in *; [apply H1; congruence|].
  rewrite setFilter_only by congruence. apply H1. congruence.
Qed.

Lemma kqueue_Set_done fd r w p p' : kqueue_Set fd r w p = (None, p') → kqInterest p' fd = (r, w).
Proof.
  unfold kqueue_Set. destruct (kqueue_setFilter fd EVFILT_READ r p) as [[e|] p1] eqn:E1; [done|]. intros E2. unfold kqInterest.
  rewrite (setFilter_done _ _ _ _ _ E2). f_equal. rewrite <- (setFilter_done _ _ _ _ _ E1). apply bool_decide_ext.
  pose proof (setFilter_only fd EVFILT_WRITE w p1 (fd, EVFILT_READ) ltac:(done)) as H. by rewrite E2 in H.
Qed.

(** Removing is watching for nothing. *)
Lemma kqueue_Remove_done fd p p' : kqueue_Remove fd p = (None, p') → kqueue_Set fd false false p = (None, p').
Proof.
  unfold kqueue_Remove, kqueue_Set. destruct (kqueue_setFilter fd EVFILT_READ false p) as [[e|] p1].
  - by destruct (kqueue_setFilter fd EVFILT_WRITE false p1).
  - by destruct (kqueue_setFilter fd EVFILT_WRITE false p1).
Qed.

#[global] Instance kqueue_laws : PollerLaws kqueuePoller.
Proof.
  split; cbn [pl_Add pl_Set pl_Remove pl_interest kqueue_poller].
  - apply kqueue_Set_done.
  - intros fd p p' Hi. unfold kqueue_Add, kqueue_change. destruct (hd None (kqFaults p)) as [code|]; [done|]. intros [= <-].
    unfold kqInterest in *. cbn [kqFilters]. injection Hi as _ Hw. rewrite bool_decide_eq_true_2 by set_solver. f_equal.
    rewrite <- Hw. apply bool_decide_ext. set_solver.
  - intros fd p p' H. eapply kqueue_Set_done, kqueue_Remove_done, H.
  - intros fd r w p fd' Hne. apply kqInterest_ext. intros f. by apply kqueue_Set_only.
  - intros fd p fd' Hne. apply kqInterest_ext. intros f. unfold kqueue_Add, kqueue_change. destruct (hd None (kqFaults p)); cbn [snd kqFilters]; set_solver.
  - intros fd p fd' Hne. apply kqInterest_ext. intros f. unfold kqueue_Remove. pose proof (setFilter_only fd EVFILT_READ false p (fd', f)) as H1.
    destruct (kqueue_setFilter fd EVFILT_READ false p) as [e1 p1]. pose proof (setFilter_only fd EVFILT_WRITE false p1 (fd', f)) as H2.
    destruct (kqueue_setFilter fd EVFILT_WRITE false p1) as [e2 p2]. cbn [snd] in *. rewrite H2 by congruence. apply H1. congruence.
Qed.

(** ** Calls *)

Inductive pollCall := CallAdd (fd : nat) | CallSet (fd : nat) (r w : bool) | CallRemove (fd : nat).
Definition callFd (c : pollCall) : nat := match c with CallAdd fd | CallSet fd _ _ | CallRemove fd => fd end.

Section Calls.
Context {P : Type} {I : Poller P}.

Definition runCall (c : pollCall) (p : P) : option errno * P :=
  match c with CallAdd fd => pl_Add fd p | CallSet fd r w => pl_Set fd r w p | CallRemove fd => pl_Remove fd p end.

(** [None] when a call reports an error. *)
Fixpoint runCalls (calls : list pollCall) (p : P) : option P :=
  match calls with
  | [] => Some p
  | c :: calls => match runCall c p with (None, p) => runCalls calls p | (Some _, _) => None end
  end.
End Calls.

(** The event loop's own account of the interest sets: [pollAdd], [pollSet] and
    [pollRemove] of [EventLoop]. *)
Definition noteCall (c : pollCall) (m : gmap nat (bool * bool)) : gmap nat (bool * bool) :=
  match c with CallAdd fd => <[fd := (true, false)]> m | CallSet fd r w => <[fd := (r, w)]> m | CallRemove fd => delete fd m end.
Definition Matches {P} `{Poller P} (m : gmap nat (bool * bool)) (p : P) : Prop :=
  ∀ fd, pl_interest p fd = default (false, false) (m !! fd).

Lemma call_matches {P} `{PollerLaws P} c m (p p' : P) :
  Matches m p → (∀ fd, c = CallAdd fd → m !! fd = None) → runCall c p = (None, p') → Matches (noteCall c m) p'.
Proof.
  intros Hm Hadd Hc fd. destruct (decide (fd = callFd c)) as [->|Hne].
  - destruct c as [fd|fd r w|fd]; cbn [callFd noteCall runCall] in *.
    + rewrite lookup_insert_eq. eapply add_watches; [|done]. rewrite Hm, (Hadd fd) by done. done.
    + rewrite lookup_insert_eq. by eapply set_watches.
    + rewrite lookup_delete_eq. by eapply remove_forgets.
  - assert (pl_interest p' fd = pl_interest p fd) as ->.
    { destruct c as [fd'|fd' r w|fd']; cbn [callFd runCall] in *; [pose proof (add_only fd' p fd Hne) as Ho|pose proof (set_only fd' r w p fd Hne) as Ho|pose proof (remove_only fd' p fd Hne) as Ho];
        by rewrite Hc in Ho. }
    rewrite Hm. destruct c as [fd'|fd' r w|fd']; cbn [callFd noteCall] in *; by rewrite ?lookup_insert_ne, ?lookup_delete_ne.
Qed.

(** ** Fresh pollers, as [newPoller] leaves them *)

Definition newEpollPoller (w : wakePipe) : epollPoller := mkEpoll {[ readFD w := EPOLLIN ]} w [].
Definition newKqueuePoller (w : wakePipe) : kqueuePoller := mkKqueue {[ (readFD w, EVFILT_READ) ]} w [].
Definition wakeOnly (w : wakePipe) : gmap nat (bool * bool) := {[ readFD w := (true, false) ]}.

Lemma newEpoll_matches w : Matches (wakeOnly w) (newEpollPoller w).
Proof.
  intros fd. cbn [pl_interest epoll_poller]. unfold epInterest, newEpollPoller, wakeOnly. cbn [epMasks].
  destruct (decide (fd = readFD w)) as [->|Hne]; [by rewrite !lookup_singleton_eq|by rewrite !lookup_singleton_ne].
Qed.

Lemma newKqueue_matches w : Matches (wakeOnly w) (newKqueuePoller w).
Proof.
  intros fd. cbn [pl_interest kqueue_poller]. unfold kqInterest, newKqueuePoller, wakeOnly. cbn [kqFilters].
  destruct (decide (fd = readFD w)) as [->|Hne]; [rewrite lookup_singleton_eq|rewrite lookup_singleton_ne by done];
    cbn [default from_option id]; f_equal; [apply bool_decide_eq_true|apply bool_decide_eq_false|apply bool_decide_eq_false|apply bool_decide_eq_false]; set_solver.
Qed.

(** Without failures of its own the kqueue poller accepts every call. *)
Lemma kqueue_accepts c k : kqFaults k = [] → ∃ k', runCall c k = (None, k') ∧ kqFaults k' = [].
Proof.
  intros Hf. assert (∀ fd f b k, kqFaults k = [] → ∃ k', kqueue_setFilter fd f b k = (None, k') ∧ kqFaults k' = []) as Hs.
  { intros fd f b k0 H0. unfold kqueue_setFilter, kqueue_change. rewrite H0. cbn [hd tl]. destruct b; [by eexists|]. case_decide; by eexists. }
  destruct c as [fd|fd r w|fd]; cbn [runCall pl_Add pl_Set pl_Remove kqueue_poller].
  - unfold kqueue_Add, kqueue_change. rewrite Hf. by eexists.
  - unfold kqueue_Set. destruct (Hs fd EVFILT_READ r k Hf) as (k1 & -> & H1). by apply Hs.
  - unfold kqueue_Remove. destruct (Hs fd EVFILT_READ false k Hf) as (k1 & -> & H1). destruct (Hs fd EVFILT_WRITE false k1 H1) as (k2 & -> & H2). by exists k2.
Qed.

(** The epoll set knows the descriptors the account knows. *)
Definition Registered (m : gmap nat (bool * bool)) (p : epollPoller) : Prop := dom (epMasks p) = dom m.

Lemma epoll_registered c m p p' : Registered m p → runCall c p = (None, p') →
  Registered (noteCall c m) p' ∧ (∀ fd, c = CallAdd fd → m !! fd = None).
Proof.
  unfold Registered. intros Hr. destruct c as [fd|fd r w|fd]; cbn [runCall pl_Add pl_Set pl_Remove epoll_poller noteCall];
    unfold epoll_Add, epoll_Set, epoll_Remove; intros [-> Hk]%EpollCtl_done; (split; [rewrite ?dom_insert_L, ?dom_delete_L; by rewrite Hr|]); intros fd' [= <-].
  apply not_elem_of_dom. rewrite <- Hr. by apply not_elem_of_dom.
Qed.

Lemma calls_agree calls : ∀ m p k p', Matches m p → Registered m p → Matches m k → kqFaults k = [] → runCalls calls p = Some p' →
  ∃ k', runCalls calls k = Some k' ∧ Matches (foldl (λ m c, noteCall c m) m calls) p' ∧ Matches (foldl (λ m c, noteCall c m) m calls) k'.
Proof.
  induction calls as [|c calls IH]; intros m p k p' Hp Hr Hk Hf Hrun; cbn [runCalls foldl] in *; [injection Hrun as <-; by exists k|].
  destruct (runCall c p) as [[e|] p1] eqn:Ec; [done|]. destruct (epoll_registered c m p p1 Hr Ec) as [Hr1 Hadd].
  destruct (kqueue_accepts c k Hf) as (k1 & Ek & Hf1). rewrite Ek.
  apply (IH _ p1); [by eapply call_matches|done|by eapply call_matches|done|done].
Qed.

(** C25: The two pollers are one interface.  Any calls the epoll poller accepts, the
    kqueue poller accepts too, and after them both watch exactly the descriptors
    and directions the event loop has on record: its own account of [Add], [Set]
    and [Remove]. *)
Theorem pollers_agree calls w p' :
  runCalls calls (newEpollPoller w) = Some p' →
  ∃ k', runCalls calls (newKqueuePoller w) = Some k'
    ∧ ∀ fd, let want := default (false, false) (foldl (λ m c, noteCall c m) (wakeOnly w) calls !! fd) in
        epInterest p' fd = want ∧ kqInterest k' fd = want.
Proof.
  intros Hrun. destruct (calls_agree calls (wakeOnly w) (newEpollPoller w) (newKqueuePoller w) p') as (k' & Hk & Mp & Mk);
    [apply newEpoll_matches|unfold Registered, newEpollPoller, wakeOnly; cbn [epMasks]; by rewrite !dom_singleton_L|apply newKqueue_matches|done|done|].
  exists k'. split; [done|]. intros fd. split; [apply (Mp fd)|apply (Mk fd)].
Qed.

Definition demoWake : wakePipe := mkWakePipe 4 16 0 false.

Lemma pollers_agree_witness :
  let calls := [CallAdd 7; CallSet 7 false true; CallAdd 8; CallRemove 7] in
  ∃ p k, runCalls calls (newEpollPoller demoWake) = Some p ∧ runCalls calls (newKqueuePoller demoWake) = Some k
    ∧ epInterest p 8 = (true, false) ∧ kqInterest k 8 = (true, false).
Proof.
  intros calls.
  assert (∃ p, runCalls calls (newEpollPoller demoWake) = Some p) as [p Hp] by (eexists; vm_compute; reflexivity).
  destruct (pollers_agree calls demoWake p Hp) as (k & Hk & Hi). exists p, k. split; [exact Hp|]. split; [exact Hk|]. apply (Hi 8%nat).
Defined.

(** ** Waiting *)

(** A wait that is not short of room reports every event but the wake-up, which
    it drains, and retries after a signal. *)
Lemma translate_all {E} (fdOf : E → nat) (event : E → pollEvent) events : ∀ room w, (length events ≤ room)%nat →
  ∃ w', translate fdOf event room [] events w = (event <$> filter (λ e, fdOf e ≠ readFD w) events, w')
    ∧ (readFD w ∈ fdOf <$> events → piped w' = O) ∧ (readFD w ∉ fdOf <$> events → w' = w).
Proof.
  assert (∀ w, readFD (drain [] w) = readFD w) as Hfd.
  { intros w. unfold drain. generalize (S (piped w)). intros fuel. revert w. induction fuel as [|fuel IH]; intros w; [done|]. cbn [drainLoop hd tl].
    destruct (_ =? _)%nat; [done|]. by rewrite IH. }
  assert (∀ w, piped w = O → drain [] w = w) as Hdry.
  { intros w Hw. unfold drain. rewrite Hw. cbn [drainLoop hd]. by rewrite Hw. }
  induction events as [|e events IH]; intros room w Hl; cbn [translate].
  { exists w. split_and!; [done|by intros []%elem_of_nil|done]. }
  cbn [length] in Hl. destruct (Nat.eqb_spec (fdOf e) (readFD w)) as [He|He].
  - destruct (IH room (drain [] w)) as (w' & Heq & H1 & H2); [lia|]. rewrite Hfd in *. exists w'. rewrite filter_cons_False by naive_solver.
    split_and!; [done| |intros Hn; exfalso; apply Hn; rewrite <- He; by left]. intros _.
    destruct (decide (readFD w ∈ fdOf <$> events)) as [Hin|Hin]; [by apply H1|]. rewrite H2 by done. apply drainLoop_empties. lia.
  - destruct room as [|room]; [lia|]. destruct (IH room w) as (w' & Heq & H1 & H2); [lia|]. rewrite Heq. exists w'. rewrite filter_cons_True by done.
    cbn [fmap list_fmap]. split_and!; [done| |].
    + intros [Hn|Hin]%elem_of_cons; [congruence|by apply H1].
    + intros Hn. apply H2. intros Hin. apply Hn. by right.
Qed.

(** Waiting loses no event.  However often it is interrupted by a signal, a
    [Wait] with room for what epoll reports hands the loop every ready descriptor,
    translated, and nothing else; a wake-up is drained and not reported, so the
    pipe is ready again only for a later one. *)
Theorem epoll_wait_exact room interrupts events rest p :
  (length events ≤ room)%nat →
  ∃ p', epoll_Wait room [] (replicate interrupts (WaitErr EINTR) ++ WaitReady events :: rest) p
      = (Some (Ok (epollEvent <$> filter (λ e, e.1 ≠ readFD (epWake p)) events)), p')
    ∧ epMasks p' = epMasks p
    ∧ (readFD (epWake p) ∈ events.*1 → piped (epWake p') = O) ∧ (readFD (epWake p) ∉ events.*1 → epWake p' = epWake p).
Proof.
  intros Hl. destruct (translate_all fst epollEvent events room (epWake p) Hl) as (w' & Heq & H1 & H2).
  exists (mkEpoll (epMasks p) w' (epFaults p)). split_and!; [|done|done|done]. unfold epoll_Wait.
  assert (waitLoop fst epollEvent room [] (replicate interrupts (WaitErr EINTR) ++ WaitReady events :: rest) (epWake p)
    = (Some (Ok (epollEvent <$> filter (λ e, e.1 ≠ readFD (epWake p)) events)), w')) as ->; [|done].
  induction interrupts as [|k IH]; [cbn [replicate app waitLoop]; by rewrite Heq|exact IH].
Qed.

Lemma epoll_wait_exact_witness :
  ∃ p', epoll_Wait 128 [] [WaitErr EINTR; WaitReady [(4%nat, EPOLLIN); (7%nat, EPOLLHUP)]] (mkEpoll ∅ (mkWakePipe 4 16 3 false) [])
    = (Some (Ok [mkPollEvent 7 true false]), p') ∧ piped (epWake p') = O.
Proof.
  destruct (epoll_wait_exact 128 1 [(4%nat, EPOLLIN); (7%nat, EPOLLHUP)] [] (mkEpoll ∅ (mkWakePipe 4 16 3 false) [])) as (p' & Heq & _ & Hd & _).
  - vm_compute. lia.
  - exists p'. split; [exact Heq|]. apply Hd. left.
Defined.

(** A wake-up that reports success has made the pipe ready, and what other
    goroutines do keeps it so until [Wait] drains it; after [close] a wake-up
    fails and writes nothing. *)
Theorem wake_is_pending faults others p p' :
  (0 < capacity p)%nat → wake faults p = (None, p') →
  (0 < piped (foldl (λ p f, (wake f p).2) p' others))%nat ∧ wake faults (wakePipe_close p') = (Some WakeErrClosed, wakePipe_close p').
Proof.
  unfold wake at 1. destruct (wakeClosed p); [done|]. intros Hc [Hp _]%wakeLoop_ready; [|done]. split; [|done]. clear Hc. revert p' Hp.
  induction others as [|f others IH]; intros p' Hp; [done|]. cbn [foldl]. apply IH. unfold wake. destruct (wakeClosed p'); [done|].
  pose proof (wakeLoop_keeps f p'). cbn [snd]. lia.
Qed.
