(* ===== verification/EventLoopFacts.v ===== *)
(** * The event loop forgets no connection

    Between turns the poller watches every connection for what it waits for, and
    every queued push is on the loop's list; across any interleaving of turns
    with pushes, close requests and timers of other goroutines. *)

From S2P Require Import Prelude Strconv Resp RespDecode ConnMachine ConnMachineFacts EventLoop.

(** What the loop relies on: the server keeps an invariant of its own, the
    numbers it hands out are new, and it forgets none. *)
Class LoopServerLaws (RS : Type) `{LoopServer RS} := {
  ls_ok : RS → Prop;
  ls_known : RS → nat → Prop;
  ok_register : ∀ addr s id s', ls_ok s → ls_register addr s = (id, s') →
    ls_ok s' ∧ ¬ ls_known s id ∧ ls_known s' id ∧ ∀ i, ls_known s i → ls_known s' i;
  ok_teardown : ∀ id s, ls_ok s → ls_ok (ls_teardown id s) ∧ ∀ i, ls_known s i → ls_known (ls_teardown id s) i;
  ok_run : ∀ id s v, ls_ok s → ls_known s id → ls_ok (ls_run id s v).1 ∧ ∀ i, ls_known s i → ls_known (ls_run id s v).1 i;
  ok_pushes : ∀ s, ls_ok s → ls_ok (ls_pushes s).2 ∧ ∀ i, ls_known s i → ls_known (ls_pushes s).2 i
}.

(** ** Output offsets stay within their buffers *)

Lemma Close_output m e : OutputInv m → OutputInv (Close m e).
Proof. unfold Close. case_decide; [done|]. intros _. unfold OutputInv, zlen. cbn. lia. Qed.

Lemma bufferResponses_output m values : OutputInv m → OutputInv (bufferResponses m values).1.
Proof.
  intros Ho. unfold bufferResponses. destruct values as [|v vs]; [done|]. destruct (compactWriteBuf_spec m Ho) as (Hc & _).
  destruct (AppendValues (writeBuf (compactWriteBuf m)) (v :: vs)) as [b [e|]] eqn:E; [done|].
  apply appendValuesFrom_ok in E as ->. assert (OutputInv (withOutput (compactWriteBuf m) (writeBuf (compactWriteBuf m) ++ concat (wireBytes <$> v :: vs)) (writeOff (compactWriteBuf m)))) as H.
  { unfold OutputInv in *. cbn. rewrite zlen_app. pose proof (zlen_nonneg (concat (wireBytes <$> v :: vs))). cbn in *. lia. }
  cbn zeta. case_match; exact H.
Qed.

Lemma finishResponses_output m values : OutputInv m → OutputInv (finishResponses m values).1.
Proof.
  intros Ho. apply (bufferResponses_output _ values) in Ho. unfold finishResponses.
  destruct (bufferResponses m values) as [m' [e|]]; cbn [fst] in *; [by apply Close_output|done].
Qed.

Lemma ProcessNext_output {RS} txt (run : RS → Value → RS * result connError (list Value)) m rs :
  OutputInv m → OutputInv (ProcessNext txt run m rs).1.1.
Proof.
  intros Ho. unfold ProcessNext. case_decide; [done|]. destruct (pending m) as [|[v|e] rest]; [done| |].
  - destruct (run rs v) as [rs' [vs|e]]; [|by apply Close_output].
    pose proof (finishResponses_output (popPending m rest) vs Ho) as Hfin. by destruct (finishResponses (popPending m rest) vs).
  - pose proof (finishResponses_output (popPending m rest) [ErrorValue (bs "ERR " ++ txt e)] Ho) as Hfin. by destruct (finishResponses (popPending m rest) _).
Qed.

Lemma BufferEncoded_output m payload : OutputInv m → OutputInv (BufferEncoded m payload).1.
Proof.
  intros Ho. unfold BufferEncoded. case_decide; [done|]. case_match; [done|]. case_match; [done|].
  destruct (compactWriteBuf_spec m Ho) as (Hc & _). unfold OutputInv in *. cbn in *. rewrite zlen_app. pose proof (zlen_nonneg payload). lia.
Qed.

Lemma Feed_output m data : OutputInv m → OutputInv (Feed m data).1.
Proof. intros Ho. unfold Feed. by repeat case_match. Qed.

Lemma fdWrite_bounds p : ∀ os total, (total ≤ length p)%nat → 0 ≤ (fdWrite os total p).1 ≤ zlen p.
Proof.
  induction os as [|o os IH]; intros total Ht; cbn [fdWrite]; (case_match; [unfold zlen; cbn; lia|]); [unfold zlen; cbn; lia|].
  destruct o as [n| | |code]; [apply IH; lia|by apply IH|unfold zlen; cbn; lia|unfold zlen; cbn; lia].
Qed.

Lemma fdWrite_ok os : writerOk (fdWrite os 0).
Proof. intros p. apply fdWrite_bounds. lia. Qed.

Lemma Flush_output m os : OutputInv m → OutputInv (Flush m (fdWrite os 0)).1.1.
Proof.
  intros Ho. destruct (decide (state m = ConnStateClosed)) as [Hc|Hc]; [unfold Flush; by rewrite decide_True|].
  destruct (Flush m (fdWrite os 0)) as [[m' sent] e] eqn:E.
  destruct (Flush_ok _ _ _ _ _ Hc Ho (fdWrite_ok os) E) as (buf & off & _ & Ho1 & [->|[-> _]]); [done|by apply Close_output].
Qed.

Section Facts.
Context {RS : Type} {LS : LoopServer RS} {LL : LoopServerLaws RS} {K : Kernel} (listenFD : nat).
Implicit Type l : eventLoop RS.

(** A connection at rest: the poller is asked for writes exactly while output is
    pending, and for reads until the peer has stopped or output is backed up. *)
Definition connSettled (c : eventConn) : Prop :=
  state (machine c) ≠ ConnStateClosed
  ∧ wantWrite c = HasPendingOutput (machine c)
  ∧ wantRead c = negb (peerClosed c) && (PendingOutputBytes (machine c) <=? eventLoopOutputHighWater).

(** [busy] is the connection being served. *)
Record LoopInv (busy : option nat) l : Prop := {
  li_conn : ∀ d id, conns l !! d = Some id → d ≠ listenFD ∧ ∃ c, objs l !! id = Some c ∧ fd c = d ∧ detached c = false
    ∧ interest l !! d = Some (wantRead c, wantWrite c) ∧ (busy ≠ Some id → connSettled c);
  li_push : ∀ id c, objs l !! id = Some c → pushBuf c ≠ [] → detached c = false ∧ pushQueued c = true ∧ id ∈ pushed l;
  li_queued : ∀ id c, objs l !! id = Some c → pushQueued c = true → id ∈ pushed l;
  li_known : ls_ok (srv l) ∧ ∀ id, is_Some (objs l !! id) → ls_known (srv l) id;
  li_output : ∀ id c, objs l !! id = Some c → OutputInv (machine c);
  li_poller : ∀ d, is_Some (interest l !! d) → d = listenFD ∨ is_Some (conns l !! d)
}.

Lemma LoopInv_busy id l : LoopInv None l → LoopInv (Some id) l.
Proof.
  intros [H1 H2 H3 H4 H6 H5]. split; [|done..]. intros d i Hd. destruct (H1 d i Hd) as (Hn & c & ? & ? & ? & ? & Hs).
  split; [done|]. exists c. split_and!; try done. intros _. by apply Hs.
Qed.

(** Only one descriptor points at an object. *)
Lemma LoopInv_rest id l : LoopInv (Some id) l →
  (∀ c, objs l !! id = Some c → conns l !! fd c = Some id → connSettled c) → LoopInv None l.
Proof.
  intros [H1 H2 H3 H4 H6 H5] Hs. split; [|done..]. intros d i Hd. destruct (H1 d i Hd) as (Hn & c & Hc & Hf & ? & ? & Hs').
  split; [done|]. exists c. split_and!; try done. intros _. destruct (decide (i = id)) as [->|]; [|apply Hs'; congruence].
  apply (Hs c Hc). by rewrite Hf.
Qed.

(** A change of the busy object that keeps its descriptor and its queues. *)
Definition keepsPlace (f : eventConn → eventConn) : Prop := ∀ c,
  fd (f c) = fd c ∧ detached (f c) = detached c ∧ wantRead (f c) = wantRead c ∧ wantWrite (f c) = wantWrite c
  ∧ pushBuf (f c) = pushBuf c ∧ pushQueued (f c) = pushQueued c.
Definition keepsOutput (id : nat) (f : eventConn → eventConn) l : Prop := ∀ c, objs l !! id = Some c → OutputInv (machine (f c)).

Lemma lookup_onConn id f l i : objs (onConn id f l) !! i = if decide (i = id) then f <$> objs l !! id else objs l !! i.
Proof. cbn. case_decide; [subst; by rewrite lookup_alter_eq|]. by rewrite lookup_alter_ne. Qed.

Lemma onConn_inv id f l : keepsPlace f → keepsOutput id f l → LoopInv (Some id) l → LoopInv (Some id) (onConn id f l).
Proof.
  intros Hf Ho [H1 H2 H3 H4 H6 H5]. split; [| | | | |done].
  - intros d i Hd. destruct (H1 d i Hd) as (Hn & c & Hc & ? & ? & Hi & Hs). split; [done|]. rewrite lookup_onConn.
    case_decide; [subst i|by exists c]. rewrite Hc. exists (f c). destruct (Hf c) as (-> & -> & -> & -> & _). by split_and!.
  - intros i c. rewrite lookup_onConn. case_decide; [subst i|by apply H2]. destruct (objs l !! id) as [c0|] eqn:E; [|done].
    cbn. intros [= <-]. destruct (Hf c0) as (_ & -> & _ & _ & -> & ->). by apply H2.
  - intros i c. rewrite lookup_onConn. case_decide; [subst i|by apply H3]. destruct (objs l !! id) as [c0|] eqn:E; [|done].
    cbn. intros [= <-]. destruct (Hf c0) as (_ & _ & _ & _ & _ & ->). by apply H3.
  - split; [apply H4|]. intros i. rewrite lookup_onConn. case_decide; [subst i; rewrite fmap_is_Some|]; apply H4.
  - intros i c. rewrite lookup_onConn. case_decide; [subst i|by apply H6]. destruct (objs l !! id) as [c0|] eqn:E; [|done].
    cbn. intros [= <-]. by apply Ho.
Qed.

(** The system's answers play no part. *)
Lemma sys_inv busy y l : LoopInv busy l → LoopInv busy (setPoller (interest l) y l).
Proof. intros [H1 H2 H3 H4 H6 H5]. by split. Qed.

Lemma srv_inv busy s l : ls_ok s → (∀ i, ls_known (srv l) i → ls_known s i) → LoopInv busy l → LoopInv busy (setSrv s l).
Proof. intros Hok Hs [H1 H2 H3 [_ H4] H6 H5]. split; try done. split; [done|]. intros i Hi. by apply Hs, H4. Qed.

(** ** Queues *)

Lemma requestClose_inv busy id l : LoopInv busy l → LoopInv busy (requestClose id l).
Proof.
  intros HI. unfold requestClose. destruct (objs l !! id) as [c|] eqn:Ec; [|done]. destruct (detached c || closeRequested c); [done|].
  destruct HI as [H1 H2 H3 H4 H6 H5]. assert (∀ i, objs (onConn id setCloseRequested l) !! i = if decide (i = id) then Some (setCloseRequested c) else objs l !! i) as Hl.
  { intros i. rewrite lookup_onConn, Ec. done. }
  split; cbn [conns objs interest srv pushed setQueues onConn setObjs] in *; [| | | | |done].
  - intros d i Hd. destruct (H1 d i Hd) as (Hn & c' & Hc' & Hrest). split; [done|]. rewrite Hl. case_decide; [subst i|by exists c'].
    rewrite Ec in Hc'. injection Hc' as <-. by exists (setCloseRequested c).
  - intros i c'. rewrite Hl. case_decide; [subst i; intros [= <-]; by apply (H2 id c)|by apply H2].
  - intros i c'. rewrite Hl. case_decide; [subst i; intros [= <-]; by apply (H3 id c)|by apply H3].
  - split; [apply H4|]. intros i. rewrite Hl. case_decide; [subst i; intros _; apply H4; by exists c|apply H4].
  - intros i c'. rewrite Hl. case_decide; [subst i; intros [= <-]; by apply (H6 id c)|apply H6].
Qed.

Lemma queuePush_inv busy id payload l : LoopInv busy l → LoopInv busy (queuePush id payload l).2.
Proof.
  intros HI. unfold queuePush. destruct (objs l !! id) as [c|] eqn:Ec; [|done]. destruct (detached c) eqn:Ed; [done|].
  case_match; [by apply requestClose_inv|]. cbn [snd]. destruct HI as [H1 H2 H3 H4 H6 H5].
  set (c2 := setPush (pushBuf c ++ payload) true c). set (l' := if pushQueued c then _ else _).
  assert (∀ i, objs l' !! i = if decide (i = id) then Some c2 else objs l !! i) as Hl.
  { intros i. transitivity (objs (onConn id (setPush (pushBuf c ++ payload) true) l) !! i); [by subst l'; destruct (pushQueued c)|].
    rewrite lookup_onConn, Ec. done. }
  assert (id ∈ pushed l' ∧ ∀ i, i ∈ pushed l → i ∈ pushed l') as [Hin Hmono].
  { subst l'. destruct (pushQueued c) eqn:Eq; cbn; [split; [by apply (H3 id c)|done]|]. split; [apply elem_of_app; right; by left|].
    intros i Hi. apply elem_of_app. by left. }
  assert (conns l' = conns l ∧ interest l' = interest l ∧ srv l' = srv l) as (E1 & E2 & E3) by (subst l'; by destruct (pushQueued c)).
  split; rewrite ?E1, ?E2, ?E3; [| | | | |done].
  - intros d i Hd. destruct (H1 d i Hd) as (Hn & c' & Hc' & Hrest). split; [done|]. rewrite Hl. case_decide; [subst i|by exists c'].
    rewrite Ec in Hc'. injection Hc' as <-. by exists c2.
  - intros i c'. rewrite Hl. case_decide; [subst i; by intros [= <-]|]. intros Hc' Hb. destruct (H2 i c' Hc' Hb) as (? & ? & ?). auto.
  - intros i c'. rewrite Hl. case_decide; [subst i; by intros [= <-]|]. intros Hc' Hb. eauto.
  - split; [apply H4|]. intros i. rewrite Hl. case_decide; [subst i; intros _; apply H4; by exists c|apply H4].
  - intros i c'. rewrite Hl. case_decide; [subst i; intros [= <-]; by apply (H6 id c)|apply H6].
Qed.

Lemma queuePushes_inv busy pushes : ∀ l, LoopInv busy l → LoopInv busy (queuePushes pushes l).
Proof. induction pushes as [|p pushes IH]; intros l HI; [done|]. cbn. by apply IH, queuePush_inv. Qed.

(** ** Closing *)

Lemma closeConn_inv id cause l : LoopInv (Some id) l → LoopInv None (closeConn id cause l).
Proof.
  intros HI. unfold closeConn. destruct (objs l !! id) as [c|] eqn:Ec.
  2: { apply (LoopInv_rest id); [done|]. by rewrite Ec. }
  case_decide as Hreg.
  2: { apply (LoopInv_rest id); [done|]. intros c' Hc'. rewrite Ec in Hc'. by injection Hc' as <-. }
  destruct HI as [H1 H2 H3 H4 H6 H5]. cbn zeta. set (c2 := setMachine (Close (machine c) cause) (setDetached c)).
  set (l' := setSrv _ _).
  assert (∀ i, objs l' !! i = if decide (i = id) then Some c2 else objs l !! i) as Hl.
  { intros i. subst l'. cbn. case_decide; [subst; by rewrite lookup_alter_eq, Ec|]. by rewrite lookup_alter_ne. }
  assert (conns l' = delete (fd c) (conns l) ∧ interest l' = delete (fd c) (interest l) ∧ pushed l' = pushed l) as (E1 & E2 & E3) by done.
  destruct H4 as [Hok H4]. assert (ls_ok (srv l') ∧ ∀ i, ls_known (srv l) i → ls_known (srv l') i) as [Hok' Hk] by by apply ok_teardown.
  split; rewrite ?E1, ?E2, ?E3.
  - intros d i Hd. destruct (decide (d = fd c)) as [->|Hne]; [by rewrite lookup_delete_eq in Hd|]. rewrite lookup_delete_ne in Hd by done.
    rewrite lookup_delete_ne by done. destruct (H1 d i Hd) as (Hn & c' & Hc' & Hf & ? & ? & Hs). split; [done|]. rewrite Hl.
    case_decide as Hi; [subst i; rewrite Ec in Hc'; by injection Hc' as <-|]. exists c'. split_and!; try done. intros _. apply Hs. congruence.
  - intros i c'. rewrite Hl. case_decide; [intros [= <-]; done|apply H2].
  - intros i c'. rewrite Hl. case_decide; [subst i; intros [= <-]; by apply (H3 id c)|apply H3].
  - split; [done|]. intros i. rewrite Hl. case_decide; [subst i; intros _; apply Hk, H4; by exists c|intros Hi; by apply Hk, H4].
  - intros i c'. rewrite Hl. case_decide; [subst i; intros [= <-]; by apply Close_output, (H6 id c)|apply H6].
  - intros d. destruct (decide (d = fd c)) as [->|Hne]; [rewrite lookup_delete_eq; by intros [? ?]|].
    rewrite !lookup_delete_ne by done. apply H5.
Qed.

(** ** Serving one connection *)

Lemma busy_output id l c : LoopInv (Some id) l → objs l !! id = Some c → OutputInv (machine c).
Proof. intros HI. apply HI. Qed.

(** The busy connection is in the table. *)
Definition Busy (id : nat) l : Prop := LoopInv (Some id) l ∧ ∃ c, objs l !! id = Some c ∧ conns l !! fd c = Some id.

(** The connection is still there, or it has been closed. *)
Definition Served (id : nat) (r : bool * eventLoop RS) : Prop := if r.1 then Busy id r.2 else LoopInv None r.2.

Lemma Busy_onConn id f l : keepsPlace f → keepsOutput id f l → Busy id l → Busy id (onConn id f l).
Proof.
  intros Hf Ho [HI (c & Hc & Hr)]. split; [by apply onConn_inv|]. exists (f c). rewrite lookup_onConn, decide_True, Hc by done.
  by destruct (Hf c) as (-> & _).
Qed.

Lemma Busy_closeConn id cause l : Busy id l → LoopInv None (closeConn id cause l).
Proof. intros [HI _]. by apply closeConn_inv. Qed.

Lemma Busy_sys id y l : Busy id l → Busy id (setPoller (interest l) y l).
Proof. intros [HI Hr]. by split; [apply sys_inv|]. Qed.

Lemma keeps_setMachine m : keepsPlace (setMachine m).
Proof. by intros c. Qed.
Lemma keeps_sendWire m sent : keepsPlace (λ c, sendWire sent (setMachine m c)).
Proof. by intros c. Qed.
Lemma keeps_setPeerClosed : keepsPlace setPeerClosed.
Proof. by intros c. Qed.

Lemma Busy_setPeerClosed id l : Busy id l → Busy id (onConn id setPeerClosed l).
Proof. intros HB. apply Busy_onConn; [apply keeps_setPeerClosed| |done]. intros c. apply (busy_output id l), HB. Qed.

Lemma flushOnce_served id l : Busy id l → Served id (flushOnce id l).
Proof.
  intros HB. pose proof HB as [_ (c & Hc & _)]. unfold flushOnce. rewrite Hc.
  pose proof (Flush_output (machine c) (hd [] (writes (sys l))) (busy_output id l c (proj1 HB) Hc)) as Hfo.
  destruct (Flush (machine c) _) as [[m sent] e]. cbn zeta.
  match goal with |- context [onConn id ?f ?l0] => assert (Busy id (onConn id f l0)) as HB2 by (apply Busy_onConn; [apply keeps_sendWire|by intros c' _|by apply Busy_sys]) end.
  destruct e as [e|]; [|exact HB2]. case_decide; [exact HB2|]. by apply Busy_closeConn.
Qed.

Lemma pollSet_conn id r w l c : Busy id l → objs l !! id = Some c →
  let '(ok, l') := pollSet (fd c) r w l in
  if ok then LoopInv (Some id) (onConn id (setWant r w) l') else Busy id l'.
Proof.
  intros HB Hc. unfold pollSet. cbn zeta. set (y := mkSystem _ _ _ _). destruct (hd true (polls (sys l))); [|by apply (Busy_sys id y)].
  destruct HB as [[H1 H2 H3 H4 H6 H5] (c' & Hc' & Hr)]. rewrite Hc in Hc'. injection Hc' as <-.
  set (l' := onConn id _ _).
  assert (∀ i, objs l' !! i = if decide (i = id) then Some (setWant r w c) else objs l !! i) as Hl.
  { intros i. subst l'. rewrite lookup_onConn. cbn. by rewrite Hc. }
  assert (conns l' = conns l ∧ interest l' = <[fd c := (r, w)]> (interest l) ∧ srv l' = srv l ∧ pushed l' = pushed l) as (E1 & E2 & E3 & E4) by done.
  split; rewrite ?E1, ?E2, ?E3, ?E4.
  - intros d i Hd. destruct (H1 d i Hd) as (Hn & c' & Hc' & Hf & Hdt & Hi & Hs). split; [done|]. rewrite Hl. case_decide.
    + subst i. rewrite Hc in Hc'. injection Hc' as <-. exists (setWant r w c). rewrite <- Hf, lookup_insert_eq. by split_and!.
    + exists c'. split_and!; try done. rewrite lookup_insert_ne; [done|]. intros <-. congruence.
  - intros i c'. rewrite Hl. case_decide; [subst i; intros [= <-]; by apply (H2 id c)|apply H2].
  - intros i c'. rewrite Hl. case_decide; [subst i; intros [= <-]; by apply (H3 id c)|apply H3].
  - split; [apply H4|]. intros i. rewrite Hl. case_decide; [subst i; intros _; apply H4; by exists c|apply H4].
  - intros i c'. rewrite Hl. case_decide; [subst i; intros [= <-]; by apply (H6 id c)|apply H6].
  - intros d. destruct (decide (d = fd c)) as [->|]; [intros _; right; by rewrite Hr|]. rewrite lookup_insert_ne by done. apply H5.
Qed.

Lemma setInterest_inv id r w l c : Busy id l → objs l !! id = Some c → connSettled (setWant r w c) → LoopInv None (setInterest id r w l).
Proof.
  intros HB Hc Hs. unfold setInterest. rewrite Hc. destruct (bool_decide (wantRead c = r) && bool_decide (wantWrite c = w)) eqn:E.
  - apply andb_true_iff in E as [Er Ew]. apply bool_decide_eq_true in Er. apply bool_decide_eq_true in Ew.
    apply (LoopInv_rest id); [apply HB|]. intros c' Hc' _. rewrite Hc in Hc'. injection Hc' as <-. subst r w. destruct c. exact Hs.
  - pose proof (pollSet_conn id r w l c HB Hc) as H. pose proof (eq_refl (pollSet (fd c) r w l)) as El.
    unfold pollSet at 2 in El. cbn zeta in El.
    destruct (pollSet (fd c) r w l) as [[|] l'] eqn:Ep; [|by apply Busy_closeConn].
    apply (LoopInv_rest id); [done|]. intros c' Hc' _. rewrite lookup_onConn, decide_True in Hc' by done.
    assert (objs l' = objs l) as Eo by (injection El as _ ->; done). rewrite Eo, Hc in Hc'. by injection Hc' as <-.
Qed.

Lemma finishConnEvent_inv id l : Busy id l → LoopInv None (finishConnEvent id l).
Proof.
  intros HB. pose proof HB as [_ (c & Hc & _)]. unfold finishConnEvent. rewrite Hc. case_decide; [by apply Busy_closeConn|].
  pose proof (flushOnce_served id l HB) as HF. destruct (flushOnce id l) as [[|] l']; cbn [Served fst snd negb] in *; [|done].
  pose proof HF as [_ (c' & Hc' & _)]. rewrite Hc'. cbn zeta. case_decide; [by apply Busy_closeConn|].
  case_match; [by apply Busy_closeConn|]. by apply (setInterest_inv id _ _ l' c').
Qed.

Lemma queuePush_objs id payload l i c : objs l !! i = Some c → ∃ c', objs (queuePush id payload l).2 !! i = Some c' ∧ fd c' = fd c ∧ conns (queuePush id payload l).2 = conns l.
Proof.
  intros Hc. unfold queuePush. destruct (objs l !! id) as [c0|] eqn:E0; [|by exists c]. destruct (detached c0); [by exists c|].
  case_match; cbn [snd].
  - unfold requestClose. rewrite E0. case_match; [by exists c|]. cbn. destruct (decide (i = id)) as [->|].
    + rewrite lookup_alter_eq, Hc. cbn. by eexists.
    + rewrite lookup_alter_ne by done. by eexists.
  - assert (∀ b, objs (if b : bool then onConn id (setPush (pushBuf c0 ++ payload) true) l else setQueues (pushed l ++ [id]) (closeReqs l) (resumeAccept l) (onConn id (setPush (pushBuf c0 ++ payload) true) l)) !! i
       = objs (onConn id (setPush (pushBuf c0 ++ payload) true) l) !! i) as Eb by by intros [].
    rewrite Eb, lookup_onConn. assert (∀ b, conns (if b : bool then onConn id (setPush (pushBuf c0 ++ payload) true) l else setQueues (pushed l ++ [id]) (closeReqs l) (resumeAccept l) (onConn id (setPush (pushBuf c0 ++ payload) true) l)) = conns l) as -> by by intros [].
    case_decide; [subst; rewrite Hc; by eexists|by eexists].
Qed.

Lemma Busy_queuePushes id pushes : ∀ l, Busy id l → Busy id (queuePushes pushes l).
Proof.
  induction pushes as [|p pushes IH]; intros l HB; [done|]. cbn. apply IH. destruct HB as [HI (c & Hc & Hr)].
  split; [by apply queuePush_inv|]. destruct (queuePush_objs p.1 p.2 l id c Hc) as (c' & Hc' & Hf & ->). exists c'. by rewrite Hf.
Qed.

Lemma processNext_busy id m l : OutputInv m → Busy id l → Busy id (processNext id m l).2.
Proof.
  intros Hm HB. unfold processNext.
  pose proof HB as [HI0 (c0 & Hc0 & _)]. destruct (li_known _ _ HI0) as [Hok Hknown].
  assert (ls_ok (ProcessNext ls_errorText (ls_run id) m (srv l)).1.2 ∧ ∀ i, ls_known (srv l) i → ls_known (ProcessNext ls_errorText (ls_run id) m (srv l)).1.2 i) as [Hok1 Hk].
  { unfold ProcessNext. case_decide; [done|]. destruct (pending m) as [|[v|e] rest]; [done| |].
    - pose proof (ok_run id (srv l) v Hok (Hknown id (mk_is_Some _ _ Hc0))) as Hr. destruct (ls_run id (srv l) v) as [s [rs|e]]; [|done]. cbn. by destruct (finishResponses _ _).
    - by destruct (finishResponses _ _). }
  pose proof (ProcessNext_output ls_errorText (ls_run id) m (srv l) Hm) as Hpo.
  destruct (ProcessNext ls_errorText (ls_run id) m (srv l)) as [[m' s] r]. pose proof (ok_pushes s Hok1) as [Hok2 Hp].
  destruct (ls_pushes s) as [pushes s']. cbn [fst snd] in *. apply Busy_queuePushes, Busy_onConn; [apply keeps_setMachine|by intros c _|].
  destruct HB as [HI Hr]. split; [|done]. apply srv_inv; [done| |done]. intros i Hi. by apply Hp, Hk.
Qed.

Lemma processLoop_served id fuel : ∀ l, Busy id l → Served id (processLoop fuel id l).
Proof.
  induction fuel as [|fuel IH]; intros l HB; cbn [processLoop]; [done|]. pose proof HB as [_ (c & Hc & _)]. rewrite Hc.
  case_decide; [done|]. cbn zeta.
  assert (∀ l c, Busy id l → objs l !! id = Some c → Served id (match processNext id (machine c) l with
    | (Err e, l) => (false, closeConn id (Some e) l) | (Ok true, l) => processLoop fuel id l | (Ok false, l) => (true, l) end)) as Hnext.
  { intros l1 c1 HB1 Hc1. pose proof (processNext_busy id (machine c1) l1 (busy_output _ _ _ (proj1 HB1) Hc1) HB1) as HB2.
    destruct (processNext id (machine c1) l1) as [[[|]|e] l2]; cbn [snd] in HB2; [by apply IH|done|by apply Busy_closeConn]. }
  case_match; [|rewrite ?Hc; by apply Hnext].
  pose proof (flushOnce_served id l HB) as HF. destruct (flushOnce id l) as [[|] l']; cbn [Served fst snd negb] in *; [|done].
  pose proof HF as [_ (c' & Hc' & _)]. rewrite Hc'. case_match; [done|]. by apply Hnext.
Qed.

Lemma processConn_inv id l : Busy id l → LoopInv None (processConn id l).
Proof.
  intros HB. unfold processConn. pose proof (processLoop_served id (S (pendingEvents id l)) l HB) as H.
  destruct (processLoop (S (pendingEvents id l)) id l) as [[|] l']; [by apply finishConnEvent_inv|done].
Qed.

Lemma readLoop_served id fuel : ∀ budget l, Busy id l → Served id (readLoop fuel budget id l).
Proof.
  induction fuel as [|fuel IH]; intros budget l HB; cbn [readLoop]; [done|]. case_match; [done|].
  unfold takeRead. cbn zeta. set (l1 := setPoller _ _ l). assert (Busy id l1) as HB1 by by apply Busy_sys.
  destruct (hd ReadAgain (reads (sys l))) as [data| | | |code].
  - case_match; [by apply Busy_setPeerClosed|]. pose proof HB1 as [_ (c & Hc & _)]. rewrite Hc.
    assert (OutputInv (if decide (state (machine c) = ConnStateActive) then Feed (machine c) (ztake eventLoopReadChunk data) else (machine c, None)).1) as Hfo.
    { pose proof (busy_output id l1 c (proj1 HB1) Hc). case_decide; [by apply Feed_output|done]. }
    destruct (if decide (state (machine c) = ConnStateActive) then _ else _) as [m e].
    assert (Busy id (onConn id (setMachine m) l1)) as HB2 by (apply Busy_onConn; [apply keeps_setMachine|by intros c' _|done]).
    destruct e; [by apply Busy_closeConn|]. case_match; [done|]. by apply IH.
  - by apply Busy_setPeerClosed.
  - done.
  - by apply IH.
  - by apply Busy_closeConn.
Qed.

Lemma connReadable_inv id l : Busy id l → LoopInv None (connReadable id l).
Proof.
  intros HB. pose proof HB as [_ (c & Hc & _)]. unfold connReadable. rewrite Hc. case_match; [|by apply processConn_inv].
  pose proof (readLoop_served id (S (length (reads (sys l)))) eventLoopReadBudget l HB) as HSv.
  destruct (readLoop _ _ id l) as [[|] l']; [by apply processConn_inv|done].
Qed.

(** ** Accepting *)

Lemma pollListen_inv busy r w l : LoopInv busy l → LoopInv busy (pollSet listenFD r w l).2.
Proof.
  intros HI. unfold pollSet. cbn zeta. cbn [snd]. destruct (hd true (polls (sys l))); [|by apply sys_inv].
  destruct HI as [H1 H2 H3 H4 H6 H5]. split; try done; cbn [setPoller conns objs interest].
  - intros d id Hd. destruct (H1 d id Hd) as (Hn & c & ? & ? & ? & ? & ?). split; [done|]. exists c. split_and!; try done. by rewrite lookup_insert_ne.
  - intros d. destruct (decide (d = listenFD)) as [->|]; [by left|]. rewrite lookup_insert_ne by done. apply H5.
Qed.

Lemma paused_inv busy b n l : LoopInv busy l → LoopInv busy (setPaused b n l).
Proof. intros [H1 H2 H3 H4 H6 H5]. by split. Qed.

Lemma pauseAccepting_inv l : LoopInv None l → LoopInv None (pauseAccepting listenFD l).
Proof.
  intros HI. unfold pauseAccepting. destruct (acceptPaused l); [done|]. pose proof (pollListen_inv None false false l HI) as HP.
  destruct (pollSet listenFD false false l) as [[|] l']; [by apply paused_inv|done].
Qed.

Lemma freshConn_settled d : connSettled (mkEventConn d NewConnMachine true false false [] false false false []).
Proof. by split_and!. Qed.

Lemma registerConn_inv d addr l : d ∉ ({[ listenFD ]} ∪ dom (conns l) : gset nat) → LoopInv None l → LoopInv None (registerConn d addr l).
Proof.
  intros Hd [H1 H2 H3 H4 H6 H5]. apply not_elem_of_union in Hd as [Hdl Hdc]. apply not_elem_of_singleton in Hdl. apply not_elem_of_dom in Hdc.
  unfold registerConn. destruct H4 as [Hok H4].
  destruct (ls_register addr (srv l)) as [id s] eqn:Er. destruct (ok_register _ _ _ _ Hok Er) as (Hok1 & Hnew & Hid & Hk). destruct (ok_teardown id s Hok1) as [Hok2 Hk2].
  assert (objs l !! id = None) as Hfresh. { destruct (objs l !! id) eqn:E; [|done]. exfalso. apply Hnew, H4. by exists e. }
  unfold pollAdd, pollSet. cbn zeta. destruct (hd true (polls (sys _))); unfold onConn, setConns, setPoller, setSrv, setObjs.
  - split; cbn [conns objs interest pushed srv].
    + intros d' i. destruct (decide (d' = d)) as [->|Hne].
      * rewrite !lookup_insert_eq. intros [= <-]. split; [done|]. eexists. rewrite lookup_insert_eq. split_and!; [done..|]. intros _. apply freshConn_settled.
      * rewrite !(lookup_insert_ne _ d) by done. intros Hd. destruct (H1 d' i Hd) as (Hn & c & Hc & ?). split; [done|]. exists c.
        rewrite lookup_insert_ne by congruence. done.
    + intros i c. destruct (decide (i = id)) as [->|]; [rewrite lookup_insert_eq; by intros [= <-]|rewrite lookup_insert_ne by done; apply H2].
    + intros i c. destruct (decide (i = id)) as [->|]; [rewrite lookup_insert_eq; by intros [= <-]|rewrite lookup_insert_ne by done; apply H3].
    + split; [done|]. intros i. destruct (decide (i = id)) as [->|]; [done|]. rewrite lookup_insert_ne by done. intros Hi. by apply Hk, H4.
    + intros i c. destruct (decide (i = id)) as [->|]; [rewrite lookup_insert_eq; by intros [= <-]|rewrite lookup_insert_ne by done; apply H6].
    + intros d'. destruct (decide (d' = d)) as [->|]; [rewrite !lookup_insert_eq; by right|]. rewrite !lookup_insert_ne by done. apply H5.
  - split; cbn [conns objs interest pushed srv].
    + intros d' i Hd. destruct (H1 d' i Hd) as (Hn & c & Hc & ?). split; [done|]. exists c.
      assert (i ≠ id) by congruence. rewrite lookup_alter_ne, lookup_insert_ne by done. done.
    + intros i c. destruct (decide (i = id)) as [->|]; [rewrite lookup_alter_eq, lookup_insert_eq; by intros [= <-]|rewrite lookup_alter_ne, lookup_insert_ne by done; apply H2].
    + intros i c. destruct (decide (i = id)) as [->|]; [rewrite lookup_alter_eq, lookup_insert_eq; by intros [= <-]|rewrite lookup_alter_ne, lookup_insert_ne by done; apply H3].
    + split; [done|]. intros i. destruct (decide (i = id)) as [->|]; [intros _; by apply Hk2|]. rewrite lookup_alter_ne, lookup_insert_ne by done. intros Hi. by apply Hk2, Hk, H4.
    + intros i c. destruct (decide (i = id)) as [->|]; [rewrite lookup_alter_eq, lookup_insert_eq; intros [= <-]; by apply Close_output|rewrite lookup_alter_ne, lookup_insert_ne by done; apply H6].
    + done.
Qed.

Lemma acceptLoop_inv fuel : ∀ l, LoopInv None l → LoopInv None (acceptLoop listenFD fuel l).2.
Proof.
  induction fuel as [|fuel IH]; intros l HI; cbn [acceptLoop]; [done|]. unfold takeAccept. cbn zeta.
  set (l1 := setPoller _ _ l). assert (LoopInv None l1) as HI1 by by apply sys_inv.
  destruct (hd AcceptAgain (accepts (sys l))) as [addr nb| | | |code]; [|done|by apply IH|by apply pauseAccepting_inv|done].
  case_match; [by apply IH|]. case_match; [by apply IH|]. apply IH. apply registerConn_inv; [apply freshFd_new|done].
Qed.

(** ** Turns *)

(** Taking the pushes off the objects: the list is emptied afterwards. *)
Definition TakenInv (rest : list nat) l : Prop :=
  LoopInv None l ∧ ∀ id c, objs l !! id = Some c → pushQueued c = true → id ∈ rest.

Lemma setPush_inv id buf queued l c : LoopInv None l → objs l !! id = Some c → (buf = [] ∨ buf = pushBuf c ∧ (detached c = true ∨ buf = [])) → queued = false →
  LoopInv None (onConn id (setPush buf queued) l).
Proof.
  intros [H1 H2 H3 H4 H6 H5] Hc Hb ->. assert (∀ i, objs (onConn id (setPush buf false) l) !! i = if decide (i = id) then Some (setPush buf false c) else objs l !! i) as Hl.
  { intros i. rewrite lookup_onConn, Hc. done. }
  split; cbn [conns interest srv pushed onConn setObjs] in *; [| | | | |done].
  - intros d i Hd. destruct (H1 d i Hd) as (Hn & c' & Hc' & Hrest). split; [done|]. rewrite Hl. case_decide; [subst i|by exists c'].
    rewrite Hc in Hc'. injection Hc' as <-. by exists (setPush buf false c).
  - intros i c'. rewrite Hl. case_decide; [subst i; intros [= <-]; cbn; intros Hne|by apply H2].
    destruct Hb as [->|[-> [Hd|Hz]]]; [done| |done]. destruct (H2 id c Hc Hne) as (? & _). congruence.
  - intros i c'. rewrite Hl. case_decide; [by intros [= <-]|by apply H3].
  - split; [apply H4|]. intros i. rewrite Hl. case_decide; [subst i; intros _; apply H4; by exists c|apply H4].
  - intros i c'. rewrite Hl. case_decide; [subst i; intros [= <-]; by apply (H6 id c)|apply H6].
Qed.

Lemma takePush_inv work l id rest : TakenInv (id :: rest) l → TakenInv rest (takePush (work, l) id).2.
Proof.
  intros [HI Hq]. unfold takePush. destruct (objs l !! id) as [c|] eqn:Ec.
  2: { split; [done|]. intros i c Hc Hp. pose proof (Hq i c Hc Hp) as [->|?]%elem_of_cons; [cbn in Hc; congruence|done]. }
  assert (∀ buf, TakenInv rest (onConn id (setPush buf false) l) ↔ LoopInv None (onConn id (setPush buf false) l)) as Hiff.
  { intros buf. split; [by intros []|]. intros HI'. split; [done|]. intros i c'. rewrite lookup_onConn. case_decide; [subst; rewrite Ec; cbn; by intros [= <-]|].
    intros Hc' Hp. by pose proof (Hq i c' Hc' Hp) as [->|?]%elem_of_cons. }
  destruct (detached c) eqn:Ed; cbn [orb snd]; [apply Hiff; apply (setPush_inv _ _ _ _ c); auto|].
  destruct (zlen (pushBuf c) =? 0) eqn:Ez; cbn [snd]; [|apply Hiff; apply (setPush_inv _ _ _ _ c); auto].
  apply Z.eqb_eq in Ez. assert (pushBuf c = []) as Hz by (destruct (pushBuf c); [done|unfold zlen in Ez; cbn in Ez; lia]).
  apply Hiff. apply (setPush_inv _ _ _ _ c); auto.
Qed.

Lemma takePushes_inv ids : ∀ work l, TakenInv ids l → TakenInv [] (foldl takePush (work, l) ids).2.
Proof.
  induction ids as [|id ids IH]; intros work l HT; [done|]. cbn [foldl]. apply (takePush_inv work) in HT.
  destruct (takePush (work, l) id) as [work' l']. by apply IH.
Qed.

Lemma emptied_inv l c r : TakenInv [] l → LoopInv None (setQueues [] c r l).
Proof.
  intros [[H1 H2 H3 H4 H6 H5] Hq]. split; cbn [conns objs interest srv pushed setQueues]; [done| |done|done|done|done].
  intros id c' Hc Hb. destruct (H2 id c' Hc Hb) as (? & Hp & _). by specialize (Hq id c' Hc Hp).
Qed.

Lemma isRegistered_busy id l : LoopInv None l → isRegistered id l = true → Busy id l.
Proof.
  intros HI Hr. unfold isRegistered in Hr. split; [by apply LoopInv_busy|]. destruct (objs l !! id) as [c|]; [|done].
  exists c. by apply bool_decide_eq_true in Hr.
Qed.

Lemma applyPush_inv l work : LoopInv None l → LoopInv None (applyPush l work).
Proof.
  intros HI. unfold applyPush. destruct work as [id data]. destruct (isRegistered id l) eqn:Er; [|done]. cbn [negb].
  apply isRegistered_busy in Er; [|done]. pose proof Er as [_ (c & Hc & _)]. rewrite Hc.
  pose proof (BufferEncoded_output (machine c) data (li_output _ _ HI id c Hc)) as Hbo.
  destruct (BufferEncoded (machine c) data) as [m e]. assert (Busy id (onConn id (setMachine m) l)) as HB by (apply Busy_onConn; [apply keeps_setMachine|by intros c' _|done]).
  destruct e; [by apply Busy_closeConn|by apply finishConnEvent_inv].
Qed.

Lemma fold_inv {A} (f : eventLoop RS → A → eventLoop RS) (xs : list A) : (∀ l x, LoopInv None l → LoopInv None (f l x)) →
  ∀ l, LoopInv None l → LoopInv None (foldl f l xs).
Proof. intros Hf. induction xs as [|x xs IH]; intros l HI; [done|]. cbn. by apply IH, Hf. Qed.

Lemma applyQueuedWork_inv l : LoopInv None l → LoopInv None (applyQueuedWork listenFD l).
Proof.
  intros HI. unfold applyQueuedWork. assert (TakenInv (pushed l) l) as HT. { split; [done|]. apply (li_queued _ _ HI). }
  pose proof (takePushes_inv (pushed l) [] l HT) as HT'. destruct (foldl takePush ([], l) (pushed l)) as [work l1]. cbn [snd] in HT'. cbn zeta.
  set (l2 := foldl applyPush _ _). assert (LoopInv None l2) as HI2.
  { apply fold_inv; [intros; by apply applyPush_inv|]. by apply emptied_inv. }
  set (l3 := foldl _ _ (closeReqs l1)). assert (LoopInv None l3) as HI3.
  { apply fold_inv; [|done]. intros l0 id HI0. destruct (isRegistered id l0) eqn:Er; [|done]. by apply Busy_closeConn, isRegistered_busy. }
  case_match; [|done]. pose proof (pollListen_inv None true false l3 HI3) as HP. destruct (pollSet listenFD true false l3) as [[|] l4]; [by apply paused_inv|done].
Qed.

Lemma conns_busy d id l : LoopInv None l → conns l !! d = Some id → Busy id l.
Proof. intros HI Hd. split; [by apply LoopInv_busy|]. destruct (li_conn _ _ HI d id Hd) as (_ & c & Hc & Hf & _). exists c. by rewrite Hf. Qed.

Lemma handleEvent_inv st e : LoopInv None st.2 → LoopInv None (handleEvent listenFD st e).2.
Proof.
  destruct st as [[err|] l]; cbn [handleEvent snd]; [done|]. intros HI. case_decide.
  { case_match; [|done]. unfold acceptReady. by apply acceptLoop_inv. }
  destruct (conns l !! evFd e) as [id|] eqn:Ed; [|done]. cbn zeta. cbn [snd].
  set (l1 := if readable e then connReadable id l else l). assert (LoopInv None l1) as HI1.
  { subst l1. destruct (readable e); [|done]. by apply connReadable_inv, (conns_busy (evFd e)). }
  destruct (writable e && bool_decide (conns l1 !! evFd e = Some id)) eqn:E; [|done].
  apply andb_true_iff in E as [_ E]. apply bool_decide_eq_true in E. by apply processConn_inv, (conns_busy (evFd e)).
Qed.

Lemma turn_inv events l : LoopInv None l → LoopInv None (turn listenFD events l).2.
Proof.
  intros HI. unfold turn. assert (LoopInv None (@None connError, applyQueuedWork listenFD l).2) as HI0 by by apply applyQueuedWork_inv.
  revert HI0. generalize (@None connError, applyQueuedWork listenFD l). induction events as [|e events IH]; intros st HI0; [done|].
  cbn [foldl]. by apply IH, handleEvent_inv.
Qed.

(** ** Runs *)

(** What may happen: a turn, a push or a close request from elsewhere, the timer,
    and work of the server outside the loop. *)
Inductive loopStep : eventLoop RS → eventLoop RS → Prop :=
  | StepTurn events l : loopStep l (turn listenFD events l).2
  | StepPush id payload l : loopStep l (queuePush id payload l).2
  | StepRequestClose id l : loopStep l (requestClose id l)
  | StepTimer l : loopStep l (resumeTimerFires l)
  | StepSystem y l : loopStep l (setPoller (interest l) y l)
  | StepServer s l : ls_ok s → (∀ i, ls_known (srv l) i → ls_known s i) → loopStep l (setSrv s l).

Inductive loopReachable (l0 : eventLoop RS) : eventLoop RS → Prop :=
  | LoopStart : loopReachable l0 l0
  | LoopStep l l' : loopReachable l0 l → loopStep l l' → loopReachable l0 l'.

Lemma loopStep_inv l l' : loopStep l l' → LoopInv None l → LoopInv None l'.
Proof.
  destruct 1; intros HI; [by apply turn_inv|by apply queuePush_inv|by apply requestClose_inv| |by apply sys_inv|by apply srv_inv].
  unfold resumeTimerFires. destruct (resumeTimers l); [done|]. destruct HI as [H1 H2 H3 H4 H6 H5]. by split.
Qed.

Lemma loopReachable_inv l0 l : LoopInv None l0 → loopReachable l0 l → LoopInv None l.
Proof. intros H0. induction 1 as [|l l' _ IH Hs]; [done|]. by eapply loopStep_inv. Qed.

(** The loop [serveEventLoop] starts with. *)
Definition initialLoop (s : RS) (y : system) : eventLoop RS := mkLoop ∅ ∅ [] [] false false 0 {[ listenFD := (true, false) ]} s y.

Lemma initialLoop_inv s y : ls_ok s → LoopInv None (initialLoop s y).
Proof.
  intros Hok. split; unfold initialLoop; cbn [objs conns interest pushed srv]; [| | |split; [done|]| |]; intros *; rewrite ?lookup_empty; try done.
  intros [x Hx]. apply lookup_singleton_Some in Hx as [<- _]. by left.
Qed.
End Facts.
