(* ===== verification/EventLoopTheorems.v ===== *)
(** * What the event loop guarantees

    The poller is always asked for what each connection waits for, and one
    writable event whose writes succeed delivers all that was pending.  A
    pipeline that outruns a slow reader can be left waiting for an event that
    never comes. *)

From S2P Require Import Prelude Strconv Resp RespDecode ConnMachine ConnMachineFacts EventLoop EventLoopFacts.

(** ** Output is never lost *)

Lemma bufferResponses_grows m values m' :
  OutputInv m → bufferResponses m values = (m', None) → pendingOutput m `prefix_of` pendingOutput m'.
Proof.
  intros Ho. unfold bufferResponses. destruct values as [|v vs]; [by intros [= <-]|].
  destruct (compactWriteBuf_spec m Ho) as (Hco & Hcp & _). set (c := compactWriteBuf m) in *. clearbody c. cbn zeta.
  destruct (AppendValues (writeBuf c) (v :: vs)) as [b [e|]] eqn:E; [done|]. case_match; [done|]. intros [= <-].
  apply appendValuesFrom_ok in E as ->. rewrite <- Hcp. unfold OutputInv in Hco. unfold pendingOutput at 2. cbn [withOutput writeBuf writeOff].
  rewrite zdrop_app_le by lia. by apply prefix_app_r.
Qed.

(** A request either fails or leaves the machine open with its output extended. *)
Lemma ProcessNext_grows {RS} txt (run : RS → Value → RS * result connError (list Value)) m rs m' rs' b :
  state m ≠ ConnStateClosed → OutputInv m → ProcessNext txt run m rs = (m', rs', Ok b) →
  state m' = state m ∧ pendingOutput m `prefix_of` pendingOutput m'.
Proof.
  intros Hs Ho. unfold ProcessNext. rewrite decide_False by done. destruct (pending m) as [|ev rest]; [by intros [= <- _ _]|].
  assert (∀ values, finishResponses (popPending m rest) values = (m', Ok b) → state m' = state m ∧ pendingOutput m `prefix_of` pendingOutput m') as Hf.
  { intros values. unfold finishResponses. destruct (bufferResponses (popPending m rest) values) as [m1 [e|]] eqn:E; [done|]. intros [= <- _].
    split; [by apply bufferResponses_shape in E as (? & ? & ->)|]. apply bufferResponses_grows in E; [done|exact Ho]. }
  destruct ev as [v|e].
  - destruct (run rs v) as [rs1 [vs|e]]; [|done]. destruct (finishResponses (popPending m rest) vs) as [m1 r] eqn:E. intros [= -> _ ->]. by apply (Hf vs).
  - destruct (finishResponses (popPending m rest) _) as [m1 r] eqn:E. intros [= -> _ ->]. by eapply Hf.
Qed.

(** A flush to a socket that takes everything. *)
Lemma Flush_all m : state m ≠ ConnStateClosed → OutputInv m →
  ∃ m', Flush m (fdWrite [] 0) = (m', pendingOutput m, None) ∧ pendingOutput m' = [] ∧ pending m' = pending m.
Proof.
  intros Hs Ho. unfold OutputInv in Ho. unfold Flush. rewrite decide_False by done. unfold flushWrite, pendingOutput.
  destruct (writeOff m <? zlen (writeBuf m)) eqn:E; bool_to_prop.
  - cbn zeta. set (chunk := zdrop (writeOff m) (writeBuf m)). assert (zlen chunk = zlen (writeBuf m) - writeOff m) as Hl by by apply zlen_zdrop.
    assert (fdWrite [] 0 chunk = (zlen chunk, None)) as ->.
    { cbn [fdWrite]. destruct (Nat.leb_spec (length chunk) 0) as [Hz|]; [|done]. f_equal. unfold zlen. lia. }
    rewrite (proj2 (Z.leb_le _ _)) by lia. assert (ztake (zlen chunk) chunk = chunk) as -> by (unfold ztake, zlen; apply take_ge; lia).
    case_match eqn:Em; eexists; (split; [done|]); [|done]. unfold Close. rewrite decide_False by done. bool_to_prop. done.
  - assert (zdrop (writeOff m) (writeBuf m) = []) as Hz by (unfold zdrop; apply drop_ge; unfold zlen in *; lia). rewrite Hz.
    case_match eqn:Em; eexists; (split; [done|]); [|done]. unfold Close. rewrite decide_False by done. bool_to_prop. done.
Qed.

Section Delivery.
Context {RS : Type} {LS : LoopServer RS} {LL : LoopServerLaws RS} {K : Kernel} (listenFD : nat).
Implicit Type l : eventLoop RS.

(** Everything the connection has been given to send, sent or not. *)
Definition outStream (c : eventConn) : bytes := onWire c ++ pendingOutput (machine c).

(** The connection is being served, the socket takes everything, and [out] is
    part of what has been or will be sent. *)
Definition Holds (id : nat) (out : bytes) l : Prop :=
  Busy listenFD id l ∧ writes (sys l) = [] ∧ ∃ c, objs l !! id = Some c ∧ out `prefix_of` outStream c ∧ state (machine c) ≠ ConnStateClosed.
Definition Sent (id : nat) (out : bytes) l : Prop := ∃ c, objs l !! id = Some c ∧ out `prefix_of` onWire c.
Definition Dropped (id : nat) l : Prop := ∃ c, objs l !! id = Some c ∧ detached c = true.

Lemma closeConn_wire id cause l i out : Sent i out l → Sent i out (closeConn id cause l).
Proof.
  intros (c & Hc & Ho). unfold closeConn. destruct (objs l !! id) as [c0|]; [|by exists c]. case_decide; [|by exists c]. cbn zeta.
  unfold Sent. cbn. destruct (decide (i = id)) as [->|]; [rewrite lookup_alter_eq, Hc|rewrite lookup_alter_ne by done; by exists c]. cbn. by eexists.
Qed.

Lemma closeConn_drops id cause l : Busy listenFD id l → Dropped id (closeConn id cause l).
Proof.
  intros [_ (c & Hc & Hr)]. unfold closeConn. rewrite Hc, decide_True by done. unfold Dropped. cbn. rewrite lookup_alter_eq, Hc. cbn. by eexists.
Qed.

(** With such a socket a flush puts everything on the wire. *)
Lemma flushOnce_all id out l : Holds id out l → ∃ l' c, flushOnce id l = (true, l') ∧ Busy listenFD id l' ∧ writes (sys l') = []
  ∧ objs l' !! id = Some c ∧ out `prefix_of` onWire c ∧ pendingOutput (machine c) = [] ∧ pendingEvents id l' = pendingEvents id l.
Proof.
  intros (HB & Hw & c & Hc & Hp & Hs). pose proof (flushOnce_served listenFD id l HB) as HS. revert HS. unfold flushOnce. rewrite Hc, Hw. cbn [hd].
  destruct (Flush_all (machine c) Hs (busy_output listenFD id l c (proj1 HB) Hc)) as (m & -> & Hm & Hpe). cbn zeta. intros HS. cbn [Served fst snd] in HS.
  do 2 eexists. split; [done|]. split; [exact HS|]. split; [cbn; by destruct (HasPendingOutput _)|].
  split; [cbn; by rewrite lookup_alter_eq, Hc|]. split; [exact Hp|]. split; [exact Hm|].
  unfold pendingEvents. cbn. rewrite lookup_alter_eq, Hc. cbn. by rewrite Hpe.
Qed.

Lemma queuePush_view id payload l i c : objs l !! i = Some c → ∃ c', objs (queuePush id payload l).2 !! i = Some c' ∧ machine c' = machine c ∧ onWire c' = onWire c ∧ sys (queuePush id payload l).2 = sys l.
Proof.
  intros Hc. unfold queuePush. destruct (objs l !! id) as [c0|] eqn:E0; [|by exists c]. destruct (detached c0); [by exists c|]. case_match; cbn [snd].
  - unfold requestClose. rewrite E0. case_match; [by exists c|]. cbn. destruct (decide (i = id)) as [->|]; [rewrite lookup_alter_eq, Hc|rewrite lookup_alter_ne by done]; by eexists.
  - destruct (pushQueued c0); cbn; (destruct (decide (i = id)) as [->|]; [rewrite lookup_alter_eq, Hc|rewrite lookup_alter_ne by done]; by eexists).
Qed.

Lemma queuePushes_view pushes i : ∀ l c, objs l !! i = Some c →
  ∃ c', objs (queuePushes pushes l) !! i = Some c' ∧ machine c' = machine c ∧ onWire c' = onWire c ∧ sys (queuePushes pushes l) = sys l.
Proof.
  induction pushes as [|p pushes IH]; intros l c Hc; [by exists c|]. cbn.
  destruct (queuePush_view p.1 p.2 l i c Hc) as (c1 & Hc1 & Hm1 & Ho1 & Hy1). destruct (IH _ _ Hc1) as (c2 & Hc2 & Hm2 & Ho2 & Hy2).
  exists c2. split_and!; [exact Hc2|congruence|congruence|]. etrans; [exact Hy2|exact Hy1].
Qed.

Lemma processNext_holds id out l c : Holds id out l → objs l !! id = Some c →
  match processNext id (machine c) l with
  | (Ok _, l') => Holds id out l'
  | (Err _, l') => Busy listenFD id l'
  end.
Proof.
  intros (HB & Hw & c0 & Hc0 & Hp & Hs) Hc. assert (c0 = c) as -> by congruence. pose proof (busy_output listenFD id l c (proj1 HB) Hc) as Ho.
  pose proof (processNext_busy listenFD id (machine c) l Ho HB) as HB'. revert HB'. unfold processNext.
  destruct (ProcessNext ls_errorText (ls_run id) (machine c) (srv l)) as [[m s] r] eqn:E. destruct (ls_pushes s) as [pushes s1]. cbn [snd]. intros HB'.
  destruct r as [b|e]; [|done]. destruct (ProcessNext_grows _ _ _ _ _ _ _ Hs Ho E) as [Hst Hg].
  destruct (queuePushes_view pushes id (onConn id (setMachine m) (setSrv s1 l)) (setMachine m c)) as (c2 & Hc2 & Hm2 & Ho2 & Hy2).
  { cbn. by rewrite lookup_alter_eq, Hc. }
  split; [done|]. split; [by rewrite Hy2|]. exists c2. split; [done|]. unfold outStream. rewrite Hm2, Ho2. cbn [setMachine machine onWire].
  split; [|by rewrite Hst]. transitivity (outStream c); [done|]. unfold outStream. by apply prefix_app.
Qed.

(** Nothing to execute. *)
Lemma processNext_idle id l c : objs l !! id = Some c → state (machine c) ≠ ConnStateClosed → pendingEvents id l = 0%nat →
  (processNext id (machine c) l).1 = Ok false.
Proof.
  intros Hc Hs. unfold pendingEvents. rewrite Hc. intros Hp%nil_length_inv. unfold processNext, ProcessNext.
  rewrite decide_False, Hp by done. by destruct (ls_pushes (srv l)).
Qed.

(** The rounds of [processConn] that go well, and one that does not: executing a
    queued request, or taking its reply into the output buffer, ends in an error. *)
Inductive rounds (id : nat) : eventLoop RS → eventLoop RS → Prop :=
  | RoundsEnd l : rounds id l l
  | RoundsNext l c l1 l2 : objs l !! id = Some c → processNext id (machine c) l = (Ok true, l1) → rounds id l1 l2 → rounds id l l2
  | RoundsFlush l l1 l2 : flushOnce id l = (true, l1) → rounds id l1 l2 → rounds id l l2.
Definition RequestFails (id : nat) l : Prop := ∃ l1 c e l2, rounds id l l1 ∧ objs l1 !! id = Some c ∧ pending (machine c) ≠ []
  ∧ processNext id (machine c) l1 = (Err e, l2).

(** How the requests of a connection end: it is still there with [out] to be
    sent or sent, or it was closed, over a failed request unless [out] is sent. *)
Definition Delivered (id : nat) (out : bytes) (l0 : eventLoop RS) (r : bool * eventLoop RS) : Prop :=
  if r.1 then Holds id out r.2 ∨ (Busy listenFD id r.2 ∧ Sent id out r.2)
  else Sent id out r.2 ∨ (pendingEvents id l0 ≠ 0%nat ∧ RequestFails id l0 ∧ Dropped id r.2).

Lemma RequestFails_next id l c l1 : objs l !! id = Some c → processNext id (machine c) l = (Ok true, l1) → RequestFails id l1 → RequestFails id l.
Proof. intros Hc Hn (l2 & c2 & e & l3 & Hr & H). exists l2, c2, e, l3. split; [by eapply RoundsNext|done]. Qed.
Lemma RequestFails_flush id l l1 : flushOnce id l = (true, l1) → RequestFails id l1 → RequestFails id l.
Proof. intros Hn (l2 & c2 & e & l3 & Hr & H). exists l2, c2, e, l3. split; [by eapply RoundsFlush|done]. Qed.

Lemma processNext_closed id out l c : objs l !! id = Some c → out `prefix_of` onWire c → state (machine c) = ConnStateClosed →
  ∃ e l', processNext id (machine c) l = (Err e, l') ∧ Sent id out l'.
Proof.
  intros Hc Hp Hs. unfold processNext, ProcessNext. rewrite decide_True by done. destruct (ls_pushes (srv l)) as [pushes s1].
  do 2 eexists. split; [done|]. destruct (queuePushes_view pushes id (onConn id (setMachine (machine c)) (setSrv s1 l)) c) as (c2 & Hc2 & _ & Ho2 & _).
  { cbn. rewrite lookup_alter_eq, Hc. cbn. by destruct c. }
  exists c2. split; [done|]. by rewrite Ho2.
Qed.

Lemma processLoop_delivers id out fuel : ∀ l, Holds id out l → Delivered id out l (processLoop fuel id l).
Proof.
  induction fuel as [|fuel IH]; intros l HH; cbn [processLoop]; [by left|]. pose proof HH as (HB & Hw & c & Hc & Hp & Hs).
  rewrite Hc, decide_False by done. cbn zeta.
  assert (∀ l c, Holds id out l → objs l !! id = Some c → Delivered id out l (match processNext id (machine c) l with
      | (Err e, l) => (false, closeConn id (Some e) l) | (Ok true, l) => processLoop fuel id l | (Ok false, l) => (true, l) end)) as Hnext.
  { intros l1 c1 HH1 Hc1. pose proof (processNext_holds id out l1 c1 HH1 Hc1) as HN. destruct HH1 as (HB1 & _ & c0 & Hc0 & _ & Hs1).
    assert (c0 = c1) as -> by congruence. pose proof (processNext_idle id l1 c1 Hc1 Hs1) as Hidle.
    destruct (processNext id (machine c1) l1) as [[[|]|e] l2] eqn:En; cbn [fst] in Hidle; [|by left|right; split_and!; [naive_solver| |by apply closeConn_drops]].
    - specialize (IH l2 HN). unfold Delivered in *. destruct (processLoop fuel id l2) as [[|] l3]; [done|]. cbn [fst snd] in *.
      destruct IH as [IH|(_ & IH1 & IH2)]; [by left|right]. split_and!; [naive_solver|by eapply RequestFails_next|done].
    - exists l1, c1, e, l2. split_and!; [constructor|done| |done]. intros Hp0. unfold pendingEvents in Hidle. rewrite Hc1, Hp0 in Hidle. by specialize (Hidle eq_refl). }
  destruct (eventLoopOutputHighWater <? PendingOutputBytes (machine c)); [|by apply Hnext].
  destruct (flushOnce_all id out l HH) as (l1 & c1 & Ef & HB1 & Hw1 & Hc1 & Hp1 & He1 & Hn1). rewrite Ef. cbn [negb]. rewrite Hc1.
  destruct (eventLoopOutputHighWater <? PendingOutputBytes (machine c1)); [right; split; [done|by exists c1]|].
  destruct (decide (state (machine c1) = ConnStateClosed)) as [Hcl|Hcl].
  - destruct (processNext_closed id out l1 c1 Hc1 Hp1 Hcl) as (e & l2 & -> & HSt). left. by apply closeConn_wire.
  - assert (Holds id out l1) as HH1 by (split; [done|]; split; [done|]; exists c1; split; [done|]; split; [unfold outStream; by apply prefix_app_r|done]).
    specialize (Hnext l1 c1 HH1 Hc1). unfold Delivered in *. destruct (match processNext id (machine c1) l1 with (Ok true, l2) => _ | _ => _ end) as [[|] l3]; [done|].
    destruct Hnext as [Hnext|(Hn2 & Hn3 & Hn4)]; [by left|right]. split_and!; [congruence|by eapply RequestFails_flush|done].
Qed.

Lemma setInterest_wire id r w l out : Sent id out l → Sent id out (setInterest id r w l).
Proof.
  intros HS. unfold setInterest. destruct (objs l !! id) as [c|] eqn:Hc; [|done]. case_match; [done|]. unfold pollSet. cbn zeta.
  destruct (hd true (polls (sys l))); [|by apply closeConn_wire]. destruct HS as (c' & Hc' & Ho). assert (c' = c) as -> by congruence.
  exists (setWant r w c). split; [|done]. cbn. by rewrite lookup_alter_eq, Hc.
Qed.

Lemma flushOnce_wire id l out : Sent id out l → Sent id out (flushOnce id l).2.
Proof.
  intros (c & Hc & Ho). unfold flushOnce. rewrite Hc. destruct (Flush (machine c) _) as [[m sent] e]. cbn zeta.
  match goal with |- context [onConn id ?f ?l0] => assert (Sent id out (onConn id f l0)) as HS end.
  { exists (sendWire sent (setMachine m c)). split; [cbn; by rewrite lookup_alter_eq, Hc|]. cbn. by apply prefix_app_r. }
  destruct e as [e|]; [|done]. case_decide; [done|]. by apply closeConn_wire.
Qed.

Lemma finishConnEvent_wire id l out : Sent id out l → Sent id out (finishConnEvent id l).
Proof.
  intros HS. unfold finishConnEvent. destruct (objs l !! id) as [c|] eqn:Hc; [|done]. case_decide; [by apply closeConn_wire|].
  apply flushOnce_wire in HS. destruct (flushOnce id l) as [[|] l']; [|done]. cbn [snd negb] in *. destruct (objs l' !! id) as [c'|]; [|done]. cbn zeta.
  case_decide; [by apply closeConn_wire|]. case_match; [by apply closeConn_wire|by apply setInterest_wire].
Qed.

Lemma finishConnEvent_delivers id l out : Holds id out l → Sent id out (finishConnEvent id l).
Proof.
  intros HH. pose proof HH as (_ & _ & c & Hc & _ & Hs). destruct (flushOnce_all id out l HH) as (l1 & c1 & E & _ & _ & Hc1 & Hp1 & _).
  unfold finishConnEvent. rewrite Hc, decide_False, E by done. cbn [negb]. rewrite Hc1. cbn zeta. assert (Sent id out l1) by by exists c1.
  case_decide; [by apply closeConn_wire|]. case_match; [by apply closeConn_wire|by apply setInterest_wire].
Qed.

Lemma processConn_delivers id l out : Holds id out l → Sent id out (processConn id l) ∨ (pendingEvents id l ≠ 0%nat ∧ RequestFails id l ∧ Dropped id (processConn id l)).
Proof.
  intros HH. unfold processConn. pose proof (processLoop_delivers id out (S (pendingEvents id l)) l HH) as HD. unfold Delivered in HD.
  destruct (processLoop (S (pendingEvents id l)) id l) as [[|] l']; cbn [fst snd] in HD; [left|exact HD].
  destruct HD as [HD|[_ HD]]; [by apply finishConnEvent_delivers|by apply finishConnEvent_wire].
Qed.
End Delivery.

(** ** A small server, for the witnesses: it answers a request with itself *)

#[global] Instance demoKernel : Kernel := {| freshFd := fresh; freshFd_new := is_fresh |}.

#[global] Instance echoServer : LoopServer nat := {|
  ls_register _ n := (n, S n);
  ls_teardown _ n := n;
  ls_overLimit _ := false;
  ls_run _ n v := (n, Ok [v]);
  ls_pushes n := ([], n);
  ls_errorText _ := bs "error" |}.

#[global] Instance echoServer_laws : LoopServerLaws nat.
Proof.
  refine {| ls_ok _ := True; ls_known n i := (i < n)%nat |}; [|intros; by split..]. intros addr s id s' _ [= <- <-]. split_and!; [done|lia..].
Defined.

(** A client connects, and its request is answered while the socket is full. *)
Definition connected : eventLoop nat :=
  (turn 3 [mkPollEvent 3 true false] (initialLoop 3 0%nat (mkSystem [] [] [Accepted (bs "client") true] []))).2.
Definition backedUp : eventLoop nat :=
  (turn 3 [mkPollEvent 4 true false] (setPoller (interest connected) (mkSystem [ReadData (wireBytes (SimpleString (bs "PING")))] [[Wrote 3; WriteAgain]] [] []) connected)).2.

Lemma backedUp_reachable : loopReachable 3 (initialLoop 3 0%nat (mkSystem [] [] [Accepted (bs "client") true] [])) backedUp.
Proof.
  unfold backedUp. eapply LoopStep; [|by apply StepTurn]. eapply LoopStep; [|by apply StepSystem].
  unfold connected. eapply LoopStep; [|by apply StepTurn]. apply LoopStart.
Qed.

(** C8: between turns, and however turns interleave with pushes, close requests
    and timers of other goroutines, every connection in the loop's table is
    registered with the poller for writes exactly while it has output to send, and
    for reads until its peer has closed or its output passes the high-water mark;
    a connection with queued pushes is on the list the next turn drains; and the
    poller watches no descriptor but the listener's and those of live
    connections. *)
Theorem event_loop_no_lost_wakeup (RS : Type) (LS : LoopServer RS) (LL : LoopServerLaws RS) (K : Kernel) listenFD s y (l : eventLoop RS) :
  ls_ok s → loopReachable listenFD (initialLoop listenFD s y) l →
  (∀ d id, conns l !! d = Some id → d ≠ listenFD ∧ ∃ c, objs l !! id = Some c ∧ fd c = d ∧ state (machine c) ≠ ConnStateClosed
     ∧ interest l !! d = Some (negb (peerClosed c) && (PendingOutputBytes (machine c) <=? eventLoopOutputHighWater), HasPendingOutput (machine c)))
  ∧ (∀ id c, objs l !! id = Some c → pushBuf c ≠ [] → detached c = false ∧ id ∈ pushed l)
  ∧ (∀ d, is_Some (interest l !! d) → d = listenFD ∨ is_Some (conns l !! d)).
Proof.
  intros Hok Hr. pose proof (loopReachable_inv listenFD _ _ (initialLoop_inv listenFD s y Hok) Hr) as [H1 H2 _ _ _ H5]. split_and!; [| |exact H5].
  - intros d id Hd. destruct (H1 d id Hd) as (Hn & c & Hc & Hf & _ & Hi & Hs). split; [done|]. exists c. destruct (Hs ltac:(done)) as (Ha & Hw & Hrd).
    rewrite Hi, Hw, Hrd. done.
  - intros id c Hc Hb. destruct (H2 id c Hc Hb) as (? & _ & ?). done.
Qed.

Lemma event_loop_no_lost_wakeup_witness :
  (conns backedUp !! 4%nat = Some 0%nat ∧ interest backedUp !! 4%nat = Some (true, true))
  ∧ (∀ d, is_Some (interest backedUp !! d) → d = 3%nat ∨ is_Some (conns backedUp !! d)).
Proof.
  split; [vm_compute; by split|]. apply (event_loop_no_lost_wakeup nat echoServer echoServer_laws demoKernel 3 0%nat (mkSystem [] [] [Accepted (bs "client") true] []) backedUp); [done|].
  apply backedUp_reachable.
Defined.

(** C9: output is not left behind: a connection with output to send is watched
    for writes, and when the event comes and the socket takes what it is given, all
    of it is on the wire after the event, in order and behind what had been sent
    before, whatever the connection's queued requests add, unless executing one of
    them fails (the context is done, or the replies overflow the output buffer), which closes the
    connection; without queued requests it is always delivered. *)
Theorem pending_output_is_delivered (RS : Type) (LS : LoopServer RS) (LL : LoopServerLaws RS) (K : Kernel) listenFD s y (l : eventLoop RS) d id c :
  ls_ok s → loopReachable listenFD (initialLoop listenFD s y) l →
  conns l !! d = Some id → objs l !! id = Some c → HasPendingOutput (machine c) = true →
  (∃ r, interest l !! d = Some (r, true))
  ∧ (writes (sys l) = [] →
     ∃ c', objs (handleEvent listenFD (None, l) (mkPollEvent d false true)).2 !! id = Some c'
       ∧ (onWire c ++ pendingOutput (machine c) `prefix_of` onWire c' ∨ (pending (machine c) ≠ [] ∧ RequestFails id l ∧ detached c' = true))).
Proof.
  intros Hok Hr Hd Hc Hp. pose proof (loopReachable_inv listenFD _ _ (initialLoop_inv listenFD s y Hok) Hr) as HI.
  destruct (li_conn _ _ _ HI d id Hd) as (Hn & c0 & Hc0 & Hf & Hdt & Hi & Hs). assert (c0 = c) as -> by congruence. destruct (Hs ltac:(done)) as (Ha & Hw & _).
  split; [exists (wantRead c); by rewrite Hi, Hw, Hp|]. intros Hy.
  cbn [handleEvent evFd]. rewrite decide_False, Hd by done. cbn [readable writable andb snd]. rewrite bool_decide_true by done.
  assert (Holds listenFD id (outStream c) l) as HH. { split; [by apply (conns_busy listenFD d)|]. split; [done|]. by exists c. }
  destruct (processConn_delivers listenFD id l _ HH) as [(c' & Hc' & Ho)|(Hq & Hrf & c' & Hc' & Hdet)]; exists c'; (split; [done|]); [by left|right].
  split_and!; [|done|done]. intros E. apply Hq. unfold pendingEvents. by rewrite Hc, E.
Qed.

Lemma pending_output_is_delivered_witness :
  ∃ c, objs backedUp !! 0%nat = Some c ∧ onWire c = bs "+PI" ∧ pendingOutput (machine c) = bs "NG" ++ [x0d; x0a]%byte
  ∧ ∃ r, interest backedUp !! 4%nat = Some (r, true).
Proof.
  eexists. split; [vm_compute; reflexivity|]. split; [vm_compute; reflexivity|]. split; [vm_compute; reflexivity|].
  eapply (pending_output_is_delivered nat echoServer echoServer_laws demoKernel 3 0%nat (mkSystem [] [] [Accepted (bs "client") true] []) backedUp 4 0).
  - exact I.
  - apply backedUp_reachable.
  - vm_compute; reflexivity.
  - vm_compute; reflexivity.
  - vm_compute; reflexivity.
Defined.

(** ** Two waits that may never end *)

(** A connection whose output is above the mark stops executing; when the flush
    that follows empties it, neither a write nor, once the peer has stopped, a
    read is watched: its remaining requests are never executed. *)
Section Stalled.
Context {RS : Type} {LS : LoopServer RS} {K : Kernel}.
Implicit Type l : eventLoop RS.

Lemma Flush_all_active m : state m = ConnStateActive → OutputInv m →
  ∃ m', Flush m (fdWrite [] 0) = (m', pendingOutput m, None) ∧ HasPendingOutput m' = false ∧ pending m' = pending m ∧ state m' = ConnStateActive.
Proof.
  intros Hs Ho. destruct (Flush_all m ltac:(by rewrite Hs) Ho) as (m' & E & Hm & Hp). exists m'. split_and!; [done| |done|].
  - pose proof (Flush_output m [] Ho) as Hof. rewrite E in Hof. cbn [fst] in Hof. unfold HasPendingOutput. apply Z.ltb_ge.
    rewrite <- pendingOutput_len by done. by rewrite Hm.
  - revert E. unfold Flush. rewrite decide_False by (by rewrite Hs).
    destruct (flushWrite_ok m (fdWrite [] 0) Ho (fdWrite_ok [])) as (buf & off & s4 & e4 & -> & _).
    destruct e4; [done|]. cbn [state withOutput]. rewrite Hs. cbn [bool_decide]. by intros [= <- _].
Qed.

(** The flush that empties the output of a connection with requests left. *)
Lemma finishConnEvent_drained l id c : objs l !! id = Some c → state (machine c) = ConnStateActive → OutputInv (machine c) →
  PendingRequests (machine c) ≠ 0%nat → peerClosed c = true → wantWrite c = true → writes (sys l) = [] → polls (sys l) = [] →
  ∃ c', objs (finishConnEvent id l) !! id = Some c' ∧ pending (machine c') = pending (machine c) ∧ state (machine c') = ConnStateActive
    ∧ interest (finishConnEvent id l) !! fd c = Some (false, false).
Proof.
  intros Hc Hs Ho Hpe Hpc Hww Hw Hpo. destruct (Flush_all_active (machine c) Hs Ho) as (m & EF & Hno & Hp & Hsm).
  unfold finishConnEvent. rewrite Hc, decide_False by (by rewrite Hs). unfold flushOnce. rewrite Hc, Hw. cbn [hd]. rewrite EF. cbn zeta. cbn [negb].
  set (l2 := onConn id _ _). set (c2 := sendWire (pendingOutput (machine c)) (setMachine m c)).
  assert (objs l2 !! id = Some c2) as Hc2 by (subst l2; cbn; by rewrite lookup_alter_eq, Hc). rewrite Hc2. change (machine c2) with m. change (peerClosed c2) with (peerClosed c).
  rewrite decide_False by (by rewrite Hsm). rewrite Hpc, Hno.
  unfold PendingRequests in *. rewrite Hp, (proj2 (Nat.eqb_neq _ _) Hpe). cbn [negb andb].
  unfold setInterest. rewrite Hc2. change (wantWrite c2) with (wantWrite c). rewrite Hww, andb_false_r. unfold pollSet. change (polls (sys l2)) with (polls (sys l)). rewrite Hpo. clearbody l2. cbn.
  rewrite lookup_alter_eq, Hc2, lookup_insert_eq. exists (setWant false false c2). by split_and!.
Qed.

Theorem stalled_pipeline l id c : objs l !! id = Some c →
  state (machine c) = ConnStateActive → OutputInv (machine c) → eventLoopOutputHighWater < PendingOutputBytes (machine c) →
  PendingRequests (machine c) ≠ 0%nat → peerClosed c = true → wantWrite c = true → writes (sys l) = [[WriteAgain]] → polls (sys l) = [] →
  ∃ c', objs (processConn id l) !! id = Some c' ∧ pending (machine c') = pending (machine c) ∧ state (machine c') = ConnStateActive
    ∧ interest (processConn id l) !! fd c = Some (false, false).
Proof.
  intros Hc Hs Ho Hhw Hpe Hpc Hww Hw Hpo. set (m := machine c) in *. pose proof Ho as Ho'. unfold OutputInv in Ho'.
  assert (0 < zlen (writeBuf m) - writeOff m) as Hpos by (unfold PendingOutputBytes, eventLoopOutputHighWater in Hhw; lia).
  assert (Flush m (fdWrite [WriteAgain] 0) = (m, [], Some errEventLoopWouldBlock)) as EF.
  { unfold Flush. rewrite decide_False by (rewrite Hs; done). unfold flushWrite. rewrite (proj2 (Z.ltb_lt _ _)) by lia. cbn zeta.
    pose proof (zlen_zdrop (writeOff m) (writeBuf m) ltac:(lia)) as Hz. unfold zlen at 1 in Hz.
    cbn [fdWrite]. destruct (Nat.leb_spec (length (zdrop (writeOff m) (writeBuf m))) 0) as [|_]; [lia|]. cbn [Z.of_nat].
    rewrite Z.add_0_r. destruct (Z.leb_spec (zlen (writeBuf m)) (writeOff m)) as [|_]; [lia|]. by destruct m. }
  set (l1 := onConn id (λ c, sendWire [] (setMachine m c)) (setPoller (interest l) (mkSystem (reads (sys l)) [] (accepts (sys l)) (polls (sys l))) l)).
  assert (HasPendingOutput m = true) as Hhas by (unfold HasPendingOutput, PendingOutputBytes in *; apply Z.ltb_lt; lia).
  assert (flushOnce id l = (true, l1)) as E1. { unfold flushOnce. rewrite Hc, Hw. cbn [hd]. fold m. rewrite EF. cbn zeta. rewrite Hhas. by rewrite decide_True. }
  assert (objs l1 !! id = Some (sendWire [] c)) as Hc1. { subst l1. cbn. rewrite lookup_alter_eq, Hc. subst m. by destruct c. }
  assert (processConn id l = finishConnEvent id l1) as ->.
  { unfold processConn. cbn [processLoop]. rewrite Hc. fold m. rewrite decide_False by (by rewrite Hs). rewrite (proj2 (Z.ltb_lt _ _)) by done. rewrite E1. cbn [negb].
    rewrite Hc1. cbn [sendWire machine]. fold m. by rewrite (proj2 (Z.ltb_lt _ _)). }
  by apply (finishConnEvent_drained l1 id (sendWire [] c)).
Qed.

(** A poller call that fails when accepting is to resume is not retried: the
    timer has fired, and without connections nothing sets the flag again. *)
Theorem accept_resume_lost l listenFD : pushed l = [] → closeReqs l = [] → acceptPaused l = true → resumeAccept l = true →
  resumeTimers l = 0%nat → hd true (polls (sys l)) = false →
  let l' := applyQueuedWork listenFD l in
  acceptPaused l' = true ∧ resumeAccept l' = false ∧ resumeTimers l' = 0%nat ∧ interest l' = interest l.
Proof.
  intros H1 H2 H3 H4 H5 H6. unfold applyQueuedWork. rewrite H1. cbn [foldl]. rewrite H2, H4. cbn [foldl].
  change (acceptPaused (setQueues [] [] false l)) with (acceptPaused l). rewrite H3. cbn [andb]. unfold pollSet. cbn zeta.
  change (polls (sys (setQueues [] [] false l))) with (polls (sys l)). rewrite H6. by split_and!.
Qed.
End Stalled.
