(* ===== verification/ServerLoop.v ===== *)
(** * The server behind the event loop

    [LoopServer] implemented by the server of [Server], and the laws the loop
    relies on discharged from the server's invariant.  What is written to a
    client's response writer while a command runs, which in the code reaches
    [queuePush] through [eventConnPushWriter], is collected in the client's
    [outbox] and handed to the loop by [ls_pushes]. *)

From S2P Require Import Prelude Strconv GoLib GoText Float64 Resp RespParser Stream ValueObject Store StoreOps StoreInvariant Clients Slowlog.
From S2P Require Import Rdb FileSys RdbSave Replication CommandBase Commands Executor ExecutorFacts HandlerFacts Config Aof AofWriter Server ServerRun ServerFacts.
From S2P Require Import ConnMachine ConnMachineFacts EventLoop EventLoopFacts.

Section Instance.
Context {CE : CommandEnv} (parseErrorText : protoError → bytes).

(** [registerConn] binds the push writer and the address. *)
Definition registerLoopClient (addr : bytes) (s : Server) : nat * Server :=
  let '(id, s) := registerClient s in
  (id, onServerHub (λ h, onClient id (SetRemoteAddr addr) (onClient id (BindResponseWriter (Some [])) h)) s).

(** The context is [WithInlineExecution]: no command waits. *)
Definition loopContext (id : nat) : Context_ := mkContext (Some id) false true.

Definition outboxOf (p : nat * ClientState) : option (nat * bytes) :=
  match outbox p.2 with Some (c :: b) => Some (p.1, c :: b) | _ => None end.
Definition emptyOutbox (c : ClientState) : ClientState :=
  setConn (RemoteAddr c) (match outbox c with Some _ => Some [] | None => None end) (writerClosed c) c.
Definition takePushes (h : Hub) : list (nat * bytes) * Hub :=
  (omap outboxOf (map_to_list (clients h)), setClients (emptyOutbox <$> clients h) h).

Definition loopRun (id : nat) (st : Server * FS) (request : Value) : (Server * FS) * result connError (list Value) :=
  let '((r, s), fs) := connCommandRunner (loopContext id) id (RemoteAddr (client (hub (executor st.1)) id)) request [] st.1 st.2 in
  ((s, fs), match r with Some responses => Ok responses | None => Err (ErrExternal 1) end).

#[global] Instance serverLoop : LoopServer (Server * FS) := {|
  ls_register addr st := let '(id, s) := registerLoopClient addr st.1 in (id, (s, st.2));
  ls_teardown id st := (teardownClient id st.1, st.2);
  ls_overLimit st := overConnectionLimit st.1;
  ls_run := loopRun;
  ls_pushes st := let '(pushes, h) := takePushes (hub (executor st.1)) in (pushes, (setExecutor (setHub h (executor st.1)) st.1, st.2));
  ls_errorText := parseErrorText |}.

Lemma takePushes_rel h : HubInv h → HubRel None h (takePushes h).2.
Proof.
  intros Hi. assert (∀ id, clients (takePushes h).2 !! id = emptyOutbox <$> clients h !! id) as Hl by (intros id; cbn; by rewrite lookup_fmap).
  assert (∀ {B} (own : ClientState → B) (P : B → Prop) id, (∀ c, own (emptyOutbox c) = own c) →
    (∃ c, clients (takePushes h).2 !! id = Some c ∧ P (own c)) ↔ (∃ c, clients h !! id = Some c ∧ P (own c))) as Hown.
  { intros B own P id He. rewrite Hl. destruct (clients h !! id) as [c|]; cbn; split; intros (x & Hx & HP); simplify_eq; eexists; (split; [done|]); [by rewrite <- He|by rewrite He]. }
  split.
  - destruct Hi as [H1 H2 H3 H4 H5 H6 H7 H8 H9]. split; try done.
    + intros k id. rewrite (H1 k id). symmetry. by apply (Hown _ watchedKeys (λ X, k ∈ X)).
    + intros k id. rewrite (H3 k id). symmetry. by apply (Hown _ subscribedChannels (λ X, k ∈ X)).
    + intros id. rewrite (H5 id). symmetry. by apply (Hown _ Monitoring (λ b, b = true)).
    + intros id c. rewrite Hl. intros (c0 & Hc & ->)%fmap_Some. by apply (H7 id c0).
    + intros id Hid. rewrite Hl, fmap_is_Some. by apply H8.
    + intros id c. rewrite Hl. intros (c0 & Hc & ->)%fmap_Some. exact (H9 id c0 Hc).
  - intros id. by rewrite Hl, fmap_is_Some.
  - intros id c c' Hc. rewrite Hl, Hc. intros [= <-]. by apply clientRel_same.
  - intros id c' Hc. by rewrite Hl, Hc.
Qed.

Lemma Moves_bind id addr s : Moves s (onServerHub (λ h, onClient id (SetRemoteAddr addr) (onClient id (BindResponseWriter (Some [])) h)) s).
Proof.
  eapply (Moves_trans s (onServerHub (onClient id (BindResponseWriter (Some []))) s)); [by apply Moves_own|].
  by apply (Moves_own id (SetRemoteAddr addr) (onServerHub (onClient id (BindResponseWriter (Some []))) s)).
Qed.

#[global] Instance serverLoop_laws : LoopServerLaws (Server * FS).
Proof.
  refine {| ls_ok st := ServerOk st.1; ls_known st := known st.1 |}.
  - intros addr [s fs] id st' Hs. cbn [ls_register serverLoop fst snd] in *. unfold registerLoopClient. pose proof (registerClient_new s Hs) as [Hn Hk]. pose proof (Moves_register s Hs) as [Hs1 Hk1].
    destruct (registerClient s) as [id1 s1]. cbn [fst snd] in *. intros [= <- <-]. destruct (Moves_bind id1 addr s1 Hs1) as [Hs2 Hk2]. cbn [fst].
    split_and!; [exact Hs2|exact Hn|apply (Hk2 id1), Hk|]. intros i Hi. apply (Hk2 i), Hk1, Hi.
  - intros id [s fs] Hs. by apply Moves_teardown.
  - intros id [s fs] v Hs Hk. cbn in *. unfold loopRun. cbn [fst snd].
    assert (∀ i, ctxClient (loopContext id) = Some i → known s i) as Hp by (intros i [= <-]; done).
    pose proof (Moves_runner (loopContext id) id (RemoteAddr (client (hub (executor s)) id)) v [] s fs Hp ltac:(by apply Forall_nil) Hs) as HM.
    by destruct (connCommandRunner _ _ _ v [] s fs) as [[r s1] fs1].
  - intros [s fs] Hs. cbn [ls_pushes serverLoop fst snd] in *. pose proof (takePushes_rel (hub (executor s)) (sv_hub _ (so_inv _ Hs))) as HR.
    destruct (takePushes (hub (executor s))) as [pushes h]. by apply (Moves_hubRel s h None).
Defined.
End Instance.
