(* ===== verification/ServerTheorems.v ===== *)
(** * What the server promises its clients

    Durability before the reply under [appendfsync always]; the invariant of
    every reachable server state and of the event loop over it; requests of a
    connection run in the order they were sent; the limit on connections; a
    client that is torn down leaves nothing behind.  The last section records
    what WAIT misses and what an automatic stream ID becomes on replay. *)

From S2P Require Import Prelude Strconv GoLib GoText Float64 Resp RespDecode RespDecodeFacts RespParser Stream ValueObject Store StoreOps Clients Slowlog.
From S2P Require Import Rdb FileSys RdbSave Replication CommandBase Commands Executor Config Aof AofFacts AofWriter AofWriterFacts Server ServerRun ServerFacts.
From S2P Require Import StoreFacts StoreInvariant StoreTheorems ExecutorFacts ExecutorTheorems AofTheorems.
From S2P Require Import ConnMachine ConnMachineFacts EventLoop EventLoopFacts EventLoopTheorems ServerLoop.

(** ** Durability before the reply *)

Section Durability.
Context {CE : CommandEnv} (path : bytes) (h ino : nat) (t : list disk) (A : bytes).

(** The server appends with [appendfsync always] to the file at [path], which
    holds [L] up to what a failed write lost. *)
Definition ServerLog (L : bytes) (s : Server) (fs : FS) : Prop :=
  ∃ w, aofWriter s = Some w ∧ wPolicy w = PolicyAlways ∧ WLog path h ino t A L w fs.

(** All of [M] is in the file and durable. *)
Definition Durable (M : bytes) (fs : FS) : Prop := ∀ c, survives (fsDisk fs) path c → c = Some M.

Lemma Log_Durable L fs : Log path h ino t A L L L fs → Durable L fs.
Proof.
  intros (_ & H2 & H4 & _) c Hc%(entryIs_survives _ _ _ _ H2).
  destruct c as [c0|]; [|done]. destruct Hc as (f & Hf & P1 & P2). rewrite H4 in Hf. injection Hf as <-. cbn in P1, P2. f_equal. by apply (anti_symm prefix).
Qed.

Lemma append_policy w p syncNow fs : wPolicy (append w p syncNow fs).1.2 = wPolicy w.
Proof.
  unfold append. case_bool_decide; [done|]. destruct (wClosed w); [done|]. unfold fbind. destruct (bwWrite (wWriter w) p fs) as [[[e|] b] fs']; [done|].
  assert (∀ w', wPolicy w' = wPolicy w → wPolicy (syncLocked w' fs').1.2 = wPolicy w ∧ wPolicy (flushLocked w' fs').1.2 = wPolicy w) as Hk.
  { intros w' Hw. unfold syncLocked, flushLocked, fbind. destruct (bwFlush (wWriter w') fs') as [[[e|] b'] fs'']; [done|].
    unfold fret. cbn [fmap option_fmap option_map]. cbv beta iota. match goal with |- context [FileSync ?a ?b] => destruct (FileSync a b) as [[] ?] end; done. }
  assert (wPolicy (if rewriteActive (setWriter w b) then setRewriteBuffer (setWriter w b) (rewriteBuffer (setWriter w b) ++ p) else setWriter w b) = wPolicy w) as Hw by by case_match.
  revert Hw. generalize (if rewriteActive (setWriter w b) then setRewriteBuffer (setWriter w b) (rewriteBuffer (setWriter w b) ++ p) else setWriter w b). intros w2 Hw.
  destruct syncNow; [by apply Hk|]. case_decide; [by apply Hk|done].
Qed.

Lemma appendWith_log L p s fs : ServerLog L s fs →
  let '((e, s'), fs') := appendWith true p s fs in
  ServerLog (L ++ p) s' fs' ∧ executor s' = executor s ∧ (e = None → p ≠ [] → Durable (L ++ p) fs').
Proof.
  intros (w & Hw & Hp & HW). unfold appendWith. rewrite Hw. unfold fbind, fret. pose proof (append_policy w p true fs) as Hpol.
  pose proof (append_log path h ino t A L w p true fs HW) as HA. destruct (append w p true fs) as [[e w'] fs']. cbn [fst snd] in Hpol.
  destruct HA as [HW' Hd]. split_and!; [exists w'; by rewrite Hpol|done|]. intros He Hne. destruct e; [done|].
  destruct (Hd eq_refl eq_refl Hne) as (dur & HL & -> & _). by apply Log_Durable.
Qed.

Lemma isAlways_log L s fs : ServerLog L s fs → isAlways s = true ∧ bool_decide (aofWriter s = None) = false.
Proof. intros (w & Hw & Hp & _). unfold isAlways, Writer_Policy. rewrite Hw. by rewrite bool_decide_true, bool_decide_false. Qed.

(** Nothing but the writer matters. *)
Lemma ServerLog_ext L s s' fs : aofWriter s' = aofWriter s → ServerLog L s fs → ServerLog L s' fs.
Proof. intros E (w & Hw & Hr). exists w. by rewrite E. Qed.

Lemma propagate_writer values s : aofWriter (propagate values s).2 = aofWriter s.
Proof.
  unfold propagate. destruct (replicaPeers (executor s)); [|done]. by destruct (propagateToReplicas _ _ _ _) as [report [[repl peers] hb]].
Qed.

Lemma recordExpiredKeys_log L keys s fs : ServerLog L s fs →
  let '(s', fs') := recordExpiredKeys keys s fs in ∃ q, ServerLog (L ++ q) s' fs'.
Proof.
  intros HS. unfold recordExpiredKeys. destruct (zlen keys =? 0); [exists []; by rewrite app_nil_r|]. set (s1 := onServerHub _ s).
  assert (ServerLog L s1 fs) as HS1 by (by apply (ServerLog_ext L s)). destruct (isAlways_log L s1 fs HS1) as [Ha Hn].
  unfold fbind. assert (let '((e, s2), fs2) := persistDurabilityFrames [DeleteFrame keys] s1 fs in ∃ q, ServerLog (L ++ q) s2 fs2) as Hp.
  { unfold persistDurabilityFrames. rewrite Hn, Ha. cbn [orb]. change (zlen [DeleteFrame keys] =? 0) with false. cbv iota.
    destruct (EncodeValues [DeleteFrame keys]) as [p|e]; [|exists []; by rewrite app_nil_r].
    pose proof (appendWith_log L p s1 fs HS1) as HA. destruct (appendWith true p s1 fs) as [[e s2] fs2]. destruct HA as [HA _]. by exists p. }
  destruct (persistDurabilityFrames [DeleteFrame keys] s1 fs) as [[e s2] fs2]. destruct Hp as [q Hq].
  destruct (bool_decide (is_Some e) && _ && _); exists q; [done|]. apply (ServerLog_ext _ s2); [apply propagate_writer|done].
Qed.

Lemma deliverExpired_log L before s fs : ServerLog L s fs →
  let '(s', fs') := deliverExpired before s fs in ∃ q, ServerLog (L ++ q) s' fs'.
Proof.
  unfold deliverExpired. generalize (drop (length (published before)) (published (store (executor s)))). intros batches. revert L s fs.
  induction batches as [|keys batches IH]; intros L s fs HS; cbn [recordBatches]; [exists []; by rewrite app_nil_r|].
  unfold fbind. pose proof (recordExpiredKeys_log L keys s fs HS) as HR. destruct (recordExpiredKeys keys s fs) as [s1 fs1]. destruct HR as [q HQ].
  specialize (IH _ _ _ HQ). destruct (recordBatches batches s1 fs1) as [s2 fs2]. destruct IH as [q' HQ']. exists (q ++ q'). by rewrite app_assoc.
Qed.

Lemma broadcast_writer c s : aofWriter (broadcastMonitorEvent c s) = aofWriter s.
Proof. unfold broadcastMonitorEvent. destruct c; [|done]. by destruct (Encode _). Qed.

Lemma observeRequest_writer id addr request s : aofWriter (observeRequest id addr request s) = aofWriter s.
Proof.
  unfold observeRequest. destruct (HasSubscribers _); [|done]. destruct (nowNano _) as [nanos st]. rewrite broadcast_writer. by destruct (observeCommand _ _ _ _).
Qed.

Lemma executeOn_writer ctx request ps s : aofWriter (executeOn ctx request ps s).2 = aofWriter s.
Proof. unfold executeOn. by destruct (ExecuteDetailed ctx request _). Qed.

(** Under [always] nothing is written after the reply is fixed. *)
Lemma finalize_always ctx durability payload propagation s fs L : ServerLog L s fs →
  (finalizeMutationEffects ctx durability payload propagation s fs).2 = fs
  ∧ aofWriter (finalizeMutationEffects ctx durability payload propagation s fs).1 = aofWriter s
  ∧ (propagation = [] → (finalizeMutationEffects ctx durability payload propagation s fs).1 = s).
Proof.
  intros HS. destruct (isAlways_log L s fs HS) as [Ha _]. unfold finalizeMutationEffects. rewrite Ha, andb_false_r. unfold fbind, fret.
  destruct propagation as [|v vs]; [done|]. change (zlen (v :: vs) =? 0) with false. cbn [negb]. pose proof (propagate_writer (v :: vs) s) as Hp.
  destruct (propagate (v :: vs) s) as [report s1]. split_and!; [done| |done]. rewrite <- Hp. unfold recordClientWriteOffset. cbn [fst snd]. repeat case_match; done.
Qed.

Lemma EncodeValues_nonempty values p : EncodeValues values = Ok p → values ≠ [] → p ≠ [].
Proof.
  intros E Hne. destruct values as [|v vs]; [done|]. unfold EncodeValues in E. destruct (EncodedValuesLen (v :: vs)); [|done]. cbn [result_bind appendAll] in E.
  destruct (appendEncodedValue [] v) as [d|] eqn:Ev; [|done]. cbn [result_bind] in E. pose proof (appendEncodedValue_noNil _ _ _ Ev) as Hn.
  rewrite appendEncodedValue_ok in Ev by done. injection Ev as <-. destruct (wireBytes_cons v Hn) as (c & b & Hw). rewrite Hw in E.
  rewrite <- (app_nil_r (c :: b)), appendAll_app in E. destruct (appendAll [] vs); [|done]. by injection E as <-.
Qed.

Lemma prepare_always L frames s fs : ServerLog L s fs →
  let '((r, s'), fs') := prepareDurabilityBeforeResponse frames s fs in
  executor s' = executor s ∧ (∃ q, ServerLog (L ++ q) s' fs')
  ∧ (∀ p, r = Ok p → frames = [] ∨ (EncodeValues frames = Ok p ∧ Durable (L ++ p) fs')).
Proof.
  intros HS. destruct (isAlways_log L s fs HS) as [Ha Hn]. unfold prepareDurabilityBeforeResponse. rewrite Ha, Hn. cbn [negb orb].
  destruct frames as [|v vs]; [split_and!; [done|exists []; by rewrite app_nil_r|by left]|]. change (zlen (v :: vs) =? 0) with false. cbv iota.
  destruct (EncodeValues (v :: vs)) as [p|e] eqn:Ee; [|split_and!; [done|exists []; by rewrite app_nil_r|done]].
  unfold fbind, fret. pose proof (appendWith_log L p s fs HS) as HA. destruct (appendWith true p s fs) as [[e s'] fs']. destruct HA as (HS' & Hex & Hd).
  split_and!; [done|by exists p|]. intros p' E. destruct e as [e|]; [done|]. injection E as <-. right. split; [done|]. apply Hd; [done|]. by eapply EncodeValues_nonempty.
Qed.
End Durability.

Section Replies.
Context {CE : CommandEnv}.

Record request_ := mkReq { rqCtx : Context_; rqClient : nat; rqAddr : bytes; rqValue : Value; rqPauses : list pause }.
Definition served (q : request_) (s : Server) : FM (option (list Value * bool) * Server) :=
  executeClientRequest (rqCtx q) (rqClient q) (rqAddr q) (rqValue q) (rqPauses q) s.
Definition serveAll (qs : list request_) (s : Server) : FM Server :=
  λ fs, foldl (λ st q, let '((_, s), fs) := served q st.1 st.2 in (s, fs)) (s, fs) qs.

Lemma applied_log path h ino t A L ctx id addr request ps s fs : ServerLog path h ino t A L s fs →
  let '((_, s'), fs') := applied ctx id addr request ps s fs in ∃ q, ServerLog path h ino t A (L ++ q) s' fs'.
Proof.
  intros HS. unfold applied. pose proof (executeOn_writer ctx request ps (observeRequest id addr request s)) as Hw.
  destruct (executeOn ctx request ps (observeRequest id addr request s)) as [r s2]. cbn [snd] in Hw. unfold fbind, fret.
  assert (ServerLog path h ino t A L s2 fs) as HS2 by (apply (ServerLog_ext _ _ _ _ _ _ s); [by rewrite Hw, observeRequest_writer|done]).
  pose proof (deliverExpired_log path h ino t A L (store (executor (observeRequest id addr request s))) s2 fs HS2) as HD.
  by destruct (deliverExpired (store (executor (observeRequest id addr request s))) s2 fs).
Qed.

(** How a request ends under [always]: without a reply, with the failure reply
    and no effect beyond the store's, or with a reply whose frames are durable. *)
Lemma served_always path h ino t A L ctx id addr request ps s fs : ServerLog path h ino t A L s fs →
  let '((r, s1), fs1) := applied ctx id addr request ps s fs in
  let '((reply, s'), fs') := executeClientRequest ctx id addr request ps s fs in
  (∃ more, ServerLog path h ino t A (L ++ more) s' fs')
  ∧ (reply = None
     ∨ (reply = Some ([persistenceFailureResponse], false) ∧ executor s' = executor s1)
     ∨ (reply = Some (Responses (answered r), RegisterReplica (answered r))
        ∧ (Durability (answered r) = [] ∨ ∃ p more, EncodeValues (Durability (answered r)) = Ok p ∧ Durable path (L ++ more ++ p) fs'))).
Proof.
  intros HS. rewrite served_spec. pose proof (applied_log path h ino t A L ctx id addr request ps s fs HS) as HA.
  destruct (applied ctx id addr request ps s fs) as [[r s1] fs1]. destruct HA as [q1 HS1].
  destruct (isFatal r); [split; [by exists q1|by left]|].
  pose proof (prepare_always path h ino t A (L ++ q1) (Durability (answered r)) s1 fs1 HS1) as HP.
  destruct (prepareDurabilityBeforeResponse (Durability (answered r)) s1 fs1) as [[prepared s2] fs2]. destruct HP as (Hex & [q2 HS2] & Hd).
  assert (∀ result payload, let '(s3, fs3) := finalizeMutationEffects ctx (Durability result) payload (Propagation result) s2 fs2 in
    (∃ more, ServerLog path h ino t A (L ++ more) (countCommand s3) fs3) ∧ fs3 = fs2 ∧ (Propagation result = [] → s3 = s2)) as Hf.
  { intros result payload. pose proof (finalize_always path h ino t A ctx (Durability result) payload (Propagation result) s2 fs2 _ HS2) as (E1 & E2 & E3).
    destruct (finalizeMutationEffects ctx _ _ _ s2 fs2) as [s3 fs3]. cbn [fst snd] in *. subst fs3. split_and!; [|done|done].
    exists (q1 ++ q2). rewrite app_assoc. by apply (ServerLog_ext _ _ _ _ _ _ s2). }
  destruct prepared as [p|e].
  - specialize (Hf (answered r) p). destruct (finalizeMutationEffects ctx _ _ _ s2 fs2) as [s3 fs3]. destruct Hf as (Hl & -> & _). split; [done|].
    right. right. split; [done|]. destruct (Hd p eq_refl) as [->|[He Hdur]]; [by left|right]. exists p, q1. split; [done|]. by rewrite app_assoc.
  - specialize (Hf (SingleResponse persistenceFailureResponse) []). cbn [Durability Propagation SingleResponse MultiResponse] in Hf.
    cbn [Durability Propagation Responses RegisterReplica SingleResponse MultiResponse].
    destruct (finalizeMutationEffects ctx [] [] [] s2 fs2) as [s3 fs3]. destruct Hf as (Hl & -> & Hs). rewrite (Hs eq_refl) in *. split; [done|]. right. left. by split.
Qed.

Lemma serveAll_log path h ino t A qs : ∀ L s fs, ServerLog path h ino t A L s fs →
  let '(s', fs') := serveAll qs s fs in ∃ more, ServerLog path h ino t A (L ++ more) s' fs'.
Proof.
  unfold serveAll. induction qs as [|q qs IH]; intros L s fs HS; cbn [foldl fst snd]; [exists []; by rewrite app_nil_r|].
  pose proof (served_always path h ino t A L (rqCtx q) (rqClient q) (rqAddr q) (rqValue q) (rqPauses q) s fs HS) as HV. unfold served at 2.
  destruct (applied _ _ _ _ _ s fs) as [[r s1] fs1]. destruct (executeClientRequest _ _ _ _ _ s fs) as [[reply s2] fs2]. destruct HV as [[more HL] _].
  specialize (IH _ _ _ HL). destruct (foldl _ (s2, fs2) qs) as [s3 fs3]. destruct IH as [more' HL']. exists (more ++ more'). by rewrite app_assoc.
Qed.

(** C5: under [appendfsync always] no client is told of a write that is not
    durable. The server starts with a writer on a file whose bytes and
    directory entry are durable, and no rewrite runs. After any requests, of
    any clients and with any file calls failing, a request is answered
    either with what the executor answered, and then the frames of its
    writes are the end of the append-only file and survive any crash; or
    with a persistence error, and then nothing of it was sent to the
    replicas; or not at all. *)
Theorem always_durable_before_reply s0 w base fs0 earlier q :
  aofWriter s0 = Some w → wPolicy w = PolicyAlways → freshWriter w base fs0 →
  let '(s, fs) := serveAll earlier s0 fs0 in
  let '((r, s1), fs1) := applied (rqCtx q) (rqClient q) (rqAddr q) (rqValue q) (rqPauses q) s fs in
  let '((reply, s'), fs') := executeClientRequest (rqCtx q) (rqClient q) (rqAddr q) (rqValue q) (rqPauses q) s fs in
  reply = None
  ∨ (reply = Some ([persistenceFailureResponse], false) ∧ executor s' = executor s1)
  ∨ (reply = Some (Responses (answered r), RegisterReplica (answered r))
     ∧ (Durability (answered r) = [] ∨ ∃ p more, EncodeValues (Durability (answered r)) = Ok p
          ∧ ∀ c, survives (fsDisk fs') (wPath w) c → c = Some (base ++ more ++ p))).
Proof.
  intros Hw Hp [ino HL]%freshWriter_log. assert (ServerLog (wPath w) (wFile w) ino (trail fs0) base base s0 fs0) as HS by by exists w.
  apply (serveAll_log _ _ _ _ _ earlier) in HS. destruct (serveAll earlier s0 fs0) as [s fs]. destruct HS as [more HS].
  pose proof (served_always _ _ _ _ _ _ (rqCtx q) (rqClient q) (rqAddr q) (rqValue q) (rqPauses q) s fs HS) as HV.
  destruct (applied _ _ _ _ _ s fs) as [[r s1] fs1]. destruct (executeClientRequest _ _ _ _ _ s fs) as [[reply s2] fs2].
  destruct HV as [_ [HV|[HV|[HV [HD|(p & more' & HE & HD)]]]]]; [by left|by right; left|right; right; split; [done|by left]|].
  right. right. split; [done|]. right. exists p, (more ++ more'). split; [done|]. by rewrite <- !app_assoc in *.
Qed.
End Replies.

(** A server of two clients that appends to [demoAof]. *)
Definition demoAlways : Server := mkServer Default demoServer (Some (demoWriter PolicyAlways)) 0 {[ 1; 2 ]}%nat false.
Definition setLine : request_ := mkReq (asClient 1) 1 (bs "client") (line ["SET"; "k"; "v"]) [].

Lemma always_durable_before_reply_witness :
  let '((reply, s'), fs') := @executeClientRequest demoCommandEnv (asClient 1) 1 (bs "client") (line ["SET"; "k"; "v"]) [] demoAlways (demoAof []) in
  reply = Some ([okReply], false) ∧ ∃ p more, p ≠ [] ∧ ∀ c, survives (fsDisk fs') demoPath c → c = Some (wire [setCommand] ++ more ++ p).
Proof.
  pose proof (@always_durable_before_reply demoCommandEnv demoAlways (demoWriter PolicyAlways) (wire [setCommand]) (demoAof []) [] setLine
    eq_refl eq_refl (demoWriter_fresh _ _)) as H.
  cbn [serveAll foldl setLine rqCtx rqClient rqAddr rqValue rqPauses] in H. unfold serveAll in H. cbn [foldl] in H. cbv beta iota in H.
  assert ((@executeClientRequest demoCommandEnv (asClient 1) 1 (bs "client") (line ["SET"; "k"; "v"]) [] demoAlways (demoAof [])).1.1 = Some ([okReply], false)) as Hr
    by (vm_compute; reflexivity).
  assert (length (Durability (answered (@applied demoCommandEnv (asClient 1) 1 (bs "client") (line ["SET"; "k"; "v"]) [] demoAlways (demoAof [])).1.1)) = 1%nat) as Hd
    by (vm_compute; reflexivity).
  destruct (@applied demoCommandEnv (asClient 1) 1 (bs "client") (line ["SET"; "k"; "v"]) [] demoAlways (demoAof [])) as [[r s1] fs1].
  destruct (@executeClientRequest demoCommandEnv (asClient 1) 1 (bs "client") (line ["SET"; "k"; "v"]) [] demoAlways (demoAof [])) as [[reply s'] fs'].
  cbn [fst snd] in *. subst reply. split; [done|].
  destruct H as [H|[[H _]|[_ [H|(p & more & He & Hs)]]]]; [done|done|by rewrite H in Hd|]. exists p, more. split; [|exact Hs].
  eapply EncodeValues_nonempty; [exact He|]. intros E. by rewrite E in Hd.
Defined.

(** ** The invariant of the server *)

(** C4: In every state a server can reach, whatever it loads at the start,
    whoever connects, leaves, sends whatever requests, whatever a master
    sends over the replica link (snapshots included), whenever keys are
    swept, and whatever calls on files and sockets fail: the store and every
    value in it are well-formed, the registries agree with the clients, no
    transaction queue holds a transaction command, and every client whose
    state is kept is known. *)
Theorem server_reachable_inv (CE : CommandEnv) c replicationID fs st :
  serverReachable (New c replicationID NewStore, fs) st →
  StoreInv (store (executor st.1)) ∧ HubInv (hub (executor st.1))
  ∧ (∀ id cl, clients (hub (executor st.1)) !! id = Some cl → QueueOk cl)
  ∧ (∀ id, id ∈ clientStates st.1 → is_Some (clients (hub (executor st.1)) !! id)).
Proof.
  intros Hr. destruct (serverReachable_ok (New c replicationID NewStore, fs) st) as [[[H1 H2 H3] H4] _]; [|done|done].
  apply New_ok, NewStore_inv.
Qed.

Definition demoNew : Server := New Default (bs "id") NewStore.

Lemma server_reachable_inv_witness :
  let s := (acceptConnection demoNew).2 in
  clientStates s = {[ 1%nat ]} ∧ @StoreInv (@cmd_env demoCommandEnv) (store (executor s)).
Proof.
  intros s. split; [apply (bool_decide_unpack _); vm_compute; exact I|].
  apply (server_reachable_inv demoCommandEnv Default (bs "id") (demoAof []) (s, demoAof [])).
  eapply ServerThen; [apply ServerStart|]. apply (StepConnect (CE := demoCommandEnv) demoNew).
Defined.

(** C19: The event loop over the server: however readiness events, failing calls and
    work of other goroutines interleave, the server keeps its invariant, every
    connection of the loop belongs to a client the server knows, and the poller
    watches it for exactly what it waits for. *)
Theorem event_loop_over_server (CE : CommandEnv) text (K : Kernel) listenFD c replicationID fs y (l : eventLoop (Server * FS)) :
  let LS := @serverLoop CE text in
  let LL := @serverLoop_laws CE text in
  loopReachable listenFD (initialLoop listenFD (New c replicationID NewStore, fs) y) l →
  ServerInv (executor (srv l).1)
  ∧ ∀ d id, conns l !! d = Some id → is_Some (clients (hub (executor (srv l).1)) !! id)
    ∧ ∃ cn, objs l !! id = Some cn ∧ state (machine cn) ≠ ConnStateClosed
      ∧ interest l !! d = Some (negb (peerClosed cn) && (PendingOutputBytes (machine cn) <=? eventLoopOutputHighWater), HasPendingOutput (machine cn)).
Proof.
  intros LS LL Hr. assert (ls_ok (New c replicationID NewStore, fs)) as Hok by apply New_ok, NewStore_inv.
  pose proof (loopReachable_inv listenFD _ _ (initialLoop_inv listenFD _ y Hok) Hr) as [H1 _ _ [Hs Hk] _ _]. split; [apply Hs|].
  intros d id Hd. destruct (H1 d id Hd) as (_ & cn & Hc & _ & _ & Hi & Hset). destruct (Hset ltac:(done)) as (Ha & Hw & Hrd).
  split; [apply (Hk id); by exists cn|]. exists cn. rewrite Hi, Hw, Hrd. done.
Qed.

(** A client connects to the loop and sends PING. *)
Definition loopStart : eventLoop (Server * FS) :=
  initialLoop 3 (demoNew, demoAof []) (mkSystem [ReadData (wireBytes (line ["PING"]))] [] [Accepted (bs "peer") true] []).
Definition afterPing : eventLoop (Server * FS) :=
  (@turn _ (@serverLoop demoCommandEnv (λ _, bs "error")) demoKernel 3 [mkPollEvent 3 true false; mkPollEvent 4 true false] loopStart).2.

Lemma event_loop_over_server_witness :
  (onWire <$> objs afterPing !! 1%nat) = Some (bs "+PONG" ++ crlf)
  ∧ is_Some (clients (hub (executor (srv afterPing).1)) !! 1%nat).
Proof.
  split; [vm_compute; reflexivity|].
  apply (event_loop_over_server demoCommandEnv (λ _, bs "error") demoKernel 3 Default (bs "id") (demoAof [])
    (mkSystem [ReadData (wireBytes (line ["PING"]))] [] [Accepted (bs "peer") true] []) afterPing) with (d := 4%nat); [|vm_compute; reflexivity].
  unfold afterPing. eapply LoopStep; [apply LoopStart|]. apply StepTurn.
Defined.

(** ** A connection is its requests in order *)

Section Stream.
Context {CE : CommandEnv} (text : protoError → bytes).

(** The requests of a connection, one after the other: each is executed once the
    one before it is answered; an error of the connection ends them. *)
Fixpoint serveStream (ctx : Context_) (id : nat) (addr : bytes) (scripts : list (list pause)) (requests : list Value) (s : Server) : FM Server :=
  match requests with
  | [] => fret s
  | request :: requests =>
      let% (r, s) := executeClientRequest ctx id addr request (hd [] scripts) s in
      match r with
      | None => fret s
      | Some (responses, register) =>
          let '(ok, h) := WriteResponses id responses (hub (executor s)) in
          let s := setExecutor (setHub h (executor s)) s in
          if negb ok then fret s
          else serveStream ctx id addr (tl scripts) requests (if register then registerReplicaPeer id s else s)
      end
  end.

Lemma handleLoop_stream ctx id addr : ∀ fuel scripts frames s fs, (length frames < fuel)%nat → Forall (λ v, frameOk v = true) frames →
  handleLoop text fuel ctx id addr scripts (wire frames) s fs = serveStream ctx id addr scripts (wireValue <$> frames) s fs.
Proof.
  induction fuel as [|fuel IH]; intros scripts frames s fs Hl Hf; [lia|]. cbn [handleLoop]. unfold fbind at 1, handleNext. cbn zeta.
  destruct frames as [|v frames].
  - by vm_compute.
  - apply Forall_cons in Hf as [Hv Hf]. change (wire (v :: frames)) with (wireBytes v ++ wire frames). rewrite (Parse_frame v _ Hv).
    cbn [fmap list_fmap serveStream]. unfold fbind. destruct (executeClientRequest ctx id addr (wireValue v) (hd [] scripts) s fs) as [[[[responses register]|] s1] fs1]; [|done].
    destruct (WriteResponses id responses (hub (executor s1))) as [ok h]. destruct ok; cbn [negb]; [|done]. unfold fret. apply IH; [cbn in Hl; lia|done].
Qed.
End Stream.

(** C18: pipelining.  Serving a connection whose peer sends any sequence of commands
    and closes is executing them one by one, in the order they were sent, each
    answered before the next is read, and then tearing the client down; the reader
    neither invents, drops nor reorders a command. *)
Theorem pipelined_requests_in_order (CE : CommandEnv) text id addr scripts frames s fs :
  Forall (λ v, frameOk v = true) frames →
  handleConnection text id addr scripts (wire frames) s fs =
    (let bind h := onClient id (SetRemoteAddr addr) (onClient id (BindResponseWriter (Some [])) h) in
     let s := match getClientState id s with Some _ => onServerHub bind s | None => s end in
     let '(s, fs) := serveStream (mkContext (getClientState id s) false false) id addr scripts (wireValue <$> frames) s fs in
     (teardownClient id s, fs)).
Proof.
  intros Hf. unfold handleConnection. cbn zeta. unfold fbind, fret. rewrite handleLoop_stream; [done| |done].
  apply (Nat.lt_le_trans _ (S (length frames))); [lia|]. apply le_n_S. clear s fs. induction Hf as [|v frames Hv Hf IH]; [done|].
  unfold wire in *. cbn [fmap list_fmap concat length]. rewrite length_app. pose proof (wireBytes_nonempty v Hv) as Hn. destruct (wireBytes v); [done|]. cbn. lia.
Qed.

Lemma pipelined_requests_in_order_witness :
  let c := (registerClient demoNew).2 in
  handleConnection (CE := demoCommandEnv) (λ _, []) 1 (bs "peer") [] (wire [line ["SET"; "k"; "v"]; line ["GET"; "k"]]) c (demoAof [])
  = (let bind h := onClient 1 (SetRemoteAddr (bs "peer")) (onClient 1 (BindResponseWriter (Some [])) h) in
     let s := onServerHub bind c in
     let '(s, fs) := @serveStream demoCommandEnv (mkContext (Some 1%nat) false false) 1 (bs "peer") [] (wireValue <$> [line ["SET"; "k"; "v"]; line ["GET"; "k"]]) s (demoAof []) in
     (teardownClient 1 s, fs)).
Proof.
  intros c. rewrite (pipelined_requests_in_order demoCommandEnv (λ _, []) 1 (bs "peer") [] [line ["SET"; "k"; "v"]; line ["GET"; "k"]] c (demoAof [])); [|by repeat constructor].
  assert (getClientState 1 c = Some 1%nat) as -> by (vm_compute; reflexivity). cbn zeta. assert (getClientState 1 (onServerHub (λ h, onClient 1 (SetRemoteAddr (bs "peer")) (onClient 1 (BindResponseWriter (Some [])) h)) c) = Some 1%nat) as -> by (vm_compute; reflexivity).
  done.
Defined.

(** ** Clients come and go *)

(** Connections accepted ([None]) and torn down. *)
Definition churn (ops : list (option nat)) (s : Server) : Server :=
  foldl (λ s op, match op with None => (acceptConnection s).2 | Some id => teardownClient id s end) s ops.

Lemma accept_count s : 0 < MaxClients (cfg s) → ClientRegistry_Count (hub (executor s)) ≤ MaxClients (cfg s) →
  ClientRegistry_Count (hub (executor (acceptConnection s).2)) ≤ MaxClients (cfg s) ∧ cfg (acceptConnection s).2 = cfg s.
Proof.
  intros Hpos Hle. unfold acceptConnection, overConnectionLimit. destruct ((0 <? MaxClients (cfg s)) && (MaxClients (cfg s) <=? ClientRegistry_Count (hub (executor s)))) eqn:E; [done|].
  rewrite (proj2 (Z.ltb_lt _ _)) in E by done. apply Z.leb_gt in E. split; [|done]. unfold ClientRegistry_Count in *. cbn.
  assert (size ({[S (nextID (hub (executor s)))]} ∪ registered (hub (executor s)) : gset nat) ≤ S (size (registered (hub (executor s)))))%nat as Hs; [|lia].
  rewrite size_union_alt, size_singleton. apply le_n_S, subseteq_size. set_solver.
Qed.

Lemma Disconnect_registered id h : registered (Disconnect id h) = registered h.
Proof.
  assert (∀ h, registered (StopMonitoring id h) = registered h) as H1.
  { intros h0. unfold StopMonitoring, Monitor_Unsubscribe. destruct (boundMonitor _); [|done]. by case_decide. }
  assert (∀ h, registered (UnsubscribeAll id h) = registered h) as H2. { intros h0. unfold UnsubscribeAll. by destruct (boundPubSub _). }
  assert (∀ h, registered (UnwatchAll id h) = registered h) as H3. { intros h0. unfold UnwatchAll. by destruct (boundWatch _). }
  unfold Disconnect. by rewrite H3, H2, H1.
Qed.

Lemma teardown_registered id s : registered (hub (executor (teardownClient id s))) = registered (hub (executor s)) ∖ {[ id ]}.
Proof. unfold teardownClient, removeClientState. case_bool_decide; [|done]. unfold onServerHub. cbn [executor setExecutor hub setHub setClientStates]. by rewrite Disconnect_registered. Qed.

Lemma teardown_count id s : ClientRegistry_Count (hub (executor (teardownClient id s))) ≤ ClientRegistry_Count (hub (executor s)) ∧ cfg (teardownClient id s) = cfg s.
Proof.
  unfold ClientRegistry_Count. rewrite teardown_registered. split; [apply Nat2Z.inj_le, subseteq_size; set_solver|].
  unfold teardownClient, removeClientState. by case_bool_decide.
Qed.

(** C37: the limit on connections: with [maxclients] set and not exceeded at
    the start, however the one accept loop accepts connections and handlers
    tear them down, no more than that many are registered at any time. *)
Theorem connection_limit ops s :
  0 < MaxClients (cfg s) → ClientRegistry_Count (hub (executor s)) ≤ MaxClients (cfg s) →
  ClientRegistry_Count (hub (executor (churn ops s))) ≤ MaxClients (cfg s).
Proof.
  unfold churn. revert s. induction ops as [|op ops IH]; intros s Hpos Hle; [done|]. cbn [foldl]. destruct op as [id|].
  - destruct (teardown_count id s) as [H1 H2]. rewrite <- H2 in *. apply IH; [done|lia].
  - destruct (accept_count s Hpos Hle) as [H1 H2]. rewrite <- H2 in *. by apply IH.
Qed.

Lemma connection_limit_witness :
  let s := mkServer (mkConfig [] 0 [] 0 0 [] [] [] [] [] [] [] 0 2 0 false) (executor demoNew) None 0 ∅ false in
  ClientRegistry_Count (hub (executor (churn [None; None; None; Some 1%nat; None; None] s))) ≤ 2.
Proof. intros s. apply (connection_limit [None; None; None; Some 1%nat; None; None] s); vm_compute; done. Defined.

(** A client that is torn down leaves nothing behind: its state, its connection
    and its peer are out of every registry, it watches, listens to and monitors
    nothing, and no other client is affected. *)
Theorem teardown_forgets (CE : CommandEnv) id s :
  ServerOk s → id ∈ clientStates s →
  let s' := teardownClient id s in
  let h := hub (executor s') in
  id ∉ clientStates s' ∧ id ∉ registered h
  ∧ (∀ k, id ∉ members (watchers h) k ∧ id ∉ members (subscribers h) k) ∧ id ∉ monitors h
  ∧ (∀ r, replicaPeers (executor s') = Some r → replicas r !! id = None)
  ∧ (∀ c, clients h !! id = Some c → HasActiveResponseWriter c = false ∧ InTransaction c = false ∧ TxQueue c = [])
  ∧ (∀ id', id' ≠ id → clients h !! id' = clients (hub (executor s)) !! id').
Proof.
  intros Hs Hin s' h. pose proof (teardown_registered id s) as Hreg. pose proof (so_states _ Hs id Hin) as Hk.
  assert (s' = onServerHub (Disconnect id) (setClientStates (clientStates s ∖ {[ id ]}) (onServerHub (ClientRegistry_Remove id)
    (setExecutor (setPeers (λ r, (Replicas_Remove id r).2) (executor s)) s)))) as Es'.
  { subst s'. unfold teardownClient, removeClientState. cbn [onServerHub setExecutor clientStates]. by rewrite bool_decide_true. }
  set (h0 := ClientRegistry_Remove id (hub (executor s))). assert (h = Disconnect id h0) as Eh by (subst h; by rewrite Es').
  assert (HubInv h0) as Hi0 by (apply (hubStep_inv (N := cmd_net) (hub (executor s))); [constructor|apply Hs]).
  destruct (disconnect_detaches h0 id Hi0 Hk) as (H1 & H2 & H3 & H4). rewrite <- Eh in *. split_and!; try done.
  - rewrite Es'. cbn. set_solver.
  - subst h s'. rewrite Hreg. set_solver.
  - intros r. rewrite Es'. cbn. destruct (replicaPeers (executor s)) as [r0|]; [|done]. cbn. intros [= <-].
    unfold Replicas_Remove. cbn. destruct (replicas r0 !! id); cbn; apply lookup_delete_eq.
  - intros c Hc. by destruct (H3 c Hc) as (? & ? & ? & _).
Qed.

Lemma teardown_forgets_witness :
  let s := (registerClient demoNew).2 in
  1%nat ∈ clientStates s ∧ 1%nat ∉ clientStates (teardownClient 1 s).
Proof.
  intros s. assert (1%nat ∈ clientStates s) as Hin by (apply (bool_decide_unpack _); vm_compute; exact I). split; [done|].
  refine (proj1 (teardown_forgets demoCommandEnv 1 s _ Hin)). apply Moves_register, New_ok, NewStore_inv.
Defined.

(** ** A late replica *)

(** One request of a client of a server without an append-only file. *)
Definition ask (id : nat) (words : list string) (ps : list pause) (s : Server) : option (list Value) * Server :=
  (@connCommandRunner demoCommandEnv (mkContext (Some id) false false) id [] (line words) ps s (demoAof [])).1.
Definition withOutbox (id : nat) (s : Server) : Server := onServerHub (onClient id (BindResponseWriter (Some []))) s.
Definition twoConnections : Server := withOutbox 2 (withOutbox 1 (registerClient (registerClient demoNew).2).2).
Definition attachReplica (s : Server) : Server := (ask 2 ["PSYNC"; "?"; "-1"] [] (ask 2 ["REPLCONF"; "listening-port"; "7000"] [] s).2).2.

(** The replica applies the stream it was sent and acknowledges its offset; then
    client 1 waits for it. *)
Definition caughtUp (s : Server) : option ReplicationState * option (list Value) :=
  let stream := default [] (outbox (client (hub (executor s)) 2)) in
  let replica := (@replicaLoop demoCommandEnv (λ _, true) (S (length stream)) stream (mkUplink [] 0) demoNew (demoAof [])).1.2 in
  let s := (@connCommandRunner demoCommandEnv (mkContext (Some 2%nat) false false) 2 []
    (arr [bulk (bs "REPLCONF"); bulk (bs "ACK"); bulk (FormatInt (ReplicaOffset (replication (executor replica))))]) [] s (demoAof [])).1.2 in
  (replication (executor replica), (ask 1 ["WAIT"; "1"; "5"] [mkPause id true] s).1).

(** A replica that attaches after the first write starts counting at zero, while
    the master compares its acknowledgements with the offset since its own start:
    WAIT times out although the replica has applied every byte it was sent.  A
    replica that attached before the first write is counted. *)
Theorem wait_misses_late_replica :
  caughtUp (ask 1 ["SET"; "b"; "2"] [] (attachReplica (ask 1 ["SET"; "a"; "1"] [] twoConnections).2)).2
    = (Some (mkReplication (bs "id") 0 27), Some [Integer 0])
  ∧ caughtUp (ask 1 ["SET"; "b"; "2"] [] (attachReplica twoConnections)).2
    = (Some (mkReplication (bs "id") 0 27), Some [Integer 1]).
Proof. vm_compute. split; reflexivity. Qed.

(** ** A stream after a restart *)

(** [XADD k * f v] on a new server, and on one that has loaded the frame it
    logged: what XREAD lists on each. *)
Definition xaddLine : list string := ["XADD"; "k"; "*"; "f"; "v"].
Definition listed (s : Server) : option (list Value) := (ask 1 ["XREAD"; "STREAMS"; "k"; "0-0"] [] s).1.
Definition loggedFrames (s : Server) : list Value := Durability (answered (@executeOn demoCommandEnv (mkContext (Some 1%nat) false false) (line xaddLine) [] s).1).
Definition restarted (frames : list Value) (s : Server) : Server :=
  foldl (λ s v, (@replayOn demoCommandEnv v (s, demoAof [])).2.1) s frames.

(** The frame keeps the [*]: replaying it later gives the entry another ID than the
    client was told and the stream had. *)
Theorem xadd_star_replays_with_new_id :
  let s := twoConnections in
  let later := (ask 1 ["PING"] [] (ask 1 ["PING"] [] (ask 1 ["PING"] [] s).2).2).2 in
  length (loggedFrames s) = 1%nat ∧ listed (ask 1 xaddLine [] s).2 ≠ listed (restarted (loggedFrames s) later).
Proof. vm_compute. split; [reflexivity|]. intros H. discriminate H. Qed.
