(* ===== verification/ServerLife.v ===== *)
(** * The life of a server

    [ListenAndServe], [serve] and [serveGoroutinePerConnection] of [server.go]
    with the goroutines they start: the accept loop with its back-off, a handler
    per connection, the replica link, the eviction loop, and the teardown that
    waits for all of them.  The parts are those of [Server] and [ServerRun]; what
    is added is which goroutine may take which step when.

    An event is one step of one goroutine, of a client or of the operating
    system; [lifeStep] is [None] where the code cannot take it.  A connection that
    was accepted just before the shutdown may be registered after it. *)

From S2P Require Import Prelude Strconv GoLib GoText Float64 Resp RespParser Stream ValueObject Store StoreOps StoreInvariant Clients Slowlog.
From S2P Require Import StoreFacts StoreMemory StorePlain StoreFrames Rdb RdbFacts FileSys RdbSave Replication CommandBase Commands Executor ExecutorFacts HandlerFacts Config Aof AofWriter Server ServerRun ServerFacts ServerLoop ExecutorTheorems AofTheorems.

(** What [listener.Accept] returns. *)
Inductive acceptOutcome :=
  | Accepted (addr : bytes)   (* a connection from there *)
  | AcceptTemporary           (* an error whose [Temporary()] is true *)
  | AcceptClosed              (* [net.ErrClosed] *)
  | AcceptFailed.             (* any other error *)

(** Where [ListenAndServe] is; [failed] is whether [serve] returned an error. *)
Inductive mainPhase :=
  | Serving                   (* in [listener.Accept] *)
  | BackingOff                (* in [sleepWithContext] *)
  | WaitHandlers (failed : bool)
  | WaitEviction (failed : bool)
  | Returned (failed : bool) (errs : list serverError).

Inductive linkPhase :=
  | NoLink
  | Dialing
  | LinkOpen (data : bytes) (u : uplink)   (* [data]: what the master will have sent *)
  | LinkClosed.                            (* the connection is closed, the goroutine not yet done *)

Record life := mkLife {
  phase : mainPhase;
  lsrv : Server;
  ctxDone : bool;
  shutdownDone : bool;        (* [shutdownOnce]: the listener and the registered connections are closed *)
  handlers : gset nat;        (* with the link what [handlerWG] counts *)
  blocked : gset nat;         (* the handlers inside a blocking command *)
  openConns : gset nat;
  link : linkPhase;
  evicting : bool;
  stopEviction : bool
}.

Definition setPhase (p : mainPhase) (l : life) : life :=
  mkLife p (lsrv l) (ctxDone l) (shutdownDone l) (handlers l) (blocked l) (openConns l) (link l) (evicting l) (stopEviction l).
Definition setLsrv (s : Server) (l : life) : life :=
  mkLife (phase l) s (ctxDone l) (shutdownDone l) (handlers l) (blocked l) (openConns l) (link l) (evicting l) (stopEviction l).
Definition setHandlers (H B O : gset nat) (l : life) : life :=
  mkLife (phase l) (lsrv l) (ctxDone l) (shutdownDone l) H B O (link l) (evicting l) (stopEviction l).
Definition setLink (k : linkPhase) (l : life) : life :=
  mkLife (phase l) (lsrv l) (ctxDone l) (shutdownDone l) (handlers l) (blocked l) (openConns l) k (evicting l) (stopEviction l).
Definition setEvicting (running stop : bool) (l : life) : life :=
  mkLife (phase l) (lsrv l) (ctxDone l) (shutdownDone l) (handlers l) (blocked l) (openConns l) (link l) running stop.
Definition cancelled (l : life) : life :=
  mkLife (phase l) (lsrv l) true (shutdownDone l) (handlers l) (blocked l) (openConns l) (link l) (evicting l) (stopEviction l).

Inductive event :=
  | EvAccept (o : acceptOutcome)
  | EvBackoffEnds             (* the timer of [sleepWithContext], or the context *)
  | EvCancel                  (* the context of the server *)
  | EvShutdown                (* [context.AfterFunc(ctx, s.shutdown)] *)
  | EvRequest (id : nat) (addr data : bytes)   (* a handler reads and serves a request *)
  | EvBlock (id : nat)        (* a request starts to wait, in BLPOP or WAIT *)
  | EvWake (id : nat) (addr data : bytes)      (* it is served after all *)
  | EvBlockCancelled (id : nat)                (* it ends with the context *)
  | EvPeerClosed (id : nat)   (* the other end closes the connection *)
  | EvConnCancelled (id : nat)                 (* the [AfterFunc] of the handler *)
  | EvHandlerExit (id : nat)
  | EvEvict (now : Z) (keys : list bytes)      (* the sweep of a sample taken before *)
  | EvEvictionExit
  | EvDialed (port : Z) (data : bytes)
  | EvDialFailed              (* the master cannot be reached *)
  | EvDialCancelled           (* [DialContext] returns the error of the context *)
  | EvLinkStep
  | EvLinkCancelled           (* the [AfterFunc] of the link *)
  | EvLinkExit
  | EvMain.                   (* [ListenAndServe] goes on *)

Section Life.
Context {CE : CommandEnv} (parseErrorText : protoError → bytes) (linkOk : nat → bool) (tempPath : bytes) (snapshotAt : Z).

(** [s.shutdown()], once. *)
Definition shutdownLife (l : life) : life :=
  if shutdownDone l then l
  else
    let '(_, s) := shutdown (lsrv l) in
    mkLife (phase l) s (ctxDone l) true (handlers l) (blocked l) ∅ (match link l with LinkOpen _ _ => LinkClosed | k => k end) (evicting l) (stopEviction l).

(** The first lines of [handleConnection]; they run with the registration. *)
Definition bindConnection (id : nat) (addr : bytes) (s : Server) : Server :=
  let bind h := onClient id (SetRemoteAddr addr) (onClient id (BindResponseWriter (Some [])) h) in
  match getClientState id s with Some _ => onServerHub bind s | None => s end.

(** A request of a handler whose connection is open. *)
Definition serveOne (id : nat) (addr data : bytes) (l : life) (fs : FS) : life * FS :=
  let ctx := mkContext (getClientState id (lsrv l)) false false in
  let '((next, s), fs) := handleNext parseErrorText ctx id addr [] data (lsrv l) fs in
  let l := setLsrv s l in
  (match next with Some _ => l | None => setHandlers (handlers l) (blocked l) (openConns l ∖ {[ id ]}) l end, fs).

(** One turn of [serveGoroutinePerConnection]; an error of [serve] runs the shutdown. *)
Definition acceptStep (o : acceptOutcome) (st : life * FS) : option (life * FS) :=
  let '(l, fs) := st in
  match phase l with
  | Serving =>
      match o with
      | Accepted addr =>
          match acceptConnection (lsrv l) with
          | (Err _, s) => Some (setLsrv s l, fs)
          | (Ok id, s) => Some (setHandlers ({[ id ]} ∪ handlers l) (blocked l) ({[ id ]} ∪ openConns l) (setLsrv (bindConnection id addr s) l), fs)
          end
      | AcceptClosed => if shutdownDone l then Some (setPhase (WaitHandlers false) l, fs) else None
      | AcceptTemporary => Some (setPhase (if ctxDone l then WaitHandlers false else BackingOff) l, fs)
      | AcceptFailed =>
          if ctxDone l then Some (setPhase (WaitHandlers false) l, fs)
          else Some (setPhase (WaitHandlers true) (shutdownLife l), fs)
      end
  | _ => None
  end.

(** [sleepWithContext] returns. *)
Definition backoffStep (st : life * FS) : option (life * FS) :=
  let '(l, fs) := st in
  match phase l with
  | BackingOff => Some (setPhase (if ctxDone l then WaitHandlers false else Serving) l, fs)
  | _ => None
  end.

(** A blocking command returns the error of the context, which ends the handler. *)
Definition blockCancelled (id : nat) (st : life * FS) : option (life * FS) :=
  let '(l, fs) := st in
  if decide (id ∈ blocked l ∧ ctxDone l = true)
  then Some (setHandlers (handlers l) (blocked l ∖ {[ id ]}) (openConns l ∖ {[ id ]}) l, fs) else None.

(** The deferred calls of [handleConnection]. *)
Definition handlerExit (id : nat) (st : life * FS) : option (life * FS) :=
  let '(l, fs) := st in
  if decide (id ∈ handlers l ∖ blocked l ∧ id ∉ openConns l)
  then Some (setHandlers (handlers l ∖ {[ id ]}) (blocked l) (openConns l) (setLsrv (teardownClient id (lsrv l)) l), fs) else None.

(** A turn of the eviction loop from the sweep on, and its end. *)
Definition evictionTurn (now : Z) (keys : list bytes) (st : life * FS) : option (life * FS) :=
  let '(l, fs) := st in
  if evicting l then let '(s, fs) := sweepPass now keys (lsrv l) fs in Some (setLsrv s l, fs) else None.
Definition evictionExit (st : life * FS) : option (life * FS) :=
  let '(l, fs) := st in
  if evicting l && (ctxDone l || stopEviction l) then Some (setEvicting false (stopEviction l) l, fs) else None.

(** [startReplicaLink] from the dial to the end of the handshake. *)
Definition linkDialed (port : Z) (data : bytes) (st : life * FS) : option (life * FS) :=
  let '(l, fs) := st in
  match link l with
  | Dialing =>
      match handshake linkOk port data (setUpstream true (lsrv l)) with
      | (Err _, (_, _, s)) => Some (setLink NoLink (setLsrv (setUpstream false s) l), fs)
      | (Ok _, (data, u, s)) => Some (setLink (LinkOpen data u) (setLsrv s l), fs)
      end
  | _ => None
  end.

(** Its loop, once. *)
Definition linkStep (st : life * FS) : option (life * FS) :=
  let '(l, fs) := st in
  match link l with
  | LinkOpen data u =>
      let '((next, (u, s)), fs) := replicaStep linkOk data u (lsrv l) fs in
      Some (match next with
            | Some rest => setLink (LinkOpen rest u) (setLsrv s l)
            | None => setLink NoLink (setLsrv (setUpstream false s) l)
            end, fs)
  | _ => None
  end.

(** [ListenAndServe] after [serve]: [handlerWG.Wait], the eviction loop, the files,
    and the deferred [shutdown]. *)
Definition mainStep (st : life * FS) : option (life * FS) :=
  let '(l, fs) := st in
  match phase l, link l with
  | WaitHandlers failed, NoLink =>
      if decide (handlers l = ∅) then Some (setPhase (WaitEviction failed) (setEvicting (evicting l) true l), fs) else None
  | WaitEviction failed, _ =>
      if evicting l then None
      else
        let '((errs, s), fs) := finish tempPath snapshotAt (lsrv l) fs in
        Some (setPhase (Returned failed errs) (shutdownLife (setLsrv s l)), fs)
  | _, _ => None
  end.

Definition lifeStep (ev : event) (st : life * FS) : option (life * FS) :=
  let '(l, fs) := st in
  match ev with
  | EvAccept o => acceptStep o (l, fs)
  | EvBackoffEnds => backoffStep (l, fs)
  | EvCancel => Some (cancelled l, fs)
  | EvShutdown => if ctxDone l then Some (shutdownLife l, fs) else None
  | EvRequest id addr data => if decide (id ∈ handlers l ∖ blocked l ∧ id ∈ openConns l) then Some (serveOne id addr data l fs) else None
  | EvBlock id =>
      if decide (id ∈ handlers l ∧ id ∈ openConns l) then Some (setHandlers (handlers l) ({[ id ]} ∪ blocked l) (openConns l) l, fs) else None
  | EvWake id addr data =>
      if decide (id ∈ blocked l) then Some (serveOne id addr data (setHandlers (handlers l) (blocked l ∖ {[ id ]}) (openConns l) l) fs) else None
  | EvBlockCancelled id => blockCancelled id (l, fs)
  | EvPeerClosed id => Some (setHandlers (handlers l) (blocked l) (openConns l ∖ {[ id ]}) l, fs)
  | EvConnCancelled id => if ctxDone l then Some (setHandlers (handlers l) (blocked l) (openConns l ∖ {[ id ]}) l, fs) else None
  | EvHandlerExit id => handlerExit id (l, fs)
  | EvEvict now keys => evictionTurn now keys (l, fs)
  | EvEvictionExit => evictionExit (l, fs)
  | EvDialed port data => linkDialed port data (l, fs)
  | EvDialFailed => match link l with Dialing => Some (setLink NoLink l, fs) | _ => None end
  | EvDialCancelled => match link l with Dialing => if ctxDone l then Some (setLink NoLink l, fs) else None | _ => None end
  | EvLinkStep => linkStep (l, fs)
  | EvLinkCancelled => match link l with LinkOpen _ _ => if ctxDone l then Some (setLink LinkClosed l, fs) else None | _ => None end
  | EvLinkExit => match link l with LinkClosed => Some (setLink NoLink (setLsrv (setUpstream false (lsrv l)) l), fs) | _ => None end
  | EvMain => mainStep (l, fs)
  end.

(** The step an event takes, without unfolding what it computes. *)
Ltac life_unfold := cbv beta iota delta [lifeStep acceptStep backoffStep blockCancelled handlerExit evictionTurn evictionExit linkDialed linkStep mainStep].
Ltac life_unfold_in H := cbv beta iota delta [lifeStep acceptStep backoffStep blockCancelled handlerExit evictionTurn evictionExit linkDialed linkStep mainStep] in H.

Fixpoint lifeRun (evs : list event) (st : life * FS) : option (life * FS) :=
  match evs with [] => Some st | ev :: evs' => st' ← lifeStep ev st; lifeRun evs' st' end.

(** After a successful [startup]. *)
Definition lifeStart (s : Server) : life :=
  mkLife Serving s false false ∅ ∅ ∅ (if IsReplica (cfg s) then Dialing else NoLink) (0 <? EvictionInterval (cfg s)) false.
(** ** What holds on the way *)

Record LifeInv (l : life) : Prop := {
  li_server : ServerOk (lsrv l);
  li_blocked : blocked l ⊆ handlers l;
  li_waited : match phase l with WaitEviction _ | Returned _ _ => handlers l = ∅ ∧ link l = NoLink ∧ stopEviction l = true | _ => True end;
  li_returned : match phase l with Returned _ _ => evicting l = false ∧ shutdownDone l = true ∧ aofWriter (lsrv l) = None | _ => True end
}.

Lemma lifeStart_inv s : ServerOk s → LifeInv (lifeStart s).
Proof. intros Hs. by split. Qed.

Lemma Moves_handleNext id addr data s fs : Moves s (handleNext parseErrorText (mkContext (getClientState id s) false false) id addr [] data s fs).1.2.
Proof.
  intros Hs. unfold handleNext. assert (∀ values s, Moves s (setExecutor (setHub (WriteResponses id values (hub (executor s))).2 (executor s)) s)) as Hw.
  { intros values s0. apply (Moves_hubRel s0 _ None). intros H0. unfold WriteResponses. destruct (EncodeValues values); [apply HubRel_WriteEncoded, H0|apply HubRel_refl, H0]. }
  destruct (Parse ErrEOF data) as [[value|e] rest].
  - unfold fbind. assert (∀ i, ctxClient (mkContext (getClientState id s) false false) = Some i → known s i) as Hk.
    { intros i. unfold getClientState. cbn. case_decide as Hin; [|done]. intros [= <-]. by apply (so_states _ Hs). }
    pose proof (Moves_request (mkContext (getClientState id s) false false) id addr value [] s fs Hk ltac:(by apply Forall_nil)) as HM.
    destruct (executeClientRequest _ id addr value [] s fs) as [[r s1] fs1]. cbn [fst snd] in HM. destruct r as [[responses register]|]; [|by apply HM].
    pose proof (Hw responses s1) as Hw1. destruct (WriteResponses id responses (hub (executor s1))) as [ok h]. cbn [snd] in Hw1.
    pose proof (Moves_trans _ _ _ HM Hw1 Hs) as H2. destruct ok; cbn [negb]; [|exact H2]. destruct register; [|exact H2]. eapply (Moves_trans _ _ _ (Moves_trans _ _ _ HM Hw1)); [apply Moves_registerReplica|done].
  - destruct (bool_decide _); [done|]. pose proof (Hw [ErrorValue (bs "ERR " ++ parseErrorText e)] s) as Hw1. destruct (WriteResponses id _ (hub (executor s))) as [ok h]. by apply Hw1.
Qed.

Lemma bindConnection_ok id addr s : ServerOk s → ServerOk (bindConnection id addr s).
Proof. intros Hs. unfold bindConnection. destruct (getClientState id s); [|done]. by apply (Moves_bind id addr s). Qed.
Lemma Moves_upstream b s : Moves s (setUpstream b s).
Proof. by apply Moves_same. Qed.
Lemma Moves_handshake port data s : Moves s (handshake linkOk port data s).2.2.
Proof.
  unfold handshake. destruct (exchange linkOk [bs "PING"] _ data _) as [[u1|e] [d1 k1]]; [|apply Moves_refl].
  destruct (if bool_decide _ then _ else _) as [[u2|e] [d2 k2]]; [|apply Moves_refl]. destruct (exchange linkOk [bs "REPLCONF"; _; _] _ d2 k2) as [[u3|e] [d3 k3]]; [|apply Moves_refl].
  destruct (writeReplicaCommand linkOk _ k3) as [ok k4]. destruct (negb ok); [apply Moves_refl|]. pose proof (Moves_resync d3 s) as HM. by destruct (consumeFullResync d3 s) as [r [d4 s4]].
Qed.

Lemma shutdownLife_spec l : ServerOk (lsrv l) → let l' := shutdownLife l in
  ServerOk (lsrv l') ∧ phase l' = phase l ∧ ctxDone l' = ctxDone l ∧ shutdownDone l' = true ∧ handlers l' = handlers l ∧ blocked l' = blocked l
  ∧ evicting l' = evicting l ∧ stopEviction l' = stopEviction l ∧ (link l = NoLink → link l' = NoLink) ∧ aofWriter (lsrv l') = aofWriter (lsrv l).
Proof.
  intros Hs. unfold shutdownLife. destruct (shutdownDone l) eqn:Ed; [by split_and!|]. pose proof (Moves_shutdown (lsrv l) Hs) as [Hok _].
  assert (aofWriter (shutdown (lsrv l)).2 = aofWriter (lsrv l)) as Ha.
  { unfold shutdown. destruct (ClientRegistry_CloseAll _) as [closed h]. unfold clearClientStates. cbn [snd clientStates setExecutor setUpstream].
    generalize (idOrder (clientStates (lsrv l))). intros ids. match goal with |- context [foldl _ ?s0 ids] => assert (aofWriter s0 = aofWriter (lsrv l)) as H0 by done; revert H0; generalize s0 end.
    induction ids as [|id ids IH]; intros s0 H0; [done|]. cbn [foldl]. by apply IH. }
  destruct (shutdown (lsrv l)) as [closed s]. cbn in *. split_and!; try done. by intros ->.
Qed.

Lemma serveOne_spec id addr data l fs : ServerOk (lsrv l) → let l' := (serveOne id addr data l fs).1 in
  ServerOk (lsrv l') ∧ phase l' = phase l ∧ ctxDone l' = ctxDone l ∧ handlers l' = handlers l ∧ blocked l' = blocked l ∧ link l' = link l
  ∧ stopEviction l' = stopEviction l.
Proof.
  intros Hs. unfold serveOne. pose proof (Moves_handleNext id addr data (lsrv l) fs Hs) as [Hok _]. destruct (handleNext _ _ id addr [] data (lsrv l) fs) as [[next s] fs1]. by destruct next; split_and!.
Qed.

Lemma finish_spec s fs : ServerOk s → ServerOk (finish tempPath snapshotAt s fs).1.2 ∧ aofWriter (finish tempPath snapshotAt s fs).1.2 = None.
Proof.
  intros Hs. unfold finish, fbind. assert (ServerOk (closeAOFWriter s fs).1.2 ∧ aofWriter (closeAOFWriter s fs).1.2 = None) as [H1 H2].
  { unfold closeAOFWriter. destruct (aofWriter s) as [w|] eqn:Ea; [|by split]. unfold fbind. destruct (Close w fs) as [[e u] fs1]. split; [by apply (Moves_writer None s)|done]. }
  destruct (closeAOFWriter s fs) as [[e1 s1] fs1]. cbn [fst snd] in *. unfold persistSnapshot. destruct (bool_decide _); [by split|].
  pose proof (SnapshotStrings_entries (store (executor s1))) as [stats Heq]. rewrite Heq. unfold fbind. destruct (SaveSnapshot _ _ _ _ fs1) as [r fs2].
  split; [|done]. pose proof (Moves_store s1 (λ st, (tt, tick st)) (λ st Hst, tick_inv st Hst) H1) as [Hok _]. exact Hok.
Qed.

Lemma lifeStep_inv ev l fs l' fs' : LifeInv l → lifeStep ev (l, fs) = Some (l', fs') → LifeInv l'.
Proof.
  intros [Hs Hb Hw Hr] Hstep. destruct ev as [o| | | |id addr data|id|id addr data|id|id|id|id|now keys| |port data| | | | | |]; life_unfold_in Hstep.
  - destruct (phase l) eqn:Ep; try done. destruct o; cbn in Hstep.
    + pose proof (Moves_accept (lsrv l) Hs) as [Hok _]. destruct (acceptConnection (lsrv l)) as [[id|e] s]; injection Hstep as <- <-; split; cbn; rewrite ?Ep; try done; [by apply bindConnection_ok|set_solver].
    + injection Hstep as <- <-. by destruct (ctxDone l); split.
    + destruct (shutdownDone l); [|done]. injection Hstep as <- <-. by split.
    + destruct (ctxDone l); injection Hstep as <- <-; [by split|]. destruct (shutdownLife_spec l Hs) as (S1 & S2 & S3 & S4 & S5 & S6 & _). split; cbn; [done|by rewrite S5, S6|done|done].
  - destruct (phase l) eqn:Ep; try done. injection Hstep as <- <-. by destruct (ctxDone l); split.
  - injection Hstep as <- <-. by split.
  - destruct (ctxDone l); [|done]. injection Hstep as <- <-. destruct (shutdownLife_spec l Hs) as (S1 & S2 & S3 & S4 & S5 & S6 & S7 & S8 & S9 & S10).
    split; rewrite ?S2, ?S5, ?S6, ?S7, ?S8; [done|done| |]; destruct (phase l); try done; [destruct Hw as (? & ? & ?); by split_and!; [|apply S9|]..|]. destruct Hr as (? & _ & ?). split_and!; [done|done|by rewrite S10].
  - case_decide as Hin; [|done]. destruct (serveOne_spec id addr data l fs Hs) as (S1 & S2 & S3 & S4 & S5 & S6 & S7). destruct (serveOne id addr data l fs) as [l1 fs1]. injection Hstep as <- <-. cbn [fst] in *.
    split; rewrite ?S2, ?S4, ?S5, ?S6, ?S7; [done|done|done|]. destruct (phase l); try done. destruct Hw as (Hh & _ & _). exfalso. set_solver.
  - case_decide as Hin; [|done]. injection Hstep as <- <-. split; cbn; [done|set_solver|done|done].
  - case_decide as Hin; [|done]. set (l0 := setHandlers (handlers l) (blocked l ∖ {[ id ]}) (openConns l) l) in *.
    destruct (serveOne_spec id addr data l0 fs Hs) as (S1 & S2 & S3 & S4 & S5 & S6 & S7). destruct (serveOne id addr data l0 fs) as [l1 fs1]. injection Hstep as <- <-. cbn [fst] in *.
    split; rewrite ?S2, ?S4, ?S5, ?S6, ?S7; cbn; [done|set_solver|done|]. destruct (phase l); try done. destruct Hw as (Hh & _ & _). exfalso. set_solver.
  - case_decide as Hin; [|done]. injection Hstep as <- <-. split; cbn; [done|set_solver|done|done].
  - injection Hstep as <- <-. by split.
  - destruct (ctxDone l); [|done]. injection Hstep as <- <-. by split.
  - case_decide as Hin; [|done]. injection Hstep as <- <-. pose proof (Moves_teardown id (lsrv l) Hs) as [Hok _].
    split; cbn; [done|set_solver| |]; destruct (phase l); try done; destruct Hw as (Hh & ? & ?); try (split_and!; [set_solver|done|done]); set_solver.
  - destruct (evicting l) eqn:Ee; [|done]. pose proof (Moves_sweep now keys (lsrv l) fs Hs) as [Hok _]. destruct (sweepPass now keys (lsrv l) fs) as [s fs1]. injection Hstep as <- <-.
    split; cbn; [done|done|done|]. destruct (phase l); try done. by destruct Hr as (? & _).
  - destruct (evicting l && _); [|done]. injection Hstep as <- <-. split; cbn; [done|done|done|]. destruct (phase l); try done. by destruct Hr as (_ & ? & ?).
  - destruct (link l) eqn:El; try done. pose proof (Moves_handshake port data (setUpstream true (lsrv l)) (proj1 (Moves_upstream true (lsrv l) Hs))) as [Hok _].
    assert (match phase l with WaitEviction _ | Returned _ _ => False | _ => True end) as Hph by (destruct (phase l); try done; by (destruct Hw as (_ & ? & _); congruence)).
    destruct (handshake linkOk port data _) as [[u|e] [[d k] s]]; injection Hstep as <- <-; (split; cbn; [first [exact Hok|by apply (Moves_upstream false _ Hok)]|done|by destruct (phase l)|by destruct (phase l)]).
  - destruct (link l) eqn:El; try done. injection Hstep as <- <-. split; cbn; [done|done| |]; destruct (phase l); try done; destruct Hw as (_ & ? & _); congruence.
  - destruct (link l) eqn:El; try done. destruct (ctxDone l); [|done]. injection Hstep as <- <-. split; cbn; [done|done| |]; destruct (phase l); try done; destruct Hw as (_ & ? & _); congruence.
  - destruct (link l) as [| |data u|] eqn:El; try done. pose proof (Moves_replicaStep linkOk data u (lsrv l) fs Hs) as [Hok _].
    assert (match phase l with WaitEviction _ | Returned _ _ => False | _ => True end) as Hph by (destruct (phase l); try done; by (destruct Hw as (_ & ? & _); congruence)).
    destruct (replicaStep linkOk data u (lsrv l) fs) as [[next [u1 s]] fs1]. injection Hstep as <- <-. destruct next; (split; cbn; [first [exact Hok|by apply (Moves_upstream false _ Hok)]|done|by destruct (phase l)|by destruct (phase l)]).
  - destruct (link l) eqn:El; try done. destruct (ctxDone l); [|done]. injection Hstep as <- <-. split; cbn; [done|done| |done]. destruct (phase l); try done; by (destruct Hw as (_ & ? & _); congruence).
  - destruct (link l) eqn:El; try done. injection Hstep as <- <-. split; cbn; [by apply (Moves_upstream false)|done| |]; destruct (phase l); try done; by (destruct Hw as (_ & ? & _); congruence).
  - destruct (phase l) as [| |failed|failed|] eqn:Ep; try done.
    + destruct (link l) eqn:El; try done. case_decide as Hh; [|done]. injection Hstep as <- <-. by split; cbn.
    + destruct (evicting l) eqn:Ee; [done|]. pose proof (finish_spec (lsrv l) fs Hs) as [F1 F2]. destruct (finish tempPath snapshotAt (lsrv l) fs) as [[errs s] fs1]. cbn [fst snd] in *. injection Hstep as <- <-.
      destruct (shutdownLife_spec (setLsrv s l) F1) as (S1 & S2 & S3 & S4 & S5 & S6 & S7 & S8 & S9 & S10). destruct Hw as (W1 & W2 & W3).
      split; cbn; rewrite ?S5, ?S6, ?S7, ?S8; [done|done|by split_and!; [|apply S9|]|]. split_and!; [done|done|by rewrite S10].
Qed.
Lemma lifeRun_inv evs : ∀ st st', LifeInv st.1 → lifeRun evs st = Some st' → LifeInv st'.1.
Proof.
  induction evs as [|ev evs IH]; intros [l fs] st' Hl; cbn [lifeRun]; [by intros [= <-]|]. destruct (lifeStep ev (l, fs)) as [[l1 fs1]|] eqn:Es; [|done]. cbn [mbind option_bind].
  apply IH. by eapply lifeStep_inv.
Qed.

(** ** Cancelled, it stops *)

(** The steps the server takes by itself once its context is done: no client, no
    master and no timer but the back-off is needed. *)
Definition internal (ev : event) : bool :=
  match ev with
  | EvAccept AcceptClosed | EvBackoffEnds | EvShutdown | EvBlockCancelled _ | EvConnCancelled _ | EvHandlerExit _ | EvEvictionExit
  | EvDialCancelled | EvLinkCancelled | EvLinkExit | EvMain => true
  | _ => false
  end.

Definition Leads (st st' : life * FS) : Prop := ∃ evs, Forall (λ ev, internal ev = true) evs ∧ lifeRun evs st = Some st'.

Lemma Leads_refl st : Leads st st.
Proof. by exists []. Qed.
Lemma Leads_step ev st st' st'' : internal ev = true → lifeStep ev st = Some st' → Leads st' st'' → Leads st st''.
Proof. intros Hi Hs (evs & He & Hr). exists (ev :: evs). split; [by constructor|]. cbn [lifeRun]. by rewrite Hs. Qed.
Lemma Leads_trans st st' st'' : Leads st st' → Leads st' st'' → Leads st st''.
Proof.
  intros (evs & He & Hr). revert st He Hr. induction evs as [|ev evs IH]; intros st He Hr H2; [by injection Hr as ->|]. apply Forall_cons in He as [Hi He]. cbn [lifeRun] in Hr.
  destruct (lifeStep ev st) as [st1|] eqn:Es; [|done]. eapply Leads_step; [exact Hi|exact Es|]. by apply (IH st1).
Qed.

(** What the drains below leave alone. *)
Record Draining (l l' : life) : Prop := {
  dr_phase : phase l' = phase l;
  dr_ctx : ctxDone l' = ctxDone l;
  dr_link : link l' = link l
}.

Lemma unblock_all X : ∀ l fs, ctxDone l = true → blocked l = X → ∃ l', Leads (l, fs) (l', fs) ∧ Draining l l' ∧ blocked l' = ∅.
Proof.
  induction X as [|x X Hx IH] using set_ind_L; intros l fs Hc Hb; [exists l; split_and!; [apply Leads_refl|by split|done]|].
  destruct (IH (setHandlers (handlers l) (blocked l ∖ {[ x ]}) (openConns l ∖ {[ x ]}) l) fs Hc) as (l' & Hl & [D1 D2 D3] & He); [cbn; set_solver|].
  exists l'. split_and!; [|by split|done]. eapply (Leads_step (EvBlockCancelled x)); [done| |exact Hl]. life_unfold. rewrite decide_True by set_solver. done.
Qed.

Lemma exit_all X : ∀ l fs, ctxDone l = true → blocked l = ∅ → handlers l = X → ∃ l', Leads (l, fs) (l', fs) ∧ Draining l l' ∧ handlers l' = ∅.
Proof.
  induction X as [|x X Hx IH] using set_ind_L; intros l fs Hc Hb Hh; [exists l; split_and!; [apply Leads_refl|by split|done]|].
  set (l1 := setHandlers (handlers l) (blocked l) (openConns l ∖ {[ x ]}) l). set (l2 := setHandlers (handlers l1 ∖ {[ x ]}) (blocked l1) (openConns l1) (setLsrv (teardownClient x (lsrv l1)) l1)).
  destruct (IH l2 fs) as (l' & Hl & [D1 D2 D3] & He); [done|done|cbn; set_solver|]. exists l'. split_and!; [|by split|done].
  eapply (Leads_step (EvConnCancelled x) _ (l1, fs)); [done|life_unfold; by rewrite Hc|]. eapply (Leads_step (EvHandlerExit x)); [done| |exact Hl]. life_unfold. rewrite decide_True by (cbn; set_solver). done.
Qed.

(** The accept loop returns. *)
Lemma serving_ends l fs : ctxDone l = true → LifeInv l →
  ∃ l', Leads (l, fs) (l', fs) ∧ ctxDone l' = true ∧ match phase l' with Serving | BackingOff => False | _ => True end.
Proof.
  intros Hc Hi. destruct (phase l) eqn:Ep.
  - destruct (shutdownLife_spec l (li_server _ Hi)) as (_ & S2 & S3 & S4 & _). set (l1 := shutdownLife l) in *. exists (setPhase (WaitHandlers false) l1). split_and!; [|by cbn; rewrite S3|done].
    eapply (Leads_step EvShutdown _ (l1, fs)); [done|life_unfold; by rewrite Hc|]. eapply (Leads_step (EvAccept AcceptClosed)); [done| |apply Leads_refl]. life_unfold. by rewrite S2, Ep, S4.
  - exists (setPhase (WaitHandlers false) l). split_and!; [|done|done]. eapply (Leads_step EvBackoffEnds); [done| |apply Leads_refl]. life_unfold. by rewrite Ep, Hc.
  - exists l. rewrite Ep. split_and!; [apply Leads_refl|done|done].
  - exists l. rewrite Ep. split_and!; [apply Leads_refl|done|done].
  - exists l. rewrite Ep. split_and!; [apply Leads_refl|done|done].
Qed.

Lemma link_ends l fs : ctxDone l = true → ∃ l', Leads (l, fs) (l', fs) ∧ phase l' = phase l ∧ ctxDone l' = true ∧ handlers l' = handlers l ∧ link l' = NoLink.
Proof.
  intros Hc. destruct (link l) as [| |data u|] eqn:El.
  - exists l. split_and!; [apply Leads_refl|done..].
  - exists (setLink NoLink l). split_and!; [|done..]. eapply (Leads_step EvDialCancelled); [done| |apply Leads_refl]. life_unfold. by rewrite El, Hc.
  - eexists. split_and!; [|shelve..]. eapply (Leads_step EvLinkCancelled _ (setLink LinkClosed l, fs)); [done|life_unfold; by rewrite El, Hc|].
    eapply (Leads_step EvLinkExit); [done|reflexivity|apply Leads_refl]. Unshelve. all: done.
  - eexists. split_and!; [|shelve..]. eapply (Leads_step EvLinkExit); [done|life_unfold; by rewrite El|apply Leads_refl]. Unshelve. all: done.
Qed.

Lemma eviction_ends l fs failed : phase l = WaitEviction failed → stopEviction l = true → ∃ l' fs' errs, Leads (l, fs) (l', fs') ∧ phase l' = Returned failed errs.
Proof.
  intros Hp Hs. set (l1 := setEvicting false (stopEviction l) l).
  assert (Leads (l, fs) (l1, fs) ∨ l = l1) as Hev.
  { destruct (evicting l) eqn:Ee; [left|right; destruct l; cbn in *; by subst]. eapply (Leads_step EvEvictionExit); [done| |apply Leads_refl]. life_unfold. rewrite Ee.
    assert (ctxDone l || stopEviction l = true) as -> by (rewrite Hs; apply orb_true_r). done. }
  destruct (finish tempPath snapshotAt (lsrv l1) fs) as [[errs s] fs'] eqn:Ef.
  assert (Leads (l1, fs) (setPhase (Returned failed errs) (shutdownLife (setLsrv s l1)), fs')) as Hm.
  { eapply (Leads_step EvMain); [done| |apply Leads_refl]. life_unfold. change (phase l1) with (phase l). rewrite Hp. cbn [evicting l1 setEvicting]. by rewrite Ef. }
  exists (setPhase (Returned failed errs) (shutdownLife (setLsrv s l1))), fs', errs. split; [|done]. destruct Hev as [Hev|Hev]; [by eapply Leads_trans|]. rewrite <- Hev in Hm at 1. exact Hm.
Qed.

Lemma cancelled_stops l fs : LifeInv l → ctxDone l = true → ∃ l' fs' failed errs, Leads (l, fs) (l', fs') ∧ phase l' = Returned failed errs.
Proof.
  intros Hi Hc. destruct (serving_ends l fs Hc Hi) as (l1 & L1 & C1 & P1). assert (LifeInv l1) as Hi1 by (destruct L1 as (evs & _ & Hr); exact (lifeRun_inv evs (l, fs) (l1, fs) Hi Hr)).
  destruct (phase l1) as [| |failed|failed|failed errs] eqn:Ep; [done|done| | |by exists l1, fs, failed, errs].
  - destruct (unblock_all (blocked l1) l1 fs C1 eq_refl) as (l2 & L2 & [D1 D2 D3] & B2). destruct (exit_all (handlers l2) l2 fs ltac:(congruence) B2 eq_refl) as (l3 & L3 & [E1 E2 E3] & H3).
    destruct (link_ends l3 fs) as (l4 & L4 & P4 & C4 & H4 & K4); [congruence|].
    set (l5 := setPhase (WaitEviction failed) (setEvicting (evicting l4) true l4)).
    assert (Leads (l4, fs) (l5, fs)) as L5.
    { eapply (Leads_step EvMain); [done| |apply Leads_refl]. life_unfold. rewrite P4, E1, D1, Ep, K4, decide_True by congruence. done. }
    destruct (eviction_ends l5 fs failed eq_refl eq_refl) as (l6 & fs6 & errs & L6 & P6). exists l6, fs6, failed, errs. split; [|done].
    do 5 (eapply Leads_trans; [eassumption|]). exact L6.
  - pose proof (li_waited _ Hi1) as Hw. rewrite Ep in Hw. destruct Hw as (_ & _ & Hs). destruct (eviction_ends l1 fs failed Ep Hs) as (l6 & fs6 & errs & L6 & P6).
    exists l6, fs6, failed, errs. split; [by eapply Leads_trans|done].
Qed.
(** ** A failed accept without cancellation *)

(** The context is not done and [handlerWG] waits for a handler that waits itself. *)
Record Stuck (id : nat) (l : life) : Prop := {
  sk_phase : phase l = WaitHandlers true;
  sk_ctx : ctxDone l = false;
  sk_id : id ∈ blocked l ∧ id ∈ handlers l
}.

Lemma serveOne_same id addr data l fs : let l' := (serveOne id addr data l fs).1 in
  phase l' = phase l ∧ ctxDone l' = ctxDone l ∧ handlers l' = handlers l ∧ blocked l' = blocked l ∧ link l' = link l.
Proof. unfold serveOne. destruct (handleNext _ _ id addr [] data (lsrv l) fs) as [[next s] fs1]. by destruct next. Qed.

Lemma stuck_step id ev l fs l' fs' : Stuck id l → ev ≠ EvCancel → (∀ addr data, ev ≠ EvWake id addr data) →
  lifeStep ev (l, fs) = Some (l', fs') → Stuck id l'.
Proof.
  intros [Hp Hc [Hb Hh]] He Hw Hs. destruct ev as [o| | | |j addr data|j|j addr data|j|j|j|j|now keys| |port data| | | | | |]; life_unfold_in Hs; rewrite ?Hp, ?Hc in Hs; try done.
  - case_decide; [|done]. destruct (serveOne_same j addr data l fs) as (S1 & S2 & S3 & S4 & _). destruct (serveOne j addr data l fs) as [l1 fs1]. injection Hs as <- <-. cbn [fst] in *. split; [congruence|congruence|by rewrite S3, S4].
  - case_decide; [|done]. injection Hs as <- <-. split; cbn; [done|done|set_solver].
  - case_decide; [|done]. set (l0 := setHandlers _ _ _ l) in *. assert (j ≠ id) as Hj by (intros ->; by eapply Hw).
    destruct (serveOne_same j addr data l0 fs) as (S1 & S2 & S3 & S4 & _). destruct (serveOne j addr data l0 fs) as [l1 fs1]. injection Hs as <- <-. cbn [fst] in *. split; [by rewrite S1|by rewrite S2|rewrite S3, S4; cbn; set_solver].
  - case_decide as Hd; [|done]. by destruct Hd.
  - injection Hs as <- <-. by split.
  - case_decide as Hd; [|done]. injection Hs as <- <-. split; cbn; [done|done|]. split; [done|]. assert (j ≠ id) by (intros ->; set_solver). set_solver.
  - destruct (evicting l); [|done]. destruct (sweepPass now keys (lsrv l) fs) as [s fs1]. injection Hs as <- <-. by split.
  - destruct (evicting l && _); [|done]. injection Hs as <- <-. by split.
  - destruct (link l); try done. destruct (handshake linkOk port data _) as [[u|e] [[d k] s]]; injection Hs as <- <-; by split.
  - destruct (link l); try done. injection Hs as <- <-. by split.
  - by destruct (link l).
  - destruct (link l) as [| |d u|]; try done. destruct (replicaStep linkOk d u (lsrv l) fs) as [[next [u1 s]] fs1]. injection Hs as <- <-. by destruct next.
  - destruct (link l); done.
  - destruct (link l); try done. injection Hs as <- <-. by split.
  - destruct (link l); try done. case_decide as Hd; [|done]. set_solver.
Qed.

Lemma stuck_run id evs : Forall (λ ev, ev ≠ EvCancel ∧ ∀ addr data, ev ≠ EvWake id addr data) evs → ∀ st st', Stuck id st.1 → lifeRun evs st = Some st' → Stuck id st'.1.
Proof.
  induction 1 as [|ev evs [He Hw] Hevs IH]; intros [l fs] st' Hk; cbn [lifeRun]; [by intros [= <-]|]. destruct (lifeStep ev (l, fs)) as [[l1 fs1]|] eqn:Es; [|done]. cbn [mbind option_bind].
  apply IH. by eapply stuck_step.
Qed.

(** The same with a link whose dial returned after the shutdown. *)
Record StuckLink (l : life) : Prop := {
  sl_phase : phase l = WaitHandlers true;
  sl_ctx : ctxDone l = false;
  sl_link : ∃ data u, link l = LinkOpen data u
}.

Lemma stuckLink_step ev l fs l' fs' : StuckLink l → ev ≠ EvCancel → ev ≠ EvLinkStep → lifeStep ev (l, fs) = Some (l', fs') → StuckLink l'.
Proof.
  intros [Hp Hc (d0 & u0 & Hl)] He Hw Hs. destruct ev as [o| | | |j addr data|j|j addr data|j|j|j|j|now keys| |port data| | | | | |]; life_unfold_in Hs; rewrite ?Hp, ?Hc, ?Hl in Hs; try done.
  - case_decide; [|done]. destruct (serveOne_same j addr data l fs) as (S1 & S2 & _ & _ & S5). destruct (serveOne j addr data l fs) as [l1 fs1]. injection Hs as <- <-. cbn [fst] in *. split; [congruence|congruence|rewrite S5; by exists d0, u0].
  - case_decide; [|done]. injection Hs as <- <-. split; cbn; eauto.
  - case_decide; [|done]. set (l0 := setHandlers _ _ _ l) in *.
    destruct (serveOne_same j addr data l0 fs) as (S1 & S2 & _ & _ & S5). destruct (serveOne j addr data l0 fs) as [l1 fs1]. injection Hs as <- <-. cbn [fst] in *. split; [by rewrite S1|by rewrite S2|rewrite S5; by exists d0, u0].
  - case_decide as Hd; [|done]. by destruct Hd.
  - injection Hs as <- <-. split; cbn; eauto.
  - case_decide as Hd; [|done]. injection Hs as <- <-. split; cbn; eauto.
  - destruct (evicting l); [|done]. destruct (sweepPass now keys (lsrv l) fs) as [s fs1]. injection Hs as <- <-. split; cbn; eauto.
  - destruct (evicting l && _); [|done]. injection Hs as <- <-. split; cbn; eauto.
Qed.

Lemma stuckLink_run evs : Forall (λ ev, ev ≠ EvCancel ∧ ev ≠ EvLinkStep) evs → ∀ st st', StuckLink st.1 → lifeRun evs st = Some st' → StuckLink st'.1.
Proof.
  induction 1 as [|ev evs [He Hw] Hevs IH]; intros [l fs] st' Hk; cbn [lifeRun]; [by intros [= <-]|]. destruct (lifeStep ev (l, fs)) as [[l1 fs1]|] eqn:Es; [|done]. cbn [mbind option_bind].
  apply IH. by eapply stuckLink_step.
Qed.
End Life.

(** C23: A server that is told to stop stops, and tears its files down last.
    However the goroutines of a server have run so far, accepting, backing off,
    serving, waiting in blocking commands, evicting, following a master: once its
    context is cancelled it can by its own steps, without any client or the
    master, come to the end of [ListenAndServe].  Whenever it is there, no handler,
    no link and no eviction loop is left, the append-only file is closed, and
    nothing that still happens touches the server or its files. *)
Theorem cancelled_server_stops (CE : CommandEnv) parseErrorText linkOk tempPath snapshotAt s fs0 evs l fs :
  ServerOk s → lifeRun parseErrorText linkOk tempPath snapshotAt evs (lifeStart s, fs0) = Some (l, fs) →
  (ctxDone l = true → ∃ more l' fs' failed errs, Forall (λ ev, internal ev = true) more
     ∧ lifeRun parseErrorText linkOk tempPath snapshotAt more (l, fs) = Some (l', fs') ∧ phase l' = Returned failed errs)
  ∧ (∀ failed errs, phase l = Returned failed errs →
       handlers l = ∅ ∧ link l = NoLink ∧ evicting l = false ∧ aofWriter (lsrv l) = None
       ∧ ∀ ev l' fs', lifeStep parseErrorText linkOk tempPath snapshotAt ev (l, fs) = Some (l', fs') → lsrv l' = lsrv l ∧ fs' = fs ∧ phase l' = phase l).
Proof.
  intros Hs Hr. assert (LifeInv l) as Hi by exact (lifeRun_inv parseErrorText linkOk tempPath snapshotAt evs (lifeStart s, fs0) (l, fs) (lifeStart_inv s Hs) Hr). split.
  - intros Hc. destruct (cancelled_stops parseErrorText linkOk tempPath snapshotAt l fs Hi Hc) as (l' & fs' & failed & errs & (more & Hm & Hrun) & Hp). by exists more, l', fs', failed, errs.
  - intros failed errs Hp. destruct Hi as [_ Hb Hw Hret]. rewrite Hp in Hw, Hret. destruct Hw as (W1 & W2 & _). destruct Hret as (R1 & R2 & R3). split_and!; [done..|].
    assert (blocked l = ∅) as Hb0 by set_solver. intros ev l' fs' Hstep. destruct ev; unfold lifeStep, acceptStep, backoffStep, blockCancelled, handlerExit, evictionTurn, evictionExit, linkDialed, linkStep, mainStep in Hstep; rewrite ?Hp, ?W1, ?W2, ?R1, ?Hb0 in Hstep; try done.
    all: first [by injection Hstep as <- <-|case_decide as Hd; [exfalso; set_solver|done]|idtac].
    all: destruct (ctxDone l); [|done]; injection Hstep as <- <-; unfold shutdownLife; by rewrite ?R2.
Qed.

Definition demoLife : life := @lifeStart demoCommandEnv (New Default (bs "id") NewStore).
Definition demoLifeRun (evs : list event) (l : life) : option (life * FS) := @lifeRun demoCommandEnv (λ _, []) (λ _, true) (bs "tmp") 0 evs (l, demoAof []).

Lemma cancelled_server_stops_witness :
  let evs := [EvAccept (Accepted (bs "peer")); EvAccept AcceptTemporary; EvBackoffEnds; EvAccept (Accepted (bs "peer")); EvRequest 1 [] (wireBytes (line ["SET"; "k"; "v"])); EvBlock 2; EvEvict 0 [bs "k"]; EvCancel] in
  ∃ l fs more l' fs' failed errs, demoLifeRun evs demoLife = Some (l, fs) ∧ handlers l = {[ 1; 2 ]}%nat
    ∧ @lifeRun demoCommandEnv (λ _, []) (λ _, true) (bs "tmp") 0 more (l, fs) = Some (l', fs') ∧ phase l' = Returned failed errs.
Proof.
  intros evs. assert (match demoLifeRun evs demoLife with Some (l, _) => ctxDone l = true ∧ handlers l = {[ 1; 2 ]}%nat | None => False end) as Hc by (vm_compute; split; reflexivity).
  destruct (demoLifeRun evs demoLife) as [[l fs]|] eqn:Er; [|destruct Hc]. destruct Hc as [Hc Hh].
  destruct (cancelled_server_stops demoCommandEnv (λ _, []) (λ _, true) (bs "tmp") 0 (New Default (bs "id") NewStore) (demoAof []) evs l fs) as [H _]; [apply New_ok, NewStore_inv|exact Er|].
  destruct (H Hc) as (more & l' & fs' & failed & errs & _ & Hr & Hp). exists l, fs, more, l', fs', failed, errs. split; [reflexivity|]. split; [exact Hh|]. split; [exact Hr|exact Hp].
Defined.

(** When the accept loop fails without cancellation, [ListenAndServe] closes the
    connections so that "the handlers below unblock"; a handler that waits in BLPOP
    (or in WAIT without a timeout) listens to the context only, which nobody
    cancels: the wait lasts until some other client pushes, and with every
    connection closed nobody does.  The append-only file is never closed, the
    snapshot never written. *)
Lemma failed_accept_waits_for_blocked_handler :
  ∃ l fs, demoLifeRun [EvAccept (Accepted (bs "peer")); EvBlock 1; EvAccept AcceptFailed] demoLife = Some (l, fs) ∧ openConns l = ∅
    ∧ ∀ evs l' fs', Forall (λ ev, ev ≠ EvCancel ∧ ∀ addr data, ev ≠ EvWake 1 addr data) evs →
        @lifeRun demoCommandEnv (λ _, []) (λ _, true) (bs "tmp") 0 evs (l, fs) = Some (l', fs') → phase l' = WaitHandlers true.
Proof.
  assert (match demoLifeRun [EvAccept (Accepted (bs "peer")); EvBlock 1; EvAccept AcceptFailed] demoLife with
    | Some (l, fs) => phase l = WaitHandlers true ∧ ctxDone l = false ∧ blocked l = {[ 1 ]}%nat ∧ handlers l = {[ 1 ]}%nat ∧ openConns l = ∅ | None => False end) as H by (vm_compute; repeat split).
  destruct (demoLifeRun _ demoLife) as [[l fs]|]; [|destruct H]. destruct H as (H1 & H2 & H3 & H4 & H5). exists l, fs. split; [done|]. split; [done|]. intros evs l' fs' Hevs Hr.
  exact (sk_phase _ _ (@stuck_run demoCommandEnv (λ _, []) (λ _, true) (bs "tmp") 0 1 evs Hevs (l, fs) (l', fs') ltac:(cbn [fst]; split; [done|done|rewrite H3, H4; set_solver]) Hr)).
Qed.

(** The same for a replica: the connection to the master whose dial returns after
    the shutdown is not the one that was closed. *)
Definition replicaConfig : Config :=
  mkConfig (bs "127.0.0.1") 6380 (bs "info") (100 * Millisecond) 20 [] [] [] (bs "everysec") (bs "127.0.0.1 6379") [] [] 0 10000 (10 * Millisecond) false.
Definition masterReply : bytes :=
  concat (wireBytes <$> [SimpleString (bs "PONG"); SimpleString (bs "OK"); SimpleString (bs "FULLRESYNC id 0"); bulk EmptySnapshot]).

Lemma failed_accept_waits_for_late_link :
  ∃ l fs, demoLifeRun [EvAccept AcceptFailed; EvDialed 6380 masterReply] (@lifeStart demoCommandEnv (New replicaConfig (bs "id") NewStore)) = Some (l, fs) ∧ shutdownDone l = true
    ∧ ∀ evs l' fs', Forall (λ ev, ev ≠ EvCancel ∧ ev ≠ EvLinkStep) evs →
        @lifeRun demoCommandEnv (λ _, []) (λ _, true) (bs "tmp") 0 evs (l, fs) = Some (l', fs') → phase l' = WaitHandlers true.
Proof.
  assert (match demoLifeRun [EvAccept AcceptFailed; EvDialed 6380 masterReply] (@lifeStart demoCommandEnv (New replicaConfig (bs "id") NewStore)) with
    | Some (l, fs) => phase l = WaitHandlers true ∧ ctxDone l = false ∧ shutdownDone l = true ∧ match link l with LinkOpen _ _ => True | _ => False end | None => False end) as H by (vm_compute; repeat split).
  destruct (demoLifeRun _ _) as [[l fs]|]; [|destruct H]. destruct H as (H1 & H2 & H3 & H4). exists l, fs. split; [done|]. split; [done|]. intros evs l' fs' Hevs Hr.
  exact (sl_phase _ (@stuckLink_run demoCommandEnv (λ _, []) (λ _, true) (bs "tmp") 0 evs Hevs (l, fs) (l', fs') ltac:(cbn [fst]; split; [done|done|destruct (link l) as [| |d u|]; [done|done|by exists d, u|done]]) Hr)).
Qed.
