(* ===== verification/TypeTheorems.v ===== *)
(** * Kinds are kept apart

    An operation of the store on one kind of value never reads or changes a value
    of another. *)

From S2P Require Import Prelude Strconv GoLib Float64 Resp Stream Bitmap HyperLogLog ValueObject ValueFacts.
From S2P Require Import ListWaiters Store StoreOps StoreFacts StoreMemory StoreInvariant StoreTheorems StorePlain.

Section Types.
Context {E : Env}.
Implicit Types (s : Store) (v : ValueObject).

(** The error of an operation. *)
Definition failure {A} (m : M (result storeError A)) : M (option storeError) :=
  let! r := m in ret (match r with Err e => Some e | Ok _ => None end).

Definition attempt (op : storeOp) : M (option storeError) :=
  match op with
  | OpGet key => failure (Get key)
  | OpIncrement key => failure (Increment key)
  | OpPush key values lft => failure (pushList key values lft)
  | OpLeftPop key => failure (LeftPop key)
  | OpRightPop key => failure (RightPop key)
  | OpPopN key count lft => failure (popN key count lft)
  | OpListRange key start stop => failure (ListRange key start stop)
  | OpHSet key pairs => failure (HSet key pairs)
  | OpHGet key field => failure (HGet key field)
  | OpHDel key fields => failure (HDel key fields)
  | OpHGetAll key => failure (HGetAll key)
  | OpSAdd key members => failure (SAdd key members)
  | OpSIsMember key member => failure (SIsMember key member)
  | OpSRem key members => failure (SRem key members)
  | OpSMembers key => failure (SMembers key)
  | OpZAdd key zs => failure (ZAdd key zs)
  | OpZScores key members => failure (ZScores key members)
  | OpZRange key start stop => failure (ZRange key start stop)
  | OpZRangeByScores key ranges => failure (ZRangeByScores key ranges)
  | OpXAdd key id values => failure (XAdd key id values)
  | OpXRead key id => failure (XRead key id)
  | OpSetBit key offset bit => failure (SetBit key offset bit)
  | OpGetBit key offset => failure (GetBit key offset)
  | OpBitCount key start end_ => failure (BitCount key start end_)
  | OpPFAdd key elements => failure (PFAdd key elements)
  | _ => ret None
  end.

(** The kind an operation works on, with its key; [None] for one of no kind (SET,
    DEL), of several keys (PFCOUNT), and for arguments it refuses before it looks
    at the key. *)
Definition typed (op : storeOp) : option (ValueKind * bytes) :=
  match op with
  | OpGet key | OpIncrement key | OpBitCount key _ _ | OpPFAdd key _ => Some (ValueKindString, key)
  | OpGetBit key offset => if validateBitmapOffset offset then Some (ValueKindString, key) else None
  | OpSetBit key offset bit => if validateBitmapArguments offset bit then Some (ValueKindString, key) else None
  | OpPush key values _ => if zlen values =? 0 then None else Some (ValueKindList, key)
  | OpLeftPop key | OpRightPop key | OpListRange key _ _ => Some (ValueKindList, key)
  | OpPopN key count _ => if count <? 0 then None else Some (ValueKindList, key)
  | OpHSet key pairs => if zlen pairs =? 0 then None else Some (ValueKindHash, key)
  | OpHDel key fields => if zlen fields =? 0 then None else Some (ValueKindHash, key)
  | OpHGet key _ | OpHGetAll key => Some (ValueKindHash, key)
  | OpSAdd key members | OpSRem key members => if zlen members =? 0 then None else Some (ValueKindSet, key)
  | OpSIsMember key _ | OpSMembers key => Some (ValueKindSet, key)
  | OpZAdd key zs => if zlen zs =? 0 then None else Some (ValueKindZSet, key)
  | OpZScores key members => if zlen members =? 0 then None else Some (ValueKindZSet, key)
  | OpZRangeByScores key ranges => if zlen ranges =? 0 then None else Some (ValueKindZSet, key)
  | OpZRange key _ _ => Some (ValueKindZSet, key)
  | OpXAdd key _ values => if (zlen values =? 0) || negb (zlen values mod 2 =? 0) then None else Some (ValueKindStream, key)
  | OpXRead key _ => Some (ValueKindStream, key)
  | _ => None
  end.

(** An operation that was refused and left the keyspace alone. *)
Definition Refused {A} s (r : result storeError A * Store) : Prop :=
  r.1 = Err ErrWrongType ∧ (∀ k, lookupKey r.2 k = lookupKey s k) ∧ storeWaiters r.2 = storeWaiters s.

Lemma Refused_bindR {A B} s (m : M (result storeError A)) (k : A → M (result storeError B)) : Refused s (m s) → Refused s (bindR m k s).
Proof. unfold bindR, bind. destruct (m s) as [[a|e] s']; intros (H1 & H2); [done|]. by injection H1 as ->. Qed.

Lemma Refused_failure {A} s (m : M (result storeError A)) : Refused s (m s) →
  (failure m s).1 = Some ErrWrongType ∧ (∀ k, lookupKey (failure m s).2 k = lookupKey s k) ∧ storeWaiters (failure m s).2 = storeWaiters s.
Proof. unfold failure, bind, ret. destruct (m s) as [[a|e] s']; intros (H1 & H2); [done|]. by injection H1 as ->. Qed.

Section Key.
Context s (key : bytes) v (Hv : liveValue s key = Some v).

Lemma live_lookup : lookupKey s key = Some v ∧ isExpired v (readingAt s) = false.
Proof. unfold liveValue, live in Hv. destruct (lookupKey s key) as [x|]; [|done]. destruct (isExpired x (readingAt s)) eqn:Ex; [done|]. by injection Hv as ->. Qed.

Lemma Refused_read {T} (fn : ValueObject → result storeError T) : fn v = Err ErrWrongType → Refused s (readKey key fn s).
Proof.
  intros Hf. destruct live_lookup as [Hl Hx]. unfold readKey, bind, nowMilli, gets. fold (readingAt s). change (lookupKey (tick s) key) with (lookupKey s key).
  rewrite Hl, Hx, Hf. done.
Qed.

Lemma Refused_write {T} (fn : keyWrite → M (result storeError (T * list bytes))) :
  (∀ s1, Refused s1 (fn (mkKeyWrite key (Some v) (readingAt s) (maxMemoryEnabled s)) s1)) → Refused s (writeKey key fn s).
Proof.
  intros Hf. destruct live_lookup as [Hl Hx]. unfold writeKey, bind, nowMilli, gets, prepareExistingValueLocked. fold (readingAt s).
  change (lookupKey (tick s) key) with (lookupKey s key). rewrite Hl, Hx. specialize (Hf (tick s)). change (maxMemoryEnabled (tick s)) with (maxMemoryEnabled s).
  destruct (fn _ (tick s)) as [r s1]. destruct Hf as (H1 & H2 & H3). cbn [fst snd] in *. subst r. destruct (maxMemoryEnabled s); (split; [done|split; [|]]); try done; cbn; unfold publishExpiredKeys; repeat case_match; done.
Qed.

Lemma Refused_pop {T} (take_ : list bytes → T * list bytes) : Kind v ≠ ValueKindList → Refused s (popWith key take_ s).
Proof.
  intros Hk. destruct live_lookup as [Hl Hx]. unfold popWith, bind, liveForUpdate, nowMilli. rewrite Hl. fold (readingAt s). rewrite Hx.
  unfold value_ListValue, ofKind. rewrite decide_False by done. done.
Qed.

Lemma Refused_remove remove len second : (remove v).2 = Err ErrWrongType → Refused s (removeFrom key remove len second s).
Proof.
  intros Hr. destruct live_lookup as [Hl Hx]. unfold removeFrom, nowMilli. rewrite Hl. fold (readingAt s). rewrite Hx.
  destruct (remove v) as [v' r]. cbn in Hr. subst r. done.
Qed.

Lemma Refused_add clone add fresh len : (add v).2 = Err ErrWrongType → (maxMemoryEnabled s = true → ∀ stamp, clone stamp v (ExpiresAt v) = Err ErrWrongType) →
  Refused s (addTo key clone add fresh len s).
Proof.
  intros Hr Hc. unfold addTo. apply Refused_write. intros s1. destruct (maxMemoryEnabled s); unfold bindR, bind, ret; cbn; [by rewrite Hc|]. destruct (add v) as [v' r]. cbn in Hr. by subst r.
Qed.
End Key.

(** The kind tests of the values. *)
Lemma ofKind_wrong {A} v kind (k : result storeError A) : Kind v ≠ kind → ofKind v kind k = Err ErrWrongType.
Proof. intros Hk. unfold ofKind. by rewrite decide_False. Qed.

#[local] Ltac tested Hw :=
  unfold value_StringValue, value_ListValue, value_StreamValue, hashGet, hashEntries, setContains, setMembers, zsetLen, zsetScore, zsetRangeByScore; rewrite Hw; done.
#[local] Ltac reading key Hv Hw := try apply Refused_bindR; apply (Refused_read _ key _ Hv); tested Hw.

Lemma refused_command s op kind key v : typed op = Some (kind, key) → liveValue s key = Some v → Kind v ≠ kind →
  (attempt op s).1 = Some ErrWrongType ∧ (∀ k, lookupKey (attempt op s).2 k = lookupKey s k) ∧ storeWaiters (attempt op s).2 = storeWaiters s.
Proof.
  intros Ht Hv Hk. assert (∀ T (k : result storeError T), ofKind v kind k = Err ErrWrongType) as Hw by (intros; by apply ofKind_wrong).
  destruct op as [|k| | |k|k values lft|k|k|k count lft|k start stop|k pairs|k f|k fields|k|k ms|k m|k ms|k|k zs|k ms|k start stop|k rs|k i values|k i|k o b|k o|k a b|k es| | | | | | | | | |];
    cbn [typed] in Ht; try done; try (match type of Ht with context [if ?b then _ else _] => destruct b eqn:Eb; try done end); injection Ht as <- <-; cbn [attempt]; apply Refused_failure.
  all: try (unfold Get, withStringValue, ListRange, HGet, HGetAll, SIsMember, SMembers, ZRange, XRead, GetBit, BitCount; try match goal with Ho : validateBitmapOffset _ = true |- _ => rewrite Ho end; reading k Hv Hw).
  - apply (Refused_write _ k _ Hv). intros s1. cbn. unfold value_StringValue. by rewrite Hw.
  - unfold pushList. rewrite Eb. apply Refused_bindR, (Refused_write _ k _ Hv). intros s1. cbn. unfold value_ListValue. by rewrite Hw.
  - by apply (Refused_pop _ k _ Hv).
  - by apply (Refused_pop _ k _ Hv).
  - unfold popN. rewrite Eb. by apply (Refused_pop _ k _ Hv).
  - unfold HSet. rewrite Eb. apply (Refused_add _ k _ Hv); [unfold hashSet; by rewrite bool_decide_false|intros; apply Hw].
  - unfold HDel. rewrite Eb. apply (Refused_remove _ k _ Hv). unfold hashDel. by rewrite bool_decide_false.
  - unfold SAdd. rewrite Eb. apply (Refused_add _ k _ Hv); [unfold setAdd; by rewrite bool_decide_false|intros; apply Hw].
  - unfold SRem. rewrite Eb. apply (Refused_remove _ k _ Hv). unfold setRemove. by rewrite bool_decide_false.
  - unfold ZAdd. rewrite Eb. apply (Refused_add _ k _ Hv); [unfold zsetAdd; by rewrite bool_decide_false|intros; apply Hw].
  - destruct ms as [|m ms]; [done|]. unfold ZScores. apply Refused_bindR, (Refused_read _ k _ Hv). cbn. unfold zsetScore. by rewrite Hw.
  - destruct rs as [|r rs]; [done|]. unfold ZRangeByScores. apply Refused_bindR, (Refused_read _ k _ Hv). cbn. unfold zsetRangeByScore. by rewrite Hw.
  - unfold XAdd. rewrite Eb. apply (Refused_write _ k _ Hv). intros s1. cbn. unfold value_StreamValue. by rewrite Hw.
  - unfold SetBit. rewrite Eb. apply (Refused_write _ k _ Hv). intros s1. cbn. unfold value_StringValue. by rewrite Hw.
  - apply (Refused_write _ k _ Hv). intros s1. cbn. unfold value_StringValue. by rewrite Hw.
Qed.
End Types.

(** C20: types are enforced: every operation of the store on one key that works on
    one kind of value, given a key that holds a live value of another kind, fails
    with [ErrWrongType], with or without a memory limit and whatever its other
    arguments (those it refuses unseen apart); it changes no key, evicts and removes
    none and wakes no blocked client. *)
Theorem wrong_type_refused (E : Env) s op kind key v :
  typed op = Some (kind, key) → liveValue s key = Some v → Kind v ≠ kind →
  let '(e, s') := attempt op s in
  e = Some ErrWrongType ∧ (∀ k, lookupKey s' k = lookupKey s k) ∧ storeWaiters s' = storeWaiters s.
Proof. intros Ht Hv Hk. pose proof (refused_command s op kind key v Ht Hv Hk) as H. by destruct (attempt op s). Qed.

(** A list operation on a string, under a memory limit. *)
Lemma wrong_type_refused_witness :
  let s := @runOps demoEnv (λ x, x) [OpConfigureMaxMemory 100 5; OpSet (bs "k") (bs "v") 0] NewStore in
  let '(e, s') := @attempt demoEnv (OpPush (bs "k") [bs "x"] true) s in
  e = Some ErrWrongType ∧ (∀ k, @lookupKey demoEnv s' k = @lookupKey demoEnv s k) ∧ storeWaiters s' = storeWaiters s.
Proof.
  intros s. assert (∃ v, @liveValue demoEnv s (bs "k") = Some v ∧ Kind v = ValueKindString) as (v & Hv & Hk) by (vm_compute; eexists; split; reflexivity).
  apply (wrong_type_refused demoEnv s (OpPush (bs "k") [bs "x"] true) ValueKindList (bs "k") v); [done|exact Hv|by rewrite Hk].
Defined.
