(* ===== verification/Keyspace.v ===== *)
(** * The keyspace a client sees

    An abstract specification of the commands that write: the keyspace is a
    finite map from keys to contents with deadlines, and a request is a partial
    function on it, [None] where the command is refused.  Nothing of shards,
    encodings, access times, memory accounting or skip lists is left.

    [KeyspaceOps] shows that the operations of the store implement the functions
    on one key, [KeyspaceCommands] that the commands of the executor implement
    [applyRequest]; [ReplayTheorems] draws the consequences for the frames a
    command sends to replicas and to the append-only file. *)

From S2P Require Import Prelude Strconv GoLib CompactHash Float64 CompactZSet SkipListFacts Stream Bitmap HyperLogLog ValueObject ValueFacts.
From S2P Require Import Store StoreOps StoreFacts StorePlain StoreFrames Replication CommandBase Commands.

(** What a key holds, with its deadline. *)
Abbreviation held := (content * Z)%type.
Abbreviation Keyspace := (gmap bytes held).

(** ** One key

    The content an operation of a kind starts from: a missing key counts as an
    empty value without deadline, a value of another kind refuses. *)

Definition asString (cur : option held) : option (bytes * Z) :=
  match cur with None => Some ([], 0) | Some (CString data, e) => Some (data, e) | Some _ => None end.
Definition asList (cur : option held) : option (list bytes * Z) :=
  match cur with None => Some ([], 0) | Some (CList l, e) => Some (l, e) | Some _ => None end.
Definition asHash (cur : option held) : option (gmap bytes bytes * Z) :=
  match cur with None => Some (∅, 0) | Some (CHash h, e) => Some (h, e) | Some _ => None end.
Definition asSet (cur : option held) : option (gset bytes * Z) :=
  match cur with None => Some (∅, 0) | Some (CSet X, e) => Some (X, e) | Some _ => None end.
Definition asStream (cur : option held) : option (StreamValue * Z) :=
  match cur with None => Some (newStream, 0) | Some (CStream (Some st), e) => Some (st, e) | Some _ => None end.

(** A collection is there as long as it is not empty. *)
Definition unlessEmpty (empty : bool) (c : content) (e : Z) : option held := if empty then None else Some (c, e).

(** What the key holds afterwards; the outer [None] is a refusal. *)
Abbreviation keyStep := (option held → option (option held)).

Definition specSet (value : bytes) (e : Z) : keyStep := λ _, Some (Some (CString value, e)).
Definition specSetBit (offset bit : Z) : keyStep := λ cur,
  '(data, e) ← asString cur;
  Some (Some (CString (setBitInPayload (zeroPad (Z.max (offset / 8 + 1) (zlen data)) data) offset bit), e)).
Definition specPFAdd (elements : list bytes) : keyStep := λ cur,
  match cur with
  | None => Some (Some (CString (updatePayload newHyperLogLogPayload elements).1, 0))
  | Some (CString data, e) =>
      match hyperLogLogRegisters data with
      | None => None
      | Some _ => Some (Some (CString (updatePayload data elements).1, e))
      end
  | Some _ => None
  end.
Definition specIncr : keyStep := λ cur,
  match cur with
  | None => Some (Some (CString (bs "1"), 0))
  | Some (CString data, e) =>
      n ← ParseInt data;
      if n =? max_int64 then None else Some (Some (CString (FormatInt (n + 1)), e))
  | Some _ => None
  end.
Definition specPush (values : list bytes) (lft : bool) : keyStep := λ cur,
  '(l, e) ← asList cur; Some (Some (CList (pushed l values lft), e)).
Definition specPop (count : nat) (lft : bool) : keyStep := λ cur,
  '(l, e) ← asList cur;
  let rest := if lft then drop count l else take (length l - count) l in
  Some (unlessEmpty (bool_decide (rest = [])) (CList rest) e).
Definition specHSet (pairs : list HashFieldValue) : keyStep := λ cur,
  '(h, e) ← asHash cur; Some (Some (CHash (hashUpd h pairs), e)).
Definition specHDel (fields : list bytes) : keyStep := λ cur,
  '(h, e) ← asHash cur; let h' := hashDrop h fields in Some (unlessEmpty (bool_decide (h' = ∅)) (CHash h') e).
Definition specSAdd (members : list bytes) : keyStep := λ cur,
  '(X, e) ← asSet cur; Some (Some (CSet (X ∪ list_to_set members), e)).
Definition specSRem (members : list bytes) : keyStep := λ cur,
  '(X, e) ← asSet cur; let X' := X ∖ list_to_set members in Some (unlessEmpty (bool_decide (X' = ∅)) (CSet X') e).
(** An update with an equal score keeps the old one, which differs in the sign of zero. *)
Definition specZAdd (zs : list scored) : keyStep := λ cur,
  match cur with
  | None => Some (Some (CZSet (zsetUpd ∅ zs), 0))
  | Some (CZSet z, e) => Some (Some (CZSet (zaddAll z zs), e))
  | Some _ => None
  end.
Definition specXAdd (nowMillis : Z) (rawID : bytes) (values : list bytes) : keyStep := λ cur,
  '(st, e) ← asStream cur;
  match Stream_add st rawID values nowMillis with Ok (st', _) => Some (Some (CStream (Some st'), e)) | Err _ => None end.

(** ** Requests *)

Definition onKey (key : bytes) (f : keyStep) (m : Keyspace) : option Keyspace :=
  o ← f (m !! key); Some (partial_alter (λ _, o) key m).

Definition okOr {E A B} (r : result E A) (k : A → option B) : option B := match r with Ok a => k a | Err _ => None end.

Definition popCount (request : Request) : option nat :=
  if argc request =? 1 then Some 1%nat
  else n ← ParseInt (arg 1 request); if n <? 0 then None else Some (Z.to_nat n).

(** What a command takes as arguments, and what it does; [now] is the reading of
    the clock, in nanoseconds, that the command anchors a relative time to. *)
Record commandMeaning := mkMeaning {
  arityOk : Z → bool;
  meaning : Z → Request → Keyspace → option Keyspace
}.

Definition onFirst (f : Request → option keyStep) : Z → Request → Keyspace → option Keyspace := λ _ request m,
  step ← f request; onKey (arg 0 request) step m.
Definition rest (request : Request) : list bytes := drop 1 (Args request).

Definition writeMeanings : list (string * commandMeaning) := [
  ("SET", mkMeaning (λ n, 2 <=? n) (λ now request m,
     okOr (ParseExpiryMillis now (drop 2 (Args request))) (λ e, onKey (arg 0 request) (specSet (arg 1 request) e) m)));
  ("SETBIT", mkMeaning (λ n, n =? 3) (onFirst (λ request,
     okOr (parseBitmapOffsetArgument (arg 1 request)) (λ offset, okOr (parseBitValueArgument (arg 2 request)) (λ bit, Some (specSetBit offset bit))))));
  ("PFADD", mkMeaning (λ n, 1 <=? n) (onFirst (λ request, Some (specPFAdd (rest request)))));
  ("DEL", mkMeaning (λ n, 1 <=? n) (λ _ request m, Some (foldl (λ m k, delete k m) m (Args request))));
  ("INCR", mkMeaning (λ n, n =? 1) (onFirst (λ _, Some specIncr)));
  ("LPUSH", mkMeaning (λ n, 2 <=? n) (onFirst (λ request, Some (specPush (rest request) true))));
  ("RPUSH", mkMeaning (λ n, 2 <=? n) (onFirst (λ request, Some (specPush (rest request) false))));
  ("LPOP", mkMeaning (λ n, (n =? 1) || (n =? 2)) (onFirst (λ request, n ← popCount request; Some (specPop n true))));
  ("RPOP", mkMeaning (λ n, (n =? 1) || (n =? 2)) (onFirst (λ request, n ← popCount request; Some (specPop n false))));
  ("ZADD", mkMeaning (λ n, (3 <=? n) && negb (n mod 2 =? 0)) (onFirst (λ request,
     okOr (parseEntries (pairsOf (rest request))) (λ zs, Some (specZAdd zs)))));
  ("GEOADD", mkMeaning (λ n, (4 <=? n) && ((n - 1) mod 3 =? 0)) (onFirst (λ request,
     okOr (parseGeoEntries (triplesOf (rest request))) (λ zs, Some (specZAdd zs)))));
  ("XADD", mkMeaning (λ n, (4 <=? n) && (n mod 2 =? 0)) (λ now request m,
     onKey (arg 0 request) (specXAdd (now / 1000000) (arg 1 request) (drop 2 (Args request))) m));
  ("HSET", mkMeaning (λ n, (3 <=? n) && negb (n mod 2 =? 0)) (onFirst (λ request, Some (specHSet (pairsOf (rest request))))));
  ("HDEL", mkMeaning (λ n, 2 <=? n) (onFirst (λ request, Some (specHDel (rest request)))));
  ("SADD", mkMeaning (λ n, 2 <=? n) (onFirst (λ request, Some (specSAdd (rest request)))));
  ("SREM", mkMeaning (λ n, 2 <=? n) (onFirst (λ request, Some (specSRem (rest request)))))].

Definition meaningOf (name : bytes) : option commandMeaning :=
  (λ p, p.2.2) <$> list_find (λ p : string * commandMeaning, bs p.1 = name) writeMeanings.

(** The keyspace after a request; [None] when it is refused or is no write. *)
Definition applyRequest (now : Z) (request : Request) (m : Keyspace) : option Keyspace :=
  c ← meaningOf (Name request); if arityOk c (argc request) then meaning c now request m else None.

(** ** Stores that hold a keyspace *)

Section Env.
Context {E : Env}.

Definition view (s : Store) (k : bytes) : option held := contentOf <$> lookupKey s k.
Definition Represents (m : Keyspace) (s : Store) : Prop := ∀ k, view s k = m !! k.

(** No deadline of the keyspace lies before [D], and no reading of the clock
    after it: nothing expires.  A run takes finitely many readings, so any run
    that ends before its first deadline has such a clock. *)
Definition Lasting (D : Z) (m : Keyspace) : Prop := map_Forall (λ _ o, o.2 ≤ 0 ∨ D ≤ o.2) m.
Definition ClockUpTo (D : Z) : Prop := ∀ n, clock n / 1000000 ≤ D.
End Env.
