(* ===== verification/KeyspaceOps.v ===== *)
(** * The operations of the store implement the keyspace

    [Does key m quiet f]: on any store without a memory limit in which nothing
    expires, [m] succeeds exactly when [f] accepts the content of [key], leaves
    what [f] says under the key and every other key alone; a refusal changes
    nothing. *)

From S2P Require Import Prelude Strconv GoLib CompactHash Float64 CompactZSet SkipListFacts Stream Bitmap HyperLogLog ValueObject ValueFacts.
From S2P Require Import ListWaiters Store StoreOps StoreFacts StoreMemory StoreInvariant StoreTheorems StorePlain StoreFrames Rdb RdbFacts.
From S2P Require Import Replication CommandBase Commands TypeTheorems Keyspace.

Section Ops.
Context {E : Env}.
Implicit Types (s : Store) (v : ValueObject).

(** ** The judgement *)

Definition Unexpiring s : Prop := ∀ k v n, lookupKey s k = Some v → isExpired v (clock n / 1000000) = false.

Record Changed (key : bytes) (o : option held) s s' : Prop := {
  ch_inv : StoreInv s';
  ch_max : maxMemory s' = maxMemory s;
  ch_view : ∀ k, view s' k = if decide (k = key) then o else view s k
}.

Record Same s s' : Prop := {
  sm_inv : StoreInv s';
  sm_max : maxMemory s' = maxMemory s;
  sm_view : ∀ k, view s' k = view s k
}.

Definition DoesAt {A} s (key : bytes) (m : M (result storeError A)) (quiet : A → Prop) (f : keyStep) : Prop :=
  match f (view s key) with
  | Some o => ∃ a s', m s = (Ok a, s') ∧ quiet a ∧ Changed key o s s'
  | None => ∃ e s', m s = (Err e, s') ∧ Same s s'
  end.

Definition Does {A} (key : bytes) (m : M (result storeError A)) (quiet : A → Prop) (f : keyStep) : Prop := ∀ s,
  StoreInv s → maxMemoryEnabled s = false → Unexpiring s → DoesAt s key m quiet f.

(** Nothing was evicted. *)
Definition noneEvicted {A} (r : A * list bytes) : Prop := r.2 = [].

Lemma unexpired_live s k : Unexpiring s → liveValue s k = lookupKey s k.
Proof.
  intros Hu. unfold liveValue, live. destruct (lookupKey s k) as [v|] eqn:Ek; [|done]. unfold readingAt. by rewrite (Hu k v).
Qed.

Lemma From_same s s' : Unexpiring s → From s [] s' → Same s s'.
Proof.
  intros Hu [H1 _ [H2 _ H3]]. split; [done|done|]. intros k. unfold view.
  destruct (H3 k ltac:(by intros ?%elem_of_nil)) as [->|(v & Hv & _ & i & _ & Hx)]; [done|]. rewrite (Hu k v i Hv) in Hx. done.
Qed.

Lemma KeyChanged_view key (v : option ValueObject) s s' : KeyChanged key v s s' → Changed key (contentOf <$> v) s s'.
Proof. intros [H1 H2 H3]. split; [done|done|]. intros k. unfold view. rewrite H3. by case_decide. Qed.

(** A refusal changes nothing because the operation answers for nothing. *)
Lemma DoesAt_intro {A} key (m : M (result storeError A)) (quiet : A → Prop) (f : keyStep) g s :
  StoreInv s → maxMemoryEnabled s = false → Unexpiring s → Foot m g → (∀ e, g (Err e) = []) →
  match f (view s key) with
  | Some o => ∃ a s' (v : option ValueObject), m s = (Ok a, s') ∧ quiet a ∧ KeyChanged key v s s' ∧ contentOf <$> v = o
  | None => ∃ e, (m s).1 = Err e
  end → DoesAt s key m quiet f.
Proof.
  intros Hs Hp Hu Hf Hg Hm. unfold DoesAt. pose proof (Foot_run m g s Hf Hs Hp) as Hfrom. destruct (f _) as [o|].
  - destruct Hm as (a & s' & v & -> & Hq & Hk & <-). exists a, s'. split_and!; [done|done|by apply KeyChanged_view].
  - destruct Hm as [e He]. destruct (m s) as [r s']. cbn in *. subst r. rewrite Hg in Hfrom. exists e, s'. split; [done|by apply From_same].
Qed.

Lemma Does_intro {A} key (m : M (result storeError A)) (quiet : A → Prop) (f : keyStep) g :
  Foot m g → (∀ e, g (Err e) = []) →
  (∀ s, StoreInv s → maxMemoryEnabled s = false → Unexpiring s →
    match f (view s key) with
    | Some o => ∃ a s' (v : option ValueObject), m s = (Ok a, s') ∧ quiet a ∧ KeyChanged key v s s' ∧ contentOf <$> v = o
    | None => ∃ e, (m s).1 = Err e
    end) → Does key m quiet f.
Proof. intros Hf Hg Hm s Hs Hp Hu. eapply DoesAt_intro; [done..|exact Hf|exact Hg|by apply Hm]. Qed.

Lemma failure_Err {A} (m : M (result storeError A)) s e : (failure m s).1 = Some e → (m s).1 = Err e.
Proof. unfold failure, bind, ret. destruct (m s) as [[a|e'] s']; cbn; [done|by intros [= ->]]. Qed.

(** A value of another kind refuses. *)
Lemma wrong_kind op kind key v s : StoreInv s → maxMemoryEnabled s = false → Unexpiring s →
  typed op = Some (kind, key) → lookupKey s key = Some v → Kind v ≠ kind → (attempt op s).1 = Some ErrWrongType.
Proof.
  intros Hs Hp Hu Ht Hv Hk. rewrite <- (unexpired_live s key Hu) in Hv. by apply (refused_command s op kind key v).
Qed.

(** ** Lists *)

Lemma view_Some s key v : lookupKey s key = Some v → view s key = Some (contentOf v).
Proof. intros H. unfold view. by rewrite H. Qed.
Lemma view_None s key : lookupKey s key = None → view s key = None.
Proof. intros H. unfold view. by rewrite H. Qed.

(** The value under the key, by kind; a branch for every other kind refuses. *)
Ltac by_kind key s v Hv K :=
  destruct (lookupKey s key) as [v|] eqn:Hv; [rewrite (view_Some s key v Hv); unfold contentOf at 1; destruct (Kind v) eqn:K|rewrite (view_None s key Hv)]; cbn -[contentOf pushList popWith SetBit PFAdd Increment HSet HDel SAdd SRem ZAdd XAdd].
Ltac refuse op kind solve_typed := match goal with
  | Hs : StoreInv ?s, Hp : maxMemoryEnabled ?s = false, Hu : Unexpiring ?s, Hv : lookupKey ?s ?key = Some ?v |- _ =>
      exists ErrWrongType; apply failure_Err; apply (wrong_kind op kind key v s Hs Hp Hu); [cbn [typed]; solve_typed|exact Hv|congruence] end.

Lemma Does_Set key value e : Does key (Set_ key value e) (λ ev, ev = []) (specSet value e).
Proof.
  eapply Does_intro; [apply Foot_Set|done|]. intros s Hs Hp Hu. destruct (Set_plain key value e s Hs Hp) as (s' & v & Heq & Hk & K & V & Ex & _).
  exists [], s', (Some v). split_and!; [done..|]. cbn. unfold contentOf. by rewrite K, V, Ex.
Qed.

Lemma Does_push key values lft : values ≠ [] → Does key (pushList key values lft) noneEvicted (specPush values lft).
Proof.
  intros Hne. eapply Does_intro; [apply Foot_pushList|done|]. intros s Hs Hp Hu.
  assert ((zlen values =? 0) = false) as Hz by (by destruct values).
  by_kind key s v Hv K; try refuse (OpPush key values lft) ValueKindList ltac:(by rewrite Hz).
  all: destruct (pushList_plain _ key values lft s Hs Hp Hne) as (s' & v' & Heq & Hk & K' & V' & E' & _);
    [rewrite unexpired_live, Hv by done; first [exact K|exact I]|]; rewrite unexpired_live, Hv in V', E', Heq by done; eexists _, s', (Some v');
    (split_and!; [exact Heq|done|done|]); cbn; unfold contentOf; by rewrite K', V', E'.
Qed.

Lemma pop_view {T} key (take_ : list bytes → T * list bytes) (restOf : list bytes → list bytes) s :
  StoreInv s → maxMemoryEnabled s = false → Unexpiring s → restOf [] = [] → (∀ l, (take_ l).2 = restOf l) →
  match ('(l, e) ← asList (view s key); Some (unlessEmpty (bool_decide (restOf l = [])) (CList (restOf l)) e)) with
  | Some o => ∃ a s' (v : option ValueObject), popWith key take_ s = (Ok a, s') ∧ True ∧ KeyChanged key v s s' ∧ contentOf <$> v = o
  | None => ∃ e, (popWith key take_ s).1 = Err e
  end.
Proof.
  intros Hs Hp Hu Hnil Ht.
  by_kind key s v Hv K; try (exists ErrWrongType; apply (Refused_pop s key v); [by rewrite unexpired_live|congruence]).
  - destruct (popWith_plain key take_ s Hs Hp) as (s' & v' & Heq & Hk & K' & V' & E'); [rewrite unexpired_live, Hv by done; first [exact K|exact I]|].
    rewrite unexpired_live, Hv in V', E', Heq, Hk by done. cbn [listAt] in *. rewrite Ht in *.
    destruct (lookup_good _ _ _ Hs Hv) as [_ Hg]. rewrite K in Hg. eexists _, s', _. split_and!; [exact Heq|done|exact Hk|].
    destruct (vList v) as [|x l] eqn:El; [done|]. rewrite <- El in *. unfold unlessEmpty.
    destruct (restOf (vList v)) as [|y r] eqn:Er; [done|]. rewrite bool_decide_eq_false_2 by done.
    assert ((zlen (y :: r) =? 0) = false) as -> by done. cbn. unfold contentOf. by rewrite K', V', E'.
  - destruct (popWith_plain key take_ s Hs Hp) as (s' & v' & Heq & Hk & _); [rewrite unexpired_live, Hv by done; first [exact K|exact I]|].
    rewrite unexpired_live, Hv in Heq, Hk by done. cbn [listAt] in *. eexists _, s', (@None ValueObject). split_and!; [exact Heq|done|exact Hk|].
    by rewrite Hnil, bool_decide_eq_true_2.
Qed.

Lemma Does_pop key (lft : bool) : Does key (if lft then LeftPop key else RightPop key) (λ _, True) (specPop 1 lft).
Proof.
  eapply (Does_intro _ _ _ _ (poppedFor poppedOne key)); [destruct lft; [apply Foot_LeftPop|apply Foot_RightPop]|done|]. intros s Hs Hp Hu.
  destruct lft; [apply (pop_view key _ (drop 1))|apply (pop_view key _ (λ l, take (length l - 1) l))]; try done.
  intros l. cbn [snd]. unfold ztake. f_equal. len.
Qed.

Lemma Does_popN key count (lft : bool) : 0 ≤ count → Does key (popN key count lft) (λ _, True) (specPop (Z.to_nat count) lft).
Proof.
  intros Hc. eapply (Does_intro _ _ _ _ (poppedFor (poppedMany count) key)); [apply Foot_popN|done|]. intros s Hs Hp Hu.
  unfold popN. rewrite (proj2 (Z.ltb_ge _ _)) by done.
  apply (pop_view key _ (λ l, if lft then drop (Z.to_nat count) l else take (length l - Z.to_nat count) l)); try done.
  { destruct lft; [apply drop_nil|apply take_nil]. }
  intros l. cbn zeta. destruct (Z.ltb_spec count (zlen l)); destruct lft; cbn [snd]; unfold ztake, zdrop.
  - done.
  - f_equal. len.
  - rewrite (drop_ge l) by len. symmetry. apply drop_ge. len.
  - f_equal. len.
Qed.

(** ** Strings *)

(** A string is its length and its bits. *)
Lemma bits_ext (a c : bytes) : zlen a = zlen c → (∀ o, 0 ≤ o → bitAt a o = bitAt c o) → a = c.
Proof.
  intros Hl Hb. assert (∀ i, 0 ≤ i → byteAt a i = byteAt c i) as Hbyte.
  { intros i Hi. apply Z.bits_inj'. intros k Hk. destruct (decide (k < 8)) as [Hk8|Hk8].
    - specialize (Hb (i * 8 + (7 - k)) ltac:(lia)). rewrite !bitAt_testbit in Hb by lia.
      rewrite (Z.div_add_l i 8), Z.div_small, Z.add_0_r in Hb by lia. rewrite (Z.add_comm (i * 8)), Z.mod_add, Z.mod_small in Hb by lia.
      replace (7 - (7 - k)) with k in Hb by lia. by apply Z.b2z_inj.
    - assert (∀ d : bytes, Z.testbit (byteAt d i) k = false) as Hhi; [|by rewrite !Hhi].
      intros d. pose proof (b2z_range (default x00 (d !! Z.to_nat i))) as Hr. change 256 with (2 ^ 8) in Hr.
      unfold byteAt. destruct (Z.eqb_spec (b2z (default x00 (d !! Z.to_nat i))) 0) as [->|Hz]; [apply Z.testbit_0_l|].
      apply Z.bits_above_log2; [lia|]. apply Z.lt_le_trans with 8; [apply Z.log2_lt_pow2; lia|lia]. }
  apply (list_eq_same_length _ _ (length a)); [unfold zlen in Hl; lia|done|]. intros i x y Hi Hx Hy. apply b2z_inj.
  specialize (Hbyte (Z.of_nat i) ltac:(lia)). unfold byteAt in Hbyte. by rewrite Nat2Z.id, Hx, Hy in Hbyte.
Qed.

Lemma Does_SetBit key offset bit : validateBitmapArguments offset bit = true →
  Does key (SetBit key offset bit) noneEvicted (specSetBit offset bit).
Proof.
  intros Hval. assert (0 ≤ offset ∧ (bit = 0 ∨ bit = 1)) as [Ho Hbit].
  { unfold validateBitmapArguments, validateBitmapOffset in Hval. bool_to_prop.
    match goal with H : negb _ && negb _ = false |- _ => apply andb_false_iff in H; rewrite !negb_false_iff, !Z.eqb_eq in H end. split; [lia|tauto]. }
  eapply Does_intro; [apply Foot_SetBit|done|]. intros s Hs Hp Hu.
  assert (∀ data v', zlen (vString v') = Z.max (offset / 8 + 1) (zlen data) →
    (∀ o, 0 ≤ o → bitAt (vString v') o = if decide (o = offset) then bit else bitAt data o) →
    vString v' = setBitInPayload (zeroPad (Z.max (offset / 8 + 1) (zlen data)) data) offset bit) as Hexact.
  { intros data v' Hlen Hbits. apply bits_ext; [by rewrite zlen_setBit, zlen_zeroPad by lia|]. intros o Ho'.
    rewrite Hbits, bitAt_setBit by (try done; rewrite zlen_zeroPad; lia). case_decide; [done|].
    pose proof (Z.div_pos o 8 Ho' ltac:(lia)). by rewrite !bitAt_testbit, byteAt_zeroPad by done. }
  by_kind key s v Hv K; try refuse (OpSetBit key offset bit) ValueKindString ltac:(by rewrite Hval).
  all: destruct (SetBit_plain _ key offset bit s Hs Hp Hval) as (s' & v' & Heq & Hk & K' & B' & L' & E');
    [rewrite unexpired_live, Hv by done; first [exact K|exact I]|]; rewrite unexpired_live, Hv in B', L', E', Heq by done; cbn [stringAt] in *;
    eexists _, s', (Some v'); (split_and!; [exact Heq|done|done|]); cbn; unfold contentOf; by rewrite K', E', (Hexact _ v' L' B').
Qed.

Lemma Does_PFAdd key elements : Does key (PFAdd key elements) noneEvicted (specPFAdd elements).
Proof.
  eapply Does_intro; [apply Foot_PFAdd|done|]. intros s Hs Hp Hu.
  by_kind key s v Hv K; try refuse (OpPFAdd key elements) ValueKindString ltac:(reflexivity); unfold PFAdd;
    match goal with |- context [writeKey key ?f s] => set (fn := f) end;
    destruct (writeKey_plain key fn s Hs Hp) as (s1 & Hw & Hk1 & Ht1 & Hen1 & _); rewrite Hw; unfold fn; cbn [wcurrent wkey]; rewrite unexpired_live, Hv by done;
    rewrite unexpired_live, Hv in Hk1 by done.
  - unfold value_StringValue, ofKind. rewrite decide_True by done. destruct (hyperLogLogRegisters (vString v)); [|by eexists].
    destruct (updatePayload (vString v) elements) as [data' changed] eqn:Eu. set (v' := touch (setString v data') _).
    assert (lookupKey s1 key = Some v) as Hl1 by (rewrite (kc_lookup _ _ _ _ Hk1); by rewrite decide_True).
    pose proof (updateInPlace_spec key v' v s1 (kc_inv _ _ _ _ Hk1) Hl1 eq_refl (GoodString v' K)) as [U1 (_ & U2 & _) _ U4 _ _].
    unfold bind, modify, ret. eexists _, _, (Some v'). split_and!; [done|done| |cbn; unfold contentOf; by rewrite (K : Kind v' = _)].
    eapply KeyChanged_trans; [exact Hk1|]. by split.
  - unfold bind at 1, nowMilli at 1. set (v' := touch (newOwnedStringValue _ _ 0) _). unfold bindR, bind.
    match goal with |- context [commit ?w v' (tick s1)] => destruct (commit_plain w v' (tick s1) eq_refl (tick_inv _ (kc_inv _ _ _ _ Hk1)) (GoodString v' eq_refl)) as (s2 & Hc & Hk2 & _) end.
    rewrite Hc. unfold ret. eexists _, s2, (Some v'). split_and!; [done|done| |done].
    eapply KeyChanged_trans; [by apply KeyChanged_tick|exact Hk2].
Qed.

Lemma Does_Increment key : Does key (Increment key) noneEvicted specIncr.
Proof.
  eapply Does_intro; [apply Foot_Increment|done|]. intros s Hs Hp Hu.
  by_kind key s v Hv K; try refuse (OpIncrement key) ValueKindString ltac:(reflexivity).
  - destruct (Increment_plain _ key s Hs Hp) as (s' & H); [rewrite unexpired_live, Hv by done; exact K|]. rewrite unexpired_live, Hv in H by done.
    destruct (ParseInt (vString v)) as [n|]; cbn -[Increment contentOf]; [|exists ErrValueNotInteger; by rewrite (proj1 H)].
    destruct (n =? max_int64); [exists ErrValueNotInteger; by rewrite (proj1 H)|]. destruct H as (v' & Heq & Hk & V' & E' & K').
    exists (n + 1, []), s', (Some v'). split_and!; [exact Heq|done|done|]. cbn. unfold contentOf.
    by rewrite K', V', E'.
  - destruct (Increment_plain _ key s Hs Hp) as (s' & H); [rewrite unexpired_live, Hv by done; exact I|]. rewrite unexpired_live, Hv in H by done.
    destruct H as (v' & Heq & Hk & V' & E' & K'). exists (1, []), s', (Some v'). split_and!; [exact Heq|done|done|]. cbn. unfold contentOf.
    by rewrite K', V', E'.
Qed.

(** ** Hashes, sets and sorted sets *)

Lemma Does_addTo key clone add fresh len n f :
  Foot (addTo key clone add fresh len) (answersFor key) →
  (∀ stamp, GoodValue (fresh stamp) ∧ len (fresh stamp) = Ok n ∧ f None = Some (Some (contentOf (fresh stamp)))) →
  (∀ v, GoodValue v →
    match f (Some (contentOf v)) with
    | Some o => ∃ v' n', add v = (v', Ok n') ∧ GoodValue v' ∧ o = Some (contentOf v')
    | None => (add v).2 = Err ErrWrongType
    end) → Does key (addTo key clone add fresh len) noneEvicted f.
Proof.
  intros Hfoot Hfresh Hadd. eapply Does_intro; [exact Hfoot|done|]. intros s Hs Hp Hu.
  destruct (lookupKey s key) as [v|] eqn:Hv; [rewrite (view_Some s key v Hv)|rewrite (view_None s key Hv)].
  - specialize (Hadd v (lookup_good _ _ _ Hs Hv)). destruct (f (Some (contentOf v))) as [o|].
    + destruct Hadd as (v' & n' & Ha & Hg & ->).
      destruct (addTo_plain key clone add fresh len s n' Hs Hp) as (s' & v1 & stamp & Heq & Hk & Hv1);
        [rewrite unexpired_live, Hv by done; intros _; by exists v'|].
      rewrite unexpired_live, Hv in Hv1 by done. exists (n', []), s', (Some v1). split_and!; [done..|]. rewrite Hv1, Ha. done.
    + exists ErrWrongType. apply (Refused_add s key v); [by rewrite unexpired_live|done|congruence].
  - destruct (Hfresh 0) as (_ & _ & ->).
    destruct (addTo_plain key clone add fresh len s n Hs Hp) as (s' & v1 & stamp & Heq & Hk & Hv1);
      [rewrite unexpired_live, Hv by done; intros st; by destruct (Hfresh st) as (? & ? & _)|].
    rewrite unexpired_live, Hv in Hv1 by done. exists (n, []), s', (Some v1). split_and!; [done..|]. rewrite Hv1.
    destruct (Hfresh 0) as (_ & _ & H0), (Hfresh stamp) as (_ & _ & H1). change (Some (contentOf (fresh stamp)) = Some (contentOf (fresh 0))). congruence.
Qed.

Lemma Does_removeFrom key remove len second f :
  Foot (removeFrom key remove len second) (removedFor key) → f None = Some None →
  (∀ v, GoodValue v →
    match f (Some (contentOf v)) with
    | Some o => ∃ v' n m, remove v = (v', Ok n) ∧ Kind v' = Kind v ∧ (∀ stamp, len (touch v' stamp) = Ok m)
        ∧ (m ≠ 0 → GoodValue v') ∧ o = if m =? 0 then None else Some (contentOf v')
    | None => (remove v).2 = Err ErrWrongType
    end) → Does key (removeFrom key remove len second) (λ _, True) f.
Proof.
  intros Hfoot Hnone Hrem. eapply Does_intro; [exact Hfoot|done|]. intros s Hs Hp Hu.
  destruct (lookupKey s key) as [v|] eqn:Hv; [rewrite (view_Some s key v Hv)|rewrite (view_None s key Hv)].
  - specialize (Hrem v (lookup_good _ _ _ Hs Hv)). destruct (f (Some (contentOf v))) as [o|].
    + destruct Hrem as (v' & n & m & Hr & Hk & Hlen & Hg & ->). unfold removeFrom, nowMilli at 1. rewrite Hv, (Hu key v _ Hv), Hr.
      assert (∃ stamp s1, (if second then nowMilli else ret (clock (ticks s) / 1000000)) (tick s) = (stamp, s1) ∧ StoreInv s1 ∧ maxMemory s1 = maxMemory s
        ∧ maxMemoryEnabled s1 = false ∧ ∀ k, lookupKey s1 k = lookupKey s k) as (stamp & s1 & -> & Hs1 & Hm1 & Hp1 & Hl1).
      { destruct second; (eexists _, _; split; [reflexivity|]); split_and!; auto using tick_inv. }
      cbn zeta. rewrite Hlen. pose proof (finishShrink_plain key v (touch v' stamp) (m =? 0) s1 Hs1 Hp1) as Hf.
      rewrite Hl1 in Hf. specialize (Hf Hv Hk). destruct (finishShrink _ _ _ _ s1) as [u s2].
      exists n, s2, (if m =? 0 then None else Some (touch v' stamp)). split_and!; [done|done| |by destruct (m =? 0)].
      destruct Hf as [F1 F2 F3]; [intros Hm; bool_to_prop; by apply touch_good, Hg|]. cbn [snd] in *. split; [done|by rewrite F2|]. intros k. by rewrite F3, Hl1.
    + exists ErrWrongType. apply (Refused_remove s key v); [by rewrite unexpired_live|done].
  - rewrite Hnone. unfold removeFrom. rewrite Hv. eexists _, _, (@None ValueObject). split_and!; [done|done| |done].
    split; [destruct second; [done|by apply tick_inv]|by destruct second|]. intros k.
    transitivity (lookupKey s k); [by destruct second|]. case_decide; [by subst|done].
Qed.

Lemma Does_HSet key pairs : pairs ≠ [] → Does key (HSet key pairs) noneEvicted (specHSet pairs).
Proof.
  intros Hne. pose proof (Foot_HSet key pairs) as Hf. unfold HSet in *. assert ((zlen pairs =? 0) = false) as Hz by (by destruct pairs). rewrite Hz in *.
  eapply (Does_addTo _ _ _ _ _ (msize (hashUpd ∅ pairs))); [exact Hf| |].
  - intros stamp. destruct (newHashValueForPairs_spec stamp pairs 0) as (K & W & A & X & _). split_and!.
    + apply GoodHash; [done|done|]. rewrite A. apply hashUpd_nonempty. by right.
    + rewrite hashLen_spec by done. by rewrite A.
    + unfold contentOf. by rewrite K, A, X.
  - intros v Hg. unfold contentOf at 1. destruct (Kind v) eqn:K; cbn; try (unfold hashSet; rewrite bool_decide_eq_false_2; [done|congruence]).
    destruct (GoodHash_inv _ Hg K) as [W _]. destruct (hashSet_spec v pairs K W) as (v' & Hs & A & W' & K' & X & _).
    eexists v', _. split_and!; [exact Hs| |unfold contentOf; by rewrite K', A, X]. apply GoodHash; [done|done|]. rewrite A. apply hashUpd_nonempty. by right.
Qed.

Lemma Does_SAdd key members : members ≠ [] → Does key (SAdd key members) noneEvicted (specSAdd members).
Proof.
  intros Hne. pose proof (Foot_SAdd key members) as Hf. unfold SAdd in *. assert ((zlen members =? 0) = false) as Hz by (by destruct members). rewrite Hz in *.
  assert (∀ X : gset bytes, X ∪ list_to_set members ≠ ∅) as Hmem by (intros X; destruct members; [done|set_solver]).
  eapply (Does_addTo _ _ _ _ _ (ssize (list_to_set members))); [exact Hf| |].
  - intros stamp. destruct (newSetValueForMembers_spec stamp members 0) as (K & W & A & X & _). split_and!.
    + apply GoodSet; [done|done|]. rewrite A, <- (left_id_L ∅ (∪) (list_to_set members)). apply Hmem.
    + rewrite setLen_spec by done. by rewrite A.
    + unfold contentOf. rewrite K, A, X. cbn. by rewrite (left_id_L ∅ (∪)).
  - intros v Hg. unfold contentOf at 1. destruct (Kind v) eqn:K; cbn; try (unfold setAdd; rewrite bool_decide_eq_false_2; [done|congruence]).
    destruct (GoodSet_inv _ Hg K) as [W _]. destruct (setAdd_spec v members K W) as (v' & Hs & A & W' & K' & X & _).
    eexists v', _. split_and!; [exact Hs| |unfold contentOf; by rewrite K', A, X]. apply GoodSet; [done|done|]. rewrite A. apply Hmem.
Qed.

Lemma Does_ZAdd key zs : zs ≠ [] → Forall scoreOk zs → Does key (ZAdd key zs) noneEvicted (specZAdd zs).
Proof.
  intros Hne Hok. pose proof (Foot_ZAdd key zs Hok) as Hf. unfold ZAdd in *. assert ((zlen zs =? 0) = false) as Hz by (by destruct zs). rewrite Hz in *.
  eapply (Does_addTo _ _ _ _ _ (msize (zsetUpd ∅ zs))); [exact Hf| |].
  - intros stamp. destruct (newZSetValueForEntries_spec stamp zs 0 Hok) as (K & W & A & X & _). split_and!.
    + apply GoodZSet; [done|done|]. rewrite A. by apply zsetUpd_nonempty.
    + rewrite zsetLen_spec by done. by rewrite A.
    + unfold contentOf. by rewrite K, A, X.
  - intros v Hg. unfold contentOf at 1. destruct (Kind v) eqn:K; cbn; try (unfold zsetAdd; rewrite bool_decide_eq_false_2; [done|congruence]).
    destruct (GoodZSet_inv _ Hg K) as [W N]. destruct (zsetAdd_spec v zs K W Hok) as (v' & Hs & A & W' & K' & X & _).
    eexists v', _. split_and!; [exact Hs| |unfold contentOf; by rewrite K', A, X]. apply GoodZSet; [done|done|]. rewrite A. by apply zaddAll_nonempty.
Qed.

Lemma hashDrop_empty fields : hashDrop ∅ fields = ∅.
Proof. induction fields as [|f fields IH]; [done|]. unfold hashDrop in *. cbn [foldl]. by rewrite delete_empty. Qed.

Lemma Does_HDel key fields : fields ≠ [] → Does key (HDel key fields) (λ _, True) (specHDel fields).
Proof.
  intros Hne. pose proof (Foot_HDel key fields) as Hf. unfold HDel in *. assert ((zlen fields =? 0) = false) as Hz by (by destruct fields). rewrite Hz in *.
  apply Does_removeFrom; [exact Hf|unfold specHDel; cbn; by rewrite hashDrop_empty, bool_decide_eq_true_2|].
  intros v Hg. unfold contentOf at 1. destruct (Kind v) eqn:K; cbn; try (unfold hashDel; rewrite bool_decide_eq_false_2; [done|congruence]).
  destruct (GoodHash_inv _ Hg K) as [W _]. destruct (hashDel_spec v fields K W) as (v' & Hs & A & W' & K' & X & _).
  eexists v', _, (msize (hashAbs v')). split_and!; [exact Hs|congruence|intros stamp; by apply (hashLen_spec (touch v' stamp))| |].
  - intros Hn. apply GoodHash; [done|done|]. intros He. by rewrite He in Hn.
  - unfold unlessEmpty. rewrite <- A. case_bool_decide as He; [by rewrite He|]. rewrite (proj2 (Z.eqb_neq _ _)).
    + unfold contentOf. by rewrite K', X.
    + unfold msize. intros Hs0. apply He, map_size_empty_inv. lia.
Qed.

Lemma Does_SRem key members : members ≠ [] → Does key (SRem key members) (λ _, True) (specSRem members).
Proof.
  intros Hne. pose proof (Foot_SRem key members) as Hf. unfold SRem in *. assert ((zlen members =? 0) = false) as Hz by (by destruct members). rewrite Hz in *.
  apply Does_removeFrom; [exact Hf|unfold specSRem; cbn; rewrite bool_decide_eq_true_2; [done|set_solver]|].
  intros v Hg. unfold contentOf at 1. destruct (Kind v) eqn:K; cbn; try (unfold setRemove; rewrite bool_decide_eq_false_2; [done|congruence]).
  destruct (GoodSet_inv _ Hg K) as [W _]. destruct (setRemove_spec v members K W) as (v' & Hs & A & W' & K' & X & _).
  eexists v', _, (ssize (setAbs v')). split_and!; [exact Hs|congruence|intros stamp; by apply (setLen_spec (touch v' stamp))| |].
  - intros Hn. apply GoodSet; [done|done|]. intros He. by rewrite He in Hn.
  - unfold unlessEmpty. rewrite <- A. case_bool_decide as He; [by rewrite He|]. rewrite (proj2 (Z.eqb_neq _ _)).
    + unfold contentOf. by rewrite K', X.
    + unfold ssize. intros Hs0. apply He. apply leibniz_equiv, size_empty_iff. lia.
Qed.

(** ** Streams and deletion *)

Lemma Does_XAdd key rawID values s :
  StoreInv s → maxMemoryEnabled s = false → Unexpiring s → (zlen values =? 0) || negb (zlen values mod 2 =? 0) = false →
  DoesAt s key (XAdd key rawID values) noneEvicted (specXAdd (readingAt s) rawID values).
Proof.
  intros Hs Hp Hu Hval. eapply DoesAt_intro; [done..|apply Foot_XAdd|done|].
  by_kind key s v Hv K; try refuse (OpXAdd key rawID values) ValueKindStream ltac:(by rewrite Hval).
  1: destruct (vStream v) as [stream|] eqn:Est; [|destruct (lookup_good _ _ _ Hs Hv) as [Hw _]; unfold ValueWf in Hw; rewrite K, Est in Hw; by destruct Hw].
  all: unfold XAdd; rewrite Hval; match goal with |- context [writeKey _ ?f _] => set (fn := f) end;
    destruct (writeKey_plain key fn s Hs Hp) as (s1 & Hw & Hk1 & Ht1 & Hen1 & _); rewrite Hw; unfold fn; cbn [wcurrent wkey waccounting wnow]; rewrite unexpired_live, Hv by done;
    rewrite unexpired_live, Hv in Hk1 by done.
  1: unfold value_StreamValue, ofKind; rewrite decide_True by done; rewrite Est; cbn [payload result_bind mbind option_bind].
  all: destruct (Stream_add _ rawID values (readingAt s)) as [[st' id]|e] eqn:Ea; cbv beta iota; [|by eexists].
  all: unfold bind at 1, nowMilli at 1; set (v' := touch (newStreamValue _ st' _) _); unfold bindR, bind;
    match goal with |- context [commit ?w _ _] => destruct (commit_plain w v' (tick s1) eq_refl (tick_inv _ (kc_inv _ _ _ _ Hk1))) as (s2 & Hc & Hk2 & _) end;
    [by split; [eexists|]|]; rewrite Hc; unfold ret; eexists _, s2, (Some v'); (split_and!; [done|done| |done]);
    eapply KeyChanged_trans; [by apply KeyChanged_tick|exact Hk2].
Qed.

(** DEL: the keys are gone, the others stay. *)
Record Dropped (keys : list bytes) s s' : Prop := {
  dr_inv : StoreInv s';
  dr_max : maxMemory s' = maxMemory s;
  dr_view : ∀ k, view s' k = if decide (k ∈ keys) then None else view s k
}.

Lemma DeleteMany_drops keys s : StoreInv s → Dropped keys s (DeleteMany keys s).2.
Proof.
  intros Hs. destruct (DeleteMany_swept E keys s Hs) as [H1 (_ & H2 & _) H3 _ _]. split; [done|done|]. intros k. unfold view. rewrite H3. by case_decide.
Qed.

Lemma Delete_drops key s : StoreInv s → Dropped [key] s (Delete key s).2.
Proof. intros Hs. pose proof (DeleteMany_drops [key] s Hs) as H. cbn in H. unfold bind, ret in H. by destruct (Delete key s). Qed.
(** ** The background sweep *)

Lemma sweep_nothing s t i ks : StoreInv s → Unexpiring s → ∀ expired, foldl (sweepKey (clock t / 1000000) i) (expired, s) ks = (expired, s).
Proof.
  intros Hs Hu. induction ks as [|k ks IH]; intros expired; [done|]. cbn [foldl]. rewrite <- (IH expired) at 2. f_equal. unfold sweepKey.
  destruct (shardAt s i !! k) as [v|] eqn:Ek; [|done]. rewrite (Hu k v t); [done|]. unfold lookupKey. by rewrite <- (si_place _ Hs i k) by (by exists v).
Qed.

Lemma sweepShards_nothing s t g ids : StoreInv s → Unexpiring s → foldl (sweepShard (clock t / 1000000) g) ([], s) ids = ([], s).
Proof.
  intros Hs Hu. induction ids as [|i ids IH]; [done|]. cbn [foldl]. rewrite <- IH at 2. f_equal. unfold sweepShard. case_decide; [done|]. by apply sweep_nothing.
Qed.

(** A sweep finds nothing to drop. *)
Lemma sweepTick_nothing t keys s : StoreInv s → Unexpiring s → sweepTick (clock t / 1000000) keys s = (tt, s).
Proof.
  intros Hs Hu. unfold sweepTick, bind. assert (sweepSample (clock t / 1000000) keys s = ([], s)) as ->; [|done].
  destruct keys as [|k [|k2 keys]]; [done| |]; cbn [sweepSample].
  - destruct (lookupKey s k) as [v|] eqn:Ek; [|done]. by rewrite (Hu k v t Ek).
  - by rewrite sweepShards_nothing.
Qed.
Lemma evictionTick_same n s : StoreInv s → Unexpiring s → Same s (evictionTick n s).2.
Proof.
  intros Hs Hu. unfold evictionTick, snapshotKeys, bind, nowMilli. set (t := ticks s). set (limit := if n <=? 0 then _ else n).
  assert (∃ keys s1, sampleKeysLocked limit (tick s) = (keys, s1) ∧ (s1 = tick s ∨ s1 = tick (tick s))) as (keys & s1 & -> & Hor)
    by (unfold sampleKeysLocked, ret, bind, nowNano, gets; destruct (limit <=? 0); eauto).
  assert (StoreInv s1 ∧ Unexpiring s1) as [Hi Hx] by (destruct Hor as [->| ->]; (split; [by repeat apply tick_inv|exact Hu])).
  rewrite sweepTick_nothing by done. destruct Hor as [->| ->]; (split; [by repeat apply tick_inv|done|done]).
Qed.

(** ** Every well-formed store holds a keyspace *)

Definition keyspaceOf s : Keyspace := list_to_map (prod_map id contentOf <$> scanOrder s).

Lemma keyspaceOf_represents s : StoreInv s → Represents (keyspaceOf s) s.
Proof.
  intros Hs k. unfold view, keyspaceOf. symmetry. destruct (lookupKey s k) as [v|] eqn:Ek.
  - apply elem_of_list_to_map.
    + rewrite <- list_fmap_compose. by apply scanOrder_NoDup.
    + apply list_elem_of_fmap. exists (k, v). split; [done|]. by apply elem_of_scanOrder.
  - apply not_elem_of_list_to_map_1. intros (p & -> & (q & -> & Hq)%list_elem_of_fmap)%list_elem_of_fmap. destruct q as [k v]. apply elem_of_scanOrder in Hq; [|done]. change (lookupKey s k = None) in Ek. congruence.
Qed.

End Ops.
