(* ===== verification/KeyspaceCommands.v ===== *)
(** * The commands of the executor implement the keyspace

    Every command that writes, from its entry in the table through its
    validator, handler and frames, does to a store that holds a keyspace what
    [applyRequest] says; every other command leaves the keyspace alone. *)

From S2P Require Import Prelude Strconv GoLib GoText CompactHash Float64 CompactZSet SkipListFacts Resp Stream Bitmap HyperLogLog ValueObject ValueFacts.
From S2P Require Import ListWaiters Store StoreOps StoreFacts StoreMemory StoreInvariant StoreTheorems StorePlain StoreFrames.
From S2P Require Import Clients Slowlog Rdb Replication Geo CommandBase Commands Executor ExecutorFacts HandlerFacts ExecutorTheorems TransactionTheorems.
From S2P Require Import TypeTheorems Keyspace KeyspaceOps.

Section Commands.
Context {C : CommandEnv} (D : Z).
Hypothesis Hclock : ClockUpTo D.
Implicit Types (m : Keyspace) (st : St) (request : Request) (ctx : Context_).

(** The store of an executor without a memory limit holds [m]. *)
Record Stored m (e : Executor) : Prop := {
  stored_inv : StoreInv (store e);
  stored_plain : Plain e;
  stored_rep : Represents m (store e)
}.

Lemma lasting_unexpiring m s : Represents m s → Lasting D m → Unexpiring s.
Proof.
  intros Hr Hl k v n Hv. specialize (Hr k). rewrite (view_Some s k v Hv) in Hr. symmetry in Hr. specialize (Hl _ _ Hr). cbn in Hl.
  unfold isExpired. specialize (Hclock n). destruct (Z.ltb_spec 0 (ExpiresAt v)); [|done]. cbn. apply Z.ltb_ge. lia.
Qed.

Lemma Stored_Same m e s : Stored m e → Same (store e) s → Stored m (setStore s e).
Proof. intros [H1 H2 H3] [A1 A2 A3]. split; [done|unfold Plain, maxMemoryEnabled in *; cbn; by rewrite A2|]. intros k. cbn. by rewrite A3. Qed.

Lemma Stored_Changed m e key o s : Stored m e → Changed key o (store e) s → Stored (partial_alter (λ _, o) key m) (setStore s e).
Proof.
  intros [H1 H2 H3] [A1 A2 A3]. split; [done|unfold Plain, maxMemoryEnabled in *; cbn; by rewrite A2|]. intros k. cbn. rewrite A3, H3.
  case_decide as Hk; [subst; by rewrite lookup_partial_alter_eq|by rewrite lookup_partial_alter_ne].
Qed.

Lemma Stored_store m e e' : store e' = store e → Stored m e → Stored m e'.
Proof. intros He [H1 H2 H3]. split; unfold Plain in *; by rewrite He. Qed.

(** A step that leaves the collected frames and the script alone. *)
Record Keeping st st' : Prop := {
  kp_prop : propagation (eff st') = propagation (eff st);
  kp_dur : durability (eff st') = durability (eff st);
  kp_pauses : pauses st' = pauses st
}.

(** No frame has been collected yet. *)
Definition Clean st : Prop := propagation (eff st) = [] ∧ durability (eff st) = [].

Lemma Keeping_Clean st st' : Keeping st st' → Clean st → Clean st'.
Proof. intros [H1 H2 _] [A1 A2]. split; congruence. Qed.

Lemma Keeping_trans st st1 st2 : Keeping st st1 → Keeping st1 st2 → Keeping st st2.
Proof. intros [H1 H2 H3] [A1 A2 A3]. split; congruence. Qed.

(** [h] does to the keyspace what [f] says. *)
Definition HDoes {A} (h : H A) (f : Keyspace → option Keyspace) st : Prop := ∀ m, Stored m (ex st) → Lasting D m →
  match f m with
  | Some m' => ∃ a st', h st = (Ok a, st') ∧ Keeping st st' ∧ Stored m' (ex st')
  | None => ∃ e st', h st = (Err e, st') ∧ Keeping st st' ∧ Stored m (ex st')
  end.

(** ** What follows the call of the store *)

Definition Finishes {A} (h : H A) : Prop := ∀ st, ∃ a st', h st = (Ok a, st') ∧ Keeping st st' ∧ store (ex st') = store (ex st).

Lemma Finishes_ret {A} (a : A) : Finishes (hret a).
Proof. intros st. by exists a, st. Qed.
Lemma Finishes_touch {A} keys (h : H A) : Finishes h → Finishes (hbind (touchWatchKeys keys) (λ _, h)).
Proof.
  intros Hh st. unfold touchWatchKeys. destruct (_ =? _); [apply Hh|]. unfold hbind, onHub, onEx.
  destruct (Hh (mkSt (setHub (WatchRegistry_Touch keys (hub (ex st))) (ex st)) (eff st) (pauses st))) as (a & st' & -> & [H1 H2 H3] & Hs). exists a, st'. by split_and!.
Qed.
Lemma Finishes_touchIf {A} (b : bool) keys (h : H A) : Finishes h → Finishes (hbind (if b then touchWatchKeys keys else hret tt) (λ _, h)).
Proof. intros Hh. destruct b; [by apply Finishes_touch|]. intros st. apply Hh. Qed.
Lemma Finishes_write {A} ctx key (h : H A) : Finishes h → Finishes (hbind (recordWriteEffects ctx key []) (λ _, h)).
Proof. intros Hh. exact (Finishes_touch [key] h Hh). Qed.

Lemma HDoes_at {A B} conv key (op : M (result storeError A)) quiet step (k : A → H B) st :
  (StoreInv (store (ex st)) → Plain (ex st) → Unexpiring (store (ex st)) → DoesAt (store (ex st)) key op quiet step) →
  (∀ a, quiet a → Finishes (k a)) → HDoes (hbind (storeCall conv op) k) (onKey key step) st.
Proof.
  intros Hop Hk m Hm Hl. specialize (Hop (stored_inv _ _ Hm) (stored_plain _ _ Hm) (lasting_unexpiring _ _ (stored_rep _ _ Hm) Hl)).
  unfold onKey, DoesAt in *. rewrite (stored_rep _ _ Hm) in Hop. destruct (step (m !! key)) as [o|]; cbn [mbind option_bind]; unfold hbind at 1, storeCall, hbind at 1, onStoreM.
  - destruct Hop as (a & s' & -> & Hq & Hc). unfold hlift. cbn [map_err].
    destruct (Hk a Hq (mkSt (setStore s' (ex st)) (eff st) (pauses st))) as (r & st' & -> & Hkp & Hs).
    exists r, st'. split_and!; [done|by destruct Hkp|]. eapply Stored_store; [exact Hs|]. by apply Stored_Changed.
  - destruct Hop as (e & s' & -> & Hsame). unfold hlift. cbn [map_err]. eexists _, _. split_and!; [reflexivity|by split|]. by apply Stored_Same.
Qed.

Lemma HDoes_call {A B} conv key (op : M (result storeError A)) quiet step (k : A → H B) st :
  Does key op quiet step → (∀ a, quiet a → Finishes (k a)) → HDoes (hbind (storeCall conv op) k) (onKey key step) st.
Proof. intros Hop. apply HDoes_at. intros. by apply Hop. Qed.

Lemma HDoes_lift {A B} (r : result cmdError A) (k : A → H B) f st :
  (∀ a, r = Ok a → HDoes (k a) (f a) st) → HDoes (hbind (hlift r) k) (λ m, okOr r (λ a, f a m)) st.
Proof. intros Hk m Hm Hl. destruct r as [a|e]; cbn; [by apply (Hk a eq_refl)|]. by exists e, st. Qed.

Lemma HDoes_fail {A} e st : HDoes (hfail (A := A) e) (λ _, None) st.
Proof. intros m Hm Hl. by exists e, st. Qed.

Lemma HDoes_ext {A} (h : H A) f g st : (∀ m, f m = g m) → HDoes h f st → HDoes h g st.
Proof. intros Hfg Hh m. rewrite <- Hfg. apply Hh. Qed.
End Commands.

Create HintDb finishes.
#[export] Hint Resolve Finishes_ret Finishes_touch Finishes_touchIf Finishes_write : finishes.

(** ** The handlers *)

Section Handlers.
Context {C : CommandEnv} (D : Z).
Hypothesis Hclock : ClockUpTo D.
Implicit Types (m : Keyspace) (st : St) (request : Request) (ctx : Context_).
Abbreviation HDoes := (HDoes D).

Ltac finish_write := intros [? ?] Hev; unfold noneEvicted in Hev; cbn [snd] in Hev; subst; auto with finishes.

Lemma rest_nonempty request n : 2 ≤ n → (n <=? argc request) = true → rest request ≠ [].
Proof. intros Hn Hr. bool_to_prop. unfold rest, argc, zlen in *. destruct (Args request) as [|a [|c l]]; cbn in *; [lia|lia|done]. Qed.

Lemma does_SetBit ctx request now st : HDoes (handleSetBit ctx request) (onFirst (λ request,
  okOr (parseBitmapOffsetArgument (arg 1 request)) (λ offset, okOr (parseBitValueArgument (arg 2 request)) (λ bit, Some (specSetBit offset bit)))) now request) st.
Proof.
  unfold handleSetBit, onFirst. eapply HDoes_ext; [|eapply HDoes_lift; intros offset Ho; eapply HDoes_lift; intros bit Hb; cbn zeta; eapply HDoes_call;
    [exact Hclock|apply (Does_SetBit (arg 0 request) offset bit)|finish_write]].
  - intros m. destruct (parseBitmapOffsetArgument _); [|done]. by destruct (parseBitValueArgument _).
  - unfold parseBitmapOffsetArgument, parseBitValueArgument in *. destruct (parseIntegerArgument (arg 1 request)) as [o|]; [|done]. cbn in Ho.
    destruct ((o <? 0) || (MaxBitmapOffset <? o)) eqn:E1; [done|]. injection Ho as <-.
    destruct (parseIntegerArgument (arg 2 request)) as [x|]; [|done]. cbn in Hb. destruct (negb (x =? 0) && negb (x =? 1)) eqn:E2; [done|]. injection Hb as <-.
    unfold validateBitmapArguments, validateBitmapOffset. by rewrite E1, E2.
Qed.

Lemma does_PFAdd ctx request now st : (1 <=? argc request) = true → HDoes (handlePFAdd ctx request) (onFirst (λ request, Some (specPFAdd (rest request))) now request) st.
Proof.
  intros Hn. bool_to_prop. unfold handlePFAdd. rewrite (proj2 (Z.ltb_ge _ _)) by done. cbn zeta.
  eapply HDoes_call; [exact Hclock|apply Does_PFAdd|finish_write].
Qed.

Lemma does_Incr ctx request now st : (argc request =? 1) = true → HDoes (handleIncr ctx request) (onFirst (λ _, Some specIncr) now request) st.
Proof. intros Hn. unfold handleIncr. rewrite Hn. cbn [negb]. cbn zeta. eapply HDoes_call; [exact Hclock|apply Does_Increment|finish_write]. Qed.

Lemma does_LPush ctx request now st : (2 <=? argc request) = true → HDoes (handleLPush ctx request) (onFirst (λ request, Some (specPush (rest request) true)) now request) st.
Proof.
  intros Hn. pose proof (rest_nonempty request 2 ltac:(lia) Hn). bool_to_prop. unfold handleLPush, LeftPush. rewrite (proj2 (Z.ltb_ge _ _)) by done. cbn zeta.
  eapply HDoes_call; [exact Hclock|by apply Does_push|finish_write].
Qed.
Lemma does_RPush ctx request now st : (2 <=? argc request) = true → HDoes (handleRPush ctx request) (onFirst (λ request, Some (specPush (rest request) false)) now request) st.
Proof.
  intros Hn. pose proof (rest_nonempty request 2 ltac:(lia) Hn). bool_to_prop. unfold handleRPush, RightPush. rewrite (proj2 (Z.ltb_ge _ _)) by done. cbn zeta.
  eapply HDoes_call; [exact Hclock|by apply Does_push|finish_write].
Qed.

Lemma does_popList request name lft now st : ((argc request =? 1) || (argc request =? 2)) = true →
  HDoes (popList request name lft) (onFirst (λ request, n ← popCount request; Some (specPop n lft)) now request) st.
Proof.
  intros Hn. unfold popList, onFirst, popCount. rewrite <- negb_orb, Hn. cbn [negb]. cbn zeta. destruct (argc request =? 1).
  - eapply HDoes_call; [exact Hclock|apply Does_pop|]. intros [v|] _; auto with finishes.
  - eapply HDoes_ext; [|eapply (HDoes_lift D _ _ (λ n m, if n <? 0 then None else onKey (arg 0 request) (specPop (Z.to_nat n) lft) m)); intros n Hp].
    + intros m. unfold parseIntegerArgument. destruct (ParseInt (arg 1 request)) as [n|]; [|done]. cbn. by destruct (n <? 0).
    + destruct (Z.ltb_spec n 0); [apply HDoes_fail|]. destruct lft; unfold LeftPopN, RightPopN; (eapply HDoes_call; [exact Hclock|by apply Does_popN|]);
        intros [v|] _; auto with finishes.
Qed.

(** Scores and pairs of a request with enough arguments. *)
Lemma pairs_nonempty request : (3 <=? argc request) = true → pairsOf (rest request) ≠ [].
Proof. intros Hn. bool_to_prop. unfold rest, argc, zlen in *. destruct (Args request) as [|a [|c [|d l]]]; cbn in *; try lia; done. Qed.
Lemma triples_nonempty request : (4 <=? argc request) = true → triplesOf (rest request) ≠ [].
Proof. intros Hn. bool_to_prop. unfold rest, argc, zlen in *. destruct (Args request) as [|a [|c [|d [|f l]]]]; cbn in *; try lia; done. Qed.
Lemma parseEntries_nonempty pairs es : pairs ≠ [] → parseEntries pairs = Ok es → es ≠ [].
Proof. destruct pairs as [|[raw member] pairs]; [done|]. intros _. cbn. destruct (parseFloatArgument raw); [|done]. cbn. destruct (parseEntries pairs); [|done]. by intros [= <-]. Qed.
Lemma parseGeoEntries_nonempty triples es : triples ≠ [] → parseGeoEntries triples = Ok es → es ≠ [].
Proof.
  destruct triples as [|[[lo la] member] triples]; [done|]. intros _. cbn. destruct (parseGeoCoordinates lo la) as [[x y]|]; [|done]. cbn.
  destruct (parseGeoEntries triples); [|done]. by intros [= <-].
Qed.

Lemma does_ZAdd ctx request now st : (3 <=? argc request) = true →
  HDoes (handleZAdd ctx request) (onFirst (λ request, okOr (parseEntries (pairsOf (rest request))) (λ zs, Some (specZAdd zs))) now request) st.
Proof.
  intros Hn. unfold handleZAdd, onFirst. eapply HDoes_ext; [|eapply HDoes_lift; intros zs Hzs; cbn zeta; eapply HDoes_call; [exact Hclock|apply (Does_ZAdd (arg 0 request) zs)|finish_write]].
  - intros m. by destruct (parseEntries _).
  - eapply parseEntries_nonempty; [by apply pairs_nonempty|exact Hzs].
  - by eapply parseEntries_ok.
Qed.
Lemma does_GeoAdd ctx request now st : (4 <=? argc request) = true →
  HDoes (handleGeoAdd ctx request) (onFirst (λ request, okOr (parseGeoEntries (triplesOf (rest request))) (λ zs, Some (specZAdd zs))) now request) st.
Proof.
  intros Hn. unfold handleGeoAdd, onFirst. eapply HDoes_ext; [|eapply HDoes_lift; intros zs Hzs; cbn zeta; eapply HDoes_call; [exact Hclock|apply (Does_ZAdd (arg 0 request) zs)|finish_write]].
  - intros m. by destruct (parseGeoEntries _).
  - eapply parseGeoEntries_nonempty; [by apply triples_nonempty|exact Hzs].
  - by eapply parseGeoEntries_ok.
Qed.

Lemma does_HSet ctx request now st : (3 <=? argc request) = true →
  HDoes (handleHSet ctx request) (onFirst (λ request, Some (specHSet (pairsOf (rest request)))) now request) st.
Proof. intros Hn. unfold handleHSet. cbn zeta. eapply HDoes_call; [exact Hclock|by apply Does_HSet, pairs_nonempty|finish_write]. Qed.
Lemma does_SAdd ctx request now st : (2 <=? argc request) = true → HDoes (handleSAdd ctx request) (onFirst (λ request, Some (specSAdd (rest request))) now request) st.
Proof.
  intros Hn. pose proof (rest_nonempty request 2 ltac:(lia) Hn). bool_to_prop. unfold handleSAdd. rewrite (proj2 (Z.ltb_ge _ _)) by done. cbn zeta.
  eapply HDoes_call; [exact Hclock|by apply Does_SAdd|finish_write].
Qed.
Lemma does_HDel ctx request now st : (2 <=? argc request) = true → HDoes (handleHDel ctx request) (onFirst (λ request, Some (specHDel (rest request))) now request) st.
Proof.
  intros Hn. pose proof (rest_nonempty request 2 ltac:(lia) Hn). bool_to_prop. unfold handleHDel. rewrite (proj2 (Z.ltb_ge _ _)) by done. cbn zeta.
  eapply HDoes_call; [exact Hclock|by apply Does_HDel|auto with finishes].
Qed.
Lemma does_SRem ctx request now st : (2 <=? argc request) = true → HDoes (handleSRem ctx request) (onFirst (λ request, Some (specSRem (rest request))) now request) st.
Proof.
  intros Hn. pose proof (rest_nonempty request 2 ltac:(lia) Hn). bool_to_prop. unfold handleSRem. rewrite (proj2 (Z.ltb_ge _ _)) by done. cbn zeta.
  eapply HDoes_call; [exact Hclock|by apply Does_SRem|auto with finishes].
Qed.

Lemma does_XAdd ctx request st : ((4 <=? argc request) && (argc request mod 2 =? 0)) = true →
  HDoes (handleXAdd ctx request) (λ m, onKey (arg 0 request)
    (specXAdd (clock (ticks (store (ex st))) / 1000000) (arg 1 request) (drop 2 (Args request))) m) st.
Proof.
  intros Hn. unfold handleXAdd. cbn zeta. eapply (HDoes_at D Hclock _ _ _ noneEvicted); [|finish_write]. intros Hs Hp Hu. apply Does_XAdd; [done..|].
  bool_to_prop. unfold argc, zlen in *. rewrite length_drop. apply orb_false_iff. rewrite negb_false_iff, Z.eqb_neq, Z.eqb_eq.
  split; [lia|]. replace (Z.of_nat (length (Args request) - 2)) with (Z.of_nat (length (Args request)) + (-1) * 2) by lia. rewrite Z.mod_add by lia. done.
Qed.

Lemma foldl_delete m keys k : foldl (λ m k, delete k m) m keys !! k = if decide (k ∈ keys) then None else m !! k.
Proof.
  revert m. induction keys as [|k' keys IH]; intros m; [done|]. cbn [foldl]. rewrite IH, lookup_delete.
  destruct (decide (k ∈ keys)); [by rewrite decide_True by (by right)|]. destruct (decide (k' = k)) as [->|Hne]; [by rewrite decide_True by (by left)|].
  rewrite decide_False; [done|]. intros [?|?]%elem_of_cons; congruence.
Qed.

Lemma does_Del ctx request st : (1 <=? argc request) = true → HDoes (handleDel ctx request) (λ m, Some (foldl (λ m k, delete k m) m (Args request))) st.
Proof.
  intros Hn m [Hs Hp Hr] Hl. bool_to_prop. unfold handleDel. rewrite (proj2 (Z.ltb_ge _ _)) by done.
  assert (∃ touched s', (if argc request =? 1 then let* ok := onStoreM (Delete (arg 0 request)) in hret (if ok then [arg 0 request] else [])
      else onStoreM (DeleteMany (Args request))) st = (Ok touched, mkSt (setStore s' (ex st)) (eff st) (pauses st)) ∧ Dropped (Args request) (store (ex st)) s')
    as (touched & s' & Heq & [D1 D2 D3]).
  { destruct (Z.eqb_spec (argc request) 1) as [H1|_].
    - unfold argc, zlen, arg in *. destruct (Args request) as [|key [|? ?]]; cbn in H1; try lia. cbn [lookup list_lookup from_option id].
      pose proof (Delete_drops key _ Hs). unfold hbind, onStoreM, hret. change (default [] ([key] !! 0%nat)) with key. destruct (Delete key (store (ex st))) as [ok s1]. by eexists _, s1.
    - pose proof (DeleteMany_drops (Args request) _ Hs). unfold onStoreM. destruct (DeleteMany (Args request) (store (ex st))) as [r s1]. by eexists _, s1. }
  cbn zeta. unfold hbind at 1. rewrite Heq.
  destruct (Finishes_touch touched (hret (Integer (zlen touched))) (Finishes_ret _) (mkSt (setStore s' (ex st)) (eff st) (pauses st))) as (a & st' & -> & Hkp & Hst).
  exists a, st'. split_and!; [done|by destruct Hkp|]. eapply Stored_store; [exact Hst|].
  split; [done|unfold Plain, maxMemoryEnabled in *; cbn; by rewrite D2|]. intros k. cbn. rewrite D3, foldl_delete. case_decide; [done|apply Hr].
Qed.

(** ** From the handler to the dispatcher *)

(** The frame of a successful request: itself, with an absolute deadline where
    SET has stored one. *)
Definition sentFrame (now : Z) request : Value :=
  if decide (Name request = bs "SET") then
    match ParseExpiryMillis now (drop 2 (Args request)) with
    | Ok e => if e <=? 0 then propagationFrame request
              else arr [text (Name request); bulk (arg 0 request); bulk (arg 1 request); text (bs "PXAT"); bulk (FormatInt e)]
    | Err _ => propagationFrame request
    end
  else propagationFrame request.

Definition frameSent (spec : commandSpec) (effects : executionEffects) request : Value :=
  match rewriteFrame spec with
  | Some rewrite => match rewrite effects request with Some f => f | None => propagationFrame request end
  | None => propagationFrame request
  end.

(** The handler of [spec] does what [f] says and sends [frame]. *)
Definition RunsAs (spec : commandSpec) ctx request (f : Keyspace → option Keyspace) (frame : Value) st : Prop := ∃ h, handler spec = inl h ∧
  ∀ m, Stored m (ex st) → Lasting D m →
  match f m with
  | Some m' => ∃ a st', h ctx request st = (Ok a, st') ∧ Keeping st st' ∧ Stored m' (ex st') ∧ frameSent spec (eff st') request = frame
  | None => ∃ e st', h ctx request st = (Err e, st') ∧ Keeping st st' ∧ Stored m (ex st')
  end.

Lemma RunsAs_plain h v prop ctx request f st : HDoes (h ctx request) f st →
  RunsAs (mkSpec (inl h) v false prop true None) ctx request f (propagationFrame request) st.
Proof. intros Hh. exists h. split; [done|]. intros m Hm Hl. specialize (Hh m Hm Hl). destruct (f m); [|done]. destruct Hh as (a & st' & ? & ? & ?). exists a, st'. by split_and!. Qed.

Lemma parseExpiry_eq args st : parseExpiry args st = (map_err expiryError (ParseExpiryMillis (clock (ticks (store (ex st)))) args), ticked st).
Proof. reflexivity. Qed.

Lemma RunsAs_Set ctx request st : RunsAs (mkSpec (inl handleSet) validateSetRequest false true true (Some rewriteSetFrame)) ctx request
  (λ m, okOr (ParseExpiryMillis (clock (ticks (store (ex st)))) (drop 2 (Args request))) (λ e, onKey (arg 0 request) (specSet (arg 1 request) e) m))
  (match ParseExpiryMillis (clock (ticks (store (ex st)))) (drop 2 (Args request)) with
   | Ok e => if e <=? 0 then propagationFrame request
             else arr [text (Name request); bulk (arg 0 request); bulk (arg 1 request); text (bs "PXAT"); bulk (FormatInt e)]
   | Err _ => propagationFrame request end) st.
Proof.
  exists handleSet. split; [done|]. intros m Hm Hl.
  assert (Stored m (ex (ticked st))) as Hm1 by (destruct Hm as [H1 H2 H3]; split; [by apply tick_inv|done|done]).
  destruct (ParseExpiryMillis _ _) as [e|e] eqn:Ee; cbn [okOr]; unfold handleSet, hbind at 1; rewrite parseExpiry_eq, Ee; cbn [map_err]; [|eexists _, _; split_and!; [reflexivity|by split|done]].
  pose proof (Does_Set (arg 0 request) (arg 1 request) e (store (ex (ticked st))) (stored_inv _ _ Hm1) (stored_plain _ _ Hm1) (lasting_unexpiring D Hclock _ _ (stored_rep _ _ Hm1) Hl)) as (ev & s' & Heq & -> & Hc).
  cbn [onKey specSet mbind option_bind]. cbn zeta. unfold hbind at 1, storeCall, hbind at 1, onStoreM. rewrite Heq. unfold hlift. cbn [map_err].
  unfold hbind at 1, onEff. unfold hbind at 1. change (touchWatchKeys [arg 0 request]) with (onHub (WatchRegistry_Touch [arg 0 request])). unfold onHub, onEx.
  unfold hbind. change (recordEvictedKeys ctx []) with (hret tt). eexists _, _. split_and!; [reflexivity|by split| |].
  - eapply (Stored_store _ (setStore s' (ex (ticked st)))); [done|]. by apply Stored_Changed.
  - unfold frameSent, rewriteSetFrame. cbn. by destruct (e <=? 0).
Qed.

(** Validation only reads the clock, and refuses only what has no meaning. *)
Definition Validates (spec : commandSpec) (c : commandMeaning) : Prop := ∀ request st,
  (∃ n, (validate spec request st).2 = Nat.iter n ticked st)
  ∧ match (validate spec request st).1 with
    | Ok _ => arityOk c (argc request) = true
    | Err _ => arityOk c (argc request) = true → ∀ now m, meaning c now request m = None
    end.

Record Entry (name : string) (c : commandMeaning) (spec : commandSpec) : Prop := {
  en_command : ∀ run, command run (bs name) = Some spec;
  en_durable : durable spec = true;
  en_propagates : propagates spec = negb (String.eqb name "XADD");
  en_valid : Validates spec c;
  en_runs : ∀ ctx request st, Name request = bs name → arityOk c (argc request) = true →
    ∃ t, RunsAs spec ctx request (meaning c (clock t) request) (sentFrame (clock t) request) st
}.

(** ** The table *)

Lemma command_ticks name spec request : command noRunner name = Some spec → OnlyTicks (validate spec request).
Proof.
  intros Hc. apply lookupSpec_In in Hc as (s & Hs & _). pose proof (validators_only_tick noRunner) as Hv. rewrite Forall_forall in Hv. apply (Hv _ Hs).
Qed.

Lemma Validates_intro name spec c : (∀ run, command run name = Some spec) →
  (∀ request st, match (validate spec request st).1 with
    | Ok _ => arityOk c (argc request) = true
    | Err _ => arityOk c (argc request) = true → ∀ now m, meaning c now request m = None end) → Validates spec c.
Proof. intros Hc Hv request st. split; [|apply Hv]. exact (command_ticks name spec request (Hc noRunner) st). Qed.

(** What makes a relative time invalid does not depend on the clock. *)
Lemma ParseExpiry_invalid now now' args e : ParseExpiryMillis now args = Err e → ParseExpiryMillis now' args = Err e.
Proof.
  unfold ParseExpiryMillis. destruct args as [|u [|a [|x y]]]; try done. destruct (ParseInt a) as [v|]; [|done]. destruct (v <=? 0); [done|].
  repeat case_decide; done.
Qed.

Lemma invalid_id raw values stream now e : ValidateXAddID raw = Some e → Stream_add stream raw values now = Err e.
Proof. unfold ValidateXAddID, Stream_add. case_decide; [done|]. destruct (parseStreamAddID raw); [done|]. by intros [= ->]. Qed.

Ltac arity := intros request st; cbn [validate writeSpec readSpec arityOk meaning];
  unfold exactArgsValidator, minArgsValidator, validateSetBitRequest, validateLPopRequest, validateRPopRequest, validatePopRequest, validateZAddRequest, validateGeoAddRequest,
    validateXAddRequest, validateHSetRequest, validateSetRequest;
  rewrite ?Z.ltb_antisym;
  repeat match goal with
  | |- context [?x <=? argc ?r] => destruct (x <=? argc r) eqn:?; cbn [negb orb andb]
  | |- context [argc ?r =? ?x] => destruct (argc r =? x) eqn:?; cbn [negb orb andb]
  | |- context [?x mod ?y =? 0] => destruct (x mod y =? 0) eqn:?; cbn [negb orb andb]
  end; try done.

Ltac entry name spec := exists spec; split; [reflexivity|reflexivity|reflexivity|apply (Validates_intro (bs name)); [reflexivity|arity]|
  intros ctx request st Hname Har; cbn [arityOk meaning] in *; exists (ticks (store (ex st))); unfold sentFrame; rewrite decide_False by (by rewrite Hname); try apply andb_true_iff in Har as [Har _]; apply RunsAs_plain].

Lemma entry_Set : ∃ spec, Entry "SET" (mkMeaning (λ n, 2 <=? n) (λ now request m,
     okOr (ParseExpiryMillis now (drop 2 (Args request))) (λ e, onKey (arg 0 request) (specSet (arg 1 request) e) m))) spec.
Proof.
  exists (mkSpec (inl handleSet) validateSetRequest false true true (Some rewriteSetFrame)). split; [reflexivity|reflexivity|reflexivity|apply (Validates_intro (bs "SET")); [reflexivity|arity]|].
  - unfold hbind. rewrite parseExpiry_eq. destruct (ParseExpiryMillis _ _) as [e|e] eqn:Ee; [done|]. intros _ now m. by rewrite (ParseExpiry_invalid _ now _ _ Ee).
  - intros ctx request st Hname Har. exists (ticks (store (ex st))). unfold sentFrame. rewrite decide_True by done. apply RunsAs_Set.
Qed.

Lemma write_entries : Forall (λ p, ∃ spec, Entry p.1 p.2 spec) writeMeanings.
Proof.
  unfold writeMeanings. repeat (apply Forall_cons; split); [..|by apply Forall_nil]; cbn [fst snd].
  - apply entry_Set.
  - entry "SETBIT" (writeSpec handleSetBit validateSetBitRequest); [|apply does_SetBit].
    unfold hbind, checked, hlift, onFirst. destruct (parseBitmapOffsetArgument _); [|done]. by destruct (parseBitValueArgument _).
  - entry "PFADD" (writeSpec handlePFAdd (minArgsValidator "PFADD" 1)). by apply does_PFAdd.
  - entry "DEL" (writeSpec handleDel (minArgsValidator "DEL" 1)). by apply does_Del.
  - entry "INCR" (writeSpec handleIncr (exactArgsValidator "INCR" 1)). by apply does_Incr.
  - entry "LPUSH" (writeSpec handleLPush (minArgsValidator "LPUSH" 2)). by apply does_LPush.
  - entry "RPUSH" (writeSpec handleRPush (minArgsValidator "RPUSH" 2)). by apply does_RPush.
  - entry "LPOP" (writeSpec handleLPop validateLPopRequest); [..|by apply does_popList].
    1: bool_to_prop; lia.
    unfold onFirst, popCount. rewrite Heqb. destruct (ParseInt _) as [n|]; [|done]. cbn [mbind option_bind]. by destruct (n <? 0).
  - entry "RPOP" (writeSpec handleRPop validateRPopRequest); [..|by apply does_popList].
    1: bool_to_prop; lia.
    unfold onFirst, popCount. rewrite Heqb. destruct (ParseInt _) as [n|]; [|done]. cbn [mbind option_bind]. by destruct (n <? 0).
  - entry "ZADD" (writeSpec handleZAdd validateZAddRequest); [|by apply does_ZAdd].
    unfold checked, hlift, onFirst, rest. by destruct (parseEntries _).
  - entry "GEOADD" (writeSpec handleGeoAdd validateGeoAddRequest); [|by apply does_GeoAdd].
    unfold checked, hlift, onFirst, rest. by destruct (parseGeoEntries _).
  - exists (mkSpec (inl handleXAdd) validateXAddRequest false false true None). split; [reflexivity|reflexivity|reflexivity|apply (Validates_intro (bs "XADD")); [reflexivity|arity]|].
    + unfold streamIDCheck. destruct (ValidateXAddID _) as [e|] eqn:Ev; [|done]. assert (∀ now m, onKey (arg 0 request) (specXAdd (now / 1000000) (arg 1 request) (drop 2 (Args request))) m = None) as Hnone.
      { intros now m. unfold onKey, specXAdd. destruct (asStream _) as [[stream e0]|]; [|done]. cbn. by rewrite (invalid_id _ _ stream _ _ Ev). }
      destruct e; intros _ now m; apply Hnone.
    + intros ctx request st Hname Har. exists (ticks (store (ex st))). unfold sentFrame. rewrite decide_False by (by rewrite Hname). apply RunsAs_plain. by apply does_XAdd.
  - entry "HSET" (writeSpec handleHSet validateHSetRequest). by apply does_HSet.
  - entry "HDEL" (writeSpec handleHDel (minArgsValidator "HDEL" 2)). by apply does_HDel.
  - entry "SADD" (writeSpec handleSAdd (minArgsValidator "SADD" 2)). by apply does_SAdd.
  - entry "SREM" (writeSpec handleSRem (minArgsValidator "SREM" 2)). by apply does_SRem.
Qed.

(** ** A write through the dispatcher *)

Lemma meaningOf_entry name c : meaningOf name = Some c → ∃ s spec, bs s = name ∧ Entry s c spec.
Proof.
  unfold meaningOf. destruct (list_find _ _) as [[i [s c']]|] eqn:Ef; [|done]. intros [= <-]. apply list_find_Some in Ef as (Hi & Hs & _).
  pose proof write_entries as He. rewrite Forall_forall in He. destruct (He _ (list_elem_of_lookup_2 _ _ _ Hi)) as [spec Hspec]. by exists s, spec.
Qed.

Lemma Stored_ticks n m st : Stored m (ex st) → Stored m (ex (Nat.iter n ticked st)).
Proof. intros Hm. induction n as [|n [H1 H2 H3]]; [done|]. split; [by apply tick_inv|done|done]. Qed.
Lemma ticks_keeping n st : Keeping st (Nat.iter n ticked st).
Proof. induction n as [|n [H1 H2 H3]]; [done|]. by split. Qed.

(** The frames a write hands to the replicas: XADD is not sent on, and nothing
    that comes from a master is. *)
Definition sends ctx request (frame : Value) : list Value :=
  if bool_decide (Name request = bs "XADD") || IsReplicationOrigin ctx then [] else [frame].

Lemma bs_inj s s' : bs s = bs s' → s = s'.
Proof. intros H. rewrite <- (String.string_of_list_byte_of_string s), <- (String.string_of_list_byte_of_string s'). by unfold bs in H; rewrite H. Qed.

Lemma sends_flag s request ctx frame : bs s = Name request →
  (if negb (String.eqb s "XADD") && negb (IsReplicationOrigin ctx) then [frame] else []) = sends ctx request frame.
Proof.
  intros Hs. unfold sends. assert (bool_decide (Name request = bs "XADD") = String.eqb s "XADD") as ->.
  { destruct (String.eqb_spec s "XADD") as [->|Hne]; [by apply bool_decide_eq_true_2|]. apply bool_decide_eq_false_2. rewrite <- Hs. by intros ?%bs_inj. }
  by destruct (String.eqb s "XADD"), (IsReplicationOrigin ctx).
Qed.

Lemma dispatch_write run ctx request st m c :
  meaningOf (Name request) = Some c → Clean st → Stored m (ex st) → Lasting D m →
  ∃ t, let frame := sentFrame (clock t) request in
  match applyRequest (clock t) request m with
  | Some m' => ∃ a st', dispatch run ctx request st = (Ok (mkResult [a] [] (sends ctx request frame) [frame] false), st')
      ∧ Keeping st st' ∧ Stored m' (ex st')
  | None => ∃ e st', dispatch run ctx request st = (Err e, st') ∧ Keeping st st' ∧ Stored m (ex st')
  end.
Proof.
  intros Hc [Heff1 Heff2] Hm Hl. destruct (meaningOf_entry _ _ Hc) as (s & spec & Hs & [E1 E2 E3 E4 E5]).
  assert (dispatch run ctx request st = match validate spec request st with (Ok _, st') => runSpec ctx request spec st' | (Err e, st') => (Err e, st') end) as Hd
    by (unfold dispatch; by rewrite <- Hs, E1).
  rewrite Hd. unfold applyRequest. rewrite Hc. cbn [mbind option_bind]. destruct (E4 request st) as [[n Hn] Hv]. destruct (validate spec request st) as [[u|e] st1]; cbn [fst snd] in Hv, Hn; subst st1.
  2: { exists O. cbn zeta. destruct (arityOk c (argc request)); [rewrite Hv by done|]; eexists _, _; (split_and!; [reflexivity|apply ticks_keeping|by apply Stored_ticks]). }
  rewrite Hv. set (st2 := ticked (Nat.iter n ticked st)). assert (Stored m (ex st2)) as Hm2 by (apply (Stored_ticks (S n) m st Hm)).
  pose proof (ticks_keeping (S n) st) as Hk2. destruct (E5 ctx request st2 (eq_sym Hs) Hv) as (t & h & Hh & Hrun). specialize (Hrun m Hm2 Hl). exists t. cbn zeta.
  destruct (meaning c (clock t) request m) as [m'|]; unfold runSpec, hbind at 1; rewrite now_eq, Hh.
  - destruct Hrun as (a & st3 & Heq & Hk3 & Hm3 & Hfr). fold st2. unfold hbind at 1. rewrite Heq. unfold hbind at 1. rewrite now_eq. unfold hbind at 1.
    match goal with |- context [recordSlowCommand ctx request ?x ?d ?s] => destruct (recordSlow_eq ctx request x d s) as (sl & ->) end.
    pose proof (Keeping_trans _ _ _ Hk2 Hk3) as [K1 K2 K3]. eexists a, _. split.
    + unfold executionFrames. cbn [ticked eff]. fold (frameSent spec (eff st3) request). rewrite Hfr, E2, E3, K1, K2, Heff1, Heff2.
      rewrite !app_nil_r, (sends_flag s request ctx) by done. reflexivity.
    + split; [by split|]. eapply (Stored_store _ (ex (ticked st3))); [done|]. apply (Stored_ticks 1 m' st3 Hm3).
  - destruct Hrun as (e & st3 & Heq & Hk3 & Hm3). fold st2. unfold hbind at 1. rewrite Heq. exists e, st3. split_and!; [done|by eapply Keeping_trans|done].
Qed.
End Handlers.
