(* ===== verification/KeyspaceReads.v ===== *)
(** * Commands that write nothing

    Every command of the table without an entry in [writeMeanings] leaves the
    keyspace alone and sends no frame but the one of PUBLISH.  BLPOP, which pops
    without an entry, and EXEC, which runs others, are kept apart. *)

From S2P Require Import Prelude Strconv GoLib GoText Float64 Resp Stream ValueObject ListWaiters.
From S2P Require Import Store StoreOps StoreFacts StoreMemory StoreInvariant StoreTheorems StorePlain StoreFrames.
From S2P Require Import Clients Slowlog Rdb Replication Geo CommandBase Commands Executor ExecutorFacts HandlerFacts ExecutorTheorems TransactionTheorems.
From S2P Require Import TypeTheorems Keyspace KeyspaceOps KeyspaceCommands.

Section Calm.
Context {C : CommandEnv} (D : Z).
Hypothesis Hclock : ClockUpTo D.
Implicit Types (m : Keyspace) (st : St) (request : Request) (ctx : Context_).

(** [h] changes no content and collects no frame while nobody else runs, and
    its result satisfies [Q]. *)
Definition Calm {A} (Q : A → Prop) (h : H A) : Prop := ∀ st m, pauses st = [] → Stored m (ex st) → Lasting D m →
  Keeping st (h st).2 ∧ Stored m (ex (h st).2) ∧ match (h st).1 with Ok a => Q a | Err _ => True end.
Abbreviation Calm0 := (Calm (λ _, True)).

Lemma Calm_ret {A} (Q : A → Prop) a : Q a → Calm Q (hret a).
Proof. intros HQ st m Hp Hm Hl. by split_and!. Qed.
Lemma Calm_fail {A} (Q : A → Prop) e : Calm Q (hfail e).
Proof. intros st m Hp Hm Hl. by split_and!. Qed.
Lemma Calm_lift {A} (r : result cmdError A) : Calm0 (hlift r).
Proof. intros st m Hp Hm Hl. split_and!; [done|done|]. by destruct r. Qed.
Lemma Calm_gets {A} (g : Executor → A) : Calm0 (hgets g).
Proof. intros st m Hp Hm Hl. by split_and!. Qed.
Lemma Calm_bind {A B} (Q : B → Prop) (h : H A) (k : A → H B) : Calm0 h → (∀ a, Calm Q (k a)) → Calm Q (hbind h k).
Proof.
  intros Hh Hk st m Hp Hm Hl. unfold hbind. destruct (Hh st m Hp Hm Hl) as (K & S & _). destruct (h st) as [[a|e] st1]; cbn [fst snd] in *; [|by split_and!].
  destruct (Hk a st1 m) as (K' & S' & HQ); [by rewrite (kp_pauses _ _ K)|done|done|]. split_and!; [by eapply Keeping_trans|done|done].
Qed.
Lemma Calm_state {A} (Q : A → Prop) (h : St → H A) : (∀ st0, Calm Q (h st0)) → Calm Q (λ st, h st st).
Proof. intros Hh st. apply Hh. Qed.

(** Parts of the executor other than the store. *)
Lemma Calm_onEx f : (∀ e, store (f e) = store e) → Calm0 (onEx f).
Proof. intros Hf st m Hp Hm Hl. split_and!; [by split| |done]. by eapply Stored_store; [apply Hf|]. Qed.
Lemma Calm_onHub f : Calm0 (onHub f).
Proof. by apply Calm_onEx. Qed.
Lemma Calm_onHubR {A} (f : Hub → A * Hub) : Calm0 (onHubR f).
Proof. intros st m Hp Hm Hl. unfold onHubR. destruct (f _) as [a h]. split_and!; [by split| |done]. by eapply Stored_store; [|exact Hm]. Qed.

(** A call of the store that answers for no key. *)
Lemma Calm_onStoreM {A} (op : M A) : Foot op (λ _, []) → Calm0 (onStoreM op).
Proof.
  intros Hf st m Hp Hm Hl. unfold onStoreM. pose proof (Foot_run op _ _ Hf (stored_inv _ _ Hm) (stored_plain _ _ Hm)) as Hfrom.
  destruct (op (store (ex st))) as [a s]. split_and!; [by split| |done]. apply Stored_Same; [done|].
  apply From_same; [|exact Hfrom]. by eapply lasting_unexpiring; [|apply Hm|].
Qed.
Lemma Calm_storeCall {A} conv (op : M (result storeError A)) : Foot op (λ _, []) → Calm0 (storeCall conv op).
Proof. intros Hf. apply Calm_bind; [by apply Calm_onStoreM|]. intros r. apply Calm_lift. Qed.
Lemma Calm_now : Calm0 now_.
Proof. apply Calm_onStoreM, Foot_nowNano. Qed.
Lemma Calm_clientStateFromContext ctx : Calm0 (clientStateFromContext ctx).
Proof. unfold clientStateFromContext. destruct (ctxClient ctx); [by apply Calm_ret|apply Calm_fail]. Qed.
Lemma Calm_clientOf id : Calm0 (clientOf id).
Proof. apply Calm_gets. Qed.
Lemma Calm_touch keys : Calm0 (touchWatchKeys keys).
Proof. unfold touchWatchKeys. destruct (_ =? _); [by apply Calm_ret|apply Calm_onHub]. Qed.
End Calm.

Create HintDb calm.
#[export] Hint Resolve Calm_ret Calm_fail Calm_lift Calm_gets Calm_onHub Calm_onHubR Calm_onStoreM Calm_storeCall Calm_now
  Calm_clientStateFromContext Calm_clientOf Calm_touch : calm.
#[export] Hint Resolve Foot_PFCount Foot_SnapshotStrings Foot_nowMilli Foot_nowNano Foot_Get Foot_GetBit Foot_BitCount Foot_ListRange Foot_HGet
  Foot_HGetAll Foot_SIsMember Foot_SMembers Foot_ZScores Foot_ZRange Foot_ZRangeByScores Foot_XRead : calm.

(** Step through a handler, splitting every branch. *)
Ltac calm_step :=
  first
    [ solve [auto with calm]
    | apply Calm_bind; [|intros ?]
    | match goal with |- Calm _ _ (if ?b then _ else _) => destruct b end
    | match goal with |- Calm _ _ (match ?x with _ => _ end) => destruct x end ].
Ltac calm := cbn zeta; repeat (calm_step; cbn zeta).

Section Reads.
Context {C : CommandEnv} (D : Z).
Hypothesis Hclock : ClockUpTo D.
Implicit Types (m : Keyspace) (st : St) (request : Request) (ctx : Context_).
Abbreviation Calm0 := (Calm D (λ _, True)).

(** A result without frames. *)
Definition noFrames (r : ExecuteResult) : Prop := Propagation r = [] ∧ Durability r = [].

Lemma calm_subscribeLoop id channels : ∀ responses, Calm0 (subscribeLoop id channels responses).
Proof. induction channels as [|ch channels IH]; intros responses; cbn [subscribeLoop]; calm. Qed.
Lemma calm_unsubscribeLoop id channels : ∀ responses, Calm0 (unsubscribeLoop id channels responses).
Proof. induction channels as [|ch channels IH]; intros responses; cbn [unsubscribeLoop]; calm. Qed.
#[local] Hint Resolve calm_subscribeLoop calm_unsubscribeLoop : calm.

Lemma calm_requestAcks : Calm0 requestReplicaAcknowledgements.
Proof.
  intros st m Hp Hm Hl. unfold requestReplicaAcknowledgements. destruct (replicaPeers (ex st)) as [r|]; [|by split_and!]. destruct getAckPayload as [encoded|]; [|by split_and!].
  destruct (AdvanceMasterOffset _ _) as [o repl]. destruct (writePropagationPayload _ _ _ _) as [n [r' h]]. split_and!; [by split| |done]. by eapply Stored_store; [|exact Hm].
Qed.
#[local] Hint Resolve calm_requestAcks : calm.

Lemma calm_waitLoop replicas target st m : pauses st = [] → Stored m (ex st) →
  let r := waitLoop replicas target (pauses st) st in Keeping st r.2 ∧ Stored m (ex r.2) ∧ match r.1 with Ok a => noFrames a | Err _ => True end.
Proof.
  intros Hp Hm. rewrite Hp. cbn [waitLoop]. unfold countReplicasAtOrAbove, hgets. destruct (_ <=? _); by split_and!.
Qed.

#[local] Hint Extern 1 (noFrames _) => split; reflexivity : calm.

Lemma calm_Wait ctx request : Calm D noFrames (handleWait ctx request).
Proof.
  unfold handleWait, waitTargetOffset, countReplicasAtOrAbove, finishWaitResult. calm. intros st m Hp Hm Hl. by apply calm_waitLoop.
Qed.

Lemma calm_ReplConf ctx request : Calm D noFrames (handleReplConf ctx request).
Proof.
  unfold handleReplConf. calm. intros st m Hp Hm Hl. destruct (replicaPeers (ex st)) as [r|]; [|by split_and!]. destruct (Replica _); [|by split_and!].
  by apply (Calm_onEx D).
Qed.

Lemma calm_Slowlog ctx request : Calm0 (handleSlowlog ctx request).
Proof. unfold handleSlowlog, slowlogEntries. calm. by apply Calm_onEx. Qed.
Lemma calm_BGRewrite ctx request : Calm0 (handleBGRewriteAOF ctx request).
Proof. unfold handleBGRewriteAOF. calm. by apply Calm_onEx. Qed.

(** ** The table *)

(** The names without a claim here: the writes, BLPOP and EXEC. *)
Definition apart (name : string) : bool := bool_decide (name ∈ writeMeanings.*1) || String.eqb name "BLPOP" || String.eqb name "EXEC".

Record CalmSpec (name : string) (spec : commandSpec) : Prop := {
  cs_handler : match handler spec with
    | inl h => ∀ ctx request, Calm0 (h ctx request)
    | inr h => ∀ ctx request, Calm D noFrames (h ctx request)
    end;
  cs_durable : durable spec = false;
  cs_propagates : propagates spec = String.eqb name "PUBLISH";
  cs_frame : rewriteFrame spec = None
}.

Ltac calm_handler :=
  unfold handleSubscribe, handleUnsubscribe, handleWatch, handleMulti, handleDiscard, handlePing, handleAuth, handleEcho, handleGet, handleGetBit, handleBitCount,
    handlePFCount, handleLRange, handleZRange, handleGeoDist, handleGeoRadius, handleXRead, handleHGet, handleHGetAll, handleSIsMember, handleSMembers, handlePublish,
    handlePSync, handleInfo, handleMonitor; calm.

Lemma calm_table (run : Context_ → Request → H ExecuteResult) : Forall (λ p, apart p.1 = false → CalmSpec p.1 p.2) (commandSpecs run).
Proof.
  unfold commandSpecs. repeat (apply Forall_cons; split; [cbn [fst snd]; intros Ha; first [discriminate Ha|
    split; [cbn [handler readSpec controlSpec detailedSpec]; intros ctx request|reflexivity|reflexivity|reflexivity];
    first [apply calm_Wait|apply calm_ReplConf|apply calm_Slowlog|apply calm_BGRewrite|solve [calm_handler]|idtac]]|]); by apply Forall_nil.
Qed.
End Reads.
