(* ===== verification/KeyspaceLog.v ===== *)
(** * What a log of writes says about the keyspace

    Facts about [applyRequest] alone: what it keeps, what of it a replica sees,
    and that a request read back from its frame means at any later time what the
    original meant when it ran.  [Logged] is the relation between a keyspace, the
    frames sent since, and the keyspace they lead to. *)

From S2P Require Import Prelude Strconv GoLib GoText CompactHash Float64 CompactZSet SkipListFacts Resp RespDecode RespDecodeFacts Stream Bitmap HyperLogLog ValueObject ValueFacts.
From S2P Require Import Store StoreOps StoreFacts StorePlain StoreFrames Replication CommandBase Commands Executor ExecutorFacts ExecutorTheorems.
From S2P Require Import TransactionTheorems RewriteFacts Keyspace KeyspaceOps KeyspaceCommands.

Implicit Types (m : Keyspace) (request : Request) (cur : option held).

(** ** The part of the keyspace that is sent to replicas *)

(** XADD is not propagated: streams stay on the master. *)
Definition dropStream (o : held) : option held := match o with (CStream _, _) => None | _ => Some o end.
Definition replicated m : Keyspace := omap dropStream m.

Lemma lookup_replicated m k : replicated m !! k = m !! k ≫= dropStream.
Proof. apply lookup_omap. Qed.

Lemma replicated_alter m k (o : option held) :
  replicated (partial_alter (λ _, o) k m) = partial_alter (λ _, o ≫= dropStream) k (replicated m).
Proof.
  apply map_eq. intros i. rewrite lookup_replicated. destruct (decide (i = k)) as [->|Hne]; [by rewrite !lookup_partial_alter_eq|].
  by rewrite !lookup_partial_alter_ne, lookup_replicated.
Qed.

Lemma replicated_deletes keys : ∀ m, replicated (foldl (λ m k, delete k m) m keys) = foldl (λ m k, delete k m) (replicated m) keys.
Proof. induction keys as [|k keys IH]; intros m; [done|]. cbn [foldl]. rewrite IH. f_equal. apply (replicated_alter m k None). Qed.

(** ** Steps on one key *)

(** The deadline is kept or cleared, and no stream is needed. *)
Record StepOk (f : keyStep) : Prop := {
  step_deadline : ∀ cur o, f cur = Some (Some o) → o.2 ≤ 0 ∨ ∃ c, cur = Some (c, o.2);
  step_streamless : ∀ cur o, f cur = Some o → f (cur ≫= dropStream) = Some (o ≫= dropStream)
}.

(** A step through one of the views [asString], ..., [asSet]. *)
Lemma step_view {X} (as_ : option held → option (X * Z)) (mk : X → Z → option held) :
  (∀ x e, as_ None = Some (x, e) → e = 0) →
  (∀ c e x e', as_ (Some (c, e)) = Some (x, e') → e' = e ∧ dropStream (c, e) = Some (c, e)) →
  (∀ x e o, mk x e = Some o → o.2 = e ∧ dropStream o = Some o) →
  StepOk (λ cur, p ← as_ cur; let '(x, e) := p in Some (mk x e)).
Proof.
  intros Hnone Hsome Hmk. split; intros cur o Hf.
  - destruct (as_ cur) as [[x e]|] eqn:Ea; [|done]. injection Hf as Hf. destruct (Hmk x e o Hf) as [He _]. destruct cur as [[c e0]|].
    + destruct (Hsome c e0 x e Ea) as [-> _]. right. exists c. by rewrite He.
    + left. rewrite He, (Hnone x e Ea). done.
  - destruct (as_ cur) as [[x e]|] eqn:Ea; [|done]. injection Hf as <-. assert (cur ≫= dropStream = cur) as ->.
    { destruct cur as [[c e0]|]; [|done]. by destruct (Hsome c e0 x e Ea). }
    rewrite Ea. cbn [mbind option_bind]. f_equal. destruct (mk x e) as [o|] eqn:Em; [|done]. symmetry. by apply (Hmk x e).
Qed.

Ltac by_view := apply step_view;
  [ by intros ? ? [= _ <-]
  | by intros [] ? ? ?; cbn; intros [= _ <-]
  | intros ? ? ?; unfold unlessEmpty; try case_bool_decide; by intros [= <-] ].

Lemma ok_SetBit offset bit : StepOk (specSetBit offset bit).
Proof. by_view. Qed.
Lemma ok_Push values lft : StepOk (specPush values lft).
Proof. by_view. Qed.
Lemma ok_Pop n lft : StepOk (specPop n lft).
Proof. by_view. Qed.
Lemma ok_HSet pairs : StepOk (specHSet pairs).
Proof. by_view. Qed.
Lemma ok_HDel fields : StepOk (specHDel fields).
Proof. by_view. Qed.
Lemma ok_SAdd members : StepOk (specSAdd members).
Proof. by_view. Qed.
Lemma ok_SRem members : StepOk (specSRem members).
Proof. by_view. Qed.

(** The others distinguish a missing key. *)
Lemma ok_PFAdd elements : StepOk (specPFAdd elements).
Proof.
  unfold specPFAdd. split; intros [[[] e]|] o Hf; try discriminate Hf; cbn [dropStream mbind option_bind].
  - destruct (hyperLogLogRegisters data); [|done]. injection Hf as <-. right. by eexists.
  - injection Hf as <-. by left.
  - destruct (hyperLogLogRegisters data); [|done]. by injection Hf as <-.
  - by injection Hf as <-.
Qed.
Lemma ok_Incr : StepOk specIncr.
Proof.
  unfold specIncr. split; intros [[[] e]|] o Hf; try discriminate Hf; cbn [dropStream mbind option_bind] in *.
  - destruct (ParseInt data) as [n|]; [|done]. cbn [mbind option_bind] in Hf. destruct (n =? max_int64); [done|]. injection Hf as <-. right. by eexists.
  - injection Hf as <-. by left.
  - destruct (ParseInt data) as [n|]; [|done]. cbn [mbind option_bind] in *. destruct (n =? max_int64); [done|]. by injection Hf as <-.
  - by injection Hf as <-.
Qed.
Lemma ok_ZAdd zs : StepOk (specZAdd zs).
Proof.
  unfold specZAdd. split; intros [[[] e]|] o Hf; try discriminate Hf; injection Hf as <-; try done; [right; by eexists|by left].
Qed.

Create HintDb steps.
#[export] Hint Resolve ok_SetBit ok_PFAdd ok_Incr ok_Push ok_Pop ok_ZAdd ok_HSet ok_HDel ok_SAdd ok_SRem : steps.

(** ** Requests *)

(** The deadline SET computes, if any, lies in the future of the run. *)
Definition SaneAt (D now : Z) request : Prop := Name request = bs "SET" → ∀ e,
  ParseExpiryMillis now (drop 2 (Args request)) = Ok e → drop 2 (Args request) = [] ∨ (0 < e ≤ max_int64 ∧ D ≤ e).

(** The request that comes back from the frame of [request]. *)
Definition settled (now : Z) request : Request :=
  if decide (Name request = bs "SET") then
    match ParseExpiryMillis now (drop 2 (Args request)) with
    | Ok e => if e <=? 0 then request else mkRequest (Name request) [arg 0 request; arg 1 request; bs "PXAT"; FormatInt e]
    | Err _ => request
    end
  else request.

(** [XADD key *], whose identifier is read from the clock. *)
Definition autoID request : Prop := Name request = bs "XADD" ∧ arg 1 request = bs "*".

Record MeaningOk (D : Z) (name : string) (c : commandMeaning) : Prop := {
  mo_lasting : ∀ now request m m', Name request = bs name → SaneAt D now request → Lasting D m →
    meaning c now request m = Some m' → Lasting D m';
  mo_replicated : ∀ now request m m', name ≠ "XADD" → meaning c now request m = Some m' →
    meaning c now request (replicated m) = Some (replicated m');
  mo_settled : ∀ now now' request m, Name request = bs name → SaneAt D now request → ¬ autoID request → arityOk c (argc request) = true →
    meaning c now request m = None ∨ (arityOk c (argc (settled now request)) = true ∧ meaning c now' (settled now request) m = meaning c now request m)
}.

Lemma lasting_alter D m k (o : option held) : Lasting D m → (∀ x, o = Some x → x.2 ≤ 0 ∨ D ≤ x.2) → Lasting D (partial_alter (λ _, o) k m).
Proof.
  intros Hl Ho i x. destruct (decide (i = k)) as [->|Hne]; [rewrite lookup_partial_alter_eq; apply Ho|].
  rewrite lookup_partial_alter_ne by done. apply Hl.
Qed.

Lemma lasting_step D k f m m' : (∀ cur o, f cur = Some (Some o) → o.2 ≤ 0 ∨ D ≤ o.2 ∨ ∃ c, cur = Some (c, o.2)) →
  Lasting D m → onKey k f m = Some m' → Lasting D m'.
Proof.
  intros Hf Hl. unfold onKey. destruct (f (m !! k)) as [o|] eqn:Ef; [|done]. intros [= <-]. apply lasting_alter; [done|].
  intros x ->. destruct (Hf _ _ Ef) as [?|[?|(c & Hc)]]; [by left|by right|]. exact (Hl _ _ Hc).
Qed.

Lemma replicated_step k f m m' : StepOk f → onKey k f m = Some m' → onKey k f (replicated m) = Some (replicated m').
Proof.
  intros Hf. unfold onKey. destruct (f (m !! k)) as [o|] eqn:Ef; [|done]. intros [= <-].
  rewrite lookup_replicated, (step_streamless f Hf _ _ Ef). cbn [mbind option_bind]. by rewrite replicated_alter.
Qed.

Lemma settled_id now request : Name request ≠ bs "SET" → settled now request = request.
Proof. intros Hn. unfold settled. by rewrite decide_False. Qed.

(** Most commands are a step on their first argument that reads no clock. *)
Lemma onFirst_ok D name arity (f : Request → option keyStep) : name ≠ "SET" →
  (∀ request step, f request = Some step → StepOk step) → MeaningOk D name (mkMeaning arity (onFirst f)).
Proof.
  intros Hname Hf. split; cbn [meaning arityOk]; unfold onFirst; intros now request m.
  - intros m' Hn _ Hl. destruct (f request) as [step|] eqn:Es; [|done]. apply lasting_step; [|done].
    intros cur o Ho. destruct (step_deadline step (Hf _ _ Es) _ _ Ho) as [?|?]; [by left|by right; right].
  - intros m' _. destruct (f request) as [step|] eqn:Es; [|done]. by apply replicated_step, (Hf request).
  - intros m0 Hn _ _ Ha. right. rewrite settled_id; [done|]. rewrite Hn. by intros ?%bs_inj.
Qed.

Lemma set_ok D : MeaningOk D "SET" (mkMeaning (λ n, 2 <=? n) (λ now request m,
  okOr (ParseExpiryMillis now (drop 2 (Args request))) (λ e, onKey (arg 0 request) (specSet (arg 1 request) e) m))).
Proof.
  split; cbn [meaning arityOk]; intros now request m.
  - intros m' Hn Hs Hl. destruct (ParseExpiryMillis now _) as [e|] eqn:Ee; [|done]. apply lasting_step; [|done]. intros cur o. cbn. intros [= <-]. cbn.
    destruct (Hs Hn e Ee) as [Hnil|[_ ?]]; [|by right; left]. rewrite Hnil in Ee. injection Ee as <-. by left.
  - intros m' _. destruct (ParseExpiryMillis now _) as [e|]; [|done]. cbn. intros [= <-]. by rewrite replicated_alter.
  - intros m0 Hn Hs _ Ha. destruct (ParseExpiryMillis now _) as [e|] eqn:Ee; [right|by left]. unfold settled. rewrite decide_True, Ee by done.
    destruct (Hs Hn e Ee) as [Hnil|[He _]].
    + rewrite Hnil in Ee. injection Ee as <-. cbn. by rewrite Hnil.
    + rewrite (proj2 (Z.leb_gt e 0)) by lia. split; [done|]. cbn [Args drop]. unfold ParseExpiryMillis. rewrite ParseInt_FormatInt by (unfold is_int64, min_int64 in *; lia).
      rewrite (proj2 (Z.leb_gt e 0)) by lia. done.
Qed.

Lemma del_ok D : MeaningOk D "DEL" (mkMeaning (λ n, 1 <=? n) (λ _ request m, Some (foldl (λ m k, delete k m) m (Args request)))).
Proof.
  split; cbn [meaning arityOk]; intros now request m.
  - intros m' _ _ Hl [= <-]. generalize dependent m. induction (Args request) as [|k keys IH]; intros m Hl; [done|]. cbn [foldl]. apply IH.
    by apply (lasting_alter D m k None).
  - intros m' _ [= <-]. by rewrite replicated_deletes.
  - intros m0 Hn _ _ Ha. right. by rewrite settled_id by (by rewrite Hn).
Qed.

Lemma xadd_ok D : MeaningOk D "XADD" (mkMeaning (λ n, (4 <=? n) && (n mod 2 =? 0)) (λ now request m,
  onKey (arg 0 request) (specXAdd (now / 1000000) (arg 1 request) (drop 2 (Args request))) m)).
Proof.
  split; cbn [meaning arityOk]; intros now request m.
  - intros m' Hn _ Hl. apply lasting_step; [|done]. intros cur o. unfold specXAdd. destruct cur as [[[] e]|]; cbn; try done.
    + destruct stream as [st|]; [|done]. cbn. destruct (Stream_add _ _ _ _) as [[st' id]|]; [|done]. intros [= <-]. right. right. by eexists.
    + destruct (Stream_add _ _ _ _) as [[st' id]|]; [|done]. intros [= <-]. by left.
  - done.
  - intros m0 Hn _ Ha Har. right. rewrite settled_id by (by rewrite Hn). split; [done|]. unfold onKey, specXAdd. destruct (asStream _) as [[st e]|]; [|done].
    cbn [mbind option_bind]. unfold Stream_add. by rewrite !decide_False by (intros H; by apply Ha).
Qed.

Lemma meanings_ok D : Forall (λ p, MeaningOk D p.1 p.2) writeMeanings.
Proof.
  unfold writeMeanings. repeat (apply Forall_cons; split); [..|by apply Forall_nil]; cbn [fst snd]; try apply set_ok; try apply del_ok; try apply xadd_ok;
    (apply onFirst_ok; [done|]); intros request step; unfold okOr, popCount; repeat case_match; cbn; intros Hs; simplify_option_eq; auto with steps.
Qed.

(** ** The consequences for [applyRequest] *)

Lemma meaningOf_In name c : meaningOf name = Some c → ∃ s, bs s = name ∧ (s, c) ∈ writeMeanings.
Proof.
  unfold meaningOf. destruct (list_find _ _) as [[i [s c']]|] eqn:Ef; [|done]. intros [= <-]. apply list_find_Some in Ef as (Hi & Hs & _).
  exists s. split; [done|]. by eapply list_elem_of_lookup_2.
Qed.

Lemma meaningOf_ok D name c : meaningOf name = Some c → ∃ s, bs s = name ∧ MeaningOk D s c.
Proof.
  intros (s & Hs & Hin)%meaningOf_In. exists s. split; [done|]. pose proof (meanings_ok D) as Hall. rewrite Forall_forall in Hall. exact (Hall _ Hin).
Qed.

Lemma applyRequest_Some now request m m' : applyRequest now request m = Some m' ↔
  ∃ c, meaningOf (Name request) = Some c ∧ arityOk c (argc request) = true ∧ meaning c now request m = Some m'.
Proof.
  unfold applyRequest. destruct (meaningOf (Name request)) as [c|]; cbn [mbind option_bind].
  - destruct (arityOk c (argc request)) eqn:Ea; split; [intros H; by exists c|by intros (? & [= <-] & _ & H)|done|intros (? & [= <-] & H & _); congruence].
  - split; [done|by intros (? & ? & _)].
Qed.

Lemma apply_lasting D now request m m' : SaneAt D now request → Lasting D m → applyRequest now request m = Some m' → Lasting D m'.
Proof.
  intros Hs Hl (c & Hc & _ & Hm)%applyRequest_Some. destruct (meaningOf_ok D _ _ Hc) as (s & Hn & Hok). by eapply (mo_lasting _ _ _ Hok).
Qed.

Lemma apply_replicated now request m m' : Name request ≠ bs "XADD" → applyRequest now request m = Some m' →
  applyRequest now request (replicated m) = Some (replicated m').
Proof.
  intros Hx (c & Hc & Ha & Hm)%applyRequest_Some. apply applyRequest_Some. exists c. split_and!; [done..|].
  destruct (meaningOf_ok 0 _ _ Hc) as (s & Hn & Hok). apply (mo_replicated _ _ _ Hok); [|done]. intros ->. by apply Hx.
Qed.

(** XADD changes nothing a replica has. *)
Lemma apply_XADD now request m m' : Name request = bs "XADD" → applyRequest now request m = Some m' → replicated m' = replicated m.
Proof.
  intros Hx (c & Hc & Ha & Hm)%applyRequest_Some. rewrite Hx in Hc. injection Hc as <-. revert Hm. cbn [meaning]. unfold onKey.
  destruct (specXAdd _ _ _ (m !! arg 0 request)) as [o|] eqn:Es; [|done]. intros [= <-]. rewrite replicated_alter. apply partial_alter_id.
  rewrite lookup_replicated. revert Es. unfold specXAdd. destruct (m !! arg 0 request) as [[[] e]|]; cbn; try done.
  - destruct stream as [st|]; [|done]. cbn. destruct (Stream_add _ _ _ _) as [[st' id]|]; [|done]. by intros [= <-].
  - destruct (Stream_add _ _ _ _) as [[st' id]|]; [|done]. by intros [= <-].
Qed.

Lemma settled_name now request : Name (settled now request) = Name request.
Proof. unfold settled. case_decide; [|done]. destruct (ParseExpiryMillis _ _) as [e|]; [|done]. by destruct (e <=? 0). Qed.

(** Read back from its frame a request means, at any time, what it meant. *)
Lemma apply_settled D now now' request m m' : SaneAt D now request → ¬ autoID request → applyRequest now request m = Some m' →
  applyRequest now' (settled now request) m = Some m'.
Proof.
  intros Hs Hx (c & Hc & Ha & Hm)%applyRequest_Some. apply applyRequest_Some. exists c. rewrite settled_name.
  destruct (meaningOf_ok D _ _ Hc) as (s & Hn & Hok). destruct (mo_settled _ _ _ Hok now now' request m) as [Hnone|[H1 H2]]; [done..|congruence|].
  split_and!; [done..|]. by rewrite H2.
Qed.

Section Decoding.
Context {C : CommandEnv}.

Lemma meaningOf_upper name c : meaningOf name = Some c → strings_ToUpper name = name.
Proof.
  intros (s & <- & Hin)%meaningOf_In. assert (Forall (λ p : string * commandMeaning, strings_ToUpper (bs p.1) = bs p.1) writeMeanings) as Hall by (repeat constructor; reflexivity).
  rewrite Forall_forall in Hall. exact (Hall _ Hin).
Qed.

Lemma decode_frame request : strings_ToUpper (Name request) = Name request → DecodeRequest (wireValue (propagationFrame request)) = Ok request.
Proof.
  intros Hn. unfold propagationFrame, arr, text. cbn [wireValue fmap list_fmap DecodeRequest Bytes]. rewrite decodeArgs_bulks. cbn [result_bind]. rewrite Hn. by destruct request.
Qed.

Lemma decode_sent now request m m' : applyRequest now request m = Some m' →
  DecodeRequest (wireValue (sentFrame now request)) = Ok (settled now request).
Proof.
  intros (c & Hc & _)%applyRequest_Some. apply meaningOf_upper in Hc. unfold sentFrame, settled. case_decide as Hn; [|by apply decode_frame].
  destruct (ParseExpiryMillis _ _) as [e|]; [|by apply decode_frame]. destruct (e <=? 0); [by apply decode_frame|].
  cbn. by rewrite Hc.
Qed.
End Decoding.

(** ** Logs *)

(** What the replicas are sent of the frame of a write. *)
Definition forwarded request (frame : Value) : list Value := if bool_decide (Name request = bs "XADD") then [] else [frame].

Definition Publishes request : Prop := Name request = bs "PUBLISH" ∧ argc request = 2 ∧ arg 0 request ≠ [].

(** [Logged D P m ps ds m']: the writes that lead from [m] to [m'], each a
    request that satisfies [P], left the frames [ds] in the append-only file and
    sent the frames [ps], those of PUBLISH among them, to the replicas. *)
Inductive Logged (D : Z) (P : Request → Prop) : Keyspace → list Value → list Value → Keyspace → Prop :=
  | LogNil m : Logged D P m [] [] m
  | LogWrite now request m m1 m' ps ds : P request → SaneAt D now request → applyRequest now request m = Some m1 → Logged D P m1 ps ds m' →
      Logged D P m (forwarded request (sentFrame now request) ++ ps) (sentFrame now request :: ds) m'
  | LogPublish request m m' ps ds : Publishes request → Logged D P m ps ds m' →
      Logged D P m (propagationFrame request :: ps) ds m'.

Lemma Logged_app D P m ps ds m1 ps' ds' m' : Logged D P m ps ds m1 → Logged D P m1 ps' ds' m' → Logged D P m (ps ++ ps') (ds ++ ds') m'.
Proof.
  induction 1 as [m|now request m m1 m2 ps ds HP Hs Ha Hl IH|request m m2 ps ds Hp Hl IH]; intros H'; [done| |].
  - rewrite <- app_assoc. cbn [app]. eapply LogWrite; eauto.
  - cbn [app]. apply LogPublish; auto.
Qed.

Lemma Logged_silent D P m m' : Logged D P m [] [] m' → m' = m.
Proof. intros H. remember [] as ps eqn:E1 in H at 1. remember [] as ds eqn:E2 in H. by destruct H. Qed.

Lemma Logged_lasting D P m ps ds m' : Logged D P m ps ds m' → Lasting D m → Lasting D m'.
Proof. induction 1; [done| |done]. intros. eauto using apply_lasting. Qed.
