(* ===== verification/KeyspaceRun.v ===== *)
(** * Runs of the executor against the keyspace

    A client's command, EXEC with everything it has queued included, changes the
    keyspace by the writes whose frames it returns, and by nothing else: [Logged]
    holds between the keyspace before and after, and the frames. *)

From S2P Require Import Prelude Strconv GoLib GoText Float64 Resp RespDecodeFacts Stream ValueObject ListWaiters.
From S2P Require Import Store StoreOps StoreFacts StoreMemory StoreInvariant StoreTheorems StorePlain StoreFrames.
From S2P Require Import Clients Slowlog Rdb Replication Geo CommandBase Commands Executor ExecutorFacts HandlerFacts ExecutorTheorems TransactionTheorems.
From S2P Require Import RewriteFacts Keyspace KeyspaceOps KeyspaceCommands KeyspaceReads KeyspaceLog.

Section Run.
Context {C : CommandEnv} (D : Z) (P : Request → Prop).
Hypothesis Hclock : ClockUpTo D.
Implicit Types (m : Keyspace) (st : St) (request : Request) (ctx : Context_).
Abbreviation Calm := (Calm D).
Abbreviation Logged := (Logged D P).

Definition sentBy (r : result cmdError ExecuteResult) : list Value := match r with Ok a => Propagation a | Err _ => [] end.
Definition keptBy (r : result cmdError ExecuteResult) : list Value := match r with Ok a => Durability a | Err _ => [] end.

(** EXEC takes the frames of a result only with a single response. *)
Definition framed (a : ExecuteResult) : Prop := length (Responses a) = 1%nat ∨ noFrames a.

(** The writes behind the frames of a result lead from [m] to what the store
    holds; nothing is said of a command cut off by the end of its context. *)
Definition LogPost m (out : result cmdError ExecuteResult * St) : Prop :=
  out.1 = Err ctxError ∨
  (Clean out.2 ∧ pauses out.2 = [] ∧ (∃ m', Stored m' (ex out.2) ∧ Logged m (sentBy out.1) (keptBy out.1) m')
    ∧ match out.1 with Ok a => framed a | Err _ => True end).
Definition LogsAt (h : H ExecuteResult) st : Prop := ∀ m, Clean st → pauses st = [] → Stored m (ex st) → Lasting D m → LogPost m (h st).

Lemma LogPost_none m st (out : result cmdError ExecuteResult * St) : Clean st → pauses st = [] → Keeping st out.2 → Stored m (ex out.2) →
  match out.1 with Ok a => noFrames a | Err _ => True end → LogPost m out.
Proof.
  intros Hcl Hp HK Hm Hr. right. destruct out as [[a|e] st']; cbn [fst snd] in *; (split_and!; [by eapply Keeping_Clean|by rewrite (kp_pauses _ _ HK)|..]); [|by right| |done].
  - exists m. split; [done|]. cbn [sentBy keptBy]. destruct Hr as [-> ->]. constructor.
  - exists m. split; [done|]. constructor.
Qed.

Lemma Logs_calm h st : Calm noFrames h → LogsAt h st.
Proof.
  intros Hh m Hcl Hp Hm Hl. destruct (Hh st m Hp Hm Hl) as (K & S & Q). by apply (LogPost_none m st).
Qed.

Lemma Logs_bind {A} (Q : A → Prop) (h : H A) k st : Calm Q h → (∀ a st', Q a → LogsAt (k a) st') → LogsAt (hbind h k) st.
Proof.
  intros Hh Hk m Hcl Hp Hm Hl. unfold hbind. destruct (Hh st m Hp Hm Hl) as (K & S & HQ). destruct (h st) as [[a|e] st1]; cbn [fst snd] in *.
  - apply Hk; [done|by eapply Keeping_Clean|by rewrite (kp_pauses _ _ K)|done|done].
  - by apply (LogPost_none m st).
Qed.

(** ** Reads *)

Lemma Calm_ticks {A} (h : H A) : OnlyTicks h → Calm (λ _, True) h.
Proof.
  intros Hh st m Hp Hm Hl. destruct (Hh st) as [n ->]. split_and!; [apply ticks_keeping|by apply Stored_ticks|]. by destruct (h st).1.
Qed.

Lemma Calm_slow ctx request t d : Calm (λ _, True) (recordSlowCommand ctx request t d).
Proof.
  intros st m Hp Hm Hl. destruct (recordSlow_eq ctx request t d st) as (sl & ->). split_and!; [by split| |done]. by eapply Stored_store; [|exact Hm].
Qed.

(** The end of [runSpec]. *)
Lemma Logs_last (f : St → ExecuteResult) st :
  (∀ m, Clean st → Logged m (Propagation (f st)) (Durability (f st)) m) → framed (f st) → LogsAt (λ st, (Ok (f st), st)) st.
Proof. intros Hf Hr m Hcl Hp Hm Hl. right. split_and!; [done|done| |done]. exists m. split; [done|]. by apply Hf. Qed.

Lemma calm_runSpec name spec ctx request st : CalmSpec D name spec → (name = "PUBLISH" → Publishes request) → IsReplicationOrigin ctx = false →
  LogsAt (runSpec ctx request spec) st.
Proof.
  intros [Hh Hd Hp Hf] Hpub Ho. unfold runSpec. eapply Logs_bind; [by apply Calm_now|]. intros started st1 _. destruct (handler spec) as [h|h].
  - eapply Logs_bind; [apply Hh|]. intros a st2 _. eapply Logs_bind; [by apply Calm_now|]. intros finished st3 _. eapply Logs_bind; [apply Calm_slow|]. intros _ st4 _.
    unfold executionFrames. rewrite Hf, Hd, Hp, Ho, andb_true_r. apply (Logs_last (λ st, mkResult _ _ _ _ _)); [|by left].
    intros m [E1 E2]. cbn [Propagation Durability]. rewrite E1, E2, !app_nil_r. destruct (String.eqb_spec name "PUBLISH"); [apply LogPublish; [auto|]|]; constructor.
  - eapply Logs_bind; [apply Hh|]. intros a st2 [F1 F2]. eapply Logs_bind; [by apply Calm_now|]. intros finished st3 _. eapply Logs_bind; [apply Calm_slow|]. intros _ st4 _.
    rewrite F1, F2. intros m [E1 E2] Hps Hm Hl. apply (LogPost_none m st4); [done..|]. cbn. by rewrite E1, E2.
Qed.
(** ** The dispatcher *)

(** A request that the statement speaks of. *)
Definition Admissible request : Prop := P request ∧ ∀ t, SaneAt D (clock t) request.

Lemma apart_false s : meaningOf (bs s) = None → s ≠ "BLPOP" → s ≠ "EXEC" → apart s = false.
Proof.
  intros Hn Hb He. unfold apart. rewrite (proj2 (String.eqb_neq _ _) Hb), (proj2 (String.eqb_neq _ _) He), !orb_false_r. apply bool_decide_eq_false.
  intros Hin. unfold meaningOf in Hn. destruct (list_find _ _) eqn:Ef; [done|]. apply list_find_None in Ef. apply list_elem_of_fmap in Hin as ([s' c] & -> & Hin).
  rewrite Forall_forall in Ef. by apply (Ef _ Hin).
Qed.

Lemma write_logs run ctx request c st : meaningOf (Name request) = Some c → Admissible request → IsReplicationOrigin ctx = false →
  LogsAt (dispatch run ctx request) st.
Proof.
  intros Hc [HP Hsane] Ho m Hcl Hp Hm Hl. destruct (dispatch_write D Hclock run ctx request st m c Hc Hcl Hm Hl) as (t & H). cbn zeta in H.
  destruct (applyRequest (clock t) request m) as [m'|] eqn:Ea.
  - destruct H as (a & st' & -> & HK & Hm'). right. cbn [fst snd]. split_and!; [by eapply Keeping_Clean|by rewrite (kp_pauses _ _ HK)| |by left]. exists m'. split; [done|]. cbn [sentBy keptBy Propagation Durability].
    assert (sends ctx request (sentFrame (clock t) request) = forwarded request (sentFrame (clock t) request) ++ []) as ->
      by (unfold sends, forwarded; by rewrite Ho, orb_false_r, app_nil_r).
    eapply LogWrite; [done|apply Hsane|exact Ea|constructor].
  - destruct H as (e & st' & -> & HK & Hm'). by apply (LogPost_none m st).
Qed.

Lemma publish_valid request st st' : validatePublishRequest request st = (Ok tt, st') → Name request = bs "PUBLISH" → Publishes request.
Proof.
  unfold validatePublishRequest. destruct (Z.eqb_spec (argc request) 2) as [H2|]; [|done]. cbn [negb validateNonEmptyPubSubChannels].
  destruct (Z.eqb_spec (zlen (arg 0 request)) 0) as [|Hz]; [done|]. intros _ Hn. split_and!; [done..|]. intros E. by rewrite E in Hz.
Qed.

Lemma read_logs run ctx request st : meaningOf (Name request) = None → Name request ≠ bs "BLPOP" → Name request ≠ bs "EXEC" → IsReplicationOrigin ctx = false →
  LogsAt (dispatch run ctx request) st.
Proof.
  intros Hn Hb He Ho. unfold dispatch. destruct (command run (Name request)) as [spec|] eqn:Ec; [|apply Logs_calm, Calm_fail].
  pose proof Ec as Ec0. apply lookupSpec_In in Ec as (s & Hin & Hs).
  assert (CalmSpec D s spec) as Hcalm.
  { pose proof (calm_table D Hclock run) as Ht. rewrite Forall_forall in Ht. apply (Ht _ Hin). apply apart_false; cbn [fst]; [by rewrite Hs|by intros ->..]. }
  pose proof (validators_only_tick run) as Hv. rewrite Forall_forall in Hv. specialize (Hv _ Hin request). cbn [snd] in Hv.
  assert (∀ st st', validate spec request st = (Ok tt, st') → s = "PUBLISH" → Publishes request) as Hpub.
  { intros st0 st1 Hval ->. rewrite <- Hs in Ec0. change (command run (bs "PUBLISH")) with (Some (mkSpec (inl handlePublish) validatePublishRequest false true false None)) in Ec0.
    injection Ec0 as <-. exact (publish_valid request st0 st1 Hval (eq_sym Hs)). }
  intros m Hcl Hp Hm Hl. unfold hbind. destruct (Calm_ticks _ Hv st m Hp Hm Hl) as (K & S & _). destruct (validate spec request st) as [[[]|e] st1] eqn:Eval; cbn [fst snd] in *.
  - eapply calm_runSpec; [exact Hcalm|by eapply Hpub|done|by eapply Keeping_Clean|by rewrite (kp_pauses _ _ K)|done|done].
  - by apply (LogPost_none m st).
Qed.

(** ** EXEC *)

Definition Queueable (q : QueuedCommand) : Prop := qName q ≠ bs "BLPOP" ∧ qName q ≠ bs "EXEC" ∧ Admissible (mkRequest (qName q) (qArgs q)).

Lemma loop_logs (run : Request → H ExecuteResult) queued :
  Forall (λ q, ∀ st, LogsAt (run (mkRequest (qName q) (qArgs q))) st) queued →
  ∀ responses prop dur st m, Clean st → pauses st = [] → Stored m (ex st) → Lasting D m →
  let out := execLoop run queued (responses, prop, dur) st in
  out.1 = Err ctxError ∨ (pauses out.2 = [] ∧ Clean out.2 ∧ ∃ responses' ps ds m', out.1 = Ok (responses', prop ++ ps, dur ++ ds) ∧ Stored m' (ex out.2) ∧ Logged m ps ds m').
Proof.
  induction 1 as [|q queued Hq Hqs IH]; intros responses prop dur st m Hcl Hp Hm Hl; cbn zeta; cbn [execLoop].
  { right. split_and!; [done|done|]. exists responses, [], [], m. rewrite !app_nil_r. split_and!; [done..|constructor]. }
  pose proof (Hq st m Hcl Hp Hm Hl) as Hlog. destruct (run _ st) as [r st1].
  destruct Hlog as [Hr|(Hcl1 & Hp1 & (m1 & Hm1 & Hlog) & Hfr)]; cbn [fst snd] in *; [subst r; by left|]. pose proof (Logged_lasting _ _ _ _ _ _ Hlog Hl) as Hl1.
  assert (∀ rs ps1 ds1, ps1 = sentBy r → ds1 = keptBy r → let out := execLoop run queued (rs, prop ++ ps1, dur ++ ds1) st1 in
    out.1 = Err ctxError ∨ (pauses out.2 = [] ∧ Clean out.2 ∧ ∃ responses' ps ds m', out.1 = Ok (responses', prop ++ ps, dur ++ ds) ∧ Stored m' (ex out.2) ∧ Logged m ps ds m')) as Hgo.
  { intros rs ps1 ds1 -> ->. cbn zeta. destruct (IH rs (prop ++ sentBy r) (dur ++ keptBy r) st1 m1 Hcl1 Hp1 Hm1 Hl1) as [|(A1 & A2 & rs' & ps & ds & m' & -> & A4 & A5)]; [by left|right].
    split_and!; [done|done|]. exists rs', (sentBy r ++ ps), (keptBy r ++ ds), m'. rewrite !app_assoc. split_and!; [done|done|by eapply Logged_app]. }
  destruct r as [a|e]; cbn [sentBy keptBy] in *.
  - destruct (Responses a) as [|v [|v' vs]] eqn:Er; [|apply Hgo; done|]; destruct Hfr as [Hlen|[F1 F2]]; try (rewrite Er in Hlen; done);
      match goal with |- context [execLoop run queued (?rs, _, _) st1] => specialize (Hgo rs [] []) end; rewrite !app_nil_r in Hgo; by apply Hgo.
  - specialize (λ rs, Hgo rs [] [] eq_refl eq_refl). rewrite !app_nil_r in Hgo. destruct e; first [by left|apply Hgo].
Qed.
Lemma handleExec_logs run ctx request st :
  (∀ q, Queueable q → ∀ st, LogsAt (run ctx (mkRequest (qName q) (qArgs q))) st) →
  (∀ id, ctxClient ctx = Some id → Forall Queueable (TxQueue (client (hub (ex st)) id))) → LogsAt (handleExec run ctx request) st.
Proof.
  intros Hrun Hq. unfold handleExec. destruct (argc request =? 0); cbn [negb]; [|apply Logs_calm, Calm_fail].
  unfold clientStateFromContext. destruct (ctxClient ctx) as [id|] eqn:Ec; [|intros m Hcl Hp Hm Hl; by apply (LogPost_none m st)].
  intros m Hcl Hp Hm Hl. unfold hbind at 1, hret at 1. unfold hbind at 1, clientOf at 1, hgets at 1.
  set (c := client (hub (ex st)) id). destruct (InTransaction c); cbn [negb]; [|apply Logs_calm; [calm|done..]].
  destruct (TxDirty c); [apply Logs_calm; [calm|done..]|]. destruct (TxFailed c); [apply Logs_calm; [calm; by split|done..]|].
  unfold hbind at 1, onHub at 1, onEx at 1. unfold hbind at 1, clientOf at 1, hgets at 1. cbn [DrainTransaction]. unfold hbind at 1, onHub at 1, onEx at 1. unfold hbind at 1.
  cbn [ex setHub hub]. rewrite UnwatchAll_queue. specialize (Hq id eq_refl). fold c in Hq |- *.
  match goal with |- context [execLoop _ _ _ ?s] => set (st1 := s) end.
  assert (Stored m (ex st1)) as Hm1 by (by eapply Stored_store; [|exact Hm]).
  assert (Forall (λ q, ∀ st, LogsAt (run ctx (mkRequest (qName q) (qArgs q))) st) (TxQueue c)) as Hall by (eapply Forall_impl; [exact Hq|]; intros q Hqq; by apply Hrun).
  destruct (loop_logs (run ctx) (TxQueue c) Hall [] [] [] st1 m Hcl Hp Hm1 Hl) as [He|(P1 & P2 & rs & ps & ds & m' & He & P3 & P4)];
    destruct (execLoop _ _ _ st1) as [r st2]; cbn [fst snd] in *; subst r; [by left|].
  right. split_and!; [done|done| |by left]. by exists m'.
Qed.

Lemma exec_logs run ctx request st : Name request = bs "EXEC" → 
  (∀ q, Queueable q → ∀ st, LogsAt (run ctx (mkRequest (qName q) (qArgs q))) st) →
  (∀ id, ctxClient ctx = Some id → Forall Queueable (TxQueue (client (hub (ex st)) id))) → LogsAt (dispatch run ctx request) st.
Proof.
  intros Hn Hrun Hq. unfold dispatch. rewrite Hn.
  change (command run (bs "EXEC")) with (Some (controlSpec (inr (handleExec run)) (exactArgsValidator "EXEC" 0))). cbv iota.
  intros m Hcl Hp Hm Hl. unfold hbind at 1. cbn [validate controlSpec]. unfold exactArgsValidator. destruct (argc request =? 0); cbn [negb]; [|by apply (LogPost_none m st)].
  unfold hret at 1. unfold runSpec, hbind at 1. rewrite now_eq. cbn [handler controlSpec]. unfold hbind at 1.
  assert (Stored m (ex (ticked st))) as Hm1 by (apply (Stored_ticks 1 m st Hm)).
  pose proof (handleExec_logs run ctx request (ticked st) Hrun Hq m Hcl Hp Hm1 Hl) as Hpost. destruct (handleExec run ctx request (ticked st)) as [[a|e] st1].
  2: { destruct Hpost as [[= ->]|Hpost]; [by left|by right]. }
  destruct Hpost as [|([E1 E2] & Hp1 & (m' & Hm' & Hlog) & Hfr)]; [done|]. cbn [fst snd] in *.
  unfold hbind at 1. rewrite now_eq. unfold hbind at 1.
  match goal with |- context [recordSlowCommand ctx request ?t ?d ?s] => destruct (recordSlow_eq ctx request t d s) as (sl & ->) end. cbn [ticked eff ex pauses].
  right. cbn [fst snd eff]. rewrite E1, E2, !app_nil_r. split_and!; [done|done| |done]. exists m'. split; [|done].
  eapply (Stored_store _ (ex (ticked st1))); [done|]. apply (Stored_ticks 1 m' st1 Hm').
Qed.
(** ** The gates *)

Lemma queue_logs run ctx request st m : pauses st = [] → Stored m (ex st) → Lasting D m →
  let out := maybeQueueRequest run ctx request st in
  out = (Ok None, st) ∨ (out.1 ≠ Ok None ∧ Keeping st out.2 ∧ Stored m (ex out.2)).
Proof.
  intros Hp Hm Hl. cbn zeta. unfold maybeQueueRequest. destruct (ctxClient ctx) as [id|]; [|by left]. unfold hbind, clientOf, hgets. cbv beta iota.
  destruct (negb _ || _); [by left|right].
  destruct (Calm_ticks _ (queueable_only_ticks run request) st m Hp Hm Hl) as (K & S & _). destruct (validateQueueableRequest run request st) as [[u|e] st1]; cbn [fst snd] in *;
    unfold onHub, onEx, hret, hfail; cbn [fst snd]; (split_and!; [done| |by eapply Stored_store; [|exact S]]); by destruct K.
Qed.

Lemma execute_logs run ctx request allowQueue st :
  LogsAt (dispatch run ctx request) (mkSt (ex st) noEffects (pauses st)) → LogsAt (executeRequestWith run ctx request allowQueue) st.
Proof.
  intros Hd m Hcl Hp Hm Hl. set (st0 := mkSt (ex st) noEffects (pauses st)) in *. assert (Clean st0) as Hcl0 by done.
  unfold executeRequestWith, withExecutionEffects. fold st0. set (body := hbind _ _).
  assert (LogPost m (body st0)) as Hpost.
  { unfold body, hbind at 1. pose proof (subscriptionContext_state ctx request st0) as E1. destruct (validateSubscriptionContext ctx request st0) as [[u|e] s1]; cbn [snd] in E1; subst s1; [|by apply (LogPost_none m st0)].
    unfold hbind at 1. pose proof (authContext_state ctx request st0) as E2. destruct (validateAuthContext ctx request st0) as [[u2|e] s2]; cbn [snd] in E2; subst s2; [|by apply (LogPost_none m st0)].
    unfold hbind at 1. destruct allowQueue; [|by apply Hd]. destruct (queue_logs run ctx request st0 m Hp Hm Hl) as [->|(Hne & HK & HS)]; [by apply Hd|].
    destruct (maybeQueueRequest run ctx request st0) as [[[v|]|e] s3]; cbn [fst snd] in *; [|done|]; by apply (LogPost_none m st0). }
  destruct (body st0) as [r st1]. destruct Hpost as [|(_ & H1 & (m' & H2 & H3) & H4)]; [by left|right]. split_and!; [done..| |done]. by exists m'.
Qed.

(** What the statement asks of a command of a client: it does not block, its
    deadlines are sane, and the same holds of what EXEC finds queued. *)
Record Allowed ctx request (e : Executor) : Prop := {
  al_origin : IsReplicationOrigin ctx = false;
  al_nonblocking : Name request ≠ bs "BLPOP";
  al_admissible : Admissible request;
  al_queue : Name request = bs "EXEC" → ∀ id, ctxClient ctx = Some id → Forall Queueable (TxQueue (client (hub e) id))
}.

Lemma plain_logs run ctx request st : IsReplicationOrigin ctx = false → Name request ≠ bs "BLPOP" → Name request ≠ bs "EXEC" → Admissible request →
  LogsAt (dispatch run ctx request) st.
Proof. intros Ho Hb He Ha. destruct (meaningOf (Name request)) as [c|] eqn:Ec; [by eapply write_logs|by apply read_logs]. Qed.

Lemma request_logs ctx request allowQueue st : Allowed ctx request (ex st) → LogsAt (executeRequestDetailed ctx request allowQueue) st.
Proof.
  intros [Ho Hb Ha Hq]. unfold executeRequestDetailed. cbn [executeAt]. apply execute_logs.
  destruct (decide (Name request = bs "EXEC")) as [He|He]; [|by apply plain_logs]. apply exec_logs; [done| |by apply Hq].
  intros q (Q1 & Q2 & Q3) st'. by apply execute_logs, plain_logs.
Qed.

(** ** Runs *)

(** One command, as a client's connection issues it: it ends before the
    server shuts down. *)
Record Serve ctx (value : Value) (e : Executor) (r : result cmdError ExecuteResult) (e' : Executor) : Prop := {
  sv_allowed : ∀ request, DecodeRequest value = Ok request → Allowed ctx request e;
  sv_runs : ∃ st', ExecuteDetailed ctx value (mkSt e noEffects []) = (r, st') ∧ ex st' = e';
  sv_completes : r ≠ Err ctxError
}.

(** A run: commands of any clients one after the other, and between them ticks
    of the background sweep, also of a sample taken earlier, and changes outside of
    the store. *)
Inductive Serves : Executor → list Value → list Value → Executor → Prop :=
  | ServesNil e : Serves e [] [] e
  | ServesCommand ctx value e r e1 ps ds e' : Serve ctx value e r e1 → Serves e1 ps ds e' → Serves e (sentBy r ++ ps) (keptBy r ++ ds) e'
  | ServesTick n e ps ds e' : Serves (setStore (evictionTick n (store e)).2 e) ps ds e' → Serves e ps ds e'
  | ServesSweep t keys e ps ds e' : Serves (setStore (sweepTick (clock t / 1000000) keys (store e)).2 e) ps ds e' → Serves e ps ds e'
  | ServesOther e e1 ps ds e' : store e1 = store e → Serves e1 ps ds e' → Serves e ps ds e'.

Lemma serve_logs ctx value e r e' m : Serve ctx value e r e' → Stored m e → Lasting D m → ∃ m', Stored m' e' ∧ Logged m (sentBy r) (keptBy r) m'.
Proof.
  intros [Ha (st' & Hx & <-) Hr] Hm Hl. unfold ExecuteDetailed in Hx. destruct (DecodeRequest value) as [request|err].
  - pose proof (request_logs ctx request true (mkSt e noEffects []) (Ha request eq_refl) m ltac:(done) eq_refl Hm Hl) as Hpost. rewrite Hx in Hpost.
    by destruct Hpost as [|(_ & _ & ? & _)].
  - unfold hfail in Hx. injection Hx as <- <-. exists m. split; [done|constructor].
Qed.
(** The frames of a run tell what it did to the keyspace. *)
Lemma serves_logs e ps ds e' : Serves e ps ds e' → ∀ m, Stored m e → Lasting D m → ∃ m', Stored m' e' ∧ Lasting D m' ∧ Logged m ps ds m'.
Proof.
  induction 1 as [e|ctx value e r e1 ps ds e' Hs Hr IH|n e ps ds e' Hr IH|t keys e ps ds e' Hr IH|e e1 ps ds e' Hst Hr IH]; intros m Hm Hl.
  - exists m. split_and!; [done..|constructor].
  - destruct (serve_logs _ _ _ _ _ _ Hs Hm Hl) as (m1 & Hm1 & Hlog). destruct (IH m1 Hm1) as (m' & A1 & A2 & A3); [by eapply Logged_lasting|].
    exists m'. split_and!; [done..|]. by eapply Logged_app.
  - apply IH; [|done]. apply Stored_Same; [done|]. apply evictionTick_same; [apply Hm|]. by eapply lasting_unexpiring; [|apply Hm|].
  - apply IH; [|done]. rewrite sweepTick_nothing; [by apply (Stored_store m e)|apply Hm|by eapply lasting_unexpiring; [|apply Hm|]].
  - apply IH; [|done]. by eapply Stored_store.
Qed.

(** Commands one after the other, with the frames they leave. *)
Fixpoint clientRun (cmds : list (Context_ * Value)) (e : Executor) : list Value * list Value * Executor :=
  match cmds with
  | [] => ([], [], e)
  | (ctx, value) :: cmds' =>
      let '(r, st) := ExecuteDetailed ctx value (mkSt e noEffects []) in
      let '(ps, ds, e') := clientRun cmds' (ex st) in
      (sentBy r ++ ps, keptBy r ++ ds, e')
  end.
Fixpoint ClientRunOk (cmds : list (Context_ * Value)) (e : Executor) : Prop :=
  match cmds with
  | [] => True
  | (ctx, value) :: cmds' =>
      (∀ request, DecodeRequest value = Ok request → Allowed ctx request e)
      ∧ (ExecuteDetailed ctx value (mkSt e noEffects [])).1 ≠ Err ctxError
      ∧ ClientRunOk cmds' (runCommand ctx value e)
  end.

Lemma clientRun_serves cmds : ∀ e, ClientRunOk cmds e → Serves e (clientRun cmds e).1.1 (clientRun cmds e).1.2 (clientRun cmds e).2.
Proof.
  induction cmds as [|[ctx value] cmds IH]; intros e; [intros _; constructor|]. cbn [ClientRunOk clientRun]. unfold runCommand. intros (Ha & Hr & Hok).
  destruct (ExecuteDetailed ctx value (mkSt e noEffects [])) as [r st] eqn:Ex. cbn [fst snd] in *. specialize (IH (ex st) Hok).
  destruct (clientRun cmds (ex st)) as [[ps ds] e']. cbn [fst snd] in *. eapply ServesCommand; [|exact IH]. split; [done|by exists st|done].
Qed.

End Run.
