(* ===== verification/KeyspaceReplay.v ===== *)
(** * Replaying a log

    Frames of [Logged] writes, executed under the context of the replica link and
    of the loader, take any store that holds the first keyspace to one that holds
    the last: every frame succeeds.  The two readers of frames, [LoadFile] and
    [replicaLoop], are then run on the bytes of a log. *)

From S2P Require Import Prelude Strconv GoLib GoText Float64 Resp RespDecode RespDecodeFacts RespParser Stream ValueObject ListWaiters.
From S2P Require Import Store StoreOps StoreFacts StoreMemory StoreInvariant StoreTheorems StorePlain StoreFrames.
From S2P Require Import Clients Slowlog Rdb Replication CommandBase Commands Executor ExecutorFacts HandlerFacts ExecutorTheorems TransactionTheorems.
From S2P Require Import Aof AofFacts FileSys AofWriter AofWriterFacts Config Server ServerRun ServerFacts RewriteFacts RewriteTheorems.
From S2P Require Import Keyspace KeyspaceOps KeyspaceCommands KeyspaceReads KeyspaceLog.

Section Replay.
Context {C : CommandEnv} (D : Z).
Hypothesis Hclock : ClockUpTo D.
Implicit Types (m : Keyspace) (st : St) (request : Request).

(** ** One frame *)

Definition Takes (v : Value) m m' : Prop := ∀ st, Stored m (ex st) → Lasting D m →
  ∃ r st', ExecuteDetailed replicationContext v st = (Ok r, st') ∧ Stored m' (ex st') ∧ UpstreamReplies r = [].

Inductive TakesAll : list Value → Keyspace → Keyspace → Prop :=
  | TakesNil m : TakesAll [] m m
  | TakesCons v vs m m1 m' : Takes v m m1 → Lasting D m1 → TakesAll vs m1 m' → TakesAll (v :: vs) m m'.

Lemma takes_dispatch v request m m' : DecodeRequest v = Ok request →
  (∀ run st, Clean st → Stored m (ex st) → Lasting D m → ∃ r st', dispatch run replicationContext request st = (Ok r, st') ∧ Stored m' (ex st') ∧ UpstreamReplies r = []) →
  Takes v m m'.
Proof.
  intros Hd Hx st Hm Hl. unfold ExecuteDetailed. rewrite Hd. unfold executeRequestDetailed. cbn [executeAt]. rewrite open_dispatch by exact I. unfold withExecutionEffects.
  match goal with |- context [dispatch ?run _ _ ?s] => destruct (Hx run s) as (r & st' & -> & Hm' & Hu); [done..|] end. by exists r, (mkSt (ex st') (eff st) (pauses st')).
Qed.

Lemma takes_write v request m m' : DecodeRequest v = Ok request → (∀ now, applyRequest now request m = Some m') → Takes v m m'.
Proof.
  intros Hd Ha. eapply takes_dispatch; [exact Hd|]. intros run st Hcl Hm Hl. destruct (proj1 (applyRequest_Some 0 request m m') (Ha 0)) as (c & Hc & _).
  destruct (dispatch_write D Hclock run replicationContext request st m c Hc Hcl Hm Hl) as (t & H). cbn zeta in H. rewrite Ha in H.
  destruct H as (a & st' & -> & _ & Hm'). by eexists _, st'.
Qed.

Lemma handlePublish_finishes ctx request : Finishes (handlePublish ctx request).
Proof.
  intros st. unfold handlePublish, hbind, hgets. destruct (_ =? 0); [by eexists _, st|].
  rewrite Encode_ok by done. unfold onHubR. destruct (deliverPubSubMessage _ _ _) as [n h]. by eexists _, _.
Qed.

Lemma takes_publish request m : Publishes request → Takes (wireValue (propagationFrame request)) m m.
Proof.
  intros (Hn & Hc & Hz). eapply (takes_dispatch _ request); [apply decode_frame; by rewrite Hn|]. intros run st Hcl Hm Hl. unfold dispatch. rewrite Hn.
  change (command run (bs "PUBLISH")) with (Some (mkSpec (inl handlePublish) validatePublishRequest false true false None)). cbv iota.
  unfold hbind at 1. cbn [validate]. unfold validatePublishRequest. rewrite Hc. cbn [Z.eqb negb validateNonEmptyPubSubChannels Pos.eqb].
  assert ((zlen (arg 0 request) =? 0) = false) as -> by (apply Z.eqb_neq; by destruct (arg 0 request)).
  unfold hret at 1. unfold runSpec, hbind at 1. rewrite now_eq. cbn [handler]. unfold hbind at 1.
  destruct (handlePublish_finishes replicationContext request (ticked st)) as (a & st1 & -> & _ & Hs1). unfold hbind at 1. rewrite now_eq. unfold hbind at 1.
  match goal with |- context [recordSlowCommand ?c request ?t ?d ?s] => destruct (recordSlow_eq c request t d s) as (sl & ->) end.
  eexists _, _. split_and!; [reflexivity| |reflexivity].
  eapply (Stored_store _ (ex (ticked st1))); [done|]. apply (Stored_ticks 1). eapply Stored_store; [exact Hs1|]. apply (Stored_ticks 1 m st Hm).
Qed.

(** ** A log *)

Lemma lasting_replicated m : Lasting D m → Lasting D (replicated m).
Proof.
  intros Hl k o. rewrite lookup_replicated. destruct (m !! k) as [o0|] eqn:Ek; [|done]. cbn. destruct o0 as [[] e]; cbn; try done; intros [= <-]; exact (Hl _ _ Ek).
Qed.

(** What the append-only file holds restores all; an identifier that was read
    from the clock would be read again. *)
Lemma durable_replays P m ps ds m' : (∀ request, P request → ¬ autoID request) → Logged D P m ps ds m' → Lasting D m → TakesAll (wireValue <$> ds) m m'.
Proof.
  intros HP. induction 1 as [m|now request m m1 m' ps ds Hreq Hs Ha Hlog IH|request m m' ps ds Hp Hlog IH]; intros Hl; [constructor| |by apply IH].
  pose proof (apply_lasting _ _ _ _ _ Hs Hl Ha) as Hl1. econstructor; [|exact Hl1|by apply IH].
  eapply takes_write; [by eapply decode_sent|]. intros now'. eapply apply_settled; [exact Hs|by apply HP|done].
Qed.

(** What the replicas are sent restores all but the streams. *)
Lemma sent_replays P m ps ds m' : Logged D P m ps ds m' → Lasting D m → TakesAll (wireValue <$> ps) (replicated m) (replicated m').
Proof.
  induction 1 as [m|now request m m1 m' ps ds Hreq Hs Ha Hlog IH|request m m' ps ds Hp Hlog IH]; intros Hl; [constructor| |].
  - pose proof (apply_lasting _ _ _ _ _ Hs Hl Ha) as Hl1. unfold forwarded. case_bool_decide as Hx.
    + rewrite <- (apply_XADD _ _ _ _ Hx Ha). by apply IH.
    + cbn [app fmap list_fmap]. econstructor; [|by apply lasting_replicated|by apply IH]. eapply takes_write; [by eapply decode_sent|].
      intros now'. eapply apply_settled; [exact Hs|by intros [? _]|]. by apply apply_replicated.
  - cbn [fmap list_fmap]. econstructor; [by apply takes_publish|by apply lasting_replicated|by apply IH].
Qed.

(** ** The loader *)

Lemma replayAll_takes frames : ∀ s fs n m m', TakesAll (wireValue <$> frames) m m' → Stored m (executor s) → Lasting D m →
  ∃ s' fs', replayAll replayOn frames n (s, fs) = (n + zlen frames, None, (s', fs')) ∧ Stored m' (executor s').
Proof.
  induction frames as [|f frames IH]; intros s fs n m m' Ht Hm Hl; inversion Ht as [|? ? ? m1 ? Hv Hl1 Hvs]; subst.
  - exists s, fs. split; [|done]. cbn [replayAll]. unfold zlen. cbn [length]. by rewrite Z.add_0_r.
  - destruct (Hv (mkSt (executor s) noEffects []) Hm Hl) as (r & st & Hx & Hst & _). cbn [replayAll]. unfold replayOn at 1, executeOn. rewrite Hx.
    pose proof (deliver_store (store (executor s)) (setExecutor (ex st) s) fs) as Hd. destruct (deliverExpired _ _ _) as [s1 fs1]. cbn [fst] in Hd.
    destruct (IH s1 fs1 (n + 1) m1 m' Hvs) as (s' & fs' & -> & Hm'); [by eapply Stored_store; [exact Hd|]|done|].
    exists s', fs'. rewrite zlen_cons. split; [|done]. do 2 f_equal. lia.
Qed.

(** ** The replica link *)

Lemma propagate_aof values s : aofWriter (propagate values s).2 = aofWriter s.
Proof.
  unfold propagate. destruct (replicaPeers (executor s)) as [r|]; [|done].
  by destruct (propagateToReplicas values (replication (executor s)) r (hub (executor s))) as [report [[repl r'] h]].
Qed.

Lemma deliver_aof before s fs : aofWriter s = None → aofWriter (deliverExpired before s fs).1 = None.
Proof.
  unfold deliverExpired. generalize (drop (length (published before)) (published (store (executor s)))). intros batches. revert s fs.
  induction batches as [|keys batches IH]; intros s fs Ha; [done|]. cbn [recordBatches]. unfold fbind.
  assert (aofWriter (recordExpiredKeys keys s fs).1 = None) as H.
  { unfold recordExpiredKeys. destruct (_ =? _); [done|]. set (s1 := onServerHub _ s). assert (aofWriter s1 = None) as Ha1 by done.
    unfold fbind, persistDurabilityFrames. rewrite bool_decide_eq_true_2 by done. cbn [orb]. unfold fret. cbv iota beta.
    match goal with |- context [if ?b then _ else _] => destruct b end; cbn [fst]; [done|]. by rewrite propagate_aof. }
  destruct (recordExpiredKeys keys s fs) as [s1 fs1]. by apply IH.
Qed.

Lemma wireValue_len v : frameOk v = true → ∃ n, EncodedLen (wireValue v) = Ok n.
Proof.
  intros (ws & -> & _ & Hw & _ & _ & ->)%frameOk_inv. eexists. rewrite EncodedLen_spec, appendEncodedValue_ok; [reflexivity|].
  cbn. rewrite forallb_Forall. apply Forall_fmap, Forall_forall. intros w Hin%Hw. cbn. by destruct w as [| | |? []|? []| | | |].
Qed.

Lemma replicaLoop_takes linkOk frames : ∀ fuel u s fs m m', (length frames < fuel)%nat → Forall (λ v, frameOk v = true) frames → aofWriter s = None →
  TakesAll (wireValue <$> frames) m m' → Stored m (executor s) → Lasting D m →
  ∃ s' fs', replicaLoop linkOk fuel (wire frames) u s fs = ((u, s'), fs') ∧ Stored m' (executor s').
Proof.
  induction frames as [|f frames IH]; intros [|fuel] u s fs m m' Hfuel Hok Ha Ht Hm Hl; try (cbn in Hfuel; lia); inversion Ht as [|? ? ? m1 ? Hv Hl1 Hvs]; subst.
  - by exists s, fs.
  - apply Forall_cons in Hok as [Hf Hok]. cbn [replicaLoop]. unfold wire. cbn [fmap list_fmap concat]. unfold fbind at 1, replicaStep. rewrite Parse_frame by done.
    destruct (wireValue_len f Hf) as [n ->]. set (s1 := setExecutor _ s). assert (Stored m (executor s1)) as Hm1 by (by eapply Stored_store; [|exact Hm]).
    destruct (Hv (mkSt (executor s1) noEffects []) Hm1 Hl) as (r & st & Hx & Hst & Hup). unfold executeOn. rewrite Hx. unfold fbind at 1.
    pose proof (deliver_store (store (executor s1)) (setExecutor (ex st) s1) fs) as Hd. pose proof (deliver_aof (store (executor s1)) (setExecutor (ex st) s1) fs Ha) as Ha2.
    destruct (deliverExpired _ _ _) as [s2 fs2]. cbn [fst] in Hd, Ha2. unfold fbind at 1, persistDurabilityFrames. rewrite bool_decide_eq_true_2 by done. cbn [orb]. unfold fret at 1. rewrite Hup. cbn [zlen length].
    apply (IH fuel u s2 fs2 m1 m'); [cbn in Hfuel; lia|done|done|done| |done]. by eapply Stored_store; [exact Hd|].
Qed.
End Replay.
