(* ===== verification/KeyspaceSync.v ===== *)
(** * The full synchronisation of a replica

    PSYNC answers with a snapshot of the strings; the replica loads it into a
    fresh store, which replaces the contents of its own.  When the master holds
    only strings and streams, the replica then holds all that is replicated. *)

From S2P Require Import Prelude Strconv GoLib GoText Float64 Resp RespDecode RespDecodeFacts RespParser Stream ValueObject ListWaiters.
From S2P Require Import Store StoreOps StoreFacts StoreMemory StoreInvariant StoreTheorems StorePlain StoreFrames Rdb RdbFacts.
From S2P Require Import Clients Slowlog Replication CommandBase Commands Executor ExecutorFacts HandlerFacts ExecutorTheorems TransactionTheorems.
From S2P Require Import Aof AofFacts FileSys AofWriter AofWriterFacts AofTheorems Config Server ServerRun ServerFacts RewriteFacts RewriteTheorems.
From S2P Require Import Keyspace KeyspaceOps KeyspaceCommands KeyspaceReads KeyspaceLog KeyspaceReplay.

(** ** Replacing the contents of a store *)

Lemma fill_lookup (index : bytes → nat) l k : NoDup l.*1 → ∀ sh : list Shard, (index k < length sh)%nat →
  default ∅ (foldl (λ repl '(key, v), alter (<[key := v]>) (index key) repl) sh l !! index k) !! k
  = match (list_to_map l : Shard) !! k with Some v => Some v | None => default ∅ (sh !! index k) !! k end.
Proof.
  induction l as [|[key v] l IH]; intros Hnd sh Hk; [done|]. apply NoDup_cons in Hnd as [Hni Hnd]. cbn [foldl list_to_map foldr fst snd].
  rewrite IH by (by rewrite ?length_alter). destruct (decide (key = k)) as [->|Hne].
  - rewrite (not_elem_of_list_to_map_1 l k) by done. rewrite lookup_insert_eq. rewrite list_lookup_alter_eq.
    destruct (lookup_lt_is_Some_2 sh (index k) Hk) as [m ->]. cbn. by rewrite lookup_insert_eq.
  - rewrite lookup_insert_ne by done. destruct (list_to_map l !! k); [done|]. destruct (decide (index key = index k)) as [->|Hi]; [|by rewrite list_lookup_alter_ne].
    rewrite list_lookup_alter_eq. destruct (sh !! index k) as [m|]; cbn; [|done]. by rewrite lookup_insert_ne.
Qed.

Lemma foldl_join {A B} (f : A → B → A) (lls : list (list B)) : ∀ a, foldl (λ a l, foldl f a l) a lls = foldl f a (mjoin lls).
Proof. induction lls as [|l lls IH]; intros a; [done|]. cbn [foldl mjoin list_join concat]. by rewrite IH, foldl_app. Qed.

Section Replace.
Context {E : Env}.

Lemma ReplaceWith_same other s : StoreInv other → StoreInv s → maxMemoryEnabled s = false →
  StoreInv (ReplaceWith other s).2 ∧ maxMemory (ReplaceWith other s).2 = maxMemory s ∧ ∀ k, lookupKey (ReplaceWith other s).2 k = lookupKey other k.
Proof.
  intros Ho Hs Hp. split; [by apply Keeps_ReplaceWith|].
  set (repl := foldl (λ repl (shard : Shard), foldl (λ repl '(key, v), alter (<[key := v]>) (shardIndex s key) repl) repl (mapOrder shard)) (newShards (zlen (shards s))) (shards other)).
  set (s1 := recalculateKeyStatsLocked (setShards repl s)). assert ((ReplaceWith other s).2 = publishExpiredKeys s1) as ->.
  { unfold ReplaceWith, bind at 1, modify at 1. cbn zeta. fold repl. fold s1. unfold bind at 1, gets. change (maxMemoryEnabled s1) with (maxMemoryEnabled s). by rewrite Hp. }
  assert (∀ s, shards (publishExpiredKeys s) = shards s ∧ maxMemory (publishExpiredKeys s) = maxMemory s) as Hpub.
  { intros s0. unfold publishExpiredKeys. by destruct (pendingExpired s0). }
  split; [by rewrite (proj2 (Hpub s1))|]. intros k.
  assert (lookupKey (publishExpiredKeys s1) k = lookupKey s1 k) as -> by (unfold lookupKey, shardAt, shardIndex; by rewrite (proj1 (Hpub s1))).
  assert (repl = foldl (λ repl '(key, v), alter (<[key := v]>) (shardIndex s key) repl) (newShards (zlen (shards s))) (scanOrder other)) as Hrepl.
  { unfold repl, scanOrder. rewrite <- foldl_join, foldl_fmap. done. }
  assert (length repl = length (shards s)) as Hlen.
  { rewrite Hrepl. generalize (scanOrder other). intros l. assert (∀ sh : list Shard, length (foldl (λ repl '(key, v), alter (<[key := v]>) (shardIndex s key) repl) sh l) = length sh) as ->.
    { induction l as [|[key v] l IH]; intros sh; [done|]. cbn [foldl]. by rewrite IH, length_alter. }
    unfold newShards. pose proof (si_len _ Hs). rewrite length_replicate. destruct (Z.leb_spec (zlen (shards s)) 0); unfold zlen in *; lia. }
  unfold lookupKey at 1, shardAt. rewrite (shardIndex_shards s s1) by done. change (shards s1) with repl. rewrite Hrepl.
  pose proof (shardIndex_lt s k (si_len _ Hs)) as Hlt. rewrite fill_lookup; [|by apply scanOrder_NoDup|].
  2: { unfold newShards. rewrite length_replicate. destruct (Z.leb_spec (zlen (shards s)) 0); unfold zlen in *; lia. }
  destruct (list_to_map (scanOrder other) !! k) as [v|] eqn:El.
  - apply elem_of_list_to_map_2 in El. symmetry. by apply elem_of_scanOrder.
  - unfold newShards. assert (∀ n i, default ∅ (replicate n (∅ : Shard) !! i) !! k = None) as ->.
    { intros n i. destruct (replicate n _ !! i) as [x|] eqn:Ei; [|done]. apply lookup_replicate in Ei as [-> _]. done. }
    destruct (lookupKey other k) as [v|] eqn:Ek; [|done]. apply elem_of_scanOrder in Ek; [|done]. apply not_elem_of_list_to_map_2 in El. exfalso. apply El, list_elem_of_fmap. by exists (k, v).
Qed.
End Replace.

(** ** The snapshot *)

(** What the snapshot can carry, and what it may leave out. *)
Definition syncEntry (D : Z) (k : bytes) (o : held) : Prop :=
  match o with
  | (CString data, e) => zlen k ≤ maxRDBObjectLength ∧ zlen data ≤ maxRDBObjectLength ∧ (e = 0 ∨ (0 < e ∧ D < e ≤ max_int64))
  | (CStream _, e) => e ≤ 0 ∨ D ≤ e
  | _ => False
  end.
Definition Syncable (D : Z) (m : Keyspace) : Prop := map_Forall (syncEntry D) m.

Lemma Syncable_lasting D m : Syncable D m → Lasting D m.
Proof. intros Hs k [c e] Hk. specialize (Hs k _ Hk). destruct c; cbn in *; try done. lia. Qed.

Definition StringsOf (m : Keyspace) (entries : list StringSnapshotEntry) : Prop :=
  NoDup (ssKey <$> entries) ∧ ∀ e, e ∈ entries ↔ m !! ssKey e = Some (CString (ssValue e), ssExpiresAt e).

Lemma snapshot_strings {E : Env} D m s : ClockUpTo D → StoreInv s → Represents m s → Lasting D m →
  StringsOf m (omap (snapshotOf (readingAt s)) (scanOrder s)).
Proof.
  intros Hc Hs Hr Hl. split; [by apply snapshot_keys, scanOrder_NoDup|]. intros e. rewrite elem_of_snapshot by done. rewrite <- Hr. unfold view. split.
  - intros (v & -> & _ & Hk & Hv & He). cbn. unfold contentOf. by rewrite Hk, Hv, He.
  - destruct (lookupKey s (ssKey e)) as [v|] eqn:Ev; [|done]. cbn. unfold contentOf. intros [= H1 H2]. exists v. destruct (Kind v) eqn:Ek; try done. injection H1 as H1.
    split_and!; [done| |done|done|done]. assert (m !! ssKey e = Some (contentOf v)) as Hm by (rewrite <- Hr; unfold view; by rewrite Ev).
    specialize (Hl _ _ Hm). cbn in Hl. unfold isExpired, readingAt. specialize (Hc (ticks s)). destruct (Z.ltb_spec 0 (ExpiresAt v)); [|done]. cbn [andb]. apply Z.ltb_ge. lia.
Qed.

Lemma load_strings {E : Env} D m now entries : ClockUpTo D → now ≤ D → Syncable D m → StringsOf m entries →
  ∃ st s', LoadReader IoEOF (Some (BuildSnapshot now entries).1) (Some NewStore) = (Ok st, Some s') ∧ StoreInv s' ∧ Represents (replicated m) s'.
Proof.
  intros Hc Hnow Hsync [Hnd Hes].
  assert (∀ e, e ∈ entries → encodable e ∧ (ssExpiresAt e = 0 ∨ (0 < ssExpiresAt e ∧ D < ssExpiresAt e))) as Hok.
  { intros e He%Hes. specialize (Hsync _ _ He). cbn in Hsync. unfold encodable, max_int64 in *. lia. }
  destruct (LoadReader_snapshot now entries NewStore) as (st & s' & loaded & Heq & [L1 L2 L3 L4 L5 L6 L7 L8 L9]); [by apply Forall_forall; intros e [? _]%Hok|done|apply NewStore_inv|done|].
  assert (∀ e, e ∈ loaded ↔ e ∈ entries) as Hloaded.
  { intros e. split; [intros He%L4; by apply elem_of_written in He as [? _]|]. intros He. destruct (Hok e He) as [_ Hx].
    destruct (L5 e) as [|[Hp (t & _ & Ht)]]; [apply elem_of_written; split; [done|lia]|done|]. specialize (Hc t). lia. }
  exists st, s'. split_and!; [done|done|]. intros k. rewrite lookup_replicated. unfold view. destruct (decide (k ∈ ssKey <$> loaded)) as [(e & -> & He)%list_elem_of_fmap|Hn].
  - destruct (L8 e He) as (v & -> & H1 & H2 & H3). apply Hloaded in He. pose proof (proj1 (Hes e) He) as Hm. rewrite Hm. cbn. unfold contentOf. rewrite H1, H2, H3.
    destruct (Hok e He) as [_ Hx]. rewrite Z.max_r by lia. done.
  - rewrite L9 by done. assert (lookupKey NewStore k = None) as ->.
    { unfold lookupKey, shardAt, NewStore, storeOfShards, newShards. cbn [shards]. destruct (replicate _ _ !! _) as [x|] eqn:Ex; [|done]. apply lookup_replicate in Ex as [-> _]. done. }
    cbn. destruct (m !! k) as [[c e]|] eqn:Em; [|done]. pose proof (Hsync _ _ Em) as Hk. destruct c; cbn in Hk |- *; try done.
    exfalso. apply Hn, list_elem_of_fmap. exists (mkStringSnapshot k data e). split; [done|]. apply Hloaded, Hes. done.
Qed.

(** ** The reply of PSYNC on the wire *)

Lemma parse_simple line rest : LF ∉ line → zlen line + 2 ≤ maxLineLength →
  Parse ErrEOF (wireBytes (SimpleString line) ++ rest) = (Ok (SimpleString line), rest).
Proof.
  intros Hl Hlen. assert (wireBytes (SimpleString line) = "+"%byte :: line ++ crlf) as -> by done. rewrite <- app_comm_cons, <- app_assoc.
  unfold Parse, decodeFuel. cbn [parse ReadByte]. rewrite decide_True by done. unfold parseLineFrame. by rewrite readLineBytes_crlf.
Qed.

Lemma asciiFields_word word rest acc : Forall (λ c, asciiSpace c = false) word → asciiFields (word ++ rest) acc = asciiFields rest (acc ++ word).
Proof.
  intros Hw. revert acc. induction Hw as [|c word Hc Hw IH]; intros acc; [by rewrite app_nil_r|]. cbn [app asciiFields]. rewrite Hc, IH, <- app_assoc. done.
Qed.

Section Wire.
Context {C : CommandEnv}.

Definition fullResync (raw : bytes) : bytes := bs "FULLRESYNC " ++ randomReplicationID raw ++ bs " 0".

Lemma fields_fullResync raw : raw ≠ [] → strings_Fields (fullResync raw) = [bs "FULLRESYNC"; randomReplicationID raw; bs "0"].
Proof.
  intros Hraw. pose proof (replicationID_chars raw) as Hid. pose proof (replicationID_length raw) as Hlen. unfold strings_Fields, fullResync.
  assert (isASCII (bs "FULLRESYNC " ++ randomReplicationID raw ++ bs " 0") = true) as ->.
  { unfold isASCII. rewrite !forallb_app, andb_true_iff. split; [done|]. rewrite andb_true_iff. split; [|done]. apply forallb_Forall. eapply Forall_impl; [exact Hid|]. intros c Hc. cbn in Hc. apply Z.ltb_lt. lia. }
  change (bs "FULLRESYNC ") with (bs "FULLRESYNC" ++ bs " "). rewrite <- app_assoc, asciiFields_word by (repeat constructor). change (bs " ") with [" "%byte]. cbn [app asciiFields].
  change (asciiSpace " "%byte) with true. cbv iota. rewrite asciiFields_word.
  2: { eapply Forall_impl; [exact Hid|]. intros c Hc. cbn in Hc. unfold asciiSpace. apply orb_false_iff. split; [apply andb_false_iff; right; apply Z.leb_gt; lia|apply Z.eqb_neq; lia]. }
  cbn [app]. destruct (randomReplicationID raw) as [|c id]; [destruct raw; [done|cbn in Hlen; lia]|]. reflexivity.
Qed.

Lemma fullResync_line raw : (length raw = 20)%nat → LF ∉ fullResync raw ∧ zlen (fullResync raw) + 2 ≤ maxLineLength.
Proof.
  intros Hraw. pose proof (replicationID_chars raw) as Hid. pose proof (replicationID_length raw) as Hlen. unfold fullResync. split.
  - rewrite !not_elem_of_app. split_and!; [by apply (bool_decide_unpack _)| |by apply (bool_decide_unpack _)]. intros Hin. rewrite Forall_forall in Hid. specialize (Hid _ Hin). cbn beta in Hid. change (b2z LF) with 10 in Hid. lia.
  - unfold zlen. rewrite !length_app, Hlen, Hraw. done.
Qed.

(** The bytes of the reply. *)
Definition syncReply (raw payload : bytes) : bytes := wireBytes (SimpleString (fullResync raw)) ++ wireBytes (bulk payload).

Lemma consume_sync D m now entries raw rest s : ClockUpTo D → now ≤ D → Syncable D m → StringsOf m entries → (length raw = 20)%nat →
  zlen (BuildSnapshot now entries).1 ≤ maxBulkStringLength → StoreInv (store (executor s)) → Plain (executor s) →
  ∃ s', consumeFullResync (syncReply raw (BuildSnapshot now entries).1 ++ rest) s = (Ok tt, (rest, s')) ∧ Stored (replicated m) (executor s')
    ∧ aofWriter s' = aofWriter s.
Proof.
  intros Hc Hnow Hsync Hes Hraw Hfit Hs Hp. unfold consumeFullResync, syncReply. destruct (fullResync_line raw Hraw) as [L1 L2]. rewrite <- app_assoc, parse_simple by done.
  rewrite fields_fullResync by (by destruct raw). pose proof (replicationID_length raw) as Hlen. rewrite bool_decide_eq_false_2 by (intros E; rewrite E, Hraw in Hlen; done).
  change (EqualFold (bs "FULLRESYNC") (bs "FULLRESYNC")) with true. cbn [negb andb]. rewrite bool_decide_eq_true_2 by done. cbn [negb].
  unfold Parse at 1. rewrite parse_word; [|cbn; by apply Z.leb_le]. cbn [wireValue bulk].
  destruct (load_strings D m now entries Hc Hnow Hsync Hes) as (st & s1 & -> & H1 & H2).
  destruct (ReplaceWith_same s1 (store (executor s)) H1 Hs Hp) as (R1 & R2 & R3). destruct (ReplaceWith s1 (store (executor s))) as [u s2]. cbn [snd] in *.
  eexists. split_and!; [reflexivity| |done]. split; [done|unfold Plain, maxMemoryEnabled in *; cbn; by rewrite R2|]. intros k. unfold view. cbn. rewrite R3. apply H2.
Qed.
End Wire.

(** ** PSYNC on the master *)

Definition psyncCommand : Value := replicaCommand [bs "PSYNC"; bs "?"; bs "-1"].

Lemma psync_answers {C : CommandEnv} D ctx e m raw o ro : ClockUpTo D → Stored m e → Lasting D m → Open ctx e →
  replication e = Some (mkReplication (randomReplicationID raw) o ro) → (length raw = 20)%nat →
  ∃ now entries r st', ExecuteDetailed ctx psyncCommand (mkSt e noEffects []) = (Ok r, st')
    ∧ Responses r = [SimpleString (fullResync raw); bulk (BuildSnapshot now entries).1] ∧ RegisterReplica r = true ∧ noFrames r
    ∧ now ≤ D ∧ StringsOf m entries ∧ Stored m (ex st').
Proof.
  intros Hc Hm Hl Hopen Hrepl Hraw. set (st := mkSt e noEffects []). set (request := mkRequest (bs "PSYNC") [bs "?"; bs "-1"]).
  assert (ExecuteDetailed ctx psyncCommand st = withExecutionEffects (dispatch (λ ctx request, executeAt 0 ctx request false) ctx request) st) as ->.
  { unfold ExecuteDetailed. change (DecodeRequest psyncCommand) with (Ok (E := cmdError) request). by apply open_dispatch. }
  unfold withExecutionEffects, dispatch. match goal with |- context [command ?run (Name request)] => set (rn := run) end.
  change (command rn (Name request)) with (Some (detailedSpec handlePSync validatePSyncRequest)). unfold hbind at 1. change (mkSt (ex st) noEffects (pauses st)) with st.
  change (validate (detailedSpec handlePSync validatePSyncRequest) request st) with (Ok (E := cmdError) tt, st). cbv beta iota.
  assert (∃ now st1, handlePSync ctx request (ticked st) = (Ok (mkResult [SimpleString (fullResync raw);
      bulk (BuildSnapshot now (omap (snapshotOf (readingAt (tick (store e)))) (scanOrder (tick (store e))))).1] [] [] [] true), st1) ∧ now ≤ D
      ∧ eff st1 = noEffects ∧ store (ex st1) = tick (tick (tick (store e)))) as (now & st1 & Hh & Hnow & He & Hst).
  { unfold handlePSync. change (argc request =? 2) with true. cbn [negb]. change (negb (bool_decide (arg 0 request = bs "?")) || negb (bool_decide (arg 1 request = bs "-1"))) with false.
    unfold hbind at 1, hgets. change (replication (ex (ticked st))) with (replication e). rewrite Hrepl. cbn [MasterReplicationID].
    pose proof (replicationID_length raw) as Hlen. rewrite decide_False by (intros E; rewrite E, Hraw in Hlen; done).
    unfold hbind at 1, onStoreM at 1. change (store (ex (ticked st))) with (tick (store e)). destruct (SnapshotStrings_entries (tick (store e))) as [stats ->].
    unfold hbind at 1, onStoreM at 1, nowMilli. cbn [ex store setStore]. destruct (BuildSnapshot _ _) as [payload bst] eqn:Eb. unfold hbind at 1.
    exists (clock (ticks (tick (tick (store e)))) / 1000000). rewrite Eb. destruct (ctxClient ctx) as [id|].
    - eexists. split_and!; [reflexivity|apply Hc|done|done].
    - eexists. split_and!; [reflexivity|apply Hc|done|done]. }
  destruct (runSpec_detailed ctx request (detailedSpec handlePSync validatePSyncRequest) handlePSync st _ _ eq_refl Hh) as (sl & ->).
  eexists now, _, _, _. split_and!; [reflexivity|reflexivity|reflexivity|split; cbn; by rewrite He|done| |].
  - eapply snapshot_strings; [exact Hc|apply tick_inv, Hm|apply Hm|done].
  - cbn [ex]. eapply (Stored_store _ (ex (ticked st1))); [done|]. apply (Stored_ticks 1 m st1). destruct Hm as [M1 M2 M3]. split; unfold Plain in *; rewrite ?Hst; [by do 3 apply tick_inv|done|done].
Qed.

(** ** The link *)

Definition pong : bytes := wireBytes (SimpleString (bs "PONG")).
Definition okLine : bytes := wireBytes (SimpleString (bs "OK")).

Section Link.
Context {C : CommandEnv} (linkOk : nat → bool).
Hypothesis Hlink : ∀ n, linkOk n = true.

Lemma uplink_writes parts u : Forall (λ p : bytes, zlen p ≤ maxBulkStringLength) parts → zlen parts ≤ maxArrayElements → ∃ u', writeReplicaCommand linkOk parts u = (true, u').
Proof.
  intros Hp Hn. unfold writeReplicaCommand, writeUplink. rewrite EncodeValues_wire; [rewrite Hlink; by eexists|]. apply Forall_singleton. unfold frameOk, replicaCommand, arr.
  apply andb_true_iff. split; [apply Z.leb_le; unfold zlen in *; by rewrite length_fmap|]. apply forallb_Forall, Forall_fmap. eapply Forall_impl; [exact Hp|]. intros p Hz. cbn. by apply Z.leb_le.
Qed.

Lemma exchange_simple parts expect answer data u :
  Forall (λ p : bytes, zlen p ≤ maxBulkStringLength) parts → zlen parts ≤ maxArrayElements → expect (answer ++ data) = (Ok tt, data) →
  ∃ u', exchange linkOk parts expect (answer ++ data) u = (Ok tt, (data, u')).
Proof. intros Hp Hn He. unfold exchange. destruct (uplink_writes parts u Hp Hn) as [u' ->]. cbn [negb]. rewrite He. by exists u'. Qed.

Lemma handshake_syncs port data s : MasterAuth (cfg s) = [] →
  ∃ u, handshake linkOk port (pong ++ okLine ++ data) s = (let '(r, (data, s)) := consumeFullResync data s in (r, (data, u, s))).
Proof.
  intros Ha. assert (zlen (FormatInt port) ≤ maxBulkStringLength) as Hport by (pose proof (FormatInt_length port); unfold zlen, maxBulkStringLength; lia). unfold handshake. destruct (exchange_simple [bs "PING"] (λ d, expectSimpleString d (bs "PONG")) pong (okLine ++ data) (mkUplink [] 0)) as [u1 ->].
  { by repeat constructor. } { done. } { unfold expectSimpleString, pong. rewrite parse_simple; [by rewrite decide_True|by apply (bool_decide_unpack _)|done]. }
  rewrite bool_decide_eq_true_2 by done.
  destruct (exchange_simple [bs "REPLCONF"; bs "listening-port"; FormatInt port] expectReplicaReplConfOK okLine data u1) as [u2 ->].
  { by repeat constructor. } { done. } { unfold expectReplicaReplConfOK, okLine. rewrite parse_simple; [by rewrite decide_True|by apply (bool_decide_unpack _)|done]. }
  destruct (uplink_writes [bs "PSYNC"; bs "?"; bs "-1"] u2) as [u3 ->]; [by repeat constructor|done|]. cbn [negb]. by exists u3.
Qed.

Lemma link_syncs D m now entries raw ps m' addr port s fs : ClockUpTo D → now ≤ D → Syncable D m → StringsOf m entries → (length raw = 20)%nat →
  zlen (BuildSnapshot now entries).1 ≤ maxBulkStringLength → StoreInv (store (executor s)) → Plain (executor s) →
  aofWriter s = None → MasterAuth (cfg s) = [] → parseListenerPort addr = Some port →
  Forall (λ v, frameOk v = true) ps → TakesAll D (wireValue <$> ps) (replicated m) m' →
  ∃ s' fs', startReplicaLink linkOk addr (pong ++ okLine ++ syncReply raw (BuildSnapshot now entries).1 ++ wire ps) s fs = ((None, s'), fs') ∧ Stored m' (executor s').
Proof.
  intros Hc Hnow Hsync Hes Hraw Hfit Hs Hp Haof Hauth Hport Hps Ht. unfold startReplicaLink. rewrite Hport.
  destruct (handshake_syncs port (syncReply raw (BuildSnapshot now entries).1 ++ wire ps) (setUpstream true s) Hauth) as [u ->].
  destruct (consume_sync D m now entries raw (wire ps) (setUpstream true s) Hc Hnow Hsync Hes Hraw Hfit Hs Hp) as (s1 & -> & Hm1 & Haof1). unfold fbind.
  pose proof (frames_fuel ps [] Hps) as Hfuel. rewrite app_nil_r in Hfuel.
  destruct (replicaLoop_takes D linkOk ps (S (length (wire ps))) u s1 fs (replicated m) m') as (s2 & fs2 & -> & Hm2); [exact Hfuel|done|by rewrite Haof1|done|done|by apply lasting_replicated, Syncable_lasting|].
  exists (setUpstream false s2), fs2. split; [done|]. by eapply Stored_store.
Qed.
End Link.
