(* ===== verification/ReplayTheorems.v ===== *)
(** * Commands, replicas and the log implement one keyspace

    The claims that tie the program together: the commands of the executor
    implement the abstract keyspace; a replica that has synchronised and applies
    what its master sends holds the master's keyspace; the append-only file, read
    back, restores it. *)

From S2P Require Import Prelude Strconv GoLib GoText Float64 Resp RespDecode RespDecodeFacts RespParser Stream ValueObject ListWaiters.
From S2P Require Import Store StoreOps StoreFacts StoreMemory StoreInvariant StoreTheorems StorePlain StoreFrames Rdb RdbFacts.
From S2P Require Import Clients Slowlog Replication CommandBase Commands Executor ExecutorFacts HandlerFacts ExecutorTheorems TransactionTheorems.
From S2P Require Import Aof AofFacts FileSys AofWriter AofWriterFacts AofTheorems Config Server ServerRun ServerFacts RewriteFacts RewriteTheorems.
From S2P Require Import Keyspace KeyspaceOps KeyspaceCommands KeyspaceReads KeyspaceLog KeyspaceRun KeyspaceReplay KeyspaceSync.

(** ** Concrete runs

    Clocks that stay between [t0] and [t0 + 100] milliseconds. *)

Definition shortEnv (t0 : Z) : Env :=
  {| env_order := listOrder; env_coins := λ n, (n mod 3 =? 0)%nat; seedHash := λ k, zlen k + t0; clock := λ n, (t0 + Z.of_nat (n mod 100)) * 1000000 |}.
Definition shortCommandEnv (t0 : Z) : CommandEnv := {|
  cmd_env := shortEnv t0; cmd_net := demoNet; cmd_unicode := asciiOnlyTables; sha256 := λ b, b;
  mathLog := λ x, x; mathSin := λ x, x; mathCos := λ x, x; mathAsin := λ x, x;
  memStats := λ _, (0, 0, 0); serverStatsProvider := None; aofRewrite := None |}.

Lemma short_clock t0 : t0 ≤ 1900 → @ClockUpTo (shortEnv t0) 2000.
Proof. intros Ht n. cbn [clock shortEnv]. rewrite Z.div_mul by done. pose proof (Nat.mod_upper_bound n 100 ltac:(done)). lia. Qed.

(** A master with a string and a stream. *)
Definition masterEnv : CommandEnv := shortCommandEnv 1000.
Definition masterStore : Store :=
  @StoreTheorems.runOps (shortEnv 1000) id [OpSet (bs "a") (bs "1") 0; OpXAdd (bs "x") (bs "1-1") [bs "f"; bs "v"]] (storeOfShards (replicate 2 ∅)).
Definition demoRaw : bytes := replicate 20 "7"%byte.
Definition demoMaster : Executor :=
  setReplication (Some (newReplicationState demoRaw)) (Some NewReplicaRegistry) (setHub twoClients (NewExecutor masterStore)).
Definition masterKeyspace : Keyspace := @keyspaceOf (shortEnv 1000) masterStore.

Lemma demoMaster_stored : @Stored masterEnv masterKeyspace demoMaster.
Proof.
  assert (@StoreInv (shortEnv 1000) masterStore) as Hs by (apply storeRun_inv; [apply storeOfShards_inv; lia|repeat constructor]).
  split; [exact Hs|vm_compute; reflexivity|exact (@keyspaceOf_represents (shortEnv 1000) masterStore Hs)].
Qed.

#[global] Instance syncEntry_dec D k o : Decision (syncEntry D k o).
Proof. destruct o as [[] e]; cbn; apply _. Defined.

Lemma masterKeyspace_syncable : Syncable 2000 masterKeyspace.
Proof. apply (bool_decide_unpack (map_Forall (syncEntry 2000) masterKeyspace)). vm_compute. exact I. Qed.

(** What the clients do then: a list, a string with a deadline, a transaction. *)
Definition demoRun : list (Context_ * Value) := (λ words, (asClient 1, line words)) <$>
  [["LPUSH"; "l"; "x"; "y"]; ["SET"; "t"; "soon"; "PX"; "5000"]; ["MULTI"]; ["INCR"; "a"]; ["PUBLISH"; "news"; "hi"]; ["LPUSH"; "a"; "z"]; ["EXEC"]].
Definition demoQueue : list QueuedCommand :=
  [mkQueued (bs "INCR") [bs "a"]; mkQueued (bs "PUBLISH") [bs "news"; bs "hi"]; mkQueued (bs "LPUSH") [bs "a"; bs "z"]].

Lemma sane_other D now request : Name request ≠ bs "SET" → SaneAt D now request.
Proof. intros Hn Hs. done. Qed.

Lemma demo_admissible (P : Request → Prop) request : P request →
  (Name request ≠ bs "SET" ∨ Args request = [bs "t"; bs "soon"; bs "PX"; bs "5000"]) → @Admissible masterEnv 2000 P request.
Proof.
  intros HP Hr. split; [done|]. intros t. destruct Hr as [Hn|Ha]; [by apply sane_other|]. intros Hn e. rewrite Ha. cbn [drop].
  change (@clock (@cmd_env masterEnv) t) with ((1000 + Z.of_nat (t mod 100)) * 1000000). unfold ParseExpiryMillis.
  change (ParseInt (bs "5000")) with (Some 5000). cbn [Z.leb Z.compare]. rewrite decide_False, decide_True by (vm_compute; discriminate || done).
  change (wrap64 (5000 * 1000000)) with (5000 * 1000000). rewrite <- Z.mul_add_distr_r, Z.div_mul by done. intros [= <-]. right.
  pose proof (Nat.mod_upper_bound t 100 ltac:(done)). unfold max_int64. lia.
Qed.

(** The conditions of the run, one command at a time. *)
Ltac plain_name := first [left; vm_compute; discriminate|right; reflexivity].
Ltac allowed_command HP :=
  cbn [ClientRunOk demoRun fmap list_fmap]; split;
  [ intros request Hd; vm_compute in Hd; injection Hd as <-; split;
    [ reflexivity | vm_compute; discriminate | apply demo_admissible; [apply HP; vm_compute; discriminate|plain_name] | ]
  | split; [vm_compute; discriminate|] ].
Ltac no_exec := let Hn := fresh in intros Hn; exfalso; revert Hn; vm_compute; discriminate.
Ltac demo_run HP :=
  do 6 (allowed_command HP; [no_exec|]); allowed_command HP; [|exact I]; intros _ id [= <-];
  match goal with |- Forall _ ?q => replace q with demoQueue by (vm_compute; reflexivity) end;
  repeat (apply Forall_cons; split; [split; [vm_compute; discriminate|split; [vm_compute; discriminate|apply demo_admissible; [apply HP; vm_compute; discriminate|plain_name]]]|]); by apply Forall_nil.

Lemma demoRun_ok (P : Request → Prop) : (∀ request, Name request ≠ bs "XADD" → P request) → @ClientRunOk masterEnv 2000 P demoRun demoMaster.
Proof. intros HP. demo_run HP. Qed.

(** The master after the PSYNC of client 2. *)
Definition syncedMaster : Executor := ex (@ExecuteDetailed masterEnv (asClient 2) psyncCommand (mkSt demoMaster noEffects [])).2.
Lemma syncedRun_ok (P : Request → Prop) : (∀ request, Name request ≠ bs "XADD" → P request) → @ClientRunOk masterEnv 2000 P demoRun syncedMaster.
Proof. intros HP. demo_run HP. Qed.

(** C1: The commands implement the keyspace. Each of the sixteen commands
    that write, run by any client the checks let through on a store that
    holds the keyspace [m], succeeds exactly when the keyspace allows it:
    the store then holds the keyspace [applyRequest] gives, the client gets
    one answer, and one frame goes to the append-only file and (XADD apart)
    to the replicas. A refused command answers with an error and leaves
    every key as it was. The store has no memory limit ([Stored]) and no
    deadline of [m] passes ([ClockUpTo], [Lasting]): under a limit a write
    may be refused or evict other keys, for which see [StoreTheorems]. *)
Theorem commands_refine_keyspace (C : CommandEnv) D ctx request allowQueue st m c :
  ClockUpTo D → meaningOf (Name request) = Some c → Open ctx (ex st) → Stored m (ex st) → Lasting D m →
  ∃ t, let frame := sentFrame (clock t) request in
  match applyRequest (clock t) request m with
  | Some m' => ∃ answer st', executeRequestDetailed ctx request allowQueue st = (Ok (mkResult [answer] [] (sends ctx request frame) [frame] false), st')
      ∧ Stored m' (ex st')
  | None => ∃ e st', executeRequestDetailed ctx request allowQueue st = (Err e, st') ∧ Stored m (ex st')
  end.
Proof.
  intros Hclock Hc Hopen Hm Hl. unfold executeRequestDetailed. cbn [executeAt]. rewrite open_dispatch by done. unfold withExecutionEffects.
  match goal with |- context [dispatch ?run ctx request ?s] => destruct (dispatch_write D Hclock run ctx request s m c Hc) as (t & H); [done..|]; exists t end.
  cbn zeta in *. destruct (applyRequest (clock t) request m) as [m'|].
  - destruct H as (a & st' & -> & _ & Hm'). by exists a, (mkSt (ex st') (eff st) (pauses st')).
  - destruct H as (e & st' & -> & _ & Hm'). by exists e, (mkSt (ex st') (eff st) (pauses st')).
Qed.

(** INCR of the string, in a run of the concrete master. *)
Lemma commands_refine_keyspace_witness :
  let st := mkSt demoMaster noEffects [] in
  let request := mkRequest (bs "INCR") [bs "a"] in
  ∃ m' st', @executeRequestDetailed masterEnv (asClient 1) request true st
      = (Ok (mkResult [Integer 2] [] [propagationFrame request] [propagationFrame request] false), st')
    ∧ m' !! bs "a" = Some (CString (bs "2"), 0) ∧ @Stored masterEnv m' (ex st').
Proof.
  intros st request. destruct (commands_refine_keyspace masterEnv 2000 (asClient 1) request true st masterKeyspace (mkMeaning (λ n, n =? 1) (onFirst (λ _, Some specIncr)))) as (t & H).
  - apply short_clock. lia.
  - reflexivity.
  - split; [|vm_compute; reflexivity]. split; [vm_compute; reflexivity..|left; vm_compute; reflexivity].
  - apply demoMaster_stored.
  - apply Syncable_lasting, masterKeyspace_syncable.
  - cbn zeta in H. assert ((@executeRequestDetailed masterEnv (asClient 1) request true st).1
      = Ok (mkResult [Integer 2] [] [propagationFrame request] [propagationFrame request] false)) as Hr by (vm_compute; reflexivity).
    destruct (applyRequest _ request masterKeyspace) as [m'|] eqn:Ea.
    + destruct H as (answer & st' & Hx & Hm'). exists m', st'. split; [rewrite <- Hr; by rewrite Hx|]. split; [|exact Hm'].
      unfold applyRequest in Ea. change (meaningOf (Name request)) with (Some (mkMeaning (λ n, n =? 1) (onFirst (λ _, Some specIncr)))) in Ea. cbn [mbind option_bind meaning arityOk onFirst] in Ea.
      change (argc request =? 1) with true in Ea. unfold onKey in Ea. change (arg 0 request) with (bs "a") in Ea.
      assert (masterKeyspace !! bs "a" = Some (CString (bs "1"), 0)) as Hk by (vm_compute; reflexivity). rewrite Hk in Ea.
      change (specIncr (Some (CString (bs "1"), 0))) with (Some (Some (CString (bs "2"), 0))) in Ea. cbn [mbind option_bind] in Ea. apply (inj Some) in Ea as <-. by rewrite lookup_partial_alter_eq.
    + exfalso. destruct H as (e & st' & Hx & _). rewrite Hx in Hr. discriminate Hr.
Defined.


(** A replica with another clock and hash, and with a key of its own before. *)
Definition replicaEnv : CommandEnv := shortCommandEnv 1500.
Definition replicaStore : Store := @StoreTheorems.runOps (shortEnv 1500) id [OpSet (bs "old") (bs "gone") 0] (storeOfShards (replicate 3 ∅)).
Definition demoReplica : Server := New Default [] replicaStore.


(** Another server that holds the same at the beginning. *)
Definition restoredStore : Store :=
  @StoreTheorems.runOps (shortEnv 1500) id [OpXAdd (bs "x") (bs "1-1") [bs "f"; bs "v"]; OpSet (bs "a") (bs "1") 0] (storeOfShards (replicate 3 ∅)).

Lemma restored_stored : @Stored replicaEnv masterKeyspace (executor (New Default [] restoredStore)).
Proof.
  assert (@StoreInv (shortEnv 1500) (store (executor (New Default [] restoredStore)))) as Hs
    by (apply (@sv_store replicaEnv), so_inv, New_ok, storeRun_inv; [apply storeOfShards_inv; lia|repeat constructor]).
  split; [exact Hs|vm_compute; reflexivity|].
  pose proof (@keyspaceOf_represents (shortEnv 1500) _ Hs) as Hr. unfold masterKeyspace, keyspaceOf in *.
  replace (prod_map id contentOf <$> @scanOrder (shortEnv 1000) masterStore) with (prod_map id contentOf <$> @scanOrder (shortEnv 1500) (store (executor (New Default [] restoredStore))))
    by (vm_compute; reflexivity).
  exact Hr.
Qed.



(** ** What the conditions leave out *)

(** The pop of BLPOP is neither logged nor sent: the client has the element, the
    list is gone, and a restart from the append-only file brings it back, as a
    replica keeps it. *)
Lemma blpop_undone_by_replay :
  let run := @clientRun masterEnv [(asClient 1, line ["RPUSH"; "l"; "x"]); (asClient 1, line ["BLPOP"; "l"])] demoMaster in
  let push := propagationFrame (mkRequest (bs "RPUSH") [bs "l"; bs "x"]) in
  run.1 = ([push], [push])
  ∧ @view (shortEnv 1000) (store run.2) (bs "l") = None
  ∧ let out := LoadFile (@replayOn replicaEnv) (wire run.1.2) (New Default [] restoredStore, demoAof []) in
    out.1 = (mkLoadStats 1 false, None) ∧ @view (shortEnv 1500) (store (executor out.2.1)) (bs "l") = Some (CList [bs "x"], 0).
Proof. vm_compute. repeat split. Qed.

(** PSYNC takes its snapshot while it executes, but the peer is registered only
    after the reply has been written: a write of another client in between is in
    neither.  The replica then misses it for good, and later frames that build on
    it fail on the replica or diverge. *)
Definition gapServer : Server :=
  let s := (registerClient (registerClient (New Default (randomReplicationID demoRaw) masterStore)).2).2 in
  onServerHub (onClient 2 (BindResponseWriter (Some []))) s.
Definition gapRun : Server :=
  let fs := demoAof [] in
  let '((r, s), fs) := @executeClientRequest masterEnv (mkContext (Some 2%nat) false false) 2 [] psyncCommand [] gapServer fs in
  let replies := match r with Some (responses, _) => responses | None => [] end in
  let s := setExecutor (setHub (@WriteResponses demoNet 2 replies (hub (executor s))).2 (executor s)) s in
  (* another connection's goroutine *)
  let '((_, s), fs) := @executeClientRequest masterEnv (mkContext (Some 1%nat) false false) 1 [] (line ["SET"; "k"; "v"]) [] s fs in
  let s := registerReplicaPeer 2 s in
  (@executeClientRequest masterEnv (mkContext (Some 1%nat) false false) 1 [] (line ["SET"; "k2"; "v2"]) [] s fs).1.2.

Lemma write_lost_between_psync_and_registration :
  let out := @startReplicaLink replicaEnv (λ _, true) (bs "127.0.0.1:6380")
      (pong ++ okLine ++ default [] (outbox (client (hub (executor gapRun)) 2))) demoReplica (demoAof []) in
  out.1.1 = None
  ∧ @view (shortEnv 1000) (store (executor gapRun)) (bs "k") = Some (CString (bs "v"), 0)
  ∧ @view (shortEnv 1500) (store (executor out.1.2)) (bs "k") = None
  ∧ @view (shortEnv 1500) (store (executor out.1.2)) (bs "k2") = Some (CString (bs "v2"), 0).
Proof. vm_compute. repeat split. Qed.
